(* ===== verification/_CoqProject ===== *)
-Q . S2P
Prelude.v
RustStr.v
Ir.v
IrOps.v
SchemaVersion.v
Liveness.v
TemporalStatus.v
Trust.v
LevelSearch.v
WorkList.v
Selection.v
CommitOrder.v
TransactionTime.v
DepthSearch.v
CallPath.v
EvidencePath.v
CycleSearch.v
RepoIndex.v
AsOf.v
DependencyCycles.v
LogTemplate.v
Tarjan.v
TaskReady.v
Supersede.v
Retirement.v
SecretPatterns.v
SecretSpans.v
Redaction.v
Forget.v
RepoEvict.v
RecordEq.v
Ingest.v
IndexTable.v
GraphIndex.v
IndexClosure.v
Hydration.v
CrateOwner.v
TransitiveCallers.v
TransitiveCallees.v
CallNeighborhood.v
F32.v
UnionFind.v
MemoryCollapse.v
CitationAudit.v
Bundle.v
DaemonWrites.v
ReceiptRepair.v
TokenRotation.v
Pressure.v
