(* ===== verification/Prelude.v ===== *)
(** * Egregore: a Rocq development of the graph core

    Egregore turns a repository, the logs of its runs and the memories of the agents that work
    on it into one append-only log of graph records (a JSON object per line), and answers
    questions over that log. This development models the record format, the rules that say
    which record of the log is in force, the writers that append to it, the sidecar index of
    a log file and a number of query lanes, and proves them correct. A definition is a translation of the
    Rust function named in the comment before it ([file first-last: symbol], relative to
    [src/src/]); the names are those of the source.

    ** How the program hangs together

    Everything is a [GraphRecord]: a node, an edge or a tombstone. Records are minted with
    content-derived ids, appended and never rewritten. A later record of an id supersedes an
    earlier one, a tombstone deletes its target until the target is written again, and a
    record that carries a commit anchor ([temporal]) survives deletion. A query lane takes the whole
    log, or the part of it an index selects, builds [Liveness] and often
    [RepositoryIndex], and computes over what is live. A write lane (retraction, retirement,
    supersession, eviction) reads the log, refuses or returns the records to append. The
    sinks take batches of records through a citation check and the secret gate. The daemon's
    worker takes write commands one at a time and puts each through a receipt, the validators
    and a sink.

    ** Conventions

    A Rust [String] is a [string] of bytes ([text], a list of bytes, where offsets matter;
    a list of code points in [LogTemplate]); unsigned integers are [N], or [nat] when a length
    or a list index bounds them, [i64] is [Z]; an [f64] is its bit pattern. [Vec] is [list],
    [BTreeMap] and [HashMap] with string keys are [gmap string], sets are [gset string], and
    the order a B-tree map is iterated in is [Prelude.keys]/[Prelude.iter], the keys in byte
    order. Iterating a hash set has no order in Rust, so it is a parameter where it matters
    ([TemporalStatus]). [Result] is [result], and an operation that can panic or whose loop
    is run with fuel returns an [option], [None] being the panic or the end of the fuel; the
    theorems about it say when the result is [Some]. An unstable sort is a parameter with its
    documented contract, and so is the stable sort where its comparison may fail to be an order
    ([MemoryCollapse.StableSort]).

    ** The files

    - [Prelude]: results, tactics, orders and sorting, maps by key, folds over a log.
    - [RustStr]: the [str] and integer-parsing functions of the Standard Library.
    - [Ir], [IrOps] ([ir.rs]): the record types, their wire names, the stable ids, the
      constructors and [with_*] builders, the container and its export. Proved: ids minted in any of the
      eight domains identify their parts unless BLAKE3 collides, [parse_codegraph_id] inverts
      the minting, builders keep the identity of a record.
    - [SchemaVersion] ([schema_version.rs]): the acceptance gate and the reader of a line.
    - [Liveness] ([query/liveness.rs]): the maps of the latest writes and tombstones, shown to
      refine a three-state machine per id.
    - [TemporalStatus] ([temporal_status.rs]): supersession heads, cycles and belief status.
    - [LevelSearch], [DepthSearch]: the breadth-first search the call-graph lanes share, stated
      once against a class of laws ([LevelLaws]) each lane proves for its level.
    - [CallPath] ([query/path.rs]), [TransitiveCallers], [TransitiveCallees] ([query/…]),
      [EvidencePath] ([query/evidence_path.rs]): shortest and least paths, closures up to a
      depth with exact counts of what lies beyond.
    - [CycleSearch], [DependencyCycles] ([query/cycles.rs]): Johnson's enumeration of elementary
      cycles under a cap, and the dependency-cycle query with its panics.
    - [RepoIndex] ([query/repo.rs]): which repository owns a record, and which repository a
      selector names.
    - [Tarjan], [TaskReady] ([query/task_ready.rs]): the iterative component search and the
      ready/blocked partition of the open tasks.
    - [WorkList], [Selection]: the queues and the order-preserving selections that several lanes
      repeat, with their invariants stated once.
    - [CommitOrder], [TransactionTime] ([query/transaction_time.rs]): the order of the commits a
      replayed history names, and the view of the log at an instant of either time axis.
    - [AsOf] ([query/as_of.rs]): the symbols at a valid time, at HEAD and along the history of HEAD.
    - [CallNeighborhood] ([query/neighborhood.rs]): the walk around a symbol under two budgets.
    - [Trust] ([query/trust.rs]): the derived trust class of a record.
    - [F32], [UnionFind], [MemoryCollapse] ([query/memory_collapse.rs]): single-precision arithmetic
      over [SpecFloat], the union-find forest, and the clusters of near-duplicate memories.
    - [CitationAudit] ([citation_audit.rs]): which citation a row of an answer rests on.
    - [Bundle] ([bundle.rs]): the evidence bundle: closure, scrubbing, counts, verification.
    - [DaemonWrites] ([daemon.rs], [apply_write] and below): the write path of the daemon as a
      function on receipts and store ([Daemon.t]), and its contract as a step relation
      ([write_step]); the domain validators and the embedded store are the classes
      [DomainValidators] and [EmbeddedSink], the outcome of each write of the receipt file an argument.
    - [ReceiptRepair] ([daemon.rs], [repair_write_receipts]): the offline repair of the receipts,
      and the life of a daemon as steps of writes, store changes and repairs ([daemon_step]).
    - [TokenRotation] ([daemon.rs], [TokenRotationState] and [maybe_rotate_token]): the daemon's
      access tokens and the pass that rotates and publishes them.
    - [Pressure] ([daemon.rs], [PressureTracker] and [enqueue_write]): the admission of writes, as
      programs of atomic actions interleaved with the worker ([system_step]); every operation is
      shown to keep the shared invariant whatever the others owe ([behaves]), and the theorem
      follows for every interleaving.
    - [LogTemplate] ([log_graph/template.rs]): the normalization of log messages.
    - [SecretPatterns], [SecretSpans], [Redaction] ([redaction.rs]): detection of secrets, their
      spans, in-place masking, the markers, the persistence gate and the masking of a scan.
    - [Supersede] ([supersede_write.rs]), [Retirement] ([memory_retire.rs]), [Forget]
      ([forget.rs]), [RepoEvict] ([repo_evict.rs]): the write lanes, each with the effect of
      the records it appends on what later readers see.
    - [RecordEq], [Ingest] ([adapters/mod.rs]): equality of records, the sink interface as a class with
      its contract ([GraphSink], [GraphSinkContract]), the two sinks of the file as its instances, the
      quarantine of dangling citations and the report, shown to refine an abstract ingest.
    - [IndexTable], [GraphIndex], [IndexClosure] ([graph_index.rs]): the byte format of the
      sidecar index and its in-place reader, the builder, the file layout and the validation
      on opening, the closure walk over either view of an index ([IndexView], [GoodView]) and
      the hydration of records.
    - [Hydration]: composition; [Liveness] and [RepositoryIndex] on the records an index
      selects say of an id what they say on the whole log.
    - [CrateOwner] ([crate_attribution.rs]): the owning Cargo package of a path.

    ** Groups of theorems

    - Searches: they end, do not panic (or panic exactly when stated), and return exactly the
      specified set, path or partition: [enumerate_complete], [enumerate_is_capped_reference],
      [dependency_cycles_complete], [dependency_cycles_panics_iff], [tarjan_scc_correct],
      [call_path_correct], [transitive_callers_complete], [transitive_callees_complete],
      [evidence_path_least], [heads_terminate_and_are_correct], [ownership_is_reachability].
    - Writers: what the appended records do to every id: [retraction_effect], [retire_effect],
      [retirement_reversible], [plan_evicts_own_records], [eviction_effect].
    - Store boundary: [no_dangling_citation_enters], [ingest_accounts], [ingest_refines],
      [validate_record_exact], [read_record_line_classifies].
    - Index: [build_lists_cold_records], [table_roundtrip], [table_reads_in_bounds],
      [index_file_roundtrip], [open_validates], [hydrate_reads_closures],
      [hydration_preserves_queries].
    - Secrets: [redaction_ends_clean], [code_graph_masked], [markers_roundtrip].
    - Text: [match_any_in_bounds], [codegraph_id_roundtrip], [minted_ids_identify].
    - Ownership: [selector_never_guesses], [presentable_is_producible],
      [attribution_is_nearest_manifest]; tasks: [task_ready_partition].
    - History: [commit_order_correct], [tx_view_exact], [prior_view_stable],
      [resolve_as_of_exact], [head_symbols_exact].
    - Answers over memories: [neighborhood_exact], [trust_exact], [collapse_exact],
      [collapse_monotone], [runtime_row_cited], [agent_claim_never_own_evidence].
    - Bundles: [export_bundle_exact], [export_verifies], [scrub_lockstep].
    - Daemon: [apply_write_refines] (every write is a step of its contract),
      [write_succeeds_once] (over any sequence of writes, losses and repairs),
      [repair_exact], [repair_converges], [authorize_exact], [rotation_safe],
      [pressure_sound] (over every interleaving of requests and worker).
    - Findings, where the code does not do what it means to or what it documents:
      [deduplicated_receipt_stuck], [root_versions_exported_twice],
      [pathless_source_hides_complete_one] and others, each a theorem beside its component.

    ** Fuel

    A loop whose recursion is not structural carries fuel. Where the model itself fixes it, the
    number is one the loop's measure cannot exceed: the records of the view (searches over
    records, where every round adds a record to the visited set), the edges of the adjacency
    plus one (the ownership walk), the length of the text (strips, matchers, markers), the
    interval of a binary search. Where it is an argument ([redact_code_text],
    [resolve_supersession_heads], the index walks, the ingest and the write around it), the theorem states a bound above
    which the result is there and no longer depends on it.

    ** Parameters

    BLAKE3 ([blake3_hex], [blake3]), the RFC 3339 parser, zoned instants and the wall clock,
    [serde_json] (the class [JsonValue], decoders and printers), the message of a UTF-8 error,
    the XID tables of package names, the Unicode lowercasing tables, the hash-set iteration
    order, the domain validators of a write and the outcome of a write to disk are external to
    the model: they are arguments of the definitions, with their documented behaviour as named hypotheses where a
    theorem needs it. Theorems with such hypotheses are applied to concrete functions in
    their witnesses.

    ** Not modelled

    The language extractors ([languages/], [parser.rs]) are walks over the syntax trees of
    external grammars, whose node kinds and shapes are not in the repository: a model would have
    to make them up. History replay, incremental scans and the repository identity run git and
    walk the file system; the GitHub importer and the transcript and document importers decode
    external formats; the AletheiaDB adapter ([adapters/aletheiadb.rs]) is calls into that
    database; the protected and encrypted stores call cryptographic libraries. What is left of
    the daemon, the MCP server and the command line is routing, argument parsing and rendering,
    with the domain validators of a write, which are arguments here. The evidence pack
    ([evidence_pack.rs]) selects and renders text for a token budget, and the report lanes not
    listed above (churn, coverage, ownership, sessions and others) are further projections over
    the same liveness, ownership and trust definitions; they keep no state of their own.
    The JSON envelopes and messages of errors are presentation. The poisoning of locks is not modelled.
    Threads are interleaved in [Pressure], where they share atomics; elsewhere a lock or the
    single worker makes a whole operation one step.
    Overflow of [usize] counters of in-memory collections is not modelled; that of offsets in index
    files is ([IndexTable]). *)
From stdpp Require Export base gmap sets list strings sorting pretty.
From coqutil Require Export Datatypes.RecordSetters.
Export DoubleBraceUpdate.

(** ** Notations *)
Declare Scope rust_scope.
Delimit Scope rust_scope with rust.
Infix "=s?" := String.eqb (at level 70, no associativity) : rust_scope.
Open Scope rust_scope.

(** The result of a fallible operation: Rust's [Result<T, E>]. *)
Inductive result (A E : Type) : Type :=
| Ok (a : A)
| Err (e : E).
Arguments Ok {A E} a.
Arguments Err {A E} e.

Definition result_bind {A B E} (r : result A E) (k : A → result B E) : result B E :=
  match r with Ok a => k a | Err e => Err e end.

(** The [?] operator on [Result] and on [Option]. *)
Notation "'let?' x ':=' r 'in' k" := (result_bind r (λ x, k))
  (at level 10, x name, r at level 100, k at level 200) : rust_scope.
Notation "'let?o' x ':=' r 'in' k" := (mbind (M := option) (λ x, k) r)
  (at level 10, x name, r at level 100, k at level 200) : rust_scope.

(** [Option::ok_or]. *)
Definition ok_or {A E} (o : option A) (e : E) : result A E :=
  match o with Some a => Ok a | None => Err e end.

(** [Result::map_err]. *)
Definition map_err {A E F} (f : E → F) (r : result A E) : result A F :=
  match r with Ok a => Ok a | Err e => Err (f e) end.

(** [Option::or_else] with an already evaluated alternative. *)
Definition or_else {A} (o alt : option A) : option A :=
  match o with Some a => Some a | None => alt end.

Definition is_some {A} (o : option A) : bool :=
  match o with Some _ => true | None => false end.
Definition is_none {A} (o : option A) : bool := negb (is_some o).

(** [Option<&str> == Some(s)]. *)
Definition opt_str_eqb (a b : option string) : bool := bool_decide (a = b).

(** ** Tactics *)

(** Turns the boolean tests of the source into propositions. *)
Ltac breflect :=
  repeat match goal with
  | H : _ && _ = true |- _ => apply andb_prop in H as [? ?]
  | H : _ && _ = false |- _ => apply andb_false_iff in H as [?|?]
  | H : _ || _ = true |- _ => apply orb_prop in H as [?|?]
  | H : _ || _ = false |- _ => apply orb_false_elim in H as [? ?]
  | H : negb _ = true |- _ => apply negb_true_iff in H
  | H : negb _ = false |- _ => apply negb_false_iff in H
  | H : String.eqb _ _ = true |- _ => apply String.eqb_eq in H
  | H : String.eqb _ _ = false |- _ => apply String.eqb_neq in H
  | H : bool_decide _ = true |- _ => apply bool_decide_eq_true_1 in H
  | H : bool_decide _ = false |- _ => apply bool_decide_eq_false_1 in H
  end.

(** Case analysis on every [match]/[if] of a hypothesis or of the goal. *)
Ltac cases_in H := repeat case_match; simplify_eq/=.

(** Splits a record value of the model into the case it is. *)
Ltac destruct_option x := let E := fresh "E" x in destruct x eqn:E; simpl in *.

(** ** Sorting: [slice::sort] on strings, in byte order *)
Definition str_sort (l : list string) : list string := merge_sort String.le l.

Lemma str_sort_perm l : str_sort l ≡ₚ l.
Proof. apply merge_sort_Permutation. Qed.

Lemma str_sort_sorted l : StronglySorted String.le (str_sort l).
Proof. apply StronglySorted_merge_sort; apply _. Qed.

(** Without repetitions the sorted list increases strictly. *)
Lemma str_sort_strict l :
  NoDup l → StronglySorted (λ a b, String.le a b ∧ a ≠ b) (str_sort l).
Proof.
  intros Hnd. pose proof (str_sort_sorted l) as Hs.
  assert (NoDup (str_sort l)) as Hn by by rewrite str_sort_perm.
  induction Hs as [|x k Hs IH Hx]; [constructor|]. apply NoDup_cons in Hn as [Hxk Hn].
  constructor; [by apply IH|]. apply Forall_forall. intros y Hy. split.
  - by apply (proj1 (Forall_forall _ _) Hx).
  - intros ->. done.
Qed.

(** A permutation does not change the sorted list. *)
Lemma str_sort_proper l k : l ≡ₚ k → str_sort l = str_sort k.
Proof.
  intros Hp. apply (StronglySorted_unique String.le).
  - apply str_sort_sorted.
  - apply str_sort_sorted.
  - by rewrite !str_sort_perm.
Qed.

#[export] Instance str_sort_Proper : Proper ((≡ₚ) ==> (=)) str_sort.
Proof. intros l k. apply str_sort_proper. Qed.

(** ** Ordered containers

    A [BTreeMap<String, _>] is a [gmap string _] and a [BTreeSet<String>] a [gset string];
    what iterating over them yields is [keys] and [iter], in byte order. *)
Definition keys {A} (m : gmap string A) : list string := str_sort (elements (dom m)).
Definition iter (s : gset string) : list string := str_sort (elements s).

Lemma keys_NoDup {A} (m : gmap string A) : NoDup (keys m).
Proof. unfold keys. rewrite str_sort_perm. apply NoDup_elements. Qed.

Lemma keys_elem {A} (m : gmap string A) k : k ∈ keys m ↔ is_Some (m !! k).
Proof. unfold keys. by rewrite str_sort_perm, elem_of_elements, elem_of_dom. Qed.

Lemma iter_NoDup (X : gset string) : NoDup (iter X).
Proof. unfold iter. rewrite str_sort_perm. apply NoDup_elements. Qed.

Lemma elem_of_iter (X : gset string) x : x ∈ iter X ↔ x ∈ X.
Proof. unfold iter. by rewrite str_sort_perm, elem_of_elements. Qed.

(** [slice::sort_by]: the stable sort of a total comparison. *)
Definition sort_by {A} (cmp : A → A → comparison) (l : list A) : list A :=
  merge_sort (λ a b, cmp a b ≠ Gt) l.

(** [Ordering::then]. *)
Definition then_cmp (c d : comparison) : comparison :=
  match c with Eq => d | _ => c end.

(** The derived order of [Option<String>]. *)
Definition opt_cmp (a b : option string) : comparison :=
  match a, b with
  | None, None => Eq
  | None, Some _ => Lt
  | Some _, None => Gt
  | Some a, Some b => String.compare a b
  end.

(** The derived order of [Vec<T>]: lexicographic. *)
Fixpoint vec_cmp {A} (cmp : A → A → comparison) (a b : list A) : comparison :=
  match a, b with
  | [], [] => Eq
  | [], _ :: _ => Lt
  | _ :: _, [] => Gt
  | x :: a, y :: b => then_cmp (cmp x y) (vec_cmp cmp a b)
  end.

Lemma sort_by_perm {A} (cmp : A → A → comparison) l : sort_by cmp l ≡ₚ l.
Proof. apply merge_sort_Permutation. Qed.

(** ** Lists and options *)

(** [collect::<Result<Vec<_>, _>>()] of a permuted list succeeds or fails with it. *)
Lemma mapM_Permutation {A B} (f : A → option B) l k :
  l ≡ₚ k →
  (mapM f l = None ∧ mapM f k = None)
  ∨ ∃ ls ks, mapM f l = Some ls ∧ mapM f k = Some ks ∧ ls ≡ₚ ks.
Proof.
  intros Hp. destruct (mapM f l) as [ls|] eqn:E1, (mapM f k) as [ks|] eqn:E2; [|..].
  - right. exists ls, ks. split_and!; [done..|].
    apply mapM_Some in E1, E2.
    assert (∀ l ls, Forall2 (λ x y, f x = Some y) l ls → omap f l = ls) as Hom.
    { clear. induction 1 as [|x y l ls Hxy _ IH]; [done|]. csimpl. by rewrite Hxy, IH. }
    rewrite <-(Hom _ _ E1), <-(Hom _ _ E2). by rewrite Hp.
  - exfalso. apply mapM_None_1, Exists_exists in E2 as (x & Hx & Hfx).
    apply mapM_Some in E1. rewrite <-Hp in Hx.
    apply list_elem_of_lookup in Hx as [i Hi].
    destruct (Forall2_lookup_l _ _ _ _ _ E1 Hi) as (y & _ & ?). congruence.
  - exfalso. apply mapM_None_1, Exists_exists in E1 as (x & Hx & Hfx).
    apply mapM_Some in E2. rewrite Hp in Hx.
    apply list_elem_of_lookup in Hx as [i Hi].
    destruct (Forall2_lookup_l _ _ _ _ _ E2 Hi) as (y & _ & ?). congruence.
  - by left.
Qed.

(** A sort by a key is determined by the elements when their keys differ. *)
Section SortByKey.
Context {A : Type} (key : A → string).
Let cmp (a b : A) : comparison := String.compare (key a) (key b).

Lemma str_compare_le s t : String.compare s t ≠ Gt ↔ String.le s t.
Proof.
  unfold String.le, String.leb. destruct (String.compare s t); simpl; split; done.
Qed.

#[local] Instance key_le_total : Total (λ a b, cmp a b ≠ Gt).
Proof. intros a b. unfold cmp. rewrite !str_compare_le. apply total; apply _. Qed.

#[local] Instance key_le_trans : Transitive (λ a b, cmp a b ≠ Gt).
Proof. intros a b c. unfold cmp. rewrite !str_compare_le. apply transitivity. Qed.

Lemma sort_by_key_sorted l : StronglySorted (λ a b, cmp a b ≠ Gt) (sort_by cmp l).
Proof. apply StronglySorted_merge_sort; apply _. Qed.

Lemma sort_by_key_unique l k :
  l ≡ₚ k → NoDup (key <$> l) → sort_by cmp l = sort_by cmp k.
Proof.
  intros Hp Hnd.
  apply (StronglySorted_unique_strong (λ a b, cmp a b ≠ Gt)).
  - intros x y Hx Hy Hxy Hyx. unfold cmp in Hxy, Hyx. rewrite str_compare_le in Hxy, Hyx.
    assert (key x = key y) as Hk by by apply (anti_symm String.le).
    rewrite sort_by_perm in Hx. rewrite sort_by_perm, <-Hp in Hy.
    apply list_elem_of_lookup in Hx as [i Hi], Hy as [j Hj].
    assert (i = j) as <-.
    { apply (NoDup_lookup _ _ _ (key x) Hnd); rewrite list_lookup_fmap.
      - by rewrite Hi.
      - rewrite Hj. simpl. by rewrite Hk. }
    congruence.
  - apply sort_by_key_sorted.
  - apply sort_by_key_sorted.
  - by rewrite !sort_by_perm.
Qed.
End SortByKey.

(** ** Chains of a relation *)

(** Consecutive elements of [l] are related. *)
Definition chain {A} (R : A → A → Prop) (l : list A) : Prop :=
  ∀ i x y, l !! i = Some x → l !! S i = Some y → R x y.

Lemma chain_app_snoc {A} (R : A → A → Prop) l x y :
  chain R (l ++ [x]) → R x y → chain R ((l ++ [x]) ++ [y]).
Proof.
  intros Hc Hxy i a b Ha Hb.
  apply lookup_app_Some in Hb as [Hb|[Hlen Hb]].
  - apply (Hc i); [|done]. rewrite lookup_app_l in Ha; [done|].
    apply lookup_lt_Some in Hb. lia.
  - apply list_lookup_singleton_Some in Hb as [Hi <-].
    rewrite length_app in *; simpl in *.
    assert (i = length l) as -> by lia.
    rewrite lookup_app_l, list_lookup_middle in Ha by (rewrite ?length_app; simpl; lia || done).
    by simplify_eq.
Qed.

Lemma chain_drop {A} (R : A → A → Prop) n l : chain R l → chain R (drop n l).
Proof.
  intros Hc i x y. rewrite !lookup_drop, <-Nat.add_succ_comm, Nat.add_succ_l. apply Hc.
Qed.

Lemma chain_rtc {A} (R : A → A → Prop) l i x y :
  chain R l → head l = Some x → l !! i = Some y → rtc R x y.
Proof.
  intros Hc Hh. revert y. induction i as [|i IH]; intros y Hy.
  - destruct l; simplify_eq/=. done.
  - destruct (l !! i) as [z|] eqn:Hz.
    + eapply rtc_r; [by apply IH|]. by eapply Hc.
    + apply lookup_ge_None in Hz. apply lookup_lt_Some in Hy. lia.
Qed.

(** ** Multimaps built by pushing *)

(** What [foldl] pushes under a key: the values of the elements with that key. *)
Lemma foldl_push {A B} (f : A → option (string * B)) (l : list A) (s : string) (b : B) :
  b ∈ default [] (foldl (λ m a, match f a with
                     | Some (k, v) => <[k := default [] (m !! k) ++ [v]]> m
                     | None => m end) (∅ : gmap string (list B)) l !! s)
  ↔ ∃ a, a ∈ l ∧ f a = Some (s, b).
Proof.
  induction l as [|a l IH] using rev_ind.
  { simpl. rewrite lookup_empty. split; [by intros ?%elem_of_nil|].
    by intros (a & ?%elem_of_nil & _). }
  rewrite foldl_app. cbn [foldl].
  assert (∀ P : A → Prop, (∃ x, x ∈ l ++ [a] ∧ P x) ↔ (∃ x, x ∈ l ∧ P x) ∨ P a) as Hex.
  { intros P. setoid_rewrite elem_of_app. setoid_rewrite list_elem_of_singleton.
    naive_solver. }
  rewrite Hex, <-IH. destruct (f a) as [[k v]|] eqn:Hf; [|naive_solver].
  destruct (decide (k = s)) as [->|Hk].
  - rewrite lookup_insert_eq. simpl.
    rewrite elem_of_app, list_elem_of_singleton. naive_solver.
  - rewrite lookup_insert_ne by done. naive_solver.
Qed.

Lemma foldl_ext_elem {A B} (f g : B → A → B) (l : list A) (b : B) :
  (∀ b x, x ∈ l → f b x = g b x) → foldl f b l = foldl g b l.
Proof.
  revert b. induction l as [|x l IH]; intros b H; simpl; [done|].
  rewrite (H b x) by (by left). apply IH. intros b' y Hy. apply H. by right.
Qed.

(** What holds of an accumulator when every step can only add to it. *)
Lemma foldl_or {A B} (f : B → A → B) (P : B → Prop) (Q : A → Prop) (l : list A) (b : B) :
  (∀ b x, x ∈ l → P (f b x) ↔ P b ∨ Q x) → P (foldl f b l) ↔ P b ∨ ∃ x, x ∈ l ∧ Q x.
Proof.
  revert b. induction l as [|x l IH]; intros b H; cbn [foldl].
  - split; [by left|]. intros [?|(? & ?%elem_of_nil & _)]; done.
  - rewrite IH by (intros b' y Hy; apply H; by right). rewrite (H b x) by (by left).
    setoid_rewrite elem_of_cons. naive_solver.
Qed.

Lemma elem_of_imap_pair {A} (l : list A) i x : (i, x) ∈ imap pair l ↔ l !! i = Some x.
Proof.
  rewrite list_elem_of_lookup. setoid_rewrite list_lookup_imap. split.
  - intros (j & Hj). destruct (l !! j) eqn:E; naive_solver.
  - intros Hi. exists i. by rewrite Hi.
Qed.

Lemma elem_of_nil_inv_iff {A} (l : list A) : (∀ x, x ∉ l) ↔ l = [].
Proof. split; [apply elem_of_nil_inv|]. intros -> x. by intros ?%elem_of_nil. Qed.

Lemma elem_of_concat {A} (ls : list (list A)) x : x ∈ concat ls ↔ ∃ l, x ∈ l ∧ l ∈ ls.
Proof.
  induction ls as [|l ls IH]; cbn [concat]; [set_solver|].
  rewrite elem_of_app, IH. setoid_rewrite elem_of_cons. naive_solver.
Qed.

(** ** Lexicographic sorts by two string keys *)
Lemma str_compare_Eq s t : String.compare s t = Eq ↔ s = t.
Proof.
  split; [apply String.compare_eq_iff|]. intros ->.
  pose proof (String.compare_antisym t t) as H. by destruct (t ?= t)%string.
Qed.

Section Lex.
Context {A : Type} (f g : A → string).

Definition lex_cmp (a b : A) : comparison :=
  then_cmp (String.compare (f a) (f b)) (String.compare (g a) (g b)).
Definition lex_le (a b : A) : Prop :=
  String.le (f a) (f b) ∧ (f a = f b → String.le (g a) (g b)).

Lemma lex_cmp_le a b : lex_cmp a b ≠ Gt ↔ lex_le a b.
Proof.
  unfold lex_cmp, lex_le. rewrite <-!str_compare_le.
  destruct (String.compare (f a) (f b)) eqn:E; simpl.
  - apply str_compare_Eq in E. naive_solver.
  - split; [|done]. intros _. split; [done|]. intros He.
    apply str_compare_Eq in He. congruence.
  - naive_solver.
Qed.

#[export] Instance lex_le_trans : Transitive lex_le.
Proof.
  intros a b c [H1 H2] [H3 H4]. split; [by etrans|]. intros He.
  assert (f a = f b) as Hab.
  { apply (anti_symm String.le); [done|]. by rewrite He. }
  etrans; [by apply H2|]. apply H4. congruence.
Qed.

#[export] Instance lex_le_total : Total lex_le.
Proof.
  intros a b. unfold lex_le.
  destruct (decide (f a = f b)) as [He|He].
  - destruct (total String.le (g a) (g b)); [left|right]; rewrite He; done.
  - destruct (total String.le (f a) (f b)); [left|right]; split; congruence.
Qed.

Lemma lex_le_antisymm a b : lex_le a b → lex_le b a → f a = f b ∧ g a = g b.
Proof.
  intros [H1 H2] [H3 H4]. assert (f a = f b) as He by by apply (anti_symm String.le).
  split; [done|]. apply (anti_symm String.le); auto.
Qed.

Lemma lex_cmp_antisym a b : lex_cmp b a = CompOpp (lex_cmp a b).
Proof.
  unfold lex_cmp. rewrite (String.compare_antisym (f b)), (String.compare_antisym (g b)).
  by destruct (String.compare (f a) (f b)), (String.compare (g a) (g b)).
Qed.

Lemma sort_by_lex_sorted l : StronglySorted lex_le (sort_by lex_cmp l).
Proof.
  assert (Transitive (λ a b, lex_cmp a b ≠ Gt)).
  { intros a b c. rewrite !lex_cmp_le. apply transitivity. }
  assert (Total (λ a b, lex_cmp a b ≠ Gt)).
  { intros a b. rewrite !lex_cmp_le. apply total, _. }
  assert (StronglySorted (λ a b, lex_cmp a b ≠ Gt) (sort_by lex_cmp l)) as Hs
    by by apply StronglySorted_merge_sort.
  induction Hs as [|x k _ IH Hx]; constructor; [done|].
  eapply Forall_impl; [done|]. intros y. by rewrite lex_cmp_le.
Qed.
End Lex.

(** ** Comparisons that are orders

    A comparison of the source ([Ord::cmp]) is a total preorder whose converse it gives on
    swapped arguments; [cmp_le] is the preorder. *)
Class CmpOrder {A} (cmp : A → A → comparison) : Prop := {
  cmp_opp a b : cmp b a = CompOpp (cmp a b);
  cmp_trans a b c : cmp a b ≠ Gt → cmp b c ≠ Gt → cmp a c ≠ Gt
}.
Definition cmp_le {A} (cmp : A → A → comparison) (a b : A) : Prop := cmp a b ≠ Gt.

Section CmpOrder.
Context {A : Type} (cmp : A → A → comparison) `{!CmpOrder cmp}.

#[export] Instance cmp_le_trans : Transitive (cmp_le cmp).
Proof. intros a b c. apply cmp_trans. Qed.
#[export] Instance cmp_le_total : Total (cmp_le cmp).
Proof. intros a b. unfold cmp_le. rewrite (cmp_opp (cmp := cmp) a b). destruct (cmp a b); by auto. Qed.
Lemma cmp_refl a : cmp a a = Eq.
Proof. pose proof (cmp_opp (cmp := cmp) a a). by destruct (cmp a a). Qed.
#[export] Instance cmp_le_refl : Reflexive (cmp_le cmp).
Proof. intros a. unfold cmp_le. by rewrite cmp_refl. Qed.

(** A comparison that is not [Lt] is the converse order. *)
Lemma cmp_not_Lt a b : cmp a b ≠ Lt → cmp_le cmp b a.
Proof. unfold cmp_le. rewrite (cmp_opp (cmp := cmp) a b). by destruct (cmp a b). Qed.
Lemma cmp_Eq_opp a b : cmp a b = Eq → cmp b a = Eq.
Proof. rewrite (cmp_opp (cmp := cmp) a b). by intros ->. Qed.
Lemma cmp_Lt_le a b c : cmp a b = Lt → cmp_le cmp b c → cmp a c = Lt.
Proof.
  intros Hab Hbc. destruct (cmp a c) eqn:Hac; [|done|].
  - exfalso. assert (cmp_le cmp b a) as H.
    { etrans; [exact Hbc|]. unfold cmp_le. by rewrite (cmp_Eq_opp _ _ Hac). }
    apply H. by rewrite (cmp_opp (cmp := cmp) a b), Hab.
  - exfalso. apply (cmp_trans a b c); [by rewrite Hab|done|done].
Qed.
Lemma cmp_le_Lt a b c : cmp_le cmp a b → cmp b c = Lt → cmp a c = Lt.
Proof.
  intros Hab Hbc. destruct (cmp a c) eqn:Hac; [|done|].
  - exfalso. assert (cmp_le cmp c b) as H.
    { etrans; [|exact Hab]. unfold cmp_le. by rewrite (cmp_Eq_opp _ _ Hac). }
    apply H. by rewrite (cmp_opp (cmp := cmp) b c), Hbc.
  - exfalso. apply (cmp_trans a b c); [done|by rewrite Hbc|done].
Qed.

Lemma sort_by_sorted l : StronglySorted (cmp_le cmp) (sort_by cmp l).
Proof. apply (StronglySorted_merge_sort (cmp_le cmp)); apply _. Qed.
End CmpOrder.

(** ** Orders on part of a type

    A sort only compares elements of its list, so it needs an order on these alone. *)
Section SortOn.
Context {A : Type} (P : A → Prop) (cmp cmp' : A → A → comparison).
Context (agree : ∀ a b, P a → P b → cmp a b = cmp' a b).
Abbreviation le := (λ a b, cmp a b ≠ Gt).
Abbreviation le' := (λ a b, cmp' a b ≠ Gt).

Lemma list_merge_on l k :
  Forall P l → Forall P k → list_merge le l k = list_merge le' l k.
Proof.
  intros Hl. revert k. induction Hl as [|x l Hx Hl IHl]; [by intros [|]|].
  induction 1 as [|y k Hy Hk IHk]; [done|]. cbn [list_merge].
  rewrite !decide_bool_decide. assert (le x y ↔ le' x y) as Hiff by by rewrite agree.
  rewrite (bool_decide_ext _ _ Hiff). destruct (bool_decide _).
  - f_equal. rewrite IHl; [done|by constructor].
  - f_equal. exact IHk.
Qed.

Lemma list_merge_Forall l k :
  Forall P l → Forall P k → Forall P (list_merge le l k).
Proof. intros. rewrite merge_Permutation. by apply Forall_app. Qed.

Abbreviation fine := (Forall (λ o : option (list A), match o with Some l => Forall P l | None => True end)).

Lemma merge_stack_on st : fine st → merge_stack le st = merge_stack le' st ∧ Forall P (merge_stack le st).
Proof.
  induction 1 as [|[l|] st Hl _ [IH1 IH2]]; cbn [merge_stack]; [by split| |done].
  split; [rewrite list_merge_on by done; by rewrite IH1|by apply list_merge_Forall].
Qed.

Lemma merge_list_to_stack_on st l :
  fine st → Forall P l →
  merge_list_to_stack le st l = merge_list_to_stack le' st l ∧ fine (merge_list_to_stack le st l).
Proof.
  intros Hst. revert l. induction Hst as [|[k|] st Hk Hst IH]; intros l Hl; cbn [merge_list_to_stack].
  - split; [done|]. by repeat constructor.
  - assert (Forall P (list_merge le k l)) as Hm by by apply list_merge_Forall.
    destruct (IH _ Hm) as [He Hf]. rewrite list_merge_on in * by done.
    split; [by f_equal|by constructor].
  - split; [done|by constructor].
Qed.

Lemma sort_by_agree l : Forall P l → sort_by cmp l = sort_by cmp' l.
Proof.
  unfold sort_by, merge_sort. assert (fine (@nil (option (list A)))) as Hst by constructor.
  revert Hst. generalize (@nil (option (list A))). intros st Hst Hl. revert st Hst.
  induction Hl as [|x l Hx _ IH]; intros st Hst; cbn [merge_sort_aux]; [by apply merge_stack_on|].
  destruct (merge_list_to_stack_on st [x] Hst) as [<- Hf]; [by repeat constructor|]. by apply IH.
Qed.
End SortOn.

#[export] Instance str_cmp_order : CmpOrder String.compare.
Proof.
  split; [intros a b; apply String.compare_antisym|].
  intros a b c. rewrite !str_compare_le. apply transitivity.
Qed.

#[export] Instance nat_cmp_order : CmpOrder Nat.compare.
Proof. split; [intros a b; apply Nat.compare_antisym|]. intros a b c. rewrite !Nat.compare_le_iff. lia. Qed.

#[export] Instance N_cmp_order : CmpOrder N.compare.
Proof. split; [intros a b; apply N.compare_antisym|]. intros a b c. rewrite !N.compare_le_iff. lia. Qed.

#[export] Instance Z_cmp_order : CmpOrder Z.compare.
Proof. split; [intros a b; apply Z.compare_antisym|]. intros a b c. rewrite !Z.compare_le_iff. lia. Qed.

(** Comparing by a key, and by one comparison and then another ([Ordering::then_with]). *)
Definition cmp_on {A B} (f : A → B) (cmp : B → B → comparison) (a b : A) : comparison :=
  cmp (f a) (f b).
Definition cmp_then {A} (c d : A → A → comparison) (a b : A) : comparison :=
  then_cmp (c a b) (d a b).

#[export] Instance cmp_on_order {A B} (f : A → B) cmp : CmpOrder cmp → CmpOrder (cmp_on f cmp).
Proof. intros Hc. split; intros; unfold cmp_on in *; [apply cmp_opp|by eapply cmp_trans]. Qed.

#[export] Instance cmp_then_order {A} (c d : A → A → comparison) :
  CmpOrder c → CmpOrder d → CmpOrder (cmp_then c d).
Proof.
  intros Hc Hd. split; unfold cmp_then.
  - intros x y. rewrite (cmp_opp (cmp := c) x y), (cmp_opp (cmp := d) x y). by destruct (c x y).
  - intros x y z Hxy Hyz.
    destruct (c x y) eqn:E1; cbn in Hxy; [| |done].
    + destruct (c y z) eqn:E2; cbn in Hyz; [| |done].
      * assert (c x z = Eq) as ->; [|by eapply (cmp_trans (cmp := d))].
        assert (c x z ≠ Gt) by (apply (cmp_trans x y z); congruence).
        assert (c z x ≠ Gt) as Hzx.
        { apply (cmp_trans z y x); rewrite cmp_Eq_opp; congruence. }
        rewrite (cmp_opp (cmp := c) x z) in Hzx. by destruct (c x z).
      * by rewrite (cmp_le_Lt c x y z) by (unfold cmp_le; congruence).
    + assert (c y z ≠ Gt) by (intros H; by rewrite H in Hyz).
      by rewrite (cmp_Lt_le c x y z).
Qed.

(** The derived order of pairs, and the lexicographic order of vectors. *)
Definition pair_cmp {A B} (c : A → A → comparison) (d : B → B → comparison) : A * B → A * B → comparison :=
  cmp_then (cmp_on fst c) (cmp_on snd d).

#[export] Instance vec_cmp_order {A} (cmp : A → A → comparison) :
  CmpOrder cmp → CmpOrder (vec_cmp cmp).
Proof.
  intros Hc. split.
  - intros x. induction x as [|a x IH]; intros [|b y]; cbn; try done.
    rewrite (cmp_opp (cmp := cmp) a b), IH. by destruct (cmp a b).
  - intros x. induction x as [|a x IH]; intros [|b y] [|c z]; cbn; try done.
    intros Hxy Hyz. destruct (cmp a b) eqn:E1; cbn in Hxy; [| |done].
    + destruct (cmp b c) eqn:E2; cbn in Hyz; [| |done].
      * assert (cmp a c = Eq) as ->; [|by eapply IH].
        assert (cmp a c ≠ Gt) by (apply (cmp_trans a b c); congruence).
        assert (cmp c a ≠ Gt) as Hca.
        { apply (cmp_trans c b a); rewrite cmp_Eq_opp; congruence. }
        rewrite (cmp_opp (cmp := cmp) a c) in Hca. by destruct (cmp a c).
      * by rewrite (cmp_le_Lt cmp a b c) by (unfold cmp_le; congruence).
    + assert (cmp b c ≠ Gt) by (intros H; by rewrite H in Hyz).
      by rewrite (cmp_Lt_le cmp a b c).
Qed.

(** Appending the same vector to two of one length keeps their order strict, and to equal
    ones compares the rests. *)
Lemma vec_cmp_app_l {A} (cmp : A → A → comparison) `{!CmpOrder cmp} l a b :
  vec_cmp cmp (l ++ a) (l ++ b) = vec_cmp cmp a b.
Proof. induction l as [|x l IH]; cbn; [done|]. by rewrite (cmp_refl cmp), IH. Qed.

Lemma vec_cmp_app_Lt {A} (cmp : A → A → comparison) a b k l :
  length a = length b → vec_cmp cmp a b = Lt → vec_cmp cmp (a ++ k) (b ++ l) = Lt.
Proof.
  revert b. induction a as [|x a IH]; intros [|y b]; cbn; try done.
  intros [= Hl]. destruct (cmp x y); cbn; [by apply IH|done|done].
Qed.

Lemma vec_cmp_app_Eq {A} (cmp : A → A → comparison) a b k l :
  length a = length b → vec_cmp cmp a b = Eq → vec_cmp cmp (a ++ k) (b ++ l) = vec_cmp cmp k l.
Proof.
  revert b. induction a as [|x a IH]; intros [|y b]; cbn; try done.
  intros [= Hl]. destruct (cmp x y); cbn; [by apply IH|done|done].
Qed.

(** ** Hints

    [order]: what the sorts keep and produce. [containers]: membership in what an ordered
    container yields and in a list built by the iterator adaptors, as a rewrite base. *)
Create HintDb order discriminated.
#[export] Hint Resolve str_sort_perm str_sort_sorted sort_by_perm keys_NoDup iter_NoDup
  sort_by_lex_sorted sort_by_sorted NoDup_elements : order.

Create HintDb containers discriminated.
#[export] Hint Rewrite @keys_elem elem_of_iter @list_elem_of_fmap @list_elem_of_omap
  @list_elem_of_filter @elem_of_app @elem_of_cons @elem_of_imap_pair @elem_of_concat : containers.
