(* ===== verification/RustStr.v ===== *)
(** * Rust's [str] and integer-parsing operations

    The Standard Library functions the modelled code calls on [&str], on the byte
    string of the text. A Rust [&str] is UTF-8; every function here either works
    byte by byte or is only called by the code with an ASCII pattern, where the
    byte view and the character view agree. *)
From S2P Require Import Prelude.
From Stdlib Require Import Ascii NArith.

(** ** Prefixes, splitting and searching *)
Fixpoint strip_prefix (p s : string) : option string :=
  match p, s with
  | EmptyString, _ => Some s
  | String a p', String b s' => if Ascii.eqb a b then strip_prefix p' s' else None
  | String _ _, EmptyString => None
  end.

Definition starts_with (s p : string) : bool := is_some (strip_prefix p s).

(** [s.split_once(pat)]: the text before and after the first occurrence. *)
Fixpoint split_once (pat s : string) : option (string * string) :=
  match strip_prefix pat s with
  | Some rest => Some (EmptyString, rest)
  | None =>
      match s with
      | EmptyString => None
      | String c s' =>
          match split_once pat s' with
          | Some (a, b) => Some (String c a, b)
          | None => None
          end
      end
  end.

(** ** ASCII classes *)
Definition NUL : ascii := ascii_of_N 0.
Definition LF : ascii := ascii_of_N 10.
Definition COLON : ascii := ascii_of_N 58.
Definition COMMA : ascii := ascii_of_N 44.

Definition is_ascii_digit (c : ascii) : bool :=
  let n := N_of_ascii c in (48 <=? n)%N && (n <=? 57)%N.

Definition to_ascii_lower (c : ascii) : ascii :=
  let n := N_of_ascii c in
  if (65 <=? n)%N && (n <=? 90)%N then ascii_of_N (n + 32) else c.

Fixpoint str_map (f : ascii → ascii) (s : string) : string :=
  match s with
  | EmptyString => EmptyString
  | String c s' => String (f c) (str_map f s')
  end.

(** [str::to_ascii_lowercase]. *)
Definition to_ascii_lowercase : string → string := str_map to_ascii_lower.

(** [s.bytes().all(f)]. *)
Fixpoint str_all (f : ascii → bool) (s : string) : bool :=
  match s with
  | EmptyString => true
  | String c s' => f c && str_all f s'
  end.

(** [Vec<String>::join(sep)]. *)
Definition join (sep : string) (l : list string) : string := String.concat sep l.

(** ** Integers *)

(** The decimal digits of [s] read into the accumulator [acc]. *)
Fixpoint dec_digits (acc : N) (s : string) : option N :=
  match s with
  | EmptyString => Some acc
  | String c s' =>
      if is_ascii_digit c
      then dec_digits (acc * 10 + (N_of_ascii c - 48))%N s'
      else None
  end.

Definition u32_max : N := 4294967295.

(** [s.parse::<u32>().ok()]: one optional [+], at least one digit, digits only,
    and no overflow. *)
Definition parse_u32 (s : string) : option N :=
  let digits := match s with String "+" s' => s' | _ => s end in
  match digits with
  | EmptyString => None
  | _ =>
      match dec_digits 0 digits with
      | Some n => if (n <=? u32_max)%N then Some n else None
      | None => None
      end
  end.

(** [format!("{n}")] of an unsigned integer. *)
Definition dec (n : N) : string := pretty n.

(** ** Matching on string literals *)

(** [match s { "a" => Some(x), .., _ => None }]: the first arm whose literal is
    [s]. *)
Fixpoint str_match {A} (s : string) (arms : list (string * A)) : option A :=
  match arms with
  | [] => None
  | (lit, v) :: arms' => if s =s? lit then Some v else str_match s arms'
  end.

(** [matches!(s, "a" | "b" | ..)]. *)
Definition str_in (s : string) (lits : list string) : bool :=
  existsb (String.eqb s) lits.

(** ** Lemmas *)
Lemma str_match_Some {A} s (arms : list (string * A)) v :
  str_match s arms = Some v → (s, v) ∈ arms.
Proof.
  induction arms as [|[lit x] arms IH]; simpl; [done|].
  destruct (String.eqb_spec s lit) as [->|].
  - intros [= ->]. by left.
  - intros H. right. auto.
Qed.

Lemma str_in_spec s lits : str_in s lits = true ↔ s ∈ lits.
Proof.
  unfold str_in. rewrite existsb_exists. setoid_rewrite String.eqb_eq.
  setoid_rewrite list_elem_of_In. naive_solver.
Qed.

Section StrLemmas.

Lemma strip_prefix_app p s : strip_prefix p (p +:+ s) = Some s.
Proof. induction p as [|a p IH]; simpl; [done|]. by rewrite Ascii.eqb_refl. Qed.

Lemma strip_prefix_Some p s r : strip_prefix p s = Some r ↔ s = p +:+ r.
Proof.
  split.
  - revert s. induction p as [|a p IH]; intros [|b s]; simpl; try (intros; simplify_eq; done).
    destruct (Ascii.eqb_spec a b) as [->|]; [|done].
    intros H. unfold String.app. by rewrite (IH _ H).
  - intros ->. apply strip_prefix_app.
Qed.

Lemma starts_with_spec s p : starts_with s p = true ↔ ∃ r, s = p +:+ r.
Proof.
  unfold starts_with, is_some. split.
  - destruct (strip_prefix p s) eqn:E; [|done]. apply strip_prefix_Some in E. eauto.
  - intros [r ->]. by rewrite strip_prefix_app.
Qed.

Lemma split_once_Some pat s a b :
  split_once pat s = Some (a, b) → s = a +:+ pat +:+ b.
Proof.
  revert a b. induction s as [|c s IH]; intros a b; simpl.
  - destruct (strip_prefix pat "") eqn:E; [|done]. intros [= <- <-].
    by apply strip_prefix_Some in E.
  - destruct (strip_prefix pat (String c s)) eqn:E.
    + intros [= <- <-]. by apply strip_prefix_Some in E.
    + destruct (split_once pat s) as [[a' b']|]; [|done].
      intros [= <- <-]. unfold String.app; simpl. f_equal. by apply IH.
Qed.

(** A one-character separator that the first part does not hold is split off. *)
Lemma split_once_char c a b :
  str_all (λ x, negb (Ascii.eqb c x)) a = true →
  split_once (String c "") (a +:+ String c b) = Some (a, b).
Proof.
  induction a as [|x a IH]; simpl.
  - intros _. by rewrite Ascii.eqb_refl.
  - intros [Hx Ha]%andb_prop. apply negb_true_iff in Hx. rewrite Hx.
    fold (String.app a (String c b)). by rewrite IH.
Qed.

Lemma str_all_app f a b : str_all f (a +:+ b) = str_all f a && str_all f b.
Proof.
  induction a as [|x a IH]; simpl; [done|].
  fold (String.app a b). by rewrite IH, andb_assoc.
Qed.

Lemma str_all_impl (f g : ascii → bool) s :
  (∀ c, f c = true → g c = true) → str_all f s = true → str_all g s = true.
Proof.
  intros Hfg. induction s as [|c s IH]; simpl; [done|].
  intros [? ?]%andb_prop. rewrite Hfg by done. auto.
Qed.

Lemma dec_digits_pretty_go x s :
  str_all is_ascii_digit s = true →
  dec_digits 0 (pretty_N_go x s) = dec_digits x s
  ∧ str_all is_ascii_digit (pretty_N_go x s) = true.
Proof.
  revert s. induction (N.lt_wf_0 x) as [x _ IH]; intros s Hs.
  destruct (decide (x = 0)%N) as [->|Hx]; [by rewrite pretty_N_go_0|].
  rewrite pretty_N_go_step by lia.
  assert (Hd : is_ascii_digit (pretty_N_char (x `mod` 10)) = true
    ∧ (N_of_ascii (pretty_N_char (x `mod` 10)) - 48 = x `mod` 10)%N).
  { assert (x `mod` 10 < 10)%N as Hlt by (apply N.mod_lt; lia).
    generalize dependent (x `mod` 10)%N. intros y Hy.
    assert (y ∈ [0;1;2;3;4;5;6;7;8;9]%N) as Hin by (repeat rewrite elem_of_cons; lia).
    repeat (apply elem_of_cons in Hin as [->|Hin]; [by vm_compute|]).
    by apply elem_of_nil in Hin. }
  destruct Hd as [Hd1 Hd2].
  destruct (IH (x `div` 10)%N ltac:(apply N.div_lt; lia)
    (String (pretty_N_char (x `mod` 10)) s)) as [H1 H2].
  { simpl. by rewrite Hd1, Hs. }
  split; [|done]. rewrite H1. simpl. rewrite Hd1, Hd2. f_equal.
  rewrite N.mul_comm. symmetry. apply N.div_mod. lia.
Qed.

(** Reading back a printed integer. *)
Lemma dec_digits_dec n : dec_digits 0 (dec n) = Some n.
Proof.
  unfold dec, pretty, pretty_N. case_decide as Hn; [by rewrite Hn|].
  by destruct (dec_digits_pretty_go n "" eq_refl) as [-> _].
Qed.

Lemma dec_all_digits n : str_all is_ascii_digit (dec n) = true.
Proof.
  unfold dec, pretty, pretty_N. case_decide as Hn; [done|].
  by destruct (dec_digits_pretty_go n "" eq_refl) as [_ ->].
Qed.

Lemma dec_not_empty n : dec n ≠ "".
Proof.
  unfold dec, pretty, pretty_N. case_decide as Hn; [done|]. intros He.
  destruct (dec_digits_pretty_go n "" eq_refl) as [H _].
  rewrite He in H. simpl in H. simplify_eq.
Qed.

Lemma parse_u32_dec n : (n ≤ u32_max)%N → parse_u32 (dec n) = Some n.
Proof.
  intros Hn. unfold parse_u32.
  pose proof (dec_all_digits n) as Hd. pose proof (dec_digits_dec n) as Hr.
  pose proof (dec_not_empty n) as Hne.
  destruct (dec n) as [|c s] eqn:E; [done|].
  assert (match String c s with String "+" s' => s' | _ => String c s end = String c s) as ->.
  { simpl in Hd. apply andb_prop in Hd as [Hc _].
    destruct c as [[][][][][][][][]]; try done. }
  rewrite Hr. by rewrite (proj2 (N.leb_le _ _) Hn).
Qed.

(** No digit is a given non-digit character. *)
Lemma dec_avoids c n :
  is_ascii_digit c = false → str_all (λ x, negb (Ascii.eqb c x)) (dec n) = true.
Proof.
  intros Hc. eapply str_all_impl; [|apply dec_all_digits].
  intros x Hx. apply negb_true_iff, Ascii.eqb_neq. congruence.
Qed.

End StrLemmas.

(** The text after the last occurrence of [pat]. *)
Fixpoint after_last (pat s : string) : option string :=
  match s with
  | EmptyString => strip_prefix pat s
  | String _ s' =>
      match after_last pat s' with
      | Some r => Some r
      | None => strip_prefix pat s
      end
  end.

(** [s.rsplit(pat).next()], which is never [None]. *)
Definition rsplit_first (pat s : string) : string := default s (after_last pat s).

(** ** [str::trim] *)

Definition bytes (l : list N) : string := String.string_of_list_ascii (ascii_of_N <$> l).
Definition str_rev (s : string) : string :=
  String.string_of_list_ascii (reverse (String.list_ascii_of_string s)).

(** The UTF-8 encodings of the characters with the [White_Space] property. *)
Definition white_space : list string :=
  bytes <$> ([[9]; [10]; [11]; [12]; [13]; [32]; [194; 133]; [194; 160]; [225; 154; 128];
    [226; 128; 128]; [226; 128; 129]; [226; 128; 130]; [226; 128; 131]; [226; 128; 132];
    [226; 128; 133]; [226; 128; 134]; [226; 128; 135]; [226; 128; 136]; [226; 128; 137];
    [226; 128; 138]; [226; 128; 168]; [226; 128; 169]; [226; 128; 175]; [226; 129; 159];
    [227; 128; 128]]%N).

(** The text after a leading pattern of [pats]. *)
Definition strip_any (pats : list string) (s : string) : option string :=
  foldr (λ p acc, match strip_prefix p s with Some r => Some r | None => acc end) None pats.

Fixpoint strip_all (pats : list string) (fuel : nat) (s : string) : string :=
  match fuel with
  | O => s
  | S fuel =>
      match strip_any pats s with Some r => strip_all pats fuel r | None => s end
  end.

(** Every strip removes a byte, so the length is fuel enough. On UTF-8 text the last
    bytes spell an encoding only where the character starts. *)
Definition trim_start (s : string) : string := strip_all white_space (String.length s) s.
Definition trim_end (s : string) : string :=
  str_rev (strip_all (str_rev <$> white_space) (String.length s) (str_rev s)).
Definition trim (s : string) : string := trim_end (trim_start s).

(** [s.split(c)] for a one-byte character. *)
Fixpoint split_char (c : ascii) (s : string) : list string :=
  match s with
  | EmptyString => [EmptyString]
  | String x s' =>
      if Ascii.eqb c x then EmptyString :: split_char c s'
      else match split_char c s' with
           | part :: parts => String x part :: parts
           | [] => [String x EmptyString]
           end
  end.

(** [s.strip_suffix(pat)]. *)
Definition strip_suffix (pat s : string) : option string :=
  str_rev <$> strip_prefix (str_rev pat) (str_rev s).

Example trim_example : trim (String "009" " a b  ") = "a b".
Proof. vm_compute. reflexivity. Qed.

(** ** [str::chars] *)

(** The code points of UTF-8 text. Continuation bytes of a complete sequence are
    read with it; on text that is not UTF-8 the decoder takes single bytes. *)
Definition cont (c : ascii) : N := (N_of_ascii c `mod` 64)%N.

Fixpoint chars (s : string) : list N :=
  match s with
  | EmptyString => []
  | String a s1 =>
      let n := N_of_ascii a in
      if (n <? 192)%N then n :: chars s1
      else
        match s1 with
        | EmptyString => [n]
        | String b s2 =>
            if (n <? 224)%N then ((n `mod` 32) * 64 + cont b)%N :: chars s2
            else
              match s2 with
              | EmptyString => [n]
              | String c s3 =>
                  if (n <? 240)%N
                  then ((n `mod` 16) * 4096 + cont b * 64 + cont c)%N :: chars s3
                  else
                    match s3 with
                    | EmptyString => [n]
                    | String d s4 =>
                        ((n `mod` 8) * 262144 + cont b * 4096 + cont c * 64 + cont d)%N
                          :: chars s4
                    end
              end
        end
  end.

(** The euro sign between two letters. *)
Example chars_example : chars (bytes [97; 226; 130; 172; 98]%N) = [97; 8364; 98]%N.
Proof. reflexivity. Qed.

(** ** Splitting and joining paths *)
Definition SLASH : ascii := ascii_of_N 47.

(** The text holds no [c]. *)
Definition free_of (c : ascii) (s : string) : bool := str_all (λ x, negb (Ascii.eqb c x)) s.

Lemma split_char_not_nil c s : split_char c s ≠ [].
Proof.
  destruct s as [|x s]; simpl; [done|]. destruct (Ascii.eqb c x); [done|].
  by destruct (split_char c s).
Qed.

Lemma split_char_free c s : Forall (λ p, free_of c p = true) (split_char c s).
Proof.
  induction s as [|x s IH]; simpl; [by repeat constructor|].
  destruct (Ascii.eqb c x) eqn:E; [by constructor|].
  destruct (split_char c s) as [|p ps]; [by apply Forall_singleton; unfold free_of; simpl; rewrite E|].
  apply Forall_cons in IH as [Hp Hps]. constructor; [|done].
  unfold free_of in *. simpl. by rewrite E.
Qed.

Lemma split_char_single c s : free_of c s = true → split_char c s = [s].
Proof.
  induction s as [|x s IH]; simpl; [done|]. unfold free_of in *. simpl.
  intros [Hx Hs]%andb_prop. apply negb_true_iff in Hx. by rewrite Hx, IH.
Qed.

Lemma split_char_app c a s :
  free_of c a = true → split_char c (a +:+ String c s) = a :: split_char c s.
Proof.
  unfold free_of. induction a as [|x a IH]; simpl; [by rewrite Ascii.eqb_refl|].
  intros [Hx Ha]%andb_prop. apply negb_true_iff in Hx. rewrite Hx.
  fold (String.app a (String c s)). by rewrite IH.
Qed.

(** Splitting undoes joining. *)
Lemma split_char_join c l :
  l ≠ [] → Forall (λ p, free_of c p = true) l → split_char c (join (String c "") l) = l.
Proof.
  intros Hne Hl. induction Hl as [|p l Hp Hl IH]; [done|].
  destruct l as [|q l]; [by apply split_char_single|].
  change (join (String c "") (p :: q :: l)) with (p +:+ String c (join (String c "") (q :: l))).
  rewrite split_char_app by done. by rewrite IH.
Qed.

(** Joining undoes splitting. *)
Lemma join_split_char c s : join (String c "") (split_char c s) = s.
Proof.
  induction s as [|x s IH]; simpl; [done|]. destruct (Ascii.eqb_spec c x) as [<-|].
  - destruct (split_char c s) as [|p ps] eqn:E; [by apply split_char_not_nil in E|].
    change (join (String c "") ("" :: p :: ps)) with (String c (join (String c "") (p :: ps))).
    by rewrite IH.
  - destruct (split_char c s) as [|p [|q ps]] eqn:E; [by apply split_char_not_nil in E| |].
    + by rewrite <-IH.
    + by rewrite <-IH.
Qed.
