(* ===== verification/Ir.v ===== *)
(** * The graph intermediate representation: data

    The types of [src/src/ir.rs]: the closed enumerations with their wire names,
    the payload structs, and [GraphRecord], the tagged union every other part of
    the system reads and writes. One Module per Rust type; the type itself is
    [<Module>.t], a struct's fields are its projections. [String] is a byte
    string, the unsigned integers are [N] (the model keeps the width where an
    operation depends on it), [i64] is [Z], [Option] is [option], [Vec] is [list],
    [BTreeMap<String, _>] is [gmap string _], and [Box] is transparent. *)
From S2P Require Import Prelude RustStr.
Set Default Proof Using "Type".

(** An [f64] is carried by its IEEE-754 bit pattern: the modelled code only stores
    and copies floats. *)
Definition f64 : Type := N.

(** ** Schema versions *)
(* ir.rs 15-15: SCHEMA_VERSION *)
Definition SCHEMA_VERSION : N := 11%N.
(* ir.rs 19-19: AGENT_MEMORY_SCHEMA_VERSION *)
Definition AGENT_MEMORY_SCHEMA_VERSION : N := 1%N.
(* ir.rs 23-23: VERIFICATION_SCHEMA_VERSION *)
Definition VERIFICATION_SCHEMA_VERSION : N := 1%N.
(* ir.rs 27-27: ARTIFACT_SCHEMA_VERSION *)
Definition ARTIFACT_SCHEMA_VERSION : N := 1%N.
(* ir.rs 31-31: PROJECT_SCHEMA_VERSION *)
Definition PROJECT_SCHEMA_VERSION : N := 1%N.
(* ir.rs 36-36: SEMANTIC_SCHEMA_VERSION *)
Definition SEMANTIC_SCHEMA_VERSION : N := 1%N.
(* ir.rs 41-41: USER_CONTEXT_SCHEMA_VERSION *)
Definition USER_CONTEXT_SCHEMA_VERSION : N := 1%N.
(* ir.rs 68-68: LOG_SCHEMA_VERSION *)
Definition LOG_SCHEMA_VERSION : N := 3%N.
(* ir.rs 79-79: PRODUCER_ENVELOPE_SCHEMA_VERSION *)
Definition PRODUCER_ENVELOPE_SCHEMA_VERSION : N := 1%N.

(** ** Enumerations *)

Module ProducerKind.
(* ir.rs 102-131: ProducerKind *)
Inductive t : Set :=
| CodeGraphExtractor
| HistoryReplay
| IncrementalCache
| TrajImporter
| CodexImporter
| ClaudeCodeImporter
| ObservationWriter
| TaskWriter
| DriftEngine
| LogImporter
| DocImporter
| Other.

#[global] Instance t_eq_dec : EqDecision t.
Proof. solve_decision. Defined.
(* ir.rs 135-151: ProducerKind::as_str *)
Definition as_str (self : t) : string :=
  match self with
  | CodeGraphExtractor => "code_graph_extractor"
  | HistoryReplay => "history_replay"
  | IncrementalCache => "incremental_cache"
  | TrajImporter => "traj_importer"
  | CodexImporter => "codex_importer"
  | ClaudeCodeImporter => "claude_code_importer"
  | ObservationWriter => "observation_writer"
  | TaskWriter => "task_writer"
  | DriftEngine => "drift_engine"
  | LogImporter => "log_importer"
  | DocImporter => "doc_importer"
  | Other => "other"
  end.
End ProducerKind.

Module IdentitySource.
(* ir.rs 435-445: IdentitySource *)
Inductive t : Set :=
| Remote
| LocalRootCommit
| LocalPath
| OperatorOverride.

#[global] Instance t_eq_dec : EqDecision t.
Proof. solve_decision. Defined.
(* ir.rs 449-457: IdentitySource::as_str *)
Definition as_str (self : t) : string :=
  match self with
  | Remote => "remote"
  | LocalRootCommit => "local_root_commit"
  | LocalPath => "local_path"
  | OperatorOverride => "operator_override"
  end.
End IdentitySource.

Module CallResolution.
(* ir.rs 1114-1124: CallResolution *)
Inductive t : Set :=
| Resolved
| Ambiguous
| Unresolved
| UnresolvedDispatch.

#[global] Instance t_eq_dec : EqDecision t.
Proof. solve_decision. Defined.
(* ir.rs 1128-1136: CallResolution::as_str *)
Definition as_str (self : t) : string :=
  match self with
  | Resolved => "resolved"
  | Ambiguous => "ambiguous"
  | Unresolved => "unresolved"
  | UnresolvedDispatch => "unresolved_dispatch"
  end.
(* ir.rs 1140-1149: CallResolution::from_wire *)
Definition from_wire (s : string) : option t :=
  str_match s [
    ("resolved", Resolved);
    ("ambiguous", Ambiguous);
    ("unresolved", Unresolved);
    ("unresolved_dispatch", UnresolvedDispatch)
  ].
End CallResolution.

Module FrameResolution.
(* ir.rs 1180-1191: FrameResolution *)
Inductive t : Set :=
| Resolved
| Ambiguous
| PathOnly
| Unresolved.

#[global] Instance t_eq_dec : EqDecision t.
Proof. solve_decision. Defined.
(* ir.rs 1195-1203: FrameResolution::as_str *)
Definition as_str (self : t) : string :=
  match self with
  | Resolved => "resolved"
  | Ambiguous => "ambiguous"
  | PathOnly => "path_only"
  | Unresolved => "unresolved"
  end.
(* ir.rs 1207-1216: FrameResolution::from_wire *)
Definition from_wire (s : string) : option t :=
  str_match s [
    ("resolved", Resolved);
    ("ambiguous", Ambiguous);
    ("path_only", PathOnly);
    ("unresolved", Unresolved)
  ].
End FrameResolution.

Module CorrelationBasis.
(* ir.rs 1244-1251: CorrelationBasis *)
Inductive t : Set :=
| ContentHashJoin
| TemporalCorrelation.

#[global] Instance t_eq_dec : EqDecision t.
Proof. solve_decision. Defined.
(* ir.rs 1255-1261: CorrelationBasis::as_str *)
Definition as_str (self : t) : string :=
  match self with
  | ContentHashJoin => "content_hash_join"
  | TemporalCorrelation => "temporal_correlation"
  end.
(* ir.rs 1264-1270: CorrelationBasis::confidence *)
Definition confidence (self : t) : string :=
  match self with
  | ContentHashJoin => "1.0"
  | TemporalCorrelation => "0.5"
  end.
(* ir.rs 1274-1281: CorrelationBasis::from_wire *)
Definition from_wire (s : string) : option t :=
  str_match s [
    ("content_hash_join", ContentHashJoin);
    ("temporal_correlation", TemporalCorrelation)
  ].
End CorrelationBasis.

Module Domain.
(* ir.rs 3710-3727: Domain *)
Inductive t : Set :=
| CodeGraph
| AgentMemory
| Verification
| Artifact
| Project
| Semantic
| UserContext
| Log.

#[global] Instance t_eq_dec : EqDecision t.
Proof. solve_decision. Defined.
(* ir.rs 3731-3743: Domain::as_str *)
Definition as_str (self : t) : string :=
  match self with
  | CodeGraph => "codegraph"
  | AgentMemory => "agent_memory"
  | Verification => "verification"
  | Artifact => "artifact"
  | Project => "project"
  | Semantic => "semantic"
  | UserContext => "user_context"
  | Log => "log"
  end.
End Domain.

Module MetricKind.
(* ir.rs 3764-3771: MetricKind *)
Inductive t : Set :=
| CosineDistance
| L2Distance
| LearnedDeltaV1.

#[global] Instance t_eq_dec : EqDecision t.
Proof. solve_decision. Defined.
(* ir.rs 3775-3782: MetricKind::as_str *)
Definition as_str (self : t) : string :=
  match self with
  | CosineDistance => "cosine_distance"
  | L2Distance => "l2_distance"
  | LearnedDeltaV1 => "learned_delta_v1"
  end.
End MetricKind.

Module SelectionBasis.
(* ir.rs 3788-3795: SelectionBasis *)
Inductive t : Set :=
| ThresholdOnly
| TopKPerPair
| TopKPerSymbol.

#[global] Instance t_eq_dec : EqDecision t.
Proof. solve_decision. Defined.
(* ir.rs 3799-3806: SelectionBasis::as_str *)
Definition as_str (self : t) : string :=
  match self with
  | ThresholdOnly => "threshold_only"
  | TopKPerPair => "top_k_per_pair"
  | TopKPerSymbol => "top_k_per_symbol"
  end.
End SelectionBasis.

Module NodeKind.
(* ir.rs 3843-4057: NodeKind *)
Inductive t : Set :=
| Repository
| File
| Module
| Symbol
| Import
| Diagnostic
| PanicRiskSite
| DebtMarker
| UnsafeSite
| LintSuppression
| DependencyDeclaration
| ScanCoverage
| HistoryReplayWindow
| HistoryReplayTip
| Commit
| Change
| SemanticDrift
| EmbeddingModel
| EmbeddingVector
| Agent
| AgentSession
| Observation
| Task
| AcceptanceCriterion
| ExternalLink
| Product
| Project
| Plan
| GitHubIssue
| PR
| Review
| ExternalIdentity
| ReviewStateTransition
| LocalTask
| Artifact
| Verification
| CommandEvidence
| AgentRun
| AgentTurn
| ToolCall
| CommandRun
| FileEdit
| PatchArtifact
| Adr
| Prd
| PlanDoc
| Failure
| Decision
| TestRun
| CIStatus
| BenchmarkRun
| CoverageReport
| ProofResult
| PromoteCandidate
| PromotionPrompt
| PromotionDecision
| Preference
| WorkflowRule
| NamingDecision
| Constraint
| CostUsage
| Retraction
| RetirementReceipt
| ReinstatementReceipt
| LogSource
| ErrorSignature
| LogEvent
| LogOccurrenceBucket.

#[global] Instance t_eq_dec : EqDecision t.
Proof. solve_decision. Defined.
(* ir.rs 4071-4140: NodeKind::ALL *)
Definition ALL : list t :=
  [ Repository; File; Module; Symbol; Import;
    Diagnostic; PanicRiskSite; DebtMarker; UnsafeSite; LintSuppression;
    DependencyDeclaration; ScanCoverage; HistoryReplayWindow; HistoryReplayTip; Commit;
    Change; SemanticDrift; EmbeddingModel; EmbeddingVector; Agent;
    AgentSession; Observation; Task; AcceptanceCriterion; ExternalLink;
    Product; Project; Plan; GitHubIssue; PR;
    Review; ExternalIdentity; ReviewStateTransition; LocalTask; Artifact;
    Verification; CommandEvidence; AgentRun; AgentTurn; ToolCall;
    CommandRun; FileEdit; PatchArtifact; Adr; Prd;
    PlanDoc; Failure; Decision; TestRun; CIStatus;
    BenchmarkRun; CoverageReport; ProofResult; PromoteCandidate; PromotionPrompt;
    PromotionDecision; Preference; WorkflowRule; NamingDecision; Constraint;
    CostUsage; Retraction; RetirementReceipt; ReinstatementReceipt; LogSource;
    ErrorSignature; LogEvent; LogOccurrenceBucket ].
(* ir.rs 4143-4215: NodeKind::as_str *)
Definition as_str (self : t) : string :=
  match self with
  | Repository => "Repository"
  | File => "File"
  | Module => "Module"
  | Symbol => "Symbol"
  | Import => "Import"
  | Diagnostic => "Diagnostic"
  | PanicRiskSite => "PanicRiskSite"
  | DebtMarker => "DebtMarker"
  | UnsafeSite => "UnsafeSite"
  | LintSuppression => "LintSuppression"
  | DependencyDeclaration => "DependencyDeclaration"
  | ScanCoverage => "ScanCoverage"
  | HistoryReplayWindow => "HistoryReplayWindow"
  | HistoryReplayTip => "HistoryReplayTip"
  | Commit => "Commit"
  | Change => "Change"
  | SemanticDrift => "SemanticDrift"
  | EmbeddingModel => "EmbeddingModel"
  | EmbeddingVector => "EmbeddingVector"
  | Agent => "Agent"
  | AgentSession => "AgentSession"
  | Observation => "Observation"
  | Task => "Task"
  | AcceptanceCriterion => "AcceptanceCriterion"
  | ExternalLink => "ExternalLink"
  | Product => "Product"
  | Project => "Project"
  | Plan => "Plan"
  | GitHubIssue => "GitHubIssue"
  | PR => "PR"
  | Review => "Review"
  | ExternalIdentity => "ExternalIdentity"
  | ReviewStateTransition => "ReviewStateTransition"
  | LocalTask => "LocalTask"
  | Artifact => "Artifact"
  | Verification => "Verification"
  | CommandEvidence => "CommandEvidence"
  | AgentRun => "AgentRun"
  | AgentTurn => "AgentTurn"
  | ToolCall => "ToolCall"
  | CommandRun => "CommandRun"
  | FileEdit => "FileEdit"
  | PatchArtifact => "PatchArtifact"
  | Adr => "ADR"
  | Prd => "PRD"
  | PlanDoc => "PlanDoc"
  | Failure => "Failure"
  | Decision => "Decision"
  | TestRun => "TestRun"
  | CIStatus => "CIStatus"
  | BenchmarkRun => "BenchmarkRun"
  | CoverageReport => "CoverageReport"
  | ProofResult => "ProofResult"
  | PromoteCandidate => "PromoteCandidate"
  | PromotionPrompt => "PromotionPrompt"
  | PromotionDecision => "PromotionDecision"
  | Preference => "Preference"
  | WorkflowRule => "WorkflowRule"
  | NamingDecision => "NamingDecision"
  | Constraint => "Constraint"
  | CostUsage => "CostUsage"
  | Retraction => "Retraction"
  | RetirementReceipt => "RetirementReceipt"
  | ReinstatementReceipt => "ReinstatementReceipt"
  | LogSource => "LogSource"
  | ErrorSignature => "ErrorSignature"
  | LogEvent => "LogEvent"
  | LogOccurrenceBucket => "LogOccurrenceBucket"
  end.
End NodeKind.

Module EdgeLabel.
(* ir.rs 4223-4359: EdgeLabel *)
Inductive t : Set :=
| Contains
| Defines
| Imports
| References
| Calls
| Implements
| Mentions
| ChangedIn
| ParentOf
| DriftsFrom
| DriftsPrior
| MeasuredBy
| SessionOf
| AuthoredBy
| HasEvidence
| Observes
| MentionsSymbol
| TouchedFile
| ProducedPatch
| ProducedEvidence
| ValidatedBy
| ClosesAcceptanceCriterion
| OwnedByTask
| ExternalHandle
| DependsOn
| TouchesFile
| MergedAs
| ReviewsCommit
| ReviewedBy
| RequestedReviewFrom
| TransitionsReview
| FailedOn
| ExplainsChange
| ReferencesTask
| Contradicts
| Supersedes
| ProposedBy
| PromptedFor
| DecidedOn
| MaterializedAs
| RevokedBy
| ScopedToRepo
| RelatesTo
| FingerprintedAs
| CapturedFrom
| Aggregates
| FrameResolvesTo
| EmittedDuring
| Constructs
| RegistersRoute.

#[global] Instance t_eq_dec : EqDecision t.
Proof. solve_decision. Defined.
(* ir.rs 4369-4420: EdgeLabel::ALL *)
Definition ALL : list t :=
  [ Contains; Defines; Imports; References; Calls;
    Implements; Mentions; ChangedIn; ParentOf; DriftsFrom;
    DriftsPrior; MeasuredBy; SessionOf; AuthoredBy; HasEvidence;
    Observes; MentionsSymbol; TouchedFile; ProducedPatch; ProducedEvidence;
    ValidatedBy; ClosesAcceptanceCriterion; OwnedByTask; ExternalHandle; DependsOn;
    TouchesFile; MergedAs; ReviewsCommit; ReviewedBy; RequestedReviewFrom;
    TransitionsReview; FailedOn; ExplainsChange; ReferencesTask; Contradicts;
    Supersedes; ProposedBy; PromptedFor; DecidedOn; MaterializedAs;
    RevokedBy; ScopedToRepo; RelatesTo; FingerprintedAs; CapturedFrom;
    Aggregates; FrameResolvesTo; EmittedDuring; Constructs; RegistersRoute ].
(* ir.rs 4544-4598: EdgeLabel::as_str *)
Definition as_str (self : t) : string :=
  match self with
  | Contains => "CONTAINS"
  | Defines => "DEFINES"
  | Imports => "IMPORTS"
  | References => "REFERENCES"
  | Calls => "CALLS"
  | Implements => "IMPLEMENTS"
  | Mentions => "MENTIONS"
  | ChangedIn => "CHANGED_IN"
  | ParentOf => "PARENT_OF"
  | DriftsFrom => "DRIFTS_FROM"
  | DriftsPrior => "DRIFTS_PRIOR"
  | MeasuredBy => "MEASURED_BY"
  | SessionOf => "SESSION_OF"
  | AuthoredBy => "AUTHORED_BY"
  | HasEvidence => "HAS_EVIDENCE"
  | Observes => "OBSERVES"
  | MentionsSymbol => "MENTIONS_SYMBOL"
  | TouchedFile => "TOUCHED_FILE"
  | ProducedPatch => "PRODUCED_PATCH"
  | ProducedEvidence => "PRODUCED_EVIDENCE"
  | ValidatedBy => "VALIDATED_BY"
  | ClosesAcceptanceCriterion => "CLOSES_ACCEPTANCE_CRITERION"
  | OwnedByTask => "OWNED_BY_TASK"
  | ExternalHandle => "EXTERNAL_HANDLE"
  | DependsOn => "DEPENDS_ON"
  | TouchesFile => "TOUCHES_FILE"
  | MergedAs => "MERGED_AS"
  | ReviewsCommit => "REVIEWS_COMMIT"
  | ReviewedBy => "REVIEWED_BY"
  | RequestedReviewFrom => "REQUESTED_REVIEW_FROM"
  | TransitionsReview => "TRANSITIONS_REVIEW"
  | FailedOn => "FAILED_ON"
  | ExplainsChange => "EXPLAINS_CHANGE"
  | ReferencesTask => "REFERENCES_TASK"
  | Contradicts => "CONTRADICTS"
  | Supersedes => "SUPERSEDES"
  | ProposedBy => "PROPOSED_BY"
  | PromptedFor => "PROMPTED_FOR"
  | DecidedOn => "DECIDED_ON"
  | MaterializedAs => "MATERIALIZED_AS"
  | RevokedBy => "REVOKED_BY"
  | ScopedToRepo => "SCOPED_TO_REPO"
  | RelatesTo => "RELATES_TO"
  | FingerprintedAs => "FINGERPRINTED_AS"
  | CapturedFrom => "CAPTURED_FROM"
  | Aggregates => "AGGREGATES"
  | FrameResolvesTo => "FRAME_RESOLVES_TO"
  | EmittedDuring => "EMITTED_DURING"
  | Constructs => "CONSTRUCTS"
  | RegistersRoute => "REGISTERS_ROUTE"
  end.
(* ir.rs 4423-4478: EdgeLabel::from_relation *)
Definition from_relation (s : string) : option t :=
  str_match s [
    ("CONTAINS", Contains);
    ("DEFINES", Defines);
    ("IMPORTS", Imports);
    ("REFERENCES", References);
    ("CALLS", Calls);
    ("IMPLEMENTS", Implements);
    ("MENTIONS", Mentions);
    ("CHANGED_IN", ChangedIn);
    ("PARENT_OF", ParentOf);
    ("DRIFTS_FROM", DriftsFrom);
    ("DRIFTS_PRIOR", DriftsPrior);
    ("MEASURED_BY", MeasuredBy);
    ("SESSION_OF", SessionOf);
    ("AUTHORED_BY", AuthoredBy);
    ("HAS_EVIDENCE", HasEvidence);
    ("OBSERVES", Observes);
    ("MENTIONS_SYMBOL", MentionsSymbol);
    ("TOUCHED_FILE", TouchedFile);
    ("PRODUCED_PATCH", ProducedPatch);
    ("PRODUCED_EVIDENCE", ProducedEvidence);
    ("VALIDATED_BY", ValidatedBy);
    ("CLOSES_ACCEPTANCE_CRITERION", ClosesAcceptanceCriterion);
    ("OWNED_BY_TASK", OwnedByTask);
    ("EXTERNAL_HANDLE", ExternalHandle);
    ("DEPENDS_ON", DependsOn);
    ("TOUCHES_FILE", TouchesFile);
    ("MERGED_AS", MergedAs);
    ("REVIEWS_COMMIT", ReviewsCommit);
    ("REVIEWED_BY", ReviewedBy);
    ("REQUESTED_REVIEW_FROM", RequestedReviewFrom);
    ("TRANSITIONS_REVIEW", TransitionsReview);
    ("FAILED_ON", FailedOn);
    ("EXPLAINS_CHANGE", ExplainsChange);
    ("REFERENCES_TASK", ReferencesTask);
    ("CONTRADICTS", Contradicts);
    ("SUPERSEDES", Supersedes);
    ("PROPOSED_BY", ProposedBy);
    ("PROMPTED_FOR", PromptedFor);
    ("DECIDED_ON", DecidedOn);
    ("MATERIALIZED_AS", MaterializedAs);
    ("REVOKED_BY", RevokedBy);
    ("SCOPED_TO_REPO", ScopedToRepo);
    ("RELATES_TO", RelatesTo);
    ("FINGERPRINTED_AS", FingerprintedAs);
    ("CAPTURED_FROM", CapturedFrom);
    ("AGGREGATES", Aggregates);
    ("FRAME_RESOLVES_TO", FrameResolvesTo);
    ("EMITTED_DURING", EmittedDuring);
    ("CONSTRUCTS", Constructs);
    ("REGISTERS_ROUTE", RegistersRoute)
  ].
(* ir.rs 4484-4514: EdgeLabel::is_evidence_link_label *)
Definition is_evidence_link_label (self : t) : bool :=
  match self with
  | HasEvidence | Observes | MentionsSymbol | TouchedFile
  | ProducedPatch | ProducedEvidence | ValidatedBy | ClosesAcceptanceCriterion
  | OwnedByTask | ExternalHandle | DependsOn | TouchesFile
  | MergedAs | ReviewsCommit | ReviewedBy | RequestedReviewFrom
  | TransitionsReview | FailedOn | ExplainsChange | ReferencesTask
  | Contradicts | Supersedes | RelatesTo | FrameResolvesTo
  | EmittedDuring
      => true
  | _ => false
  end.
(* ir.rs 4522-4541: EdgeLabel::is_codegraph_topology_label *)
Definition is_codegraph_topology_label (self : t) : bool :=
  match self with
  | Contains | Defines | Imports | References
  | Calls | Implements | Mentions | ChangedIn
  | ParentOf | DriftsFrom | DriftsPrior | MeasuredBy
  | Constructs | RegistersRoute
      => true
  | _ => false
  end.
End EdgeLabel.

Module LintSuppressionScope.
(* ir.rs 4660-4671: LintSuppressionScope *)
Inductive t : Set :=
| Item
| Module
| Crate.

#[global] Instance t_eq_dec : EqDecision t.
Proof. solve_decision. Defined.
(* ir.rs 4675-4682: LintSuppressionScope::as_str *)
Definition as_str (self : t) : string :=
  match self with
  | Item => "item"
  | Module => "module"
  | Crate => "crate"
  end.
End LintSuppressionScope.

Module EntryPointKind.
(* ir.rs 4737-4747: EntryPointKind *)
Inductive t : Set :=
| Test
| FfiExport
| BinaryEntry.

#[global] Instance t_eq_dec : EqDecision t.
Proof. solve_decision. Defined.
End EntryPointKind.

Module SymbolRole.
(* ir.rs 4768-4774: SymbolRole *)
Inductive t : Set :=
| Test
| Production.

#[global] Instance t_eq_dec : EqDecision t.
Proof. solve_decision. Defined.
(* ir.rs 4778-4784: SymbolRole::as_str *)
Definition as_str (self : t) : string :=
  match self with
  | Test => "test"
  | Production => "production"
  end.
End SymbolRole.

Module CrateAttributionStatus.
(* ir.rs 5004-5010: CrateAttributionStatus *)
Inductive t : Set :=
| Attributed
| Unattributed.

#[global] Instance t_eq_dec : EqDecision t.
Proof. solve_decision. Defined.
(* ir.rs 5014-5020: CrateAttributionStatus::as_str *)
Definition as_str (self : t) : string :=
  match self with
  | Attributed => "attributed"
  | Unattributed => "unattributed"
  end.
End CrateAttributionStatus.

Module CrateAttributionReason.
(* ir.rs 5031-5051: CrateAttributionReason *)
Inductive t : Set :=
| NoEnclosingManifest
| VirtualManifestOnly
| UnnamedPackage
| UnparseableManifest
| UnusableManifest
| ManifestUnreadable.

#[global] Instance t_eq_dec : EqDecision t.
Proof. solve_decision. Defined.
(* ir.rs 5055-5065: CrateAttributionReason::as_str *)
Definition as_str (self : t) : string :=
  match self with
  | NoEnclosingManifest => "no_enclosing_manifest"
  | VirtualManifestOnly => "virtual_manifest_only"
  | UnnamedPackage => "unnamed_package"
  | UnparseableManifest => "unparseable_manifest"
  | UnusableManifest => "unusable_manifest"
  | ManifestUnreadable => "manifest_unreadable"
  end.
End CrateAttributionReason.

(** ** Payload structs *)

Module EgregoreGit.
(* ir.rs 88-93: EgregoreGit *)
Record t : Type := mk {
  commit : string;
  dirty : bool
}.
End EgregoreGit.

Module Producer.
(* ir.rs 170-191: Producer *)
Record t : Type := mk {
  egregore_version : string;
  egregore_git : option EgregoreGit.t;
  producer_kind : ProducerKind.t;
  producer_components : gmap string string;
  producer_started_at : string
}.
End Producer.

Module OutputHandle.
(* ir.rs 287-295: OutputHandle *)
Record t : Type := mk {
  inline : option string;
  hash : string;
  bytes : N
}.
End OutputHandle.

Module PatchHandle.
(* ir.rs 303-309: PatchHandle *)
Record t : Type := mk {
  path : string;
  inline : option string
}.
End PatchHandle.

Module NodeProvenance.
(* ir.rs 316-347: NodeProvenance *)
Record t : Type := mk {
  text : option string;
  superseded_by : option string;
  agent_id : option string;
  agent_kind : option string;
  session_id : option string;
  observed_at : option string;
  ingested_at : option string;
  confidence : option string;
  source_handle : option string;
  redaction_policy_version : option string
}.
End NodeProvenance.

Module CostUsagePayload.
(* ir.rs 371-410: CostUsagePayload *)
Record t : Type := mk {
  derivation : string;
  model_name : option string;
  actual_cost_usd : option f64;
  total_cost_usd : option f64;
  baseline_cost_usd : option f64;
  baseline_cost_model : option string;
  prompt_tokens : option N;
  cache_read_tokens : option N;
  completion_tokens : option N;
  duration_secs : option f64;
  task_handle : option string;
  verification_outcome : option string
}.
(* ir.rs 417-427: CostUsagePayload::has_any_measurement *)
Definition has_any_measurement (self : t) : bool :=
  is_some (self.(actual_cost_usd))
  || is_some (self.(total_cost_usd))
  || is_some (self.(baseline_cost_usd))
  || is_some (self.(baseline_cost_model))
  || is_some (self.(prompt_tokens))
  || is_some (self.(cache_read_tokens))
  || is_some (self.(completion_tokens))
  || is_some (self.(duration_secs)).
End CostUsagePayload.

Module RepositoryIdentityPayload.
(* ir.rs 467-481: RepositoryIdentityPayload *)
Record t : Type := mk {
  identity_source : IdentitySource.t;
  remote_url : option string;
  root_commit_sha : option string;
  canonical_path : option string;
  basename : string
}.
End RepositoryIdentityPayload.

Module SnapshotHead.
(* ir.rs 492-502: SnapshotHead *)
Inductive t : Type :=
| Commit (sha : string)
| NoGit
| UnbornHead.
End SnapshotHead.

Module SourceSnapshotPayload.
(* ir.rs 514-527: SourceSnapshotPayload *)
Record t : Type := mk {
  head : SnapshotHead.t;
  dirty : bool;
  repository_id : string;
  scanned_at : string
}.
End SourceSnapshotPayload.

Module DependencyDeclarationPayload.
(* ir.rs 538-571: DependencyDeclarationPayload *)
Record t : Type := mk {
  declaring_package : string;
  dependency_kind : string;
  declared_as : option string;
  declared_requirement : option string;
  resolved_version : option string;
  resolution : string
}.
End DependencyDeclarationPayload.

Module ScanCoveragePayload.
(* ir.rs 585-620: ScanCoveragePayload *)
Record t : Type := mk {
  files_walked : N;
  files_indexed : N;
  skipped_by_extension : gmap string N;
  indexed_languages : list string;
  coverage_complete : bool;
  coverage_generation : option string
}.
End ScanCoveragePayload.

Module HistoryReplayWindowPayload.
(* ir.rs 633-664: HistoryReplayWindowPayload *)
Record t : Type := mk {
  window : string;
  selected_commit_count : N;
  max_commits : option N;
  since_instant : option string;
  from_rev : option string;
  to_rev : option string;
  from_sha : option string;
  to_sha : option string;
  oldest_commit_sha : string;
  newest_commit_sha : string
}.
End HistoryReplayWindowPayload.

Module HistoryReplayTipPayload.
(* ir.rs 679-689: HistoryReplayTipPayload *)
Record t : Type := mk {
  repository_id : string;
  tip_sha : string;
  covered_commit_count : N;
  tip_committed_at : string
}.
End HistoryReplayTipPayload.

Module LogSourcePayload.
(* ir.rs 743-762: LogSourcePayload *)
Record t : Type := mk {
  source_relative_path : string;
  source_format_version : string;
  source_artifact_hash : string;
  line_count : N;
  repository_id : string
}.
End LogSourcePayload.

Module StackFrame.
(* ir.rs 1293-1306: StackFrame *)
Record t : Type := mk {
  frame_index : N;
  module_path : option string;
  file_path : option string;
  line : option N
}.
End StackFrame.

Module ErrorSignaturePayload.
(* ir.rs 770-797: ErrorSignaturePayload *)
Record t : Type := mk {
  fingerprint_algorithm : string;
  template_excerpt : string;
  severity : string;
  occurrence_count : N;
  first_seen : string;
  last_seen : string;
  frames : option (list StackFrame.t);
  repository_id : string
}.
End ErrorSignaturePayload.

Module LogEventPayload.
(* ir.rs 805-820: LogEventPayload *)
Record t : Type := mk {
  event_excerpt : string;
  event_content_hash : string;
  source_line : N;
  severity : string;
  repository_id : string
}.
End LogEventPayload.

Module LogOccurrenceBucketPayload.
(* ir.rs 831-858: LogOccurrenceBucketPayload *)
Record t : Type := mk {
  bucket_start : string;
  bucket_width : string;
  occurrence_count : N;
  source_id : string;
  repository_id : string;
  occurrence_timestamps : list string
}.
End LogOccurrenceBucketPayload.

Module LogPayload.
(* ir.rs 706-715: LogPayload *)
Inductive t : Type :=
| LogSource (p : LogSourcePayload.t)
| ErrorSignature (p : ErrorSignaturePayload.t)
| LogEvent (p : LogEventPayload.t)
| LogOccurrenceBucket (p : LogOccurrenceBucketPayload.t).
(* ir.rs 726-734: LogPayload::repository_id *)
Definition repository_id (self : t) : string :=
  match self with
  | LogSource p => p.(LogSourcePayload.repository_id)
  | ErrorSignature p => p.(ErrorSignaturePayload.repository_id)
  | LogEvent p => p.(LogEventPayload.repository_id)
  | LogOccurrenceBucket p => p.(LogOccurrenceBucketPayload.repository_id)
  end.
End LogPayload.

Module SourceSpan.
(* ir.rs 5080-5095: SourceSpan *)
Record t : Type := mk {
  start_byte : N;
  end_byte : N;
  start_line : N;
  end_line : N;
  start_column : option N;
  end_column : option N
}.
End SourceSpan.

Module EvidenceLink.
(* ir.rs 873-897: EvidenceLink *)
Record t : Type := mk {
  target_record_id : option string;
  target_domain : string;
  relation : string;
  confidence : string;
  as_of_commit : option string;
  target_repo_relative_path : option string;
  target_span : option SourceSpan.t;
  target_git_commit : option string
}.
End EvidenceLink.

Module UserContextScope.
(* ir.rs 904-917: UserContextScope *)
Record t : Type := mk {
  repo : option string;
  path_glob : option string;
  language : option string;
  lifecycle_phase : option string
}.
End UserContextScope.

Module UserContextFields.
(* ir.rs 924-1012: UserContextFields *)
Record t : Type := mk {
  proposed_rule_text : option string;
  proposed_rule_kind : option string;
  scope : option UserContextScope.t;
  supporting_evidence : option (list EvidenceLink.t);
  contradicting_evidence : option (list EvidenceLink.t);
  candidate_id : option string;
  prompt_surface : option string;
  prompt_text : option string;
  prompted_at : option string;
  prompted_to : option string;
  expires_at : option string;
  prompt_id : option string;
  outcome : option string;
  decided_at : option string;
  decided_by : option string;
  decision_rationale : option string;
  materialized_record_id : option string;
  edited_rule_text : option string;
  rule_text : option string;
  approval_decision_id : option string;
  active_from : option string;
  active_to : option string;
  triggers : option (list string);
  action_summary : option string;
  entity_kind : option string;
  canonical_name : option string;
  alternatives_rejected : option (list string);
  constraint_text : option string;
  enforcement_level : option string
}.
(* ir.rs 1016-1049: UserContextFields::empty *)
Definition empty : t := {|
  proposed_rule_text := None;
  proposed_rule_kind := None;
  scope := None;
  supporting_evidence := None;
  contradicting_evidence := None;
  candidate_id := None;
  prompt_surface := None;
  prompt_text := None;
  prompted_at := None;
  prompted_to := None;
  expires_at := None;
  prompt_id := None;
  outcome := None;
  decided_at := None;
  decided_by := None;
  decision_rationale := None;
  materialized_record_id := None;
  edited_rule_text := None;
  rule_text := None;
  approval_decision_id := None;
  active_from := None;
  active_to := None;
  triggers := None;
  action_summary := None;
  entity_kind := None;
  canonical_name := None;
  alternatives_rejected := None;
  constraint_text := None;
  enforcement_level := None
|}.
(* ir.rs 1052-1083: UserContextFields::is_empty *)
Definition is_empty (self : t) : bool :=
  is_none (self.(proposed_rule_text))
  && is_none (self.(proposed_rule_kind))
  && is_none (self.(scope))
  && is_none (self.(supporting_evidence))
  && is_none (self.(contradicting_evidence))
  && is_none (self.(candidate_id))
  && is_none (self.(prompt_surface))
  && is_none (self.(prompt_text))
  && is_none (self.(prompted_at))
  && is_none (self.(prompted_to))
  && is_none (self.(expires_at))
  && is_none (self.(prompt_id))
  && is_none (self.(outcome))
  && is_none (self.(decided_at))
  && is_none (self.(decided_by))
  && is_none (self.(decision_rationale))
  && is_none (self.(materialized_record_id))
  && is_none (self.(edited_rule_text))
  && is_none (self.(rule_text))
  && is_none (self.(approval_decision_id))
  && is_none (self.(active_from))
  && is_none (self.(active_to))
  && is_none (self.(triggers))
  && is_none (self.(action_summary))
  && is_none (self.(entity_kind))
  && is_none (self.(canonical_name))
  && is_none (self.(alternatives_rejected))
  && is_none (self.(constraint_text))
  && is_none (self.(enforcement_level)).
End UserContextFields.

Module TemporalMetadata.
(* ir.rs 3690-3705: TemporalMetadata *)
Record t : Type := mk {
  git_commit : string;
  git_parent_commits : list string;
  valid_time : string;
  author_time : option string;
  observed_at : string;
  valid_time_source : option string
}.
End TemporalMetadata.

Module EmbeddingModel.
(* ir.rs 3748-3759: EmbeddingModel *)
Record t : Type := mk {
  provider : string;
  name : string;
  version : string;
  dim : N;
  content_hash : string
}.
End EmbeddingModel.

Module SemanticDriftMetadata.
(* ir.rs 3811-3834: SemanticDriftMetadata *)
Record t : Type := mk {
  embedding_model : EmbeddingModel.t;
  target_record_id : string;
  prior_record_id : string;
  before_git_commit : string;
  after_git_commit : string;
  before_valid_time : string;
  after_valid_time : string;
  metric_kind : MetricKind.t;
  score : f64;
  selection_threshold : f64;
  selection_basis : SelectionBasis.t
}.
End SemanticDriftMetadata.

Module RouteAnnotation.
(* ir.rs 4610-4615: RouteAnnotation *)
Record t : Type := mk {
  method : string;
  path : string
}.
End RouteAnnotation.

Module DeprecationMark.
(* ir.rs 4640-4652: DeprecationMark *)
Record t : Type := mk {
  since : option string;
  note : option string
}.
End DeprecationMark.

Module LintSuppressionFacts.
(* ir.rs 4694-4713: LintSuppressionFacts *)
Record t : Type := mk {
  lints : list string;
  scope : LintSuppressionScope.t;
  has_justification : bool;
  is_inner : bool
}.
End LintSuppressionFacts.

Module EntryPointMark.
(* ir.rs 4727-4730: EntryPointMark *)
Record t : Type := mk {
  kind : EntryPointKind.t
}.
End EntryPointMark.

Module CrateAttribution.
(* ir.rs 4813-4828: CrateAttribution *)
Record t : Type := mk {
  status : CrateAttributionStatus.t;
  package_name : option string;
  manifest_repo_relative_path : option string;
  unattributed_reason : option CrateAttributionReason.t
}.
End CrateAttribution.

(** ** Graph records *)

Module NodeRec.
(* ir.rs 1317-1853: GraphRecord::Node *)
Record t : Type := mk {
  id : string;
  kind : NodeKind.t;
  schema_version : N;
  repo_relative_path : option string;
  span : option SourceSpan.t;
  name : option string;
  language : option string;
  symbol_kind : option string;
  disambiguator : option N;
  visibility : option string;
  signature : option string;
  doc : option string;
  call_context : option string;
  note : option string;
  content_signature : option string;
  route : option (list RouteAnnotation.t);
  deprecated : option DeprecationMark.t;
  lint_suppression : option LintSuppressionFacts.t;
  cfg : option (list string);
  entry_point : option EntryPointMark.t;
  role : option SymbolRole.t;
  complexity : option N;
  crate_attribution : option CrateAttribution.t;
  temporal : option TemporalMetadata.t;
  semantic_drift : option SemanticDriftMetadata.t;
  evidence_links : option (list EvidenceLink.t);
  repository_identity : option RepositoryIdentityPayload.t;
  source_snapshot : option SourceSnapshotPayload.t;
  dependency : option DependencyDeclarationPayload.t;
  log : option LogPayload.t;
  scan_coverage : option ScanCoveragePayload.t;
  history_replay_window : option HistoryReplayWindowPayload.t;
  history_replay_tip : option HistoryReplayTipPayload.t;
  embedding_model : option EmbeddingModel.t;
  text : option string;
  decision_text : option string;
  rationale_summary : option string;
  superseded_by : option string;
  agent_id : option string;
  agent_kind : option string;
  session_id : option string;
  observed_at : option string;
  ingested_at : option string;
  confidence : option string;
  source_handle : option string;
  redaction_policy_version : option string;
  author_name : option string;
  author_email : option string;
  valid_time : option string;
  valid_time_source : option string;
  entity_id : option string;
  title : option string;
  body_handle : option OutputHandle.t;
  source_kind : option string;
  source_external_link_id : option string;
  assignees : option (list string);
  labels : option (list string);
  priority : option string;
  parent_task_id : option string;
  ordinal : option N;
  verification_link_id : option string;
  head_sha : option string;
  head_ref : option string;
  base_ref : option string;
  merge_commit_sha : option string;
  merged_at : option string;
  draft : option bool;
  system : option string;
  url : option string;
  system_native_id : option string;
  repository_remote : option string;
  discovered_at : option string;
  transaction_time : option string;
  summary : string;
  domain : option string;
  importer_id : option string;
  importer_version : option string;
  source_artifact_path : option string;
  source_artifact_hash : option string;
  patch_status : option string;
  base_commit : option string;
  unknown_base_reason : option string;
  target_files : option (list string);
  patch_bytes_hash : option string;
  patch_bytes_size : option N;
  patch_handle : option PatchHandle.t;
  validation_summary : option string;
  producer_session_id : option string;
  edit_kind : option string;
  before_hash : option string;
  after_hash : option string;
  rename_to : option string;
  hunk_count : option N;
  linked_patch_id : option string;
  linked_turn_id : option string;
  tool_name : option string;
  tool_kind : option string;
  arguments_summary : option string;
  arguments_handle : option OutputHandle.t;
  result_handle : option OutputHandle.t;
  produced_evidence_id : option string;
  started_at : option string;
  finished_at : option string;
  failure_kind : option string;
  exit_code : option Z;
  turn_index : option N;
  stdout_handle : option OutputHandle.t;
  stderr_handle : option OutputHandle.t;
  evidence_quality : option string;
  executed_at : option string;
  verification_kind : option string;
  status : option string;
  review_kind : option string;
  review_state : option string;
  in_reply_to_id : option string;
  author : option string;
  diff_hunk_handle : option OutputHandle.t;
  review_side : option string;
  review_commit_sha : option string;
  identity_system : option string;
  transition_kind : option string;
  user_context : UserContextFields.t;
  producer : option Producer.t
}.

(** The record rebuilt field by field: what a field update replaces one
    component of (see [node_setter]). *)
Definition eta (r : t) : t := mk
  r.(id) r.(kind) r.(schema_version) r.(repo_relative_path) r.(span) r.(name)
  r.(language) r.(symbol_kind) r.(disambiguator) r.(visibility) r.(signature) r.(doc)
  r.(call_context) r.(note) r.(content_signature) r.(route) r.(deprecated)
  r.(lint_suppression) r.(cfg) r.(entry_point) r.(role) r.(complexity)
  r.(crate_attribution) r.(temporal) r.(semantic_drift) r.(evidence_links)
  r.(repository_identity) r.(source_snapshot) r.(dependency) r.(log) r.(scan_coverage)
  r.(history_replay_window) r.(history_replay_tip) r.(embedding_model) r.(text)
  r.(decision_text) r.(rationale_summary) r.(superseded_by) r.(agent_id)
  r.(agent_kind) r.(session_id) r.(observed_at) r.(ingested_at) r.(confidence)
  r.(source_handle) r.(redaction_policy_version) r.(author_name) r.(author_email)
  r.(valid_time) r.(valid_time_source) r.(entity_id) r.(title) r.(body_handle)
  r.(source_kind) r.(source_external_link_id) r.(assignees) r.(labels) r.(priority)
  r.(parent_task_id) r.(ordinal) r.(verification_link_id) r.(head_sha) r.(head_ref)
  r.(base_ref) r.(merge_commit_sha) r.(merged_at) r.(draft) r.(system) r.(url)
  r.(system_native_id) r.(repository_remote) r.(discovered_at) r.(transaction_time)
  r.(summary) r.(domain) r.(importer_id) r.(importer_version) r.(source_artifact_path)
  r.(source_artifact_hash) r.(patch_status) r.(base_commit) r.(unknown_base_reason)
  r.(target_files) r.(patch_bytes_hash) r.(patch_bytes_size) r.(patch_handle)
  r.(validation_summary) r.(producer_session_id) r.(edit_kind) r.(before_hash)
  r.(after_hash) r.(rename_to) r.(hunk_count) r.(linked_patch_id) r.(linked_turn_id)
  r.(tool_name) r.(tool_kind) r.(arguments_summary) r.(arguments_handle)
  r.(result_handle) r.(produced_evidence_id) r.(started_at) r.(finished_at)
  r.(failure_kind) r.(exit_code) r.(turn_index) r.(stdout_handle) r.(stderr_handle)
  r.(evidence_quality) r.(executed_at) r.(verification_kind) r.(status)
  r.(review_kind) r.(review_state) r.(in_reply_to_id) r.(author) r.(diff_hunk_handle)
  r.(review_side) r.(review_commit_sha) r.(identity_system) r.(transition_kind)
  r.(user_context) r.(producer).

(** The setter of the field [getter]: [eta] with that component updated. *)
Ltac node_setter getter :=
  let f := fresh "f" in
  let r := fresh "r" in
  unfold Setter; intros f r;
  let b := eval cbv beta delta [eta] in (eta r) in
  let b' := eval pattern (getter r) in b in
  lazymatch b' with
  | ?F _ => let u := eval cbv beta in (F (f (getter r))) in exact u
  end.
#[global] Hint Extern 0 (@Setter t _ ?getter) =>
  node_setter getter : typeclass_instances.
End NodeRec.

Module EdgeRec.
(* ir.rs 1855-1920: GraphRecord::Edge *)
Record t : Type := mk {
  id : string;
  schema_version : N;
  label : EdgeLabel.t;
  source : string;
  target : string;
  confidence : option string;
  resolution : option CallResolution.t;
  frame_resolution : option FrameResolution.t;
  frame_index : option N;
  basis : option CorrelationBasis.t;
  call_site_spans : option (list SourceSpan.t);
  is_exhaustive : option bool;
  temporal : option TemporalMetadata.t;
  summary : string;
  producer : option Producer.t
}.
End EdgeRec.

Module TombRec.
(* ir.rs 1922-1935: GraphRecord::Tombstone *)
Record t : Type := mk {
  id : string;
  schema_version : N;
  deleted_id : string;
  summary : string;
  producer : option Producer.t
}.
End TombRec.

(* ir.rs 1315-1316: GraphRecord *)
Inductive GraphRecord : Type :=
| Node (n : NodeRec.t)
| Edge (e : EdgeRec.t)
| Tombstone (tb : TombRec.t).

