(* ===== verification/IrOps.v ===== *)
(** * The graph intermediate representation: operations

    [impl GraphRecord] and [impl Graph] of [src/src/ir.rs] and its stable-id
    minting functions. The constructors and [with_*] builders take the record by
    value and return it, so each is a pure function; a builder that matches
    [if let Self::Node { .. } = &mut self] is [on_node], one that matches an edge
    is [on_edge]. [blake3_hex] is the external BLAKE3 hasher: the hex digest of the
    bytes fed to it, [update] calls concatenated. *)
From S2P Require Import Prelude RustStr Ir.

(** ** Stable ids *)
Section StableIds.
Context (blake3_hex : string → string).

(** The bytes the hasher is fed: every part followed by a NUL. *)
(* ir.rs 5100-5104: stable_id *)
Fixpoint id_preimage (parts : list string) : string :=
  match parts with
  | [] => ""
  | part :: rest => part +:+ String NUL (id_preimage rest)
  end.

(* ir.rs 5098-5106: stable_id *)
Definition stable_id (parts : list string) : string :=
  "codegraph:v" +:+ dec SCHEMA_VERSION +:+ ":" +:+ blake3_hex (id_preimage parts).

(* ir.rs 5160-5171: artifact_stable_id *)
Definition artifact_stable_id (parts : list string) : string :=
  "artifact:v" +:+ dec ARTIFACT_SCHEMA_VERSION +:+ ":" +:+ blake3_hex (id_preimage parts).

(* ir.rs 5178-5189: project_stable_id *)
Definition project_stable_id (parts : list string) : string :=
  "project:v" +:+ dec PROJECT_SCHEMA_VERSION +:+ ":" +:+ blake3_hex (id_preimage parts).

(* ir.rs 5195-5206: semantic_stable_id *)
Definition semantic_stable_id (parts : list string) : string :=
  "semantic:v" +:+ dec SEMANTIC_SCHEMA_VERSION +:+ ":" +:+ blake3_hex (id_preimage parts).

(* ir.rs 5213-5224: user_context_stable_id *)
Definition user_context_stable_id (parts : list string) : string :=
  "user_context:v" +:+ dec USER_CONTEXT_SCHEMA_VERSION +:+ ":" +:+ blake3_hex (id_preimage parts).

(* ir.rs 5234-5242: log_stable_id *)
Definition log_stable_id (parts : list string) : string :=
  "log:v" +:+ dec LOG_SCHEMA_VERSION +:+ ":" +:+ blake3_hex (id_preimage parts).

(* ir.rs 5267-5278: agent_memory_stable_id *)
Definition agent_memory_stable_id (parts : list string) : string :=
  "agent_memory:v" +:+ dec AGENT_MEMORY_SCHEMA_VERSION +:+ ":" +:+ blake3_hex (id_preimage parts).

(* ir.rs 5142-5153: verification_stable_id *)
Definition verification_stable_id (parts : list string) : string :=
  "verification:v" +:+ dec VERIFICATION_SCHEMA_VERSION +:+ ":"
  +:+ blake3_hex (id_preimage (to_ascii_lowercase <$> parts)).

(* ir.rs 5112-5120: versioned_stable_id *)
Definition versioned_stable_id (version : N) (parts : list string) : string :=
  "codegraph:v" +:+ dec version +:+ ":" +:+ blake3_hex (id_preimage parts).

End StableIds.

(* ir.rs 5125-5136: parse_codegraph_id *)
Definition parse_codegraph_id (id : string) : option (N * string) :=
  if negb (starts_with id "codegraph:v") then None
  else
    let?o rest := strip_prefix "codegraph:v" id in
    let?o parts := split_once ":" rest in
    let?o version := parse_u32 parts.1 in
    Some (version, parts.2).

(* ir.rs 5252-5260: strip_log_id_prefix *)
Definition strip_log_id_prefix (id : string) : option string :=
  let?o rest := strip_prefix "log:v" id in
  let?o parts := split_once ":" rest in
  let version := parts.1 in
  if (version =s? "") || negb (str_all is_ascii_digit version) then None
  else Some parts.2.

(** ** GraphRecord *)
Module GraphRecord.

Definition on_node (f : NodeRec.t → NodeRec.t) (r : GraphRecord) : GraphRecord :=
  match r with Node n => Node (f n) | _ => r end.
Definition on_edge (f : EdgeRec.t → EdgeRec.t) (r : GraphRecord) : GraphRecord :=
  match r with Edge e => Edge (f e) | _ => r end.

(** *** Accessors *)
(* ir.rs 1940-1945: GraphRecord::id *)
Definition id (self : GraphRecord) : string :=
  match self with
  | Node n => n.(NodeRec.id)
  | Edge e => e.(EdgeRec.id)
  | Tombstone tb => tb.(TombRec.id)
  end.

(* ir.rs 1948-1954: GraphRecord::node_kind_name *)
Definition node_kind_name (self : GraphRecord) : option string :=
  match self with
  | Node n => Some (NodeKind.as_str n.(NodeRec.kind))
  | Edge _ | Tombstone _ => None
  end.

(* ir.rs 2004-2010: GraphRecord::node_kind_ref *)
Definition node_kind_ref (self : GraphRecord) : option NodeKind.t :=
  match self with
  | Node n => Some n.(NodeRec.kind)
  | Edge _ | Tombstone _ => None
  end.

(* ir.rs 1964-1970: GraphRecord::source_kind_ref *)
Definition source_kind_ref (self : GraphRecord) : option string :=
  match self with Node n => n.(NodeRec.source_kind) | Edge _ | Tombstone _ => None end.

(* ir.rs 2951-2957: GraphRecord::decision_text *)
Definition decision_text (self : GraphRecord) : option string :=
  match self with Node n => n.(NodeRec.decision_text) | Edge _ | Tombstone _ => None end.

(* ir.rs 2960-2968: GraphRecord::rationale_summary *)
Definition rationale_summary (self : GraphRecord) : option string :=
  match self with Node n => n.(NodeRec.rationale_summary) | Edge _ | Tombstone _ => None end.

(* ir.rs 2971-2977: GraphRecord::note *)
Definition note (self : GraphRecord) : option string :=
  match self with Node n => n.(NodeRec.note) | Edge _ | Tombstone _ => None end.

(* ir.rs 3000-3008: GraphRecord::content_signature *)
Definition content_signature (self : GraphRecord) : option string :=
  match self with Node n => n.(NodeRec.content_signature) | Edge _ | Tombstone _ => None end.

(* ir.rs 3023-3029: GraphRecord::complexity *)
Definition complexity (self : GraphRecord) : option N :=
  match self with Node n => n.(NodeRec.complexity) | Edge _ | Tombstone _ => None end.

(* ir.rs 3046-3052: GraphRecord::route *)
Definition route (self : GraphRecord) : option (list RouteAnnotation.t) :=
  match self with Node n => n.(NodeRec.route) | Edge _ | Tombstone _ => None end.

(* ir.rs 3067-3073: GraphRecord::deprecated *)
Definition deprecated (self : GraphRecord) : option DeprecationMark.t :=
  match self with Node n => n.(NodeRec.deprecated) | Edge _ | Tombstone _ => None end.

(* ir.rs 3091-3099: GraphRecord::lint_suppression *)
Definition lint_suppression (self : GraphRecord) : option LintSuppressionFacts.t :=
  match self with Node n => n.(NodeRec.lint_suppression) | Edge _ | Tombstone _ => None end.

(* ir.rs 3125-3131: GraphRecord::cfg *)
Definition cfg (self : GraphRecord) : option (list string) :=
  match self with Node n => n.(NodeRec.cfg) | Edge _ | Tombstone _ => None end.

(* ir.rs 3146-3152: GraphRecord::entry_point *)
Definition entry_point (self : GraphRecord) : option EntryPointMark.t :=
  match self with Node n => n.(NodeRec.entry_point) | Edge _ | Tombstone _ => None end.

(* ir.rs 3169-3175: GraphRecord::role *)
Definition role (self : GraphRecord) : option SymbolRole.t :=
  match self with Node n => n.(NodeRec.role) | Edge _ | Tombstone _ => None end.

(* ir.rs 3199-3207: GraphRecord::crate_attribution *)
Definition crate_attribution (self : GraphRecord) : option CrateAttribution.t :=
  match self with Node n => n.(NodeRec.crate_attribution) | Edge _ | Tombstone _ => None end.

(* ir.rs 3282-3288: GraphRecord::call_context *)
Definition call_context (self : GraphRecord) : option string :=
  match self with Node n => n.(NodeRec.call_context) | Edge _ | Tombstone _ => None end.

(* ir.rs 3346-3352: GraphRecord::dependency *)
Definition dependency (self : GraphRecord) : option DependencyDeclarationPayload.t :=
  match self with Node n => n.(NodeRec.dependency) | Edge _ | Tombstone _ => None end.

(* ir.rs 3376-3382: GraphRecord::scan_coverage *)
Definition scan_coverage (self : GraphRecord) : option ScanCoveragePayload.t :=
  match self with Node n => n.(NodeRec.scan_coverage) | Edge _ | Tombstone _ => None end.

(* ir.rs 3400-3409: GraphRecord::history_replay_window *)
Definition history_replay_window (self : GraphRecord) : option HistoryReplayWindowPayload.t :=
  match self with Node n => n.(NodeRec.history_replay_window) | Edge _ | Tombstone _ => None end.

(* ir.rs 3426-3434: GraphRecord::history_replay_tip *)
Definition history_replay_tip (self : GraphRecord) : option HistoryReplayTipPayload.t :=
  match self with Node n => n.(NodeRec.history_replay_tip) | Edge _ | Tombstone _ => None end.

(* ir.rs 3451-3459: GraphRecord::embedding_model *)
Definition embedding_model (self : GraphRecord) : option EmbeddingModel.t :=
  match self with Node n => n.(NodeRec.embedding_model) | Edge _ | Tombstone _ => None end.

(* ir.rs 3473-3479: GraphRecord::evidence_links *)
Definition evidence_links (self : GraphRecord) : option (list EvidenceLink.t) :=
  match self with Node n => n.(NodeRec.evidence_links) | Edge _ | Tombstone _ => None end.

(* ir.rs 3483-3489: GraphRecord::log_payload *)
Definition log_payload (self : GraphRecord) : option LogPayload.t :=
  match self with Node n => n.(NodeRec.log) | Edge _ | Tombstone _ => None end.

(* ir.rs 3493-3501: GraphRecord::source_snapshot *)
Definition source_snapshot (self : GraphRecord) : option SourceSnapshotPayload.t :=
  match self with Node n => n.(NodeRec.source_snapshot) | Edge _ | Tombstone _ => None end.

(* ir.rs 2731-2737: GraphRecord::resolution *)
Definition resolution (self : GraphRecord) : option CallResolution.t :=
  match self with Edge e => e.(EdgeRec.resolution) | Node _ | Tombstone _ => None end.

(* ir.rs 2777-2783: GraphRecord::basis *)
Definition basis (self : GraphRecord) : option CorrelationBasis.t :=
  match self with Edge e => e.(EdgeRec.basis) | Node _ | Tombstone _ => None end.

(* ir.rs 2797-2803: GraphRecord::construct_is_exhaustive *)
Definition construct_is_exhaustive (self : GraphRecord) : option bool :=
  match self with Edge e => e.(EdgeRec.is_exhaustive) | Node _ | Tombstone _ => None end.

(* ir.rs 2823-2831: GraphRecord::call_site_spans *)
Definition call_site_spans (self : GraphRecord) : option (list SourceSpan.t) :=
  match self with Edge e => e.(EdgeRec.call_site_spans) | Node _ | Tombstone _ => None end.

(* ir.rs 2835-2843: GraphRecord::frame_resolution *)
Definition frame_resolution (self : GraphRecord) : option FrameResolution.t :=
  match self with Edge e => e.(EdgeRec.frame_resolution) | Node _ | Tombstone _ => None end.

(* ir.rs 2847-2853: GraphRecord::frame_index *)
Definition frame_index (self : GraphRecord) : option N :=
  match self with Edge e => e.(EdgeRec.frame_index) | Node _ | Tombstone _ => None end.

(* ir.rs 3676-3683: GraphRecord::producer *)
Definition producer (self : GraphRecord) : option Producer.t :=
  match self with
  | Node n => n.(NodeRec.producer)
  | Edge e => e.(EdgeRec.producer)
  | Tombstone tb => tb.(TombRec.producer)
  end.

(** [iter().rev().find(..)]: the last record satisfying the test. *)
Definition rfind (f : GraphRecord → bool) (records : list GraphRecord)
    : option GraphRecord :=
  List.find f (reverse records).

(* ir.rs 1984-1994: GraphRecord::resolve_source_kind_in_batch *)
Definition resolve_source_kind_in_batch (i : string) (records : list GraphRecord)
    : option (option string) :=
  source_kind_ref <$> rfind (λ record, id record =s? i) records.

(* ir.rs 2023-2030: GraphRecord::resolve_node_kind_in_batch *)
Definition resolve_node_kind_in_batch (i : string) (records : list GraphRecord)
    : option (option NodeKind.t) :=
  node_kind_ref <$> rfind (λ record, id record =s? i) records.

(** *** Constructors *)
(* ir.rs 2033-2168: GraphRecord::node *)
Definition node (id : string) (kind : NodeKind.t) (repo_relative_path : option string)
    (span : option SourceSpan.t) (name : option string) (summary : string)
    : GraphRecord :=
  Node {|
    NodeRec.id := id;
    NodeRec.kind := kind;
    NodeRec.schema_version := SCHEMA_VERSION;
    NodeRec.repo_relative_path := repo_relative_path;
    NodeRec.span := span;
    NodeRec.name := name;
    NodeRec.language := None;
    NodeRec.symbol_kind := None;
    NodeRec.disambiguator := None;
    NodeRec.visibility := None;
    NodeRec.signature := None;
    NodeRec.doc := None;
    NodeRec.call_context := None;
    NodeRec.note := None;
    NodeRec.content_signature := None;
    NodeRec.route := None;
    NodeRec.deprecated := None;
    NodeRec.lint_suppression := None;
    NodeRec.cfg := None;
    NodeRec.entry_point := None;
    NodeRec.role := None;
    NodeRec.complexity := None;
    NodeRec.crate_attribution := None;
    NodeRec.temporal := None;
    NodeRec.semantic_drift := None;
    NodeRec.evidence_links := None;
    NodeRec.repository_identity := None;
    NodeRec.source_snapshot := None;
    NodeRec.text := None;
    NodeRec.decision_text := None;
    NodeRec.rationale_summary := None;
    NodeRec.superseded_by := None;
    NodeRec.agent_id := None;
    NodeRec.agent_kind := None;
    NodeRec.session_id := None;
    NodeRec.observed_at := None;
    NodeRec.ingested_at := None;
    NodeRec.confidence := None;
    NodeRec.source_handle := None;
    NodeRec.redaction_policy_version := None;
    NodeRec.author_name := None;
    NodeRec.author_email := None;
    NodeRec.valid_time := None;
    NodeRec.valid_time_source := None;
    NodeRec.entity_id := None;
    NodeRec.title := None;
    NodeRec.body_handle := None;
    NodeRec.source_kind := None;
    NodeRec.source_external_link_id := None;
    NodeRec.assignees := None;
    NodeRec.labels := None;
    NodeRec.priority := None;
    NodeRec.parent_task_id := None;
    NodeRec.ordinal := None;
    NodeRec.verification_link_id := None;
    NodeRec.head_sha := None;
    NodeRec.head_ref := None;
    NodeRec.base_ref := None;
    NodeRec.merge_commit_sha := None;
    NodeRec.merged_at := None;
    NodeRec.draft := None;
    NodeRec.system := None;
    NodeRec.url := None;
    NodeRec.system_native_id := None;
    NodeRec.repository_remote := None;
    NodeRec.discovered_at := None;
    NodeRec.transaction_time := None;
    NodeRec.summary := summary;
    NodeRec.domain := None;
    NodeRec.importer_id := None;
    NodeRec.importer_version := None;
    NodeRec.source_artifact_path := None;
    NodeRec.source_artifact_hash := None;
    NodeRec.patch_status := None;
    NodeRec.base_commit := None;
    NodeRec.unknown_base_reason := None;
    NodeRec.target_files := None;
    NodeRec.patch_bytes_hash := None;
    NodeRec.patch_bytes_size := None;
    NodeRec.patch_handle := None;
    NodeRec.validation_summary := None;
    NodeRec.producer_session_id := None;
    NodeRec.edit_kind := None;
    NodeRec.before_hash := None;
    NodeRec.after_hash := None;
    NodeRec.rename_to := None;
    NodeRec.hunk_count := None;
    NodeRec.linked_patch_id := None;
    NodeRec.linked_turn_id := None;
    NodeRec.tool_name := None;
    NodeRec.tool_kind := None;
    NodeRec.arguments_summary := None;
    NodeRec.arguments_handle := None;
    NodeRec.result_handle := None;
    NodeRec.produced_evidence_id := None;
    NodeRec.started_at := None;
    NodeRec.finished_at := None;
    NodeRec.failure_kind := None;
    NodeRec.exit_code := None;
    NodeRec.turn_index := None;
    NodeRec.stdout_handle := None;
    NodeRec.stderr_handle := None;
    NodeRec.evidence_quality := None;
    NodeRec.executed_at := None;
    NodeRec.verification_kind := None;
    NodeRec.status := None;
    NodeRec.review_kind := None;
    NodeRec.review_state := None;
    NodeRec.in_reply_to_id := None;
    NodeRec.author := None;
    NodeRec.diff_hunk_handle := None;
    NodeRec.review_side := None;
    NodeRec.review_commit_sha := None;
    NodeRec.identity_system := None;
    NodeRec.transition_kind := None;
    NodeRec.dependency := None;
    NodeRec.log := None;
    NodeRec.scan_coverage := None;
    NodeRec.history_replay_window := None;
    NodeRec.history_replay_tip := None;
    NodeRec.embedding_model := None;
    NodeRec.user_context := UserContextFields.empty;
    NodeRec.producer := None
  |}.

(* ir.rs 2171-2307: GraphRecord::syntax_node *)
Definition syntax_node (id : string) (kind : NodeKind.t) (repo_relative_path : string)
    (span : SourceSpan.t) (name language summary : string) : GraphRecord :=
  on_node (λ n, n{{ NodeRec.language := Some language }})
    (node id kind (Some repo_relative_path) (Some span) (Some name) summary).

(* ir.rs 2310-2445: GraphRecord::symbol *)
Definition symbol (id symbol_kind repo_relative_path : string) (span : SourceSpan.t)
    (name summary : string) : GraphRecord :=
  on_node (λ n, n{{ NodeRec.language := Some "rust";
                    NodeRec.symbol_kind := Some symbol_kind;
                    NodeRec.disambiguator := Some 0%N }})
    (node id NodeKind.Symbol (Some repo_relative_path) (Some span) (Some name) summary).

(* ir.rs 2451-2588: GraphRecord::syntax_symbol *)
Definition syntax_symbol (id symbol_kind repo_relative_path : string)
    (span : SourceSpan.t) (name language : string) (disambiguator : N)
    (summary : string) : GraphRecord :=
  on_node (λ n, n{{ NodeRec.language := Some language;
                    NodeRec.symbol_kind := Some symbol_kind;
                    NodeRec.disambiguator := Some disambiguator }})
    (node id NodeKind.Symbol (Some repo_relative_path) (Some span) (Some name) summary).

Section Edges.
Context (blake3_hex : string → string).

(* ir.rs 2591-2617: GraphRecord::agent_memory_edge *)
Definition agent_memory_edge (label : EdgeLabel.t) (source target : string)
    (confidence : option string) (summary : string) : GraphRecord :=
  Edge {|
    EdgeRec.id := agent_memory_stable_id blake3_hex ["edge"; EdgeLabel.as_str label; source; target];
    EdgeRec.schema_version := AGENT_MEMORY_SCHEMA_VERSION;
    EdgeRec.label := label;
    EdgeRec.source := source;
    EdgeRec.target := target;
    EdgeRec.confidence := confidence;
    EdgeRec.resolution := None;
    EdgeRec.frame_resolution := None;
    EdgeRec.frame_index := None;
    EdgeRec.basis := None;
    EdgeRec.call_site_spans := None;
    EdgeRec.is_exhaustive := None;
    EdgeRec.temporal := None;
    EdgeRec.summary := summary;
    EdgeRec.producer := None
  |}.

(* ir.rs 2620-2647: GraphRecord::edge *)
Definition edge (label : EdgeLabel.t) (source target : string)
    (confidence : option string) (summary : string) : GraphRecord :=
  Edge {|
    EdgeRec.id := stable_id blake3_hex ["edge"; EdgeLabel.as_str label; source; target];
    EdgeRec.schema_version := SCHEMA_VERSION;
    EdgeRec.label := label;
    EdgeRec.source := source;
    EdgeRec.target := target;
    EdgeRec.confidence := confidence;
    EdgeRec.resolution := None;
    EdgeRec.frame_resolution := None;
    EdgeRec.frame_index := None;
    EdgeRec.basis := None;
    EdgeRec.call_site_spans := None;
    EdgeRec.is_exhaustive := None;
    EdgeRec.temporal := None;
    EdgeRec.summary := summary;
    EdgeRec.producer := None
  |}.

(* ir.rs 2658-2684: GraphRecord::project_edge *)
Definition project_edge (label : EdgeLabel.t) (source target : string)
    (confidence : option string) (summary : string) : GraphRecord :=
  Edge {|
    EdgeRec.id := project_stable_id blake3_hex ["project"; "edge"; EdgeLabel.as_str label; source; target];
    EdgeRec.schema_version := PROJECT_SCHEMA_VERSION;
    EdgeRec.label := label;
    EdgeRec.source := source;
    EdgeRec.target := target;
    EdgeRec.confidence := confidence;
    EdgeRec.resolution := None;
    EdgeRec.frame_resolution := None;
    EdgeRec.frame_index := None;
    EdgeRec.basis := None;
    EdgeRec.call_site_spans := None;
    EdgeRec.is_exhaustive := None;
    EdgeRec.temporal := None;
    EdgeRec.summary := summary;
    EdgeRec.producer := None
  |}.

(* ir.rs 2690-2716: GraphRecord::artifact_edge *)
Definition artifact_edge (label : EdgeLabel.t) (source target : string)
    (confidence : option string) (summary : string) : GraphRecord :=
  Edge {|
    EdgeRec.id := artifact_stable_id blake3_hex ["artifact"; "edge"; EdgeLabel.as_str label; source; target];
    EdgeRec.schema_version := ARTIFACT_SCHEMA_VERSION;
    EdgeRec.label := label;
    EdgeRec.source := source;
    EdgeRec.target := target;
    EdgeRec.confidence := confidence;
    EdgeRec.resolution := None;
    EdgeRec.frame_resolution := None;
    EdgeRec.frame_index := None;
    EdgeRec.basis := None;
    EdgeRec.call_site_spans := None;
    EdgeRec.is_exhaustive := None;
    EdgeRec.temporal := None;
    EdgeRec.summary := summary;
    EdgeRec.producer := None
  |}.

End Edges.

(** *** Edge builders *)
(* ir.rs 2721-2727: GraphRecord::with_resolution *)
Definition with_resolution (v : CallResolution.t) : GraphRecord → GraphRecord :=
  on_edge (λ e, e{{ EdgeRec.resolution := Some v }}).

(* ir.rs 2741-2750: GraphRecord::with_frame_resolution *)
Definition with_frame_resolution (v : FrameResolution.t) : GraphRecord → GraphRecord :=
  on_edge (λ e, e{{ EdgeRec.frame_resolution := Some v }}).

(* ir.rs 2754-2763: GraphRecord::with_frame_index *)
Definition with_frame_index (v : N) : GraphRecord → GraphRecord :=
  on_edge (λ e, e{{ EdgeRec.frame_index := Some v }}).

(* ir.rs 2767-2773: GraphRecord::with_basis *)
Definition with_basis (v : CorrelationBasis.t) : GraphRecord → GraphRecord :=
  on_edge (λ e, e{{ EdgeRec.basis := Some v }}).

(* ir.rs 2787-2793: GraphRecord::with_construct_exhaustive *)
Definition with_construct_exhaustive (v : bool) : GraphRecord → GraphRecord :=
  on_edge (λ e, e{{ EdgeRec.is_exhaustive := Some v }}).

(* ir.rs 2810-2819: GraphRecord::with_call_site_spans *)
Definition with_call_site_spans (v : list SourceSpan.t) : GraphRecord → GraphRecord :=
  on_edge (λ e, e{{ EdgeRec.call_site_spans := Some v }}).

(** *** Node builders *)
(* ir.rs 2916-2922: GraphRecord::with_note *)
Definition with_note (v : string) : GraphRecord → GraphRecord :=
  on_node (λ n, n{{ NodeRec.note := Some v }}).

(* ir.rs 2925-2935: GraphRecord::with_decision_text *)
Definition with_decision_text (v : string) : GraphRecord → GraphRecord :=
  on_node (λ n, n{{ NodeRec.decision_text := Some v }}).

(* ir.rs 2938-2948: GraphRecord::with_rationale_summary *)
Definition with_rationale_summary (v : string) : GraphRecord → GraphRecord :=
  on_node (λ n, n{{ NodeRec.rationale_summary := Some v }}).

(* ir.rs 2988-2997: GraphRecord::with_content_signature *)
Definition with_content_signature (v : string) : GraphRecord → GraphRecord :=
  on_node (λ n, n{{ NodeRec.content_signature := Some v }}).

(* ir.rs 3014-3020: GraphRecord::with_complexity *)
Definition with_complexity (v : N) : GraphRecord → GraphRecord :=
  on_node (λ n, n{{ NodeRec.complexity := Some v }}).

(* ir.rs 3058-3064: GraphRecord::with_deprecated *)
Definition with_deprecated (v : DeprecationMark.t) : GraphRecord → GraphRecord :=
  on_node (λ n, n{{ NodeRec.deprecated := Some v }}).

(* ir.rs 3079-3088: GraphRecord::with_lint_suppression *)
Definition with_lint_suppression (v : LintSuppressionFacts.t) : GraphRecord → GraphRecord :=
  on_node (λ n, n{{ NodeRec.lint_suppression := Some v }}).

(** The [debug_assert!] that [gates] is not empty is a debug-build check only. *)
(* ir.rs 3109-3119: GraphRecord::with_cfg *)
Definition with_cfg (v : list string) : GraphRecord → GraphRecord :=
  on_node (λ n, n{{ NodeRec.cfg := Some v }}).

(* ir.rs 3137-3143: GraphRecord::with_entry_point *)
Definition with_entry_point (v : EntryPointMark.t) : GraphRecord → GraphRecord :=
  on_node (λ n, n{{ NodeRec.entry_point := Some v }}).

(* ir.rs 3158-3164: GraphRecord::with_role *)
Definition with_role (v : SymbolRole.t) : GraphRecord → GraphRecord :=
  on_node (λ n, n{{ NodeRec.role := Some v }}).

(* ir.rs 3181-3190: GraphRecord::with_crate_attribution *)
Definition with_crate_attribution (v : CrateAttribution.t) : GraphRecord → GraphRecord :=
  on_node (λ n, n{{ NodeRec.crate_attribution := Some v }}).

(* ir.rs 3261-3267: GraphRecord::with_semantic_drift *)
Definition with_semantic_drift (v : SemanticDriftMetadata.t) : GraphRecord → GraphRecord :=
  on_node (λ n, n{{ NodeRec.semantic_drift := Some v }}).

(* ir.rs 3273-3279: GraphRecord::with_call_context *)
Definition with_call_context (v : string) : GraphRecord → GraphRecord :=
  on_node (λ n, n{{ NodeRec.call_context := Some v }}).

(* ir.rs 3306-3316: GraphRecord::with_repository_identity *)
Definition with_repository_identity (v : RepositoryIdentityPayload.t) : GraphRecord → GraphRecord :=
  on_node (λ n, n{{ NodeRec.repository_identity := Some v }}).

(* ir.rs 3323-3332: GraphRecord::with_source_snapshot *)
Definition with_source_snapshot (v : SourceSnapshotPayload.t) : GraphRecord → GraphRecord :=
  on_node (λ n, n{{ NodeRec.source_snapshot := Some v }}).

(* ir.rs 3336-3342: GraphRecord::with_dependency *)
Definition with_dependency (v : DependencyDeclarationPayload.t) : GraphRecord → GraphRecord :=
  on_node (λ n, n{{ NodeRec.dependency := Some v }}).

(* ir.rs 3356-3362: GraphRecord::with_log *)
Definition with_log (v : LogPayload.t) : GraphRecord → GraphRecord :=
  on_node (λ n, n{{ NodeRec.log := Some v }}).

(* ir.rs 3366-3372: GraphRecord::with_scan_coverage *)
Definition with_scan_coverage (v : ScanCoveragePayload.t) : GraphRecord → GraphRecord :=
  on_node (λ n, n{{ NodeRec.scan_coverage := Some v }}).

(* ir.rs 3386-3396: GraphRecord::with_history_replay_window *)
Definition with_history_replay_window (v : HistoryReplayWindowPayload.t) : GraphRecord → GraphRecord :=
  on_node (λ n, n{{ NodeRec.history_replay_window := Some v }}).

(* ir.rs 3413-3422: GraphRecord::with_history_replay_tip *)
Definition with_history_replay_tip (v : HistoryReplayTipPayload.t) : GraphRecord → GraphRecord :=
  on_node (λ n, n{{ NodeRec.history_replay_tip := Some v }}).

(* ir.rs 3438-3447: GraphRecord::with_embedding_model *)
Definition with_embedding_model (v : EmbeddingModel.t) : GraphRecord → GraphRecord :=
  on_node (λ n, n{{ NodeRec.embedding_model := Some v }}).

(* ir.rs 3575-3584: GraphRecord::with_transaction_time *)
Definition with_transaction_time (v : string) : GraphRecord → GraphRecord :=
  on_node (λ n, n{{ NodeRec.transaction_time := Some v }}).

(* ir.rs 3587-3593: GraphRecord::with_superseded_by *)
Definition with_superseded_by (v : string) : GraphRecord → GraphRecord :=
  on_node (λ n, n{{ NodeRec.superseded_by := Some v }}).

(* ir.rs 3599-3609: GraphRecord::with_redaction_policy_version *)
Definition with_redaction_policy_version (v : string) : GraphRecord → GraphRecord :=
  on_node (λ n, n{{ NodeRec.redaction_policy_version := Some v }}).

(* ir.rs 3613-3619: GraphRecord::with_title *)
Definition with_title (v : string) : GraphRecord → GraphRecord :=
  on_node (λ n, n{{ NodeRec.title := Some v }}).

(* ir.rs 3623-3633: GraphRecord::with_source_artifact_hash *)
Definition with_source_artifact_hash (v : string) : GraphRecord → GraphRecord :=
  on_node (λ n, n{{ NodeRec.source_artifact_hash := Some v }}).

(* ir.rs 3035-3043: GraphRecord::with_route *)
Definition with_route (annotations : list RouteAnnotation.t) : GraphRecord → GraphRecord :=
  on_node (λ n, match annotations with
                | [] => n
                | _ => n{{ NodeRec.route := Some annotations }}
                end).

(* ir.rs 3463-3469: GraphRecord::with_evidence_links *)
Definition with_evidence_links (links : list EvidenceLink.t) : GraphRecord → GraphRecord :=
  on_node (λ n, n{{ NodeRec.evidence_links :=
                      match links with [] => None | _ => Some links end }}).

(* ir.rs 2856-2865: GraphRecord::with_temporal *)
Definition with_temporal (m : TemporalMetadata.t) (self : GraphRecord) : GraphRecord :=
  match self with
  | Node n => Node (n{{ NodeRec.temporal := Some m }})
  | Edge e => Edge (e{{ EdgeRec.temporal := Some m }})
  | Tombstone tb => Tombstone tb
  end.

(* ir.rs 2868-2880: GraphRecord::with_author *)
Definition with_author (name email : option string) : GraphRecord → GraphRecord :=
  on_node (λ n, n{{ NodeRec.author_name := name; NodeRec.author_email := email }}).

(* ir.rs 2891-2910: GraphRecord::with_declaration_surface *)
Definition with_declaration_surface (visibility signature doc : option string)
    : GraphRecord → GraphRecord :=
  on_node (λ n, n{{ NodeRec.visibility := visibility; NodeRec.signature := signature;
                    NodeRec.doc := doc }}).

(* ir.rs 3291-3303: GraphRecord::with_domain *)
Definition with_domain (domain_name : string) (schema : N) : GraphRecord → GraphRecord :=
  on_node (λ n, n{{ NodeRec.domain := Some domain_name; NodeRec.schema_version := schema }}).

(* ir.rs 3509-3525: GraphRecord::with_valid_time *)
Definition with_valid_time (node_valid_time node_valid_time_source : string)
    : GraphRecord → GraphRecord :=
  on_node (λ n, n{{ NodeRec.valid_time := Some node_valid_time;
                    NodeRec.valid_time_source := Some node_valid_time_source }}).

(* ir.rs 3533-3545: GraphRecord::with_valid_time_inferred *)
Definition with_valid_time_inferred (transaction_time : string)
    : GraphRecord → GraphRecord :=
  on_node (λ n, n{{ NodeRec.valid_time := Some transaction_time;
                    NodeRec.valid_time_source := Some "inferred_from_transaction_time" }}).

(* ir.rs 3548-3567: GraphRecord::with_node_time *)
Definition with_node_time (node_valid_time node_valid_time_source node_ingested_at : string)
    : GraphRecord → GraphRecord :=
  on_node (λ n, n{{ NodeRec.valid_time := Some node_valid_time;
                    NodeRec.valid_time_source := Some node_valid_time_source;
                    NodeRec.ingested_at := Some node_ingested_at }}).

(** *** Builders of every record *)
(* ir.rs 3639-3649: GraphRecord::with_producer *)
Definition with_producer (p : Producer.t) (self : GraphRecord) : GraphRecord :=
  match self with
  | Node n => Node (n{{ NodeRec.producer := Some p }})
  | Edge e => Edge (e{{ EdgeRec.producer := Some p }})
  | Tombstone tb => Tombstone (tb{{ TombRec.producer := Some p }})
  end.

(* ir.rs 3657-3670: GraphRecord::with_cleared_producer_started_at *)
Definition with_cleared_producer_started_at (self : GraphRecord) : GraphRecord :=
  let clear (p : option Producer.t) :=
    (λ prod, prod{{ Producer.producer_started_at := "" }}) <$> p in
  match self with
  | Node n => Node (n{{ NodeRec.producer ::= clear }})
  | Edge e => Edge (e{{ EdgeRec.producer ::= clear }})
  | Tombstone tb => Tombstone (tb{{ TombRec.producer ::= clear }})
  end.

End GraphRecord.

(** ** Graph *)
Module Graph.
(* ir.rs 195-197: Graph *)
Record t : Type := mk { records : list GraphRecord }.

(* ir.rs 201-206: Graph::new *)
Definition new : t := mk [].
(* ir.rs 209-212: Graph::from_records *)
Definition from_records (records : list GraphRecord) : t := mk records.
(* ir.rs 215-217: Graph::push *)
Definition push (self : t) (record : GraphRecord) : t :=
  mk (self.(records) ++ [record]).
(* ir.rs 235-238: Graph::into_records *)
Definition into_records (self : t) : list GraphRecord := self.(records).
(* ir.rs 245-254: Graph::stamp_producer *)
Definition stamp_producer (self : t) (producer : Producer.t) : t :=
  mk (GraphRecord.with_producer producer <$> self.(records)).

(** [to_string] is [serde_json::to_string] of a record: [None] is its error. *)
(* ir.rs 264-272: Graph::to_jsonl *)
Definition to_jsonl (to_string : GraphRecord → option string) (self : t)
    : option string :=
  let?o lines := mapM to_string self.(records) in
  Some (join (String LF "") (str_sort lines) +:+ String LF "").
End Graph.

(** ** The wire names of the enumerations *)

(** Splits a membership fact in a literal list into its cases. *)
Ltac split_elem_of H :=
  repeat (apply elem_of_cons in H as [H|H]; [simplify_eq; try done|]);
  try (by apply elem_of_nil in H).

Lemma EdgeLabel_from_relation_Some s l :
  EdgeLabel.from_relation s = Some l ↔ EdgeLabel.as_str l = s.
Proof.
  split.
  - intros H. apply str_match_Some in H. split_elem_of H.
  - intros <-. by destruct l.
Qed.

Lemma CallResolution_from_wire_Some s r :
  CallResolution.from_wire s = Some r ↔ CallResolution.as_str r = s.
Proof.
  split; [intros H; apply str_match_Some in H; split_elem_of H|intros <-; by destruct r].
Qed.

Lemma FrameResolution_from_wire_Some s r :
  FrameResolution.from_wire s = Some r ↔ FrameResolution.as_str r = s.
Proof.
  split; [intros H; apply str_match_Some in H; split_elem_of H|intros <-; by destruct r].
Qed.

Lemma CorrelationBasis_from_wire_Some s r :
  CorrelationBasis.from_wire s = Some r ↔ CorrelationBasis.as_str r = s.
Proof.
  split; [intros H; apply str_match_Some in H; split_elem_of H|intros <-; by destruct r].
Qed.

#[export] Instance EdgeLabel_as_str_inj : Inj (=) (=) EdgeLabel.as_str.
Proof.
  intros a b H. apply EdgeLabel_from_relation_Some in H.
  pose proof (proj2 (EdgeLabel_from_relation_Some _ b) eq_refl). congruence.
Qed.

(** Every decoder of a wire name is the exact inverse of its encoder: it answers
    [Some l] for the one string [as_str l] and [None] for every other string. *)
Theorem wire_names_roundtrip s :
  (∀ l, EdgeLabel.from_relation s = Some l ↔ EdgeLabel.as_str l = s)
  ∧ (∀ r, CallResolution.from_wire s = Some r ↔ CallResolution.as_str r = s)
  ∧ (∀ r, FrameResolution.from_wire s = Some r ↔ FrameResolution.as_str r = s)
  ∧ (∀ b, CorrelationBasis.from_wire s = Some b ↔ CorrelationBasis.as_str b = s).
Proof.
  repeat split; try apply EdgeLabel_from_relation_Some;
    try apply CallResolution_from_wire_Some; try apply FrameResolution_from_wire_Some;
    apply CorrelationBasis_from_wire_Some.
Qed.

(** The [ALL] listings of the node kinds and edge labels hold every variant
    exactly once, and the wire names are pairwise different. *)
Theorem kind_and_label_listings_exact :
  (∀ k, k ∈ NodeKind.ALL) ∧ NoDup (NodeKind.as_str <$> NodeKind.ALL)
  ∧ (∀ l, l ∈ EdgeLabel.ALL) ∧ NoDup (EdgeLabel.as_str <$> EdgeLabel.ALL).
Proof.
  split_and!.
  - intros []; apply (bool_decide_eq_true_1 (_ ∈ NodeKind.ALL)); by vm_compute.
  - apply (bool_decide_eq_true_1 (NoDup _)); by vm_compute.
  - intros []; apply (bool_decide_eq_true_1 (_ ∈ EdgeLabel.ALL)); by vm_compute.
  - apply (bool_decide_eq_true_1 (NoDup _)); by vm_compute.
Qed.

(** ** Stable ids *)

(** No NUL byte: the separator of the hashed parts. *)
Definition nul_free : string → bool := str_all (λ c, negb (Ascii.eqb NUL c)).

Lemma id_preimage_inj ps qs :
  Forall nul_free ps → Forall nul_free qs →
  id_preimage ps = id_preimage qs → ps = qs.
Proof.
  intros Hps. revert qs. induction Hps as [|p ps Hp _ IH]; intros qs Hqs H.
  - destruct Hqs as [|[|c q] qs Hq _]; [done| |]; discriminate.
  - destruct Hqs as [|q qs Hq Hqs]; [by destruct p|].
    apply (f_equal (split_once (String NUL ""))) in H. simpl in H.
    rewrite !split_once_char in H by by apply Is_true_true.
    simplify_eq. f_equal. by apply IH.
Qed.

Lemma nul_free_lower s : nul_free s → nul_free (to_ascii_lowercase s).
Proof.
  unfold nul_free, to_ascii_lowercase. rewrite !Is_true_true. induction s as [|c s IH];
    cbn [str_all str_map]; [done|].
  intros [Hc ?]%andb_prop. rewrite IH, andb_true_r by done.
  by destruct c as [[][][][][][][][]].
Qed.

(** The minting function of each domain, its schema version, and what it does to
    the parts before it hashes them. *)
Definition mint (h : string → string) (d : Domain.t) : list string → string :=
  match d with
  | Domain.CodeGraph => stable_id h
  | Domain.AgentMemory => agent_memory_stable_id h
  | Domain.Verification => verification_stable_id h
  | Domain.Artifact => artifact_stable_id h
  | Domain.Project => project_stable_id h
  | Domain.Semantic => semantic_stable_id h
  | Domain.UserContext => user_context_stable_id h
  | Domain.Log => log_stable_id h
  end.

Definition domain_version (d : Domain.t) : N :=
  match d with
  | Domain.CodeGraph => SCHEMA_VERSION
  | Domain.AgentMemory => AGENT_MEMORY_SCHEMA_VERSION
  | Domain.Verification => VERIFICATION_SCHEMA_VERSION
  | Domain.Artifact => ARTIFACT_SCHEMA_VERSION
  | Domain.Project => PROJECT_SCHEMA_VERSION
  | Domain.Semantic => SEMANTIC_SCHEMA_VERSION
  | Domain.UserContext => USER_CONTEXT_SCHEMA_VERSION
  | Domain.Log => LOG_SCHEMA_VERSION
  end.

Definition hashed_parts (d : Domain.t) (ps : list string) : list string :=
  match d with Domain.Verification => to_ascii_lowercase <$> ps | _ => ps end.

Lemma mint_form h d ps :
  mint h d ps = Domain.as_str d +:+ ":v" +:+ dec (domain_version d) +:+ ":"
                +:+ h (id_preimage (hashed_parts d ps)).
Proof. by destruct d. Qed.

(** The text before the digest tells the domains apart. *)
Lemma mint_prefix_inj d d' x y :
  Domain.as_str d +:+ ":v" +:+ dec (domain_version d) +:+ ":" +:+ x
  = Domain.as_str d' +:+ ":v" +:+ dec (domain_version d') +:+ ":" +:+ y →
  d = d' ∧ x = y.
Proof. destruct d, d'; vm_compute; intros H; simplify_eq; done. Qed.

(** The minted ids identify what they were minted from: two ids minted in any
    of the eight domains from NUL-free parts are equal only when the domain and the
    (for verification ids, ASCII-lowercased) parts are, or when the two byte
    strings fed to BLAKE3 are a hash collision. *)
Theorem minted_ids_identify h d d' ps qs
    (Hps : Forall nul_free ps) (Hqs : Forall nul_free qs) :
  mint h d ps = mint h d' qs →
  d = d' ∧ (hashed_parts d ps = hashed_parts d qs
    ∨ (id_preimage (hashed_parts d ps) ≠ id_preimage (hashed_parts d qs)
       ∧ h (id_preimage (hashed_parts d ps)) = h (id_preimage (hashed_parts d qs)))).
Proof.
  rewrite !mint_form. intros [-> Hh]%mint_prefix_inj. split; [done|].
  destruct (decide (id_preimage (hashed_parts d' ps) = id_preimage (hashed_parts d' qs)))
    as [Heq|]; [left|right; done].
  apply id_preimage_inj; [..|done];
    destruct d'; simpl; try done; apply Forall_fmap;
    (eapply Forall_impl; [done|]); intros; by apply nul_free_lower.
Qed.

Lemma minted_ids_identify_witness :
  stable_id (λ s, s) ["a"; "b"] = mint (λ s, s) Domain.CodeGraph ["a"; "b"]
  ∧ Domain.CodeGraph = Domain.CodeGraph.
Proof.
  split; [reflexivity|].
  refine (proj1 (minted_ids_identify (λ s, s) Domain.CodeGraph Domain.CodeGraph
    ["a"; "b"] ["a"; "b"] _ _ eq_refl)); repeat constructor.
Defined.

(** A code-graph id of any [u32] version is parsed back into that version and
    its digest, and whatever parses is such a text: the prefix, a decimal [u32],
    a colon, the suffix. *)
Theorem codegraph_id_roundtrip h v ps id suffix :
  ((v ≤ u32_max)%N →
   parse_codegraph_id (versioned_stable_id h v ps) = Some (v, h (id_preimage ps)))
  ∧ (parse_codegraph_id id = Some (v, suffix) →
     ∃ text, id = "codegraph:v" +:+ text +:+ ":" +:+ suffix ∧ parse_u32 text = Some v).
Proof.
  unfold parse_codegraph_id, versioned_stable_id, starts_with. split.
  - intros Hv. rewrite strip_prefix_app. simpl.
    assert (split_once ":" (dec v +:+ ":" +:+ h (id_preimage ps))
            = Some (dec v, h (id_preimage ps))) as ->
      by (apply (split_once_char COLON); by apply dec_avoids).
    simpl. by rewrite parse_u32_dec.
  - destruct (strip_prefix "codegraph:v" id) as [rest|] eqn:E1; simpl; [|done].
    destruct (split_once ":" rest) as [[text sfx]|] eqn:E2; simpl; [|done].
    destruct (parse_u32 text) as [n|] eqn:E3; simpl; [|done].
    intros [= -> ->]. exists text. split; [|done].
    apply strip_prefix_Some in E1 as ->. apply split_once_Some in E2 as ->. done.
Qed.

Lemma codegraph_id_roundtrip_witness :
  parse_codegraph_id (versioned_stable_id (λ _, "ff") 10 ["x"]) = Some (10%N, "ff").
Proof. apply (proj1 (codegraph_id_roundtrip (λ _, "ff") 10 ["x"] "" "")). done. Defined.

Lemma strip_log_id_prefix_minted h ps :
  strip_log_id_prefix (log_stable_id h ps) = Some (h (id_preimage ps)).
Proof. reflexivity. Qed.

(** ** Builder pipelines *)

(** One call of a [with_*] builder, as data. *)
Inductive builder : Type :=
| with_resolution_call (a0 : CallResolution.t)
| with_frame_resolution_call (a0 : FrameResolution.t)
| with_frame_index_call (a0 : N)
| with_basis_call (a0 : CorrelationBasis.t)
| with_construct_exhaustive_call (a0 : bool)
| with_call_site_spans_call (a0 : list SourceSpan.t)
| with_note_call (a0 : string)
| with_decision_text_call (a0 : string)
| with_rationale_summary_call (a0 : string)
| with_content_signature_call (a0 : string)
| with_complexity_call (a0 : N)
| with_deprecated_call (a0 : DeprecationMark.t)
| with_lint_suppression_call (a0 : LintSuppressionFacts.t)
| with_cfg_call (a0 : list string)
| with_entry_point_call (a0 : EntryPointMark.t)
| with_role_call (a0 : SymbolRole.t)
| with_crate_attribution_call (a0 : CrateAttribution.t)
| with_semantic_drift_call (a0 : SemanticDriftMetadata.t)
| with_call_context_call (a0 : string)
| with_repository_identity_call (a0 : RepositoryIdentityPayload.t)
| with_source_snapshot_call (a0 : SourceSnapshotPayload.t)
| with_dependency_call (a0 : DependencyDeclarationPayload.t)
| with_log_call (a0 : LogPayload.t)
| with_scan_coverage_call (a0 : ScanCoveragePayload.t)
| with_history_replay_window_call (a0 : HistoryReplayWindowPayload.t)
| with_history_replay_tip_call (a0 : HistoryReplayTipPayload.t)
| with_embedding_model_call (a0 : EmbeddingModel.t)
| with_transaction_time_call (a0 : string)
| with_superseded_by_call (a0 : string)
| with_redaction_policy_version_call (a0 : string)
| with_title_call (a0 : string)
| with_source_artifact_hash_call (a0 : string)
| with_route_call (a0 : list RouteAnnotation.t)
| with_evidence_links_call (a0 : list EvidenceLink.t)
| with_temporal_call (a0 : TemporalMetadata.t)
| with_author_call (a0 : option string) (a1 : option string)
| with_declaration_surface_call (a0 : option string) (a1 : option string) (a2 : option string)
| with_valid_time_call (a0 : string) (a1 : string)
| with_valid_time_inferred_call (a0 : string)
| with_node_time_call (a0 : string) (a1 : string) (a2 : string)
| with_producer_call (a0 : Producer.t)
| with_cleared_producer_started_at_call
| with_domain_call (a0 : string) (a1 : N).

Definition run_builder (r : GraphRecord) (b : builder) : GraphRecord :=
  match b with
  | with_resolution_call a0 => GraphRecord.with_resolution a0 r
  | with_frame_resolution_call a0 => GraphRecord.with_frame_resolution a0 r
  | with_frame_index_call a0 => GraphRecord.with_frame_index a0 r
  | with_basis_call a0 => GraphRecord.with_basis a0 r
  | with_construct_exhaustive_call a0 => GraphRecord.with_construct_exhaustive a0 r
  | with_call_site_spans_call a0 => GraphRecord.with_call_site_spans a0 r
  | with_note_call a0 => GraphRecord.with_note a0 r
  | with_decision_text_call a0 => GraphRecord.with_decision_text a0 r
  | with_rationale_summary_call a0 => GraphRecord.with_rationale_summary a0 r
  | with_content_signature_call a0 => GraphRecord.with_content_signature a0 r
  | with_complexity_call a0 => GraphRecord.with_complexity a0 r
  | with_deprecated_call a0 => GraphRecord.with_deprecated a0 r
  | with_lint_suppression_call a0 => GraphRecord.with_lint_suppression a0 r
  | with_cfg_call a0 => GraphRecord.with_cfg a0 r
  | with_entry_point_call a0 => GraphRecord.with_entry_point a0 r
  | with_role_call a0 => GraphRecord.with_role a0 r
  | with_crate_attribution_call a0 => GraphRecord.with_crate_attribution a0 r
  | with_semantic_drift_call a0 => GraphRecord.with_semantic_drift a0 r
  | with_call_context_call a0 => GraphRecord.with_call_context a0 r
  | with_repository_identity_call a0 => GraphRecord.with_repository_identity a0 r
  | with_source_snapshot_call a0 => GraphRecord.with_source_snapshot a0 r
  | with_dependency_call a0 => GraphRecord.with_dependency a0 r
  | with_log_call a0 => GraphRecord.with_log a0 r
  | with_scan_coverage_call a0 => GraphRecord.with_scan_coverage a0 r
  | with_history_replay_window_call a0 => GraphRecord.with_history_replay_window a0 r
  | with_history_replay_tip_call a0 => GraphRecord.with_history_replay_tip a0 r
  | with_embedding_model_call a0 => GraphRecord.with_embedding_model a0 r
  | with_transaction_time_call a0 => GraphRecord.with_transaction_time a0 r
  | with_superseded_by_call a0 => GraphRecord.with_superseded_by a0 r
  | with_redaction_policy_version_call a0 => GraphRecord.with_redaction_policy_version a0 r
  | with_title_call a0 => GraphRecord.with_title a0 r
  | with_source_artifact_hash_call a0 => GraphRecord.with_source_artifact_hash a0 r
  | with_route_call a0 => GraphRecord.with_route a0 r
  | with_evidence_links_call a0 => GraphRecord.with_evidence_links a0 r
  | with_temporal_call a0 => GraphRecord.with_temporal a0 r
  | with_author_call a0 a1 => GraphRecord.with_author a0 a1 r
  | with_declaration_surface_call a0 a1 a2 => GraphRecord.with_declaration_surface a0 a1 a2 r
  | with_valid_time_call a0 a1 => GraphRecord.with_valid_time a0 a1 r
  | with_valid_time_inferred_call a0 => GraphRecord.with_valid_time_inferred a0 r
  | with_node_time_call a0 a1 a2 => GraphRecord.with_node_time a0 a1 a2 r
  | with_producer_call a0 => GraphRecord.with_producer a0 r
  | with_cleared_producer_started_at_call => GraphRecord.with_cleared_producer_started_at r
  | with_domain_call a0 a1 => GraphRecord.with_domain a0 a1 r
  end.

(** What a record is about: its variant with the fields that place it in the graph. *)
Inductive identity : Type :=
| node_identity (id : string) (kind : NodeKind.t)
| edge_identity (id : string) (label : EdgeLabel.t) (source target : string)
| tombstone_identity (id deleted_id : string).

Definition identity_of (r : GraphRecord) : identity :=
  match r with
  | Node n => node_identity n.(NodeRec.id) n.(NodeRec.kind)
  | Edge e => edge_identity e.(EdgeRec.id) e.(EdgeRec.label) e.(EdgeRec.source)
                e.(EdgeRec.target)
  | Tombstone tb => tombstone_identity tb.(TombRec.id) tb.(TombRec.deleted_id)
  end.

Definition schema_version_of (r : GraphRecord) : N :=
  match r with
  | Node n => n.(NodeRec.schema_version)
  | Edge e => e.(EdgeRec.schema_version)
  | Tombstone tb => tb.(TombRec.schema_version)
  end.

Definition is_with_domain (b : builder) : bool :=
  match b with with_domain_call _ _ => true | _ => false end.

Lemma run_builder_identity r b : identity_of (run_builder r b) = identity_of r.
Proof.
  destruct b, r; try reflexivity.
  simpl. by destruct a0.
Qed.

Lemma run_builder_schema_version r b :
  is_with_domain b = false → schema_version_of (run_builder r b) = schema_version_of r.
Proof.
  destruct b, r; try reflexivity; try discriminate.
  simpl. by destruct a0.
Qed.

(** No pipeline of builder calls, of any length and order, moves a record: its
    variant, its id, and the kind, label, endpoints or deleted id that place it in
    the graph stay what the constructor gave, and its schema version changes only
    through [with_domain]. *)
Theorem builder_pipeline_identity bs r :
  identity_of (foldl run_builder r bs) = identity_of r
  ∧ (existsb is_with_domain bs = false →
     schema_version_of (foldl run_builder r bs) = schema_version_of r).
Proof.
  revert r. induction bs as [|b bs IH]; intros r; simpl; [done|].
  destruct (IH (run_builder r b)) as [IH1 IH2]. split.
  - by rewrite IH1, run_builder_identity.
  - intros [Hb Hbs]%orb_false_elim. by rewrite IH2, run_builder_schema_version.
Qed.

Lemma builder_pipeline_identity_witness :
  schema_version_of (foldl run_builder
    (Tombstone {| TombRec.id := "t"; TombRec.schema_version := 7; TombRec.deleted_id := "x";
                  TombRec.summary := ""; TombRec.producer := None |})
    [with_note_call "n"; with_title_call "t"]) = 7%N.
Proof.
  apply (proj2 (builder_pipeline_identity [with_note_call "n"; with_title_call "t"]
    (Tombstone {| TombRec.id := "t"; TombRec.schema_version := 7; TombRec.deleted_id := "x";
                  TombRec.summary := ""; TombRec.producer := None |}))). reflexivity.
Defined.

(** ** Graph *)
Lemma stamp_producer_records g p :
  Graph.records (Graph.stamp_producer g p)
  = GraphRecord.with_producer p <$> Graph.records g.
Proof. done. Qed.

(** The JSONL text of a graph is a function of its multiset of records: pushing
    the records in another order gives the same bytes, and serialization fails for both or
    for neither. *)
Theorem to_jsonl_order_independent ser g g' :
  Graph.records g ≡ₚ Graph.records g' →
  Graph.to_jsonl ser g = Graph.to_jsonl ser g'.
Proof.
  intros Hp. unfold Graph.to_jsonl.
  destruct (mapM_Permutation ser _ _ Hp) as [H|(ls & ls' & -> & -> & Hls)].
  - destruct H as [-> ->]. done.
  - simpl. by rewrite Hls.
Qed.

Lemma to_jsonl_order_independent_witness :
  let t i := Tombstone {| TombRec.id := i; TombRec.schema_version := 11;
    TombRec.deleted_id := i; TombRec.summary := ""; TombRec.producer := None |} in
  Graph.to_jsonl (λ r, Some (GraphRecord.id r)) (Graph.from_records [t "b"; t "a"])
  = Graph.to_jsonl (λ r, Some (GraphRecord.id r)) (Graph.from_records [t "a"; t "b"]).
Proof. intros t. apply to_jsonl_order_independent. apply Permutation_swap. Defined.
