(* ===== verification/SchemaVersion.v ===== *)
(** * Record [schema_version] compatibility

    The reader-side gate of [src/src/schema_version.rs]: the
    [(domain, kind, version)] tuple of a record, computed either from the decoded
    [GraphRecord] or from the raw JSON value, and the table of accepted versions.
    [serde_json] is external: a decoder of records, a decoder of values, the message
    of its error, and the three [Value] accessors the code calls ([JsonValue]). *)
From S2P Require Import Prelude RustStr Ir IrOps.

(* schema_version.rs 19-19: UNKNOWN_SCHEMA_VERSION_CODE *)
Definition UNKNOWN_SCHEMA_VERSION_CODE : string := "unknown_schema_version".
(* schema_version.rs 27-27: CONTROL_CATALOG_DOMAIN *)
Definition CONTROL_CATALOG_DOMAIN : string := "control_catalog".
(* schema_version.rs 30-30: CONTROL_CATALOG_KIND *)
Definition CONTROL_CATALOG_KIND : string := "ControlCatalog".
(* schema_version.rs 33-33: CONTROL_CATALOG_SCHEMA_VERSION *)
Definition CONTROL_CATALOG_SCHEMA_VERSION : N := 1.

(* schema_version.rs 41-45: is_known_control_catalog_schema_version *)
Definition is_known_control_catalog_schema_version (domain kind : string) (version : N)
    : bool :=
  (domain =s? CONTROL_CATALOG_DOMAIN) && (kind =s? CONTROL_CATALOG_KIND)
  && (version =? CONTROL_CATALOG_SCHEMA_VERSION)%N.

(** ** Domain names *)
(* schema_version.rs 380-385: normalize_domain_name *)
Definition normalize_domain_name (domain : string) : string :=
  if domain =s? "code_graph" then Domain.as_str Domain.CodeGraph else domain.

(* schema_version.rs 387-400: domain_from_record_id *)
Definition domain_from_record_id (id : string) : option string :=
  let prefix := match split_once ":v" id with Some (prefix, _) => prefix | None => id end in
  Domain.as_str <$> str_match prefix [
    ("codegraph", Domain.CodeGraph); ("code_graph", Domain.CodeGraph);
    ("agent_memory", Domain.AgentMemory);
    ("verification", Domain.Verification);
    ("artifact", Domain.Artifact);
    ("project", Domain.Project);
    ("semantic", Domain.Semantic);
    ("user_context", Domain.UserContext);
    ("log", Domain.Log) ].

(* schema_version.rs 402-429: domain_for_node_kind *)
Definition domain_for_node_kind (kind : string) : string :=
  Domain.as_str
  (if str_in kind ["SemanticDrift"; "EmbeddingModel"; "EmbeddingVector"]
   then Domain.Semantic
   else if str_in kind ["PromoteCandidate"; "PromotionPrompt"; "PromotionDecision";
     "Preference"; "WorkflowRule"; "NamingDecision"; "Constraint"]
   then Domain.UserContext
   else if str_in kind ["Task"; "AcceptanceCriterion"; "ExternalLink"; "Product"; "Project";
     "Plan"; "GitHubIssue"; "PR"; "Review"; "ExternalIdentity"; "ReviewStateTransition";
     "LocalTask"]
   then Domain.Project
   else if str_in kind ["Artifact"; "PatchArtifact"]
   then Domain.Artifact
   else if str_in kind ["Verification"; "CommandEvidence"; "CommandRun"; "TestRun";
     "CIStatus"; "BenchmarkRun"; "CoverageReport"; "ProofResult"]
   then Domain.Verification
   else if str_in kind ["Agent"; "AgentSession"; "Observation"; "AgentRun"; "AgentTurn";
     "ToolCall"; "FileEdit"; "Failure"; "Decision"; "CostUsage"; "Retraction"]
   then Domain.AgentMemory
   else if str_in kind ["LogSource"; "ErrorSignature"; "LogEvent"; "LogOccurrenceBucket"]
   then Domain.Log
   else Domain.CodeGraph).

(* schema_version.rs 431-455: domain_for_edge_label *)
Definition domain_for_edge_label (label : string) : string :=
  Domain.as_str
  match EdgeLabel.from_relation label with
  | Some (EdgeLabel.DriftsFrom | EdgeLabel.DriftsPrior | EdgeLabel.MeasuredBy) =>
      Domain.Semantic
  | Some (EdgeLabel.ProposedBy | EdgeLabel.PromptedFor | EdgeLabel.DecidedOn
         | EdgeLabel.MaterializedAs | EdgeLabel.RevokedBy | EdgeLabel.ScopedToRepo) =>
      Domain.UserContext
  | Some (EdgeLabel.FingerprintedAs | EdgeLabel.CapturedFrom | EdgeLabel.Aggregates
         | EdgeLabel.FrameResolvesTo | EdgeLabel.EmittedDuring) => Domain.Log
  | Some (EdgeLabel.MergedAs | EdgeLabel.ReferencesTask) => Domain.Project
  | Some label =>
      if EdgeLabel.is_codegraph_topology_label label
      then Domain.CodeGraph else Domain.AgentMemory
  | None => Domain.AgentMemory
  end.

(** ** Record versions *)
Module RecordVersion.
(* schema_version.rs 49-56: RecordVersion *)
Record t : Type := mk { domain : string; kind : string; version : N }.

#[global] Instance t_eq_dec : EqDecision t.
Proof. solve_decision. Defined.

(* schema_version.rs 61-67: RecordVersion::new *)
Definition new (domain kind : string) (version : N) : t :=
  mk (normalize_domain_name domain) kind version.

(* schema_version.rs 70-74: RecordVersion::fmt *)
Definition display (self : t) : string :=
  self.(domain) +:+ " " +:+ self.(kind) +:+ " v" +:+ dec self.(version).
End RecordVersion.

Module UnknownSchemaVersion.
(* schema_version.rs 78-95: UnknownSchemaVersion *)
Record t : Type := mk {
  code : string;
  version : RecordVersion.t;
  raw_line : option string
}.

(* schema_version.rs 98-104: UnknownSchemaVersion::new *)
Definition new (version : RecordVersion.t) : t :=
  mk UNKNOWN_SCHEMA_VERSION_CODE version None.

(* schema_version.rs 108-111: UnknownSchemaVersion::with_raw_line *)
Definition with_raw_line (raw : option string) (self : t) : t :=
  mk self.(code) self.(version) raw.

(* schema_version.rs 114-118: UnknownSchemaVersion::fmt *)
Definition display (self : t) : string :=
  self.(code) +:+ " " +:+ RecordVersion.display self.(version).
End UnknownSchemaVersion.

(* schema_version.rs 122-127: RecordLineRead *)
Inductive RecordLineRead : Type :=
| ReadRecord (r : GraphRecord)
| ReadUnknownSchemaVersion (u : UnknownSchemaVersion.t).

(* schema_version.rs 129-152: RecordReadError *)
Inductive RecordReadError : Type :=
| Json (message : string)
| MissingField (field : string)
| InvalidField (field message : string).

(* schema_version.rs 184-222: record_version *)
Definition record_version (record : GraphRecord) : RecordVersion.t :=
  match record with
  | Node n =>
      let kind := NodeKind.as_str n.(NodeRec.kind) in
      let domain :=
        default (domain_for_node_kind kind)
          (or_else (normalize_domain_name <$> n.(NodeRec.domain))
             (domain_from_record_id n.(NodeRec.id))) in
      RecordVersion.new domain kind n.(NodeRec.schema_version)
  | Edge e =>
      let label := EdgeLabel.as_str e.(EdgeRec.label) in
      let domain :=
        default (domain_for_edge_label label) (domain_from_record_id e.(EdgeRec.id)) in
      RecordVersion.new domain label e.(EdgeRec.schema_version)
  | Tombstone tb =>
      let domain :=
        default (Domain.as_str Domain.CodeGraph)
          (or_else (domain_from_record_id tb.(TombRec.id))
             (domain_from_record_id tb.(TombRec.deleted_id))) in
      RecordVersion.new domain "Tombstone" tb.(TombRec.schema_version)
  end.

(* schema_version.rs 262-283: ACCEPTED_RECORD_VERSION_RANGES *)
Definition ACCEPTED_RECORD_VERSION_RANGES : list (string * N * N) := [
  ("codegraph", 1%N, SCHEMA_VERSION);
  ("agent_memory", AGENT_MEMORY_SCHEMA_VERSION, AGENT_MEMORY_SCHEMA_VERSION);
  ("verification", VERIFICATION_SCHEMA_VERSION, VERIFICATION_SCHEMA_VERSION);
  ("artifact", ARTIFACT_SCHEMA_VERSION, ARTIFACT_SCHEMA_VERSION);
  ("project", PROJECT_SCHEMA_VERSION, PROJECT_SCHEMA_VERSION);
  ("semantic", SEMANTIC_SCHEMA_VERSION, SEMANTIC_SCHEMA_VERSION);
  ("user_context", USER_CONTEXT_SCHEMA_VERSION, USER_CONTEXT_SCHEMA_VERSION);
  ("log", 2%N, LOG_SCHEMA_VERSION) ].

(* schema_version.rs 245-253: is_known_record_version *)
Definition is_known_record_version (version : RecordVersion.t) : bool :=
  existsb (λ '(domain, min_version, max_version),
    (domain =s? version.(RecordVersion.domain))
    && (min_version <=? version.(RecordVersion.version))%N
    && (version.(RecordVersion.version) <=? max_version)%N)
    ACCEPTED_RECORD_VERSION_RANGES.

(* schema_version.rs 230-237: validate_record_version *)
Definition validate_record_version (record : GraphRecord)
    : result unit UnknownSchemaVersion.t :=
  let version := record_version record in
  if is_known_record_version version then Ok tt else Err (UnknownSchemaVersion.new version).

(** [min..=max]. *)
Definition range_inclusive (min max : N) : list N :=
  (λ i, min + N.of_nat i)%N <$> seq 0 (N.to_nat (max + 1 - min)).

Definition tuple_cmp (a b : RecordVersion.t) : comparison :=
  then_cmp (String.compare a.(RecordVersion.domain) b.(RecordVersion.domain))
    (N.compare a.(RecordVersion.version) b.(RecordVersion.version)).

(* schema_version.rs 295-304: accepted_record_tuples *)
Definition accepted_record_tuples : list RecordVersion.t :=
  sort_by tuple_cmp
    (mjoin ((λ '(domain, min_version, max_version),
      (λ version, RecordVersion.new domain "*" version)
        <$> range_inclusive min_version max_version) <$> ACCEPTED_RECORD_VERSION_RANGES)).

(** ** Reading a JSON value *)

(** The accessors of [serde_json::Value] the gate uses. *)
Class JsonValue (V : Type) := {
  json_get : V → string → option V;
  json_as_str : V → option string;
  json_as_u64 : V → option N
}.

(* schema_version.rs 361-365: missing *)
Definition missing (field : string) : RecordReadError := MissingField field.
(* schema_version.rs 367-372: invalid *)
Definition invalid (field message : string) : RecordReadError := InvalidField field message.

Section Reader.
Context {V : Type} `{!JsonValue V}.

(* schema_version.rs 340-346: required_str *)
Definition required_str (value : V) (field : string) : result string RecordReadError :=
  let? v := ok_or (json_get value field) (missing field) in
  ok_or (json_as_str v) (invalid field "expected string").

(* schema_version.rs 348-350: optional_str *)
Definition optional_str (value : V) (field : string) : option string :=
  let?o v := json_get value field in json_as_str v.

(* schema_version.rs 352-359: required_u32 *)
Definition required_u32 (value : V) (field : string) : result N RecordReadError :=
  let? v := ok_or (json_get value field) (missing field) in
  let? raw := ok_or (json_as_u64 v) (invalid field "expected non-negative integer") in
  if (raw <=? u32_max)%N then Ok raw
  else Err (invalid field
    "out of range: out of range integral type conversion attempted").

(* schema_version.rs 306-338: record_version_from_value *)
Definition record_version_from_value (value : V) : result RecordVersion.t RecordReadError :=
  let? record_type := required_str value "record_type" in
  let? version := required_u32 value "schema_version" in
  let id := optional_str value "id" in
  if record_type =s? "node" then
    let? kind := required_str value "kind" in
    let domain :=
      default (domain_for_node_kind kind)
        (or_else (normalize_domain_name <$> optional_str value "domain")
           (id ≫= domain_from_record_id)) in
    Ok (RecordVersion.new domain kind version)
  else if record_type =s? "edge" then
    let? label := required_str value "label" in
    let domain := default (domain_for_edge_label label) (id ≫= domain_from_record_id) in
    Ok (RecordVersion.new domain label version)
  else if record_type =s? "tombstone" then
    let domain :=
      default (Domain.as_str Domain.CodeGraph)
        (or_else (id ≫= domain_from_record_id)
           (optional_str value "deleted_id" ≫= domain_from_record_id)) in
    Ok (RecordVersion.new domain "Tombstone" version)
  else Err (InvalidField "record_type"
    ("unsupported record_type `" +:+ record_type +:+ "`")).

Context {JsonError : Type} (error_to_string : JsonError → string).
Context (from_str_record : string → result GraphRecord JsonError).
Context (from_str_value : string → result V JsonError).

(* schema_version.rs 374-378: json_error *)
Definition json_error (error : JsonError) : RecordReadError := Json (error_to_string error).

(* schema_version.rs 163-180: read_record_line *)
Definition read_record_line (line : string) : result RecordLineRead RecordReadError :=
  match from_str_record line with
  | Ok record =>
      match validate_record_version record with
      | Ok _ => Ok (ReadRecord record)
      | Err unknown => Ok (ReadUnknownSchemaVersion unknown)
      end
  | Err record_error =>
      let? value := map_err json_error (from_str_value line) in
      let? version := record_version_from_value value in
      if negb (is_known_record_version version)
      then Ok (ReadUnknownSchemaVersion (UnknownSchemaVersion.new version))
      else Err (json_error record_error)
  end.
End Reader.

(** ** Properties *)

Lemma normalize_domain_name_as_str d :
  normalize_domain_name (Domain.as_str d) = Domain.as_str d.
Proof. by destruct d. Qed.

(** The id of a record names its domain: whatever the hash, the domain read off an
    id is the one whose function minted it, and an id of any schema version of the
    code graph is read back as a code-graph id. *)
Theorem domain_of_minted_id h d v ps :
  domain_from_record_id (mint h d ps) = Some (Domain.as_str d)
  ∧ domain_from_record_id (versioned_stable_id h v ps)
    = Some (Domain.as_str Domain.CodeGraph).
Proof. split; [by destruct d|done]. Qed.

Lemma elem_of_range_inclusive v lo hi :
  (1 ≤ lo)%N → v ∈ range_inclusive lo hi ↔ (lo ≤ v ≤ hi)%N.
Proof.
  intros Hlo. unfold range_inclusive. rewrite list_elem_of_fmap. split.
  - intros (i & -> & Hi%elem_of_seq). lia.
  - intros Hv. exists (N.to_nat (v - lo)). split; [lia|]. apply elem_of_seq. lia.
Qed.

(** The entries of the table are written in the normal form of a domain name, with a
    lower bound of at least one. *)
Lemma accepted_ranges_normal d lo hi :
  (d, lo, hi) ∈ ACCEPTED_RECORD_VERSION_RANGES →
  normalize_domain_name d = d ∧ (1 ≤ lo)%N.
Proof. intros H. split_elem_of H; subst; by split. Qed.

Lemma is_known_record_version_spec v :
  is_known_record_version v = true ↔
  ∃ lo hi, (v.(RecordVersion.domain), lo, hi) ∈ ACCEPTED_RECORD_VERSION_RANGES
    ∧ (lo ≤ v.(RecordVersion.version) ≤ hi)%N.
Proof.
  unfold is_known_record_version. rewrite existsb_exists. split.
  - intros ([[d lo] hi] & Hin & H). breflect. subst.
    apply N.leb_le in H0, H1. exists lo, hi. by rewrite list_elem_of_In.
  - intros (lo & hi & Hin & ?). exists (v.(RecordVersion.domain), lo, hi).
    rewrite <-list_elem_of_In. split; [done|].
    rewrite String.eqb_refl. simpl. apply andb_true_iff. split; apply N.leb_le; lia.
Qed.

Lemma elem_of_accepted_tuples t :
  t ∈ accepted_record_tuples ↔
  ∃ d lo hi, (d, lo, hi) ∈ ACCEPTED_RECORD_VERSION_RANGES
    ∧ t.(RecordVersion.domain) = d ∧ t.(RecordVersion.kind) = "*"
    ∧ (lo ≤ t.(RecordVersion.version) ≤ hi)%N.
Proof.
  unfold accepted_record_tuples. rewrite sort_by_perm, list_elem_of_join. split.
  - intros (l & Ht & Hl). apply list_elem_of_fmap in Hl as ([[d lo] hi] & -> & Hin).
    apply list_elem_of_fmap in Ht as (v & -> & Hv).
    destruct (accepted_ranges_normal _ _ _ Hin) as [Hn Hlo].
    apply elem_of_range_inclusive in Hv; [|done].
    exists d, lo, hi. by rewrite <-Hn at 3.
  - intros (d & lo & hi & Hin & <- & Hk & Hv).
    destruct (accepted_ranges_normal _ _ _ Hin) as [Hn Hlo].
    eexists. split; [|apply list_elem_of_fmap; by eexists (_, _, _)].
    apply list_elem_of_fmap. exists t.(RecordVersion.version).
    rewrite elem_of_range_inclusive by done. split; [|done].
    destruct t; simpl in *. unfold RecordVersion.new. by rewrite Hn, Hk.
Qed.

(** The capability manifest cannot drift from the gate: a version tuple is
    accepted exactly when the manifest lists a tuple of its domain and version, and
    the manifest is strictly ordered by domain and version, so it lists each once. *)
Theorem manifest_matches_gate v :
  (is_known_record_version v = true ↔
   ∃ t, t ∈ accepted_record_tuples
     ∧ t.(RecordVersion.domain) = v.(RecordVersion.domain)
     ∧ t.(RecordVersion.version) = v.(RecordVersion.version))
  ∧ Sorted (λ a b, tuple_cmp a b = Lt) accepted_record_tuples.
Proof.
  split.
  - rewrite is_known_record_version_spec. split.
    + intros (lo & hi & Hin & Hv).
      exists (RecordVersion.mk v.(RecordVersion.domain) "*" v.(RecordVersion.version)).
      rewrite elem_of_accepted_tuples. eauto 10.
    + intros (t & Ht & Hd & Hver). apply elem_of_accepted_tuples in Ht
        as (d & lo & hi & Hin & <- & _ & Hv).
      exists lo, hi. by rewrite <-Hd, <-Hver.
  - apply (bool_decide_eq_true_1 (Sorted _ _)). by vm_compute.
Qed.

(** What the gate may assume of the JSON form of a record: serde writes the tag, the
    schema version and the classifying fields under their names, and leaves an absent
    [domain] out. *)
Section Mirror.
Context {V : Type} `{!JsonValue V}.

Definition str_field (v : V) (field : string) (s : string) : Prop :=
  ∃ x, json_get v field = Some x ∧ json_as_str x = Some s.

Definition u64_field (v : V) (field : string) (n : N) : Prop :=
  ∃ x, json_get v field = Some x ∧ json_as_u64 x = Some n.

Definition encodes (v : V) (r : GraphRecord) : Prop :=
  u64_field v "schema_version" (schema_version_of r)
  ∧ str_field v "id" (GraphRecord.id r)
  ∧ match r with
    | Node n =>
        str_field v "record_type" "node"
        ∧ str_field v "kind" (NodeKind.as_str n.(NodeRec.kind))
        ∧ optional_str v "domain" = n.(NodeRec.domain)
    | Edge e =>
        str_field v "record_type" "edge"
        ∧ str_field v "label" (EdgeLabel.as_str e.(EdgeRec.label))
    | Tombstone tb =>
        str_field v "record_type" "tombstone"
        ∧ str_field v "deleted_id" tb.(TombRec.deleted_id)
    end.

Lemma required_str_field v field s : str_field v field s → required_str v field = Ok s.
Proof. intros (x & Hg & Hs). unfold required_str. by rewrite Hg; simpl; rewrite Hs. Qed.

Lemma optional_str_field v field s : str_field v field s → optional_str v field = Some s.
Proof. intros (x & Hg & Hs). unfold optional_str. by rewrite Hg; simpl. Qed.

Lemma required_u32_field v field n :
  u64_field v field n → (n ≤ u32_max)%N → required_u32 v field = Ok n.
Proof.
  intros (x & Hg & Hs) Hn. unfold required_u32. rewrite Hg; simpl; rewrite Hs; simpl.
  by rewrite (proj2 (N.leb_le _ _) Hn).
Qed.

(** The two implementations of the version tuple agree: on the JSON form of a
    record, the raw-value reader computes the tuple the typed reader computes. *)
Theorem version_from_value_agrees (v : V) r
    (Hv : encodes v r) (H32 : (schema_version_of r ≤ u32_max)%N) :
  record_version_from_value v = Ok (record_version r).
Proof.
  destruct Hv as (Hver & Hid & Hr). unfold record_version_from_value, record_version.
  apply required_u32_field in Hver; [|done]. apply optional_str_field in Hid.
  destruct r as [n|e|tb]; simpl in *.
  - destruct Hr as (Ht%required_str_field & Hk%required_str_field & Hd).
    rewrite Ht; simpl. rewrite Hver; simpl. rewrite Hk; simpl. by rewrite Hd, Hid.
  - destruct Hr as (Ht%required_str_field & Hk%required_str_field).
    rewrite Ht; simpl. rewrite Hver; simpl. rewrite Hk; simpl. by rewrite Hid.
  - destruct Hr as (Ht%required_str_field & Hk%optional_str_field).
    rewrite Ht; simpl. rewrite Hver; simpl. by rewrite Hid, Hk.
Qed.

Context {JsonError : Type} (error_to_string : JsonError → string).
Context (from_str_record : string → result GraphRecord JsonError).
Context (from_str_value : string → result V JsonError).
Let read := read_record_line error_to_string from_str_record from_str_value.

(** What a line reader hands out: a record is only ever returned with an accepted
    version tuple; a line whose tuple is not accepted is reported as
    [unknown_schema_version] even when the record itself does not decode; and a
    parse error means the line is no JSON value, has no version tuple, or is an
    undecodable record of an accepted version. *)
Theorem read_record_line_classifies line :
  match read line with
  | Ok (ReadRecord r) =>
      from_str_record line = Ok r ∧ is_known_record_version (record_version r) = true
  | Ok (ReadUnknownSchemaVersion u) =>
      UnknownSchemaVersion.code u = UNKNOWN_SCHEMA_VERSION_CODE
      ∧ is_known_record_version (UnknownSchemaVersion.version u) = false
      ∧ ((∃ r, from_str_record line = Ok r
               ∧ UnknownSchemaVersion.version u = record_version r)
         ∨ (∃ e v, from_str_record line = Err e ∧ from_str_value line = Ok v
               ∧ record_version_from_value v = Ok (UnknownSchemaVersion.version u)))
  | Err err =>
      ∃ e, from_str_record line = Err e
        ∧ ((∃ e', from_str_value line = Err e' ∧ err = Json (error_to_string e'))
           ∨ (∃ v, from_str_value line = Ok v ∧ record_version_from_value v = Err err)
           ∨ (∃ v ver, from_str_value line = Ok v
                ∧ record_version_from_value v = Ok ver
                ∧ is_known_record_version ver = true ∧ err = Json (error_to_string e)))
  end.
Proof.
  unfold read, read_record_line, validate_record_version.
  destruct (from_str_record line) as [r|e].
  - destruct (is_known_record_version (record_version r)) eqn:E; simpl; eauto 10.
  - destruct (from_str_value line) as [v|e']; simpl; [|eauto 10].
    destruct (record_version_from_value v) as [ver|err] eqn:Ever; simpl; [|eauto 10].
    destruct (is_known_record_version ver) eqn:E; simpl; eauto 15.
Qed.

End Mirror.

(** A concrete JSON object for the witnesses: fields in order, strings and numbers. *)
Inductive flat_json : Type :=
| FStr (s : string)
| FNum (n : N)
| FObj (fields : list (string * flat_json)).

#[export] Instance flat_json_value : JsonValue flat_json := {|
  json_get v field := match v with FObj fs => str_match field fs | _ => None end;
  json_as_str v := match v with FStr s => Some s | _ => None end;
  json_as_u64 v := match v with FNum n => Some n | _ => None end
|}.

Lemma version_from_value_agrees_witness :
  record_version_from_value
    (FObj [("record_type", FStr "tombstone"); ("id", FStr "project:v1:aa");
           ("schema_version", FNum 1); ("deleted_id", FStr "project:v1:bb")])
  = Ok (RecordVersion.mk "project" "Tombstone" 1).
Proof.
  refine (version_from_value_agrees _
    (Tombstone {| TombRec.id := "project:v1:aa"; TombRec.schema_version := 1;
       TombRec.deleted_id := "project:v1:bb"; TombRec.summary := "";
       TombRec.producer := None |}) _ _); [|by vm_compute].
  split_and!; repeat eexists.
Defined.
