(* ===== verification/Liveness.v ===== *)
(** * Latest-write-wins liveness

    [src/src/query/liveness.rs]: the view every query lane builds over an
    append-only record log to decide which ids a tombstone still deletes and which
    physical version of a node or edge is the current one. The abstract contract is
    a three-state machine per id ([observe]); [tombstone_active_refines] shows the
    precomputed maps implement it. *)
From S2P Require Import Prelude RustStr Ir IrOps.

Module Liveness.

(* query/liveness.rs 46-57: Liveness *)
Record t : Type := mk {
  last_write : gmap string nat;
  last_edge_write : gmap string nat;
  last_node_write : gmap string nat;
  last_tomb : gmap string nat;
  has_temporal : gset string
}.

Definition empty : t := mk ∅ ∅ ∅ ∅ ∅.

(** One round of the loop of [new]. *)
(* query/liveness.rs 67-87: Liveness::new *)
Definition step (self : t) (entry : nat * GraphRecord) : t :=
  let '(index, r) := entry in
  match r with
  | Node n =>
      let id := n.(NodeRec.id) in
      self{{ last_write ::= <[id:=index]>; last_node_write ::= <[id:=index]>;
             has_temporal ::= λ s, if is_some n.(NodeRec.temporal) then {[id]} ∪ s else s }}
  | Edge e =>
      let id := e.(EdgeRec.id) in
      self{{ last_write ::= <[id:=index]>; last_edge_write ::= <[id:=index]>;
             has_temporal ::= λ s, if is_some e.(EdgeRec.temporal) then {[id]} ∪ s else s }}
  | Tombstone tb => self{{ last_tomb ::= <[tb.(TombRec.deleted_id):=index]> }}
  end.

(* query/liveness.rs 61-95: Liveness::new *)
Definition new (records : list GraphRecord) : t :=
  foldl step empty (imap pair records).

(* query/liveness.rs 110-114: Liveness::tombstone_active *)
Definition tombstone_active (self : t) (id : string) : bool :=
  match self.(last_tomb) !! id with
  | Some ti =>
      match self.(last_write) !! id with
      | None => true
      | Some wi => (wi <? ti)%nat
      end
  | None => false
  end.

(* query/liveness.rs 102-104: Liveness::deleted *)
Definition deleted (self : t) (id : string) : bool :=
  negb (bool_decide (id ∈ self.(has_temporal))) && tombstone_active self id.

(* query/liveness.rs 118-124: Liveness::active_tombstoned_ids *)
Definition active_tombstoned_ids (self : t) : gset string :=
  filter (λ id, tombstone_active self id = true) (dom self.(last_tomb)).

(* query/liveness.rs 131-133: Liveness::is_latest_edge_version *)
Definition is_latest_edge_version (self : t) (edge_id : string) (index : nat) : bool :=
  bool_decide (self.(last_edge_write) !! edge_id = Some index).

(* query/liveness.rs 154-156: Liveness::is_latest_node_version *)
Definition is_latest_node_version (self : t) (node_id : string) (index : nat) : bool :=
  bool_decide (self.(last_node_write) !! node_id = Some index).

End Liveness.

(** ** The contract: one state machine per id *)
Inductive id_state : Set := Unwritten | Written | Tombstoned.

#[export] Instance id_state_eq_dec : EqDecision id_state.
Proof. solve_decision. Defined.

(** What one appended record does to the state of [id]. *)
Definition observe (id : string) (st : id_state) (r : GraphRecord) : id_state :=
  match r with
  | Node n => if n.(NodeRec.id) =s? id then Written else st
  | Edge e => if e.(EdgeRec.id) =s? id then Written else st
  | Tombstone tb => if tb.(TombRec.deleted_id) =s? id then Tombstoned else st
  end.

Definition id_state_of (id : string) (records : list GraphRecord) : id_state :=
  foldl (observe id) Unwritten records.

(** A record that carries temporal metadata under [id]. *)
Definition temporal_write (id : string) (r : GraphRecord) : Prop :=
  match r with
  | Node n => n.(NodeRec.id) = id ∧ is_Some n.(NodeRec.temporal)
  | Edge e => e.(EdgeRec.id) = id ∧ is_Some e.(EdgeRec.temporal)
  | Tombstone _ => False
  end.

Definition is_node_write (id : string) (r : GraphRecord) : bool :=
  match r with Node n => n.(NodeRec.id) =s? id | _ => false end.
Definition is_edge_write (id : string) (r : GraphRecord) : bool :=
  match r with Edge e => e.(EdgeRec.id) =s? id | _ => false end.
Definition is_write (id : string) (r : GraphRecord) : bool :=
  is_node_write id r || is_edge_write id r.
Definition is_tombstone_of (id : string) (r : GraphRecord) : bool :=
  match r with Tombstone tb => tb.(TombRec.deleted_id) =s? id | _ => false end.

(** The greatest index of a record satisfying [p]. *)
Definition last_index (p : GraphRecord → bool) (records : list GraphRecord) (i : nat) : Prop :=
  (∃ r, records !! i = Some r ∧ p r = true)
  ∧ ∀ j r, i < j → records !! j = Some r → p r = false.

Section LivenessFacts.
Import Liveness.

Lemma new_snoc records r : new (records ++ [r]) = step (new records) (length records, r).
Proof. unfold new. by rewrite imap_app, foldl_app; simpl; rewrite Nat.add_0_r. Qed.

(** A map of last indices, described by the predicate it indexes. *)
Definition indexes (m : gmap string nat) (p : string → GraphRecord → bool)
    (records : list GraphRecord) : Prop :=
  ∀ id i, m !! id = Some i ↔ last_index (p id) records i.

Lemma last_index_lt p records i : last_index p records i → i < length records.
Proof. intros [(r & Hr & _) _]. by eapply lookup_lt_Some. Qed.

Lemma last_index_snoc p records r i :
  last_index p (records ++ [r]) i ↔
  if p r then i = length records else last_index p records i.
Proof.
  unfold last_index. destruct (p r) eqn:Hp; split.
  - intros [(x & Hx & Hpx) Hlast].
    apply lookup_lt_Some in Hx as Hlt. rewrite length_app in Hlt; simpl in Hlt.
    destruct (decide (i = length records)); [done|].
    specialize (Hlast (length records) r ltac:(lia) (list_lookup_middle _ [] _ _ eq_refl)).
    congruence.
  - intros ->. split.
    + exists r. by rewrite list_lookup_middle.
    + intros j x Hj Hx%lookup_lt_Some. rewrite length_app in Hx; simpl in Hx. lia.
  - intros [(x & Hx & Hpx) Hlast].
    assert (i < length records) as Hi.
    { apply lookup_lt_Some in Hx as Hlt. rewrite length_app in Hlt; simpl in Hlt.
      destruct (decide (i = length records)) as [->|]; [|lia].
      rewrite list_lookup_middle in Hx by done. congruence. }
    split.
    + exists x. by rewrite lookup_app_l in Hx by done.
    + intros j y Hj Hy. apply (Hlast j); [done|]. by apply lookup_app_l_Some.
  - intros [(x & Hx & Hpx) Hlast]. split.
    + exists x. split; [|done]. by apply lookup_app_l_Some.
    + intros j y Hj Hy. apply lookup_app_Some in Hy as [Hy|[Hlen Hy]]; [by eapply Hlast|].
      apply list_lookup_singleton_Some in Hy as [_ <-]. done.
Qed.

Lemma indexes_snoc m p records r id :
  indexes m p records →
  (∀ id', p id' r = (id =s? id')) →
  indexes (<[id:=length records]> m) p (records ++ [r]).
Proof.
  intros Hm Hp id' i. rewrite last_index_snoc, Hp.
  destruct (String.eqb_spec id id') as [->|Hne].
  - rewrite lookup_insert_eq. naive_solver.
  - rewrite lookup_insert_ne by done. apply Hm.
Qed.

Lemma indexes_snoc_skip m p records r :
  indexes m p records → (∀ id', p id' r = false) → indexes m p (records ++ [r]).
Proof. intros Hm Hp id' i. rewrite last_index_snoc, Hp. apply Hm. Qed.

(** The loop invariant of [Liveness::new]. *)
Record new_inv (l : t) (records : list GraphRecord) : Prop := {
  inv_write : indexes l.(last_write) is_write records;
  inv_edge : indexes l.(last_edge_write) is_edge_write records;
  inv_node : indexes l.(last_node_write) is_node_write records;
  inv_tomb : indexes l.(last_tomb) is_tombstone_of records;
  inv_temporal : ∀ id, id ∈ l.(has_temporal) ↔ Exists (temporal_write id) records
}.

Lemma elem_of_temporal_if {A} (o : option A) id id' (s : gset string) :
  id' ∈ (if is_some o then {[id]} ∪ s else s) ↔ (id = id' ∧ is_Some o) ∨ id' ∈ s.
Proof. destruct o; simpl; [set_solver|]. split; [auto|]. intros [[_ [? ?]]|?]; done. Qed.

Lemma new_inv_holds records : new_inv (new records) records.
Proof.
  induction records as [|r records IH] using rev_ind.
  - split; [intros id i; simpl; rewrite lookup_empty; unfold last_index..|].
    1-4: split; [done|]; intros [(x & Hx & _) _]; by rewrite lookup_nil in Hx.
    intros id. simpl. rewrite Exists_nil. set_solver.
  - rewrite new_snoc. destruct IH as [Hw He Hn Ht Htm].
    destruct r as [n|e|tb]; simpl; split; simpl;
      try (apply indexes_snoc_skip; [done|]; by intros);
      try (apply indexes_snoc; [done|]; intros id'; unfold is_write; simpl;
           by rewrite ?orb_false_r).
    all: intros id; rewrite Exists_app, Exists_cons, Exists_nil; simpl;
      rewrite ?elem_of_temporal_if, Htm; naive_solver.
Qed.

Lemma last_index_unique p records i j :
  last_index p records i → last_index p records j → i = j.
Proof.
  intros [(x & Hx & Hpx) Hi] [(y & Hy & Hpy) Hj].
  destruct (decide (i = j)); [done|]. exfalso.
  destruct (decide (i < j)).
  - specialize (Hi j y ltac:(lia) Hy). congruence.
  - specialize (Hj i x ltac:(lia) Hx). congruence.
Qed.

(** The state machine read off the last write and the last tombstone. *)
Lemma id_state_of_last id records :
  match id_state_of id records with
  | Unwritten => ∀ i, ¬ last_index (is_write id) records i
                      ∧ ¬ last_index (is_tombstone_of id) records i
  | Written => ∃ i, last_index (is_write id) records i
                    ∧ ∀ j, last_index (is_tombstone_of id) records j → j < i
  | Tombstoned => ∃ j, last_index (is_tombstone_of id) records j
                    ∧ ∀ i, last_index (is_write id) records i → i < j
  end.
Proof.
  induction records as [|r records IH] using rev_ind.
  - simpl. intros i. split; intros [(x & Hx & _) _]; by rewrite lookup_nil in Hx.
  - unfold id_state_of in *. rewrite foldl_app. simpl.
    assert (∀ p i, last_index p records i → i < length records) as Hlt
      by (intros; by eapply last_index_lt).
    assert (∀ p, p r = false → ∀ i, last_index p (records ++ [r]) i ↔ last_index p records i)
      as Hskip by (intros p Hp i; by rewrite last_index_snoc, Hp).
    assert (∀ p, p r = true → ∀ i, last_index p (records ++ [r]) i ↔ i = length records)
      as Hhit by (intros p Hp i; by rewrite last_index_snoc, Hp).
    destruct (is_write id r) eqn:Ew, (is_tombstone_of id r) eqn:Et;
      [unfold is_write in Ew; by destruct r|..].
    + assert (observe id (foldl (observe id) Unwritten records) r = Written) as ->
        by (unfold is_write in Ew; destruct r; simpl in *; breflect; subst;
            by rewrite ?String.eqb_refl).
      exists (length records). rewrite Hhit by done. split; [done|].
      intros j. rewrite Hskip by done. apply Hlt.
    + assert (observe id (foldl (observe id) Unwritten records) r = Tombstoned) as ->
        by (destruct r; simpl in *; try done; by rewrite Et).
      exists (length records). rewrite Hhit by done. split; [done|].
      intros j. rewrite Hskip by done. apply Hlt.
    + assert (observe id (foldl (observe id) Unwritten records) r
              = foldl (observe id) Unwritten records) as ->
        by (unfold is_write in Ew; destruct r; simpl in *;
            rewrite ?orb_false_r in *; rewrite ?Ew, ?Et; done).
      destruct (foldl (observe id) Unwritten records).
      * intros i. rewrite !Hskip by done. apply IH.
      * destruct IH as (i & Hi & Hj). exists i. rewrite Hskip by done. split; [done|].
        intros j. rewrite Hskip by done. apply Hj.
      * destruct IH as (i & Hi & Hj). exists i. rewrite Hskip by done. split; [done|].
        intros j. rewrite Hskip by done. apply Hj.
Qed.

Lemma tombstone_active_spec records id :
  tombstone_active (new records) id = true ↔ id_state_of id records = Tombstoned.
Proof.
  destruct (new_inv_holds records) as [Hw _ _ Ht _].
  pose proof (id_state_of_last id records) as Hst. unfold tombstone_active.
  destruct (last_tomb (new records) !! id) as [ti|] eqn:Eti,
           (last_write (new records) !! id) as [wi|] eqn:Ewi.
  - apply Ht in Eti. apply Hw in Ewi. rewrite Nat.ltb_lt.
    destruct (id_state_of id records).
    + naive_solver.
    + destruct Hst as (i & Hi & Hj). rewrite (last_index_unique _ _ _ _ Ewi Hi).
      specialize (Hj _ Eti). split; [lia|done].
    + destruct Hst as (j & Hj & Hi). rewrite (last_index_unique _ _ _ _ Eti Hj).
      specialize (Hi _ Ewi). naive_solver.
  - apply Ht in Eti. destruct (id_state_of id records); [naive_solver| |done].
    destruct Hst as (i & Hi & _). apply Hw in Hi. congruence.
  - split; [done|]. intros Hs. rewrite Hs in Hst. destruct Hst as (j & Hj & _).
    apply Ht in Hj. congruence.
  - split; [done|]. intros Hs. rewrite Hs in Hst. destruct Hst as (j & Hj & _).
    apply Ht in Hj. congruence.
Qed.

Lemma has_temporal_spec records id :
  id ∈ has_temporal (new records) ↔ Exists (temporal_write id) records.
Proof. apply new_inv_holds. Qed.

Lemma deleted_spec records id :
  deleted (new records) id = true ↔
  id_state_of id records = Tombstoned ∧ ¬ Exists (temporal_write id) records.
Proof.
  unfold deleted. rewrite andb_true_iff, negb_true_iff, bool_decide_eq_false,
    tombstone_active_spec, has_temporal_spec. naive_solver.
Qed.

Lemma is_latest_edge_version_spec records id i :
  is_latest_edge_version (new records) id i = true ↔ last_index (is_edge_write id) records i.
Proof. unfold is_latest_edge_version. rewrite bool_decide_eq_true. apply new_inv_holds. Qed.

Lemma is_latest_node_version_spec records id i :
  is_latest_node_version (new records) id i = true ↔ last_index (is_node_write id) records i.
Proof. unfold is_latest_node_version. rewrite bool_decide_eq_true. apply new_inv_holds. Qed.

(** C35: the precomputed index maps refine the per-id state machine: over any log, an
    id's tombstone is active exactly when the last record about the id is a
    tombstone, [deleted] adds the exemption of ids that ever carried temporal
    metadata, and the listing of active tombstones holds exactly those ids. *)
Theorem tombstone_active_refines records id :
  tombstone_active (new records) id = bool_decide (id_state_of id records = Tombstoned)
  ∧ (deleted (new records) id = true ↔
     id_state_of id records = Tombstoned ∧ ¬ Exists (temporal_write id) records)
  ∧ (id ∈ active_tombstoned_ids (new records) ↔ id_state_of id records = Tombstoned).
Proof.
  split_and!.
  - apply eq_true_iff_eq. by rewrite bool_decide_eq_true, tombstone_active_spec.
  - apply deleted_spec.
  - unfold active_tombstoned_ids. rewrite elem_of_filter, tombstone_active_spec, elem_of_dom.
    split; [naive_solver|]. intros H. split; [done|].
    apply tombstone_active_spec in H. unfold tombstone_active in H.
    destruct (last_tomb (new records) !! id); [eauto|done].
Qed.

(** A record about other ids changes nothing. *)
Lemma deleted_app_other records r id :
  is_write id r = false → is_tombstone_of id r = false →
  deleted (new (records ++ [r])) id = deleted (new records) id.
Proof.
  intros Hw Ht. apply eq_true_iff_eq. rewrite !deleted_spec, Exists_app, Exists_cons, Exists_nil.
  unfold id_state_of. rewrite foldl_app. cbn [foldl].
  unfold is_write in Hw. destruct r; simpl in *; rewrite ?orb_false_r in *;
    rewrite ?Hw, ?Ht; breflect; naive_solver.
Qed.

(** Append semantics of the gate: writing an id makes it live again whatever was
    tombstoned before, a tombstone deletes an id exactly when no version of it is
    temporal, and a record about other ids changes nothing. *)
Theorem append_revives_or_deletes records r id :
  (is_write id r = true → deleted (new (records ++ [r])) id = false)
  ∧ (is_tombstone_of id r = true →
     deleted (new (records ++ [r])) id = true ↔ ¬ Exists (temporal_write id) records)
  ∧ (is_write id r = false → is_tombstone_of id r = false →
     deleted (new (records ++ [r])) id = deleted (new records) id).
Proof.
  assert (id_state_of id (records ++ [r]) = observe id (id_state_of id records) r) as Hs
    by (unfold id_state_of; by rewrite foldl_app).
  assert (∀ P Q : Prop, (P ∨ Q ∨ False ↔ P) ↔ (Q → P)) as Hor by tauto.
  split_and!.
  - intros Hw. apply not_true_iff_false. rewrite deleted_spec, Hs. intros [H _].
    unfold is_write in Hw. destruct r; simpl in *; breflect; subst;
      by rewrite ?String.eqb_refl in H.
  - intros Ht. rewrite deleted_spec, Hs, Exists_app, Exists_cons, Exists_nil.
    destruct r; simpl in *; try done. rewrite Ht. naive_solver.
  - apply deleted_app_other.
Qed.

End LivenessFacts.
