(* ===== verification/TemporalStatus.v ===== *)
(** * Transitive supersession and contradiction of memory records

    [src/src/temporal_status.rs]: the resolver built from the live records of a
    log, the depth-first search for the heads of a supersession chain, and the
    status of a record. A Rust [HashMap<&str, HashSet<&str>>] is a
    [gmap string (gset string)]; the order in which a [HashSet] is iterated is
    unspecified, so it is a parameter [iter] of the search. The search's
    [while let] loop is run with fuel; [heads_terminate_and_are_correct] gives fuel
    that is enough for every graph. *)
From S2P Require Import Prelude RustStr Ir IrOps Liveness.

Module TemporalReference.
(* temporal_status.rs 18-23: TemporalReference *)
Record t : Type := mk { record_id : string; handle : string }.
End TemporalReference.

Abbreviation links := (gmap string (gset string)) (only parsing).

Module TemporalResolver.
(* temporal_status.rs 26-33: TemporalResolver *)
Record t : Type := mk {
  superseded_by : links;
  contradicts : links;
  records_by_id : gmap string GraphRecord
}.
End TemporalResolver.
Import TemporalResolver (superseded_by, contradicts, records_by_id).

(** [m.entry(k).or_default().insert(v)]. *)
Definition add_link (k v : string) (m : links) : links :=
  <[k := {[v]} ∪ default ∅ (m !! k)]> m.

(** ** Building the resolver *)

(** A retracted record, a stale node version or a stale edge version asserts
    nothing. *)
(* temporal_status.rs 82-97: TemporalResolver::build *)
Definition skipped (liveness : Liveness.t) (index : nat) (r : GraphRecord) : bool :=
  match r with
  | Node n =>
      Liveness.deleted liveness n.(NodeRec.id)
      || (is_none n.(NodeRec.temporal)
          && negb (Liveness.is_latest_node_version liveness n.(NodeRec.id) index))
  | Edge e =>
      Liveness.deleted liveness e.(EdgeRec.id)
      || negb (Liveness.is_latest_edge_version liveness e.(EdgeRec.id) index)
  | Tombstone _ => false
  end.

(** The links one evidence link of the node [id] adds. *)
(* temporal_status.rs 112-131: TemporalResolver::build *)
Definition relate_link (id : string) (acc : links * links) (link : EvidenceLink.t)
    : links * links :=
  match link.(EvidenceLink.target_record_id) with
  | None => acc
  | Some target_id =>
      if link.(EvidenceLink.relation) =s? "SUPERSEDES"
      then (add_link target_id id acc.1, acc.2)
      else if link.(EvidenceLink.relation) =s? "CONTRADICTS"
      then (acc.1, add_link target_id id (add_link id target_id acc.2))
      else acc
  end.

(* temporal_status.rs 98-158: TemporalResolver::build *)
Definition relate (acc : links * links) (r : GraphRecord) : links * links :=
  match r with
  | Node n =>
      let id := n.(NodeRec.id) in
      let acc := match n.(NodeRec.superseded_by) with
                 | Some sub_by => if sub_by =s? "" then acc
                                  else (add_link id sub_by acc.1, acc.2)
                 | None => acc
                 end in
      foldl (relate_link id) acc (default [] n.(NodeRec.evidence_links))
  | Edge e =>
      let source := e.(EdgeRec.source) in
      let target := e.(EdgeRec.target) in
      if bool_decide (e.(EdgeRec.label) = EdgeLabel.Supersedes)
      then (add_link target source acc.1, acc.2)
      else if bool_decide (e.(EdgeRec.label) = EdgeLabel.Contradicts)
      then (acc.1, add_link target source (add_link source target acc.2))
      else acc
  | Tombstone _ => acc
  end.

(* temporal_status.rs 58-166: TemporalResolver::build *)
Definition build (records : list GraphRecord) : TemporalResolver.t :=
  let liveness := Liveness.new records in
  let by_id := foldl (λ (m : gmap string GraphRecord) r,
    match r with Node n => <[n.(NodeRec.id) := r]> m | _ => m end) ∅ records in
  let '(sup, con) := foldl (λ acc '(index, r),
    if skipped liveness index r then acc else relate acc r)
    (∅, ∅) (imap pair records) in
  TemporalResolver.mk sup con by_id.

(** ** Handles and one-hop references *)

(* temporal_status.rs 170-190: TemporalResolver::get_handle *)
Definition get_handle (self : TemporalResolver.t) (record_id : string) : string :=
  match self.(records_by_id) !! record_id with
  | Some (Node n) =>
      match n.(NodeRec.agent_id), n.(NodeRec.session_id), n.(NodeRec.source_handle) with
      | Some a, Some s, _ => a +:+ ":" +:+ s
      | Some a, None, _ => a
      | None, _, Some sh => sh
      | None, _, None => ""
      end
  | _ => ""
  end.

Definition ref_cmp (a b : TemporalReference.t) : comparison :=
  String.compare a.(TemporalReference.record_id) b.(TemporalReference.record_id).

(** The references to [ids], in their iteration order, sorted by record id. *)
Definition sorted_refs (self : TemporalResolver.t) (ids : list string)
    : list TemporalReference.t :=
  sort_by ref_cmp ((λ id, TemporalReference.mk id (get_handle self id)) <$> ids).

Section Search.
(** The iteration order of the [HashSet] held under a key. *)
Context (iter : string → gset string → list string).

(* temporal_status.rs 201-216: TemporalResolver::immediate_superseders *)
Definition immediate_superseders (self : TemporalResolver.t) (id : string)
    : list TemporalReference.t :=
  sorted_refs self (default [] (iter id <$> self.(superseded_by) !! id)).

(* temporal_status.rs 224-239: TemporalResolver::contradicting_records *)
Definition contradicting_records (self : TemporalResolver.t) (id : string)
    : list TemporalReference.t :=
  sorted_refs self (default [] (iter id <$> self.(contradicts) !! id)).

(** ** The depth-first search for supersession heads *)

(** The local variables of the loop. [stack] is kept top first; a frame is the
    node with what is left of the iterator over its successors. *)
Record Dfs : Type := mkDfs {
  heads : gset string;
  path : list string;
  path_set : gset string;
  (* temporal_status.rs 36-39: DfsFrame *)
  stack : list (string * option (list string))
}.

Inductive dfs_next : Type :=
| Continue (d : Dfs)
| Cycle (cycle : gset string)
| Finished (heads : gset string).

(** The nodes of [path] from the first occurrence of [next] on. *)
(* temporal_status.rs 275-281: TemporalResolver::resolve_supersession_heads *)
Definition cycle_nodes (path : list string) (next : string) : gset string :=
  let pos := default 0 (fst <$> list_find (λ x, x = next) path) in
  {[next]} ∪ list_to_set (drop pos path).

(** One round of the [while let Some(frame) = stack.last_mut()] loop. *)
(* temporal_status.rs 268-309: TemporalResolver::resolve_supersession_heads *)
Definition dfs_step (self : TemporalResolver.t) (d : Dfs) : dfs_next :=
  match d.(stack) with
  | [] => Finished d.(heads)
  | (node, Some (next :: more)) :: below =>
      if bool_decide (next ∈ d.(path_set)) then Cycle (cycle_nodes d.(path) next)
      else
        Continue (mkDfs d.(heads) (d.(path) ++ [next]) ({[next]} ∪ d.(path_set))
          ((next, iter next <$> self.(superseded_by) !! next)
             :: (node, Some more) :: below))
  | (node, _) :: below =>
      let is_leaf := match self.(superseded_by) !! node with
                     | None => true
                     | Some s => bool_decide (s = ∅)
                     end in
      Continue (mkDfs (if is_leaf then {[node]} ∪ d.(heads) else d.(heads))
        (removelast d.(path)) (d.(path_set) ∖ {[node]}) below)
  end.

Fixpoint dfs_loop (self : TemporalResolver.t) (fuel : nat) (d : Dfs)
    : option (result (gset string) (gset string)) :=
  match fuel with
  | O => None
  | S fuel =>
      match dfs_step self d with
      | Continue d' => dfs_loop self fuel d'
      | Cycle c => Some (Err c)
      | Finished h => Some (Ok h)
      end
  end.

(* temporal_status.rs 245-318: TemporalResolver::resolve_supersession_heads *)
Definition resolve_supersession_heads (self : TemporalResolver.t) (fuel : nat)
    (start_id : string) : option (result (option (gset string)) (gset string)) :=
  match self.(superseded_by) !! start_id with
  | None => Some (Ok None)
  | Some succs =>
      let?o r := dfs_loop self fuel
        (mkDfs ∅ [start_id] {[start_id]} [(start_id, Some (iter start_id succs))]) in
      Some (let? heads := r in
            let heads := heads ∖ {[start_id]} in
            Ok (if bool_decide (heads = ∅) then None else Some heads))
  end.

(* temporal_status.rs 327-366: TemporalResolver::resolve_status *)
Definition resolve_status (self : TemporalResolver.t) (fuel : nat) (id : string)
    : option (string * list TemporalReference.t * list TemporalReference.t) :=
  let?o r := resolve_supersession_heads self fuel id in
  Some match r with
  | Err _ => ("cycle", [], [])
  | Ok (Some heads) =>
      ("superseded",
       sorted_refs self (filter (λ head_id, head_id ≠ id) (iter id heads)), [])
  | Ok None =>
      match self.(contradicts) !! id with
      | Some ids =>
          if bool_decide (ids = ∅) then ("current", [], [])
          else ("contradicted", [], sorted_refs self (iter id ids))
      | None => ("current", [], [])
      end
  end.

End Search.

(** ** The supersession graph *)
Section SupersessionGraph.
Context (self : TemporalResolver.t).

(** [y] directly supersedes [x]. *)
Definition succs_of (x : string) : gset string := default ∅ (self.(superseded_by) !! x).
Definition step_to (x y : string) : Prop := y ∈ succs_of x.
Definition leaf (x : string) : Prop := succs_of x = ∅.

(** A duplicate-free cycle of supersession links, reachable from [start]. *)
Definition reachable_cycle (start : string) (c : gset string) : Prop :=
  ∃ l first final, c = list_to_set l ∧ NoDup l ∧ head l = Some first ∧ last l = Some final
    ∧ chain step_to l ∧ step_to final first ∧ rtc step_to start first.

(** Every id that occurs in the relation. *)
Definition universe (start : string) : gset string :=
  {[start]} ∪ dom self.(superseded_by)
  ∪ map_fold (λ _ s acc, s ∪ acc) ∅ self.(superseded_by).

Lemma elem_of_values (m : links) x s y :
  m !! x = Some s → y ∈ s → y ∈ map_fold (λ _ s acc, s ∪ acc) (∅ : gset string) m.
Proof.
  revert x s y. induction m as [|k v m Hk Hfold IH] using map_first_key_ind;
    intros x s y Hx Hy; [by rewrite lookup_empty in Hx|].
  rewrite map_fold_insert_first_key by done.
  apply lookup_insert_Some in Hx as [[-> ->]|[? Hx]]; set_solver.
Qed.

Lemma step_to_universe start x y : step_to x y → y ∈ universe start.
Proof.
  unfold step_to, succs_of, universe. destruct (self.(superseded_by) !! x) eqn:E; simpl;
    [|set_solver]. intros Hy. apply elem_of_union_r. by eapply elem_of_values.
Qed.

#[export] Instance leaf_dec x : Decision (leaf x) := decide (succs_of x = ∅).

Definition is_leaf_b (x : string) : bool :=
  match self.(superseded_by) !! x with None => true | Some s => bool_decide (s = ∅) end.

Lemma is_leaf_b_spec x : is_leaf_b x = true ↔ leaf x.
Proof.
  unfold is_leaf_b, leaf, succs_of. destruct (self.(superseded_by) !! x); simpl; [|done].
  apply bool_decide_eq_true.
Qed.

(** What the search collects below the nodes of [todo]. *)
Definition cycle_free_from (x : string) : Prop := ∀ y, rtc step_to x y → ¬ tc step_to y y.

Definition collects (H H' : gset string) (todo : list string) : Prop :=
  (∀ h, h ∈ H' ↔ h ∈ H ∨ ∃ x, x ∈ todo ∧ rtc step_to x h ∧ leaf h)
  ∧ ∀ x, x ∈ todo → cycle_free_from x ∧ ∃ h, rtc step_to x h ∧ leaf h.

Lemma chain_cycle_tc l first final :
  head l = Some first → last l = Some final → chain step_to l → step_to final first →
  tc step_to first first.
Proof.
  intros Hh Hl Hc Hs. rewrite last_lookup in Hl.
  eapply tc_rtc_l; [by eapply chain_rtc|]. by apply tc_once.
Qed.

Lemma reachable_cycle_not_free start c : reachable_cycle start c → ¬ cycle_free_from start.
Proof.
  intros (l & first & final & _ & _ & Hh & Hl & Hc & Hs & Hr) Hf.
  apply (Hf first Hr). by eapply chain_cycle_tc.
Qed.

(** What a search result says. *)
Definition heads_spec (start : string) (r : result (option (gset string)) (gset string))
    : Prop :=
  match r with
  | Ok None => leaf start
  | Ok (Some hs) =>
      ¬ leaf start ∧ cycle_free_from start ∧ hs ≠ ∅
      ∧ ∀ h, h ∈ hs ↔ rtc step_to start h ∧ leaf h
  | Err c => reachable_cycle start c
  end.

Lemma leaf_rtc x y : leaf x → rtc step_to x y → y = x.
Proof.
  intros Hl Hr. inversion Hr as [|? z ? Hxz _]; [done|].
  unfold step_to in Hxz. rewrite Hl in Hxz. set_solver.
Qed.

Lemma leaf_cycle_free x : leaf x → cycle_free_from x.
Proof.
  intros Hl y ->%leaf_rtc Hy; [|done].
  assert (∃ z, step_to x z) as [z Hz] by (inversion Hy; eauto).
  unfold step_to in Hz. rewrite Hl in Hz. set_solver.
Qed.

End SupersessionGraph.

(** ** Properties of the search *)
Section SearchFacts.
Context (iter : string → gset string → list string).
Context (iter_perm : ∀ k s, iter k s ≡ₚ elements s).
Context (self : TemporalResolver.t).
Abbreviation step_to := (step_to self).
Abbreviation leaf := (leaf self).
Abbreviation universe := (universe self).
Abbreviation collects := (collects self).
Abbreviation is_leaf_b := (is_leaf_b self).
Abbreviation reachable_cycle := (reachable_cycle self).
Abbreviation heads_spec := (heads_spec self).
Abbreviation cycle_free_from := (cycle_free_from self).

(** A frame's iterator holds the successors of its node. *)
Lemma iter_succs x y :
  y ∈ default [] (iter x <$> self.(superseded_by) !! x) ↔ step_to x y.
Proof.
  unfold step_to, succs_of. destruct (self.(superseded_by) !! x); simpl; [|set_solver].
  by rewrite iter_perm, elem_of_elements.
Qed.

(** The loop from a state: after [n] rounds it either reports a reachable cycle, or
    is in the state [d']. *)
Definition reaches (start : string) (d : Dfs) (P : gset string → Dfs → Prop) : Prop :=
  ∃ n, (∃ c, reachable_cycle start c
             ∧ ∀ k, dfs_loop iter self (n + k) d = Some (Err c))
       ∨ (∃ H' d', P H' d' ∧ ∀ k, dfs_loop iter self (n + k) d = dfs_loop iter self k d').

Lemma reaches_step start d d' P :
  dfs_step iter self d = Continue d' → reaches start d' P → reaches start d P.
Proof.
  intros Hs (n & [(c & Hc & Hk)|(H' & d'' & HP & Hk)]); exists (S n); [left|right].
  - exists c. split; [done|]. intros k. simpl. by rewrite Hs.
  - exists H', d''. split; [done|]. intros k. simpl. by rewrite Hs.
Qed.

Lemma reaches_bind start d P Q :
  reaches start d P → (∀ H' d', P H' d' → reaches start d' Q) → reaches start d Q.
Proof.
  intros (n & [(c & Hc & Hk)|(H' & d' & HP & Hk)]) HQ.
  - exists n. left. eauto.
  - destruct (HQ _ _ HP) as (m & [(c & Hc & Hm)|(H'' & d'' & HQ' & Hm)]);
      exists (n + m); [left; exists c|right; exists H'', d'']; (split; [done|]);
      intros k; rewrite <-Nat.add_assoc, Hk; apply Hm.
Qed.

Lemma reachable_cycle_found start P node next :
  head P = Some start → NoDup P → chain step_to P → last P = Some node →
  step_to node next → next ∈ P → reachable_cycle start (cycle_nodes P next).
Proof.
  intros Hh Hnd Hc Hl Hs Hin. unfold cycle_nodes.
  destruct (list_find_elem_of (λ x, x = next) P next Hin eq_refl) as [[pos x] Hf].
  rewrite Hf. simpl. apply list_find_Some in Hf as (Hpos & -> & _).
  pose proof (lookup_lt_Some _ _ _ Hpos) as Hlt.
  exists (drop pos P), next, node. split_and!.
  - rewrite (drop_S _ _ _ Hpos). set_solver.
  - eapply sublist_NoDup; [done|]. apply sublist_drop.
  - by rewrite (drop_S _ _ _ Hpos).
  - rewrite <-Hl, !last_lookup, length_drop, lookup_drop. f_equal. lia.
  - by apply chain_drop.
  - done.
  - by eapply chain_rtc.
Qed.

(** The state in which a frame's iterator is used up, and its pop. *)
Lemma dfs_step_pop H P node o below :
  default [] o = [] →
  dfs_step iter self (mkDfs H (P ++ [node]) ({[node]} ∪ list_to_set P) ((node, o) :: below))
  = Continue (mkDfs (if is_leaf_b node then {[node]} ∪ H else H) P
      (({[node]} ∪ list_to_set P) ∖ {[node]}) below).
Proof.
  intros Ho. unfold dfs_step; simpl. rewrite removelast_last.
  destruct o as [[|? ?]|]; simpl in Ho; by simplify_eq.
Qed.

Lemma dfs_step_push H P PS node next more below :
  next ∉ PS →
  dfs_step iter self (mkDfs H P PS ((node, Some (next :: more)) :: below))
  = Continue (mkDfs H (P ++ [next]) ({[next]} ∪ PS)
      ((next, iter next <$> self.(superseded_by) !! next) :: (node, Some more) :: below)).
Proof. intros Hn. unfold dfs_step; simpl. by rewrite bool_decide_eq_false_2. Qed.

Lemma dfs_step_cycle H P PS node next more below :
  next ∈ PS →
  dfs_step iter self (mkDfs H P PS ((node, Some (next :: more)) :: below))
  = Cycle (cycle_nodes P next).
Proof. intros Hn. unfold dfs_step; simpl. by rewrite bool_decide_eq_true_2. Qed.

(** What the search below one node collects, from what it collects below the node's
    successors. *)
Lemma collects_node H H' x (todo : list string) :
  (∀ y, y ∈ todo ↔ step_to x y) → collects H H' todo →
  collects H (if is_leaf_b x then {[x]} ∪ H' else H') [x].
Proof.
  intros Htodo [HH Hall]. split.
  - intros h. transitivity (h ∈ H ∨ rtc step_to x h ∧ leaf h); [|set_solver].
    destruct (is_leaf_b x) eqn:Hl.
    + apply is_leaf_b_spec in Hl. rewrite elem_of_union, elem_of_singleton, HH. split.
      * intros [->|[?|(y & Hy%Htodo & _)]]; [right; split; done|by left|].
        unfold step_to in Hy. rewrite Hl in Hy. set_solver.
      * intros [?|[Hr ?]]; [by right; left|]. inversion Hr as [|? y ? Hxy Hyh]; [by left|].
        unfold step_to in Hxy. rewrite Hl in Hxy. set_solver.
    + assert (¬ leaf x) as Hnl by (rewrite <-is_leaf_b_spec; congruence).
      rewrite HH. split.
      * intros [?|(y & Hy%Htodo & Hyh & ?)]; [by left|right]. split; [|done].
        by eapply rtc_l.
      * intros [?|[Hr Hh]]; [by left|right]. inversion Hr as [|? y ? Hxy Hyh]; subst.
        { done. } exists y. by rewrite Htodo.
  - intros y ->%list_elem_of_singleton.
    assert (∀ z, rtc step_to x z → z = x ∨ ∃ y, y ∈ todo ∧ rtc step_to y z) as Hsplit.
    { intros z Hz. inversion Hz as [|? y ? Hxy Hyz]; [by left|right].
      exists y. by rewrite Htodo. }
    split.
    + intros z Hz Hzz. destruct (Hsplit z Hz) as [->|(y & Hy & Hyz)].
      * assert (∃ y, step_to x y ∧ rtc step_to y x) as (y & Hxy & Hyx)
          by (inversion Hzz; subst; eauto using rtc_refl, tc_rtc).
        by apply (proj1 (Hall y (proj2 (Htodo y) Hxy)) x).
      * by apply (proj1 (Hall y Hy) z).
    + destruct (is_leaf_b x) eqn:Hl.
      * apply is_leaf_b_spec in Hl. by exists x.
      * destruct (set_choose_L (succs_of self x)) as [y Hy].
        { intros Hn. apply is_leaf_b_spec in Hn. congruence. }
        destruct (Hall y) as [_ (h & ? & ?)]; [by apply Htodo|].
        exists h. split; [|done]. by eapply rtc_l.
Qed.

Lemma collects_nil H : collects H H [].
Proof. split; [intros h|intros x]; set_solver. Qed.

Lemma collects_cons H H1 H2 x todo :
  collects H H1 [x] → collects H1 H2 todo → collects H H2 (x :: todo).
Proof.
  intros [HH1 Hx] [HH2 Ht]. split.
  - intros h. rewrite HH2, HH1. set_solver.
  - intros y [->|Hy]%elem_of_cons; [apply Hx; set_solver|by apply Ht].
Qed.

(** The search below the frame of [node], whose path from [start] is [P]. *)
Lemma explore start m P node todo H below :
  size (universe start) ≤ m + length (P ++ [node]) →
  head (P ++ [node]) = Some start → NoDup (P ++ [node]) →
  chain step_to (P ++ [node]) → Forall (.∈ universe start) (P ++ [node]) →
  (∀ y, y ∈ todo → step_to node y) →
  reaches start
    (mkDfs H (P ++ [node]) ({[node]} ∪ list_to_set P) ((node, Some todo) :: below))
    (λ H' d', d' = mkDfs H' (P ++ [node]) ({[node]} ∪ list_to_set P)
                     ((node, Some []) :: below)
              ∧ collects H H' todo).
Proof.
  revert P node todo H below. induction m as [|m IHm];
    intros P node todo H below Hm Hh Hnd Hc HU Ht;
    (revert H Ht; induction todo as [|next more IHt]; intros H Ht;
     [exists 0; right; exists H; eexists; split; [split; [done|]|done];
      apply collects_nil|]).
  all: assert (step_to node next) as Hsn by (apply Ht; left).
  all: assert (Hin_iff : next ∈ P ++ [node] ↔
                 next ∈ ({[node]} ∪ list_to_set P : gset string)) by set_solver.
  all: destruct (decide (next ∈ P ++ [node])) as [Hin|Hnin];
    [exists 1; left; exists (cycle_nodes (P ++ [node]) next); split;
      [eapply reachable_cycle_found; [done..|by rewrite last_snoc|done|done]
      |intros k; simpl; by rewrite dfs_step_cycle by (by apply Hin_iff)]|].
  all: assert (NoDup ((P ++ [node]) ++ [next]) ∧
               Forall (.∈ universe start) ((P ++ [node]) ++ [next])) as [Hnd' HU'].
  1,3: split; [apply NoDup_app; split_and!; [done|set_solver|apply NoDup_singleton]
              |apply Forall_app; split; [done|]; apply Forall_singleton;
               by eapply (step_to_universe self)].
  - (* no room for another node: the path would be longer than the universe *)
    exfalso. assert (length ((P ++ [node]) ++ [next]) ≤ size (universe start)) as Hlen.
    { rewrite <-(size_list_to_set (C := gset string)) by done.
      apply subseteq_size. rewrite Forall_forall in HU'. set_solver. }
    rewrite length_app in Hlen; simpl in Hlen. lia.
  - eapply reaches_step; [apply dfs_step_push; by rewrite <-Hin_iff|].
    assert (HbelowP : {[next]} ∪ ({[node]} ∪ list_to_set P)
       =@{gset string} {[next]} ∪ list_to_set (P ++ [node])) by set_solver.
    rewrite HbelowP.
    set (o := iter next <$> superseded_by self !! next).
    eapply reaches_bind with (P := λ H' d',
      d' = mkDfs H' (P ++ [node]) ({[node]} ∪ list_to_set P) ((node, Some more) :: below)
      ∧ collects H H' [next]).
    + assert (reaches start (mkDfs H ((P ++ [node]) ++ [next])
          ({[next]} ∪ list_to_set (P ++ [node])) ((next, o) :: (node, Some more) :: below))
        (λ H' d', ∃ o', default [] o' = [] ∧
           d' = mkDfs H' ((P ++ [node]) ++ [next]) ({[next]} ∪ list_to_set (P ++ [node]))
                  ((next, o') :: (node, Some more) :: below)
           ∧ collects H H' (default [] o))) as Hsub.
      { destruct o as [l|] eqn:Ho; simpl.
        - eapply reaches_bind.
          + apply IHm; try done.
            * rewrite length_app; simpl. lia.
            * by rewrite head_app_cons || (destruct P; done).
            * by eapply chain_app_snoc.
            * intros y Hy. apply iter_succs. fold o. by rewrite Ho.
          + intros H1 d' [-> Hc1]. exists 0. right. exists H1. eexists.
            split; [|done]. by exists (Some []).
        - exists 0. right. exists H. eexists. split; [|done]. exists None.
          split_and!; [done..|apply collects_nil]. }
      eapply reaches_bind; [exact Hsub|].
      intros H1 d' (o' & Ho' & -> & Hc1).
      eapply reaches_step; [by apply dfs_step_pop|].
      exists 0. right. eexists. eexists. split; [|done]. split.
      * f_equal. rewrite list_to_set_app_L. set_solver.
      * eapply collects_node; [|done]. intros y. apply iter_succs.
    + intros H1 d' [-> Hc1]. eapply reaches_bind; [apply IHt; set_solver|].
      intros H2 d'' [-> Hc2]. exists 0. right. exists H2. eexists.
      split; [split; [done|]|done]. by eapply collects_cons.
Qed.

Lemma heads_spec_finished start H' :
  collects ∅ H' (default [] (iter start <$> self.(superseded_by) !! start)) →
  let heads := (if is_leaf_b start then {[start]} ∪ H' else H') ∖ {[start]} in
  heads_spec start (Ok (if bool_decide (heads = ∅) then None else Some heads)).
Proof.
  intros Hc. apply (collects_node _ _ _ _ (iter_succs start)) in Hc as [HH Hf].
  set (hs := if is_leaf_b start then {[start]} ∪ H' else H') in *. simpl.
  destruct (Hf start) as [Hfree (h0 & Hr0 & Hl0)]; [by left|].
  assert (∀ h, h ∈ hs ↔ rtc step_to start h ∧ leaf h) as HH'.
  { intros h. rewrite HH. set_solver. }
  destruct (decide (leaf start)) as [Hl|Hl].
  - rewrite bool_decide_eq_true_2; [done|]. apply set_eq. intros h.
    rewrite elem_of_difference, HH', elem_of_singleton, elem_of_empty.
    split; [|done]. intros [[Hr _] Hne]. by apply leaf_rtc in Hr.
  - assert (hs ∖ {[start]} = hs) as ->.
    { apply set_eq. intros h. rewrite elem_of_difference, HH'. set_solver. }
    assert (hs ≠ ∅) as Hne.
    { intros He. specialize (proj2 (HH' h0) (conj Hr0 Hl0)). rewrite He. set_solver. }
    rewrite bool_decide_eq_false_2 by done. done.
Qed.

(** The search from [start] ends, and its answer is right. *)
Lemma supersession_heads_found start :
  ∃ n r, (∀ k, resolve_supersession_heads iter self (n + k) start = Some r)
         ∧ heads_spec start r.
Proof.
  unfold resolve_supersession_heads.
  destruct (self.(superseded_by) !! start) as [succs|] eqn:Es.
  2:{ exists 0, (Ok None). split; [done|]. simpl. unfold leaf, succs_of. by rewrite Es. }
  pose proof (explore start (size (universe start)) [] start (iter start succs) ∅ []) as He.
  assert ({[start]} ∪ list_to_set [] =@{gset string} {[start]}) as Heq by set_solver.
  rewrite Heq in He. simpl app in He.
  destruct He as (n & [(c & Hc & Hk)|(H' & d' & [-> Hcol] & Hk)]);
    [lia|done|apply NoDup_singleton|intros i x y; by destruct i
    |apply Forall_singleton; unfold universe; set_solver
    |intros y Hy; apply iter_succs; by rewrite Es|..].
  - exists n, (Err c). split; [|done]. intros k. by rewrite Hk.
  - exists (n + 2), (let heads := (if is_leaf_b start then {[start]} ∪ H' else H')
        ∖ {[start]} in Ok (if bool_decide (heads = ∅) then None else Some heads)).
    split; [|apply heads_spec_finished; by rewrite Es].
    intros k. rewrite <-Nat.add_assoc, Hk. change (2 + k) with (S (S k)).
    pose proof (dfs_step_pop H' [] start (Some []) [] eq_refl) as Hp.
    rewrite Heq in Hp. simpl app in Hp. cbn [dfs_loop]. by rewrite Hp.
Qed.

(** C5: the supersession search is total and correct: on every graph and for every
    order in which the hash sets are iterated, enough fuel makes it return, and from
    then on it returns the same answer; the answer is [Ok None] exactly for a record
    nothing supersedes, [Ok (Some hs)] with [hs] the non-empty set of all
    unsuperseded records reachable from the start when no supersession cycle is
    reachable, and [Err c] with [c] the nodes of a reachable cycle otherwise. *)
Theorem heads_terminate_and_are_correct start :
  ∃ n r, (∀ k, resolve_supersession_heads iter self (n + k) start = Some r)
         ∧ heads_spec start r.
Proof. apply supersession_heads_found. Qed.

End SearchFacts.

(** More fuel never changes an answer. *)
Lemma dfs_loop_mono iter self n k d r :
  dfs_loop iter self n d = Some r → dfs_loop iter self (n + k) d = Some r.
Proof.
  revert d. induction n as [|n IH]; intros d; simpl; [done|].
  destruct (dfs_step iter self d); auto.
Qed.

Lemma resolve_heads_mono iter self n k start r :
  resolve_supersession_heads iter self n start = Some r →
  resolve_supersession_heads iter self (n + k) start = Some r.
Proof.
  unfold resolve_supersession_heads. destruct (self.(superseded_by) !! start); [|done].
  destruct (dfs_loop iter self n _) eqn:E; simpl; [|done].
  by rewrite (dfs_loop_mono _ _ _ _ _ _ E).
Qed.

Lemma sorted_refs_perm self l k :
  NoDup l → l ≡ₚ k → sorted_refs self l = sorted_refs self k.
Proof.
  intros Hnd Hp. apply (sort_by_key_unique TemporalReference.record_id); [by rewrite Hp|].
  rewrite <-list_fmap_compose. simpl.
  by rewrite (list_fmap_ext _ id), list_fmap_id.
Qed.

Lemma hash_iter_NoDup (iter : string → gset string → list string) k s :
  (∀ k s, iter k s ≡ₚ elements s) → NoDup (iter k s).
Proof. intros Hp. rewrite Hp. apply NoDup_elements. Qed.

(** Two search results of one graph: the same heads, or a cycle both times. *)
Lemma heads_spec_agree self start r1 r2 :
  heads_spec self start r1 → heads_spec self start r2 →
  r1 = r2 ∨ ∃ c1 c2, r1 = Err c1 ∧ r2 = Err c2.
Proof.
  intros H1 H2. destruct r1 as [[h1|]|c1], r2 as [[h2|]|c2]; simpl in *;
    try (left; congruence); try tauto; try by (right; eauto).
  - left. do 2 f_equal. apply set_eq. naive_solver.
  - destruct H1 as (_ & Hf & _). by apply reachable_cycle_not_free in H2.
  - apply leaf_cycle_free in H1. by apply reachable_cycle_not_free in H2.
  - destruct H2 as (_ & Hf & _). by apply reachable_cycle_not_free in H1.
  - apply leaf_cycle_free in H2. by apply reachable_cycle_not_free in H1.
Qed.

(** The status of a record is a function of the graph alone: there is one triple of
    status, superseding heads and contradicting records that the resolver returns
    with enough fuel whatever order the hash sets are iterated in. *)
Theorem status_independent_of_hash_order self id :
  ∃ s, ∀ iter, (∀ k S, iter k S ≡ₚ elements S) →
  ∃ n, ∀ k, resolve_status iter self (n + k) id = Some s.
Proof.
  assert (∀ (k : string) (S : gset string), elements S ≡ₚ elements S) as Hel by done.
  destruct (supersession_heads_found (λ _ S, elements S) Hel self id)
    as (n0 & r0 & H0 & Hs0).
  exists (default ("", [], []) (resolve_status (λ _ S, elements S) self n0 id)).
  intros iter Hp. destruct (supersession_heads_found iter Hp self id)
    as (n & r & Hr & Hs).
  exists n. intros k. unfold resolve_status.
  rewrite Hr. specialize (H0 0). rewrite Nat.add_0_r in H0. rewrite H0. simpl. f_equal.
  destruct (heads_spec_agree _ _ _ _ Hs Hs0) as [<-|(c1 & c2 & -> & ->)]; [|done].
  destruct r as [[hs|]|c]; [|destruct (self.(contradicts) !! id) as [ids|]|]; try done.
  - do 2 f_equal. apply sorted_refs_perm;
      [apply NoDup_filter; by apply hash_iter_NoDup|by rewrite Hp].
  - case_bool_decide; [done|]. f_equal. apply sorted_refs_perm; [by apply hash_iter_NoDup|by rewrite Hp].
Qed.

(** ** The relations [build] extracts *)

(** Direct assertions of one record: [y] supersedes [x]; [x] and [y] contradict. *)
Definition asserts_supersedes (r : GraphRecord) (x y : string) : Prop :=
  match r with
  | Node n =>
      (n.(NodeRec.superseded_by) = Some y ∧ y ≠ "" ∧ x = n.(NodeRec.id))
      ∨ ∃ link, link ∈ default [] n.(NodeRec.evidence_links)
          ∧ link.(EvidenceLink.target_record_id) = Some x
          ∧ link.(EvidenceLink.relation) = "SUPERSEDES" ∧ y = n.(NodeRec.id)
  | Edge e =>
      e.(EdgeRec.label) = EdgeLabel.Supersedes
      ∧ x = e.(EdgeRec.target) ∧ y = e.(EdgeRec.source)
  | Tombstone _ => False
  end.

Definition asserts_contradiction (r : GraphRecord) (x y : string) : Prop :=
  match r with
  | Node n =>
      ∃ link t, link ∈ default [] n.(NodeRec.evidence_links)
          ∧ link.(EvidenceLink.target_record_id) = Some t
          ∧ link.(EvidenceLink.relation) = "CONTRADICTS"
          ∧ (x = n.(NodeRec.id) ∧ y = t ∨ x = t ∧ y = n.(NodeRec.id))
  | Edge e =>
      e.(EdgeRec.label) = EdgeLabel.Contradicts
      ∧ (x = e.(EdgeRec.source) ∧ y = e.(EdgeRec.target)
         ∨ x = e.(EdgeRec.target) ∧ y = e.(EdgeRec.source))
  | Tombstone _ => False
  end.

(** The record at index [i] is a current one: its id is not retracted, and it is the
    last version of its node (or carries a history snapshot) or of its edge. *)
Definition current (records : list GraphRecord) (i : nat) (r : GraphRecord) : Prop :=
  let retracted id :=
    id_state_of id records = Tombstoned ∧ ¬ Exists (temporal_write id) records in
  records !! i = Some r
  ∧ match r with
    | Node n =>
        ¬ retracted n.(NodeRec.id)
        ∧ (is_Some n.(NodeRec.temporal)
           ∨ last_index (is_node_write n.(NodeRec.id)) records i)
    | Edge e =>
        ¬ retracted e.(EdgeRec.id)
        ∧ last_index (is_edge_write e.(EdgeRec.id)) records i
    | Tombstone _ => True
    end.

Definition linked (m : links) (x y : string) : Prop := y ∈ default ∅ (m !! x).

Lemma linked_add_link k v m x y :
  linked (add_link k v m) x y ↔ (x = k ∧ y = v) ∨ linked m x y.
Proof.
  unfold linked, add_link. destruct (decide (x = k)) as [->|Hne].
  - rewrite lookup_insert_eq. simpl. set_solver.
  - rewrite lookup_insert_ne by done. naive_solver.
Qed.

(** A loop that only ever adds to a relation. *)
Lemma foldl_adds {A B} (f : A → B → A) (P : A → Prop) (Q : B → Prop) l a :
  (∀ a b, P (f a b) ↔ P a ∨ Q b) → P (foldl f a l) ↔ P a ∨ ∃ b, b ∈ l ∧ Q b.
Proof.
  intros Hf. revert a. induction l as [|b l IH]; intros a; simpl; [set_solver|].
  rewrite IH, Hf. set_solver.
Qed.

Lemma relate_link_supersedes id acc link x y :
  linked (relate_link id acc link).1 x y ↔ linked acc.1 x y
  ∨ (link.(EvidenceLink.target_record_id) = Some x
     ∧ link.(EvidenceLink.relation) = "SUPERSEDES" ∧ y = id).
Proof.
  unfold relate_link. destruct (link.(EvidenceLink.target_record_id)) as [t|]; [|naive_solver].
  destruct (String.eqb_spec link.(EvidenceLink.relation) "SUPERSEDES") as [->|];
    [simpl; rewrite linked_add_link; naive_solver|].
  destruct (_ =s? "CONTRADICTS"); simpl; naive_solver.
Qed.

Lemma relate_link_contradicts id acc link x y :
  linked (relate_link id acc link).2 x y ↔ linked acc.2 x y
  ∨ (∃ t, link.(EvidenceLink.target_record_id) = Some t
     ∧ link.(EvidenceLink.relation) = "CONTRADICTS"
     ∧ (x = id ∧ y = t ∨ x = t ∧ y = id)).
Proof.
  unfold relate_link. destruct (link.(EvidenceLink.target_record_id)) as [t|]; [|naive_solver].
  destruct (String.eqb_spec link.(EvidenceLink.relation) "SUPERSEDES") as [->|];
    [simpl; naive_solver|].
  destruct (String.eqb_spec link.(EvidenceLink.relation) "CONTRADICTS") as [->|];
    simpl; rewrite ?linked_add_link; naive_solver.
Qed.

Lemma relate_supersedes acc r x y :
  linked (relate acc r).1 x y ↔ linked acc.1 x y ∨ asserts_supersedes r x y.
Proof.
  destruct r as [n|e|tb]; simpl; [|case_bool_decide as H1; simpl;
    [rewrite linked_add_link; naive_solver|case_bool_decide; simpl; naive_solver]|naive_solver].
  rewrite (foldl_adds _ (λ acc, linked acc.1 x y) _ _ _
    (λ acc l, relate_link_supersedes _ acc l x y)).
  destruct (n.(NodeRec.superseded_by)) as [s|]; [|naive_solver].
  destruct (String.eqb_spec s "") as [->|]; simpl; [naive_solver|].
  rewrite linked_add_link. naive_solver.
Qed.

Lemma relate_contradicts acc r x y :
  linked (relate acc r).2 x y ↔ linked acc.2 x y ∨ asserts_contradiction r x y.
Proof.
  destruct r as [n|e|tb]; simpl; [|case_bool_decide as H1; simpl;
    [split; [by left|intros [?|[? _]]; [done|congruence]]|
     case_bool_decide; simpl; rewrite ?linked_add_link; naive_solver]|naive_solver].
  rewrite (foldl_adds _ (λ acc, linked acc.2 x y) _ _ _
    (λ acc l, relate_link_contradicts _ acc l x y)).
  destruct (n.(NodeRec.superseded_by)) as [s|]; [|naive_solver].
  destruct (String.eqb_spec s "") as [->|]; simpl; naive_solver.
Qed.

Lemma skipped_current records i r :
  records !! i = Some r →
  skipped (Liveness.new records) i r = false ↔ current records i r.
Proof.
  intros Hi. unfold current, skipped. destruct r as [n|e|tb]; [| |naive_solver].
  - rewrite orb_false_iff, andb_false_iff, negb_false_iff, is_latest_node_version_spec.
    rewrite <-not_true_iff_false, deleted_spec.
    assert (is_none n.(NodeRec.temporal) = false ↔ is_Some n.(NodeRec.temporal)) as ->.
    { unfold is_none. destruct n.(NodeRec.temporal); simpl; split; eauto; by try intros [? ?]. }
    naive_solver.
  - rewrite orb_false_iff, negb_false_iff, is_latest_edge_version_spec.
    rewrite <-not_true_iff_false, deleted_spec. naive_solver.
Qed.

Lemma build_loop_spec records (P : links * links → Prop) (Q : GraphRecord → Prop) :
  (∀ acc r, P (relate acc r) ↔ P acc ∨ Q r) → ¬ P (∅, ∅) →
  P (foldl (λ acc '(index, r), if skipped (Liveness.new records) index r then acc
                               else relate acc r) (∅, ∅) (imap pair records))
  ↔ ∃ i r, current records i r ∧ Q r.
Proof.
  intros HPQ H0.
  rewrite (foldl_adds _ P (λ ir, skipped (Liveness.new records) ir.1 ir.2 = false ∧ Q ir.2)).
  - split.
    + intros [?|([i r] & Hin & Hs & Hq)]; [done|]. simpl in *.
      apply elem_of_lookup_imap in Hin as (j & x & [= -> ->] & Hj).
      exists j, x. by rewrite <-skipped_current.
    + intros (i & r & Hc & Hq). right. exists (i, r). simpl.
      rewrite skipped_current by apply Hc. split; [|done].
      apply elem_of_lookup_imap. exists i, r. split; [done|apply Hc].
  - intros acc [i r]. simpl. destruct (skipped _ i r); [naive_solver|].
    rewrite HPQ. naive_solver.
Qed.

(** The resolver holds exactly the relationships asserted by the current records of
    the log: [y] directly supersedes [x], or [x] and [y] contradict, if and only if
    some unretracted, latest-version record says so; in particular the
    contradiction relation is symmetric. *)
Theorem build_extracts_live_relations records x y :
  (linked (build records).(superseded_by) x y ↔
   ∃ i r, current records i r ∧ asserts_supersedes r x y)
  ∧ (linked (build records).(contradicts) x y ↔
     ∃ i r, current records i r ∧ asserts_contradiction r x y)
  ∧ (linked (build records).(contradicts) x y ↔ linked (build records).(contradicts) y x).
Proof.
  assert (∀ x y, ¬ linked ∅ x y) as H0.
  { intros a b. unfold linked. rewrite lookup_empty. set_solver. }
  assert (∀ x y, linked (build records).(contradicts) x y ↔
    ∃ i r, current records i r ∧ asserts_contradiction r x y) as Hcon.
  { intros a b. unfold build. destruct (foldl _ _ (imap pair records)) as [sup con] eqn:E.
    simpl. transitivity (linked (sup, con).2 a b); [done|]. rewrite <-E.
    apply (build_loop_spec records (λ acc, linked acc.2 a b)); [|apply H0].
    intros acc r. apply relate_contradicts. }
  split_and!.
  - unfold build. destruct (foldl _ _ (imap pair records)) as [sup con] eqn:E.
    simpl. transitivity (linked (sup, con).1 x y); [done|]. rewrite <-E.
    apply (build_loop_spec records (λ acc, linked acc.1 x y)); [|apply H0].
    intros acc r. apply relate_supersedes.
  - apply Hcon.
  - rewrite !Hcon. assert (∀ r a b, asserts_contradiction r a b ↔ asserts_contradiction r b a) as Hs.
    { intros [n|e|tb] a b; simpl; naive_solver. }
    split; intros (i & r & ? & ?); exists i, r; (split; [done|]); by apply Hs.
Qed.

(** A chain of two supersessions and a two-record cycle. *)
Definition demo_resolver : TemporalResolver.t :=
  TemporalResolver.mk
    {[ "a" := {["b"]}; "b" := {["c"]}; "p" := {["q"]}; "q" := {["p"]} ]} ∅ ∅.

Example demo_heads :
  resolve_supersession_heads (λ _ S, elements S) demo_resolver 20 "a"
  = Some (Ok (Some {["c"]})).
Proof. vm_compute. reflexivity. Qed.

Lemma heads_terminate_and_are_correct_witness :
  ∃ n r, (∀ k, resolve_supersession_heads (λ _ S, elements S) demo_resolver (n + k) "p"
               = Some r) ∧ heads_spec demo_resolver "p" r.
Proof.
  apply (heads_terminate_and_are_correct (λ _ S, elements S)). intros k s. reflexivity.
Defined.
