(* ===== verification/Trust.v ===== *)
(** * Derived trust classes

    [src/src/query/trust.rs], with the verification support of
    [src/src/query/memory_audit.rs]: the trust class of a record as a function of its kind,
    its evidence and the relations of the log. The supersession resolver is the one of
    [TemporalStatus.v]. *)
From S2P Require Import Prelude RustStr Ir IrOps Liveness TemporalStatus.

(** ** Verification outcomes *)

Module VerificationOutcome.
(* query/trust.rs 88-97: VerificationOutcome *)
Inductive t : Type := Passing | Failing | Inconclusive.
End VerificationOutcome.

#[export] Instance VerificationOutcome_eq_dec : EqDecision VerificationOutcome.t.
Proof. solve_decision. Defined.

(* query/trust.rs 58-58: PASSING_VERIFICATION_STATUSES *)
Definition PASSING_VERIFICATION_STATUSES : list string := ["pass"; "passed"; "success"].

(* query/trust.rs 71-79: FAILING_VERIFICATION_STATUSES *)
Definition FAILING_VERIFICATION_STATUSES : list string :=
  ["fail"; "failed"; "failure"; "error"; "errored"; "timeout"; "timed_out"].

(* query/trust.rs 106-139: verification_outcome *)
Definition verification_outcome (record : GraphRecord) : VerificationOutcome.t :=
  match record with
  | Node n =>
      match n.(NodeRec.status) with
      | Some status =>
          let normalized := to_ascii_lowercase (trim status) in
          if bool_decide (normalized ∈ PASSING_VERIFICATION_STATUSES)
          then VerificationOutcome.Passing
          else if bool_decide (normalized ∈ FAILING_VERIFICATION_STATUSES)
          then VerificationOutcome.Failing
          else
            match n.(NodeRec.exit_code) with
            | Some code => if (code =? 0)%Z then VerificationOutcome.Inconclusive
                           else VerificationOutcome.Failing
            | None => VerificationOutcome.Inconclusive
            end
      | None =>
          match n.(NodeRec.exit_code) with
          | Some code => if (code =? 0)%Z then VerificationOutcome.Passing
                         else VerificationOutcome.Failing
          | None => VerificationOutcome.Inconclusive
          end
      end
  | Edge _ | Tombstone _ => VerificationOutcome.Inconclusive
  end.

(* query/trust.rs 620-622: is_passing_verification *)
Definition is_passing_verification (record : GraphRecord) : bool :=
  bool_decide (verification_outcome record = VerificationOutcome.Passing).

(** ** The vocabulary *)

Module TrustClass.
(* query/trust.rs 150-180: TrustClass *)
Inductive t : Type :=
| SourceDerived
| VerificationEvidence
| AgentVerified
| AgentUnverified
| AgentContradicted
| ProjectState
| Artifact
| RuntimeObservation
| Other.

(* query/trust.rs 184-194: TrustClass::ALL *)
Definition ALL : list t :=
  [SourceDerived; VerificationEvidence; AgentVerified; AgentUnverified; AgentContradicted;
   ProjectState; Artifact; RuntimeObservation; Other].

(* query/trust.rs 198-210: TrustClass::as_str *)
Definition as_str (self : t) : string :=
  match self with
  | SourceDerived => "source_derived"
  | VerificationEvidence => "verification_evidence"
  | AgentVerified => "agent_verified"
  | AgentUnverified => "agent_unverified"
  | AgentContradicted => "agent_contradicted"
  | ProjectState => "project_state"
  | Artifact => "artifact"
  | RuntimeObservation => "runtime_observation"
  | Other => "other"
  end.

(* query/trust.rs 220-225: TrustClass::is_agent_authored *)
Definition is_agent_authored (self : t) : bool :=
  match self with
  | AgentVerified | AgentUnverified | AgentContradicted => true
  | _ => false
  end.
End TrustClass.

#[export] Instance TrustClass_eq_dec : EqDecision TrustClass.t.
Proof. solve_decision. Defined.

Module AgentTrust.
(* query/trust.rs 243-247: AgentTrust *)
Inductive t : Type := Verified | Unverified | Contradicted.

(* query/trust.rs 249-257: TrustClass::from *)
Definition into (value : t) : TrustClass.t :=
  match value with
  | Verified => TrustClass.AgentVerified
  | Unverified => TrustClass.AgentUnverified
  | Contradicted => TrustClass.AgentContradicted
  end.
End AgentTrust.

(** ** Verification records *)

(* query/memory_audit.rs 101-113: is_verification_kind *)
Definition is_verification_kind (kind : NodeKind.t) : bool :=
  match kind with
  | NodeKind.Verification | NodeKind.CommandEvidence | NodeKind.TestRun | NodeKind.CommandRun
  | NodeKind.CIStatus | NodeKind.BenchmarkRun | NodeKind.CoverageReport
  | NodeKind.ProofResult => true
  | _ => false
  end.

(* query/trust.rs 506-506: VERIFICATION_ID_PREFIX *)
Definition VERIFICATION_ID_PREFIX : string := "verification:v".

(* query/trust.rs 526-534: is_verification_domain_record *)
Definition is_verification_domain_record (record : GraphRecord) : bool :=
  match strip_prefix VERIFICATION_ID_PREFIX (GraphRecord.id record) ≫= split_once ":" with
  | Some (version, _) => negb (version =s? "") && str_all is_ascii_digit version
  | None => false
  end.

(* query/trust.rs 543-551: VERIFICATION_DOMAIN_KINDS *)
Definition VERIFICATION_DOMAIN_KINDS : list NodeKind.t :=
  [NodeKind.CommandRun; NodeKind.Verification; NodeKind.TestRun; NodeKind.CIStatus;
   NodeKind.BenchmarkRun; NodeKind.CoverageReport; NodeKind.ProofResult].

(* query/trust.rs 560-564: CLOSURE_TARGET_KINDS *)
Definition CLOSURE_TARGET_KINDS : list NodeKind.t :=
  [NodeKind.Verification; NodeKind.CommandRun; NodeKind.TestRun].

(* query/trust.rs 569-571: is_closure_target_kind *)
Definition is_closure_target_kind (record : GraphRecord) : bool :=
  match record with
  | Node n => bool_decide (n.(NodeRec.kind) ∈ CLOSURE_TARGET_KINDS)
  | _ => false
  end.

(* query/trust.rs 583-602: has_evidence_handle *)
Definition has_evidence_handle (record : GraphRecord) : bool :=
  match record with
  | Node n =>
      let nonempty (s : option string) :=
        match s with Some s => negb (s =s? "") | None => false end in
      let hashed (h : option OutputHandle.t) := nonempty (OutputHandle.hash <$> h) in
      nonempty n.(NodeRec.source_artifact_hash) || nonempty n.(NodeRec.source_artifact_path)
      || hashed n.(NodeRec.stdout_handle) || hashed n.(NodeRec.stderr_handle)
  | _ => false
  end.

(* query/trust.rs 611-613: is_verification_domain_kind *)
Definition is_verification_domain_kind (record : GraphRecord) : bool :=
  match record with
  | Node n => bool_decide (n.(NodeRec.kind) ∈ VERIFICATION_DOMAIN_KINDS)
  | _ => false
  end.

(** ** The records that back a claim *)

Abbreviation OutgoingEdgeIndex := (gmap string (list (EdgeLabel.t * string))).

(** The second filter of the tombstones is [liveness.deleted]. *)
(* query/memory_audit.rs 347-354: verification_support_indexes *)
Definition tombstoned_ids (liveness : Liveness.t) (records : list GraphRecord) : gset string :=
  list_to_set (filter (λ id, Liveness.deleted liveness id = true)
    (omap (λ r, match r with Tombstone t => Some t.(TombRec.deleted_id) | _ => None end)
       records)).

(* query/memory_audit.rs 357-373: verification_support_indexes *)
Definition live_edge (liveness : Liveness.t) (entry : nat * GraphRecord)
    : option (string * (EdgeLabel.t * string)) :=
  match entry.2 with
  | Edge e =>
      if Liveness.is_latest_edge_version liveness e.(EdgeRec.id) entry.1
         && negb (Liveness.deleted liveness e.(EdgeRec.id))
      then Some (e.(EdgeRec.source), (e.(EdgeRec.label), e.(EdgeRec.target)))
      else None
  | _ => None
  end.

(* query/memory_audit.rs 337-376: verification_support_indexes *)
Definition verification_support_indexes (records : list GraphRecord)
    : OutgoingEdgeIndex * gset string :=
  let liveness := Liveness.new records in
  (foldl (λ m entry,
     match live_edge liveness entry with
     | Some (key, edge) => <[key := default [] (m !! key) ++ [edge]]> m
     | None => m
     end) ∅ (imap pair records),
   tombstoned_ids liveness records).

(* query/memory_audit.rs 268-271: backing_verification_records *)
Definition BACKING_RELATIONS : list string := ["VALIDATED_BY"; "HAS_EVIDENCE"; "PRODUCED_EVIDENCE"].

(* query/memory_audit.rs 280-285: backing_verification_records *)
Definition BACKING_LABELS : list EdgeLabel.t :=
  [EdgeLabel.ValidatedBy; EdgeLabel.HasEvidence; EdgeLabel.ProducedEvidence].

Definition links_of (record : GraphRecord) : list EvidenceLink.t :=
  match record with Node n => default [] n.(NodeRec.evidence_links) | _ => [] end.

(** The lazy iterator, as the list it yields. *)
(* query/memory_audit.rs 252-292: backing_verification_records *)
Definition backing_verification_records (record : GraphRecord)
    (by_id : gmap string GraphRecord) (edges_from : OutgoingEdgeIndex)
    (tombstoned : gset string) : list GraphRecord :=
  let linked := omap EvidenceLink.target_record_id
    (filter (λ link, link.(EvidenceLink.relation) ∈ BACKING_RELATIONS) (links_of record)) in
  let pointed := snd <$> filter (λ edge : EdgeLabel.t * string, edge.1 ∈ BACKING_LABELS)
    (default [] (edges_from !! GraphRecord.id record)) in
  filter (λ target, default false (is_verification_kind <$> GraphRecord.node_kind_ref target) = true)
    (omap (λ id, by_id !! id) (filter (.∉ tombstoned) (linked ++ pointed))).

(* query/memory_audit.rs 306-315: is_verified_claim *)
Definition is_verified_claim (record : GraphRecord) (by_id : gmap string GraphRecord)
    (edges_from : OutgoingEdgeIndex) (tombstoned : gset string) : bool :=
  is_some (head (backing_verification_records record by_id edges_from tombstoned)).

(** ** The index *)

Module TrustIndex.
(* query/trust.rs 264-269: TrustIndex *)
Record t : Type := mk {
  by_id : gmap string GraphRecord;
  edges_from : OutgoingEdgeIndex;
  tombstoned : gset string;
  resolver : TemporalResolver.t
}.

(** A later node of an id replaces an earlier one. *)
(* query/trust.rs 281-285: TrustIndex::build *)
Definition nodes_by_id (records : list GraphRecord) : gmap string GraphRecord :=
  foldl (λ m r, match r with Node _ => <[GraphRecord.id r := r]> m | _ => m end) ∅ records.

(* query/trust.rs 279-292: TrustIndex::build *)
Definition build (records : list GraphRecord) : t :=
  let '(edges_from, tombstoned) := verification_support_indexes records in
  mk (nodes_by_id records) edges_from tombstoned (TemporalStatus.build records).

(* query/trust.rs 485-489: TrustIndex::cites_passing_verification *)
Definition cites_passing_verification (self : t) (record : GraphRecord) : bool :=
  existsb is_passing_verification
    (filter (λ backing, is_verification_domain_record backing = true)
       (backing_verification_records record self.(by_id) self.(edges_from) self.(tombstoned))).

Section Classify.
(** The iteration order of the resolver's hash sets. *)
Context (iter : string → gset string → list string).

(** [None] is fuel running out in the supersession search. *)
(* query/trust.rs 433-453: TrustIndex::agent_trust *)
Definition agent_trust (self : t) (fuel : nat) (record : GraphRecord) : option AgentTrust.t :=
  let id := GraphRecord.id record in
  let?o displaced :=
    match self.(by_id) !! id with
    | Some _ =>
        let?o s := resolve_status iter self.(resolver) fuel id in
        Some (bool_decide (s.1.1 ∈ ["superseded"; "contradicted"; "cycle"]))
    | None => Some false
    end in
  Some (if displaced : bool then AgentTrust.Contradicted
        else if cites_passing_verification self (default record (self.(by_id) !! id))
        then AgentTrust.Verified else AgentTrust.Unverified).

(* query/trust.rs 300-411: TrustIndex::classify *)
Definition classify (self : t) (fuel : nat) (record : GraphRecord) : option TrustClass.t :=
  match record with
  | Edge e =>
      Some (if EdgeLabel.is_codegraph_topology_label e.(EdgeRec.label)
            then TrustClass.SourceDerived else TrustClass.Other)
  | Tombstone _ => Some TrustClass.Other
  | Node n =>
      match n.(NodeRec.kind) with
      | NodeKind.Observation | NodeKind.Decision | NodeKind.Failure =>
          AgentTrust.into <$> agent_trust self fuel record
      | NodeKind.Repository | NodeKind.File | NodeKind.Module | NodeKind.Symbol
      | NodeKind.Import | NodeKind.Diagnostic | NodeKind.PanicRiskSite | NodeKind.DebtMarker
      | NodeKind.UnsafeSite | NodeKind.LintSuppression | NodeKind.DependencyDeclaration
      | NodeKind.ScanCoverage | NodeKind.HistoryReplayWindow | NodeKind.HistoryReplayTip
      | NodeKind.Commit | NodeKind.Change | NodeKind.SemanticDrift | NodeKind.EmbeddingModel
      | NodeKind.EmbeddingVector => Some TrustClass.SourceDerived
      | NodeKind.Verification | NodeKind.CommandEvidence | NodeKind.CommandRun
      | NodeKind.TestRun | NodeKind.CIStatus | NodeKind.BenchmarkRun
      | NodeKind.CoverageReport | NodeKind.ProofResult => Some TrustClass.VerificationEvidence
      | NodeKind.Task | NodeKind.AcceptanceCriterion | NodeKind.ExternalLink
      | NodeKind.Product | NodeKind.Project | NodeKind.Plan | NodeKind.GitHubIssue
      | NodeKind.PR | NodeKind.Review | NodeKind.ExternalIdentity
      | NodeKind.ReviewStateTransition | NodeKind.LocalTask => Some TrustClass.ProjectState
      | NodeKind.Artifact | NodeKind.PatchArtifact | NodeKind.Adr | NodeKind.Prd
      | NodeKind.PlanDoc | NodeKind.FileEdit => Some TrustClass.Artifact
      | NodeKind.LogSource | NodeKind.ErrorSignature | NodeKind.LogEvent
      | NodeKind.LogOccurrenceBucket => Some TrustClass.RuntimeObservation
      | NodeKind.Agent | NodeKind.AgentSession | NodeKind.AgentRun | NodeKind.AgentTurn
      | NodeKind.ToolCall | NodeKind.CostUsage | NodeKind.Retraction
      | NodeKind.PromoteCandidate | NodeKind.PromotionPrompt | NodeKind.PromotionDecision
      | NodeKind.Preference | NodeKind.WorkflowRule | NodeKind.NamingDecision
      | NodeKind.Constraint | NodeKind.RetirementReceipt
      | NodeKind.ReinstatementReceipt => Some TrustClass.Other
      end
  end.
End Classify.
End TrustIndex.

(** ** The specification *)

(** The kinds whose records are agent-authored claims. *)
Definition is_claim (record : GraphRecord) : bool :=
  match record with
  | Node n =>
      match n.(NodeRec.kind) with
      | NodeKind.Observation | NodeKind.Decision | NodeKind.Failure => true
      | _ => false
      end
  | _ => false
  end.

Section Spec.
Context (records : list GraphRecord).

(** [r] is the last node of the log with its id. *)
Definition last_version (id : string) (r : GraphRecord) : Prop :=
  ∃ i, records !! i = Some r ∧ last_index (is_node_write id) records i.

(** A current record of the log says that another one supersedes or contradicts [id]. *)
Definition displaced (id : string) : Prop :=
  ∃ y i r, current records i r ∧ (asserts_supersedes r id y ∨ asserts_contradiction r id y).

(** [r] cites [target] through a backing relation: by an evidence link, or by an edge of the
    log that is current. *)
Definition cites (r : GraphRecord) (target : string) : Prop :=
  (∃ link, link ∈ links_of r ∧ link.(EvidenceLink.relation) ∈ BACKING_RELATIONS
     ∧ link.(EvidenceLink.target_record_id) = Some target)
  ∨ ∃ i e, current records i (Edge e) ∧ e.(EdgeRec.source) = GraphRecord.id r
      ∧ e.(EdgeRec.target) = target ∧ e.(EdgeRec.label) ∈ BACKING_LABELS.

Definition retracted (id : string) : Prop :=
  id_state_of id records = Tombstoned ∧ ¬ Exists (temporal_write id) records.

(** The last version of [id] is a record of a verification kind. *)
Definition verification_record (id : string) (b : GraphRecord) : Prop :=
  last_version id b ∧ ¬ retracted id
  ∧ ∃ kind, GraphRecord.node_kind_ref b = Some kind ∧ is_verification_kind kind = true.

(** A passing run, minted by the verification domain, backs [r]. *)
Definition backed (r : GraphRecord) : Prop :=
  ∃ id b, cites r id ∧ verification_record id b
    ∧ is_verification_domain_record b = true
    ∧ verification_outcome b = VerificationOutcome.Passing.

(** What the label of a claim says. *)
Definition claim_class (record : GraphRecord) (c : TrustClass.t) : Prop :=
  let id := GraphRecord.id record in
  let in_slice := ∃ v, last_version id v in
  match c with
  | TrustClass.AgentContradicted => in_slice ∧ displaced id
  | TrustClass.AgentVerified => ¬ (in_slice ∧ displaced id)
      ∧ ∃ v, (last_version id v ∨ ¬ in_slice ∧ v = record) ∧ backed v
  | TrustClass.AgentUnverified => ¬ (in_slice ∧ displaced id)
      ∧ ∃ v, (last_version id v ∨ ¬ in_slice ∧ v = record) ∧ ¬ backed v
  | _ => False
  end.
End Spec.

(** ** Lemmas *)
Section Facts.
Context (records : list GraphRecord).

Lemma last_version_unique id r s : last_version records id r → last_version records id s → r = s.
Proof.
  intros (i & Hi & (x & Hx & Hpx) & Hl) (j & Hj & (y & Hy & Hpy) & Hl').
  destruct (Nat.lt_trichotomy i j) as [Hlt|[->|Hlt]]; [|congruence|].
  - by rewrite (Hl _ _ Hlt Hy) in Hpy.
  - by rewrite (Hl' _ _ Hlt Hx) in Hpx.
Qed.

Lemma nodes_by_id_spec id r :
  TrustIndex.nodes_by_id records !! id = Some r ↔ last_version records id r.
Proof.
  unfold last_version. induction records as [|x l IH] using rev_ind.
  { unfold TrustIndex.nodes_by_id. cbn. rewrite lookup_empty. naive_solver. }
  unfold TrustIndex.nodes_by_id in *. rewrite foldl_app. cbn [foldl].
  set (m := foldl _ ∅ l) in *. clearbody m.
  assert (∀ i r, (l ++ [x]) !! i = Some r ↔ l !! i = Some r ∨ i = length l ∧ r = x) as Happ.
  { intros i y. rewrite lookup_app_Some. split.
    - intros [?|[? Hy]]; [by left|right]. apply list_lookup_singleton_Some in Hy as [? ->].
      split; [lia|done].
    - intros [?|[-> ->]]; [by left|right]. by rewrite Nat.sub_diag. }
  destruct (is_node_write id x) eqn:Hx.
  - destruct x as [n|e|t]; [|done..]. cbn in Hx. apply String.eqb_eq in Hx as <-.
    change (GraphRecord.id (Node n)) with n.(NodeRec.id). rewrite lookup_insert_eq. split.
    + intros [= <-]. exists (length l). split; [by apply Happ; right|].
      split; [exists (Node n); split; [by apply Happ; right|]; cbn; apply String.eqb_refl|].
      intros j s Hj Hs. apply lookup_lt_Some in Hs. rewrite length_app in Hs. cbn in Hs. lia.
    + intros (i & Hi & (y & Hy & Hpy) & Hl). apply Happ in Hi as [Hi|[-> ->]]; [|done].
      exfalso. apply lookup_lt_Some in Hi. specialize (Hl (length l) (Node n) Hi).
      rewrite Happ in Hl. cbn in Hl. rewrite String.eqb_refl in Hl. naive_solver.
  - transitivity (m !! id = Some r).
    { destruct x as [n|e|t]; [|done..]. cbn in Hx. apply String.eqb_neq in Hx.
      change (GraphRecord.id (Node n)) with n.(NodeRec.id). by rewrite lookup_insert_ne. }
    rewrite IH. unfold last_index. setoid_rewrite Happ. split.
    + intros (i & Hi & (y & Hy & Hpy) & Hl). exists i. split; [by left|].
      split; [exists y; split; [by left|done]|]. intros j s Hj [Hs|[-> ->]]; eauto.
    + intros (i & Hi & (y & Hy & Hpy) & Hl).
      assert (l !! i = Some y) as Hy' by (destruct Hy as [?|[? ->]]; [done|congruence]).
      exists i. split; [destruct Hi as [?|[-> ->]]; [done|]|split; eauto].
      apply lookup_lt_Some in Hy'. lia.
Qed.

Lemma tombstoned_written id :
  id_state_of id records = Tombstoned →
  ∃ t, Tombstone t ∈ records ∧ t.(TombRec.deleted_id) = id.
Proof.
  unfold id_state_of. induction records as [|x l IH] using rev_ind; [done|].
  rewrite foldl_app. cbn [foldl]. setoid_rewrite elem_of_app.
  setoid_rewrite list_elem_of_singleton.
  destruct x as [n|e|t]; cbn [observe]; case_match eqn:Heq; try done;
    try (intros (t' & ? & ?)%IH; exists t'; split; [by left|done]).
  intros _. exists t. split; [by right|]. by apply String.eqb_eq.
Qed.

Lemma tombstoned_spec id :
  id ∈ tombstoned_ids (Liveness.new records) records ↔ retracted records id.
Proof.
  unfold tombstoned_ids, retracted. rewrite <-deleted_spec, elem_of_list_to_set, list_elem_of_filter.
  split; [naive_solver|]. intros Hd. split; [done|].
  pose proof Hd as [Hs _]%deleted_spec. apply tombstoned_written in Hs as (t & Ht & <-).
  apply list_elem_of_omap. by exists (Tombstone t).
Qed.

Lemma outgoing_spec source label target :
  (label, target) ∈ default [] ((verification_support_indexes records).1 !! source) ↔
  ∃ i e, current records i (Edge e) ∧ e.(EdgeRec.source) = source
    ∧ e.(EdgeRec.label) = label ∧ e.(EdgeRec.target) = target.
Proof.
  unfold verification_support_indexes. cbn [fst]. rewrite foldl_push. split.
  - intros ([i r] & Hi%elem_of_imap_pair & Hl). unfold live_edge in Hl. cbn [fst snd] in Hl.
    destruct r as [n|e|t]; try done.
    destruct (_ && _) eqn:Hc; [|done]. injection Hl as <- <- <-. exists i, e.
    split; [|done]. apply andb_true_iff in Hc as [Hl Hd].
    apply skipped_current; [done|]. cbn. apply negb_true_iff in Hd. by rewrite Hd, Hl.
  - intros (i & e & Hc & <- & <- & <-). exists (i, Edge e).
    pose proof (proj1 Hc) as Hi. split; [by apply elem_of_imap_pair|].
    apply (skipped_current _ _ _ Hi) in Hc. cbn in Hc. apply orb_false_iff in Hc as [Hd Hl].
    unfold live_edge. cbn [fst snd]. rewrite Hd. apply negb_false_iff in Hl. by rewrite Hl.
Qed.

Abbreviation index := (TrustIndex.build records).

(** The records that back a claim are those it cites. *)
Lemma backing_spec r b :
  b ∈ backing_verification_records r (TrustIndex.by_id index) (TrustIndex.edges_from index)
        (TrustIndex.tombstoned index)
  ↔ ∃ id, cites records r id ∧ verification_record records id b.
Proof.
  unfold backing_verification_records, cites, verification_record.
  change (TrustIndex.by_id index) with (TrustIndex.nodes_by_id records).
  change (TrustIndex.edges_from index) with (verification_support_indexes records).1.
  change (TrustIndex.tombstoned index) with (tombstoned_ids (Liveness.new records) records).
  rewrite list_elem_of_filter, list_elem_of_omap. setoid_rewrite list_elem_of_filter.
  setoid_rewrite tombstoned_spec. setoid_rewrite nodes_by_id_spec.
  setoid_rewrite elem_of_app. setoid_rewrite list_elem_of_omap. setoid_rewrite list_elem_of_fmap.
  setoid_rewrite list_elem_of_filter.
  assert (default false (is_verification_kind <$> GraphRecord.node_kind_ref b) = true ↔
    ∃ kind, GraphRecord.node_kind_ref b = Some kind ∧ is_verification_kind kind = true) as ->.
  { destruct (GraphRecord.node_kind_ref b); cbn; naive_solver. }
  split.
  - intros [Hk (id & [Hr Hc] & Hv)]. exists id. split; [|done].
    destruct Hc as [(link & [? ?] & ?)|([label t] & -> & Hlab & Ho%outgoing_spec)];
      [left; by exists link|right].
    destruct Ho as (i & e & ? & ? & <- & <-). by exists i, e.
  - intros (id & Hc & Hv & Hr & Hk). split; [done|]. exists id. split; [|done]. split; [done|].
    destruct Hc as [(link & ? & ? & ?)|(i & e & ? & ? & <- & ?)]; [left; by exists link|right].
    exists (e.(EdgeRec.label), e.(EdgeRec.target)). split; [done|]. split; [done|].
    apply outgoing_spec. by exists i, e.
Qed.

Lemma cites_passing_spec r : TrustIndex.cites_passing_verification index r = true ↔ backed records r.
Proof.
  unfold TrustIndex.cites_passing_verification, backed. rewrite existsb_exists.
  unfold is_passing_verification. setoid_rewrite bool_decide_eq_true.
  setoid_rewrite <-list_elem_of_In. setoid_rewrite list_elem_of_filter.
  setoid_rewrite backing_spec. naive_solver.
Qed.

(** The status of the resolver says whether something displaces the record. *)
Section Resolver.
Context (iter : string → gset string → list string).
Context (iter_perm : ∀ k s, iter k s ≡ₚ elements s).

Lemma status_displaced id :
  ∃ n b, (∀ k, ∃ s, resolve_status iter (TemporalStatus.build records) (n + k) id = Some s
      ∧ bool_decide (s.1.1 ∈ ["superseded"; "contradicted"; "cycle"]) = b)
    ∧ (b = true ↔ displaced records id).
Proof.
  set (self := TemporalStatus.build records).
  assert (displaced records id ↔ ¬ leaf self id ∨ default ∅ (self.(TemporalResolver.contradicts) !! id) ≠ ∅) as Hdis.
  { unfold displaced. transitivity (∃ y, linked self.(TemporalResolver.superseded_by) id y ∨ linked self.(TemporalResolver.contradicts) id y).
    - pose proof (build_extracts_live_relations records id) as H.
      split; [intros (y & i & r & Hc & Ha); exists y|intros (y & Ha)];
        destruct (H y) as (Hs & Hcon & _); [naive_solver|].
      destruct Ha as [(i & r & ? & ?)%Hs|(i & r & ? & ?)%Hcon]; exists y, i, r; auto.
    - unfold linked, leaf, succs_of. split.
      + intros (y & [Hy|Hy]); [left|right]; intros He; rewrite He in Hy;
          by apply elem_of_empty in Hy.
      + intros [Hne|Hne]; apply set_choose_L in Hne as [y Hy]; exists y; [by left|by right]. }
  destruct (supersession_heads_found iter iter_perm self id) as (n & r & Hr & Hs).
  exists n. unfold resolve_status. destruct r as [[hs|]|c]; cbn [heads_spec] in Hs.
  - exists true. split; [|rewrite Hdis; naive_solver]. intros k. rewrite Hr. by eexists.
  - destruct (self.(TemporalResolver.contradicts) !! id) as [ids|] eqn:Hc; cbn [default] in Hdis.
    + exists (negb (bool_decide (ids = ∅))). split.
      * intros k. rewrite Hr. cbn [mbind option_bind]. eexists. split; [done|].
        by destruct (bool_decide (ids = ∅)).
      * rewrite Hdis, negb_true_iff, bool_decide_eq_false. naive_solver.
    + exists false. split; [intros k; rewrite Hr; by eexists|]. rewrite Hdis. cbn. naive_solver.
  - exists true. split; [intros k; rewrite Hr; by eexists|]. rewrite Hdis. split; [|done].
    intros _. left. intros Hl. by apply (reachable_cycle_not_free self id c), leaf_cycle_free.
Qed.
End Resolver.
End Facts.

(** ** Properties *)
Section Properties.
Context (iter : string → gset string → list string).
Context (iter_perm : ∀ k s, iter k s ≡ₚ elements s).
Context (records : list GraphRecord).

Abbreviation index := (TrustIndex.build records).
Abbreviation classify := (TrustIndex.classify iter index).

(** The label [agent_trust] gives a claim. *)
Lemma agent_trust_spec record :
  ∃ n c, (∀ k, TrustIndex.agent_trust iter index (n + k) record = Some c)
    ∧ claim_class records record (AgentTrust.into c).
Proof.
  set (id := GraphRecord.id record). unfold TrustIndex.agent_trust. fold id.
  change (TrustIndex.by_id index) with (TrustIndex.nodes_by_id records).
  change (TrustIndex.resolver index) with (TemporalStatus.build records).
  unfold claim_class. fold id. pose proof (nodes_by_id_spec records id) as Hlast.
  destruct (TrustIndex.nodes_by_id records !! id) as [v|] eqn:Hv; cbn [default].
  - assert (last_version records id v) as Hv' by (by apply Hlast).
    destruct (status_displaced records iter iter_perm id) as (n & b & Hk & Hb).
    pose proof (cites_passing_spec records v) as Hc. exists n. destruct b.
    + exists AgentTrust.Contradicted. split.
      * intros k. destruct (Hk k) as (s & -> & Hs). cbn [mbind option_bind]. by rewrite Hs.
      * split; [by exists v|by apply Hb].
    + exists (if TrustIndex.cites_passing_verification index v then AgentTrust.Verified
              else AgentTrust.Unverified). split.
      * intros k. destruct (Hk k) as (s & -> & Hs). cbn [mbind option_bind from_option]. by rewrite Hs.
      * assert (¬ ((∃ v, last_version records id v) ∧ displaced records id)) as Hn.
        { intros [_ Hd%Hb]. done. }
        destruct (TrustIndex.cites_passing_verification index v); (split; [done|]);
          exists v; (split; [by left|]); naive_solver.
  - assert (¬ ∃ v, last_version records id v) as Hn by (intros [v Hv']; by apply Hlast in Hv').
    pose proof (cites_passing_spec records record) as Hc.
    exists 0, (if TrustIndex.cites_passing_verification index record then AgentTrust.Verified
               else AgentTrust.Unverified). split; [done|].
    destruct (TrustIndex.cites_passing_verification index record);
      (split; [naive_solver|]); exists record; (split; [by right|]); naive_solver.
Qed.

(** C14: [classify] answers on every log, for every record and iteration order of the hash
    sets. A claim of an agent (an observation, a decision, a failure) gets exactly the agent
    label its log justifies: contradicted when it is in the log and a current record says
    that it is superseded or contradicted, verified when it is not and its last version
    cites a record that is not retracted, was minted by the verification domain and passed,
    and unverified otherwise. No other record ever gets an agent label; one is verification
    evidence exactly when its kind is a verification kind. *)
Theorem trust_exact (record : GraphRecord) :
  ∃ n c, (∀ k, classify (n + k) record = Some c)
    ∧ if is_claim record then claim_class records record c
      else TrustClass.is_agent_authored c = false
        ∧ (c = TrustClass.VerificationEvidence ↔
           ∃ kind, GraphRecord.node_kind_ref record = Some kind ∧ is_verification_kind kind = true).
Proof.
  destruct (is_claim record) eqn:Hclaim.
  - destruct (agent_trust_spec record) as (n & c & Hk & Hc). exists n, (AgentTrust.into c).
    split; [|done]. intros k. destruct record as [nd|e|t]; [|done..]. cbn in Hclaim |- *.
    destruct nd.(NodeRec.kind); try done; by rewrite Hk.
  - exists 0. destruct record as [nd|e|t]; cbn in Hclaim |- *.
    + destruct nd.(NodeRec.kind); try done; eexists; (split; [done|]); (split; [done|]);
        split; try done; by (eexists || intros (? & [= <-] & ?)).
    + destruct (EdgeLabel.is_codegraph_topology_label _); eexists; (split; [done|]);
        (split; [done|]); (split; [done|]); by intros (? & ? & _).
    + eexists. split; [done|]. split; [done|]. split; [done|]. by intros (? & ? & _).
Qed.
(** More fuel never changes a label. *)
Lemma classify_mono n k record c :
  classify n record = Some c → classify (n + k) record = Some c.
Proof.
  destruct record as [nd|e|t]; [|done..]. unfold TrustIndex.classify.
  assert (∀ a, TrustIndex.agent_trust iter index n (Node nd) = Some a →
    TrustIndex.agent_trust iter index (n + k) (Node nd) = Some a) as Hmono.
  { intros a. unfold TrustIndex.agent_trust, resolve_status.
    destruct (TrustIndex.by_id index !! _); [|done].
    destruct (resolve_supersession_heads iter _ n _) as [r|] eqn:Hr; [|done].
    by rewrite (resolve_heads_mono _ _ _ k _ _ Hr). }
  destruct nd.(NodeRec.kind); try done;
    (destruct (TrustIndex.agent_trust iter index n (Node nd)) as [a|]; [|done]);
    by rewrite (Hmono a eq_refl).
Qed.

(** A claim is only ever labelled [agent_verified] on the strength of another record: one
    it cites through a backing relation, that is the last version of its id, is not
    retracted, has a verification kind, an id of the form [verification:v<digits>:...] and a
    passing outcome. So the evidence an agent writes under its own domain never verifies a
    claim, and a verified claim always passes the [--verified-only] filter. *)
Theorem verified_by_verification_domain (n : nat) (record : GraphRecord) :
  classify n record = Some TrustClass.AgentVerified →
  ∃ claim id b, GraphRecord.id claim = GraphRecord.id record
    ∧ cites records claim id ∧ verification_record records id b ∧ GraphRecord.id b = id
    ∧ verification_outcome b = VerificationOutcome.Passing
    ∧ (∃ digits rest, id = VERIFICATION_ID_PREFIX +:+ digits +:+ ":" +:+ rest
         ∧ digits ≠ "" ∧ str_all is_ascii_digit digits = true)
    ∧ is_verified_claim claim (TrustIndex.by_id index) (TrustIndex.edges_from index)
        (TrustIndex.tombstoned index) = true.
Proof.
  intros Hn.
  assert (claim_class records record TrustClass.AgentVerified) as [_ (v & Hv & Hb)].
  { destruct (is_claim record) eqn:Hclaim.
    - destruct (agent_trust_spec record) as (m & a & Hk & Hc).
      apply (classify_mono n m) in Hn. rewrite Nat.add_comm in Hn.
      destruct record as [nd|e|t]; [|done..]. cbn in Hclaim. unfold TrustIndex.classify in Hn.
      specialize (Hk n). destruct nd.(NodeRec.kind); try done; rewrite Hk in Hn;
        injection Hn as Hn; by rewrite Hn in Hc.
    - destruct record as [nd|e|t]; cbn in Hclaim, Hn; [by destruct nd.(NodeRec.kind)| |done].
      by destruct (EdgeLabel.is_codegraph_topology_label _). }
  destruct Hb as (id & b & Hcites & Hver & Hdom & Hpass). exists v, id, b.
  assert (∀ i r, last_version records i r → GraphRecord.id r = i) as Hid.
  { intros i r (j & Hj & (y & Hy & Hw) & _). assert (y = r) as -> by congruence.
    destruct r as [nd|e|t]; [|done..]. by apply String.eqb_eq. }
  assert (GraphRecord.id b = id) as Hbid by by apply Hid, Hver.
  split; [destruct Hv as [Hv|[_ ->]]; [by apply Hid|done]|].
  split_and!; [done..| |].
  - unfold is_verification_domain_record in Hdom. rewrite Hbid in Hdom.
    destruct (strip_prefix _ id) as [s|] eqn:Hs; [|done]. cbn [mbind option_bind] in Hdom.
    destruct (split_once ":" s) as [[d r]|] eqn:Hsp; [|done].
    apply andb_true_iff in Hdom as [Hne Hd]. exists d, r.
    apply strip_prefix_Some in Hs as ->. apply split_once_Some in Hsp as ->.
    split_and!; [done| |done]. intros ->. done.
  - unfold is_verified_claim.
    assert (b ∈ backing_verification_records v (TrustIndex.by_id index) (TrustIndex.edges_from index)
      (TrustIndex.tombstoned index)) as Hin by (apply backing_spec; by exists id).
    destruct (backing_verification_records _ _ _ _); [by apply elem_of_nil in Hin|done].
Qed.
End Properties.

(** ** A concrete log *)
Module TrustDemo.
Definition run (id : string) (kind : NodeKind.t) (status : option string) (code : option Z)
    : GraphRecord :=
  GraphRecord.on_node (λ n, n{{ NodeRec.status := status; NodeRec.exit_code := code }})
    (GraphRecord.node id kind None None None "").
Definition claim (id target : string) : GraphRecord :=
  GraphRecord.with_evidence_links
    [EvidenceLink.mk (Some target) "verification" "VALIDATED_BY" "high" None None None None]
    (GraphRecord.node id NodeKind.Observation None None None "").
(** [o1] cites a passing run, [o2] a command recorded by the agent itself, [o3] a run that
    failed; [o4] is superseded by [o1]. *)
Definition log : list GraphRecord :=
  [run "verification:v1:t" NodeKind.TestRun (Some " PASS ") None;
   run "agent_memory:v1:c" NodeKind.CommandEvidence None (Some 0%Z);
   run "verification:v1:f" NodeKind.TestRun (Some "cancelled") (Some 137%Z);
   claim "o1" "verification:v1:t"; claim "o2" "agent_memory:v1:c";
   claim "o3" "verification:v1:f"; claim "o4" "verification:v1:t";
   GraphRecord.edge (λ s, s) EdgeLabel.Supersedes "o1" "o4" None ""].
Definition label (i : nat) : option TrustClass.t :=
  log !! i ≫= TrustIndex.classify (λ _ S, elements S) (TrustIndex.build log) 20.
End TrustDemo.

Example trust_labels :
  TrustDemo.label <$> [0; 1; 3; 4; 5; 6; 7]
  = Some <$> [TrustClass.VerificationEvidence; TrustClass.VerificationEvidence;
      TrustClass.AgentVerified; TrustClass.AgentUnverified; TrustClass.AgentUnverified;
      TrustClass.AgentContradicted; TrustClass.Other].
Proof. vm_compute. reflexivity. Qed.

Example trust_outcomes :
  omap (λ i, verification_outcome <$> TrustDemo.log !! i) [0; 1; 2; 3]
  = [VerificationOutcome.Passing; VerificationOutcome.Passing; VerificationOutcome.Failing;
     VerificationOutcome.Inconclusive].
Proof. vm_compute. reflexivity. Qed.

Lemma trust_exact_witness :
  ∃ n c, (∀ k, TrustIndex.classify (λ _ S, elements S) (TrustIndex.build TrustDemo.log) (n + k)
                 (TrustDemo.claim "o1" "verification:v1:t") = Some c)
    ∧ claim_class TrustDemo.log (TrustDemo.claim "o1" "verification:v1:t") c.
Proof.
  exact (trust_exact (λ _ S, elements S) (λ _ _, reflexivity _) TrustDemo.log
    (TrustDemo.claim "o1" "verification:v1:t")).
Defined.

Lemma verified_by_verification_domain_witness :
  ∃ claim id, GraphRecord.id claim = "o1" ∧ cites TrustDemo.log claim id
    ∧ ∃ digits rest, id = VERIFICATION_ID_PREFIX +:+ digits +:+ ":" +:+ rest.
Proof.
  destruct (verified_by_verification_domain (λ _ S, elements S) (λ _ _, reflexivity _) TrustDemo.log 20
    (TrustDemo.claim "o1" "verification:v1:t")) as (cl & id & b & Hid & Hc & _ & _ & _ & (d & r & Hr & _) & _).
  - vm_compute. reflexivity.
  - exists cl, id. split; [exact Hid|]. split; [exact Hc|]. exists d, r. exact Hr.
Defined.
