(* ===== verification/LevelSearch.v ===== *)
(** * Level-synchronized breadth-first search

    What the breadth-first lanes of [src/src/query/] share: the live records by id,
    the deduplication of a sorted edge list, the distance of a record from an anchor
    and the choice of the least discovery pointer of a level. The lanes themselves are
    in the files that require this one. *)
From S2P Require Import Prelude RustStr Ir IrOps Liveness.

(** ** Live records by id *)

(** A later record of an id replaces an earlier one. *)
(* query/path.rs 127-133: call_path *)
Definition live_by_id (records : list GraphRecord) : gmap string GraphRecord :=
  foldl (λ m r, if Liveness.deleted (Liveness.new records) (GraphRecord.id r) then m
                else <[GraphRecord.id r := r]> m) ∅ records.

Section LiveById.
Context (records : list GraphRecord).
Let step (m : gmap string GraphRecord) (r : GraphRecord) : gmap string GraphRecord :=
  if Liveness.deleted (Liveness.new records) (GraphRecord.id r) then m
  else <[GraphRecord.id r := r]> m.

Lemma live_by_id_Some id r :
  live_by_id records !! id = Some r → r ∈ records ∧ GraphRecord.id r = id
    ∧ Liveness.deleted (Liveness.new records) id = false.
Proof.
  unfold live_by_id. fold step.
  assert (∀ l (m : gmap string GraphRecord) (P : string → GraphRecord → Prop),
    (∀ i r, m !! i = Some r → P i r) →
    (∀ r, r ∈ l → Liveness.deleted (Liveness.new records) (GraphRecord.id r) = false →
       P (GraphRecord.id r) r) →
    ∀ i r, foldl step m l !! i = Some r → P i r) as Hgen.
  { clear. induction l as [|x l IH]; intros m P Hm Hl; simpl; [done|]. apply IH.
    - intros i r. unfold step. destruct (Liveness.deleted _ _) eqn:Hd; [by apply Hm|].
      rewrite lookup_insert_Some. intros [[<- <-]|[? ?]]; [apply Hl; [by left|done]|by apply Hm].
    - intros r Hr. apply Hl. by right. }
  intros H. apply (Hgen records ∅ (λ id r, r ∈ records ∧ GraphRecord.id r = id
    ∧ Liveness.deleted (Liveness.new records) id = false)) in H; [done| |done].
  intros i r'. by rewrite lookup_empty.
Qed.

Lemma live_by_id_id id r : live_by_id records !! id = Some r → GraphRecord.id r = id.
Proof. by intros (_ & ? & _)%live_by_id_Some. Qed.

Lemma live_by_id_is_Some r :
  r ∈ records → Liveness.deleted (Liveness.new records) (GraphRecord.id r) = false →
  is_Some (live_by_id records !! GraphRecord.id r).
Proof.
  intros Hr Hd. unfold live_by_id. fold step.
  assert (∀ l (m : gmap string GraphRecord),
    (r ∈ l ∨ is_Some (m !! GraphRecord.id r)) →
    is_Some (foldl step m l !! GraphRecord.id r)) as Hgen; [|apply Hgen; by left].
  clear Hr. induction l as [|x l IH]; intros m Hm; simpl.
  { destruct Hm as [?%elem_of_nil|]; done. }
  apply IH. unfold step. destruct Hm as [[->|]%elem_of_cons|Hm]; [|by left|].
  - right. rewrite Hd. by rewrite lookup_insert_eq.
  - right. destruct (Liveness.deleted _ (GraphRecord.id x)); [done|].
    destruct (decide (GraphRecord.id x = GraphRecord.id r)) as [->|Hne].
    + by rewrite lookup_insert_eq.
    + by rewrite lookup_insert_ne.
Qed.
End LiveById.

(** ** Sorted edge lists *)

(** [Vec::dedup_by_key]: the first element of every run of equal keys. *)
Fixpoint dedup_by_key {A K} `{EqDecision K} (key : A → K) (l : list A) : list A :=
  match l with
  | [] => []
  | x :: l' =>
      x :: match dedup_by_key key l' with
           | [] => []
           | y :: l'' => if bool_decide (key x = key y) then l'' else y :: l''
           end
  end.

Section Dedup.
Context {A K} `{EqDecision K} (key : A → K).

Lemma dedup_by_key_elem l x : x ∈ dedup_by_key key l → x ∈ l.
Proof.
  revert x. induction l as [|y l IH]; intros x; simpl; [done|].
  rewrite !elem_of_cons. intros [->|Hx]; [by left|]. right. apply IH.
  destruct (dedup_by_key key l) as [|z k]; [done|]. case_bool_decide; [by right|done].
Qed.

Lemma dedup_by_key_key l x :
  x ∈ l → ∃ y, y ∈ dedup_by_key key l ∧ key y = key x.
Proof.
  induction 1 as [x l|x y l _ (z & Hz & Hk)]; simpl.
  - exists x. split; [by left|done].
  - destruct (dedup_by_key key l) as [|w k]; [by apply elem_of_nil in Hz|].
    case_bool_decide as Hw; [|exists z; split; [by right|done]].
    apply elem_of_cons in Hz as [->|Hz]; [exists y|exists z]; (split; [|congruence]).
    + by left.
    + by right.
Qed.

(** Removing the repetitions of a sorted list leaves it strictly sorted. *)
Lemma dedup_by_key_strict (cmp : A → A → comparison) `{!CmpOrder cmp} l :
  (∀ a b, cmp a b = Eq → key a = key b) → StronglySorted (cmp_le cmp) l →
  StronglySorted (λ a b, cmp a b = Lt) (dedup_by_key key l).
Proof.
  intros Heq. induction 1 as [|x l _ IH Hx]; cbn [dedup_by_key]; [constructor|].
  pose proof (dedup_by_key_elem l) as Hsub.
  destruct (dedup_by_key key l) as [|y d]; [by repeat constructor|].
  apply StronglySorted_inv in IH as [Hd Hy].
  assert (cmp_le cmp x y) as Hxy by (apply (proj1 (Forall_forall _ _) Hx), Hsub; by left).
  assert (Forall (λ z, cmp x z = Lt) d) as Hxd.
  { eapply Forall_impl; [exact Hy|]. intros z. by apply cmp_le_Lt. }
  case_bool_decide as Hk; [by constructor|]. repeat constructor; [done..| |done].
  unfold cmp_le in Hxy. destruct (cmp x y) eqn:E; [|done..]. by destruct Hk; apply Heq.
Qed.
End Dedup.

(** ** Distance *)
Section Distance.
Context {A : Type} `{EqDecision A} (R : relation A).

(** [x] is exactly [k] steps away from [from]. *)
Definition at_distance (from : A) (k : nat) (x : A) : Prop :=
  bsteps R k from x ∧ ∀ j, j < k → ¬ bsteps R j from x.

Lemma bsteps_0 x y : bsteps R 0 x y ↔ x = y.
Proof. split; [by inversion 1|intros ->; constructor]. Qed.

Lemma bsteps_S_iff k x y :
  bsteps R (S k) x y ↔ bsteps R k x y ∨ ∃ z, bsteps R k x z ∧ R z y.
Proof.
  split.
  - revert x. induction k as [|k IH]; intros x; inversion_clear 1 as [|? ? z ? Hz Hb].
    + left. constructor.
    + apply bsteps_0 in Hb as ->. right. exists x. split; [constructor|done].
    + left. constructor.
    + apply IH in Hb as [Hb|(w & Hb & Hw)]; [left|right; exists w; split; [|done]];
        by eapply bsteps_l.
  - intros [H|(z & Hz & Hy)]; [by apply bsteps_S|by eapply bsteps_r].
Qed.

(** A step relation with finitely many predecessors has decidable distances. *)
Lemma bsteps_dec (preds : A → list A) from :
  (∀ x y, R x y ↔ x ∈ preds y) → ∀ k x, Decision (bsteps R k from x).
Proof.
  intros Hp k. induction k as [|k IH]; intros x.
  { destruct (decide (from = x)) as [Hx|Hx]; [left|right]; by rewrite bsteps_0. }
  destruct (IH x) as [Hx|Hx]; [left; by apply bsteps_S|].
  destruct (decide (Exists (bsteps R k from) (preds x))) as [He|He].
  - left. apply bsteps_S_iff. right. apply Exists_exists in He as (z & Hz & Hb).
    exists z. split; [done|]. by apply Hp.
  - right. intros [?|(z & Hz & HR)]%bsteps_S_iff; [done|]. apply He, Exists_exists.
    exists z. split; [by apply Hp|done].
Qed.

Context (from : A).
Abbreviation dist := (at_distance from).

Lemma at_distance_0 x : dist 0 x ↔ x = from.
Proof.
  unfold at_distance. rewrite bsteps_0. split; [by intros [-> _]|intros ->; split; [done|lia]].
Qed.

Lemma at_distance_S k x : dist (S k) x ↔ bsteps R (S k) from x ∧ ¬ bsteps R k from x.
Proof.
  unfold at_distance. split; intros [H1 H2]; (split; [done|]); [by apply H2; lia|].
  intros j Hj Hb. apply H2. by apply (bsteps_weaken j); [lia|].
Qed.

Lemma at_distance_unique j k x : dist j x → dist k x → j = k.
Proof.
  intros [H1 H2] [H3 H4]. destruct (decide (j < k)) as [Hl|Hl]; [by destruct (H4 j)|].
  destruct (decide (k < j)) as [Hr|Hr]; [by destruct (H2 k)|lia].
Qed.

Lemma bsteps_at_distance (reach_dec : ∀ k x, Decision (bsteps R k from x)) k x :
  bsteps R k from x → ∃ j, j ≤ k ∧ dist j x.
Proof.
  induction k as [|k IH]; intros Hb.
  - exists 0. split; [done|]. split; [done|]. intros; lia.
  - destruct (reach_dec k x) as [Hk|Hk].
    + destruct (IH Hk) as (j & ? & ?). exists j. split; [lia|done].
    + exists (S k). split; [done|]. by apply at_distance_S.
Qed.

(** The records one step beyond the distance [k]. *)
Lemma at_distance_S_iff k x :
  dist (S k) x ↔ ¬ bsteps R k from x ∧ ∃ y, dist k y ∧ R y x.
Proof.
  rewrite at_distance_S, bsteps_S_iff. split.
  - intros [[?|(y & Hy & Hx)] Hn]; [done|]. split; [done|]. exists y. split; [|done].
    split; [done|]. intros j Hj Hb. apply Hn.
    apply (bsteps_weaken (S j)); [lia|]. by eapply bsteps_r.
  - intros [Hn (y & [Hy _] & Hx)]. eauto.
Qed.

(** Past an empty level every level is empty. *)
Lemma empty_level k j : (∀ x, ¬ dist k x) → k ≤ j → ∀ x, ¬ dist j x.
Proof.
  intros Hk. induction 1 as [|j _ IH]; [done|]. intros x (_ & y & Hy & _)%at_distance_S_iff.
  by apply (IH y).
Qed.
End Distance.

(** ** What lies beyond a bound *)
Section Beyond.
Context (R : relation string) (anchor : string).
Abbreviation dist := (at_distance R anchor).

(** The visited set and the next level. *)
Lemma visited_next k (vis L : gset string) :
  (∀ x, x ∈ vis ↔ bsteps R k anchor x) → (∀ x, x ∈ L ↔ dist (S k) x) →
  ∀ x, x ∈ vis ∪ L ↔ bsteps R (S k) anchor x.
Proof.
  intros Hv HL x. rewrite elem_of_union, HL, at_distance_S, <-Hv.
  destruct (decide (x ∈ vis)) as [Hx|]; [|naive_solver].
  split; [|by left]. intros _. by apply bsteps_S, Hv.
Qed.

(** A row of a truncation counts the records at one depth. *)
Context {T : Type} (depth count : T → nat).

(** What lies beyond the bound [c], level by level, up to the first empty one. *)
Definition levels_beyond (c : nat) (dl : list T) : Prop :=
  (∀ i r, dl !! i = Some r → depth r = c + S i ∧ 0 < count r
     ∧ ∃ L : gset string, (∀ x, x ∈ L ↔ dist (c + S i) x) ∧ size L = count r)
  ∧ ∀ x, ¬ dist (c + S (length dl)) x.

Lemma levels_beyond_cons c (L : gset string) r dl :
  depth r = S c → count r = size L →
  (∀ x, x ∈ L ↔ dist (S c) x) → L ≠ ∅ → levels_beyond (S c) dl →
  levels_beyond c (r :: dl).
Proof.
  intros Hd Hc HL Hne [Hdl Hend]. split.
  - intros [|i] r'; cbn [lookup list_lookup].
    + intros [= <-]. rewrite Hd, Hc. split; [lia|]. split.
      * assert (size L ≠ 0); [|lia]. intros Hz%size_empty_inv. set_solver.
      * exists L. split; [|done]. intros x. by replace (c + 1) with (S c) by lia.
    + intros Hr. replace (c + S (S i)) with (S c + S i) by lia. by apply Hdl.
  - intros x. cbn [length]. replace (c + S (S (length dl))) with (S c + S (length dl)) by lia.
    apply Hend.
Qed.
End Beyond.

(** ** The least pointer of a level *)
Section OffersBy.
Context {P : Type} (cmp : P → P → comparison) `{!CmpOrder cmp}.

(** Offers the pointer [o.2] for the record [o.1]: an unvisited record keeps its first least
    pointer. *)
Definition offer_by (visited : gset string) (acc : gmap string P) (o : string * P)
    : gmap string P :=
  if bool_decide (o.1 ∈ visited) then acc
  else
    match acc !! o.1 with
    | None => <[o.1 := o.2]> acc
    | Some prev => if bool_decide (cmp o.2 prev = Lt) then <[o.1 := o.2]> acc else acc
    end.

(** The pointer [q] is the best of the offers [l] for [t], an unvisited record. *)
Definition best_by (visited : gset string) (l : list (string * P)) (t : string) (q : P) : Prop :=
  (t ∉ visited) ∧ (t, q) ∈ l ∧ ∀ q', (t, q') ∈ l → cmp_le cmp q q'.

Lemma foldl_offer_by visited l :
  let D := foldl (offer_by visited) ∅ l in
  (∀ t q, D !! t = Some q → best_by visited l t q)
  ∧ (∀ t q, (t, q) ∈ l → t ∉ visited → is_Some (D !! t)).
Proof.
  induction l as [|[t q] l [IH1 IH2]] using rev_ind; cbn zeta.
  { split; [intros t q; simpl; by rewrite lookup_empty|by intros ?? ?%elem_of_nil]. }
  rewrite foldl_app. cbn [foldl]. set (D := foldl _ _ l) in *. unfold offer_by. cbn [fst snd].
  assert (∀ t' q', best_by visited l t' q' → (t' = t → cmp_le cmp q' q) →
    best_by visited (l ++ [(t, q)]) t' q') as Hkeep.
  { intros t' q' (Hv & Hin & Hmin) Hle. split_and!; [done|set_solver|].
    intros r. rewrite elem_of_app, list_elem_of_singleton. intros [?|[= -> ->]]; auto. }
  assert (t ∉ visited → (∀ q', D !! t = Some q' → cmp_le cmp q q') →
    best_by visited (l ++ [(t, q)]) t q) as Hnew.
  { intros Hv Hle. split_and!; [done|set_solver|]. intros r.
    rewrite elem_of_app, list_elem_of_singleton. intros [Hin|[= ->]].
    - destruct (IH2 _ _ Hin Hv) as [q' Hq']. etrans; [by apply Hle|].
      by apply (IH1 _ _ Hq').
    - by destruct (total (cmp_le cmp) q q). }
  case_bool_decide as Hv.
  { split.
    - intros t' q' Hq. apply Hkeep; [by apply IH1|]. intros ->.
      by destruct (IH1 _ _ Hq) as [? _].
    - intros t' q'. rewrite elem_of_app, list_elem_of_singleton.
      intros [?|[= -> ->]] ?; [by eapply IH2|done]. }
  assert (∀ D' : gmap string P, is_Some (D' !! t) →
    (∀ t', t' ≠ t → D' !! t' = D !! t') →
    ∀ t' q', (t', q') ∈ l ++ [(t, q)] → t' ∉ visited → is_Some (D' !! t')) as Hsome.
  { intros D' Ht Hne t' q' Hin Hv'. destruct (decide (t' = t)) as [->|Hd]; [done|].
    rewrite Hne by done. apply elem_of_app in Hin as [Hin|Hin]; [by eapply IH2|].
    apply list_elem_of_singleton in Hin. congruence. }
  assert ((∀ q', D !! t = Some q' → cmp_le cmp q q') →
    (∀ t' q', <[t:=q]> D !! t' = Some q' → best_by visited (l ++ [(t, q)]) t' q')
    ∧ (∀ t' q', (t', q') ∈ l ++ [(t, q)] → t' ∉ visited → is_Some (<[t:=q]> D !! t')))
    as Hins.
  { intros Hle. split.
    - intros t' q'. rewrite lookup_insert_Some. intros [[<- <-]|[Hne Hq]]; [by apply Hnew|].
      apply Hkeep; [by apply IH1|done].
    - apply Hsome; [by rewrite lookup_insert_eq|]. intros t' Hne.
      by rewrite lookup_insert_ne. }
  destruct (D !! t) as [prev|] eqn:Hprev; [case_bool_decide as Hlt|]; [|split|].
  - apply Hins. intros q' [= <-]. unfold cmp_le; by rewrite Hlt.
  - intros t' q' Hq. apply Hkeep; [by apply IH1|]. intros ->. simplify_eq.
    by apply cmp_not_Lt.
  - apply Hsome; [by rewrite Hprev|done].
  - by apply Hins.
Qed.
End OffersBy.

(** The lanes that compare pointers by a record id and then an edge id. *)
Section Offers.
Context {P : Type} (pid eid : P → string).

#[local] Instance lex_cmp_order : CmpOrder (lex_cmp pid eid).
Proof. apply (cmp_then_order (cmp_on pid String.compare) (cmp_on eid String.compare)); apply _. Qed.

Definition offer : gset string → gmap string P → string * P → gmap string P :=
  offer_by (lex_cmp pid eid).
Definition best_offer (visited : gset string) (l : list (string * P)) (t : string) (q : P)
    : Prop :=
  (t ∉ visited) ∧ (t, q) ∈ l ∧ ∀ q', (t, q') ∈ l → lex_le pid eid q q'.

Lemma foldl_offer visited l :
  let D := foldl (offer visited) ∅ l in
  (∀ t q, D !! t = Some q → best_offer visited l t q)
  ∧ (∀ t q, (t, q) ∈ l → t ∉ visited → is_Some (D !! t)).
Proof.
  destruct (foldl_offer_by (lex_cmp pid eid) visited l) as [H1 H2]. split; [|exact H2].
  intros t q (Hv & Hin & Hmin)%H1. split_and!; [done..|]. intros q' Hq'.
  by apply lex_cmp_le, Hmin.
Qed.
End Offers.

(** A nested fold over lists of lists is a fold over the concatenation. *)
Lemma foldl_concat {A B C} (f : A → B → C → C) (g : A → list B) (l : list A) (c : C) :
  foldl (λ acc a, foldl (λ acc b, f a b acc) acc (g a)) c l
  = foldl (λ acc ab, f ab.1 ab.2 acc) c (l ≫= λ a, pair a <$> g a).
Proof.
  revert c. induction l as [|a l IH]; intros c; csimpl; [done|].
  rewrite foldl_app, IH. f_equal. generalize (g a). clear. intros k.
  revert c. induction k as [|b k IH]; intros c; csimpl; [done|]. by rewrite IH.
Qed.
