(* ===== verification/WorkList.v ===== *)
(** * Walks with a work list

    The loop [while let Some(x) = work.pop() { if seen.insert(x) { work.extend(next(x)) } }] of
    the lanes that follow commit links, over a stack or a queue: how the successors enter the
    work list is a parameter with its laws. [drain_spec] shows that the loop ends and collects
    exactly what is reachable. *)
From S2P Require Import Prelude.

(** How a walk adds the successors [kids] of a record to its work list, knowing what was seen. *)
Class PushLaws (push : gset string → list string → list string → list string) : Prop := {
  push_sound seen work kids y : y ∈ push seen work kids → y ∈ work ∨ y ∈ kids;
  push_work seen work kids y : y ∈ work → y ∈ push seen work kids;
  push_kids seen work kids y : y ∈ kids → y ∈ push seen work kids ∨ y ∈ seen;
  push_length seen work kids : length (push seen work kids) ≤ length work + length kids
}.

(** A stack whose top is the head of the list: [Vec::extend] and [Vec::pop]. *)
Definition push_stack (seen : gset string) (work kids : list string) : list string :=
  reverse kids ++ work.
(** A queue that skips what was seen already: [push_back] and [pop_front]. *)
Definition push_queue (seen : gset string) (work kids : list string) : list string :=
  work ++ filter (λ y, y ∉ seen) kids.

#[export] Instance push_stack_laws : PushLaws push_stack.
Proof.
  unfold push_stack. split; intros.
  - set_solver.
  - set_solver.
  - set_solver.
  - rewrite length_app, length_reverse. lia.
Qed.

#[export] Instance push_queue_laws : PushLaws push_queue.
Proof.
  unfold push_queue. split; intros seen work kids.
  - intros y. rewrite elem_of_app, list_elem_of_filter. naive_solver.
  - set_solver.
  - intros y Hy. destruct (decide (y ∈ seen)); [by right|left].
    apply elem_of_app. right. by apply list_elem_of_filter.
  - rewrite length_app. pose proof (length_filter (λ y, y ∉ seen) kids). lia.
Qed.

Section Drain.
Context (push : gset string → list string → list string → list string).
Context (next : gmap string (list string)).

(** [None] is the end of the fuel. *)
Fixpoint drain (fuel : nat) (seen : gset string) (work : list string) : option (gset string) :=
  match work with
  | [] => Some seen
  | x :: work =>
      match fuel with
      | 0 => None
      | S fuel =>
          if bool_decide (x ∈ seen) then drain fuel seen work
          else drain fuel ({[x]} ∪ seen)
                 (push ({[x]} ∪ seen) work (default [] (next !! x)))
      end
  end.

(** The links of the records not yet seen. *)
Definition unseen_links (seen : gset string) : nat :=
  sum_list_with (λ x, length (default [] (next !! x))) (elements (dom next ∖ seen)).
(** Fuel enough to start from [work]: every link is pushed at most once. *)
Definition drain_fuel (work : list string) : nat := length work + unseen_links ∅.

Definition linked_to (x y : string) : Prop := y ∈ default [] (next !! x).

Lemma unseen_links_insert x seen :
  x ∉ seen → unseen_links ({[x]} ∪ seen) + length (default [] (next !! x)) = unseen_links seen.
Proof.
  intros Hx. unfold unseen_links. destruct (next !! x) as [kids|] eqn:Hn; cbn [from_option id].
  - assert (dom next ∖ seen = {[x]} ∪ (dom next ∖ ({[x]} ∪ seen))) as Heq.
    { assert (x ∈ dom next) by (apply elem_of_dom; by rewrite Hn).
      apply set_eq. intros y. destruct (decide (y = x)) as [->|]; set_solver. }
    rewrite Heq, (elements_disj_union {[x]}) by set_solver.
    rewrite elements_singleton. cbn [app]. cbn. rewrite Hn. cbn [from_option id]. lia.
  - assert (dom next ∖ ({[x]} ∪ seen) = dom next ∖ seen) as ->; [|cbn; lia].
    assert (x ∉ dom next) by (rewrite elem_of_dom, Hn; by intros [? ?]).
    apply set_eq. intros y. destruct (decide (y = x)) as [->|]; set_solver.
Qed.

Lemma drained_closed (seen : gset string) x y :
  (∀ u v, u ∈ seen → linked_to u v → v ∈ seen) → rtc linked_to x y → x ∈ seen → y ∈ seen.
Proof. intros Hcl. induction 1; eauto. Qed.

Context `{!PushLaws push}.

Lemma drain_spec_from (start : list string) fuel seen work :
  length work + unseen_links seen ≤ fuel →
  (∀ y, y ∈ seen ∨ y ∈ work → ∃ x, x ∈ start ∧ rtc linked_to x y) →
  (∀ x, x ∈ start → x ∈ seen ∨ x ∈ work) →
  (∀ x y, x ∈ seen → linked_to x y → y ∈ seen ∨ y ∈ work) →
  ∃ out, drain fuel seen work = Some out
    ∧ ∀ y, y ∈ out ↔ ∃ x, x ∈ start ∧ rtc linked_to x y.
Proof using PushLaws0.
  revert seen work. induction fuel as [|fuel IH]; intros seen [|x work] Hf Hso Hst Hcl;
    cbn [drain length] in *; [| lia | |].
  1, 2: exists seen; (split; [done|]); intros y; (split; [intros Hy; apply Hso; by left|]);
    intros (x & Hx & Hxy); apply (drained_closed seen x y); [|done|];
    [intros u v Hu Huv; destruct (Hcl u v Hu Huv) as [|?%elem_of_nil]; done
    |destruct (Hst x Hx) as [|?%elem_of_nil]; done].
  case_bool_decide as Hx.
  - apply IH; [lia|..]; set_solver.
  - pose proof (unseen_links_insert x seen Hx).
    pose proof (push_length ({[x]} ∪ seen) work (default [] (next !! x))).
    apply IH; [lia|..].
    + intros y [Hy|Hy].
      * apply Hso. set_solver.
      * apply push_sound in Hy as [Hy|Hy]; [apply Hso; set_solver|].
        destruct (Hso x) as (s & Hs & Hsx); [set_solver|]. exists s. split; [done|].
        by eapply rtc_r.
    + intros s Hs. destruct (Hst s Hs) as [|[->|]%elem_of_cons]; [set_solver..|].
      right. by apply push_work.
    + intros u v [->%elem_of_singleton|Hu]%elem_of_union Huv.
      * destruct (push_kids ({[x]} ∪ seen) work _ v Huv); auto.
      * destruct (Hcl u v Hu Huv) as [|[->|]%elem_of_cons]; [set_solver..|].
        right. by apply push_work.
Qed.

(** The walk ends, with what is reachable from where it starts. *)
Lemma drain_spec (start : list string) fuel :
  drain_fuel start ≤ fuel →
  ∃ out, drain fuel ∅ start = Some out
    ∧ ∀ y, y ∈ out ↔ ∃ x, x ∈ start ∧ rtc linked_to x y.
Proof using PushLaws0.
  unfold drain_fuel. intros Hf. apply drain_spec_from; [done|..].
  - intros y [?%not_elem_of_empty|Hy]; [done|]. by exists y.
  - by right.
  - by intros x y ?%not_elem_of_empty.
Qed.
End Drain.

(** ** A queue whose entries are marked when they enter it *)
(** [if visited.insert(v) { queue.push_back(v) }]. *)
Definition enqueue (st : gset string * list string) (v : string) : gset string * list string :=
  if bool_decide (v ∈ st.1) then st else ({[v]} ∪ st.1, st.2 ++ [v]).

Lemma foldl_enqueue l visited queue :
  ∃ added, foldl enqueue (visited, queue) l = (list_to_set added ∪ visited, queue ++ added)
    ∧ NoDup added ∧ (∀ y, y ∈ added → (y ∉ visited) ∧ y ∈ l)
    ∧ (∀ y, y ∈ l → y ∈ visited ∨ y ∈ added).
Proof.
  revert visited queue. induction l as [|v l IH]; intros visited queue; cbn [foldl].
  { exists []. rewrite app_nil_r. split; [f_equal; set_solver|]. split; [constructor|].
    split; intros y Hy; by apply elem_of_nil in Hy. }
  unfold enqueue at 2. cbn [fst snd]. case_bool_decide as Hv.
  - destruct (IH visited queue) as (added & -> & Hnd & H1 & H2). exists added. set_solver.
  - destruct (IH ({[v]} ∪ visited) (queue ++ [v])) as (added & -> & Hnd & H1 & H2).
    exists (v :: added). split; [f_equal; [set_solver|by rewrite <-app_assoc]|].
    split; [|set_solver]. constructor; [|done]. intros Hin. set_solver.
Qed.

Section Enqueue.
Context (kids : string → list string).

(** What leaves the queue, in order; [None] is the end of the fuel. *)
Fixpoint queue_walk (fuel : nat) (visited : gset string) (queue : list string)
    : option (list string) :=
  match queue with
  | [] => Some []
  | u :: queue =>
      match fuel with
      | 0 => None
      | S fuel =>
          let st := foldl enqueue (visited, queue) (kids u) in
          cons u <$> queue_walk fuel st.1 st.2
      end
  end.

Lemma queue_walk_more fuel k visited queue out :
  queue_walk fuel visited queue = Some out → queue_walk (fuel + k) visited queue = Some out.
Proof.
  revert visited queue out. induction fuel as [|fuel IH]; intros visited [|u queue] out; cbn.
  - by destruct k.
  - done.
  - done.
  - intros (out' & Hw & ->)%fmap_Some. apply fmap_Some. eauto.
Qed.

Context (D : gset string) (HD : ∀ x y, y ∈ kids x → y ∈ D).

Lemma queue_walk_from fuel visited queue :
  length queue + size (D ∖ visited) ≤ fuel → (∀ y, y ∈ queue → y ∈ visited) →
  ∃ rest, queue_walk fuel visited queue = Some (queue ++ rest) ∧ NoDup rest
    ∧ (∀ y, y ∈ rest → y ∉ visited)
    ∧ (∀ x y, x ∈ queue ++ rest → y ∈ kids x → y ∈ visited ∨ y ∈ rest)
    ∧ (∀ y, y ∈ rest → ∃ x, x ∈ queue ∧ rtc (λ x y, y ∈ kids x) x y).
Proof using HD.
  revert visited queue. induction fuel as [|fuel IH]; intros visited [|u queue] Hf Hq;
    cbn [queue_walk length] in *.
  1, 3: exists []; split_and!; [done|apply NoDup_nil_2|set_solver..].
  { lia. }
  destruct (foldl_enqueue (kids u) visited queue) as (added & -> & Hnd & Hnew & Hcov). cbn [fst snd].
  assert (size (D ∖ (list_to_set added ∪ visited)) + length added ≤ size (D ∖ visited)) as Hsz.
  { rewrite <-(size_list_to_set (C := gset string) added) by done.
    rewrite <-size_union by set_solver. apply subseteq_size. set_solver. }
  destruct (IH (list_to_set added ∪ visited) (queue ++ added)) as (rest & -> & Hr & Hv & Hcl & Hso).
  { rewrite length_app. lia. }
  { set_solver. }
  exists (added ++ rest). cbn [fmap option_fmap option_map]. rewrite <-app_assoc. split; [done|].
  split; [|split; [|split]].
  - apply NoDup_app. split; [done|]. split; [|done]. intros y Hy Hy'. apply (Hv y Hy'). set_solver.
  - intros y [Hy|Hy]%elem_of_app; [by apply Hnew|]. apply Hv in Hy. set_solver.
  - intros x y [->|Hx]%elem_of_cons Hy; [destruct (Hcov y Hy); set_solver|].
    destruct (Hcl x y) as [|]; [by rewrite <-app_assoc|done|set_solver|set_solver].
  - intros y [Hy|Hy]%elem_of_app.
    + exists u. split; [by left|]. apply rtc_once, Hnew, Hy.
    + destruct (Hso y Hy) as (x & [Hx|Hx]%elem_of_app & Hxy); [exists x; split; [by right|done]|].
      exists u. split; [by left|]. eapply rtc_l; [apply Hnew, Hx|done].
Qed.

(** The walk from [start] ends: the entries of [start] leave the queue first, as often as they
    are in it, then everything else that is reachable, once. *)
Lemma queue_walk_spec start fuel :
  length start + size D ≤ fuel →
  ∃ rest, queue_walk fuel (list_to_set start) start = Some (start ++ rest) ∧ NoDup rest
    ∧ (∀ y, y ∈ rest → y ∉ start)
    ∧ (∀ y, y ∈ start ++ rest ↔ ∃ x, x ∈ start ∧ rtc (λ x y, y ∈ kids x) x y).
Proof using HD.
  intros Hf. destruct (queue_walk_from fuel (list_to_set start) start) as (rest & Hw & Hnd & Hv & Hcl & Hso).
  { assert (size (D ∖ list_to_set start) ≤ size D) by (apply subseteq_size; set_solver). lia. }
  { set_solver. }
  exists rest. split; [done|]. split; [done|]. split; [set_solver|]. intros y. split.
  - intros [Hy|Hy]%elem_of_app; [by exists y|by apply Hso].
  - intros (x & Hx & Hxy). assert (x ∈ start ++ rest) as Hin by set_solver. clear Hx.
    induction Hxy as [|x y z Hxy _ IHx]; [done|]. apply IHx.
    destruct (Hcl x y Hin Hxy); set_solver.
Qed.
End Enqueue.
