(* ===== verification/Selection.v ===== *)
(** * Choosing the best version

    The scan [if best.is_none_or(|prev| better(cur, prev)) { best = Some(cur) }] of the
    temporal lanes, alone and with one best version per key. [selects] says which element it
    ends with: the first of the best ones. *)
From S2P Require Import Prelude.

(** Swapping the arguments of an order gives the converse order. *)
Lemma flip_cmp_order {A} (cmp : A → A → comparison) :
  CmpOrder cmp → CmpOrder (flip cmp).
Proof. intros Hc. split; unfold flip; intros; [apply cmp_opp|by eapply cmp_trans]. Qed.

Section Keep.
Context {P : Type} (cmp : P → P → comparison).

(** [q] replaces what was kept when it is strictly less. *)
Definition keep (acc : option P) (q : P) : option P :=
  match acc with
  | None => Some q
  | Some prev => if bool_decide (cmp q prev = Lt) then Some q else Some prev
  end.

(** [q] is the first of the least elements of [l]. *)
Definition selects (l : list P) (q : P) : Prop :=
  ∃ l1 l2, l = l1 ++ q :: l2
    ∧ (∀ q', q' ∈ l1 → cmp q q' = Lt) ∧ (∀ q', q' ∈ l2 → cmp_le cmp q q').

Lemma selects_elem l q : selects l q → q ∈ l.
Proof. intros (l1 & l2 & -> & _). set_solver. Qed.

Context `{!CmpOrder cmp}.

Lemma selects_least l q q' : selects l q → q' ∈ l → cmp_le cmp q q'.
Proof.
  intros (l1 & l2 & -> & H1 & H2) [Hq|[->|Hq]%elem_of_cons]%elem_of_app; [|reflexivity|auto].
  unfold cmp_le. by rewrite H1.
Qed.

Lemma selects_unique l p q : selects l p → selects l q → p = q.
Proof.
  intros (l1 & l2 & -> & H1 & H2) (k1 & k2 & Heq & H3 & H4).
  apply app_eq_inv in Heq as [([|x k] & Hl & Hk)|([|x k] & Hl & Hk)]; cbn in Hk;
    injection Hk as <- ->; [done| |done|]; exfalso; subst.
  - apply (H4 p); [set_solver|].
    rewrite (cmp_opp (cmp := cmp) p q), H1 by set_solver. done.
  - apply (H2 q); [set_solver|].
    rewrite (cmp_opp (cmp := cmp) q p), H3 by set_solver. done.
Qed.

Lemma foldl_keep l : foldl keep None l = None ∧ l = [] ∨ ∃ q, foldl keep None l = Some q ∧ selects l q.
Proof.
  induction l as [|x l IH] using rev_ind; [by left|]. right. rewrite foldl_app. cbn [foldl].
  destruct IH as [[-> ->]|(q & -> & Hq)]; cbn [keep].
  { exists x. split; [done|]. exists [], []. split_and!; [done|by intros ? ?%elem_of_nil..]. }
  case_bool_decide as Hlt.
  - exists x. split; [done|]. exists l, []. split; [done|]. split; [|by intros ? ?%elem_of_nil].
    intros q' Hq'. apply (cmp_Lt_le cmp x q q' Hlt). by apply selects_least with l.
  - exists q. split; [done|]. destruct Hq as (l1 & l2 & -> & H1 & H2).
    exists l1, (l2 ++ [x]). split_and!; [by rewrite <-app_assoc|done|].
    intros q' [Hq'|Hq']%elem_of_app; [auto|]. apply list_elem_of_singleton in Hq' as ->.
    by apply cmp_not_Lt.
Qed.

Lemma foldl_keep_Some l q : foldl keep None l = Some q ↔ selects l q.
Proof.
  destruct (foldl_keep l) as [[-> ->]|(p & -> & Hp)].
  - split; [done|]. by intros (l1 & l2 & ?%app_cons_not_nil & _).
  - split; [by intros [= <-]|]. intros Hq. f_equal. by eapply selects_unique.
Qed.

Lemma foldl_keep_is_Some l : is_Some (foldl keep None l) ↔ l ≠ [].
Proof.
  destruct (foldl_keep l) as [[-> ->]|(p & -> & Hp)].
  - split; [by intros [? ?]|done].
  - split; [|by eexists]. intros _ ->. by apply selects_elem, elem_of_nil in Hp.
Qed.
End Keep.

(** One best version per key. *)
Section KeepBy.
Context {K P : Type} `{Countable K} (cmp : P → P → comparison).

Definition keep_at (acc : gmap K P) (o : K * P) : gmap K P :=
  match acc !! o.1 with
  | None => <[o.1 := o.2]> acc
  | Some prev => if bool_decide (cmp o.2 prev = Lt) then <[o.1 := o.2]> acc else acc
  end.

(** The elements offered under a key. *)
Definition offered (k : K) (l : list (K * P)) : list P :=
  omap (λ o, if bool_decide (o.1 = k) then Some o.2 else None) l.

Lemma elem_of_offered k l q : q ∈ offered k l ↔ (k, q) ∈ l.
Proof.
  unfold offered. rewrite list_elem_of_omap. split.
  - intros ([k' q'] & Hin & Ho). cbn in Ho. case_bool_decide; by simplify_eq.
  - intros Hin. exists (k, q). split; [done|]. cbn. by rewrite bool_decide_eq_true_2.
Qed.

Lemma foldl_keep_at l (m : gmap K P) k :
  foldl keep_at m l !! k = foldl (keep cmp) (m !! k) (offered k l).
Proof.
  revert m. induction l as [|[k' q] l IH]; intros m; [done|]. cbn [foldl].
  rewrite IH. unfold offered. cbn [omap list_omap fst snd]. fold (offered k l).
  unfold keep_at. cbn [fst snd]. case_bool_decide as Hk; cbn [foldl]; [subst k'|]; f_equal.
  - destruct (m !! k) as [prev|] eqn:Hm; cbn [keep]; [case_bool_decide|];
      by rewrite ?lookup_insert_eq, ?Hm.
  - destruct (m !! k'); [case_bool_decide|]; by rewrite ?lookup_insert_ne.
Qed.

Lemma keep_at_selects `{!CmpOrder cmp} l k q :
  foldl keep_at ∅ l !! k = Some q ↔ selects cmp (offered k l) q.
Proof. rewrite foldl_keep_at, lookup_empty. apply foldl_keep_Some, _. Qed.
End KeepBy.
