(* ===== verification/CommitOrder.v ===== *)
(** * The commit order of a replayed history

    [CommitOrder] of [src/src/query/transaction_time.rs]: commits ranked by their longest chain
    of ancestors, and the commits that descend from a commit, both read off the parent links the
    temporal records carry. *)
From S2P Require Import Prelude Ir IrOps WorkList.

(* query/transaction_time.rs 148-153: CommitOrder *)
Record CommitOrder : Type := mkCommitOrder {
  commit_rank : gmap string nat;
  commit_children : gmap string (list string)
}.

(** [if !entry.contains(x) { entry.push(x) }]. *)
Definition push_new (l : list string) (x : string) : list string :=
  if bool_decide (x ∈ l) then l else l ++ [x].

(** ** Parents *)
(* query/transaction_time.rs 186-199: CommitOrder::build *)
Definition add_parents (parents : gmap string (list string)) (record : GraphRecord)
    : gmap string (list string) :=
  match record with
  | Node n =>
      match n.(NodeRec.temporal) with
      | Some t =>
          let commit := t.(TemporalMetadata.git_commit) in
          <[commit := foldl push_new (default [] (parents !! commit))
                        t.(TemporalMetadata.git_parent_commits)]> parents
      | None => parents
      end
  | _ => parents
  end.

(* query/transaction_time.rs 186-199: CommitOrder::build *)
Definition commit_parents (records : list GraphRecord) : gmap string (list string) :=
  foldl add_parents ∅ records.

(** ** Ranks *)
(** The memo and the stack of the recursion, both behind [&mut]. *)
Abbreviation RankState := (gmap string nat * gset string)%type.

Section Rank.
Context (parents : gmap string (list string)).

(** One parent of the commit; [self] is the recursive call. *)
(* query/transaction_time.rs 173-177: CommitOrder::build *)
Definition visit_parent (self : string → RankState → option (nat * RankState))
    (acc : option (nat * RankState)) (p : string) : option (nat * RankState) :=
  match acc with
  | None => None
  | Some (best, s) =>
      if is_some (parents !! p) then
        match self p s with
        | None => None
        | Some (r, s) => Some (best `max` (r + 1), s)
        end
      else Some (best, s)
  end.

(** [None] is the end of the fuel. *)
(* query/transaction_time.rs 159-182: CommitOrder::build *)
Fixpoint rank_of (fuel : nat) (sha : string) (s : RankState) : option (nat * RankState) :=
  let '(memo, stack) := s in
  match memo !! sha with
  | Some r => Some (r, s)
  | None =>
      if bool_decide (sha ∈ stack) then Some (0, s)
      else
        match fuel with
        | 0 => None
        | S fuel =>
            match foldl (visit_parent (rank_of fuel)) (Some (0, (memo, {[sha]} ∪ stack)))
                    (default [] (parents !! sha)) with
            | None => None
            | Some (best, (memo, stack)) => Some (best, (<[sha := best]> memo, stack ∖ {[sha]}))
            end
        end
  end.

(** Every nested call puts a commit of [parents] on the stack. *)
(* query/transaction_time.rs 201-206: CommitOrder::build *)
Definition rank_all : option RankState :=
  foldl (λ acc commit, let?o s := acc in snd <$> rank_of (size parents) commit s)
    (Some (∅, ∅)) (keys parents).
End Rank.

(** ** Children *)
(* query/transaction_time.rs 208-217: CommitOrder::build *)
Definition invert_links (parents : gmap string (list string)) : gmap string (list string) :=
  foldl (λ children commit,
    foldl (λ children p, <[p := push_new (default [] (children !! p)) commit]> children)
      children (default [] (parents !! commit))) ∅ (keys parents).

(* query/transaction_time.rs 156-220: CommitOrder::build *)
Definition build_order (records : list GraphRecord) : option CommitOrder :=
  let parents := commit_parents records in
  let?o s := rank_all parents in
  Some (mkCommitOrder s.1 (invert_links parents)).

(* query/transaction_time.rs 222-224: CommitOrder::rank *)
Definition rank (self : CommitOrder) (sha : string) : nat :=
  default 0 (self.(commit_rank) !! sha).

(** [None] is the end of the fuel, which is enough for every link. *)
(* query/transaction_time.rs 230-247: CommitOrder::strict_descendants *)
Definition strict_descendants (self : CommitOrder) (sha : string) : option (gset string) :=
  let stack := reverse (default [] (self.(commit_children) !! sha)) in
  drain push_stack self.(commit_children) (drain_fuel self.(commit_children) stack) ∅ stack.

(** ** The links of a log *)

(** The log holds a temporal record of the commit. *)
Definition commit_observed (records : list GraphRecord) (c : string) : Prop :=
  ∃ n t, Node n ∈ records ∧ n.(NodeRec.temporal) = Some t ∧ t.(TemporalMetadata.git_commit) = c.
(** A temporal record of the commit [c] names [p] among its parents. *)
Definition names_parent (records : list GraphRecord) (c p : string) : Prop :=
  ∃ n t, Node n ∈ records ∧ n.(NodeRec.temporal) = Some t ∧ t.(TemporalMetadata.git_commit) = c
    ∧ p ∈ t.(TemporalMetadata.git_parent_commits).
(** ... and [p] is itself a commit of the log. *)
Definition observed_parent (records : list GraphRecord) (c p : string) : Prop :=
  names_parent records c p ∧ commit_observed records p.

Lemma elem_of_push_new l x y : y ∈ push_new l x ↔ y ∈ l ∨ y = x.
Proof. unfold push_new. case_bool_decide; [naive_solver|]. by rewrite elem_of_app, list_elem_of_singleton. Qed.

Lemma elem_of_foldl_push_new l xs y : y ∈ foldl push_new l xs ↔ y ∈ l ∨ y ∈ xs.
Proof.
  rewrite (foldl_or push_new (λ l, y ∈ l) (λ x, y = x)) by (intros; apply elem_of_push_new).
  naive_solver.
Qed.

Lemma commit_parents_observed records c :
  is_Some (commit_parents records !! c) ↔ commit_observed records c.
Proof.
  unfold commit_parents, commit_observed.
  rewrite (foldl_or add_parents (λ m, is_Some (m !! c)) (λ r, ∃ n t, r = Node n
    ∧ n.(NodeRec.temporal) = Some t ∧ t.(TemporalMetadata.git_commit) = c)).
  - rewrite lookup_empty. split; [intros [[? ?]|(r & Hr & n & t & -> & ?)]; [done|]; by exists n, t|].
    intros (n & t & Hn & ?). right. exists (Node n). split; [done|]. by exists n, t.
  - intros m [n|e|t] _; cbn [add_parents]; [|naive_solver..].
    destruct n.(NodeRec.temporal) as [t|] eqn:Ht; [|naive_solver].
    destruct (decide (t.(TemporalMetadata.git_commit) = c)) as [Hc|Hc].
    + rewrite Hc, lookup_insert_eq. split; [|by eexists]. intros _. right. by exists n, t.
    + rewrite lookup_insert_ne by done. naive_solver.
Qed.

Lemma commit_parents_names records c p :
  p ∈ default [] (commit_parents records !! c) ↔ names_parent records c p.
Proof.
  unfold commit_parents, names_parent.
  rewrite (foldl_or add_parents (λ m, p ∈ default [] (m !! c)) (λ r, ∃ n t, r = Node n
    ∧ n.(NodeRec.temporal) = Some t ∧ t.(TemporalMetadata.git_commit) = c
    ∧ p ∈ t.(TemporalMetadata.git_parent_commits))).
  - rewrite lookup_empty. split.
    + intros [?%elem_of_nil|(r & Hr & n & t & -> & ?)]; [done|]. by exists n, t.
    + intros (n & t & Hn & ?). right. exists (Node n). split; [done|]. by exists n, t.
  - intros m [n|e|t] _; cbn [add_parents]; [|naive_solver..].
    destruct n.(NodeRec.temporal) as [t|] eqn:Ht; [|naive_solver].
    destruct (decide (t.(TemporalMetadata.git_commit) = c)) as [Hc|Hc].
    + rewrite Hc, lookup_insert_eq. cbn [from_option id]. rewrite elem_of_foldl_push_new. naive_solver.
    + rewrite lookup_insert_ne by done. naive_solver.
Qed.

Lemma elem_of_children parents p c :
  c ∈ default [] (invert_links parents !! p) ↔ p ∈ default [] (parents !! c).
Proof.
  unfold invert_links.
  rewrite (foldl_or _ (λ m : gmap string (list string), c ∈ default [] (m !! p))
    (λ d, d = c ∧ p ∈ default [] (parents !! c))).
  - rewrite lookup_empty. split; [by intros [?%elem_of_nil|(? & _ & _ & ?)]|].
    intros Hp. right. exists c. split; [|done]. apply keys_elem.
    destruct (parents !! c); [done|by apply elem_of_nil in Hp].
  - intros m d _.
    rewrite (foldl_or _ (λ m : gmap string (list string), c ∈ default [] (m !! p))
      (λ q, d = c ∧ q = p)); [naive_solver|]. clear m. intros m q _.
    destruct (decide (q = p)) as [->|Hq].
    + rewrite lookup_insert_eq. cbn [from_option id]. rewrite elem_of_push_new. naive_solver.
    + rewrite lookup_insert_ne by done. naive_solver.
Qed.

(** ** Ranks are longest chains of ancestors *)

(** There is a chain of [n] steps along [R] from a commit. *)
Inductive ancestor_chain (R : relation string) : string → nat → Prop :=
| ancestor_chain_nil x : ancestor_chain R x 0
| ancestor_chain_cons x p n : R x p → ancestor_chain R p n → ancestor_chain R x (S n).

Definition longest_chain (R : relation string) (x : string) (r : nat) : Prop :=
  ancestor_chain R x r ∧ ∀ n, ancestor_chain R x n → n ≤ r.
Definition acyclic (R : relation string) : Prop := ∀ x, ¬ tc R x x.

Lemma longest_chain_unique R x r r' : longest_chain R x r → longest_chain R x r' → r = r'.
Proof. intros [H1 H2] [H3 H4]. specialize (H2 _ H3). specialize (H4 _ H1). lia. Qed.

Lemma longest_chain_step R x p r r' : longest_chain R x r → longest_chain R p r' → R x p → r' < r.
Proof. intros [_ H2] [H3 _] HR. specialize (H2 (S r')). apply H2. by eapply ancestor_chain_cons. Qed.

Section Ranks.
Context (parents : gmap string (list string)).
Definition known_parent (x p : string) : Prop :=
  p ∈ default [] (parents !! x) ∧ is_Some (parents !! p).
Abbreviation longest := (longest_chain known_parent).
Definition ranked (memo : gmap string nat) : Prop := ∀ x r, memo !! x = Some r → longest x r.

(** What a call of [rank_of] leaves behind: the stack as it was and, without cycles, more
    commits with their ranks in the memo. *)
Definition rank_step (memo : gmap string nat) (stack : gset string) (sha : string)
    (res : option (nat * RankState)) : Prop :=
  ∃ r memo', res = Some (r, (memo', stack))
    ∧ (acyclic known_parent → ranked memo → (∀ s, s ∈ stack → tc known_parent s sha) →
       ranked memo' ∧ longest sha r ∧ memo ⊆ memo' ∧ memo' !! sha = Some r).

(** The loop over the parents. *)
Lemma visit_parents_spec fuel sha (stack : gset string) ps best memo :
  (∀ p memo stack, is_Some (parents !! p) → size (dom parents ∖ stack) ≤ fuel →
     rank_step memo stack p (rank_of parents fuel p (memo, stack))) →
  size (dom parents ∖ stack) ≤ fuel →
  (∀ p, p ∈ ps → p ∈ default [] (parents !! sha)) →
  ∃ best' memo',
    foldl (visit_parent parents (rank_of parents fuel)) (Some (best, (memo, stack))) ps
      = Some (best', (memo', stack))
    ∧ (acyclic known_parent → ranked memo → (∀ s, s ∈ stack → tc known_parent s sha ∨ s = sha) →
       ranked memo' ∧ memo ⊆ memo' ∧ best ≤ best'
       ∧ (∀ p, p ∈ ps → is_Some (parents !! p) → ∃ r, longest p r ∧ r + 1 ≤ best')
       ∧ (best' = best ∨ ∃ p r, p ∈ ps ∧ is_Some (parents !! p) ∧ longest p r ∧ best' = r + 1)).
Proof.
  intros IH Hf. revert best memo. induction ps as [|p ps IHp]; intros best memo Hps; cbn [foldl].
  { exists best, memo. split; [done|]. intros _ Hm _. split_and!; [done..|lia| |by left].
    by intros p ?%elem_of_nil. }
  cbn [visit_parent]. destruct (parents !! p) as [pp|] eqn:Hp; cbn [is_some].
  - destruct (IH p memo stack) as (r & memo1 & -> & H1); [by rewrite Hp|done|].
    destruct (IHp (best `max` (r + 1)) memo1) as (best' & memo' & -> & H2).
    { intros q Hq. apply Hps. by right. }
    exists best', memo'. split; [done|]. intros Hac Hm Hst.
    assert (known_parent sha p) as Hkp by (split; [apply Hps; by left|by rewrite Hp]).
    destruct H1 as (Hm1 & Hlp & Hsub1 & _); [done..| |].
    { intros s [Hs| ->]%Hst; [by eapply tc_r|by apply tc_once]. }
    destruct H2 as (Hm' & Hsub2 & Hle & Hall & Hex); [done..|].
    split_and!; [done|by etrans|lia| |].
    + intros q [->|Hq]%elem_of_cons; [|by apply Hall]. intros _. exists r. split; [done|lia].
    + destruct Hex as [->|(q & rq & Hq & ? & ? & ->)].
      * destruct (Nat.max_spec best (r + 1)) as [[_ ->]|[_ ->]]; [|by left].
        right. exists p, r. split_and!; [by left|by rewrite Hp|done..].
      * right. exists q, rq. split_and!; [by right|done..].
  - destruct (IHp best memo) as (best' & memo' & -> & H2).
    { intros q Hq. apply Hps. by right. }
    exists best', memo'. split; [done|]. intros Hac Hm Hst.
    destruct H2 as (Hm' & Hsub2 & Hle & Hall & Hex); [done..|].
    split_and!; [done..| |].
    + intros q [->|Hq]%elem_of_cons; [|by apply Hall]. rewrite Hp. by intros [? ?].
    + destruct Hex as [->|(q & rq & Hq & ? & ? & ->)]; [by left|].
      right. exists q, rq. split_and!; [by right|done..].
Qed.

Lemma rank_of_spec fuel sha memo (stack : gset string) :
  is_Some (parents !! sha) → size (dom parents ∖ stack) ≤ fuel →
  rank_step memo stack sha (rank_of parents fuel sha (memo, stack)).
Proof.
  revert sha memo stack. induction fuel as [|fuel IH]; intros sha memo stack Hsha Hf;
    cbn [rank_of]; (destruct (memo !! sha) as [r|] eqn:Hmemo;
      [exists r, memo; split; [done|]; intros _ Hm _; split_and!; [done|by apply Hm|done..]|]);
    (case_bool_decide as Hin; [exists 0, memo; split; [done|]; intros Hac _ Hst;
       by destruct (Hac sha); apply Hst|]).
  { exfalso. apply Nat.le_0_r, size_empty_inv in Hf. apply elem_of_dom in Hsha. set_solver. }
  destruct (visit_parents_spec fuel sha ({[sha]} ∪ stack) (default [] (parents !! sha)) 0 memo)
    as (best & memo' & -> & H); [done| |done|].
  { assert (dom parents ∖ stack = {[sha]} ∪ (dom parents ∖ ({[sha]} ∪ stack))) as Heq.
    { apply elem_of_dom in Hsha. apply set_eq. intros y.
      destruct (decide (y = sha)) as [->|]; set_solver. }
    rewrite Heq, size_union, size_singleton in Hf by set_solver. lia. }
  exists best, (<[sha := best]> memo'). split.
  { do 3 f_equal. set_solver. }
  intros Hac Hm Hst. destruct H as (Hm' & Hsub & _ & Hall & Hex); [done..| |].
  { intros s [->%elem_of_singleton|Hs]%elem_of_union; [by right|left; by apply Hst]. }
  assert (longest sha best) as Hbest.
  { split.
    - destruct Hex as [->|(p & r & Hp & Hk & [Hr _] & ->)]; [constructor|].
      rewrite Nat.add_1_r. by eapply ancestor_chain_cons.
    - intros n Hn. inversion Hn as [|? p m [Hp Hk] Hm2]; subst; [lia|].
      destruct (Hall p Hp Hk) as (r & [_ Hr] & Hle). specialize (Hr m Hm2). lia. }
  split_and!; [|done| |by rewrite lookup_insert_eq].
  - intros x r. rewrite lookup_insert_Some. intros [[<- <-]|[_ Hx]]; [done|by apply Hm'].
  - by apply insert_subseteq_r.
Qed.
End Ranks.

(** ** The order of a log *)
Lemma tc_mono (R R' : relation string) x y :
  (∀ u v, R u v → R' u v) → tc R x y → tc R' x y.
Proof. intros HR. induction 1; [by apply tc_once; auto|]. eapply tc_l; eauto. Qed.

Lemma tc_last (R : relation string) x y : tc R x y → ∃ z, rtc R x z ∧ R z y.
Proof.
  induction 1 as [x y Hxy|x y z Hxy _ (w & Hw & Hwz)]; [by exists x|].
  exists w. split; [|done]. by eapply rtc_l.
Qed.

Section Order.
Context (records : list GraphRecord).
Abbreviation parents := (commit_parents records).

Lemma known_parent_observed c p : known_parent parents c p ↔ observed_parent records c p.
Proof. unfold known_parent, observed_parent. by rewrite commit_parents_names, commit_parents_observed. Qed.

(** Two relations with the same links have the same chains. *)
Lemma longest_chain_ext (R R' : relation string) x r :
  (∀ x y, R x y ↔ R' x y) → longest_chain R x r → longest_chain R' x r.
Proof.
  intros HR. assert (∀ R R' : relation string, (∀ x y, R x y → R' x y) →
    ∀ x n, ancestor_chain R x n → ancestor_chain R' x n) as Hmono.
  { clear. intros R R' HR. induction 1; econstructor; eauto. }
  intros [H1 H2]. split; [eapply Hmono; [|exact H1]; apply HR|].
  intros n Hn. apply H2. eapply Hmono; [|exact Hn]. intros u v. apply HR.
Qed.

Lemma rank_all_spec :
  ∃ memo, rank_all parents = Some (memo, ∅)
    ∧ (acyclic (known_parent parents) → ranked parents memo
       ∧ ∀ c, c ∈ keys parents → is_Some (memo !! c)).
Proof.
  unfold rank_all.
  assert (∀ l, (∀ c, c ∈ l → is_Some (parents !! c)) →
    ∃ memo, foldl (λ acc commit, let?o s := acc in snd <$> rank_of parents (size parents) commit s)
        (Some (∅, ∅)) l = Some (memo, ∅)
      ∧ (acyclic (known_parent parents) → ranked parents memo
         ∧ ∀ c, c ∈ l → is_Some (memo !! c))) as H.
  { induction l as [|c l IH] using rev_ind; intros Hl.
    - exists ∅. split; [done|]. intros _. split; [|by intros c ?%elem_of_nil].
      intros x r. by rewrite lookup_empty.
    - destruct IH as (memo & Hrun & Hmemo); [intros; apply Hl; set_solver|].
      rewrite foldl_app, Hrun. cbn [foldl mbind option_bind].
      destruct (rank_of_spec parents (size parents) c memo ∅) as (r & memo' & -> & Hstep).
      { apply Hl. set_solver. }
      { rewrite difference_empty_L, size_dom. lia. }
      exists memo'. split; [done|]. intros Hac. destruct (Hmemo Hac) as [Hm Hc].
      destruct (Hstep Hac Hm) as (Hm' & _ & Hsub & Hr); [by intros s ?%not_elem_of_empty|].
      split; [done|]. intros d [Hd|Hd]%elem_of_app.
      + destruct (Hc d Hd) as [rd Hrd]. exists rd. by eapply lookup_weaken.
      + apply list_elem_of_singleton in Hd as ->. by eexists. }
  apply H. intros c. by rewrite keys_elem.
Qed.

Lemma build_order_spec :
  ∃ order, build_order records = Some order
    ∧ order.(commit_children) = invert_links parents
    ∧ (acyclic (observed_parent records) → ∀ c, commit_observed records c →
         longest_chain (observed_parent records) c (rank order c)).
Proof.
  destruct rank_all_spec as (memo & Hrun & Hmemo). unfold build_order. rewrite Hrun.
  eexists. split_and!; [done|done|]. intros Hac c Hc. unfold rank. cbn [commit_rank fst].
  destruct Hmemo as [Hm Hall].
  { intros x Hx. apply (Hac x). eapply tc_mono; [|exact Hx].
    intros u v. apply known_parent_observed. }
  destruct (Hall c) as [r Hr]; [by apply keys_elem, commit_parents_observed|]. rewrite Hr.
  eapply longest_chain_ext; [apply known_parent_observed|]. by apply Hm.
Qed.

(** The commits that come after [sha] along the parent links. *)
Lemma strict_descendants_spec order sha :
  order.(commit_children) = invert_links parents →
  ∃ out, strict_descendants order sha = Some out
    ∧ ∀ c, c ∈ out ↔ tc (names_parent records) c sha.
Proof.
  intros Hch. unfold strict_descendants. rewrite Hch.
  destruct (drain_spec push_stack (invert_links parents)
    (reverse (default [] (invert_links parents !! sha))) _ (le_n _)) as (out & -> & Hout).
  exists out. split; [done|]. intros c. rewrite Hout.
  assert (∀ x y, linked_to (invert_links parents) x y ↔ names_parent records y x) as Hlink.
  { intros x y. unfold linked_to. by rewrite elem_of_children, commit_parents_names. }
  assert (∀ x y, rtc (linked_to (invert_links parents)) x y ↔ rtc (names_parent records) y x) as Hrtc.
  { intros x y. split; induction 1 as [|u v w Huv _ IH]; [done| |done|].
    - eapply rtc_r; [exact IH|]. by apply Hlink.
    - eapply rtc_r; [exact IH|]. by apply Hlink. }
  split.
  - intros (x & Hx & Hxc). rewrite elem_of_reverse in Hx. apply Hlink in Hx. apply Hrtc in Hxc.
    by eapply tc_rtc_l; [exact Hxc|apply tc_once].
  - intros (x & Hcx & Hx)%tc_last. exists x. rewrite elem_of_reverse. split; [by apply Hlink|].
    by apply Hrtc.
Qed.
End Order.

(** C11: the commit order is built from any log, cyclic parent links included, and the descendants
    of a commit are exactly the commits of the log from which parent links lead to it. When the
    parent links have no cycle, the rank of a commit of the log is the length of its longest
    chain of ancestors in the log, so a commit outranks each of its ancestors. *)
Theorem commit_order_correct (records : list GraphRecord) :
  ∃ order, build_order records = Some order
    ∧ (∀ sha, ∃ out, strict_descendants order sha = Some out
         ∧ ∀ c, c ∈ out ↔ tc (names_parent records) c sha)
    ∧ (acyclic (observed_parent records) →
         (∀ c, commit_observed records c →
            longest_chain (observed_parent records) c (rank order c))
         ∧ ∀ c a, commit_observed records c → tc (observed_parent records) c a →
             rank order a < rank order c).
Proof.
  destruct (build_order_spec records) as (order & Hb & Hch & Hrank). exists order.
  split_and!; [done|intros sha; by apply strict_descendants_spec|]. intros Hac.
  specialize (Hrank Hac). split; [done|]. intros c a Hc Htc.
  assert (∀ x y, observed_parent records x y → commit_observed records x →
    rank order y < rank order x) as Hstep.
  { intros x y Hxy Hx. apply (longest_chain_step _ x y _ _ (Hrank x Hx)); [|done].
    apply Hrank, Hxy. }
  induction Htc as [x y Hxy|x y z Hxy _ IH]; [by apply Hstep|].
  specialize (Hstep x y Hxy Hc). specialize (IH (proj2 Hxy)). lia.
Qed.

(** Parent links that lower a measure have no cycle; the check is by computation. *)
Lemma acyclic_by_measure (records : list GraphRecord) (f : string → nat) :
  map_Forall (λ c ps, Forall (λ p, f p < f c) ps) (commit_parents records) →
  acyclic (observed_parent records).
Proof.
  intros Hf x Hx.
  assert (∀ u v, tc (observed_parent records) u v → f v < f u) as Hlt.
  { induction 1 as [u v [Huv _]|u v w [Huv _] _ IH];
      (apply commit_parents_names in Huv; destruct (commit_parents records !! u) as [ps|] eqn:Hps;
       [|by apply elem_of_nil in Huv]); specialize (Hf _ _ Hps);
      pose proof (proj1 (Forall_forall _ _) Hf v Huv); cbn in *; lia. }
  specialize (Hlt x x Hx). lia.
Qed.

(** ** A concrete history *)
Module CommitDemo.
Definition snapshot (commit : string) (parents : list string) : GraphRecord :=
  GraphRecord.on_node (λ n, n{{ NodeRec.temporal := Some (TemporalMetadata.mk commit parents
      "2024-01-01T00:00:00Z" None "2024-01-01T00:00:00Z" None) }})
    (GraphRecord.node ("file@" +:+ commit) NodeKind.File None None None "").

(** A merge [d] of [b] and [c], both on top of [a]; the parent of [a] was not scanned. *)
Definition history : list GraphRecord :=
  [snapshot "d" ["b"; "c"]; snapshot "a" ["z"]; snapshot "b" ["a"]; snapshot "c" ["b"; "a"]].

Example demo_ranks :
  (λ o, rank o <$> ["a"; "b"; "c"; "d"; "z"]) <$> build_order history = Some [0; 1; 2; 3; 0]
  ∧ (iter <$> (build_order history ≫= λ o, strict_descendants o "b")) = Some ["c"; "d"].
Proof. split; vm_compute; reflexivity. Qed.

(** Two commits that name each other: the walk still ends. *)
Example demo_cycle :
  is_some (build_order [snapshot "x" ["y"]; snapshot "y" ["x"]]) = true.
Proof. vm_compute. reflexivity. Qed.
End CommitDemo.

Lemma commit_order_correct_witness :
  ∃ order, build_order CommitDemo.history = Some order ∧ rank order "a" < rank order "d".
Proof.
  destruct (commit_order_correct CommitDemo.history) as (order & Hb & _ & H).
  exists order. split; [exact Hb|]. apply H.
  - apply (acyclic_by_measure _ (λ c, default 0 (String.index 0 c "zabcd"))).
    apply (bool_decide_eq_true_1 _). vm_compute. reflexivity.
  - apply commit_parents_observed. vm_compute. eexists. reflexivity.
  - apply (tc_l _ "d" "b" "a"); [|apply tc_once]; (split;
      [apply commit_parents_names; apply (bool_decide_eq_true_1 _); vm_compute; reflexivity
      |apply commit_parents_observed; vm_compute; eexists; reflexivity]).
Defined.
