(* ===== verification/TransactionTime.v ===== *)
(** * Symbols as the store knew them

    [src/src/query/transaction_time.rs]: the versions of a symbol known at a transaction time
    and, when asked, true at a valid time. [DateTime] is the external type of zoned instants with
    its order by instant, its parser and its printer. [None] is the end of the fuel of the
    commit walks. *)
From S2P Require Import Prelude RustStr Ir IrOps LevelSearch WorkList Selection CommitOrder.

Module TxDiagnostic.
(* query/transaction_time.rs 14-19: TxDiagnostic *)
Record t : Type := mk { code : string; message : string }.
End TxDiagnostic.
#[export] Instance TxDiagnostic_eq_dec : EqDecision TxDiagnostic.t.
Proof. solve_decision. Defined.

Module TxQueryError.
(* query/transaction_time.rs 26-31: TxQueryError *)
Record t : Type := mk { code : string; message : string }.
End TxQueryError.

Module TxSymbolQuery.
(* query/transaction_time.rs 35-43: TxSymbolQuery *)
Record t : Type := mk { records : list GraphRecord; diagnostics : list TxDiagnostic.t }.
End TxSymbolQuery.

(** The derived order of [Option<T>]. *)
Definition option_cmp {A} (cmp : A → A → comparison) (a b : option A) : comparison :=
  match a, b with
  | None, None => Eq
  | None, Some _ => Lt
  | Some _, None => Gt
  | Some a, Some b => cmp a b
  end.

#[export] Instance option_cmp_order {A} (cmp : A → A → comparison) :
  CmpOrder cmp → CmpOrder (option_cmp cmp).
Proof.
  intros Hc. split; [intros [a|] [b|]; cbn; try done; apply cmp_opp|].
  intros [a|] [b|] [c|]; cbn; try done. apply cmp_trans.
Qed.

(** [Vec::retain] whose closure reports what it drops; the outer [option] is the model's. *)
Fixpoint retain {A D} (drops : A → option (option D)) (l : list A) : option (list A * list D) :=
  match l with
  | [] => Some ([], [])
  | x :: l =>
      let?o d := drops x in
      let?o r := retain drops l in
      Some (match d with None => (x :: r.1, r.2) | Some d => (r.1, d :: r.2) end)
  end.

(** ** The two time axes of a record *)

(* query/transaction_time.rs 74-99: record_transaction_time *)
Definition record_transaction_time (record : GraphRecord) : option string :=
  match record with
  | Node n =>
      match n.(NodeRec.transaction_time) with
      | Some tx => Some tx
      | None =>
          match n.(NodeRec.ingested_at) with
          | Some ia => Some ia
          | None =>
              if opt_str_eqb n.(NodeRec.valid_time_source) (Some "inferred_from_transaction_time")
              then n.(NodeRec.valid_time)
              else TemporalMetadata.observed_at <$> n.(NodeRec.temporal)
          end
      end
  | _ => None
  end.

(* query/transaction_time.rs 104-117: node_valid_time *)
Definition node_valid_time (record : GraphRecord) : option string :=
  match record with
  | Node n => or_else (TemporalMetadata.valid_time <$> n.(NodeRec.temporal)) n.(NodeRec.valid_time)
  | _ => None
  end.

(* query/transaction_time.rs 121-130: node_git_commit *)
Definition node_git_commit (record : GraphRecord) : option string :=
  match record with
  | Node n => TemporalMetadata.git_commit <$> n.(NodeRec.temporal)
  | _ => None
  end.

(* query/transaction_time.rs 608-619: symbol_as_of_transaction_time *)
Definition is_temporal (record : GraphRecord) : bool :=
  match record with
  | Node n => is_some n.(NodeRec.temporal)
  | Edge e => is_some e.(EdgeRec.temporal)
  | Tombstone _ => false
  end.

(* query/transaction_time.rs 523-529: symbol_as_of_transaction_time *)
Definition span_start (record : GraphRecord) : option N :=
  match record with
  | Node n => SourceSpan.start_line <$> n.(NodeRec.span)
  | _ => None
  end.

(* query/transaction_time.rs 336-348: symbol_as_of_transaction_time *)
Definition is_named_symbol (symbol_name : string) (record : GraphRecord) : bool :=
  match record with
  | Node n => bool_decide (n.(NodeRec.kind) = NodeKind.Symbol)
              && opt_str_eqb n.(NodeRec.name) (Some symbol_name)
  | _ => false
  end.

(* query/transaction_time.rs 692-693: symbol_as_of_transaction_time *)
Definition settle (diagnostics : list TxDiagnostic.t) : list TxDiagnostic.t :=
  dedup_by_key id
    (sort_by (cmp_then (cmp_on TxDiagnostic.code String.compare)
                       (cmp_on TxDiagnostic.message String.compare)) diagnostics).

(* query/transaction_time.rs 686-690: symbol_as_of_transaction_time *)
Definition row_cmp : GraphRecord → GraphRecord → comparison :=
  cmp_then (cmp_on span_start (option_cmp N.compare)) (cmp_on GraphRecord.id String.compare).

Section Query.
Context {DateTime : Type} (instant : DateTime → Z).
Context (parse_from_rfc3339 : string → result DateTime string) (to_rfc3339 : DateTime → string).

Definition earlier (a b : DateTime) : bool := (instant a <? instant b)%Z.
(** [Ord::min] and [Ord::max]. *)
Definition dt_min (self other : DateTime) : DateTime := if earlier other self then other else self.
Definition dt_max (self other : DateTime) : DateTime := if earlier other self then self else other.

(** [parse_from_rfc3339(s).ok()]. *)
Definition parsed (s : option string) : option DateTime :=
  let?o s := s in match parse_from_rfc3339 s with Ok d => Some d | Err _ => None end.

(** [record_transaction_time(r).and_then(parse)] and the same of the valid time. *)
Definition tx_of (record : GraphRecord) : option DateTime := parsed (record_transaction_time record).
Definition valid_of (record : GraphRecord) : option DateTime := parsed (node_valid_time record).

(** [Some(acc.map_or(tx, |m| m.min(tx)))]. *)
Definition widen (pick : DateTime → DateTime → DateTime) (acc : option DateTime) (tx : DateTime)
    : option DateTime :=
  Some (match acc with None => tx | Some m => pick m tx end).

(* query/transaction_time.rs 261-278: store_transaction_bounds *)
Definition store_transaction_bounds (records : list GraphRecord) : option (DateTime * DateTime) :=
  let '(min_tx, max_tx) :=
    foldl (λ acc r,
      match tx_of r with
      | Some tx => (widen dt_min acc.1 tx, widen dt_max acc.2 tx)
      | None => acc
      end) (None, None) records in
  match min_tx, max_tx with Some min, Some max => Some (min, max) | _, _ => None end.

Record TxCandidate : Type := mkTxCandidate {
  cand_record : GraphRecord;
  cand_tx : DateTime;
  cand_valid : option DateTime;
  cand_tie : nat
}.

(** ** The versions in view *)
Section View.
Context (tx_instant : DateTime) (vt_requested : option DateTime).

(** The record is known at the transaction time and, when asked, true at the valid time. *)
(* query/transaction_time.rs 542-560: symbol_as_of_transaction_time *)
Definition on_axes (record : GraphRecord) : bool :=
  match tx_of record with
  | None => false
  | Some tx =>
      if earlier tx_instant tx then false
      else
        match vt_requested with
        | None => true
        | Some vt_req =>
            match valid_of record with
            | None => false
            | Some vt => negb (earlier vt_req vt)
            end
        end
  end.

(* query/transaction_time.rs 622-644: symbol_as_of_transaction_time *)
Definition axes_visible (record : GraphRecord) : bool :=
  is_some (node_git_commit record) && on_axes record.

(* query/transaction_time.rs 537-562: symbol_as_of_transaction_time *)
Definition replacement_effective (records : list GraphRecord) (target : string) : bool :=
  existsb (λ r, (GraphRecord.id r =s? target) && on_axes r) records.

(** The valid time to compare by, or the diagnostics of a version that is left out. *)
(* query/transaction_time.rs 433-460: symbol_as_of_transaction_time *)
Definition valid_axis (record : GraphRecord) : result (option DateTime) (list TxDiagnostic.t) :=
  match vt_requested with
  | None => Ok None
  | Some vt_req =>
      match node_valid_time record with
      | None => Err [TxDiagnostic.mk "missing_valid_time"
          ("record '" +:+ GraphRecord.id record
           +:+ "' has no valid_time but --as-of was supplied; excluded")]
      | Some vt_str =>
          match parse_from_rfc3339 vt_str with
          | Err _ => Err [TxDiagnostic.mk "invalid_record_valid_time"
              ("record '" +:+ GraphRecord.id record +:+ "' has an unparseable valid_time '"
               +:+ vt_str +:+ "'; excluded")]
          | Ok vt => if earlier vt_req vt then Err [] else Ok (Some vt)
          end
      end
  end.

(** The tuple comparison [cur > prev]. *)
(* query/transaction_time.rs 463-476: symbol_as_of_transaction_time *)
Definition replaces (cur prev : TxCandidate) : bool :=
  let by_tx := cmp_then (cmp_on (λ c, instant c.(cand_tx)) Z.compare) (cmp_on cand_tie Nat.compare) in
  match cur.(cand_valid), prev.(cand_valid) with
  | Some cur_vt, Some prev_vt =>
      bool_decide (then_cmp (Z.compare (instant cur_vt) (instant prev_vt)) (by_tx cur prev) = Gt)
  | _, _ => bool_decide (by_tx cur prev = Gt)
  end.

Record Scan : Type := mkScan {
  scan_diagnostics : list TxDiagnostic.t;
  name_min_tx : option DateTime;
  name_max_tx : option DateTime;
  best : gmap string TxCandidate
}.

(* query/transaction_time.rs 397-480: symbol_as_of_transaction_time *)
Definition examine (order : CommitOrder) (s : Scan) (entry : nat * GraphRecord) : Scan :=
  let '(named_idx, record) := entry in
  let tie := match node_git_commit record with Some c => rank order c | None => named_idx end in
  let note ds := s{{ scan_diagnostics := s.(scan_diagnostics) ++ ds }} in
  match record_transaction_time record with
  | None => note [TxDiagnostic.mk "missing_transaction_metadata"
      ("record '" +:+ GraphRecord.id record
       +:+ "' has no transaction-time metadata; excluded (no current-state fallback)")]
  | Some tt_str =>
      match parse_from_rfc3339 tt_str with
      | Err _ => note [TxDiagnostic.mk "invalid_record_transaction_time"
          ("record '" +:+ GraphRecord.id record +:+ "' has an unparseable transaction_time '"
           +:+ tt_str +:+ "'; excluded")]
      | Ok tx =>
          let s := s{{ name_min_tx := widen dt_min s.(name_min_tx) tx;
                       name_max_tx := widen dt_max s.(name_max_tx) tx }} in
          if earlier tx_instant tx then s
          else
            match valid_axis record with
            | Err ds => s{{ scan_diagnostics := s.(scan_diagnostics) ++ ds }}
            | Ok vt =>
                let cand := mkTxCandidate record tx vt tie in
                let replace := match s.(best) !! GraphRecord.id record with
                               | None => true
                               | Some prev => replaces cand prev
                               end in
                if replace then s{{ best := <[GraphRecord.id record := cand]> s.(best) }} else s
            end
      end
  end.

(** ** What happened to a version since *)

(* query/transaction_time.rs 564-584: symbol_as_of_transaction_time *)
Definition superseded (records : list GraphRecord) (r : GraphRecord)
    : option (option TxDiagnostic.t) :=
  match r with
  | Node n =>
      match n.(NodeRec.superseded_by) with
      | None => Some None
      | Some target =>
          if replacement_effective records target then
            Some (Some (TxDiagnostic.mk "superseded"
              ("record '" +:+ GraphRecord.id r +:+ "' is superseded by '" +:+ target
               +:+ "', which is effective in the view; excluded")))
          else Some None
      end
  | _ => Some None
  end.

(* query/transaction_time.rs 647-651: symbol_as_of_transaction_time *)
Definition in_view_commits (records : list GraphRecord) : gset string :=
  list_to_set (omap node_git_commit (filter (λ r, axes_visible r = true) records)).

(* query/transaction_time.rs 652-659: symbol_as_of_transaction_time *)
Definition id_commits (named : list GraphRecord) : gmap string (gset string) :=
  foldl (λ m r,
    if axes_visible r then
      match node_git_commit r with
      | Some commit =>
          <[GraphRecord.id r := {[commit]} ∪ default ∅ (m !! GraphRecord.id r)]> m
      | None => m
      end
    else m) ∅ named.

(* query/transaction_time.rs 660-684: symbol_as_of_transaction_time *)
Definition removed (order : CommitOrder) (records named : list GraphRecord) (symbol_name : string)
    (r : GraphRecord) : option (option TxDiagnostic.t) :=
  if negb (is_temporal r) then Some None
  else
    match node_git_commit r with
    | None => Some None
    | Some last_commit =>
        let snapshots := id_commits named !! GraphRecord.id r in
        let?o descendants := strict_descendants order last_commit in
        if existsb (λ c, bool_decide (c ∈ in_view_commits records)
                         && match snapshots with
                            | None => true
                            | Some s => negb (bool_decide (c ∈ s))
                            end) (iter descendants)
        then Some (Some (TxDiagnostic.mk "absent_at_transaction"
          ("symbol '" +:+ symbol_name +:+ "' (record '" +:+ GraphRecord.id r
           +:+ "') was absent at a commit descending from its last snapshot '" +:+ last_commit
           +:+ "' in the requested view; excluded")))
        else Some None
    end.

(** ** Notes on the range *)

(** The note that the instant precedes the store. *)
(* query/transaction_time.rs 367-377: symbol_as_of_transaction_time *)
Definition before_first (tx_as_of : string) (store_min_tx : option DateTime)
    : option TxDiagnostic.t :=
  let?o min := store_min_tx in
  if earlier tx_instant min then
    Some (TxDiagnostic.mk "before_first_transaction"
      ("tx-as-of '" +:+ tx_as_of +:+ "' precedes the earliest known store transaction ('"
       +:+ to_rfc3339 min +:+ "'); empty view"))
  else None.

(* query/transaction_time.rs 484-518: symbol_as_of_transaction_time *)
Definition range_notes (symbol_name tx_as_of : string) (store_min_tx name_min_tx name_max_tx : option DateTime)
    : list TxDiagnostic.t :=
  match before_first tx_as_of store_min_tx with
  | Some d => [d]
  | None =>
      match name_min_tx with
      | Some name_min =>
          if earlier tx_instant name_min then
            [TxDiagnostic.mk "symbol_not_yet_known"
              ("symbol '" +:+ symbol_name +:+ "' has no transaction at or before '" +:+ tx_as_of
               +:+ "' (first known at '" +:+ to_rfc3339 name_min +:+ "'); empty view")]
          else []
      | None => []
      end
  end
  ++ match name_max_tx with
     | Some max =>
         if earlier tx_instant max then []
         else
           [TxDiagnostic.mk "after_latest_transaction"
             ("tx-as-of '" +:+ tx_as_of
              +:+ "' is at or after the latest known transaction for symbol '" +:+ symbol_name
              +:+ "' ('" +:+ to_rfc3339 max +:+ "'); view reflects all known history")]
     | None => []
     end.

(* query/transaction_time.rs 328-699: symbol_as_of_transaction_time *)
Definition view_of (records : list GraphRecord) (symbol_name tx_as_of : string)
    (store_tx_bounds : option (DateTime * DateTime)) : option TxSymbolQuery.t :=
  let?o order := build_order records in
  let named := filter (λ r, is_named_symbol symbol_name r = true) records in
  let store_min_tx := match store_tx_bounds with
                      | Some (min, _) => Some min
                      | None => fst <$> store_transaction_bounds records
                      end in
  match named with
  | [] =>
      Some (TxSymbolQuery.mk []
        (settle (TxDiagnostic.mk "no_named_symbol"
                   ("no Symbol named '" +:+ symbol_name +:+ "' exists in the store")
                 :: option_list (before_first tx_as_of store_min_tx))))
  | _ =>
      let scan := foldl (examine order) (mkScan [] None None ∅) (imap pair named) in
      let notes := range_notes symbol_name tx_as_of store_min_tx scan.(name_min_tx) scan.(name_max_tx) in
      let selected := omap (λ k, cand_record <$> scan.(best) !! k) (keys scan.(best)) in
      let?o kept := retain (superseded records) selected in
      let?o left := retain (removed order records named symbol_name) kept.1 in
      Some (TxSymbolQuery.mk (sort_by row_cmp left.1)
              (settle (scan.(scan_diagnostics) ++ notes ++ kept.2 ++ left.2)))
  end.
End View.

(* query/transaction_time.rs 309-699: symbol_as_of_transaction_time *)
Definition symbol_as_of_transaction_time (records : list GraphRecord) (symbol_name tx_as_of : string)
    (as_of_valid_time : option string) (store_tx_bounds : option (DateTime * DateTime))
    : option (result TxSymbolQuery.t TxQueryError.t) :=
  match parse_from_rfc3339 tx_as_of with
  | Err e => Some (Err (TxQueryError.mk "invalid_timestamp"
      ("invalid --tx-as-of timestamp '" +:+ tx_as_of +:+ "': " +:+ e)))
  | Ok tx_instant =>
      let view vt_requested :=
        Ok <$> view_of tx_instant vt_requested records symbol_name tx_as_of store_tx_bounds in
      match as_of_valid_time with
      | None => view None
      | Some v =>
          match parse_from_rfc3339 v with
          | Err e => Some (Err (TxQueryError.mk "invalid_timestamp"
              ("invalid --as-of timestamp '" +:+ v +:+ "': " +:+ e)))
          | Ok vt_req => view (Some vt_req)
          end
      end
  end.
End Query.

(** ** [retain] *)
Lemma retain_spec {A D} (drops : A → option (option D)) (l : list A) :
  (∀ x, x ∈ l → is_Some (drops x)) →
  ∃ kept dropped, retain drops l = Some (kept, dropped)
    ∧ kept `sublist_of` l ∧ ∀ x, x ∈ kept ↔ x ∈ l ∧ drops x = Some None.
Proof.
  induction l as [|x l IH]; intros Hl; cbn [retain].
  { exists [], []. split_and!; [done..|]. set_solver. }
  destruct (Hl x) as [d Hd]; [by left|]. rewrite Hd. cbn [mbind option_bind].
  destruct IH as (kept & dropped & -> & Hsub & Hk); [intros; apply Hl; by right|].
  cbn [mbind option_bind fst snd]. destruct d as [d|].
  - exists kept, (d :: dropped). split_and!; [done|by apply sublist_cons|].
    intros y. rewrite Hk, elem_of_cons. split; [naive_solver|]. intros [[->|?] ?]; [congruence|done].
  - exists (x :: kept), dropped. split_and!; [done|by apply sublist_skip|].
    intros y. rewrite !elem_of_cons, Hk. naive_solver.
Qed.

(** ** What the view is *)
Section Spec.
Context {DateTime : Type} (instant : DateTime → Z).
Context (parse_from_rfc3339 : string → result DateTime string).
Context (tx_instant : DateTime) (vt_requested : option DateTime).
Abbreviation known := (on_axes instant parse_from_rfc3339 tx_instant vt_requested).

(** Versions compare by valid time when one is asked, then by transaction time, then by the
    rank of their commit or their position among the versions. *)
Definition version_cmp : TxCandidate (DateTime := DateTime) → TxCandidate → comparison :=
  cmp_then (cmp_on (λ c, from_option instant 0%Z c.(cand_valid)) Z.compare)
    (cmp_then (cmp_on (λ c, instant c.(cand_tx)) Z.compare) (cmp_on cand_tie Nat.compare)).
(** The later version is the better one. *)
Definition newer : TxCandidate (DateTime := DateTime) → TxCandidate → comparison := flip version_cmp.

#[local] Instance version_cmp_order : CmpOrder version_cmp.
Proof. unfold version_cmp. apply _. Qed.
#[local] Instance newer_order : CmpOrder newer.
Proof. apply flip_cmp_order, _. Qed.

(** The version a record of the symbol offers, if it is known in the view. *)
Definition version_of (order : CommitOrder) (entry : nat * GraphRecord)
    : option (string * TxCandidate) :=
  let '(i, r) := entry in
  if known r then
    let?o tx := tx_of parse_from_rfc3339 r in
    Some (GraphRecord.id r,
          mkTxCandidate r tx
            (match vt_requested with None => None | Some _ => valid_of parse_from_rfc3339 r end)
            (match node_git_commit r with Some c => rank order c | None => i end))
  else None.

Definition versions (order : CommitOrder) (records : list GraphRecord) (symbol_name : string)
    : list (string * TxCandidate) :=
  omap (version_of order) (imap pair (filter (λ r, is_named_symbol symbol_name r = true) records)).

(** [r] is the newest version of its id in view. *)
Definition newest (order : CommitOrder) (records : list GraphRecord) (symbol_name : string)
    (r : GraphRecord) : Prop :=
  ∃ c, selects newer (offered (GraphRecord.id r) (versions order records symbol_name)) c
    ∧ c.(cand_record) = r.

(** The record that supersedes [r] is known in view. *)
Definition replaced (records : list GraphRecord) (r : GraphRecord) : Prop :=
  ∃ n target q, r = Node n ∧ n.(NodeRec.superseded_by) = Some target
    ∧ q ∈ records ∧ GraphRecord.id q = target ∧ known q = true.

(** A commit in view that descends from the commit of [r] has no snapshot of the id of [r]. *)
Definition gone (records : list GraphRecord) (symbol_name : string) (r : GraphRecord) : Prop :=
  ∃ last c, node_git_commit r = Some last ∧ tc (names_parent records) c last
    ∧ (∃ q, q ∈ records ∧ node_git_commit q = Some c ∧ known q = true)
    ∧ ¬ ∃ q, q ∈ records ∧ is_named_symbol symbol_name q = true ∧ GraphRecord.id q = GraphRecord.id r
             ∧ node_git_commit q = Some c ∧ known q = true.

Definition in_view (order : CommitOrder) (records : list GraphRecord) (symbol_name : string)
    (r : GraphRecord) : Prop :=
  newest order records symbol_name r ∧ ¬ replaced records r ∧ ¬ gone records symbol_name r.

(** *** The scan keeps the newest version of each id *)
Abbreviation scan_step := (examine instant parse_from_rfc3339 tx_instant vt_requested).
Abbreviation candidate := (TxCandidate (DateTime := DateTime)).

Definition shaped (c : candidate) : Prop := is_some c.(cand_valid) = is_some vt_requested.

Lemma replaces_newer (c p : candidate) :
  shaped c → shaped p → replaces instant c p = bool_decide (newer c p = Lt).
Proof using.
  intros Hc Hp. unfold newer, flip. rewrite (cmp_opp (cmp := version_cmp) c p).
  rewrite (bool_decide_ext (CompOpp (version_cmp c p) = Lt) (version_cmp c p = Gt))
    by by destruct (version_cmp c p).
  unfold shaped in *. unfold replaces, version_cmp, cmp_then, cmp_on.
  destruct (cand_valid c) as [v|], (cand_valid p) as [v'|], vt_requested; cbn in Hc, Hp; try done.
Qed.

Lemma valid_axis_spec r tx :
  tx_of parse_from_rfc3339 r = Some tx → earlier instant tx_instant tx = false →
  match valid_axis instant parse_from_rfc3339 vt_requested r with
  | Ok vt => known r = true
      ∧ vt = (match vt_requested with None => None | Some _ => valid_of parse_from_rfc3339 r end)
      ∧ is_some vt = is_some vt_requested
  | Err _ => known r = false
  end.
Proof using.
  intros Htx He. unfold valid_axis, on_axes. rewrite Htx, He.
  destruct vt_requested as [v|]; [|done]. unfold valid_of, parsed.
  destruct (node_valid_time r) as [s|]; cbn [mbind option_bind]; [|done].
  destruct (parse_from_rfc3339 s) as [vt|]; [|done]. by destruct (earlier instant v vt).
Qed.

Lemma version_of_shaped order i r id c : version_of order (i, r) = Some (id, c) → shaped c
  ∧ id = GraphRecord.id r ∧ c.(cand_record) = r ∧ known r = true.
Proof using.
  unfold version_of. destruct (known r) eqn:Hk; [|done].
  destruct (tx_of _ r) as [tx|] eqn:Htx; cbn; [|done]. intros [= <- <-]. split_and!; [|done..].
  unfold shaped. cbn. unfold on_axes in Hk. rewrite Htx in Hk.
  destruct (earlier instant tx_instant tx); [done|].
  destruct vt_requested; [|done]. by destruct (valid_of _ r).
Qed.

Lemma scan_best order l s :
  (∀ id c, s.(best) !! id = Some c → shaped c) →
  (foldl (scan_step order) s l).(best) = foldl (keep_at newer) s.(best) (omap (version_of order) l).
Proof using.
  revert s. induction l as [|[i r] l IH]; intros s Hs; [done|]. cbn [foldl omap list_omap].
  assert ((scan_step order s (i, r)).(best) = match version_of order (i, r) with
    | Some o => keep_at newer s.(best) o | None => s.(best) end) as Hstep.
  { unfold examine, version_of.
    destruct (record_transaction_time r) as [txs|] eqn:Ht.
    2:{ unfold on_axes, tx_of. by rewrite Ht. }
    destruct (parse_from_rfc3339 txs) as [tx|] eqn:Hp.
    2:{ unfold on_axes, tx_of. rewrite Ht. cbn. by rewrite Hp. }
    assert (tx_of parse_from_rfc3339 r = Some tx) as Htx by (unfold tx_of; rewrite Ht; cbn; by rewrite Hp).
    destruct (earlier instant tx_instant tx) eqn:He.
    { unfold on_axes. by rewrite Htx, He. }
    pose proof (valid_axis_spec r tx Htx He) as Hv.
    destruct (valid_axis _ _ _ r) as [vt|ds]; [|by rewrite Hv].
    destruct Hv as (-> & -> & Hsome). rewrite Htx. cbn [mbind option_bind].
    unfold keep_at. cbn [fst snd].
    match goal with |- context [best ?s1 !! _] => change (best s1) with (best s) end.
    destruct (s.(best) !! GraphRecord.id r) as [prev|] eqn:Hprev; [|done].
    rewrite replaces_newer; [|done|by eapply Hs]. by case_bool_decide. }
  rewrite IH.
  - rewrite Hstep. by destruct (version_of order (i, r)).
  - intros id c. rewrite Hstep. destruct (version_of order (i, r)) as [[id' c']|] eqn:Hver; [|apply Hs].
    destruct (version_of_shaped _ _ _ _ _ Hver) as [Hsh _]. unfold keep_at. cbn [fst snd].
    assert (∀ x, <[id' := c']> s.(best) !! id = Some x → shaped x) as Hins.
    { intros x. rewrite lookup_insert_Some. intros [[_ <-]|[_ ?]]; [done|by eapply Hs]. }
    destruct (s.(best) !! id'); [case_bool_decide|]; eauto.
Qed.

Section OverLog.
Context (order : CommitOrder) (records : list GraphRecord) (symbol_name : string).
Abbreviation named := (filter (λ r, is_named_symbol symbol_name r = true) records).
Definition newest_versions : gmap string candidate :=
  foldl (keep_at newer) ∅ (versions order records symbol_name).
Definition selected_rows : list GraphRecord :=
  omap (λ k, cand_record <$> newest_versions !! k) (keys newest_versions).

Lemma newest_versions_Some id c :
  newest_versions !! id = Some c
  ↔ selects newer (offered id (versions order records symbol_name)) c.
Proof using. apply keep_at_selects, _. Qed.

Lemma newest_versions_id id c : newest_versions !! id = Some c → GraphRecord.id c.(cand_record) = id.
Proof using.
  intros Hc%newest_versions_Some%selects_elem%elem_of_offered.
  unfold versions in Hc. apply list_elem_of_omap in Hc as ([i r] & _ & Hv).
  by destruct (version_of_shaped _ _ _ _ _ Hv) as (_ & -> & -> & _).
Qed.

Lemma elem_of_selected r : r ∈ selected_rows ↔ newest order records symbol_name r.
Proof using.
  unfold selected_rows, newest. rewrite list_elem_of_omap. setoid_rewrite keys_elem. split.
  - intros (k & _ & Hr). destruct (newest_versions !! k) as [c|] eqn:Hc; [|done].
    cbn in Hr. injection Hr as <-. exists c. split; [|done].
    rewrite (newest_versions_id _ _ Hc). by apply newest_versions_Some.
  - intros (c & Hc%newest_versions_Some & <-). eexists. rewrite Hc. split; [by eexists|done].
Qed.

Lemma selected_NoDup : NoDup (GraphRecord.id <$> selected_rows).
Proof using.
  assert (∀ l : list string, (∀ k, k ∈ l → is_Some (newest_versions !! k)) →
    GraphRecord.id <$> (omap (λ k, cand_record <$> newest_versions !! k) l : list GraphRecord) = l) as H.
  { induction l as [|k l IH]; intros Hl; csimpl; [done|].
    destruct (Hl k) as [c Hc]; [by left|]. rewrite Hc. csimpl.
    rewrite (newest_versions_id _ _ Hc). f_equal. apply IH. intros j Hj. apply Hl. by right. }
  unfold selected_rows. rewrite H; [apply keys_NoDup|]. intros k. apply keys_elem.
Qed.

(** *** What is dropped *)
Lemma superseded_spec r :
  is_Some (superseded instant parse_from_rfc3339 tx_instant vt_requested records r)
  ∧ (superseded instant parse_from_rfc3339 tx_instant vt_requested records r = Some None
     ↔ ¬ replaced records r).
Proof using.
  unfold superseded, replaced. destruct r as [n|e|t]; [|split; [by eexists|naive_solver]..].
  destruct n.(NodeRec.superseded_by) as [target|] eqn:Hs; [|split; [by eexists|naive_solver]].
  unfold replacement_effective. destruct (existsb _ records) eqn:E.
  - split; [by eexists|]. split; [done|]. intros Hno. exfalso. apply Hno.
    apply existsb_exists in E as (q & Hq%list_elem_of_In & H). breflect.
    exists n, target, q. by split_and!.
  - split; [by eexists|]. split; [|done]. intros _ (n' & t & q & [= <-] & Ht & Hq & Hid & Hk).
    simplify_eq. assert (existsb (λ r, (GraphRecord.id r =s? GraphRecord.id q) && known r) records = true)
      as Htrue; [|congruence].
    apply existsb_exists. exists q. split; [by apply list_elem_of_In|]. by rewrite String.eqb_refl, Hk.
Qed.

Lemma elem_of_in_view_commits c :
  c ∈ in_view_commits instant parse_from_rfc3339 tx_instant vt_requested records
  ↔ ∃ q, q ∈ records ∧ node_git_commit q = Some c ∧ known q = true.
Proof using.
  unfold in_view_commits. rewrite elem_of_list_to_set, list_elem_of_omap.
  setoid_rewrite list_elem_of_filter. unfold axes_visible. split.
  - intros (q & [Hv Hq] & Hc). exists q. breflect. done.
  - intros (q & Hq & Hc & Hk). exists q. by rewrite Hc, Hk.
Qed.

Lemma elem_of_id_commits (l : list GraphRecord) id c :
  c ∈ default ∅ (id_commits instant parse_from_rfc3339 tx_instant vt_requested l !! id)
  ↔ ∃ q, q ∈ l ∧ GraphRecord.id q = id ∧ node_git_commit q = Some c ∧ known q = true.
Proof using.
  unfold id_commits. rewrite (foldl_or _ (λ m : gmap string (gset string), c ∈ default ∅ (m !! id))
    (λ q, GraphRecord.id q = id ∧ node_git_commit q = Some c ∧ known q = true)).
  - rewrite lookup_empty. cbn. set_solver.
  - intros m q _. unfold axes_visible. destruct (node_git_commit q) as [d|]; cbn [is_some andb]; [|naive_solver].
    destruct (known q); cbn [andb]; [|naive_solver].
    destruct (decide (GraphRecord.id q = id)) as [<-|Hne].
    + rewrite lookup_insert_eq. cbn [from_option id]. rewrite elem_of_union, elem_of_singleton. naive_solver.
    + rewrite lookup_insert_ne by done. naive_solver.
Qed.

Hypothesis order_children : order.(commit_children) = invert_links (commit_parents records).

Lemma removed_spec r :
  let res := removed instant parse_from_rfc3339 tx_instant vt_requested order records named symbol_name r in
  is_Some res ∧ (res = Some None ↔ ¬ gone records symbol_name r).
Proof using order_children.
  cbn zeta. unfold removed, gone.
  assert (∀ r, negb (is_temporal r) = true → node_git_commit r = None) as Hnt.
  { clear. intros [n|e|t]; cbn; [|done..]. by destruct n.(NodeRec.temporal). }
  destruct (negb (is_temporal r)) eqn:Hneg; [rewrite (Hnt _ Hneg); split; [by eexists|naive_solver]|].
  destruct (node_git_commit r) as [last|]; [|split; [by eexists|naive_solver]].
  destruct (strict_descendants_spec records order last order_children) as (out & -> & Hout).
  cbn [mbind option_bind].
  match goal with |- context [existsb ?f (iter out)] => assert (∀ c, f c = true ↔
    (∃ q, q ∈ records ∧ node_git_commit q = Some c ∧ known q = true)
    ∧ ¬ ∃ q, q ∈ records ∧ is_named_symbol symbol_name q = true ∧ GraphRecord.id q = GraphRecord.id r
             ∧ node_git_commit q = Some c ∧ known q = true) as Hf end.
  { intros c. rewrite andb_true_iff, bool_decide_eq_true, elem_of_in_view_commits.
    pose proof (elem_of_id_commits named (GraphRecord.id r) c) as Hid.
    setoid_rewrite list_elem_of_filter in Hid.
    destruct (id_commits _ _ _ _ named !! GraphRecord.id r) as [s|]; cbn [from_option id] in Hid.
    - rewrite negb_true_iff, bool_decide_eq_false, Hid. naive_solver.
    - split; [|naive_solver]. intros [H _]. split; [done|].
      intros (q & ? & ? & ? & ? & ?). apply (not_elem_of_empty (C := gset string) c), Hid.
      exists q. by split_and!. }
  destruct (existsb _ (iter out)) eqn:E; (split; [by eexists|]).
  - split; [done|]. intros Hno. exfalso. apply Hno.
    apply existsb_exists in E as (c & Hc%list_elem_of_In%elem_of_iter & [Hin Hno']%Hf).
    exists last, c. split_and!; [done|by apply Hout|done|done].
  - split; [|done]. intros _ (l & c & [= <-] & Htc & Hin & Hno).
    revert E. apply not_false_iff_true. apply existsb_exists. exists c. split; [|by apply Hf].
    by apply list_elem_of_In, elem_of_iter, Hout.
Qed.
End OverLog.
End Spec.

(** ** What is written later does not change an earlier view *)
Section Later.
Context {DateTime : Type} (instant : DateTime → Z).
Context (parse_from_rfc3339 : string → result DateTime string).
Abbreviation in_view_at T V := (in_view instant parse_from_rfc3339 T V).
Context (T : DateTime) (V : option DateTime) (old later : list GraphRecord).
Abbreviation new := (old ++ later).

(** Every record written later carries a later transaction time, if it carries one. *)
Definition written_after : Prop :=
  ∀ r tx, r ∈ later → tx_of parse_from_rfc3339 r = Some tx → earlier instant T tx = true.
(** A commit written later is one the log already has, with no other parents, or a new one that
    no commit of the log names as a parent. *)
Definition links_only_forward : Prop :=
  ∀ n t, Node n ∈ later → n.(NodeRec.temporal) = Some t →
    let c := t.(TemporalMetadata.git_commit) in
    (commit_observed old c ∧ ∀ p, p ∈ t.(TemporalMetadata.git_parent_commits) → names_parent old c p)
    ∨ (¬ commit_observed old c ∧ ∀ x, ¬ names_parent old x c).

Hypothesis Hafter : written_after.
Hypothesis Hforward : links_only_forward.
Hypothesis Hacyclic : acyclic (observed_parent new).

Abbreviation known := (on_axes instant parse_from_rfc3339 T V).

Lemma later_unknown r : r ∈ later → known r = false.
Proof.
  intros Hr. unfold on_axes. destruct (tx_of _ r) as [tx|] eqn:Htx; [|done].
  by rewrite (Hafter r tx Hr Htx).
Qed.

Lemma known_old r : r ∈ new ∧ known r = true ↔ r ∈ old ∧ known r = true.
Proof.
  rewrite elem_of_app. split; [|naive_solver]. intros [[?|Hr] Hk]; [done|].
  rewrite later_unknown in Hk by done. done.
Qed.

Lemma names_parent_old c p : commit_observed old c → names_parent new c p ↔ names_parent old c p.
Proof.
  intros Hc. split.
  - intros (n & t & [Hn|Hn]%elem_of_app & Ht & <- & Hp); [by exists n, t|].
    destruct (Hforward n t Hn Ht) as [[_ Hpar]|[Hno _]]; [by apply Hpar|done].
  - intros (n & t & Hn & ?). exists n, t. split; [set_solver|done].
Qed.

Lemma observed_old x p : names_parent old x p → commit_observed new p → commit_observed old p.
Proof.
  intros Hx (n & t & [Hn|Hn]%elem_of_app & Ht & <-); [by exists n, t|].
  destruct (Hforward n t Hn Ht) as [[? _]|[_ Hno]]; [done|by destruct (Hno x)].
Qed.

Lemma observed_new c : commit_observed old c → commit_observed new c.
Proof. intros (n & t & Hn & ?). exists n, t. split; [set_solver|done]. Qed.

Lemma observed_parent_old c p :
  commit_observed old c → observed_parent new c p ↔ observed_parent old c p.
Proof.
  intros Hc. unfold observed_parent. rewrite names_parent_old by done. split; intros [H1 H2].
  - split; [done|by eapply observed_old].
  - split; [done|by apply observed_new].
Qed.

Lemma chain_old c n :
  commit_observed old c →
  ancestor_chain (observed_parent new) c n ↔ ancestor_chain (observed_parent old) c n.
Proof.
  intros Hc. split.
  - intros H. revert Hc. induction H as [x|x p n Hxp _ IH]; intros Hx; [constructor|].
    apply observed_parent_old in Hxp; [|done]. eapply ancestor_chain_cons; [done|].
    apply IH, Hxp.
  - induction 1 as [x|x p n Hxp _ IH]; [constructor|]. eapply ancestor_chain_cons.
    + by apply observed_parent_old.
    + apply IH, Hxp.
Qed.

Lemma rank_old o o' c :
  build_order old = Some o → build_order new = Some o' → commit_observed old c →
  rank o' c = rank o c.
Proof.
  intros Ho Ho' Hc.
  destruct (build_order_spec old) as (? & Hb & _ & H1). rewrite Ho in Hb. injection Hb as <-.
  destruct (build_order_spec new) as (? & Hb & _ & H2). rewrite Ho' in Hb. injection Hb as <-.
  specialize (H2 Hacyclic c (observed_new c Hc)).
  assert (acyclic (observed_parent old)) as Hac.
  { intros x Hx. apply (Hacyclic x). eapply tc_mono; [|exact Hx]. intros u v [(n & t & Hn & Ht) Hv].
    split; [exists n, t; split; [set_solver|done]|by apply observed_new]. }
  specialize (H1 Hac c Hc). destruct H1 as [A1 B1], H2 as [A2 B2].
  apply Nat.le_antisymm; [apply B1|apply B2]; by apply chain_old.
Qed.

Lemma descends_old c last :
  commit_observed old c → tc (names_parent new) c last ↔ tc (names_parent old) c last.
Proof.
  intros Hc. split.
  - intros H. revert Hc. induction H as [x y Hxy|x y z Hxy Hyz IH]; intros Hx;
      (apply names_parent_old in Hxy; [|done]); [by apply tc_once|].
    eapply tc_l; [exact Hxy|]. apply IH. eapply observed_old; [exact Hxy|].
    inversion Hyz as [? ? (n & t & ? & ? & ? & _)|? ? ? (n & t & ? & ? & ? & _)]; by exists n, t.
  - apply tc_mono. intros u v (n & t & Hn & ?). exists n, t. split; [set_solver|done].
Qed.

Lemma versions_old o o' symbol_name :
  build_order old = Some o → build_order new = Some o' →
  versions instant parse_from_rfc3339 T V o' new symbol_name
  = versions instant parse_from_rfc3339 T V o old symbol_name.
Proof.
  intros Ho Ho'. unfold versions. rewrite filter_app, imap_app, omap_app.
  match goal with |- _ ++ ?l = _ => assert (l = []) as -> end.
  { apply elem_of_nil_inv. intros v ([i r] & Hr & Hv)%list_elem_of_omap.
    apply elem_of_lookup_imap in Hr as (j & r' & [= -> ->] & Hr).
    apply list_elem_of_lookup_2, list_elem_of_filter in Hr as [_ Hr].
    unfold version_of in Hv. by rewrite (later_unknown _ Hr) in Hv. }
  rewrite app_nil_r. apply list_omap_ext, Forall_Forall2_diag, Forall_forall. intros [i r] Hr.
  apply elem_of_imap_pair in Hr. apply list_elem_of_lookup_2, list_elem_of_filter in Hr as [_ Hr].
  unfold version_of. destruct (node_git_commit r) as [c|] eqn:Hc; [|done].
  rewrite (rank_old o o' c); [done..|]. destruct r as [n|e|t]; [|done..]. cbn in Hc.
  destruct n.(NodeRec.temporal) as [t|] eqn:Ht; [|done]. injection Hc as <-. by exists n, t.
Qed.

Lemma commit_of_old q c : q ∈ old → node_git_commit q = Some c → commit_observed old c.
Proof.
  intros Hq Hc. destruct q as [n|e|t]; [|done..]. cbn in Hc.
  destruct n.(NodeRec.temporal) as [t|] eqn:Ht; [|done]. injection Hc as <-. by exists n, t.
Qed.

Lemma in_view_old o o' symbol_name r :
  build_order old = Some o → build_order new = Some o' →
  in_view_at T V o' new symbol_name r ↔ in_view_at T V o old symbol_name r.
Proof.
  intros Ho Ho'. unfold in_view, newest. rewrite (versions_old o o' symbol_name Ho Ho').
  assert (replaced instant parse_from_rfc3339 T V new r ↔ replaced instant parse_from_rfc3339 T V old r)
    as ->.
  { assert (∀ q, q ∈ new ∧ known q = true ↔ q ∈ old ∧ known q = true) as Hq by apply known_old.
    unfold replaced. split; intros (n & target & q & Hr & Hs & Hin & Hid & Hk);
      exists n, target, q; destruct (Hq q) as [H1 H2]; naive_solver. }
  assert (gone instant parse_from_rfc3339 T V new symbol_name r
    ↔ gone instant parse_from_rfc3339 T V old symbol_name r) as ->; [|done].
  unfold gone. split; intros (last & c & Hl & Htc & (q & Hq & Hc & Hk) & Hno); exists last, c;
    (destruct (proj1 (known_old q)) as [Hq' _]; [split; [set_solver|done]|]);
    pose proof (commit_of_old q c Hq' Hc) as Hobs;
    (split_and!; [done|by apply descends_old|exists q; split; [set_solver|done]|]);
    contradict Hno; destruct Hno as (s & Hs & Hn & Hid & Hsc & Hsk);
    (destruct (proj1 (known_old s)) as [Hs' _]; [split; [set_solver|done]|]);
    exists s; split_and!; set_solver.
Qed.
End Later.

(** ** Properties *)
Section Properties.
Context {DateTime : Type} (instant : DateTime → Z).
Context (parse_from_rfc3339 : string → result DateTime string) (to_rfc3339 : DateTime → string).
Abbreviation query := (symbol_as_of_transaction_time instant parse_from_rfc3339 to_rfc3339).
Abbreviation in_view_at T V := (in_view instant parse_from_rfc3339 T V).

Lemma view_spec T V records symbol_name tx_as_of bounds :
  ∃ order q, build_order records = Some order
    ∧ view_of instant parse_from_rfc3339 to_rfc3339 T V records symbol_name tx_as_of bounds = Some q
    ∧ (∀ r, r ∈ q.(TxSymbolQuery.records) ↔ in_view_at T V order records symbol_name r)
    ∧ NoDup (GraphRecord.id <$> q.(TxSymbolQuery.records))
    ∧ StronglySorted (cmp_le row_cmp) q.(TxSymbolQuery.records).
Proof.
  destruct (build_order_spec records) as (order & Hb & Hch & _). exists order.
  unfold view_of. rewrite Hb. cbn [mbind option_bind].
  destruct (filter _ records) as [|r0 named] eqn:Hnamed.
  { eexists. split_and!; [done|done| |constructor|constructor]. intros r.
    split; [by intros ?%elem_of_nil|]. intros ((c & Hc%selects_elem%elem_of_offered & _) & _).
    unfold versions in Hc. rewrite Hnamed in Hc. by apply elem_of_nil in Hc. }
  rewrite <-Hnamed. rewrite scan_best by (intros ? ?; cbn; by rewrite lookup_empty).
  cbn [best]. fold (versions instant parse_from_rfc3339 T V order records symbol_name).
  fold (newest_versions instant parse_from_rfc3339 T V order records symbol_name).
  fold (selected_rows instant parse_from_rfc3339 T V order records symbol_name).
  set (rows := selected_rows _ _ _ _ _ _ _).
  destruct (retain_spec (superseded instant parse_from_rfc3339 T V records) rows)
    as (kept & ds & -> & Hsub & Hkept); [intros; apply superseded_spec|].
  cbn [mbind option_bind fst snd].
  destruct (retain_spec (removed instant parse_from_rfc3339 T V order records
    (filter (λ r, is_named_symbol symbol_name r = true) records) symbol_name) kept)
    as (left_ & ds' & -> & Hsub' & Hleft); [intros; by apply removed_spec|].
  cbn [mbind option_bind fst snd]. eexists. split_and!; [done|done|..]; cbn [TxSymbolQuery.records].
  - intros r. rewrite sort_by_perm, Hleft, Hkept. unfold in_view.
    rewrite (proj2 (superseded_spec _ _ _ _ _ _)), (proj2 (removed_spec _ _ _ _ _ _ _ Hch _)).
    unfold rows. rewrite elem_of_selected. tauto.
  - rewrite sort_by_perm. apply (sublist_NoDup _ (GraphRecord.id <$> rows)).
    + apply selected_NoDup.
    + apply fmap_sublist. by etrans.
  - apply sort_by_sorted. unfold row_cmp. apply _.
Qed.

(** C10: a transaction-time query is answered for every log. A timestamp that does not parse is
    the documented error; otherwise the answer holds exactly, once per id and sorted by line
    and id, the newest version of each symbol of that name among those known at the transaction
    time (and true at the valid time, when one is asked), leaving out a version whose
    replacement is known in the view, and one whose commit has a descendant in the view without
    a snapshot of the symbol. *)
Theorem tx_view_exact (records : list GraphRecord) (symbol_name tx_as_of : string)
    (as_of : option string) (bounds : option (DateTime * DateTime)) :
  let invalid flag value e := Some (Err (TxQueryError.mk "invalid_timestamp"
    ("invalid --" +:+ flag +:+ " timestamp '" +:+ value +:+ "': " +:+ e))) in
  let answers T V := ∃ order q, build_order records = Some order
    ∧ query records symbol_name tx_as_of as_of bounds = Some (Ok q)
    ∧ (∀ r, r ∈ q.(TxSymbolQuery.records) ↔ in_view_at T V order records symbol_name r)
    ∧ NoDup (GraphRecord.id <$> q.(TxSymbolQuery.records))
    ∧ StronglySorted (cmp_le row_cmp) q.(TxSymbolQuery.records) in
  match parse_from_rfc3339 tx_as_of with
  | Err e => query records symbol_name tx_as_of as_of bounds = invalid "tx-as-of" tx_as_of e
  | Ok T =>
      match as_of with
      | None => answers T None
      | Some v =>
          match parse_from_rfc3339 v with
          | Err e => query records symbol_name tx_as_of as_of bounds = invalid "as-of" v e
          | Ok V => answers T (Some V)
          end
      end
  end.
Proof.
  cbn zeta. unfold symbol_as_of_transaction_time.
  destruct (parse_from_rfc3339 tx_as_of) as [T|e]; [|done].
  destruct as_of as [v|]; [destruct (parse_from_rfc3339 v) as [V|e]; [|done]|].
  - destruct (view_spec T (Some V) records symbol_name tx_as_of bounds) as (order & q & ? & -> & ?).
    by exists order, q.
  - destruct (view_spec T None records symbol_name tx_as_of bounds) as (order & q & ? & -> & ?).
    by exists order, q.
Qed.


Lemma same_rows (l k : list GraphRecord) :
  (∀ r, r ∈ l ↔ r ∈ k) → NoDup (GraphRecord.id <$> l) → NoDup (GraphRecord.id <$> k) →
  StronglySorted (cmp_le row_cmp) l → StronglySorted (cmp_le row_cmp) k → l = k.
Proof.
  intros Hlk Hl Hk Sl Sk. apply (StronglySorted_unique_strong (cmp_le row_cmp)); [|done..|].
  - intros x y Hx Hy Hxy Hyx.
    assert (GraphRecord.id x = GraphRecord.id y) as Hid.
    { unfold cmp_le, row_cmp, cmp_then in *.
      rewrite (cmp_opp (cmp := cmp_on span_start (option_cmp N.compare)) x y),
        (cmp_opp (cmp := cmp_on GraphRecord.id String.compare) x y) in Hyx.
      apply str_compare_Eq. unfold cmp_on in *.
      destruct (option_cmp _ _ _), (String.compare _ _); done. }
    apply Hlk in Hy. apply list_elem_of_lookup in Hx as [i Hi], Hy as [j Hj].
    assert (i = j) as <-; [|congruence].
    apply (NoDup_lookup _ _ _ (GraphRecord.id x) Hl); rewrite list_lookup_fmap;
      [by rewrite Hi|by rewrite Hj, Hid].
  - apply NoDup_Permutation; [by eapply NoDup_fmap_1..|done].
Qed.

(** C9: what is written later never changes an earlier view. Take any log and append records
    whose transaction times, where they have one, lie after the instant, and whose commits
    either are commits of the log with no new parents or are new and come after it; if the
    parent links have no cycle, the query at the instant returns the same records as before,
    on both time axes. *)
Theorem prior_view_stable (old later : list GraphRecord) (symbol_name tx_as_of : string)
    (as_of : option string) (bounds bounds' : option (DateTime * DateTime)) (T : DateTime) q
    (HT : parse_from_rfc3339 tx_as_of = Ok T)
    (Hafter : written_after instant parse_from_rfc3339 T later)
    (Hforward : links_only_forward old later)
    (Hacyclic : acyclic (observed_parent (old ++ later)))
    (Hold : query old symbol_name tx_as_of as_of bounds = Some (Ok q)) :
  ∃ q', query (old ++ later) symbol_name tx_as_of as_of bounds' = Some (Ok q')
    ∧ q'.(TxSymbolQuery.records) = q.(TxSymbolQuery.records).
Proof.
  assert (∀ V, (Ok <$> view_of instant parse_from_rfc3339 to_rfc3339 T V old symbol_name tx_as_of bounds
      : option (result _ TxQueryError.t)) = Some (Ok q) →
    ∃ q', (Ok <$> view_of instant parse_from_rfc3339 to_rfc3339 T V (old ++ later) symbol_name tx_as_of bounds'
      : option (result _ TxQueryError.t)) = Some (Ok q')
    ∧ q'.(TxSymbolQuery.records) = q.(TxSymbolQuery.records)) as Hview.
  { intros V Hq.
    destruct (view_spec T V old symbol_name tx_as_of bounds) as (o & q0 & Ho & Hrun & Hin & Hnd & Hs).
    rewrite Hrun in Hq. injection Hq as <-.
    destruct (view_spec T V (old ++ later) symbol_name tx_as_of bounds') as (o' & q' & Ho' & Hrun' & Hin' & Hnd' & Hs').
    exists q'. rewrite Hrun'. split; [done|]. apply same_rows; [|done..].
    intros r. rewrite Hin, Hin'. by apply in_view_old. }
  revert Hold. unfold symbol_as_of_transaction_time. rewrite HT.
  destruct as_of as [v|]; [|apply Hview]. destruct (parse_from_rfc3339 v); [apply Hview|done].
Qed.
End Properties.

(** ** A concrete history *)
Module TxDemo.
(** An instant is written as a single character. *)
Definition parse (s : string) : result Z string :=
  match s with
  | String c EmptyString => Ok (Z.of_N (Ascii.N_of_ascii c))
  | _ => Err "bad"
  end.
Definition symbol (id name commit : string) (parents : list string) (at_ : string) : GraphRecord :=
  GraphRecord.on_node (λ n, n{{ NodeRec.temporal :=
      Some (TemporalMetadata.mk commit parents at_ None at_ None) }})
    (GraphRecord.node id NodeKind.Symbol None None (Some name) "").

(** [f] lives in both commits, [g] is only in the first one. *)
Definition old : list GraphRecord :=
  [symbol "f" "run" "c1" [] "1"; symbol "g" "run" "c1" [] "1"; symbol "f" "run" "c2" ["c1"] "2"].
(** A third commit drops [f]. *)
Definition later : list GraphRecord := [symbol "h" "other" "c3" ["c2"] "3"].

Definition ids (r : option (result TxSymbolQuery.t TxQueryError.t)) : option (list string) :=
  match r with Some (Ok q) => Some (GraphRecord.id <$> q.(TxSymbolQuery.records)) | _ => None end.
Definition at_time (records : list GraphRecord) (tx : string) (valid : option string)
    : option (result TxSymbolQuery.t TxQueryError.t) :=
  symbol_as_of_transaction_time id parse (λ _, "") records "run" tx valid None.

Example demo_views :
  ids (at_time old "1" None) = Some ["f"; "g"]
  ∧ ids (at_time old "2" None) = Some ["f"]
  ∧ ids (at_time (old ++ later) "3" None) = Some []
  ∧ ids (at_time (old ++ later) "2" None) = Some ["f"]
  ∧ ids (at_time (old ++ later) "3" (Some "1")) = Some ["f"; "g"].
Proof. vm_compute. repeat split. Qed.

Definition answer : TxSymbolQuery.t :=
  match at_time old "2" None with Some (Ok q) => q | _ => TxSymbolQuery.mk [] [] end.
End TxDemo.

Lemma prior_view_stable_witness :
  ∃ q', TxDemo.at_time (TxDemo.old ++ TxDemo.later) "2" None = Some (Ok q')
    ∧ q'.(TxSymbolQuery.records) = TxDemo.answer.(TxSymbolQuery.records).
Proof.
  apply (prior_view_stable id TxDemo.parse (λ _, "") TxDemo.old TxDemo.later "run" "2" None None None 50%Z
    TxDemo.answer).
  - vm_compute. reflexivity.
  - intros r tx Hr Htx. apply list_elem_of_singleton in Hr as ->. vm_compute in Htx.
    injection Htx as <-. vm_compute. reflexivity.
  - intros n t Hn Ht. apply list_elem_of_singleton in Hn. injection Hn as ->. vm_compute in Ht.
    injection Ht as <-. right. cbn [TemporalMetadata.git_commit]. split.
    + rewrite <-commit_parents_observed. vm_compute. intros [? H]. discriminate H.
    + intros x (n & t & Hn & Ht & _ & Hp). unfold TxDemo.old in Hn. rewrite !elem_of_cons in Hn.
      destruct Hn as [Hn|[Hn|[Hn|Hn]]]; [injection Hn as ->..|by apply elem_of_nil in Hn];
        vm_compute in Ht; injection Ht as <-; cbn in Hp; set_solver.
  - apply (acyclic_by_measure _ (λ c, default 0 (String.index 0 c "c1c2c3"))).
    apply (bool_decide_eq_true_1 _). vm_compute. reflexivity.
  - vm_compute. reflexivity.
Defined.
