(* ===== verification/DepthSearch.v ===== *)
(** * Depth-bounded closures

    The search [src/src/query/transitive_callers.rs] and
    [src/src/query/transitive_callees.rs] share, line by line: levels are discovered
    up to the bound with a least pointer per record, what lies beyond is counted per
    depth, and the path of a row is read off the pointers. The discovery of one level
    is a parameter with the laws the two lanes prove for theirs. *)
From S2P Require Import Prelude RustStr Ir IrOps Liveness LevelSearch.

(** A discovery pointer [(edge_id, parent_id, label, resolution)]; in an index the
    same tuple is [(other_id, edge_id, label, resolution)]. *)
Abbreviation EdgeRef := (string * string * string * option CallResolution.t)%type.

Definition ptr_edge (q : EdgeRef) : string := q.1.1.1.
Definition ptr_parent (q : EdgeRef) : string := q.1.1.2.

Module Dropped.
(* query/transitive_callers.rs 55-60: TransitiveDroppedDepth *)
Record t : Type := mk { depth : nat; count : nat }.
End Dropped.

Module Truncation.
(* query/transitive_callers.rs 66-73: TransitiveTruncation *)
Record t : Type := mk {
  max_depth : nat;
  dropped_frontier : list Dropped.t;
  dropped_total : nat
}.
End Truncation.

(** One hop of a connecting path. *)
Module PathStep.
(* query/transitive_callers.rs 20-32: TransitivePathStep *)
Record t : Type := mk {
  source_record_id : string;
  edge_record_id : string;
  edge_label : string;
  resolution : option CallResolution.t;
  target_record_id : string
}.
End PathStep.

Module Row.
(* query/transitive_callers.rs 37-50: TransitiveCallerRow *)
Record t : Type := mk {
  record : GraphRecord;
  hop : nat;
  path : list PathStep.t;
  path_resolution : option CallResolution.t
}.
End Row.

(** The position in the declaration, which the derived [Ord] compares. *)
Definition resolution_rank (r : CallResolution.t) : nat :=
  match r with
  | CallResolution.Resolved => 0
  | CallResolution.Ambiguous => 1
  | CallResolution.Unresolved => 2
  | CallResolution.UnresolvedDispatch => 3
  end.

(** [Iterator::max]. *)
Definition weakest (l : list CallResolution.t) : option CallResolution.t :=
  foldl (λ acc r,
    match acc with
    | None => Some r
    | Some m => if (resolution_rank m <=? resolution_rank r)%nat then Some r else Some m
    end) None l.

(** ** Edge indexes *)

(** [index.entry(key).or_default().push(edge)] for every record that has an edge, then
    the sort and the deduplication of every list. *)
(* query/transitive_callers.rs 158-197: transitive_callers *)
Definition edge_index {E K} `{EqDecision K} (key : E → K)
    (sort_unstable : list E → list E)
    (edge_of : nat * GraphRecord → option (string * E)) (records : list GraphRecord)
    : gmap string (list E) :=
  let pushed := foldl (λ m entry,
    match edge_of entry with
    | Some (key, edge) => <[key := default [] (m !! key) ++ [edge]]> m
    | None => m
    end) ∅ (imap pair records) in
  (λ edges, dedup_by_key key (sort_unstable edges)) <$> pushed.

(** [(e.0, e.1)]. *)
Definition ref_key (e : EdgeRef) : string * string := e.1.1.

(** One sort that keeps the contract. *)
Definition edge_sort (l : list EdgeRef) : list EdgeRef :=
  sort_by (lex_cmp (λ e : EdgeRef, e.1.1.1) (λ e, e.1.1.2)) l.

Lemma edge_sort_perm l : edge_sort l ≡ₚ l.
Proof. apply sort_by_perm. Qed.

Lemma edge_index_spec {E K} `{EqDecision K} (ident : E → K) sort_unstable edge_of records key e :
  (∀ l, sort_unstable l ≡ₚ l) →
  (∀ i j r s k e e', records !! i = Some r → records !! j = Some s →
     edge_of (i, r) = Some (k, e) → edge_of (j, s) = Some (k, e') → ident e = ident e' → e = e') →
  e ∈ default [] (edge_index ident sort_unstable edge_of records !! key)
  ↔ ∃ i r, records !! i = Some r ∧ edge_of (i, r) = Some (key, e).
Proof.
  intros Hperm Huniq. unfold edge_index. rewrite lookup_fmap.
  pose proof (foldl_push edge_of (imap pair records) key) as Hpush.
  assert (∀ a, a ∈ imap pair records ↔ records !! a.1 = Some a.2) as Hin.
  { intros [i r]. rewrite list_elem_of_lookup. split.
    - intros [j Hj]. rewrite list_lookup_imap in Hj.
      destruct (records !! j) eqn:Ej; simplify_eq/=. done.
    - cbn. intros Hi. exists i. by rewrite list_lookup_imap, Hi. }
  assert (∀ x, x ∈ default [] (foldl (λ m entry, match edge_of entry with
      | Some (key, edge) => <[key := default [] (m !! key) ++ [edge]]> m
      | None => m end) (∅ : gmap string (list E)) (imap pair records) !! key)
    ↔ ∃ i r, records !! i = Some r ∧ edge_of (i, r) = Some (key, x)) as Hx.
  { intros x. rewrite Hpush. split.
    - intros ([i r] & Ha%Hin & Hf). eauto.
    - intros (i & r & Hi & Hf). exists (i, r). by rewrite Hin. }
  rewrite <-Hx. destruct (foldl _ _ _ !! key) as [l|]; cbn [fmap option_fmap option_map default]; [|done].
  split.
  - intros He%dedup_by_key_elem. by rewrite Hperm in He.
  - intros He. cbn [default] in Hx.
    destruct (dedup_by_key_key ident (sort_unstable l) e) as (y & Hy & Hk);
      [by rewrite Hperm|].
    assert (y ∈ l) as Hyl by (apply dedup_by_key_elem in Hy; by rewrite Hperm in Hy).
    apply Hx in He as (i & r & Hi & Hr), Hyl as (j & s & Hj & Hs).
    by rewrite (Huniq _ _ _ _ _ _ _ Hi Hj Hr Hs (eq_sym Hk)).
Qed.

(** [e] is the current version of an edge with one of the [labels]: the latest write of
    its id, and not deleted. *)
Definition current_edge (records : list GraphRecord) (labels : list EdgeLabel.t)
    (e : EdgeRec.t) : Prop :=
  ∃ i, records !! i = Some (Edge e)
    ∧ Liveness.is_latest_edge_version (Liveness.new records) e.(EdgeRec.id) i = true
    ∧ Liveness.deleted (Liveness.new records) e.(EdgeRec.id) = false
    ∧ e.(EdgeRec.label) ∈ labels.

(** An id has one current version. *)
Lemma latest_edge_unique records id i j :
  Liveness.is_latest_edge_version (Liveness.new records) id i = true →
  Liveness.is_latest_edge_version (Liveness.new records) id j = true → i = j.
Proof. unfold Liveness.is_latest_edge_version. intros ??. breflect. congruence. Qed.

Lemma weakest_spec l :
  match weakest l with
  | None => l = []
  | Some m => m ∈ l ∧ ∀ r, r ∈ l → resolution_rank r ≤ resolution_rank m
  end.
Proof.
  induction l as [|r l IH] using rev_ind; [done|]. unfold weakest in *.
  rewrite foldl_app. cbn [foldl]. destruct (foldl _ _ l) as [m|].
  - destruct IH as [Hm Hl].
    destruct (Nat.leb_spec (resolution_rank m) (resolution_rank r));
      setoid_rewrite elem_of_app; setoid_rewrite list_elem_of_singleton.
    + split; [by right|]. intros s [Hs%Hl| ->]; lia.
    + split; [by left|]. intros s [Hs%Hl| ->]; lia.
  - subst l. split; [by left|]. by intros s ->%list_elem_of_singleton.
Qed.

Section Search.
Context {D : Type}.
(** [discover_level(frontier, visited, diagnostics, report)]. *)
Context (level : bool → list string → gset string → D → gmap string EdgeRef * D).

Record Search : Type := mkSearch {
  parent : gmap string EdgeRef;
  hop_of : gmap string nat;
  visited : gset string;
  frontier : list string;
  diagnostics : D;
  depth : nat
}.

(* query/transitive_callers.rs 262-269: transitive_callers *)
Definition round (b : Search) : Search :=
  let depth := S b.(depth) in
  let '(discoveries, diagnostics) :=
    level true b.(frontier) b.(visited) b.(diagnostics) in
  mkSearch (discoveries ∪ b.(parent)) (((λ _, depth) <$> discoveries) ∪ b.(hop_of))
    (b.(visited) ∪ dom discoveries) (str_sort (elements (dom discoveries)))
    diagnostics depth.

(* query/transitive_callers.rs 202-207: transitive_callers *)
Definition start (anchor : string) (d : D) : Search := mkSearch ∅ ∅ {[anchor]} [anchor] d 0.

(** [while depth < max_depth], run for the [n] rounds that are left. *)
(* query/transitive_callers.rs 257-270: transitive_callers *)
Fixpoint bounded_loop (n : nat) (b : Search) : Search :=
  match n with
  | O => b
  | S n => if bool_decide (b.(frontier) = []) then b else bounded_loop n (round b)
  end.

(* query/transitive_callers.rs 278-293: transitive_callers *)
Fixpoint dropped_loop (fuel : nat) (frontier : list string) (visited : gset string)
    (diagnostics : D) (count_depth : nat) (dropped : list Dropped.t) (total : nat)
    : option (list Dropped.t * nat * D) :=
  match fuel with
  | O => None
  | S fuel =>
      let '(discoveries, diagnostics) := level false frontier visited diagnostics in
      if bool_decide (discoveries = ∅) then Some (dropped, total, diagnostics)
      else
        let count_depth := S count_depth in
        dropped_loop fuel (str_sort (elements (dom discoveries)))
          (visited ∪ dom discoveries) diagnostics count_depth
          (dropped ++ [Dropped.mk count_depth (size discoveries)])
          (total + size discoveries)
  end.

(** [None] is fuel running out. *)
(* query/transitive_callers.rs 272-301: transitive_callers *)
Definition truncate (fuel max_depth : nat) (b : Search)
    : option (option Truncation.t * D) :=
  if bool_decide (b.(frontier) = []) then Some (None, b.(diagnostics))
  else
    let?o r := dropped_loop fuel b.(frontier) b.(visited) b.(diagnostics) b.(depth) [] 0 in
    let '(dropped_frontier, dropped_total, diagnostics) := r in
    Some (if (0 <? dropped_total)%nat
          then Some (Truncation.mk max_depth dropped_frontier dropped_total) else None,
          diagnostics).

(** The chain of pointers from [cursor] back to the anchor, with the record each of them
    belongs to; [None] is the [expect] panic. *)
(* query/transitive_callers.rs 311-324: transitive_callers *)
Fixpoint walk_back (parent : gmap string EdgeRef) (anchor_id : string) (fuel : nat)
    (cursor : string) : option (list (string * EdgeRef)) :=
  match fuel with
  | O => None
  | S fuel =>
      if cursor =s? anchor_id then Some []
      else
        let?o q := parent !! cursor in
        let?o rest := walk_back parent anchor_id fuel (ptr_parent q) in
        Some ((cursor, q) :: rest)
  end.

(** [rows.sort_by(|a, b| a.hop.cmp(&b.hop).then_with(|| a.record.id().cmp(b.record.id())))] *)
(* query/transitive_callers.rs 336-340: transitive_callers *)
Definition row_cmp (a b : Row.t) : comparison :=
  then_cmp (Nat.compare a.(Row.hop) b.(Row.hop))
    (String.compare (GraphRecord.id a.(Row.record)) (GraphRecord.id b.(Row.record))).

(** The chain of a record that is [hop] links from the anchor is read off in [hop]
    rounds and one that sees the anchor. *)
(* query/transitive_callers.rs 305-335: transitive_callers *)
Definition build_row (mk_path : list (string * EdgeRef) → list PathStep.t)
    (by_id : gmap string GraphRecord) (anchor_id : string) (b : Search)
    (entry : string * nat) : option Row.t :=
  let '(node, hop) := entry in
  let?o record := by_id !! node in
  let?o chain := walk_back b.(parent) anchor_id (S hop) node in
  let path := mk_path chain in
  Some (Row.mk record hop path (weakest (omap PathStep.resolution path))).

(** The rows are sorted by a key that tells them apart, so the order of the map they
    come from does not show. *)
(* query/transitive_callers.rs 303-340: transitive_callers *)
Definition build_rows (mk_path : list (string * EdgeRef) → list PathStep.t)
    (by_id : gmap string GraphRecord) (anchor_id : string) (b : Search)
    : option (list Row.t) :=
  let?o rows := mapM (build_row mk_path by_id anchor_id b) (map_to_list b.(hop_of)) in
  Some (sort_by row_cmp rows).

(** ** Correctness *)

End Search.

(** *** Links *)
Section Links.
(** [link q y]: the edge of the pointer [q] discovers [y] from the parent of [q]. *)
Context (link : EdgeRef → string → Prop).

Definition reaches (p y : string) : Prop := ∃ q, ptr_parent q = p ∧ link q y.

(** The least pointer of the ones that link [y] to a record in [S]. *)
Definition least_link (S : string → Prop) (y : string) (q : EdgeRef) : Prop :=
  S (ptr_parent q) ∧ link q y
  ∧ ∀ q', S (ptr_parent q') → link q' y → lex_le ptr_parent ptr_edge q q'.
End Links.

(** What a lane promises of its discovery of one level: the links have finitely many
    sources and stay in the set [U] of live records, a level holds every linked record
    that is not visited with its least pointer, and, when asked to report, emits what
    [emits] says of the expanded records. *)
Class LevelLaws {D E : Type}
    (level : bool → list string → gset string → D → gmap string EdgeRef * D)
    (link : EdgeRef → string → Prop) (preds : string → list string) (anchor : string)
    (U : gset string) (emitted : D → E → Prop) (emits : string → E → Prop) : Prop := {
  law_preds x y : reaches link x y ↔ x ∈ preds y;
  law_anchor : anchor ∈ U;
  law_live p y : reaches link p y → y ∈ U;
  law_sound rep fr vis d y q : (level rep fr vis d).1 !! y = Some q →
    (y ∉ vis) ∧ least_link link (.∈ fr) y q;
  law_complete rep fr vis d y q : ptr_parent q ∈ fr → link q y → y ∉ vis →
    is_Some ((level rep fr vis d).1 !! y);
  law_emits rep fr vis d e : vis ⊆ U →
    emitted (level rep fr vis d).2 e ↔ emitted d e ∨ rep = true ∧ ∃ p, p ∈ fr ∧ emits p e
}.

Section Correct.
Context {D E : Type}
  (level : bool → list string → gset string → D → gmap string EdgeRef * D)
  (link : EdgeRef → string → Prop) (preds : string → list string) (anchor : string)
  (U : gset string) (emitted : D → E → Prop) (emits : string → E → Prop)
  {laws : LevelLaws level link preds anchor U emitted emits}.

Abbreviation reaches := (reaches link).
Abbreviation least_link := (least_link link).
Abbreviation round := (round level).
Abbreviation bounded_loop := (bounded_loop level).
Abbreviation start := (start anchor).
Abbreviation dropped_loop := (dropped_loop level).
Abbreviation truncate := (truncate level).
Abbreviation dist := (at_distance reaches anchor).

#[local] Instance reaches_dec k x : Decision (bsteps reaches k anchor x).
Proof. apply (bsteps_dec reaches preds), (law_preds (LevelLaws:=laws)). Defined.

(** A level of the search is the next level of distances. *)
Lemma level_dist rep fr vis d k x :
  (∀ x, x ∈ vis ↔ bsteps reaches k anchor x) → (∀ x, x ∈ fr ↔ dist k x) →
  x ∈ dom (level rep fr vis d).1 ↔ dist (S k) x.
Proof.
  intros Hv Hf. rewrite elem_of_dom, at_distance_S_iff, <-Hv. split.
  - intros [q (Hx & Hp & Hl & _)%(law_sound (LevelLaws:=laws))]. split; [done|].
    exists (ptr_parent q). rewrite <-Hf. split; [done|]. by exists q.
  - intros (Hx & y & Hy%Hf & q & <- & Hl). by eapply (law_complete (LevelLaws:=laws)).
Qed.

Lemma reached_in k x : bsteps reaches k anchor x → x ∈ U.
Proof.
  revert x. induction k as [|k IH]; intros x; [intros <-%bsteps_0; apply (law_anchor (LevelLaws:=laws))|].
  intros [?|(z & _ & Hz)]%bsteps_S_iff; [by apply IH|by eapply (law_live (LevelLaws:=laws))].
Qed.

Record search_inv (k : nat) (b : Search) : Prop := {
  inv_depth : b.(depth) = k;
  inv_visited x : x ∈ b.(visited) ↔ bsteps reaches k anchor x;
  inv_frontier x : x ∈ b.(frontier) ↔ dist k x;
  inv_hop x j : b.(hop_of) !! x = Some j ↔ 1 ≤ j ≤ k ∧ dist j x;
  inv_parent x q : b.(parent) !! x = Some q →
    ∃ j, j < k ∧ dist (S j) x ∧ least_link (dist j) x q;
  inv_parent_all j x : j < k → dist (S j) x → is_Some (b.(parent) !! x);
  inv_emitted e : emitted b.(diagnostics) e ↔ ∃ j p, j < k ∧ dist j p ∧ emits p e
}.


Lemma inv_start d : (∀ e, ¬ emitted d e) → search_inv 0 (start d).
Proof.
  intros Hd. constructor; cbn [depth visited frontier hop_of parent diagnostics start];
    [done|..].
  - intros x. rewrite bsteps_0. set_solver.
  - intros x. rewrite list_elem_of_singleton, at_distance_0. done.
  - intros x j. rewrite lookup_empty. split; [done|]. intros [? _]. lia.
  - intros x q. by rewrite lookup_empty.
  - lia.
  - intros e. split; [by intros ?%Hd|]. intros (j & p & ? & _). lia.
Qed.

Lemma inv_round k b : search_inv k b → search_inv (S k) (round b).
Proof.
  intros [Hdep Hv Hf Hh Hp Hpa He]. unfold round.
  pose proof (λ x, level_dist true _ _ b.(diagnostics) k x Hv Hf) as Hdom.
  pose proof ((law_sound (LevelLaws:=laws)) true b.(frontier) b.(visited) b.(diagnostics)) as HD1.
  assert (b.(visited) ⊆ U) as HU by (intros x Hx%Hv; by eapply reached_in).
  pose proof (λ e, (law_emits (LevelLaws:=laws)) true b.(frontier) b.(visited) b.(diagnostics) e HU) as Hem.
  destruct (level true b.(frontier) b.(visited) b.(diagnostics)) as [L d'].
  cbn [fst snd] in *.
  constructor; cbn [depth visited frontier hop_of parent diagnostics]; [by rewrite Hdep|..].
  - by apply (visited_next reaches).
  - intros x. rewrite str_sort_perm, elem_of_elements. apply Hdom.
  - intros x j. rewrite lookup_union_Some_raw, lookup_fmap, fmap_None, fmap_Some.
    rewrite <-not_elem_of_dom, Hh, Hdep, Hdom. split.
    + intros [(q & Hq & ->)|[_ [? ?]]]; [|split; [lia|done]].
      split; [lia|]. by apply Hdom, elem_of_dom.
    + intros [Hj Hd]. destruct (decide (j = S k)) as [->|Hne].
      * left. apply Hdom, elem_of_dom in Hd as [q Hq]. by exists q.
      * right. split; [|split; [lia|done]]. intros Hd'.
        pose proof (at_distance_unique _ _ _ _ _ Hd Hd'). lia.
  - intros x q. rewrite lookup_union_Some_raw. intros [Hq|[_ Hq]].
    + pose proof (HD1 _ _ Hq) as (_ & Hpq & Hl & Hmin). exists k. split; [lia|].
      split; [by apply Hdom, elem_of_dom|]. split_and!; [by apply Hf|done|].
      intros q' Hq'%Hf. by apply Hmin.
    + destruct (Hp _ _ Hq) as (j & ? & ?). exists j. split; [lia|done].
  - intros j x Hj Hd. apply lookup_union_is_Some.
    destruct (decide (j = k)) as [->|]; [left|right; apply (Hpa j); [lia|done]].
    by apply elem_of_dom, Hdom.
  - intros e. rewrite Hem, He. split.
    + intros [(j & p & ? & ? & ?)|[_ (p & ?%Hf & ?)]]; [|by exists k, p; split; [lia|]].
      exists j, p. split; [lia|done].
    + intros (j & p & Hj & Hd & Hpe). destruct (decide (j = k)) as [->|Hne].
      * right. split; [done|]. exists p. by rewrite Hf.
      * left. exists j, p. split; [lia|done].
Qed.

(** The bounded loop stops at the bound or at an empty level. *)
Lemma bounded_loop_spec n k b :
  search_inv k b →
  ∃ k', k ≤ k' ≤ k + n ∧ search_inv k' (bounded_loop n b)
    ∧ (k' = k + n ∨ (bounded_loop n b).(frontier) = []).
Proof.
  revert k b. induction n as [|n IH]; intros k b Hinv; cbn [bounded_loop].
  { exists k. split; [lia|]. split; [done|]. left. lia. }
  case_bool_decide as Hnil.
  { exists k. split; [lia|]. split; [done|by right]. }
  destruct (IH (S k) (round b) (inv_round _ _ Hinv)) as (k' & Hk & Hi & He).
  exists k'. split; [lia|]. split; [done|]. destruct He as [->|]; [left; lia|by right].
Qed.

Abbreviation levels_beyond := (levels_beyond reaches anchor Dropped.depth Dropped.count).

Lemma dropped_loop_spec fuel c fr vis d dropped total :
  (∀ x, x ∈ vis ↔ bsteps reaches c anchor x) → (∀ x, x ∈ fr ↔ dist c x) →
  size U < fuel + size vis →
  ∃ dl d', (∀ e, emitted d' e ↔ emitted d e) ∧ dropped_loop fuel fr vis d c dropped total
    = Some (dropped ++ dl, total + sum_list_with Dropped.count dl, d')
  ∧ levels_beyond c dl.
Proof.
  revert c fr vis d dropped total. induction fuel as [|fuel IH];
    intros c fr vis d dropped total Hv Hf Hfuel.
  { exfalso. assert (size vis ≤ size U); [|lia]. apply subseteq_size.
    intros x Hx%Hv. by eapply reached_in. }
  cbn [dropped_loop]. pose proof (λ x, level_dist false _ _ d c x Hv Hf) as Hdom.
  pose proof ((law_sound (LevelLaws:=laws)) false fr vis d) as Hnew.
  assert (vis ⊆ U) as HU by (intros x Hx%Hv; by eapply reached_in).
  pose proof (λ e, (law_emits (LevelLaws:=laws)) false fr vis d e HU) as Hem.
  destruct (level false fr vis d) as [L d']. cbn [fst snd] in *. case_bool_decide as HL.
  - exists [], d'. rewrite app_nil_r. split; [naive_solver|]. split; [do 3 f_equal; simpl; lia|]. split; [done|].
    intros x Hx. replace (c + S (length [])) with (S c) in Hx by (simpl; lia).
    apply Hdom in Hx. subst L. by rewrite dom_empty in Hx.
  - assert (size (vis ∪ dom L) = size vis + size L) as Hsize.
    { rewrite size_union; [by rewrite size_dom|].
      intros x Hx [q Hq]%elem_of_dom. by apply Hnew in Hq as [? _]. }
    assert (size L ≠ 0) as HsL by by intros Hz%map_size_empty_inv.
    destruct (IH (S c) (str_sort (elements (dom L))) (vis ∪ dom L) d'
      (dropped ++ [Dropped.mk (S c) (size L)]) (total + size L)) as (dl & d'' & Hd'' & Hr & Hdl).
    + by apply (visited_next reaches).
    + intros x. rewrite str_sort_perm, elem_of_elements. apply Hdom.
    + lia.
    + exists (Dropped.mk (S c) (size L) :: dl), d''. split; [naive_solver|]. split.
      * rewrite Hr, <-app_assoc. do 3 f_equal. simpl. lia.
      * apply levels_beyond_cons with (dom L : gset string); [done|by rewrite size_dom|done| |done].
        intros He%dom_empty_inv_L. done.
Qed.

(** ** The whole search *)

Lemma bounded_hops n d b :
  (∀ e, ¬ emitted d e) → b = bounded_loop n (start d) →
  (∀ x j, b.(hop_of) !! x = Some j ↔ 1 ≤ j ≤ n ∧ dist j x)
  ∧ (∀ e, emitted b.(diagnostics) e ↔ ∃ j p, j < n ∧ dist j p ∧ emits p e).
Proof.
  intros Hd ->. destruct (bounded_loop_spec n 0 (start d) (inv_start d Hd))
    as (k & Hk & [Hdep Hv Hf Hh Hp Hpa He] & Hend).
  assert (∀ j x, k ≤ j → j ≤ n → dist j x → j = k) as Hlast.
  { intros j x Hkj Hjn Hx. destruct Hend as [->|Hnil]; [lia|]. exfalso.
    apply (empty_level reaches anchor k j) in Hx; [done| |lia].
    intros y Hy%Hf. rewrite Hnil in Hy. by apply elem_of_nil in Hy. }
  assert (∀ j x, k ≤ j → j < n → ¬ dist j x) as Hnone.
  { intros j x Hkj Hjn Hx. pose proof (Hlast _ _ Hkj ltac:(lia) Hx) as ->.
    destruct Hend as [->|Hnil]; [lia|]. apply Hf in Hx. rewrite Hnil in Hx.
    by apply elem_of_nil in Hx. }
  split.
  - intros x j. rewrite Hh. split; (intros [Hj Hx]; split; [|done]); [lia|].
    destruct (decide (j ≤ k)) as [|Hgt]; [lia|].
    pose proof (Hlast j x ltac:(lia) ltac:(lia) Hx). lia.
  - intros e. rewrite He. split; intros (j & p & Hj & Hx & Hpe); exists j, p.
    + split; [lia|done].
    + split; [|done]. destruct (decide (j < k)) as [|Hge]; [done|].
      by destruct (Hnone j p ltac:(lia) Hj).
Qed.

(** The pointers of a chain lead from [x] to the anchor, each the least one between its
    two levels. *)
Fixpoint least_chain (x : string) (chain : list (string * EdgeRef)) : Prop :=
  match chain with
  | [] => x = anchor
  | (y, q) :: rest =>
      y = x ∧ least_link (dist (length rest)) x q ∧ least_chain (ptr_parent q) rest
  end.

Lemma least_chain_spec k b fuel j x :
  search_inv k b → dist j x → j ≤ k → j < fuel →
  ∃ chain, walk_back b.(parent) anchor fuel x = Some chain ∧ length chain = j
    ∧ least_chain x chain.
Proof.
  intros Hinv. revert j x. induction fuel as [|fuel IH]; intros j x Hd Hj Hfuel; [lia|].
  cbn [walk_back]. destruct j as [|j].
  { apply at_distance_0 in Hd as ->. rewrite String.eqb_refl. by exists []. }
  destruct (String.eqb_spec x anchor) as [->|Hne].
  { exfalso. apply at_distance_S in Hd as [_ []]. constructor. }
  destruct (inv_parent_all _ _ Hinv j x) as [q Hq]; [lia|done|].
  destruct (inv_parent _ _ Hinv _ _ Hq) as (j' & Hj' & Hd' & Hl).
  assert (j' = j) as -> by (pose proof (at_distance_unique _ _ _ _ _ Hd Hd'); lia).
  rewrite Hq. cbn [mbind option_bind].
  destruct (IH j (ptr_parent q)) as (chain & Hw & Hlen & Hc); [by apply Hl|lia..|].
  rewrite Hw. eexists. split; [done|]. cbn [length]. split; [by rewrite Hlen|].
  cbn [least_chain]. by rewrite Hlen.
Qed.

Lemma bounded_chain n d b x j fuel :
  (∀ e, ¬ emitted d e) → b = bounded_loop n (start d) →
  b.(hop_of) !! x = Some j → j < fuel →
  ∃ chain, walk_back b.(parent) anchor fuel x = Some chain ∧ length chain = j
    ∧ least_chain x chain.
Proof.
  intros Hd -> Hx Hfuel. destruct (bounded_loop_spec n 0 (start d) (inv_start d Hd))
    as (k & Hk & Hinv & _).
  apply (inv_hop _ _ Hinv) in Hx as [? ?]. eapply least_chain_spec; [done..| |done]. lia.
Qed.

(** The truncation says exactly what lies beyond the bound [n]. *)
Definition truncation_exact (n : nat) (o : option Truncation.t) : Prop :=
  match o with
  | None => ∀ j x, n < j → ¬ dist j x
  | Some tr => tr.(Truncation.max_depth) = n
      ∧ tr.(Truncation.dropped_frontier) ≠ []
      ∧ levels_beyond n tr.(Truncation.dropped_frontier)
      ∧ tr.(Truncation.dropped_total)
        = sum_list_with Dropped.count tr.(Truncation.dropped_frontier)
  end.

Lemma truncate_spec n d b :
  (∀ e, ¬ emitted d e) → b = bounded_loop n (start d) →
  ∃ o d', truncate (S (size U)) n b = Some (o, d') ∧ truncation_exact n o
    ∧ ∀ e, emitted d' e ↔ emitted b.(diagnostics) e.
Proof.
  intros Hd ->. destruct (bounded_loop_spec n 0 (start d) (inv_start d Hd))
    as (k & Hk & Hinv & Hend). unfold truncate. case_bool_decide as Hnil.
  { eexists None, _. split; [done|]. split; [|done]. intros j x Hj.
    apply (empty_level reaches anchor k); [|lia]. intros y Hy%(inv_frontier _ _ Hinv).
    rewrite Hnil in Hy. by apply elem_of_nil in Hy. }
  destruct Hend as [Hkn|]; [|done]. cbn in Hkn. subst k.
  destruct (dropped_loop_spec (S (size U)) n (frontier (bounded_loop n (start d)))
    (visited (bounded_loop n (start d))) (diagnostics (bounded_loop n (start d))) [] 0)
    as (dl & d' & Hd' & Hr & Hdl); [apply Hinv|apply Hinv|lia|].
  rewrite (inv_depth _ _ Hinv), Hr. cbn [mbind option_bind app Nat.add].
  eexists _, d'. split; [done|]. split; [|done].
  destruct dl as [|r dl]; cbn [sum_list_with].
  - cbn. destruct Hdl as [_ Hdl]. intros j x Hj.
    apply (empty_level reaches anchor (n + 1)); [|lia]. apply Hdl.
  - destruct (proj1 Hdl 0 r eq_refl) as (_ & Hpos & _).
    destruct (Nat.ltb_spec 0 (r.(Dropped.count) + sum_list_with Dropped.count dl)); [|lia].
    by split_and!.
Qed.

(** ** Rows *)

Definition row_le (a b : Row.t) : Prop :=
  a.(Row.hop) < b.(Row.hop)
  ∨ a.(Row.hop) = b.(Row.hop)
    ∧ String.le (GraphRecord.id a.(Row.record)) (GraphRecord.id b.(Row.record)).

Lemma row_cmp_le a b : row_cmp a b ≠ Gt ↔ row_le a b.
Proof.
  unfold row_cmp, row_le. rewrite <-str_compare_le.
  destruct (Nat.compare_spec (Row.hop a) (Row.hop b)); cbn [then_cmp].
  - split; [|naive_solver lia]. intros ?. right. done.
  - split; [intros _; by left|done].
  - split; [done|]. intros [?|[? _]]; lia.
Qed.

Lemma sort_rows_sorted rows : StronglySorted row_le (sort_by row_cmp rows).
Proof.
  assert (Transitive (λ a b, row_cmp a b ≠ Gt)).
  { intros a b c. rewrite !row_cmp_le. unfold row_le.
    intros [?|[? H1]] [?|[? H2]]; [left; lia..|]. right. split; [lia|]. by etrans. }
  assert (Total (λ a b, row_cmp a b ≠ Gt)).
  { intros a b. rewrite !row_cmp_le. unfold row_le.
    destruct (Nat.lt_trichotomy (Row.hop a) (Row.hop b)) as [?|[?|?]];
      [left; by left| |right; by left].
    destruct (total String.le (GraphRecord.id (Row.record a)) (GraphRecord.id (Row.record b)));
      [left|right]; right; done. }
  assert (StronglySorted (λ a b, row_cmp a b ≠ Gt) (sort_by row_cmp rows)) as Hs
    by by apply StronglySorted_merge_sort.
  induction Hs as [|x k _ IH Hx]; constructor; [done|].
  eapply Forall_impl; [done|]. intros y. by rewrite row_cmp_le.
Qed.

(** The rows are the records one to [n] links from the anchor, each once, in order, with
    their distance and a least chain of that length. *)
Definition rows_exact (mk_path : list (string * EdgeRef) → list PathStep.t)
    (by_id : gmap string GraphRecord) (n : nat) (rows : list Row.t) : Prop :=
  StronglySorted row_le rows
  ∧ NoDup ((λ r, GraphRecord.id r.(Row.record)) <$> rows)
  ∧ (∀ r, r ∈ rows →
       let x := GraphRecord.id r.(Row.record) in
       by_id !! x = Some r.(Row.record)
       ∧ 1 ≤ r.(Row.hop) ≤ n ∧ dist r.(Row.hop) x
       ∧ (∃ chain, r.(Row.path) = mk_path chain ∧ length chain = r.(Row.hop)
            ∧ least_chain x chain)
       ∧ r.(Row.path_resolution) = weakest (omap PathStep.resolution r.(Row.path)))
  ∧ (∀ x j, 1 ≤ j ≤ n → dist j x →
       ∃ r, r ∈ rows ∧ GraphRecord.id r.(Row.record) = x ∧ r.(Row.hop) = j).

Lemma build_rows_spec mk_path by_id n d b :
  (∀ e, ¬ emitted d e) → b = bounded_loop n (start d) →
  (∀ x, x ∈ U ↔ is_Some (by_id !! x)) →
  (∀ x r, by_id !! x = Some r → GraphRecord.id r = x) →
  ∃ rows, build_rows mk_path by_id anchor b = Some rows ∧ rows_exact mk_path by_id n rows.
Proof.
  intros Hd Hb HU Hid. destruct (bounded_hops n d b Hd Hb) as [Hhop _].
  assert (∀ x j, b.(hop_of) !! x = Some j → ∃ r,
    build_row mk_path by_id anchor b (x, j) = Some r
    ∧ GraphRecord.id r.(Row.record) = x ∧ r.(Row.hop) = j
    ∧ by_id !! x = Some r.(Row.record)
    ∧ (∃ chain, r.(Row.path) = mk_path chain ∧ length chain = j ∧ least_chain x chain)
    ∧ r.(Row.path_resolution) = weakest (omap PathStep.resolution r.(Row.path))) as Hrow.
  { intros x j Hx. destruct (bounded_chain n d b x j (S j) Hd Hb Hx ltac:(lia))
      as (chain & Hw & Hlen & Hc).
    apply Hhop in Hx as [_ [Hx _]]. apply reached_in, HU in Hx as [r Hr].
    unfold build_row. rewrite Hr. cbn [mbind option_bind]. rewrite Hw. cbn [mbind option_bind].
    eexists. split; [done|]. cbn. split_and!; [by apply Hid|done|done| |done].
    by exists chain. }
  destruct (mapM (build_row mk_path by_id anchor b) (map_to_list b.(hop_of))) as [rows|] eqn:HE.
  2: { exfalso. apply mapM_None_1, Exists_exists in HE as ([x j] & Hx & Hn).
       apply elem_of_map_to_list, Hrow in Hx as (r & Hr & _). congruence. }
  unfold build_rows. rewrite HE. cbn [mbind option_bind]. eexists. split; [done|].
  apply mapM_Some in HE.
  assert (∀ r, r ∈ rows ↔ ∃ x j, b.(hop_of) !! x = Some j
    ∧ build_row mk_path by_id anchor b (x, j) = Some r) as Hrows.
  { intros r. rewrite list_elem_of_lookup. split.
    - intros [i Hi]. destruct (Forall2_lookup_r _ _ _ _ _ HE Hi) as ([x j] & Hx & Hf).
      exists x, j. split; [|done]. by apply elem_of_map_to_list, list_elem_of_lookup_2 with i.
    - intros (x & j & Hx & Hf). apply elem_of_map_to_list, list_elem_of_lookup in Hx as [i Hi].
      destruct (Forall2_lookup_l _ _ _ _ _ HE Hi) as (r' & Hi' & Hf'). exists i. congruence. }
  split; [apply sort_rows_sorted|]. split_and!.
  - assert ((λ r, GraphRecord.id r.(Row.record)) <$> rows = (map_to_list b.(hop_of)).*1) as Hk.
    { clear Hrows. assert (∀ xj, xj ∈ map_to_list b.(hop_of) →
        b.(hop_of) !! xj.1 = Some xj.2) as Hel by by intros [??] ?%elem_of_map_to_list.
      revert Hel. induction HE as [|[x j] r l rows Hf _ IH]; intros Hel; [done|]. csimpl.
      destruct (Hrow x j (Hel (x, j) ltac:(by left))) as (r' & Hf' & Hx & _).
      f_equal; [congruence|]. apply IH. intros y Hy. apply Hel. by right. }
    rewrite (fmap_Permutation _ _ _ (sort_by_perm row_cmp rows)), Hk. apply NoDup_fst_map_to_list.
  - intros r Hr. rewrite sort_by_perm in Hr. apply Hrows in Hr as (x & j & Hx & Hf).
    destruct (Hrow _ _ Hx) as (r' & Hf' & Hid' & Hj & Hlive & Hchain & Hres).
    assert (r' = r) as -> by congruence. subst x j. cbv zeta.
    apply Hhop in Hx as [? ?]. done.
  - intros x j Hj Hx. destruct (Hrow x j) as (r & Hf & Hid' & Hj' & _); [by apply Hhop|].
    exists r. split; [|done]. rewrite sort_by_perm. apply Hrows. exists x, j.
    split; [by apply Hhop|done].
Qed.
End Correct.
