(* ===== verification/CallPath.v ===== *)
(** * Directed call-path witness

    [src/src/query/path.rs]: [call_path] answers whether one record reaches another
    over resolved [CALLS] edges, with one concrete shortest chain. [sort_unstable_by]
    may leave elements with equal keys in any order, so the sort is a parameter with
    its documented contract. The two [while] loops are run with the fuel
    [size by_id + 2], which [call_path_correct] shows is enough. *)
From S2P Require Import Prelude RustStr Ir IrOps Liveness LevelSearch.

Module CallPathStep.
(* query/path.rs 54-68: CallPathStep *)
Record t : Type := mk {
  source_record_id : string;
  edge_record_id : string;
  edge_label : string;
  resolution : option CallResolution.t;
  confidence : option string;
  target_record_id : string
}.
End CallPathStep.

Module CallPathContext.
(* query/path.rs 72-86: CallPathContext *)
Record t : Type := mk {
  from : GraphRecord;
  to : GraphRecord;
  steps : list CallPathStep.t;
  path_found : bool
}.
End CallPathContext.

(** [(other_node_id, edge_id, confidence)]. *)
(* query/path.rs 90-90: PathEdgeRef *)
Definition PathEdgeRef : Type := string * string * option string.

Definition edge_ref_cmp (a b : PathEdgeRef) : comparison :=
  then_cmp (String.compare a.1.1 b.1.1) (String.compare a.1.2 b.1.2).

(** The outbound resolved-[CALLS] edge of a record, as [(source, edge)]. *)
(* query/path.rs 153-177: call_path *)
Definition outbound_edge (liveness : Liveness.t) (by_id : gmap string GraphRecord)
    (r : GraphRecord) : option (string * PathEdgeRef) :=
  match r with
  | Edge e =>
      if bool_decide (e.(EdgeRec.label) = EdgeLabel.Calls)
         && bool_decide (e.(EdgeRec.resolution) = Some CallResolution.Resolved)
         && negb (Liveness.deleted liveness e.(EdgeRec.id))
         && is_some (by_id !! e.(EdgeRec.target))
      then Some (e.(EdgeRec.source),
                 (e.(EdgeRec.target), e.(EdgeRec.id), e.(EdgeRec.confidence)))
      else None
  | _ => None
  end.

Section CallPath.
(** [edges.sort_unstable_by(|a, b| (a.0, a.1).cmp(&(b.0, b.1)))]. *)
Context (sort_unstable : list PathEdgeRef → list PathEdgeRef).

(* query/path.rs 151-184: call_path *)
Definition outbound_index (records : list GraphRecord) (by_id : gmap string GraphRecord)
    : gmap string (list PathEdgeRef) :=
  let pushed := foldl (λ m r,
    match outbound_edge (Liveness.new records) by_id r with
    | Some (source, edge) => <[source := default [] (m !! source) ++ [edge]]> m
    | None => m
    end) ∅ records in
  (λ edges, dedup_by_key fst (sort_unstable edges)) <$> pushed.

(** ** The level-synchronized breadth-first search *)
Record Bfs : Type := mkBfs {
  parent : gmap string PathEdgeRef;
  visited : gset string;
  frontier : list string;
  found : bool
}.

(** [(candidate.0, candidate.1) < (prev.0, prev.1)]. *)
(* query/path.rs 215-215: call_path *)
Definition pointer_lt (a b : PathEdgeRef) : bool :=
  bool_decide (edge_ref_cmp a b = Lt).

(* query/path.rs 205-219: call_path *)
Definition discover (visited : gset string) (node : string)
    (discoveries : gmap string PathEdgeRef) (edge : PathEdgeRef)
    : gmap string PathEdgeRef :=
  let '(target_id, edge_id, confidence) := edge in
  if bool_decide (target_id ∈ visited) then discoveries
  else
    let candidate := (node, edge_id, confidence) in
    match discoveries !! target_id with
    | None => <[target_id := candidate]> discoveries
    | Some prev =>
        if pointer_lt candidate prev then <[target_id := candidate]> discoveries
        else discoveries
    end.

(** One round of [while !frontier.is_empty() && !found]. The discoveries are a
    [BTreeMap], left in key order. *)
(* query/path.rs 195-232: call_path *)
Definition bfs_round (outbound : gmap string (list PathEdgeRef)) (to_id : string) (b : Bfs)
    : Bfs :=
  let discoveries :=
    foldl (λ acc node, foldl (discover b.(visited) node) acc
                         (default [] (outbound !! node))) ∅ b.(frontier) in
  let visited' := b.(visited) ∪ dom discoveries in
  mkBfs (discoveries ∪ b.(parent)) visited'
    (str_sort (elements (dom discoveries)))
    (if bool_decide (to_id ∈ visited') then true else b.(found)).

Fixpoint bfs_loop (outbound : gmap string (list PathEdgeRef)) (to_id : string)
    (fuel : nat) (b : Bfs) : option Bfs :=
  match fuel with
  | O => None
  | S fuel =>
      if bool_decide (b.(frontier) = []) || b.(found) then Some b
      else bfs_loop outbound to_id fuel (bfs_round outbound to_id b)
  end.

(** The chain from [cursor] back to [from_id]; [None] is the [expect] panic. *)
(* query/path.rs 244-259: call_path *)
Fixpoint walk_back (parent : gmap string PathEdgeRef) (from_id : string) (fuel : nat)
    (cursor : string) : option (list CallPathStep.t) :=
  match fuel with
  | O => None
  | S fuel =>
      if cursor =s? from_id then Some []
      else
        let?o pointer := parent !! cursor in
        let '(parent_id, edge_id, confidence) := pointer in
        let?o rest := walk_back parent from_id fuel parent_id in
        Some (CallPathStep.mk parent_id edge_id "CALLS" (Some CallResolution.Resolved)
                confidence cursor :: rest)
  end.

(** The outer [option] is the model's: [None] would be fuel running out or the
    [expect] panicking. The inner one is the function's own. *)
(* query/path.rs 113-268: call_path *)
Definition call_path (records : list GraphRecord) (from_id to_id : string)
    : option (option CallPathContext.t) :=
  let by_id := live_by_id records in
  match by_id !! from_id, by_id !! to_id with
  | Some from, Some to =>
      let from_id := GraphRecord.id from in
      let to_id := GraphRecord.id to in
      if from_id =s? to_id then Some (Some (CallPathContext.mk from to [] true))
      else
        let outbound := outbound_index records by_id in
        let fuel := size by_id + 2 in
        let?o b := bfs_loop outbound to_id fuel
                     (mkBfs ∅ {[from_id]} [from_id] false) in
        if negb b.(found) then Some (Some (CallPathContext.mk from to [] false))
        else
          let?o rev := walk_back b.(parent) from_id fuel to_id in
          Some (Some (CallPathContext.mk from to (reverse rev) true))
  | _, _ => Some None
  end.

End CallPath.

(** ** The specification: directed reachability over live resolved calls *)

(** [e] is a traversable call edge of the records: a resolved [CALLS] edge that is
    not deleted, to a live record. *)
Definition call_edge (records : list GraphRecord) (e : EdgeRec.t) : Prop :=
  Edge e ∈ records
  ∧ e.(EdgeRec.label) = EdgeLabel.Calls
  ∧ e.(EdgeRec.resolution) = Some CallResolution.Resolved
  ∧ Liveness.deleted (Liveness.new records) e.(EdgeRec.id) = false
  ∧ is_Some (live_by_id records !! e.(EdgeRec.target)).

(** [x] calls [y] over the edge id [eid] that carries the confidence [c]. *)
Definition calls_over (records : list GraphRecord) (x : string) (eid : string)
    (c : option string) (y : string) : Prop :=
  ∃ e, call_edge records e ∧ e.(EdgeRec.source) = x ∧ e.(EdgeRec.target) = y
       ∧ e.(EdgeRec.id) = eid ∧ e.(EdgeRec.confidence) = c.

Definition calls (records : list GraphRecord) (x y : string) : Prop :=
  ∃ eid c, calls_over records x eid c y.

(** [steps] leads from [x] to [y], every step over a traversable call edge. *)
Fixpoint justified_chain (records : list GraphRecord) (x y : string)
    (steps : list CallPathStep.t) : Prop :=
  match steps with
  | [] => x = y
  | s :: steps' =>
      s.(CallPathStep.source_record_id) = x
      ∧ calls_over records x s.(CallPathStep.edge_record_id)
          s.(CallPathStep.confidence) s.(CallPathStep.target_record_id)
      ∧ s.(CallPathStep.edge_label) = "CALLS"
      ∧ s.(CallPathStep.resolution) = Some CallResolution.Resolved
      ∧ justified_chain records s.(CallPathStep.target_record_id) y steps'
  end.

(** The lexicographic order on [(id, edge id)] the tie-break uses. *)
Definition ref_le (a b : PathEdgeRef) : Prop :=
  String.le a.1.1 b.1.1 ∧ (a.1.1 = b.1.1 → String.le a.1.2 b.1.2).

(** ** Lemmas on the edge order and the index *)
Lemma edge_ref_cmp_le a b : edge_ref_cmp a b ≠ Gt ↔ ref_le a b.
Proof. apply (lex_cmp_le (λ x : PathEdgeRef, x.1.1) (λ x, x.1.2)). Qed.

#[export] Instance ref_le_trans : Transitive ref_le.
Proof. apply (lex_le_trans (λ x : PathEdgeRef, x.1.1) (λ x, x.1.2)). Qed.

#[export] Instance ref_le_total : Total ref_le.
Proof. apply (lex_le_total (λ x : PathEdgeRef, x.1.1) (λ x, x.1.2)). Qed.

Lemma outbound_edge_Some records r s y eid c :
  r ∈ records →
  outbound_edge (Liveness.new records) (live_by_id records) r = Some (s, (y, eid, c)) →
  calls_over records s eid c y.
Proof.
  intros Hr. unfold outbound_edge. destruct r as [|e|]; [done| |done].
  case_match eqn:Hc; [|done]. intros [= <- <- <- <-]. breflect.
  exists e. split_and!; [|done..]. split_and!; try done.
  by destruct (live_by_id records !! _).
Qed.

Lemma outbound_edge_complete records e :
  call_edge records e →
  outbound_edge (Liveness.new records) (live_by_id records) (Edge e)
  = Some (e.(EdgeRec.source), (e.(EdgeRec.target), e.(EdgeRec.id), e.(EdgeRec.confidence))).
Proof.
  intros (_ & Hl & Hs & Hd & [x Hx]). unfold outbound_edge.
  by rewrite !bool_decide_eq_true_2, Hd, Hx by done.
Qed.

(** ** One round of the search *)

(** An examined edge offers its pointer for its target. *)
Definition offer_of (ne : string * PathEdgeRef) : string * PathEdgeRef :=
  (ne.2.1.1, (ne.1, ne.2.1.2, ne.2.2)).

Lemma discover_offer visited acc ne :
  discover visited ne.1 acc ne.2
  = offer (λ x : PathEdgeRef, x.1.1) (λ x, x.1.2) visited acc (offer_of ne).
Proof. by destruct ne as [n [[t eid] c]]. Qed.

Lemma foldl_discover visited (l : list (string * PathEdgeRef)) :
  let D := foldl (λ acc ne, discover visited ne.1 acc ne.2) ∅ l in
  (∀ t q, D !! t = Some q →
     (t ∉ visited) ∧ (q.1.1, (t, q.1.2, q.2)) ∈ l
     ∧ ∀ n eid c, (n, (t, eid, c)) ∈ l → ref_le q (n, eid, c))
  ∧ (∀ n t eid c, (n, (t, eid, c)) ∈ l → t ∉ visited → is_Some (D !! t)).
Proof.
  assert (foldl (λ acc ne, discover visited ne.1 acc ne.2) ∅ l
    = foldl (offer (λ x : PathEdgeRef, x.1.1) (λ x, x.1.2) visited) ∅ (offer_of <$> l)) as ->.
  { rewrite foldl_fmap. apply foldl_ext_elem. intros b x _. apply discover_offer. }
  destruct (foldl_offer (λ x : PathEdgeRef, x.1.1) (λ x, x.1.2) visited (offer_of <$> l))
    as [H1 H2].
  assert (∀ n t eid c, (n, (t, eid, c)) ∈ l → (t, (n, eid, c)) ∈ offer_of <$> l) as Hin.
  { intros n t eid c H. apply list_elem_of_fmap. by exists (n, (t, eid, c)). }
  cbv zeta in *. split; [|by eauto].
  intros t q (Hv & Ho & Hmin)%H1. split_and!; [done| |intros n eid c Hn; by apply Hmin, Hin].
  apply list_elem_of_fmap in Ho as ([n [[y eid] c]] & [= -> ->] & Ho). done.
Qed.

Section Correct.
Context (sort_unstable : list PathEdgeRef → list PathEdgeRef).
Hypothesis sort_unstable_perm : ∀ l, sort_unstable l ≡ₚ l.
Context (records : list GraphRecord).

Abbreviation outbound := (outbound_index sort_unstable records (live_by_id records)).

Lemma outbound_lookup x :
  default [] (outbound !! x)
  = dedup_by_key fst (sort_unstable (default [] (foldl (λ m r,
      match outbound_edge (Liveness.new records) (live_by_id records) r with
      | Some (source, edge) => <[source := default [] (m !! source) ++ [edge]]> m
      | None => m
      end) (∅ : gmap string (list PathEdgeRef)) records !! x))).
Proof.
  unfold outbound_index. rewrite lookup_fmap.
  destruct (foldl _ _ _ !! x) as [l|]; simpl; [done|].
  assert (sort_unstable [] = []) as ->; [|done].
  apply Permutation_nil_r, sort_unstable_perm.
Qed.

Lemma outbound_sound x y eid c :
  (y, eid, c) ∈ default [] (outbound !! x) → calls_over records x eid c y.
Proof.
  rewrite outbound_lookup. intros Hin%dedup_by_key_elem.
  rewrite sort_unstable_perm, foldl_push in Hin. destruct Hin as (r & Hr & He).
  by eapply outbound_edge_Some.
Qed.

Lemma outbound_complete x y eid c :
  calls_over records x eid c y → ∃ c', (y, eid, c') ∈ default [] (outbound !! x).
Proof.
  intros (e & He & <- & <- & <- & <-). rewrite outbound_lookup.
  destruct (dedup_by_key_key fst (sort_unstable (default [] (foldl (λ m r,
      match outbound_edge (Liveness.new records) (live_by_id records) r with
      | Some (source, edge) => <[source := default [] (m !! source) ++ [edge]]> m
      | None => m
      end) (∅ : gmap string (list PathEdgeRef)) records !! e.(EdgeRec.source))))
    (e.(EdgeRec.target), e.(EdgeRec.id), e.(EdgeRec.confidence)))
    as ([[y' eid'] c'] & Hin & [= -> ->]); [|by eauto].
  rewrite sort_unstable_perm, foldl_push.
  exists (Edge e). split; [by destruct He|]. by apply outbound_edge_complete.
Qed.

(** ** The search keeps the breadth-first invariant *)
Abbreviation R := (calls records).
Abbreviation dist := (at_distance R).

(** The records that call [y] directly. *)
Definition callers_of (y : string) : list string :=
  omap (λ r, match outbound_edge (Liveness.new records) (live_by_id records) r with
             | Some (s, e) => if bool_decide (e.1.1 = y) then Some s else None
             | None => None
             end) records.

Lemma callers_of_spec x y : R x y ↔ x ∈ callers_of y.
Proof.
  unfold callers_of. rewrite list_elem_of_omap. split.
  - intros (eid & c & e & He & <- & <- & _). exists (Edge e). split; [by destruct He|].
    rewrite outbound_edge_complete by done. by rewrite bool_decide_eq_true_2.
  - intros (r & Hr & Ho). destruct (outbound_edge _ _ r) as [[s [[y' eid] c]]|] eqn:E; [|done].
    cbn [fst] in Ho. case_bool_decide; simplify_eq. exists eid, c.
    by eapply outbound_edge_Some.
Qed.

#[local] Instance calls_bsteps_dec from k x : Decision (bsteps R k from x).
Proof. apply (bsteps_dec R callers_of), callers_of_spec. Defined.

(** The pointer [q] is the least discovery of [x] from the level [j]. *)
Definition least_pointer (from : string) (j : nat) (x : string) (q : PathEdgeRef) : Prop :=
  dist from j q.1.1
  ∧ calls_over records q.1.1 q.1.2 q.2 x
  ∧ ∀ p eid c, dist from j p → calls_over records p eid c x → ref_le q (p, eid, c).

Record bfs_inv (from to_id : string) (k : nat) (b : Bfs) : Prop := {
  inv_visited x : x ∈ b.(visited) ↔ bsteps R k from x;
  inv_frontier x : x ∈ b.(frontier) ↔ dist from k x;
  inv_parent x q : b.(parent) !! x = Some q →
    ∃ j, j < k ∧ dist from (S j) x ∧ least_pointer from j x q;
  inv_parent_all j x : j < k → dist from (S j) x → is_Some (b.(parent) !! x);
  inv_found : b.(found) = bool_decide (to_id ∈ b.(visited));
  inv_size : b.(frontier) ≠ [] → k < size b.(visited)
}.

Lemma bfs_inv_start from to_id :
  from ≠ to_id → bfs_inv from to_id 0 (mkBfs ∅ {[from]} [from] false).
Proof.
  intros Hne. constructor; cbn [visited frontier parent found].
  - intros x. rewrite bsteps_0. set_solver.
  - intros x. rewrite list_elem_of_singleton. unfold at_distance. rewrite bsteps_0.
    split; [intros ->; split; [done|lia]|naive_solver].
  - intros x q. by rewrite lookup_empty.
  - lia.
  - rewrite bool_decide_eq_false_2; [done|set_solver].
  - intros _. rewrite size_singleton. lia.
Qed.

(** The offers a round collects are the calls out of the frontier. *)
Lemma offers_spec (frontier : list string) n x eid c :
  (n, (x, eid, c)) ∈ (frontier ≫= λ node, pair node <$> default [] (outbound !! node))
  ↔ n ∈ frontier ∧ (x, eid, c) ∈ default [] (outbound !! n).
Proof.
  rewrite list_elem_of_bind. setoid_rewrite list_elem_of_fmap. naive_solver.
Qed.

Lemma bfs_inv_round from to_id k b :
  from ≠ to_id → bfs_inv from to_id k b → b.(found) = false →
  bfs_inv from to_id (S k) (bfs_round outbound to_id b).
Proof.
  intros Hne [Hv Hf Hp Hpa Hfo Hs] Hnf. unfold bfs_round.
  rewrite (foldl_concat (λ n e acc, discover b.(visited) n acc e)).
  destruct (foldl_discover b.(visited)
    (b.(frontier) ≫= λ node, pair node <$> default [] (outbound !! node))) as [HD1 HD2].
  set (D := foldl _ ∅ _) in *. cbn beta in HD1, HD2.
  assert (∀ x, x ∈ dom D ↔ dist from (S k) x) as HdomD.
  { intros x. rewrite elem_of_dom, at_distance_S_iff, <-Hv. split.
    - intros [[[n eid] c] (Hx & [Hn Ho]%offers_spec & _)%HD1]. split; [done|].
      exists n. rewrite <-Hf. split; [done|]. exists eid, c. by apply outbound_sound.
    - intros (Hx & n & Hn%Hf & eid & c & (c' & Ho)%outbound_complete).
      eapply HD2; [|done]. by apply offers_spec. }
  constructor; cbn [visited frontier parent found].
  - intros x. rewrite elem_of_union, HdomD, at_distance_S, Hv.
    destruct (calls_bsteps_dec from k x); [|naive_solver].
    split; [intros _; by apply bsteps_S|by left].
  - intros x. rewrite str_sort_perm, elem_of_elements. apply HdomD.
  - intros x q. rewrite lookup_union_Some_raw. intros [Hq|[_ Hq]].
    + pose proof (HD1 _ _ Hq) as (Hx & [Hn Ho]%offers_spec & Hmin).
      exists k. unfold least_pointer. split_and!; [lia|by apply HdomD, elem_of_dom|by apply Hf| |].
      * by apply outbound_sound.
      * intros p eid c Hd%Hf (c' & Hc)%outbound_complete.
        apply (Hmin p eid c'). by apply offers_spec.
    + destruct (Hp _ _ Hq) as (j & ? & ?). exists j. split; [lia|done].
  - intros j x Hj Hd. apply lookup_union_is_Some. fold D.
    destruct (decide (j = k)) as [->|]; [left|right; apply (Hpa j); [lia|done]].
    by apply elem_of_dom; apply HdomD.
  - rewrite Hnf. by repeat case_bool_decide.
  - intros Hnil. rewrite size_union.
    + destruct (elements (dom D)) as [|x l] eqn:Hel; [done|].
      assert (x ∈ dom D) as Hx by (apply elem_of_elements; rewrite Hel; by left).
      assert (b.(frontier) ≠ []) as Hb.
      { apply HdomD, at_distance_S_iff in Hx as (_ & y & Hy%Hf & _).
        intros Hb. rewrite Hb in Hy. by apply elem_of_nil in Hy. }
      specialize (Hs Hb). assert (size (dom D) ≠ 0); [|lia].
      intros Hz%size_empty_inv. set_solver.
    + intros x Hx Hd%HdomD%at_distance_S. naive_solver.
Qed.

Lemma reached_live from k x :
  is_Some (live_by_id records !! from) → bsteps R k from x →
  is_Some (live_by_id records !! x).
Proof.
  intros Hlive. revert x. induction k as [|k IH]; intros x.
  - by intros <-%bsteps_0.
  - intros [?|(z & _ & eid & c & e & (_ & _ & _ & _ & He) & _ & <- & _)]%bsteps_S_iff;
      [by apply IH|done].
Qed.

Lemma bfs_loop_spec from to_id fuel k b :
  from ≠ to_id → is_Some (live_by_id records !! from) →
  bfs_inv from to_id k b → k ≤ size (live_by_id records) →
  size (live_by_id records) + 2 ≤ fuel + k →
  ∃ k' b', bfs_loop outbound to_id fuel b = Some b' ∧ bfs_inv from to_id k' b'
    ∧ k' ≤ size (live_by_id records) ∧ (b'.(frontier) = [] ∨ b'.(found) = true).
Proof.
  intros Hne Hlive. revert k b. induction fuel as [|fuel IH]; intros k b Hinv Hk Hfuel; [lia|].
  cbn [bfs_loop]. destruct (bool_decide _ || _) eqn:Hstop.
  { exists k, b. split_and!; [done..|]. breflect; auto. }
  breflect. apply (IH (S k)); [by apply bfs_inv_round| |lia].
  assert (size b.(visited) ≤ size (live_by_id records)) as Hsz.
  { rewrite <-size_dom. apply subseteq_size. intros x Hx%(inv_visited _ _ _ _ Hinv).
    apply elem_of_dom. by eapply reached_live. }
  pose proof (inv_size _ _ _ _ Hinv ltac:(done)). lia.
Qed.

(** With an empty frontier everything reachable is visited. *)
Lemma frontier_nil_closed from to_id k b x :
  bfs_inv from to_id k b → b.(frontier) = [] → rtc R from x → x ∈ b.(visited).
Proof.
  intros Hinv Hnil Hr. rewrite (inv_visited _ _ _ _ Hinv). revert x Hr.
  apply rtc_ind_r; [constructor|]. intros y z _ Hyz (j & Hj & Hd)%(bsteps_at_distance _ _ (calls_bsteps_dec from)).
  destruct (decide (j = k)) as [->|].
  - apply (inv_frontier _ _ _ _ Hinv) in Hd. rewrite Hnil in Hd. by apply elem_of_nil in Hd.
  - apply (bsteps_weaken (S j)); [lia|]. eapply bsteps_r; [by apply Hd|done].
Qed.

Lemma justified_chain_snoc x y z l s :
  justified_chain records x y l → justified_chain records y z [s] →
  justified_chain records x z (l ++ [s]).
Proof.
  revert x. induction l as [|s' l IH]; intros x; cbn [justified_chain app].
  - by intros ->.
  - intros (? & ? & ? & ? & ?) ?. split_and!; try done. by apply IH.
Qed.

(** The step at position [i] of a witness is the least one between its levels. *)
Definition least_steps (from : string) (l : list CallPathStep.t) : Prop :=
  ∀ i s, l !! i = Some s →
    dist from i s.(CallPathStep.source_record_id)
    ∧ dist from (S i) s.(CallPathStep.target_record_id)
    ∧ ∀ p eid c, dist from i p →
        calls_over records p eid c s.(CallPathStep.target_record_id) →
        ref_le (s.(CallPathStep.source_record_id), s.(CallPathStep.edge_record_id), None)
               (p, eid, c).

Lemma walk_back_spec from to_id k b fuel j x :
  bfs_inv from to_id k b → dist from j x → j ≤ k → j < fuel →
  ∃ rev, walk_back b.(parent) from fuel x = Some rev ∧ length rev = j
    ∧ justified_chain records from x (reverse rev) ∧ least_steps from (reverse rev).
Proof.
  intros Hinv. revert j x. induction fuel as [|fuel IH]; intros j x Hd Hj Hfuel; [lia|].
  cbn [walk_back]. destruct j as [|j].
  { destruct Hd as [<-%bsteps_0 _]. rewrite String.eqb_refl. exists []. by split_and!. }
  destruct (String.eqb_spec x from) as [->|Hne].
  { exfalso. apply at_distance_S in Hd as [_ []]. constructor. }
  destruct (inv_parent_all _ _ _ _ Hinv j x) as [[[p eid] c] Hq]; [lia|done|].
  destruct (inv_parent _ _ _ _ Hinv _ _ Hq) as (j' & Hj' & Hd' & Hp & Hc & Hmin).
  assert (j' = j) as -> by by pose proof (at_distance_unique _ _ _ _ _ Hd Hd'); lia.
  cbn [fst snd] in *.
  destruct (IH j p) as (rev & Hw & Hlen & Hchain & Hleast); [done|lia..|].
  replace (b.(parent) !! x) with (Some (p, eid, c)).
  cbn [mbind option_bind]. rewrite Hw. eexists. split_and!; [done|simpl; lia|..]; rewrite reverse_cons.
  - eapply justified_chain_snoc; [done|]. by split_and!.
  - intros i s [Hi|[Hi Hs]]%lookup_app_Some; [by apply Hleast|].
    apply list_lookup_singleton_Some in Hs as [Hi' <-].
    rewrite length_reverse in Hi, Hi'. assert (i = j) as -> by lia.
    split_and!; done.
Qed.

(** What the whole function computes. *)
Lemma call_path_spec from_id to_id from to :
  live_by_id records !! from_id = Some from → live_by_id records !! to_id = Some to →
  ∃ steps found,
    call_path sort_unstable records from_id to_id
      = Some (Some (CallPathContext.mk from to steps found))
    ∧ (found = true → justified_chain records from_id to_id steps
         ∧ dist from_id (length steps) to_id ∧ least_steps from_id steps)
    ∧ (found = false → steps = [] ∧ ¬ rtc R from_id to_id).
Proof.
  intros Hfrom Hto. unfold call_path. rewrite Hfrom, Hto.
  rewrite (live_by_id_id _ _ _ Hfrom), (live_by_id_id _ _ _ Hto).
  destruct (String.eqb_spec from_id to_id) as [<-|Hne].
  { exists [], true. split_and!; [done| |done]. intros _. split_and!; [done| |done].
    split; [constructor|simpl; lia]. }
  destruct (bfs_loop_spec from_id to_id (size (live_by_id records) + 2) 0
    (mkBfs ∅ {[from_id]} [from_id] false)) as (k & b & Hloop & Hinv & Hk & Hend);
    [done|by eauto|by apply bfs_inv_start|lia..|].
  rewrite Hloop. cbn [mbind option_bind].
  pose proof (inv_found _ _ _ _ Hinv) as Hfo.
  destruct b.(found); cbn [negb]; symmetry in Hfo; breflect.
  - apply (inv_visited _ _ _ _ Hinv), (bsteps_at_distance _ _ (calls_bsteps_dec from_id)) in Hfo as (j & Hj & Hd).
    destruct (walk_back_spec from_id to_id k b (size (live_by_id records) + 2) j to_id)
      as (rev & Hw & Hlen & Hchain & Hleast); [done..|lia|].
    rewrite Hw. exists (reverse rev), true. split_and!; [done| |done].
    intros _. by rewrite length_reverse, Hlen.
  - exists [], false. split_and!; [done|done|]. intros _. split; [done|]. intros Hr.
    destruct Hend as [Hend|]; [|done]. by eapply Hfo, frontier_nil_closed.
Qed.

End Correct.

(** ** Properties *)

(** C28: [call_path] terminates without panicking on every record list. It answers
    [None] exactly when an endpoint is not among the live records; otherwise it
    reports [path_found] exactly when the first endpoint reaches the second over
    live resolved [CALLS] edges, and then the steps lead from the one to the other,
    each over such an edge, in the least possible number of calls; without a path
    the steps are empty. *)
Theorem call_path_correct sort_unstable records from_id to_id :
  (∀ l, sort_unstable l ≡ₚ l) →
  match live_by_id records !! from_id, live_by_id records !! to_id with
  | Some from, Some to =>
      ∃ ctx, call_path sort_unstable records from_id to_id = Some (Some ctx)
        ∧ ctx.(CallPathContext.from) = from ∧ ctx.(CallPathContext.to) = to
        ∧ (ctx.(CallPathContext.path_found) = true ↔ rtc (calls records) from_id to_id)
        ∧ (ctx.(CallPathContext.path_found) = true →
             justified_chain records from_id to_id ctx.(CallPathContext.steps)
             ∧ ∀ n, nsteps (calls records) n from_id to_id →
                    length ctx.(CallPathContext.steps) ≤ n)
        ∧ (ctx.(CallPathContext.path_found) = false → ctx.(CallPathContext.steps) = [])
  | _, _ => call_path sort_unstable records from_id to_id = Some None
  end.
Proof.
  intros Hperm. destruct (live_by_id records !! from_id) as [from|] eqn:Hfrom;
    [|by unfold call_path; rewrite Hfrom].
  destruct (live_by_id records !! to_id) as [to|] eqn:Hto;
    [|by unfold call_path; rewrite Hfrom, Hto].
  destruct (call_path_spec _ Hperm _ _ _ _ _ Hfrom Hto) as (steps & found & Hc & Ht & Hf).
  eexists. split; [done|]. cbn [CallPathContext.from CallPathContext.to
    CallPathContext.path_found CallPathContext.steps]. split_and!; [done..| | |].
  - destruct found; [|naive_solver]. split; [|done]. intros _.
    destruct (Ht eq_refl) as (_ & [Hd _] & _). by eapply rtc_bsteps_2.
  - intros Hfound. destruct (Ht Hfound) as (Hchain & [_ Hd] & _). split; [done|].
    intros n Hn. destruct (decide (n < length steps)) as [Hlt|]; [|lia].
    destruct (Hd n Hlt). apply bsteps_nsteps. eauto.
  - naive_solver.
Qed.

(** The witness chain is the one the documented tie-break picks, whatever the
    record order and the unstable sort do: the [i]-th step goes from a record [i]
    calls away to a record [i + 1] calls away, and among all traversable calls
    from that level into its target it is the one with the least source id, then
    the least edge id. *)
Theorem call_path_tie_break sort_unstable records from_id to_id ctx :
  (∀ l, sort_unstable l ≡ₚ l) →
  call_path sort_unstable records from_id to_id = Some (Some ctx) →
  ∀ i s, ctx.(CallPathContext.steps) !! i = Some s →
    at_distance (calls records) from_id i s.(CallPathStep.source_record_id)
    ∧ at_distance (calls records) from_id (S i) s.(CallPathStep.target_record_id)
    ∧ ∀ p eid c, at_distance (calls records) from_id i p →
        calls_over records p eid c s.(CallPathStep.target_record_id) →
        ref_le (s.(CallPathStep.source_record_id), s.(CallPathStep.edge_record_id), None)
               (p, eid, c).
Proof.
  intros Hperm Hcall.
  destruct (live_by_id records !! from_id) as [from|] eqn:Hfrom;
    [|by unfold call_path in Hcall; rewrite Hfrom in Hcall].
  destruct (live_by_id records !! to_id) as [to|] eqn:Hto;
    [|by unfold call_path in Hcall; rewrite Hfrom, Hto in Hcall].
  destruct (call_path_spec _ Hperm _ _ _ _ _ Hfrom Hto) as (steps & found & Hc & Ht & Hf).
  rewrite Hc in Hcall. simplify_eq. cbn [CallPathContext.steps].
  destruct found; [by apply Ht|]. destruct (Hf eq_refl) as [-> _]. by intros i s.
Qed.

(** ** A concrete graph *)
Definition demo_node (id : string) : GraphRecord :=
  GraphRecord.node id NodeKind.Symbol None None (Some id) "".
(** The hash is replaced by the text itself. *)
Definition demo_call (source target : string) (resolution : CallResolution.t)
    : GraphRecord :=
  GraphRecord.with_resolution resolution
    (GraphRecord.edge (λ s, s) EdgeLabel.Calls source target None "").
Definition demo_sort (l : list PathEdgeRef) : list PathEdgeRef := sort_by edge_ref_cmp l.

Definition demo_records : list GraphRecord :=
  (demo_node <$> ["a"; "b"; "c"; "d"]) ++
  [demo_call "a" "c" CallResolution.Resolved; demo_call "a" "b" CallResolution.Resolved;
   demo_call "c" "d" CallResolution.Resolved; demo_call "b" "d" CallResolution.Resolved;
   demo_call "d" "a" CallResolution.Resolved].

Definition step_ends (ctx : CallPathContext.t) : list (string * string) :=
  (λ s, (s.(CallPathStep.source_record_id), s.(CallPathStep.target_record_id)))
    <$> ctx.(CallPathContext.steps).

Definition outcome (r : option (option CallPathContext.t))
    : option (option (list (string * string) * bool)) :=
  option_map (option_map (λ c, (step_ends c, c.(CallPathContext.path_found)))) r.

Example demo_call_path :
  outcome (call_path demo_sort demo_records "a" "d")
  = Some (Some ([("a", "b"); ("b", "d")], true)).
Proof. vm_compute. reflexivity. Qed.

#[local] Opaque live_by_id.
Lemma call_path_correct_witness :
  ∃ ctx, call_path demo_sort demo_records "a" "d" = Some (Some ctx)
    ∧ justified_chain demo_records "a" "d" ctx.(CallPathContext.steps).
Proof.
  pose proof (call_path_correct demo_sort demo_records "a" "d" (sort_by_perm _)) as H.
  assert (is_Some (live_by_id demo_records !! "a")) as [x Hx] by (by vm_compute; eexists).
  assert (is_Some (live_by_id demo_records !! "d")) as [y Hy] by (by vm_compute; eexists).
  rewrite Hx, Hy in H. clear Hx Hy. destruct H as (ctx & Hc & _ & _ & _ & Hj & _).
  exists ctx. split; [done|]. apply Hj.
  pose proof demo_call_path as Ht. rewrite Hc in Ht. cbn in Ht. congruence.
Defined.

#[local] Transparent live_by_id.

Lemma call_path_tie_break_witness :
  ∃ ctx s, call_path demo_sort demo_records "a" "d" = Some (Some ctx)
    ∧ ctx.(CallPathContext.steps) !! 1 = Some s
    ∧ at_distance (calls demo_records) "a" 1 s.(CallPathStep.source_record_id).
Proof.
  destruct (call_path demo_sort demo_records "a" "d") as [[ctx|]|] eqn:Hc;
    [|vm_compute in Hc; discriminate..].
  destruct (ctx.(CallPathContext.steps) !! 1) as [s|] eqn:Hs.
  - exists ctx, s. split_and!; [done..|].
    by apply (call_path_tie_break demo_sort demo_records "a" "d" ctx (sort_by_perm _) Hc 1 s).
  - exfalso. vm_compute in Hc. simplify_eq.
Defined.

(** ** Rewritten edges *)

(** An edge first written as resolved and later rewritten as ambiguous. *)
Definition rewritten_records : list GraphRecord :=
  [demo_node "a"; demo_node "b"; demo_call "a" "b" CallResolution.Resolved;
   demo_call "a" "b" CallResolution.Ambiguous].

(** The walk reads every stored version of an edge, not only the latest one the
    liveness view selects: there are records whose latest edge versions hold no
    resolved call at all and for which a one-step path is reported. *)
Theorem superseded_resolution_still_walked :
  (∀ i e, rewritten_records !! i = Some (Edge e) →
     Liveness.is_latest_edge_version (Liveness.new rewritten_records) e.(EdgeRec.id) i = true →
     e.(EdgeRec.resolution) ≠ Some CallResolution.Resolved)
  ∧ outcome (call_path demo_sort rewritten_records "a" "b")
    = Some (Some ([("a", "b")], true)).
Proof.
  split; [|by vm_compute].
  intros i e Hi Hl. destruct i as [|[|[|[|i]]]].
  all: vm_compute in Hi; simplify_eq; vm_compute in Hl; try discriminate.
Qed.
