(* ===== verification/EvidencePath.v ===== *)
(** * Evidence witness path

    [src/src/query/evidence_path.rs]: the shortest chain of live evidence edges between two
    records, walked in either direction, the least such chain by its whole sequence of
    (neighbor, edge) steps. The search keeps, with every record it reaches, the key of the
    path it was reached by; [evidence_path_least] shows that comparing these keys level by
    level picks the least of all shortest chains, as the source claims. *)
From S2P Require Import Prelude RustStr Ir IrOps SchemaVersion Liveness LevelSearch.

Module EvidencePath.

(** ** Edge classes *)
(* query/evidence_path.rs 55-106: ALL_EDGE_LABELS *)
Definition ALL_EDGE_LABELS : list EdgeLabel.t := [
  EdgeLabel.Contains; EdgeLabel.Defines; EdgeLabel.Imports; EdgeLabel.References; EdgeLabel.Calls;
  EdgeLabel.Implements; EdgeLabel.Mentions; EdgeLabel.ChangedIn; EdgeLabel.ParentOf;
  EdgeLabel.DriftsFrom; EdgeLabel.DriftsPrior; EdgeLabel.MeasuredBy; EdgeLabel.SessionOf;
  EdgeLabel.AuthoredBy; EdgeLabel.HasEvidence; EdgeLabel.Observes; EdgeLabel.MentionsSymbol;
  EdgeLabel.TouchedFile; EdgeLabel.ProducedPatch; EdgeLabel.ProducedEvidence;
  EdgeLabel.ValidatedBy; EdgeLabel.ClosesAcceptanceCriterion; EdgeLabel.OwnedByTask;
  EdgeLabel.ExternalHandle; EdgeLabel.DependsOn; EdgeLabel.TouchesFile; EdgeLabel.MergedAs;
  EdgeLabel.ReviewsCommit; EdgeLabel.ReviewedBy; EdgeLabel.RequestedReviewFrom;
  EdgeLabel.TransitionsReview; EdgeLabel.FailedOn; EdgeLabel.ExplainsChange;
  EdgeLabel.ReferencesTask; EdgeLabel.Contradicts; EdgeLabel.Supersedes; EdgeLabel.ProposedBy;
  EdgeLabel.PromptedFor; EdgeLabel.DecidedOn; EdgeLabel.MaterializedAs; EdgeLabel.RevokedBy;
  EdgeLabel.ScopedToRepo; EdgeLabel.RelatesTo; EdgeLabel.FingerprintedAs; EdgeLabel.CapturedFrom;
  EdgeLabel.Aggregates; EdgeLabel.FrameResolvesTo; EdgeLabel.EmittedDuring; EdgeLabel.Constructs;
  EdgeLabel.RegistersRoute
].

(* query/evidence_path.rs 112-168: is_evidence_path_edge *)
Definition is_evidence_path_edge (label : EdgeLabel.t) : bool :=
  match label with
  | EdgeLabel.HasEvidence | EdgeLabel.Observes | EdgeLabel.MentionsSymbol | EdgeLabel.TouchedFile
  | EdgeLabel.ProducedPatch | EdgeLabel.ProducedEvidence | EdgeLabel.ValidatedBy
  | EdgeLabel.ClosesAcceptanceCriterion | EdgeLabel.OwnedByTask | EdgeLabel.ExternalHandle
  | EdgeLabel.DependsOn | EdgeLabel.TouchesFile | EdgeLabel.MergedAs | EdgeLabel.ReviewsCommit
  | EdgeLabel.ReviewedBy | EdgeLabel.RequestedReviewFrom | EdgeLabel.TransitionsReview
  | EdgeLabel.FailedOn | EdgeLabel.ExplainsChange | EdgeLabel.ReferencesTask
  | EdgeLabel.Contradicts | EdgeLabel.Supersedes | EdgeLabel.RelatesTo
  | EdgeLabel.FrameResolvesTo | EdgeLabel.EmittedDuring | EdgeLabel.MaterializedAs
  | EdgeLabel.ProposedBy | EdgeLabel.PromptedFor | EdgeLabel.DecidedOn | EdgeLabel.RevokedBy
  | EdgeLabel.ScopedToRepo | EdgeLabel.FingerprintedAs | EdgeLabel.CapturedFrom
  | EdgeLabel.Aggregates => true
  | EdgeLabel.Contains | EdgeLabel.Defines | EdgeLabel.Imports | EdgeLabel.References
  | EdgeLabel.Calls | EdgeLabel.Implements | EdgeLabel.Mentions | EdgeLabel.ChangedIn
  | EdgeLabel.ParentOf | EdgeLabel.DriftsFrom | EdgeLabel.DriftsPrior | EdgeLabel.MeasuredBy
  | EdgeLabel.SessionOf | EdgeLabel.AuthoredBy | EdgeLabel.Constructs | EdgeLabel.RegistersRoute => false
  end.

(* query/evidence_path.rs 173-186: edge_classes *)
Definition edge_classes : list string * list string :=
  let '(traversed, excluded) :=
    foldl (λ '(traversed, excluded) label,
      if is_evidence_path_edge label
      then (traversed ++ [EdgeLabel.as_str label], excluded)
      else (traversed, excluded ++ [EdgeLabel.as_str label])) ([], []) ALL_EDGE_LABELS in
  (str_sort traversed, str_sort excluded).

(** ** Results *)
Module NodeRow.
(* query/evidence_path.rs 194-211: NodeRow *)
Record t : Type := mk {
  record_id : string;
  schema_version : N;
  domain : string;
  trust_class : string;
  kind : string;
  repo_relative_path : option string;
  span : option SourceSpan.t
}.
End NodeRow.

Module EdgeStep.
(* query/evidence_path.rs 215-231: EdgeStep *)
Record t : Type := mk {
  label : string;
  edge_record_id : string;
  traversal_direction : string;
  basis : option string;
  confidence : option string
}.
End EdgeStep.

Module Hop.
(* query/evidence_path.rs 236-245: Hop *)
Record t : Type := mk { index : nat; from : NodeRow.t; to : NodeRow.t; edge : EdgeStep.t }.
End Hop.

Module Path.
(* query/evidence_path.rs 249-260: EvidencePath *)
Record t : Type := mk {
  source : NodeRow.t;
  target : NodeRow.t;
  hops : list Hop.t;
  traversed_edge_classes : list string;
  excluded_edge_classes : list string
}.
End Path.

(* query/evidence_path.rs 264-269: EndpointSide *)
Inductive EndpointSide : Set := Source | Target.

(* query/evidence_path.rs 284-317: EvidencePathError *)
Inductive EvidencePathError : Type :=
| IdenticalEndpoints (handle : string)
| NoPath (source target : NodeRow.t) (traversed_edge_classes excluded_edge_classes : list string)
| EndpointNotFound (side : EndpointSide) (handle : string)
| EndpointTombstoned (side : EndpointSide) (handle : string).

(* query/evidence_path.rs 320-332: trust_class_for_domain *)
Definition trust_class_for_domain (domain : string) : string :=
  default "unknown" (str_match domain [
    ("codegraph", "source_fact");
    ("agent_memory", "agent_observation");
    ("verification", "verification");
    ("artifact", "artifact");
    ("project", "project_state");
    ("log", "runtime_observation");
    ("semantic", "semantic");
    ("user_context", "user_context") ]).

(* query/evidence_path.rs 336-346: record_domain *)
Definition record_domain (record : GraphRecord) : string :=
  let fallback := default "unknown" (domain_from_record_id (GraphRecord.id record)) in
  match record with
  | Node n => default fallback n.(NodeRec.domain)
  | _ => fallback
  end.

(* query/evidence_path.rs 349-372: project_node_row *)
Definition project_node_row (record : GraphRecord) : option NodeRow.t :=
  match record with
  | Node n =>
      let domain := record_domain record in
      Some (NodeRow.mk n.(NodeRec.id) n.(NodeRec.schema_version) domain
              (trust_class_for_domain domain) (NodeKind.as_str n.(NodeRec.kind))
              n.(NodeRec.repo_relative_path) n.(NodeRec.span))
  | _ => None
  end.

(** ** The undirected adjacency *)
Module Adjacency.
(* query/evidence_path.rs 377-390: Adjacency *)
Record t : Type := mk {
  neighbor : string;
  edge_id : string;
  label : EdgeLabel.t;
  native_from : string;
  native_to : string;
  basis : option CorrelationBasis.t
}.
End Adjacency.

Module Discovery.
(* query/evidence_path.rs 394-399: Discovery *)
Record t : Type := mk { parent : string; adj : Adjacency.t }.
End Discovery.

(** The steps [(neighbor, edge)] from the source, ordered as a vector of pairs. *)
(* query/evidence_path.rs 404-404: PathKey *)
Definition PathKey : Type := list (string * string).
Definition step_cmp : string * string → string * string → comparison :=
  pair_cmp String.compare String.compare.
Definition key_cmp : PathKey → PathKey → comparison := vec_cmp step_cmp.

(** A later node record of an id replaces an earlier one. *)
(* query/evidence_path.rs 465-471: evidence_path *)
Definition live_nodes (records : list GraphRecord) : gmap string GraphRecord :=
  foldl (λ m r, match r with
    | Node n => if Liveness.deleted (Liveness.new records) n.(NodeRec.id) then m
                else <[n.(NodeRec.id) := r]> m
    | _ => m
    end) ∅ records.

(** The two entries of a usable edge, each with the record it is pushed under; an unusable
    edge has none. *)
(* query/evidence_path.rs 498-546: evidence_path *)
Definition edge_entries (liveness : Liveness.t) (by_id : gmap string GraphRecord)
    (p : nat * GraphRecord) : list (string * Adjacency.t) :=
  match p.2 with
  | Edge e =>
      let source := e.(EdgeRec.source) in
      let target := e.(EdgeRec.target) in
      if negb (Liveness.is_latest_edge_version liveness e.(EdgeRec.id) p.1) then []
      else if Liveness.deleted liveness e.(EdgeRec.id)
              || negb (is_evidence_path_edge e.(EdgeRec.label)) then []
      else if (source =s? target)
              || Liveness.deleted liveness source || Liveness.deleted liveness target
              || is_none (by_id !! source) || is_none (by_id !! target) then []
      else
        let entry := Adjacency.mk target e.(EdgeRec.id) e.(EdgeRec.label) source target
                       e.(EdgeRec.basis) in
        [(source, entry); (target, entry{{ Adjacency.neighbor := source }})]
  | _ => []
  end.

Definition entry_key (e : Adjacency.t) : string * string :=
  (e.(Adjacency.neighbor), e.(Adjacency.edge_id)).

(* query/evidence_path.rs 497-554: evidence_path *)
Definition adjacency (records : list GraphRecord) (by_id : gmap string GraphRecord)
    : gmap string (list Adjacency.t) :=
  let liveness := Liveness.new records in
  let pushed := foldl (λ m p,
    foldl (λ m '(id, entry), <[id := default [] (m !! id) ++ [entry]]> m) m
      (edge_entries liveness by_id p)) ∅ (imap pair records) in
  (λ entries, dedup_by_key entry_key (sort_by (cmp_on entry_key step_cmp) entries)) <$> pushed.

(** ** The breadth-first search *)
Record Bfs : Type := mkBfs {
  parent : gmap string Discovery.t;
  path_key : gmap string PathKey;
  visited : gset string;
  frontier : list string
}.

(* query/evidence_path.rs 582-598: evidence_path *)
Definition discover (visited : gset string) (node : string) (node_key : PathKey)
    (discoveries : gmap string (Discovery.t * PathKey)) (adj : Adjacency.t)
    : gmap string (Discovery.t * PathKey) :=
  let neighbor := adj.(Adjacency.neighbor) in
  if bool_decide (neighbor ∈ visited) then discoveries
  else
    let candidate_key := node_key ++ [(neighbor, adj.(Adjacency.edge_id))] in
    let candidate := Discovery.mk node adj in
    match discoveries !! neighbor with
    | None => <[neighbor := (candidate, candidate_key)]> discoveries
    | Some prev =>
        if bool_decide (key_cmp candidate_key prev.2 = Lt)
        then <[neighbor := (candidate, candidate_key)]> discoveries
        else discoveries
    end.

(** The loop over the frontier; [None] is the index [path_key[node]] panicking. *)
(* query/evidence_path.rs 576-600: evidence_path *)
Fixpoint discover_from (adjacency : gmap string (list Adjacency.t)) (b : Bfs)
    (frontier : list string) (discoveries : gmap string (Discovery.t * PathKey))
    : option (gmap string (Discovery.t * PathKey)) :=
  match frontier with
  | [] => Some discoveries
  | node :: frontier =>
      match adjacency !! node with
      | None => discover_from adjacency b frontier discoveries
      | Some entries =>
          let?o node_key := b.(path_key) !! node in
          discover_from adjacency b frontier
            (foldl (discover b.(visited) node node_key) discoveries entries)
      end
  end.

(* query/evidence_path.rs 604-609: evidence_path *)
Definition advance (b : Bfs) (discoveries : gmap string (Discovery.t * PathKey)) : Bfs :=
  mkBfs ((fst <$> discoveries) ∪ b.(parent)) ((snd <$> discoveries) ∪ b.(path_key))
    (dom discoveries ∪ b.(visited)) (keys discoveries).

(* query/evidence_path.rs 574-610: evidence_path *)
Fixpoint bfs_loop (adjacency : gmap string (list Adjacency.t)) (target_id : string)
    (fuel : nat) (b : Bfs) : option Bfs :=
  match fuel with
  | O => None
  | S fuel =>
      if bool_decide (b.(frontier) = []) || bool_decide (target_id ∈ b.(visited)) then Some b
      else
        let?o discoveries := discover_from adjacency b b.(frontier) ∅ in
        if bool_decide (discoveries = ∅) then Some b
        else bfs_loop adjacency target_id fuel (advance b discoveries)
  end.

(** ** The witness *)

(** The discoveries from [cursor] back to the source; [None] is the [expect] panic. *)
(* query/evidence_path.rs 623-631: evidence_path *)
Fixpoint walk_back (parent : gmap string Discovery.t) (source_id : string) (fuel : nat)
    (cursor : string) : option (list Discovery.t) :=
  match fuel with
  | O => None
  | S fuel =>
      if cursor =s? source_id then Some []
      else
        let?o discovery := parent !! cursor in
        let?o rest := walk_back parent source_id fuel discovery.(Discovery.parent) in
        Some (discovery :: rest)
  end.

(* query/evidence_path.rs 635-671: evidence_path *)
Definition hop (by_id : gmap string GraphRecord) (index : nat) (discovery : Discovery.t)
    : option Hop.t :=
  let adj := discovery.(Discovery.adj) in
  let?o from_record := by_id !! adj.(Adjacency.native_from) in
  let?o to_record := by_id !! adj.(Adjacency.native_to) in
  let traversal_direction :=
    if discovery.(Discovery.parent) =s? adj.(Adjacency.native_from)
    then "forward" else "reverse" in
  let '(basis, confidence) :=
    if bool_decide (adj.(Adjacency.label) = EdgeLabel.EmittedDuring) then
      match adj.(Adjacency.basis) with
      | Some b => (Some (CorrelationBasis.as_str b), Some (CorrelationBasis.confidence b))
      | None => (None, None)
      end
    else (None, None) in
  let?o from := project_node_row from_record in
  let?o to := project_node_row to_record in
  Some (Hop.mk index from to
          (EdgeStep.mk (EdgeLabel.as_str adj.(Adjacency.label)) adj.(Adjacency.edge_id)
             traversal_direction basis confidence)).

(* query/evidence_path.rs 475-490: evidence_path *)
Definition resolve_endpoint (records : list GraphRecord) (by_id : gmap string GraphRecord)
    (id : string) (side : EndpointSide) : result GraphRecord EvidencePathError :=
  match by_id !! id with
  | Some record => Ok record
  | None =>
      if Liveness.deleted (Liveness.new records) id then Err (EndpointTombstoned side id)
      else Err (EndpointNotFound side id)
  end.

(** The search and the answer between two live records. *)
(* query/evidence_path.rs 493-680: evidence_path *)
Definition trace (records : list GraphRecord) (by_id : gmap string GraphRecord)
    (source_record target_record : GraphRecord)
    : option (result Path.t EvidencePathError) :=
  let '(traversed, excluded) := edge_classes in
  let source_id := GraphRecord.id source_record in
  let target_id := GraphRecord.id target_record in
  let adjacency := adjacency records by_id in
  let fuel := size by_id + 2 in
  let?o b := bfs_loop adjacency target_id fuel
               (mkBfs ∅ {[source_id := []]} {[source_id]} [source_id]) in
  let?o source := project_node_row source_record in
  let?o target := project_node_row target_record in
  if negb (bool_decide (target_id ∈ b.(visited))) then
    Some (Err (NoPath source target traversed excluded))
  else
    let?o reversed := walk_back b.(parent) source_id fuel target_id in
    let?o hops := mapM (λ p, hop by_id p.1 p.2) (imap pair (reverse reversed)) in
    Some (Ok (Path.mk source target hops traversed excluded)).

(** [None] would be a panic or the end of the fuel. *)
(* query/evidence_path.rs 436-680: evidence_path *)
Definition evidence_path (records : list GraphRecord) (source_id target_id : string)
    : option (result Path.t EvidencePathError) :=
  if source_id =s? target_id then Some (Err (IdenticalEndpoints source_id))
  else
    let by_id := live_nodes records in
    match resolve_endpoint records by_id source_id Source with
    | Err e => Some (Err e)
    | Ok source_record =>
        match resolve_endpoint records by_id target_id Target with
        | Err e => Some (Err e)
        | Ok target_record => trace records by_id source_record target_record
        end
    end.

(** ** Specification: chains of live evidence edges *)

Definition live_node (records : list GraphRecord) (id : string) : Prop :=
  is_Some (live_nodes records !! id).

(** [e] is the current version of an evidence edge between two different live records. *)
Definition evidence_edge (records : list GraphRecord) (e : EdgeRec.t) : Prop :=
  (∃ i, records !! i = Some (Edge e) ∧ last_index (is_edge_write e.(EdgeRec.id)) records i)
  ∧ Liveness.deleted (Liveness.new records) e.(EdgeRec.id) = false
  ∧ is_evidence_path_edge e.(EdgeRec.label) = true
  ∧ e.(EdgeRec.source) ≠ e.(EdgeRec.target)
  ∧ live_node records e.(EdgeRec.source) ∧ live_node records e.(EdgeRec.target).

(** [a] is the entry of such an edge at its endpoint [x]. *)
Definition entry_of (records : list GraphRecord) (x : string) (a : Adjacency.t) : Prop :=
  ∃ e, evidence_edge records e
    ∧ a.(Adjacency.edge_id) = e.(EdgeRec.id) ∧ a.(Adjacency.label) = e.(EdgeRec.label)
    ∧ a.(Adjacency.native_from) = e.(EdgeRec.source) ∧ a.(Adjacency.native_to) = e.(EdgeRec.target)
    ∧ a.(Adjacency.basis) = e.(EdgeRec.basis)
    ∧ ((x = e.(EdgeRec.source) ∧ a.(Adjacency.neighbor) = e.(EdgeRec.target))
       ∨ (x = e.(EdgeRec.target) ∧ a.(Adjacency.neighbor) = e.(EdgeRec.source))).

(** A walk from [x] to [y] over evidence edges, in either direction. *)
Fixpoint walk (records : list GraphRecord) (x : string) (l : list Adjacency.t) (y : string) : Prop :=
  match l with
  | [] => x = y
  | a :: l => entry_of records x a ∧ walk records a.(Adjacency.neighbor) l y
  end.
Definition walk_key (l : list Adjacency.t) : PathKey := entry_key <$> l.

Definition linked (records : list GraphRecord) (x y : string) : Prop :=
  ∃ a, entry_of records x a ∧ a.(Adjacency.neighbor) = y.

(** The row of the live node [id]. *)
Definition row_of (records : list GraphRecord) (id : string) (row : NodeRow.t) : Prop :=
  ∃ r, live_nodes records !! id = Some r ∧ project_node_row r = Some row.

(** What a hop says about the basis of an edge: only [EMITTED_DURING] edges have one. *)
Definition basis_of (e : EdgeRec.t) : option CorrelationBasis.t :=
  if bool_decide (e.(EdgeRec.label) = EdgeLabel.EmittedDuring) then e.(EdgeRec.basis) else None.

(** The hop [h] at position [i] moves from [x] to [y] along an evidence edge or against it. *)
Definition hop_of (records : list GraphRecord) (i : nat) (x : string) (h : Hop.t) (y : string) : Prop :=
  ∃ e, evidence_edge records e ∧ h.(Hop.index) = i
    ∧ row_of records e.(EdgeRec.source) h.(Hop.from) ∧ row_of records e.(EdgeRec.target) h.(Hop.to)
    ∧ h.(Hop.edge).(EdgeStep.label) = EdgeLabel.as_str e.(EdgeRec.label)
    ∧ h.(Hop.edge).(EdgeStep.edge_record_id) = e.(EdgeRec.id)
    ∧ h.(Hop.edge).(EdgeStep.basis) = CorrelationBasis.as_str <$> basis_of e
    ∧ h.(Hop.edge).(EdgeStep.confidence) = CorrelationBasis.confidence <$> basis_of e
    ∧ ((x = e.(EdgeRec.source) ∧ y = e.(EdgeRec.target)
        ∧ h.(Hop.edge).(EdgeStep.traversal_direction) = "forward")
       ∨ (x = e.(EdgeRec.target) ∧ y = e.(EdgeRec.source)
        ∧ h.(Hop.edge).(EdgeStep.traversal_direction) = "reverse")).

(** [hops], numbered from [i], lead from [x] to [y]. *)
Fixpoint witness (records : list GraphRecord) (i : nat) (x : string) (hops : list Hop.t)
    (y : string) : Prop :=
  match hops with
  | [] => x = y
  | h :: hops => ∃ z, hop_of records i x h z ∧ witness records (S i) z hops y
  end.

(** The step [(neighbor, edge)] of a hop: the record it moves to and the edge it uses. *)
Definition hop_key (h : Hop.t) : string * string :=
  (if h.(Hop.edge).(EdgeStep.traversal_direction) =s? "forward"
   then h.(Hop.to).(NodeRow.record_id) else h.(Hop.from).(NodeRow.record_id),
   h.(Hop.edge).(EdgeStep.edge_record_id)).
End EvidencePath.

(** ** The adjacency holds exactly the entries *)
Section Correct.
Import EvidencePath.
Context (records : list GraphRecord).
Abbreviation by_id := (live_nodes records).
Abbreviation adj := (adjacency records by_id).
Abbreviation R := (linked records).
Abbreviation dist := (at_distance R).

#[local] Instance step_cmp_order : CmpOrder step_cmp.
Proof. apply (cmp_then_order (cmp_on fst String.compare) (cmp_on snd String.compare)); apply _. Qed.
#[local] Instance key_cmp_order : CmpOrder key_cmp.
Proof. apply vec_cmp_order, _. Qed.
Abbreviation key_le := (cmp_le key_cmp).

Lemma live_nodes_Some id r :
  by_id !! id = Some r →
  Liveness.deleted (Liveness.new records) id = false ∧ ∃ n, r = Node n ∧ n.(NodeRec.id) = id.
Proof.
  unfold live_nodes.
  assert (∀ l (m : gmap string GraphRecord) (P : string → GraphRecord → Prop),
    (∀ i r, m !! i = Some r → P i r) →
    (∀ n, Liveness.deleted (Liveness.new records) n.(NodeRec.id) = false →
      P n.(NodeRec.id) (Node n)) →
    ∀ i r, foldl (λ m r, match r with
      | Node n => if Liveness.deleted (Liveness.new records) n.(NodeRec.id) then m
                  else <[n.(NodeRec.id) := r]> m
      | _ => m end) m l !! i = Some r → P i r) as Hgen.
  { clear. induction l as [|x l IH]; intros m P Hm Hl; cbn [foldl]; [done|].
    apply IH; [|done]. intros i r. destruct x as [n|e|t]; [|apply Hm..].
    destruct (Liveness.deleted _ _) eqn:Hd; [apply Hm|].
    rewrite lookup_insert_Some. intros [[<- <-]|[_ ?]]; [by apply Hl|by apply Hm]. }
  apply (Hgen records ∅ (λ id r, Liveness.deleted (Liveness.new records) id = false
    ∧ ∃ n, r = Node n ∧ n.(NodeRec.id) = id)); [intros i r'; by rewrite lookup_empty|].
  intros n Hd. by eauto.
Qed.

(** A row exists for every live node. *)
Lemma node_row id r : by_id !! id = Some r → ∃ row, project_node_row r = Some row.
Proof. intros (_ & n & -> & _)%live_nodes_Some. by eexists. Qed.

Lemma edge_entries_spec p x a :
  imap pair records !! p.1 = Some p →
  (x, a) ∈ edge_entries (Liveness.new records) by_id p ↔
  ∃ e, p.2 = Edge e ∧ last_index (is_edge_write e.(EdgeRec.id)) records p.1
    ∧ evidence_edge records e
    ∧ (let fwd := Adjacency.mk e.(EdgeRec.target) e.(EdgeRec.id) e.(EdgeRec.label)
                    e.(EdgeRec.source) e.(EdgeRec.target) e.(EdgeRec.basis) in
       (x = e.(EdgeRec.source) ∧ a = fwd)
       ∨ (x = e.(EdgeRec.target) ∧ a = fwd{{ Adjacency.neighbor := e.(EdgeRec.source) }})).
Proof.
  destruct p as [i r]. cbn [fst snd]. intros Hi. rewrite list_lookup_imap in Hi.
  destruct (records !! i) as [r'|] eqn:Hr; [|done]. cbn in Hi. injection Hi as ->.
  unfold edge_entries. cbn [fst snd]. destruct r as [n|e|t];
    [split; [by intros ?%elem_of_nil|by intros (? & ? & _)]| |
     split; [by intros ?%elem_of_nil|by intros (? & ? & _)]].
  destruct (Liveness.is_latest_edge_version _ _ _) eqn:Hl; cbn [negb].
  2:{ split; [by intros ?%elem_of_nil|]. intros (e' & [= <-] & Hlast & _).
      apply is_latest_edge_version_spec in Hlast. congruence. }
  apply is_latest_edge_version_spec in Hl.
  destruct (_ || negb _) eqn:H1.
  { split; [by intros ?%elem_of_nil|]. intros (e' & [= <-] & _ & (_ & Hd & He & _) & _).
    by rewrite Hd, He in H1. }
  destruct (_ || is_none _) eqn:H2.
  { split; [by intros ?%elem_of_nil|].
    intros (e' & [= <-] & _ & (_ & _ & _ & Hne & [s Hs] & [t Ht]) & _). exfalso.
    pose proof (live_nodes_Some _ _ Hs) as [Hds _]. pose proof (live_nodes_Some _ _ Ht) as [Hdt _].
    rewrite Hs, Ht, Hds, Hdt in H2. cbn in H2. rewrite !orb_false_r in H2. by breflect. }
  apply orb_false_iff in H1 as [Hd He%negb_false_iff].
  repeat (apply orb_false_iff in H2 as [H2 ?]). breflect.
  assert (evidence_edge records e) as Hee.
  { split_and!; [eauto|done..| |]; unfold live_node.
    - by destruct (by_id !! e.(EdgeRec.source)).
    - by destruct (by_id !! e.(EdgeRec.target)). }
  rewrite !elem_of_cons, elem_of_nil. split.
  - intros [[= -> ->]|[[= -> ->]|[]]]; exists e; split_and!; try done; [by left|by right].
  - intros (e' & [= <-] & _ & _ & [[-> ->]|[-> ->]]); [by left|by right; left].
Qed.

Lemma entry_of_push x a :
  (∃ p, p ∈ imap pair records ∧ (x, a) ∈ edge_entries (Liveness.new records) by_id p)
  ↔ entry_of records x a.
Proof.
  split.
  - intros (p & Hp & Ha). assert (imap pair records !! p.1 = Some p) as Hi.
    { destruct p as [i r]. apply elem_of_imap_pair in Hp. cbn. by rewrite list_lookup_imap, Hp. }
    apply edge_entries_spec in Ha as (e & Hpe & _ & He & Ha); [|done]. exists e.
    destruct Ha as [[-> ->]|[-> ->]]; split_and!; try done; [by left|by right].
  - intros (e & He & H1 & H2 & H3 & H4 & H5 & H6). pose proof He as ((i & Hi & Hlast) & _).
    exists (i, Edge e). split; [by apply elem_of_imap_pair|].
    apply edge_entries_spec; [cbn [fst]; by rewrite list_lookup_imap, Hi|]. exists e.
    split_and!; [done..|]. destruct a as [nb id lab nf nt ba]. cbn in *. subst.
    destruct H6 as [[-> ->]|[-> ->]]; [by left|by right].
Qed.

(** Entries at one record with the same neighbor and edge id are the same. *)
Lemma entry_of_inj x a b :
  entry_of records x a → entry_of records x b →
  a.(Adjacency.edge_id) = b.(Adjacency.edge_id) → a = b.
Proof.
  intros (e & He & H1 & H2 & H3 & H4 & H5 & H6) (f & Hf & K1 & K2 & K3 & K4 & K5 & K6) Hid.
  assert (e = f) as <-.
  { destruct He as ((i & Hi & Hli) & _), Hf as ((j & Hj & Hlj) & _).
    rewrite <-H1, Hid, K1 in Hli. rewrite (last_index_unique _ _ _ _ Hli Hlj) in Hi. congruence. }
  destruct a, b. cbn in *. subst. destruct He as (_ & _ & _ & Hne & _).
  destruct H6 as [[? ->]|[? ->]], K6 as [[? ->]|[? ->]]; congruence.
Qed.

Lemma foldl_bind {A B C} (f : C → B → C) (g : A → list B) (c : C) l :
  foldl (λ acc x, foldl f acc (g x)) c l = foldl f c (l ≫= g).
Proof. revert c. induction l as [|x l IH]; intros c; csimpl; [done|]. by rewrite foldl_app, IH. Qed.

Lemma adjacency_lookup x :
  default [] (adj !! x)
  = dedup_by_key entry_key (sort_by (cmp_on entry_key step_cmp) (default [] (foldl (λ m ia,
      match Some ia with
      | Some (k, v) => <[k := default [] (m !! k) ++ [v]]> m
      | None => m end)
      (∅ : gmap string (list Adjacency.t))
      (imap pair records ≫= edge_entries (Liveness.new records) by_id) !! x))).
Proof.
  unfold adjacency. rewrite lookup_fmap, foldl_bind.
  lazymatch goal with |- default [] (?f <$> ?o) = _ =>
    change (default [] (f <$> o) = f (default [] o)) end.
  by destruct (foldl _ _ _ !! x).
Qed.

Lemma evidence_adjacency_spec x a : a ∈ default [] (adj !! x) ↔ entry_of records x a.
Proof.
  rewrite adjacency_lookup. set (l := default [] _).
  assert (∀ b, b ∈ l ↔ entry_of records x b) as Hl.
  { intros b. unfold l. rewrite (foldl_push Some), <-entry_of_push.
    setoid_rewrite list_elem_of_bind. split.
    - intros (ia & (p & Hp & Hi) & [= ->]). eauto.
    - intros (p & Hi & Hp). exists (x, b). eauto. }
  split.
  - intros Ha%dedup_by_key_elem. rewrite sort_by_perm in Ha. by apply Hl.
  - intros Ha. destruct (dedup_by_key_key entry_key (sort_by (cmp_on entry_key step_cmp) l) a)
      as (b & Hb & Hk).
    { rewrite sort_by_perm. by apply Hl. }
    assert (b = a) as <-; [|done]. apply (entry_of_inj x); [|done|by injection Hk].
    apply Hl. rewrite <-(sort_by_perm (cmp_on entry_key step_cmp)). by eapply dedup_by_key_elem.
Qed.

(** ** Walks *)
Lemma walk_app x l k z :
  walk records x (l ++ k) z ↔ ∃ y, walk records x l y ∧ walk records y k z.
Proof.
  revert x. induction l as [|a l IH]; intros x; cbn [walk app]; [naive_solver|].
  rewrite IH. naive_solver.
Qed.

Lemma walk_nsteps x l y : walk records x l y → nsteps R (length l) x y.
Proof.
  revert x. induction l as [|a l IH]; intros x; cbn [walk length]; [intros ->; constructor|].
  intros [Ha Hl]. econstructor; [|by apply IH]. by exists a.
Qed.

Lemma nsteps_walk n x y : nsteps R n x y → ∃ l, walk records x l y ∧ length l = n.
Proof.
  induction 1 as [x|n x y z (a & Ha & <-) _ (l & Hl & Hn)]; [by exists []|].
  exists (a :: l). cbn. auto.
Qed.

Lemma linked_sym x y : R x y → R y x.
Proof.
  intros (a & (e & He & H1 & H2 & H3 & H4 & H5 & H6) & <-).
  exists (Adjacency.mk x e.(EdgeRec.id) e.(EdgeRec.label) e.(EdgeRec.source) e.(EdgeRec.target)
            e.(EdgeRec.basis)). split; [|done]. exists e. split_and!; [done..|].
  destruct H6 as [[-> ->]|[-> ->]]; [by right|by left].
Qed.

Lemma linked_preds x y : R x y ↔ x ∈ Adjacency.neighbor <$> default [] (adj !! y).
Proof.
  rewrite list_elem_of_fmap. setoid_rewrite evidence_adjacency_spec. split.
  - intros (a & Ha & Hx)%linked_sym. eauto.
  - intros (a & -> & Ha). apply linked_sym. by exists a.
Qed.

#[local] Instance linked_bsteps_dec from k x : Decision (bsteps R k from x).
Proof. apply (bsteps_dec R (λ y, Adjacency.neighbor <$> default [] (adj !! y))), linked_preds. Defined.

Lemma linked_live x y : R x y → live_node records y.
Proof.
  intros (a & (e & (_ & _ & _ & _ & Hs & Ht) & _ & _ & _ & _ & _ & H6) & <-).
  by destruct H6 as [[_ ->]|[_ ->]].
Qed.

(** [κ] is the least key of the walks of [j] steps from [from] to [x]. *)
Definition least_key (from : string) (j : nat) (x : string) (κ : PathKey) : Prop :=
  (∃ l, walk records from l x ∧ length l = j ∧ walk_key l = κ)
  ∧ ∀ l, walk records from l x → length l = j → key_le κ (walk_key l).

Lemma least_key_length from j x κ : least_key from j x κ → length κ = j.
Proof. intros [(l & _ & <- & <-) _]. apply length_fmap. Qed.

(** One more step keeps the order of two keys of one length. *)
Lemma key_snoc_le κ κ' s : length κ = length κ' → key_le κ κ' → key_le (κ ++ [s]) (κ' ++ [s]).
Proof.
  unfold cmp_le, key_cmp. intros Hl Hle. destruct (vec_cmp step_cmp κ κ') eqn:E; [| |done].
  - rewrite vec_cmp_app_Eq by done. cbn. by rewrite (cmp_refl step_cmp).
  - by rewrite vec_cmp_app_Lt.
Qed.

(** ** The search *)
Record bfs_inv (from : string) (k : nat) (b : Bfs) : Prop := {
  inv_visited x : x ∈ b.(visited) ↔ bsteps R k from x;
  inv_frontier x : x ∈ b.(frontier) ↔ dist from k x;
  inv_key j x : dist from j x → j ≤ k → ∃ κ, b.(path_key) !! x = Some κ ∧ least_key from j x κ;
  inv_parent j x : dist from (S j) x → S j ≤ k →
    ∃ d κ, b.(parent) !! x = Some d
      ∧ dist from j d.(Discovery.parent) ∧ b.(path_key) !! d.(Discovery.parent) = Some κ
      ∧ entry_of records d.(Discovery.parent) d.(Discovery.adj)
      ∧ d.(Discovery.adj).(Adjacency.neighbor) = x
      ∧ b.(path_key) !! x = Some (κ ++ [entry_key d.(Discovery.adj)]);
  inv_size : b.(frontier) ≠ [] → k < size b.(visited)
}.

Lemma evidence_bfs_inv_start from : bfs_inv from 0 (mkBfs ∅ {[from := []]} {[from]} [from]).
Proof.
  constructor; cbn [visited frontier parent path_key].
  - intros x. rewrite bsteps_0. set_solver.
  - intros x. rewrite at_distance_0, list_elem_of_singleton. done.
  - intros j x Hd Hj. assert (j = 0) as -> by lia. apply at_distance_0 in Hd as ->.
    exists []. rewrite lookup_singleton_eq. split; [done|]. split; [by exists []|].
    intros [|a l] _; [done|done].
  - lia.
  - intros _. rewrite size_singleton. lia.
Qed.

(** The offers of a frontier: its entries with the key of the walk through them. *)
Definition offers (b : Bfs) (frontier : list string)
    : list (string * (Discovery.t * PathKey)) :=
  frontier ≫= λ node, (λ a, (a.(Adjacency.neighbor),
    (Discovery.mk node a, default ([] : PathKey) (b.(path_key) !! node) ++ [entry_key a])))
    <$> default [] (adj !! node).

Lemma evidence_offers_spec b frontier x d κ :
  (x, (d, κ)) ∈ offers b frontier ↔
  d.(Discovery.parent) ∈ frontier ∧ entry_of records d.(Discovery.parent) d.(Discovery.adj)
  ∧ d.(Discovery.adj).(Adjacency.neighbor) = x
  ∧ κ = default ([] : PathKey) (b.(path_key) !! d.(Discovery.parent)) ++ [entry_key d.(Discovery.adj)].
Proof.
  unfold offers. rewrite list_elem_of_bind. setoid_rewrite list_elem_of_fmap.
  setoid_rewrite evidence_adjacency_spec. split.
  - intros (n & (a & [= -> -> ->] & Ha) & Hn). done.
  - intros (Hf & Ha & <- & ->). exists d.(Discovery.parent). split; [|done].
    exists d.(Discovery.adj). by destruct d.
Qed.

Lemma discover_from_eq b frontier D :
  (∀ x, x ∈ frontier → is_Some (b.(path_key) !! x)) →
  discover_from adj b frontier D
  = Some (foldl (offer_by (cmp_on snd key_cmp) b.(visited)) D (offers b frontier)).
Proof.
  revert D. induction frontier as [|n fr IH]; intros D Hk; cbn [discover_from offers]; [done|].
  destruct (Hk n) as [κ Hκ]; [by left|]. csimpl. rewrite foldl_app.
  destruct (adj !! n) as [entries|] eqn:Hn; cbn [default fmap list_fmap foldl];
    [|rewrite IH by (intros; apply Hk; by right); done].
  rewrite Hκ. cbn [mbind option_bind]. rewrite IH by (intros; apply Hk; by right).
  unfold offers. do 3 f_equal. rewrite foldl_fmap. apply foldl_ext_elem. intros D' a _.
  done.
Qed.

(** A walk one step past the level [k] goes through the level [k]. *)
Lemma walk_through from k x l :
  walk records from l x → length l = S k → dist from (S k) x →
  ∃ l' a y, l = l' ++ [a] ∧ walk records from l' y ∧ length l' = k ∧ dist from k y
    ∧ entry_of records y a ∧ a.(Adjacency.neighbor) = x.
Proof.
  intros Hl Hlen Hd. destruct l as [|a l _] using rev_ind; [done|].
  rewrite length_app in Hlen. cbn in Hlen. assert (length l = k) as Hk by lia.
  apply walk_app in Hl as (y & Hl & Ha & <-). exists l, a, y. split_and!; try done.
  split; [rewrite <-Hk; by eapply bsteps_nsteps; eexists; split; [|by apply walk_nsteps]|].
  intros j Hj Hb. destruct Hd as [_ Hd]. apply (Hd (S j)); [lia|].
  eapply bsteps_r; [done|by exists a].
Qed.

(** The discoveries of the level after [k]. *)
Record level_found (from : string) (k : nat) (b : Bfs)
    (D : gmap string (Discovery.t * PathKey)) : Prop := {
  found_dom x : is_Some (D !! x) ↔ dist from (S k) x;
  found_least x d κ : D !! x = Some (d, κ) →
    dist from k d.(Discovery.parent)
    ∧ entry_of records d.(Discovery.parent) d.(Discovery.adj)
    ∧ d.(Discovery.adj).(Adjacency.neighbor) = x
    ∧ (∃ κ', b.(path_key) !! d.(Discovery.parent) = Some κ' ∧ κ = κ' ++ [entry_key d.(Discovery.adj)])
    ∧ least_key from (S k) x κ
}.

Lemma discover_level from k b :
  bfs_inv from k b →
  ∃ D, discover_from adj b b.(frontier) ∅ = Some D ∧ level_found from k b D.
Proof.
  intros [Hv Hf Hk Hp Hs].
  assert (∀ x, x ∈ b.(frontier) → ∃ κ, b.(path_key) !! x = Some κ ∧ least_key from k x κ) as Hfk.
  { intros x Hx%Hf. by apply (Hk k). }
  rewrite discover_from_eq by (intros x (κ & ? & _)%Hfk; eauto).
  eexists. split; [done|].
  destruct (foldl_offer_by (cmp_on snd key_cmp) b.(visited) (offers b b.(frontier))) as [H1 H2].
  set (D := foldl _ _ _) in *. cbv zeta in *.
  assert (∀ x, is_Some (D !! x) → dist from (S k) x) as Hdom.
  { intros x [[d κ] (Hx & (Hd & He & Hn & _)%evidence_offers_spec & _)%H1]. apply at_distance_S_iff.
    rewrite <-Hv. split; [done|]. exists d.(Discovery.parent). rewrite <-Hf. split; [done|].
    by exists d.(Discovery.adj). }
  constructor.
  - intros x. split; [apply Hdom|]. intros (Hx & y & Hy & a & Ha & <-)%at_distance_S_iff.
    eapply (H2 _ (Discovery.mk y a, _)); [|by rewrite Hv]. apply evidence_offers_spec.
    split_and!; [by apply Hf|done|done|done].
  - intros x d κ Hx. assert (dist from (S k) x) as Hdx by eauto.
    apply H1 in Hx as (_ & (Hd & He & Hn & ->)%evidence_offers_spec & Hmin).
    destruct (Hfk _ Hd) as (κ' & Hκ' & Hl). rewrite Hκ'. cbn [default].
    split_and!; [by apply Hf|done|done|by exists κ'|].
    pose proof (least_key_length _ _ _ _ Hl) as Hlen'.
    destruct Hl as [(l & Hw & Hlen & Hkey) Hleast]. split.
    + exists (l ++ [d.(Discovery.adj)]). split_and!.
      * apply walk_app. exists d.(Discovery.parent). by split_and!.
      * rewrite length_app. cbn. lia.
      * unfold walk_key. rewrite fmap_app. by f_equal.
    + intros w Hwx Hwl.
      destruct (walk_through _ _ _ _ Hwx Hwl Hdx) as (w' & a & y & -> & Hw' & Hw'l & Hdy & Ha & Hax).
      unfold walk_key. rewrite fmap_app. cbn [fmap list_fmap].
      destruct (Hfk y) as (κy & Hκy & Hly); [by apply Hf|].
      trans (κy ++ [entry_key a]).
      * assert (key_le (κ' ++ [entry_key d.(Discovery.adj)])
          (default ([] : PathKey) (b.(path_key) !! y) ++ [entry_key a])) as H; [|by rewrite Hκy in H].
        rewrite Hκ' in Hmin. apply (Hmin (Discovery.mk y a, _)). apply evidence_offers_spec.
        split_and!; [by apply Hf|done..].
      * apply key_snoc_le; [|by apply Hly].
        rewrite (least_key_length _ _ _ _ Hly). unfold walk_key. by rewrite length_fmap.
Qed.

Lemma evidence_bfs_inv_round from k b D :
  bfs_inv from k b → level_found from k b D → bfs_inv from (S k) (advance b D).
Proof.
  intros [Hv Hf Hk Hp Hs] [Hdom Hleast].
  assert (∀ j x, dist from j x → j ≤ k → D !! x = None) as Hnew.
  { intros j x Hd Hj. destruct (D !! x) eqn:E; [|done].
    assert (dist from (S k) x) as Hd' by (apply Hdom; eauto).
    pose proof (at_distance_unique _ _ _ _ _ Hd Hd'). lia. }
  assert (∀ j x, dist from j x → j ≤ k →
    (advance b D).(path_key) !! x = b.(path_key) !! x) as Hold.
  { intros j x Hd Hj. cbn. by rewrite lookup_union_r by (rewrite lookup_fmap, (Hnew j x); done). }
  constructor.
  - intros x. cbn [advance visited]. rewrite elem_of_union, elem_of_dom, Hdom, at_distance_S, Hv.
    destruct (linked_bsteps_dec from k x); [|naive_solver].
    split; [intros _; by apply bsteps_S|by right].
  - intros x. cbn [advance frontier]. rewrite keys_elem. apply Hdom.
  - intros j x Hd Hj. destruct (decide (j = S k)) as [->|Hne].
    + apply Hdom in Hd as Hx. destruct Hx as [[d κ] Hx]. exists κ.
      split; [|by eapply Hleast]. cbn. apply lookup_union_Some_l. by rewrite lookup_fmap, Hx.
    + rewrite (Hold j x) by (done || lia). apply Hk; [done|lia].
  - intros j x Hd Hj. destruct (decide (S j = S k)) as [[= ->]|Hne].
    + apply Hdom in Hd as Hx. destruct Hx as [[d κ] Hx].
      destruct (Hleast _ _ _ Hx) as (Hdp & He & Hn & (κ' & Hκ' & ->) & _).
      exists d, κ'. split_and!; try done.
      * cbn. apply lookup_union_Some_l. by rewrite lookup_fmap, Hx.
      * by rewrite (Hold k).
      * cbn. apply lookup_union_Some_l. by rewrite lookup_fmap, Hx.
    + destruct (Hp j x) as (d & κ & H1 & H2 & H3 & H4 & H5 & H6); [done|lia|].
      exists d, κ. split_and!; try done.
      * cbn. rewrite lookup_union_r; [done|]. rewrite lookup_fmap, (Hnew (S j) x); [done|done|lia].
      * rewrite (Hold j) by (done || lia). done.
      * rewrite (Hold (S j)) by (done || lia). done.
  - cbn [advance visited frontier]. intros Hnil. rewrite size_union by (intros x [d Hx]%elem_of_dom Hvx%Hv;
      assert (dist from (S k) x) as [_ Hn]%at_distance_S by (apply Hdom; eauto); done).
    destruct (keys D) as [|x l] eqn:Hel; [done|].
    assert (is_Some (D !! x)) as Hx by (apply keys_elem; rewrite Hel; by left).
    assert (b.(frontier) ≠ []) as Hb.
    { apply Hdom, at_distance_S_iff in Hx as (_ & y & Hy%Hf & _).
      intros Hb. rewrite Hb in Hy. by apply elem_of_nil in Hy. }
    specialize (Hs Hb). assert (size (dom D) ≠ 0); [|lia].
    apply elem_of_dom in Hx. intros Hz%size_empty_inv. set_solver.
Qed.

Lemma visited_live from k b :
  live_node records from → bfs_inv from k b → size b.(visited) ≤ size by_id.
Proof.
  intros Hlive Hinv. rewrite <-size_dom. apply subseteq_size.
  intros x Hx%(inv_visited _ _ _ Hinv). apply elem_of_dom. clear Hinv. revert x Hx.
  induction k as [|k IH]; intros x; [by intros <-%bsteps_0|].
  intros [?|(z & _ & Hz)]%bsteps_S_iff; [by apply IH|by eapply linked_live].
Qed.

Lemma evidence_bfs_loop_spec from target fuel k b :
  live_node records from → bfs_inv from k b → k ≤ size by_id → size by_id + 2 ≤ fuel + k →
  ∃ k' b', bfs_loop adj target fuel b = Some b' ∧ bfs_inv from k' b' ∧ k' ≤ size by_id
    ∧ (target ∈ b'.(visited) ∨ ∀ x, ¬ dist from (S k') x).
Proof.
  intros Hlive. revert k b. induction fuel as [|fuel IH]; intros k b Hinv Hk Hfuel; [lia|].
  cbn [bfs_loop]. destruct (bool_decide _ || _) eqn:Hstop.
  { exists k, b. split_and!; [done..|]. breflect; [right|by left].
    apply (empty_level R from k); [|lia]. intros x Hx%(inv_frontier _ _ _ Hinv).
    replace b.(frontier) with ([] : list string) in Hx. by apply elem_of_nil in Hx. }
  breflect. destruct (discover_level _ _ _ Hinv) as (D & -> & HD). cbn [mbind option_bind].
  case_bool_decide as HE.
  { exists k, b. split_and!; [done..|]. right. intros x [p Hp]%(found_dom _ _ _ _ HD).
    by rewrite HE, lookup_empty in Hp. }
  apply (IH (S k)); [by apply evidence_bfs_inv_round| |lia].
  pose proof (visited_live _ _ _ Hlive Hinv). pose proof (inv_size _ _ _ Hinv ltac:(done)). lia.
Qed.

(** Past an empty level everything reachable is visited. *)
Lemma visited_closed from k b x :
  bfs_inv from k b → (∀ x, ¬ dist from (S k) x) → rtc R from x → x ∈ b.(visited).
Proof.
  intros Hinv Hno Hr. rewrite (inv_visited _ _ _ Hinv). revert x Hr.
  apply rtc_ind_r; [constructor|]. intros y z _ Hyz Hy.
  assert (bsteps R (S k) from z) as Hz by by eapply bsteps_r.
  destruct (linked_bsteps_dec from k z) as [|Hn]; [done|].
  destruct (Hno z). by apply at_distance_S.
Qed.

(** ** The witness *)

(** The discoveries along a walk. *)
Fixpoint discoveries_of (x : string) (l : list Adjacency.t) : list Discovery.t :=
  match l with
  | [] => []
  | a :: l => Discovery.mk x a :: discoveries_of a.(Adjacency.neighbor) l
  end.

Lemma discoveries_of_snoc x l y a :
  walk records x l y → discoveries_of x (l ++ [a]) = discoveries_of x l ++ [Discovery.mk y a].
Proof.
  revert x. induction l as [|b l IH]; intros x; cbn [walk app discoveries_of]; [by intros ->|].
  intros [_ Hl]. by rewrite IH.
Qed.

Lemma evidence_walk_back_spec from k b fuel j x :
  bfs_inv from k b → dist from j x → j ≤ k → j < fuel →
  ∃ rev l, walk_back b.(parent) from fuel x = Some rev ∧ reverse rev = discoveries_of from l
    ∧ walk records from l x ∧ length l = j ∧ b.(path_key) !! x = Some (walk_key l).
Proof.
  intros Hinv. revert j x. induction fuel as [|fuel IH]; intros j x Hd Hj Hfuel; [lia|].
  cbn [walk_back]. destruct j as [|j].
  { apply at_distance_0 in Hd as ->. rewrite String.eqb_refl. exists [], []. split_and!; [done..|].
    destruct (inv_key _ _ _ Hinv 0 from) as (κ & Hκ & [(l & _ & Hl & <-) _]);
      [by apply at_distance_0|lia|]. by destruct l. }
  destruct (String.eqb_spec x from) as [->|Hne].
  { exfalso. apply at_distance_S in Hd as [_ []]. constructor. }
  destruct (inv_parent _ _ _ Hinv j x) as (d & κ & -> & Hdp & Hκ & He & Hn & Hx); [done|lia|].
  cbn [mbind option_bind].
  destruct (IH j d.(Discovery.parent)) as (rev & l & -> & Hrev & Hl & Hlen & Hk); [done|lia..|].
  cbn [mbind option_bind]. exists (d :: rev), (l ++ [d.(Discovery.adj)]). split_and!.
  - done.
  - rewrite reverse_cons, Hrev, (discoveries_of_snoc _ _ d.(Discovery.parent)) by done.
    by destruct d.
  - apply walk_app. exists d.(Discovery.parent). by split_and!.
  - rewrite length_app. cbn. lia.
  - etrans; [exact Hx|]. unfold walk_key in *. rewrite fmap_app.
    assert (κ = entry_key <$> l) as -> by (apply (inj Some); etrans; [symmetry; exact Hκ|exact Hk]).
    done.
Qed.

Lemma row_of_id id row : row_of records id row → row.(NodeRow.record_id) = id.
Proof. intros (r & (_ & n & -> & <-)%live_nodes_Some & [= <-]). done. Qed.

Lemma live_row id : live_node records id → ∃ row, row_of records id row.
Proof. intros [r Hr]. destruct (node_row _ _ Hr) as [row Hrow]. by exists row, r. Qed.

(** The hop of an entry, and the entry of a hop. *)
Lemma hop_spec i x a :
  entry_of records x a →
  ∃ h, hop by_id i (Discovery.mk x a) = Some h ∧ hop_of records i x h a.(Adjacency.neighbor)
    ∧ hop_key h = entry_key a.
Proof.
  intros (e & He & H1 & H2 & H3 & H4 & H5 & H6).
  pose proof He as (_ & _ & _ & Hne & Hs & Ht).
  destruct (live_row _ Hs) as [rs Hrs], (live_row _ Ht) as [rt Hrt].
  pose proof (row_of_id _ _ Hrs) as Hids. pose proof (row_of_id _ _ Hrt) as Hidt.
  unfold hop. cbn [Discovery.adj Discovery.parent]. rewrite H1, H2, H3, H4, H5.
  destruct Hrs as (ns & Hns & Hps), Hrt as (nt & Hnt & Hpt).
  rewrite Hns, Hnt. cbn [mbind option_bind].
  destruct (if bool_decide _ then _ else _) as [ba co] eqn:Hb. cbn [mbind option_bind].
  rewrite Hps, Hpt. cbn [mbind option_bind].
  assert (ba = CorrelationBasis.as_str <$> basis_of e
    ∧ co = CorrelationBasis.confidence <$> basis_of e) as [-> ->].
  { unfold basis_of. destruct (bool_decide _); [|by simplify_eq].
    destruct e.(EdgeRec.basis); by simplify_eq. }
  eexists. split; [done|]. split.
  - exists e. cbn. split_and!; try done; [by exists ns|by exists nt|].
    destruct H6 as [[-> ->]|[-> ->]]; [left|right]; split_and!; try done.
    + by rewrite String.eqb_refl.
    + apply not_eq_sym, String.eqb_neq in Hne. by rewrite Hne.
  - unfold hop_key, entry_key. cbn. rewrite H1. f_equal.
    destruct H6 as [[-> ->]|[-> ->]].
    + by rewrite String.eqb_refl.
    + apply not_eq_sym, String.eqb_neq in Hne. by rewrite Hne.
Qed.

Lemma hop_of_entry i x h y :
  hop_of records i x h y →
  ∃ a, entry_of records x a ∧ a.(Adjacency.neighbor) = y ∧ entry_key a = hop_key h.
Proof.
  intros (e & He & _ & Hf & Ht & _ & Hid & _ & _ & Hdir).
  exists (Adjacency.mk y e.(EdgeRec.id) e.(EdgeRec.label) e.(EdgeRec.source) e.(EdgeRec.target)
            e.(EdgeRec.basis)). apply row_of_id in Hf, Ht.
  unfold entry_key, hop_key. cbn. split_and!; [|done|].
  - exists e. split_and!; try done. destruct Hdir as [(-> & -> & _)|(-> & -> & _)]; [by left|by right].
  - rewrite Hid, Hf, Ht. by destruct Hdir as [(-> & -> & ->)|(-> & -> & ->)].
Qed.

Lemma hops_spec i x l y :
  walk records x l y →
  ∃ hops, mapM (λ p, hop by_id p.1 p.2) (imap (λ j d, (i + j, d)) (discoveries_of x l)) = Some hops
    ∧ witness records i x hops y ∧ hop_key <$> hops = walk_key l.
Proof.
  revert i x. induction l as [|a l IH]; intros i x; cbn [walk discoveries_of imap].
  - intros ->. by exists [].
  - intros [Ha Hl]. rewrite Nat.add_0_r.
    destruct (hop_spec i x a Ha) as (h & Hh & Hhop & Hkey).
    destruct (IH (S i) _ Hl) as (hops & Hm & Hw & Hk).
    exists (h :: hops). split_and!.
    + cbn [mapM fst snd]. rewrite Hh. cbn [mbind option_bind].
      assert (imap ((λ (j : nat) (d : Discovery.t), (i + j, d)) ∘ S) (discoveries_of a.(Adjacency.neighbor) l)
        = imap (λ j d, (S i + j, d)) (discoveries_of a.(Adjacency.neighbor) l)) as ->.
      { apply imap_ext. intros j d _. cbn. f_equal. lia. }
      by rewrite Hm.
    + exists a.(Adjacency.neighbor). done.
    + cbn. by rewrite Hkey, Hk.
Qed.

Lemma witness_walk i x hops y :
  witness records i x hops y →
  ∃ l, walk records x l y ∧ length l = length hops ∧ walk_key l = hop_key <$> hops.
Proof.
  revert i x. induction hops as [|h hops IH]; intros i x; cbn [witness].
  - intros ->. by exists [].
  - intros (z & (a & Ha & <- & Hk)%hop_of_entry & (l & Hl & Hlen & Hkl)%IH).
    exists (a :: l). cbn. rewrite Hlen. unfold walk_key in *. cbn. by rewrite Hk, Hkl.
Qed.

Lemma trace_spec source target :
  live_node records source → live_node records target → source ≠ target →
  ∃ rs rt, row_of records source rs ∧ row_of records target rt
    ∧ ((∃ hops, evidence_path records source target
                  = Some (Ok (Path.mk rs rt hops edge_classes.1 edge_classes.2))
          ∧ witness records 0 source hops target
          ∧ ∀ other, witness records 0 source other target →
              length hops ≤ length other
              ∧ (length other = length hops → key_le (hop_key <$> hops) (hop_key <$> other)))
       ∨ (evidence_path records source target
            = Some (Err (NoPath rs rt edge_classes.1 edge_classes.2))
          ∧ ∀ hops, ¬ witness records 0 source hops target)).
Proof.
  intros Hs Ht Hne. destruct (live_row _ Hs) as [rs Hrs], (live_row _ Ht) as [rt Hrt].
  exists rs, rt. split_and!; [done..|].
  pose proof Hrs as (s & Hbs & Hps). pose proof Hrt as (t & Hbt & Hpt).
  assert (evidence_path records source target = trace records by_id s t) as ->.
  { unfold evidence_path, resolve_endpoint. apply String.eqb_neq in Hne. by rewrite Hne, Hbs, Hbt. }
  unfold trace.
  assert (GraphRecord.id s = source) as -> by (by apply live_nodes_Some in Hbs as (_ & n & -> & ?)).
  assert (GraphRecord.id t = target) as -> by (by apply live_nodes_Some in Hbt as (_ & n & -> & ?)).
  destruct edge_classes as [tr ex]. cbn [fst snd].
  destruct (evidence_bfs_loop_spec source target (size by_id + 2) 0
    (mkBfs ∅ {[source := []]} {[source]} [source])) as (k & b & -> & Hinv & Hk & Hend);
    [done|apply evidence_bfs_inv_start|lia..|].
  cbn [mbind option_bind]. rewrite Hps, Hpt. cbn [mbind option_bind].
  case_bool_decide as Hv; cbn [negb]; [left|right].
  - apply (inv_visited _ _ _ Hinv), (bsteps_at_distance _ _ (linked_bsteps_dec source)) in Hv
      as (j & Hj & Hd).
    destruct (evidence_walk_back_spec source k b (size by_id + 2) j target)
      as (rev & l & -> & Hrev & Hl & Hlen & Hkey); [done..|lia|].
    cbn [mbind option_bind]. rewrite Hrev.
    destruct (hops_spec 0 source l target Hl) as (hops & Hm & Hw & Hhk).
    change (imap (λ j d, (0 + j, d))) with (imap (@pair nat Discovery.t)) in Hm. rewrite Hm.
    cbn [mbind option_bind]. exists hops. split_and!; [done..|].
    assert (length hops = j) as Hhl.
    { by rewrite <-(length_fmap hop_key), Hhk, <-Hlen; unfold walk_key; rewrite length_fmap. }
    intros other (w & Hwalk & Hwl & <-)%witness_walk. rewrite <-Hwl, Hhl, Hhk. split.
    + destruct (decide (length w < j)) as [Hlt|]; [|lia]. destruct Hd as [_ Hd].
      destruct (Hd _ Hlt). eapply bsteps_nsteps. eexists. split; [|by apply walk_nsteps]. done.
    + destruct (inv_key _ _ _ Hinv j target) as (κ & Hκ & _ & Hmin); [done..|].
      assert (κ = walk_key l) as -> by (apply (inj Some); etrans; [symmetry; exact Hκ|exact Hkey]).
      by apply Hmin.
  - split; [done|]. intros hops (w & Hwalk & _)%witness_walk. apply Hv.
    destruct Hend as [|Hno]; [done|]. apply (visited_closed source k); [done..|].
    apply rtc_nsteps. eexists. by apply walk_nsteps.
Qed.
End Correct.

(** C6: [evidence_path] answers every request, without panicking. Equal handles and endpoints
    that are deleted or absent are reported as such, the source first. Between two live
    records it answers with a chain of hops, each along or against the current version of a
    live evidence edge, that is the least of all such chains: no chain has fewer hops, and
    among those with as many its whole sequence of (neighbor, edge) steps is
    lexicographically least; and it answers [NoPath] exactly when no chain exists. *)
Theorem evidence_path_least (records : list GraphRecord) (source target : string) :
  (source = target → EvidencePath.evidence_path records source target
     = Some (Err (EvidencePath.IdenticalEndpoints source)))
  ∧ (source ≠ target → ¬ EvidencePath.live_node records source →
     EvidencePath.evidence_path records source target
     = Some (Err ((if Liveness.deleted (Liveness.new records) source
                   then EvidencePath.EndpointTombstoned else EvidencePath.EndpointNotFound)
                  EvidencePath.Source source)))
  ∧ (source ≠ target → EvidencePath.live_node records source →
     ¬ EvidencePath.live_node records target →
     EvidencePath.evidence_path records source target
     = Some (Err ((if Liveness.deleted (Liveness.new records) target
                   then EvidencePath.EndpointTombstoned else EvidencePath.EndpointNotFound)
                  EvidencePath.Target target)))
  ∧ (EvidencePath.live_node records source → EvidencePath.live_node records target →
     source ≠ target →
     let '(traversed, excluded) := EvidencePath.edge_classes in
     ∃ rs rt, EvidencePath.row_of records source rs ∧ EvidencePath.row_of records target rt
     ∧ ((∃ hops, EvidencePath.evidence_path records source target
                   = Some (Ok (EvidencePath.Path.mk rs rt hops traversed excluded))
           ∧ EvidencePath.witness records 0 source hops target
           ∧ ∀ other, EvidencePath.witness records 0 source other target →
               length hops ≤ length other
               ∧ (length other = length hops →
                  EvidencePath.key_cmp (EvidencePath.hop_key <$> hops)
                    (EvidencePath.hop_key <$> other) ≠ Gt))
        ∨ (EvidencePath.evidence_path records source target
             = Some (Err (EvidencePath.NoPath rs rt traversed excluded))
           ∧ ∀ hops, ¬ EvidencePath.witness records 0 source hops target))).
Proof.
  split_and!.
  - intros ->. unfold EvidencePath.evidence_path. by rewrite String.eqb_refl.
  - intros Hne Hs. unfold EvidencePath.evidence_path, EvidencePath.resolve_endpoint.
    apply String.eqb_neq in Hne. rewrite Hne. unfold EvidencePath.live_node in Hs.
    destruct (EvidencePath.live_nodes records !! source); [destruct Hs; eauto|].
    by destruct (Liveness.deleted _ _).
  - intros Hne [s Hs] Ht. unfold EvidencePath.evidence_path, EvidencePath.resolve_endpoint.
    apply String.eqb_neq in Hne. rewrite Hne, Hs. unfold EvidencePath.live_node in Ht.
    destruct (EvidencePath.live_nodes records !! target); [destruct Ht; eauto|].
    by destruct (Liveness.deleted _ _).
  - intros Hs Ht Hne. pose proof (trace_spec records _ _ Hs Ht Hne) as H.
    by destruct EvidencePath.edge_classes.
Qed.

(** Every label belongs to exactly one of the two reported classes. *)
Lemma edge_classes_partition (label : EdgeLabel.t) :
  let '(traversed, excluded) := EvidencePath.edge_classes in
  (EdgeLabel.as_str label ∈ traversed ↔ EvidencePath.is_evidence_path_edge label = true)
  ∧ (EdgeLabel.as_str label ∈ excluded ↔ EvidencePath.is_evidence_path_edge label = false).
Proof.
  destruct EvidencePath.edge_classes as [tr ex] eqn:E. vm_compute in E. injection E as <- <-.
  split; (split; intros H;
    [|match goal with |- ?s ∈ ?l =>
        refine (bool_decide_eq_true_1 (s ∈ l) (_ : @bool_decide _ (list_elem_of_dec s l) = true)) end]);
    destruct label; try discriminate H; try (vm_compute; reflexivity); exfalso;
    match type of H with ?s ∈ ?l =>
      apply (@bool_decide_eq_true_2 _ (list_elem_of_dec s l)) in H; vm_compute in H; discriminate H end.
Qed.

(** ** A concrete graph *)
Module Demo.
Definition memory (id : string) : GraphRecord :=
  GraphRecord.node id NodeKind.Observation None None (Some id) "".
(** The hash is replaced by the text itself. *)
Definition link (label : EdgeLabel.t) (source target : string) : GraphRecord :=
  GraphRecord.edge (λ s, s) label source target None "".

(** Two chains of two hops lead from [a] to [d]; the one through [b], walked against its first
    edge, is the least. *)
Definition graph : list GraphRecord :=
  (memory <$> ["a"; "b"; "c"; "d"; "e"]) ++
  [link EdgeLabel.Observes "a" "c"; link EdgeLabel.HasEvidence "c" "d";
   link EdgeLabel.Supersedes "b" "a"; link EdgeLabel.ValidatedBy "b" "d";
   link EdgeLabel.Calls "a" "d"].

Definition steps (r : option (result EvidencePath.Path.t EvidencePath.EvidencePathError))
    : option (list (string * string)) :=
  match r with
  | Some (Ok p) => Some ((λ h, ((EvidencePath.hop_key h).1,
      h.(EvidencePath.Hop.edge).(EvidencePath.EdgeStep.traversal_direction)))
      <$> p.(EvidencePath.Path.hops))
  | _ => None
  end.

Example demo_path :
  steps (EvidencePath.evidence_path graph "a" "d") = Some [("b", "reverse"); ("d", "forward")]
  ∧ steps (EvidencePath.evidence_path graph "a" "e") = None.
Proof. split; vm_compute; reflexivity. Qed.
End Demo.

Lemma evidence_path_least_witness :
  EvidencePath.evidence_path Demo.graph "a" "a" = Some (Err (EvidencePath.IdenticalEndpoints "a"))
  ∧ ∃ rs rt, EvidencePath.row_of Demo.graph "a" rs ∧ EvidencePath.row_of Demo.graph "d" rt.
Proof.
  split.
  - exact (proj1 (evidence_path_least Demo.graph "a" "a") eq_refl).
  - destruct (evidence_path_least Demo.graph "a" "d") as (_ & _ & _ & H).
    destruct EvidencePath.edge_classes as [tr ex].
    destruct H as (rs & rt & Hs & Ht & _);
      [eexists; vm_compute; reflexivity|eexists; vm_compute; reflexivity|discriminate|].
    exists rs, rt. exact (conj Hs Ht).
Defined.
