(* ===== verification/CycleSearch.v ===== *)
(** * Elementary-cycle enumeration

    [src/src/query/cycles.rs], [CycleSearch] and [enumerate_elementary_cycles]: the
    blocked depth-first search of Johnson's algorithm, with a cap on the number of
    cycles. An index out of bounds and exhausted fuel both give [None];
    [enumerate_is_capped_reference] shows that neither happens on adjacency lists
    whose entries are vertices. A [usize] is a [nat]: every one of them here is
    bounded by the length of a list or by the cap. *)
From S2P Require Import Prelude.

(** A monadic left fold, the body of a [for] loop that may fail. *)
Section FoldM.
Context {A B : Type} (f : B → A → option B).
Fixpoint foldM (b : B) (l : list A) : option B :=
  match l with
  | [] => Some b
  | x :: l' => let?o b' := f b x in foldM b' l'
  end.
End FoldM.

(** The order a [BTreeSet<usize>] is iterated in. *)
Definition btree_iter (s : gset nat) : list nat := merge_sort (≤)%nat (elements s).

Module CycleSearch.
(* query/cycles.rs 146-155: CycleSearch *)
Record t : Type := mk {
  adj : list (list nat);
  root : nat;
  blocked : list bool;
  block_map : list (gset nat);
  stack : list nat;
  found_cycles : list (list nat);
  remaining : nat;
  truncated : bool
}.
End CycleSearch.
Import CycleSearch.

(* query/cycles.rs 158-167: CycleSearch::unblock *)
Fixpoint unblock (fuel : nat) (self : t) (v : nat) : option t :=
  match fuel with
  | O => None
  | S fuel =>
      match self.(blocked) !! v with
      | None => None
      | Some false => Some self
      | Some true =>
          let?o waiting := self.(block_map) !! v in
          let self := self{{ blocked ::= <[v := false]>; block_map ::= <[v := ∅]> }} in
          foldM (unblock fuel) self (btree_iter waiting)
      end
  end.

(** One iteration of the loop of [circuit] over the successors of the current
    vertex; [self_circuit] is the recursive call. *)
(* query/cycles.rs 174-188: CycleSearch::circuit *)
Definition visit (self_circuit : t → nat → option (bool * t)) (acc : bool * t) (w : nat)
    : option (bool * t) :=
  let '(found, self) := acc in
  if bool_decide (w < self.(root)) || self.(truncated) then Some (found, self)
  else if bool_decide (w = self.(root)) then
    Some (true,
      if bool_decide (0 < self.(remaining)) then
        self{{ found_cycles ::= (λ cs, cs ++ [self.(stack)]); remaining ::= pred }}
      else self{{ truncated := true }})
  else
    match self.(blocked) !! w with
    | None => None
    | Some true => Some (found, self)
    | Some false =>
        match self_circuit self w with
        | None => None
        | Some (found_w, self) => Some (if found_w then true else found, self)
        end
    end.

(** [self.block_map[w].insert(v)]. *)
(* query/cycles.rs 193-198: CycleSearch::circuit *)
Definition wait_on (v : nat) (self : t) (w : nat) : option t :=
  if bool_decide (self.(root) ≤ w) then
    let?o waiting := self.(block_map) !! w in
    Some (self{{ block_map ::= <[w := {[v]} ∪ waiting]> }})
  else Some self.

(* query/cycles.rs 169-202: CycleSearch::circuit *)
Fixpoint circuit (fuel : nat) (self : t) (v : nat) : option (bool * t) :=
  match fuel with
  | O => None
  | S fuel =>
      let self := self{{ stack ::= (λ st, st ++ [v]) }} in
      let?o _ := self.(blocked) !! v in
      let self := self{{ blocked ::= <[v := true]> }} in
      let?o succs := self.(adj) !! v in
      match foldM (visit (circuit fuel)) (false, self) succs with
      | None => None
      | Some (found, self) =>
          match (if found then unblock (S (length self.(adj))) self v
                 else foldM (wait_on v) self succs) with
          | None => None
          | Some self => Some (found, self{{ stack ::= removelast (A:=nat) }})
          end
      end
  end.

(** The loop over the roots [root..n], with the cycles and the flag so far. *)
(* query/cycles.rs 212-229: enumerate_elementary_cycles *)
Fixpoint enumerate_from (adj : list (list nat)) (cap : nat) (roots : list nat)
    (all : list (list nat)) (truncated : bool) : option (list (list nat) * bool) :=
  match roots with
  | [] => Some (all, truncated)
  | root :: roots =>
      if truncated then Some (all, truncated)
      else
        let n := length adj in
        let search := CycleSearch.mk adj root (replicate n false) (replicate n ∅) [] []
                        (cap - length all) false in
        let?o r := circuit (S n) search root in
        enumerate_from adj cap roots (all ++ r.2.(found_cycles))
          (truncated || r.2.(CycleSearch.truncated))
  end.

(* query/cycles.rs 208-231: enumerate_elementary_cycles *)
Definition enumerate_elementary_cycles (adj : list (list nat)) (cap : nat)
    : option (list (list nat) * bool) :=
  enumerate_from adj cap (seq 0 (length adj)) [] false.

Example enumerate_example :
  enumerate_elementary_cycles [[1; 2]; [0; 2]; [0; 3]; [1]] 100
  = Some ([[0; 1]; [0; 1; 2]; [0; 2]; [0; 2; 3; 1]; [1; 2; 3]], false).
Proof. vm_compute. reflexivity. Qed.

(** ** The reference: unpruned backtracking *)

(** All ways to close a cycle at [root] that extend the path [path ++ [v]]. *)
Fixpoint closings (adj : list (list nat)) (root : nat) (fuel : nat) (path : list nat)
    (v : nat) : list (list nat) :=
  match fuel with
  | O => []
  | S fuel =>
      default [] (adj !! v) ≫= λ w,
        if bool_decide (w < root) then []
        else if bool_decide (w = root) then [path ++ [v]]
        else if bool_decide (w ∈ path ++ [v]) then []
        else closings adj root fuel (path ++ [v]) w
  end.

(** ** The search state *)
Definition is_blocked (self : t) (v : nat) : Prop := self.(blocked) !! v = Some true.
#[export] Instance is_blocked_dec self v : Decision (is_blocked self v).
Proof. unfold is_blocked. apply _. Defined.

Definition waiting_on (self : t) (v : nat) : gset nat := default ∅ (self.(block_map) !! v).

(** The vectors have one entry per vertex and hold vertices. *)
Record sized (self : t) : Prop := {
  sized_blocked : length self.(blocked) = length self.(adj);
  sized_map : length self.(block_map) = length self.(adj);
  sized_waiting u w : w ∈ waiting_on self u → w < length self.(adj)
}.

(** Everything but the blocking is the same. *)
Definition same_frame (self self' : t) : Prop :=
  self'.(adj) = self.(adj) ∧ self'.(root) = self.(root) ∧ self'.(stack) = self.(stack)
  ∧ self'.(found_cycles) = self.(found_cycles) ∧ self'.(remaining) = self.(remaining)
  ∧ self'.(truncated) = self.(truncated).

Lemma foldM_inv {A B} (f : B → A → option B) (P : list A → B → Prop) (l : list A) (b : B) :
  P [] b →
  (∀ pre x post b, l = pre ++ x :: post → P pre b →
     ∃ b', f b x = Some b' ∧ P (pre ++ [x]) b') →
  ∃ b', foldM f b l = Some b' ∧ P l b'.
Proof.
  intros Hb Hstep.
  cut (∀ post pre b, l = pre ++ post → P pre b →
         ∃ b', foldM f b post = Some b' ∧ P l b'); [intros H; by apply (H l [])|].
  induction post as [|x post IH]; intros pre b' Hl Hp; simpl.
  - exists b'. split; [done|]. by rewrite Hl, app_nil_r.
  - destruct (Hstep _ _ _ _ Hl Hp) as (b'' & Hf & Hp'). rewrite Hf. simpl.
    apply (IH (pre ++ [x])); [|done]. by rewrite <-app_assoc.
Qed.

Lemma btree_iter_elem s x : x ∈ btree_iter s ↔ x ∈ s.
Proof. unfold btree_iter. by rewrite merge_sort_Permutation, elem_of_elements. Qed.

Lemma same_frame_trans a b c : same_frame a b → same_frame b c → same_frame a c.
Proof. unfold same_frame. intros; destruct_and!; split_and!; congruence. Qed.

(** ** Unblocking *)

(** [self'] is [self] with the vertices [vs], and everything that waits on an
    unblocked vertex, unblocked. *)
Record unblocked (self : t) (vs : list nat) (self' : t) : Prop := {
  unb_frame : same_frame self self';
  unb_sized : sized self';
  unb_sub v : is_blocked self' v → is_blocked self v;
  unb_roots v : v ∈ vs → ¬ is_blocked self' v;
  unb_kept u : is_blocked self' u ∨ ¬ is_blocked self u →
    waiting_on self' u = waiting_on self u;
  unb_freed u : is_blocked self u → ¬ is_blocked self' u →
    waiting_on self' u = ∅ ∧ ∀ w, w ∈ waiting_on self u → ¬ is_blocked self' w;
  unb_least (P : nat → Prop) : (∀ v, v ∈ vs → P v) →
    (∀ u w, P u → w ∈ waiting_on self u → P w) →
    ∀ v, is_blocked self v → ¬ is_blocked self' v → P v
}.

Lemma unblocked_nil self : sized self → unblocked self [] self.
Proof.
  intros. split; [by split_and!|done|done|by intros v ?%elem_of_nil|done|..]; naive_solver.
Qed.

Lemma unblocked_app self vs self' ws self'' :
  unblocked self vs self' → unblocked self' ws self'' → unblocked self (vs ++ ws) self''.
Proof.
  intros [F1 S1 B1 R1 K1 E1 L1] [F2 S2 B2 R2 K2 E2 L2].
  split; [by eapply same_frame_trans|done|by auto| | | |].
  - intros v [Hv|Hv]%elem_of_app; [|by apply R2]. intros Hb. by apply (R1 v Hv), B2.
  - intros u Hu. rewrite K2, K1; naive_solver.
  - intros u Hu Hn. destruct (decide (is_blocked self' u)) as [Hu'|Hu'].
    + destruct (E2 u Hu' Hn) as [He Hw]. split; [done|].
      rewrite K1 in Hw by auto. done.
    + destruct (E1 u Hu Hu') as [He Hw]. rewrite K2 by auto. split; [done|].
      intros w Hin Hb. by apply (Hw w Hin), B2.
  - intros P Hvs Hcl v Hv Hn. destruct (decide (is_blocked self' v)) as [Hv'|Hv'].
    + apply (L2 P); [set_solver| |done..]. intros u w Hu Hw.
      destruct (decide (is_blocked self u)) as [Hb|Hb].
      * destruct (decide (is_blocked self' u)) as [Hb'|Hb'].
        -- apply (Hcl u); [done|]. by rewrite <-K1 by auto.
        -- destruct (E1 u Hb Hb') as [He _]. rewrite He in Hw. set_solver.
      * apply (Hcl u); [done|]. by rewrite <-K1 by auto.
    + apply (L1 P); [set_solver|done..].
Qed.

Definition release (self : t) (v : nat) : t :=
  self{{ blocked ::= <[v := false]>; block_map ::= <[v := ∅]> }}.

Lemma is_blocked_release self v u :
  is_blocked (release self v) u ↔ u ≠ v ∧ is_blocked self u.
Proof.
  destruct self as [? ? bl ? ? ? ? ?]. unfold is_blocked, release; cbn. destruct (decide (u = v)) as [->|Hu].
  - destruct (decide (v < length bl)) as [Hv|Hv].
    + rewrite list_lookup_insert_eq by done. naive_solver.
    + rewrite list_insert_ge by lia. rewrite lookup_ge_None_2 by lia. naive_solver.
  - rewrite list_lookup_insert_ne by done. naive_solver.
Qed.

Lemma waiting_on_release self v u :
  waiting_on (release self v) u = if decide (u = v) then ∅ else waiting_on self u.
Proof.
  destruct self as [? ? ? bm ? ? ? ?]. unfold waiting_on, release; cbn. case_decide as Hu; [subst u|].
  - destruct (decide (v < length bm)) as [Hv|Hv].
    + by rewrite list_lookup_insert_eq by done.
    + rewrite list_insert_ge by lia. by rewrite lookup_ge_None_2 by lia.
  - by rewrite list_lookup_insert_ne by done.
Qed.

Lemma sized_release self v : sized self → sized (release self v).
Proof.
  intros [H1 H2 H3]. split.
  - destruct self. cbn. by rewrite length_insert.
  - destruct self. cbn. by rewrite length_insert.
  - intros u w. rewrite waiting_on_release. case_decide; [set_solver|apply H3].
Qed.

Definition blocked_set (self : t) : gset nat :=
  filter (is_blocked self) (set_seq 0 (length self.(adj))).

Lemma elem_of_blocked_set self v :
  sized self → v ∈ blocked_set self ↔ is_blocked self v.
Proof.
  intros [Hl _ _]. unfold blocked_set. rewrite elem_of_filter, elem_of_set_seq.
  split; [naive_solver|]. intros Hb. split; [done|].
  apply lookup_lt_Some in Hb. lia.
Qed.

Lemma blocked_set_mono self self' :
  sized self → sized self' → (∀ v, is_blocked self v → is_blocked self' v) →
  size (blocked_set self) ≤ size (blocked_set self').
Proof.
  intros H1 H2 Hsub. apply subseteq_size. intros v.
  rewrite !elem_of_blocked_set by done. apply Hsub.
Qed.

Lemma blocked_set_release self v :
  sized self → is_blocked self v →
  size (blocked_set (release self v)) < size (blocked_set self).
Proof.
  intros Hs Hv. pose proof (sized_release self v Hs) as Hs'.
  apply subset_size. split; [intros u|intros Hsub].
  - rewrite !elem_of_blocked_set, is_blocked_release by done. naive_solver.
  - specialize (Hsub v). rewrite !elem_of_blocked_set, is_blocked_release in Hsub by done.
    naive_solver.
Qed.

Lemma unblocked_release self v self' :
  is_blocked self v →
  unblocked (release self v) (btree_iter (waiting_on self v)) self' →
  unblocked self [v] self'.
Proof.
  intros Hv [F S B R K E L].
  assert (¬ is_blocked self' v) as Hnv.
  { intros Hb%B. rewrite is_blocked_release in Hb. naive_solver. }
  split; [done|done| | | | |].
  - intros u Hu%B. rewrite is_blocked_release in Hu. naive_solver.
  - by intros u ->%list_elem_of_singleton.
  - intros u Hu. assert (u ≠ v) by naive_solver.
    rewrite K; [rewrite waiting_on_release; by case_decide|].
    rewrite is_blocked_release. naive_solver.
  - intros u Hu Hn. destruct (decide (u = v)) as [->|Hne].
    + split.
      * rewrite K; [rewrite waiting_on_release; by case_decide|].
        rewrite is_blocked_release. naive_solver.
      * intros w Hw. apply R. by apply btree_iter_elem.
    + destruct (E u) as [He Hw]; [by rewrite is_blocked_release|done|]. split; [done|].
      rewrite waiting_on_release in Hw. by case_decide.
  - intros P Hvs Hcl u Hu Hn. destruct (decide (u = v)) as [->|Hne]; [apply Hvs; by left|].
    apply (L P); [| |by rewrite is_blocked_release|done].
    + intros w Hw%btree_iter_elem. apply (Hcl v); [apply Hvs; by left|done].
    + intros x w Hx. rewrite waiting_on_release. case_decide; [set_solver|by apply Hcl].
Qed.

Lemma unblock_spec fuel self v :
  sized self → v < length self.(adj) → size (blocked_set self) < fuel →
  ∃ self', unblock fuel self v = Some self' ∧ unblocked self [v] self'.
Proof.
  revert self v. induction fuel as [|fuel IH]; intros self v Hs Hv Hfuel; [lia|].
  cbn [unblock]. destruct (lookup_lt_is_Some_2 self.(blocked) v) as [b Hb].
  { by rewrite (sized_blocked _ Hs). }
  rewrite Hb. destruct b.
  - destruct (lookup_lt_is_Some_2 self.(block_map) v) as [waiting Hw].
    { by rewrite (sized_map _ Hs). }
    rewrite Hw. cbn [mbind option_bind]. fold (release self v).
    assert (waiting = waiting_on self v) as -> by (unfold waiting_on; by rewrite Hw).
    destruct (foldM_inv (unblock fuel) (unblocked (release self v))
      (btree_iter (waiting_on self v)) (release self v)) as (self' & Hf & Hu).
    + apply unblocked_nil. by apply sized_release.
    + intros pre w post st Hl Hst. destruct (IH st w) as (st' & Hf & Hu).
      * by apply Hst.
      * destruct (unb_frame _ _ _ Hst) as [-> _]. apply (sized_waiting _ Hs v).
        apply btree_iter_elem. rewrite Hl. set_solver.
      * eapply Nat.le_lt_trans; [apply (blocked_set_mono _ (release self v))|].
        -- by apply Hst.
        -- by apply sized_release.
        -- apply Hst.
        -- pose proof (blocked_set_release self v Hs Hb). lia.
      * exists st'. split; [done|]. by eapply unblocked_app.
    + exists self'. split; [done|]. by apply unblocked_release.
  - exists self. split; [done|].
    apply (unblocked_app self [] self [v] self) ; [by apply unblocked_nil|].
    split; [by split_and!|done|done| |done|..]; try naive_solver.
    intros u ->%list_elem_of_singleton Hu. unfold is_blocked in Hu. congruence.
Qed.

(** ** The blocking discipline *)

(** A blocked vertex off the stack cannot close a cycle: none of its successors is
    the root, all are blocked, and each will release it. Only blocked vertices are
    waited on, and the stack is blocked. *)
Record blocking (self : t) : Prop := {
  blk_sized : sized self;
  blk_succ w succs u : is_blocked self w → w ∉ self.(stack) →
    self.(adj) !! w = Some succs → u ∈ succs → self.(root) ≤ u →
    u ≠ self.(root) ∧ is_blocked self u ∧ w ∈ waiting_on self u;
  blk_waiting u w : w ∈ waiting_on self u → is_blocked self u;
  blk_stack w : w ∈ self.(stack) → is_blocked self w
}.

(** From [self] the search has found [R], of which it keeps what the cap allows,
    and reached [self'] with the flag [found]. What was blocked still is, and has
    not been made to wait on anything new. *)
Record progress (self : t) (R : list (list nat)) (found : bool) (self' : t) : Prop := {
  pr_found : found = bool_decide (R ≠ []);
  pr_adj : self'.(adj) = self.(adj);
  pr_root : self'.(root) = self.(root);
  pr_stack : self'.(stack) = self.(stack);
  pr_cycles : self'.(found_cycles) = self.(found_cycles) ++ take self.(remaining) R;
  pr_remaining : self'.(remaining) = self.(remaining) - length R;
  pr_truncated : self'.(truncated) = bool_decide (self.(remaining) < length R);
  pr_blocking : blocking self';
  pr_mono v : is_blocked self v → is_blocked self' v;
  pr_waiting u w : w ∈ waiting_on self' u → is_blocked self w → w ∈ waiting_on self u
}.

Lemma progress_nil self : blocking self → self.(truncated) = false → progress self [] false self.
Proof.
  intros Hb Ht. split; try done.
  - by rewrite take_nil, app_nil_r.
  - simpl. lia.
Qed.

Lemma progress_app a R f b R' f' c :
  progress a R f b → b.(truncated) = false → progress b R' f' c →
  progress a (R ++ R') (if f' then true else f) c.
Proof.
  intros [F1 A1 O1 S1 C1 M1 T1 B1 I1 W1] Ht [F2 A2 O2 S2 C2 M2 T2 B2 I2 W2].
  rewrite T1 in Ht. apply bool_decide_eq_false_1 in Ht.
  split; [|congruence|congruence|congruence| | | |done|by auto|by auto].
  - rewrite F1, F2. destruct R, R'; done.
  - rewrite C2, C1, M1, take_app, (take_ge R) by lia. by rewrite app_assoc.
  - rewrite M2, M1, length_app. lia.
  - rewrite T2, M1, length_app. apply bool_decide_ext. lia.
Qed.

Lemma progress_truncated a R f b R' :
  progress a R f b → b.(truncated) = true → progress a (R ++ R') f b.
Proof.
  intros [F1 A1 O1 S1 C1 M1 T1 B1 I1 W1] Ht.
  rewrite Ht in T1. symmetry in T1. apply bool_decide_eq_true_1 in T1.
  split; [|done|done|done| | | |done|done|done].
  - rewrite F1. destruct R; [simpl in T1; lia|done].
  - rewrite C1, take_app_le by lia. done.
  - rewrite M1, length_app. lia.
  - rewrite Ht, length_app. symmetry. apply bool_decide_eq_true_2. lia.
Qed.

(** Closing a cycle at the root. *)
Lemma progress_close self :
  blocking self → self.(truncated) = false →
  progress self [self.(stack)] true
    (if bool_decide (0 < self.(remaining)) then
       self{{ found_cycles ::= (λ cs, cs ++ [self.(stack)]); remaining ::= pred }}
     else self{{ truncated := true }}).
Proof.
  destruct self as [ad ro bl bm st fc re tr]. intros Hb Ht. cbn in Ht. subst tr. cbn.
  assert (∀ fc' re' tr', blocking (CycleSearch.mk ad ro bl bm st fc' re' tr')) as Hb'.
  { intros. destruct Hb as [[] H1 H2 H3]. split; [split|..]; done. }
  case_bool_decide as Hre; split; try done; cbn.
  - destruct re; [lia|]. simpl. by rewrite take_nil.
  - lia.
  - symmetry. apply bool_decide_eq_false_2. lia.
  - assert (re = 0) as -> by lia. by rewrite app_nil_r.
  - lia.
  - symmetry. apply bool_decide_eq_true_2. lia.
Qed.

(** The pruned searches would have found nothing. *)
Lemma closings_blocked self fuel path v :
  blocking self → (∀ w, w ∈ self.(stack) → w ∈ path) → v ∉ self.(stack) →
  is_blocked self v → closings self.(adj) self.(root) fuel path v = [].
Proof.
  intros Hb. revert path v. induction fuel as [|fuel IH]; intros path v Hsub Hv Hbv; [done|].
  cbn [closings]. destruct (self.(adj) !! v) as [succs|] eqn:Hs; [|done]. simpl.
  apply elem_of_nil_inv. intros x (w & Hx & Hw)%list_elem_of_bind.
  repeat case_bool_decide; try by apply elem_of_nil in Hx.
  - by destruct (blk_succ _ Hb v succs w Hbv Hv Hs Hw ltac:(lia)).
  - rewrite IH in Hx; [by apply elem_of_nil in Hx|set_solver|set_solver|].
    by apply (blk_succ _ Hb v succs w Hbv Hv Hs Hw ltac:(lia)).
Qed.

(** ** One circuit *)

(** Every entry of the adjacency lists is a vertex. *)
Definition well_indexed (adj : list (list nat)) : Prop :=
  ∀ v succs w, adj !! v = Some succs → w ∈ succs → w < length adj.

(** What a successor contributes to the reference. *)
Definition closings_via (adj : list (list nat)) (root fuel : nat) (path : list nat)
    (v w : nat) : list (list nat) :=
  if bool_decide (w < root) then []
  else if bool_decide (w = root) then [path ++ [v]]
  else if bool_decide (w ∈ path ++ [v]) then []
  else closings adj root fuel (path ++ [v]) w.

Lemma closings_S adj root fuel path v :
  closings adj root (S fuel) path v
  = default [] (adj !! v) ≫= closings_via adj root fuel path v.
Proof. done. Qed.

(** The precondition of a call of [circuit]. *)
Record ready (self : t) (v fuel : nat) : Prop := {
  rd_blocking : blocking self;
  rd_truncated : self.(truncated) = false;
  rd_vertex : v < length self.(adj);
  rd_free : ¬ is_blocked self v;
  rd_nodup : NoDup self.(stack);
  rd_fuel : length self.(adj) < length self.(stack) + fuel
}.

Definition circuit_correct (fuel : nat) : Prop :=
  ∀ self v, well_indexed self.(adj) → ready self v fuel →
  ∃ found self', circuit fuel self v = Some (found, self')
    ∧ progress self (closings self.(adj) self.(root) fuel self.(stack) v) found self'
    ∧ (found = false → is_blocked self' v).

(** The state of the loop over the successors: what the prefix [pre] contributed. *)
Definition looped (self1 : t) (fuel : nat) (path : list nat) (v : nat)
    (pre : list nat) (acc : bool * t) : Prop :=
  progress self1 (pre ≫= closings_via self1.(adj) self1.(root) fuel path v) acc.1 acc.2
  ∧ (acc.1 = false → ∀ w, w ∈ pre → self1.(root) ≤ w →
       w ≠ self1.(root) ∧ is_blocked acc.2 w).

Lemma not_truncated a R f b : progress a R f b → f = false → b.(truncated) = false.
Proof.
  intros Hp Hf. rewrite (pr_truncated _ _ _ _ Hp). apply bool_decide_eq_false_2.
  rewrite (pr_found _ _ _ _ Hp) in Hf. apply bool_decide_eq_false_1 in Hf.
  destruct R; [simpl; lia|by destruct Hf].
Qed.

Lemma visit_step fuel self1 path v pre w acc :
  circuit_correct fuel → well_indexed self1.(adj) →
  self1.(stack) = path ++ [v] → NoDup (path ++ [v]) →
  length self1.(adj) < length (path ++ [v]) + fuel → w < length self1.(adj) →
  looped self1 fuel path v pre acc →
  ∃ acc', visit (circuit fuel) acc w = Some acc'
    ∧ looped self1 fuel path v (pre ++ [w]) acc'.
Proof.
  intros IH Hwi Hst Hnd Hfuel Hw. destruct acc as [found st]. intros [Hp Hdone].
  unfold looped in *. cbn [fst snd] in *. rewrite bind_app, bind_singleton.
  unfold visit, closings_via at 2. set (R := pre ≫= _) in *.
  rewrite (pr_root _ _ _ _ Hp).
  destruct st.(truncated) eqn:Htr.
  { rewrite orb_true_r. exists (found, st). cbn [fst snd]. split; [done|].
    split; [by apply progress_truncated|]. intros Hf.
    rewrite (not_truncated _ _ _ _ Hp Hf) in Htr. done. }
  rewrite orb_false_r.
  case_bool_decide as Hlt; [|case_bool_decide as Heq; [|case_bool_decide as Hin]].
  - exists (found, st). cbn [fst snd]. rewrite app_nil_r. split_and!; [done..|].
    intros Hf x. rewrite elem_of_app, list_elem_of_singleton.
    intros [Hx| ->] Hle; [by apply Hdone|lia].
  - eexists. split; [done|]. cbn [fst snd]. split; [|done].
    replace (path ++ [v]) with st.(stack) by (by rewrite (pr_stack _ _ _ _ Hp)).
    apply (progress_app _ _ _ _ _ true _ Hp Htr). apply progress_close; [by apply Hp|done].
  - assert (is_blocked st w) as Hb.
    { apply (blk_stack _ (pr_blocking _ _ _ _ Hp)). by rewrite (pr_stack _ _ _ _ Hp), Hst. }
    rewrite Hb. exists (found, st). cbn [fst snd]. rewrite app_nil_r. split_and!; [done..|].
    intros Hf x. rewrite elem_of_app, list_elem_of_singleton.
    intros [Hx| ->] Hle; [by apply Hdone|done].
  - assert (w ∉ st.(stack)) as Hws by (by rewrite (pr_stack _ _ _ _ Hp), Hst).
    destruct (lookup_lt_is_Some_2 st.(blocked) w) as [[] Hb].
    { by rewrite (sized_blocked _ (blk_sized _ (pr_blocking _ _ _ _ Hp))),
        (pr_adj _ _ _ _ Hp). }
    + rewrite Hb. exists (found, st). cbn [fst snd].
      rewrite <-(pr_adj _ _ _ _ Hp), <-(pr_root _ _ _ _ Hp).
      rewrite (closings_blocked st); [|by apply Hp|by rewrite (pr_stack _ _ _ _ Hp), Hst|done..].
      rewrite app_nil_r. split_and!; [done..|].
      intros Hf x. rewrite elem_of_app, list_elem_of_singleton.
      rewrite (pr_root _ _ _ _ Hp). intros [Hx| ->] Hle; [by apply Hdone|done].
    + rewrite Hb. destruct (IH st w) as (found_w & st' & Hc & Hp' & Hbw).
      * by rewrite (pr_adj _ _ _ _ Hp).
      * split; [by apply Hp|done|by rewrite (pr_adj _ _ _ _ Hp)
          |unfold is_blocked; congruence| |]; rewrite (pr_stack _ _ _ _ Hp), Hst; [done|].
        by rewrite (pr_adj _ _ _ _ Hp).
      * rewrite Hc. eexists. split; [done|]. cbn [fst snd].
        rewrite (pr_adj _ _ _ _ Hp), (pr_root _ _ _ _ Hp), (pr_stack _ _ _ _ Hp), Hst in Hp'.
        split; [by eapply progress_app|].
        intros Hf. destruct found_w; [done|]. intros x.
        rewrite elem_of_app, list_elem_of_singleton. intros [Hx| ->] Hle; [|by auto].
        destruct (Hdone Hf x Hx Hle). split; [done|]. by apply (pr_mono _ _ _ _ Hp').
Qed.

(** [v] waits on [us]. *)
Record waited (v : nat) (self : t) (us : list nat) (self' : t) : Prop := {
  wt_frame : same_frame self self';
  wt_sized : sized self';
  wt_blocked u : is_blocked self' u ↔ is_blocked self u;
  wt_waiting u w : w ∈ waiting_on self' u ↔
    w ∈ waiting_on self u ∨ (w = v ∧ u ∈ us ∧ self.(root) ≤ u)
}.

Lemma waits_spec v self succs :
  sized self → v < length self.(adj) → (∀ u, u ∈ succs → u < length self.(adj)) →
  ∃ self', foldM (wait_on v) self succs = Some self' ∧ waited v self succs self'.
Proof.
  intros Hs Hv Hsu. apply (foldM_inv (wait_on v) (waited v self)).
  { split; [by split_and!|done|done|]. intros. rewrite elem_of_nil. naive_solver. }
  intros pre u post st -> [F S B W]. assert (u < length self.(adj)) as Hu by set_solver.
  unfold wait_on. destruct F as (Fa & Fr & Fs & Ff & Fm & Ft). rewrite Fr.
  case_bool_decide as Hle.
  - destruct (lookup_lt_is_Some_2 st.(block_map) u) as [ws Hws].
    { by rewrite (sized_map _ S), Fa. }
    rewrite Hws. eexists. split; [done|].
    assert (∀ x, waiting_on (st{{block_map ::= <[u := {[v]} ∪ ws]>}}) x
      = if decide (x = u) then {[v]} ∪ waiting_on st u else waiting_on st x) as Hwait.
    { intros x. unfold waiting_on. rewrite Hws. destruct st as [? ? ? bm ? ? ? ?]; cbn in *.
      case_decide as Hx; [subst x|by rewrite list_lookup_insert_ne by done].
      rewrite list_lookup_insert_eq by (by apply lookup_lt_Some in Hws). done. }
    split.
    + destruct st; cbn in *. by split_and!.
    + destruct S as [S1 S2 S3]. split; [by destruct st|by destruct st; cbn; rewrite length_insert|].
      intros x w. rewrite Hwait. replace (adj _) with (adj self) by (by destruct st).
      rewrite <-Fa. case_decide; [|apply S3]. rewrite elem_of_union, elem_of_singleton.
      intros [->|Hin]; [by rewrite Fa|by eapply S3].
    + intros x. rewrite <-B. by destruct st.
    + intros x w. rewrite Hwait, elem_of_app, list_elem_of_singleton.
      case_decide as Hx; [subst x; rewrite elem_of_union, elem_of_singleton|];
        rewrite W; naive_solver.
  - eexists. split; [done|]. split; [by split_and!|done|done|].
    intros x w. rewrite W, elem_of_app, list_elem_of_singleton.
    split; [naive_solver|]. intros [?|(-> & [?| ->] & ?)]; [by left|by right|lia].
Qed.

Definition enter (self : t) (v : nat) : t :=
  self{{ stack ::= (λ st, st ++ [v]) }}{{ blocked ::= <[v := true]> }}.
Definition leave (self : t) : t := self{{ stack ::= removelast (A:=nat) }}.

Lemma enter_blocked self v u :
  v < length self.(blocked) → is_blocked (enter self v) u ↔ u = v ∨ is_blocked self u.
Proof.
  destruct self as [? ? bl ? ? ? ? ?]. unfold is_blocked, enter; cbn. intros Hv.
  destruct (decide (u = v)) as [->|Hu].
  - rewrite list_lookup_insert_eq by done. naive_solver.
  - rewrite list_lookup_insert_ne by done. naive_solver.
Qed.

Lemma enter_blocking self v fuel : ready self v fuel → blocking (enter self v).
Proof.
  intros [[Hs H1 H2 H3] Ht Hv Hf Hn Hfu].
  assert (v < length self.(blocked)) as Hvb by by rewrite (sized_blocked _ Hs).
  split.
  - destruct Hs as [S1 S2 S3]. destruct self. split; cbn in *; [|done..].
    by rewrite length_insert.
  - intros w succs u. rewrite !enter_blocked by done. intros Hw Hws Hadj Hu Hle.
    assert (w ≠ v ∧ w ∉ self.(stack)) as [Hwv Hws'] by (destruct self; cbn in *; set_solver).
    assert (is_blocked self w) as Hbw by naive_solver.
    destruct (H1 w succs u) as (? & ? & ?); try (by destruct self).
    split_and!; [by destruct self|by right|by destruct self].
  - intros u w Hw. apply enter_blocked; [done|]. right. apply (H2 u w). by destruct self.
  - intros w Hw. apply enter_blocked; [done|]. destruct self; cbn in *. set_solver.
Qed.

Lemma leave_same self : is_blocked (leave self) = is_blocked self
  ∧ waiting_on (leave self) = waiting_on self ∧ adj (leave self) = adj self
  ∧ root (leave self) = root self ∧ found_cycles (leave self) = found_cycles self
  ∧ remaining (leave self) = remaining self ∧ truncated (leave self) = truncated self
  ∧ stack (leave self) = removelast (stack self) ∧ (sized self → sized (leave self)).
Proof. destruct self. split_and!; try done. intros []. by split. Qed.

(** Popping the vertex after a state change [st --> st'] that only touched the
    blocking. *)
Lemma leave_progress self v fuel R found st st' :
  ready self v fuel → progress (enter self v) R found st → same_frame st st' → sized st' →
  (∀ w succs u, is_blocked st' w → w ∉ self.(stack) → self.(adj) !! w = Some succs →
     u ∈ succs → self.(root) ≤ u →
     u ≠ self.(root) ∧ is_blocked st' u ∧ w ∈ waiting_on st' u) →
  (∀ u w, w ∈ waiting_on st' u → is_blocked st' u) →
  (∀ x, is_blocked self x → is_blocked st' x) →
  (∀ u w, w ∈ waiting_on st' u → is_blocked self w → w ∈ waiting_on st u) →
  progress self R found (leave st').
Proof.
  intros Hr [F A O S C M T B I W] (Ea & Er & Es & Ef & Em & Et) Hs Hsucc Hwait Hmono Hnew.
  assert (v < length self.(blocked)) as Hvb.
  { rewrite (sized_blocked _ (blk_sized _ (rd_blocking _ _ _ Hr))).
    by apply (rd_vertex _ _ _ Hr). }
  destruct (leave_same st') as (Lb & Lw & La & Lr & Lf & Lm & Lt & Ls & Lsz).
  assert (stack (leave st') = self.(stack)) as Hst.
  { rewrite Ls, Es, S. replace (stack (enter self v)) with (self.(stack) ++ [v])
      by (by destruct self). apply removelast_last. }
  assert (adj (leave st') = self.(adj)) as Hadj by (rewrite La, Ea, A; by destruct self).
  assert (root (leave st') = self.(root)) as Hroot by (rewrite Lr, Er, O; by destruct self).
  split; [done|done|done|done| | | | | |].
  - rewrite Lf, Ef, C. by destruct self.
  - rewrite Lm, Em, M. by destruct self.
  - rewrite Lt, Et, T. by destruct self.
  - split; rewrite ?Lb, ?Lw, ?Hst, ?Hadj, ?Hroot; [by apply Lsz|done|done|].
    intros w Hw. apply Hmono. by apply (blk_stack _ (rd_blocking _ _ _ Hr)).
  - rewrite Lb. apply Hmono.
  - intros u w. rewrite Lw. intros Hw Hb.
    replace (waiting_on self u) with (waiting_on (enter self v) u) by (by destruct self).
    apply W; [by apply Hnew|]. apply enter_blocked; auto.
Qed.

(** Blocked vertices off the longer stack, as the loop leaves them. *)
Lemma loop_succ self v R found st w succs u :
  progress (enter self v) R found st → is_blocked st w → w ≠ v → w ∉ self.(stack) →
  self.(adj) !! w = Some succs → u ∈ succs → self.(root) ≤ u →
  u ≠ self.(root) ∧ is_blocked st u ∧ w ∈ waiting_on st u.
Proof.
  intros Hp Hw Hwv Hws Hadj Hu Hle.
  destruct (blk_succ _ (pr_blocking _ _ _ _ Hp) w succs u) as (? & ? & ?); try done.
  - rewrite (pr_stack _ _ _ _ Hp). destruct self; cbn in *. set_solver.
  - rewrite (pr_adj _ _ _ _ Hp). by destruct self.
  - rewrite (pr_root _ _ _ _ Hp). by destruct self.
  - split; [|done]. rewrite (pr_root _ _ _ _ Hp) in *. by destruct self.
Qed.

(** Leaving with a cycle found: [v] and what waits on it are released, which cannot
    touch anything that was blocked on entry. *)
Lemma leave_found self v fuel R st st' :
  ready self v fuel → progress (enter self v) R true st → unblocked st [v] st' →
  progress self R true (leave st').
Proof.
  intros Hr Hp [F S B Ro K E L].
  assert (v < length self.(blocked)) as Hvb.
  { rewrite (sized_blocked _ (blk_sized _ (rd_blocking _ _ _ Hr))).
    by apply (rd_vertex _ _ _ Hr). }
  assert (∀ u w, w ∈ waiting_on st' u → is_blocked st' u ∧ w ∈ waiting_on st u) as Hwait.
  { intros u w Hw. destruct (decide (is_blocked st' u)) as [Hu|Hu].
    - split; [done|]. by rewrite <-K by auto.
    - destruct (decide (is_blocked st u)) as [Hu'|Hu'].
      + destruct (E u Hu' Hu) as [He _]. rewrite He in Hw. set_solver.
      + rewrite K in Hw by auto. destruct Hu'.
        by apply (blk_waiting _ (pr_blocking _ _ _ _ Hp) u w). }
  apply (leave_progress self v fuel R true st st'); try done.
  - intros w succs u Hw Hws Hadj Hu Hle.
    assert (w ≠ v) as Hwv by (intros ->; apply (Ro v); [by left|done]).
    destruct (loop_succ self v R true st w succs u) as (Hur & Hbu & Hin); try done; [by auto|].
    assert (is_blocked st' u) as Hbu'.
    { destruct (decide (is_blocked st' u)) as [|Hn]; [done|].
      destruct (E u Hbu Hn) as [_ Hfree]. by destruct (Hfree w Hin). }
    split_and!; [done..|]. by rewrite K by auto.
  - intros u w Hw. by eapply Hwait.
  - intros x Hx. destruct (decide (is_blocked st' x)) as [|Hn]; [done|]. exfalso.
    assert (is_blocked st x) as Hxb.
    { apply (pr_mono _ _ _ _ Hp), enter_blocked; auto. }
    apply (L (λ y, ¬ is_blocked self y)) with (v := x); try done.
    + intros y ->%list_elem_of_singleton. by apply (rd_free _ _ _ Hr).
    + intros u w Hu Hw Hbw. apply Hu, (blk_waiting _ (rd_blocking _ _ _ Hr) u w).
      replace (waiting_on self u) with (waiting_on (enter self v) u) by (by destruct self).
      apply (pr_waiting _ _ _ _ Hp); [done|]. apply enter_blocked; auto.
  - intros u w Hw _. by apply Hwait.
Qed.

(** Leaving without one: [v] stays blocked and waits on its successors. *)
Lemma leave_blocked self v fuel R st st' succs :
  ready self v fuel → self.(adj) !! v = Some succs →
  progress (enter self v) R false st →
  (∀ w, w ∈ succs → self.(root) ≤ w → w ≠ self.(root) ∧ is_blocked st w) →
  waited v st succs st' →
  progress self R false (leave st') ∧ is_blocked (leave st') v.
Proof.
  intros Hr Hadj Hp Hdone [F S B W].
  assert (v < length self.(blocked)) as Hvb.
  { rewrite (sized_blocked _ (blk_sized _ (rd_blocking _ _ _ Hr))).
    by apply (rd_vertex _ _ _ Hr). }
  assert (st.(root) = self.(root)) as Hroot by (rewrite (pr_root _ _ _ _ Hp); by destruct self).
  assert (∀ x, is_blocked (enter self v) x → is_blocked st' x) as Hmono.
  { intros x Hx. by apply B, (pr_mono _ _ _ _ Hp). }
  split; [|destruct (leave_same st') as [-> _]; apply Hmono, enter_blocked; auto].
  apply (leave_progress self v fuel R false st st'); try done.
  - intros w succs' u Hw Hws Hadj' Hu Hle. rewrite B, W, Hroot.
    destruct (decide (w = v)) as [->|Hwv].
    + simplify_eq. destruct (Hdone u Hu Hle). split_and!; auto.
    + destruct (loop_succ self v R false st w succs' u) as (? & ? & ?); try done; [by apply B|].
      split_and!; auto.
  - intros u w [Hw|(-> & Hu & Hle)]%W; apply B.
    + by apply (blk_waiting _ (pr_blocking _ _ _ _ Hp) u w).
    + rewrite Hroot in Hle. by apply Hdone.
  - intros x Hx. apply Hmono, enter_blocked; auto.
  - intros u w [Hw|(-> & _)]%W Hb; [done|]. by apply (rd_free _ _ _ Hr) in Hb.
Qed.

Lemma blocked_set_bound self : sized self → size (blocked_set self) ≤ length self.(adj).
Proof.
  intros Hs. unfold blocked_set. etrans.
  - apply (subseteq_size _ (set_seq 0 (length self.(adj)))).
    intros v [_ Hv]%elem_of_filter. done.
  - by rewrite size_set_seq.
Qed.

Lemma circuit_S fuel self v b succs :
  self.(blocked) !! v = Some b → self.(adj) !! v = Some succs →
  circuit (S fuel) self v
  = match foldM (visit (circuit fuel)) (false, enter self v) succs with
    | None => None
    | Some (found, st) =>
        match (if found then unblock (S (length st.(adj))) st v
               else foldM (wait_on v) st succs) with
        | None => None
        | Some st => Some (found, leave st)
        end
    end.
Proof. intros Hb Ha. destruct self; cbn in *. by rewrite Hb, Ha. Qed.

Lemma circuit_spec fuel : circuit_correct fuel.
Proof.
  induction fuel as [|fuel IH]; intros self v Hwi Hr.
  { exfalso. pose proof (rd_fuel _ _ _ Hr) as Hfuel. rewrite Nat.add_0_r in Hfuel.
    assert (length self.(stack) ≤ length self.(adj)); [|lia].
    rewrite <-(length_seq (length self.(adj)) 0). apply submseteq_length.
    apply NoDup_submseteq; [by apply Hr|]. intros x Hx. apply elem_of_seq.
    apply (blk_stack _ (rd_blocking _ _ _ Hr)), lookup_lt_Some in Hx.
    rewrite (sized_blocked _ (blk_sized _ (rd_blocking _ _ _ Hr))) in Hx. lia. }
  pose proof (rd_vertex _ _ _ Hr) as Hv.
  pose proof (blk_sized _ (rd_blocking _ _ _ Hr)) as Hs.
  destruct (lookup_lt_is_Some_2 self.(blocked) v) as [b Hb].
  { by rewrite (sized_blocked _ Hs). }
  destruct (lookup_lt_is_Some_2 self.(adj) v Hv) as [succs Hsuccs].
  assert (v ∉ self.(stack)) as Hvs.
  { intros Hin%(blk_stack _ (rd_blocking _ _ _ Hr)). by apply (rd_free _ _ _ Hr). }
  assert (stack (enter self v) = self.(stack) ++ [v]) as Hest by by destruct self.
  assert (adj (enter self v) = self.(adj)) as Head by by destruct self.
  assert (root (enter self v) = self.(root)) as Hero by by destruct self.
  assert (NoDup (self.(stack) ++ [v])) as Hnd.
  { apply NoDup_app. split_and!; [by apply Hr|set_solver|apply NoDup_singleton]. }
  rewrite closings_S, Hsuccs. cbn [default from_option id].
  destruct (foldM_inv (visit (circuit fuel))
    (looped (enter self v) fuel self.(stack) v) succs (false, enter self v))
    as ([found st] & Hfold & [Hp Hdone]).
  { split; [|by intros _ w ?%elem_of_nil]. apply progress_nil.
    - by eapply enter_blocking.
    - pose proof (rd_truncated _ _ _ Hr). by destruct self. }
  { intros pre w post acc Hl Hacc. apply (visit_step fuel (enter self v)); try done.
    - rewrite Head, length_app. pose proof (rd_fuel _ _ _ Hr). simpl. lia.
    - rewrite Head. apply (Hwi v succs); [done|]. rewrite Hl. set_solver. }
  rewrite (circuit_S _ _ _ _ _ Hb Hsuccs), Hfold. cbn [fst snd] in *.
  rewrite Head, Hero in *. destruct found.
  - destruct (unblock_spec (S (length st.(adj))) st v) as (st' & Hu & Hst').
    + by apply Hp.
    + by rewrite (pr_adj _ _ _ _ Hp), Head.
    + apply Nat.lt_succ_r, blocked_set_bound. by apply Hp.
    + rewrite Hu. eexists _, _. split_and!; [done| |done]. by eapply leave_found.
  - destruct (waits_spec v st succs) as (st' & Hu & Hst').
    + by apply Hp.
    + by rewrite (pr_adj _ _ _ _ Hp), Head.
    + intros u Hu. rewrite (pr_adj _ _ _ _ Hp), Head. by apply (Hwi v succs).
    + rewrite Hu. eexists _, _. split; [done|].
      destruct (leave_blocked self v (S fuel) _ st st' succs Hr Hsuccs Hp) as [? ?]; auto.
Qed.

(** ** Elementary cycles *)

Definition edge (adj : list (list nat)) (x y : nat) : Prop :=
  ∃ succs, adj !! x = Some succs ∧ y ∈ succs.

(** [c] visits distinct vertices, starts at its least one, follows edges and closes. *)
Definition elementary_cycle (adj : list (list nat)) (c : list nat) : Prop :=
  ∃ r q, c = r :: q ∧ NoDup c ∧ Forall (λ x, r < x) q ∧ chain (edge adj) (c ++ [r]).

(** The reference enumeration: all roots, without blocking and without a cap. *)
Definition all_closings (adj : list (list nat)) : list (list nat) :=
  seq 0 (length adj) ≫= λ root, closings adj root (S (length adj)) [] root.

Lemma chain_cons {A} (R : A → A → Prop) x y l :
  chain R (x :: y :: l) ↔ R x y ∧ chain R (y :: l).
Proof.
  split.
  - intros Hc. split; [by apply (Hc 0)|]. intros i a b Ha Hb. by apply (Hc (S i)).
  - intros [Hxy Hc] [|i] a b Ha Hb; simplify_eq/=; [done|]. by apply (Hc i).
Qed.

Lemma closings_via_elem adj root fuel path v w c :
  c ∈ closings_via adj root fuel path v w ↔
    (w = root ∧ c = path ++ [v])
    ∨ (root < w ∧ (w ∉ path ++ [v]) ∧ c ∈ closings adj root fuel (path ++ [v]) w).
Proof.
  unfold closings_via. repeat case_bool_decide; rewrite ?elem_of_nil, ?list_elem_of_singleton.
  - split; [done|]. intros [[-> _]|[? _]]; lia.
  - split; [by left|]. intros [[_ ->]|[? _]]; [done|lia].
  - split; [done|]. intros [[-> _]|(? & ? & _)]; done.
  - split; [intros; right; split_and!; [lia|done..]|]. intros [[-> _]|(? & ? & ?)]; done.
Qed.

Section Closings.
Context (adj : list (list nat)) (Hwi : well_indexed adj) (root : nat).

Lemma path_bound path v :
  NoDup (path ++ [v]) → (∀ x, x ∈ path ++ [v] → x < length adj) →
  length path < length adj.
Proof.
  intros Hnd Hlt. cut (length (path ++ [v]) ≤ length adj); [rewrite length_app; simpl; lia|].
  rewrite <-(length_seq (length adj) 0). apply submseteq_length, NoDup_submseteq; [done|].
  intros x Hx. apply elem_of_seq. specialize (Hlt x Hx). lia.
Qed.

Lemma closings_elem fuel path v c :
  NoDup (path ++ [v]) → (∀ x, x ∈ path ++ [v] → x < length adj) →
  length adj < length path + fuel →
  c ∈ closings adj root fuel path v ↔
  ∃ q, c = path ++ v :: q ∧ NoDup c ∧ Forall (λ x, root < x) q
       ∧ chain (edge adj) ((v :: q) ++ [root]).
Proof.
  revert path v. induction fuel as [|fuel IH]; intros path v Hnd Hlt Hfuel.
  { pose proof (path_bound _ _ Hnd Hlt). lia. }
  rewrite closings_S, list_elem_of_bind.
  assert (∀ w, w ∈ default [] (adj !! v) ↔ edge adj v w) as Hedge.
  { intros w. unfold edge. destruct (adj !! v) as [succs|]; simpl; [naive_solver|].
    rewrite elem_of_nil. naive_solver. }
  assert (∀ w, edge adj v w → w ∉ path ++ [v] →
    NoDup ((path ++ [v]) ++ [w]) ∧ (∀ x, x ∈ (path ++ [v]) ++ [w] → x < length adj)
    ∧ length adj < length (path ++ [v]) + fuel) as Hnext.
  { intros w (succs & Hs & Hw) Hn. split_and!.
    - apply NoDup_app. split_and!; [done|set_solver|apply NoDup_singleton].
    - intros x [?| ->%list_elem_of_singleton]%elem_of_app; [by apply Hlt|by eapply Hwi].
    - rewrite length_app. simpl. lia. }
  split.
  - intros (w & [[-> ->]|(Hr & Hn & Hc)]%closings_via_elem & Hw%Hedge).
    + exists []. split_and!; [done|done|done|]. by apply chain_cons; split; [|by intros [|?]].
    + destruct (Hnext w Hw Hn) as (H1 & H2 & H3).
      apply (IH _ _ H1 H2 H3) in Hc as (q & -> & Hc & Hq & Hch).
      exists (w :: q). rewrite <-!app_assoc in *. split_and!; [done|done|by constructor|].
      simpl. by apply chain_cons.
  - intros ([|w q] & -> & Hc & Hq & Hch); simpl in Hch; apply chain_cons in Hch as [Hw Hch].
    + exists root. split; [|by apply Hedge]. apply closings_via_elem. by left.
    + exists w. split; [|by apply Hedge]. apply closings_via_elem. right.
      apply Forall_cons in Hq as [Hr Hq].
      assert (path ++ v :: w :: q = (path ++ [v]) ++ w :: q) as Hsplit by by rewrite <-app_assoc.
      rewrite Hsplit in *.
      assert (w ∉ path ++ [v]) as Hn by (apply NoDup_app in Hc as (_ & Hd & _); set_solver).
      destruct (Hnext w Hw Hn) as (H1 & H2 & H3). split_and!; [done|done|].
      apply (IH _ _ H1 H2 H3). by exists q.
Qed.

Lemma closings_prefix fuel path v c :
  c ∈ closings adj root fuel path v → ∃ q, c = path ++ v :: q.
Proof.
  revert path v. induction fuel as [|fuel IH]; intros path v; [by intros ?%elem_of_nil|].
  rewrite closings_S, list_elem_of_bind.
  intros (w & [[-> ->]|(_ & _ & (q & ->)%IH)]%closings_via_elem & _); [by exists []|].
  exists (w :: q). by rewrite <-app_assoc.
Qed.

Lemma closings_NoDup fuel path v :
  Forall NoDup adj → NoDup (closings adj root fuel path v).
Proof.
  intros Hadj. revert path v. induction fuel as [|fuel IH]; intros path v; [constructor|].
  rewrite closings_S. apply NoDup_bind.
  - intros w w' c _ _ [[-> ->]|(Hr & _ & Hc)]%closings_via_elem
      [[-> Hc']|(Hr' & _ & Hc')]%closings_via_elem; [done| | |].
    + apply closings_prefix in Hc' as (q & Hq).
      apply (f_equal length) in Hq. rewrite !length_app in Hq. simpl in Hq. lia.
    + apply closings_prefix in Hc as (q & ->).
      apply (f_equal length) in Hc'. rewrite !length_app in Hc'. simpl in Hc'. lia.
    + apply closings_prefix in Hc as (q & ->), Hc' as (q' & Hq).
      apply app_inj_1 in Hq as [_ Hq]; [|done]. by simplify_eq.
  - intros w _. unfold closings_via. repeat case_bool_decide; try constructor; try done.
    + set_solver.
    + constructor.
  - destruct (adj !! v) as [succs|] eqn:Hs; [|constructor].
    by apply (Forall_lookup_1 _ _ _ _ Hadj Hs).
Qed.
End Closings.

(** ** The loop over the roots *)

Definition start (adj : list (list nat)) (root cap : nat) : t :=
  CycleSearch.mk adj root (replicate (length adj) false) (replicate (length adj) ∅) [] []
    cap false.

Lemma start_ready adj root cap :
  root < length adj → ready (start adj root cap) root (S (length adj)).
Proof.
  intros Hr.
  assert (∀ v, ¬ is_blocked (start adj root cap) v) as Hnb.
  { intros v Hv. apply lookup_replicate in Hv as [? _]. done. }
  assert (∀ u w, w ∉ waiting_on (start adj root cap) u) as Hnw.
  { intros u w. unfold waiting_on, start; simpl.
    destruct (decide (u < length adj)) as [Hu|Hu].
    - rewrite lookup_replicate_2 by done. set_solver.
    - rewrite lookup_ge_None_2 by (rewrite length_replicate; lia). set_solver. }
  split; [split; [split|..]|..]; simpl; try done.
  - by rewrite length_replicate.
  - by rewrite length_replicate.
  - intros u w []%Hnw.
  - intros w succs u []%Hnb.
  - intros u w []%Hnw.
  - intros w ?%elem_of_nil. done.
  - constructor.
  - lia.
Qed.

Lemma enumerate_from_spec adj cap roots all :
  well_indexed adj → (∀ r, r ∈ roots → r < length adj) →
  enumerate_from adj cap roots (take cap all) (bool_decide (cap < length all))
  = let total := all ++ (roots ≫= λ r, closings adj r (S (length adj)) [] r) in
    Some (take cap total, bool_decide (cap < length total)).
Proof.
  intros Hwi. revert all. induction roots as [|root roots IH]; intros all Hroots.
  { csimpl. by rewrite app_nil_r. }
  cbn [enumerate_from]. case_bool_decide as Hcap.
  { cbn zeta. rewrite take_app_le by lia. do 2 f_equal. symmetry.
    apply bool_decide_eq_true_2. rewrite length_app. lia. }
  destruct (circuit_spec (S (length adj)) (start adj root (cap - length (take cap all))) root)
    as (found & st & Hc & Hp & _); [done|apply start_ready; set_solver|].
  fold (start adj root (cap - length (take cap all))). rewrite Hc. cbn [mbind option_bind snd].
  rewrite (pr_cycles _ _ _ _ Hp), (pr_truncated _ _ _ _ Hp).
  rewrite (take_ge all) in * by lia.
  cbn [start found_cycles remaining CycleSearch.adj CycleSearch.root stack app orb].
  set (R := closings adj root (S (length adj)) [] root).
  specialize (IH (all ++ R) ltac:(set_solver)).
  rewrite take_app, (take_ge all) in IH by lia. rewrite length_app in IH.
  replace (bool_decide (cap - length all < length R))
    with (bool_decide (cap < length all + length R)) by (apply bool_decide_ext; lia).
  rewrite IH. cbn zeta. csimpl. by rewrite <-app_assoc.
Qed.

Lemma enumerate_eq adj cap :
  well_indexed adj →
  enumerate_elementary_cycles adj cap
  = Some (take cap (all_closings adj), bool_decide (cap < length (all_closings adj))).
Proof.
  intros Hwi. unfold enumerate_elementary_cycles.
  pose proof (enumerate_from_spec adj cap (seq 0 (length adj)) [] Hwi) as H.
  rewrite take_nil in H. apply H. intros r Hr%elem_of_seq. lia.
Qed.

Lemma all_closings_NoDup adj :
  well_indexed adj → Forall NoDup adj → NoDup (all_closings adj).
Proof.
  intros Hwi Hnd. apply NoDup_bind.
  - intros r r' c _ _ [q ->]%closings_prefix [q' Hq]%closings_prefix.
    simpl in Hq. congruence.
  - intros r _. by apply closings_NoDup.
  - apply NoDup_seq.
Qed.

Lemma all_closings_elem adj c :
  well_indexed adj → c ∈ all_closings adj ↔ elementary_cycle adj c.
Proof.
  intros Hwi. unfold all_closings. rewrite list_elem_of_bind.
  assert (∀ r, r < length adj →
    c ∈ closings adj r (S (length adj)) [] r ↔
    ∃ q, c = [] ++ r :: q ∧ NoDup c ∧ Forall (λ x, r < x) q
         ∧ chain (edge adj) ((r :: q) ++ [r])) as Helem.
  { intros r Hr. apply closings_elem; simpl; [done|apply NoDup_singleton| |lia].
    by intros x ->%list_elem_of_singleton. }
  split.
  - intros (r & Hc & Hr%elem_of_seq). apply Helem in Hc as (q & -> & ? & ? & ?); [|lia].
    by exists r, q.
  - intros (r & q & -> & ? & ? & Hch). assert (r < length adj) as Hr.
    { destruct (Hch 0 r (default r (head q))) as (succs & Hs & _); [done| |].
      - by destruct q.
      - by apply lookup_lt_Some in Hs. }
    exists r. split; [|apply elem_of_seq; lia]. apply Helem; [done|]. by exists q.
Qed.

(** ** Properties *)

(** Johnson's blocking changes nothing and the cap only cuts: on adjacency lists
    whose entries are vertices the enumeration never runs out of fuel or indexes out
    of bounds, and it returns the first [cap] cycles of the unpruned backtracking
    reference in its order, with the truncation flag set exactly when the reference
    has more than [cap] cycles. *)
Theorem enumerate_is_capped_reference adj cap :
  well_indexed adj →
  enumerate_elementary_cycles adj cap
  = Some (take cap (all_closings adj), bool_decide (cap < length (all_closings adj))).
Proof. apply enumerate_eq. Qed.

(** C1: The enumeration is sound, complete and free of repetitions up to the cap:
    there is a list that holds every elementary cycle of the graph exactly once,
    each starting at its least vertex, of which the result is the first [cap], with
    the flag set exactly when that leaves some out. *)
Theorem enumerate_complete adj cap :
  well_indexed adj → Forall NoDup adj →
  ∃ cycles, NoDup cycles
    ∧ (∀ c, c ∈ cycles ↔ elementary_cycle adj c)
    ∧ enumerate_elementary_cycles adj cap
      = Some (take cap cycles, bool_decide (cap < length cycles)).
Proof.
  intros Hwi Hnd. exists (all_closings adj).
  split_and!; [by apply all_closings_NoDup|intros; by apply all_closings_elem|].
  by apply enumerate_eq.
Qed.

(** Three interlocking cycles, with the cap below their number. *)
Definition demo_adj : list (list nat) := [[1; 2]; [0; 2]; [0; 3]; [1]].

Lemma demo_adj_well_indexed : well_indexed demo_adj.
Proof.
  assert (Forall (Forall (λ w, w < 4)) demo_adj) as H by (repeat constructor).
  intros v succs w Hs Hw. apply (Forall_lookup_1 _ _ _ _ H) in Hs.
  by apply (proj1 (Forall_forall _ _) Hs).
Qed.

Lemma enumerate_is_capped_reference_witness :
  enumerate_elementary_cycles demo_adj 3 = Some ([[0; 1]; [0; 1; 2]; [0; 2]], true).
Proof.
  rewrite (enumerate_is_capped_reference demo_adj 3 demo_adj_well_indexed).
  vm_compute. reflexivity.
Defined.

Lemma enumerate_complete_witness :
  ∃ cycles, (∀ c, c ∈ cycles ↔ elementary_cycle demo_adj c)
    ∧ Some (take 100 cycles, bool_decide (100 < length cycles))
      = Some ([[0; 1]; [0; 1; 2]; [0; 2]; [0; 2; 3; 1]; [1; 2; 3]], false).
Proof.
  destruct (enumerate_complete demo_adj 100 demo_adj_well_indexed) as (cycles & _ & Hc & He).
  - repeat constructor; set_solver.
  - exists cycles. split; [done|]. rewrite <-He. vm_compute. reflexivity.
Defined.
