(* ===== verification/RepoIndex.v ===== *)
(** * Repository ownership and selectors

    [src/src/query/repo.rs]: which repository a record belongs to, and which
    repository a handle given by an operator names. *)
From S2P Require Import Prelude RustStr Ir IrOps Liveness.

(* query/repo.rs 15-28: RepositorySelectorError *)
Inductive RepositorySelectorError : Type :=
| Unknown (selector : string)
| Ambiguous (selector : string) (candidates : list string).

(* query/repo.rs 30-39: RepositorySelectorError::code *)
Definition selector_error_code (self : RepositorySelectorError) : string :=
  match self with
  | Unknown _ => "unknown_repository_selector"
  | Ambiguous _ _ => "ambiguous_repository_selector"
  end.

Module RepositoryEntry.
(* query/repo.rs 43-58: RepositoryEntry *)
Record t : Type := mk {
  display : string;
  selectors : gset string;
  identity : option RepositoryIdentityPayload.t;
  source_snapshot : option SourceSnapshotPayload.t;
  ingested_at : option string
}.
End RepositoryEntry.

Module RecencyKind.
(* query/repo.rs 63-70: RecencyKind *)
Inductive t : Set := Commit | IngestTimestamp.

(* query/repo.rs 72-81: RecencyKind::as_str *)
Definition as_str (self : t) : string :=
  match self with Commit => "commit" | IngestTimestamp => "ingest_timestamp" end.
End RecencyKind.

Module RepositoryCatalogEntry.
(* query/repo.rs 90-118: RepositoryCatalogEntry *)
Record t : Type := mk {
  repository_id : string;
  identity_source : option IdentitySource.t;
  selector : string;
  selector_collision : bool;
  colliding_selector : option string;
  node_count : nat;
  recency_kind : option RecencyKind.t;
  recency_handle : option string
}.
End RepositoryCatalogEntry.

Module RepositoryIndex.
(* query/repo.rs 133-140: RepositoryIndex *)
Record t : Type := mk {
  owner : gmap string string;
  repos : gmap string RepositoryEntry.t;
  highest_version : gmap string string
}.
End RepositoryIndex.

(** ** The repositories *)

(** The index of the last [Repository] write of each id. *)
(* query/repo.rs 165-176: RepositoryIndex::build *)
Definition latest_repo (records : list GraphRecord) : gmap string nat :=
  foldl (λ m entry,
    match entry.2 with
    | Node n => if bool_decide (n.(NodeRec.kind) = NodeKind.Repository)
                then <[n.(NodeRec.id) := entry.1]> m else m
    | _ => m
    end) ∅ (imap pair records).

(** The entry of one repository node. *)
(* query/repo.rs 198-235: RepositoryIndex::build *)
Definition entry_of (n : NodeRec.t) : RepositoryEntry.t :=
  let '(selectors, display) :=
    match n.(NodeRec.repository_identity) with
    | Some payload =>
        (list_to_set (payload.(RepositoryIdentityPayload.basename)
           :: omap id [payload.(RepositoryIdentityPayload.remote_url);
                       payload.(RepositoryIdentityPayload.root_commit_sha);
                       payload.(RepositoryIdentityPayload.canonical_path)]) : gset string,
         or_else n.(NodeRec.name) (Some payload.(RepositoryIdentityPayload.basename)))
    | None => (∅, n.(NodeRec.name))
    end in
  let selectors :=
    match display with Some display_name => {[display_name]} ∪ selectors | None => selectors end in
  let shorts := filter (λ s, s ≠ "") (rsplit_first "/" <$> elements selectors) in
  RepositoryEntry.mk (default n.(NodeRec.id) display)
    (list_to_set shorts ∪ selectors) n.(NodeRec.repository_identity)
    n.(NodeRec.source_snapshot) n.(NodeRec.ingested_at).

(* query/repo.rs 178-236: RepositoryIndex::build *)
Definition build_repos (records : list GraphRecord) : gmap string RepositoryEntry.t :=
  foldl (λ m entry,
    match entry.2 with
    | Node n =>
        if negb (bool_decide (n.(NodeRec.kind) = NodeKind.Repository)) then m
        else if negb (bool_decide (latest_repo records !! n.(NodeRec.id) = Some entry.1)) then m
        else if Liveness.deleted (Liveness.new records) n.(NodeRec.id) then m
        else match m !! n.(NodeRec.id) with
             | Some _ => m
             | None => <[n.(NodeRec.id) := entry_of n]> m
             end
    | _ => m
    end) ∅ (imap pair records).

(** ** Containment *)

(** [entry(k).or_insert(v)]. *)
Definition or_insert {A} (k : string) (v : A) (m : gmap string A) : gmap string A :=
  match m !! k with Some _ => m | None => <[k := v]> m end.

(* query/repo.rs 251-256: RepositoryIndex::build *)
Definition node_kinds (records : list GraphRecord) : gmap string NodeKind.t :=
  foldl (λ m r, match r with
                | Node n => or_insert n.(NodeRec.id) n.(NodeRec.kind) m
                | _ => m end) ∅ records.

(* query/repo.rs 277-283: RepositoryIndex::build *)
Definition is_containment (kinds : gmap string NodeKind.t) (e : EdgeRec.t) : bool :=
  match e.(EdgeRec.label) with
  | EdgeLabel.Contains | EdgeLabel.Defines => true
  | EdgeLabel.Imports => bool_decide (kinds !! e.(EdgeRec.target) = Some NodeKind.Import)
  | _ => false
  end.

(* query/repo.rs 257-291: RepositoryIndex::build *)
Definition containment (records : list GraphRecord) : gmap string (list string) :=
  foldl (λ m entry,
    match entry.2 with
    | Edge e =>
        if negb (is_containment (node_kinds records) e) then m
        else if Liveness.deleted (Liveness.new records) e.(EdgeRec.id)
                || negb (Liveness.is_latest_edge_version (Liveness.new records)
                           e.(EdgeRec.id) entry.1) then m
        else <[e.(EdgeRec.source) :=
                 default [] (m !! e.(EdgeRec.source)) ++ [e.(EdgeRec.target)]]> m
    | _ => m
    end) ∅ (imap pair records).

(** The depth-first walk of one repository. The stack's top is the list's head. *)
(* query/repo.rs 295-306: RepositoryIndex::build *)
Fixpoint own (adjacency : gmap string (list string)) (repo_id : string) (fuel : nat)
    (owner : gmap string string) (stack : list string) : option (gmap string string) :=
  match fuel with
  | O => None
  | S fuel =>
      match stack with
      | [] => Some owner
      | node_id :: stack =>
          let prev := owner !! node_id in
          let owner := <[node_id := repo_id]> owner in
          if bool_decide (prev = Some repo_id) then own adjacency repo_id fuel owner stack
          else own adjacency repo_id fuel owner
                 (reverse (default [] (adjacency !! node_id)) ++ stack)
      end
  end.

(** A step per containment edge and one to see the empty stack. *)
Definition own_fuel (adjacency : gmap string (list string)) : nat :=
  2 + sum_list_with (λ kv : string * list string, length kv.2) (map_to_list adjacency).

(* query/repo.rs 293-307: RepositoryIndex::build *)
Definition own_all (adjacency : gmap string (list string)) (repo_ids : list string)
    : option (gmap string string) :=
  foldl (λ acc repo_id,
    let?o owner := acc in own adjacency repo_id (own_fuel adjacency) owner [repo_id])
    (Some ∅) repo_ids.

(** ** Records off the containment topology *)

(* query/repo.rs 315-330: RepositoryIndex::build *)
Definition file_owners_by_path (records : list GraphRecord) (owner : gmap string string)
    : gmap string (gset string) :=
  foldl (λ m r,
    match r with
    | Node n =>
        match n.(NodeRec.kind), n.(NodeRec.repo_relative_path), owner !! n.(NodeRec.id) with
        | NodeKind.File, Some path, Some repo_id =>
            <[path := {[repo_id]} ∪ default ∅ (m !! path)]> m
        | _, _, _ => m
        end
    | _ => m
    end) ∅ records.

(** The repository a stand-alone diagnostic is attributed to. *)
(* query/repo.rs 333-346: RepositoryIndex::build *)
Definition diagnostic_owner (records : list GraphRecord) (owner : gmap string string)
    (r : GraphRecord) : option (string * string) :=
  match r with
  | Node n =>
      match n.(NodeRec.kind), n.(NodeRec.repo_relative_path) with
      | NodeKind.Diagnostic, Some path =>
          if is_none (owner !! n.(NodeRec.id))
             && negb (Liveness.deleted (Liveness.new records) n.(NodeRec.id)) then
            match file_owners_by_path records owner !! path with
            | Some repos_for_path =>
                match elements repos_for_path with
                | [repo_id] => Some (n.(NodeRec.id), repo_id)
                | _ => None
                end
            | None => None
            end
          else None
      | _, _ => None
      end
  | _ => None
  end.

(* query/repo.rs 331-350: RepositoryIndex::build *)
Definition own_diagnostics (records : list GraphRecord) (owner : gmap string string)
    : gmap string string :=
  foldl (λ m kv, or_insert kv.1 kv.2 m) owner (omap (diagnostic_owner records owner) records).

(* query/repo.rs 355-366: RepositoryIndex::build *)
Definition drift_targets (records : list GraphRecord) : gmap string string :=
  foldl (λ m r,
    match r with
    | Edge e => if bool_decide (e.(EdgeRec.label) = EdgeLabel.DriftsFrom)
                then or_insert e.(EdgeRec.source) e.(EdgeRec.target) m else m
    | _ => m
    end) ∅ records.

(* query/repo.rs 367-395: RepositoryIndex::build *)
Definition own_drift (targets : gmap string string) (owner : gmap string string)
    (r : GraphRecord) : gmap string string :=
  match r with
  | Node n =>
      if negb (bool_decide (n.(NodeRec.kind) = NodeKind.SemanticDrift))
         || is_some (owner !! n.(NodeRec.id)) then owner
      else
        let target := or_else (targets !! n.(NodeRec.id))
          (SemanticDriftMetadata.target_record_id <$> n.(NodeRec.semantic_drift)) in
        let fallback := SemanticDriftMetadata.prior_record_id <$> n.(NodeRec.semantic_drift) in
        match or_else (target ≫= λ t, owner !! t) (fallback ≫= λ t, owner !! t) with
        | Some repo_id => <[n.(NodeRec.id) := repo_id]> owner
        | None => owner
        end
  | _ => owner
  end.

(* query/repo.rs 409-423: RepositoryIndex::build *)
Definition own_log (owner : gmap string string) (r : GraphRecord) : gmap string string :=
  match r with
  | Node n =>
      match n.(NodeRec.log) with
      | Some payload =>
          let repo_id := LogPayload.repository_id payload in
          if negb (repo_id =s? "") then or_insert n.(NodeRec.id) repo_id owner else owner
      | None => owner
      end
  | _ => owner
  end.

(** ** Schema versions of one repository *)

(** The parsed versions of the repositories, by id suffix, in key order. *)
(* query/repo.rs 426-434: RepositoryIndex::build *)
Definition suffix_to_versions (repo_ids : list string) : gmap string (list (N * string)) :=
  foldl (λ m repo_id,
    match parse_codegraph_id repo_id with
    | Some (version, suffix) =>
        <[suffix := default [] (m !! suffix) ++ [(version, repo_id)]]> m
    | None => m
    end) ∅ repo_ids.

(** [versions.iter().max_by_key(|(v, _)| v)]: the last of the greatest. *)
Definition max_by_version (versions : list (N * string)) : option (N * string) :=
  foldl (λ best v,
    match best with
    | Some b => if (b.1 <=? v.1)%N then Some v else Some b
    | None => Some v
    end) None versions.

(* query/repo.rs 435-442: RepositoryIndex::build *)
Definition repo_translation (repo_ids : list string) : gmap string string :=
  foldl (λ m kv,
    match max_by_version kv.2 with
    | Some highest => foldl (λ m v, <[v.2 := highest.2]> m) m kv.2
    | None => m
    end) ∅ (map_to_list (suffix_to_versions repo_ids)).

(** [None] is fuel running out, which [ownership_is_reachability] excludes. *)
(* query/repo.rs 145-456: RepositoryIndex::build *)
Definition build (records : list GraphRecord) : option RepositoryIndex.t :=
  let repos := build_repos records in
  let?o owner := own_all (containment records) (keys repos) in
  let owner := own_diagnostics records owner in
  let owner := foldl (own_drift (drift_targets records)) owner records in
  let owner := foldl own_log owner records in
  let translation := repo_translation (keys repos) in
  Some (RepositoryIndex.mk
    ((λ val, default val (translation !! val)) <$> owner) repos translation).

(** ** Queries *)
Section Queries.
Context (self : RepositoryIndex.t).

(* query/repo.rs 460-462: RepositoryIndex::owner_of *)
Definition owner_of (record_id : string) : option string :=
  self.(RepositoryIndex.owner) !! record_id.

(* query/repo.rs 466-468: RepositoryIndex::display_of *)
Definition display_of (repository_id : string) : option string :=
  RepositoryEntry.display <$> self.(RepositoryIndex.repos) !! repository_id.

(* query/repo.rs 472-474: RepositoryIndex::repository_ids *)
Definition repository_ids : list string := keys self.(RepositoryIndex.repos).

(** The repositories that answer to the handle, in key order. *)
(* query/repo.rs 493-498: RepositoryIndex::resolve_selector *)
Definition matching (selector : string) : list string :=
  filter (λ id, selector ∈ default ∅ (RepositoryEntry.selectors <$>
                                      self.(RepositoryIndex.repos) !! id))
    repository_ids.

(** The greatest version of each id suffix; [None] when an id does not parse. *)
(* query/repo.rs 502-515: RepositoryIndex::resolve_selector *)
Fixpoint version_groups (candidates : list string) (groups : gmap string (N * string))
    : option (gmap string (N * string)) :=
  match candidates with
  | [] => Some groups
  | candidate :: candidates =>
      match parse_codegraph_id candidate with
      | Some (version, suffix) =>
          let entry := default (0%N, "") (groups !! suffix) in
          version_groups candidates
            (<[suffix := if (entry.1 <? version)%N then (version, candidate) else entry]> groups)
      | None => None
      end
  end.

(* query/repo.rs 501-520: RepositoryIndex::resolve_selector *)
Definition dedup_versions (candidates : list string) : list string :=
  if bool_decide (1 < length candidates) then
    match version_groups candidates ∅ with
    | Some groups => str_sort ((λ kv : string * (N * string), kv.2.2) <$> map_to_list groups)
    | None => candidates
    end
  else candidates.

(* query/repo.rs 489-542: RepositoryIndex::resolve_selector *)
Definition resolve_selector (selector : string) : result string RepositorySelectorError :=
  let? resolved :=
    (if is_some (self.(RepositoryIndex.repos) !! selector) then Ok selector
     else
       match dedup_versions (matching selector) with
       | [] => Err (Unknown selector)
       | [single] => Ok single
       | candidates => Err (Ambiguous selector candidates)
       end) in
  Ok (default resolved (self.(RepositoryIndex.highest_version) !! resolved)).

(* query/repo.rs 626-645: RepositoryIndex::catalog_recency *)
Definition catalog_recency (entry : RepositoryEntry.t)
    : option RecencyKind.t * option string :=
  let commit_sha := entry.(RepositoryEntry.source_snapshot) ≫= λ snapshot,
    match snapshot.(SourceSnapshotPayload.head) with
    | SnapshotHead.Commit sha => Some sha
    | SnapshotHead.NoGit | SnapshotHead.UnbornHead => None
    end in
  match commit_sha with
  | Some sha => (Some RecencyKind.Commit, Some sha)
  | None =>
      match entry.(RepositoryEntry.ingested_at) with
      | Some ingested_at => (Some RecencyKind.IngestTimestamp, Some ingested_at)
      | None => (None, None)
      end
  end.

(* query/repo.rs 588-621: RepositoryIndex::catalog_entry *)
Definition catalog_entry (id : string) : option RepositoryCatalogEntry.t :=
  let?o entry := self.(RepositoryIndex.repos) !! id in
  let '(selector, colliding_selector) :=
    match resolve_selector entry.(RepositoryEntry.display) with
    | Ok resolved =>
        if resolved =s? id then (entry.(RepositoryEntry.display), None)
        else (id, Some entry.(RepositoryEntry.display))
    | Err _ => (id, Some entry.(RepositoryEntry.display))
    end in
  let node_count :=
    length (filter (λ kv, kv.2 = id) (map_to_list self.(RepositoryIndex.owner))) in
  let '(recency_kind, recency_handle) := catalog_recency entry in
  Some (RepositoryCatalogEntry.mk id
    (RepositoryIdentityPayload.identity_source <$> entry.(RepositoryEntry.identity))
    selector (is_some colliding_selector) colliding_selector node_count
    recency_kind recency_handle).

(** The current view of every repository. *)
(* query/repo.rs 573-579: RepositoryIndex::catalog *)
Definition current_ids : gset string :=
  list_to_set ((map_to_list self.(RepositoryIndex.highest_version)).*2)
  ∪ filter (λ id, self.(RepositoryIndex.highest_version) !! id = None)
      (dom self.(RepositoryIndex.repos)).

(* query/repo.rs 567-584: RepositoryIndex::catalog *)
Definition catalog : list RepositoryCatalogEntry.t :=
  omap catalog_entry (str_sort (elements current_ids)).

End Queries.

(** ** The ownership walk *)
Section Walk.
Context (adjacency : gmap string (list string)).

Definition contains (x y : string) : Prop := y ∈ default [] (adjacency !! x).

Section OneRepo.
Context (repo_id : string).

(** The containment edges of the records the walk has not visited. *)
Definition weight (owner : gmap string string) (kv : string * list string) : nat :=
  if bool_decide (owner !! kv.1 = Some repo_id) then 0 else length kv.2.
Definition unvisited (owner : gmap string string) : nat :=
  sum_list_with (weight owner) (map_to_list adjacency).

Lemma weight_insert owner x kv :
  kv.1 ≠ x → weight (<[x := repo_id]> owner) kv = weight owner kv.
Proof. intros Hne. unfold weight. by rewrite lookup_insert_ne. Qed.

Lemma sum_list_with_ext {A} (f g : A → nat) l :
  (∀ x, x ∈ l → f x = g x) → sum_list_with f l = sum_list_with g l.
Proof.
  induction l as [|x l IH]; intros H; simpl; [done|].
  rewrite (H x) by (by left). rewrite IH; [done|]. intros y Hy. apply H. by right.
Qed.

Lemma sum_drop_key (f g : string * list string → nat) (l : list (string * list string)) x v :
  NoDup l.*1 → (x, v) ∈ l → g (x, v) = 0 → (∀ kv, kv.1 ≠ x → g kv = f kv) →
  sum_list_with g l + f (x, v) = sum_list_with f l.
Proof.
  intros Hnd Hin Hgx Hg. induction l as [|[y w] l IH]; [by apply elem_of_nil in Hin|].
  simpl in *. apply NoDup_cons in Hnd as [Hy Hnd]. apply elem_of_cons in Hin as [[= <- <-]|Hin].
  - rewrite Hgx, (sum_list_with_ext g f l); [lia|]. intros kv Hkv. apply Hg.
    intros <-. apply Hy. by apply list_elem_of_fmap_2.
  - rewrite (Hg (y, w)); [rewrite <-IH by done; lia|]. simpl. intros ->. apply Hy.
    apply list_elem_of_fmap. by exists (x, v).
Qed.

Lemma unvisited_visit owner x :
  owner !! x ≠ Some repo_id →
  length (default [] (adjacency !! x)) + unvisited (<[x := repo_id]> owner) = unvisited owner.
Proof.
  intros Hx. unfold unvisited. destruct (adjacency !! x) as [v|] eqn:Hv; simpl.
  - assert (length v = weight owner (x, v)) as ->
      by (unfold weight; by rewrite bool_decide_eq_false_2).
    rewrite Nat.add_comm. apply sum_drop_key.
    + apply NoDup_fst_map_to_list.
    + by apply elem_of_map_to_list.
    + unfold weight. simpl. by rewrite bool_decide_eq_true_2 by (by rewrite lookup_insert_eq).
    + intros kv Hne. by apply weight_insert.
  - apply sum_list_with_ext. intros [y w] Hin%elem_of_map_to_list. apply weight_insert.
    simpl. congruence.
Qed.

(** The walk's state against the records it started from. *)
Record walk_inv (owner0 owner : gmap string string) (stack : list string) : Prop := {
  wi_other x : owner !! x ≠ Some repo_id → owner !! x = owner0 !! x;
  wi_owned x : owner !! x = Some repo_id → rtc contains repo_id x;
  wi_stack x : x ∈ stack → rtc contains repo_id x;
  wi_closed x y : owner !! x = Some repo_id → contains x y →
    y ∈ stack ∨ owner !! y = Some repo_id;
  wi_start : repo_id ∈ stack ∨ owner !! repo_id = Some repo_id
}.

(** What one repository's walk does to the owners. *)
Definition claimed (owner0 owner : gmap string string) : Prop :=
  ∀ x, (owner !! x = Some repo_id ↔ rtc contains repo_id x)
       ∧ (owner !! x ≠ Some repo_id → owner !! x = owner0 !! x).

Lemma walk_inv_end owner0 owner : walk_inv owner0 owner [] → claimed owner0 owner.
Proof.
  intros [Ho Hw _ Hc Hs] x. split; [split; [apply Hw|]|apply Ho].
  - intros Hr. revert x Hr. apply rtc_ind_r.
    + destruct Hs as [?%elem_of_nil|]; done.
    + intros y z _ Hyz IH. destruct (Hc y z IH Hyz) as [?%elem_of_nil|]; done.
Qed.

Lemma own_spec fuel owner0 owner stack :
  walk_inv owner0 owner stack → length stack + unvisited owner < fuel →
  ∃ owner', own adjacency repo_id fuel owner stack = Some owner' ∧ claimed owner0 owner'.
Proof.
  revert owner stack. induction fuel as [|fuel IH]; intros owner stack Hinv Hfuel; [lia|].
  cbn [own]. destruct stack as [|x stack].
  { exists owner. split; [done|]. by apply walk_inv_end. }
  destruct Hinv as [Ho Hw Hst Hc Hs]. simpl in Hfuel. case_bool_decide as Hx.
  - rewrite insert_id by done. apply IH; [|lia].
    split; [done|done|set_solver| |].
    + intros y z Hy Hyz. destruct (Hc y z Hy Hyz) as [[->|?]%elem_of_cons|?]; auto.
    + destruct Hs as [[->|?]%elem_of_cons|?]; auto.
  - apply IH.
    + split.
      * intros y. destruct (decide (y = x)) as [->|]; [by rewrite lookup_insert_eq|].
        rewrite lookup_insert_ne by done. apply Ho.
      * intros y. rewrite lookup_insert_Some. intros [[<- _]|[_ ?]]; [apply Hst; by left|auto].
      * intros y. rewrite elem_of_app, elem_of_reverse. intros [Hy|Hy]; [|set_solver].
        eapply rtc_r; [apply Hst; by left|done].
      * intros y z. rewrite elem_of_app, elem_of_reverse, lookup_insert_Some.
        intros [[<- _]|[_ Hy]] Hyz; [by left; left|].
        destruct (Hc y z Hy Hyz) as [[->|?]%elem_of_cons|?];
          [by right; rewrite lookup_insert_eq|by left; right|].
        right. destruct (decide (z = x)) as [->|]; [by rewrite lookup_insert_eq|].
        by rewrite lookup_insert_ne.
      * destruct (decide (repo_id = x)) as [Heq|Hne]; [right; by rewrite Heq, lookup_insert_eq|].
        destruct Hs as [[?|?]%elem_of_cons|?]; [done|left; set_solver|].
        right. by rewrite lookup_insert_ne.
    + rewrite length_app, length_reverse. pose proof (unvisited_visit owner x Hx). lia.
Qed.

End OneRepo.

(** [r] is the last repository of [ids] that contains [x]. *)
Definition last_containing (ids : list string) (x r : string) : Prop :=
  ∃ i, ids !! i = Some r ∧ rtc contains r x
    ∧ ∀ j r', i < j → ids !! j = Some r' → ¬ rtc contains r' x.

Lemma last_containing_snoc ids repo_id x r :
  last_containing (ids ++ [repo_id]) x r ↔
  (r = repo_id ∧ rtc contains repo_id x)
  ∨ (¬ rtc contains repo_id x ∧ last_containing ids x r).
Proof.
  split.
  - intros (i & Hi & Hr & Hl). apply lookup_app_Some in Hi as [Hi|[Hle Hi]].
    + right. split.
      * apply (Hl (length ids)); [by apply lookup_lt_Some in Hi|].
        by rewrite list_lookup_middle.
      * exists i. split_and!; [done..|]. intros j r' Hij Hj. apply (Hl j r' Hij).
        by apply lookup_app_l_Some.
    + apply list_lookup_singleton_Some in Hi as [_ ->]. by left.
  - intros [[-> Hr]|(Hn & i & Hi & Hr & Hl)].
    + exists (length ids). split_and!; [by rewrite list_lookup_middle|done|].
      intros j r' Hj Hj'. apply lookup_lt_Some in Hj'. rewrite length_app in Hj'. simpl in Hj'. lia.
    + exists i. split_and!; [by apply lookup_app_l_Some|done|].
      intros j r' Hij Hj. apply lookup_app_Some in Hj as [Hj|[_ Hj]]; [by eapply Hl|].
      by apply list_lookup_singleton_Some in Hj as [_ <-].
Qed.

Lemma own_all_spec ids :
  NoDup ids →
  ∃ owner, own_all adjacency ids = Some owner
    ∧ ∀ x r, owner !! x = Some r ↔ last_containing ids x r.
Proof.
  induction ids as [|repo_id ids IH] using rev_ind; intros Hnd.
  { exists ∅. split; [done|]. intros x r. rewrite lookup_empty.
    split; [done|]. by intros (i & Hi & _). }
  apply NoDup_app in Hnd as (Hnd & Hnotin & _). destruct (IH Hnd) as (owner0 & Hf & Ho).
  unfold own_all in *. rewrite foldl_app, Hf. cbn [foldl mbind option_bind].
  assert (∀ x, owner0 !! x ≠ Some repo_id) as Hfresh.
  { intros x (i & Hi & _)%Ho. apply (Hnotin repo_id); [by eapply list_elem_of_lookup_2|by left]. }
  destruct (own_spec repo_id (own_fuel adjacency) owner0 owner0 [repo_id]) as (owner & -> & Hc).
  - split; [done|naive_solver| |naive_solver|by left; left].
    intros x ->%list_elem_of_singleton. done.
  - unfold own_fuel, unvisited. cbn [length].
    assert (∀ l, sum_list_with (weight repo_id owner0) l
      ≤ sum_list_with (λ kv : string * list string, length kv.2) l) as Hle.
    { induction l as [|kv l IHl]; simpl; [done|]. unfold weight at 1. case_bool_decide; lia. }
    specialize (Hle (map_to_list adjacency)). lia.
  - exists owner. split; [done|]. intros x r. rewrite last_containing_snoc.
    destruct (Hc x) as [Hrepo Hother]. split.
    + intros Hx. destruct (decide (r = repo_id)) as [->|Hne]; [left; naive_solver|].
      right. split; [naive_solver|]. apply Ho. rewrite <-Hother; [done|congruence].
    + intros [[-> Hr]|[Hn Hl]]; [by apply Hrepo|].
      rewrite Hother; [by apply Ho|naive_solver].
Qed.

End Walk.

(** ** Containment over the records *)

(** A live, latest containment edge of the records leads from [x] to [y]. *)
Definition containment_edge (records : list GraphRecord) (x y : string) : Prop :=
  ∃ i e, records !! i = Some (Edge e)
    ∧ e.(EdgeRec.source) = x ∧ e.(EdgeRec.target) = y
    ∧ (e.(EdgeRec.label) ∈ [EdgeLabel.Contains; EdgeLabel.Defines]
       ∨ e.(EdgeRec.label) = EdgeLabel.Imports
         ∧ node_kinds records !! y = Some NodeKind.Import)
    ∧ Liveness.deleted (Liveness.new records) e.(EdgeRec.id) = false
    ∧ Liveness.is_latest_edge_version (Liveness.new records) e.(EdgeRec.id) i = true.

Lemma is_containment_spec kinds e :
  is_containment kinds e = true ↔
    e.(EdgeRec.label) ∈ [EdgeLabel.Contains; EdgeLabel.Defines]
    ∨ e.(EdgeRec.label) = EdgeLabel.Imports
      ∧ kinds !! e.(EdgeRec.target) = Some NodeKind.Import.
Proof.
  unfold is_containment. rewrite !elem_of_cons, elem_of_nil.
  destruct e.(EdgeRec.label); try (split; [by eauto|naive_solver]); try naive_solver.
  rewrite bool_decide_eq_true. naive_solver.
Qed.

Lemma contains_spec records x y :
  contains (containment records) x y ↔ containment_edge records x y.
Proof.
  set (f := λ entry : nat * GraphRecord,
    match entry.2 with
    | Edge e =>
        if is_containment (node_kinds records) e
           && negb (Liveness.deleted (Liveness.new records) e.(EdgeRec.id))
           && Liveness.is_latest_edge_version (Liveness.new records) e.(EdgeRec.id) entry.1
        then Some (e.(EdgeRec.source), e.(EdgeRec.target)) else None
    | _ => None
    end).
  unfold contains, containment.
  rewrite (foldl_ext_elem _ (λ m a, match f a with
             | Some (k, v) => <[k := default [] (m !! k) ++ [v]]> m | None => m end)).
  2: { intros m [i [|e|]] _; cbn; [done| |done].
       destruct (is_containment _ e), (Liveness.deleted _ _),
         (Liveness.is_latest_edge_version _ _ _); done. }
  rewrite foldl_push. split.
  - intros ([i r] & Hin%elem_of_imap_pair & Hf). destruct r as [|e|]; [done| |done].
    cbn in Hf. case_match eqn:Hc; [|done]. simplify_eq. breflect.
    exists i, e. split_and!; try done. by apply is_containment_spec.
  - intros (i & e & Hi & <- & <- & Hc & Hd & Hl). exists (i, Edge e).
    split; [by apply elem_of_imap_pair|]. cbn.
    by rewrite (proj2 (is_containment_spec _ _) Hc), Hd, Hl.
Qed.

(** ** The later attributions only add owners *)

(** [m'] extends [m] at ids that satisfy [P]. *)
Definition grows {A} (P : string → Prop) (m m' : gmap string A) : Prop :=
  m ⊆ m' ∧ ∀ x, is_Some (m' !! x) → is_Some (m !! x) ∨ P x.

Lemma grows_refl {A} P (m : gmap string A) : grows P m m.
Proof. split; [done|]. auto. Qed.

Lemma grows_trans {A} P (a b c : gmap string A) : grows P a b → grows P b c → grows P a c.
Proof. intros [H1 H2] [H3 H4]. split; [by etrans|]. intros x [Hx|Hx]%H4; auto. Qed.

Lemma grows_insert {A} (P : string → Prop) (m : gmap string A) k v :
  m !! k = None → P k → grows P m (<[k := v]> m).
Proof.
  intros Hk HP. split; [by apply insert_subseteq|]. intros x.
  rewrite lookup_insert_is_Some. intros [->|[_ ?]]; auto.
Qed.

Lemma grows_or_insert {A} (P : string → Prop) (m : gmap string A) k v :
  P k → grows P m (or_insert k v m).
Proof.
  intros HP. unfold or_insert. destruct (m !! k) eqn:Hk; [apply grows_refl|by apply grows_insert].
Qed.

Lemma grows_foldl {A B} P (f : gmap string A → B → gmap string A) (l : list B) (m : gmap string A) :
  (∀ m x, x ∈ l → grows P m (f m x)) → grows P m (foldl f m l).
Proof.
  revert m. induction l as [|x l IH]; intros m Hf; [apply grows_refl|].
  eapply grows_trans; [apply (Hf m x); by left|]. apply IH. intros m' y Hy.
  apply Hf. by right.
Qed.

(** A node that is attributed by other means than containment. *)
Definition attributable (records : list GraphRecord) (x : string) : Prop :=
  ∃ n, Node n ∈ records ∧ n.(NodeRec.id) = x
    ∧ (n.(NodeRec.kind) = NodeKind.Diagnostic ∨ n.(NodeRec.kind) = NodeKind.SemanticDrift
       ∨ is_Some n.(NodeRec.log)).

Lemma own_diagnostics_grows records owner :
  grows (attributable records) owner (own_diagnostics records owner).
Proof.
  apply grows_foldl. intros m [x r] Hx. apply grows_or_insert.
  apply list_elem_of_omap in Hx as (rec & Hr & Hd). unfold diagnostic_owner in Hd.
  destruct rec as [n| |]; [|done..]. exists n. repeat case_match; simplify_eq; auto.
Qed.

Lemma own_drift_grows records targets owner :
  grows (attributable records) owner (foldl (own_drift targets) owner records).
Proof.
  apply grows_foldl. intros m r Hr. unfold own_drift.
  destruct r as [n| |]; [|apply grows_refl..].
  destruct (negb _ || _) eqn:Hc; [apply grows_refl|]. breflect.
  case_match; [|apply grows_refl]. apply grows_insert.
  - by destruct (m !! _).
  - exists n. auto.
Qed.

Lemma own_log_grows records owner :
  grows (attributable records) owner (foldl own_log owner records).
Proof.
  apply grows_foldl. intros m r Hr. unfold own_log.
  destruct r as [n| |]; [|apply grows_refl..].
  destruct n.(NodeRec.log) as [payload|] eqn:Hl; [|apply grows_refl].
  case_match; [|apply grows_refl]. apply grows_or_insert. exists n. eauto.
Qed.

(** ** Schema versions *)

Definition at_version (id suffix : string) (version : N) : Prop :=
  parse_codegraph_id id = Some (version, suffix).

Lemma max_by_version_spec l x :
  x ∈ l → ∃ b, max_by_version l = Some b ∧ b ∈ l ∧ ∀ y, y ∈ l → (y.1 ≤ b.1)%N.
Proof.
  intros Hx. unfold max_by_version.
  assert (∀ l acc, ∃ b, foldl (λ (best : option (N * string)) (v : N * string),
      match best with
      | Some b => if (b.1 <=? v.1)%N then Some v else Some b
      | None => Some v
      end) (Some acc) l = Some b ∧ b ∈ acc :: l ∧ ∀ y, y ∈ acc :: l → (y.1 ≤ b.1)%N) as Hgen.
  { clear. induction l as [|z l IH]; intros acc; cbn [foldl].
    - exists acc. split_and!; [done|by left|]. by intros y ->%list_elem_of_singleton.
    - destruct (N.leb_spec acc.1 z.1) as [Hle|Hlt].
      + destruct (IH z) as (b & -> & Hb & Hm). exists b. split_and!; [done|set_solver|].
        intros y [->|Hy]%elem_of_cons; [|by apply Hm]. etrans; [done|]. apply Hm. by left.
      + destruct (IH acc) as (b & -> & Hb & Hm). exists b. split_and!; [done|set_solver|].
        intros y [->|[->|Hy]%elem_of_cons]%elem_of_cons; [apply Hm; by left| |].
        * etrans; [by apply N.lt_le_incl|]. apply Hm. by left.
        * apply Hm. by right. }
  destruct l as [|y l]; [by apply elem_of_nil in Hx|]. apply Hgen.
Qed.

Lemma suffix_to_versions_spec ids v id s :
  (v, id) ∈ default [] (suffix_to_versions ids !! s) ↔ id ∈ ids ∧ at_version id s v.
Proof.
  unfold suffix_to_versions.
  rewrite (foldl_ext_elem _ (λ m a,
    match (λ id, (λ vs : N * string, (vs.2, (vs.1, id))) <$> parse_codegraph_id id) a with
    | Some (k, v) => <[k := default [] (m !! k) ++ [v]]> m | None => m end)).
  2: { intros m x _. cbn. by destruct (parse_codegraph_id x) as [[? ?]|]. }
  rewrite foldl_push. unfold at_version. split.
  - intros (a & Ha & Hf). cbn in Hf. destruct (parse_codegraph_id a) as [[v' s']|] eqn:Hp; [|done].
    cbn in Hf. by simplify_eq.
  - intros [Hin Hp]. exists id. split; [done|]. cbn. by rewrite Hp.
Qed.

Lemma suffix_to_versions_Some ids s versions :
  suffix_to_versions ids !! s = Some versions →
  ∀ v id, (v, id) ∈ versions ↔ id ∈ ids ∧ at_version id s v.
Proof. intros Hs v id. by rewrite <-suffix_to_versions_spec, Hs. Qed.

(** Every repository with a parsed version is sent to the greatest version of its
    suffix, which is sent to itself. *)
Lemma repo_translation_spec ids id h :
  repo_translation ids !! id = Some h ↔
  ∃ s versions v v', suffix_to_versions ids !! s = Some versions ∧ (v, id) ∈ versions
    ∧ max_by_version versions = Some (v', h).
Proof.
  unfold repo_translation.
  assert (∀ L : list (string * list (N * string)),
    (∀ s vs s' vs' v v' i, (s, vs) ∈ L → (s', vs') ∈ L → (v, i) ∈ vs → (v', i) ∈ vs' →
       vs = vs') →
    foldl (λ (m : gmap string string) kv,
      match max_by_version kv.2 with
      | Some highest => foldl (λ m v, <[v.2 := highest.2]> m) m kv.2
      | None => m
      end) ∅ L !! id = Some h ↔
    ∃ s vs v v', (s, vs) ∈ L ∧ (v, id) ∈ vs ∧ max_by_version vs = Some (v', h)) as Hgen.
  { induction L as [|[s vs] L IH] using rev_ind; intros Hdis.
    { cbn [foldl]. rewrite lookup_empty. split; [done|].
      by intros (? & ? & ? & ? & ?%elem_of_nil & _). }
    rewrite foldl_app. cbn [foldl snd].
    set (m := foldl _ ∅ L) in *.
    assert (∀ g (m0 : gmap string string) (l : list (N * string)),
      foldl (λ m v, <[v.2 := g]> m) m0 l !! id
      = if decide (id ∈ l.*2) then Some g else m0 !! id) as Hinner.
    { clear. intros g m0 l. revert m0. induction l as [|[v i] l IHl]; intros m0; csimpl; [done|].
      rewrite IHl. destruct (decide (id ∈ l.*2)) as [Hin|Hin].
      - by rewrite decide_True by (by right).
      - destruct (decide (id = i)) as [->|Hne].
        + rewrite lookup_insert_eq. by rewrite decide_True by (by left).
        + rewrite lookup_insert_ne by done. rewrite decide_False; [done|].
          by rewrite not_elem_of_cons. }
    assert (m !! id = Some h ↔ ∃ s vs v v', (s, vs) ∈ L ∧ (v, id) ∈ vs
      ∧ max_by_version vs = Some (v', h)) as IH'.
    { apply IH. intros. eapply Hdis; [| |done..]; by apply elem_of_app; left. }
    clear IH. destruct (decide (id ∈ vs.*2)) as [Hin|Hin].
    - apply list_elem_of_fmap in Hin as ([v i] & Hi & Hin). simpl in Hi. subst i.
      destruct (max_by_version_spec vs _ Hin) as ([w g] & Hmax & _ & _). rewrite Hmax, Hinner.
      rewrite decide_True by (apply list_elem_of_fmap; by exists (v, id)). split.
      + intros [= <-]. exists s, vs, v, w. split_and!; [set_solver|done..].
      + intros (s' & vs' & v' & w' & Hl & Hv' & Hmax').
        assert (vs' = vs) as ->; [|rewrite Hmax in Hmax'; by simplify_eq/=].
        apply (Hdis s' vs' s vs v' v id); [done|apply elem_of_app; right; by left|done|done].
    - assert (match max_by_version vs with
        | Some highest => foldl (λ m v, <[v.2 := highest.2]> m) m vs
        | None => m end !! id = m !! id) as ->.
      { destruct (max_by_version vs); [|done]. by rewrite Hinner, decide_False. }
      rewrite IH'. split.
      + intros (s' & vs' & v' & w' & ? & ? & ?). exists s', vs', v', w'. set_solver.
      + intros (s' & vs' & v' & w' & [?|[= -> ->]%list_elem_of_singleton]%elem_of_app & Hv & ?).
        * by exists s', vs', v', w'.
        * destruct Hin. apply list_elem_of_fmap. by exists (v', id). }
  rewrite Hgen.
  - setoid_rewrite elem_of_map_to_list. done.
  - intros s vs s' vs' v v' i Hs%elem_of_map_to_list Hs'%elem_of_map_to_list Hv Hv'.
    apply (suffix_to_versions_Some _ _ _ Hs) in Hv as [_ Hv].
    apply (suffix_to_versions_Some _ _ _ Hs') in Hv' as [_ Hv'].
    unfold at_version in *. congruence.
Qed.

(** The id a repository is reported under: its greatest version. *)
Definition current (self : RepositoryIndex.t) (id : string) : string :=
  default id (self.(RepositoryIndex.highest_version) !! id).

Lemma translation_closed ids id h :
  repo_translation ids !! id = Some h → h ∈ ids ∧ repo_translation ids !! h = Some h.
Proof.
  intros (s & vs & v & v' & Hs & Hv & Hmax)%repo_translation_spec.
  destruct (max_by_version_spec vs _ Hv) as (b & Hb & Hin & _).
  rewrite Hmax in Hb. simplify_eq.
  split; [by apply (suffix_to_versions_Some _ _ _ Hs) in Hin as [? _]|].
  apply repo_translation_spec. by exists s, vs, v', v'.
Qed.

Lemma build_eq records :
  ∃ owner, own_all (containment records) (keys (build_repos records)) = Some owner
    ∧ (∀ x r, owner !! x = Some r ↔
              last_containing (containment records) (keys (build_repos records)) x r)
    ∧ ∃ owner', grows (attributable records) owner owner'
      ∧ build records = Some (RepositoryIndex.mk
          ((λ val, default val (repo_translation (keys (build_repos records)) !! val)) <$> owner')
          (build_repos records) (repo_translation (keys (build_repos records)))).
Proof.
  destruct (own_all_spec (containment records) (keys (build_repos records)) (keys_NoDup _))
    as (owner & Hown & Hspec).
  exists owner. split_and!; [done..|]. unfold build. rewrite Hown. cbn [mbind option_bind].
  eexists. split; [|done]. eapply grows_trans; [apply own_diagnostics_grows|].
  eapply grows_trans; [apply own_drift_grows|apply own_log_grows].
Qed.

(** ** Selectors *)

Definition answers (self : RepositoryIndex.t) (id selector : string) : Prop :=
  ∃ entry, self.(RepositoryIndex.repos) !! id = Some entry
           ∧ selector ∈ entry.(RepositoryEntry.selectors).

(** Two ids of one repository under possibly different schema versions. *)
Definition same_repository (a b : string) : Prop :=
  a = b ∨ ∃ s v w, at_version a s v ∧ at_version b s w.

(** Schema versions start at 1. *)
Definition versions_positive (self : RepositoryIndex.t) : Prop :=
  ∀ id s v, is_Some (self.(RepositoryIndex.repos) !! id) → at_version id s v → (0 < v)%N.

Lemma matching_spec self id selector : id ∈ matching self selector ↔ answers self id selector.
Proof.
  unfold matching, answers, repository_ids. rewrite list_elem_of_filter, keys_elem.
  destruct (RepositoryIndex.repos self !! id) as [entry|]; simpl.
  - split; [|naive_solver]. intros [? _]. eauto.
  - split; [by intros [_ [? ?]]|by intros (? & ? & _)].
Qed.

Lemma version_groups_spec cs pre (groups0 : gmap string (N * string)) :
  (∀ c s v, c ∈ cs → at_version c s v → (0 < v)%N) →
  (∀ s g, groups0 !! s = Some g → g.2 ∈ pre ∧ at_version g.2 s g.1) →
  (∀ c, c ∈ pre → ∃ s v g, at_version c s v ∧ groups0 !! s = Some g) →
  match version_groups cs groups0 with
  | Some groups =>
      (∀ s g, groups !! s = Some g → g.2 ∈ pre ++ cs ∧ at_version g.2 s g.1)
      ∧ (∀ c, c ∈ pre ++ cs → ∃ s v g, at_version c s v ∧ groups !! s = Some g)
  | None => ∃ c, c ∈ cs ∧ parse_codegraph_id c = None
  end.
Proof.
  revert pre groups0. induction cs as [|c cs IH]; intros pre groups0 Hpos H1 H2; cbn [version_groups].
  { by rewrite app_nil_r. }
  destruct (parse_codegraph_id c) as [[v s]|] eqn:Hp; [|exists c; split; [by left|done]].
  set (groups1 := <[s := _]> groups0).
  assert (∀ s' g, groups1 !! s' = Some g → g.2 ∈ pre ++ [c] ∧ at_version g.2 s' g.1) as H1'.
  { intros s' g. unfold groups1. rewrite lookup_insert_Some. intros [[<- <-]|[_ Hg]].
    - destruct (groups0 !! s) as [e|] eqn:He; cbn [default from_option id].
      + destruct (H1 _ _ He). case_match; split; try done; set_solver.
      + assert (0 < v)%N as Hv by (by apply (Hpos c s v); [left|]).
        cbn. rewrite (proj2 (N.ltb_lt _ _) Hv). split; [set_solver|done].
    - destruct (H1 _ _ Hg). split; [set_solver|done]. }
  assert (∀ c', c' ∈ pre ++ [c] → ∃ s v g, at_version c' s v ∧ groups1 !! s = Some g) as H2'.
  { intros c' [Hc'| ->%list_elem_of_singleton]%elem_of_app.
    - destruct (H2 _ Hc') as (s' & v' & g & Hv' & Hg). exists s', v'. unfold groups1.
      destruct (decide (s' = s)) as [->|]; [rewrite lookup_insert_eq; eauto|].
      rewrite lookup_insert_ne by done. eauto.
    - exists s, v. unfold groups1. rewrite lookup_insert_eq. eauto. }
  specialize (IH (pre ++ [c]) groups1 ltac:(intros; eapply Hpos; [by right|done]) H1' H2').
  destruct (version_groups cs groups1) as [groups|].
  - by rewrite <-app_assoc in IH.
  - destruct IH as (c' & ? & ?). exists c'. split; [by right|done].
Qed.

(** The deduplicated candidates: all of them answer; there is none only if nothing
    answers; a single one stands for all that answer; two are different
    repositories. *)
Lemma dedup_versions_spec self selector :
  versions_positive self →
  let cs := dedup_versions (matching self selector) in
  (∀ c, c ∈ cs → answers self c selector)
  ∧ (∀ c, answers self c selector → ∃ c', c' ∈ cs ∧ same_repository c c')
  ∧ (1 < length cs → ∃ c c', c ∈ cs ∧ c' ∈ cs ∧ ¬ same_repository c c').
Proof.
  intros Hpos. cbn zeta. setoid_rewrite <-matching_spec. unfold dedup_versions.
  assert (NoDup (matching self selector)) as Hnd
    by (apply NoDup_filter, keys_NoDup).
  assert (∀ c, c ∈ matching self selector → ∃ c', c' ∈ matching self selector
    ∧ same_repository c c') as Hself by (intros c Hc; exists c; split; [done|by left]).
  case_bool_decide as Hlen; [|split_and!; [done|done|lia]].
  pose proof (version_groups_spec (matching self selector) [] ∅) as Hg.
  destruct (version_groups _ ∅) as [groups|].
  - destruct Hg as [H1 H2]; [|by intros ??; rewrite lookup_empty|by intros ? ?%elem_of_nil|].
    { intros c s v (entry & Hc & _)%matching_spec. apply Hpos. by rewrite Hc. }
    simpl in H1, H2.
    assert (∀ c, c ∈ str_sort ((λ kv : string * (N * string), kv.2.2) <$> map_to_list groups)
      ↔ ∃ s v, groups !! s = Some (v, c)) as Hin.
    { intros c. rewrite str_sort_perm, list_elem_of_fmap. split.
      - intros ([s [v c']] & -> & Hs%elem_of_map_to_list). eauto.
      - intros (s & v & Hs). exists (s, (v, c)). split; [done|]. by apply elem_of_map_to_list. }
    split_and!.
    + intros c (s & v & Hs)%Hin. by apply (H1 _ _ Hs).
    + intros c (s & v & [w c'] & Hv & Hs)%H2. exists c'. split; [apply Hin; eauto|].
      right. exists s, v, w. split; [done|]. by apply (H1 _ _ Hs).
    + rewrite str_sort_perm, length_fmap. intros Hl.
      destruct (map_to_list groups) as [|[s [v c]] [|[s' [v' c']] l]] eqn:Hml;
        simpl in Hl; [lia..|].
      assert (groups !! s = Some (v, c) ∧ groups !! s' = Some (v', c') ∧ s ≠ s') as (Hs & Hs' & Hne).
      { rewrite <-!elem_of_map_to_list, Hml. split_and!; [by left|by right; left|].
        pose proof (NoDup_fst_map_to_list groups) as Hn. rewrite Hml in Hn.
        cbn in Hn. apply NoDup_cons in Hn as [Hn _]. set_solver. }
      exists c, c'. split_and!; [apply Hin; eauto..|].
      apply H1 in Hs as [_ Hs], Hs' as [_ Hs']. cbn in Hs, Hs'. unfold at_version in *.
      intros [->|(? & ? & ? & ? & ?)]; unfold at_version in *; congruence.
  - destruct Hg as (c & Hc & Hp); [|by intros ??; rewrite lookup_empty|by intros ? ?%elem_of_nil|].
    { intros c s v (entry & Hc & _)%matching_spec. apply Hpos. by rewrite Hc. }
    split_and!; [done..|]. intros _.
    assert (∃ c', c' ∈ matching self selector ∧ c' ≠ c) as (c' & Hc' & Hne).
    { destruct (matching self selector) as [|a [|b l]]; simpl in Hlen; [lia..|].
      apply NoDup_cons in Hnd as [Ha _]. destruct (decide (a = c)) as [<-|].
      - exists b. split; [by right; left|]. intros ->. apply Ha. by left.
      - exists a. split; [by left|done]. }
    exists c, c'. split_and!; [done..|]. unfold same_repository, at_version.
    intros [?|(? & ? & ? & ? & ?)]; congruence.
Qed.

(** ** Properties *)

(** C36: Building the index always succeeds: the ownership walks end on every
    containment graph, cycles included. A record that some repository contains,
    along live containment edges in their latest version, is owned by the current
    version of the last such repository in id order; any other record has an owner
    only if it is a diagnostic, a drift or a log record. *)
Theorem ownership_is_reachability records :
  ∃ idx, build records = Some idx
    ∧ (∀ x y, contains (containment records) x y ↔ containment_edge records x y)
    ∧ (∀ x r, last_containing (containment records) (repository_ids idx) x r →
              owner_of idx x = Some (current idx r))
    ∧ (∀ x, is_Some (owner_of idx x) →
            (∃ r, last_containing (containment records) (repository_ids idx) x r)
            ∨ attributable records x).
Proof.
  destruct (build_eq records) as (owner & _ & Hspec & owner' & [Hsub Hnew] & Hbuild).
  eexists. split; [done|]. unfold owner_of, current, repository_ids.
  cbn [RepositoryIndex.owner RepositoryIndex.repos RepositoryIndex.highest_version].
  split_and!; [apply contains_spec| |].
  - intros x r Hl%Hspec. rewrite lookup_fmap.
    by rewrite (lookup_weaken _ _ _ _ Hl Hsub).
  - intros x. rewrite lookup_fmap, fmap_is_Some. intros [[r Hr]|Hx]%Hnew; [left|by right].
    exists r. by apply Hspec.
Qed.

(** Selector resolution never guesses. A resolved selector is the id of a
    repository, or a handle that only versions of one repository answer to, and the
    answer is that repository's current version; [Unknown] means that nothing
    answers; [Ambiguous] lists only repositories that answer, two of which are
    really different. *)
Theorem selector_never_guesses self selector :
  versions_positive self →
  match resolve_selector self selector with
  | Ok r => ∃ id, r = current self id ∧ is_Some (self.(RepositoryIndex.repos) !! id)
      ∧ (id = selector
         ∨ self.(RepositoryIndex.repos) !! selector = None
           ∧ answers self id selector
           ∧ ∀ id', answers self id' selector → same_repository id' id)
  | Err (Unknown s) => s = selector ∧ self.(RepositoryIndex.repos) !! selector = None
      ∧ ∀ id, ¬ answers self id selector
  | Err (Ambiguous s candidates) => s = selector
      ∧ self.(RepositoryIndex.repos) !! selector = None
      ∧ (∀ c, c ∈ candidates → answers self c selector)
      ∧ ∃ c c', c ∈ candidates ∧ c' ∈ candidates ∧ ¬ same_repository c c'
  end.
Proof.
  intros Hpos. unfold resolve_selector.
  destruct (self.(RepositoryIndex.repos) !! selector) as [entry|] eqn:Hsel.
  { cbn. exists selector. split_and!; [done|by rewrite Hsel|by left]. }
  cbn [is_some]. destruct (dedup_versions_spec self selector Hpos) as (H1 & H2 & H3).
  destruct (dedup_versions (matching self selector)) as [|c [|c' cs]]; cbn.
  - split_and!; [done..|]. intros id (? & ?%elem_of_nil & _)%H2. done.
  - exists c. assert (answers self c selector) as Hc by (apply H1; by left).
    split_and!; [done|by destruct Hc as (? & -> & _)|]. right. split_and!; [done..|].
    by intros id' (? & ->%list_elem_of_singleton & ?)%H2.
  - split_and!; [done..|by apply H1|]. apply H3. simpl. lia.
Qed.

(** The version translation stays inside the index and is idempotent. *)
Definition translation_ok (self : RepositoryIndex.t) : Prop :=
  ∀ id h, self.(RepositoryIndex.highest_version) !! id = Some h →
    is_Some (self.(RepositoryIndex.repos) !! id)
    ∧ is_Some (self.(RepositoryIndex.repos) !! h)
    ∧ self.(RepositoryIndex.highest_version) !! h = Some h.

Section Catalog.
Context (self : RepositoryIndex.t) (Hok : translation_ok self).

Lemma elem_of_current_ids id :
  id ∈ current_ids self ↔
  ∃ id0, is_Some (self.(RepositoryIndex.repos) !! id0) ∧ id = current self id0.
Proof.
  unfold current_ids, current. rewrite elem_of_union, elem_of_list_to_set,
    elem_of_filter, list_elem_of_fmap, elem_of_dom. split.
  - intros [([id0 h] & -> & Hh%elem_of_map_to_list)|[Hn Hs]].
    + exists id0. rewrite Hh. split; [by destruct (Hok _ _ Hh)|done].
    + exists id. by rewrite Hn.
  - intros (id0 & Hs & ->).
    destruct (RepositoryIndex.highest_version self !! id0) as [h|] eqn:Hh.
    + left. exists (id0, h). split; [done|]. by apply elem_of_map_to_list.
    + by right.
Qed.

Lemma current_ids_fixed id :
  id ∈ current_ids self →
  is_Some (self.(RepositoryIndex.repos) !! id) ∧ current self id = id.
Proof.
  intros (id0 & Hs & ->)%elem_of_current_ids. unfold current.
  destruct (RepositoryIndex.highest_version self !! id0) as [h|] eqn:Hh; simpl.
  - destruct (Hok _ _ Hh) as (_ & ? & Hf). by rewrite Hf.
  - by rewrite Hh.
Qed.

Lemma catalog_entry_resolves id :
  id ∈ current_ids self →
  ∃ e, catalog_entry self id = Some e ∧ e.(RepositoryCatalogEntry.repository_id) = id
    ∧ resolve_selector self e.(RepositoryCatalogEntry.selector) = Ok id.
Proof.
  intros Hid. destruct (current_ids_fixed _ Hid) as [[entry He] Hc]. unfold catalog_entry.
  rewrite He. cbn [mbind option_bind]. destruct (catalog_recency entry) as [rk rh].
  assert (resolve_selector self id = Ok id) as Hself.
  { unfold resolve_selector. rewrite He. cbn [is_some result_bind]. by f_equal. }
  destruct (resolve_selector self entry.(RepositoryEntry.display)) as [resolved|err] eqn:Hr;
    [|eexists; by split_and!].
  destruct (String.eqb_spec resolved id) as [->|]; eexists; by split_and!.
Qed.

Lemma catalog_ids :
  RepositoryCatalogEntry.repository_id <$> catalog self
  = str_sort (elements (current_ids self)).
Proof.
  unfold catalog.
  assert (∀ l, (∀ id, id ∈ l → id ∈ current_ids self) →
    RepositoryCatalogEntry.repository_id <$> (omap (catalog_entry self) l : list _) = l) as Hgen.
  { induction l as [|id l IH]; intros Hl; [done|]. csimpl.
    destruct (catalog_entry_resolves id) as (e & -> & He & _); [apply Hl; by left|]. csimpl.
    rewrite He, IH; [done|]. intros; apply Hl; by right. }
  apply Hgen. intros id. by rewrite str_sort_perm, elem_of_elements.
Qed.
End Catalog.

(** The catalog lists current repositories in strictly increasing id order, and
    the selector of every row resolves to exactly that row's repository. Every
    repository of the records is there under its current id. *)
Theorem catalog_selectors_resolve records :
  ∃ idx, build records = Some idx
    ∧ StronglySorted (λ a b, String.le a b ∧ a ≠ b)
        (RepositoryCatalogEntry.repository_id <$> catalog idx)
    ∧ (∀ e, e ∈ catalog idx →
         resolve_selector idx e.(RepositoryCatalogEntry.selector)
         = Ok e.(RepositoryCatalogEntry.repository_id))
    ∧ (∀ id, is_Some (idx.(RepositoryIndex.repos) !! id) →
         current idx id ∈ RepositoryCatalogEntry.repository_id <$> catalog idx).
Proof.
  destruct (build_eq records) as (_ & _ & _ & owner' & _ & Hbuild).
  eexists. split; [done|]. set (idx := RepositoryIndex.mk _ _ _).
  assert (translation_ok idx) as Hok.
  { intros id h Hh. destruct (translation_closed _ _ _ Hh) as [Hin Hh'].
    split_and!; [|by apply keys_elem|done].
    apply repo_translation_spec in Hh as (s & vs & v & v' & Hs & Hv & _).
    apply (suffix_to_versions_Some _ _ _ Hs) in Hv as [Hv _]. by apply keys_elem. }
  rewrite !(catalog_ids idx Hok). split_and!.
  - apply str_sort_strict, NoDup_elements.
  - unfold catalog. intros e (id & Hid & He)%list_elem_of_omap.
    rewrite str_sort_perm, elem_of_elements in Hid.
    destruct (catalog_entry_resolves idx Hok id Hid) as (e' & He' & <- & Hr). by simplify_eq.
  - intros id Hid. rewrite str_sort_perm, elem_of_elements, elem_of_current_ids by done. eauto.
Qed.

(** ** A concrete index *)
Definition demo_entry : RepositoryEntry.t :=
  RepositoryEntry.mk "widget" {["widget"; "acme/widget"]} None None None.

(** One repository scanned under two schema versions. *)
Definition demo_index : RepositoryIndex.t :=
  RepositoryIndex.mk ∅
    {[ "codegraph:v1:w" := demo_entry; "codegraph:v2:w" := demo_entry ]}
    (repo_translation ["codegraph:v1:w"; "codegraph:v2:w"]).

Lemma selector_never_guesses_witness :
  ∃ id, "codegraph:v2:w" = current demo_index id ∧ answers demo_index id "widget"
    ∧ ∀ id', answers demo_index id' "widget" → same_repository id' id.
Proof.
  pose proof (selector_never_guesses demo_index "widget") as H.
  assert (resolve_selector demo_index "widget" = Ok "codegraph:v2:w") as Hr
    by (vm_compute; reflexivity).
  rewrite Hr in H. destruct H as (id & Hid & _ & [->|(_ & Ha & Hs)]).
  - intros id s v [e He]. unfold demo_index in He. cbn [RepositoryIndex.repos] in He.
    apply lookup_insert_Some in He as [[<- _]|[_ He]]; [intros [= <- <-]; done|].
    apply lookup_singleton_Some in He as [<- _]. intros [= <- <-]; done.
  - vm_compute in Hid. discriminate.
  - exists id. repeat split; assumption.
Defined.

(** Two repositories whose ids carry the schema version 0 are reported as
    ambiguous with the empty string for each candidate: the fold starts every group
    at version 0 and replaces it only by a greater one. *)
Theorem version_zero_candidates_lost :
  resolve_selector
    (RepositoryIndex.mk ∅
       {[ "codegraph:v0:a" := demo_entry; "codegraph:v0:b" := demo_entry ]} ∅) "widget"
  = Err (Ambiguous "widget" [""; ""]).
Proof. vm_compute. reflexivity. Qed.
