(* ===== verification/AsOf.v ===== *)
(** * Symbols at HEAD and at a valid time

    [src/src/query/as_of.rs]: the corpus a current-state lane reads, the versions stamped at the
    HEAD of their repository, and a symbol by name as of a valid time, alone, per repository and
    restricted to the history of each HEAD. [DateTime] is the external type of zoned instants.
    A [HashMap] that is only looked up, or iterated to fill another map key by key, is a [gmap]. *)
From S2P Require Import Prelude RustStr Ir IrOps Liveness LevelSearch WorkList Selection RepoIndex TransactionTime.

(** ** Corpus modes *)
Module CorpusMode.
(* query/as_of.rs 21-34: CorpusMode *)
Inductive t : Set := HeadAnchored | Union | CommitPinned | SingleSnapshot.

(* query/as_of.rs 39-46: CorpusMode::as_str *)
Definition as_str (self : t) : string :=
  match self with
  | HeadAnchored => "head_anchored"
  | Union => "union"
  | CommitPinned => "commit_pinned"
  | SingleSnapshot => "single_snapshot"
  end.

(* query/as_of.rs 51-68: CorpusMode::disclaimer *)
Definition disclaimer (self : t) : string :=
  match self with
  | HeadAnchored =>
      "Corpus: records current at each repository's stamped HEAD commit; an edge or target removed at HEAD is excluded. Pass --all-history for the union of all commit snapshots."
  | Union =>
      "Corpus: the union of all commit snapshots; an edge or target removed at a later commit still appears in the corpus."
  | CommitPinned => "Corpus: the single-commit snapshot selected by --at/--as-of."
  | SingleSnapshot =>
      "Corpus: the single scanned snapshot (no commit history); keep-last-per-id current state."
  end.
End CorpusMode.

Module CorpusModeSource.
(* query/as_of.rs 74-81: CorpusModeSource *)
Inductive t : Set := Default | ExplicitFlag | Selector.
(* query/as_of.rs 86-92: CorpusModeSource::as_str *)
Definition as_str (self : t) : string :=
  match self with
  | Default => "default" | ExplicitFlag => "explicit_flag" | Selector => "selector"
  end.
End CorpusModeSource.

(* query/as_of.rs 112-145: resolve_corpus_mode *)
Definition resolve_corpus_mode (has_temporal_pin at_head all_history has_snapshot : bool)
    : result (CorpusMode.t * CorpusModeSource.t) string :=
  if at_head && all_history then
    Err "--at-head cannot be combined with --all-history; pass at most one corpus selector"
  else if has_temporal_pin && (at_head || all_history) then
    Err "--at-head/--all-history cannot be combined with --at/--as-of; a temporal pin already selects a single-commit corpus"
  else if has_temporal_pin then Ok (CorpusMode.CommitPinned, CorpusModeSource.Selector)
  else if all_history then Ok (CorpusMode.Union, CorpusModeSource.ExplicitFlag)
  else if at_head then Ok (CorpusMode.HeadAnchored, CorpusModeSource.ExplicitFlag)
  else if has_snapshot then Ok (CorpusMode.HeadAnchored, CorpusModeSource.Default)
  else Ok (CorpusMode.SingleSnapshot, CorpusModeSource.Default).

(** ** Heads *)

(* query/as_of.rs 191-197: collect_repo_heads *)
Definition tombstoned_ids (records : list GraphRecord) : gset string :=
  list_to_set (omap (λ r, match r with
                          | Tombstone t => Some t.(TombRec.deleted_id)
                          | _ => None end) records).

(** The stamped commit of a repository node. *)
(* query/as_of.rs 486-499: resolve_head_symbols *)
Definition stamped_head (record : GraphRecord) : option (string * string) :=
  match record with
  | Node n =>
      if bool_decide (n.(NodeRec.kind) = NodeKind.Repository) then
        let?o snapshot := n.(NodeRec.source_snapshot) in
        match snapshot.(SourceSnapshotPayload.head) with
        | SnapshotHead.Commit sha => Some (n.(NodeRec.id), sha)
        | _ => None
        end
      else None
  | _ => None
  end.

(* query/as_of.rs 190-213: collect_repo_heads *)
Definition collect_repo_heads (records : list GraphRecord) : gmap string string :=
  foldl (λ m r,
    match stamped_head r with
    | Some (repo_id, sha) =>
        if bool_decide (repo_id ∈ tombstoned_ids records) then m else <[repo_id := sha]> m
    | None => m
    end) ∅ records.

(* query/as_of.rs 216-223: record_temporal *)
Definition record_temporal (record : GraphRecord) : option TemporalMetadata.t :=
  match record with
  | Node n => n.(NodeRec.temporal)
  | Edge e => e.(EdgeRec.temporal)
  | Tombstone _ => None
  end.

(* query/as_of.rs 231-233: store_has_source_snapshot *)
Definition store_has_source_snapshot (records : list GraphRecord) : bool :=
  negb (bool_decide (collect_repo_heads records = ∅)).

(* query/as_of.rs 252-266: disclose_corpus *)
Definition disclose_corpus (records : list GraphRecord) (history_behavior : CorpusMode.t)
    : CorpusMode.t * CorpusModeSource.t * string :=
  let mode := if store_has_source_snapshot records then history_behavior
              else CorpusMode.SingleSnapshot in
  (mode, CorpusModeSource.Default, CorpusMode.disclaimer mode).

(** The version is at the head of its repository, or at any head when nobody owns it. *)
(* query/as_of.rs 172-183: head_current_versions *)
Definition version_current (repo_heads : gmap string string) (index : RepositoryIndex.t)
    (id : string) (t : TemporalMetadata.t) : bool :=
  match owner_of index id with
  | None =>
      existsb (λ kv, kv.2 =s? t.(TemporalMetadata.git_commit)) (map_to_list repo_heads)
  | Some owner =>
      match repo_heads !! owner with
      | None => true
      | Some head => t.(TemporalMetadata.git_commit) =s? head
      end
  end.

(* query/as_of.rs 159-185: head_current_versions *)
Definition head_current_versions (records : list GraphRecord) (index : RepositoryIndex.t)
    : list GraphRecord :=
  let repo_heads := collect_repo_heads records in
  filter (λ r,
    (if bool_decide (repo_heads = ∅) then true
     else match record_temporal r with
          | None => true
          | Some t => version_current repo_heads index (GraphRecord.id r) t
          end) = true) records.

(* query/as_of.rs 303-341: non_head_current_record_ids *)
Definition non_head_current_record_ids (records : list GraphRecord) (index : RepositoryIndex.t)
    : gset string :=
  let repo_heads := collect_repo_heads records in
  if bool_decide (repo_heads = ∅) then ∅
  else
    let '(has_current, has_off_head_only) :=
      foldl (λ acc r,
        let id := GraphRecord.id r in
        match record_temporal r with
        | None => ({[id]} ∪ acc.1, acc.2)
        | Some t => if version_current repo_heads index id t then ({[id]} ∪ acc.1, acc.2)
                    else (acc.1, {[id]} ∪ acc.2)
        end) (∅ : gset string, ∅ : gset string) records in
    has_off_head_only ∖ has_current.

(** ** A symbol at a valid time *)
Section AsOf.
Context {DateTime : Type} (instant : DateTime → Z).
Context (parse_from_rfc3339 : string → result DateTime string).

(** A version of the symbol and its valid time. *)
Definition Timed : Type := GraphRecord * DateTime.

(** [vt > *prev_vt || (vt == *prev_vt && record.id() < prev_r.id())] *)
(* query/as_of.rs 391-393: symbol_as_of_valid_time *)
Definition is_better (cur prev : Timed) : bool :=
  (instant cur.2 >? instant prev.2)%Z
  || ((instant cur.2 =? instant prev.2)%Z
      && bool_decide (String.compare (GraphRecord.id cur.1) (GraphRecord.id prev.1) = Lt)).

(** The version with its valid time, when the record is a symbol of that name that has one. *)
(* query/as_of.rs 362-387: symbol_as_of_valid_time *)
Definition timed_symbol (symbol_name : string) (record : GraphRecord) : option Timed :=
  if is_named_symbol symbol_name record then pair record <$> valid_of parse_from_rfc3339 record
  else None.

(* query/as_of.rs 388-390: symbol_as_of_valid_time *)
Definition by_then (as_of_dt : DateTime) (v : Timed) : bool := negb (instant v.2 >? instant as_of_dt)%Z.

Definition invalid_as_of (as_of e : string) : string :=
  "invalid --as-of timestamp '" +:+ as_of +:+ "': " +:+ e.

(* query/as_of.rs 352-400: symbol_as_of_valid_time *)
Definition symbol_as_of_valid_time (records : list GraphRecord) (symbol_name as_of : string)
    : result (option GraphRecord) string :=
  let? as_of_dt := map_err (invalid_as_of as_of) (parse_from_rfc3339 as_of) in
  Ok (fst <$> foldl (λ best record,
    match timed_symbol symbol_name record with
    | None => best
    | Some v =>
        if by_then as_of_dt v then
          match best with
          | None => Some v
          | Some prev => if is_better v prev then Some v else best
          end
        else best
    end) None records).

(** One best version per owner. *)
(* query/as_of.rs 465-470: symbol_as_of_valid_time_by_repo *)
Definition improve (best : gmap (option string) Timed) (owner : option string) (v : Timed)
    : gmap (option string) Timed :=
  match best !! owner with
  | None => <[owner := v]> best
  | Some prev => if is_better v prev then <[owner := v]> best else best
  end.

(** [BTreeMap::into_values]: in the order of the keys, the unowned one first. *)
Definition into_values {A} (m : gmap (option string) A) : list A :=
  omap (λ k, m !! k) (merge_sort (λ a b, opt_cmp a b ≠ Gt) (elements (dom m))).

Definition by_id : GraphRecord → GraphRecord → comparison := cmp_on GraphRecord.id String.compare.

(** [if let Some(repo_id) = repo && owner != Some(repo_id) { continue; }] *)
Definition in_repo (repo owner : option string) : bool :=
  match repo with None => true | Some _ => bool_decide (owner = repo) end.

(* query/as_of.rs 418-475: symbol_as_of_valid_time_by_repo *)
Definition symbol_as_of_valid_time_by_repo (records : list GraphRecord)
    (symbol_name as_of : string) (index : RepositoryIndex.t) (repo : option string)
    : result (list GraphRecord) string :=
  let? as_of_dt := map_err (invalid_as_of as_of) (parse_from_rfc3339 as_of) in
  let best := foldl (λ best record,
    let owner := owner_of index (GraphRecord.id record) in
    match timed_symbol symbol_name record with
    | None => best
    | Some v => if in_repo repo owner && by_then as_of_dt v then improve best owner v else best
    end) ∅ records in
  Ok (sort_by by_id (fst <$> into_values best)).

(** ** A symbol at HEAD *)

(* query/as_of.rs 486-499: resolve_head_symbols *)
Definition all_heads (records : list GraphRecord) : gmap string string :=
  foldl (λ m r, match stamped_head r with
                | Some (repo_id, sha) => <[repo_id := sha]> m
                | None => m end) ∅ records.

(** The repository at whose head the record is, when it is a symbol of the name. *)
(* query/as_of.rs 504-526: resolve_head_symbols *)
Definition head_match (repo_heads : gmap string string) (symbol_name : string)
    (index : RepositoryIndex.t) (repo : option string) (record : GraphRecord) : option string :=
  if negb (is_named_symbol symbol_name record) then None
  else
    let?o t := record_temporal record in
    let owner := owner_of index (GraphRecord.id record) in
    if negb (in_repo repo owner) then None
    else
      let?o owner_id := owner in
      let?o head_sha := repo_heads !! owner_id in
      if t.(TemporalMetadata.git_commit) =s? head_sha then Some owner_id else None.

(** The keys of [best] and the set [repos_with_match] hold the same repositories. *)
(* query/as_of.rs 504-536: resolve_head_symbols *)
Definition head_matches (repo_heads : gmap string string) (records : list GraphRecord)
    (symbol_name : string) (index : RepositoryIndex.t) (repo : option string)
    : gmap (option string) GraphRecord * gset string :=
  foldl (λ acc record,
    match head_match repo_heads symbol_name index repo record with
    | None => acc
    | Some owner_id =>
        let is_better := match acc.1 !! Some owner_id with
          | None => true
          | Some prev => bool_decide (String.compare (GraphRecord.id record) (GraphRecord.id prev) = Lt)
          end in
        if is_better then (<[Some owner_id := record]> acc.1, {[owner_id]} ∪ acc.2) else acc
    end) (∅, ∅) records.

(* query/as_of.rs 540-568: resolve_head_symbols *)
Definition fallback_repos (repos_with_match : gset string) (records : list GraphRecord)
    (symbol_name : string) (index : RepositoryIndex.t) (repo : option string)
    : list (option string) :=
  dedup_by_key id (sort_by opt_cmp
    match repo with
    | Some repo_id => if bool_decide (repo_id ∈ repos_with_match) then [] else [Some repo_id]
    | None =>
        omap (λ record,
          if is_named_symbol symbol_name record then
            match owner_of index (GraphRecord.id record) with
            | Some o => if bool_decide (o ∈ repos_with_match) then None else Some (Some o)
            | None => if bool_decide (repos_with_match = ∅) then Some None else None
            end
          else None) records
    end).

(* query/as_of.rs 570-610: resolve_head_symbols *)
Definition newest_of_owner (records : list GraphRecord) (symbol_name : string)
    (index : RepositoryIndex.t) (r_opt : option string) : option Timed :=
  foldl (λ best record,
    match timed_symbol symbol_name record with
    | None => best
    | Some v =>
        if bool_decide (owner_of index (GraphRecord.id record) = r_opt) then
          match best with
          | None => Some v
          | Some prev => if is_better v prev then Some v else best
          end
        else best
    end) None records.

(* query/as_of.rs 480-614: resolve_head_symbols *)
Definition resolve_head_symbols (records : list GraphRecord) (symbol_name : string)
    (index : RepositoryIndex.t) (repo : option string) : list GraphRecord :=
  let '(best, repos_with_match) := head_matches (all_heads records) records symbol_name index repo in
  sort_by by_id
    (into_values best
     ++ omap (λ r_opt, fst <$> newest_of_owner records symbol_name index r_opt)
          (fallback_repos repos_with_match records symbol_name index repo)).

(** ** A symbol in the history of HEAD *)

(** Whether one of the records of a commit shows that it was there at the instant. *)
(* query/as_of.rs 684-699: resolve_as_of_symbols *)
Definition has_valid_node (index : RepositoryIndex.t) (as_of_dt : DateTime) (repo_id : string)
    (c_nodes : list GraphRecord) : bool :=
  existsb (λ c_node,
    match owner_of index (GraphRecord.id c_node) with
    | Some o => o =s? repo_id
    | None => true
    end
    && match c_node with
       | Node n =>
           match n.(NodeRec.temporal) with
           | Some t =>
               match parse_from_rfc3339 t.(TemporalMetadata.valid_time) with
               | Ok vt => (instant vt <=? instant as_of_dt)%Z
               | Err _ => false
               end
           | None => false
           end
       | _ => false
       end) c_nodes.

(** [None] is the end of the fuel, which is enough for every link. *)
(* query/as_of.rs 661-705: resolve_as_of_symbols *)
Definition lineage (commit_parents : gmap string (list string))
    (commit_nodes : gmap string (list GraphRecord)) (index : RepositoryIndex.t)
    (as_of_dt : DateTime) (repo_id head_sha : string) : option (gset string) :=
  let?o visited := drain push_queue commit_parents (drain_fuel commit_parents [head_sha]) ∅ [head_sha] in
  Some (filter (λ sha,
    match commit_nodes !! sha with
    | Some c_nodes => has_valid_node index as_of_dt repo_id c_nodes
    | None => false
    end = true) visited).

(* query/as_of.rs 653-706: resolve_as_of_symbols *)
Definition repo_lineages (commit_parents : gmap string (list string))
    (commit_nodes : gmap string (list GraphRecord)) (index : RepositoryIndex.t)
    (as_of_dt : DateTime) (repo : option string) (repo_heads : gmap string string)
    : option (gmap string (gset string)) :=
  foldl (λ acc repo_id,
    let?o m := acc in
    if in_repo repo (Some repo_id) then
      let?o head_sha := repo_heads !! repo_id in
      let?o filtered := lineage commit_parents commit_nodes index as_of_dt repo_id head_sha in
      Some (<[repo_id := filtered]> m)
    else Some m) (Some ∅) (keys repo_heads).

(* query/as_of.rs 727-739: resolve_as_of_symbols *)
Definition on_lineage (lineages : gmap string (gset string)) (owner : option string)
    (record : GraphRecord) : bool :=
  match owner with
  | None => true
  | Some owner_id =>
      match lineages !! owner_id with
      | None => true
      | Some lineage =>
          match record_temporal record with
          | None => false
          | Some t => bool_decide (t.(TemporalMetadata.git_commit) ∈ lineage)
          end
      end
  end.

(* query/as_of.rs 625-769: resolve_as_of_symbols *)
Definition resolve_as_of_symbols (records : list GraphRecord) (symbol_name as_of : string)
    (index : RepositoryIndex.t) (repo : option string)
    (commit_parents : gmap string (list string)) (commit_nodes : gmap string (list GraphRecord))
    : option (result (list GraphRecord) string) :=
  match map_err (invalid_as_of as_of) (parse_from_rfc3339 as_of) with
  | Err e => Some (Err e)
  | Ok as_of_dt =>
      let?o lineages := repo_lineages commit_parents commit_nodes index as_of_dt repo (all_heads records) in
      let best := foldl (λ best record,
        let owner := owner_of index (GraphRecord.id record) in
        match timed_symbol symbol_name record with
        | None => best
        | Some v =>
            if in_repo repo owner && on_lineage lineages owner record && by_then as_of_dt v
            then improve best owner v else best
        end) ∅ records in
      Some (Ok (sort_by by_id (fst <$> into_values best)))
  end.
End AsOf.

(** ** The two tests of being current agree *)
Section Current.
Context (records : list GraphRecord) (index : RepositoryIndex.t).

Definition off_head (r : GraphRecord) : Prop :=
  collect_repo_heads records ≠ ∅
  ∧ ∃ t, record_temporal r = Some t
    ∧ version_current (collect_repo_heads records) index (GraphRecord.id r) t = false.

Lemma off_head_dec r : off_head r ∨ ¬ off_head r.
Proof.
  unfold off_head. destruct (decide (collect_repo_heads records = ∅)) as [|Hne]; [right; by intros [? _]|].
  destruct (record_temporal r) as [t|]; [|right; by intros (_ & ? & ? & _)].
  destruct (version_current (collect_repo_heads records) index (GraphRecord.id r) t) eqn:E;
    [right|left; by eauto].
  intros (_ & ? & [= <-] & ?). congruence.
Qed.

Lemma elem_of_head_current r :
  r ∈ head_current_versions records index ↔ r ∈ records ∧ ¬ off_head r.
Proof.
  unfold head_current_versions. rewrite list_elem_of_filter.
  rewrite (and_comm (r ∈ records)). apply and_iff_compat_r. unfold off_head.
  case_bool_decide as Hne; [split; [by intros _ [? _]|done]|].
  destruct (record_temporal r) as [t|]; [|split; [by intros _ (_ & ? & ? & _)|done]].
  destruct (version_current (collect_repo_heads records) index (GraphRecord.id r) t) eqn:E; split;
    [intros _ (_ & ? & [= <-] & ?); congruence|done|done|intros []; by eauto].
Qed.

Lemma elem_of_non_head id :
  id ∈ non_head_current_record_ids records index
  ↔ (∃ r, r ∈ records ∧ GraphRecord.id r = id ∧ off_head r)
    ∧ ∀ r, r ∈ records → GraphRecord.id r = id → off_head r.
Proof.
  unfold non_head_current_record_ids. case_bool_decide as Hempty.
  { unfold off_head. set_solver. }
  match goal with |- context [foldl ?f _ records] => set (step := f) end.
  assert (∀ acc l, (id ∈ (foldl step acc l).1 ↔ id ∈ acc.1 ∨ ∃ r, r ∈ l ∧ (GraphRecord.id r = id ∧ ¬ off_head r))
    ∧ (id ∈ (foldl step acc l).2 ↔ id ∈ acc.2 ∨ ∃ r, r ∈ l ∧ (GraphRecord.id r = id ∧ off_head r))) as H.
  { assert (∀ acc r, (id ∈ (step acc r).1 ↔ id ∈ acc.1 ∨ (GraphRecord.id r = id ∧ ¬ off_head r))
      ∧ (id ∈ (step acc r).2 ↔ id ∈ acc.2 ∨ (GraphRecord.id r = id ∧ off_head r))) as Hstep.
    { intros [c o] r. unfold step. cbn [fst snd].
      destruct (record_temporal r) as [t|] eqn:Ht;
        [destruct (version_current (collect_repo_heads records) index (GraphRecord.id r) t) eqn:E|];
        cbn [fst snd]; rewrite elem_of_union, elem_of_singleton.
      1, 3: assert (¬ off_head r) by (intros (_ & ? & ? & ?); congruence); naive_solver.
      assert (off_head r) by (split; [done|]; by eauto). naive_solver. }
    intros acc l. split.
    - apply (foldl_or step (λ acc, id ∈ acc.1) (λ r, GraphRecord.id r = id ∧ ¬ off_head r)).
      intros b r _. apply Hstep.
    - apply (foldl_or step (λ acc, id ∈ acc.2) (λ r, GraphRecord.id r = id ∧ off_head r)).
      intros b r _. apply Hstep. }
  destruct (H (∅, ∅) records) as [H1 H2].
  destruct (foldl step _ records) as [c o]. cbn [fst snd] in *.
  rewrite elem_of_difference, H1, H2.
  split.
  - intros [[?%not_elem_of_empty|Hex] Hno]; [done|]. split; [naive_solver|].
    intros r Hr Hid. destruct (off_head_dec r); [done|]. exfalso. apply Hno. right. by exists r.
  - intros [Hex Hall]. split; [right; naive_solver|].
    intros [?%not_elem_of_empty|(r & Hr & Hid & Hn)]; [done|]. by apply Hn, Hall.
Qed.
End Current.

(** The id-level and the version-level test of being current at HEAD agree: an id is dropped
    from the corpus of a HEAD-anchored lane exactly when the log holds it and none of its
    versions is one of those stamped at the head of its repository. *)
Theorem head_anchoring_agrees (records : list GraphRecord) (index : RepositoryIndex.t) (id : string) :
  id ∈ non_head_current_record_ids records index
  ↔ (∃ r, r ∈ records ∧ GraphRecord.id r = id)
    ∧ ¬ ∃ r, r ∈ head_current_versions records index ∧ GraphRecord.id r = id.
Proof.
  rewrite elem_of_non_head. setoid_rewrite elem_of_head_current.
  split.
  - intros [(r & Hr & Hid & _) Hall]. split; [by exists r|].
    intros (q & [Hq Hno] & Hqid). by apply Hno, Hall.
  - intros [(r & Hr & Hid) Hno].
    assert (∀ q, q ∈ records → GraphRecord.id q = id → off_head records index q) as Hall.
    { intros q Hq Hqid. destruct (off_head_dec records index q); [done|]. exfalso. apply Hno. by exists q. }
    split; [|done]. exists r. split_and!; auto.
Qed.

(** ** The best version per owner *)
Section Best.
Context {DateTime : Type} (instant : DateTime → Z).
Context (parse_from_rfc3339 : string → result DateTime string).
Abbreviation timed := (timed_symbol parse_from_rfc3339).

(** Newest first, and the lesser id among versions of one instant. *)
Definition timed_cmp : Timed (DateTime := DateTime) → Timed → comparison :=
  cmp_then (flip (cmp_on (λ v, instant v.2) Z.compare)) (cmp_on (λ v, GraphRecord.id v.1) String.compare).

#[local] Instance timed_cmp_order : CmpOrder timed_cmp.
Proof. apply cmp_then_order; [apply flip_cmp_order|]; apply _. Qed.

Lemma is_better_timed v p : is_better instant v p = bool_decide (timed_cmp v p = Lt).
Proof.
  unfold is_better, timed_cmp, cmp_then, flip, cmp_on. rewrite Z.gtb_ltb, Z.ltb_compare, Z.eqb_compare.
  rewrite (Z.compare_antisym (instant v.2) (instant p.2)), (Z.compare_antisym (instant p.2)).
  by destruct (instant p.2 ?= instant v.2)%Z, (String.compare _ _).
Qed.

(** The versions of the symbol that pass a test, under their owners. *)
Definition owned_versions (index : RepositoryIndex.t) (symbol_name : string)
    (passes : GraphRecord → Timed (DateTime := DateTime) → bool) (records : list GraphRecord)
    : list (option string * Timed) :=
  omap (λ r, let?o v := timed symbol_name r in
             if passes r v then Some (owner_of index (GraphRecord.id r), v) else None) records.

Lemma fold_improve (index : RepositoryIndex.t) (symbol_name : string) (passes : GraphRecord → Timed → bool)
    (records : list GraphRecord) (m : gmap (option string) (Timed (DateTime := DateTime))) :
  foldl (λ (best : gmap (option string) (Timed (DateTime := DateTime))) r, match timed symbol_name r with
    | None => best
    | Some v => if passes r v then improve instant best (owner_of index (GraphRecord.id r)) v else best
    end) m records
  = foldl (keep_at timed_cmp) m (owned_versions index symbol_name passes records).
Proof.
  unfold owned_versions. revert m. induction records as [|r records IH]; intros m; [done|].
  cbn [foldl omap list_omap]. rewrite IH.
  destruct (timed symbol_name r) as [v|]; cbn [mbind option_bind]; [|done].
  destruct (passes r v); [|done]. cbn [foldl]. f_equal. unfold improve, keep_at. cbn [fst snd].
  destruct (m !! _); [|done]. by rewrite is_better_timed; case_bool_decide.
Qed.

Lemma owned_versions_owner (index : RepositoryIndex.t) (symbol_name : string) passes records owner v :
  (owner, v) ∈ owned_versions index symbol_name passes records →
  owner = owner_of index (GraphRecord.id v.1).
Proof.
  unfold owned_versions. intros (r & _ & Hr)%list_elem_of_omap.
  unfold timed_symbol in Hr. destruct (is_named_symbol symbol_name r); [|done].
  destruct (valid_of _ r) as [vt|]; cbn in Hr; [|done]. destruct (passes _ _); [|done].
  by simplify_eq.
Qed.

Lemma elem_of_into_values {A} (m : gmap (option string) A) x :
  x ∈ into_values m ↔ ∃ k, m !! k = Some x.
Proof.
  unfold into_values. rewrite list_elem_of_omap. setoid_rewrite (merge_sort_Permutation _ _).
  setoid_rewrite elem_of_elements. setoid_rewrite elem_of_dom. split; [naive_solver|].
  intros [k Hk]. exists k. split; [by eexists|done].
Qed.

(** Values that know their keys stay apart. *)
Lemma into_values_NoDup {A} (m : gmap (option string) A) (f : A → option string) :
  (∀ k x, m !! k = Some x → f x = k) → NoDup (f <$> into_values m).
Proof.
  intros Hf. unfold into_values.
  assert (NoDup (merge_sort (λ a b, opt_cmp a b ≠ Gt) (elements (dom m)))) as Hnd.
  { rewrite merge_sort_Permutation. apply NoDup_elements. }
  revert Hnd. generalize (merge_sort (λ a b, opt_cmp a b ≠ Gt) (elements (dom m))).
  induction 1 as [|k l Hk _ IH]; csimpl; [constructor|].
  destruct (m !! k) as [x|] eqn:Hx; csimpl; [|done]. constructor; [|done].
  intros (y & Hfy & (k' & Hk' & Hy)%list_elem_of_omap)%list_elem_of_fmap.
  rewrite (Hf _ _ Hx), (Hf _ _ Hy) in Hfy. by subst k'.
Qed.

(** The rows of a lane that keeps the best version per owner. *)
Lemma best_rows (index : RepositoryIndex.t) (symbol_name : string) passes (records : list GraphRecord) :
  let offers := owned_versions index symbol_name passes records in
  let rows := sort_by by_id (fst <$> into_values (foldl (keep_at timed_cmp) ∅ offers)) in
  (∀ r, r ∈ rows ↔ ∃ vt, selects timed_cmp (offered (owner_of index (GraphRecord.id r)) offers) (r, vt))
  ∧ NoDup (owner_of index <$> (GraphRecord.id <$> rows))
  ∧ StronglySorted (cmp_le by_id) rows.
Proof.
  cbn zeta. set (offers := owned_versions _ _ _ _).
  assert (∀ k v, foldl (keep_at timed_cmp) ∅ offers !! k = Some v → owner_of index (GraphRecord.id v.1) = k)
    as Hown.
  { intros k v Hv%keep_at_selects%selects_elem%elem_of_offered; [|apply _].
    symmetry. by eapply owned_versions_owner. }
  split_and!.
  - intros r. rewrite sort_by_perm, list_elem_of_fmap. setoid_rewrite elem_of_into_values. split.
    + intros ([r' vt] & -> & k & Hk). exists vt. rewrite (Hown _ _ Hk).
      by apply keep_at_selects in Hk; [|apply _].
    + intros (vt & Hs). exists (r, vt). split; [done|]. eexists. apply keep_at_selects; [apply _|done].
  - rewrite sort_by_perm, <-!list_fmap_compose. apply into_values_NoDup, Hown.
  - apply sort_by_sorted. unfold by_id. apply _.
Qed.

Section Lane.
Context (records : list GraphRecord) (symbol_name as_of : string) (index : RepositoryIndex.t).
Context (repo : option string).
Abbreviation owner r := (owner_of index (GraphRecord.id r)).

(** What a lane that reads the versions passing a test answers. *)
Definition answers_best (passes : GraphRecord → Timed (DateTime := DateTime) → bool)
    (rows : list GraphRecord) : Prop :=
  (∀ r, r ∈ rows ↔ ∃ vt,
     selects timed_cmp (offered (owner r) (owned_versions index symbol_name passes records)) (r, vt))
  ∧ NoDup (owner_of index <$> (GraphRecord.id <$> rows))
  ∧ StronglySorted (cmp_le by_id) rows.

(** The per-repository answer at a valid time. A timestamp that does not parse is the
    documented error; otherwise there is one row per repository that has a version of the
    symbol by then (and one for the versions nobody owns), the newest one and of those the one
    with the least id, sorted by id, and with a selector only that repository's. *)
Theorem as_of_by_repo_exact :
  match parse_from_rfc3339 as_of with
  | Err e => symbol_as_of_valid_time_by_repo instant parse_from_rfc3339 records symbol_name as_of index repo
             = Err (invalid_as_of as_of e)
  | Ok T => ∃ rows,
      symbol_as_of_valid_time_by_repo instant parse_from_rfc3339 records symbol_name as_of index repo
        = Ok rows
      ∧ answers_best (λ r v, in_repo repo (owner r) && by_then instant T v) rows
  end.
Proof.
  unfold symbol_as_of_valid_time_by_repo.
  destruct (parse_from_rfc3339 as_of) as [T|e]; cbn [map_err result_bind]; [|done].
  eexists. split; [done|].
  rewrite (fold_improve index symbol_name (λ r v, in_repo repo (owner r) && by_then instant T v)).
  apply best_rows.
Qed.

(** *** The history of a head *)
Context (commit_parents : gmap string (list string)) (commit_nodes : gmap string (list GraphRecord)).

(** The commit is an ancestor of the head, or the head itself, with a record of the repository,
    or of nobody, that is true at the instant. *)
Definition in_history (T : DateTime) (repo_id head_sha c : string) : Prop :=
  rtc (linked_to commit_parents) head_sha c
  ∧ ∃ nodes, commit_nodes !! c = Some nodes
      ∧ has_valid_node instant parse_from_rfc3339 index T repo_id nodes = true.

Lemma lineage_spec T repo_id head_sha :
  ∃ s, lineage instant parse_from_rfc3339 commit_parents commit_nodes index T repo_id head_sha = Some s
    ∧ ∀ c, c ∈ s ↔ in_history T repo_id head_sha c.
Proof.
  unfold lineage, in_history.
  destruct (drain_spec push_queue commit_parents [head_sha] _ (le_n _)) as (out & -> & Hout).
  cbn [mbind option_bind]. eexists. split; [done|]. intros c.
  rewrite elem_of_filter, Hout. setoid_rewrite list_elem_of_singleton.
  destruct (commit_nodes !! c) as [nodes|]; naive_solver.
Qed.

Lemma repo_lineages_spec T (heads : gmap string string) :
  ∃ m, repo_lineages instant parse_from_rfc3339 commit_parents commit_nodes index T repo heads = Some m
    ∧ ∀ o, m !! o = (if in_repo repo (Some o) then
        heads !! o ≫= lineage instant parse_from_rfc3339 commit_parents commit_nodes index T o else None).
Proof.
  unfold repo_lineages.
  match goal with |- context [foldl ?f _ _] => set (step := f) end.
  assert (∀ l, (∀ o, o ∈ l → is_Some (heads !! o)) → ∃ m, foldl step (Some ∅) l = Some m
    ∧ ∀ o, m !! o = (if in_repo repo (Some o) && bool_decide (o ∈ l) then
        heads !! o ≫= lineage instant parse_from_rfc3339 commit_parents commit_nodes index T o else None)) as H.
  { induction l as [|o l IH] using rev_ind; intros Hl.
    { exists ∅. split; [done|]. intros o. rewrite lookup_empty. by destruct (in_repo repo (Some o)). }
    destruct IH as (m & Hrun & Hm); [intros; apply Hl; set_solver|].
    rewrite foldl_app, Hrun. cbn [foldl]. unfold step. cbn [mbind option_bind].
    destruct (Hl o) as [head Hh]; [set_solver|].
    destruct (lineage_spec T o head) as (s & Hs & _).
    destruct (in_repo repo (Some o)) eqn:Hin.
    - rewrite Hh. cbn [mbind option_bind]. rewrite Hs. cbn [mbind option_bind].
      eexists. split; [done|]. intros o'. destruct (decide (o' = o)) as [->|Hne].
      + rewrite lookup_insert_eq, Hin, bool_decide_eq_true_2, Hh by set_solver. cbn [andb mbind option_bind]. by rewrite Hs.
      + rewrite lookup_insert_ne, Hm by done.
        rewrite (bool_decide_ext (o' ∈ l ++ [o]) (o' ∈ l)) by set_solver. done.
    - eexists. split; [done|]. intros o'. rewrite Hm. destruct (decide (o' = o)) as [->|Hne].
      + by rewrite Hin.
      + rewrite (bool_decide_ext (o' ∈ l ++ [o]) (o' ∈ l)) by set_solver. done. }
  destruct (H (keys heads)) as (m & Hrun & Hm); [intros o; apply keys_elem|].
  exists m. split; [done|]. intros o. rewrite Hm. case_bool_decide as Hk; [by rewrite andb_true_r|].
  rewrite andb_false_r. rewrite keys_elem in Hk. destruct (heads !! o); [by destruct Hk|].
  by destruct (in_repo _ _).
Qed.

(** C13: the as-of answer over the history of HEAD. The search ends for every commit graph, cycles
    and missing commits included; the rows are those of the per-repository answer over the
    versions that, where their repository has a stamped head, are stamped at a commit of the
    history of that head at the instant. *)
Theorem resolve_as_of_exact :
  match parse_from_rfc3339 as_of with
  | Err e => resolve_as_of_symbols instant parse_from_rfc3339 records symbol_name as_of index repo
               commit_parents commit_nodes = Some (Err (invalid_as_of as_of e))
  | Ok T => ∃ lineages rows,
      resolve_as_of_symbols instant parse_from_rfc3339 records symbol_name as_of index repo
        commit_parents commit_nodes = Some (Ok rows)
      ∧ answers_best (λ r v, in_repo repo (owner r) && on_lineage lineages (owner r) r
                             && by_then instant T v) rows
      ∧ ∀ r, in_repo repo (owner r) = true →
          on_lineage lineages (owner r) r = true
          ↔ ∀ o head, owner r = Some o → all_heads records !! o = Some head →
              ∃ t, record_temporal r = Some t ∧ in_history T o head t.(TemporalMetadata.git_commit)
  end.
Proof.
  unfold resolve_as_of_symbols.
  destruct (parse_from_rfc3339 as_of) as [T|e]; cbn [map_err]; [|done].
  destruct (repo_lineages_spec T (all_heads records)) as (lineages & -> & Hlin).
  cbn [mbind option_bind]. exists lineages. eexists. split_and!; [done| |].
  - rewrite (fold_improve index symbol_name (λ r v, in_repo repo (owner r)
      && on_lineage lineages (owner r) r && by_then instant T v)).
    apply best_rows.
  - intros r Hin. unfold on_lineage. destruct (owner r) as [o|]; [|by split].
    rewrite Hlin, Hin. destruct (all_heads records !! o) as [head|] eqn:Hh; cbn [mbind option_bind].
    2:{ split; [|done]. intros _ o' head [= <-]. by rewrite Hh. }
    destruct (lineage_spec T o head) as (s & -> & Hs).
    transitivity (∃ t, record_temporal r = Some t ∧ in_history T o head t.(TemporalMetadata.git_commit)).
    + destruct (record_temporal r) as [t|]; [|split; [done|by intros (? & ? & _)]].
      rewrite bool_decide_eq_true, Hs. split; [by eauto|by intros (? & [= <-] & ?)].
    + split; [|by eauto]. intros Ht o' head' [= <-]. rewrite Hh. by intros [= <-].
Qed.
End Lane.
End Best.

(** ** The answer at HEAD *)
#[export] Instance opt_cmp_order : CmpOrder opt_cmp.
Proof. exact (option_cmp_order String.compare str_cmp_order). Qed.

Lemma opt_cmp_Eq a b : opt_cmp a b = Eq → a = b.
Proof. destruct a, b; cbn; try done. by intros ->%str_compare_Eq. Qed.

(** Removing the repetitions of a sorted list leaves none. *)
Lemma dedup_sorted_NoDup {A} `{EqDecision A} (cmp : A → A → comparison) `{!CmpOrder cmp} (l : list A) :
  (∀ a b, cmp a b = Eq → a = b) → StronglySorted (cmp_le cmp) l → NoDup (dedup_by_key id l).
Proof.
  intros Heq Hs. apply (dedup_by_key_strict id cmp _ Heq) in Hs.
  induction Hs as [|x d _ IH Hx]; constructor; [|done]. intros Hin.
  pose proof (proj1 (Forall_forall _ _) Hx x Hin) as Hlt. cbn in Hlt. by rewrite (cmp_refl cmp) in Hlt.
Qed.

(** What is offered under an owner are the records matched to it. *)
Lemma offered_matching (f : GraphRecord → option string) (l : list GraphRecord) o :
  offered (Some o) (omap (λ r, let?o o := f r in Some (Some o, r)) l) = filter (λ r, f r = Some o) l.
Proof.
  induction l as [|q l IH]; [done|]. unfold offered in *. cbn [omap list_omap].
  rewrite filter_cons. destruct (f q) as [o'|] eqn:Hf; cbn [mbind option_bind].
  - cbn [omap list_omap fst snd]. destruct (decide (o' = o)) as [->|Hne].
    + rewrite bool_decide_eq_true_2, decide_True by done. by f_equal.
    + rewrite bool_decide_eq_false_2, decide_False by congruence. done.
  - by rewrite decide_False.
Qed.

Section Head.
Context {DateTime : Type} (instant : DateTime → Z).
Context (parse_from_rfc3339 : string → result DateTime string).
Context (records : list GraphRecord) (symbol_name : string) (index : RepositoryIndex.t).
Context (repo : option string).
Abbreviation owner r := (owner_of index (GraphRecord.id r)).
Abbreviation matches := (head_match (all_heads records) symbol_name index repo).
Abbreviation timed_cmp := (timed_cmp instant).
Abbreviation all_versions :=
  (owned_versions parse_from_rfc3339 index symbol_name (λ _ _, true) records).

#[local] Instance timed_order : CmpOrder timed_cmp.
Proof. apply cmp_then_order; [apply flip_cmp_order|]; apply _. Qed.
#[local] Instance by_id_order : CmpOrder by_id.
Proof. unfold by_id. apply _. Qed.

(** The symbols of the name stamped at the head of the repository. *)
Definition at_head (o : string) : list GraphRecord := filter (λ r, matches r = Some o) records.

(** The owners whose symbols are looked up by valid time instead. *)
Definition falls_back (r_opt : option string) : Prop :=
  match repo with
  | Some repo_id => r_opt = Some repo_id ∧ at_head repo_id = []
  | None =>
      ∃ r, r ∈ records ∧ is_named_symbol symbol_name r = true ∧ owner r = r_opt
        ∧ match r_opt with Some o => at_head o = [] | None => ∀ o, at_head o = [] end
  end.

Lemma head_match_owner r o : matches r = Some o → owner r = Some o.
Proof.
  unfold head_match. destruct (negb _); [done|]. destruct (record_temporal r) as [t|]; cbn; [|done].
  destruct (negb (in_repo repo _)); [done|].
  destruct (owner_of index (GraphRecord.id r)) as [o'|]; cbn; [|done].
  destruct (all_heads records !! o') as [h|]; cbn; [|done].
  destruct (_ =s? _); [|done]. by intros [= <-].
Qed.

Lemma head_matches_spec :
  let '(best, with_match) := head_matches (all_heads records) records symbol_name index repo in
  (∀ k r, best !! k = Some r ↔ ∃ o, k = Some o ∧ selects by_id (at_head o) r)
  ∧ ∀ o, o ∈ with_match ↔ at_head o ≠ [].
Proof.
  unfold head_matches, at_head.
  match goal with |- context [foldl ?f _ records] => set (step := f) end.
  assert (∀ l, (foldl step (∅, ∅) l).1
      = foldl (keep_at by_id) ∅ (omap (λ r, let?o o := matches r in Some (Some o, r)) l)
    ∧ ∀ o, o ∈ (foldl step (∅, ∅) l).2 ↔ is_Some ((foldl step (∅, ∅) l).1 !! Some o)) as H.
  { induction l as [|r l [IH1 IH2]] using rev_ind.
    { split; [done|]. intros o. cbn [foldl fst snd]. rewrite lookup_empty.
      split; [by intros ?%not_elem_of_empty|by intros [? ?]]. }
    rewrite !foldl_app, omap_app, foldl_app. cbn [foldl omap list_omap].
    destruct (foldl step (∅, ∅) l) as [b w]. cbn [fst snd] in *. unfold step.
    destruct (matches r) as [o|]; cbn [mbind option_bind foldl]; [|by subst].
    rewrite <-IH1. cbn [fst snd]. unfold keep_at. cbn [fst snd].
    assert (∀ o', o' ∈ ({[o]} ∪ w : gset string) ↔ is_Some (<[Some o := r]> b !! Some o')) as Hins.
    { intros o'. rewrite elem_of_union, elem_of_singleton, IH2.
      destruct (decide (o' = o)) as [->|Hne].
      - rewrite lookup_insert_eq. split; [by eexists|by left].
      - rewrite lookup_insert_ne by congruence. naive_solver. }
    unfold by_id, cmp_on. destruct (b !! Some o) as [prev|]; [|done].
    case_bool_decide; [done|]. done. }
  destruct (H records) as [H1 H2]. destruct (foldl step _ records) as [b w]. cbn [fst snd] in *.
  assert (∀ k r, b !! k = Some r ↔ ∃ o, k = Some o ∧ selects by_id (filter (λ r, matches r = Some o) records) r)
    as Hb.
  { intros k r. rewrite H1, keep_at_selects by apply _.
    split.
    - intros Hs. assert (∃ o, k = Some o) as [o ->].
      { apply selects_elem, elem_of_offered, list_elem_of_omap in Hs as (q & _ & Hq).
        destruct (matches q) as [o|]; cbn in Hq; [|done]. simplify_eq. by exists o. }
      exists o. by rewrite <-offered_matching.
    - intros (o & -> & Hs). by rewrite offered_matching. }
  split; [done|]. intros o. rewrite H2. split.
  - intros [r (o' & [= <-] & Hs)%Hb] Hnil. rewrite Hnil in Hs. by apply selects_elem, elem_of_nil in Hs.
  - intros Hne. destruct (foldl_keep by_id (filter (λ r, matches r = Some o) records)) as [[_ ?]|(q & _ & Hq)];
      [done|]. exists q. apply Hb. by exists o.
Qed.

Lemma newest_of_owner_Some r_opt v :
  newest_of_owner instant parse_from_rfc3339 records symbol_name index r_opt = Some v
  ↔ selects timed_cmp (offered r_opt all_versions) v.
Proof.
  rewrite <-(foldl_keep_Some timed_cmp). unfold newest_of_owner.
  assert (∀ (best : option Timed), foldl (λ (best : option Timed) record,
      match timed_symbol parse_from_rfc3339 symbol_name record with
      | None => best
      | Some v =>
          if bool_decide (owner record = r_opt) then
            match best with
            | None => Some v
            | Some prev => if is_better instant v prev then Some v else best
            end
          else best
      end) best records = foldl (keep timed_cmp) best (offered r_opt all_versions)) as ->; [|done].
  unfold owned_versions, offered. clear. induction records as [|r l IH]; intros best; [done|].
  cbn [foldl omap list_omap]. rewrite IH.
  destruct (timed_symbol _ _ r) as [v|]; cbn [mbind option_bind omap list_omap]; [|done].
  cbn [fst snd]. case_bool_decide; [|done]. cbn [foldl]. f_equal.
  destruct best as [prev|]; [|done]. cbn [keep]. rewrite is_better_timed. by case_bool_decide.
Qed.

Lemma elem_of_fallback with_match r_opt :
  (∀ o, o ∈ with_match ↔ at_head o ≠ []) →
  r_opt ∈ fallback_repos with_match records symbol_name index repo ↔ falls_back r_opt.
Proof.
  intros Hw. unfold fallback_repos, falls_back.
  assert (∀ l, r_opt ∈ dedup_by_key id (sort_by opt_cmp l) ↔ r_opt ∈ l) as Hmem.
  { intros l. split.
    - intros Hin%dedup_by_key_elem. by rewrite sort_by_perm in Hin.
    - intros Hin. rewrite <-(sort_by_perm opt_cmp) in Hin.
      apply (dedup_by_key_key id) in Hin as (y & Hy & Hyr). cbn in Hyr. by subst y. }
  rewrite Hmem. clear Hmem. specialize (Hw) as Hw'.
  assert (∀ o, o ∉ with_match ↔ at_head o = []) as Hn.
  { intros o. rewrite Hw. destruct (at_head o); [naive_solver|]. split; [|done]. intros H. by destruct H. }
  destruct repo as [repo_id|].
  - case_bool_decide as Hin.
    + split; [by intros ?%elem_of_nil|]. intros [_ Hnil]. by apply Hn in Hnil.
    + rewrite list_elem_of_singleton, <-Hn. naive_solver.
  - rewrite list_elem_of_omap. split.
    + intros (r & Hr & Hf). exists r. destruct (is_named_symbol symbol_name r); [|done].
      destruct (owner r) as [o|] eqn:Ho; case_bool_decide as Hin; try done; injection Hf as <-.
      * split_and!; [done..|]. by apply Hn.
      * split_and!; [done..|]. intros o. apply Hn. by rewrite Hin.
    + intros (r & Hr & Hname & Ho & Hnone). exists r. split; [done|]. rewrite Hname, Ho.
      destruct r_opt as [o|].
      * rewrite bool_decide_eq_false_2; [done|]. by apply Hn.
      * rewrite bool_decide_eq_true_2; [done|]. apply set_eq. intros o.
        specialize (Hnone o). apply Hn in Hnone. set_solver.
Qed.

(** The answer at HEAD. For each repository with a symbol of the name stamped at its head the
    row is the one of least id; every other repository that has the symbol falls back to its
    newest version, and so do the versions nobody owns when no repository has a match at its
    head. There is at most one row per owner, and the rows are sorted by id. *)
Theorem head_symbols_exact :
  let rows := resolve_head_symbols instant parse_from_rfc3339 records symbol_name index repo in
  (∀ r, r ∈ rows ↔
     (∃ o, selects by_id (at_head o) r)
     ∨ ∃ r_opt vt, falls_back r_opt ∧ selects timed_cmp (offered r_opt all_versions) (r, vt))
  ∧ NoDup (owner_of index <$> (GraphRecord.id <$> rows))
  ∧ StronglySorted (cmp_le by_id) rows.
Proof.
  cbn zeta. unfold resolve_head_symbols. pose proof head_matches_spec as Hm.
  destruct (head_matches _ _ _ _ _) as [best with_match]. destruct Hm as [Hbest Hwith].
  set (fb := fallback_repos with_match records symbol_name index repo).
  set (old := omap (λ r_opt, fst <$> newest_of_owner instant parse_from_rfc3339 records symbol_name index r_opt) fb).
  assert (∀ r_opt r, (fst <$> newest_of_owner instant parse_from_rfc3339 records symbol_name index r_opt) = Some r
    → owner r = r_opt) as Hown.
  { intros r_opt r Hr. destruct (newest_of_owner _ _ _ _ _ r_opt) as [v|] eqn:Hv; [|done].
    injection Hr as <-. apply newest_of_owner_Some, selects_elem, elem_of_offered in Hv.
    symmetry. by eapply owned_versions_owner. }
  assert (∀ k r, best !! k = Some r → owner r = k) as Hbown.
  { intros k r (o & -> & Hs%selects_elem)%Hbest. unfold at_head in Hs.
    apply list_elem_of_filter in Hs as [Hmat _]. by apply head_match_owner. }
  split_and!.
  - intros r. rewrite sort_by_perm, elem_of_app, elem_of_into_values.
    assert ((∃ k, best !! k = Some r) ↔ ∃ o, selects by_id (at_head o) r) as ->
      by (setoid_rewrite Hbest; naive_solver).
    apply or_iff_compat_l.
    unfold old. rewrite list_elem_of_omap. unfold fb. split.
    + intros (r_opt & Hin%elem_of_fallback & Hr); [|done].
      destruct (newest_of_owner _ _ _ _ _ r_opt) as [[r' vt]|] eqn:Hv; [|done]. injection Hr as ->.
      exists r_opt, vt. split; [done|]. by apply newest_of_owner_Some.
    + intros (r_opt & vt & Hf & Hs). exists r_opt. split; [by apply elem_of_fallback|].
      apply newest_of_owner_Some in Hs. by rewrite Hs.
  - rewrite sort_by_perm, <-list_fmap_compose, fmap_app. apply NoDup_app. split_and!.
    + by apply into_values_NoDup.
    + intros k (r & -> & (k' & Hk')%elem_of_into_values)%list_elem_of_fmap.
      intros (r' & Ho & (r_opt & Hin & Hr')%list_elem_of_omap)%list_elem_of_fmap. cbn in Ho.
      rewrite (Hbown _ _ Hk'), (Hown _ _ Hr') in Ho. subst k'.
      apply Hbest in Hk' as (o & -> & Hs).
      assert (at_head o ≠ []) as Hne by (intros Hnil; rewrite Hnil in Hs; by apply selects_elem, elem_of_nil in Hs).
      apply elem_of_fallback in Hin; [|done]. unfold falls_back in Hin.
      destruct repo; [by destruct Hin as [[= <-] ?]|]. by destruct Hin as (? & _ & _ & _ & ?).
    + assert (NoDup fb) as Hnd.
      { apply (dedup_sorted_NoDup opt_cmp); [apply opt_cmp_Eq|]. apply sort_by_sorted, _. }
      unfold old. clear -Hnd Hown. induction Hnd as [|r_opt l Hr _ IH]; csimpl; [constructor|].
      destruct (fst <$> newest_of_owner _ _ _ _ _ r_opt) as [r|] eqn:Hn; csimpl; [|done].
      constructor; [|done]. rewrite (Hown _ _ Hn).
      intros (r' & Ho & (r_opt' & Hin & Hr')%list_elem_of_omap)%list_elem_of_fmap. cbn in Ho.
      rewrite (Hown _ _ Hr') in Ho. by subst.
  - apply sort_by_sorted, _.
Qed.
End Head.

(** ** Concrete stores *)
Module AsOfDemo.
Definition parse (s : string) : result Z string :=
  match s with
  | String c EmptyString => Ok (Z.of_N (Ascii.N_of_ascii c))
  | _ => Err "bad"
  end.
Definition repository (id sha : string) : GraphRecord :=
  GraphRecord.on_node (λ n, n{{ NodeRec.source_snapshot :=
      Some (SourceSnapshotPayload.mk (SnapshotHead.Commit sha) false id "") }})
    (GraphRecord.node id NodeKind.Repository None None (Some "r") "").
Definition symbol (id commit at_ : string) : GraphRecord :=
  GraphRecord.on_node (λ n, n{{ NodeRec.temporal :=
      Some (TemporalMetadata.mk commit [] at_ None at_ None) }})
    (GraphRecord.node id NodeKind.Symbol None None (Some "run") "").
Definition contains (id target : string) : GraphRecord :=
  GraphRecord.edge (λ s, s) EdgeLabel.Contains id target None "".
Definition gone (id : string) : GraphRecord :=
  Tombstone {| TombRec.id := "t" +:+ id; TombRec.schema_version := 1%N; TombRec.deleted_id := id;
               TombRec.summary := ""; TombRec.producer := None |}.

(** Two repositories; the first has a commit after the one [f] was dropped in. *)
Definition store : list GraphRecord :=
  [repository "codegraph:v2:a" "c2"; repository "codegraph:v2:b" "d1";
   contains "codegraph:v2:a" "f"; contains "codegraph:v2:a" "g"; contains "codegraph:v2:b" "h";
   symbol "f" "c1" "1"; symbol "g" "c1" "1"; symbol "g" "c2" "2"; symbol "h" "d1" "3"].
Definition with_index {A} (f : RepositoryIndex.t → A) : option A := f <$> RepoIndex.build store.

Example demo_head :
  with_index (λ i, iter (non_head_current_record_ids store i)) = Some ["f"]
  ∧ with_index (λ i, GraphRecord.id <$> resolve_head_symbols id parse store "run" i None) = Some ["g"; "h"]
  ∧ with_index (λ i, match symbol_as_of_valid_time_by_repo id parse store "run" "1" i None with
                     | Ok rows => GraphRecord.id <$> rows | Err _ => [] end) = Some ["f"].
Proof. vm_compute. repeat split. Qed.

(** A repository that was deleted and scanned again is live for [Liveness] and in the
    repository index, but [collect_repo_heads] still leaves it out, so its store counts as one
    without a snapshot and no lane anchors to its head. *)
Definition revived : list GraphRecord :=
  [repository "codegraph:v2:a" "c1"; gone "codegraph:v2:a"; repository "codegraph:v2:a" "c2"].
Theorem revived_repository_has_no_head :
  Liveness.deleted (Liveness.new revived) "codegraph:v2:a" = false
  ∧ (RepoIndex.repository_ids <$> RepoIndex.build revived) = Some ["codegraph:v2:a"]
  ∧ store_has_source_snapshot revived = false.
Proof. vm_compute. repeat split. Qed.
End AsOfDemo.
