(* ===== verification/DependencyCycles.v ===== *)
(** * Dependency cycles of a scanned graph

    [src/src/query/cycles.rs], [dependency_cycles], with the import-name helpers of
    [src/src/query/memory_audit.rs]: the file-level dependency graph is built from
    the live records, its elementary cycles are enumerated by [CycleSearch] and
    reported with their evidence. [None] is a panic of the code: an index
    ([BTreeMap] or [Vec]) with an absent key. *)
From S2P Require Import Prelude RustStr Ir IrOps Liveness CycleSearch RepoIndex.

(** ** Import names *)

(* query/memory_audit.rs 167-169: last_path_segment *)
Definition last_path_segment (name : string) : string := rsplit_first "::" name.

(* query/memory_audit.rs 173-182: import_item_name *)
Definition import_item_name (item : string) : option string :=
  let base := trim item in
  let base := trim (match split_once " as " base with Some (b, _) => b | None => base end) in
  let seg := trim (last_path_segment base) in
  if (seg =s? "") || (seg =s? "*") || (seg =s? "self") then None else Some seg.

(* query/memory_audit.rs 218-228: imported_symbol_names *)
Definition imported_symbol_names (import_path : string) : list string :=
  let trimmed := trim import_path in
  match split_once "{" trimmed with
  | None => option_list (import_item_name trimmed)
  | Some (_, inner) =>
      let inner := default inner (strip_suffix "}" inner) in
      omap import_item_name (split_char COMMA inner)
  end.

Example import_names :
  imported_symbol_names "crate::a::{X, Y as Z, self, b::W}" = ["X"; "Y"; "W"]
  ∧ imported_symbol_names "a::b::C as D" = ["C"] ∧ imported_symbol_names "a::*" = [].
Proof. vm_compute. auto. Qed.

(** ** Data *)

(** [(repository_id, repo_relative_path)], query/cycles.rs line 22. *)
Abbreviation FileKey := (string * string)%type.

Module CycleEvidence.
(* query/cycles.rs 26-36: CycleEvidence *)
Record t : Type := mk {
  relation : string;
  record_id : string;
  resolution : option CallResolution.t
}.
End CycleEvidence.

Module CycleEdge.
(* query/cycles.rs 40-52: CycleEdge *)
Record t : Type := mk {
  from : string;
  to : string;
  relations : list string;
  evidence : list CycleEvidence.t;
  evidence_total : nat
}.
End CycleEdge.

Module CycleMember.
(* query/cycles.rs 56-61: CycleMember *)
Record t : Type := mk { record_id : string; repo_relative_path : string }.
End CycleMember.

Module DependencyCycle.
(* query/cycles.rs 69-74: DependencyCycle *)
Record t : Type := mk { members : list CycleMember.t; edges : list CycleEdge.t }.
End DependencyCycle.

Module DependencyCycleCounts.
(* query/cycles.rs 80-111: DependencyCycleCounts *)
Record t : Type := mk {
  files : nat;
  dependency_edges : nat;
  calls_resolved : nat;
  calls_ambiguous_excluded : nat;
  calls_unresolved_excluded : nat;
  calls_unlabeled_excluded : nat;
  imports_resolved : nat;
  imports_ambiguous_excluded : nat;
  imports_external : nat;
  imports_non_rust_excluded : nat
}.
Definition zero : t := mk 0 0 0 0 0 0 0 0 0 0.
End DependencyCycleCounts.

Module DependencyCycleDiagnostic.
(* query/cycles.rs 115-124: DependencyCycleDiagnostic *)
Record t : Type := mk { code : string; record_id : option string; detail : string }.
#[global] Instance t_eq_dec : EqDecision t.
Proof. solve_decision. Defined.
End DependencyCycleDiagnostic.

Module DependencyCycles.
(* query/cycles.rs 128-140: DependencyCycles *)
Record t : Type := mk {
  cycles : list DependencyCycle.t;
  cycles_total : nat;
  counts : DependencyCycleCounts.t;
  diagnostics : list DependencyCycleDiagnostic.t;
  truncated : bool
}.
End DependencyCycles.

Module FailureTargetKind.
(* query/failure_history.rs 12-27: FailureTargetKind *)
Inductive t : Set := Symbol | File | Task | Source | WorkingSet.
End FailureTargetKind.

Module ResolvedFailureTarget.
(* query/failure_history.rs 45-58: ResolvedFailureTarget *)
Record t : Type := mk {
  handle : string;
  kind : FailureTargetKind.t;
  anchor_ids : gset string;
  seed_failures : gset string;
  stale : bool
}.
End ResolvedFailureTarget.

(* query/cycles.rs 13-13: MAX_DEPENDENCY_CYCLES *)
Definition MAX_DEPENDENCY_CYCLES : nat := 100.
(* query/cycles.rs 17-17: MAX_CYCLE_EVIDENCE_PER_EDGE *)
Definition MAX_CYCLE_EVIDENCE_PER_EDGE : nat := 8.

(** ** The dependency graph *)

(** What the loops over the records accumulate: the tallies, the adjacency and the
    evidence of every edge. *)
Record Deps : Type := mkDeps {
  tally : DependencyCycleCounts.t;
  adjacency : gmap FileKey (gset FileKey);
  edge_evidence : gmap (FileKey * FileKey) (gmap (string * string) (option CallResolution.t))
}.

Section Graph.
Context (records : list GraphRecord) (repo_index : RepositoryIndex.t)
        (repo_scope : option string).

Definition deleted (id : string) : bool := Liveness.deleted (Liveness.new records) id.

(* query/cycles.rs 288-288: dependency_cycles *)
Definition owner (id : string) : string := default "" (owner_of repo_index id).

(* query/cycles.rs 289-289: dependency_cycles *)
Definition in_scope (id : string) : bool :=
  match repo_scope with Some scope => owner id =s? scope | None => true end.

(** The live in-scope nodes of a kind with a path, as the key of their file. *)
Definition file_key (kind : NodeKind.t) (r : GraphRecord) : option (NodeRec.t * FileKey) :=
  match r with
  | Node n =>
      match n.(NodeRec.repo_relative_path) with
      | Some path =>
          if bool_decide (n.(NodeRec.kind) = kind)
             && negb (deleted n.(NodeRec.id) || negb (in_scope n.(NodeRec.id)))
          then Some (n, (owner n.(NodeRec.id), path)) else None
      | None => None
      end
  | _ => None
  end.

(* query/cycles.rs 295-316: dependency_cycles *)
Definition files : gmap FileKey GraphRecord :=
  foldl (λ m r,
    match file_key NodeKind.File r with
    | Some (n, key) =>
        match m !! key with
        | Some existing =>
            if bool_decide (String.compare n.(NodeRec.id) (GraphRecord.id existing) = Lt)
            then <[key := r]> m else m
        | None => <[key := r]> m
        end
    | None => m
    end) ∅ records.

(* query/cycles.rs 319-342: dependency_cycles *)
Definition symbol_file : gmap string FileKey :=
  foldl (λ m r,
    match file_key NodeKind.Symbol r with
    | Some (n, key) => <[n.(NodeRec.id) := key]> m
    | None => m
    end) ∅ records.

(* query/cycles.rs 320-342: dependency_cycles *)
Definition defs_by_name : gmap string (gset FileKey) :=
  foldl (λ m r,
    match file_key NodeKind.Symbol r with
    | Some (n, key) =>
        match n.(NodeRec.name) with
        | Some name =>
            let segment := last_path_segment name in
            <[segment := {[key]} ∪ default ∅ (m !! segment)]> m
        | None => m
        end
    | None => m
    end) ∅ records.

(* query/cycles.rs 351-361: dependency_cycles *)
Definition add_dependency (from to : FileKey) (relation record_id : string)
    (resolution : option CallResolution.t) (d : Deps) : Deps :=
  mkDeps d.(tally)
    (<[from := {[to]} ∪ default ∅ (d.(adjacency) !! from)]> d.(adjacency))
    (<[(from, to) := <[(relation, record_id) := resolution]>
                       (default ∅ (d.(edge_evidence) !! (from, to)))]> d.(edge_evidence)).

Definition bump (f : DependencyCycleCounts.t → DependencyCycleCounts.t) (d : Deps) : Deps :=
  mkDeps (f d.(tally)) d.(adjacency) d.(edge_evidence).

(** What the loop over [CALLS] edges does with one record. *)
Inductive call_class : Type :=
| CallSkipped
| CallAmbiguous
| CallUnresolved
| CallUnlabeled
| CallDependency (from to : FileKey) (e : EdgeRec.t).

(* query/cycles.rs 366-426: dependency_cycles *)
Definition classify_call (entry : nat * GraphRecord) : call_class :=
  match entry.2 with
  | Edge e =>
      if negb (bool_decide (e.(EdgeRec.label) = EdgeLabel.Calls)) then CallSkipped
      else if negb (Liveness.is_latest_edge_version (Liveness.new records)
                      e.(EdgeRec.id) entry.1) then CallSkipped
      else if deleted e.(EdgeRec.id) then CallSkipped
      else
        match symbol_file !! e.(EdgeRec.source) with
        | None => CallSkipped
        | Some from =>
            match e.(EdgeRec.resolution) with
            | Some CallResolution.Ambiguous => CallAmbiguous
            | Some (CallResolution.Unresolved | CallResolution.UnresolvedDispatch) =>
                CallUnresolved
            | Some CallResolution.Resolved | None =>
                match symbol_file !! e.(EdgeRec.target) with
                | None => CallSkipped
                | Some to =>
                    if bool_decide (from = to) || is_none (files !! from)
                       || is_none (files !! to) then CallSkipped
                    else if is_none e.(EdgeRec.resolution) then CallUnlabeled
                    else CallDependency from to e
                end
            end
        end
  | _ => CallSkipped
  end.

(* query/cycles.rs 397-427: dependency_cycles *)
Definition add_call (d : Deps) (entry : nat * GraphRecord) : Deps :=
  match classify_call entry with
  | CallSkipped => d
  | CallAmbiguous =>
      bump (λ c, c{{ DependencyCycleCounts.calls_ambiguous_excluded ::= S }}) d
  | CallUnresolved =>
      bump (λ c, c{{ DependencyCycleCounts.calls_unresolved_excluded ::= S }}) d
  | CallUnlabeled =>
      bump (λ c, c{{ DependencyCycleCounts.calls_unlabeled_excluded ::= S }}) d
  | CallDependency from to e =>
      add_dependency from to "CALLS" e.(EdgeRec.id) e.(EdgeRec.resolution)
        (bump (λ c, c{{ DependencyCycleCounts.calls_resolved ::= S }}) d)
  end.

(** The files of the repository that define the name. *)
(* query/cycles.rs 462-470: dependency_cycles *)
Definition candidates (repo segment : string) : gset FileKey :=
  filter (λ key, key.1 = repo) (default ∅ (defs_by_name !! segment)).

(* query/cycles.rs 461-481: dependency_cycles *)
Definition add_import_item (repo : string) (from : FileKey) (id : string) (d : Deps)
    (segment : string) : Deps :=
  match elements (candidates repo segment) with
  | [] => bump (λ c, c{{ DependencyCycleCounts.imports_external ::= S }}) d
  | [to] =>
      let d := bump (λ c, c{{ DependencyCycleCounts.imports_resolved ::= S }}) d in
      if negb (bool_decide (to = from)) then add_dependency from to "IMPORTS" id None d else d
  | _ => bump (λ c, c{{ DependencyCycleCounts.imports_ambiguous_excluded ::= S }}) d
  end.

(* query/cycles.rs 437-482: dependency_cycles *)
Definition add_import (d : Deps) (r : GraphRecord) : Deps :=
  match r with
  | Node n =>
      match n.(NodeRec.kind), n.(NodeRec.name), n.(NodeRec.repo_relative_path) with
      | NodeKind.Import, Some name, Some path =>
          if deleted n.(NodeRec.id) || negb (in_scope n.(NodeRec.id)) then d
          else if negb (bool_decide (n.(NodeRec.language) = Some "rust")) then
            bump (λ c, c{{ DependencyCycleCounts.imports_non_rust_excluded ::= S }}) d
          else
            let repo := owner n.(NodeRec.id) in
            let from := (repo, path) in
            if is_none (files !! from) then d
            else foldl (add_import_item repo from n.(NodeRec.id)) d (imported_symbol_names name)
      | _, _, _ => d
      end
  | _ => d
  end.

(* query/cycles.rs 345-485: dependency_cycles *)
Definition deps : Deps :=
  let d := mkDeps DependencyCycleCounts.zero ∅ ∅ in
  let d := foldl add_call d (imap pair records) in
  let d := foldl add_import d records in
  bump (λ c, c{{ DependencyCycleCounts.files := size files;
                 DependencyCycleCounts.dependency_edges := size d.(edge_evidence) }}) d.

(** ** Vertices *)

(* query/cycles.rs 489-489: dependency_cycles *)
Definition path_repo_cmp (a b : FileKey) : comparison :=
  then_cmp (String.compare a.2 b.2) (String.compare a.1 b.1).

(** The vertices in canonical order. The keys are distinct, so the sort has one
    result whatever order it starts from ([vertices_unique]). *)
(* query/cycles.rs 488-489: dependency_cycles *)
Definition vertices : list FileKey := sort_by path_repo_cmp (elements (dom files)).

(** [index_of[key]]; [None] is the panic on an absent key. *)
(* query/cycles.rs 490-491: dependency_cycles *)
Definition index_of (key : FileKey) : option nat := fst <$> list_find (λ k, k = key) vertices.

(** [cycles.sort()]: the lexicographic order on vectors. *)
Fixpoint list_cmp (a b : list nat) : comparison :=
  match a, b with
  | [], [] => Eq
  | [], _ :: _ => Lt
  | _ :: _, [] => Gt
  | x :: a, y :: b => then_cmp (Nat.compare x y) (list_cmp a b)
  end.

(** The adjacency lists of the vertices: [adj[index_of[from]].push(index_of[to])] over
    the adjacency, then sorted. *)
(* query/cycles.rs 492-500: dependency_cycles *)
Definition adjacency_lists (d : Deps) : option (list (list nat)) :=
  let pairs := map_to_list d.(adjacency) ≫= λ kv, pair kv.1 <$> elements kv.2 in
  let?o adj := foldM (λ (adj : list (list nat)) (edge : FileKey * FileKey),
    let?o i := index_of edge.1 in
    let?o j := index_of edge.2 in
    let?o row := adj !! i in
    Some (<[i := row ++ [j]]> adj)) (replicate (length vertices) []) pairs in
  Some (merge_sort (≤)%nat <$> adj).

(** The sorted index cycles and the truncation flag. *)
(* query/cycles.rs 484-504: dependency_cycles *)
Definition index_cycles : option (list (list nat) * bool) :=
  let?o adj := adjacency_lists deps in
  let?o found := enumerate_elementary_cycles adj MAX_DEPENDENCY_CYCLES in
  Some (sort_by list_cmp found.1, found.2).

End Graph.

(** ** Scope, materialization and diagnostics *)
Section Report.
Context (records : list GraphRecord) (repo_index : RepositoryIndex.t)
        (repo_scope : option string).

Abbreviation the_files := (files records repo_index repo_scope).
Abbreviation the_vertices := (vertices records repo_index repo_scope).

(** The vertices of the files the scope target's anchors live in. *)
(* query/cycles.rs 509-521: dependency_cycles *)
Definition scope_indices (target : ResolvedFailureTarget.t) : gset nat :=
  let by_id : gmap string GraphRecord :=
    foldl (λ m r, <[GraphRecord.id r := r]> m) ∅ records in
  list_to_set (omap (λ anchor,
    let?o record := by_id !! anchor in
    match record with
    | Node n =>
        let?o path := n.(NodeRec.repo_relative_path) in
        index_of records repo_index repo_scope (owner repo_index anchor, path)
    | _ => None
    end) (elements target.(ResolvedFailureTarget.anchor_ids))).

(* query/cycles.rs 508-523: dependency_cycles *)
Definition retain_scope (scope_target : option ResolvedFailureTarget.t)
    (cycles : list (list nat)) : list (list nat) :=
  match scope_target with
  | None => cycles
  | Some target =>
      filter (λ cycle, Exists (λ v, v ∈ scope_indices target) cycle) cycles
  end.

(* query/cycles.rs 529-538: dependency_cycles *)
Definition member (i : nat) : option CycleMember.t :=
  let?o key := the_vertices !! i in
  let?o file := the_files !! key in
  Some (CycleMember.mk (GraphRecord.id file) key.2).

(** The evidence of an edge in key order. *)
Definition contributions (d : Deps) (from to : FileKey)
    : list ((string * string) * option CallResolution.t) :=
  sort_by (λ a b : (string * string) * option CallResolution.t,
      then_cmp (String.compare a.1.1 b.1.1) (String.compare a.1.2 b.1.2))
    (map_to_list (default ∅ (d.(edge_evidence) !! (from, to)))).

(* query/cycles.rs 542-573: dependency_cycles *)
Definition cycle_edge (d : Deps) (indices : list nat) (pos i : nat)
    : option CycleEdge.t :=
  let?o from := the_vertices !! i in
  let?o next := indices !! ((pos + 1) mod length indices) in
  let?o to := the_vertices !! next in
  let cs := contributions d from to in
  Some (CycleEdge.mk from.2 to.2
    (str_sort (remove_dups ((λ c, c.1.1) <$> cs)))
    ((λ c, CycleEvidence.mk c.1.1 c.1.2 c.2) <$> take MAX_CYCLE_EVIDENCE_PER_EDGE cs)
    (length cs)).

(* query/cycles.rs 526-577: dependency_cycles *)
Definition materialize (d : Deps) (indices : list nat) : option DependencyCycle.t :=
  let?o members := mapM member indices in
  let?o edges := mapM (λ pi, cycle_edge d indices pi.1 pi.2) (imap pair indices) in
  Some (DependencyCycle.mk members edges).

Definition num (n : nat) : string := dec (N.of_nat n).

(** One diagnostic when the condition holds. *)
Definition diagnose (b : bool) (code detail : string) : list DependencyCycleDiagnostic.t :=
  if b then [DependencyCycleDiagnostic.mk code None detail] else [].

(* query/cycles.rs 579-654: dependency_cycles *)
Definition diagnostics (scoped : bool) (cycles : list DependencyCycle.t)
    (c : DependencyCycleCounts.t) (truncated : bool) : list DependencyCycleDiagnostic.t :=
  diagnose (bool_decide (cycles = [])) "acyclic"
    (if bool_decide (the_files = ∅) then "graph contains no code-graph file records"
     else if scoped then "no dependency cycle includes the scoped node"
     else "no dependency cycles detected over resolved CALLS and unambiguous IMPORTS dependency edges")
  ++ diagnose (bool_decide (0 < c.(DependencyCycleCounts.calls_ambiguous_excluded)
                              + c.(DependencyCycleCounts.imports_ambiguous_excluded)))
       "ambiguous_dependencies_excluded"
       (num c.(DependencyCycleCounts.calls_ambiguous_excluded)
        +:+ " ambiguous CALLS edge(s) and "
        +:+ num c.(DependencyCycleCounts.imports_ambiguous_excluded)
        +:+ " ambiguous import(s) were excluded from cycle detection; ambiguity never fabricates a cycle")
  ++ diagnose (bool_decide (0 < c.(DependencyCycleCounts.calls_unresolved_excluded)))
       "unresolved_calls_excluded"
       (num c.(DependencyCycleCounts.calls_unresolved_excluded)
        +:+ " unresolved CALLS edge(s) have no in-repo target and were excluded from cycle detection")
  ++ diagnose (bool_decide (0 < c.(DependencyCycleCounts.calls_unlabeled_excluded)))
       "unlabeled_calls_excluded"
       (num c.(DependencyCycleCounts.calls_unlabeled_excluded)
        +:+ " cross-file CALLS edge(s) carry no resolution label (store predates issues #152/#134?) and were excluded from cycle detection; absence never means resolved — re-scan to label them")
  ++ diagnose (bool_decide (0 < c.(DependencyCycleCounts.imports_non_rust_excluded)))
       "non_rust_imports_excluded"
       (num c.(DependencyCycleCounts.imports_non_rust_excluded)
        +:+ " non-Rust import declaration(s) are outside this slice's Rust-only import name resolution and were excluded from cycle detection; their absence from the cycle set is not proof of acyclicity")
  ++ diagnose truncated "cycles_truncated"
       ("cycle enumeration stopped at " +:+ num MAX_DEPENDENCY_CYCLES
        +:+ " cycles; the returned set is the canonical prefix").

(* query/cycles.rs 655-660: dependency_cycles *)
Definition diagnostic_cmp (a b : DependencyCycleDiagnostic.t) : comparison :=
  then_cmp (String.compare a.(DependencyCycleDiagnostic.code) b.(DependencyCycleDiagnostic.code))
    (then_cmp (opt_cmp a.(DependencyCycleDiagnostic.record_id)
                       b.(DependencyCycleDiagnostic.record_id))
       (String.compare a.(DependencyCycleDiagnostic.detail)
                       b.(DependencyCycleDiagnostic.detail))).

(** [Vec::dedup]: the first of every run of equal elements. *)
Fixpoint dedup {A} `{EqDecision A} (l : list A) : list A :=
  match l with
  | [] => []
  | x :: l' =>
      x :: match dedup l' with
           | [] => []
           | y :: l'' => if bool_decide (x = y) then l'' else y :: l''
           end
  end.

(* query/cycles.rs 271-664: dependency_cycles *)
Definition dependency_cycles (scope_target : option ResolvedFailureTarget.t)
    : option DependencyCycles.t :=
  let d := deps records repo_index repo_scope in
  let?o found := index_cycles records repo_index repo_scope in
  let '(cycles, truncated) := found in
  let?o materialized := mapM (materialize d) (retain_scope scope_target cycles) in
  Some (DependencyCycles.mk materialized (length cycles) d.(tally)
    (dedup (sort_by diagnostic_cmp
       (diagnostics (is_some scope_target) materialized d.(tally) truncated)))
    truncated).

End Report.

(** ** The dependency relation *)
Section Relation.
Context (records : list GraphRecord) (repo_index : RepositoryIndex.t)
        (repo_scope : option string).

Abbreviation the_files := (files records repo_index repo_scope).
Abbreviation the_symbols := (symbol_file records repo_index repo_scope).

(** The live latest resolved [CALLS] edge [e] leads from the file [f] to the other
    file [g]. *)
Definition call_dependency (f g : FileKey) (e : EdgeRec.t) : Prop :=
  ∃ i, records !! i = Some (Edge e)
    ∧ e.(EdgeRec.label) = EdgeLabel.Calls
    ∧ Liveness.is_latest_edge_version (Liveness.new records) e.(EdgeRec.id) i = true
    ∧ deleted records e.(EdgeRec.id) = false
    ∧ e.(EdgeRec.resolution) = Some CallResolution.Resolved
    ∧ the_symbols !! e.(EdgeRec.source) = Some f
    ∧ the_symbols !! e.(EdgeRec.target) = Some g
    ∧ f ≠ g ∧ is_Some (the_files !! f) ∧ is_Some (the_files !! g).

(** The live in-scope Rust import [n] of the file [f] names an item that only the
    file [g] of its repository defines. *)
Definition import_dependency (f g : FileKey) (n : NodeRec.t) : Prop :=
  Node n ∈ records
  ∧ n.(NodeRec.kind) = NodeKind.Import
  ∧ n.(NodeRec.language) = Some "rust"
  ∧ deleted records n.(NodeRec.id) = false
  ∧ in_scope repo_index repo_scope n.(NodeRec.id) = true
  ∧ n.(NodeRec.repo_relative_path) = Some f.2
  ∧ owner repo_index n.(NodeRec.id) = f.1
  ∧ is_Some (the_files !! f) ∧ f ≠ g
  ∧ ∃ name segment, n.(NodeRec.name) = Some name ∧ segment ∈ imported_symbol_names name
      ∧ candidates records repo_index repo_scope f.1 segment = {[g]}.

(** The record with this relation and id is a reason for [f] to depend on [g]. *)
Definition reason (f g : FileKey) (relation id : string) : Prop :=
  (relation = "CALLS" ∧ ∃ e, call_dependency f g e ∧ e.(EdgeRec.id) = id)
  ∨ (relation = "IMPORTS" ∧ ∃ n, import_dependency f g n ∧ n.(NodeRec.id) = id).

Definition depends (f g : FileKey) : Prop := ∃ relation id, reason f g relation id.

(** ** The accumulated graph is the relation *)
Definition adjacent (d : Deps) (f g : FileKey) : Prop :=
  g ∈ (default ∅ (d.(adjacency) !! f) : gset FileKey).
Definition evident (d : Deps) (f g : FileKey) (relation id : string) : Prop :=
  is_Some ((default ∅ (d.(edge_evidence) !! (f, g)) : gmap (string * string) _)
           !! (relation, id)).

Lemma adjacent_add f g rel id res d f' g' :
  adjacent (add_dependency f g rel id res d) f' g' ↔ adjacent d f' g' ∨ (f' = f ∧ g' = g).
Proof.
  unfold adjacent, add_dependency; cbn [adjacency]. destruct (decide (f' = f)) as [->|Hf].
  - rewrite lookup_insert_eq. simpl. set_solver.
  - rewrite lookup_insert_ne by done. naive_solver.
Qed.

Lemma evident_add f g rel id res d f' g' rel' id' :
  evident (add_dependency f g rel id res d) f' g' rel' id' ↔
  evident d f' g' rel' id' ∨ (f' = f ∧ g' = g ∧ rel' = rel ∧ id' = id).
Proof.
  unfold evident, add_dependency; cbn [edge_evidence].
  destruct (decide ((f', g') = (f, g))) as [[= -> ->]|Hf].
  - rewrite lookup_insert_eq. simpl. rewrite lookup_insert_is_Some.
    destruct (decide ((rel', id') = (rel, id))) as [[= -> ->]|]; naive_solver.
  - rewrite lookup_insert_ne by done. naive_solver.
Qed.

Lemma bump_graph h d f g rel id :
  (adjacent (bump h d) f g ↔ adjacent d f g) ∧ (evident (bump h d) f g rel id ↔ evident d f g rel id).
Proof. done. Qed.

Lemma elements_singleton_iff (X : gset FileKey) x : elements X = [x] ↔ X = {[x]}.
Proof.
  split.
  - intros He. apply set_eq. intros y. rewrite <-elem_of_elements, He. set_solver.
  - intros ->. apply elements_singleton.
Qed.

Lemma classify_call_spec i r f g e :
  records !! i = Some r →
  classify_call records repo_index repo_scope (i, r) = CallDependency f g e →
  call_dependency f g e.
Proof.
  intros Hi. unfold classify_call. cbn [fst snd]. destruct r as [|e'|]; [done| |done].
  repeat case_match; try done; intros; simplify_eq; breflect;
    unfold is_none, is_some in *; exists i; split_and!;
    repeat match goal with
    | H : negb (match ?x with Some _ => true | None => false end) = false |- is_Some ?x =>
        destruct x; done
    | H : (match ?x with Some _ => true | None => false end) = true |- is_Some ?x =>
        destruct x; done
    end; try done.
Qed.
Lemma classify_call_complete f g e :
  call_dependency f g e →
  ∃ i, records !! i = Some (Edge e)
    ∧ classify_call records repo_index repo_scope (i, Edge e) = CallDependency f g e.
Proof.
  intros (i & Hi & Hl & Hv & Hd & Hr & Hs & Ht & Hne & [r1 H1] & [r2 H2]).
  exists i. split; [done|]. unfold classify_call. cbn [fst snd].
  by rewrite bool_decide_eq_true_2, Hv, Hd, Hs, Hr, Ht, (bool_decide_eq_false_2 (f = g)), H1, H2.
Qed.

Lemma add_call_graph d i r f g rel id :
  records !! i = Some r →
  let d' := add_call records repo_index repo_scope d (i, r) in
  let Q := ∃ e, classify_call records repo_index repo_scope (i, r) = CallDependency f g e
                ∧ rel = "CALLS" ∧ e.(EdgeRec.id) = id in
  (evident d' f g rel id ↔ evident d f g rel id ∨ Q)
  ∧ (adjacent d' f g ↔ adjacent d f g
       ∨ ∃ e, classify_call records repo_index repo_scope (i, r) = CallDependency f g e).
Proof.
  intros Hi. cbn zeta. unfold add_call.
  destruct (classify_call _ _ _ _) as [| | | |f' g' e]; [naive_solver..|].
  rewrite evident_add, adjacent_add. destruct (bump_graph
    (λ c, c{{ DependencyCycleCounts.calls_resolved ::= S }}) d f g rel id) as [-> ->].
  split; split; intros [?|Hx]; auto; right.
  - destruct Hx as (-> & -> & -> & ->). eauto.
  - destruct Hx as (e' & [= -> -> ->] & -> & <-). done.
  - destruct Hx as (-> & ->). eauto.
  - by destruct Hx as (e' & [= -> -> _]).
Qed.

(** The items of one import declaration. *)
Lemma add_import_items_graph repo from id0 segments d f g rel id :
  let d' := foldl (add_import_item records repo_index repo_scope repo from id0) d segments in
  let Q := f = from ∧ f ≠ g ∧ ∃ segment, segment ∈ segments
             ∧ candidates records repo_index repo_scope repo segment = {[g]} in
  (evident d' f g rel id ↔ evident d f g rel id ∨ (Q ∧ rel = "IMPORTS" ∧ id = id0))
  ∧ (adjacent d' f g ↔ adjacent d f g ∨ Q).
Proof.
  cbn zeta.
  assert (∀ d segment,
    let d' := add_import_item records repo_index repo_scope repo from id0 d segment in
    let Q := f = from ∧ f ≠ g ∧ candidates records repo_index repo_scope repo segment = {[g]} in
    (evident d' f g rel id ↔ evident d f g rel id ∨ (Q ∧ rel = "IMPORTS" ∧ id = id0))
    ∧ (adjacent d' f g ↔ adjacent d f g ∨ Q)) as Hone.
  { clear. intros d segment. cbn zeta. unfold add_import_item.
    rewrite <-elements_singleton_iff.
    destruct (elements _) as [|to [|? ?]]; [naive_solver| |naive_solver].
    case_bool_decide as Hto; cbn [negb]; [naive_solver|].
    rewrite evident_add, adjacent_add. destruct (bump_graph
      (λ c, c{{ DependencyCycleCounts.imports_resolved ::= S }}) d f g rel id) as [-> ->].
    naive_solver. }
  split.
  - rewrite (foldl_or _ (λ d, evident d f g rel id)
      (λ segment, (f = from ∧ f ≠ g
         ∧ candidates records repo_index repo_scope repo segment = {[g]})
       ∧ rel = "IMPORTS" ∧ id = id0)) by (intros; apply Hone). naive_solver.
  - rewrite (foldl_or _ (λ d, adjacent d f g)
      (λ segment, f = from ∧ f ≠ g
         ∧ candidates records repo_index repo_scope repo segment = {[g]}))
      by (intros; apply Hone). naive_solver.
Qed.

Lemma add_import_graph d r f g rel id :
  r ∈ records →
  let d' := add_import records repo_index repo_scope d r in
  (evident d' f g rel id ↔ evident d f g rel id
     ∨ ∃ n, r = Node n ∧ import_dependency f g n ∧ rel = "IMPORTS" ∧ n.(NodeRec.id) = id)
  ∧ (adjacent d' f g ↔ adjacent d f g ∨ ∃ n, r = Node n ∧ import_dependency f g n).
Proof.
  intros Hr. cbn zeta. unfold add_import.
  destruct r as [n| |]; [|naive_solver..].
  assert (∀ d, (¬ import_dependency f g n) →
    (evident d f g rel id ↔ evident d f g rel id
       ∨ ∃ n0, Node n = Node n0 ∧ import_dependency f g n0 ∧ rel = "IMPORTS"
               ∧ n0.(NodeRec.id) = id)
    ∧ (adjacent d f g ↔ adjacent d f g ∨ ∃ n0, Node n = Node n0 ∧ import_dependency f g n0))
    as Hskip by naive_solver.
  destruct (decide (n.(NodeRec.kind) = NodeKind.Import)) as [Hk|Hk].
  2: { assert (¬ import_dependency f g n) by (by intros (_ & ? & _)).
       destruct n.(NodeRec.kind); first [by apply Hskip|done]. }
  rewrite Hk. destruct n.(NodeRec.name) as [name|] eqn:Hname.
  2: { apply Hskip. intros (_ & _ & _ & _ & _ & _ & _ & _ & _ & ? & ? & ? & _). congruence. }
  destruct n.(NodeRec.repo_relative_path) as [path|] eqn:Hpath.
  2: { apply Hskip. intros (_ & _ & _ & _ & _ & ? & _). congruence. }
  destruct (deleted records n.(NodeRec.id)) eqn:Hd; cbn [orb].
  { apply Hskip. intros (_ & _ & _ & ? & _). congruence. }
  destruct (in_scope _ _ _) eqn:Hs; cbn [negb].
  2: { apply Hskip. intros (_ & _ & _ & _ & ? & _). congruence. }
  case_bool_decide as Hlang; cbn [negb].
  2: { refine (Hskip d _). by intros (_ & _ & ? & _). }
  destruct (the_files !! (owner repo_index n.(NodeRec.id), path)) as [file|] eqn:Hfile; cbn.
  2: { apply Hskip. intros (_ & _ & _ & _ & _ & Hp & Ho & Hf & _).
       destruct f as [repo p]. cbn in Hp, Ho. rewrite Hpath in Hp. injection Hp as <-.
       subst repo. destruct Hf as [x Hf]. by pose proof (eq_trans (eq_sym Hfile) Hf). }
  destruct (add_import_items_graph (owner repo_index n.(NodeRec.id))
    (owner repo_index n.(NodeRec.id), path) n.(NodeRec.id) (imported_symbol_names name)
    d f g rel id) as [-> ->].
  assert ((f = (owner repo_index n.(NodeRec.id), path) ∧ f ≠ g
    ∧ ∃ segment, segment ∈ imported_symbol_names name
      ∧ candidates records repo_index repo_scope (owner repo_index n.(NodeRec.id)) segment = {[g]})
    ↔ import_dependency f g n) as ->.
  { unfold import_dependency. rewrite Hk, Hname, Hpath, Hd, Hs, Hlang.
    destruct f as [repo p]. cbn. split.
    - intros ([= -> ->] & Hne & seg & Hseg & Hc). split_and!; try done. by exists name, seg.
    - intros (_ & _ & _ & _ & _ & [= ->] & <- & _ & Hne & name' & seg & [= <-] & Hseg & Hc).
      split_and!; [done..|]. by exists seg. }
  split; naive_solver.
Qed.

(** The graph the loops build is the dependency relation, with every reason as
    evidence. *)
Lemma deps_graph f g :
  (∀ rel id, evident (deps records repo_index repo_scope) f g rel id ↔ reason f g rel id)
  ∧ (adjacent (deps records repo_index repo_scope) f g ↔ depends f g).
Proof.
  unfold deps. set (d0 := mkDeps _ ∅ ∅).
  assert (∀ rel id, ¬ evident d0 f g rel id) as He0.
  { intros rel id. unfold evident, d0. cbn. rewrite lookup_empty. cbn.
    rewrite lookup_empty. by intros []. }
  assert (¬ adjacent d0 f g) as Ha0.
  { unfold adjacent, d0. cbn. rewrite lookup_empty. cbn. set_solver. }
  assert (∀ e, (∃ x, x ∈ imap pair records
      ∧ classify_call records repo_index repo_scope x = CallDependency f g e)
    ↔ call_dependency f g e) as Hcall.
  { intros e. split.
    - intros ([i r] & Hx%elem_of_imap_pair & Hc). by eapply classify_call_spec.
    - intros (i & Hi & Hc)%classify_call_complete. exists (i, Edge e).
      split; [by apply elem_of_imap_pair|done]. }
  split.
  - intros rel id.
    destruct (bump_graph (λ c, c{{ DependencyCycleCounts.files := size the_files;
      DependencyCycleCounts.dependency_edges := size (edge_evidence
        (foldl (add_import records repo_index repo_scope)
          (foldl (add_call records repo_index repo_scope) d0 (imap pair records)) records)) }})
      (foldl (add_import records repo_index repo_scope)
        (foldl (add_call records repo_index repo_scope) d0 (imap pair records)) records)
      f g rel id) as [_ ->].
    rewrite (foldl_or _ (λ d, evident d f g rel id) (λ r, ∃ n, r = Node n
      ∧ import_dependency f g n ∧ rel = "IMPORTS" ∧ n.(NodeRec.id) = id))
      by (intros; by apply add_import_graph).
    rewrite (foldl_or _ (λ d, evident d f g rel id) (λ x, ∃ e,
      classify_call records repo_index repo_scope x = CallDependency f g e
      ∧ rel = "CALLS" ∧ e.(EdgeRec.id) = id))
      by (intros d [i r] Hx%elem_of_imap_pair; by apply add_call_graph).
    unfold reason. setoid_rewrite <-Hcall. split.
    + intros [[?|?]|(r & Hr & n & -> & ?)]; naive_solver.
    + intros [(-> & e & (x & ? & ?) & <-)|(-> & n & Hn & <-)]; [left; right; eauto 10|].
      right. exists (Node n). split; [by destruct Hn|eauto].
  - destruct (bump_graph (λ c, c{{ DependencyCycleCounts.files := size the_files;
      DependencyCycleCounts.dependency_edges := size (edge_evidence
        (foldl (add_import records repo_index repo_scope)
          (foldl (add_call records repo_index repo_scope) d0 (imap pair records)) records)) }})
      (foldl (add_import records repo_index repo_scope)
        (foldl (add_call records repo_index repo_scope) d0 (imap pair records)) records)
      f g "" "") as [-> _].
    rewrite (foldl_or _ (λ d, adjacent d f g) (λ r, ∃ n, r = Node n ∧ import_dependency f g n))
      by (intros; by apply (add_import_graph _ _ _ _ "" "")).
    rewrite (foldl_or _ (λ d, adjacent d f g) (λ x, ∃ e,
      classify_call records repo_index repo_scope x = CallDependency f g e))
      by (intros d [i r] Hx%elem_of_imap_pair; by apply (add_call_graph _ _ _ _ _ "" "")).
    unfold depends, reason. setoid_rewrite <-Hcall. split.
    + intros [[?|(x & ? & e & ?)]|(r & Hr & n & -> & ?)]; [done|eauto 10|eauto 10].
    + intros (rel & id & [(-> & e & (x & ? & ?) & <-)|(-> & n & Hn & <-)]); [left; right; eauto|].
      right. exists (Node n). split; [by destruct Hn|eauto].
Qed.

(** ** Vertices *)
Abbreviation the_vertices := (vertices records repo_index repo_scope).
Abbreviation the_deps := (deps records repo_index repo_scope).
Abbreviation the_index := (index_of records repo_index repo_scope).

Lemma vertices_perm : the_vertices ≡ₚ elements (dom the_files).
Proof. apply sort_by_perm. Qed.

Lemma vertices_NoDup : NoDup the_vertices.
Proof. rewrite vertices_perm. apply NoDup_elements. Qed.

Lemma elem_of_vertices f : f ∈ the_vertices ↔ is_Some (the_files !! f).
Proof. by rewrite vertices_perm, elem_of_elements, elem_of_dom. Qed.

(** The order of the vertices: by path, then by repository. *)
Definition key_le (a b : FileKey) : Prop := lex_le (λ k : FileKey, k.2) (λ k, k.1) a b.

Lemma key_le_antisymm a b : key_le a b → key_le b a → a = b.
Proof.
  intros H1 H2. destruct (lex_le_antisymm _ _ _ _ H1 H2), a, b. simpl in *. congruence.
Qed.

(** Whatever order the keys come in, the sort arranges them the same way. *)
Lemma vertices_unique l : l ≡ₚ elements (dom the_files) → sort_by path_repo_cmp l = the_vertices.
Proof.
  intros Hl. apply (StronglySorted_unique_strong key_le).
  - intros a b _ _. apply key_le_antisymm.
  - apply (sort_by_lex_sorted (λ k : FileKey, k.2) (λ k, k.1)).
  - apply (sort_by_lex_sorted (λ k : FileKey, k.2) (λ k, k.1)).
  - by rewrite vertices_perm, sort_by_perm.
Qed.

Lemma vertices_lt i j f g :
  the_vertices !! i = Some f → the_vertices !! j = Some g →
  i < j ↔ key_le f g ∧ f ≠ g.
Proof.
  assert (∀ i j f g, the_vertices !! i = Some f → the_vertices !! j = Some g → i < j →
    key_le f g) as Hle.
  { clear i j f g. intros i j f g Hi Hj Hij.
    pose proof (sort_by_lex_sorted (λ k : FileKey, k.2) (λ k, k.1) (elements (dom the_files)))
      as Hs. fold the_vertices in Hs. change (sort_by _ _) with the_vertices in Hs.
    rewrite <-(take_drop_middle _ _ _ Hi) in Hs.
    apply StronglySorted_app in Hs as (_ & _ & Hs). apply StronglySorted_cons in Hs as [Hs _].
    apply (proj1 (Forall_forall _ _) Hs). apply list_elem_of_lookup. exists (j - S i).
    rewrite lookup_drop. by replace (S i + (j - S i)) with j by lia. }
  intros Hi Hj. split.
  - intros Hij. split; [by eapply Hle|]. intros ->.
    pose proof (NoDup_lookup _ _ _ _ vertices_NoDup Hi Hj). lia.
  - intros [Hfg Hne]. destruct (decide (i < j)) as [|Hij]; [done|]. exfalso.
    destruct (decide (i = j)) as [->|]; [congruence|].
    apply Hne, key_le_antisymm; [done|]. apply (Hle j i); [done..|lia].
Qed.

Lemma index_of_spec f i : the_index f = Some i ↔ the_vertices !! i = Some f.
Proof.
  unfold index_of. rewrite fmap_Some. split.
  - intros ([j k] & (Hj & Hk & _)%list_find_Some & ->). by subst.
  - intros Hi. destruct (list_find_elem_of (λ k, k = f) the_vertices f) as [[j k] Hj];
      [by eapply list_elem_of_lookup_2|done|].
    exists (j, k). split; [done|]. apply list_find_Some in Hj as (Hj & -> & _).
    by eapply NoDup_lookup; [apply vertices_NoDup|..].
Qed.

Lemma index_of_None f : the_index f = None ↔ the_files !! f = None.
Proof.
  destruct (the_index f) as [i|] eqn:Hi.
  - apply index_of_spec, list_elem_of_lookup_2, elem_of_vertices in Hi as [x ->]. done.
  - split; [|done]. intros _. destruct (the_files !! f) as [x|] eqn:Hf; [|done]. exfalso.
    assert (f ∈ the_vertices) as [j Hj]%list_elem_of_lookup by by apply elem_of_vertices.
    apply index_of_spec in Hj. congruence.
Qed.

(** ** The adjacency lists *)
Definition dep_pairs : list (FileKey * FileKey) :=
  map_to_list the_deps.(adjacency) ≫= λ kv, pair kv.1 <$> elements kv.2.

Lemma dep_pairs_spec f g : (f, g) ∈ dep_pairs ↔ depends f g.
Proof.
  rewrite <-(proj2 (deps_graph f g)). unfold dep_pairs, adjacent. rewrite list_elem_of_bind.
  setoid_rewrite list_elem_of_fmap. split.
  - intros ([f' gs] & (g' & [= -> ->] & Hg) & Hf%elem_of_map_to_list).
    rewrite Hf. cbn. by apply elem_of_elements.
  - destruct (adjacency the_deps !! f) as [gs|] eqn:Hf; cbn; [|set_solver]. intros Hg.
    exists (f, gs). split; [|by apply elem_of_map_to_list].
    exists g. split; [done|]. by apply elem_of_elements.
Qed.

Lemma dep_pairs_NoDup : NoDup dep_pairs.
Proof.
  unfold dep_pairs. apply NoDup_bind.
  - intros [f gs] [f' gs'] [h k] Hf%elem_of_map_to_list Hf'%elem_of_map_to_list.
    rewrite !list_elem_of_fmap. intros (? & [= <- <-] & _) (? & [= <-] & _). cbn in *. congruence.
  - intros [f gs] _. apply NoDup_fmap_2; [|apply NoDup_elements]. by intros ?? [= ->].
  - apply NoDup_map_to_list.
Qed.

Lemma foldM_None {A B} (f : B → A → option B) (l : list A) (b : B) x :
  x ∈ l → (∀ b, f b x = None) → foldM f b l = None.
Proof.
  intros Hx Hf. revert b. induction l as [|y l IH]; intros b; [by apply elem_of_nil in Hx|].
  cbn. apply elem_of_cons in Hx as [<-|Hx]; [by rewrite Hf|].
  destruct (f b y); [|done]. cbn. by apply IH.
Qed.

(** Every dependency has both ends among the files. *)
Definition closed_dependencies : Prop :=
  ∀ f g, depends f g → is_Some (the_files !! f) ∧ is_Some (the_files !! g).

Lemma depends_from f g : depends f g → is_Some (the_files !! f).
Proof.
  intros (rel & id & [(_ & e & (i & He) & _)|(_ & n & Hn & _)]).
  - by destruct_and!.
  - by destruct Hn as (_ & _ & _ & _ & _ & _ & _ & ? & _).
Qed.

(** The rows after the pairs [pre] have been pushed. *)
Definition rows (pre : list (FileKey * FileKey)) (adj : list (list nat)) : Prop :=
  length adj = length the_vertices
  ∧ ∀ i f, the_vertices !! i = Some f →
      ∃ row, adj !! i = Some row ∧ NoDup row
        ∧ ∀ j, j ∈ row ↔ ∃ g, the_vertices !! j = Some g ∧ (f, g) ∈ pre.

Lemma rows_step pre f g i j adj row :
  rows pre adj → (f, g) ∉ pre → the_vertices !! i = Some f → the_vertices !! j = Some g →
  adj !! i = Some row → rows (pre ++ [(f, g)]) (<[i := row ++ [j]]> adj).
Proof.
  intros [Hlen Hrows] Hnew Hi Hj Hrow. split; [by rewrite length_insert|].
  intros i' f' Hi'. destruct (Hrows i' f' Hi') as (row' & Hrow' & Hnd & Hmem).
  setoid_rewrite elem_of_app. setoid_rewrite list_elem_of_singleton.
  destruct (decide (i' = i)) as [->|Hne].
  - simplify_eq. exists (row ++ [j]). split_and!.
    + apply list_lookup_insert_eq. by eapply lookup_lt_Some.
    + apply NoDup_app. split_and!; [done| |apply NoDup_singleton].
      intros j' Hj' ->%list_elem_of_singleton. apply Hmem in Hj' as (g' & Hg' & Hin).
      by simplify_eq.
    + intros j'. rewrite elem_of_app, list_elem_of_singleton, Hmem. split.
      * intros [(g' & ? & ?)| ->]; eauto.
      * intros (g' & Hg' & [?|[= ->]]); [left; eauto|right].
        by eapply NoDup_lookup; [apply vertices_NoDup|..].
  - exists row'. split_and!; [by rewrite list_lookup_insert_ne|done|].
    intros j'. rewrite Hmem. split; [intros (g' & ? & ?); eauto|].
    intros (g' & Hg' & [?|[= -> ->]]); [eauto|]. destruct Hne.
    by eapply NoDup_lookup; [apply vertices_NoDup|..].
Qed.

Lemma adjacency_lists_spec :
  closed_dependencies →
  ∃ adj, adjacency_lists records repo_index repo_scope the_deps = Some adj
    ∧ well_indexed adj ∧ Forall NoDup adj
    ∧ ∀ i j, edge adj i j ↔
        ∃ f g, the_vertices !! i = Some f ∧ the_vertices !! j = Some g ∧ depends f g.
Proof.
  intros Hclosed. unfold adjacency_lists. fold dep_pairs.
  destruct (foldM_inv (λ (adj : list (list nat)) (edge : FileKey * FileKey),
    let?o i := the_index edge.1 in let?o j := the_index edge.2 in
    let?o row := adj !! i in Some (<[i := row ++ [j]]> adj)) rows dep_pairs
    (replicate (length the_vertices) [])) as (adj & Hfold & [Hlen Hrows]).
  - split; [by rewrite length_replicate|]. intros i f Hi. exists []. split_and!.
    + apply lookup_replicate_2. by eapply lookup_lt_Some.
    + constructor.
    + intros j. split; [by intros ?%elem_of_nil|]. by intros (? & _ & ?%elem_of_nil).
  - intros pre [f g] post adj Hl Hadj.
    assert ((f, g) ∈ dep_pairs) as Hin by (rewrite Hl; set_solver).
    apply dep_pairs_spec, Hclosed in Hin as [[x Hf] [y Hg]].
    destruct (the_index f) as [i|] eqn:Hi; [|by apply index_of_None in Hi; simplify_eq].
    destruct (the_index g) as [j|] eqn:Hj; [|by apply index_of_None in Hj; simplify_eq].
    cbn [fst snd mbind option_bind]. rewrite Hi, Hj. cbn [mbind option_bind].
    apply index_of_spec in Hi, Hj.
    destruct (proj2 Hadj i f Hi) as (row & Hrow & _). rewrite Hrow. cbn [mbind option_bind].
    eexists. split; [done|]. apply (rows_step pre f g); try done.
    pose proof dep_pairs_NoDup as Hnd. rewrite Hl in Hnd.
    apply NoDup_app in Hnd as (_ & Hd & _). intros Hpre. apply (Hd _ Hpre). by left.
  - rewrite Hfold. cbn [mbind option_bind]. eexists. split; [done|].
    assert (∀ i row, (merge_sort (≤)%nat <$> adj) !! i = Some row →
      ∃ f, the_vertices !! i = Some f ∧ NoDup row
        ∧ ∀ j, j ∈ row ↔ ∃ g, the_vertices !! j = Some g ∧ depends f g) as Hrow.
    { intros i row. rewrite list_lookup_fmap, fmap_Some. intros (row0 & Hrow0 & ->).
      destruct (lookup_lt_is_Some_2 the_vertices i) as [f Hf].
      { rewrite <-Hlen. by eapply lookup_lt_Some. }
      destruct (Hrows i f Hf) as (row' & Hrow' & Hnd & Hmem). simplify_eq.
      exists f. split_and!; [done|by rewrite merge_sort_Permutation|].
      intros j. rewrite merge_sort_Permutation, Hmem. by setoid_rewrite dep_pairs_spec. }
    split_and!.
    + intros i row j Hi Hj. destruct (Hrow i row Hi) as (f & _ & _ & Hmem).
      destruct (proj1 (Hmem j) Hj) as (g & Hg & _). rewrite length_fmap, Hlen. by eapply lookup_lt_Some.
    + apply Forall_lookup_2. intros i row Hi. by destruct (Hrow i row Hi) as (_ & _ & ? & _).
    + intros i j. split.
      * intros (row & Hi & Hj). destruct (Hrow i row Hi) as (f & Hf & _ & Hmem).
        destruct (proj1 (Hmem j) Hj) as (g & Hg & Hd). eauto.
      * intros (f & g & Hf & Hg & Hd). destruct (Hrows i f Hf) as (row & Hr & _ & _).
        exists (merge_sort (≤)%nat row). assert ((merge_sort (≤)%nat <$> adj) !! i
          = Some (merge_sort (≤)%nat row)) as Hi by (by rewrite list_lookup_fmap, Hr).
        split; [done|]. destruct (Hrow i _ Hi) as (f' & Hf' & _ & Hmem). simplify_eq.
        apply Hmem. eauto.
Qed.

Lemma adjacency_lists_None f g :
  depends f g → the_files !! g = None →
  adjacency_lists records repo_index repo_scope the_deps = None.
Proof.
  intros Hd Hg. unfold adjacency_lists. fold dep_pairs.
  rewrite (foldM_None _ _ _ (f, g)); [done|by apply dep_pairs_spec|].
  intros adj. cbn [fst snd]. apply index_of_None in Hg. rewrite Hg.
  by destruct (the_index f).
Qed.

(** ** Cycles of files *)

(** [ks] visits distinct files, starts at its least one in (path, repository) order,
    follows dependencies and closes. *)
Definition file_cycle (ks : list FileKey) : Prop :=
  ∃ r q, ks = r :: q ∧ NoDup ks ∧ Forall (λ x, key_le r x ∧ r ≠ x) q
         ∧ chain depends (ks ++ [r]).

(** The files of an index cycle. *)
Definition keys_of (c : list nat) : list FileKey := omap (λ i, the_vertices !! i) c.

(** The vertices [c] are the files [ks]. *)
Definition denotes (c : list nat) (ks : list FileKey) : Prop :=
  Forall2 (λ i f, the_vertices !! i = Some f) c ks.

Lemma denotes_keys_of c ks : denotes c ks → keys_of c = ks.
Proof. induction 1 as [|i f c ks Hi _ IH]; [done|]. unfold keys_of in *. csimpl. by rewrite Hi, IH. Qed.

Lemma denotes_inj c c' ks : denotes c ks → denotes c' ks → c = c'.
Proof.
  intros Hc. revert c'. induction Hc as [|i f c ks Hi _ IH]; intros c' Hc';
    inversion_clear Hc' as [|j ? c'' ? Hj Hrest]; [done|].
  f_equal; [by eapply NoDup_lookup; [apply vertices_NoDup|..]|by apply IH].
Qed.

Lemma denotes_NoDup c ks : denotes c ks → NoDup c ↔ NoDup ks.
Proof.
  induction 1 as [|i f c ks Hi Hc IH]; [split; constructor|]. rewrite !NoDup_cons, IH.
  assert (i ∈ c ↔ f ∈ ks) as ->; [|done]. clear IH.
  induction Hc as [|j g c ks Hj _ IH]; [by rewrite !elem_of_nil|].
  rewrite !elem_of_cons, IH. split; (intros [->|?]; [left|by right]).
  - congruence.
  - by eapply NoDup_lookup; [apply vertices_NoDup|..].
Qed.

Lemma denotes_cycle adj c ks :
  (∀ i j, edge adj i j ↔
     ∃ f g, the_vertices !! i = Some f ∧ the_vertices !! j = Some g ∧ depends f g) →
  denotes c ks → elementary_cycle adj c ↔ file_cycle ks.
Proof.
  intros Hedge Hc. unfold elementary_cycle, file_cycle.
  assert (∀ c ks r f, denotes c ks → the_vertices !! r = Some f →
    chain (edge adj) (c ++ [r]) ↔ chain depends (ks ++ [f])) as Hchain.
  { clear c ks Hc. intros c ks r f Hc Hr.
    assert (denotes (c ++ [r]) (ks ++ [f])) as Hall
      by (apply Forall2_app; [done|by constructor]).
    revert Hall. generalize (c ++ [r]) (ks ++ [f]). intros l k Hl.
    assert (∀ i a b, l !! i = Some a → k !! i = Some b → the_vertices !! a = Some b) as Hat
      by (intros i a b Ha Hb; by apply (Forall2_lookup_lr _ _ _ _ _ _ Hl Ha Hb)).
    split; intros H i x y Hx Hy.
    - destruct (Forall2_lookup_r _ _ _ _ _ Hl Hx) as (a & Ha & _).
      destruct (Forall2_lookup_r _ _ _ _ _ Hl Hy) as (b & Hb & _).
      specialize (H i a b Ha Hb). apply Hedge in H as (f' & g' & Hf & Hg & Hd).
      pose proof (Hat _ _ _ Ha Hx). pose proof (Hat _ _ _ Hb Hy). by simplify_eq.
    - destruct (Forall2_lookup_l _ _ _ _ _ Hl Hx) as (a & Ha & _).
      destruct (Forall2_lookup_l _ _ _ _ _ Hl Hy) as (b & Hb & _).
      apply Hedge. exists a, b. split_and!; [by eapply Hat..|by eapply H]. }
  assert (∀ r f q qs, the_vertices !! r = Some f → denotes q qs →
    Forall (λ x, r < x) q ↔ Forall (λ x, key_le f x ∧ f ≠ x) qs) as Hmin.
  { intros r f q qs Hr Hq. induction Hq as [|j g q qs Hj _ IH]; [split; constructor|].
    rewrite !Forall_cons, IH. by rewrite (vertices_lt _ _ _ _ Hr Hj). }
  split.
  - intros (r & q & -> & Hnd & Hq & Hch). inversion Hc as [|? f ? qs Hr Hqs]; subst.
    exists f, qs. split_and!; [done|by apply (denotes_NoDup _ _ Hc)|by apply (Hmin r _ q)|].
    by apply (Hchain _ _ _ _ Hc Hr).
  - intros (f & qs & -> & Hnd & Hq & Hch). inversion Hc as [|r ? q ? Hr Hqs]; subst.
    exists r, q. split_and!; [done|by apply (denotes_NoDup _ _ Hc)|by apply (Hmin _ f _ qs)|].
    by apply (Hchain _ _ _ _ Hc Hr).
Qed.

(** The step after a position of a cycle, around its end. *)
Lemma cycle_next ks pos f g :
  file_cycle ks → ks !! pos = Some f → ks !! ((pos + 1) mod length ks) = Some g →
  depends f g.
Proof.
  intros (r & q & -> & _ & _ & Hch) Hf Hg. apply (Hch pos).
  - by apply lookup_app_l_Some.
  - pose proof (lookup_lt_Some _ _ _ Hf) as Hlt.
    destruct (decide (pos + 1 < length (r :: q))) as [Hl|Hl].
    + rewrite Nat.mod_small, Nat.add_comm in Hg by done. by apply lookup_app_l_Some.
    + assert (pos + 1 = length (r :: q)) as He by lia.
      rewrite He, Nat.Div0.mod_same in Hg. simplify_eq.
      rewrite <-Nat.add_1_r, He. by rewrite list_lookup_middle.
Qed.

Lemma cycle_denoted ks :
  closed_dependencies → file_cycle ks → ∃ c, denotes c ks.
Proof.
  intros Hclosed Hks.
  assert (Forall (λ f, ∃ i, the_vertices !! i = Some f) ks) as Hall.
  { apply Forall_lookup_2. intros pos f Hf.
    destruct (lookup_lt_is_Some_2 ks ((pos + 1) mod length ks)) as [g Hg].
    { apply Nat.mod_upper_bound. apply lookup_lt_Some in Hf. lia. }
    destruct (Hclosed f g) as [Hfile _]; [by eapply cycle_next|].
    by apply list_elem_of_lookup, elem_of_vertices. }
  clear Hks. induction Hall as [|f ks [i Hi] _ [c Hc]]; [exists []; constructor|].
  exists (i :: c). by constructor.
Qed.

Lemma elementary_denotes adj c :
  (∀ i j, edge adj i j ↔
     ∃ f g, the_vertices !! i = Some f ∧ the_vertices !! j = Some g ∧ depends f g) →
  elementary_cycle adj c → denotes c (keys_of c).
Proof.
  intros Hedge (r & q & -> & _ & _ & Hch).
  assert (Forall (λ i, is_Some (the_vertices !! i)) (r :: q)) as Hall.
  { apply Forall_lookup_2. intros pos i Hi.
    destruct (lookup_lt_is_Some_2 ((r :: q) ++ [r]) (S pos)) as [j Hj].
    { apply lookup_lt_Some in Hi. rewrite length_app. simpl in *. lia. }
    assert (edge adj i j) as (f & _ & Hf & _)%Hedge; [|by eauto].
    apply (Hch pos); [by apply lookup_app_l_Some|done]. }
  clear Hch. revert Hall. generalize (r :: q). clear.
  induction 1 as [|i c [f Hf] _ IH]; [constructor|].
  unfold keys_of. csimpl. rewrite Hf. constructor; [done|]. apply IH.
Qed.

(** ** Reports *)

Abbreviation the_contributions := (contributions the_deps).

Lemma contributions_spec f g rel id :
  (∃ res, ((rel, id), res) ∈ the_contributions f g) ↔ reason f g rel id.
Proof.
  rewrite <-(proj1 (deps_graph f g)). unfold contributions, evident.
  setoid_rewrite sort_by_perm. setoid_rewrite elem_of_map_to_list. done.
Qed.

(** The report of the edge from [f] to [g]: a positive number of reasons, at most
    eight of them cited, all genuine, and the relations they come from. *)
Definition edge_reported (f g : FileKey) (e : CycleEdge.t) : Prop :=
  e.(CycleEdge.from) = f.2 ∧ e.(CycleEdge.to) = g.2
  ∧ 0 < e.(CycleEdge.evidence_total)
  ∧ length e.(CycleEdge.evidence) = min MAX_CYCLE_EVIDENCE_PER_EDGE e.(CycleEdge.evidence_total)
  ∧ (∀ v, v ∈ e.(CycleEdge.evidence) →
       reason f g v.(CycleEvidence.relation) v.(CycleEvidence.record_id))
  ∧ (∀ rel, rel ∈ e.(CycleEdge.relations) ↔ ∃ id, reason f g rel id).

(** The report of the cycle [ks]. *)
Definition cycle_reported (ks : list FileKey) (dc : DependencyCycle.t) : Prop :=
  Forall2 (λ f m, m.(CycleMember.repo_relative_path) = f.2
             ∧ ∃ r, the_files !! f = Some r ∧ GraphRecord.id r = m.(CycleMember.record_id))
    ks dc.(DependencyCycle.members)
  ∧ length dc.(DependencyCycle.edges) = length ks
  ∧ ∀ pos f g e, ks !! pos = Some f → ks !! ((pos + 1) mod length ks) = Some g →
      dc.(DependencyCycle.edges) !! pos = Some e → edge_reported f g e.

Lemma cycle_edge_reported c pos i j f g :
  c !! pos = Some i → c !! ((pos + 1) mod length c) = Some j →
  the_vertices !! i = Some f → the_vertices !! j = Some g → depends f g →
  ∃ e, cycle_edge records repo_index repo_scope the_deps c pos i = Some e
       ∧ edge_reported f g e.
Proof.
  intros Hi Hj Hf Hg (rel & id & Hr). unfold cycle_edge.
  rewrite Hf. cbn [mbind option_bind]. rewrite Hj. cbn [mbind option_bind].
  rewrite Hg. cbn [mbind option_bind]. eexists. split; [done|].
  unfold edge_reported. cbn [CycleEdge.from CycleEdge.to CycleEdge.evidence_total
    CycleEdge.evidence CycleEdge.relations]. split_and!; [done|done| | | |].
  - apply contributions_spec in Hr as [res Hr].
    destruct (the_contributions f g); [by apply elem_of_nil in Hr|simpl; lia].
  - by rewrite length_fmap, length_take.
  - intros v ([[rel' id'] res] & -> & Hin)%list_elem_of_fmap. cbn.
    apply contributions_spec. exists res. by eapply elem_of_take in Hin as (? & ?%list_elem_of_lookup_2 & _).
  - intros rel'. rewrite str_sort_perm, elem_of_remove_dups, list_elem_of_fmap. split.
    + intros ([[rel'' id'] res] & -> & Hin). exists id'. apply contributions_spec. by exists res.
    + intros (id' & (res & Hin)%contributions_spec). by exists (rel', id', res).
Qed.

Lemma mapM_total {A B} (h : A → option B) (P : A → B → Prop) (l : list A) :
  (∀ x, x ∈ l → ∃ y, h x = Some y ∧ P x y) →
  ∃ k, mapM h l = Some k ∧ Forall2 P l k.
Proof.
  induction l as [|x l IH]; intros H; cbn; [exists []; split; [done|constructor]|].
  destruct (H x) as (y & Hy & HP); [by left|]. destruct IH as (k & Hk & HF).
  { intros z Hz. apply H. by right. }
  exists (y :: k). cbn. rewrite Hy. cbn. rewrite Hk. split; [done|by constructor].
Qed.

Lemma materialize_reported c ks :
  denotes c ks → file_cycle ks →
  ∃ dc, materialize records repo_index repo_scope the_deps c = Some dc ∧ cycle_reported ks dc.
Proof.
  intros Hc Hks. unfold materialize.
  destruct (mapM_total (member records repo_index repo_scope)
    (λ i m, ∀ f, the_vertices !! i = Some f → m.(CycleMember.repo_relative_path) = f.2
       ∧ ∃ r, the_files !! f = Some r ∧ GraphRecord.id r = m.(CycleMember.record_id)) c)
    as (ms & Hms & Hmem).
  { intros i Hi. apply list_elem_of_lookup in Hi as [pos Hpos].
    destruct (Forall2_lookup_l _ _ _ _ _ Hc Hpos) as (f & _ & Hf).
    assert (is_Some (the_files !! f)) as [r Hr]
      by (apply elem_of_vertices; by eapply list_elem_of_lookup_2).
    unfold member. rewrite Hf. cbn. rewrite Hr. cbn. eexists. split; [done|].
    intros f' Hf'. simplify_eq. cbn. eauto. }
  rewrite Hms. cbn [mbind option_bind].
  destruct (mapM_total (λ pi, cycle_edge records repo_index repo_scope the_deps c pi.1 pi.2)
    (λ pi e, ∀ f g, ks !! pi.1 = Some f → ks !! ((pi.1 + 1) mod length ks) = Some g →
       edge_reported f g e) (imap pair c)) as (es & Hes & Hedges).
  { intros [pos i] Hpos%elem_of_imap_pair. cbn [fst snd].
    destruct (Forall2_lookup_l _ _ _ _ _ Hc Hpos) as (f & Hfk & Hf).
    pose proof (Forall2_length _ _ _ Hc) as Hlen.
    destruct (lookup_lt_is_Some_2 c ((pos + 1) mod length c)) as [j Hj].
    { apply Nat.mod_upper_bound. apply lookup_lt_Some in Hpos. lia. }
    destruct (Forall2_lookup_l _ _ _ _ _ Hc Hj) as (g & Hgk & Hg). rewrite Hlen in Hgk.
    destruct (cycle_edge_reported c pos i j f g) as (e & He & Hr); try done.
    { by eapply cycle_next. }
    exists e. split; [done|]. intros f' g' Hf' Hg'. by simplify_eq. }
  rewrite Hes. cbn [mbind option_bind]. eexists. split; [done|].
  unfold cycle_reported. cbn [DependencyCycle.members DependencyCycle.edges]. split_and!.
  - clear -Hc Hmem. revert ms Hmem. induction Hc as [|i f c ks Hi _ IH]; intros ms Hmem;
      inversion Hmem as [|? m ? ms' Hm Hrest]; subst; constructor; auto.
  - apply Forall2_length in Hedges, Hc. rewrite length_imap in Hedges. congruence.
  - intros pos f g e Hf Hg He.
    destruct (Forall2_lookup_r _ _ _ _ _ Hedges He) as ([p i] & Hp & Hr).
    apply list_lookup_imap_Some in Hp as (i' & _ & [= -> ->]). by apply Hr.
Qed.

Lemma mapM_eq_None {A B} (h : A → option B) (l : list A) x :
  x ∈ l → h x = None → mapM h l = None.
Proof.
  intros Hx Hh. induction Hx as [x l|x y l _ IH]; cbn; [by rewrite Hh|].
  destruct (h y); [cbn|done]. by rewrite IH.
Qed.

(** The enumeration over the files: all file cycles in some order, and the sorted
    prefix of them that is kept. *)
Lemma index_cycles_spec :
  closed_dependencies →
  ∃ all cs, NoDup all ∧ (∀ ks, ks ∈ all ↔ file_cycle ks)
    ∧ index_cycles records repo_index repo_scope
      = Some (cs, bool_decide (MAX_DEPENDENCY_CYCLES < length all))
    ∧ Forall (λ c, denotes c (keys_of c)) cs
    ∧ keys_of <$> cs ≡ₚ take MAX_DEPENDENCY_CYCLES all.
Proof.
  intros Hclosed. destruct (adjacency_lists_spec Hclosed) as (adj & Hadj & Hwi & Hnd & Hedge).
  assert (∀ c, c ∈ all_closings adj → denotes c (keys_of c)) as Hden.
  { intros c Hc%all_closings_elem; [|done]. by eapply elementary_denotes. }
  exists (keys_of <$> all_closings adj), (sort_by list_cmp (take MAX_DEPENDENCY_CYCLES (all_closings adj))).
  split_and!.
  - apply NoDup_fmap_2_strong; [|by apply all_closings_NoDup].
    intros c c' Hc Hc' Heq. apply (denotes_inj c c' (keys_of c)); [by apply Hden|].
    rewrite Heq. by apply Hden.
  - intros ks. rewrite list_elem_of_fmap. split.
    + intros (c & -> & Hc). apply (denotes_cycle adj c); [done|by apply Hden|].
      by apply all_closings_elem.
    + intros Hks. destruct (cycle_denoted ks Hclosed Hks) as [c Hc]. exists c.
      split; [by rewrite (denotes_keys_of _ _ Hc)|].
      apply all_closings_elem; [done|]. by apply (denotes_cycle adj c ks).
  - unfold index_cycles. rewrite Hadj. cbn [mbind option_bind].
    rewrite enumerate_eq by done. cbn [mbind option_bind fst snd]. by rewrite length_fmap.
  - apply Forall_forall. intros c. rewrite sort_by_perm.
    intros (_ & Hc%list_elem_of_lookup_2 & _)%elem_of_take. by apply Hden.
  - by rewrite sort_by_perm, fmap_take.
Qed.

End Relation.

(** The whole answer, when the dependencies are closed. *)
Lemma dependency_cycles_spec records repo_index repo_scope :
  closed_dependencies records repo_index repo_scope →
  ∃ all cs ms,
    NoDup all ∧ (∀ ks, ks ∈ all ↔ file_cycle records repo_index repo_scope ks)
    ∧ keys_of records repo_index repo_scope <$> cs ≡ₚ take MAX_DEPENDENCY_CYCLES all
    ∧ index_cycles records repo_index repo_scope
      = Some (cs, bool_decide (MAX_DEPENDENCY_CYCLES < length all))
    ∧ mapM (materialize records repo_index repo_scope (deps records repo_index repo_scope)) cs
      = Some ms
    ∧ Forall2 (λ c dc, cycle_reported records repo_index repo_scope
                         (keys_of records repo_index repo_scope c) dc) cs ms.
Proof.
  intros Hclosed. destruct (index_cycles_spec _ _ _ Hclosed) as
    (all & cs & Hnd & Hall & Hidx & Hden & Hperm).
  destruct (mapM_total (materialize records repo_index repo_scope
      (deps records repo_index repo_scope))
    (λ c dc, cycle_reported records repo_index repo_scope
               (keys_of records repo_index repo_scope c) dc) cs) as (ms & Hms & HF).
  { intros c Hc. pose proof (proj1 (Forall_forall _ _) Hden c Hc) as Hcd.
    apply materialize_reported; [done|]. apply Hall.
    assert (keys_of records repo_index repo_scope c
      ∈ keys_of records repo_index repo_scope <$> cs) as Hin by by apply list_elem_of_fmap_2.
    rewrite Hperm in Hin. by apply elem_of_take in Hin as (_ & ?%list_elem_of_lookup_2 & _). }
  by exists all, cs, ms.
Qed.

(** Conversely an answer shows that the dependencies are closed. *)
Lemma index_cycles_closed records repo_index repo_scope r :
  index_cycles records repo_index repo_scope = Some r →
  closed_dependencies records repo_index repo_scope.
Proof.
  intros Hr f g Hd. split; [by eapply depends_from|].
  apply dec_stable. rewrite <-eq_None_not_Some. intros Hg.
  unfold index_cycles in Hr. by rewrite (adjacency_lists_None _ _ _ f g) in Hr.
Qed.

(** ** Properties *)

(** C2: When every dependency has both ends among the file records, the query
    succeeds and reports exactly the elementary cycles of the file dependency
    relation, each once and starting at its least file, or a hundred of them with
    the truncation flag when there are more. Every reported edge carries a positive
    count of reasons and cites at most eight, each a record that really makes the
    one file depend on the other. *)
Theorem dependency_cycles_complete records repo_index repo_scope :
  closed_dependencies records repo_index repo_scope →
  ∃ all kept result,
    NoDup all ∧ (∀ ks, ks ∈ all ↔ file_cycle records repo_index repo_scope ks)
    ∧ kept ≡ₚ take MAX_DEPENDENCY_CYCLES all
    ∧ dependency_cycles records repo_index repo_scope None = Some result
    ∧ result.(DependencyCycles.truncated) = bool_decide (MAX_DEPENDENCY_CYCLES < length all)
    ∧ result.(DependencyCycles.cycles_total) = length kept
    ∧ Forall2 (cycle_reported records repo_index repo_scope) kept
        result.(DependencyCycles.cycles).
Proof.
  intros Hclosed. destruct (dependency_cycles_spec _ _ _ Hclosed) as
    (all & cs & ms & Hnd & Hall & Hperm & Hidx & Hms & HF).
  eexists all, (keys_of records repo_index repo_scope <$> cs), _.
  split_and!; [done|done|done| | | |].
  - unfold dependency_cycles. rewrite Hidx. cbn [mbind option_bind retain_scope].
    rewrite Hms. cbn [mbind option_bind]. done.
  - done.
  - by rewrite length_fmap.
  - cbn. by apply Forall2_fmap_l.
Qed.

(** The query panics exactly when an import resolves to a defining file that has
    no live file record in scope: the calls loop checks both ends against the file
    records, the imports loop only the importing one. *)
Theorem dependency_cycles_panics_iff records repo_index repo_scope :
  dependency_cycles records repo_index repo_scope None = None ↔
  ∃ f g n, import_dependency records repo_index repo_scope f g n
           ∧ files records repo_index repo_scope !! g = None.
Proof.
  split.
  - intros Hnone.
    destruct (decide (Exists (λ fg : FileKey * FileKey,
      files records repo_index repo_scope !! fg.2 = None) (dep_pairs records repo_index repo_scope)))
      as [([f g] & Hin & Hg)%Exists_exists|Hno].
    + exists f, g. apply dep_pairs_spec in Hin as (rel & id & [(_ & e & He & _)|(_ & n & Hn & _)]).
      * destruct He as (i & He). destruct_and!. cbn in Hg.
        by match goal with H : is_Some (_ !! g) |- _ => rewrite Hg in H; destruct H end.
      * by exists n.
    + exfalso. destruct (dependency_cycles_spec records repo_index repo_scope) as
        (all & cs & ms & _ & _ & _ & Hidx & Hms & _).
      { intros f g Hd. split; [by eapply depends_from|].
        apply dec_stable. intros Hg. apply Hno, Exists_exists. exists (f, g).
        split; [by apply dep_pairs_spec|]. by apply eq_None_not_Some. }
      unfold dependency_cycles in Hnone. rewrite Hidx in Hnone. cbn in Hnone.
      by rewrite Hms in Hnone.
  - intros (f & g & n & Hn & Hg). unfold dependency_cycles, index_cycles.
    rewrite (adjacency_lists_None _ _ _ f g); [done| |done].
    exists "IMPORTS", n.(NodeRec.id). right. split; [done|]. by exists n.
Qed.

(** ** Concrete graphs *)
Definition demo_file (id path : string) : GraphRecord :=
  GraphRecord.node id NodeKind.File (Some path) None None "".
Definition demo_symbol (id path name : string) : GraphRecord :=
  GraphRecord.node id NodeKind.Symbol (Some path) None (Some name) "".
Definition demo_call (source target : string) : GraphRecord :=
  GraphRecord.with_resolution CallResolution.Resolved
    (GraphRecord.edge (λ s, s) EdgeLabel.Calls source target None "").
Definition demo_import (id path name : string) : GraphRecord :=
  GraphRecord.on_node (λ n, n{{ NodeRec.language := Some "rust" }})
    (GraphRecord.node id NodeKind.Import (Some path) None (Some name) "").
Definition no_repositories : RepositoryIndex.t := RepositoryIndex.mk ∅ ∅ ∅.

(** [a.rs] calls into [b.rs], which imports an item of [a.rs]. *)
Definition demo_records : list GraphRecord :=
  [demo_file "fa" "a.rs"; demo_file "fb" "b.rs"; demo_symbol "sa" "a.rs" "alpha";
   demo_symbol "sb" "b.rs" "beta"; demo_call "sa" "sb";
   demo_import "ib" "b.rs" "crate::a::alpha as first"].

(** The definition of [gamma] has no file record. *)
Definition orphan_records : list GraphRecord :=
  [demo_file "fa" "a.rs"; demo_symbol "sc" "c.rs" "gamma"; demo_import "ia" "a.rs" "crate::c::gamma"].

Definition member_paths (r : DependencyCycles.t) : list (list string) :=
  (λ dc, CycleMember.repo_relative_path <$> dc.(DependencyCycle.members))
    <$> r.(DependencyCycles.cycles).

Example demo_cycles :
  option_map member_paths (dependency_cycles demo_records no_repositories None None)
  = Some [["a.rs"; "b.rs"]]
  ∧ dependency_cycles orphan_records no_repositories None None = None.
Proof. vm_compute. auto. Qed.

Lemma dependency_cycles_complete_witness :
  ∃ all : list (list FileKey), (∀ ks, ks ∈ all ↔ file_cycle demo_records no_repositories None ks)
    ∧ ∃ result, dependency_cycles demo_records no_repositories None None = Some result.
Proof.
  destruct (index_cycles demo_records no_repositories None) as [r|] eqn:Hr;
    [|vm_compute in Hr; discriminate].
  destruct (dependency_cycles_complete demo_records no_repositories None
    (index_cycles_closed _ _ _ _ Hr)) as (all & kept & result & _ & Hall & _ & Hres & _).
  exists all. split; [exact Hall|]. exists result. exact Hres.
Defined.
