(* ===== verification/LogTemplate.v ===== *)
(** * Log templates: the [template-v1] normalization ([src/src/log_graph/template.rs])

    A message is the list of its [char]s (code points). Every [chars[i]] and slice of
    the source that can panic is an option here: [None] is the panic. A matcher
    [fn(&[char], usize) -> Option<usize>] therefore returns [option (option nat)].
    The [while] loops that only advance an index over a class of characters are the
    structural recursions [run] and [run_upto] over the rest of the message; the main
    loop and the segment loop of [match_duration] carry fuel. *)
From S2P Require Import Prelude.
From Stdlib Require Import Ascii NArith.

Module LogTemplate.

Abbreviation char := N.
Abbreviation chars_t := (list char).

(** The characters of an ASCII literal. *)
Definition lit_chars (s : string) : chars_t := N_of_ascii <$> String.list_ascii_of_string s.
Definition ch (c : ascii) : char := N_of_ascii c.
Definition LF : char := 10%N.

(** ** Matchers may panic ([None]), fail ([Some None]) or end at an index *)
Definition matched := option (option nat).

(** The [?] operator inside a matcher. *)
Definition and_then (m : matched) (k : nat → matched) : matched :=
  match m with Some (Some j) => k j | _ => m end.
Notation "'let!' x ':=' m 'in' k" := (and_then m (λ x, k))
  (at level 10, x name, m at level 100, k at level 200) : rust_scope.

(** [if let Some(end) = m { return Some(end) } n]. *)
Definition first_of (m n : matched) : matched :=
  match m with Some None => n | _ => m end.

(** [if b { m } else { None }] for a test [b] that may panic. *)
Definition guard_match (b : option bool) (m : matched) : matched :=
  match b with Some true => m | Some false => Some None | None => None end.

(** ** Characters *)
Definition between (lo hi c : char) : bool := (lo <=? c)%N && (c <=? hi)%N.
Definition is_ascii_digit (c : char) : bool := between 48 57 c.
Definition is_ascii_alphabetic (c : char) : bool := between 65 90 c || between 97 122 c.
Definition is_ascii_alphanumeric (c : char) : bool :=
  is_ascii_digit c || is_ascii_alphabetic c.
Definition is_ascii_hexdigit (c : char) : bool :=
  is_ascii_digit c || between 65 70 c || between 97 102 c.

(** [matches!(c, 'x' | 'y' | ..)]. *)
Definition is_one_of (s : string) (c : char) : bool := bool_decide (c ∈ lit_chars s).

(* log_graph/template.rs 63-65: is_word *)
Definition is_word (c : char) : bool := is_ascii_alphanumeric c || is_one_of "_" c.

(* log_graph/template.rs 414-416: is_path_segment_char *)
Definition is_path_segment_char (c : char) : bool :=
  is_ascii_alphanumeric c || is_one_of "/.-_" c.

(* log_graph/template.rs 418-420: is_path_char *)
Definition is_path_char (c : char) : bool :=
  is_ascii_alphanumeric c || is_one_of "\/.-_" c.

(** ** Slices *)

(** [chars.get(i..j)]; [&chars[i..j]] panics where this is [None]. *)
Definition slice (chars : chars_t) (i j : nat) : option chars_t :=
  if (i <=? j)%nat && (j <=? length chars)%nat then Some (take (j - i) (drop i chars)) else None.

(** [chars.get(i) == Some(&c)]. *)
Definition at_char (chars : chars_t) (i : nat) (c : ascii) : bool :=
  bool_decide (chars !! i = Some (ch c)).

(** [while j < chars.len() && p(chars[j]) { j += 1 }] over the rest of the message. *)
Fixpoint run (p : char → bool) (rest : chars_t) (j : nat) : nat :=
  match rest with
  | c :: rest' => if p c then run p rest' (S j) else j
  | [] => j
  end.
Definition scan (p : char → bool) (chars : chars_t) (i : nat) : nat := run p (drop i chars) i.

(** The same loop with the bound [j - start < n]. *)
Fixpoint run_upto (n : nat) (p : char → bool) (rest : chars_t) (j : nat) : nat :=
  match n, rest with
  | S n', c :: rest' => if p c then run_upto n' p rest' (S j) else j
  | _, _ => j
  end.
Definition scan_upto (n : nat) (p : char → bool) (chars : chars_t) (i : nat) : nat :=
  run_upto n p (drop i chars) i.

(** ** Boundaries *)

(* log_graph/template.rs 69-71: token_start *)
Definition token_start (chars : chars_t) (i : nat) : option bool :=
  if (i =? 0)%nat then Some true
  else match chars !! (i - 1)%nat with
       | Some c => Some (negb (is_word c))
       | None => None
       end.

(* log_graph/template.rs 75-77: boundary_after *)
Definition boundary_after (chars : chars_t) (e : nat) : option bool :=
  if (length chars <=? e)%nat then Some true
  else match chars !! e with
       | Some c => Some (negb (is_word c))
       | None => None
       end.

(** [if boundary_after(chars, j) { Some(j) } else { None }]. *)
Definition ends_at (chars : chars_t) (j : nat) : matched :=
  guard_match (boundary_after chars j) (Some (Some j)).

(* log_graph/template.rs 80-89: exact_digits *)
Definition exact_digits (chars : chars_t) (i n : nat) : matched :=
  if (length chars <? i + n)%nat then Some None
  else match slice chars i (i + n) with
       | Some s => if forallb is_ascii_digit s then Some (Some (i + n)%nat) else Some None
       | None => None
       end.

(* log_graph/template.rs 92-98: lit *)
Definition lit (chars : chars_t) (i : nat) (c : ascii) : matched :=
  if at_char chars i c then Some (Some (S i)) else Some None.

(* log_graph/template.rs 101-107: some_digits *)
Definition some_digits (chars : chars_t) (i : nat) : matched :=
  let j := scan is_ascii_digit chars i in
  if (i <? j)%nat then Some (Some j) else Some None.

(** [if chars.get(j) == Some(&'.') { j = some_digits(chars, j + 1)?; }]. *)
Definition opt_fraction (chars : chars_t) (j : nat) : matched :=
  if at_char chars j "." then some_digits chars (S j) else Some (Some j).

(** [HH:MM:SS] from [j]. *)
Definition hms (chars : chars_t) (j : nat) : matched :=
  let! j := exact_digits chars j 2 in
  let! j := lit chars j ":" in
  let! j := exact_digits chars j 2 in
  let! j := lit chars j ":" in
  exact_digits chars j 2.

(** [match chars.get(j) { Some('x' | 'y') => j += 1, _ => return None }]. *)
Definition one_of (chars : chars_t) (j : nat) (s : string) : matched :=
  match chars !! j with
  | Some c => if is_one_of s c then Some (Some (S j)) else Some None
  | None => Some None
  end.

(** The time zone: [Z], an offset [±HH[:]MM], or nothing. *)
Definition opt_zone (chars : chars_t) (j : nat) : matched :=
  if at_char chars j "Z" then Some (Some (S j))
  else if at_char chars j "+" || at_char chars j "-" then
    let! j := exact_digits chars (S j) 2 in
    let j := if at_char chars j ":" then S j else j in
    exact_digits chars j 2
  else Some (Some j).

(* log_graph/template.rs 126-156: match_iso *)
Definition match_iso (chars : chars_t) (i : nat) : matched :=
  let! j := exact_digits chars i 4 in
  let! j := lit chars j "-" in
  let! j := exact_digits chars j 2 in
  let! j := lit chars j "-" in
  let! j := exact_digits chars j 2 in
  let! j := one_of chars j "T " in
  let! j := hms chars j in
  let! j := opt_fraction chars j in
  opt_zone chars j.

(* log_graph/template.rs 158-172: match_clock *)
Definition match_clock (chars : chars_t) (i : nat) : matched :=
  let! j := hms chars i in
  let! j := opt_fraction chars j in
  ends_at chars j.

Definition MONTHS : list string :=
  ["Jan"; "Feb"; "Mar"; "Apr"; "May"; "Jun"; "Jul"; "Aug"; "Sep"; "Oct"; "Nov"; "Dec"].

(* log_graph/template.rs 174-206: match_syslog *)
Definition match_syslog (chars : chars_t) (i : nat) : matched :=
  if (length chars <? i + 3)%nat then Some None
  else match slice chars i (i + 3) with
  | None => None
  | Some abbrev =>
      if negb (bool_decide (abbrev ∈ (lit_chars <$> MONTHS))) then Some None
      else
        let j := (i + 3)%nat in
        let! j := lit chars j " " in
        let j := scan (is_one_of " ") chars j in
        let day_start := j in
        let j := scan_upto 2 is_ascii_digit chars j in
        if (j =? day_start)%nat then Some None
        else
          let! j := lit chars j " " in
          hms chars j
  end.

(* log_graph/template.rs 113-124: match_timestamp *)
Definition match_timestamp (chars : chars_t) (i : nat) : matched :=
  guard_match (token_start chars i)
    (first_of (match_iso chars i) (first_of (match_syslog chars i) (match_clock chars i))).

(** The [for] loop over the groups of a UUID: [lit '-'] after all but the last. *)
Fixpoint uuid_groups (chars : chars_t) (groups : list nat) (j : nat) : matched :=
  match groups with
  | [] => Some (Some j)
  | len :: groups' =>
      if (length chars <? j + len)%nat then Some None
      else match slice chars j (j + len) with
      | None => None
      | Some s =>
          if negb (forallb is_ascii_hexdigit s) then Some None
          else
            let j := (j + len)%nat in
            match groups' with
            | [] => Some (Some j)
            | _ => let! j := lit chars j "-" in uuid_groups chars groups' j
            end
      end
  end.

(* log_graph/template.rs 209-229: match_uuid *)
Definition match_uuid (chars : chars_t) (i : nat) : matched :=
  guard_match (token_start chars i)
    (let! j := uuid_groups chars [8; 4; 4; 4; 12]%nat i in ends_at chars j).

(** The [for octet in 0..4] loop; [n] octets remain. *)
Fixpoint octets (chars : chars_t) (n : nat) (j : nat) : matched :=
  match n with
  | 0%nat => Some (Some j)
  | S n' =>
      let start := j in
      let j := scan_upto 3 is_ascii_digit chars j in
      if (j =? start)%nat then Some None
      else match n' with
           | 0%nat => Some (Some j)
           | _ => let! j := lit chars j "." in octets chars n' j
           end
  end.

(* log_graph/template.rs 242-266: match_ipv4 *)
Definition match_ipv4 (chars : chars_t) (i : nat) : matched :=
  let! j := octets chars 4 i in
  let! j := if at_char chars j ":" then some_digits chars (S j) else Some (Some j) in
  ends_at chars j.

(** The scan of [match_ipv6]: the end index, the colons seen and whether two of them
    were adjacent ([chars.get(j + 1) == Some(&':')] at a colon). *)
Fixpoint run_ipv6 (rest : chars_t) (j colon_count : nat) (double_colon : bool)
    : nat * nat * bool :=
  match rest with
  | c :: rest' =>
      if is_ascii_hexdigit c || is_one_of ":" c then
        if is_one_of ":" c then
          run_ipv6 rest' (S j) (S colon_count)
            (double_colon || bool_decide (head rest' = Some (ch ":")))
        else run_ipv6 rest' (S j) colon_count double_colon
      else (j, colon_count, double_colon)
  | [] => (j, colon_count, double_colon)
  end.

(* log_graph/template.rs 268-287: match_ipv6 *)
Definition match_ipv6 (chars : chars_t) (i : nat) : matched :=
  let '(j, colon_count, double_colon) := run_ipv6 (drop i chars) i 0 false in
  if (i <? j)%nat && (double_colon || (4 <=? colon_count)%nat)
  then ends_at chars j else Some None.

(* log_graph/template.rs 232-240: match_ip *)
Definition match_ip (chars : chars_t) (i : nat) : matched :=
  guard_match (token_start chars i) (first_of (match_ipv4 chars i) (match_ipv6 chars i)).

(* log_graph/template.rs 314-322: match_decimal *)
Definition match_decimal (chars : chars_t) (i : nat) : matched :=
  let! j := some_digits chars i in
  if at_char chars j "." then
    match some_digits chars (S j) with
    | None => None
    | Some (Some after) => Some (Some after)
    | Some None => Some (Some j)
    end
  else Some (Some j).

(** ["ns" | "ms" | "us" | "µs"]; the last is [U+00B5]. *)
Definition UNITS2 : list chars_t :=
  [lit_chars "ns"; lit_chars "ms"; lit_chars "us"; [181%N; ch "s"]].

(* log_graph/template.rs 325-337: match_unit *)
Definition match_unit (chars : chars_t) (i : nat) : matched :=
  let two := default [] (slice chars i (i + 2)) in
  if bool_decide (two ∈ UNITS2) then Some (Some (i + 2)%nat)
  else one_of chars i "smh".

(** The segment loop: [None] also when the fuel runs out. *)
Fixpoint segments_loop (fuel : nat) (chars : chars_t) (j segments : nat) : option (nat * nat) :=
  match fuel with
  | 0%nat => None
  | S fuel' =>
      match match_decimal chars j with
      | None => None
      | Some None => Some (j, segments)
      | Some (Some after_num) =>
          match match_unit chars after_num with
          | None => None
          | Some None => Some (j, segments)
          | Some (Some after_unit) => segments_loop fuel' chars after_unit (S segments)
          end
      end
  end.

(* log_graph/template.rs 290-311: match_duration *)
Definition match_duration (chars : chars_t) (i : nat) : matched :=
  guard_match (token_start chars i)
    (match segments_loop (S (length chars)) chars i 0 with
     | None => None
     | Some (j, segments) => if (1 <=? segments)%nat then ends_at chars j else Some None
     end).

(** The [0x…] branch of [match_hex]. *)
Definition hex_literal (chars : chars_t) (i : nat) : matched :=
  if at_char chars i "0" && (at_char chars (S i) "x" || at_char chars (S i) "X") then
    let start := (i + 2)%nat in
    let j := scan is_ascii_hexdigit chars start in
    if (start <? j)%nat then ends_at chars j else Some None
  else Some None.

(* log_graph/template.rs 340-368: match_hex *)
Definition match_hex (chars : chars_t) (i : nat) : matched :=
  first_of (guard_match (token_start chars i) (hex_literal chars i))
    (guard_match (token_start chars i)
       (let j := scan is_ascii_hexdigit chars i in
        if (6 <=? j - i)%nat then ends_at chars j else Some None)).

(** The optional [:line[:col]] suffix of a path. *)
Definition line_col (chars : chars_t) (j : nat) : matched :=
  if at_char chars j ":" then
    match some_digits chars (S j) with
    | None => None
    | Some None => Some (Some j)
    | Some (Some after) =>
        if at_char chars after ":" then
          match some_digits chars (S after) with
          | None => None
          | Some None => Some (Some after)
          | Some (Some after_col) => Some (Some after_col)
          end
        else Some (Some after)
    end
  else Some (Some j).

(** The test of [match_path] on the previous character. *)
Definition prev_ok (chars : chars_t) (i : nat) : option bool :=
  if (i =? 0)%nat then Some true
  else match chars !! (i - 1)%nat with
       | Some c => Some (negb (is_word c) && negb (is_one_of "/" c) && negb (is_one_of "." c))
       | None => None
       end.

(** [C:\]. *)
Definition drive_prefix (chars : chars_t) (i : nat) : bool :=
  match chars !! i with Some c => is_ascii_alphabetic c | None => false end
  && at_char chars (i + 1) ":" && at_char chars (i + 2) "\".

(* log_graph/template.rs 372-412: match_path *)
Definition match_path (chars : chars_t) (i : nat) : matched :=
  if drive_prefix chars i then Some (Some (scan is_path_char chars (i + 2)))
  else guard_match (prev_ok chars i)
    (let j := scan is_path_segment_char chars i in
     let saw_slash := existsb (is_one_of "/") (take (j - i) (drop i chars)) in
     if negb saw_slash || (j =? i)%nat then Some None else line_col chars j).

(** [!chars[i].is_ascii_digit()], which panics past the end. *)
Definition digit_at (chars : chars_t) (i : nat) : option bool :=
  is_ascii_digit <$> chars !! i.

(* log_graph/template.rs 423-433: match_num *)
Definition match_num (chars : chars_t) (i : nat) : matched :=
  guard_match (token_start chars i) (guard_match (digit_at chars i)
    (let! j := match_decimal chars i in ends_at chars j)).

(** The matchers of [match_any] with their tokens, in priority order. *)
Definition MATCHERS : list (string * (chars_t → nat → matched)) :=
  [("<TS>", match_timestamp); ("<UUID>", match_uuid); ("<IP>", match_ip);
   ("<DUR>", match_duration); ("<HEX>", match_hex); ("<PATH>", match_path);
   ("<NUM>", match_num)].

(** The chain of [if let Some(end) = .. { return Some((token, end)) }]. *)
Fixpoint first_match (ms : list (string * (chars_t → nat → matched)))
    (chars : chars_t) (i : nat) : option (option (string * nat)) :=
  match ms with
  | [] => Some None
  | (token, m) :: ms' =>
      match m chars i with
      | None => None
      | Some (Some e) => Some (Some (token, e))
      | Some None => first_match ms' chars i
      end
  end.

(* log_graph/template.rs 36-59: match_any *)
Definition match_any : chars_t → nat → option (option (string * nat)) := first_match MATCHERS.

(** The main loop; [None] is a panic or the end of the fuel. *)
Fixpoint normalize_loop (fuel : nat) (chars : chars_t) (i : nat) (out : chars_t)
    : option chars_t :=
  if (i <? length chars)%nat then
    match fuel with
    | 0%nat => None
    | S fuel' =>
        match match_any chars i with
        | None => None
        | Some (Some (token, e)) => normalize_loop fuel' chars e (out ++ lit_chars token)
        | Some None =>
            match chars !! i with
            | None => None
            | Some c => normalize_loop fuel' chars (S i) (out ++ [c])
            end
        end
    end
  else Some out.

(* log_graph/template.rs 19-33: normalize_template_v1 *)
Definition normalize_template_v1 (message : chars_t) : option chars_t :=
  normalize_loop (length message) message 0 [].

(** ** Locality

    The text up to the next newline, and two positions of two messages that see the
    same rest of their line behind equivalent previous characters. Every matcher
    gives the same answer at both, consumes the same text and no newline, and does
    not panic. *)
Fixpoint until_lf (l : chars_t) : chars_t :=
  match l with
  | c :: l' => if (c =? LF)%N then [] else c :: until_lf l'
  | [] => []
  end.

Record same_view (chars : chars_t) (i : nat) (chars' : chars_t) (i' : nat) : Prop := {
  view_in : i < length chars;
  view_in' : i' < length chars';
  view_line : until_lf (drop i chars) = until_lf (drop i' chars');
  view_start : ∃ b, token_start chars i = Some b ∧ token_start chars' i' = Some b;
  view_prev : ∃ b, prev_ok chars i = Some b ∧ prev_ok chars' i' = Some b;
}.

Create HintDb locality.

Section Locality.
Context (chars chars' : chars_t) (i i' : nat) (view : same_view chars i chars' i').

(** The indices reached after consuming the same newline-free text from [i] and [i']. *)
Definition rel (j j' : nat) : Prop :=
  ∃ w u v, drop i chars = w ++ u ∧ drop i' chars' = w ++ v ∧ until_lf u = until_lf v
    ∧ (LF ∉ w) ∧ j = (i + length w)%nat ∧ j' = (i' + length w)%nat.
Definition adv (j j' : nat) : Prop := rel j j' ∧ i < j.

Definition mrel (P : nat → nat → Prop) (m m' : matched) : Prop :=
  match m, m' with
  | Some (Some j), Some (Some j') => P j j'
  | Some None, Some None => True
  | _, _ => False
  end.

(** *** Reading one character *)
Definition stops (l : chars_t) (j : nat) : Prop := l !! j = None ∨ l !! j = Some LF.

Lemma until_lf_cases (u v : chars_t) :
  until_lf u = until_lf v →
  (∃ c u' v', c ≠ LF ∧ u = c :: u' ∧ v = c :: v' ∧ until_lf u' = until_lf v')
  ∨ ((head u = None ∨ head u = Some LF) ∧ (head v = None ∨ head v = Some LF)).
Proof.
  destruct u as [|c u], v as [|d v]; cbn [until_lf head]; intros H; [naive_solver|..];
    repeat match type of H with context [N.eqb ?x LF] => destruct (N.eqb_spec x LF) end;
    subst; simplify_eq; naive_solver.
Qed.

Lemma rel_refl : rel i i'.
Proof.
  exists [], (drop i chars), (drop i' chars'). simpl. split_and!; [done|done| |set_solver|lia|lia].
  apply view.
Qed.

Lemma rel_lookup j j' w u v :
  drop i chars = w ++ u → drop i' chars' = w ++ v →
  j = (i + length w)%nat → j' = (i' + length w)%nat →
  chars !! j = head u ∧ chars' !! j' = head v.
Proof.
  intros Hu Hv -> ->. rewrite <-!lookup_drop, Hu, Hv, !lookup_app_r, Nat.sub_diag by lia.
  by destruct u, v.
Qed.

Lemma rel_step j j' :
  rel j j' →
  (∃ c, c ≠ LF ∧ chars !! j = Some c ∧ chars' !! j' = Some c ∧ adv (S j) (S j'))
  ∨ (stops chars j ∧ stops chars' j').
Proof.
  intros (w & u & v & Hu & Hv & Hl & Hw & Hj & Hj').
  destruct (rel_lookup _ _ _ _ _ Hu Hv Hj Hj') as [E E'].
  destruct (until_lf_cases u v Hl) as [(c & u' & v' & Hc & -> & -> & Hl')|[Su Sv]].
  - left. exists c. split_and!; [done..|]. split; [|lia].
    exists (w ++ [c]), u', v'. rewrite <-!app_assoc, length_app. simpl.
    split_and!; [done..|set_solver|lia|lia].
  - right. unfold stops. by rewrite E, E'.
Qed.

Lemma rel_bounds j j' : rel j j' → i ≤ j ≤ length chars ∧ i' ≤ j' ≤ length chars'.
Proof.
  intros (w & u & v & Hu & Hv & _ & _ & -> & ->).
  apply (f_equal length) in Hu, Hv. rewrite length_drop, length_app in Hu, Hv.
  pose proof (view_in _ _ _ _ view). pose proof (view_in' _ _ _ _ view). lia.
Qed.

Lemma rel_diff j j' : rel j j' → (j + i' = j' + i)%nat.
Proof. intros (w & u & v & _ & _ & _ & _ & -> & ->). lia. Qed.

Lemma rel_text j j' :
  rel j j' → take (j - i) (drop i chars) = take (j' - i') (drop i' chars')
             ∧ LF ∉ take (j - i) (drop i chars).
Proof.
  intros (w & u & v & Hu & Hv & _ & Hw & -> & ->). rewrite Hu, Hv.
  replace (i + length w - i)%nat with (length w) by lia.
  replace (i' + length w - i')%nat with (length w) by lia. by rewrite !take_app_length.
Qed.

Lemma adv_rel j j' : adv j j' → rel j j'.
Proof. by intros []. Qed.

Lemma stops_eq (l : chars_t) j c : stops l j → c ≠ LF → l !! j ≠ Some c.
Proof. intros [->| ->]; congruence. Qed.

(** *** The primitives *)
Lemma at_char_rel j j' c :
  rel j j' → ch c ≠ LF →
  at_char chars j c = at_char chars' j' c
  ∧ (at_char chars j c = true → adv (S j) (S j')).
Proof.
  intros Hr Hc. unfold at_char.
  destruct (rel_step _ _ Hr) as [(d & Hd & -> & -> & Ha)|[S1 S2]]; [naive_solver|].
  rewrite !bool_decide_eq_false_2 by (by apply stops_eq). done.
Qed.

Lemma scan_unfold p (l : chars_t) j :
  scan p l j = match l !! j with Some c => if p c then scan p l (S j) else j | None => j end.
Proof.
  unfold scan. destruct (l !! j) as [c|] eqn:E.
  - by rewrite (drop_S _ _ _ E).
  - apply lookup_ge_None in E. by rewrite drop_ge.
Qed.

Lemma scan_rel p j j' :
  p LF = false → rel j j' →
  rel (scan p chars j) (scan p chars' j') ∧ (j ≤ scan p chars j)%nat.
Proof.
  intros Hp. remember (length chars - j)%nat as n eqn:Hn. revert j j' Hn.
  induction n as [n IH] using lt_wf_ind; intros j j' -> Hr. rewrite (scan_unfold p chars), (scan_unfold p chars').
  destruct (rel_step _ _ Hr) as [(d & Hd & E & -> & Ha)|[S1 S2]].
  - rewrite E. destruct (p d); [|done]. apply lookup_lt_Some in E.
    destruct (IH (length chars - S j)%nat ltac:(lia) (S j) (S j') eq_refl (adv_rel _ _ Ha)).
    split; [done|lia].
  - destruct S1 as [-> | ->], S2 as [-> | ->]; rewrite ?Hp; done.
Qed.

Lemma scan_upto_rel p n j j' :
  p LF = false → rel j j' →
  rel (scan_upto n p chars j) (scan_upto n p chars' j') ∧ (j ≤ scan_upto n p chars j)%nat.
Proof.
  intros Hp. revert j j'. unfold scan_upto. induction n as [|n IH]; intros j j' Hr; [done|].
  destruct (rel_step _ _ Hr) as [(d & Hd & E & E' & Ha)|[S1 S2]].
  - rewrite (drop_S _ _ _ E), (drop_S _ _ _ E'). cbn [run_upto].
    destruct (p d); [|done]. destruct (IH (S j) (S j') (adv_rel _ _ Ha)). split; [done|lia].
  - assert (∀ l k, stops l k → run_upto (S n) p (drop k l) k = k) as Hs.
    { intros l k [E|E].
      - apply lookup_ge_None in E. by rewrite drop_ge.
      - rewrite (drop_S _ _ _ E). cbn [run_upto]. by rewrite Hp. }
    by rewrite !Hs.
Qed.

(** A slice is the same newline-free text in both messages, or in both it is out of
    range or holds a newline. *)
Definition bad_slice (l : chars_t) (j n : nat) : Prop :=
  length l < (j + n)%nat ∨ ∃ s, slice l j (j + n) = Some s ∧ LF ∈ s.

Lemma slice_S (l : chars_t) j n c :
  l !! j = Some c → slice l j (j + S n) = cons c <$> slice l (S j) (S j + n).
Proof.
  intros E. unfold slice. replace (j + S n)%nat with (S j + n)%nat by lia.
  pose proof (lookup_lt_Some _ _ _ E).
  rewrite (proj2 (Nat.leb_le j (S j + n))) by lia.
  rewrite (proj2 (Nat.leb_le (S j) (S j + n))) by lia. rewrite !andb_true_l.
  destruct (S j + n <=? length l)%nat; [|done].
  rewrite (drop_S _ _ _ E). by replace (S j + n - j)%nat with (S (S j + n - S j)) by lia.
Qed.

Lemma bad_slice_S (l : chars_t) j n c :
  l !! j = Some c → bad_slice l (S j) n → bad_slice l j (S n).
Proof.
  intros E [?|(s & Hs & ?)]; [left; lia|right]. rewrite (slice_S _ _ _ _ E), Hs.
  exists (c :: s). set_solver.
Qed.

Lemma bad_slice_stop (l : chars_t) j n : stops l j → bad_slice l j (S n).
Proof.
  intros [E|E]; [left; apply lookup_ge_None in E; lia|].
  destruct (decide (length l < j + S n)%nat) as [|Hlen]; [by left|right].
  rewrite (slice_S _ _ _ _ E). unfold slice.
  rewrite !(proj2 (Nat.leb_le _ _)) by lia. simpl. eexists. split; [done|]. by left.
Qed.

Lemma slice_rel n j j' :
  rel j j' →
  (∃ s, slice chars j (j + n) = Some s ∧ slice chars' j' (j' + n) = Some s
        ∧ (j + n ≤ length chars)%nat ∧ (j' + n ≤ length chars')%nat
        ∧ rel (j + n) (j' + n))
  ∨ (bad_slice chars j n ∧ bad_slice chars' j' n).
Proof.
  revert j j'. induction n as [|n IH]; intros j j' Hr.
  - left. pose proof (rel_bounds _ _ Hr). exists []. unfold slice.
    rewrite !Nat.add_0_r, !Nat.leb_refl, !Nat.sub_diag.
    rewrite !(proj2 (Nat.leb_le _ _)) by lia. simpl. split_and!; [done|done|lia|lia|done].
  - destruct (rel_step _ _ Hr) as [(d & Hd & E & E' & Ha)|[S1 S2]].
    + destruct (IH _ _ (adv_rel _ _ Ha)) as [(s & Hs & Hs' & ? & ? & ?)|[B B']].
      * left. exists (d :: s). rewrite (slice_S _ _ _ _ E), (slice_S _ _ _ _ E'), Hs, Hs'.
        rewrite <-!Nat.add_succ_comm. done.
      * right. split; by eapply bad_slice_S.
    + right. split; by apply bad_slice_stop.
Qed.

Lemma lit_rel j j' c :
  rel j j' → ch c ≠ LF → mrel adv (lit chars j c) (lit chars' j' c).
Proof.
  intros Hr Hc. unfold lit. destruct (at_char_rel _ _ c Hr Hc) as [<- Ha].
  destruct (at_char chars j c); simpl; auto.
Qed.

Lemma one_of_rel j j' s :
  rel j j' → is_one_of s LF = false → mrel adv (one_of chars j s) (one_of chars' j' s).
Proof.
  intros Hr Hs. unfold one_of.
  destruct (rel_step _ _ Hr) as [(d & Hd & -> & -> & Ha)|[[-> | ->] [-> | ->]]]; rewrite ?Hs;
    try done. destruct (is_one_of s d); simpl; auto.
Qed.

Lemma some_digits_rel j j' :
  rel j j' → mrel adv (some_digits chars j) (some_digits chars' j').
Proof.
  intros Hr. unfold some_digits.
  destruct (scan_rel is_ascii_digit j j' eq_refl Hr) as [Hs Hle].
  pose proof (rel_diff _ _ Hr). pose proof (rel_diff _ _ Hs). pose proof (rel_bounds _ _ Hr).
  destruct (Nat.ltb_spec j (scan is_ascii_digit chars j)),
    (Nat.ltb_spec j' (scan is_ascii_digit chars' j')); simpl; try lia.
  split; [done|lia].
Qed.

(** A test that no newline passes fails on both bad slices. *)
Lemma bad_slice_cases (l : chars_t) j n {A} (r : A) (k : option chars_t → A) :
  (∀ s, LF ∈ s → k (Some s) = r) → bad_slice l j n →
  (if (length l <? j + n)%nat then r else k (slice l j (j + n))) = r.
Proof.
  intros Hk B. destruct (Nat.ltb_spec (length l) (j + n)); [done|].
  destruct B as [?|(s & -> & HLF)]; [lia|by apply Hk].
Qed.

Lemma forallb_LF p s : p LF = false → LF ∈ s → forallb p s = false.
Proof.
  intros Hp HLF. apply not_true_iff_false. intros H.
  rewrite List.forallb_forall in H.
  specialize (H LF (proj1 (list_elem_of_In _ _) HLF)). congruence.
Qed.

(** A slice guarded by its range, continued where the text is newline-free. *)
Lemma guarded_slice_rel n j j' P (k k' : option chars_t → matched) :
  rel j j' →
  (∀ s, LF ∈ s → k (Some s) = Some None) → (∀ s, LF ∈ s → k' (Some s) = Some None) →
  (∀ s, rel (j + n) (j' + n) → mrel P (k (Some s)) (k' (Some s))) →
  mrel P (if (length chars <? j + n)%nat then Some None else k (slice chars j (j + n)))
         (if (length chars' <? j' + n)%nat then Some None else k' (slice chars' j' (j' + n))).
Proof.
  intros Hr Hk Hk' HP.
  destruct (slice_rel n _ _ Hr) as [(s & -> & -> & L & L' & Hr')|[B B']].
  - rewrite !(proj2 (Nat.ltb_ge _ _)) by lia. by apply HP.
  - by rewrite !bad_slice_cases.
Qed.

Lemma exact_digits_rel j j' n :
  rel j j' → 0 < n → mrel adv (exact_digits chars j n) (exact_digits chars' j' n).
Proof.
  intros Hr Hn. unfold exact_digits. pose proof (rel_bounds _ _ Hr).
  eapply (guarded_slice_rel n j j' adv
    (λ o, match o with Some s => if forallb is_ascii_digit s then Some (Some (j + n)%nat)
                                 else Some None | None => None end)
    (λ o, match o with Some s => if forallb is_ascii_digit s then Some (Some (j' + n)%nat)
                                 else Some None | None => None end)); [done|..].
  - intros s Hs. by rewrite forallb_LF.
  - intros s Hs. by rewrite forallb_LF.
  - intros s Hr'. destruct (forallb is_ascii_digit s); simpl; [|done]. split; [done|lia].
Qed.

(** *** Combining matchers *)
Lemma and_then_rel P Q m m' k k' :
  mrel P m m' → (∀ j j', P j j' → mrel Q (k j) (k' j')) →
  mrel Q (and_then m k) (and_then m' k').
Proof. destruct m as [[j|]|], m' as [[j'|]|]; simpl; intros H HQ; try done. by apply HQ. Qed.

Lemma mrel_weaken (P Q : nat → nat → Prop) m m' :
  (∀ j j', P j j' → Q j j') → mrel P m m' → mrel Q m m'.
Proof. destruct m as [[j|]|], m' as [[j'|]|]; simpl; auto. Qed.

Lemma first_of_rel P m m' n n' : mrel P m m' → mrel P n n' → mrel P (first_of m n) (first_of m' n').
Proof. by destruct m as [[j|]|], m' as [[j'|]|]. Qed.

Lemma guard_match_rel P b b' m m' :
  (∃ x, b = Some x ∧ b' = Some x) → mrel P m m' →
  mrel P (guard_match b m) (guard_match b' m').
Proof. intros ([] & -> & ->); done. Qed.

Lemma ends_at_rel j j' P : rel j j' → P j j' → mrel P (ends_at chars j) (ends_at chars' j').
Proof.
  intros Hr HP. apply guard_match_rel; [|done]. unfold boundary_after.
  assert (∀ l k, stops l k → (if (length l <=? k)%nat then Some true
      else match l !! k with Some c => Some (negb (is_word c)) | None => None end) = Some true)
    as Hs.
  { intros l k [E|E]; [|rewrite E; by destruct (_ <=? _)%nat].
    apply lookup_ge_None in E. by rewrite (proj2 (Nat.leb_le _ _)). }
  destruct (rel_step _ _ Hr) as [(d & Hd & E & E' & Ha)|[S1 S2]].
  - rewrite E, E'. apply lookup_lt_Some in E, E'.
    rewrite !(proj2 (Nat.leb_gt _ _)) by lia. eauto.
  - rewrite !Hs by done. eauto.
Qed.
(** *** The matchers *)
#[local] Hint Resolve lit_rel exact_digits_rel one_of_rel some_digits_rel adv_rel rel_refl
  first_of_rel : locality.
#[local] Hint Extern 1 (_ ≠ LF) => discriminate : locality.
#[local] Hint Extern 1 (_ < _) => lia : locality.
#[local] Hint Extern 1 (_ = false) => reflexivity : locality.

(** Runs the [?] chain of a matcher in both messages. *)
Ltac chain_rel :=
  repeat (eapply and_then_rel; [by eauto 4 with locality|intros ? ? ?]).

Lemma hms_rel j j' : rel j j' → mrel adv (hms chars j) (hms chars' j').
Proof. intros Hr. unfold hms. chain_rel. eauto with locality. Qed.

Lemma opt_fraction_rel j j' :
  adv j j' → mrel adv (opt_fraction chars j) (opt_fraction chars' j').
Proof.
  intros Ha. unfold opt_fraction.
  destruct (at_char_rel j j' "." (adv_rel _ _ Ha)) as [<- Hs]; [done|].
  destruct (at_char chars j "."); [|done]. eauto with locality.
Qed.

Lemma opt_zone_rel j j' : adv j j' → mrel adv (opt_zone chars j) (opt_zone chars' j').
Proof.
  intros Ha. pose proof (adv_rel _ _ Ha) as Hr. unfold opt_zone.
  destruct (at_char_rel j j' "Z" Hr) as [<- Hz]; [done|].
  destruct (at_char_rel j j' "+" Hr) as [<- Hp]; [done|].
  destruct (at_char_rel j j' "-" Hr) as [<- Hm]; [done|].
  destruct (at_char chars j "Z"); [simpl; auto|].
  destruct (at_char chars j "+" || at_char chars j "-") eqn:E; [|done].
  assert (adv (S j) (S j')) as Ha' by (apply orb_prop in E as []; auto).
  eapply and_then_rel; [by eauto with locality|]. intros k k' Hk.
  destruct (at_char_rel k k' ":" (adv_rel _ _ Hk)) as [<- Hc]; [done|].
  destruct (at_char chars k ":"); eauto with locality.
Qed.

#[local] Hint Resolve hms_rel opt_fraction_rel opt_zone_rel : locality.

Lemma match_iso_rel : mrel adv (match_iso chars i) (match_iso chars' i').
Proof. unfold match_iso. chain_rel. eauto with locality. Qed.

Lemma match_clock_rel : mrel adv (match_clock chars i) (match_clock chars' i').
Proof. unfold match_clock. chain_rel. apply ends_at_rel; auto with locality. Qed.

Lemma not_LF_in (ls : list chars_t) s :
  forallb (λ l, negb (bool_decide (LF ∈ l))) ls = true → LF ∈ s →
  bool_decide (s ∈ ls) = false.
Proof.
  intros Hls HLF. apply bool_decide_eq_false_2. intros Hs.
  rewrite List.forallb_forall in Hls.
  specialize (Hls s (proj1 (list_elem_of_In _ _) Hs)).
  rewrite bool_decide_eq_true_2 in Hls by done. done.
Qed.

Lemma syslog_tail_rel j j' :
  rel j j' →
  let tail (l : chars_t) (j : nat) : matched :=
    let! j := lit l j " " in
    let j := scan (is_one_of " ") l j in
    let day_start := j in
    let j := scan_upto 2 is_ascii_digit l j in
    if (j =? day_start)%nat then Some None
    else let! j := lit l j " " in hms l j in
  mrel adv (tail chars j) (tail chars' j').
Proof.
  intros Hr. cbn zeta. eapply and_then_rel; [by eauto with locality|]. clear j j' Hr.
  intros j j' Ha.
  destruct (scan_rel (is_one_of " ") j j' eq_refl (adv_rel _ _ Ha)) as [H1 _].
  destruct (scan_upto_rel is_ascii_digit 2 _ _ eq_refl H1) as [H2 _].
  pose proof (rel_diff _ _ H1). pose proof (rel_diff _ _ H2).
  destruct (Nat.eqb_spec (scan_upto 2 is_ascii_digit chars (scan (is_one_of " ") chars j))
              (scan (is_one_of " ") chars j)),
    (Nat.eqb_spec (scan_upto 2 is_ascii_digit chars' (scan (is_one_of " ") chars' j'))
              (scan (is_one_of " ") chars' j')); try lia; [done|].
  chain_rel. eauto with locality.
Qed.

Lemma match_syslog_rel : mrel adv (match_syslog chars i) (match_syslog chars' i').
Proof.
  unfold match_syslog.
  set (tail := λ (l : chars_t) (k : nat),
    let! j := lit l k " " in
    let j := scan (is_one_of " ") l j in
    let day_start := j in
    let j := scan_upto 2 is_ascii_digit l j in
    if (j =? day_start)%nat then Some None
    else let! j := lit l j " " in hms l j).
  set (arm := λ (l : chars_t) (k : nat) (o : option chars_t),
    match o with
    | None => None
    | Some abbrev =>
        if negb (bool_decide (abbrev ∈ (lit_chars <$> MONTHS))) then Some None else tail l k
    end).
  apply (guarded_slice_rel 3 i i' adv (arm chars (i + 3)%nat) (arm chars' (i' + 3)%nat)).
  - apply rel_refl.
  - intros s Hs. unfold arm. by rewrite not_LF_in.
  - intros s Hs. unfold arm. by rewrite not_LF_in.
  - intros s Hr. unfold arm. destruct (bool_decide _); [|done]. by apply syslog_tail_rel.
Qed.

Lemma match_timestamp_rel : mrel adv (match_timestamp chars i) (match_timestamp chars' i').
Proof.
  apply guard_match_rel; [apply view|].
  eauto using first_of_rel, match_iso_rel, match_syslog_rel, match_clock_rel.
Qed.

Lemma uuid_groups_rel groups j j' :
  rel j j' → Forall (λ n, 0 < n) groups → groups ≠ [] →
  mrel adv (uuid_groups chars groups j) (uuid_groups chars' groups j').
Proof.
  revert j j'. induction groups as [|n groups IH]; intros j j' Hr Hg Hne; [done|].
  apply Forall_cons in Hg as [Hn Hg].
  set (arm := λ (l : chars_t) (k : nat) (o : option chars_t),
    match o with
    | None => None
    | Some s =>
        if negb (forallb is_ascii_hexdigit s) then Some None
        else match groups with
             | [] => Some (Some k)
             | _ => let! j := lit l k "-" in uuid_groups l groups j
             end
    end).
  pose proof (rel_bounds _ _ Hr).
  apply (guarded_slice_rel n j j' adv (arm chars (j + n)%nat) (arm chars' (j' + n)%nat)).
  - done.
  - intros s Hs. unfold arm. by rewrite forallb_LF.
  - intros s Hs. unfold arm. by rewrite forallb_LF.
  - intros s Hr'. unfold arm. destruct (forallb _ s); [|done]. cbn [negb].
    destruct groups as [|m groups]; [split; [done|lia]|].
    eapply and_then_rel; [by eauto with locality|]. intros k k' Hk.
    apply IH; [by apply adv_rel|done..].
Qed.

Lemma match_uuid_rel : mrel adv (match_uuid chars i) (match_uuid chars' i').
Proof.
  apply guard_match_rel; [apply view|].
  eapply and_then_rel; [apply uuid_groups_rel; [apply rel_refl|by repeat constructor|done]|].
  intros j j' Ha. apply ends_at_rel; auto with locality.
Qed.

Lemma octets_rel n j j' :
  rel j j' → 0 < n → mrel adv (octets chars n j) (octets chars' n j').
Proof.
  revert j j'. induction n as [|n IH]; intros j j' Hr Hn; [lia|]. cbn [octets].
  destruct (scan_upto_rel is_ascii_digit 3 j j' eq_refl Hr) as [H2 ?].
  pose proof (rel_diff _ _ Hr). pose proof (rel_diff _ _ H2). pose proof (rel_bounds _ _ Hr).
  destruct (Nat.eqb_spec (scan_upto 3 is_ascii_digit chars j) j),
    (Nat.eqb_spec (scan_upto 3 is_ascii_digit chars' j') j'); try lia; [done|].
  destruct n as [|n]; [split; [done|lia]|].
  eapply and_then_rel; [by eauto with locality|]. intros k k' Hk.
  apply IH; [by apply adv_rel|lia].
Qed.

Lemma match_ipv4_rel : mrel adv (match_ipv4 chars i) (match_ipv4 chars' i').
Proof.
  unfold match_ipv4. eapply and_then_rel; [apply octets_rel; [apply rel_refl|lia]|].
  intros j j' Ha. destruct (at_char_rel j j' ":" (adv_rel _ _ Ha)) as [<- Hs]; [done|].
  apply and_then_rel with (P := adv); [|intros; apply ends_at_rel; auto with locality].
  destruct (at_char chars j ":"); [|done]. eauto with locality.
Qed.

Lemma run_ipv6_rel n j j' cc dc :
  (length chars - j ≤ n)%nat → rel j j' →
  let r := run_ipv6 (drop j chars) j cc dc in
  let r' := run_ipv6 (drop j' chars') j' cc dc in
  rel r.1.1 r'.1.1 ∧ r.1.2 = r'.1.2 ∧ r.2 = r'.2.
Proof.
  revert j j' cc dc. induction n as [n IH] using lt_wf_ind; intros j j' cc dc Hn Hr.
  assert (∀ l k, stops l k → run_ipv6 (drop k l) k cc dc = (k, cc, dc)) as Hs.
  { intros l k [E|E].
    - apply lookup_ge_None in E. by rewrite drop_ge.
    - by rewrite (drop_S _ _ _ E). }
  destruct (rel_step _ _ Hr) as [(d & Hd & E & E' & Ha)|[S1 S2]]; [|by rewrite !Hs].
  rewrite (drop_S _ _ _ E), (drop_S _ _ _ E'). cbn [run_ipv6].
  destruct (is_ascii_hexdigit d || is_one_of ":" d); [|done].
  apply lookup_lt_Some in E.
  assert (∀ cc dc, let r := run_ipv6 (drop (S j) chars) (S j) cc dc in
    let r' := run_ipv6 (drop (S j') chars') (S j') cc dc in
    rel r.1.1 r'.1.1 ∧ r.1.2 = r'.1.2 ∧ r.2 = r'.2) as IH'.
  { intros. apply (IH (length chars - S j)%nat); [lia|lia|by apply adv_rel]. }
  destruct (is_one_of ":" d); [|apply IH'].
  assert (∀ (l : chars_t) k, bool_decide (head (drop (S k) l) = Some (ch ":"))
                        = at_char l (S k) ":") as Hh.
  { intros l k. unfold at_char. rewrite <-(Nat.add_0_r (S k)), <-lookup_drop, Nat.add_0_r.
    by destruct (drop (S k) l). }
  rewrite !Hh. destruct (at_char_rel _ _ ":" (adv_rel _ _ Ha)) as [<- _]; [done|]. apply IH'.
Qed.

Lemma match_ipv6_rel : mrel adv (match_ipv6 chars i) (match_ipv6 chars' i').
Proof.
  unfold match_ipv6.
  pose proof (run_ipv6_rel _ i i' 0 false (le_n _) rel_refl) as H. cbv zeta in H.
  destruct (run_ipv6 (drop i chars) i 0 false) as [[j cc] dc],
    (run_ipv6 (drop i' chars') i' 0 false) as [[j' cc'] dc']. cbn [fst snd] in H.
  destruct H as (Hr & <- & <-). pose proof (rel_diff _ _ Hr).
  replace (i' <? j')%nat with (i <? j)%nat
    by (destruct (Nat.ltb_spec i j), (Nat.ltb_spec i' j'); lia || done).
  destruct (Nat.ltb_spec i j); [|done]. destruct (dc || _); [|done].
  by apply ends_at_rel.
Qed.

Lemma match_ip_rel : mrel adv (match_ip chars i) (match_ip chars' i').
Proof.
  apply guard_match_rel; [apply view|].
  apply first_of_rel; [apply match_ipv4_rel|apply match_ipv6_rel].
Qed.

(** [if let Some(after) = m { after } else { j }]. *)
Lemma optional_rel (P : nat → nat → Prop) m m' j j' :
  mrel P m m' → P j j' →
  mrel P (match m with None => None | Some None => Some (Some j) | Some (Some k) => Some (Some k) end)
    (match m' with None => None | Some None => Some (Some j') | Some (Some k) => Some (Some k) end).
Proof. by destruct m as [[?|]|], m' as [[?|]|]. Qed.

Lemma match_decimal_rel j j' :
  rel j j' → mrel adv (match_decimal chars j) (match_decimal chars' j').
Proof.
  intros Hr. unfold match_decimal. eapply and_then_rel; [by eauto with locality|].
  clear j j' Hr. intros j j' Ha.
  destruct (at_char_rel j j' "." (adv_rel _ _ Ha)) as [<- Hs]; [done|].
  destruct (at_char chars j "."); [|done].
  assert (match_some : mrel adv (some_digits chars (S j)) (some_digits chars' (S j')))
    by eauto with locality.
  by destruct (some_digits chars (S j)) as [[?|]|], (some_digits chars' (S j')) as [[?|]|].
Qed.

Lemma match_unit_rel j j' :
  rel j j' → mrel adv (match_unit chars j) (match_unit chars' j').
Proof.
  intros Hr. unfold match_unit. pose proof (rel_bounds _ _ Hr).
  destruct (slice_rel 2 _ _ Hr) as [(s & -> & -> & L & L' & Hr')|[B B']].
  - cbn [default]. destruct (bool_decide _); [|by apply one_of_rel]. split; [done|lia].
  - assert (∀ l k, bad_slice l k 2 → bool_decide (default [] (slice l k (k + 2)) ∈ UNITS2) = false)
      as Hb.
    { intros l k [Hlen|(s & -> & Hs)]; [|by apply not_LF_in].
      unfold slice. rewrite (proj2 (Nat.leb_gt (k + 2) (length l))) by lia.
      by rewrite andb_false_r. }
    rewrite !Hb by done. by apply one_of_rel.
Qed.

Definition seg_rel (r r' : option (nat * nat)) : Prop :=
  match r, r' with
  | Some (j, n), Some (j', n') => rel j j' ∧ n = n' ∧ (1 ≤ n → i < j)%nat
  | _, _ => False
  end.

Lemma segments_loop_rel f f' j j' n :
  rel j j' → (1 ≤ n → i < j)%nat → (length chars - j < f)%nat → (length chars' - j' < f')%nat →
  seg_rel (segments_loop f chars j n) (segments_loop f' chars' j' n).
Proof.
  revert f' j j' n. induction f as [|f IH]; intros f' j j' n Hr Hn Hf Hf'; [lia|].
  destruct f' as [|f']; [lia|]. cbn [segments_loop].
  pose proof (match_decimal_rel j j' Hr) as Hd.
  destruct (match_decimal chars j) as [[k|]|] eqn:Ek,
    (match_decimal chars' j') as [[k'|]|]; try done.
  pose proof (match_unit_rel k k' (adv_rel _ _ Hd)) as Hu.
  assert (j < k)%nat as Hjk.
  { unfold match_decimal, some_digits in Ek.
    destruct (Nat.ltb_spec j (scan is_ascii_digit chars j)) as [Hlt|]; [|done].
    cbn [and_then] in Ek. destruct (at_char _ _ _); [|by simplify_eq].
    destruct (Nat.ltb_spec (S (scan is_ascii_digit chars j))
      (scan is_ascii_digit chars (S (scan is_ascii_digit chars j)))); simplify_eq; lia. }
  destruct (match_unit chars k) as [[m|]|] eqn:Em, (match_unit chars' k') as [[m'|]|]; try done.
  assert (k < m)%nat as Hkm.
  { unfold match_unit, one_of in Em. repeat case_match; simplify_eq; lia. }
  pose proof (rel_diff _ _ Hr). pose proof (rel_diff _ _ (adv_rel _ _ Hu)).
  pose proof (rel_bounds _ _ Hr). pose proof (rel_bounds _ _ (adv_rel _ _ Hu)).
  apply IH; [by apply adv_rel|intros; apply Hu|lia|lia].
Qed.

Lemma match_duration_rel : mrel adv (match_duration chars i) (match_duration chars' i').
Proof.
  apply guard_match_rel; [apply view|].
  pose proof (segments_loop_rel (S (length chars)) (S (length chars')) i i' 0 rel_refl
    ltac:(lia) ltac:(lia) ltac:(lia)) as H.
  destruct (segments_loop _ chars i 0) as [[j n]|], (segments_loop _ chars' i' 0) as [[j' n']|];
    try done. destruct H as (Hr & <- & Hn).
  destruct (Nat.leb_spec 1 n); [|done]. apply ends_at_rel; [done|]. split; [done|auto].
Qed.

Lemma hex_literal_rel : mrel adv (hex_literal chars i) (hex_literal chars' i').
Proof.
  unfold hex_literal.
  destruct (at_char_rel i i' "0" rel_refl) as [<- H0]; [done|].
  destruct (at_char chars i "0"); [|done]. cbn [andb]. specialize (H0 eq_refl).
  destruct (at_char_rel _ _ "x" (adv_rel _ _ H0)) as [<- Hx]; [done|].
  destruct (at_char_rel _ _ "X" (adv_rel _ _ H0)) as [<- HX]; [done|].
  destruct (at_char chars (S i) "x" || at_char chars (S i) "X") eqn:E; [|done].
  assert (adv (i + 2) (i' + 2)) as Ha.
  { replace (i + 2)%nat with (S (S i)) by lia. replace (i' + 2)%nat with (S (S i')) by lia.
    apply orb_prop in E as []; auto. }
  destruct (scan_rel is_ascii_hexdigit _ _ eq_refl (adv_rel _ _ Ha)) as [Hs ?].
  pose proof (rel_diff _ _ Hs). cbn zeta.
  replace (i' + 2 <? scan is_ascii_hexdigit chars' (i' + 2))%nat
    with (i + 2 <? scan is_ascii_hexdigit chars (i + 2))%nat
    by (destruct (Nat.ltb_spec (i + 2) (scan is_ascii_hexdigit chars (i + 2))),
      (Nat.ltb_spec (i' + 2) (scan is_ascii_hexdigit chars' (i' + 2))); lia || done).
  destruct (_ <? _)%nat; [|done]. apply ends_at_rel; [done|]. split; [done|lia].
Qed.

Lemma match_hex_rel : mrel adv (match_hex chars i) (match_hex chars' i').
Proof.
  apply first_of_rel; (apply guard_match_rel; [apply view|]); [apply hex_literal_rel|].
  destruct (scan_rel is_ascii_hexdigit _ _ eq_refl rel_refl) as [Hs ?].
  pose proof (rel_diff _ _ Hs). cbn zeta.
  replace (scan is_ascii_hexdigit chars' i' - i')%nat
    with (scan is_ascii_hexdigit chars i - i)%nat by lia.
  destruct (Nat.leb_spec 6 (scan is_ascii_hexdigit chars i - i)); [|done].
  apply ends_at_rel; [done|]. split; [done|lia].
Qed.

Lemma line_col_rel j j' : adv j j' → mrel adv (line_col chars j) (line_col chars' j').
Proof.
  intros Ha. unfold line_col.
  destruct (at_char_rel j j' ":" (adv_rel _ _ Ha)) as [<- Hs]; [done|].
  destruct (at_char chars j ":"); [|done].
  assert (mrel adv (some_digits chars (S j)) (some_digits chars' (S j'))) as Hd
    by eauto with locality.
  destruct (some_digits chars (S j)) as [[k|]|], (some_digits chars' (S j')) as [[k'|]|]; try done.
  destruct (at_char_rel k k' ":" (adv_rel _ _ Hd)) as [<- Hk]; [done|].
  destruct (at_char chars k ":"); [|done].
  apply optional_rel; eauto with locality.
Qed.

Lemma drive_prefix_rel :
  drive_prefix chars i = drive_prefix chars' i'
  ∧ (drive_prefix chars i = true → adv (i + 2) (i' + 2)).
Proof.
  unfold drive_prefix.
  destruct (rel_step _ _ rel_refl) as [(d & Hd & -> & -> & Ha)|[[-> | ->] [-> | ->]]]; try done.
  destruct (is_ascii_alphabetic d); [|done]. cbn [andb].
  replace (i + 1)%nat with (S i) by lia. replace (i' + 1)%nat with (S i') by lia.
  destruct (at_char_rel _ _ ":" (adv_rel _ _ Ha)) as [<- Hc]; [done|].
  destruct (at_char chars (S i) ":"); [|done]. cbn [andb]. specialize (Hc eq_refl).
  replace (i + 2)%nat with (S (S i)) by lia. replace (i' + 2)%nat with (S (S i')) by lia.
  destruct (at_char_rel _ _ "\" (adv_rel _ _ Hc)) as [<- _]; done.
Qed.

Lemma match_path_rel : mrel adv (match_path chars i) (match_path chars' i').
Proof.
  unfold match_path. destruct drive_prefix_rel as [<- Hd].
  destruct (drive_prefix chars i).
  - destruct (scan_rel is_path_char _ _ eq_refl (adv_rel _ _ (Hd eq_refl))) as [Hs ?].
    split; [done|lia].
  - apply guard_match_rel; [apply view|].
    destruct (scan_rel is_path_segment_char _ _ eq_refl rel_refl) as [Hs ?]. cbn zeta.
    destruct (rel_text _ _ Hs) as [<- _]. pose proof (rel_diff _ _ Hs).
    destruct (existsb _ _); [|done]. cbn [negb orb].
    destruct (Nat.eqb_spec (scan is_path_segment_char chars i) i),
      (Nat.eqb_spec (scan is_path_segment_char chars' i') i'); try lia; [done|].
    apply line_col_rel. split; [done|lia].
Qed.

Lemma match_num_rel : mrel adv (match_num chars i) (match_num chars' i').
Proof.
  apply guard_match_rel; [apply view|]. apply guard_match_rel.
  - unfold digit_at. pose proof (view_in _ _ _ _ view) as Hi.
    pose proof (view_in' _ _ _ _ view) as Hi'. apply lookup_lt_is_Some in Hi as [c Hc], Hi' as [c' Hc'].
    destruct (rel_step _ _ rel_refl) as [(d & Hd & -> & -> & Ha)|[[S1|S1] [S2|S2]]];
      [eauto|congruence..|]. rewrite S1, S2. eauto.
  - eapply and_then_rel; [apply match_decimal_rel, rel_refl|].
    intros j j' Ha. apply ends_at_rel; auto with locality.
Qed.

(** Both messages give the same token over the same text. *)
Lemma match_any_rel :
  (match_any chars i = Some None ∧ match_any chars' i' = Some None)
  ∨ ∃ token j j', match_any chars i = Some (Some (token, j))
      ∧ match_any chars' i' = Some (Some (token, j')) ∧ adv j j'.
Proof.
  unfold match_any.
  assert (Forall (λ m, mrel adv (m.2 chars i) (m.2 chars' i')) MATCHERS) as H.
  { repeat constructor; [apply match_timestamp_rel|apply match_uuid_rel|apply match_ip_rel
      |apply match_duration_rel|apply match_hex_rel|apply match_path_rel|apply match_num_rel]. }
  induction H as [|[token m] ms Hm _ IH]; [by left|]. cbn [first_match snd] in *.
  destruct (m chars i) as [[j|]|], (m chars' i') as [[j'|]|]; try done.
  right. by exists token, j, j'.
Qed.

End Locality.

(** ** One position of one message *)
Lemma until_lf_app_lf u v : until_lf (u ++ LF :: v) = until_lf u.
Proof.
  induction u as [|c u IH]; [done|]. cbn [app until_lf]. by rewrite IH.
Qed.

Lemma prev_some (chars : chars_t) i :
  i < length chars →
  (∃ b, token_start chars i = Some b) ∧ ∃ b, prev_ok chars i = Some b.
Proof.
  intros Hi. unfold token_start, prev_ok. destruct (i =? 0)%nat; [eauto|].
  destruct (lookup_lt_is_Some_2 chars (i - 1)) as [c ->]; [lia|]. eauto.
Qed.

Lemma same_view_intro (chars : chars_t) i chars' i' :
  i < length chars → i' < length chars' →
  until_lf (drop i chars) = until_lf (drop i' chars') →
  token_start chars i = token_start chars' i' → prev_ok chars i = prev_ok chars' i' →
  same_view chars i chars' i'.
Proof.
  intros H1 H2 Hl Hs Hp. destruct (prev_some _ _ H1) as [[b Hb] [d Hd]].
  split; [done|done|done|exists b; by rewrite <-Hs|exists d; by rewrite <-Hp].
Qed.

Lemma same_view_refl (chars : chars_t) i : i < length chars → same_view chars i chars i.
Proof. intros. by apply same_view_intro. Qed.

(** No matcher indexes out of range: at every position of every message
    [match_any] returns, and a match is non-empty, stays inside the message and never
    runs over a newline. *)
Theorem match_any_in_bounds (chars : chars_t) (i : nat) :
  i < length chars →
  match_any chars i = Some None
  ∨ ∃ token j, match_any chars i = Some (Some (token, j))
      ∧ i < j ∧ (j ≤ length chars)%nat ∧ LF ∉ take (j - i) (drop i chars).
Proof.
  intros Hi. pose proof (same_view_refl chars i Hi) as V.
  destruct (match_any_rel _ _ _ _ V) as [[H _]|(token & j & j' & H & _ & Hr & Hij)]; [by left|].
  right. exists token, j. pose proof (rel_bounds _ _ _ _ V _ _ Hr).
  destruct (rel_text _ _ _ _ _ _ Hr). split_and!; [done|done|lia|done].
Qed.

Lemma match_any_in_bounds_witness :
  match_any (lit_chars "a 7") 2 = Some (Some ("<NUM>", 3%nat))
  ∧ (match_any (lit_chars "a 7") 2 = Some None
     ∨ ∃ token j, match_any (lit_chars "a 7") 2 = Some (Some (token, j))
         ∧ 2 < j ∧ (j ≤ length (lit_chars "a 7"))%nat
         ∧ LF ∉ take (j - 2) (drop 2 (lit_chars "a 7"))).
Proof.
  split; [vm_compute; reflexivity|].
  exact (match_any_in_bounds (lit_chars "a 7") 2 (proj1 (Nat.ltb_lt 2 3) eq_refl)).
Defined.

(** A newline is never part of a match: it is copied through. *)
Lemma match_any_lf (chars : chars_t) i : chars !! i = Some LF → match_any chars i = Some None.
Proof.
  intros Hc. pose proof (lookup_lt_Some _ _ _ Hc) as Hi.
  pose proof (same_view_refl chars i Hi) as V.
  destruct (match_any_rel _ _ _ _ V) as [[H _]|(token & j & j' & H & _ & Hr & Hij)]; [done|].
  destruct (rel_text _ _ _ _ _ _ Hr) as [_ []].
  rewrite (drop_S _ _ _ Hc). replace (j - i)%nat with (S (j - i - 1)) by lia. by left.
Qed.

(** ** The main loop *)

(** The loop over [chars'] from [i' + k] and the loop over [chars] from [i + k], while
    both see the same up to the end of [chars']: the first ends with some text, the
    second reaches the same place having appended the same text. *)
Lemma normalize_loop_sim (chars : chars_t) i (chars' : chars_t) i' :
  (i + (length chars' - i') ≤ length chars)%nat →
  (∀ k, i' + k < length chars' → same_view chars (i + k) chars' (i' + k)) →
  ∀ n k f f', n = (length chars' - (i' + k))%nat → (i' + k ≤ length chars')%nat →
    (n ≤ f')%nat → (length chars - (i + k) ≤ f)%nat →
    ∃ w f2, (length chars - (i + (length chars' - i')) ≤ f2)%nat ∧ ∀ out out',
      normalize_loop f' chars' (i' + k) out' = Some (out' ++ w)
      ∧ normalize_loop f chars (i + k) out
        = normalize_loop f2 chars (i + (length chars' - i')) (out ++ w).
Proof.
  intros Hlen V n. induction n as [n IH] using lt_wf_ind; intros k f f' -> Hk Hf' Hf.
  destruct (decide (i' + k = length chars')%nat) as [Hend|Hend].
  { exists [], f. replace (i + (length chars' - i'))%nat with (i + k)%nat by lia.
    split; [done|]. intros out out'. rewrite !app_nil_r. split; [|done].
    destruct f'; cbn [normalize_loop]; by rewrite (proj2 (Nat.ltb_ge _ _)) by lia. }
  assert (i' + k < length chars') as Hk' by lia. specialize (V k Hk') as Vk.
  destruct f' as [|f']; [lia|]. pose proof (view_in _ _ _ _ Vk).
  destruct f as [|f]; [lia|]. cbn [normalize_loop]. rewrite !(proj2 (Nat.ltb_lt _ _)) by lia.
  destruct (match_any_rel _ _ _ _ Vk) as [[-> ->]|(token & j & j' & -> & -> & Hr & Hij)].
  - assert (∃ c, chars !! (i + k)%nat = Some c ∧ chars' !! (i' + k)%nat = Some c) as (c & -> & ->).
    { destruct (rel_step chars chars' (i + k) (i' + k) Vk _ _ (rel_refl _ _ _ _ Vk)) as [(c & _ & ? & ? & _)|[S1 S2]];
        [by exists c|]. exists LF.
      destruct S1 as [E|E]; [apply lookup_ge_None in E; lia|].
      destruct S2 as [E'|E']; [apply lookup_ge_None in E'; lia|]. done. }
    destruct (IH (length chars' - (i' + S k))%nat ltac:(lia) (S k) f f' eq_refl
      ltac:(lia) ltac:(lia) ltac:(lia)) as (w & f2 & Hf2 & Hw).
    exists (c :: w), f2. split; [done|]. intros out out'. rewrite !Nat.add_succ_r in Hw.
    destruct (Hw (out ++ [c]) (out' ++ [c])) as [-> ->]. by rewrite <-!app_assoc.
  - pose proof (rel_bounds _ _ _ _ Vk _ _ Hr). pose proof (rel_diff _ _ _ _ _ _ Hr).
    destruct (IH (length chars' - (i' + (j - i)))%nat ltac:(lia) (j - i)%nat f f' eq_refl
      ltac:(lia) ltac:(lia) ltac:(lia)) as (w & f2 & Hf2 & Hw).
    exists (lit_chars token ++ w), f2. split; [done|]. intros out out'.
    replace (i + (j - i))%nat with j in Hw by lia.
    replace (i' + (j - i))%nat with j' in Hw by lia.
    destruct (Hw (out ++ lit_chars token) (out' ++ lit_chars token)) as [-> ->].
    by rewrite <-!app_assoc.
Qed.

(** [normalize_template_v1] returns on every message: the scan terminates within one
    round per character and never panics. *)
Theorem normalize_total (message : chars_t) :
  ∃ out, normalize_template_v1 message = Some out.
Proof.
  unfold normalize_template_v1.
  destruct (normalize_loop_sim message 0 message 0 ltac:(lia)
    (λ k Hk, same_view_refl _ _ Hk) (length message) 0 (length message) (length message)
    ltac:(lia) ltac:(lia) ltac:(lia) ltac:(lia)) as (w & f2 & _ & Hw).
  destruct (Hw [] []) as [H _]. cbn [Nat.add] in H. rewrite H. eauto.
Qed.

(** Normalization works line by line: a multi-line message normalizes to the
    normalized lines, with the newlines copied through. *)
Theorem normalize_by_lines (a b : chars_t) :
  normalize_template_v1 (a ++ LF :: b)
  = let?o x := normalize_template_v1 a in
    let?o y := normalize_template_v1 b in
    Some (x ++ LF :: y).
Proof.
  unfold normalize_template_v1.
  set (m := a ++ LF :: b). assert (length m = length a + S (length b))%nat as Hm
    by (unfold m; by rewrite length_app).
  assert (m !! length a = Some LF) as Hlf by (unfold m; by rewrite list_lookup_middle).
  destruct (normalize_loop_sim m 0 a 0 ltac:(lia)) with (n := length a) (k := 0%nat)
    (f := length m) (f' := length a) as (w & f2 & Hf2 & Hw); [|lia..|].
  { cbn [Nat.add]. intros k Hk. apply same_view_intro; [lia|done| | |].
    - unfold m. rewrite drop_app_le by lia. apply until_lf_app_lf.
    - unfold token_start, m. destruct (Nat.eqb_spec k 0); [done|]. by rewrite lookup_app_l by lia.
    - unfold prev_ok, m. destruct (Nat.eqb_spec k 0); [done|]. by rewrite lookup_app_l by lia. }
  destruct (Hw [] []) as [Ha Hma]. cbn [Nat.add app] in Ha, Hma. rewrite Nat.sub_0_r in Hma, Hf2.
  destruct (normalize_loop_sim m (S (length a)) b 0 ltac:(lia)) with (n := length b) (k := 0%nat)
    (f := (f2 - 1)%nat) (f' := length b) as (w' & f3 & Hf3 & Hw'); [|lia..|].
  { cbn [Nat.add]. intros k Hk.
    assert (∀ j, m !! (length a + S j)%nat = b !! j) as Hmb.
    { intros j. unfold m. rewrite lookup_app_r by lia.
      by replace (length a + S j - length a)%nat with (S j) by lia. }
    assert (drop (S (length a + k)) m = drop k b) as Hd.
    { unfold m. rewrite drop_app_ge by lia.
      by replace (S (length a + k) - length a)%nat with (S k) by lia. }
    apply same_view_intro; [lia|done|by rewrite Hd| |].
    all: unfold token_start, prev_ok; cbn [Nat.eqb Nat.sub];
      destruct k as [|k]; [by rewrite Nat.add_0_r, ?Nat.sub_0_r, Hlf|];
      cbn [Nat.eqb]; rewrite ?Nat.sub_0_r, Hmb; cbn [Nat.sub]; by rewrite ?Nat.sub_0_r. }
  destruct (Hw' (w ++ [LF]) []) as [Hb Hmb]. cbn [Nat.add app] in Hb. rewrite Nat.add_0_r in Hmb.
  rewrite Hma, Ha, Hb. destruct f2 as [|f2]; [lia|]. cbn [mbind option_bind normalize_loop].
  rewrite (proj2 (Nat.ltb_lt _ _)), match_any_lf, Hlf by (lia || done).
  replace (S f2 - 1)%nat with f2 in Hmb by lia. rewrite Hmb.
  rewrite Nat.sub_0_r. destruct f3; cbn [normalize_loop];
    rewrite (proj2 (Nat.ltb_ge _ _)) by lia; by rewrite <-app_assoc.
Qed.

Example normalize_ex :
  normalize_template_v1 (lit_chars "12:01:02.5 [pid 4242] at /srv/a.rs:10:3 took 1m30s 0xdeadbeef")
  = Some (lit_chars "<TS> [pid <NUM>] at <PATH> took <DUR> <HEX>").
Proof. vm_compute. reflexivity. Qed.

(** Two occurrences of a message that differ only in a process id. *)
Example pid_digits_split_templates :
  normalize_template_v1 (lit_chars "worker pid 99999 exited") = Some (lit_chars "worker pid <NUM> exited")
  ∧ normalize_template_v1 (lit_chars "worker pid 100000 exited") = Some (lit_chars "worker pid <HEX> exited").
Proof. split; vm_compute; reflexivity. Qed.

(** The drive test of [match_path] comes before its boundary test, and an ISO
    timestamp has no boundary test at its end. *)
Example boundaries_not_checked :
  normalize_template_v1 (lit_chars "label_C:\tmp") = Some (lit_chars "label_<PATH>")
  ∧ normalize_template_v1 (lit_chars "2024-01-02T03:04:05backup") = Some (lit_chars "<TS>backup").
Proof. split; vm_compute; reflexivity. Qed.


End LogTemplate.
