(* ===== verification/Tarjan.v ===== *)
(** * Strongly connected components ([tarjan_scc] of [src/src/query/task_ready.rs])

    The iterative Tarjan algorithm with its explicit work stack. Every map index
    ([lowlink[v]], [index_of[w]], [adj[w]]) that panics on a missing key is an option
    here. The correctness theorem is the full contract: on every adjacency map whose
    neighbours are keys the algorithm ends, does not panic, and returns a partition of
    the keys into the classes of mutual reachability. *)
From S2P Require Import Prelude RustStr.

Module Tarjan.

(** [BTreeMap<String, BTreeSet<String>>]. *)
Abbreviation Adj := (gmap string (gset string)).
(** A frame of the work stack: a vertex and its remaining neighbours. *)
Abbreviation Frame := (string * list string)%type.

(** The locals of [tarjan_scc]. The top of [stack] is its head. *)
(* query/task_ready.rs 578-583: tarjan_scc *)
Record state : Type := mk {
  index_of : gmap string nat;
  lowlink : gmap string nat;
  on_stack : gset string;
  stack : list string;
  next_index : nat;
  sccs : list (list string)
}.

Definition init : state := mk ∅ ∅ ∅ [] 0 [].

(** Numbers a vertex and pushes it on the component stack. *)
(* query/task_ready.rs 589-593: tarjan_scc *)
Definition discover (s : state) (w : string) : state :=
  mk (<[w := s.(next_index)]> s.(index_of)) (<[w := s.(next_index)]> s.(lowlink))
     ({[w]} ∪ s.(on_stack)) (w :: s.(stack)) (S s.(next_index)) s.(sccs).

Definition set_lowlink (s : state) (v : string) (l : nat) : state :=
  mk s.(index_of) (<[v := l]> s.(lowlink)) s.(on_stack) s.(stack) s.(next_index) s.(sccs).

(** The inner loop over the remaining neighbours of [v]: it ends ([None]) or finds an
    unnumbered neighbour to descend into, with the neighbours left behind it. *)
(* query/task_ready.rs 599-617: tarjan_scc *)
Fixpoint scan_neighbors (s : state) (v : string) (neighbors : list string)
    : option (state * option Frame) :=
  match neighbors with
  | [] => Some (s, None)
  | w :: rest =>
      match s.(index_of) !! w with
      | None => Some (discover s w, Some (w, rest))
      | Some iw =>
          if bool_decide (w ∈ s.(on_stack)) then
            match s.(lowlink) !! v with
            | Some lv => scan_neighbors (set_lowlink s v (lv `min` iw)) v rest
            | None => None
            end
          else scan_neighbors s v rest
      end
  end.

(** [while let Some(w) = stack.pop() { on_stack.remove(w); scc.push(w); if w == v { break } }]. *)
(* query/task_ready.rs 627-634: tarjan_scc *)
Fixpoint pop_until (v : string) (stack : list string) (on_stack : gset string) (scc : list string)
    : list string * gset string * list string :=
  match stack with
  | [] => ([], on_stack, scc)
  | w :: rest =>
      let on_stack := on_stack ∖ {[w]} in
      let scc := scc ++ [w] in
      if w =s? v then (rest, on_stack, scc) else pop_until v rest on_stack scc
  end.

(** Closes the component of [v]. *)
(* query/task_ready.rs 627-637: tarjan_scc *)
Definition close (s : state) (v : string) : state :=
  let '(stack, on_stack, scc) := pop_until v s.(stack) s.(on_stack) [] in
  mk s.(index_of) s.(lowlink) on_stack stack s.(next_index) (s.(sccs) ++ [str_sort scc]).

(** [v] is finished: its lowlink goes to the parent frame, and a component may close. *)
(* query/task_ready.rs 621-637: tarjan_scc *)
Definition finish (s : state) (v : string) (work : list Frame) : option state :=
  let?o s := match work with
             | (u, _) :: _ =>
                 let?o lu := s.(lowlink) !! u in
                 let?o lv := s.(lowlink) !! v in
                 Some (set_lowlink s u (lu `min` lv))
             | [] => Some s
             end in
  let?o lv := s.(lowlink) !! v in
  let?o iv := s.(index_of) !! v in
  Some (if (lv =? iv)%nat then close s v else s).

(** The loop over the work stack, whose last frame is the head. *)
(* query/task_ready.rs 598-638: tarjan_scc *)
Fixpoint work_loop (fuel : nat) (adj : Adj) (s : state) (work : list Frame) : option state :=
  match work with
  | [] => Some s
  | (v, neighbors) :: work' =>
      match fuel with
      | 0%nat => None
      | S fuel' =>
          match scan_neighbors s v neighbors with
          | None => None
          | Some (s', Some (w, rest)) =>
              match adj !! w with
              | Some ns => work_loop fuel' adj s' ((w, iter ns) :: (v, rest) :: work')
              | None => None
              end
          | Some (s', None) =>
              match finish s' v work' with
              | Some s'' => work_loop fuel' adj s'' work'
              | None => None
              end
          end
      end
  end.

(** One root of the outer loop. Every round of [work_loop] numbers a vertex or drops a
    frame, so [2 * |adj|] rounds are enough. *)
(* query/task_ready.rs 585-639: tarjan_scc *)
Definition visit_root (adj : Adj) (s : state) (root : string) : option state :=
  if bool_decide (is_Some (s.(index_of) !! root)) then Some s
  else match adj !! root with
       | Some ns => work_loop (2 * size adj) adj (discover s root) [(root, iter ns)]
       | None => None
       end.

(* query/task_ready.rs 577-641: tarjan_scc *)
Definition tarjan_scc (adj : Adj) : option (list (list string)) :=
  sccs <$> foldl (λ acc root, let?o s := acc in visit_root adj s root) (Some init) (keys adj).

Example tarjan_ex :
  tarjan_scc {[ "a" := {[ "b" ]}; "b" := {[ "c"; "d" ]}; "c" := {[ "a" ]}; "d" := {[ "d" ]}; "e" := ∅ ]}
  = Some [["d"]; ["a"; "b"; "c"]; ["e"]].
Proof. vm_compute. reflexivity. Qed.

(** ** Correctness *)
Section Correct.
Context (adj : Adj).

Definition edge (v w : string) : Prop := ∃ ns, adj !! v = Some ns ∧ w ∈ ns.
Definition reach : string → string → Prop := rtc edge.

(** Every neighbour is a key: what the caller establishes before the call. *)
Definition closed_adj : Prop := ∀ v w, edge v w → is_Some (adj !! w).

Definition visited (s : state) (v : string) : Prop := is_Some (s.(index_of) !! v).
Definition num (s : state) (v : string) : nat := default 0%nat (s.(index_of) !! v).
Definition low (s : state) (v : string) : nat := default 0%nat (s.(lowlink) !! v).

(** A component: its vertices, sorted, are one class of mutual reachability. *)
Definition is_scc (scc : list string) : Prop :=
  StronglySorted String.le scc ∧ scc ≠ []
  ∧ ∀ v w, v ∈ scc → w ∈ scc ↔ reach v w ∧ reach w v.

(** The vertices on the work stack and the neighbours still to scan. *)
Abbreviation grays W := (fst <$> W).
Definition pending (W : list Frame) (v w : string) : Prop := ∃ ns, (v, ns) ∈ W ∧ w ∈ ns.

Definition above (s : state) (x y : string) : Prop := num s y < num s x.

(** The invariant of the work loop. *)
Record inv (s : state) (W : list Frame) : Prop := {
  inv_dom : ∀ v, is_Some (s.(lowlink) !! v) ↔ visited s v;
  inv_keys : ∀ v, visited s v → is_Some (adj !! v);
  inv_on_stack : ∀ v, v ∈ s.(on_stack) ↔ v ∈ s.(stack);
  inv_stack_visited : ∀ v, v ∈ s.(stack) → visited s v;
  inv_sorted : StronglySorted (above s) s.(stack);
  inv_next : ∀ v, visited s v → num s v < s.(next_index);
  inv_grays : ∀ g, g ∈ grays W → g ∈ s.(stack);
  inv_grays_sorted : StronglySorted (above s) (grays W);
  inv_low_le : ∀ v, v ∈ s.(stack) → (low s v ≤ num s v)%nat;
  inv_low : ∀ v, v ∈ s.(stack) → ∃ z, z ∈ s.(stack) ∧ num s z = low s v ∧ reach v z;
  (** a finished vertex still on the stack can reach below itself, and the nearest
      vertex of the work stack below it has seen its lowlink *)
  inv_finished : ∀ y, y ∈ s.(stack) → y ∉ grays W → low s y < num s y
    ∧ ∃ g, g ∈ grays W ∧ num s g < num s y ∧ (low s g ≤ low s y)%nat
           ∧ ∀ g', g' ∈ grays W → num s g' < num s y → (num s g' ≤ num s g)%nat;
  inv_gray_reach : ∀ g y, g ∈ grays W → y ∈ s.(stack) → (num s g ≤ num s y)%nat → reach g y;
  inv_scanned : ∀ v w, v ∈ s.(stack) → edge v w →
    pending W v w ∨ visited s w ∧ (w ∈ s.(stack) → (low s v ≤ num s w)%nat);
  inv_closed : ∀ v w, visited s v → v ∉ s.(stack) → edge v w → visited s w ∧ w ∉ s.(stack);
  inv_frames : ∀ v w, pending W v w → edge v w;
  inv_sccs : ∀ v, v ∈ concat s.(sccs) ↔ visited s v ∧ v ∉ s.(stack);
  inv_sccs_NoDup : NoDup (concat s.(sccs));
  inv_sccs_good : ∀ scc, scc ∈ s.(sccs) → is_scc scc
}.

Lemma inv_init : inv init [].
Proof.
  split; unfold visited, pending; cbn [init index_of lowlink on_stack stack next_index sccs fmap list_fmap];
    try constructor; intros; rewrite ?lookup_empty in *; try set_solver;
    try (by match goal with H : is_Some None |- _ => destruct H end);
    try (by match goal with H : _ ∈ [] |- _ => apply elem_of_nil in H end).
Qed.

(** *** Numbering a vertex *)
Section Discover.
Context (s : state) (w : string).

Lemma visited_discover v : visited (discover s w) v ↔ v = w ∨ visited s v.
Proof.
  unfold visited. cbn [discover index_of]. destruct (decide (v = w)) as [->|Hv].
  - rewrite lookup_insert_eq. naive_solver.
  - rewrite lookup_insert_ne by done. naive_solver.
Qed.

Lemma num_discover_eq : num (discover s w) w = s.(next_index).
Proof. unfold num. cbn [discover index_of]. by rewrite lookup_insert_eq. Qed.
Lemma low_discover_eq : low (discover s w) w = s.(next_index).
Proof. unfold low. cbn [discover lowlink]. by rewrite lookup_insert_eq. Qed.
Lemma num_discover_ne v : v ≠ w → num (discover s w) v = num s v.
Proof. intros. unfold num. cbn [discover index_of]. by rewrite lookup_insert_ne. Qed.
Lemma low_discover_ne v : v ≠ w → low (discover s w) v = low s v.
Proof. intros. unfold low. cbn [discover lowlink]. by rewrite lookup_insert_ne. Qed.
End Discover.

Lemma StronglySorted_above_ext s s' l :
  (∀ v, v ∈ l → num s' v = num s v) →
  StronglySorted (above s) l → StronglySorted (above s') l.
Proof.
  intros Hn Hs. induction Hs as [|x l Hs IH Hx]; constructor.
  - apply IH. intros v Hv. apply Hn. by right.
  - rewrite Forall_forall in Hx |- *. intros y Hy. unfold above.
    rewrite (Hn x), (Hn y) by (by left || by right). by apply Hx.
Qed.

Lemma pending_cons v ns W x y : pending ((v, ns) :: W) x y ↔ (x = v ∧ y ∈ ns) ∨ pending W x y.
Proof.
  unfold pending. setoid_rewrite elem_of_cons. split.
  - intros (ns' & [?|?] & ?); simplify_eq; [by left|right; eauto].
  - intros [[-> ?]|(ns' & ? & ?)]; eauto.
Qed.

(** The newly numbered vertex [w] becomes the top frame; its parent, if any, has
    dropped it from its neighbours. *)
Lemma inv_discover s W1 W2 w ns :
  inv s W1 → ¬ visited s w → adj !! w = Some ns →
  grays W2 = grays W1 →
  (∀ x y, pending W1 x y → pending W2 x y ∨ y = w) →
  (∀ x y, pending W2 x y → pending W1 x y) →
  (∀ g, g ∈ grays W1 → reach g w) →
  inv (discover s w) ((w, iter ns) :: W2).
Proof.
  intros [] Hw Hns Hg Hp Hp' Hr.
  assert (∀ v, visited s v → v ≠ w) as Hne by (intros v Hv ->; done).
  assert (∀ v, v ∈ s.(stack) → num (discover s w) v = num s v ∧ low (discover s w) v = low s v) as Hold.
  { intros v Hv. rewrite num_discover_ne, low_discover_ne by auto. done. }
  assert (∀ v, v ∈ s.(stack) → num s v < s.(next_index)) as Hlt by auto.
  assert (∀ g, g ∈ grays W1 → num (discover s w) g = num s g ∧ low (discover s w) g = low s g) as Hgold
    by auto.
  pose proof (num_discover_eq s w) as Hnw. pose proof (low_discover_eq s w) as Hlw.
  split; cbn [discover on_stack stack next_index sccs fmap list_fmap fst]; rewrite ?Hg.
  - intros v. rewrite visited_discover. cbn [discover lowlink].
    destruct (decide (v = w)) as [->|]; [rewrite lookup_insert_eq; naive_solver|].
    rewrite lookup_insert_ne, inv_dom0 by done. naive_solver.
  - intros v [->|Hv]%visited_discover; [by eexists|auto].
  - intros v. set_solver.
  - intros v [->|Hv]%elem_of_cons; apply visited_discover; auto.
  - constructor.
    + apply (StronglySorted_above_ext s); [|done]. intros v Hv. by apply Hold.
    + apply Forall_forall. intros y Hy. unfold above. rewrite Hnw, (proj1 (Hold y Hy)). auto.
  - intros v [->|Hv]%visited_discover; [rewrite Hnw; lia|].
    rewrite num_discover_ne by auto. specialize (inv_next0 v Hv). lia.
  - intros g [->|Hgr]%elem_of_cons; [by left|right; auto].
  - constructor.
    + apply (StronglySorted_above_ext s); [|done]. intros v Hv. by apply Hgold.
    + apply Forall_forall. intros y Hy. unfold above. rewrite Hnw, (proj1 (Hgold y Hy)). auto.
  - intros v [->|Hv]%elem_of_cons; [lia|]. destruct (Hold v Hv) as [-> ->]. auto.
  - intros v [->|Hv]%elem_of_cons.
    + exists w. split_and!; [by left|congruence|apply rtc_refl].
    + destruct (inv_low0 v Hv) as (z & Hz & Hzl & Hzr). exists z.
      destruct (Hold v Hv) as [_ ->], (Hold z Hz) as [-> _]. split_and!; [by right|done|done].
  - intros y [->|Hy]%elem_of_cons Hyg; [destruct Hyg; by left|].
    destruct (inv_finished0 y Hy) as (Hly & g & Hgg & Hgy & Hlg & Hmax); [set_solver|].
    destruct (Hold y Hy) as [-> ->]. split; [done|]. exists g.
    destruct (Hgold g Hgg) as [-> ->]. split_and!; [by right|done|done|].
    intros g' [->|Hg']%elem_of_cons; [specialize (Hlt y Hy); lia|].
    destruct (Hgold g' Hg') as [-> _]. auto.
  - intros g y [->|Hgr]%elem_of_cons [->|Hy]%elem_of_cons Hle.
    + apply rtc_refl.
    + destruct (Hold y Hy) as [E _]. specialize (Hlt y Hy). lia.
    + auto.
    + destruct (Hold y Hy) as [E _], (Hgold g Hgr) as [E' _]. apply inv_gray_reach0; [done..|lia].
  - intros v x [->|Hv]%elem_of_cons Hvx.
    + left. apply pending_cons. left. split; [done|]. destruct Hvx as (ns' & ? & ?).
      apply elem_of_iter. by simplify_eq.
    + destruct (inv_scanned0 v x Hv Hvx) as [[Hpx| ->]%Hp|[Hx Hxl]].
      * left. apply pending_cons. by right.
      * right. split; [apply visited_discover; by left|]. intros _.
        destruct (Hold v Hv) as [_ ->]. specialize (inv_low_le0 v Hv). specialize (Hlt v Hv). lia.
      * right. split; [apply visited_discover; by right|]. intros Hxs.
        destruct (Hold v Hv) as [_ ->]. rewrite num_discover_ne by auto. set_solver.
  - intros v x [->|Hv]%visited_discover Hvs Hvx; [set_solver|].
    destruct (inv_closed0 v x Hv) as [Hx Hxs]; [set_solver|done|].
    split; [apply visited_discover; by right|]. intros [->|]%elem_of_cons; done.
  - intros v x [[-> Hx]|Hx]%pending_cons; [|by apply inv_frames0, Hp'].
    exists ns. by rewrite elem_of_iter in Hx.
  - intros v. rewrite inv_sccs0, visited_discover. set_solver.
  - done.
  - done.
Qed.

(** *** Scanning a neighbour *)

(** The neighbour is numbered and, when still on the stack, not below the lowlink. *)
Lemma inv_skip s v w rest W :
  inv s ((v, w :: rest) :: W) → visited s w →
  (w ∈ s.(stack) → (low s v ≤ num s w)%nat) → inv s ((v, rest) :: W).
Proof.
  intros [] Hw Hlw. split; try done.
  - intros x y Hx Hxy. destruct (inv_scanned0 x y Hx Hxy) as [Hp|Hp]; [|by right].
    apply pending_cons in Hp as [[-> [->|Hy]%elem_of_cons]|Hp].
    + by right.
    + left. apply pending_cons. by left.
    + left. apply pending_cons. by right.
  - intros x y Hp. apply inv_frames0. rewrite pending_cons in Hp |- *. set_solver.
Qed.

Section SetLowlink.
Context (s : state) (v : string) (l : nat).
Lemma low_set_eq : low (set_lowlink s v l) v = l.
Proof. unfold low. cbn [set_lowlink lowlink]. by rewrite lookup_insert_eq. Qed.
Lemma low_set_ne x : x ≠ v → low (set_lowlink s v l) x = low s x.
Proof. intros. unfold low. cbn [set_lowlink lowlink]. by rewrite lookup_insert_ne. Qed.
Lemma low_set_le x : (l ≤ low s v)%nat → (low (set_lowlink s v l) x ≤ low s x)%nat.
Proof. intros. destruct (decide (x = v)) as [->|]; rewrite ?low_set_eq, ?low_set_ne by done; lia. Qed.
End SetLowlink.

(** Lowering the lowlink of a vertex of the work stack to the number of a vertex on the
    stack it reaches. *)
Lemma inv_lower s W g l :
  inv s W → g ∈ grays W → (l ≤ low s g)%nat →
  (∃ z, z ∈ s.(stack) ∧ num s z = l ∧ reach g z) → inv (set_lowlink s g l) W.
Proof.
  intros [] Hg Hl (z & Hz & Hzl & Hgz).
  pose proof (λ x, low_set_le s g l x Hl) as Hle.
  split; try done.
  - intros v. cbn [set_lowlink lowlink]. destruct (decide (v = g)) as [->|].
    + rewrite lookup_insert_eq. split; [|by eexists]. intros _. by apply inv_stack_visited0, inv_grays0.
    + rewrite lookup_insert_ne by done. apply inv_dom0.
  - intros v Hv. specialize (inv_low_le0 v Hv). specialize (Hle v).
    change (num (set_lowlink s g l) v) with (num s v). lia.
  - intros v Hv. destruct (decide (v = g)) as [->|Hne].
    + rewrite low_set_eq. by exists z.
    + rewrite low_set_ne by done. apply (inv_low0 v Hv).
  - intros y Hy Hyg. destruct (inv_finished0 y Hy Hyg) as (Hly & g' & Hg' & Hgy & Hlg & Hmax).
    rewrite (low_set_ne s g l y) by (intros ->; done). split; [done|]. exists g'.
    specialize (Hle g'). split_and!; [done|done|lia|done].
  - intros x y Hx Hxy. destruct (inv_scanned0 x y Hx Hxy) as [Hp|[Hy Hlow]]; [by left|right].
    split; [done|]. intros Hys. specialize (Hlow Hys). specialize (Hle x).
    change (num (set_lowlink s g l) y) with (num s y). lia.
Qed.

(** *** Finishing a vertex *)
Lemma above_NoDup s l : StronglySorted (above s) l → NoDup l.
Proof.
  induction 1 as [|x l _ IH Hx]; constructor; [|done]. intros Hxl.
  rewrite Forall_forall in Hx. specialize (Hx x Hxl). unfold above in Hx. lia.
Qed.

Lemma above_head s x l y : StronglySorted (above s) (x :: l) → y ∈ l → num s y < num s x.
Proof. intros [_ H]%StronglySorted_inv Hy. rewrite Forall_forall in H. by apply H. Qed.

(** It stays on the stack: its parent is the nearest work-stack vertex below it. *)
Lemma inv_open s v u nu W :
  inv s ((v, []) :: (u, nu) :: W) → (low s u ≤ low s v)%nat → low s v < num s v →
  inv s ((u, nu) :: W).
Proof.
  intros [] Hu Hv. cbn [fmap list_fmap fst] in *.
  pose proof (λ y, above_head _ _ _ y inv_grays_sorted0) as Hab.
  pose proof (λ y, above_head _ _ _ y (proj1 (StronglySorted_inv inv_grays_sorted0))) as Hab'.
  assert (∀ g', g' ∈ u :: grays W → (num s g' ≤ num s u)%nat) as Hmax_u.
  { intros g' [->|Hg']%elem_of_cons; [done|]. apply Nat.lt_le_incl, Hab', Hg'. }
  split; try done; cbn [fmap list_fmap fst].
  - intros g Hg. apply inv_grays0. by right.
  - by apply StronglySorted_inv in inv_grays_sorted0 as [? _].
  - intros y Hy Hyg. destruct (decide (y = v)) as [->|Hyv].
    + split; [done|]. exists u. split_and!; [by left|apply Hab; by left|done|auto].
    + destruct (inv_finished0 y Hy) as (Hly & g & Hg & Hgy & Hlg & Hmax); [set_solver|].
      split; [done|]. apply elem_of_cons in Hg as [->|Hg].
      * exists u. split_and!; [by left| |lia|auto].
        assert (num s u < num s v) by (apply Hab; by left). lia.
      * exists g. split_and!; [done..|]. intros g' Hg'. apply Hmax. by right.
  - intros g y Hg. apply inv_gray_reach0. by right.
  - intros x y Hx Hxy. destruct (inv_scanned0 x y Hx Hxy) as [Hp|?]; [|by right].
    apply pending_cons in Hp as [[_ Hy]|Hp]; [by apply elem_of_nil in Hy|by left].
  - intros x y Hp. apply inv_frames0. apply pending_cons. by right.
Qed.

Lemma pop_until_spec C v rest os scc :
  v ∉ C → ∃ os', pop_until v (C ++ v :: rest) os scc = (rest, os', scc ++ C ++ [v])
    ∧ ∀ x, x ∈ os' ↔ x ∈ os ∧ x ∉ C ++ [v].
Proof.
  revert os scc. induction C as [|w C IH]; intros os scc Hv; cbn [app pop_until].
  - rewrite String.eqb_refl. eexists. split; [done|]. set_solver.
  - rewrite (proj2 (String.eqb_neq w v)) by set_solver.
    destruct (IH (os ∖ {[w]}) (scc ++ [w])) as (os' & -> & Hos); [set_solver|].
    exists os'. rewrite <-app_assoc. split; [done|]. intros x. rewrite Hos. set_solver.
Qed.

Section Close.
Context (s : state) (v : string) (W : list Frame) (C rest : list string).
Context (Hinv : inv s ((v, []) :: W)) (Hroot : low s v = num s v).
Context (Hstack : s.(stack) = C ++ v :: rest).

Lemma close_split :
  (v ∉ C) ∧ (∀ y, y ∈ C → num s v < num s y) ∧ (∀ y, y ∈ rest → num s y < num s v).
Proof.
  pose proof (inv_sorted _ _ Hinv) as Hs. rewrite Hstack in Hs.
  assert (∀ y, y ∈ C → num s v < num s y) as HC.
  { clear -Hs. induction C as [|x D IH]; intros y Hy; [by apply elem_of_nil in Hy|].
    apply elem_of_cons in Hy as [->|Hy].
    - apply (above_head _ _ _ v Hs). set_solver.
    - apply IH; [|done]. by apply StronglySorted_inv in Hs as [? _]. }
  split_and!; [|done|].
  - intros Hv. specialize (HC v Hv). lia.
  - intros y. apply above_head. clear -Hs. induction C as [|x D IH]; [done|].
    apply IH. by apply StronglySorted_inv in Hs as [? _].
Qed.

Lemma in_stack x : x ∈ s.(stack) ↔ x ∈ C ++ [v] ∨ x ∈ rest.
Proof. rewrite Hstack, !elem_of_app, elem_of_cons, list_elem_of_singleton. tauto. Qed.

Lemma in_component x : x ∈ s.(stack) → x ∈ C ++ [v] ↔ (num s v ≤ num s x)%nat.
Proof.
  destruct close_split as (HvC & HC & Hrest). intros Hx.
  split.
  - intros [Hy| ->%list_elem_of_singleton]%elem_of_app; [specialize (HC x Hy)|]; lia.
  - intros Hle. apply in_stack in Hx as [?|Hx]; [done|]. specialize (Hrest x Hx). lia.
Qed.

Lemma gray_below g : g ∈ grays W → num s g < num s v.
Proof. apply above_head. apply (inv_grays_sorted _ _ Hinv). Qed.

Lemma component_not_gray y : y ∈ C → y ∉ grays ((v, []) :: W).
Proof.
  destruct close_split as (HvC & HC & _). intros Hy. specialize (HC y Hy).
  intros [->|Hg]%elem_of_cons; [done|]. specialize (gray_below y Hg). lia.
Qed.

Lemma component_low y : y ∈ C ++ [v] → (num s v ≤ low s y)%nat.
Proof.
  destruct close_split as (HvC & HC & _).
  intros [Hy| ->%list_elem_of_singleton]%elem_of_app; [|lia].
  destruct (inv_finished _ _ Hinv y) as (_ & g & Hg & Hgy & Hlg & Hmax).
  - apply in_stack. left. set_solver.
  - by apply component_not_gray.
  - specialize (Hmax v ltac:(by left) (HC y Hy)).
    apply elem_of_cons in Hg as [->|Hg]; [cbn in *; lia|]. specialize (gray_below g Hg). lia.
Qed.

Lemma component_reach y : y ∈ C ++ [v] → reach v y ∧ reach y v.
Proof.
  remember (num s y) as n eqn:Hn. revert y Hn.
  induction n as [n IH] using lt_wf_ind. intros y -> Hy.
  assert (y ∈ s.(stack)) as Hys by (apply in_stack; by left).
  split.
  { apply (inv_gray_reach _ _ Hinv); [by left|done|by apply in_component]. }
  destruct (decide (y = v)) as [->|Hne]; [apply rtc_refl|].
  destruct (inv_low _ _ Hinv y Hys) as (z & Hz & Hzl & Hyz).
  pose proof (component_low y Hy) as Hlow.
  destruct (inv_finished _ _ Hinv y Hys) as (Hlt & _).
  { apply component_not_gray. set_solver. }
  etrans; [exact Hyz|]. apply (IH (num s z)); [lia|done|]. apply in_component; [done|lia].
Qed.

Lemma component_edges y w :
  y ∈ C ++ [v] → edge y w → visited s w ∧ (w ∈ C ++ [v] ∨ w ∉ s.(stack)).
Proof.
  intros Hy Hyw. assert (y ∈ s.(stack)) as Hys by (apply in_stack; by left).
  destruct (inv_scanned _ _ Hinv y w Hys Hyw) as [Hp|[Hw Hlow]].
  - exfalso. apply pending_cons in Hp as [[_ Hw]|(ns & Hf & _)]; [by apply elem_of_nil in Hw|].
    assert (y ∈ grays W) as Hg by (apply list_elem_of_fmap; by exists (y, ns)).
    specialize (gray_below y Hg). apply (in_component y Hys) in Hy. lia.
  - split; [done|]. destruct (decide (w ∈ s.(stack))) as [Hws|]; [left|by right].
    apply in_component; [done|]. specialize (Hlow Hws). pose proof (component_low y Hy). lia.
Qed.

Lemma component_is_scc : is_scc (str_sort (C ++ [v])).
Proof.
  split_and!; [apply str_sort_sorted| |].
  { intros H. apply (f_equal length) in H. rewrite (Permutation_length (str_sort_perm _)) in H.
    rewrite length_app in H. simpl in H. lia. }
  intros x w. rewrite !str_sort_perm. intros Hx. split.
  - intros Hw. destruct (component_reach x Hx), (component_reach w Hw). split; by etrans.
  - intros [Hxw Hwx].
    assert (∀ a b, reach a b → visited s a → a ∉ s.(stack) → visited s b ∧ b ∉ s.(stack)) as Hcl.
    { induction 1 as [|a b c Hab _ IH]; [done|]. intros Ha Has.
      destruct (inv_closed _ _ Hinv a b Ha Has Hab). by apply IH. }
    assert (∀ a, reach x a → visited s a ∧ (a ∈ C ++ [v] ∨ a ∉ s.(stack))) as Hout.
    { intros a. apply (rtc_ind_r (λ a, visited s a ∧ (a ∈ C ++ [v] ∨ a ∉ s.(stack)))).
      - split; [|by left]. apply (inv_stack_visited _ _ Hinv), in_stack. by left.
      - intros b c _ Hbc [Hb [Hb'|Hb']]; [by eapply component_edges|].
        destruct (inv_closed _ _ Hinv b c Hb Hb' Hbc). split; [done|by right]. }
    destruct (Hout w Hxw) as [Hv [?|Hws]]; [done|].
    destruct (Hcl w x Hwx Hv Hws) as [_ []]. apply in_stack. by left.
Qed.
End Close.

Lemma inv_close s v W :
  inv s ((v, []) :: W) → low s v = num s v → inv (close s v) W.
Proof.
  intros Hinv Hroot.
  destruct (list_elem_of_split (stack s) v) as (C & rest & Hstack).
  { apply (inv_grays _ _ Hinv). by left. }
  pose proof (in_stack s v C rest Hstack) as Hin.
  destruct (close_split s v W C rest Hinv Hroot Hstack) as (HvC & HC & Hrest).
  pose proof (gray_below s v W Hinv) as Hgray.
  pose proof (component_edges s v W C rest Hinv Hroot Hstack) as Hedges.
  pose proof (component_is_scc s v W C rest Hinv Hroot Hstack) as Hscc.
  pose proof (above_NoDup _ _ (inv_sorted _ _ Hinv)) as Hnd. rewrite Hstack in Hnd.
  assert (∀ x, x ∈ C ++ [v] → x ∉ rest) as Hdisj.
  { intros x Hx Hr. specialize (Hrest x Hr).
    apply elem_of_app in Hx as [Hx| ->%list_elem_of_singleton]; [specialize (HC x Hx)|]; lia. }
  unfold close. rewrite Hstack.
  destruct (pop_until_spec C v rest (on_stack s) [] HvC) as (os' & -> & Hos). cbn [app].
  assert (∀ x, num (mk (index_of s) (lowlink s) os' rest (next_index s)
    (sccs s ++ [str_sort (C ++ [v])])) x = num s x) as Hnum by done.
  destruct Hinv. cbn [fmap list_fmap fst] in *.
  split; cbn [on_stack stack next_index sccs]; try done.
  - intros x. rewrite Hos, inv_on_stack0, Hin. naive_solver.
  - intros x Hx. apply inv_stack_visited0, Hin. by right.
  - rewrite Hstack in inv_sorted0. clear -inv_sorted0.
    assert (StronglySorted (above s) rest) as H; [|by apply (StronglySorted_above_ext s)].
    induction C as [|c D IH]; cbn [app] in inv_sorted0;
      apply StronglySorted_inv in inv_sorted0 as [? _]; auto.
  - intros g Hg. specialize (Hgray g Hg). assert (g ∈ stack s) as Hgs by (apply inv_grays0; by right).
    apply Hin in Hgs as [[Hx| ->%list_elem_of_singleton]%elem_of_app|?]; [|lia|done].
    specialize (HC g Hx). lia.
  - apply (StronglySorted_above_ext s); [done|]. by apply StronglySorted_inv in inv_grays_sorted0 as [? _].
  - intros x Hx. apply inv_low_le0, Hin. by right.
  - intros x Hx. destruct (inv_low0 x) as (z & Hz & Hzl & Hxz); [apply Hin; by right|].
    exists z. split_and!; [|done|done]. specialize (inv_low_le0 x (proj2 (Hin x) (or_intror Hx))).
    specialize (Hrest x Hx). apply Hin in Hz as [[Hc| ->%list_elem_of_singleton]%elem_of_app|?];
      [specialize (HC z Hc); lia|lia|done].
  - intros y Hy Hyg. specialize (Hrest y Hy).
    destruct (inv_finished0 y) as (Hly & g & Hg & Hgy & Hlg & Hmax); [apply Hin; by right| |].
    { intros [->|?]%elem_of_cons; [lia|done]. }
    split; [done|]. exists g. apply elem_of_cons in Hg as [->|Hg]; [lia|].
    split_and!; [done..|]. intros g' Hg'. apply Hmax. by right.
  - intros g y Hg Hy. apply inv_gray_reach0; [by right|]. apply Hin. by right.
  - intros x y Hx Hxy. destruct (inv_scanned0 x y) as [Hp|[Hy Hlow]]; [apply Hin; by right|done| |].
    + left. apply pending_cons in Hp as [[_ Hy]|?]; [by apply elem_of_nil in Hy|done].
    + right. split; [done|]. intros Hyr. apply Hlow, Hin. by right.
  - intros x y Hx Hxr Hxy. destruct (decide (x ∈ C ++ [v])) as [Hxc|Hxc].
    + destruct (Hedges x y Hxc Hxy) as [Hy [Hyc|Hys]]; (split; [done|]); [by apply Hdisj|].
      intros Hyr. apply Hys, Hin. by right.
    + destruct (inv_closed0 x y Hx) as [Hy Hys]; [rewrite Hin; tauto|done|].
      split; [done|]. intros Hyr. apply Hys, Hin. by right.
  - intros x y Hp. apply inv_frames0, pending_cons. by right.
  - intros x. change (visited (mk _ _ _ _ _ _) x) with (visited s x).
    rewrite concat_app, elem_of_app. cbn [concat]. rewrite app_nil_r, str_sort_perm, inv_sccs0, Hin.
    specialize (Hdisj x). specialize (inv_stack_visited0 x). rewrite Hin in inv_stack_visited0.
    destruct (decide (x ∈ C ++ [v])); tauto.
  - rewrite concat_app. cbn [concat]. rewrite app_nil_r. apply NoDup_app. split_and!; [done| |].
    + intros x Hx Hxc. rewrite str_sort_perm in Hxc. apply inv_sccs0 in Hx as [_ []].
      apply Hin. by left.
    + rewrite str_sort_perm. replace (C ++ v :: rest) with ((C ++ [v]) ++ rest) in Hnd
        by by rewrite <-app_assoc. by apply NoDup_app in Hnd as [? _].
  - intros scc. rewrite elem_of_app, list_elem_of_singleton. intros [?| ->]; auto.
Qed.

Lemma lookup_num s v : visited s v → s.(index_of) !! v = Some (num s v).
Proof. unfold num. by intros [i ->]. Qed.
Lemma lookup_low s W v : inv s W → visited s v → s.(lowlink) !! v = Some (low s v).
Proof. intros Hinv Hv. apply (inv_dom _ _ Hinv) in Hv as [l Hl]. unfold low. by rewrite Hl. Qed.

(** A finished vertex leaves the work stack. *)
Lemma finish_spec s v W :
  inv s ((v, []) :: W) →
  ∃ s', finish s v W = Some s' ∧ inv s' W ∧ s'.(index_of) = s.(index_of).
Proof.
  intros Hinv. unfold finish.
  assert (∀ g, g ∈ grays ((v, []) :: W) → g ∈ stack s ∧ visited s g) as Hg.
  { intros g Hg. pose proof (inv_grays _ _ Hinv g Hg). split; [done|].
    by apply (inv_stack_visited _ _ Hinv). }
  destruct (Hg v ltac:(by left)) as [Hvs Hv].
  (* the merge into the parent *)
  assert (∃ s1, match W with
      | (u, _) :: _ => let?o lu := lowlink s !! u in let?o lv := lowlink s !! v in
                       Some (set_lowlink s u (lu `min` lv))
      | [] => Some s end = Some s1
    ∧ inv s1 ((v, []) :: W) ∧ s1.(index_of) = s.(index_of) ∧ s1.(stack) = s.(stack)
    ∧ match W with (u, _) :: _ => low s1 u ≤ low s1 v | [] => True end)%nat
    as (s1 & -> & Hinv1 & Hidx & Hst & Hmerge).
  { destruct W as [|[u nu] W]; [by exists s|]. destruct (Hg u) as [Hus Hu]; [right; by left|].
    rewrite (lookup_low _ _ _ Hinv Hu), (lookup_low _ _ _ Hinv Hv). cbn [mbind option_bind].
    eexists. split; [done|]. pose proof (gray_below s v _ Hinv u ltac:(by left)) as Huv.
    destruct (inv_low _ _ Hinv u Hus) as (zu & ? & ? & ?).
    destruct (inv_low _ _ Hinv v Hvs) as (zv & ? & ? & ?).
    split_and!; [|done|done|].
    - apply inv_lower; [done|right; by left|lia|].
      destruct (Nat.min_spec (low s u) (low s v)) as [[_ ->]|[_ ->]]; [by exists zu|].
      exists zv. split_and!; [done..|]. etrans; [|done].
      apply (inv_gray_reach _ _ Hinv); [right; by left|done|lia].
    - rewrite low_set_eq, low_set_ne by (intros ->; lia). lia. }
  assert (visited s1 v) as Hv1 by (unfold visited; by rewrite Hidx).
  cbn [mbind option_bind].
  rewrite (lookup_low _ _ _ Hinv1 Hv1), (lookup_num _ _ Hv1). cbn [mbind option_bind].
  eexists. split; [done|]. destruct (Nat.eqb_spec (low s1 v) (num s1 v)) as [Hroot|Hroot].
  - split; [by apply inv_close|]. unfold close. by destruct (pop_until _ _ _ _) as [[??]?].
  - split; [|done]. rewrite <-Hst in Hvs. pose proof (inv_low_le _ _ Hinv1 v Hvs) as Hle. destruct W as [|[u nu] W]; [|by apply (inv_open _ v); [..|lia]].
    exfalso. destruct (inv_low _ _ Hinv1 v Hvs) as (z & Hz & Hzl & _).
    destruct (inv_finished _ _ Hinv1 z Hz) as (_ & g & Hgz & ? & _).
    { cbn. intros ->%list_elem_of_singleton. lia. }
    cbn in Hgz. apply list_elem_of_singleton in Hgz as ->. lia.
Qed.

(** The scan of the neighbours of the top vertex. *)
Lemma scan_neighbors_spec s v ns W :
  closed_adj → inv s ((v, ns) :: W) →
  ∃ s' r, scan_neighbors s v ns = Some (s', r) ∧
    match r with
    | None => inv s' ((v, []) :: W) ∧ s'.(index_of) = s.(index_of)
    | Some (w, rest) => ∃ nsw, adj !! w = Some nsw ∧ inv s' ((w, iter nsw) :: (v, rest) :: W)
        ∧ s.(index_of) !! w = None ∧ s'.(index_of) = <[w := s.(next_index)]> s.(index_of)
    end.
Proof.
  intros Hadj. revert s. induction ns as [|w rest IH]; intros s Hinv; cbn [scan_neighbors].
  { by exists s, None. }
  assert (edge v w) as Hvw.
  { apply (inv_frames _ _ Hinv), pending_cons. left. split; [done|by left]. }
  assert (v ∈ stack s) as Hvs by (apply (inv_grays _ _ Hinv); by left).
  pose proof (inv_stack_visited _ _ Hinv v Hvs) as Hv.
  destruct (index_of s !! w) as [iw|] eqn:Ew.
  - assert (visited s w) as Hw by by eexists.
    case_bool_decide as Hos.
    + apply (inv_on_stack _ _ Hinv) in Hos. rewrite (lookup_low _ _ _ Hinv Hv).
      assert (iw = num s w) as -> by (unfold num; by rewrite Ew).
      destruct (inv_low _ _ Hinv v Hvs) as (z & ? & ? & ?).
      destruct (IH (set_lowlink s v (low s v `min` num s w))) as (s' & r & Hs' & Hr).
      * apply (inv_skip _ v w).
        -- apply inv_lower; [done|by left|lia|].
           destruct (Nat.min_spec (low s v) (num s w)) as [[_ ->]|[_ ->]]; [by exists z|].
           exists w. split_and!; [done..|by apply rtc_once].
        -- done.
        -- intros _. rewrite low_set_eq. change (num (set_lowlink _ _ _) w) with (num s w). lia.
      * by exists s', r.
    + destruct (IH s) as (s' & r & Hs' & Hr); [|by exists s', r].
      apply (inv_skip _ v w); [done..|]. intros H. by apply (inv_on_stack _ _ Hinv) in H.
  - destruct (Hadj v w Hvw) as [nsw Hnsw]. do 2 eexists. split; [done|].
    exists nsw. split_and!; [done| |done|done].
    apply (inv_discover s ((v, w :: rest) :: W)); [done| |done|done|..].
    + intros [? ?]. congruence.
    + intros x y. rewrite !pending_cons. set_solver.
    + intros x y. rewrite !pending_cons. set_solver.
    + intros g Hg. eapply rtc_r; [|done]. apply (inv_gray_reach _ _ Hinv); [done..|].
      apply elem_of_cons in Hg as [->|Hg]; [done|].
      pose proof (above_head _ _ _ g (inv_grays_sorted _ _ Hinv) Hg). cbn in *. lia.
Qed.

(** *** Termination *)

(** The vertices not numbered yet. *)
Definition unnumbered (s : state) : nat := (size adj - size s.(index_of))%nat.

Lemma index_of_size s W : inv s W → (size s.(index_of) ≤ size adj)%nat.
Proof.
  intros Hinv. rewrite <-!size_dom. apply subseteq_size. intros v.
  rewrite !elem_of_dom. apply (inv_keys _ _ Hinv).
Qed.

Lemma work_loop_spec fuel s W :
  closed_adj → inv s W → (2 * unnumbered s + length W ≤ fuel)%nat →
  ∃ s', work_loop fuel adj s W = Some s' ∧ inv s' []
    ∧ ∀ v, visited s v → visited s' v.
Proof.
  intros Hadj. revert s W. induction fuel as [|fuel IH]; intros s [|[v ns] W] Hinv Hf;
    cbn [work_loop length] in *; [eauto|lia|eauto|].
  destruct (scan_neighbors_spec s v ns W Hadj Hinv) as (s' & [[w rest]|] & -> & Hr).
  - destruct Hr as (nsw & -> & Hinv' & Hnew & Hidx).
    pose proof (index_of_size _ _ Hinv') as Hsz. unfold unnumbered in *.
    rewrite Hidx, map_size_insert, Hnew in Hsz.
    destruct (IH s' _ Hinv') as (s2 & Hs2 & ? & Hmono).
    { rewrite Hidx, map_size_insert, Hnew. cbn [length]. lia. }
    exists s2. split_and!; [done..|]. intros x Hx. apply Hmono. unfold visited. rewrite Hidx.
    destruct (decide (x = w)) as [->|]; [rewrite lookup_insert_eq; by eexists|].
    by rewrite lookup_insert_ne.
  - destruct Hr as [Hinv' Hidx]. destruct (finish_spec s' v W Hinv') as (s2 & -> & Hinv2 & Hidx2).
    destruct (IH s2 W Hinv2) as (s3 & Hs3 & ? & Hmono).
    { unfold unnumbered in *. rewrite Hidx2, Hidx. lia. }
    exists s3. split_and!; [done..|]. intros x Hx. apply Hmono. unfold visited.
    by rewrite Hidx2, Hidx.
Qed.

Lemma inv_nil_stack s : inv s [] → s.(stack) = [].
Proof.
  intros Hinv. destruct (stack s) as [|y l] eqn:E; [done|].
  destruct (inv_finished _ _ Hinv y) as (_ & g & Hg & _).
  - rewrite E. by left.
  - by intros ?%elem_of_nil.
  - by apply elem_of_nil in Hg.
Qed.

Lemma visit_root_spec s root :
  closed_adj → inv s [] → is_Some (adj !! root) →
  ∃ s', visit_root adj s root = Some s' ∧ inv s' [] ∧ visited s' root
    ∧ ∀ v, visited s v → visited s' v.
Proof.
  intros Hadj Hinv [ns Hns]. unfold visit_root. case_bool_decide as Hr; [by exists s|].
  rewrite Hns.
  assert (inv (discover s root) [(root, iter ns)]) as Hinv'.
  { apply (inv_discover s []); [done..|by left| |]; [done|]. by intros g ?%elem_of_nil. }
  destruct (work_loop_spec (2 * size adj) _ _ Hadj Hinv') as (s' & -> & ? & Hmono).
  - pose proof (index_of_size _ _ Hinv') as Hsz. unfold unnumbered. cbn [discover index_of length] in *.
    rewrite map_size_insert in *. destruct (index_of s !! root) eqn:E; [destruct Hr; by eexists|]. lia.
  - exists s'. split_and!; [done|done| |].
    + apply Hmono, visited_discover. by left.
    + intros v Hv. apply Hmono, visited_discover. by right.
Qed.

Lemma roots_spec roots s :
  closed_adj → inv s [] → (∀ r, r ∈ roots → is_Some (adj !! r)) →
  ∃ s', foldl (λ acc root, let?o s := acc in visit_root adj s root) (Some s) roots = Some s'
    ∧ inv s' [] ∧ (∀ r, r ∈ roots → visited s' r) ∧ ∀ v, visited s v → visited s' v.
Proof.
  intros Hadj. revert s. induction roots as [|r roots IH]; intros s Hinv Hk; cbn [foldl].
  { exists s. split_and!; [done|done| |done]. by intros ? ?%elem_of_nil. }
  destruct (visit_root_spec s r Hadj Hinv) as (s1 & Hs1 & Hinv1 & Hr & Hmono); [apply Hk; by left|].
  cbn [mbind option_bind]. rewrite Hs1.
  destruct (IH s1 Hinv1) as (s2 & -> & ? & Hrs & Hmono'); [intros; apply Hk; by right|].
  exists s2. split_and!; [done|done| |auto].
  intros x [->|Hx]%elem_of_cons; auto.
Qed.

Lemma elem_of_keys {A} (m : gmap string A) v : v ∈ keys m ↔ is_Some (m !! v).
Proof. unfold keys. by rewrite str_sort_perm, elem_of_elements, elem_of_dom. Qed.

Lemma tarjan_scc_facts :
  closed_adj →
  ∃ sccs, tarjan_scc adj = Some sccs
    ∧ (∀ v, v ∈ concat sccs ↔ is_Some (adj !! v)) ∧ NoDup (concat sccs)
    ∧ ∀ scc, scc ∈ sccs → is_scc scc.
Proof.
  intros Hadj. unfold tarjan_scc.
  destruct (roots_spec (keys adj) init Hadj inv_init) as (s & -> & Hinv & Hall & _).
  { intros r. apply elem_of_keys. }
  exists (sccs s). split_and!; [done| |apply (inv_sccs_NoDup _ _ Hinv)|apply (inv_sccs_good _ _ Hinv)].
  intros v. rewrite (inv_sccs _ _ Hinv), (inv_nil_stack _ Hinv). split.
  - intros [Hv _]. by apply (inv_keys _ _ Hinv).
  - intros Hv. split; [|by intros ?%elem_of_nil]. by apply Hall, elem_of_keys.
Qed.

(** C3: [tarjan_scc] terminates without a panic on every adjacency map whose neighbours
    are keys, and returns the partition of the keys into strongly connected
    components: every key is in exactly one component, a component is not empty and
    sorted, and it holds exactly the vertices mutually reachable with any of its
    members. *)
Theorem tarjan_scc_correct :
  closed_adj →
  ∃ sccs, tarjan_scc adj = Some sccs
    ∧ (∀ v, v ∈ concat sccs ↔ is_Some (adj !! v)) ∧ NoDup (concat sccs)
    ∧ ∀ scc, scc ∈ sccs → is_scc scc.
Proof. apply tarjan_scc_facts. Qed.
End Correct.

(** [closed_adj] is decidable. *)
Lemma closed_adj_check adj :
  bool_decide (map_Forall (λ _ ns, set_Forall (λ w, is_Some (adj !! w)) ns) adj) = true →
  closed_adj adj.
Proof. intros H%bool_decide_eq_true_1 v w (ns & Hv & Hw). exact (H v ns Hv w Hw). Qed.

Lemma tarjan_scc_correct_witness :
  let adj : Adj := {[ "a" := {[ "b" ]}; "b" := {[ "a"; "c" ]}; "c" := ∅ ]} in
  tarjan_scc adj = Some [["c"]; ["a"; "b"]]
  ∧ ∃ sccs, tarjan_scc adj = Some sccs
    ∧ (∀ v, v ∈ concat sccs ↔ is_Some (adj !! v)) ∧ NoDup (concat sccs)
    ∧ ∀ scc, scc ∈ sccs → is_scc adj scc.
Proof.
  cbv zeta. split; [vm_compute; reflexivity|].
  apply (tarjan_scc_correct {[ "a" := {[ "b" ]}; "b" := {[ "a"; "c" ]}; "c" := ∅ ]}).
  apply closed_adj_check. vm_compute. reflexivity.
Defined.

End Tarjan.
