(* ===== verification/TaskReady.v ===== *)
(** * Ready-to-dispatch tasks ([src/src/query/task_ready.rs])

    The lane that splits the open tasks of the project graph into ready and blocked
    ones by their declared [DEPENDS_ON] edges. The component search is [Tarjan]; the
    JSON parser of the importer's diagnostics ([serde_json]) is a parameter. *)
From S2P Require Import Prelude RustStr Ir IrOps Liveness Tarjan.

Module TaskReady.
Export Tarjan.

(* query/task_ready.rs 24-24: TASK_READY_CANDIDATE_STATUSES *)
Definition TASK_READY_CANDIDATE_STATUSES : list string := ["open"; "in_progress"].

(* query/task_ready.rs 31-31: TASK_READY_TERMINAL_STATUSES *)
Definition TASK_READY_TERMINAL_STATUSES : list string := ["closed_completed"; "closed_dropped"].

(* query/task_ready.rs 34-34: UNRESOLVED_DEPENDENCY_PREFIX *)
Definition UNRESOLVED_DEPENDENCY_PREFIX : string := "[unresolved_dependency] ".

Module Payload.
(* query/task_ready.rs 40-45: UnresolvedDependencyPayload *)
Record t : Type := mk {
  task_local_id : string;
  file : string;
  line : N;
  unknown_dep : string
}.
End Payload.

Module TaskIdentityRow.
(* query/task_ready.rs 49-59: TaskIdentityRow *)
Record t : Type := mk {
  record_id : string;
  title : option string;
  status : string;
  source_handle : option string
}.
End TaskIdentityRow.

Module UnmetResolution.
(* query/task_ready.rs 64-72: UnmetResolution *)
Inductive t : Set := Resolved | Unresolved | TargetAbsent.
End UnmetResolution.

Module UnmetDependency.
(* query/task_ready.rs 76-90: UnmetDependency *)
Record t : Type := mk {
  record_id : option string;
  declared_local_id : option string;
  title : option string;
  status : option string;
  source_handle : option string;
  resolution : UnmetResolution.t
}.
End UnmetDependency.

Module BlockedTaskRow.
(* query/task_ready.rs 94-102: BlockedTaskRow *)
Record t : Type := mk {
  task : TaskIdentityRow.t;
  unmet_dependencies : list UnmetDependency.t;
  in_cycle : bool
}.
End BlockedTaskRow.

Module DiagnosticCode.
(* query/task_ready.rs 107-112: TaskReadyDiagnosticCode *)
Inductive t : Set := DependencyCycle | UnresolvedDependency.

(* query/task_ready.rs 117-122: TaskReadyDiagnosticCode::code_as_str *)
Definition code_as_str (self : t) : string :=
  match self with
  | DependencyCycle => "dependency_cycle"
  | UnresolvedDependency => "unresolved_dependency"
  end.

(** [self as u8]. *)
Definition as_u8 (self : t) : nat :=
  match self with DependencyCycle => 0 | UnresolvedDependency => 1 end.
End DiagnosticCode.

Module Diagnostic.
(* query/task_ready.rs 127-138: TaskReadyDiagnostic *)
Record t : Type := mk {
  code : DiagnosticCode.t;
  message : string;
  members : list string;
  task_record_id : option string;
  unknown_dep : option string
}.
End Diagnostic.

Module Counts.
(* query/task_ready.rs 142-155: TaskReadyCounts *)
Record t : Type := mk {
  tasks : nat;
  dependency_edges : nat;
  ready : nat;
  blocked : nat;
  author_blocked : nat;
  diagnostics : nat
}.
End Counts.

Module Report.
(* query/task_ready.rs 163-176: TaskReadyReport *)
Record t : Type := mk {
  counts : Counts.t;
  ready : list TaskIdentityRow.t;
  blocked : list BlockedTaskRow.t;
  author_blocked : list TaskIdentityRow.t;
  diagnostics : list Diagnostic.t;
  has_cycle : bool
}.
End Report.

Module Outcome.
(* query/task_ready.rs 180-185: TaskReadyOutcome *)
Inductive t : Type :=
| Ready (report : Report.t)
| NoProjectData.
End Outcome.

(* query/task_ready.rs 193-199: task_ready_exit_code *)
Definition task_ready_exit_code (outcome : Outcome.t) : Z :=
  match outcome with
  | Outcome.NoProjectData => 2
  | Outcome.Ready report => if report.(Report.has_cycle) then 3 else 0
  end.

Section Lane.
Context (from_str : string → option Payload.t).
Context (records : list GraphRecord).
Let liveness := Liveness.new records.

(** *** Live tasks *)

(* query/task_ready.rs 212-223: task_ready_report *)
Definition node_versions : gmap string (list NodeRec.t) :=
  foldl (λ m r,
    match r with
    | Node n =>
        if bool_decide (n.(NodeRec.kind) = NodeKind.Task)
           && negb (Liveness.deleted liveness n.(NodeRec.id))
        then <[n.(NodeRec.id) := default [] (m !! n.(NodeRec.id)) ++ [n]]> m
        else m
    | _ => m
    end) ∅ records.

(* query/task_ready.rs 227-230: task_ready_report *)
Definition live_tasks : gmap string NodeRec.t := omap last node_versions.

(** *** Dependencies *)

(** The loop over the records: the sets of targets and the edges counted. *)
(* query/task_ready.rs 238-261: task_ready_report *)
Definition add_dependency (acc : Adj * nat) (entry : nat * GraphRecord) : Adj * nat :=
  let '(dep_adj, dependency_edges) := acc in
  let '(index, r) := entry in
  match r with
  | Edge e =>
      if negb (bool_decide (e.(EdgeRec.label) = EdgeLabel.DependsOn)) then acc
      else if Liveness.deleted liveness e.(EdgeRec.id)
              || negb (Liveness.is_latest_edge_version liveness e.(EdgeRec.id) index) then acc
      else if bool_decide (is_Some (live_tasks !! e.(EdgeRec.source))) then
        (<[e.(EdgeRec.source) :=
             {[e.(EdgeRec.target)]} ∪ default ∅ (dep_adj !! e.(EdgeRec.source))]> dep_adj,
         S dependency_edges)
      else acc
  | _ => acc
  end.

(* query/task_ready.rs 233-261: task_ready_report *)
Definition declared : Adj * nat :=
  foldl add_dependency ((λ _, ∅) <$> live_tasks, 0%nat) (imap pair records).

(** Every referenced target becomes a vertex. *)
(* query/task_ready.rs 262-267: task_ready_report *)
Definition dep_adj : Adj :=
  let adj := declared.1 in
  let referenced := k ← keys adj; iter (default ∅ (adj !! k)) in
  foldl (λ m target, <[target := default ∅ (m !! target)]> m) adj referenced.

(** *** Source handles *)

(* query/task_ready.rs 274-286: task_ready_report *)
Definition links : gmap string NodeRec.t :=
  foldl (λ m (entry : nat * GraphRecord),
    match entry with
    | (index, Node n) =>
        if bool_decide (n.(NodeRec.kind) = NodeKind.ExternalLink)
           && negb (Liveness.deleted liveness n.(NodeRec.id))
           && Liveness.is_latest_node_version liveness n.(NodeRec.id) index
        then <[n.(NodeRec.id) := n]> m else m
    | _ => m
    end) ∅ (imap pair records).

(* query/task_ready.rs 287-301: task_ready_report *)
Definition handle_target : gmap string string :=
  foldl (λ m (entry : nat * GraphRecord),
    match entry with
    | (index, Edge e) =>
        if bool_decide (e.(EdgeRec.label) = EdgeLabel.ExternalHandle)
           && negb (Liveness.deleted liveness e.(EdgeRec.id))
           && Liveness.is_latest_edge_version liveness e.(EdgeRec.id) index
        then <[e.(EdgeRec.source) := e.(EdgeRec.target)]> m else m
    | _ => m
    end) ∅ (imap pair records).

(* query/task_ready.rs 302-331: task_ready_report *)
Definition resolve_handle (node : NodeRec.t) : option string :=
  let link_id := or_else node.(NodeRec.source_external_link_id)
                         (handle_target !! node.(NodeRec.id)) in
  match (let?o link_id := link_id in links !! link_id) with
  | Some link =>
      match link.(NodeRec.system_native_id), link.(NodeRec.url) with
      | Some native, Some u => Some (native +:+ " <" +:+ u +:+ ">")
      | Some native, None => Some native
      | None, Some u => Some u
      | None, None => node.(NodeRec.source_handle)
      end
  | None => node.(NodeRec.source_handle)
  end.

(** *** Unresolved declarations *)

(* query/task_ready.rs 335-345: task_ready_report *)
Definition task_by_source : gmap (string * string) string :=
  foldl (λ m id,
    match live_tasks !! id with
    | Some node =>
        match node.(NodeRec.repo_relative_path), node.(NodeRec.name) with
        | Some path, Some local_id => <[(path, local_id) := id]> m
        | _, _ => m
        end
    | None => m
    end) ∅ (keys live_tasks).

(** The declaration a record makes, when it is a live importer diagnostic attributed to
    a live task and not resolved since: the payload and the declaring task. *)
(* query/task_ready.rs 349-381: task_ready_report *)
Definition unresolved_declaration (entry : nat * GraphRecord) : option (Payload.t * string) :=
  match entry with
  | (index, Node n) =>
      if negb (bool_decide (n.(NodeRec.kind) = NodeKind.Diagnostic)) then None
      else if Liveness.deleted liveness n.(NodeRec.id)
              || negb (Liveness.is_latest_node_version liveness n.(NodeRec.id) index) then None
      else
        let?o payload_json := strip_prefix UNRESOLVED_DEPENDENCY_PREFIX n.(NodeRec.summary) in
        let?o payload := from_str payload_json in
        let?o task_id := task_by_source !! (payload.(Payload.file), payload.(Payload.task_local_id)) in
        let resolved_now :=
          match task_by_source !! (payload.(Payload.file), payload.(Payload.unknown_dep)) with
          | Some dep => bool_decide (dep ∈ default ∅ (dep_adj !! task_id))
          | None => false
          end in
        if resolved_now then None else Some (payload, task_id)
  | _ => None
  end.

(* query/task_ready.rs 388-394: task_ready_report *)
Definition unresolved_diagnostic (payload : Payload.t) (task_id : string) : Diagnostic.t :=
  Diagnostic.mk DiagnosticCode.UnresolvedDependency
    ("task '" +:+ payload.(Payload.task_local_id) +:+ "' depends on unknown task '"
     +:+ payload.(Payload.unknown_dep) +:+ "' (" +:+ payload.(Payload.file) +:+ " line "
     +:+ dec payload.(Payload.line) +:+ ")")
    [] (Some task_id) (Some payload.(Payload.unknown_dep)).

(* query/task_ready.rs 346-396: task_ready_report *)
Definition unresolved_scan : gmap string (gset string) * list Diagnostic.t :=
  foldl (λ (acc : gmap string (gset string) * list Diagnostic.t) entry,
    match unresolved_declaration entry with
    | Some (payload, task_id) =>
        (<[task_id := {[payload.(Payload.unknown_dep)]} ∪ default ∅ (acc.1 !! task_id)]> acc.1,
         acc.2 ++ [unresolved_diagnostic payload task_id])
    | None => acc
    end) (∅, []) (imap pair records).

(* query/task_ready.rs 397-400: task_ready_report *)
Definition unresolved_diags : list Diagnostic.t :=
  sort_by (λ a b, then_cmp (opt_cmp a.(Diagnostic.task_record_id) b.(Diagnostic.task_record_id))
                           (opt_cmp a.(Diagnostic.unknown_dep) b.(Diagnostic.unknown_dep)))
    unresolved_scan.2.

(** *** Cycles *)

(** [Iterator::filter] with a test that may panic. *)
Fixpoint filter_opt {A} (p : A → option bool) (l : list A) : option (list A) :=
  match l with
  | [] => Some []
  | x :: l' =>
      match p x, filter_opt p l' with
      | Some b, Some k => Some (if b then x :: k else k)
      | _, _ => None
      end
  end.

(** More than one member, or one that depends on itself ([owned_adj[only]] may panic). *)
(* query/task_ready.rs 415-420: task_ready_report *)
Definition is_cycle (scc : list string) : option bool :=
  if (1 <? length scc)%nat then Some true
  else match scc with
       | only :: _ => (λ ns : gset string, bool_decide (only ∈ ns)) <$> dep_adj !! only
       | [] => Some false
       end.

(* query/task_ready.rs 404-422: task_ready_report *)
Definition cycles : option (list (list string)) :=
  match tarjan_scc dep_adj with
  | Some sccs => sort_by (vec_cmp String.compare) <$> filter_opt is_cycle sccs
  | None => None
  end.

(* query/task_ready.rs 426-432: task_ready_report *)
Definition cycle_diagnostic (members : list string) : Diagnostic.t :=
  Diagnostic.mk DiagnosticCode.DependencyCycle
    ("dependency cycle among tasks: " +:+ join ", " members) members None None.

(* query/task_ready.rs 435-442: task_ready_report *)
Definition diagnostic_cmp (a b : Diagnostic.t) : comparison :=
  then_cmp (Nat.compare (DiagnosticCode.as_u8 a.(Diagnostic.code)) (DiagnosticCode.as_u8 b.(Diagnostic.code)))
    (then_cmp (vec_cmp String.compare a.(Diagnostic.members) b.(Diagnostic.members))
      (then_cmp (opt_cmp a.(Diagnostic.task_record_id) b.(Diagnostic.task_record_id))
        (opt_cmp a.(Diagnostic.unknown_dep) b.(Diagnostic.unknown_dep)))).

(* query/task_ready.rs 424-442: task_ready_report *)
Definition diagnostics (cycles : list (list string)) : list Diagnostic.t :=
  sort_by diagnostic_cmp ((cycle_diagnostic <$> cycles) ++ unresolved_diags).

(** *** Classification *)

Definition status_of (node : NodeRec.t) : string := default "unknown" node.(NodeRec.status).

(* query/task_ready.rs 454-459: task_ready_report *)
Definition identity_row (id : string) (node : NodeRec.t) : TaskIdentityRow.t :=
  TaskIdentityRow.mk id node.(NodeRec.title) (status_of node) (resolve_handle node).

(* query/task_ready.rs 475-509: task_ready_report *)
Definition unmet_target (target : string) : option UnmetDependency.t :=
  match live_tasks !! target with
  | Some target_node =>
      let dep_status := status_of target_node in
      if dep_status =s? "closed_completed" then None
      else Some (UnmetDependency.mk (Some target) None target_node.(NodeRec.title)
                   (Some dep_status) (resolve_handle target_node) UnmetResolution.Resolved)
  | None => Some (UnmetDependency.mk (Some target) None None None None UnmetResolution.TargetAbsent)
  end.

(* query/task_ready.rs 512-523: task_ready_report *)
Definition unmet_unknown (row : TaskIdentityRow.t) (unknown : string) : UnmetDependency.t :=
  UnmetDependency.mk None (Some unknown) None None row.(TaskIdentityRow.source_handle)
    UnmetResolution.Unresolved.

(* query/task_ready.rs 528-539: task_ready_report *)
Definition unmet_key (u : UnmetDependency.t) : nat * string :=
  match u.(UnmetDependency.resolution) with
  | UnmetResolution.Resolved => (0%nat, default "" u.(UnmetDependency.record_id))
  | UnmetResolution.Unresolved => (1%nat, default "" u.(UnmetDependency.declared_local_id))
  | UnmetResolution.TargetAbsent => (2%nat, default "" u.(UnmetDependency.record_id))
  end.

(* query/task_ready.rs 473-541: task_ready_report *)
Definition unmet (id : string) (row : TaskIdentityRow.t) : list UnmetDependency.t :=
  sort_by (λ a b, then_cmp (Nat.compare (unmet_key a).1 (unmet_key b).1)
                           (String.compare (unmet_key a).2 (unmet_key b).2))
    (omap unmet_target (iter (default ∅ (dep_adj !! id)))
     ++ (unmet_unknown row <$> iter (default ∅ (unresolved_scan.1 !! id)))).

Abbreviation Classes :=
  (list TaskIdentityRow.t * list BlockedTaskRow.t * list TaskIdentityRow.t)%type.

(** One round of the classification loop, over (ready, blocked, author blocked). *)
(* query/task_ready.rs 449-553: task_ready_report *)
Definition classify (cycle_members : gset string) (acc : Classes) (id : string) : Classes :=
  let '(ready, blocked, author_blocked) := acc in
  match live_tasks !! id with
  | None => acc
  | Some node =>
      let status := status_of node in
      let row := identity_row id node in
      if str_in status TASK_READY_TERMINAL_STATUSES then acc
      else if status =s? "blocked" then (ready, blocked, author_blocked ++ [row])
      else if negb (str_in status TASK_READY_CANDIDATE_STATUSES) then acc
      else
        let unmet := unmet id row in
        let in_cycle := bool_decide (id ∈ cycle_members) in
        if in_cycle || negb (bool_decide (unmet = [])) then
          (ready, blocked ++ [BlockedTaskRow.mk row unmet in_cycle], author_blocked)
        else (ready ++ [row], blocked, author_blocked)
  end.

(** [None] is a panic. *)
(* query/task_ready.rs 206-571: task_ready_report *)
Definition task_ready_report : option Outcome.t :=
  if bool_decide (node_versions = ∅) then Some Outcome.NoProjectData
  else
    match cycles with
    | None => None
    | Some cycles =>
        let cycle_members : gset string := list_to_set (concat cycles) in
        let diags := diagnostics cycles in
        let '(ready, blocked, author_blocked) :=
          foldl (classify cycle_members) ([], [], []) (keys live_tasks) in
        Some (Outcome.Ready (Report.mk
          (Counts.mk (size live_tasks) declared.2 (length ready) (length blocked)
             (length author_blocked) (length diags))
          ready blocked author_blocked diags (negb (bool_decide (cycles = [])))))
    end.
End Lane.
End TaskReady.

(** ** Specification and proofs *)
Section Facts.
Import TaskReady.
Context (from_str : string → option Payload.t) (records : list GraphRecord).
Abbreviation live := (Liveness.new records).
Abbreviation tasks := (live_tasks records).
Abbreviation adj := (dep_adj records).

(** A current [DEPENDS_ON] edge of a live task. *)
Definition depends (a b : string) : Prop :=
  ∃ index e, records !! index = Some (Edge e)
    ∧ e.(EdgeRec.label) = EdgeLabel.DependsOn
    ∧ Liveness.deleted live e.(EdgeRec.id) = false
    ∧ Liveness.is_latest_edge_version live e.(EdgeRec.id) index = true
    ∧ e.(EdgeRec.source) = a ∧ e.(EdgeRec.target) = b ∧ is_Some (tasks !! a).

(** A live importer diagnostic says that [id] names the unknown task [u]. *)
Definition names_unknown (id u : string) : Prop :=
  ∃ index r payload, records !! index = Some r
    ∧ unresolved_declaration from_str records (index, r) = Some (payload, id)
    ∧ payload.(Payload.unknown_dep) = u.

Definition has_status (id s : string) : Prop := ∃ n, tasks !! id = Some n ∧ status_of n = s.
Definition candidate (id : string) : Prop :=
  ∃ s, has_status id s ∧ s ∈ TASK_READY_CANDIDATE_STATUSES.

(** Nothing the author declared holds the task back. *)
Definition unblocked (id : string) : Prop :=
  ¬ tc depends id id ∧ (∀ t, depends id t → has_status t "closed_completed")
  ∧ ∀ u, ¬ names_unknown id u.

(** *** Live tasks *)
Definition is_live_task (id : string) (n : NodeRec.t) : Prop :=
  Node n ∈ records ∧ n.(NodeRec.kind) = NodeKind.Task ∧ n.(NodeRec.id) = id
  ∧ Liveness.deleted live id = false.

Lemma node_versions_spec id n :
  n ∈ default [] (node_versions records !! id) ↔ is_live_task id n.
Proof.
  unfold node_versions.
  rewrite (foldl_ext_elem _ (λ m a,
    match (match a with
           | Node n => if bool_decide (n.(NodeRec.kind) = NodeKind.Task)
                          && negb (Liveness.deleted live n.(NodeRec.id))
                       then Some (n.(NodeRec.id), n) else None
           | _ => None end) with
    | Some (k, v) => <[k := default [] (m !! k) ++ [v]]> m
    | None => m end)); [|by intros m [x|x|x] _; [destruct (_ && _)|..]].
  rewrite foldl_push. unfold is_live_task. split.
  - intros ([x|x|x] & Hx & Hf); try done. destruct (_ && _) eqn:E; [|done].
    simplify_eq. breflect. done.
  - intros (Hn & Hk & <- & Hd). exists (Node n). split; [done|]. by rewrite Hk, Hd.
Qed.

Lemma node_versions_nonempty id vs : node_versions records !! id = Some vs → vs ≠ [].
Proof.
  unfold node_versions.
  assert (∀ (m : gmap string (list NodeRec.t)) l, (∀ i v, m !! i = Some v → v ≠ []) →
    ∀ i v, foldl (λ m r,
    match r with
    | Node n =>
        if bool_decide (n.(NodeRec.kind) = NodeKind.Task)
           && negb (Liveness.deleted live n.(NodeRec.id))
        then <[n.(NodeRec.id) := default [] (m !! n.(NodeRec.id)) ++ [n]]> m
        else m
    | _ => m
    end) m l !! i = Some v → v ≠ []) as H; [|apply H; intros i v; by rewrite lookup_empty].
  intros m l. revert m. induction l as [|r l IH]; intros m Hm; cbn [foldl]; [done|]. apply IH.
  destruct r as [n|e|t]; [|done|done]. destruct (_ && _); [|done].
  intros i v. rewrite lookup_insert_Some. intros [[_ <-]|[_ H]]; [|by eapply Hm].
  by destruct (default [] _).
Qed.

Lemma live_tasks_is_Some id : is_Some (tasks !! id) ↔ is_Some (node_versions records !! id).
Proof.
  unfold live_tasks. rewrite lookup_omap. split.
  - intros [n Hn]. destruct (node_versions records !! id); [by eexists|done].
  - intros [vs Hvs]. rewrite Hvs. simpl. apply last_is_Some. by eapply node_versions_nonempty.
Qed.

(** Every live task has a representative version, and only live tasks do. *)
Lemma live_tasks_spec id :
  (∀ n, tasks !! id = Some n → is_live_task id n)
  ∧ ((∃ n, is_live_task id n) → is_Some (tasks !! id)).
Proof.
  split.
  - intros n Hn. unfold live_tasks in Hn. rewrite lookup_omap in Hn. apply node_versions_spec.
    destruct (node_versions records !! id) as [vs|]; [|done]. simpl in *.
    by apply last_Some_elem_of.
  - intros [n Hn%node_versions_spec]. apply live_tasks_is_Some.
    destruct (node_versions records !! id); [by eexists|]. by apply elem_of_nil in Hn.
Qed.

Lemma no_project_data : node_versions records = ∅ ↔ tasks = ∅.
Proof.
  rewrite !map_empty. split; intros H id; apply eq_None_not_Some.
  - rewrite live_tasks_is_Some, H. by intros [? ?].
  - rewrite <-live_tasks_is_Some, H. by intros [? ?].
Qed.

(** *** The dependency graph *)
Lemma edge_default (m : Adj) a b : edge m a b ↔ b ∈ default ∅ (m !! a).
Proof.
  unfold edge. destruct (m !! a) as [ns|] eqn:E; simpl; [naive_solver|].
  split; [naive_solver|set_solver].
Qed.

Definition contributes (entry : nat * GraphRecord) (a b : string) : Prop :=
  ∃ e, entry.2 = Edge e ∧ e.(EdgeRec.label) = EdgeLabel.DependsOn
    ∧ Liveness.deleted live e.(EdgeRec.id) = false
    ∧ Liveness.is_latest_edge_version live e.(EdgeRec.id) entry.1 = true
    ∧ e.(EdgeRec.source) = a ∧ e.(EdgeRec.target) = b ∧ is_Some (tasks !! a).

Lemma add_dependency_edge acc entry a b :
  edge (add_dependency records acc entry).1 a b ↔ edge acc.1 a b ∨ contributes entry a b.
Proof.
  unfold add_dependency, contributes. destruct acc as [m c], entry as [i [n|e|t]]; cbn [fst snd].
  1,3: by split; [by left|]; intros [?|(? & ? & _)].
  assert (∀ P Q : Prop, ¬ Q → (P ↔ P ∨ Q)) as Hno by tauto.
  case_bool_decide as Hl; cbn [negb]; [|apply Hno; by intros (? & [= <-] & ? & _)].
  destruct (Liveness.deleted live (EdgeRec.id e)) eqn:Hd; cbn [orb];
    [apply Hno; intros (? & [= <-] & _ & ? & _); congruence|].
  destruct (Liveness.is_latest_edge_version live (EdgeRec.id e) i) eqn:Hv; cbn [negb];
    [|apply Hno; intros (? & [= <-] & _ & _ & ? & _); congruence].
  case_bool_decide as Hs; [|apply Hno; by intros (? & [= <-] & _ & _ & _ & <- & _ & ?)].
  rewrite !edge_default. cbn [fst]. destruct (decide (EdgeRec.source e = a)) as [<-|Hne].
  - rewrite lookup_insert_eq. simpl. rewrite elem_of_union, elem_of_singleton. split.
    + intros [->|?]; [right; by exists e|by left].
    + intros [?|(? & [= <-] & _ & _ & _ & _ & <- & _)]; [by right|by left].
  - rewrite lookup_insert_ne by done. apply Hno. by intros (? & [= <-] & _ & _ & _ & ? & _).
Qed.

Lemma declared_edge a b : edge (declared records).1 a b ↔ depends a b.
Proof.
  unfold declared.
  rewrite (foldl_or (add_dependency records) (λ acc, edge acc.1 a b) (λ x, contributes x a b))
    by (intros; apply add_dependency_edge).
  cbn [fst]. rewrite edge_default, lookup_fmap. split.
  - intros [H|([i r] & Hx%elem_of_imap_pair & (e & Hr & H))].
    + destruct (tasks !! a); simpl in H; set_solver.
    + cbn [fst snd] in *. subst r. by exists i, e.
  - intros (i & e & Hi & H). right. exists (i, Edge e). split; [by apply elem_of_imap_pair|].
    by exists e.
Qed.

Lemma declared_dom a : is_Some ((declared records).1 !! a) ↔ is_Some (tasks !! a).
Proof.
  unfold declared.
  assert (∀ l acc, (is_Some (acc.1 !! a) ↔ is_Some (tasks !! a)) →
    is_Some ((foldl (add_dependency records) acc l).1 !! a) ↔ is_Some (tasks !! a)) as H.
  { induction l as [|[i r] l IH]; intros [m c] Hm; cbn [foldl]; [done|]. apply IH.
    unfold add_dependency. destruct r as [n|e|t]; try done.
    destruct (negb _); [done|]. destruct (_ || _); [done|]. case_bool_decide as Hs; [|done].
    cbn [fst] in *. destruct (decide (EdgeRec.source e = a)) as [<-|Hne].
    - rewrite lookup_insert_eq. split; [done|by eexists].
    - by rewrite lookup_insert_ne. }
  apply H. cbn [fst]. rewrite lookup_fmap. by rewrite fmap_is_Some.
Qed.

(** What the closing loop over the referenced targets does to an adjacency map. *)
Lemma referenced_fold (l : list string) (m : Adj) a :
  default ∅ (foldl (λ m target, <[target := default ∅ (m !! target)]> m) m l !! a)
    = default ∅ (m !! a)
  ∧ (is_Some (foldl (λ m target, <[target := default ∅ (m !! target)]> m) m l !! a)
     ↔ is_Some (m !! a) ∨ a ∈ l).
Proof.
  revert m. induction l as [|t l IH]; intros m; cbn [foldl].
  - split; [done|]. split; [by left|]. intros [?|?%elem_of_nil]; done.
  - destruct (IH (<[t := default ∅ (m !! t)]> m)) as [-> ->]. rewrite elem_of_cons.
    destruct (decide (t = a)) as [->|Hne].
    + rewrite lookup_insert_eq. split; [done|]. split; [auto|]. intros _. left. by eexists.
    + rewrite lookup_insert_ne by done. naive_solver.
Qed.

Lemma adj_edge a b : edge adj a b ↔ depends a b.
Proof.
  rewrite <-declared_edge, !edge_default. unfold dep_adj.
  by rewrite (proj1 (referenced_fold _ _ a)).
Qed.

Lemma adj_dom a : is_Some (adj !! a) ↔ is_Some (tasks !! a) ∨ ∃ b, depends b a.
Proof.
  unfold dep_adj. rewrite (proj2 (referenced_fold _ _ a)), declared_dom.
  rewrite list_elem_of_bind. split; (intros [?|[b Hb]]; [by left|right; exists b]).
  - destruct Hb as [Hb _]. by rewrite elem_of_iter, <-edge_default, declared_edge in Hb.
  - split; [by rewrite elem_of_iter, <-edge_default, declared_edge|].
    apply elem_of_keys, declared_dom. by destruct Hb as (?&?&?&?&?&?&?&?&?).
Qed.

Lemma adj_closed : closed_adj adj.
Proof. intros v w Hvw. apply adj_dom. right. exists v. by apply adj_edge. Qed.

Lemma adj_reach a b : reach adj a b ↔ rtc depends a b.
Proof. split; apply rtc_subrel; intros x y; apply adj_edge. Qed.

(** *** Cycles *)
Lemma is_cycle_spec scc :
  is_scc adj scc → (∀ v, v ∈ scc → is_Some (adj !! v)) → NoDup scc →
  ∃ b, is_cycle records scc = Some b ∧ ∀ v, v ∈ scc → b = true ↔ tc depends v v.
Proof.
  intros (_ & Hne & Hscc) Hdom Hnd. unfold is_cycle.
  destruct (Nat.ltb_spec 1 (length scc)) as [Hlen|Hlen].
  - exists true. split; [done|]. intros v Hv. split; [intros _|done].
    assert (∃ w, w ∈ scc ∧ w ≠ v) as (w & Hw & Hwv).
    { destruct scc as [|x [|y scc]]; cbn in *; [lia|lia|].
      apply NoDup_cons in Hnd as [Hx _].
      destruct (decide (x = v)) as [->|]; [|exists x; set_solver].
      exists y. split; [set_solver|]. intros ->. set_solver. }
    destruct (proj1 (Hscc v w Hv) Hw) as [Hvw Hwv'].
    apply adj_reach in Hvw, Hwv'.
    apply rtc_inv in Hvw as [->|(x & Hvx & Hxw)]; [done|].
    eapply tc_rtc_r; [by apply tc_once|]. by etrans.
  - destruct scc as [|x [|y scc]]; cbn in Hlen; [done| |lia].
    destruct (Hdom x) as [ns Hns]; [by left|]. rewrite Hns. exists (bool_decide (x ∈ ns)).
    split; [done|].
    intros v ->%list_elem_of_singleton. rewrite bool_decide_eq_true. split.
    + intros Hx. apply tc_once, adj_edge. by exists ns.
    + intros Hx. assert (∃ y, depends x y ∧ rtc depends y x) as (y & Hxy & Hyx).
      { inversion Hx; subst; [by exists x|]. eexists. split; [done|]. by apply tc_rtc. }
      assert (y ∈ [x]) as ->%list_elem_of_singleton.
      { apply (Hscc x y); [by left|]. rewrite !adj_reach. split; [by apply rtc_once|done]. }
      apply adj_edge in Hxy as (ns' & ? & ?). by simplify_eq.
Qed.

Lemma filter_opt_spec {A} (p : A → option bool) l :
  (∀ x, x ∈ l → is_Some (p x)) →
  ∃ k, filter_opt p l = Some k ∧ k `sublist_of` l ∧ ∀ x, x ∈ k ↔ x ∈ l ∧ p x = Some true.
Proof.
  induction l as [|x l IH]; intros Hp; cbn [filter_opt].
  { exists []. split_and!; [done|done|]. intros x. split; [by intros ?%elem_of_nil|].
    by intros [?%elem_of_nil _]. }
  destruct (Hp x) as [b Hb]; [by left|]. destruct IH as (k & -> & Hsub & Hk); [set_solver|].
  rewrite Hb. eexists. split; [done|]. destruct b.
  - split; [by constructor|]. intros y. rewrite !elem_of_cons, Hk. naive_solver.
  - split; [by constructor|]. intros y. rewrite elem_of_cons, Hk. naive_solver.
Qed.

Lemma NoDup_concat_elem {A} (ls : list (list A)) l : NoDup (concat ls) → l ∈ ls → NoDup l.
Proof.
  induction ls as [|k ls IH]; cbn [concat]; [by intros _ ?%elem_of_nil|].
  intros (? & _ & ?)%NoDup_app [->|?]%elem_of_cons; auto.
Qed.

Lemma sublist_concat {A} (ks ls : list (list A)) :
  ks `sublist_of` ls → NoDup (concat ls) → NoDup (concat ks).
Proof.
  intros Hs Hnd. assert (concat ks `sublist_of` concat ls) as H.
  { clear Hnd. induction Hs; cbn [concat]; [done|by apply sublist_app|by apply sublist_inserts_l]. }
  by eapply sublist_NoDup.
Qed.

(** The diagnosed cycles are the strongly connected components of the tasks that
    depend on themselves. *)
Lemma cycles_spec :
  ∃ cs, cycles records = Some cs ∧ NoDup (concat cs)
    ∧ (∀ c, c ∈ cs → StronglySorted String.le c ∧ c ≠ []
         ∧ ∀ a b, a ∈ c → b ∈ c ↔ rtc depends a b ∧ rtc depends b a)
    ∧ ∀ v, v ∈ concat cs ↔ tc depends v v.
Proof.
  destruct (tarjan_scc_facts adj adj_closed) as (sccs & Hs & Hdom & Hnd & Hgood).
  assert (∀ scc, scc ∈ sccs → ∃ b, is_cycle records scc = Some b
            ∧ ∀ v, v ∈ scc → b = true ↔ tc depends v v) as Hc.
  { intros scc Hscc. apply is_cycle_spec; [by apply Hgood| |by eapply NoDup_concat_elem].
    intros v Hv. apply Hdom, elem_of_concat. eauto. }
  destruct (filter_opt_spec (is_cycle records) sccs) as (k & Hk & Hsub & Hin).
  { intros x Hx. destruct (Hc x Hx) as (b & -> & _). by eexists. }
  unfold cycles. rewrite Hs, Hk. simpl. eexists. split; [done|].
  assert (sort_by (vec_cmp String.compare) k ≡ₚ k) as Hp by apply sort_by_perm.
  split_and!.
  - rewrite Hp. by eapply sublist_concat.
  - intros c. rewrite Hp, Hin. intros [Hcs _]. destruct (Hgood c Hcs) as (? & ? & Hm).
    split_and!; [done|done|]. intros a b Ha. rewrite (Hm a b Ha). by rewrite !adj_reach.
  - intros v. rewrite Hp, elem_of_concat. split.
    + intros (c & Hv & [Hcs Hct]%Hin). destruct (Hc c Hcs) as (b & Hb & Hbv).
      apply (Hbv v Hv). congruence.
    + intros Hv. assert (∃ x, depends v x) as [x Hvx] by (inversion Hv; eauto).
      assert (v ∈ concat sccs) as (c & Hvc & Hcs)%elem_of_concat.
      { apply Hdom, adj_dom. left. by destruct Hvx as (?&?&?&?&?&?&?&?&?). }
      exists c. split; [done|]. apply Hin. split; [done|].
      destruct (Hc c Hcs) as (b & -> & Hbv). f_equal. by apply (Hbv v Hvc).
Qed.
(** *** Unresolved declarations *)
Lemma names_unknown_spec id u :
  u ∈ default ∅ ((unresolved_scan from_str records).1 !! id) ↔ names_unknown id u.
Proof.
  unfold unresolved_scan.
  set (f := λ (acc : gmap string (gset string) * list Diagnostic.t) entry,
    match unresolved_declaration from_str records entry with
    | Some (payload, task_id) =>
        (<[task_id := {[payload.(Payload.unknown_dep)]} ∪ default ∅ (acc.1 !! task_id)]> acc.1,
         acc.2 ++ [unresolved_diagnostic payload task_id])
    | None => acc
    end).
  rewrite (foldl_or f (λ acc, u ∈ default ∅ (acc.1 !! id))
    (λ x, ∃ payload, unresolved_declaration from_str records x = Some (payload, id)
          ∧ payload.(Payload.unknown_dep) = u)).
  - cbn [fst]. rewrite lookup_empty. split.
    + intros [H|([i r] & Hx%elem_of_imap_pair & payload & H1 & H2)]; [set_solver|].
      by exists i, r, payload.
    + intros (i & r & payload & Hi & H). right. exists (i, r).
      split; [by apply elem_of_imap_pair|by exists payload].
  - intros [m ds] x _. unfold f. destruct (unresolved_declaration from_str records x) as [[p t]|];
      [|naive_solver].
    cbn [fst]. destruct (decide (t = id)) as [->|Hne].
    + rewrite lookup_insert_eq. simpl. rewrite elem_of_union, elem_of_singleton. naive_solver.
    + rewrite lookup_insert_ne by done. naive_solver.
Qed.

(** *** Unmet dependencies *)
Definition unmet_of (id : string) (row : TaskIdentityRow.t) (u : UnmetDependency.t) : Prop :=
  (∃ t, depends id t ∧ unmet_target records t = Some u)
  ∨ ∃ s, names_unknown id s ∧ u = unmet_unknown row s.

Lemma unmet_spec id row u : u ∈ unmet from_str records id row ↔ unmet_of id row u.
Proof.
  unfold unmet, unmet_of. rewrite sort_by_perm, elem_of_app, list_elem_of_omap, list_elem_of_fmap.
  setoid_rewrite elem_of_iter. setoid_rewrite names_unknown_spec.
  setoid_rewrite <-edge_default. setoid_rewrite adj_edge. naive_solver.
Qed.

Lemma unmet_target_None t : unmet_target records t = None ↔ has_status t "closed_completed".
Proof.
  unfold unmet_target, has_status. destruct (tasks !! t) as [n|]; [|naive_solver].
  destruct (String.eqb_spec (status_of n) "closed_completed"); naive_solver.
Qed.

Lemma unmet_nil id row :
  unmet from_str records id row = []
  ↔ (∀ t, depends id t → has_status t "closed_completed") ∧ ∀ u, ¬ names_unknown id u.
Proof.
  rewrite <-(elem_of_nil_inv_iff (unmet from_str records id row)). setoid_rewrite unmet_spec.
  unfold unmet_of. split.
  - intros H. split.
    + intros t Ht. apply unmet_target_None. destruct (unmet_target records t) eqn:E; [|done].
      destruct (H t0). left. eauto.
    + intros u Hu. apply (H (unmet_unknown row u)). right. eauto.
  - intros [H1 H2] u [(t & Ht & Hu)|(s & Hs & _)]; [|by apply (H2 s)].
    apply H1, unmet_target_None in Ht. congruence.
Qed.

(** *** Classification *)
Inductive verdict : Type :=
| IsReady (row : TaskIdentityRow.t)
| IsBlocked (row : BlockedTaskRow.t)
| IsAuthorBlocked (row : TaskIdentityRow.t)
| IsNothing.

(** The verdict of one live task, from the rules of the lane. *)
Definition verdict_of (in_cycle : bool) (id : string) (node : NodeRec.t) : verdict :=
  let row := identity_row records id node in
  if str_in (status_of node) TASK_READY_TERMINAL_STATUSES then IsNothing
  else if status_of node =s? "blocked" then IsAuthorBlocked row
  else if negb (str_in (status_of node) TASK_READY_CANDIDATE_STATUSES) then IsNothing
  else
    let us := unmet from_str records id row in
    if in_cycle || negb (bool_decide (us = [])) then IsBlocked (BlockedTaskRow.mk row us in_cycle)
    else IsReady row.

Definition verdict_at (cm : gset string) (id : string) : verdict :=
  match tasks !! id with
  | Some node => verdict_of (bool_decide (id ∈ cm)) id node
  | None => IsNothing
  end.

Lemma classify_fold cm ids acc :
  foldl (classify from_str records cm) acc ids
  = (acc.1.1 ++ omap (λ id, match verdict_at cm id with IsReady r => Some r | _ => None end) ids,
     acc.1.2 ++ omap (λ id, match verdict_at cm id with IsBlocked r => Some r | _ => None end) ids,
     acc.2 ++ omap (λ id, match verdict_at cm id with IsAuthorBlocked r => Some r | _ => None end) ids).
Proof.
  revert acc. induction ids as [|id ids IH]; intros [[a b] c]; cbn [foldl].
  { cbn. by rewrite !app_nil_r. }
  rewrite IH. unfold classify, verdict_at. cbn [omap list_omap].
  destruct (tasks !! id) as [n|]; [|done]. unfold verdict_of.
  destruct (str_in (status_of n) TASK_READY_TERMINAL_STATUSES); [done|].
  destruct (status_of n =s? "blocked"); [cbn; by rewrite <-!app_assoc|].
  destruct (str_in (status_of n) TASK_READY_CANDIDATE_STATUSES); [|done]. cbn [negb].
  destruct (bool_decide (id ∈ cm) || _); cbn; by rewrite <-!app_assoc.
Qed.

(** Rows selected from an ascending list of ids keep its order. *)
Lemma omap_sorted {B} (f : string → option B) (key : B → string) (ids : list string) :
  (∀ id b, f id = Some b → key b = id) →
  StronglySorted (λ a b, String.le a b ∧ a ≠ b) ids →
  StronglySorted (λ a b, String.le a b ∧ a ≠ b) (key <$> omap f ids).
Proof.
  intros Hk Hs. induction Hs as [|id ids Hs IH Hid]; [constructor|]. csimpl.
  destruct (f id) as [b|] eqn:E; [|done]. csimpl. constructor; [done|].
  rewrite (Hk _ _ E). rewrite Forall_forall in Hid |- *. intros x.
  rewrite list_elem_of_fmap. intros (y & -> & (z & Hz & Hy)%list_elem_of_omap).
  rewrite (Hk _ _ Hy). by apply Hid.
Qed.

Lemma keys_strict {A} (m : gmap string A) : StronglySorted (λ a b, String.le a b ∧ a ≠ b) (keys m).
Proof. apply str_sort_strict, NoDup_elements. Qed.

Lemma candidate_verdict id n :
  tasks !! id = Some n →
  candidate id ↔ str_in (status_of n) TASK_READY_TERMINAL_STATUSES = false
    ∧ (status_of n =s? "blocked") = false
    ∧ str_in (status_of n) TASK_READY_CANDIDATE_STATUSES = true.
Proof.
  intros Hn. unfold candidate, has_status. rewrite Hn. split.
  - intros (s & (n' & Hn' & Hs) & Hc). simplify_eq.
    split_and!; [| |by apply str_in_spec];
      repeat (apply elem_of_cons in Hc as [->|Hc]; [reflexivity|]); by apply elem_of_nil in Hc.
  - intros (_ & _ & H%str_in_spec). eauto.
Qed.

Lemma verdict_ready cm id r :
  (∀ v, v ∈ cm ↔ tc depends v v) →
  verdict_at cm id = IsReady r ↔
  candidate id ∧ unblocked id ∧ ∃ n, tasks !! id = Some n ∧ r = identity_row records id n.
Proof.
  intros Hcm. unfold verdict_at. destruct (tasks !! id) as [n|] eqn:Hn.
  2: { split; [done|]. intros (_ & _ & ? & ? & _). done. }
  rewrite (candidate_verdict id n Hn). unfold verdict_of, unblocked.
  destruct (str_in _ TASK_READY_TERMINAL_STATUSES); [naive_solver|].
  destruct (status_of n =s? "blocked"); [naive_solver|].
  destruct (str_in _ TASK_READY_CANDIDATE_STATUSES); [|naive_solver]. cbn [negb].
  rewrite <-Hcm, <-(unmet_nil id (identity_row records id n)).
  destruct (bool_decide_reflect (id ∈ cm)), (bool_decide_reflect
    (unmet from_str records id (identity_row records id n) = [])); naive_solver.
Qed.

Lemma verdict_blocked cm id r :
  (∀ v, v ∈ cm ↔ tc depends v v) →
  verdict_at cm id = IsBlocked r ↔
  candidate id ∧ ¬ unblocked id ∧ ∃ n, tasks !! id = Some n
    ∧ r = BlockedTaskRow.mk (identity_row records id n)
            (unmet from_str records id (identity_row records id n)) (bool_decide (id ∈ cm)).
Proof.
  intros Hcm. unfold verdict_at. destruct (tasks !! id) as [n|] eqn:Hn.
  2: { split; [done|]. intros (_ & _ & ? & ? & _). done. }
  rewrite (candidate_verdict id n Hn). unfold verdict_of, unblocked.
  destruct (str_in _ TASK_READY_TERMINAL_STATUSES); [naive_solver|].
  destruct (status_of n =s? "blocked"); [naive_solver|].
  destruct (str_in _ TASK_READY_CANDIDATE_STATUSES); [|naive_solver]. cbn [negb].
  rewrite <-Hcm, <-(unmet_nil id (identity_row records id n)).
  destruct (bool_decide_reflect (id ∈ cm)), (bool_decide_reflect
    (unmet from_str records id (identity_row records id n) = [])); naive_solver.
Qed.

(** *** Diagnostics *)
Lemma scan_diags_spec d :
  d ∈ (unresolved_scan from_str records).2 ↔
  ∃ index r payload id, records !! index = Some r
    ∧ unresolved_declaration from_str records (index, r) = Some (payload, id)
    ∧ d = unresolved_diagnostic payload id.
Proof.
  unfold unresolved_scan.
  set (f := λ (acc : gmap string (gset string) * list Diagnostic.t) entry,
    match unresolved_declaration from_str records entry with
    | Some (payload, task_id) =>
        (<[task_id := {[payload.(Payload.unknown_dep)]} ∪ default ∅ (acc.1 !! task_id)]> acc.1,
         acc.2 ++ [unresolved_diagnostic payload task_id])
    | None => acc
    end).
  rewrite (foldl_or f (λ acc, d ∈ acc.2)
    (λ x, ∃ payload id, unresolved_declaration from_str records x = Some (payload, id)
          ∧ d = unresolved_diagnostic payload id)).
  - cbn [snd]. split.
    + intros [?%elem_of_nil|([i r] & Hx%elem_of_imap_pair & payload & id & H1 & H2)]; [done|].
      by exists i, r, payload, id.
    + intros (i & r & payload & id & Hi & H). right. exists (i, r).
      split; [by apply elem_of_imap_pair|by exists payload, id].
  - intros [m ds] x _. unfold f. destruct (unresolved_declaration from_str records x) as [[p t]|];
      [|naive_solver].
    cbn [snd]. rewrite elem_of_app, list_elem_of_singleton. naive_solver.
Qed.

Lemma diagnostics_spec cs d :
  d ∈ diagnostics from_str records cs ↔
  (∃ c, c ∈ cs ∧ d = cycle_diagnostic c)
  ∨ ∃ index r payload id, records !! index = Some r
      ∧ unresolved_declaration from_str records (index, r) = Some (payload, id)
      ∧ d = unresolved_diagnostic payload id.
Proof.
  unfold diagnostics, unresolved_diags.
  rewrite sort_by_perm, elem_of_app, sort_by_perm, list_elem_of_fmap, scan_diags_spec.
  split; (intros [(c & ? & ?)|?]; [left; by exists c|by right]).
Qed.

(** What the whole report is, given the cycles found. *)
Lemma task_ready_report_spec :
  ∃ cs, cycles records = Some cs ∧
    task_ready_report from_str records =
      Some (if bool_decide (tasks = ∅) then Outcome.NoProjectData else
        let cm : gset string := list_to_set (concat cs) in
        let pick {B} (f : verdict → option B) := omap (λ id, f (verdict_at cm id)) (keys tasks) in
        let ready := pick (λ v, match v with IsReady r => Some r | _ => None end) in
        let blocked := pick (λ v, match v with IsBlocked r => Some r | _ => None end) in
        let author_blocked := pick (λ v, match v with IsAuthorBlocked r => Some r | _ => None end) in
        let diags := diagnostics from_str records cs in
        Outcome.Ready (Report.mk
          (Counts.mk (size tasks) (declared records).2 (length ready) (length blocked)
             (length author_blocked) (length diags))
          ready blocked author_blocked diags (negb (bool_decide (cs = []))))).
Proof.
  destruct cycles_spec as (cs & Hcs & _). exists cs. split; [done|].
  unfold task_ready_report. rewrite Hcs, (bool_decide_ext _ _ no_project_data).
  destruct (bool_decide (tasks = ∅)); [done|]. by rewrite classify_fold.
Qed.

Lemma verdict_row_id cm id :
  match verdict_at cm id with
  | IsReady r | IsAuthorBlocked r => r.(TaskIdentityRow.record_id) = id
  | IsBlocked r => r.(BlockedTaskRow.task).(TaskIdentityRow.record_id) = id
  | IsNothing => True
  end.
Proof.
  unfold verdict_at, verdict_of. destruct (tasks !! id) as [n|]; [|done].
  destruct (str_in _ TASK_READY_TERMINAL_STATUSES); [done|].
  destruct (_ =s? _); [done|]. destruct (negb _); [done|]. by destruct (_ || _).
Qed.

(** C26: Readiness is exactly what the author declared: the lane never panics, and over a
    graph with live tasks the ready rows are the open or in-progress tasks that are on
    no dependency cycle, whose dependencies are all live tasks with the status
    [closed_completed] and that name no unknown task; the blocked rows are the other
    open or in-progress tasks, each flagged exactly when it is on a cycle and listing
    exactly its unmet dependencies; both lists are strictly ascending by record id. *)
Theorem task_ready_partition :
  ∃ outcome, task_ready_report from_str records = Some outcome ∧
    match outcome with
    | Outcome.NoProjectData => tasks = ∅
    | Outcome.Ready report =>
        let row_id := TaskIdentityRow.record_id in
        let ready := report.(Report.ready) in
        let blocked := report.(Report.blocked) in
        let asc := StronglySorted (λ a b, String.le a b ∧ a ≠ b) in
        tasks ≠ ∅
        ∧ asc (row_id <$> ready) ∧ asc ((λ b, row_id b.(BlockedTaskRow.task)) <$> blocked)
        ∧ (∀ id, (∃ r, r ∈ ready ∧ row_id r = id) ↔ candidate id ∧ unblocked id)
        ∧ (∀ id, (∃ b, b ∈ blocked ∧ row_id b.(BlockedTaskRow.task) = id)
             ↔ candidate id ∧ ¬ unblocked id)
        ∧ Forall (λ b, let id := row_id b.(BlockedTaskRow.task) in
             (b.(BlockedTaskRow.in_cycle) = true ↔ tc depends id id)
             ∧ ∀ u, u ∈ b.(BlockedTaskRow.unmet_dependencies)
                    ↔ unmet_of id b.(BlockedTaskRow.task) u) blocked
    end.
Proof.
  destruct cycles_spec as (cs & Hcs & _ & _ & Hmem).
  destruct task_ready_report_spec as (cs' & Hcs' & Hrep). rewrite Hcs in Hcs'. simplify_eq Hcs'.
  intros <-. eexists. split; [exact Hrep|]. case_bool_decide as Ht; [done|]. cbn [Report.ready Report.blocked].
  set (cm := list_to_set (concat cs)).
  assert (∀ v, v ∈ cm ↔ tc depends v v) as Hcm.
  { intros v. unfold cm. by rewrite elem_of_list_to_set, Hmem. }
  pose proof (verdict_row_id cm) as Hid.
  assert (∀ P : string → Prop, (∀ id, P id → is_Some (tasks !! id)) →
    ∀ id, P id ↔ id ∈ keys tasks ∧ P id) as Hkeys.
  { intros P HP id. rewrite elem_of_keys. naive_solver. }
  split_and!; [done| | | | |].
  - apply omap_sorted; [|apply keys_strict].
    intros id b. specialize (Hid id). by destruct (verdict_at cm id); intros; simplify_eq.
  - apply (omap_sorted _ (λ b, TaskIdentityRow.record_id (BlockedTaskRow.task b)));
      [|apply keys_strict].
    intros id b. specialize (Hid id). by destruct (verdict_at cm id); intros; simplify_eq.
  - intros id. setoid_rewrite list_elem_of_omap. split.
    + intros (r & (x & Hx & Hr) & <-). specialize (Hid x).
      destruct (verdict_at cm x) as [r'| | |] eqn:E; try done. simplify_eq.
      apply verdict_ready in E as (? & ? & _); done.
    + intros [Hc Hu]. pose proof Hc as (s & (n & Hn & Hs) & _).
      assert (verdict_at cm id = IsReady (identity_row records id n)) as E
        by (apply verdict_ready; eauto).
      exists (identity_row records id n). split; [|done]. exists id. rewrite E.
      split; [apply elem_of_keys; by eexists|done].
  - intros id. setoid_rewrite list_elem_of_omap. split.
    + intros (r & (x & Hx & Hr) & <-). specialize (Hid x).
      destruct (verdict_at cm x) as [|r'| |] eqn:E; try done. simplify_eq.
      apply verdict_blocked in E as (? & ? & _); done.
    + intros [Hc Hu]. pose proof Hc as (s & (n & Hn & Hs) & _).
      pose proof (proj2 (verdict_blocked cm id _ Hcm)
        (conj Hc (conj Hu (ex_intro _ n (conj Hn eq_refl))))) as E.
      eexists. split; [exists id; split; [apply elem_of_keys; by eexists|by rewrite E]|done].
  - apply Forall_forall. intros b (x & Hx & Hb)%list_elem_of_omap.
    destruct (verdict_at cm x) as [|r'| |] eqn:E; try done. simplify_eq.
    apply verdict_blocked in E as (_ & _ & n & Hn & ->); [|done].
    cbn. rewrite bool_decide_eq_true, Hcm. split; [done|]. intros u. apply unmet_spec.
Qed.

(** Cycles and exit codes: the lane ends with code 2 exactly when there is no live
    task, with code 3 exactly when some task depends on itself through declared edges,
    and otherwise with 0. Each cycle diagnostic names, in order, one whole class of
    mutually dependent tasks, every task on a cycle is named by one, and the
    unresolved-dependency diagnostics are exactly the declarations that name an
    unknown task. *)
Theorem task_ready_cycles :
  ∃ outcome, task_ready_report from_str records = Some outcome
    ∧ (task_ready_exit_code outcome = 2%Z ↔ tasks = ∅)
    ∧ (task_ready_exit_code outcome = 3%Z ↔ ∃ v, tc depends v v)
    ∧ (task_ready_exit_code outcome = 0%Z ↔ tasks ≠ ∅ ∧ ∀ v, ¬ tc depends v v)
    ∧ match outcome with
      | Outcome.NoProjectData => tasks = ∅
      | Outcome.Ready report =>
          let diags := report.(Report.diagnostics) in
          (report.(Report.has_cycle) = true ↔ ∃ v, tc depends v v)
          ∧ (∀ v, (∃ d, d ∈ diags ∧ d.(Diagnostic.code) = DiagnosticCode.DependencyCycle
                        ∧ v ∈ d.(Diagnostic.members)) ↔ tc depends v v)
          ∧ Forall (λ d, d.(Diagnostic.code) = DiagnosticCode.DependencyCycle →
               StronglySorted String.le d.(Diagnostic.members)
               ∧ ∀ a b, a ∈ d.(Diagnostic.members) →
                   b ∈ d.(Diagnostic.members) ↔ rtc depends a b ∧ rtc depends b a) diags
          ∧ ∀ id u, (∃ d, d ∈ diags ∧ d.(Diagnostic.code) = DiagnosticCode.UnresolvedDependency
                        ∧ d.(Diagnostic.task_record_id) = Some id
                        ∧ d.(Diagnostic.unknown_dep) = Some u) ↔ names_unknown id u
      end.
Proof.
  destruct cycles_spec as (cs & Hcs & _ & Hgood & Hmem).
  destruct task_ready_report_spec as (cs' & Hcs' & Hrep). rewrite Hcs in Hcs'. simplify_eq Hcs'.
  intros <-. eexists. split; [exact Hrep|].
  assert (cs ≠ [] ↔ ∃ v, tc depends v v) as Hcyc.
  { setoid_rewrite <-Hmem. split.
    + intros Hne. destruct cs as [|c cs]; [done|].
      destruct (Hgood c ltac:(by left)) as (_ & Hc & _). destruct c as [|v c]; [done|].
      exists v. by left.
    + intros [v Hv] ->. by apply elem_of_nil in Hv. }
  case_bool_decide as Ht; cbn [task_ready_exit_code Report.has_cycle].
  { assert (∀ v, ¬ tc depends v v) as Hno.
    { intros v Hv. assert (∃ x, depends v x) as (x & ? & ? & _ & _ & _ & _ & _ & _ & Hs)
        by (inversion Hv; eauto). rewrite Ht, lookup_empty in Hs. by destruct Hs. }
    split_and!; [done| |naive_solver|done]. split; [done|]. intros [v Hv]. by destruct (Hno v). }
  cbn [Report.diagnostics]. setoid_rewrite diagnostics_spec.
  assert (∀ b : bool, b = negb (bool_decide (cs = [])) → b = true ↔ ∃ v, tc depends v v) as Hb.
  { intros b ->. by rewrite negb_true_iff, bool_decide_eq_false. }
  specialize (Hb _ eq_refl). split_and!.
  - split; [by destruct (negb _)|done].
  - rewrite <-Hb. by destruct (negb _).
  - destruct (negb _) eqn:E; [|]; (split; [|intros [_ Hno]]); try done.
    + destruct (proj1 Hb eq_refl) as [v Hv]. by destruct (Hno v).
    + intros _. split; [done|]. intros v Hv. discriminate (proj2 Hb (ex_intro _ v Hv)).
  - exact Hb.
  - intros v. rewrite <-Hmem, elem_of_concat. split.
    + intros (d & [(c & Hc & ->)|(i & r & p & id & _ & _ & ->)] & Hd & Hv); [by exists c|done].
    + intros (c & Hv & Hc). exists (cycle_diagnostic c). split_and!; [left; by exists c|done|done].
  - apply Forall_forall. intros d [(c & Hc & ->)|(i & r & p & id & _ & _ & ->)]%diagnostics_spec Hd;
      [|done].
    by destruct (Hgood c Hc) as (? & _ & ?).
  - intros id u. split.
    + intros (d & [(c & _ & ->)|(i & r & p & id' & H1 & H2 & ->)] & Hd & Hid & Hu); [done|].
      cbn in Hid, Hu. simplify_eq. by exists i, r, p.
    + intros (i & r & p & H1 & H2 & <-). exists (unresolved_diagnostic p id).
      split_and!; [|done..]. right. by exists i, r, p, id.
Qed.

End Facts.

(** ** Concrete graphs *)
Definition demo_task (id status : string) : GraphRecord :=
  match GraphRecord.node id NodeKind.Task None None (Some id) "" with
  | Node n => Node n{{ NodeRec.status := Some status }}
  | r => r
  end.
Definition demo_dep (source target : string) : GraphRecord :=
  GraphRecord.edge (λ s, s) EdgeLabel.DependsOn source target None "".
Definition demo_outcome (records : list GraphRecord)
    : option (option (list string * list (string * bool) * list string * Z)) :=
  option_map (λ o, match o with
    | TaskReady.Outcome.Ready r => Some
        (TaskReady.TaskIdentityRow.record_id <$> r.(TaskReady.Report.ready),
         (λ b, (b.(TaskReady.BlockedTaskRow.task).(TaskReady.TaskIdentityRow.record_id),
                b.(TaskReady.BlockedTaskRow.in_cycle))) <$> r.(TaskReady.Report.blocked),
         TaskReady.TaskIdentityRow.record_id <$> r.(TaskReady.Report.author_blocked),
         TaskReady.task_ready_exit_code o)
    | _ => None end) (TaskReady.task_ready_report (λ _, None) records).

Example demo_ready :
  demo_outcome [demo_task "a" "closed_completed"; demo_task "b" "open"; demo_task "c" "in_progress";
                demo_task "d" "closed_dropped"; demo_task "e" "open"; demo_task "f" "blocked";
                demo_dep "b" "a"; demo_dep "c" "b"; demo_dep "e" "d"]
  = Some (Some (["b"], [("c", false); ("e", false)], ["f"], 0%Z)).
Proof. vm_compute. reflexivity. Qed.

(** The closed member of a diagnosed cycle is in no row, and a task whose status is
    outside the known ones is in no list at all. *)
Example cycle_member_not_reported :
  demo_outcome [demo_task "a" "closed_completed"; demo_task "b" "open"; demo_task "c" "review";
                demo_dep "a" "b"; demo_dep "b" "a"]
  = Some (Some ([], [("b", true)], [], 3%Z)).
Proof. vm_compute. reflexivity. Qed.

