(* ===== verification/Supersede.v ===== *)
(** * Supersession authoring ([src/src/supersede_write.rs])

    The pure half of [eg write observation --supersedes / --contradicts]: the checks of
    a target and the construction of the edge. The JSON envelope of an error is
    rendering and not modelled. *)
From S2P Require Import Prelude RustStr Ir IrOps SchemaVersion Liveness.

(* memory_evidence_health.rs 174-179: is_observation_class_kind *)
Definition is_observation_class_kind (kind : NodeKind.t) : bool :=
  match kind with
  | NodeKind.Observation | NodeKind.Decision | NodeKind.Failure => true
  | _ => false
  end.

Module Supersede.

Module Target.
(* supersede_write.rs 34-39: SupersessionTarget *)
Record t : Type := mk {
  target_record_id : string;
  label : EdgeLabel.t
}.
End Target.

Module Error.
(* supersede_write.rs 47-95: SupersessionError *)
Inductive t : Type :=
| StoreRequired
| StoreUnreadable (input : string)
| UnknownTarget (target_id : string)
| CodegraphFact (target_id kind : string)
| NonObservationTarget (target_id kind : string)
| SelfTarget (target_id : string)
| Conflict (source_id existing_target_id : string) (label : EdgeLabel.t).

(* supersede_write.rs 100-110: SupersessionError::code *)
Definition code (self : t) : string :=
  match self with
  | StoreRequired => "supersession_store_required"
  | StoreUnreadable _ => "supersession_store_unreadable"
  | UnknownTarget _ => "unknown_supersession_target"
  | CodegraphFact _ _ => "supersede_codegraph_fact"
  | NonObservationTarget _ _ => "supersede_non_observation_target"
  | SelfTarget _ => "supersession_cycle"
  | Conflict _ _ _ => "supersession_conflict"
  end.

(* supersede_write.rs 115-120: SupersessionError::exit_code *)
Definition exit_code (self : t) : Z :=
  match self with UnknownTarget _ => 2 | _ => 1 end.
End Error.

(* supersede_write.rs 161-167: describe_record *)
Definition describe_record (record : GraphRecord) : string :=
  match record with
  | Node n => NodeKind.as_str n.(NodeRec.kind)
  | Edge _ => "edge"
  | Tombstone _ => "tombstone"
  end.

(* supersede_write.rs 189-221: validate_supersession_target *)
Definition validate_supersession_target (records : list GraphRecord) (target_id : string)
    : result NodeKind.t Error.t :=
  match GraphRecord.rfind (λ r, GraphRecord.id r =s? target_id) records with
  | None => Err (Error.UnknownTarget target_id)
  | Some record =>
      if Liveness.deleted (Liveness.new records) target_id then Err (Error.UnknownTarget target_id)
      else if starts_with target_id "codegraph:" then
        Err (Error.CodegraphFact target_id (describe_record record))
      else match record with
           | Node n =>
               if is_observation_class_kind n.(NodeRec.kind) then Ok n.(NodeRec.kind)
               else Err (Error.NonObservationTarget target_id (describe_record record))
           | _ => Err (Error.NonObservationTarget target_id (describe_record record))
           end
  end.

(** The first conflicting edge in file order. *)
(* supersede_write.rs 236-269: check_supersession_conflict *)
Definition check_supersession_conflict (records : list GraphRecord) (source_id : string)
    (label : EdgeLabel.t) (target_id : string) : result unit Error.t :=
  let liveness := Liveness.new records in
  match List.find (λ '(index, record),
    match record with
    | Edge e =>
        bool_decide (e.(EdgeRec.label) = label) && (e.(EdgeRec.source) =s? source_id)
        && negb (Liveness.deleted liveness e.(EdgeRec.id))
        && Liveness.is_latest_edge_version liveness e.(EdgeRec.id) index
        && negb (e.(EdgeRec.target) =s? target_id)
    | _ => false
    end) (imap pair records) with
  | Some (_, Edge e) => Err (Error.Conflict source_id e.(EdgeRec.target) label)
  | _ => Ok tt
  end.

(* supersede_write.rs 284-315: build_supersession_edge *)
Definition build_supersession_edge (blake3_hex : string → string) (source_id : string)
    (target : Target.t) (confidence : string) : GraphRecord :=
  let label_str := EdgeLabel.as_str target.(Target.label) in
  Edge {|
    EdgeRec.id := agent_memory_stable_id blake3_hex
                    ["edge"; label_str; source_id; target.(Target.target_record_id)];
    EdgeRec.schema_version := AGENT_MEMORY_SCHEMA_VERSION;
    EdgeRec.label := target.(Target.label);
    EdgeRec.source := source_id;
    EdgeRec.target := target.(Target.target_record_id);
    EdgeRec.confidence := match target.(Target.label) with
                          | EdgeLabel.Contradicts => Some confidence
                          | _ => None
                          end;
    EdgeRec.resolution := None;
    EdgeRec.frame_resolution := None;
    EdgeRec.frame_index := None;
    EdgeRec.basis := None;
    EdgeRec.call_site_spans := None;
    EdgeRec.is_exhaustive := None;
    EdgeRec.temporal := None;
    EdgeRec.summary := source_id +:+ " " +:+ label_str +:+ " " +:+ target.(Target.target_record_id);
    EdgeRec.producer := None
  |}.

(** *** Facts *)
Lemma rfind_last records (id : string) :
  match GraphRecord.rfind (λ r, GraphRecord.id r =s? id) records with
  | Some r => r ∈ records ∧ GraphRecord.id r = id
  | None => ∀ r, r ∈ records → GraphRecord.id r ≠ id
  end.
Proof.
  unfold GraphRecord.rfind. destruct (List.find _ _) as [r|] eqn:E.
  - apply find_some in E as [Hr Hi%String.eqb_eq]. apply list_elem_of_In in Hr.
    by rewrite elem_of_reverse in Hr.
  - intros r Hr Hid. apply elem_of_reverse, list_elem_of_In in Hr.
    pose proof (find_none _ _ E r Hr) as Hn. by apply String.eqb_neq in Hn.
Qed.

(** A live edge of the same relation from the same source to another target. *)
Definition conflicting (records : list GraphRecord) (source_id : string) (label : EdgeLabel.t)
    (target_id : string) (e : EdgeRec.t) : Prop :=
  ∃ index, records !! index = Some (Edge e)
    ∧ e.(EdgeRec.label) = label ∧ e.(EdgeRec.source) = source_id ∧ e.(EdgeRec.target) ≠ target_id
    ∧ Liveness.deleted (Liveness.new records) e.(EdgeRec.id) = false
    ∧ Liveness.is_latest_edge_version (Liveness.new records) e.(EdgeRec.id) index = true.

(** A write is refused as a conflict exactly when a live edge of the same relation
    already joins the source to a different target; re-running the same write never
    conflicts with itself. *)
Theorem conflict_exact records source_id label target_id :
  match check_supersession_conflict records source_id label target_id with
  | Ok _ => ∀ e, ¬ conflicting records source_id label target_id e
  | Err err => ∃ e, conflicting records source_id label target_id e
                    ∧ err = Error.Conflict source_id e.(EdgeRec.target) label
  end.
Proof.
  unfold check_supersession_conflict. destruct (List.find _ _) as [[i r]|] eqn:E.
  - apply find_some in E as [Hr Hf]. apply list_elem_of_In, elem_of_imap_pair in Hr.
    destruct r as [n|e|tb]; [done| |done]. breflect. exists e. split; [|done].
    exists i. split_and!; done.
  - intros e (i & Hi & Hl & Hs & Ht & Hd & Hv).
    assert ((i, Edge e) ∈ imap pair records) as Hin by by apply elem_of_imap_pair.
    apply list_elem_of_In in Hin. pose proof (find_none _ _ E _ Hin) as Hf. cbn in Hf.
    rewrite bool_decide_eq_true_2, Hd, Hv in Hf by done.
    rewrite (proj2 (String.eqb_eq _ _) Hs), (proj2 (String.eqb_neq _ _) Ht) in Hf. done.
Qed.

End Supersede.
