(* ===== verification/Retirement.v ===== *)
(** * Retirement and reinstatement of memory records ([src/src/memory_retire.rs])

    Recall curation as an event-sourced state machine: [retire] and [reinstate] append
    receipts, and the latest receipt on the transaction-time axis is the state. The
    RFC 3339 parser of [chrono] is a parameter that gives the instant (an integer) or an
    error text, the wall clock is a parameter, and so is the BLAKE3 hasher. Messages and
    JSON envelopes of the errors are rendering and not modelled. *)
From S2P Require Import Prelude RustStr Ir IrOps SchemaVersion Liveness Supersede.

Module Retirement.

Module RetireReason.
(* memory_retire.rs 69-81: RetireReason *)
Inductive t : Set := Superseded | Drifted | Contradicted | OperatorDecision.

(* memory_retire.rs 86-93: RetireReason::as_str *)
Definition as_str (self : t) : string :=
  match self with
  | Superseded => "superseded"
  | Drifted => "drifted"
  | Contradicted => "contradicted"
  | OperatorDecision => "operator-decision"
  end.
End RetireReason.

(* memory_retire.rs 102-102: SUPERSEDED_BY_RELATION *)
Definition SUPERSEDED_BY_RELATION : string := "SUPERSEDED_BY".
(* memory_retire.rs 106-106: DRIFTED_EVIDENCE_RELATION *)
Definition DRIFTED_EVIDENCE_RELATION : string := "DRIFTED_EVIDENCE".
(* memory_retire.rs 109-109: CONTRADICTED_BY_RELATION *)
Definition CONTRADICTED_BY_RELATION : string := "CONTRADICTED_BY".
(* memory_retire.rs 112-112: CITED_EVIDENCE_RELATION *)
Definition CITED_EVIDENCE_RELATION : string := "CITED_EVIDENCE".

Module RetireRequest.
(* memory_retire.rs 120-135: RetireRequest *)
Record t : Type := mk {
  handle : string;
  reason : RetireReason.t;
  superseded_by : option string;
  evidence_handle : option string;
  retired_by : string;
  transaction_time : option string
}.
End RetireRequest.

Module RetireEvent.
(* memory_retire.rs 140-157: RetireEvent *)
Record t : Type := mk {
  receipt_id : string;
  retired_record_id : string;
  retired_by : string;
  retired_at : string;
  reason : string;
  superseded_by : option string;
  evidence_handle : option string
}.
End RetireEvent.

Module RetireOutcome.
(* memory_retire.rs 161-179: RetireOutcome *)
Inductive t : Type :=
| Retired (event : RetireEvent.t) (records : list GraphRecord)
| AlreadyRetired (event : RetireEvent.t) (records : list GraphRecord).
End RetireOutcome.

Module RetireError.
(* memory_retire.rs 184-263: RetireError *)
Inductive t : Type :=
| MissingActor
| InvalidTransactionTime (value message : string)
| NotFound (handle : string)
| CodegraphFact (record_id kind : string)
| NonObservationTarget (record_id kind : string)
| UnsupportedTarget (record_id detail : string)
| MissingSupersedingRecord
| DanglingSupersedingRecord (superseded_by : string)
| SupersedingRecordNotObservation (superseded_by kind : string)
| SupersedingRecordRetired (superseded_by : string)
| SupersedingSelf (handle : string)
| MissingEvidenceHandle
| UnknownEvidenceHandle (evidence_handle : string)
| EvidenceStillResolves (evidence_handle : string)
| InvalidReason (reason : string).

(* memory_retire.rs 268-288: RetireError::code *)
Definition code (self : t) : string :=
  match self with
  | MissingActor => "retire_missing_actor"
  | InvalidTransactionTime _ _ => "retire_invalid_transaction_time"
  | NotFound _ => "retire_not_found"
  | CodegraphFact _ _ => "retire_codegraph_fact"
  | NonObservationTarget _ _ => "retire_non_observation_target"
  | UnsupportedTarget _ _ => "retire_unsupported_target"
  | MissingSupersedingRecord => "retire_missing_superseding_record"
  | DanglingSupersedingRecord _ => "retire_dangling_superseding_record"
  | SupersedingRecordNotObservation _ _ => "retire_superseding_record_not_observation"
  | SupersedingRecordRetired _ => "retire_superseding_record_retired"
  | SupersedingSelf _ => "retire_superseding_self"
  | MissingEvidenceHandle => "retire_missing_evidence_handle"
  | UnknownEvidenceHandle _ => "retire_unknown_evidence_handle"
  | EvidenceStillResolves _ => "retire_evidence_still_resolves"
  | InvalidReason _ => "retire_invalid_reason"
  end.

(* memory_retire.rs 292-297: RetireError::exit_code *)
Definition exit_code (self : t) : Z :=
  match self with NotFound _ | DanglingSupersedingRecord _ => 2 | _ => 1 end.
End RetireError.

Module ReinstateRequest.
(* memory_retire.rs 433-444: ReinstateRequest *)
Record t : Type := mk {
  handle : string;
  reason : string;
  reinstated_by : string;
  transaction_time : option string
}.
End ReinstateRequest.

Module ReinstateEvent.
(* memory_retire.rs 449-460: ReinstateEvent *)
Record t : Type := mk {
  receipt_id : string;
  reinstated_record_id : string;
  reinstated_by : string;
  reinstated_at : string;
  reason : string
}.
End ReinstateEvent.

Module ReinstateOutcome.
(* memory_retire.rs 464-482: ReinstateOutcome *)
Inductive t : Type :=
| Reinstated (event : ReinstateEvent.t) (records : list GraphRecord)
| AlreadyActive (event : ReinstateEvent.t) (records : list GraphRecord).
End ReinstateOutcome.

Module ReinstateError.
(* memory_retire.rs 487-521: ReinstateError *)
Inductive t : Type :=
| MissingActor
| InvalidTransactionTime (value message : string)
| NotFound (handle : string)
| NotRetired (handle : string)
| CodegraphFact (record_id kind : string)
| NonObservationTarget (record_id kind : string).

(* memory_retire.rs 526-535: ReinstateError::code *)
Definition code (self : t) : string :=
  match self with
  | MissingActor => "reinstate_missing_actor"
  | InvalidTransactionTime _ _ => "reinstate_invalid_transaction_time"
  | NotFound _ => "reinstate_not_found"
  | NotRetired _ => "reinstate_not_retired"
  | CodegraphFact _ _ => "reinstate_codegraph_fact"
  | NonObservationTarget _ _ => "reinstate_non_observation_target"
  end.

(* memory_retire.rs 539-544: ReinstateError::exit_code *)
Definition exit_code (self : t) : Z := match self with NotFound _ => 2 | _ => 1 end.
End ReinstateError.

Module RetirementState.
(* memory_retire.rs 614-629: RetirementState *)
Inductive t : Type :=
| Active
| Retired (receipt_id reason retired_by retired_at : string).
End RetirementState.

(** *** Targets *)

(* memory_retire.rs 636-645: latest_live_record *)
Definition latest_live_record (records : list GraphRecord) (liveness : Liveness.t) (id : string)
    : option GraphRecord :=
  match GraphRecord.rfind (λ r, GraphRecord.id r =s? id) records with
  | Some r => if negb (Liveness.deleted liveness id) then Some r else None
  | None => None
  end.

(* memory_retire.rs 648-650: handle_resolves *)
Definition handle_resolves (records : list GraphRecord) (liveness : Liveness.t) (handle : string)
    : bool := is_some (latest_live_record records liveness handle).

Module TargetClass.
(* memory_retire.rs 678-688: TargetClass *)
Inductive t : Type :=
| Observation
| CodegraphFact (kind : string)
| NonObservation (kind : string)
| Unsupported (detail : string).
End TargetClass.

(* memory_retire.rs 691-736: classify_target *)
Definition classify_target (record : GraphRecord) : TargetClass.t :=
  let is_codegraph := opt_str_eqb (domain_from_record_id (GraphRecord.id record)) (Some "codegraph") in
  match record with
  | Tombstone _ =>
      TargetClass.Unsupported "tombstones cannot be retired; the target is already retracted"
  | Edge e =>
      let kind := "edge " +:+ EdgeLabel.as_str e.(EdgeRec.label) in
      if is_codegraph then TargetClass.CodegraphFact kind else TargetClass.NonObservation kind
  | Node n =>
      let kind := n.(NodeRec.kind) in
      match kind with
      | NodeKind.RetirementReceipt | NodeKind.ReinstatementReceipt | NodeKind.Retraction =>
          TargetClass.Unsupported "audit receipts cannot be retired; retirement applies to belief records"
      | _ =>
          if is_observation_class_kind kind then TargetClass.Observation
          else
            let kind_name := NodeKind.as_str kind in
            let codegraph := is_codegraph ||
              match kind with
              | NodeKind.File | NodeKind.Symbol | NodeKind.Import | NodeKind.Commit => true
              | _ => false
              end in
            if codegraph then TargetClass.CodegraphFact kind_name
            else TargetClass.NonObservation kind_name
      end
  end.

(* memory_retire.rs 743-769: target_cites_handle *)
Definition target_cites_handle (target : GraphRecord) (handle : string) : bool :=
  match target with
  | Node n =>
      opt_str_eqb n.(NodeRec.source_handle) (Some handle)
      || opt_str_eqb n.(NodeRec.source_artifact_path) (Some handle)
      || opt_str_eqb n.(NodeRec.source_artifact_hash) (Some handle)
      || existsb (λ link, opt_str_eqb link.(EvidenceLink.target_record_id) (Some handle))
           (default [] n.(NodeRec.evidence_links))
  | _ => false
  end.

(* memory_retire.rs 772-784: receipt_link *)
Definition receipt_link (target_record_id relation : string) : EvidenceLink.t :=
  {| EvidenceLink.target_record_id := Some target_record_id;
     EvidenceLink.target_domain := default "unknown" (domain_from_record_id target_record_id);
     EvidenceLink.relation := relation;
     EvidenceLink.confidence := "1.0";
     EvidenceLink.as_of_commit := None;
     EvidenceLink.target_repo_relative_path := None;
     EvidenceLink.target_span := None;
     EvidenceLink.target_git_commit := None |}.

(** The event before any field of the node is copied. *)
Definition empty_retire_event : RetireEvent.t := RetireEvent.mk "" "" "" "" "" None None.

(** One link of the receipt read back. *)
Definition read_link (event : RetireEvent.t) (link : EvidenceLink.t) : RetireEvent.t :=
  let '(RetireEvent.mk i r b a s sup ev) := event in
  let rel := link.(EvidenceLink.relation) in
  if rel =s? SUPERSEDED_BY_RELATION then
    RetireEvent.mk i r b a s link.(EvidenceLink.target_record_id) ev
  else if str_in rel [DRIFTED_EVIDENCE_RELATION; CONTRADICTED_BY_RELATION; CITED_EVIDENCE_RELATION] then
    RetireEvent.mk i r b a s sup (if is_none ev then link.(EvidenceLink.target_record_id) else ev)
  else event.

(* memory_retire.rs 838-888: retire_event_from_node *)
Definition retire_event_from_node (node : GraphRecord) : RetireEvent.t :=
  match node with
  | Node n =>
      foldl read_link
        (RetireEvent.mk n.(NodeRec.id) (default "" n.(NodeRec.source_handle))
           (default "" n.(NodeRec.agent_id)) (default "" n.(NodeRec.transaction_time))
           (default "" n.(NodeRec.text)) None None)
        (default [] n.(NodeRec.evidence_links))
  | _ => empty_retire_event
  end.

(* memory_retire.rs 891-924: reinstate_event_from_node *)
Definition reinstate_event_from_node (node : GraphRecord) : ReinstateEvent.t :=
  match node with
  | Node n =>
      ReinstateEvent.mk n.(NodeRec.id) (default "" n.(NodeRec.source_handle))
        (default "" n.(NodeRec.agent_id)) (default "" n.(NodeRec.transaction_time))
        (default "" n.(NodeRec.text))
  | _ => ReinstateEvent.mk "" "" "" "" ""
  end.

(* memory_retire.rs 927-958: stamp_receipt *)
Definition stamp_receipt (receipt : GraphRecord) (target_id body actor tx : string)
    (links : list EvidenceLink.t) : GraphRecord :=
  GraphRecord.on_node (λ n, n{{
    NodeRec.schema_version := AGENT_MEMORY_SCHEMA_VERSION;
    NodeRec.domain := Some "agent_memory";
    NodeRec.text := Some body;
    NodeRec.agent_id := Some actor;
    NodeRec.transaction_time := Some tx;
    NodeRec.source_handle := Some target_id;
    NodeRec.valid_time := Some tx;
    NodeRec.valid_time_source := Some "inferred_from_transaction_time";
    NodeRec.evidence_links := match links with [] => None | _ => Some links end }}) receipt.

Definition is_receipt_kind (kind : NodeKind.t) : bool :=
  match kind with
  | NodeKind.RetirementReceipt | NodeKind.ReinstatementReceipt => true
  | _ => false
  end.

(** [matches!(node, GraphRecord::Node { kind: NodeKind::RetirementReceipt, .. })]. *)
Definition is_retirement (r : GraphRecord) : bool :=
  match r with
  | Node n => match n.(NodeRec.kind) with NodeKind.RetirementReceipt => true | _ => false end
  | _ => false
  end.

(** The order of [Option<DateTime>]: an unparsable time is before every instant. *)
Definition instant_cmp (a b : option Z) : comparison :=
  match a, b with
  | None, None => Eq
  | None, Some _ => Lt
  | Some _, None => Gt
  | Some a, Some b => Z.compare a b
  end.

(** [ReceiptTrailEntry], with the event itself for its JSON value. *)
Module ReceiptTrailEntry.
(* memory_retire.rs 1014-1019: ReceiptTrailEntry *)
Inductive t : Type :=
| retired (event : RetireEvent.t)
| reinstated (event : ReinstateEvent.t).
End ReceiptTrailEntry.

Module Label.
(* memory_retire.rs 1091-1103: RetirementStateLabel *)
Record t : Type := mk {
  state : string;
  reason : option string;
  retired_by : option string;
  retired_at : option string
}.

(* memory_retire.rs 1105-1127: RetirementStateLabel::from *)
Definition from (s : RetirementState.t) : t :=
  match s with
  | RetirementState.Active => mk "active" None None None
  | RetirementState.Retired _ reason retired_by retired_at =>
      mk "retired" (Some reason) (Some retired_by) (Some retired_at)
  end.
End Label.

Section Receipts.
Context (parse_from_rfc3339 : string → result Z string).

Definition instant_of (tx : option string) : option Z :=
  let?o s := tx in match parse_from_rfc3339 s with Ok i => Some i | Err _ => None end.

(** *** The receipt that controls the state *)

(** The receipt of [target_id] a record is, with its instant, unless it is pinned away. *)
(* memory_retire.rs 798-823: latest_receipt_node *)
Definition counted_receipt (target_id : string) (as_of : option Z) (record : GraphRecord)
    : option (option Z) :=
  match record with
  | Node n =>
      if negb (is_receipt_kind n.(NodeRec.kind)) then None
      else if negb (opt_str_eqb n.(NodeRec.source_handle) (Some target_id)) then None
      else
        let tx := instant_of n.(NodeRec.transaction_time) in
        match tx, as_of with
        | Some t, Some pin => if (t >? pin)%Z then None else Some tx
        | _, _ => Some tx
        end
  | _ => None
  end.

(* memory_retire.rs 824-832: latest_receipt_node *)
Definition better (target_id : string) (as_of : option Z)
    (best : option (option Z * nat * GraphRecord)) (entry : nat * GraphRecord)
    : option (option Z * nat * GraphRecord) :=
  let '(index, record) := entry in
  match counted_receipt target_id as_of record with
  | None => best
  | Some tx =>
      let replace :=
        match best with
        | None => true
        | Some (best_tx, best_index, _) =>
            match then_cmp (instant_cmp tx best_tx) (Nat.compare index best_index) with
            | Gt => true | _ => false
            end
        end in
      if replace then Some (tx, index, record) else best
  end.

(* memory_retire.rs 791-835: latest_receipt_node *)
Definition latest_receipt_node (records : list GraphRecord) (target_id : string) (as_of : option Z)
    : option GraphRecord :=
  snd <$> foldl (better target_id as_of) None (imap pair records).

(* memory_retire.rs 972-982: retirement_states *)
Definition receipt_targets (records : list GraphRecord) : gset string :=
  foldl (λ s r,
    match r with
    | Node n =>
        if is_receipt_kind n.(NodeRec.kind)
        then match n.(NodeRec.source_handle) with Some target => {[target]} ∪ s | None => s end
        else s
    | _ => s
    end) ∅ records.

(* memory_retire.rs 988-1005: retirement_states *)
Definition state_at (records : list GraphRecord) (as_of : option Z) (target : string)
    : RetirementState.t :=
  match latest_receipt_node records target as_of with
  | None => RetirementState.Active
  | Some node =>
      if is_retirement node then
        let event := retire_event_from_node node in
        RetirementState.Retired event.(RetireEvent.receipt_id) event.(RetireEvent.reason)
          event.(RetireEvent.retired_by) event.(RetireEvent.retired_at)
      else RetirementState.Active
  end.

(* memory_retire.rs 968-1009: retirement_states *)
Definition retirement_states (records : list GraphRecord) (as_of : option Z)
    : gmap string RetirementState.t :=
  set_to_map (λ target, (target, state_at records as_of target)) (receipt_targets records).

(** The receipts of the trail: those with a transaction time, its text kept. *)
(* memory_retire.rs 1035-1054: receipt_trail *)
Definition trail_receipt (target_id : string) (as_of : option Z) (entry : nat * GraphRecord)
    : option (string * nat * GraphRecord) :=
  match entry with
  | (position, Node n) =>
      if is_receipt_kind n.(NodeRec.kind) then
        match n.(NodeRec.source_handle), n.(NodeRec.transaction_time) with
        | Some target, Some tx =>
            if negb (target =s? target_id) then None
            else match as_of with
                 | Some pin =>
                     match instant_of (Some tx) with
                     | Some dt => if (dt >? pin)%Z then None else Some (tx, position, Node n)
                     | None => None
                     end
                 | None => Some (tx, position, Node n)
                 end
        | _, _ => None
        end
      else None
  | _ => None
  end.

(* memory_retire.rs 1055-1055: receipt_trail *)
Definition trail_cmp (a b : string * nat * GraphRecord) : comparison :=
  then_cmp (String.compare a.1.1 b.1.1) (Nat.compare a.1.2 b.1.2).

(* memory_retire.rs 1029-1074: receipt_trail *)
Definition receipt_trail (records : list GraphRecord) (target_id : string) (as_of : option Z)
    : list ReceiptTrailEntry.t :=
  (λ x : string * nat * GraphRecord,
     if is_retirement x.2 then ReceiptTrailEntry.retired (retire_event_from_node x.2)
     else ReceiptTrailEntry.reinstated (reinstate_event_from_node x.2))
  <$> sort_by trail_cmp (omap (trail_receipt target_id as_of) (imap pair records)).

(* memory_retire.rs 1078-1083: is_retired *)
Definition is_retired (records : list GraphRecord) (record_id : string) : bool :=
  match retirement_states records None !! record_id with
  | Some (RetirementState.Retired _ _ _ _) => true
  | _ => false
  end.

(* memory_retire.rs 1132-1145: retirement_label *)
Definition retirement_label (states : gmap string RetirementState.t) (record_id : string) : Label.t :=
  match states !! record_id with
  | None => Label.mk "active" None None None
  | Some s => Label.from s
  end.

(** *** Commands *)
Context (blake3_hex : string → string) (now : string).

(* memory_retire.rs 658-675: resolve_transaction_time *)
Definition resolve_transaction_time (value : option string) : result string (string * string) :=
  match value with
  | None => Ok now
  | Some raw =>
      let trimmed := trim raw in
      if trimmed =s? "" then Err (raw, "transaction time must not be blank")
      else match parse_from_rfc3339 trimmed with
           | Ok _ => Ok trimmed
           | Err err => Err (raw, err)
           end
  end.

(* memory_retire.rs 1160-1178: retirement_receipt_id *)
Definition retirement_receipt_id (target_id transaction_time reason retired_by : string)
    (superseded_by evidence_handle : option string) : string :=
  agent_memory_stable_id blake3_hex
    ["node"; "retirement-receipt"; target_id; transaction_time; reason; retired_by;
     default "" superseded_by; default "" evidence_handle].

(* memory_retire.rs 1183-1197: reinstatement_receipt_id *)
Definition reinstatement_receipt_id (target_id transaction_time reason reinstated_by : string)
    : string :=
  agent_memory_stable_id blake3_hex
    ["node"; "reinstatement-receipt"; target_id; transaction_time; reason; reinstated_by].

(* memory_retire.rs 1210-1242: resolve_retire_target *)
Definition resolve_retire_target (records : list GraphRecord) (liveness : Liveness.t)
    (handle : string) : result (GraphRecord * string) RetireError.t :=
  let? target := ok_or (latest_live_record records liveness handle) (RetireError.NotFound handle) in
  let target_id := GraphRecord.id target in
  match classify_target target with
  | TargetClass.Observation => Ok (target, target_id)
  | TargetClass.CodegraphFact kind => Err (RetireError.CodegraphFact target_id kind)
  | TargetClass.NonObservation kind => Err (RetireError.NonObservationTarget target_id kind)
  | TargetClass.Unsupported detail => Err (RetireError.UnsupportedTarget target_id detail)
  end.

(** [.as_deref().map(str::trim).filter(|s| !s.is_empty())]. *)
Definition trimmed (s : option string) : option string :=
  match trim <$> s with
  | Some s => if s =s? "" then None else Some s
  | None => None
  end.

(* memory_retire.rs 1250-1335: check_retire_reason_gates *)
Definition check_retire_reason_gates (records : list GraphRecord) (liveness : Liveness.t)
    (target : GraphRecord) (handle : string) (request : RetireRequest.t)
    : result (option string * option string) RetireError.t :=
  match request.(RetireRequest.reason) with
  | RetireReason.Superseded =>
      let? superseder := ok_or (trimmed request.(RetireRequest.superseded_by))
                               RetireError.MissingSupersedingRecord in
      if superseder =s? handle then Err (RetireError.SupersedingSelf handle)
      else
        let? superseder_record := ok_or (latest_live_record records liveness superseder)
                                        (RetireError.DanglingSupersedingRecord superseder) in
        match classify_target superseder_record with
        | TargetClass.CodegraphFact kind | TargetClass.NonObservation kind =>
            Err (RetireError.SupersedingRecordNotObservation superseder kind)
        | TargetClass.Unsupported detail =>
            Err (RetireError.SupersedingRecordNotObservation superseder detail)
        | TargetClass.Observation =>
            if is_retired records superseder then Err (RetireError.SupersedingRecordRetired superseder)
            else Ok (Some superseder, None)
        end
  | RetireReason.Drifted =>
      let? evidence := ok_or (trimmed request.(RetireRequest.evidence_handle))
                             RetireError.MissingEvidenceHandle in
      if negb (target_cites_handle target evidence) then
        Err (RetireError.UnknownEvidenceHandle evidence)
      else if handle_resolves records liveness evidence then
        Err (RetireError.EvidenceStillResolves evidence)
      else Ok (None, Some evidence)
  | RetireReason.Contradicted | RetireReason.OperatorDecision =>
      match trimmed request.(RetireRequest.evidence_handle) with
      | Some evidence =>
          if negb (handle_resolves records liveness evidence)
          then Err (RetireError.UnknownEvidenceHandle evidence)
          else Ok (None, Some evidence)
      | None => Ok (None, None)
      end
  end.

(* memory_retire.rs 1380-1391: retire_from_records *)
Definition receipt_links (reason : RetireReason.t) (superseded_by evidence_handle : option string)
    : list EvidenceLink.t :=
  match superseded_by with
  | Some superseder => [receipt_link superseder SUPERSEDED_BY_RELATION]
  | None => []
  end ++
  match evidence_handle with
  | Some evidence =>
      let relation := match reason with
                      | RetireReason.Drifted => DRIFTED_EVIDENCE_RELATION
                      | RetireReason.Contradicted => CONTRADICTED_BY_RELATION
                      | RetireReason.Superseded | RetireReason.OperatorDecision =>
                          CITED_EVIDENCE_RELATION
                      end in
      [receipt_link evidence relation]
  | None => []
  end.

(** The second half of [retire_from_records]: the gates, then the receipt and the
    [SUPERSEDES] edge. *)
(* memory_retire.rs 1375-1443: retire_from_records *)
Definition write_retirement (records : list GraphRecord) (request : RetireRequest.t)
    (actor tx handle : string) (liveness : Liveness.t) (target : GraphRecord) (target_id : string)
    : result RetireOutcome.t RetireError.t :=
  let reason := request.(RetireRequest.reason) in
  let? gates := check_retire_reason_gates records liveness target handle request in
  let '(superseded_by, evidence_handle) := gates in
  let links := receipt_links reason superseded_by evidence_handle in
  let receipt_id := retirement_receipt_id target_id tx (RetireReason.as_str reason) actor
                      superseded_by evidence_handle in
  let receipt := stamp_receipt
    (GraphRecord.node receipt_id NodeKind.RetirementReceipt None None None
       ("Retirement of " +:+ target_id +:+ " (" +:+ RetireReason.as_str reason +:+ ")"))
    target_id (RetireReason.as_str reason) actor tx links in
  let out_records := receipt ::
    match superseded_by with
    | Some superseder =>
        [Supersede.build_supersession_edge blake3_hex superseder
           (Supersede.Target.mk target_id EdgeLabel.Supersedes) "1.0"]
    | None => []
    end in
  Ok (RetireOutcome.Retired
        (RetireEvent.mk receipt_id target_id actor tx (RetireReason.as_str reason)
           superseded_by evidence_handle) out_records).

(* memory_retire.rs 1348-1444: retire_from_records *)
Definition retire_from_records (records : list GraphRecord) (request : RetireRequest.t)
    : result RetireOutcome.t RetireError.t :=
  let actor := trim request.(RetireRequest.retired_by) in
  if actor =s? "" then Err RetireError.MissingActor
  else
    let? tx := map_err (λ e : string * string, RetireError.InvalidTransactionTime e.1 e.2)
                 (resolve_transaction_time request.(RetireRequest.transaction_time)) in
    let handle := trim request.(RetireRequest.handle) in
    let liveness := Liveness.new records in
    let? found := resolve_retire_target records liveness handle in
    let '(target, target_id) := found in
    let proceed := write_retirement records request actor tx handle liveness target target_id in
    match latest_receipt_node records target_id None with
    | Some node =>
        if is_retirement node
        then Ok (RetireOutcome.AlreadyRetired (retire_event_from_node node) [])
        else proceed
    | None => proceed
    end.

(* memory_retire.rs 1456-1544: reinstate_from_records *)
Definition reinstate_from_records (records : list GraphRecord) (request : ReinstateRequest.t)
    : result ReinstateOutcome.t ReinstateError.t :=
  let actor := trim request.(ReinstateRequest.reinstated_by) in
  let reason := request.(ReinstateRequest.reason) in
  if actor =s? "" then Err ReinstateError.MissingActor
  else
    let? tx := map_err (λ e : string * string, ReinstateError.InvalidTransactionTime e.1 e.2)
                 (resolve_transaction_time request.(ReinstateRequest.transaction_time)) in
    let handle := trim request.(ReinstateRequest.handle) in
    let liveness := Liveness.new records in
    let? target := ok_or (latest_live_record records liveness handle)
                         (ReinstateError.NotFound handle) in
    let target_id := GraphRecord.id target in
    match classify_target target with
    | TargetClass.CodegraphFact kind => Err (ReinstateError.CodegraphFact target_id kind)
    | TargetClass.NonObservation kind => Err (ReinstateError.NonObservationTarget target_id kind)
    | TargetClass.Unsupported detail => Err (ReinstateError.NonObservationTarget target_id detail)
    | TargetClass.Observation =>
        match latest_receipt_node records target_id None with
        | None => Err (ReinstateError.NotRetired handle)
        | Some node =>
            if negb (is_retirement node) then
              Ok (ReinstateOutcome.AlreadyActive (reinstate_event_from_node node) [])
            else
              let receipt_id := reinstatement_receipt_id target_id tx reason actor in
              let receipt := stamp_receipt
                (GraphRecord.node receipt_id NodeKind.ReinstatementReceipt None None None
                   ("Reinstatement of " +:+ target_id)) target_id reason actor tx [] in
              Ok (ReinstateOutcome.Reinstated
                    (ReinstateEvent.mk receipt_id target_id actor tx reason) [receipt])
        end
    end.
End Receipts.
End Retirement.

(** ** Correctness *)
Section Facts.
Import Retirement.
Context (parse : string → result Z string) (blake3_hex : string → string) (now : string).
Abbreviation counted := (counted_receipt parse).
Abbreviation latest := (latest_receipt_node parse).
Abbreviation states := (retirement_states parse).
Abbreviation instant := (instant_of parse).

(** *** The receipt that controls the state *)

(** The instant of the controlling receipt. *)
Definition receipt_time (records : list GraphRecord) (t : string) (as_of : option Z)
    : option (option Z) :=
  match latest records t as_of with
  | Some r => counted t as_of r
  | None => None
  end.

(** The controlling receipt has the greatest instant, and among those of that instant it
    is the last in file order. *)
Definition controls (records : list GraphRecord) (t : string) (as_of : option Z)
    (best : option (option Z * nat * GraphRecord)) : Prop :=
  match best with
  | None => ∀ r, r ∈ records → counted t as_of r = None
  | Some (tx, i, r) => records !! i = Some r ∧ counted t as_of r = Some tx
      ∧ ∀ j r' tx', records !! j = Some r' → counted t as_of r' = Some tx' →
          instant_cmp tx' tx = Lt ∨ tx' = tx ∧ (j ≤ i)%nat
  end.

Lemma instant_cmp_Eq a b : instant_cmp a b = Eq ↔ a = b.
Proof. destruct a, b; simpl; rewrite ?Z.compare_eq_iff; naive_solver. Qed.
Lemma instant_cmp_Gt a b : instant_cmp a b = Gt ↔ instant_cmp b a = Lt.
Proof. destruct a, b; simpl; rewrite ?Z.compare_gt_iff, ?Z.compare_lt_iff; naive_solver. Qed.
Lemma instant_cmp_trans a b c : instant_cmp a b = Lt → instant_cmp b c = Lt → instant_cmp a c = Lt.
Proof. destruct a, b, c; simpl; rewrite ?Z.compare_lt_iff; try done. lia. Qed.

Lemma fold_better_snoc records r t as_of :
  foldl (better parse t as_of) None (imap pair (records ++ [r]))
  = better parse t as_of (foldl (better parse t as_of) None (imap pair records)) (length records, r).
Proof. by rewrite imap_app, foldl_app; cbn; rewrite Nat.add_0_r. Qed.

Lemma better_new best i r t as_of tx :
  counted t as_of r = Some tx → (∀ b k x, best = Some (b, k, x) → k < i) →
  better parse t as_of best (i, r)
  = if match best with Some (b, _, _) => bool_decide (instant_cmp tx b = Lt) | None => false end
    then best else Some (tx, i, r).
Proof.
  intros Hc Hi. unfold better. rewrite Hc. destruct best as [[[b k] x]|]; [|done].
  specialize (Hi b k x eq_refl).
  assert (Nat.compare i k = Gt) as Hk by (apply Nat.compare_gt_iff; lia).
  destruct (instant_cmp tx b); cbn [then_cmp]; rewrite ?Hk; done.
Qed.

Lemma fold_better_controls records t as_of :
  controls records t as_of (foldl (better parse t as_of) None (imap pair records)).
Proof.
  induction records as [|r records IH] using rev_ind; [by intros r ?%elem_of_nil|].
  rewrite fold_better_snoc.
  set (best := foldl (better parse t as_of) None (imap pair records)) in *.
  assert (∀ b k x, best = Some (b, k, x) → k < length records) as Hlt.
  { intros b k x Hb. rewrite Hb in IH. destruct IH as (Hx & _). by apply lookup_lt_Some in Hx. }
  destruct (counted t as_of r) as [tx|] eqn:Hc.
  - rewrite (better_new _ _ _ _ _ tx) by done. destruct best as [[[b k] x]|].
    + destruct IH as (Hx & Hcx & Hmax). specialize (Hlt b k x eq_refl).
      case_bool_decide as Hcmp; cbn.
      * split_and!; [by apply lookup_app_l_Some|done|]. intros j r' tx' Hj Hc'.
        apply lookup_app_Some in Hj as [Hj|[_ Hj]]; [by eapply Hmax|].
        apply list_lookup_singleton_Some in Hj as [_ <-]. left. congruence.
      * split_and!; [by rewrite list_lookup_middle|done|]. intros j r' tx' Hj Hc'.
        apply lookup_app_Some in Hj as [Hj|[? Hj]].
        -- apply lookup_lt_Some in Hj as Hjl.
           assert (instant_cmp b tx = Lt ∨ b = tx) as Hb.
           { destruct (instant_cmp b tx) eqn:E; [right|by left|].
             - by apply instant_cmp_Eq.
             - destruct Hcmp. by apply instant_cmp_Gt. }
           destruct (Hmax j r' tx' Hj Hc') as [Hl|[-> Hji]], Hb as [Hb| ->].
           ++ left. by eapply instant_cmp_trans.
           ++ by left.
           ++ by left.
           ++ right. split; [done|lia].
        -- apply list_lookup_singleton_Some in Hj as [Hj <-].
           right. split; [congruence|]. cbn in *. lia.
    + cbn. split_and!; [by rewrite list_lookup_middle|done|]. intros j r' tx' Hj Hc'.
      apply lookup_app_Some in Hj as [Hj|[? Hj]].
      * apply list_elem_of_lookup_2, IH in Hj. congruence.
      * apply list_lookup_singleton_Some in Hj as [Hj <-]. right. split; [congruence|]. cbn in *. lia.
  - assert (better parse t as_of best (length records, r) = best) as ->.
    { unfold better. by rewrite Hc. }
    destruct best as [[[b k] x]|]; cbn in *.
    + destruct IH as (Hx & Hcx & Hmax). split_and!; [by apply lookup_app_l_Some|done|].
      intros j r' tx' Hj Hc'. apply lookup_app_Some in Hj as [Hj|[_ Hj]]; [by eapply Hmax|].
      apply list_lookup_singleton_Some in Hj as [_ <-]. congruence.
    + intros r' [?|Hr]%elem_of_app; [auto|]. apply list_elem_of_singleton in Hr as ->. done.
Qed.

(** Appending a record to the log. *)
Lemma latest_snoc records r t as_of :
  latest (records ++ [r]) t as_of =
  match counted t as_of r with
  | None => latest records t as_of
  | Some tx =>
      match receipt_time records t as_of with
      | Some b => if bool_decide (instant_cmp tx b = Lt) then latest records t as_of else Some r
      | None => Some r
      end
  end.
Proof.
  unfold receipt_time, latest_receipt_node. rewrite fold_better_snoc.
  pose proof (fold_better_controls records t as_of) as IH.
  set (best := foldl (better parse t as_of) None (imap pair records)) in *.
  destruct (counted t as_of r) as [tx|] eqn:Hc; [|unfold better; by rewrite Hc].
  rewrite (better_new _ _ _ _ _ tx); [|done|].
  - destruct best as [[[b k] x]|]; cbn; [|done]. destruct IH as (_ & -> & _).
    by destruct (bool_decide (instant_cmp tx b = Lt)).
  - intros b k x Hb. rewrite Hb in IH. destruct IH as (Hx & _). by apply lookup_lt_Some in Hx.
Qed.

Lemma latest_app_uncounted records l t as_of :
  Forall (λ r, counted t as_of r = None) l → latest (records ++ l) t as_of = latest records t as_of.
Proof.
  intros Hl. revert records. induction Hl as [|r l Hr _ IH]; intros records.
  - by rewrite app_nil_r.
  - replace (records ++ r :: l) with ((records ++ [r]) ++ l) by by rewrite <-app_assoc.
    by rewrite IH, latest_snoc, Hr.
Qed.

(** *** The states of a log *)
Lemma receipt_targets_app records l :
  receipt_targets (records ++ l) = foldl (λ s r,
    match r with
    | Node n =>
        if is_receipt_kind n.(NodeRec.kind)
        then match n.(NodeRec.source_handle) with Some target => {[target]} ∪ s | None => s end
        else s
    | _ => s
    end) (receipt_targets records) l.
Proof. apply foldl_app. Qed.

Lemma states_lookup records as_of id :
  states records as_of !! id =
  if bool_decide (id ∈ receipt_targets records) then Some (state_at parse records as_of id) else None.
Proof.
  unfold retirement_states. case_bool_decide as H.
  - apply lookup_set_to_map; [by intros ?? _ _ ?|]. by exists id.
  - apply eq_None_not_Some. intros [s Hs].
    apply lookup_set_to_map in Hs as (x & Hx & [= <- _]); [done|by intros ?? _ _ ?].
Qed.
(** *** What the commands write *)
Lemma latest_live_record_Some records id r :
  latest_live_record records (Liveness.new records) id = Some r →
  r ∈ records ∧ GraphRecord.id r = id ∧ Liveness.deleted (Liveness.new records) id = false.
Proof.
  unfold latest_live_record. pose proof (Supersede.rfind_last records id) as H.
  destruct (GraphRecord.rfind _ _) as [r'|]; [|done].
  destruct (Liveness.deleted _ id) eqn:Hd; [done|]. intros [= ->]. naive_solver.
Qed.

Lemma classify_target_Observation r :
  classify_target r = TargetClass.Observation ↔
  ∃ n, r = Node n ∧ is_observation_class_kind n.(NodeRec.kind) = true.
Proof.
  unfold classify_target. destruct r as [n|e|tb].
  - destruct (NodeRec.kind n) eqn:Hk; cbn;
      (split; [intros H; try done; try (by exists n; rewrite Hk)|]);
      try (by intros (n' & [= <-] & H'); rewrite Hk in H');
      repeat match type of H with context [if ?b then _ else _] => destruct b end; done.
  - split; [|naive_solver]. by destruct (opt_str_eqb _ _).
  - split; [done|naive_solver].
Qed.

(** A belief record: live and of the observation class. *)
Definition live_belief (records : list GraphRecord) (id : string) (n : NodeRec.t) : Prop :=
  latest_live_record records (Liveness.new records) id = Some (Node n)
  ∧ is_observation_class_kind n.(NodeRec.kind) = true.

Definition retirement_receipt (target tx reason actor : string) (sup ev : option string)
    (links : list EvidenceLink.t) : GraphRecord :=
  stamp_receipt
    (GraphRecord.node (retirement_receipt_id blake3_hex target tx reason actor sup ev)
       NodeKind.RetirementReceipt None None None
       ("Retirement of " +:+ target +:+ " (" +:+ reason +:+ ")"))
    target reason actor tx links.

Definition reinstatement_receipt (target tx reason actor : string) : GraphRecord :=
  stamp_receipt
    (GraphRecord.node (reinstatement_receipt_id blake3_hex target tx reason actor)
       NodeKind.ReinstatementReceipt None None None ("Reinstatement of " +:+ target))
    target reason actor tx [].

(** The gates of the reasons, as the conditions of the documentation. *)
Definition gates_pass (records : list GraphRecord) (target : NodeRec.t) (handle : string)
    (request : RetireRequest.t) (sup ev : option string) : Prop :=
  let resolves h := is_Some (latest_live_record records (Liveness.new records) h) in
  match request.(RetireRequest.reason) with
  | RetireReason.Superseded => ev = None ∧ ∃ s m, sup = Some s
      ∧ trimmed request.(RetireRequest.superseded_by) = Some s
      ∧ s ≠ handle ∧ live_belief records s m ∧ is_retired parse records s = false
  | RetireReason.Drifted => sup = None ∧ ∃ e, ev = Some e
      ∧ trimmed request.(RetireRequest.evidence_handle) = Some e
      ∧ target_cites_handle (Node target) e = true ∧ ¬ resolves e
  | RetireReason.Contradicted | RetireReason.OperatorDecision =>
      sup = None ∧ trimmed request.(RetireRequest.evidence_handle) = ev
      ∧ ∀ e, ev = Some e → resolves e
  end.

Lemma check_gates_Ok records n handle request sup ev :
  check_retire_reason_gates parse records (Liveness.new records) (Node n) handle request = Ok (sup, ev)
  ↔ gates_pass records n handle request sup ev.
Proof.
  unfold check_retire_reason_gates, gates_pass, handle_resolves, is_some.
  destruct (RetireRequest.reason request).
  - destruct (trimmed (RetireRequest.superseded_by request)) as [s|]; cbn [ok_or result_bind];
      [|split; [done|naive_solver]].
    destruct (String.eqb_spec s handle) as [->|Hs]; [split; [done|naive_solver]|].
    unfold live_belief.
    destruct (latest_live_record records _ s) as [r|] eqn:Hr; cbn [ok_or result_bind];
      [|split; [done|intros (_ & ? & ? & _ & ? & _ & [? _] & _); simplify_eq; congruence]].
    destruct (classify_target r) eqn:Hc.
    2-4: split; [done|]; intros (_ & s' & m & -> & [= <-] & _ & [Hm Hk] & _);
      rewrite Hr in Hm; simplify_eq; rewrite (proj2 (classify_target_Observation (Node m))) in Hc;
      [done|by exists m].
    apply classify_target_Observation in Hc as (m & -> & Hk).
    destruct (is_retired parse records s) eqn:Hret; split.
    + done.
    + intros (_ & s' & m' & -> & [= <-] & _ & _ & ?). congruence.
    + intros [= <- <-]. split; [done|]. by exists s, m.
    + intros (-> & s' & m' & -> & [= <-] & _). done.
  - destruct (trimmed (RetireRequest.evidence_handle request)) as [e|]; cbn [ok_or result_bind];
      [|split; [done|naive_solver]].
    destruct (target_cites_handle (Node n) e) eqn:Hc; cbn [negb];
      [|split; [done|intros (_ & ? & _ & [= <-] & ? & _); congruence]].
    destruct (latest_live_record records _ e) as [r|] eqn:Hr.
    + split; [done|]. intros (_ & ? & _ & [= <-] & _ & []). by eexists.
    + split.
      * intros [= <- <-]. split; [done|]. exists e. split_and!; [done..|]. intros [? ?]. congruence.
      * by intros (-> & ? & -> & [= <-] & _).
  - destruct (trimmed (RetireRequest.evidence_handle request)) as [e|].
    + destruct (latest_live_record records _ e) as [r|] eqn:Hr; cbn [negb]; split.
      * intros [= <- <-]. split_and!; [done..|]. intros ? [= <-]. by eexists.
      * by intros (-> & <- & _).
      * done.
      * intros (_ & <- & H). destruct (H e eq_refl). congruence.
    + split; [intros [= <- <-]; done|by intros (-> & <- & _)].
  - destruct (trimmed (RetireRequest.evidence_handle request)) as [e|].
    + destruct (latest_live_record records _ e) as [r|] eqn:Hr; cbn [negb]; split.
      * intros [= <- <-]. split_and!; [done..|]. intros ? [= <-]. by eexists.
      * by intros (-> & <- & _).
      * done.
      * intros (_ & <- & H). destruct (H e eq_refl). congruence.
    + split; [intros [= <- <-]; done|by intros (-> & <- & _)].
Qed.

Lemma live_belief_facts records id n :
  live_belief records id n →
  NodeRec.id n = id ∧ classify_target (Node n) = TargetClass.Observation.
Proof.
  intros [Hl Hk]. split; [by apply latest_live_record_Some in Hl as (_ & ? & _)|].
  apply classify_target_Observation. by exists n.
Qed.

Definition supersedes_edge (sup : option string) (target : string) : list GraphRecord :=
  match sup with
  | Some s => [Supersede.build_supersession_edge blake3_hex s
                 (Supersede.Target.mk target EdgeLabel.Supersedes) "1.0"]
  | None => []
  end.

(** A successful retirement, decomposed. *)
Definition retires (records : list GraphRecord) (request : RetireRequest.t)
    (event : RetireEvent.t) (out : list GraphRecord) : Prop :=
  ∃ n tx sup ev,
    let actor := trim request.(RetireRequest.retired_by) in
    let handle := trim request.(RetireRequest.handle) in
    let reason := RetireReason.as_str request.(RetireRequest.reason) in
    actor ≠ "" ∧ resolve_transaction_time parse now request.(RetireRequest.transaction_time) = Ok tx
    ∧ live_belief records handle n
    ∧ (∀ r, latest records handle None = Some r → is_retirement r = false)
    ∧ gates_pass records n handle request sup ev
    ∧ event = RetireEvent.mk (retirement_receipt_id blake3_hex handle tx reason actor sup ev)
                handle actor tx reason sup ev
    ∧ out = retirement_receipt handle tx reason actor sup ev
              (receipt_links request.(RetireRequest.reason) sup ev)
            :: supersedes_edge sup handle.

Lemma retire_Retired_iff records request event out :
  retire_from_records parse blake3_hex now records request = Ok (RetireOutcome.Retired event out)
  ↔ retires records request event out.
Proof.
  unfold retire_from_records, retires. cbv zeta.
  destruct (String.eqb_spec (trim (RetireRequest.retired_by request)) "") as [Ha|Ha].
  { split; [done|]. by intros (? & ? & ? & ? & [] & _). }
  destruct (resolve_transaction_time _ _ _) as [tx|[v m]]; cbn [map_err result_bind];
    [|split; [done|by intros (? & ? & ? & ? & _ & ? & _)]].
  unfold resolve_retire_target.
  set (handle := trim (RetireRequest.handle request)).
  destruct (latest_live_record records _ handle) as [r|] eqn:Hr; cbn [ok_or result_bind].
  2: { split; [done|]. intros (n & ? & ? & ? & _ & _ & [Hl _] & _). congruence. }
  destruct (classify_target r) eqn:Hc; cbn [result_bind].
  2-4: split; [done|]; intros (n & ? & ? & ? & _ & _ & Hb & _);
    pose proof (live_belief_facts _ _ _ Hb) as [_ Hn]; destruct Hb as [Hl _]; congruence.
  apply classify_target_Observation in Hc as (n & -> & Hk).
  assert (NodeRec.id n = handle) as Hid by (by apply latest_live_record_Some in Hr as (_ & ? & _)).
  cbn [GraphRecord.id]. rewrite Hid.
  assert (live_belief records handle n) as Hb by done.
  assert (∀ proceed : result RetireOutcome.t RetireError.t,
    match latest records handle None with
    | Some node => if is_retirement node
                   then Ok (RetireOutcome.AlreadyRetired (retire_event_from_node node) [])
                   else proceed
    | None => proceed
    end = Ok (RetireOutcome.Retired event out)
    ↔ (∀ r, latest records handle None = Some r → is_retirement r = false)
      ∧ proceed = Ok (RetireOutcome.Retired event out)) as ->.
  { intros proceed. destruct (latest records handle None) as [node|]; [|naive_solver].
    destruct (is_retirement node) eqn:Hn; [|naive_solver].
    split; [done|]. intros [H _]. specialize (H node eq_refl). congruence. }
  unfold write_retirement.
  destruct (check_retire_reason_gates _ _ _ _ _ _) as [[sup ev]|e] eqn:Hg; cbn [result_bind].
  - apply check_gates_Ok in Hg. split.
    + intros [Hn [= <- <-]]. exists n, tx, sup, ev. split_and!; done.
    + intros (n' & tx' & sup' & ev' & _ & [= <-] & [Hl _] & Hn & Hg' & -> & ->).
      split; [done|]. rewrite Hr in Hl. simplify_eq.
      apply check_gates_Ok in Hg, Hg'. rewrite Hg in Hg'. by simplify_eq.
  - split; [by intros [_ ?]|].
    intros (n' & tx' & sup' & ev' & _ & _ & [Hl _] & _ & Hg' & _). rewrite Hr in Hl. simplify_eq.
    apply check_gates_Ok in Hg'. congruence.
Qed.

(** A successful reinstatement, decomposed. *)
Definition reinstates (records : list GraphRecord) (request : ReinstateRequest.t)
    (event : ReinstateEvent.t) (out : list GraphRecord) : Prop :=
  ∃ n tx r,
    let actor := trim request.(ReinstateRequest.reinstated_by) in
    let handle := trim request.(ReinstateRequest.handle) in
    let reason := request.(ReinstateRequest.reason) in
    actor ≠ "" ∧ resolve_transaction_time parse now request.(ReinstateRequest.transaction_time) = Ok tx
    ∧ live_belief records handle n
    ∧ latest records handle None = Some r ∧ is_retirement r = true
    ∧ event = ReinstateEvent.mk (reinstatement_receipt_id blake3_hex handle tx reason actor)
                handle actor tx reason
    ∧ out = [reinstatement_receipt handle tx reason actor].

Lemma reinstate_Reinstated_iff records request event out :
  reinstate_from_records parse blake3_hex now records request
    = Ok (ReinstateOutcome.Reinstated event out)
  ↔ reinstates records request event out.
Proof.
  unfold reinstate_from_records, reinstates. cbv zeta.
  destruct (String.eqb_spec (trim (ReinstateRequest.reinstated_by request)) "") as [Ha|Ha].
  { split; [done|]. by intros (? & ? & ? & [] & _). }
  destruct (resolve_transaction_time _ _ _) as [tx|[v m]]; cbn [map_err result_bind];
    [|split; [done|by intros (? & ? & ? & _ & ? & _)]].
  set (handle := trim (ReinstateRequest.handle request)).
  destruct (latest_live_record records _ handle) as [r|] eqn:Hr; cbn [ok_or result_bind].
  2: { split; [done|]. intros (n & ? & ? & _ & _ & [Hl _] & _). congruence. }
  destruct (classify_target r) eqn:Hc.
  2-4: split; [done|]; intros (n & ? & ? & _ & _ & Hb & _);
    pose proof (live_belief_facts _ _ _ Hb) as [_ Hn]; destruct Hb as [Hl _]; congruence.
  apply classify_target_Observation in Hc as (n & -> & Hk).
  assert (NodeRec.id n = handle) as Hid by (by apply latest_live_record_Some in Hr as (_ & ? & _)).
  cbn [GraphRecord.id]. rewrite Hid.
  destruct (latest records handle None) as [node|].
  - destruct (is_retirement node) eqn:Hn; cbn [negb].
    + split.
      * intros [= <- <-]. exists n, tx, node. split_and!; done.
      * by intros (n' & tx' & r' & _ & [= <-] & _ & _ & _ & -> & ->).
    + split; [done|]. intros (? & ? & ? & _ & _ & _ & [= ->] & ? & _). congruence.
  - split; [done|]. by intros (? & ? & ? & _ & _ & _ & ? & _).
Qed.

(** *** Receipts *)

(** What the log remembers of the receipts the commands write. *)
Lemma counted_stamped kind id summary t target body actor tx links as_of :
  is_receipt_kind kind = true →
  counted t as_of (stamp_receipt (GraphRecord.node id kind None None None summary)
                     target body actor tx links)
  = if bool_decide (target = t) then
      match instant (Some tx), as_of with
      | Some i, Some pin => if (i >? pin)%Z then None else Some (instant (Some tx))
      | _, _ => Some (instant (Some tx))
      end
    else None.
Proof.
  intros Hk. unfold counted_receipt, stamp_receipt. cbn. rewrite Hk. cbn [negb].
  unfold opt_str_eqb. rewrite (bool_decide_ext (Some target = Some t) (target = t)) by naive_solver.
  by destruct (bool_decide (target = t)).
Qed.

Lemma retire_event_roundtrip target tx reason actor sup ev rsn :
  (sup = None ∨ ev = None) →
  retire_event_from_node (retirement_receipt target tx reason actor sup ev (receipt_links rsn sup ev))
  = RetireEvent.mk (retirement_receipt_id blake3_hex target tx reason actor sup ev)
      target actor tx reason sup ev.
Proof.
  intros H. unfold retire_event_from_node, retirement_receipt, stamp_receipt.
  cbn -[retirement_receipt_id]. destruct sup as [s|], ev as [e|]; [by destruct H| |by destruct rsn|done].
  done.
Qed.

Lemma gates_exclusive records n handle request sup ev :
  gates_pass records n handle request sup ev → sup = None ∨ ev = None.
Proof. unfold gates_pass. destruct (RetireRequest.reason request); naive_solver. Qed.

Lemma uncounted_edges sup target t as_of :
  Forall (λ r, counted t as_of r = None) (supersedes_edge sup target).
Proof. by destruct sup; repeat constructor. Qed.

(** *** States after a command *)
Lemma latest_target records t as_of r :
  latest records t as_of = Some r → t ∈ receipt_targets records ∧ is_Some (counted t as_of r).
Proof.
  intros H. pose proof (fold_better_controls records t as_of) as Hc.
  unfold latest_receipt_node in H.
  destruct (foldl _ _ _) as [[[tx i] x]|]; [|done]. simpl in H. simplify_eq.
  destruct Hc as (Hi & Htx & _). split; [|by rewrite Htx].
  unfold receipt_targets. apply list_elem_of_lookup_2 in Hi.
  rewrite (foldl_or _ (λ s, t ∈ s) (λ r, ∃ n, r = Node n
    ∧ is_receipt_kind n.(NodeRec.kind) = true ∧ n.(NodeRec.source_handle) = Some t)).
  - right. exists r. split; [done|]. destruct r as [n|e|tb]; try done. exists n. split; [done|].
    unfold counted_receipt, opt_str_eqb in Htx.
    destruct (is_receipt_kind (NodeRec.kind n)); [|done]. cbn [negb] in Htx.
    case_bool_decide; done.
  - intros s [n|e|tb] _; cbn; [|by split; [by left|intros [?|(? & ? & _)]]..].
    destruct (is_receipt_kind _) eqn:Ek;
      [|split; [by left|intros [?|(? & [= <-] & ? & _)]; congruence]].
    destruct (NodeRec.source_handle n) eqn:Es;
      [|split; [by left|intros [?|(? & [= <-] & _ & ?)]; congruence]].
    rewrite elem_of_union, elem_of_singleton. split.
    + intros [->|?]; [right; by exists n|by left].
    + intros [?|(? & [= <-] & _ & ?)]; [by right|left; congruence].
Qed.

Lemma is_retired_latest records t :
  is_retired parse records t =
  match latest records t None with Some r => is_retirement r | None => false end.
Proof.
  unfold is_retired. rewrite states_lookup. unfold state_at.
  destruct (latest records t None) as [r|] eqn:Hl.
  - rewrite bool_decide_eq_true_2 by (by eapply latest_target). by destruct (is_retirement r).
  - by case_bool_decide.
Qed.

(** A receipt stamped [tx] is older than the one in control. *)
Definition backdated (records : list GraphRecord) (t tx : string) : bool :=
  match receipt_time records t None with
  | Some b => bool_decide (instant_cmp (instant (Some tx)) b = Lt)
  | None => false
  end.

(** Appending a stamped receipt, and records that are no receipts. *)
Section Append.
Context (kind : NodeKind.t) (id summary t body actor tx : string) (links : list EvidenceLink.t).
Context (records rest : list GraphRecord) (Hkind : is_receipt_kind kind = true).
Context (Hrest : ∀ t as_of, Forall (λ r, counted t as_of r = None) rest).
Context (Hplain : Forall (λ r, match r with Edge _ => True | _ => False end) rest).
Let receipt : GraphRecord :=
  stamp_receipt (GraphRecord.node id kind None None None summary) t body actor tx links.
Let after : list GraphRecord := records ++ receipt :: rest.

Lemma latest_after x as_of : latest after x as_of = latest (records ++ [receipt]) x as_of.
Proof.
  unfold after. replace (records ++ receipt :: rest) with ((records ++ [receipt]) ++ rest)
    by by rewrite <-app_assoc.
  by apply latest_app_uncounted.
Qed.

Lemma targets_after : receipt_targets after = {[t]} ∪ receipt_targets records.
Proof.
  unfold after. rewrite receipt_targets_app. cbn [foldl]. unfold receipt at 1. cbn.
  rewrite Hkind. clear -Hplain. revert Hplain. generalize ({[t]} ∪ receipt_targets records) as s.
  intros s Hp. induction Hp as [|[n|e|tb] l Hr _ IH]; by cbn.
Qed.

Lemma latest_after_target :
  latest after t None = if backdated records t tx then latest records t None else Some receipt.
Proof.
  rewrite latest_after, latest_snoc. unfold receipt at 1. rewrite counted_stamped by done.
  rewrite bool_decide_eq_true_2 by done. unfold backdated.
  assert (match instant (Some tx), (None : option Z) with
    | Some i, Some pin => if (i >? pin)%Z then None else Some (instant (Some tx))
    | _, _ => Some (instant (Some tx)) end = Some (instant (Some tx))) as -> by by destruct (instant _).
  by destruct (receipt_time records t None).
Qed.

Lemma latest_after_other x as_of : x ≠ t → latest after x as_of = latest records x as_of.
Proof.
  intros Hx. rewrite latest_after, latest_snoc. unfold receipt at 1.
  rewrite counted_stamped, bool_decide_eq_false_2 by (done || congruence). done.
Qed.

Lemma latest_after_pinned pin i :
  instant (Some tx) = Some i → (pin < i)%Z → latest after t (Some pin) = latest records t (Some pin).
Proof.
  intros Hi Hpin. rewrite latest_after, latest_snoc. unfold receipt at 1.
  rewrite counted_stamped, Hi by done. rewrite bool_decide_eq_true_2 by done.
  by rewrite (proj2 (Z.gtb_lt i pin)).
Qed.

Lemma states_after_target :
  states after None !! t =
  Some (if backdated records t tx then state_at parse records None t
        else if is_retirement receipt then
          let event := retire_event_from_node receipt in
          RetirementState.Retired event.(RetireEvent.receipt_id) event.(RetireEvent.reason)
            event.(RetireEvent.retired_by) event.(RetireEvent.retired_at)
        else RetirementState.Active).
Proof.
  rewrite states_lookup, bool_decide_eq_true_2 by (rewrite targets_after; set_solver).
  unfold state_at at 1. rewrite latest_after_target. by destruct (backdated records t tx).
Qed.

Lemma states_after_other x as_of : x ≠ t → states after as_of !! x = states records as_of !! x.
Proof.
  intros Hx. rewrite !states_lookup.
  rewrite (bool_decide_ext (x ∈ receipt_targets after) (x ∈ receipt_targets records))
    by (rewrite targets_after; set_solver).
  unfold state_at. by rewrite latest_after_other.
Qed.
End Append.

Lemma plain_edges sup target :
  Forall (λ r, match r with Edge _ => True | _ => False end) (supersedes_edge sup target).
Proof. by destruct sup; repeat constructor. Qed.

(** C27: A retirement does what its event says: the first record written is a receipt that
    reads back as the returned event; the target was not retired before, and after the
    records are appended it is retired by exactly this receipt, unless the receipt is
    dated before the one in control, when the target stays active; the state of every
    other record at every pin is unchanged, and so is the target's state at every pin
    before the receipt. *)
Theorem retire_effect records request event out :
  retire_from_records parse blake3_hex now records request = Ok (RetireOutcome.Retired event out) →
  let t := event.(RetireEvent.retired_record_id) in
  (∃ receipt rest, out = receipt :: rest ∧ retire_event_from_node receipt = event)
  ∧ is_retired parse records t = false
  ∧ states (records ++ out) None !! t =
      Some (if backdated records t event.(RetireEvent.retired_at) then RetirementState.Active
            else RetirementState.Retired event.(RetireEvent.receipt_id) event.(RetireEvent.reason)
                   event.(RetireEvent.retired_by) event.(RetireEvent.retired_at))
  ∧ (∀ id as_of, id ≠ t → states (records ++ out) as_of !! id = states records as_of !! id)
  ∧ ∀ pin i, instant (Some event.(RetireEvent.retired_at)) = Some i → (pin < i)%Z →
      state_at parse (records ++ out) (Some pin) t = state_at parse records (Some pin) t.
Proof.
  intros (n & tx & sup & ev & Ha & Htx & Hb & Hn & Hg & -> & ->)%retire_Retired_iff.
  cbn [RetireEvent.retired_record_id RetireEvent.retired_at RetireEvent.receipt_id
       RetireEvent.reason RetireEvent.retired_by].
  pose proof (retire_event_roundtrip (trim (RetireRequest.handle request)) tx
    (RetireReason.as_str (RetireRequest.reason request)) (trim (RetireRequest.retired_by request))
    sup ev (RetireRequest.reason request) (gates_exclusive _ _ _ _ _ _ Hg)) as Hrt.
  split_and!.
  - eexists _, _. by split.
  - rewrite is_retired_latest. by destruct (latest records _ None) as [r|] eqn:Hl; [apply Hn|].
  - unfold retirement_receipt in *.
    rewrite states_after_target by (done || apply uncounted_edges || apply plain_edges).
    rewrite Hrt. cbn [RetireEvent.receipt_id RetireEvent.reason RetireEvent.retired_by RetireEvent.retired_at].
    destruct (backdated _ _ _); [|done]. unfold state_at.
    destruct (latest records _ None) as [r|] eqn:Hl; [|done]. by rewrite (Hn r).
  - intros id as_of Hid. unfold retirement_receipt.
    by rewrite states_after_other by (done || apply uncounted_edges || apply plain_edges).
  - intros pin i Hi Hpin. unfold state_at, retirement_receipt.
    erewrite latest_after_pinned; [done|done|intros; apply uncounted_edges|exact Hi|exact Hpin].
Qed.

(** *** Reversibility *)
Lemma latest_live_record_snoc records r id :
  GraphRecord.id r ≠ id → is_tombstone_of id r = false →
  latest_live_record (records ++ [r]) (Liveness.new (records ++ [r])) id
  = latest_live_record records (Liveness.new records) id.
Proof.
  intros Hid Ht. unfold latest_live_record, GraphRecord.rfind.
  rewrite reverse_snoc. cbn [List.find]. rewrite (proj2 (String.eqb_neq _ _) Hid).
  rewrite deleted_app_other; [done| |done].
  unfold is_write. destruct r; cbn in *; rewrite ?orb_false_r; by apply String.eqb_neq || done.
Qed.

Lemma latest_live_record_app records l id :
  Forall (λ r, GraphRecord.id r ≠ id ∧ is_tombstone_of id r = false) l →
  latest_live_record (records ++ l) (Liveness.new (records ++ l)) id
  = latest_live_record records (Liveness.new records) id.
Proof.
  intros Hl. revert records. induction Hl as [|r l [Hid Ht] _ IH]; intros records.
  - by rewrite app_nil_r.
  - replace (records ++ r :: l) with ((records ++ [r]) ++ l) by by rewrite <-app_assoc.
    by rewrite IH, latest_live_record_snoc.
Qed.

(** The records a retirement writes are new: none of their ids is the target's. *)
Definition fresh (out : list GraphRecord) (id : string) : Prop :=
  Forall (λ r, GraphRecord.id r ≠ id) out.

Lemma live_belief_after records l id n :
  live_belief records id n → fresh l id → Forall (λ r, ∀ tb, r ≠ Tombstone tb) l →
  live_belief (records ++ l) id n.
Proof.
  intros [Hl Hk] Hf Ht. split; [|done]. rewrite latest_live_record_app; [done|].
  apply Forall_and. split; [done|]. eapply Forall_impl; [exact Ht|].
  intros [?|?|tb] H; [done|done|]. by destruct (H tb).
Qed.

(** Retirement is idempotent and always reversible: once a retirement (not backdated)
    is in the log, retiring the same handle again writes nothing and returns the event
    in force, and any well-formed reinstatement at the same instant or later succeeds
    and makes the record active again. *)
Theorem retirement_reversible records request event out :
  retire_from_records parse blake3_hex now records request = Ok (RetireOutcome.Retired event out) →
  let t := event.(RetireEvent.retired_record_id) in
  let log := records ++ out in
  backdated records t event.(RetireEvent.retired_at) = false → fresh out t →
  (∀ again tx, trim again.(RetireRequest.handle) = t → trim again.(RetireRequest.retired_by) ≠ "" →
     resolve_transaction_time parse now again.(RetireRequest.transaction_time) = Ok tx →
     retire_from_records parse blake3_hex now log again = Ok (RetireOutcome.AlreadyRetired event []))
  ∧ ∀ undo tx, trim undo.(ReinstateRequest.handle) = t →
     trim undo.(ReinstateRequest.reinstated_by) ≠ "" →
     resolve_transaction_time parse now undo.(ReinstateRequest.transaction_time) = Ok tx →
     instant_cmp (instant (Some tx)) (instant (Some event.(RetireEvent.retired_at))) ≠ Lt →
     ∃ event' out', reinstate_from_records parse blake3_hex now log undo
                      = Ok (ReinstateOutcome.Reinstated event' out')
       ∧ states (log ++ out') None !! t = Some RetirementState.Active
       ∧ is_retired parse (log ++ out') t = false.
Proof.
  intros (n & tx0 & sup & ev & Ha & Htx0 & Hb & Hn & Hg & -> & ->)%retire_Retired_iff.
  cbn [RetireEvent.retired_record_id RetireEvent.retired_at]. cbv zeta.
  set (t := trim (RetireRequest.handle request)) in *. intros Hback Hfresh.
  pose proof (retire_event_roundtrip t tx0 (RetireReason.as_str (RetireRequest.reason request))
    (trim (RetireRequest.retired_by request)) sup ev (RetireRequest.reason request)
    (gates_exclusive _ _ _ _ _ _ Hg)) as Hrt.
  set (receipt := retirement_receipt _ _ _ _ _ _ _) in *.
  set (log := records ++ receipt :: supersedes_edge sup t).
  assert (latest log t None = Some receipt) as Hlog.
  { unfold log, receipt, retirement_receipt.
    rewrite latest_after_target by (done || intros; apply uncounted_edges). by rewrite Hback. }
  assert (live_belief log t n) as Hblog.
  { apply live_belief_after; [done|done|]. constructor; [done|]. by destruct sup; repeat constructor. }
  pose proof (live_belief_facts _ _ _ Hblog) as [Hid Hclass].
  split.
  - intros again tx Hh Hby Htx. unfold retire_from_records. cbv zeta.
    rewrite (proj2 (String.eqb_neq _ _) Hby), Htx, Hh. cbn [map_err result_bind].
    unfold resolve_retire_target. rewrite (proj1 Hblog). cbn [ok_or result_bind].
    rewrite Hclass. cbn [result_bind GraphRecord.id]. rewrite Hid, Hlog.
    change (is_retirement receipt) with true. cbn iota. by rewrite Hrt.
  - intros undo tx Hh Hby Htx Hge.
    set (back := reinstatement_receipt t tx (ReinstateRequest.reason undo)
                   (trim (ReinstateRequest.reinstated_by undo))).
    assert (latest (log ++ [back]) t None = Some back) as Hback'.
    { unfold back, reinstatement_receipt.
      rewrite latest_after_target by (done || intros; constructor).
      assert (backdated log t tx = false) as ->; [|done].
      unfold backdated, receipt_time. rewrite Hlog. unfold receipt, retirement_receipt.
      rewrite counted_stamped, bool_decide_eq_true_2 by done.
      replace (match instant (Some tx0), (None : option Z) with
        | Some i, Some pin => if (i >? pin)%Z then None else Some (instant (Some tx0))
        | _, _ => Some (instant (Some tx0)) end) with (Some (instant (Some tx0)))
        by by destruct (instant (Some tx0)).
      by apply bool_decide_eq_false_2. }
    eexists _, [back]. split_and!.
    + apply reinstate_Reinstated_iff. exists n, tx, receipt. cbv zeta. rewrite Hh. split_and!; done.
    + rewrite states_lookup, bool_decide_eq_true_2 by (by eapply latest_target).
      unfold state_at. by rewrite Hback'.
    + rewrite is_retired_latest. by rewrite Hback'.
Qed.

(** Only beliefs are retired, and only additively: whatever the request, a
    retirement that goes through names a live record of the observation class, writes
    one receipt and, for the reason [superseded] only, one [SUPERSEDES] edge from the
    superseding record, and passed the documented gate of its reason: the superseding
    record is another live belief that is not retired, a drifted handle is cited by the
    target and resolves to nothing, and other cited evidence resolves. *)
Theorem retire_only_beliefs records request event out :
  retire_from_records parse blake3_hex now records request = Ok (RetireOutcome.Retired event out) →
  let t := event.(RetireEvent.retired_record_id) in
  ∃ n receipt, live_belief records t n
    ∧ gates_pass records n t request event.(RetireEvent.superseded_by) event.(RetireEvent.evidence_handle)
    ∧ is_retirement receipt = true ∧ GraphRecord.id receipt = event.(RetireEvent.receipt_id)
    ∧ (request.(RetireRequest.reason) = RetireReason.Superseded ↔ is_Some event.(RetireEvent.superseded_by))
    ∧ match event.(RetireEvent.superseded_by) with
      | None => out = [receipt]
      | Some s => ∃ e, out = [receipt; Edge e] ∧ e.(EdgeRec.label) = EdgeLabel.Supersedes
                       ∧ e.(EdgeRec.source) = s ∧ e.(EdgeRec.target) = t
      end.
Proof.
  intros (n & tx & sup & ev & Ha & Htx & Hb & Hn & Hg & -> & ->)%retire_Retired_iff.
  eexists n, _. cbn [RetireEvent.retired_record_id RetireEvent.superseded_by
    RetireEvent.evidence_handle RetireEvent.receipt_id].
  split_and!; [exact Hb|exact Hg| | | |]; cycle 3.
  { destruct sup as [s|]; [|done]. eexists. split_and!; done. }
  - done.
  - done.
  - unfold gates_pass in Hg. destruct (RetireRequest.reason request).
    + destruct Hg as (_ & s & m & -> & _). split; [by eexists|done].
    + destruct Hg as (-> & _). split; [done|by intros [? ?]].
    + destruct Hg as (-> & _). split; [done|by intros [? ?]].
    + destruct Hg as (-> & _). split; [done|by intros [? ?]].
Qed.

End Facts.

(** ** Concrete logs *)
Section Demo.
Import Retirement.

(** Three instants of one second, as [chrono] orders them. *)
Definition demo_parse (s : string) : result Z string :=
  match str_match s [("2026-09-28T11:00:00Z", 0%Z); ("2026-09-28T11:00:00.5Z", 500%Z);
                     ("2026-09-28T11:00:01Z", 1000%Z)] with
  | Some i => Ok i
  | None => Err "premature end of input"
  end.

Definition demo_log : list GraphRecord :=
  [GraphRecord.node "agent_memory:v1:o1" NodeKind.Observation None None None "first belief";
   GraphRecord.node "agent_memory:v1:o2" NodeKind.Decision None None None "later belief";
   GraphRecord.node "codegraph:v1:f" NodeKind.Symbol None None None "a fact"].

Definition demo_retire (handle tx : string) (reason : RetireReason.t) (sup : option string)
    (log : list GraphRecord) : result RetireOutcome.t RetireError.t :=
  retire_from_records demo_parse (λ s, s) "2026-09-28T11:00:01Z" log
    (RetireRequest.mk handle reason sup None "ops" (Some tx)).
Definition demo_reinstate (handle tx : string) (log : list GraphRecord)
    : result ReinstateOutcome.t ReinstateError.t :=
  reinstate_from_records demo_parse (λ s, s) "2026-09-28T11:00:01Z" log
    (ReinstateRequest.mk handle "mistake" "ops" (Some tx)).

Definition written (r : result RetireOutcome.t RetireError.t) : RetireEvent.t * list GraphRecord :=
  match r with Ok (RetireOutcome.Retired e o) => (e, o) | _ => (empty_retire_event, []) end.
Definition rewritten (r : result ReinstateOutcome.t ReinstateError.t) : list GraphRecord :=
  match r with Ok (ReinstateOutcome.Reinstated _ o) => o | _ => [] end.

Definition demo_retired : RetireEvent.t * list GraphRecord :=
  Eval vm_compute in
    written (demo_retire " agent_memory:v1:o1 " "2026-09-28T11:00:00Z" RetireReason.Superseded
               (Some "agent_memory:v1:o2") demo_log).

Lemma demo_retired_ok :
  retire_from_records demo_parse (λ s, s) "2026-09-28T11:00:01Z" demo_log
    (RetireRequest.mk " agent_memory:v1:o1 " RetireReason.Superseded (Some "agent_memory:v1:o2")
       None "ops" (Some "2026-09-28T11:00:00Z"))
  = Ok (RetireOutcome.Retired demo_retired.1 demo_retired.2).
Proof. vm_compute. reflexivity. Qed.

Example demo_refusals :
  demo_retire "codegraph:v1:f" "2026-09-28T11:00:00Z" RetireReason.OperatorDecision None demo_log
    = Err (RetireError.CodegraphFact "codegraph:v1:f" "Symbol")
  ∧ demo_retire "agent_memory:v1:o9" "2026-09-28T11:00:00Z" RetireReason.OperatorDecision None demo_log
    = Err (RetireError.NotFound "agent_memory:v1:o9")
  ∧ demo_retire "agent_memory:v1:o1" "yesterday" RetireReason.OperatorDecision None demo_log
    = Err (RetireError.InvalidTransactionTime "yesterday" "premature end of input").
Proof. split_and!; vm_compute; reflexivity. Qed.

Lemma retire_effect_witness :
  is_retired demo_parse (demo_log ++ demo_retired.2) "agent_memory:v1:o1" = true
  ∧ ∃ receipt rest, demo_retired.2 = receipt :: rest
                    ∧ retire_event_from_node receipt = demo_retired.1.
Proof.
  split; [vm_compute; reflexivity|].
  destruct (retire_effect _ _ _ _ _ _ _ demo_retired_ok) as (H & _). exact H.
Defined.

Lemma retirement_reversible_witness :
  ∃ event' out', demo_reinstate "agent_memory:v1:o1" "2026-09-28T11:00:00.5Z"
                   (demo_log ++ demo_retired.2) = Ok (ReinstateOutcome.Reinstated event' out')
    ∧ is_retired demo_parse ((demo_log ++ demo_retired.2) ++ out') "agent_memory:v1:o1" = false.
Proof.
  assert (fresh demo_retired.2 demo_retired.1.(RetireEvent.retired_record_id)) as Hf.
  { repeat constructor; discriminate. }
  destruct (retirement_reversible _ _ _ _ _ _ _ demo_retired_ok
    ltac:(vm_compute; reflexivity) Hf) as [_ H].
  destruct (H (ReinstateRequest.mk "agent_memory:v1:o1" "mistake" "ops" (Some "2026-09-28T11:00:00.5Z"))
    "2026-09-28T11:00:00.5Z" ltac:(vm_compute; reflexivity) ltac:(vm_compute; discriminate)
    ltac:(vm_compute; reflexivity) ltac:(vm_compute; discriminate)) as (e & o & H1 & _ & H2).
  exists e, o. split; [exact H1|exact H2].
Defined.

Lemma retire_only_beliefs_witness :
  demo_retired.1.(RetireEvent.superseded_by) = Some "agent_memory:v1:o2"
  ∧ ∃ n, live_belief demo_log "agent_memory:v1:o1" n.
Proof.
  split; [vm_compute; reflexivity|].
  destruct (retire_only_beliefs _ _ _ _ _ _ _ demo_retired_ok) as (n & _ & H & _).
  exists n. exact H.
Defined.

(** The trail is sorted by the text of the times, the state by their instants: a trail
    whose last entry is the retirement belongs to a record that is active. *)
Example trail_last_entry_not_in_control :
  let log := demo_log ++ demo_retired.2 in
  let log := log ++ rewritten (demo_reinstate "agent_memory:v1:o1" "2026-09-28T11:00:00.5Z" log) in
  is_retired demo_parse log "agent_memory:v1:o1" = false
  ∧ (λ e, match e with ReceiptTrailEntry.retired _ => "retired"
                     | ReceiptTrailEntry.reinstated _ => "reinstated" end)
      <$> receipt_trail demo_parse log "agent_memory:v1:o1" None = ["reinstated"; "retired"].
Proof. split; vm_compute; reflexivity. Qed.

(** A retirement dated before the last reinstatement is reported as written, and the
    record stays active. *)
Example backdated_retirement_has_no_effect :
  let log := demo_log ++ demo_retired.2 in
  let log := log ++ rewritten (demo_reinstate "agent_memory:v1:o1" "2026-09-28T11:00:01Z" log) in
  let out := written (demo_retire "agent_memory:v1:o1" "2026-09-28T11:00:00.5Z"
                        RetireReason.OperatorDecision None log) in
  out.1.(RetireEvent.retired_record_id) = "agent_memory:v1:o1"
  ∧ is_retired demo_parse (log ++ out.2) "agent_memory:v1:o1" = false.
Proof. split; vm_compute; reflexivity. Qed.
End Demo.
