(* ===== verification/SecretSpans.v ===== *)
(** * Secret spans and in-place redaction ([src/src/redaction.rs], the span matchers)

    The matchers that report where a secret starts and how long it is, and
    [redact_code_text], the loop that replaces every span by a placeholder. *)
From S2P Require Import Prelude RustStr SecretPatterns.
From Stdlib Require Import Ascii NArith.

Module SecretSpans.
Export SecretPatterns.

Abbreviation Span := (nat * nat)%type.

Definition END_MARKERS : list string :=
  ["-----END RSA PRIVATE KEY-----"; "-----END OPENSSH PRIVATE KEY-----";
   "-----END EC PRIVATE KEY-----"; "-----END PRIVATE KEY-----";
   "-----END ENCRYPTED PRIVATE KEY-----"].

(* redaction.rs 840-867: find_ssh_private_key_span *)
Definition find_ssh_private_key_span (value : text) : option Span :=
  find_map (λ '(m, end_m),
    let?o start := find (lit m) value in
    Some (match find (lit end_m) (drop start value) with
          | Some end_pos => (start, end_pos + length (lit end_m))%nat
          | None => (start, length value - start)%nat
          end)) (zip SSH_MARKERS END_MARKERS).

(* redaction.rs 869-909: find_database_url_span *)
Definition find_database_url_span (value : text) : option Span :=
  find_map (λ scheme,
    first_occurrence (lit scheme) 1 (lower value) (λ abs,
      if has_credentials (drop (abs + length (lit scheme)) value)
      then Some (abs, find_or_len (λ l, at_space l || at_one_of "'\,;" l
                        || bool_decide (head l = Some (ascii_of_N 34))) (drop abs value))
      else None)) SCHEMES.

(* redaction.rs 911-942: find_cloud_credential_span *)
Definition find_cloud_credential_span (value : text) : option Span :=
  find_map (λ prefix,
    first_occurrence (lit prefix) 1 value (λ abs,
      if is_cloud_key value (lit prefix) abs then Some (abs, length (lit prefix) + 16)%nat
      else None)) ["AKIA"; "ASIA"].

(* redaction.rs 944-962: find_webhook_secret_span *)
Definition find_webhook_secret_span (value : text) : option Span :=
  first_occurrence (lit "whsec_") 1 value (λ abs,
    let after := drop (abs + 6) value in
    let len := run_length (λ c, is_alnum c || one_of "-_" c) after in
    if (20 <=? len)%nat then Some (abs, 6 + len)%nat else None).

Definition at_quote (l : text) : bool :=
  match l with c :: _ => bool_decide (N_of_ascii c ∈ [34; 39]%N) | [] => false end.

(* redaction.rs 964-1000: find_session_cookie_span *)
Definition find_session_cookie_span (value : text) : option Span :=
  match first_occurrence (lit "eyJ") 1 value (λ abs,
    let after := drop (abs + 3) value in
    let len := run_length is_jwt_char after in
    if (20 <=? len)%nat then Some (abs, 3 + len)%nat else None) with
  | Some span => Some span
  | None =>
      find_map (λ prefix,
        first_occurrence (lit prefix) 1 value (λ abs,
          let after := drop (abs + length (lit prefix)) value in
          let len := find_or_len (λ l, at_space l || at_one_of ";," l || at_quote l) after in
          if (8 <=? len)%nat then Some (abs, length (lit prefix) + len)%nat else None))
        SESSION_PREFIXES
  end.

(* redaction.rs 1014-1031: find_api_token_span *)
Definition find_prefixed_token_span (value : text) : option Span :=
  find_map (λ prefix,
    first_occurrence (lit prefix) (length (lit prefix)) value (λ abs,
      let after := drop (abs + length (lit prefix)) value in
      let len := run_length is_token_char after in
      if (20 <=? len)%nat then Some (abs, length (lit prefix) + len)%nat else None)) API_PREFIXES.

(* redaction.rs 1002-1049: find_api_token_span *)
Definition find_api_token_span (value : text) : option Span :=
  match find_prefixed_token_span value with
  | Some span => Some span
  | None =>
      first_occurrence (lit "bearer ") 1 (lower value) (λ abs,
        let after := drop (abs + 7) value in
        let len := find_or_len (λ l, at_space l || at_quote l) after in
        if (20 <=? len)%nat then Some (abs, 7 + len)%nat else None)
  end.

(* redaction.rs 1051-1120: find_email_span *)
Definition find_email_span (value : text) : option Span :=
  find_map (λ idx,
    let?o found := email_at value idx in
    let '(start_idx, domain_str) := found in
    Some (start_idx, idx + 1 + length domain_str - start_idx)%nat) (positions "@" value).

(* redaction.rs 1131-1138: is_exact_placeholder *)
Definition is_exact_placeholder (token : text) : bool :=
  if bool_decide (token = REDACTION_MARKER) then true
  else has_prefix (lit "<REDACTED:") token &&
       let rest := drop (length (lit "<REDACTED:")) token in
       has_suffix (lit ">") rest && negb (contains (take (length rest - 1) rest) (lit ">")).

(** The value after a secret key's [=]: where the secret starts in it and its length. A
    quoted value runs to its closing quote; without one, and unquoted, to the first
    delimiter. *)
(* redaction.rs 1176-1214: find_env_secret_span *)
Definition env_value (remaining : text) : option Span :=
  let delim_boundary := find_or_len is_delim remaining in
  let opening_quote := if at_quote remaining then head remaining else None in
  let val_len :=
    match opening_quote with
    | None => delim_boundary
    | Some quote =>
        match find [quote] (drop 1 remaining) with
        | None => delim_boundary
        | Some rel_close => (1 + rel_close + 1)%nat
        end
    end in
  if (val_len <? 8)%nat then None
  else
    let token := take val_len remaining in
    let span :=
      match opening_quote with
      | None => (0, val_len)%nat
      | Some quote =>
          let closed := (2 <=? length token)%nat && has_suffix [quote] token in
          (1, val_len - 1 - (if closed then 1 else 0))%nat
      end in
    if (span.2 =? 0)%nat then None else Some span.

(* redaction.rs 1159-1230: find_env_secret_span *)
Definition env_span_at (value : text) (eq_pos : nat) : option Span :=
  let key := drop (env_key_start value eq_pos) (take eq_pos value) in
  if negb (is_secret_key key) then None
  else
    let val_start := S eq_pos in
    if (length value <=? val_start)%nat then None
    else
      let?o span := env_value (drop val_start value) in
      let '(off, span_len) := span in
      let span_start := (val_start + off)%nat in
      if is_exact_placeholder (take span_len (drop span_start value)) then None
      else Some (span_start, span_len).

(* redaction.rs 1140-1232: find_env_secret_span *)
Definition find_env_secret_span (value : text) : option Span :=
  find_map (env_span_at value) (positions "=" value).

(* redaction.rs 1236-1261: detect_secret_span *)
Definition detect_secret_span (value : text) : option (SecretClass.t * Span) :=
  let as_ class (o : option Span) := pair class <$> o in
  find_map id
    [as_ SecretClass.SshPrivateKey (find_ssh_private_key_span value);
     as_ SecretClass.DatabaseUrl (find_database_url_span value);
     as_ SecretClass.CloudCredential (find_cloud_credential_span value);
     as_ SecretClass.WebhookSecret (find_webhook_secret_span value);
     as_ SecretClass.SessionCookie (find_session_cookie_span value);
     as_ SecretClass.ApiToken (find_api_token_span value);
     as_ SecretClass.Email (find_email_span value);
     as_ SecretClass.EnvSecret (find_env_secret_span value)].

(** [HashMap<SecretClass, usize>]: absent is zero. *)
Abbreviation Counts := (SecretClass.t → nat).
Definition no_counts : Counts := λ _, 0%nat.
Definition bump (class : SecretClass.t) (counts : Counts) : Counts :=
  λ c, if bool_decide (c = class) then S (counts c) else counts c.
Definition add_counts (a b : Counts) : Counts := λ c, (a c + b c)%nat.

(** The loop of [redact_code_text]; [None] is the end of the fuel. *)
(* redaction.rs 1275-1300: redact_code_text *)
Fixpoint redact_loop (fuel : nat) (placeholder : text) (value : text) (counts : Counts)
    (scan_from : nat) : option (text * Counts) :=
  match detect_secret_span (drop scan_from value) with
  | None => Some (value, counts)
  | Some (class, (rel_start, len)) =>
      match fuel with
      | 0%nat => None
      | S fuel' =>
          let start := (scan_from + rel_start)%nat in
          let e := (start + len)%nat in
          if bool_decide (drop start (take e value) = placeholder)
          then redact_loop fuel' placeholder value counts e
          else redact_loop fuel' placeholder (take start value ++ placeholder ++ drop e value)
                 (bump class counts) scan_from
      end
  end.

(* redaction.rs 1266-1301: redact_code_text *)
Definition redact_code_text (fuel : nat) (value placeholder : text) : option (text * Counts) :=
  redact_loop fuel placeholder value no_counts 0.

Definition REDACTED_SECRET : text := lit "<REDACTED:secret>".

Example redact_examples :
  fst <$> redact_code_text 10 (lit "API_KEY='abcdefgh ij' PASSWORD=hunter2!; see bob@corp.io") REDACTED_SECRET
    = Some (lit "API_KEY='<REDACTED:secret>' PASSWORD=<REDACTED:secret>; see <REDACTED:secret>")
  ∧ fst <$> redact_code_text 10 (lit "connect.sid=session=sk-abcdefghijklmnopqrstuvwx") REDACTED_SECRET
    = Some (lit "connect.<REDACTED:secret>").
Proof. split; vm_compute; reflexivity. Qed.

(** ** Spans lie inside the text and hold what triggered them *)

(** What the spans of every class but the environment secrets hold, in lower case. *)
Definition TRIGGERS : list text :=
  (λ s, lower (lit s)) <$>
    SSH_MARKERS ++ SCHEMES ++ ["AKIA"; "ASIA"; "whsec_"; "eyJ"] ++ SESSION_PREFIXES
    ++ API_PREFIXES ++ ["bearer "; "@"].

Definition triggered (l : text) : Prop := ∃ p, p ∈ TRIGGERS ∧ (1 ≤ occ p (lower l))%nat.

Definition in_range (value : text) (span : Span) : Prop :=
  (0 < span.2)%nat ∧ (span.1 + span.2 ≤ length value)%nat.
Definition slice (value : text) (span : Span) : text := take span.2 (drop span.1 value).
Definition trigger_span (value : text) (span : Span) : Prop :=
  in_range value span ∧ triggered (slice value span).

Lemma triggers_not_empty p : p ∈ TRIGGERS → p ≠ [].
Proof.
  intros Hp ->. revert Hp. apply (bool_decide_unpack _). vm_compute. done.
Qed.

Lemma lower_take n l : lower (take n l) = take n (lower l).
Proof. apply fmap_take. Qed.
Lemma lower_drop n l : lower (drop n l) = drop n (lower l).
Proof. apply fmap_drop. Qed.
Lemma lower_app a b : lower (a ++ b) = lower a ++ lower b.
Proof. apply fmap_app. Qed.
Lemma length_lower l : length (lower l) = length l.
Proof. apply length_fmap. Qed.

(** A span that starts at its trigger and is at least as long. *)
Lemma trigger_span_at (p : string) value s n :
  lower (lit p) ∈ TRIGGERS →
  has_prefix (lower (lit p)) (drop s (lower value)) = true →
  (length (lit p) ≤ n)%nat → (s + n ≤ length value)%nat →
  trigger_span value (s, n).
Proof.
  intros Hp Hpre Hn Hlen. pose proof (triggers_not_empty _ Hp) as Hne.
  assert (0 < n)%nat.
  { destruct (lit p); simpl in *; [done|lia]. }
  split; [done|]. exists (lower (lit p)). split; [done|].
  unfold slice. cbn [fst snd]. rewrite lower_take, lower_drop.
  apply occ_has_prefix; [done|]. apply has_prefix_take; [done|]. by rewrite length_lower.
Qed.

(** A trigger found in a text leaves room for itself. *)
Lemma prefix_room p value s :
  p ≠ [] → has_prefix p (drop s value) = true → (s + length p ≤ length value)%nat.
Proof.
  intros Hne Hp. apply has_prefix_length in Hp. rewrite length_drop in Hp.
  destruct p; [done|]. simpl in *. lia.
Qed.

Lemma trigger_exact (p : string) value s n :
  lower (lit p) ∈ TRIGGERS → has_prefix (lit p) (drop s value) = true →
  (n ≤ length (drop (s + length (lit p)) value))%nat →
  trigger_span value (s, length (lit p) + n)%nat.
Proof.
  intros Hp Hpre Hn. rewrite length_drop in Hn.
  assert (lit p ≠ []) as Hne.
  { pose proof (triggers_not_empty _ Hp). by destruct (lit p). }
  pose proof (prefix_room _ _ _ Hne Hpre).
  apply trigger_span_at with p; [done| |lia|lia].
  rewrite <-lower_drop. by apply has_prefix_lower.
Qed.

Ltac in_triggers := apply (bool_decide_unpack _); vm_compute; exact I.

(** An end marker is neither at the start of its begin marker nor one byte after it. *)
Lemma ssh_markers_fit :
  Forall (λ '(m, end_m), lower (lit m) ∈ TRIGGERS ∧ length (lit m) = (length (lit end_m) + 2)%nat
    ∧ ∀ r, has_prefix (lit end_m) (lit m ++ r) = false
         ∧ has_prefix (lit end_m) (drop 1 (lit m ++ r)) = false) (zip SSH_MARKERS END_MARKERS).
Proof.
  repeat first [apply Forall_nil_2 | apply Forall_cons_2];
    (split; [in_triggers|split; [reflexivity|intros r; split; reflexivity]]).
Qed.

Lemma ssh_span_ok value span :
  find_ssh_private_key_span value = Some span → trigger_span value span.
Proof.
  unfold find_ssh_private_key_span. intros ((m & end_m) & Hin & Hf)%find_map_Some.
  destruct (proj1 (Forall_forall _ _) ssh_markers_fit _ Hin) as (Htr & Hlen & Hnot).
  destruct (find (lit m) value) as [start|] eqn:Hs; [|done]. simplify_eq/=.
  apply find_pos_Some in Hs as (Hlt & Hpre & _).
  assert (has_prefix (lower (lit m)) (drop start (lower value)) = true)
    by (rewrite <-lower_drop; by apply has_prefix_lower).
  pose proof (has_prefix_length _ _ Hpre) as Hroom. rewrite length_drop in Hroom.
  destruct (find (lit end_m) (drop start value)) as [e|] eqn:He.
  - apply find_pos_Some in He as (Hlte & Hpe & _).
    pose proof (has_prefix_length _ _ Hpe) as Hroome. rewrite !length_drop in Hroome; rewrite length_drop in Hlte.
    apply has_prefix_true in Hpre as (r & Hr). rewrite Hr in Hpe.
    destruct (Hnot r) as [H0 H1].
    destruct e as [|[|e]]; [by rewrite drop_0, H0 in Hpe|by rewrite H1 in Hpe|].
    apply trigger_span_at with m; [done..|lia|lia].
  - apply trigger_span_at with m; [done..|lia|lia].
Qed.

(** No byte of a scheme, in either case, ends a span of a database URL. *)
Lemma scheme_not_delimited (p : string) l j :
  p ∈ SCHEMES → has_prefix (lit p) (lower l) = true → (j < length (lit p))%nat →
  (at_space (drop j l) || at_one_of "'\,;" (drop j l) || bool_decide (head (drop j l) = Some (ascii_of_N 34)))
    = false.
Proof.
  intros Hp Hpre Hj.
  assert (∃ c r, drop j l = c :: r ∧ to_ascii_lower c ∈ lit p) as (c & r & -> & Hc).
  { pose proof (has_prefix_length _ _ Hpre) as Hl. rewrite length_lower in Hl.
    destruct (drop j l) as [|c r] eqn:Hd.
    { apply (f_equal length) in Hd. rewrite length_drop in Hd. simpl in Hd. lia. }
    exists c, r. split; [done|]. apply has_prefix_true in Hpre as (k & Hk).
    apply list_elem_of_lookup. exists j.
    assert (lower l !! j = Some (to_ascii_lower c)) as Hlk.
    { unfold lower. rewrite list_lookup_fmap, <-(Nat.add_0_r j), <-lookup_drop, Hd. done. }
    rewrite Hk, lookup_app_l in Hlk; done. }
  assert (∀ c, implb (existsb (λ p, bool_decide (to_ascii_lower c ∈ lit p)) SCHEMES)
            (negb (existsb (λ w, match lit w with a :: _ => Ascii.eqb a c | [] => true end) white_space
               || one_of "'\,;" c || bool_decide (c = ascii_of_N 34))) = true) as Hall.
  { clear. intros c. destruct c as [[] [] [] [] [] [] [] []]; vm_compute; reflexivity. }
  specialize (Hall c).
  assert (existsb (λ p, bool_decide (to_ascii_lower c ∈ lit p)) SCHEMES = true) as Hex.
  { apply existsb_exists. exists p. split; [by apply list_elem_of_In|by apply bool_decide_eq_true]. }
  rewrite Hex in Hall. cbn [implb] in Hall. breflect.
  assert (at_space (c :: r) = false) as Hsp.
  { unfold at_space. match goal with H : existsb _ white_space = false |- _ => rename H into Hw end.
    apply not_true_iff_false. intros (w & Hw1 & Hw2)%existsb_exists.
    apply not_true_iff_false in Hw. apply Hw. apply existsb_exists. exists w. split; [done|].
    destruct (lit w) as [|a k]; [done|]. cbn [has_prefix] in Hw2. by breflect. }
  cbn [at_one_of head]. rewrite Hsp. rewrite orb_false_iff, orb_false_iff. split_and!; [done|done|].
  apply bool_decide_eq_false. intros [= ->]. done.
Qed.

Lemma db_span_ok value span :
  find_database_url_span value = Some span → trigger_span value span.
Proof.
  unfold find_database_url_span.
  intros (p & Hp & (abs & Hpre & Ht)%first_occurrence_Some)%find_map_Some.
  destruct (has_credentials _); [|done]. simplify_eq.
  assert (lower (lit p) = lit p ∧ lower (lit p) ∈ TRIGGERS) as [Hl Htr].
  { apply (proj1 (Forall_forall (λ p, lower (lit p) = lit p ∧ lower (lit p) ∈ TRIGGERS) SCHEMES));
      [|done]. repeat first [apply Forall_nil_2 | apply Forall_cons_2];
      (split; [reflexivity|in_triggers]). }
  assert (lit p ≠ []) as Hne by (rewrite <-Hl; by apply triggers_not_empty).
  pose proof (prefix_room _ _ _ Hne Hpre) as Hroom. rewrite length_lower in Hroom.
  rewrite <-lower_drop in Hpre.
  match goal with |- trigger_span _ (_, find_or_len ?f ?l) =>
    pose proof (find_or_len_le f l) as Hle; rewrite length_drop in Hle;
    assert (length (lit p) ≤ find_or_len f l)%nat end.
  { apply find_or_len_ge; [rewrite length_drop; lia|]. intros j Hj.
    by apply scheme_not_delimited with p. }
  apply trigger_span_at with p; [done| |done|lia]. by rewrite Hl, <-lower_drop.
Qed.

Lemma cloud_span_ok value span :
  find_cloud_credential_span value = Some span → trigger_span value span.
Proof.
  unfold find_cloud_credential_span.
  intros (p & Hp & (abs & Hpre & Ht)%first_occurrence_Some)%find_map_Some.
  destruct (is_cloud_key _ _ _) eqn:Hk; [|done]. simplify_eq.
  apply trigger_exact; [|done|].
  - set_unfold in Hp. destruct Hp as [->|[->|[]]]; in_triggers.
  - unfold is_cloud_key in Hk. apply andb_prop in Hk as [[Hk _]%andb_prop _].
    apply Nat.eqb_eq in Hk. rewrite length_take in Hk. lia.
Qed.

Lemma webhook_span_ok value span :
  find_webhook_secret_span value = Some span → trigger_span value span.
Proof.
  unfold find_webhook_secret_span. intros (abs & Hpre & Ht)%first_occurrence_Some.
  cbv zeta in Ht. case_match; [|done]. simplify_eq.
  apply (trigger_exact "whsec_"); [in_triggers|done|apply run_length_le].
Qed.

Lemma session_span_ok value span :
  find_session_cookie_span value = Some span → trigger_span value span.
Proof.
  unfold find_session_cookie_span.
  destruct (first_occurrence (lit "eyJ") _ _ _) as [sp|] eqn:Ht.
  - intros [= <-]. apply first_occurrence_Some in Ht as (abs & Hpre & Ht).
    cbv zeta in Ht. case_match; [|done]. simplify_eq.
    apply (trigger_exact "eyJ"); [in_triggers|done|apply run_length_le].
  - intros (p & Hp & (abs & Hpre & Hs)%first_occurrence_Some)%find_map_Some.
    cbv zeta in Hs. case_match; [|done]. simplify_eq.
    apply trigger_exact; [|done|apply find_or_len_le].
    set_unfold in Hp. destruct Hp as [->|[->|[->|[->|[]]]]]; in_triggers.
Qed.

Lemma api_prefix_triggers : Forall (λ p, lower (lit p) ∈ TRIGGERS) API_PREFIXES.
Proof. repeat first [apply Forall_nil_2 | apply Forall_cons_2]; in_triggers. Qed.

Lemma api_span_ok value span :
  find_api_token_span value = Some span → trigger_span value span.
Proof.
  unfold find_api_token_span. destruct (find_prefixed_token_span value) as [sp|] eqn:Ht.
  - intros [= <-]. revert Ht. unfold find_prefixed_token_span.
    intros (p & Hp & (abs & Hpre & Ht)%first_occurrence_Some)%find_map_Some.
    cbv zeta in Ht. case_match; [|done]. simplify_eq.
    apply trigger_exact; [|done|apply run_length_le].
    by apply (proj1 (Forall_forall _ _) api_prefix_triggers).
  - intros (abs & Hpre & Hs)%first_occurrence_Some.
    cbv zeta in Hs. case_match; [|done]. simplify_eq.
    pose proof (find_or_len_le (λ l, at_space l || at_quote l) (drop (abs + 7) value)) as Hle.
    rewrite length_drop in Hle.
    pose proof (prefix_room (lit "bearer ") (lower value) abs ltac:(done) Hpre) as Hroom.
    rewrite length_lower in Hroom. cbn [length lit String.list_ascii_of_string] in Hroom.
    apply (trigger_span_at "bearer "); [in_triggers|done|cbn; lia|lia].
Qed.

Lemma length_trim_domain d : (length (trim_domain d) ≤ length d)%nat.
Proof. unfold trim_domain. rewrite length_take. lia. Qed.

Lemma email_at_range value idx s d :
  email_at value idx = Some (s, d) →
  (s < idx)%nat ∧ (length d ≤ length value - S idx)%nat.
Proof.
  unfold email_at. cbv zeta.
  pose proof (run_length_le is_user_char (reverse (take idx value))) as Hu.
  rewrite length_reverse, length_take in Hu.
  pose proof (run_length_le is_domain_char (drop (S idx) value)) as Hd.
  rewrite length_drop in Hd.
  destruct (_ =? 0)%nat eqn:Hz; [done|]. apply Nat.eqb_neq in Hz.
  destruct ((0 <? _)%nat && _); [done|]. destruct (is_separator _); [done|].
  destruct (bool_decide _ && _); [done|]. destruct (is_mail_domain _); [|done].
  intros [= <- <-].
  match goal with |- context [trim_domain ?x] => pose proof (length_trim_domain x) as Ht end.
  rewrite length_take in Ht. lia.
Qed.

Lemma email_span_ok value span :
  find_email_span value = Some span → trigger_span value span.
Proof.
  unfold find_email_span. intros (idx & Hidx & Hf)%find_map_Some.
  destruct (email_at value idx) as [[s d]|] eqn:He; [|done]. simplify_eq/=.
  apply email_at_range in He as [Hs Hd].
  assert (value !! idx = Some "@"%char) as Hat.
  { unfold positions in Hidx. apply list_elem_of_omap in Hidx as ([i x] & Hi & Hx).
    apply elem_of_imap_pair in Hi. destruct (Ascii.eqb_spec x "@"); naive_solver. }
  pose proof (lookup_lt_Some _ _ _ Hat) as Hlt.
  split; [split; cbn [fst snd]; lia|]. exists (lower (lit "@")). split; [in_triggers|].
  unfold slice. cbn [fst snd]. rewrite lower_take, lower_drop.
  set (l := take _ _).
  assert (l !! (idx - s)%nat = Some "@"%char) as Hl.
  { unfold l. rewrite lookup_take_lt by lia. rewrite lookup_drop.
    replace (s + (idx - s))%nat with idx by lia. unfold lower.
    by rewrite list_lookup_fmap, Hat. }
  apply take_drop_middle in Hl. rewrite <-Hl.
  etrans; [|apply occ_app]. etrans; [|apply Nat.le_add_l].
  apply occ_has_prefix; [done|]. done.
Qed.

(** ** Spans of environment secrets *)

(** What ends the value of an environment variable, or starts it. *)
Definition env_delims : text := ascii_of_N <$> [10; 13; 59; 32; 9; 34; 39; 61]%N.

(** The byte before the span and the byte after it are delimiters, and the span is not a
    placeholder. *)
Definition env_span_ok (value : text) (span : Span) : Prop :=
  in_range value span ∧ is_exact_placeholder (slice value span) = false
  ∧ (∃ a c, c ∈ env_delims ∧ take (span.1) value = a ++ [c])
  ∧ (drop (span.1 + span.2) value = []
     ∨ ∃ d b, d ∈ env_delims ∧ drop (span.1 + span.2) value = d :: b).

Lemma is_delim_elem c l : is_delim (c :: l) = true → c ∈ env_delims.
Proof.
  unfold is_delim. intros H. apply bool_decide_eq_true in H.
  unfold env_delims. apply list_elem_of_fmap. exists (N_of_ascii c).
  split; [by rewrite ascii_N_embedding|]. set_unfold. naive_solver.
Qed.

Lemma at_quote_elem c l : at_quote (c :: l) = true → c ∈ env_delims.
Proof.
  unfold at_quote. intros H. apply bool_decide_eq_true in H.
  unfold env_delims. apply list_elem_of_fmap. exists (N_of_ascii c).
  split; [by rewrite ascii_N_embedding|]. set_unfold. naive_solver.
Qed.

(** The unquoted value runs to a delimiter or to the end. *)
Lemma delim_boundary_end l :
  let n := find_or_len is_delim l in
  drop n l = [] ∨ ∃ d b, d ∈ env_delims ∧ drop n l = d :: b.
Proof.
  intros n. pose proof (find_or_len_le is_delim l) as Hle. fold n in Hle.
  destruct (drop n l) as [|d b] eqn:Hd; [by left|]. right. exists d, b. split; [|done].
  assert (n < length l)%nat.
  { apply (f_equal length) in Hd. rewrite length_drop in Hd. simpl in Hd. lia. }
  apply is_delim_elem with b. rewrite <-Hd. by apply find_or_len_at.
Qed.

Lemma has_suffix_singleton q l : has_suffix [q] l = true ↔ ∃ a, l = a ++ [q].
Proof.
  unfold has_suffix. rewrite has_prefix_true. split; intros [r Hr].
  - exists (reverse r). apply (f_equal reverse) in Hr. rewrite reverse_involutive in Hr.
    rewrite Hr, reverse_app, reverse_involutive. done.
  - exists (reverse r). rewrite Hr. apply reverse_app.
Qed.

Lemma find_byte q l i :
  find [q] l = Some i → ∃ r, drop i l = q :: r.
Proof. by intros (_ & (r & Hr)%has_prefix_true & _)%find_pos_Some; exists r. Qed.

Lemma drop_cons_take {A} (l : list A) i q r :
  drop i l = q :: r → (i < length l)%nat ∧ take (S i) l = take i l ++ [q] ∧ drop (S i) l = r.
Proof.
  intros Hd. assert (l !! i = Some q) as Hl.
  { rewrite <-(Nat.add_0_r i), <-lookup_drop, Hd. done. }
  split_and!; [by eapply lookup_lt_Some|by apply take_S_r|].
  by rewrite <-Nat.add_1_r, <-drop_drop, Hd.
Qed.

(** A value span starts at the [=] or after an opening quote and ends at a delimiter. *)
Lemma env_value_ok l off n :
  env_value l = Some (off, n) →
  (0 < n)%nat ∧ (off + n ≤ length l)%nat
  ∧ (off = 0%nat ∨ off = 1%nat ∧ ∃ q r, l = q :: r ∧ q ∈ env_delims)
  ∧ (drop (off + n) l = [] ∨ ∃ d b, d ∈ env_delims ∧ drop (off + n) l = d :: b).
Proof.
  unfold env_value. cbv zeta. pose proof (find_or_len_le is_delim l) as Hle.
  pose proof (delim_boundary_end l) as Hend. cbv zeta in Hend.
  destruct (at_quote l) eqn:Hq; cycle 1.
  { destruct (_ <? 8)%nat; [done|]. cbn [snd].
    destruct (Nat.eqb_spec (find_or_len is_delim l) 0) as [|Hnz]; [done|].
    intros [= <- <-]. split_and!; [lia|lia|by left|done]. }
  destruct l as [|q r]; [done|]. cbn [head].
  pose proof (at_quote_elem _ _ Hq) as Hqd. set (l := q :: r) in *.
  set (n' := match find [q] (drop 1 l) with
             | Some rel_close => (1 + rel_close + 1)%nat
             | None => find_or_len is_delim l end).
  destruct (n' <? 8)%nat eqn:H8; [done|]. apply Nat.ltb_ge in H8. cbn [snd].
  set (closed := ((2 <=? length (take n' l))%nat && has_suffix [q] (take n' l))%bool).
  destruct (_ =? 0)%nat eqn:Hnz; [done|]. apply Nat.eqb_neq in Hnz. intros [= <- <-].
  assert (n' ≤ length l ∧ (closed = true ∨
    drop n' l = [] ∨ ∃ d b, d ∈ env_delims ∧ drop n' l = d :: b))%nat as [Hn' Hcl].
  { unfold closed, n'. destruct (find [q] (drop 1 l)) as [rel|] eqn:Hf.
    - apply find_byte in Hf as (k & Hk). rewrite drop_drop in Hk.
      apply drop_cons_take in Hk as (Hlt & Htk & _).
      rewrite Nat.add_1_r. split; [lia|]. left. rewrite Htk, length_app, length_take.
      rewrite andb_true_iff. split; [apply Nat.leb_le; cbn; lia|].
      apply has_suffix_singleton. eauto.
    - split; [done|]. by right. }
  destruct closed eqn:Hc.
  - unfold closed in Hc. apply andb_prop in Hc as [_ (a & Ha)%has_suffix_singleton].
    pose proof (f_equal length Ha) as Hlen. rewrite length_take, length_app in Hlen.
    cbn [length] in Hlen.
    assert (drop (1 + (n' - 1 - 1)) l = q :: drop n' l) as Hd.
    { rewrite <-(take_drop n' l) at 1. rewrite Ha, <-app_assoc.
      rewrite drop_app_ge by lia.
      replace (1 + (n' - 1 - 1) - length a)%nat with 0%nat by lia. done. }
    split_and!; [lia|lia|right; eauto|]. right. eauto.
  - destruct Hcl as [|Hcl]; [done|]. rewrite Nat.sub_0_r in *.
    replace (1 + (n' - 1))%nat with n' by lia.
    split_and!; [lia|lia|right; eauto|done].
Qed.

Lemma positions_lookup c l i : i ∈ positions c l → l !! i = Some c.
Proof.
  unfold positions. intros ([j x] & Hi & Hx)%list_elem_of_omap.
  apply elem_of_imap_pair in Hi. destruct (Ascii.eqb_spec x c); naive_solver.
Qed.

Lemma env_span_in value span :
  find_env_secret_span value = Some span → env_span_ok value span.
Proof.
  unfold find_env_secret_span. intros (e & He%positions_lookup & Hs)%find_map_Some.
  unfold env_span_at in Hs. cbv zeta in Hs.
  destruct (negb _); [done|]. destruct (_ <=? _)%nat eqn:Hl; [done|].
  apply Nat.leb_gt in Hl.
  destruct (env_value (drop (S e) value)) as [[off n]|] eqn:Hv; [|done]. cbn in Hs.
  destruct (is_exact_placeholder _) eqn:Hex; [done|]. simplify_eq.
  apply env_value_ok in Hv as (H0 & Hle & Hoff & Hend). rewrite length_drop in Hle.
  rewrite drop_drop, Nat.add_assoc in Hend.
  split; [split; cbn [fst snd]; lia|]. split; [done|]. split; [|done].
  apply take_S_r in He. cbn [fst]. destruct Hoff as [->|(-> & q & r & Hq & Hqd)].
  - rewrite Nat.add_0_r, He. eexists _, _. split; [|done]. apply (bool_decide_unpack _).
    vm_compute. done.
  - apply drop_cons_take in Hq as (_ & Hq & _). rewrite Nat.add_1_r, Hq. eauto.
Qed.

(** ** Termination of the redaction loop *)

(** What the loop relies on of a placeholder: it is one for the span matcher, it overlaps
    neither a trigger nor the delimiters of a value, nor itself. *)
Class Placeholder (ph : text) : Prop := {
  ph_exact : is_exact_placeholder ph = true;
  ph_self r : occ ph (ph ++ r) = S (occ ph r);
  ph_env_delims : Forall (λ c, c ∉ ph) env_delims;
  ph_triggers : ∃ c mid d, ph = c :: mid ++ [d]
    ∧ Forall (λ p, (to_ascii_lower c ∉ p) ∧ (to_ascii_lower d ∉ p) ∧ occ p (lower mid) = 0%nat) TRIGGERS
}.

Ltac solve_placeholder mid0 :=
  split; [reflexivity|reflexivity|apply (bool_decide_unpack _); vm_compute; exact I|];
  eexists _, mid0, _; split; [reflexivity|];
  apply (bool_decide_unpack _); vm_compute; exact I.

#[export] Instance redacted_secret_placeholder : Placeholder REDACTED_SECRET.
Proof. solve_placeholder (lit "REDACTED:secret"). Qed.

#[export] Instance redaction_marker_placeholder : Placeholder REDACTION_MARKER.
Proof. solve_placeholder (ascii_of_N 171 :: lit "redacted:secret" ++ [ascii_of_N 194]). Qed.

Section Loop.
Context (ph : text) `{!Placeholder ph}.

Lemma ph_not_empty : ph ≠ [].
Proof using Type*. by destruct ph_triggers as (c & mid & d & -> & _). Qed.

(** The triggers a text holds. *)
Definition weight (l : text) : nat := sum_list ((λ p, occ p (lower l)) <$> TRIGGERS).

Lemma sum_list_fmap_le {A} (f g : A → nat) l :
  (∀ x, x ∈ l → f x ≤ g x)%nat → (sum_list (f <$> l) ≤ sum_list (g <$> l))%nat.
Proof using.
  induction l as [|x l IH]; intros H; [done|]. rewrite !fmap_cons.
  specialize (H x ltac:(by left)) as Hx. specialize (IH ltac:(intros; apply H; by right)).
  cbn in *. lia.
Qed.

Lemma sum_list_fmap_add {A} (f g : A → nat) l :
  sum_list ((λ x, f x + g x)%nat <$> l) = (sum_list (f <$> l) + sum_list (g <$> l))%nat.
Proof using. induction l as [|x l IH]; [done|]. cbn in *. lia. Qed.

Lemma weight_app a b : (weight a + weight b ≤ weight (a ++ b))%nat.
Proof using.
  unfold weight. rewrite <-sum_list_fmap_add. apply sum_list_fmap_le.
  intros p _. rewrite lower_app. apply occ_app.
Qed.

(** Putting a placeholder between two texts adds no trigger. *)
Lemma weight_placeholder a b : weight (a ++ ph ++ b) = (weight a + weight b)%nat.
Proof using Type*.
  destruct ph_triggers as (c & mid & d & -> & Htr). unfold weight.
  rewrite <-sum_list_fmap_add. f_equal. apply list_fmap_ext. intros i p Hp%list_elem_of_lookup_2.
  destruct (proj1 (Forall_forall _ _) Htr p Hp) as (Hc & Hd & Hmid).
  pose proof (triggers_not_empty _ Hp) as Hne. rewrite !lower_app.
  change (lower (c :: mid ++ [d])) with (to_ascii_lower c :: lower (mid ++ [d])).
  rewrite lower_app. change (lower [d]) with [to_ascii_lower d].
  cbn [app]. rewrite <-app_assoc. cbn [app].
  rewrite occ_split by done. rewrite occ_split by done. lia.
Qed.

Lemma weight_triggered l : triggered l → (1 ≤ weight l)%nat.
Proof using.
  intros (p & Hp & Hocc). unfold weight.
  apply list_elem_of_split in Hp as (l1 & l2 & ->).
  rewrite fmap_app, fmap_cons, sum_list_with_app. cbn. lia.
Qed.

(** Copies of the placeholder do not overlap. *)
Lemma occ_size l : (length ph * occ ph l ≤ length l)%nat.
Proof using Type*.
  pose proof ph_not_empty as Hne.
  induction l as [l IH] using (induction_ltof1 _ length). unfold ltof in IH.
  destruct (has_prefix ph l) eqn:Hp.
  - apply has_prefix_true in Hp as (r & ->). rewrite ph_self, length_app.
    assert (length r < length (ph ++ r))%nat as Hlt.
    { rewrite length_app. destruct ph; [done|]. cbn. lia. }
    specialize (IH r Hlt). lia.
  - destruct l as [|x l]; [cbn; lia|]. cbn [occ]. rewrite Hp.
    specialize (IH l ltac:(cbn; lia)). cbn [length]. lia.
Qed.

(** Next to a delimiter the copies on the two sides count apart. *)
Lemma occ_delimited a c m b :
  c ∉ ph → (b = [] ∨ ∃ d b', (d ∉ ph) ∧ b = d :: b') →
  occ ph ((a ++ [c]) ++ m ++ b) = (occ ph a + occ ph m + occ ph (tail b))%nat.
Proof using Type*.
  intros Hc Hb. rewrite <-app_assoc. cbn [app]. rewrite occ_split by (done || apply ph_not_empty).
  destruct Hb as [->|(d & b' & Hd & ->)].
  - rewrite app_nil_r. cbn. lia.
  - rewrite occ_split by (done || apply ph_not_empty). cbn [tail]. lia.
Qed.

Definition slack (l : text) : nat := (length l - length ph * occ ph l)%nat.

Definition replace (v : text) (span : Span) : text :=
  take span.1 v ++ ph ++ drop (span.1 + span.2) v.

Lemma split_at_span v span :
  in_range v span → v = take span.1 v ++ slice v span ++ drop (span.1 + span.2) v.
Proof using.
  intros _. unfold slice. rewrite <-drop_drop, take_drop. by rewrite take_drop.
Qed.

Lemma trigger_step v span :
  trigger_span v span → (weight (replace v span) < weight v)%nat.
Proof using Type*.
  intros [Hr Ht]. unfold replace. rewrite weight_placeholder.
  rewrite (split_at_span v span Hr) at 3. apply weight_triggered in Ht.
  pose proof (weight_app (take span.1 v) (slice v span ++ drop (span.1 + span.2) v)).
  pose proof (weight_app (slice v span) (drop (span.1 + span.2) v)). lia.
Qed.

Lemma env_step_weight v span :
  in_range v span → (weight (replace v span) ≤ weight v)%nat.
Proof using Type*.
  intros Hr. unfold replace. rewrite weight_placeholder.
  rewrite (split_at_span v span Hr) at 3.
  pose proof (weight_app (take span.1 v) (slice v span ++ drop (span.1 + span.2) v)).
  pose proof (weight_app (slice v span) (drop (span.1 + span.2) v)). lia.
Qed.

Lemma env_step_slack v span :
  env_span_ok v span →
  (slack (replace v span) < slack v
   ∨ slack (replace v span) = slack v ∧ occ ph (replace v span) < occ ph v)%nat.
Proof using Type*.
  intros (Hr & Hex & (a & c & Hc & Ha) & Hb). unfold replace.
  pose proof (proj1 (Forall_forall _ _) ph_env_delims) as Hdel. cbn beta in Hdel.
  assert (drop (span.1 + span.2) v = []
          ∨ ∃ d b, (d ∉ ph) ∧ drop (span.1 + span.2) v = d :: b) as Hb'.
  { destruct Hb as [|(d & b & Hd & ?)]; [by left|right]. eauto. }
  specialize (Hdel c Hc) as Hcp.
  assert (occ ph v = (occ ph a + occ ph (slice v span)
                      + occ ph (tail (drop (span.1 + span.2) v)))%nat) as Hv.
  { rewrite (split_at_span v span Hr) at 1. rewrite Ha. by apply occ_delimited. }
  assert (occ ph ((a ++ [c]) ++ ph ++ drop (span.1 + span.2) v)
          = (occ ph a + 1 + occ ph (tail (drop (span.1 + span.2) v)))%nat) as Hv'.
  { rewrite occ_delimited by done. rewrite <-(app_nil_r ph) at 3. by rewrite ph_self. }
  pose proof (occ_size (slice v span)) as Hs. pose proof (occ_size v) as Hsv.
  pose proof (f_equal length (split_at_span v span Hr)) as Hlen. rewrite !length_app, Ha in Hlen.
  assert (0 < length (slice v span))%nat as Hpos.
  { unfold slice. rewrite length_take, length_drop. destruct Hr. lia. }
  pose proof (occ_size ((a ++ [c]) ++ ph ++ drop (span.1 + span.2) v)) as Hsv'.
  unfold slack. rewrite Ha, Hv', Hv in *. rewrite !length_app in *.
  assert (occ ph (slice v span) = 1%nat → length ph = length (slice v span) → False) as Hno.
  { intros H1 H2. assert (slice v span = ph) as Heq; [|by rewrite Heq, ph_exact in Hex].
    destruct (occ_pos_inv ph (slice v span)) as (i & Hi & Hp); [lia|].
    pose proof (has_prefix_length _ _ Hp) as Hlp. rewrite length_drop in Hlp.
    assert (i = 0%nat) as -> by lia. rewrite drop_0 in Hp.
    apply has_prefix_true in Hp as (r & Hp). rewrite Hp, length_app in H2.
    destruct r; [by rewrite app_nil_r in Hp|cbn in H2; lia]. }
  rewrite !Nat.mul_add_distr_l, Nat.mul_1_r in *.
  destruct (occ ph (slice v span)) as [|[|k]]; [lia|specialize (Hno eq_refl); lia|].
  destruct (decide (length ph * S (S k) < length (slice v span))%nat); [left|right]; lia.
Qed.

Lemma detect_span_ok v class span :
  detect_secret_span v = Some (class, span) → trigger_span v span ∨ env_span_ok v span.
Proof using.
  unfold detect_secret_span. cbv zeta. cbn [find_map id].
  intros H. repeat match type of H with
  | match pair _ <$> ?o with _ => _ end = _ =>
      let E := fresh in destruct o eqn:E; cbn in H; [simplify_eq|]
  end; [left|left|left|left|left|left|left|right|done].
  - by apply ssh_span_ok.
  - by apply db_span_ok.
  - by apply cloud_span_ok.
  - by apply webhook_span_ok.
  - by apply session_span_ok.
  - by apply api_span_ok.
  - by apply email_span_ok.
  - by apply env_span_in.
Qed.

Lemma detect_span_in_range v class span :
  detect_secret_span v = Some (class, span) → in_range v span.
Proof using. intros [[H _]|[H _]]%detect_span_ok; exact H. Qed.

(** A detected span is never the placeholder itself. *)
Lemma span_not_placeholder v class span :
  detect_secret_span v = Some (class, span) → slice v span ≠ ph.
Proof using Type*.
  intros [[_ Ht]|(_ & Hex & _)]%detect_span_ok Heq.
  - apply weight_triggered in Ht. rewrite Heq in Ht.
    pose proof (weight_placeholder [] []) as Hw. rewrite app_nil_r in Hw. cbn [app] in Hw.
    rewrite Hw in Ht. change (weight []) with (sum_list ((λ _, 0%nat) <$> TRIGGERS)) in Ht.
    vm_compute in Ht. lia.
  - rewrite Heq, ph_exact in Hex. done.
Qed.

(** One replacement: the first secret the span matchers report. *)
Definition redact_step (v v' : text) : Prop :=
  ∃ class span, detect_secret_span v = Some (class, span) ∧ v' = replace v span.

Definition total (counts : Counts) : nat :=
  (counts SecretClass.ApiToken + counts SecretClass.SshPrivateKey + counts SecretClass.DatabaseUrl
   + counts SecretClass.CloudCredential + counts SecretClass.WebhookSecret
   + counts SecretClass.SessionCookie + counts SecretClass.EnvSecret + counts SecretClass.Email)%nat.

Lemma total_bump class counts : total (bump class counts) = S (total counts).
Proof using. destruct class; unfold total, bump; repeat case_bool_decide; try done; lia. Qed.

Lemma redact_loop_terminates v counts :
  ∃ n k out counts', (∀ fuel, (n ≤ fuel)%nat → redact_loop fuel ph v counts 0 = Some (out, counts'))
    ∧ detect_secret_span out = None ∧ nsteps redact_step k v out
    ∧ total counts' = (k + total counts)%nat.
Proof using Type*.
  remember (weight v) as w eqn:Hw. revert v Hw counts.
  induction w as [w IHw] using lt_wf_ind. intros v. remember (slack v) as s eqn:Hs.
  revert v Hs. induction s as [s IHs] using lt_wf_ind. intros v.
  remember (occ ph v) as c eqn:Hc. revert v Hc. induction c as [c IHc] using lt_wf_ind.
  intros v Hc Hs Hw counts. subst.
  destruct (detect_secret_span v) as [[class [st len]]|] eqn:Hd; cycle 1.
  { exists 0%nat, 0%nat, v, counts. split_and!; [|done|constructor|done].
    intros [|fuel] _; cbn [redact_loop]; rewrite drop_0, Hd; done. }
  assert (∃ n k out counts', (∀ fuel, (n ≤ fuel)%nat →
      redact_loop fuel ph (replace v (st, len)) (bump class counts) 0 = Some (out, counts'))
      ∧ detect_secret_span out = None ∧ nsteps redact_step k (replace v (st, len)) out
      ∧ total counts' = (k + total (bump class counts))%nat)
    as (n & k & out & counts' & Hrun & Hout & Hst & Htot).
  { destruct (detect_span_ok _ _ _ Hd) as [Ht|He].
    - eapply IHw; [|done]. by apply trigger_step.
    - pose proof (env_step_weight v (st, len) (proj1 He)) as Hwle.
      destruct (decide (weight (replace v (st, len)) < weight v)%nat) as [Hlt|Hge].
      { by eapply IHw. }
      assert (weight (replace v (st, len)) = weight v) as Heq by lia.
      destruct (env_step_slack v (st, len) He) as [Hlt|[Hseq Hlt]].
      + by eapply IHs.
      + by eapply IHc. }
  exists (S n), (S k), out, counts'. split_and!; [|done| |].
  - intros [|fuel] Hfuel; [lia|]. cbn [redact_loop]. rewrite drop_0, Hd. cbn [Nat.add].
    rewrite bool_decide_eq_false_2; [apply Hrun; lia|].
    rewrite <-take_drop_commute. by apply (span_not_placeholder _ _ _ Hd).
  - econstructor; [|done]. by exists class, (st, len).
  - rewrite Htot, total_bump. lia.
Qed.

End Loop.

(** C4: [redact_code_text] with either of the two placeholders its callers use ends, with a
    text in which the span matchers find no secret; the text is reached by replacing one
    detected span at a time, each replacement is counted once, and redacting the result again
    changes and counts nothing. *)
Theorem redaction_ends_clean (ph value : text) (Hph : ph ∈ [REDACTED_SECRET; REDACTION_MARKER]) :
  ∃ n k out counts,
    (∀ fuel, (n ≤ fuel)%nat → redact_code_text fuel value ph = Some (out, counts))
    ∧ detect_secret_span out = None
    ∧ nsteps (redact_step ph) k value out ∧ total counts = k
    ∧ ∀ fuel, redact_code_text fuel out ph = Some (out, no_counts).
Proof.
  assert (Placeholder ph).
  { set_unfold in Hph. destruct Hph as [->|[->|[]]]; apply _. }
  destruct (redact_loop_terminates ph value no_counts)
    as (n & k & out & counts & Hrun & Hout & Hst & Htot).
  exists n, k, out, counts. split_and!; [done..|by rewrite Htot; apply Nat.add_0_r|].
  intros [|fuel]; unfold redact_code_text; cbn [redact_loop]; by rewrite drop_0, Hout.
Qed.

Lemma redaction_ends_clean_witness :
  ∃ n out counts,
    redact_code_text n (lit "TOKEN=whsec_abcdefghijklmnopqrstuv") REDACTED_SECRET = Some (out, counts)
    ∧ detect_secret_span out = None.
Proof.
  destruct (redaction_ends_clean REDACTED_SECRET (lit "TOKEN=whsec_abcdefghijklmnopqrstuv"))
    as (n & k & out & counts & Hrun & Hout & _); [by left|].
  exists n, out, counts. split; [exact (Hrun n (le_n n))|exact Hout].
Defined.

(** Every span the detector reports is non-empty and lies inside the text, so the slice
    and the replacement of [redact_code_text] never leave it. *)
Theorem spans_in_range (v : text) (class : SecretClass.t) (start len : nat)
    (Hd : detect_secret_span v = Some (class, (start, len))) :
  (0 < len)%nat ∧ (start + len ≤ length v)%nat.
Proof. exact (detect_span_in_range _ _ _ Hd). Qed.

Lemma spans_in_range_witness :
  let v := lit "mail bob@example.com" in
  detect_secret_span v = Some (SecretClass.Email, (5, 15)%nat) ∧ (5 + 15 ≤ length v)%nat.
Proof.
  assert (detect_secret_span (lit "mail bob@example.com") = Some (SecretClass.Email, (5, 15)%nat))
    as Hd by (vm_compute; reflexivity).
  split; [exact Hd|]. exact (proj2 (spans_in_range _ _ _ _ Hd)).
Defined.

(** ** The two families of matchers *)

Lemma occurrences_is_some {A B} fuel pat step hay (t : nat → option A) (t' : nat → option B) from :
  (∀ abs, is_Some (t abs) → is_Some (t' abs)) →
  is_Some (occurrences fuel pat step hay t from) →
  is_Some (occurrences fuel pat step hay t' from).
Proof.
  intros Ht. revert from. induction fuel as [|fuel IH]; intros from; cbn [occurrences]; [done|].
  destruct (find pat (drop from hay)) as [rel|]; [|done]. specialize (Ht (from + rel)%nat).
  destruct (t' (from + rel)%nat) as [b|] eqn:Hb; [done|].
  destruct (t (from + rel)%nat) as [a|] eqn:Ha.
  - destruct Ht; [done|congruence].
  - case_match; [done|]. apply IH.
Qed.

Lemma find_map_is_some {A B C} (f : A → option B) (g : A → option C) l :
  (∀ x, is_Some (f x) → is_Some (g x)) → is_Some (find_map f l) → is_Some (find_map g l).
Proof.
  intros H. induction l as [|x l IH]; cbn [find_map]; [done|]. specialize (H x).
  destruct (f x) eqn:Hf; [|destruct (g x); eauto].
  intros _. destruct H as [y ->]; [by eauto|]. by eexists.
Qed.

(** Fewer delimiters, longer runs. *)
Lemma find_or_len_mono (f g : text → bool) l :
  (∀ k, f k = true → g k = true) → (find_or_len g l ≤ find_or_len f l)%nat.
Proof.
  intros H. apply find_or_len_ge; [apply find_or_len_le|]. intros j Hj.
  apply find_or_len_before in Hj. destruct (f (drop j l)) eqn:E; [|done].
  apply H in E. congruence.
Qed.

(** The matchers that only detect and those that return a span search alike: the span of
    every class but three starts exactly where the detector reports the secret, and a session
    cookie or API token that has a span is detected. *)
Theorem span_matchers_agree (v : text) :
  find_ssh_private_key v = fst <$> find_ssh_private_key_span v
  ∧ find_database_url v = fst <$> find_database_url_span v
  ∧ find_cloud_credential v = fst <$> find_cloud_credential_span v
  ∧ find_webhook_secret v = fst <$> find_webhook_secret_span v
  ∧ find_prefixed_token v = fst <$> find_prefixed_token_span v
  ∧ find_email v = fst <$> find_email_span v
  ∧ (is_Some (find_session_cookie_span v) → is_Some (find_session_cookie v))
  ∧ (is_Some (find_api_token_span v) → is_Some (find_api_token v)).
Proof.
  split_and!.
  - unfold find_ssh_private_key, find_ssh_private_key_span.
    change SSH_MARKERS with (fst <$> zip SSH_MARKERS END_MARKERS) at 1.
    generalize (zip SSH_MARKERS END_MARKERS). intros l.
    induction l as [|[m e] l IH]; [done|]. rewrite fmap_cons. cbn [find_map fst].
    destruct (find (lit m) v) as [st|]; [|exact IH]. cbn. by destruct (find _ _).
  - apply find_map_fmap. intros p _. apply first_occurrence_fmap. intros abs. by case_match.
  - apply find_map_fmap. intros p _. apply first_occurrence_fmap. intros abs. by case_match.
  - apply first_occurrence_fmap. intros abs. cbv zeta. by case_match.
  - apply find_map_fmap. intros p _. apply first_occurrence_fmap. intros abs. cbv zeta.
    by case_match.
  - apply find_map_fmap. intros idx _. by destruct (email_at v idx) as [[]|].
  - unfold find_session_cookie_span, find_session_cookie.
    match goal with |- is_Some (match ?a with _ => _ end) → is_Some (match ?b with _ => _ end) =>
      assert (b = fst <$> a) as -> by
        (apply first_occurrence_fmap; intros abs; cbv zeta; by case_match) end.
    destruct (first_occurrence (lit "eyJ") _ _ _); [done|]. cbn [fmap option_fmap option_map].
    apply find_map_is_some. intros p. apply occurrences_is_some. intros abs. cbv zeta.
    pose proof (find_or_len_mono (λ l, at_space l || at_one_of ";," l)
      (λ l, at_space l || at_one_of ";," l || at_quote l) (drop (abs + length (lit p)) v)) as Hm.
    case_match; [|by intros [? ?]]. intros _. apply Nat.leb_le in H.
    assert ((8 <=? find_or_len (λ l, at_space l || at_one_of ";," l) (drop (abs + length (lit p)) v))%nat
            = true) as ->; [|by eexists].
    apply Nat.leb_le. etrans; [done|]. apply Hm. intros k ->. done.
  - unfold find_api_token_span, find_api_token.
    assert (find_prefixed_token v = fst <$> find_prefixed_token_span v) as ->.
    { apply find_map_fmap. intros p _. apply first_occurrence_fmap. intros abs. cbv zeta.
      by case_match. }
    destruct (find_prefixed_token_span v); [done|]. cbn [fmap option_fmap option_map].
    apply occurrences_is_some. intros abs. cbv zeta.
    pose proof (find_or_len_mono at_space (λ l, at_space l || at_quote l) (drop (abs + 7) v)) as Hm.
    case_match; [|by intros [? ?]]. intros _. apply Nat.leb_le in H.
    assert ((20 <=? find_or_len at_space (drop (abs + 7) v))%nat = true) as ->; [|by eexists].
    apply Nat.leb_le. etrans; [done|]. apply Hm. intros k ->. done.
Qed.

(** A session cookie in quotes is detected, but its span would be empty, so it stays in the
    text; so does a token after [Bearer] in quotes. *)
Definition quoted_cookie : text :=
  lit "session=" ++ [ascii_of_N 34] ++ lit "0123456789abcdef" ++ [ascii_of_N 34].

Example quoted_cookie_survives :
  detect_secret quoted_cookie = Some (SecretClass.SessionCookie, 0%nat)
  ∧ redact_code_text 1 quoted_cookie REDACTED_SECRET = Some (quoted_cookie, no_counts).
Proof. split; vm_compute; reflexivity. Qed.
(** ** Calm text: nothing any matcher starts from *)
Definition calm (v : text) : Prop :=
  (∀ p, p ∈ TRIGGERS → occ p (lower v) = 0%nat) ∧ (("="%char : ascii) ∉ v).

Section Calm.
Context (v : text) (Hcalm : calm v).

Lemma calm_lower (s : string) :
  lower (lit s) ∈ TRIGGERS → lower (lit s) = lit s → occ (lit s) (lower v) = 0%nat ∧ lit s ≠ [].
Proof using Hcalm.
  intros Hs Hl. rewrite <-Hl. split; [by apply (proj1 Hcalm)|by apply triggers_not_empty].
Qed.

Lemma calm_exact (s : string) :
  lower (lit s) ∈ TRIGGERS → occ (lit s) v = 0%nat ∧ lit s ≠ [].
Proof using Hcalm.
  intros Hs. split.
  - pose proof (occ_lower (lit s) v). rewrite (proj1 Hcalm) in *; [lia|done].
  - pose proof (triggers_not_empty _ Hs) as Hne. by destruct (lit s).
Qed.

Lemma calm_no_at : ("@"%char : ascii) ∉ v.
Proof using Hcalm.
  intros Hin. destruct (calm_exact "@") as [Ho _]; [in_triggers|].
  apply list_elem_of_split in Hin as (a & b & ->).
  pose proof (occ_app (lit "@") a ("@"%char :: b)) as Happ.
  pose proof (occ_has_prefix (lit "@") ("@"%char :: b) ltac:(done) ltac:(reflexivity)). lia.
Qed.

(** Decides [lower (lit p) ∈ TRIGGERS] for each [p] of a closed list. *)
Ltac each_trigger :=
  match goal with
  | Hx : ?p ∈ ?l |- lower (lit ?p) ∈ TRIGGERS =>
      apply (proj1 (Forall_forall (λ p, lower (lit p) ∈ TRIGGERS) l)); [|exact Hx];
      in_triggers
  | |- _ => in_triggers
  end.

Lemma calm_not_detected : detect_secret v = None.
Proof using Hcalm.
  unfold detect_secret. cbv zeta.
  assert (∀ A step (test : nat → option A) s, lower (lit s) ∈ TRIGGERS →
            first_occurrence (lit s) step v test = None) as Hex.
  { intros A step test s [Ho Hne]%calm_exact. by apply first_occurrence_None. }
  assert (find_ssh_private_key v = None) as ->.
  { apply find_map_None. intros m Hm. apply find_None_occ; apply calm_exact; each_trigger. }
  assert (find_database_url v = None) as ->.
  { apply find_map_None. intros p Hp. apply first_occurrence_None; apply calm_lower;
      try each_trigger;
      apply (proj1 (Forall_forall (λ p, lower (lit p) = lit p) SCHEMES)); [|exact Hp| |exact Hp];
      apply (bool_decide_unpack _); vm_compute; exact I. }
  assert (find_cloud_credential v = None) as ->.
  { apply find_map_None. intros p Hp. apply Hex. each_trigger. }
  assert (find_webhook_secret v = None) as -> by (apply Hex; in_triggers).
  assert (find_session_cookie v = None) as ->.
  { unfold find_session_cookie. rewrite Hex by in_triggers. apply find_map_None.
    intros p Hp. apply Hex. each_trigger. }
  assert (find_api_token v = None) as ->.
  { unfold find_api_token.
    assert (find_prefixed_token v = None) as ->.
    { apply find_map_None. intros p Hp. apply Hex. each_trigger. }
    apply first_occurrence_None; apply calm_lower; (in_triggers || reflexivity). }
  unfold find_email, find_env_secret.
  rewrite (positions_None _ _ calm_no_at), (positions_None _ _ (proj2 Hcalm)). done.
Qed.

End Calm.

End SecretSpans.
