(* ===== verification/Redaction.v ===== *)
(** * Redaction policy and persistence gate ([src/src/redaction.rs])

    The markers that replace a secret value and their parser, the gate that keeps a record
    with a raw secret out of the store, and the pass that masks the text of a scanned code
    graph. [blake3_hex] is the external hasher: the lower-case hexadecimal digest of the
    bytes it is given. *)
From S2P Require Import Prelude RustStr Ir IrOps SecretPatterns SecretSpans.
From Stdlib Require Import Ascii NArith.

Module Redaction.
Export SecretSpans.

(* error.rs 165-186: CodegraphError::RedactionRequired, RedactionMetadataMissing *)
Inductive CodegraphError : Type :=
| RedactionRequired (field_path : string)
| RedactionMetadataMissing (field_path : string).

Definition MARKER_PREFIX : text := lit "<REDACTED:".

(* redaction.rs 132-134: is_redacted *)
Definition is_redacted (value : string) : bool := contains (lit value) MARKER_PREFIX.

Definition is_lower_hex (c : ascii) : bool := between 48 57 c || between 97 102 c.

(** The class and the hash between [<REDACTED:] and [>]. *)
(* redaction.rs 159-166: parse_redaction_markers *)
Definition marker_of (inner : text) : option (SecretClass.t * text) :=
  let?o colon := find (lit ":") inner in
  let hash_prefix := drop (S colon) inner in
  let?o class := SecretClass.from_name (of_text (take colon inner)) in
  if (length hash_prefix =? HASH_PREFIX_LEN)%nat && forallb is_lower_hex hash_prefix
  then Some (class, hash_prefix) else None.

(** Every round moves at least ten bytes on, so the length of the text is fuel enough. *)
(* redaction.rs 150-174: parse_redaction_markers *)
Fixpoint parse_loop (fuel : nat) (value : text) (search_from : nat) : list (SecretClass.t * text) :=
  match fuel with
  | 0%nat => []
  | S fuel' =>
      match find MARKER_PREFIX (drop search_from value) with
      | None => []
      | Some rel =>
          let body_from := (search_from + rel + length MARKER_PREFIX)%nat in
          let body := drop body_from value in
          match find (lit ">") body with
          | None => []
          | Some e =>
              match marker_of (take e body) with
              | Some m => m :: parse_loop fuel' value (body_from + e + 1)
              | None => parse_loop fuel' value body_from
              end
          end
      end
  end.

(* redaction.rs 150-175: parse_redaction_markers *)
Definition parse_redaction_markers (value : text) : list (SecretClass.t * text) :=
  parse_loop (S (length value)) value 0.

(** [format!("<REDACTED:{}:{}>", class.as_str(), prefix)]. *)
(* redaction.rs 205-205: redact_value *)
Definition marker (class : SecretClass.t) (prefix : text) : text :=
  MARKER_PREFIX ++ lit (SecretClass.as_str class) ++ lit ":" ++ prefix ++ lit ">".

(** [&mut self] of the three text fields a code-graph node carries. *)
(* redaction.rs 1310-1336: redact_node_text_fields *)
Definition redact_node_text_fields (fuel : nat) (placeholder : text) (summary : string)
    (signature doc : option string) : option (string * option string * option string * Counts) :=
  let redact s := redact_code_text fuel (lit s) placeholder in
  let redact_opt (o : option string) : option (option string * Counts) :=
    match o with
    | None => Some (None, no_counts)
    | Some s => match redact s with Some (t, c) => Some (Some (of_text t), c) | None => None end
    end in
  match redact summary, redact_opt signature, redact_opt doc with
  | Some (s, c1), Some (sig, c2), Some (d, c3) =>
      Some (of_text s, sig, d, add_counts (add_counts c1 c2) c3)
  | _, _, _ => None
  end.

(* redaction.rs 275-297: is_code_graph_kind *)
Definition is_code_graph_kind (kind : NodeKind.t) : bool :=
  match kind with
  | NodeKind.Repository | NodeKind.File | NodeKind.Module | NodeKind.Symbol | NodeKind.Import
  | NodeKind.Diagnostic | NodeKind.PanicRiskSite | NodeKind.DebtMarker | NodeKind.UnsafeSite
  | NodeKind.LintSuppression | NodeKind.ScanCoverage | NodeKind.HistoryReplayWindow
  | NodeKind.HistoryReplayTip | NodeKind.Commit | NodeKind.Change | NodeKind.SemanticDrift
  | NodeKind.EmbeddingModel | NodeKind.EmbeddingVector => true
  | _ => false
  end.

(** [add]: a field that is present. *)
(* redaction.rs 409-413: add *)
Definition add (path : string) (value : option string) : list (string * string) :=
  match value with Some v => [(path, v)] | None => [] end.

Definition items (path : string) (l : option (list string)) : list (string * string) :=
  imap (λ i item, (path +:+ "[" +:+ dec (N.of_nat i) +:+ "]", item)) (default [] l).

Definition output_inline (h : option OutputHandle.t) : option string :=
  h ≫= OutputHandle.inline.

(* redaction.rs 312-406: sensitive_fields *)
Definition sensitive_fields (record : GraphRecord) : list (string * string) :=
  match record with
  | Node n =>
      let u := n.(NodeRec.user_context) in
      add "text" n.(NodeRec.text)
      ++ add "validation_summary" n.(NodeRec.validation_summary)
      ++ add "arguments_summary" n.(NodeRec.arguments_summary)
      ++ add "arguments_handle.inline" (output_inline n.(NodeRec.arguments_handle))
      ++ add "result_handle.inline" (output_inline n.(NodeRec.result_handle))
      ++ add "patch_handle.inline" (n.(NodeRec.patch_handle) ≫= PatchHandle.inline)
      ++ add "stdout_handle.inline" (output_inline n.(NodeRec.stdout_handle))
      ++ add "stderr_handle.inline" (output_inline n.(NodeRec.stderr_handle))
      ++ add "title" n.(NodeRec.title)
      ++ add "body_handle.inline" (output_inline n.(NodeRec.body_handle))
      ++ add "diff_hunk_handle.inline" (output_inline n.(NodeRec.diff_hunk_handle))
      ++ add "url" n.(NodeRec.url)
      ++ items "assignees" n.(NodeRec.assignees)
      ++ items "labels" n.(NodeRec.labels)
      ++ add "proposed_rule_text" u.(UserContextFields.proposed_rule_text)
      ++ add "prompt_text" u.(UserContextFields.prompt_text)
      ++ add "decision_rationale" u.(UserContextFields.decision_rationale)
      ++ add "edited_rule_text" u.(UserContextFields.edited_rule_text)
      ++ add "rule_text" u.(UserContextFields.rule_text)
      ++ add "action_summary" u.(UserContextFields.action_summary)
      ++ add "constraint_text" u.(UserContextFields.constraint_text)
  | _ => []
  end.

(* redaction.rs 451-459: check_field *)
Definition check_field (field : string * string) : result unit CodegraphError :=
  if is_some (detect_secret (lit field.2)) then Err (RedactionRequired field.1) else Ok ().

(* redaction.rs 462-470: check_marker_field *)
Definition check_marker_field (field : string * string) : result unit CodegraphError :=
  if is_redacted field.2 then Err (RedactionMetadataMissing field.1) else Ok ().

(** [for f in fields { check(f)?; }] *)
Fixpoint check_all {A} (check : A → result unit CodegraphError) (l : list A)
    : result unit CodegraphError :=
  match l with
  | [] => Ok ()
  | x :: l' => let? _u := check x in check_all check l'
  end.

(* redaction.rs 416-448: check_sensitive_fields *)
Definition check_sensitive_fields (record : GraphRecord) : result unit CodegraphError :=
  let fields := sensitive_fields record in
  let? _u := check_all check_field fields in
  match record with
  | Node n =>
      if is_none n.(NodeRec.redaction_policy_version) then check_all check_marker_field fields
      else Ok ()
  | _ => Ok ()
  end.

(* redaction.rs 259-269: validate_record *)
Definition validate_record (record : GraphRecord) : result unit CodegraphError :=
  match record with
  | Node n =>
      if is_code_graph_kind n.(NodeRec.kind)
         && (negb (bool_decide (n.(NodeRec.kind) = NodeKind.Diagnostic)) || is_none n.(NodeRec.domain))
      then Ok () else check_sensitive_fields record
  | _ => Ok ()
  end.

Section Hashing.
Context (blake3_hex : string → string).

(* redaction.rs 218-221: hash_prefix *)
Definition hash_prefix (value : text) : text :=
  take HASH_PREFIX_LEN (lit (blake3_hex (of_text value))).

(* redaction.rs 198-206: redact_value *)
Definition redact_value (value : text) : text :=
  match detect_secret value with
  | None => value
  | Some (class, _) => marker class (hash_prefix value)
  end.

(** [redact_value] on a string. *)
Definition redact_string (value : string) : string := of_text (redact_value (lit value)).

(* redaction.rs 236-241: redact_span *)
Definition redact_span (class : SecretClass.t) (secret_slice : text) : text :=
  marker class (hash_prefix secret_slice).

(** *** The masking pass over a code graph *)

(** A [BTreeMap]: the entries in increasing order of their keys. *)
Abbreviation BTreeMap K V := (list (K * V)).

(** [f] applied to [entry(k).or_insert(dflt)]. *)
Fixpoint btree_update {K V} (cmp : K → K → comparison) (k : K) (dflt : V) (f : V → V)
    (m : BTreeMap K V) : BTreeMap K V :=
  match m with
  | [] => [(k, f dflt)]
  | (k', v) :: m' =>
      match cmp k k' with
      | Lt => (k, f dflt) :: m
      | Eq => (k', f v) :: m'
      | Gt => (k', v) :: btree_update cmp k dflt f m'
      end
  end.
Fixpoint btree_get {K V} (cmp : K → K → comparison) (k : K) (m : BTreeMap K V) : option V :=
  match m with
  | [] => None
  | (k', v) :: m' => match cmp k k' with Eq => Some v | _ => btree_get cmp k m' end
  end.

(** The derived order of [Option<TemporalMetadata>]. *)
(* ir.rs 3682-3705: TemporalMetadata *)
Definition temporal_cmp (a b : TemporalMetadata.t) : comparison :=
  then_cmp (String.compare a.(TemporalMetadata.git_commit) b.(TemporalMetadata.git_commit))
  (then_cmp (vec_cmp String.compare a.(TemporalMetadata.git_parent_commits)
               b.(TemporalMetadata.git_parent_commits))
  (then_cmp (String.compare a.(TemporalMetadata.valid_time) b.(TemporalMetadata.valid_time))
  (then_cmp (opt_cmp a.(TemporalMetadata.author_time) b.(TemporalMetadata.author_time))
  (then_cmp (String.compare a.(TemporalMetadata.observed_at) b.(TemporalMetadata.observed_at))
     (opt_cmp a.(TemporalMetadata.valid_time_source) b.(TemporalMetadata.valid_time_source)))))).
Definition group_cmp (a b : option TemporalMetadata.t) : comparison :=
  match a, b with
  | None, None => Eq
  | None, Some _ => Lt
  | Some _, None => Gt
  | Some a, Some b => temporal_cmp a b
  end.

Definition ALL_CLASSES : list SecretClass.t :=
  [SecretClass.ApiToken; SecretClass.SshPrivateKey; SecretClass.DatabaseUrl;
   SecretClass.CloudCredential; SecretClass.WebhookSecret; SecretClass.SessionCookie;
   SecretClass.EnvSecret; SecretClass.Email].

(** One record of the loop: the masked record, and the group and counts when the map of
    counts is not empty. *)
(* redaction.rs 1374-1397: redact_code_graph *)
Definition redact_record (fuel : nat) (record : GraphRecord)
    : option (GraphRecord * option (option TemporalMetadata.t * Counts)) :=
  match record with
  | Node n =>
      if is_code_graph_kind n.(NodeRec.kind) then
        match redact_node_text_fields fuel REDACTION_MARKER n.(NodeRec.summary)
                n.(NodeRec.signature) n.(NodeRec.doc) with
        | Some (summary, signature, doc, counts) =>
            Some (Node (n{{ NodeRec.summary := summary; NodeRec.signature := signature;
                            NodeRec.doc := doc }}),
                  if (total counts =? 0)%nat then None else Some (n.(NodeRec.temporal), counts))
        | None => None
        end
      else Some (record, None)
  | _ => Some (record, None)
  end.

Abbreviation Groups V := (BTreeMap (option TemporalMetadata.t) V).

(* redaction.rs 1387-1394: redact_code_graph *)
Definition count_group (groups : Groups Counts * Groups nat)
    (hit : option (option TemporalMetadata.t * Counts)) : Groups Counts * Groups nat :=
  match hit with
  | None => groups
  | Some (t_key, counts) =>
      (btree_update group_cmp t_key no_counts (λ sub_map, add_counts sub_map counts) groups.1,
       btree_update group_cmp t_key 0%nat S groups.2)
  end.

(* redaction.rs 1409-1418: redact_code_graph *)
Definition evidence_summary (counts : Counts) (total_nodes : nat) : string :=
  let class_details :=
    omap (λ class, if (counts class =? 0)%nat then None
                   else Some (SecretClass.as_str class +:+ ": " +:+ dec (N.of_nat (counts class))))
      ALL_CLASSES in
  "Redacted " +:+ dec (N.of_nat (total counts)) +:+ " literals across "
  +:+ dec (N.of_nat total_nodes) +:+ " nodes. Detector classes: "
  +:+ join ", " (str_sort class_details).

(** The valid time and its source of the first node that has one. *)
(* redaction.rs 1354-1366: redact_code_graph *)
Definition existing_times (records : list GraphRecord) : option string * option string :=
  default (None, None)
    (find_map (λ r, match r with
       | Node n => (λ vt, (Some vt, n.(NodeRec.valid_time_source))) <$> n.(NodeRec.valid_time)
       | _ => None
       end) records).

(* redaction.rs 1401-1461: redact_code_graph *)
Definition evidence_node (repository_id : string) (times : option string * option string)
    (prod : option Producer.t) (temporal : option TemporalMetadata.t) (counts : Counts)
    (total_nodes : nat) : GraphRecord :=
  let diag_id := stable_id blake3_hex
    (["node"; "diagnostic"; "redaction_evidence"; repository_id]
     ++ match temporal with Some t => [t.(TemporalMetadata.git_commit)] | None => [] end) in
  let diag := GraphRecord.node diag_id NodeKind.Diagnostic None None (Some "redaction_evidence")
                (evidence_summary counts total_nodes) in
  let diag := GraphRecord.on_node (λ n,
    n{{ NodeRec.redaction_policy_version := Some REDACTION_POLICY_VERSION }}) diag in
  let diag := match temporal with
    | Some t => GraphRecord.with_temporal t diag
    | None => GraphRecord.on_node (λ n, n{{ NodeRec.valid_time := times.1;
                               NodeRec.valid_time_source := times.2 }}) diag
    end in
  match prod with Some p => GraphRecord.with_producer p diag | None => diag end.

(* redaction.rs 1341-1465: redact_code_graph *)
Definition redact_code_graph (fuel : nat) (records : list GraphRecord) (raw_literals : bool)
    (repository_id : string) : option (list GraphRecord) :=
  if raw_literals then Some records
  else
    let existing_producer := find_map GraphRecord.producer records in
    let times := existing_times records in
    match mapM (redact_record fuel) records with
    | None => None
    | Some masked =>
        let groups := foldl count_group ([], []) (snd <$> masked) in
        let diags := (λ '(temporal, counts),
          evidence_node repository_id times existing_producer temporal counts
            (default 0%nat (btree_get group_cmp temporal groups.2))) <$> groups.1 in
        Some ((fst <$> masked) ++ sort_by (λ a b, String.compare (GraphRecord.id a) (GraphRecord.id b)) diags)
    end.

End Hashing.

(** ** Markers are calm *)

Definition hex_digits : text := lit "0123456789abcdef".

Lemma lower_hex_in c : is_lower_hex c = true → c ∈ hex_digits ∧ to_ascii_lower c = c.
Proof.
  assert (∀ c, implb (is_lower_hex c)
            (bool_decide (c ∈ hex_digits) && Ascii.eqb (to_ascii_lower c) c) = true) as H.
  { clear. intros c. destruct c as [[] [] [] [] [] [] [] []]; vm_compute; reflexivity. }
  intros Hc. specialize (H c). rewrite Hc in H. cbn [implb] in H.
  apply andb_prop in H as [H1 H2]. by apply bool_decide_eq_true in H1; apply Ascii.eqb_eq in H2.
Qed.

Lemma hex_text h :
  forallb is_lower_hex h = true → lower h = h ∧ ∀ c, c ∈ h → c ∈ hex_digits.
Proof.
  intros Hh. rewrite forallb_forall in Hh. split.
  - unfold lower. rewrite <-(list_fmap_id h) at 2. apply list_fmap_ext.
    intros i c Hc%list_elem_of_lookup_2. apply lower_hex_in, Hh. by apply list_elem_of_In.
  - intros c Hc. apply lower_hex_in, Hh. by apply list_elem_of_In.
Qed.

(** A trigger that can not occur in a marker of the class, whatever its hash: it has a byte
    no marker has, or it holds no [:] and no [>], has a byte that is no digit, and does not
    occur in the part before the hash. *)
Definition absent (head p : text) : bool :=
  existsb (λ c : ascii, bool_decide (c ∉ head ++ hex_digits ++ lit ":>")) p
  || bool_decide ((":"%char : ascii) ∉ p) && bool_decide ((">"%char : ascii) ∉ p)
     && (occ p head =? 0)%nat && existsb (λ c : ascii, bool_decide (c ∉ hex_digits)) p.

Definition marker_head (class : SecretClass.t) : text :=
  lower (MARKER_PREFIX ++ lit (SecretClass.as_str class)).

Lemma triggers_absent class : forallb (absent (marker_head class)) TRIGGERS = true.
Proof. destruct class; vm_compute; reflexivity. Qed.

Lemma marker_split class h :
  marker class h = (MARKER_PREFIX ++ lit (SecretClass.as_str class)) ++ ":"%char :: h ++ [">"%char].
Proof. unfold marker. by rewrite <-app_assoc. Qed.

Lemma absent_occ head h p :
  p ≠ [] → absent head p = true → (∀ c, c ∈ h → c ∈ hex_digits) →
  occ p (head ++ ":"%char :: h ++ [">"%char]) = 0%nat.
Proof.
  intros Hne Ha Hh. unfold absent in Ha. apply orb_prop in Ha as [Ha|Ha].
  - apply existsb_exists in Ha as (c & Hc%list_elem_of_In & Hn%bool_decide_eq_true).
    apply occ_foreign with c; [done|]. cbn in Hn. set_solver.
  - breflect. match goal with H : (_ =? _)%nat = true |- _ => apply Nat.eqb_eq in H; rename H into Ho end.
    match goal with H : existsb _ _ = true |- _ =>
      apply existsb_exists in H as (c & Hc%list_elem_of_In & Hn%bool_decide_eq_true) end.
    rewrite occ_split, occ_split by done. cbn [occ].
    rewrite (occ_foreign c p h) by auto. lia.
Qed.

Lemma marker_calm class h : forallb is_lower_hex h = true → calm (marker class h).
Proof.
  intros [Hl Hh]%hex_text. rewrite marker_split. split.
  - intros p Hp. rewrite lower_app.
    change (lower (":"%char :: h ++ [">"%char])) with (":"%char :: lower (h ++ [">"%char])).
    rewrite (lower_app h), Hl. apply absent_occ; [by apply triggers_not_empty| |done].
    pose proof (triggers_absent class) as Ha. rewrite forallb_forall in Ha.
    apply Ha. by apply list_elem_of_In.
  - assert (("="%char : ascii) ∉ h) as Hnh.
    { intros Hin%Hh. revert Hin. apply (bool_decide_unpack _). vm_compute. exact I. }
    intros [Hin|[Hin|[Hin|Hin%list_elem_of_singleton]%elem_of_app]%elem_of_cons]%elem_of_app;
      [|done..].
    revert Hin. apply (bool_decide_unpack _). destruct class; vm_compute; exact I.
Qed.

(** ** Parsing markers *)

Lemma parse_loop_shift fuel v n : parse_loop fuel v n = parse_loop fuel (drop n v) 0.
Proof.
  revert v n. induction fuel as [|fuel IH]; intros v n; [done|]. cbn [parse_loop].
  rewrite drop_0. destruct (find MARKER_PREFIX (drop n v)) as [rel|]; [|done].
  cbn [Nat.add]. rewrite !drop_drop, !Nat.add_assoc.
  destruct (find (lit ">") _) as [e|]; [|done].
  rewrite (IH v (n + rel + length MARKER_PREFIX + e + 1)%nat).
  rewrite (IH v (n + rel + length MARKER_PREFIX)%nat).
  rewrite (IH (drop n v) (rel + length MARKER_PREFIX + e + 1)%nat).
  rewrite (IH (drop n v) (rel + length MARKER_PREFIX)%nat).
  by rewrite !drop_drop, !Nat.add_assoc.
Qed.

(** More fuel than the text is long changes nothing. *)
Lemma parse_loop_fuel v : ∀ f1 f2, (length v < f1)%nat → (length v < f2)%nat →
  parse_loop f1 v 0 = parse_loop f2 v 0.
Proof.
  induction v as [v IH] using (induction_ltof1 _ length). unfold ltof in IH.
  intros [|f1] [|f2] H1 H2; [lia..|]. cbn [parse_loop]. rewrite drop_0.
  destruct (find MARKER_PREFIX v) as [rel|] eqn:Hf; [|done].
  apply find_pos_Some in Hf as (Hlt & _). cbn [Nat.add].
  assert (∀ n, (0 < n)%nat → parse_loop f1 v (rel + n) = parse_loop f2 v (rel + n)) as Hgo.
  { intros n Hn. rewrite (parse_loop_shift f1), (parse_loop_shift f2).
    apply IH; rewrite length_drop; lia. }
  destruct (find (lit ">") _) as [e|]; [|done].
  rewrite <-!Nat.add_assoc. rewrite !Hgo by (cbn; lia). done.
Qed.

Lemma find_foreign c p l : c ∉ l → find (c :: p) l = None.
Proof. intros Hc. apply find_None_occ; [|done]. apply occ_foreign with c; [by left|done]. Qed.

Lemma from_name_as_str class : SecretClass.from_name (SecretClass.as_str class) = Some class.
Proof. by destruct class. Qed.

Lemma of_text_lit s : of_text (lit s) = s.
Proof. apply String.string_of_list_ascii_of_string. Qed.

Lemma lit_of_text l : lit (of_text l) = l.
Proof. apply String.list_ascii_of_string_of_list_ascii. Qed.

Lemma class_no_colon class : (":"%char : ascii) ∉ lit (SecretClass.as_str class).
Proof. apply (bool_decide_unpack _). destruct class; vm_compute; exact I. Qed.

Definition well_formed_hash (h : text) : bool :=
  (length h =? HASH_PREFIX_LEN)%nat && forallb is_lower_hex h.

Lemma marker_of_inner class h :
  well_formed_hash h = true →
  marker_of (lit (SecretClass.as_str class) ++ ":"%char :: h) = Some (class, h).
Proof.
  unfold well_formed_hash, marker_of. intros Hh.
  pose proof (find_first ":"%char [] (lit (SecretClass.as_str class)) h (class_no_colon class)) as Hf.
  change (find (lit ":") (lit (SecretClass.as_str class) ++ ":"%char :: h)
          = Some (length (lit (SecretClass.as_str class)))) in Hf. rewrite Hf.
  cbn [mbind option_bind]. rewrite take_app_length, of_text_lit, from_name_as_str. cbn.
  assert (drop (S (length (lit (SecretClass.as_str class))))
            (lit (SecretClass.as_str class) ++ ":"%char :: h) = h) as ->.
  { rewrite drop_app_ge by lia. by replace (S _ - _)%nat with 1%nat by lia. }
  by rewrite Hh.
Qed.

(** One round of the parser over a marker after text without a [<]. *)
Lemma parse_marker fuel plain class h rest :
  ("<"%char : ascii) ∉ plain → well_formed_hash h = true →
  parse_loop (S fuel) (plain ++ marker class h ++ rest) 0 = (class, h) :: parse_loop fuel rest 0.
Proof.
  intros Hplain Hh. cbn [parse_loop]. rewrite drop_0.
  assert (marker class h ++ rest = MARKER_PREFIX ++
    ((lit (SecretClass.as_str class) ++ ":"%char :: h) ++ ">"%char :: rest)) as Hm.
  { unfold marker. rewrite <-!app_assoc. done. }
  rewrite Hm. set (inner := lit (SecretClass.as_str class) ++ ":"%char :: h).
  assert ((">"%char : ascii) ∉ inner) as Hgt.
  { unfold inner. rewrite elem_of_app, elem_of_cons. intros [Hin|[Hin|Hin]]; [|done|].
    - revert Hin. apply (bool_decide_unpack _). destruct class; vm_compute; exact I.
    - unfold well_formed_hash in Hh. apply andb_prop in Hh as [_ Hh].
      apply hex_text in Hh as [_ Hh]. apply Hh in Hin. revert Hin.
      apply (bool_decide_unpack _). vm_compute. exact I. }
  pose proof (find_first "<"%char (lit "REDACTED:") plain (inner ++ ">"%char :: rest) Hplain) as Hf.
  change ("<"%char :: lit "REDACTED:") with MARKER_PREFIX in Hf. rewrite Hf. cbn [Nat.add].
  assert (drop (length plain + length MARKER_PREFIX) (plain ++ MARKER_PREFIX ++ inner ++ ">"%char :: rest)
          = inner ++ ">"%char :: rest) as Hd.
  { rewrite app_assoc, <-length_app. apply drop_app_length. }
  pose proof (find_first ">"%char [] inner rest Hgt) as Hend.
  change (find (lit ">") (inner ++ ">"%char :: rest) = Some (length inner)) in Hend.
  rewrite Hd, Hend, take_app_length.
  unfold inner at 1. rewrite marker_of_inner by done. f_equal.
  rewrite parse_loop_shift. f_equal.
  rewrite <-!Nat.add_assoc, Nat.add_assoc, <-drop_drop, Hd.
  rewrite drop_app_ge by lia. by replace (length inner + 1 - length inner)%nat with 1%nat by lia.
Qed.

Lemma marker_is_redacted class h : contains (marker class h) MARKER_PREFIX = true.
Proof.
  unfold contains.
  assert (find MARKER_PREFIX (marker class h) = Some 0%nat) as ->; [|done].
  apply (find_first "<"%char (lit "REDACTED:") []). set_solver.
Qed.

Lemma parse_plain fuel plain : ("<"%char : ascii) ∉ plain → parse_loop fuel plain 0 = [].
Proof.
  intros Hp. destruct fuel as [|fuel]; [done|]. cbn [parse_loop]. rewrite drop_0.
  by rewrite (find_foreign "<"%char (lit "REDACTED:")).
Qed.

(** Text with markers in it: plain parts without a [<], each followed by a marker. *)
Definition with_markers (parts : list (text * SecretClass.t * text)) (rest : text) : text :=
  foldr (λ '(plain, class, h) acc, plain ++ marker class h ++ acc) rest parts.

Lemma parse_with_markers parts rest :
  Forall (λ '(plain, _, h), (("<"%char : ascii) ∉ plain) ∧ well_formed_hash h = true) parts →
  ("<"%char : ascii) ∉ rest →
  ∀ fuel, (length parts ≤ fuel)%nat →
  parse_loop fuel (with_markers parts rest) 0 = (λ '(_, class, h), (class, h)) <$> parts.
Proof.
  intros Hparts Hrest. induction Hparts as [|[[plain class] h] parts [Hplain Hh] _ IH];
    intros fuel Hfuel.
  - by apply parse_plain.
  - destruct fuel as [|fuel]; cbn [length] in Hfuel; [lia|].
    change (with_markers ((plain, class, h) :: parts) rest)
      with (plain ++ marker class h ++ with_markers parts rest).
    rewrite parse_marker by done. rewrite fmap_cons. f_equal. apply IH. lia.
Qed.

(** The parser recovers every marker of a text: [parse_redaction_markers] on plain parts
    that hold no [<], each followed by a well-formed marker, returns exactly the class and
    hash of each marker, in order. *)
Theorem markers_roundtrip (parts : list (text * SecretClass.t * text)) (rest : text)
    (Hparts : Forall (λ '(plain, _, h), (("<"%char : ascii) ∉ plain) ∧ well_formed_hash h = true) parts)
    (Hrest : ("<"%char : ascii) ∉ rest) :
  parse_redaction_markers (with_markers parts rest) = (λ '(_, class, h), (class, h)) <$> parts.
Proof.
  apply parse_with_markers; [done..|].
  clear. induction parts as [|[[plain class] h] parts IH]; cbn [with_markers foldr length]; [lia|].
  fold (with_markers parts rest). rewrite !length_app. destruct class; cbn; lia.
Qed.

Lemma markers_roundtrip_witness :
  parse_redaction_markers
    (with_markers [(lit "key ", SecretClass.ApiToken, lit "0123456789ab");
                   (lit ", mail ", SecretClass.Email, lit "abcdefabcdef")] (lit " end."))
  = [(SecretClass.ApiToken, lit "0123456789ab"); (SecretClass.Email, lit "abcdefabcdef")].
Proof.
  apply (markers_roundtrip
    [(lit "key ", SecretClass.ApiToken, lit "0123456789ab");
     (lit ", mail ", SecretClass.Email, lit "abcdefabcdef")] (lit " end.")).
  - repeat first [apply Forall_nil_2 | apply Forall_cons_2];
      (split; [apply (bool_decide_unpack _); vm_compute; exact I|vm_compute; reflexivity]).
  - apply (bool_decide_unpack _). vm_compute. exact I.
Defined.

(** ** Redacted values *)
Section Redacting.
Context (blake3_hex : string → string)
  (hex_digest : ∀ s, (HASH_PREFIX_LEN ≤ length (lit (blake3_hex s)))%nat
                     ∧ forallb is_lower_hex (lit (blake3_hex s)) = true).

Lemma hash_prefix_well_formed v : well_formed_hash (hash_prefix blake3_hex v) = true.
Proof using hex_digest.
  destruct (hex_digest (of_text v)) as [Hlen Hhex]. unfold well_formed_hash, hash_prefix.
  rewrite length_take. apply andb_true_iff. split; [apply Nat.eqb_eq; lia|].
  rewrite forallb_forall in *. intros c Hc%list_elem_of_In. apply Hhex, list_elem_of_In.
  revert Hc. apply subseteq_take.
Qed.

Lemma redact_value_not_detected v : detect_secret (redact_value blake3_hex v) = None.
Proof using hex_digest.
  unfold redact_value. destruct (detect_secret v) as [[class i]|] eqn:Hd; [|done].
  apply calm_not_detected, marker_calm.
  pose proof (hash_prefix_well_formed v) as Hw. unfold well_formed_hash in Hw.
  by apply andb_prop in Hw as [_ ?].
Qed.

Lemma redact_string_not_detected s : detect_secret (lit (redact_string blake3_hex s)) = None.
Proof using hex_digest.
  unfold redact_string. rewrite lit_of_text. apply redact_value_not_detected.
Qed.

(** With a hasher that returns lower-case hexadecimal digests, [redact_value] leaves a
    value without a secret as it is and replaces one with a secret by a single marker that
    [is_redacted] sees and that parses back to the secret's class and hash prefix; no secret is
    detected in the result, so redacting again changes nothing. *)
Theorem redact_value_clean (v : text) :
  (detect_secret v = None → redact_value blake3_hex v = v)
  ∧ (∀ class i, detect_secret v = Some (class, i) →
      parse_redaction_markers (redact_value blake3_hex v) = [(class, hash_prefix blake3_hex v)]
      ∧ is_redacted (of_text (redact_value blake3_hex v)) = true)
  ∧ detect_secret (redact_value blake3_hex v) = None
  ∧ redact_value blake3_hex (redact_value blake3_hex v) = redact_value blake3_hex v.
Proof using hex_digest.
  split_and!.
  - intros Hd. unfold redact_value. by rewrite Hd.
  - intros class i Hd. unfold redact_value. rewrite Hd.
    pose proof (hash_prefix_well_formed v) as Hw. split.
    + pose proof (parse_marker (length (marker class (hash_prefix blake3_hex v))) [] class
        (hash_prefix blake3_hex v) [] ltac:(set_solver) Hw) as Hp.
      cbn [app] in Hp. rewrite app_nil_r in Hp. unfold parse_redaction_markers. rewrite Hp.
      f_equal.
    + unfold is_redacted. rewrite lit_of_text. apply marker_is_redacted.
  - apply redact_value_not_detected.
  - unfold redact_value at 1. by rewrite redact_value_not_detected.
Qed.

(** ** The gate *)

(** The records the gate looks into. *)
Definition gated (record : GraphRecord) : bool :=
  match record with
  | Node n => negb (is_code_graph_kind n.(NodeRec.kind)
                    && (negb (bool_decide (n.(NodeRec.kind) = NodeKind.Diagnostic))
                        || is_none n.(NodeRec.domain)))
  | _ => false
  end.
Definition has_policy_version (record : GraphRecord) : bool :=
  match record with Node n => is_some n.(NodeRec.redaction_policy_version) | _ => true end.
Definition clean_field (f : string * string) : bool := is_none (detect_secret (lit f.2)).
Definition plain_field (f : string * string) : bool := negb (is_redacted f.2).

Lemma check_all_test {A} (check : A → result unit CodegraphError) (test : A → bool)
    (err : A → CodegraphError) l :
  (∀ x, check x = if test x then Ok () else Err (err x)) →
  check_all check l = match List.find (λ x, negb (test x)) l with
                      | None => Ok () | Some x => Err (err x) end.
Proof using.
  intros H. induction l as [|x l IH]; [done|]. cbn [check_all List.find]. rewrite H.
  destruct (test x); [exact IH|done].
Qed.

(** The first field that fails a test. *)
Lemma find_first_field {A} (test : A → bool) l x :
  List.find (λ x, negb (test x)) l = Some x ↔
  ∃ l1 l2, l = l1 ++ x :: l2 ∧ forallb test l1 = true ∧ test x = false.
Proof using.
  induction l as [|y l IH]; cbn [List.find].
  { split; [done|]. intros ([|] & l2 & ? & _); done. }
  destruct (test y) eqn:Hy; cbn [negb].
  - rewrite IH. split.
    + intros (l1 & l2 & -> & Hl1 & Hx). exists (y :: l1), l2. cbn. by rewrite Hy.
    + intros ([|z l1] & l2 & ? & Hl1 & Hx); simplify_eq/=; [congruence|].
      apply andb_prop in Hl1 as [_ Hl1]. eauto.
  - split.
    + intros [= ->]. exists [], l. done.
    + intros ([|z l1] & l2 & ? & Hl1 & Hx); simplify_eq/=; [done|]. by rewrite Hy in Hl1.
Qed.

Lemma find_None_all {A} (test : A → bool) l :
  List.find (λ x, negb (test x)) l = None ↔ forallb test l = true.
Proof using.
  induction l as [|y l IH]; [done|]. cbn [List.find forallb].
  destruct (test y); cbn [negb andb]; [exact IH|done].
Qed.

(** The gate, as two searches. *)
Lemma validate_record_eq record :
  validate_record record =
    if negb (gated record) then Ok ()
    else match List.find (λ f, negb (clean_field f)) (sensitive_fields record) with
         | Some f => Err (RedactionRequired f.1)
         | None =>
             if has_policy_version record then Ok ()
             else match List.find (λ f, negb (plain_field f)) (sensitive_fields record) with
                  | Some f => Err (RedactionMetadataMissing f.1)
                  | None => Ok ()
                  end
         end.
Proof using.
  destruct record as [n|e|tb]; [|done..]. cbn [validate_record gated]. rewrite negb_involutive.
  destruct (_ && _); [done|]. unfold check_sensitive_fields.
  rewrite (check_all_test check_field clean_field (λ f, RedactionRequired f.1)).
  2:{ intros f. unfold check_field, clean_field, is_none. by destruct (is_some _). }
  destruct (List.find _ _); [done|]. cbn [result_bind has_policy_version]. unfold is_none.
  destruct (is_some _); [done|]. cbn [negb].
  rewrite (check_all_test check_marker_field plain_field (λ f, RedactionMetadataMissing f.1)).
  - by destruct (List.find _ _).
  - intros f. unfold check_marker_field, plain_field. by destruct (is_redacted _).
Qed.

(** C37: the persistence gate: a record passes exactly when it is outside the gate, or no
    sensitive field holds a secret and either the policy version is set or no field carries a
    marker; it is refused for a raw secret with the path of the first field that holds one, and
    for a missing policy version with the path of the first field that carries a marker, and
    only when no field holds a secret. *)
Theorem validate_record_exact (record : GraphRecord) :
  let fields := sensitive_fields record in
  (validate_record record = Ok () ↔
     gated record = false
     ∨ forallb clean_field fields = true
       ∧ (has_policy_version record = true ∨ forallb plain_field fields = true))
  ∧ (∀ p, validate_record record = Err (RedactionRequired p) ↔
       gated record = true ∧ ∃ l1 v l2, fields = l1 ++ (p, v) :: l2
         ∧ forallb clean_field l1 = true ∧ clean_field (p, v) = false)
  ∧ (∀ p, validate_record record = Err (RedactionMetadataMissing p) ↔
       gated record = true ∧ forallb clean_field fields = true ∧ has_policy_version record = false
       ∧ ∃ l1 v l2, fields = l1 ++ (p, v) :: l2
         ∧ forallb plain_field l1 = true ∧ plain_field (p, v) = false).
Proof using.
  cbv zeta. rewrite validate_record_eq. set (fields := sensitive_fields record).
  assert (∀ test f, List.find (λ x, negb (test x)) fields = Some f → forallb test fields = false)
    as Hsome.
  { intros test f Hf. apply not_true_iff_false. intros Ha. apply find_None_all in Ha. congruence. }
  destruct (gated record); cbn [negb]; cycle 1.
  { split_and!; [by split; [by left|]|..]; intros p; split; [done| |done|]; by intros [? _]. }
  destruct (List.find (λ f, negb (clean_field f)) fields) as [f|] eqn:Hc.
  { pose proof (Hsome _ _ Hc) as Hcl. rewrite Hcl. split_and!.
    - split; [done|]. by intros [?|[? _]].
    - intros p. split.
      + intros [= <-]. apply find_first_field in Hc as (l1 & l2 & ? & ? & ?).
        split; [done|]. destruct f. eauto 10.
      + intros (_ & l1 & v & l2 & He & H1 & H2).
        assert (List.find (λ f, negb (clean_field f)) fields = Some (p, v)); [|by simplify_eq].
        apply find_first_field. eauto.
    - intros p. split; [done|]. by intros (_ & ? & _). }
  pose proof Hc as Hcl. apply find_None_all in Hcl. rewrite Hcl.
  assert (∀ p, ¬ ∃ l1 v l2, fields = l1 ++ (p, v) :: l2
    ∧ forallb clean_field l1 = true ∧ clean_field (p, v) = false) as Hno.
  { intros p (l1 & v & l2 & He & _ & Hv). rewrite He, forallb_app in Hcl. cbn in Hcl.
    rewrite Hv, andb_false_r in Hcl. done. }
  destruct (has_policy_version record).
  { split_and!; [split; [|done]; intros _; right; auto| |]; intros p; split; try done.
    - intros [_ H]. by destruct (Hno p).
    - by intros (_ & _ & ? & _). }
  destruct (List.find (λ f, negb (plain_field f)) fields) as [f|] eqn:Hp.
  - pose proof (Hsome _ _ Hp) as Hpl. rewrite Hpl. split_and!.
    + split; [done|]. by intros [?|(_ & [?|?])].
    + intros p. split; [done|]. intros [_ H]. by destruct (Hno p).
    + intros p. split.
      * intros [= <-]. apply find_first_field in Hp as (l1 & l2 & ? & ? & ?).
        destruct f. split_and!; [done..|]. eauto 10.
      * intros (_ & _ & _ & l1 & v & l2 & He & H1 & H2).
        assert (List.find (λ f, negb (plain_field f)) fields = Some (p, v)); [|by simplify_eq].
        apply find_first_field. eauto.
  - pose proof Hp as Hpl. apply find_None_all in Hpl. rewrite Hpl. split_and!.
    + split; [|done]. intros _. right. auto.
    + intros p. split; [done|]. intros [_ H]. by destruct (Hno p).
    + intros p. split; [done|]. intros (_ & _ & _ & l1 & v & l2 & He & _ & Hv).
      rewrite He, forallb_app in Hpl. cbn in Hpl. rewrite Hv, andb_false_r in Hpl. done.
Qed.

(** Redaction satisfies the gate: a record whose sensitive fields all went through
    [redact_value] and that names the policy version is accepted. *)
Theorem redacted_record_accepted (record : GraphRecord)
    (Hfields : Forall (λ f, ∃ raw, f.2 = of_text (redact_value blake3_hex raw))
                 (sensitive_fields record))
    (Hversion : has_policy_version record = true) :
  validate_record record = Ok ().
Proof using hex_digest.
  rewrite validate_record_eq. destruct (gated record); [|done]. cbn [negb].
  assert (forallb clean_field (sensitive_fields record) = true) as Hc.
  { apply forallb_forall. intros f Hf%list_elem_of_In.
    destruct (proj1 (Forall_forall _ _) Hfields f Hf) as [raw Hraw].
    unfold clean_field. rewrite Hraw, lit_of_text. by rewrite redact_value_not_detected. }
  apply find_None_all in Hc. by rewrite Hc, Hversion.
Qed.

End Redacting.

(** ** Masking a code graph *)
Section Masking.
Context (blake3_hex : string → string).

(** No text a span matcher finds. *)
Definition clean_str (s : string) : bool := is_none (detect_secret_span (lit s)).
Definition clean_opt (o : option string) : bool := match o with Some s => clean_str s | None => true end.

(** [r'] is [r] with its three text fields cleaned, when [r] is a code-graph node. *)
Definition masked (r r' : GraphRecord) : Prop :=
  match r with
  | Node n =>
      if is_code_graph_kind n.(NodeRec.kind) then
        ∃ summary signature doc,
          r' = Node (n{{ NodeRec.summary := summary; NodeRec.signature := signature;
                         NodeRec.doc := doc }})
          ∧ clean_str summary = true ∧ clean_opt signature = true ∧ clean_opt doc = true
          ∧ is_some signature = is_some n.(NodeRec.signature)
          ∧ is_some doc = is_some n.(NodeRec.doc)
      else r' = r
  | _ => r' = r
  end.

Lemma redact_str (s : string) :
  ∃ n out counts, (∀ fuel, (n ≤ fuel)%nat →
      redact_code_text fuel (lit s) REDACTION_MARKER = Some (out, counts))
    ∧ clean_str (of_text out) = true ∧ (total counts = 0%nat → of_text out = s).
Proof using.
  destruct (redact_loop_terminates REDACTION_MARKER (lit s) no_counts)
    as (n & k & out & counts & Hrun & Hout & Hst & Htot).
  exists n, out, counts. split_and!; [done| |].
  - unfold clean_str. by rewrite lit_of_text, Hout.
  - intros H0. assert (k = 0%nat) as -> by (rewrite Htot in H0; lia).
    inversion Hst; subst. apply of_text_lit.
Qed.

Lemma redact_opt (o : option string) :
  ∃ n (out : option string) counts, (∀ fuel, (n ≤ fuel)%nat →
      match o with
      | None => Some (None, no_counts)
      | Some s => match redact_code_text fuel (lit s) REDACTION_MARKER with
                  | Some (t, c) => Some (Some (of_text t), c) | None => None end
      end = Some (out, counts))
    ∧ clean_opt out = true ∧ is_some out = is_some o ∧ (total counts = 0%nat → out = o).
Proof using.
  destruct o as [s|]; [|by exists 0%nat, None, no_counts].
  destruct (redact_str s) as (n & out & counts & Hrun & Hc & H0).
  exists n, (Some (of_text out)), counts. split_and!; [|done..|].
  - intros fuel Hf. by rewrite Hrun.
  - intros Ht. by rewrite H0.
Qed.

Lemma redact_record_total (r : GraphRecord) :
  ∃ n r' hit, (∀ fuel, (n ≤ fuel)%nat → redact_record fuel r = Some (r', hit))
    ∧ masked r r' ∧ (hit = None → r' = r).
Proof using.
  destruct r as [n|e|tb]; cycle 1.
  { by exists 0%nat, (Edge e), None. }
  { by exists 0%nat, (Tombstone tb), None. }
  unfold redact_record, masked.
  destruct (is_code_graph_kind (NodeRec.kind n)); [|by exists 0%nat, (Node n), None].
  destruct (redact_str (NodeRec.summary n)) as (n1 & s & c1 & H1 & Hs & E1).
  destruct (redact_opt (NodeRec.signature n)) as (n2 & sig & c2 & H2 & Hsig & Hi2 & E2).
  destruct (redact_opt (NodeRec.doc n)) as (n3 & d & c3 & H3 & Hd & Hi3 & E3).
  eexists (n1 + n2 + n3)%nat, _, _. split_and!.
  - intros fuel Hf. unfold redact_node_text_fields. cbv zeta.
    rewrite (H1 fuel), (H2 fuel), (H3 fuel) by lia. reflexivity.
  - by exists (of_text s), sig, d.
  - assert (total (add_counts (add_counts c1 c2) c3) = total c1 + total c2 + total c3)%nat as Ht
      by (unfold total, add_counts; lia).
    destruct (total _ =? 0)%nat eqn:Hz; [|done]. apply Nat.eqb_eq in Hz. intros _.
    rewrite E1, E2, E3 by lia. by destruct n.
Qed.

Lemma redact_records_total (records : list GraphRecord) :
  ∃ n l, (∀ fuel, (n ≤ fuel)%nat → mapM (redact_record fuel) records = Some l)
    ∧ Forall2 (λ r p, masked r p.1 ∧ (p.2 = None → p.1 = r)) records l.
Proof using.
  induction records as [|r records (n & l & Hrun & Hl)].
  { exists 0%nat, []. by split. }
  destruct (redact_record_total r) as (n' & r' & hit & Hr & Hm & H0).
  exists (n + n')%nat, ((r', hit) :: l). split; [|by constructor].
  intros fuel Hf. cbn [mapM]. rewrite Hr by lia. cbn. rewrite Hrun by lia. done.
Qed.

Lemma btree_update_not_nil {K V} cmp (k : K) (d : V) f m : btree_update cmp k d f m ≠ [].
Proof using. destruct m as [|[k' v] m]; cbn; [done|]. by destruct (cmp k k'). Qed.

Lemma count_group_nil hits groups :
  (foldl count_group groups hits).1 = [] → groups.1 = [] ∧ Forall (λ h, h = None) hits.
Proof using.
  revert groups. induction hits as [|[[t c]|] hits IH]; intros groups; cbn [foldl]; [done| |].
  - intros [H _]%IH. by apply btree_update_not_nil in H.
  - intros [H1 H2]%IH. split; [done|]. by constructor.
Qed.

(** The [Diagnostic] the pass appends for a group. *)
Definition is_evidence (r : GraphRecord) : Prop :=
  match r with
  | Node n => n.(NodeRec.kind) = NodeKind.Diagnostic ∧ n.(NodeRec.name) = Some "redaction_evidence"
      ∧ n.(NodeRec.redaction_policy_version) = Some REDACTION_POLICY_VERSION
  | _ => False
  end.

(** The masking pass of a scan: unless raw literals are kept, which returns the records as
    they are, [redact_code_graph] ends; it leaves every record that is not a code-graph node as
    it was and changes of a code-graph node at most its summary, signature and doc, in none of
    which a secret span is left; it appends only redaction-evidence diagnostics, in the order of
    their ids, and appends none only when it changed nothing. *)
Theorem code_graph_masked (records : list GraphRecord) (repository_id : string) :
  (∀ fuel, redact_code_graph blake3_hex fuel records true repository_id = Some records)
  ∧ ∃ n masked_records diags,
      (∀ fuel, (n ≤ fuel)%nat → redact_code_graph blake3_hex fuel records false repository_id
                                = Some (masked_records ++ diags))
      ∧ Forall2 masked records masked_records
      ∧ Forall is_evidence diags
      ∧ StronglySorted (λ a b, String.compare (GraphRecord.id a) (GraphRecord.id b) ≠ Gt) diags
      ∧ (diags = [] → masked_records = records).
Proof using.
  split; [done|].
  destruct (redact_records_total records) as (n & l & Hrun & Hl).
  eexists n, (fst <$> l), _. split_and!.
  - intros fuel Hf. unfold redact_code_graph. cbv zeta. rewrite Hrun by done. reflexivity.
  - apply Forall2_fmap_r. eapply Forall2_impl; [exact Hl|]. by intros ? ? [? _].
  - rewrite sort_by_perm. apply Forall_fmap, Forall_forall. intros [[t|] c] _; cbn;
      by destruct (find_map _ _).
  - apply (sort_by_key_sorted GraphRecord.id).
  - intros Hnil. match type of Hnil with sort_by ?cmp ?k = [] => pose proof (sort_by_perm cmp k) as Hp end.
    rewrite Hnil in Hp. apply Permutation_nil_l in Hp. symmetry in Hp. apply fmap_nil_inv in Hp.
    apply count_group_nil in Hp as [_ Hnone]. rewrite Forall_fmap in Hnone.
    clear -Hl Hnone. induction Hl as [|r [r' hit] records l [_ Hr] _ IH]; [done|].
    apply Forall_cons in Hnone as [Hh Hnone]. rewrite fmap_cons, IH by done. cbn in *.
    by rewrite Hr.
Qed.

End Masking.

(** A hasher that returns a fixed digest. *)
Definition sample_hex : string → string :=
  λ _, "00112233445566778899aabbccddeeff00112233445566778899aabbccddeeff".

Lemma sample_hex_digest s :
  (HASH_PREFIX_LEN ≤ length (lit (sample_hex s)))%nat
  ∧ forallb is_lower_hex (lit (sample_hex s)) = true.
Proof. split; [vm_compute; lia|reflexivity]. Qed.

Lemma redact_value_clean_witness :
  redact_value sample_hex (lit "DB_PASSWORD=hunter2hunter2") = lit "<REDACTED:env_secret:001122334455>"
  ∧ detect_secret (redact_value sample_hex (lit "DB_PASSWORD=hunter2hunter2")) = None.
Proof.
  split; [vm_compute; reflexivity|].
  apply (redact_value_clean sample_hex sample_hex_digest (lit "DB_PASSWORD=hunter2hunter2")).
Defined.

Definition sample_record (text version : option string) : GraphRecord :=
  match GraphRecord.node "o" NodeKind.Observation None None None "" with
  | Node n => Node (n{{ NodeRec.text := text; NodeRec.redaction_policy_version := version }})
  | r => r
  end.

Lemma redacted_record_accepted_witness :
  validate_record (sample_record
    (Some (of_text (redact_value sample_hex (lit "mail bob@example.com")))) (Some "v1")) = Ok ().
Proof.
  apply (redacted_record_accepted sample_hex sample_hex_digest).
  - apply Forall_cons_2; [|by apply Forall_nil_2]. exists (lit "mail bob@example.com"). reflexivity.
  - reflexivity.
Defined.

Example gate_examples :
  validate_record (sample_record (Some "mail bob@example.com") (Some "v1"))
    = Err (RedactionRequired "text")
  ∧ validate_record (sample_record (Some "<REDACTED:email:001122334455>") None)
    = Err (RedactionMetadataMissing "text")
  ∧ validate_record (sample_record (Some "<REDACTED:email:001122334455>") (Some "v1")) = Ok ().
Proof. split_and!; vm_compute; reflexivity. Qed.

End Redaction.
