(* ===== verification/Forget.v ===== *)
(** * Logical retraction ([src/src/forget.rs])

    [eg forget <handle>]: the request, the targets that are refused, the retraction event and
    the tombstone that are appended, and the re-run that reports or repairs an earlier
    retraction. [blake3_hex] is the external hasher, [parse_from_rfc3339] the external parser
    of instants (the instant, or its error text) and [now] the printed wall-clock instant.
    [ForgetError::to_json] is presentation and not modelled. *)
From S2P Require Import Prelude RustStr Ir IrOps SchemaVersion Liveness Supersede SecretPatterns Redaction.

Module Forget.

(* forget.rs 49-49: DETERMINISTIC_CODE_FACT_CODE *)
Definition DETERMINISTIC_CODE_FACT_CODE : string := "deterministic_code_fact".
(* forget.rs 53-53: DERIVED_SEMANTIC_RECORD_CODE *)
Definition DERIVED_SEMANTIC_RECORD_CODE : string := "derived_semantic_record".
(* forget.rs 57-57: TEMPORAL_RECORD_CODE *)
Definition TEMPORAL_RECORD_CODE : string := "temporal_record".

Module ForgetRequest.
(* forget.rs 61-71: ForgetRequest *)
Record t : Type := mk {
  handle : string;
  reason : string;
  retracted_by : string;
  transaction_time : option string
}.
End ForgetRequest.

Module RetractionEvent.
(* forget.rs 75-88: RetractionEvent *)
Record t : Type := mk {
  retraction_id : string;
  tombstone_id : string;
  retracted_record_id : string;
  retracted_by : string;
  retracted_at : string;
  reason : string
}.
End RetractionEvent.

(* forget.rs 92-107: ForgetOutcome *)
Inductive ForgetOutcome : Type :=
| Retracted (event : RetractionEvent.t) (records : list GraphRecord)
| AlreadyRetracted (event : RetractionEvent.t).

(* forget.rs 111-153: ForgetError *)
Inductive ForgetError : Type :=
| MissingReason
| MissingActor
| InvalidTransactionTime (value message : string)
| NotFound (handle : string)
| DeterministicCodeFact (record_id kind : string)
| DerivedSemanticRecord (record_id kind : string)
| TemporalRecord (record_id kind : string)
| UnsupportedTarget (record_id detail : string).

(* forget.rs 158-169: ForgetError::code *)
Definition code (self : ForgetError) : string :=
  match self with
  | MissingReason => "missing_reason"
  | MissingActor => "missing_actor"
  | InvalidTransactionTime _ _ => "invalid_transaction_time"
  | NotFound _ => "not_found"
  | DeterministicCodeFact _ _ => DETERMINISTIC_CODE_FACT_CODE
  | DerivedSemanticRecord _ _ => DERIVED_SEMANTIC_RECORD_CODE
  | TemporalRecord _ _ => TEMPORAL_RECORD_CODE
  | UnsupportedTarget _ _ => "unsupported_target"
  end.

(* forget.rs 173-178: ForgetError::exit_code *)
Definition exit_code (self : ForgetError) : Z :=
  match self with NotFound _ => 2 | _ => 1 end.

(* forget.rs 309-313: refuse_unsupported_target *)
Definition kind_name (target : GraphRecord) : string :=
  match target with
  | Node n => NodeKind.as_str n.(NodeRec.kind)
  | Edge _ => "edge"
  | Tombstone _ => "tombstone"
  end.

(* forget.rs 308-380: refuse_unsupported_target *)
Definition refuse_unsupported_target (target : GraphRecord) (handle : string)
    : result unit ForgetError :=
  let domain := domain_from_record_id handle in
  if opt_str_eqb domain (Some "codegraph") then Err (DeterministicCodeFact handle (kind_name target))
  else if opt_str_eqb domain (Some "semantic") then Err (DerivedSemanticRecord handle (kind_name target))
  else
    match target with
    | Tombstone _ =>
        Err (UnsupportedTarget handle
          ("'" +:+ handle +:+ "' is a tombstone; deletion markers cannot themselves be retracted"))
    | Node n =>
        if bool_decide (n.(NodeRec.kind) = NodeKind.Retraction) then
          Err (UnsupportedTarget handle
            ("'" +:+ handle +:+ "' is a retraction event; forgetting the audit trail would "
             +:+ "turn retraction into a silent hole"))
        else if is_some n.(NodeRec.temporal) then
          Err (TemporalRecord handle (NodeKind.as_str n.(NodeRec.kind)))
        else Ok ()
    | Edge _ => Ok ()
    end.

Section Retract.
Context (blake3_hex : string → string) (parse_from_rfc3339 : string → result Z string) (now : string).

(* forget.rs 251-253: retraction_event_id *)
Definition retraction_event_id (target_id : string) : string :=
  agent_memory_stable_id blake3_hex ["node"; "retraction"; target_id].

(** The domain and version the target's id names. *)
(* forget.rs 262-268: retraction_tombstone_id *)
Definition target_domain (target_id : string) : string * N :=
  default ("agent_memory", AGENT_MEMORY_SCHEMA_VERSION)
    (let?o parts := split_once ":v" target_id in
     let?o rest := split_once ":" parts.2 in
     let?o version := parse_u32 rest.1 in
     Some (parts.1, version)).

(* forget.rs 261-278: retraction_tombstone_id *)
Definition retraction_tombstone_id (target_id : string) : string * N :=
  let '(domain, version) := target_domain target_id in
  (domain +:+ ":v" +:+ dec version +:+ ":"
   +:+ blake3_hex (id_preimage ["tombstone"; "retraction"; target_id]), version).

(* forget.rs 281-298: validate_request *)
Definition validate_request (req : ForgetRequest.t) : result unit ForgetError :=
  if trim req.(ForgetRequest.reason) =s? "" then Err MissingReason
  else if trim req.(ForgetRequest.retracted_by) =s? "" then Err MissingActor
  else
    match req.(ForgetRequest.transaction_time) with
    | Some value =>
        match parse_from_rfc3339 value with
        | Ok _ => Ok ()
        | Err message => Err (InvalidTransactionTime value message)
        end
    | None => Ok ()
    end.

(* forget.rs 383-415: build_event_node *)
Definition build_event_node (handle : string) (event : RetractionEvent.t) : GraphRecord :=
  GraphRecord.on_node (λ n,
    n{{ NodeRec.schema_version := AGENT_MEMORY_SCHEMA_VERSION;
        NodeRec.domain := Some "agent_memory";
        NodeRec.text := Some event.(RetractionEvent.reason);
        NodeRec.agent_id := Some event.(RetractionEvent.retracted_by);
        NodeRec.transaction_time := Some event.(RetractionEvent.retracted_at);
        NodeRec.source_handle := Some handle;
        NodeRec.valid_time := Some event.(RetractionEvent.retracted_at);
        NodeRec.valid_time_source := Some "inferred_from_transaction_time";
        NodeRec.redaction_policy_version :=
          if Redaction.is_redacted event.(RetractionEvent.reason)
             || Redaction.is_redacted event.(RetractionEvent.retracted_by)
          then Some SecretPatterns.REDACTION_POLICY_VERSION
          else n.(NodeRec.redaction_policy_version) }})
    (GraphRecord.node event.(RetractionEvent.retraction_id) NodeKind.Retraction None None None
       ("Retraction event for " +:+ handle)).

(* forget.rs 461-470: retract_from_records *)
Definition retraction_tombstone (handle : string) : GraphRecord :=
  let '(tombstone_id, tombstone_version) := retraction_tombstone_id handle in
  Tombstone {|
    TombRec.id := tombstone_id;
    TombRec.schema_version := tombstone_version;
    TombRec.deleted_id := handle;
    TombRec.summary := "Operator retraction of " +:+ handle +:+ "; see retraction event "
                       +:+ retraction_event_id handle;
    TombRec.producer := None
  |}.

(** The event of an earlier run, read off its node. *)
(* forget.rs 438-446: retract_from_records *)
Definition recorded_event (handle : string) (n : NodeRec.t) : RetractionEvent.t := {|
  RetractionEvent.retraction_id := retraction_event_id handle;
  RetractionEvent.tombstone_id := (retraction_tombstone_id handle).1;
  RetractionEvent.retracted_record_id := handle;
  RetractionEvent.retracted_by := default "" n.(NodeRec.agent_id);
  RetractionEvent.retracted_at := default "" n.(NodeRec.transaction_time);
  RetractionEvent.reason := default "" n.(NodeRec.text)
|}.

(* forget.rs 488-501: retract_from_records *)
Definition new_event (handle : string) (req : ForgetRequest.t) : RetractionEvent.t := {|
  RetractionEvent.retraction_id := retraction_event_id handle;
  RetractionEvent.tombstone_id := (retraction_tombstone_id handle).1;
  RetractionEvent.retracted_record_id := handle;
  RetractionEvent.retracted_by := Redaction.redact_string blake3_hex (trim req.(ForgetRequest.retracted_by));
  RetractionEvent.retracted_at := default now req.(ForgetRequest.transaction_time);
  RetractionEvent.reason := Redaction.redact_string blake3_hex (trim req.(ForgetRequest.reason))
|}.

(* forget.rs 427-518: retract_from_records *)
Definition retract_from_records (records : list GraphRecord) (req : ForgetRequest.t)
    : result ForgetOutcome ForgetError :=
  let? _u := validate_request req in
  let handle := trim req.(ForgetRequest.handle) in
  let resolve :=
    match GraphRecord.rfind (λ r, GraphRecord.id r =s? handle) records with
    | None => Err (NotFound handle)
    | Some target =>
        let? _u := refuse_unsupported_target target handle in
        let event := new_event handle req in
        Ok (Retracted event [build_event_node handle event; retraction_tombstone handle])
    end in
  match GraphRecord.rfind (λ r, GraphRecord.id r =s? retraction_event_id handle) records with
  | Some (Node n) =>
      if bool_decide (n.(NodeRec.kind) = NodeKind.Retraction) then
        let event := recorded_event handle n in
        if existsb (is_tombstone_of handle) records then Ok (AlreadyRetracted event)
        else Ok (Retracted event [retraction_tombstone handle])
      else resolve
  | _ => resolve
  end.

End Retract.

(** ** Facts *)
Section ForgetFacts.
Context (blake3_hex : string → string) (parse : string → result Z string) (now : string).

Abbreviation run := (retract_from_records blake3_hex parse now).
Abbreviation event_node := build_event_node.
Abbreviation tomb := (retraction_tombstone blake3_hex).
Definition target_of (req : ForgetRequest.t) : string := trim req.(ForgetRequest.handle).

(** The latest record with an id. *)
Definition latest (records : list GraphRecord) (id : string) : option GraphRecord :=
  GraphRecord.rfind (λ r, GraphRecord.id r =s? id) records.

(** The targets that may be retracted. *)
Definition retractable (handle : string) (target : GraphRecord) : Prop :=
  domain_from_record_id handle ≠ Some "codegraph" ∧ domain_from_record_id handle ≠ Some "semantic"
  ∧ match target with
    | Node n => n.(NodeRec.kind) ≠ NodeKind.Retraction ∧ n.(NodeRec.temporal) = None
    | Edge _ => True
    | Tombstone _ => False
    end.

Lemma refuse_exact target handle :
  refuse_unsupported_target target handle = Ok () ↔ retractable handle target.
Proof using.
  unfold refuse_unsupported_target, retractable, opt_str_eqb.
  case_bool_decide as Hc; [by split; [|intros []]|].
  case_bool_decide as Hs; [by split; [|intros (_ & ? & _)]|].
  destruct target as [n|e|tb]; [|done|by split; [|intros (_ & _ & [])]].
  case_bool_decide as Hk; [by split; [|intros (_ & _ & ? & _)]|].
  destruct (NodeRec.temporal n); [|done]. by split; [|intros (_ & _ & _ & ?)].
Qed.

(** What a request does once it is well formed. *)
Lemma run_valid records req :
  validate_request parse req = Ok () →
  let handle := target_of req in
  let resolve :=
    match latest records handle with
    | None => Err (NotFound handle)
    | Some target =>
        let? _u := refuse_unsupported_target target handle in
        let event := new_event blake3_hex now handle req in
        Ok (Retracted event [event_node handle event; tomb handle])
    end in
  run records req =
    match latest records (retraction_event_id blake3_hex handle) with
    | Some (Node n) =>
        if bool_decide (n.(NodeRec.kind) = NodeKind.Retraction) then
          if existsb (is_tombstone_of handle) records
          then Ok (AlreadyRetracted (recorded_event blake3_hex handle n))
          else Ok (Retracted (recorded_event blake3_hex handle n) [tomb handle])
        else resolve
    | _ => resolve
    end.
Proof using. intros Hv. unfold retract_from_records. by rewrite Hv. Qed.

Lemma run_Ok_valid records req o :
  run records req = Ok o → validate_request parse req = Ok ().
Proof using.
  unfold retract_from_records. destruct (validate_request parse req) as [[]|]; done.
Qed.

(** A retraction writes the event of a target that may be retracted and a tombstone, or only
    the tombstone an earlier event is missing. *)
Lemma run_retracted records req event rs :
  run records req = Ok (Retracted event rs) →
  let handle := target_of req in
  (∃ target, latest records handle = Some target ∧ retractable handle target
     ∧ event = new_event blake3_hex now handle req ∧ rs = [event_node handle event; tomb handle])
  ∨ (∃ n, latest records (retraction_event_id blake3_hex handle) = Some (Node n)
     ∧ n.(NodeRec.kind) = NodeKind.Retraction ∧ existsb (is_tombstone_of handle) records = false
     ∧ event = recorded_event blake3_hex handle n ∧ rs = [tomb handle]).
Proof using.
  intros Hrun handle. pose proof (run_Ok_valid _ _ _ Hrun) as Hv.
  rewrite (run_valid _ _ Hv) in Hrun. cbv zeta in Hrun. fold handle in Hrun.
  assert (∀ (o : option GraphRecord),
    match o with
    | None => Err (NotFound handle)
    | Some target =>
        let? _u := refuse_unsupported_target target handle in
        Ok (Retracted (new_event blake3_hex now handle req)
              [event_node handle (new_event blake3_hex now handle req); tomb handle])
    end = Ok (Retracted event rs) →
    ∃ target, o = Some target ∧ retractable handle target
     ∧ event = new_event blake3_hex now handle req ∧ rs = [event_node handle event; tomb handle])
    as Hres.
  { intros [target|]; [|done]. destruct (refuse_unsupported_target target handle) as [[]|] eqn:Hr;
      [|done]. cbn. intros [= <- <-]. apply refuse_exact in Hr. eauto. }
  destruct (latest records (retraction_event_id blake3_hex handle)) as [[n|e|tb]|];
    [|left; by apply Hres..].
  case_bool_decide as Hk; [|left; by apply Hres].
  destruct (existsb _ _) eqn:Hex; [done|]. injection Hrun as <- <-. right. eauto 10.
Qed.

Lemma tomb_is_tombstone handle :
  ∃ tb, tomb handle = Tombstone tb ∧ tb.(TombRec.deleted_id) = handle.
Proof using.
  unfold retraction_tombstone. destruct (retraction_tombstone_id blake3_hex handle). by eexists.
Qed.

Lemma event_not_temporal handle event id : ¬ temporal_write id (event_node handle event).
Proof using. intros [_ [? H]]. discriminate. Qed.

(** What a retraction does to the log: the handle's tombstone is active at once, and every
    read that goes by [Liveness] drops the handle, exactly when no version of it carries temporal
    metadata; every id but the handle and the event's own keeps its standing. An event is
    written only for a target that is neither a code-graph fact nor a semantic measurement, a
    tombstone, a retraction event or a temporal node. *)
Theorem retraction_effect (store records : list GraphRecord) (req : ForgetRequest.t)
    (event : RetractionEvent.t) (rs : list GraphRecord)
    (Hrun : run records req = Ok (Retracted event rs)) :
  let handle := target_of req in
  Liveness.tombstone_active (Liveness.new (store ++ rs)) handle = true
  ∧ (Liveness.deleted (Liveness.new (store ++ rs)) handle = true
     ↔ ¬ Exists (temporal_write handle) store)
  ∧ (∀ id, id ≠ handle → id ≠ retraction_event_id blake3_hex handle →
       Liveness.deleted (Liveness.new (store ++ rs)) id = Liveness.deleted (Liveness.new store) id)
  ∧ (latest records (retraction_event_id blake3_hex handle) = None →
       ∃ target, latest records handle = Some target ∧ retractable handle target).
Proof using.
  cbv zeta. set (handle := target_of req).
  assert (∃ front, rs = front ++ [tomb handle]
    ∧ (front = [] ∨ front = [event_node handle (new_event blake3_hex now handle req)]))
    as (front & -> & Hfront).
  { destruct (run_retracted _ _ _ _ Hrun) as [(t & _ & _ & -> & ->)|(n & _ & _ & _ & _ & ->)].
    - exists [event_node handle (new_event blake3_hex now handle req)]. auto.
    - exists []. auto. }
  destruct (tomb_is_tombstone handle) as (tb & Htb & Hdel).
  assert (id_state_of handle (store ++ front ++ [tomb handle]) = Tombstoned) as Hst.
  { unfold id_state_of. rewrite !foldl_app, Htb. cbn. by rewrite (proj2 (String.eqb_eq _ _) Hdel). }
  assert (∀ id, Exists (temporal_write id) (store ++ front ++ [tomb handle])
                ↔ Exists (temporal_write id) store) as Htw.
  { intros id. rewrite !Exists_app, Exists_cons, Exists_nil.
    assert (¬ temporal_write id (tomb handle)) by (rewrite Htb; intros []).
    destruct Hfront as [->| ->]; rewrite ?Exists_cons, ?Exists_nil;
      pose proof (event_not_temporal handle (new_event blake3_hex now handle req) id); tauto. }
  split_and!.
  - by apply tombstone_active_spec.
  - rewrite deleted_spec, Hst, Htw. tauto.
  - intros id Hid Hev. rewrite app_assoc, deleted_app_other; [| |].
    + destruct Hfront as [->| ->]; [by rewrite app_nil_r|]. apply deleted_app_other; [|done].
      unfold is_write. cbn. rewrite orb_false_r. by apply String.eqb_neq.
    + by rewrite Htb.
    + rewrite Htb. cbn. rewrite Hdel. by apply String.eqb_neq.
  - intros Hnone. destruct (run_retracted _ _ _ _ Hrun) as [(t & Ht & Hr & _)|(n & Hn & _)]; eauto.
    fold handle in Hn. congruence.
Qed.

(** Re-running: once the event a retraction wrote is the latest record under its id, every
    well-formed request for the same handle reports that same event, whatever its own reason,
    actor and time; it writes nothing when the view holds a tombstone of the handle, and exactly
    the missing tombstone when it does not. *)
Theorem retraction_rerun (records later : list GraphRecord) (req again : ForgetRequest.t)
    (event : RetractionEvent.t) (rs : list GraphRecord)
    (Hrun : run records req = Ok (Retracted event rs))
    (Hlater : latest later (retraction_event_id blake3_hex (target_of req))
              = Some (event_node (target_of req) event))
    (Hsame : target_of again = target_of req) (Hvalid : validate_request parse again = Ok ()) :
  run later again =
    if existsb (is_tombstone_of (target_of req)) later then Ok (AlreadyRetracted event)
    else Ok (Retracted event [tomb (target_of req)]).
Proof using.
  rewrite (run_valid _ _ Hvalid). cbv zeta. rewrite Hsame, Hlater.
  assert (∀ n, event_node (target_of req) event = Node n →
    recorded_event blake3_hex (target_of req) n = event) as He.
  { intros n [= <-]. unfold recorded_event. cbn.
    destruct (run_retracted _ _ _ _ Hrun) as [(t & _ & _ & -> & _)|(m & _ & _ & _ & -> & _)];
      reflexivity. }
  unfold build_event_node in *. cbn -[existsb retraction_tombstone recorded_event] in *.
  rewrite He by reflexivity. done.
Qed.

End ForgetFacts.

(** *** The event and the redaction gate *)
Section EventGate.
Context (blake3_hex : string → string) (now : string)
  (hex_digest : ∀ s, (SecretPatterns.HASH_PREFIX_LEN ≤ length (SecretPatterns.lit (blake3_hex s)))%nat
     ∧ forallb Redaction.is_lower_hex (SecretPatterns.lit (blake3_hex s)) = true).

(** The event a retraction writes passes the redaction gate of the store, whatever the
    operator wrote: its only sensitive field is the reason, in which no secret is left, and it
    names the redaction policy when the reason carries a marker. *)
Theorem retraction_event_passes_gate (handle : string) (req : ForgetRequest.t) :
  let event := new_event blake3_hex now handle req in
  Redaction.sensitive_fields (build_event_node handle event) = [("text", event.(RetractionEvent.reason))]
  ∧ SecretPatterns.detect_secret (SecretPatterns.lit event.(RetractionEvent.reason)) = None
  ∧ SecretPatterns.detect_secret (SecretPatterns.lit event.(RetractionEvent.retracted_by)) = None
  ∧ Redaction.validate_record (build_event_node handle event) = Ok ().
Proof using hex_digest.
  cbv zeta. set (event := new_event blake3_hex now handle req).
  pose proof (Redaction.redact_string_not_detected blake3_hex hex_digest) as Hred.
  assert (Redaction.sensitive_fields (build_event_node handle event)
          = [("text", event.(RetractionEvent.reason))]) as Hf by reflexivity.
  split_and!; [done|apply Hred|apply Hred|].
  rewrite Redaction.validate_record_eq, Hf. destruct (negb _); [done|]. cbn [List.find].
  unfold Redaction.clean_field at 1. cbn [snd].
  pose proof (Hred (trim req.(ForgetRequest.reason))) as Hr.
  change (SecretPatterns.detect_secret (SecretPatterns.lit (RetractionEvent.reason event)) = None) in Hr.
  rewrite Hr. cbn [is_none is_some negb].
  unfold Redaction.plain_field. cbn [snd]. rewrite negb_involutive.
  destruct (Redaction.is_redacted (RetractionEvent.reason event)) eqn:Hm; [|by destruct (Redaction.has_policy_version _)].
  unfold build_event_node. cbn -[event]. by rewrite Hm.
Qed.

End EventGate.

(** ** Examples *)
Definition sample_parse : string → result Z string := λ _, Ok 0%Z.
Definition sample_request : ForgetRequest.t :=
  ForgetRequest.mk " agent_memory:v1:ab " "leaked bob@example.com" "ops" (Some "2026-07-01T00:00:00Z").
Definition sample_store : list GraphRecord :=
  [GraphRecord.node "agent_memory:v1:ab" NodeKind.Observation None None None "note"].
Abbreviation sample_run := (retract_from_records Redaction.sample_hex sample_parse "now").
Definition sample_event : RetractionEvent.t :=
  new_event Redaction.sample_hex "now" "agent_memory:v1:ab" sample_request.
Definition sample_writes : list GraphRecord :=
  [build_event_node "agent_memory:v1:ab" sample_event;
   retraction_tombstone Redaction.sample_hex "agent_memory:v1:ab"].

Example sample_retraction :
  sample_run sample_store sample_request = Ok (Retracted sample_event sample_writes)
  ∧ sample_event.(RetractionEvent.reason) = "<REDACTED:email:001122334455>".
Proof. split; vm_compute; reflexivity. Qed.

Lemma retraction_effect_witness :
  Liveness.tombstone_active (Liveness.new (sample_store ++ sample_writes)) "agent_memory:v1:ab" = true.
Proof.
  assert (sample_run sample_store sample_request = Ok (Retracted sample_event sample_writes)) as Hrun
    by (vm_compute; reflexivity).
  exact (proj1 (retraction_effect _ _ _ sample_store _ _ _ _ Hrun)).
Defined.

(** A hasher without collisions: its input. *)
Definition plain_hash : string → string := λ s, s.
Definition plain_event : RetractionEvent.t :=
  new_event plain_hash "now" "agent_memory:v1:ab" sample_request.
Definition plain_writes : list GraphRecord :=
  [build_event_node "agent_memory:v1:ab" plain_event;
   retraction_tombstone plain_hash "agent_memory:v1:ab"].

Lemma retraction_rerun_witness :
  retract_from_records plain_hash sample_parse "now" (sample_store ++ plain_writes)
    (ForgetRequest.mk "agent_memory:v1:ab" "again" "someone" None)
  = Ok (AlreadyRetracted plain_event).
Proof.
  assert (retract_from_records plain_hash sample_parse "now" sample_store sample_request
          = Ok (Retracted plain_event plain_writes)) as Hrun by (vm_compute; reflexivity).
  rewrite (retraction_rerun _ _ _ sample_store (sample_store ++ plain_writes) sample_request
    (ForgetRequest.mk "agent_memory:v1:ab" "again" "someone" None) _ _ Hrun);
    vm_compute; reflexivity.
Defined.

Lemma retraction_event_passes_gate_witness :
  Redaction.validate_record (build_event_node "agent_memory:v1:ab" sample_event) = Ok ().
Proof.
  apply (retraction_event_passes_gate Redaction.sample_hex "now" Redaction.sample_hex_digest
    "agent_memory:v1:ab" sample_request).
Defined.

(** An edge with a commit anchor is accepted as a target, and the tombstone written for it does
    not delete it for the lanes that read through [Liveness]. *)
Definition anchored_edge : GraphRecord :=
  match GraphRecord.edge Redaction.sample_hex EdgeLabel.HasEvidence "a" "b" None "" with
  | Edge e => Edge (e{{ EdgeRec.id := "agent_memory:v1:e1";
                        EdgeRec.temporal := Some (TemporalMetadata.mk "c0ffee" []
                          "2026-01-01T00:00:00Z" None "2026-01-01T00:00:00Z" None) }})
  | r => r
  end.
Definition edge_request : ForgetRequest.t :=
  ForgetRequest.mk "agent_memory:v1:e1" "wrong link" "ops" (Some "2026-07-01T00:00:00Z").

Example anchored_edge_survives :
  match sample_run [anchored_edge] edge_request with
  | Ok (Retracted _ rs) =>
      Liveness.tombstone_active (Liveness.new (anchored_edge :: rs)) "agent_memory:v1:e1"
      && negb (Liveness.deleted (Liveness.new (anchored_edge :: rs)) "agent_memory:v1:e1")
  | _ => false
  end = true.
Proof. vm_compute. reflexivity. Qed.

End Forget.
