(* ===== verification/RepoEvict.v ===== *)
(** * Whole-repository eviction

    [src/src/repo_evict.rs]: the plan of an eviction (which records belong to the repository
    alone, which are shared, which belong to nobody), the records that carry it out, the
    tombstones that say of themselves that they are evictions, and the plan over a store that
    an earlier eviction has written to. [blake3_hex] is the external hasher, [parse_from_rfc3339] the
    external parser of instants and [now] the printed wall-clock instant. The JSON envelopes
    are presentation and not modelled. *)
From S2P Require Import Prelude RustStr Ir IrOps SchemaVersion Liveness RepoIndex SecretPatterns Redaction Forget.

Module RepoEvict.

(* repo_evict.rs 75-83: PLAN_DOMAINS *)
Definition PLAN_DOMAINS : list string :=
  ["codegraph"; "semantic"; "agent_memory"; "project"; "artifact"; "verification"; "log"].

Module EvictionRequest.
(* repo_evict.rs 87-97: EvictionRequest *)
Record t : Type := mk {
  selector : string;
  reason : string;
  evicted_by : string;
  transaction_time : option string
}.
End EvictionRequest.

(* repo_evict.rs 101-125: EvictError *)
Inductive EvictError : Type :=
| MissingReason
| MissingActor
| InvalidTransactionTime (value message : string)
| UnknownSelector (selector : string)
| AmbiguousSelector (selector : string) (candidates : list string).

(* repo_evict.rs 130-138: EvictError::code *)
Definition code (self : EvictError) : string :=
  match self with
  | MissingReason => "missing_reason"
  | MissingActor => "missing_evicted_by"
  | InvalidTransactionTime _ _ => "invalid_transaction_time"
  | UnknownSelector _ => "unknown_repository_selector"
  | AmbiguousSelector _ _ => "ambiguous_repository_selector"
  end.

(* repo_evict.rs 143-148: EvictError::exit_code *)
Definition exit_code (self : EvictError) : Z :=
  match self with UnknownSelector _ | AmbiguousSelector _ _ => 2 | _ => 1 end.

(* repo_evict.rs 191-204: EvictError::from *)
Definition from_selector_error (error : RepositorySelectorError) : EvictError :=
  match error with
  | Unknown selector => UnknownSelector selector
  | Ambiguous selector candidates => AmbiguousSelector selector candidates
  end.

Module EvictedRecord.
(* repo_evict.rs 209-216: EvictedRecord *)
Record t : Type := mk { record_id : string; domain : string; kind : string }.
End EvictedRecord.

Module CrossRepoCitation.
(* repo_evict.rs 220-227: CrossRepoCitation *)
Record t : Type := mk {
  citing_id : string;
  citing_repository : option string;
  evicted_target : string
}.
End CrossRepoCitation.

Module RepoEvictionEvent.
(* repo_evict.rs 231-244: RepoEvictionEvent *)
Record t : Type := mk {
  event_id : string;
  repository_id : string;
  evicted_by : string;
  reason : string;
  transaction_time : string;
  tombstone_ids : list string
}.
End RepoEvictionEvent.

Module EvictionPlan.
(* repo_evict.rs 248-282: EvictionPlan *)
Record t : Type := mk {
  repository_id : string;
  repository_display : option string;
  already_evicted : bool;
  repair : bool;
  evicted : list EvictedRecord.t;
  by_domain : gmap string nat;
  unattributable : list EvictedRecord.t;
  shared_cross_repo : list EvictedRecord.t;
  temporal_snapshots_retained : list EvictedRecord.t;
  cross_repo_citations : list CrossRepoCitation.t;
  event : RepoEvictionEvent.t
}.
End EvictionPlan.

(* repo_evict.rs 405-458: is_evidence_edge *)
Definition is_evidence_edge (label : EdgeLabel.t) : bool :=
  match label with
  | EdgeLabel.HasEvidence | EdgeLabel.Observes | EdgeLabel.MentionsSymbol | EdgeLabel.TouchedFile
  | EdgeLabel.ProducedPatch | EdgeLabel.ProducedEvidence | EdgeLabel.ValidatedBy
  | EdgeLabel.ClosesAcceptanceCriterion | EdgeLabel.OwnedByTask | EdgeLabel.ExternalHandle
  | EdgeLabel.DependsOn | EdgeLabel.TouchesFile | EdgeLabel.MergedAs | EdgeLabel.ReviewsCommit
  | EdgeLabel.ReviewedBy | EdgeLabel.RequestedReviewFrom | EdgeLabel.TransitionsReview
  | EdgeLabel.FailedOn | EdgeLabel.ExplainsChange | EdgeLabel.ReferencesTask
  | EdgeLabel.Contradicts | EdgeLabel.Supersedes | EdgeLabel.RelatesTo
  | EdgeLabel.FrameResolvesTo | EdgeLabel.EmittedDuring | EdgeLabel.MaterializedAs
  | EdgeLabel.ProposedBy | EdgeLabel.PromptedFor | EdgeLabel.DecidedOn | EdgeLabel.RevokedBy
  | EdgeLabel.ScopedToRepo | EdgeLabel.FingerprintedAs | EdgeLabel.CapturedFrom
  | EdgeLabel.Aggregates => true
  | EdgeLabel.Contains | EdgeLabel.Defines | EdgeLabel.Imports | EdgeLabel.References
  | EdgeLabel.Calls | EdgeLabel.Constructs | EdgeLabel.RegistersRoute | EdgeLabel.Implements
  | EdgeLabel.Mentions | EdgeLabel.ChangedIn | EdgeLabel.ParentOf | EdgeLabel.DriftsFrom
  | EdgeLabel.DriftsPrior | EdgeLabel.MeasuredBy | EdgeLabel.SessionOf | EdgeLabel.AuthoredBy => false
  end.

(* repo_evict.rs 461-463: record_domain *)
Definition record_domain (record : GraphRecord) : string :=
  RecordVersion.domain (record_version record).

(* repo_evict.rs 466-472: record_kind *)
Definition record_kind (record : GraphRecord) : string :=
  match record with
  | Node n => NodeKind.as_str n.(NodeRec.kind)
  | Edge _ => "edge"
  | Tombstone _ => "tombstone"
  end.

(* repo_evict.rs 474-480: projection *)
Definition projection (record : GraphRecord) : EvictedRecord.t :=
  EvictedRecord.mk (GraphRecord.id record) (record_domain record) (record_kind record).

Definition by_record_id : EvictedRecord.t → EvictedRecord.t → comparison :=
  cmp_on EvictedRecord.record_id String.compare.

(* repo_evict.rs 502-508: empty_by_domain *)
Definition empty_by_domain : gmap string nat :=
  foldl (λ m domain, <[domain := 0]> m) ∅ PLAN_DOMAINS.

(* repo_evict.rs 838-844: plan_eviction *)
Definition count_domains (evicted : list EvictedRecord.t) : gmap string nat :=
  foldl (λ (m : gmap string nat) r,
    let d := r.(EvictedRecord.domain) in <[d := default 0 (m !! d) + 1]> m)
    empty_by_domain evicted.

(* repo_evict.rs 514-528: event_meta *)
Definition event_meta (n : NodeRec.t) : string * string * string :=
  (default "" n.(NodeRec.agent_id), default "" n.(NodeRec.text),
   default "" n.(NodeRec.transaction_time)).

(** ** The records of the view by id, the last one of an id *)
(* repo_evict.rs 689-701: plan_eviction *)
Definition node_records (records : list GraphRecord) : gmap string NodeRec.t :=
  foldl (λ m r, match r with Node n => <[n.(NodeRec.id) := n]> m | _ => m end) ∅ records.
(* repo_evict.rs 689-701: plan_eviction *)
Definition edge_records (records : list GraphRecord) : gmap string EdgeRec.t :=
  foldl (λ m r, match r with Edge e => <[e.(EdgeRec.id) := e]> m | _ => m end) ∅ records.

(** What iterating over a [BTreeMap] yields. *)
Definition entries {A} (m : gmap string A) : list (string * A) :=
  omap (λ k, pair k <$> m !! k) (keys m).

(* repo_evict.rs 561-588: evidence_adjacency *)
Definition evidence_adjacency (nodes : gmap string NodeRec.t) (edges : gmap string EdgeRec.t)
    : gmap string (list string) :=
  foldl (λ adjacency '(_, e),
    let source := e.(EdgeRec.source) in
    let target := e.(EdgeRec.target) in
    if is_evidence_edge e.(EdgeRec.label) && is_some (nodes !! source) && is_some (nodes !! target)
    then
      let adjacency := <[source := default [] (adjacency !! source) ++ [target]]> adjacency in
      <[target := default [] (adjacency !! target) ++ [source]]> adjacency
    else adjacency) ∅ (entries edges).

(** ** The walk *)
Record Walk : Type := mkWalk {
  enqueued : gset string;
  queue : list string;
  reached : gmap string (gset string)
}.

(* repo_evict.rs 613-621: walk_reachability *)
Definition visit (owner : gmap string string) (repo : string) (w : Walk) (neighbor : string) : Walk :=
  if is_some (owner !! neighbor) then w
  else
    let reached' := <[neighbor := {[repo]} ∪ default ∅ (w.(reached) !! neighbor)]>
                     w.(reached) in
    if bool_decide (neighbor ∈ w.(enqueued)) then mkWalk w.(enqueued) w.(queue) reached'
    else mkWalk ({[neighbor]} ∪ w.(enqueued)) (w.(queue) ++ [neighbor]) reached'.

(** [None] is the end of the fuel. *)
(* repo_evict.rs 609-622: walk_reachability *)
Fixpoint walk (owner : gmap string string) (adjacency : gmap string (list string))
    (repo : string) (fuel : nat) (w : Walk) : option (gmap string (gset string)) :=
  match w.(queue) with
  | [] => Some w.(reached)
  | node :: queue =>
      match fuel with
      | 0 => None
      | S fuel =>
          let w := mkWalk w.(enqueued) queue w.(reached) in
          walk owner adjacency repo fuel
            (match adjacency !! node with
             | None => w
             | Some neighbors => foldl (visit owner repo) w neighbors
             end)
      end
  end.

(* repo_evict.rs 602-606: walk_reachability *)
Definition seeds (owner : gmap string string) (repo : string) : list string :=
  filter (λ id, owner !! id = Some repo) (keys owner).

(* repo_evict.rs 595-625: walk_reachability *)
Definition walk_reachability (fuel : nat) (repository_ids : list string)
    (owner : gmap string string) (adjacency : gmap string (list string))
    : option (gmap string (gset string)) :=
  foldl (λ acc repo,
    let?o reached_by := acc in
    let s := seeds owner repo in
    walk owner adjacency repo fuel (mkWalk (list_to_set s) s reached_by)) (Some ∅) repository_ids.

(** ** The partition *)

(** The owner of every record of the view that has one. *)
(* repo_evict.rs 703-710: plan_eviction *)
Definition owners (index : RepositoryIndex.t) (nodes : gmap string NodeRec.t) : gmap string string :=
  map_imap (λ id _, owner_of index id) nodes.

Section Plan.
Context (blake3_hex : string → string) (parse_from_rfc3339 : string → result Z string) (now : string).

(* repo_evict.rs 289-291: eviction_event_id *)
Definition eviction_event_id (repository_id : string) : string :=
  agent_memory_stable_id blake3_hex ["node"; "repo_eviction"; repository_id].

(* repo_evict.rs 302-319: eviction_tombstone_id *)
Definition eviction_tombstone_id (target_id : string) : string * N :=
  let '(domain, version) :=
    default ("agent_memory", AGENT_MEMORY_SCHEMA_VERSION)
      (let?o parts := split_once ":v" target_id in
       let?o rest := split_once ":" parts.2 in
       let?o version := parse_u32 rest.1 in
       Some (parts.1, version)) in
  (domain +:+ ":v" +:+ dec version +:+ ":"
   +:+ blake3_hex (id_preimage ["tombstone"; "repo_eviction"; target_id]), version).

(* repo_evict.rs 323-329: is_eviction_event *)
Definition is_eviction_event (n : NodeRec.t) : bool :=
  bool_decide (n.(NodeRec.kind) = NodeKind.Retraction)
  && match n.(NodeRec.source_handle) with
     | Some h => n.(NodeRec.id) =s? eviction_event_id h
     | None => false
     end.

(* repo_evict.rs 345-351: is_eviction_tombstone *)
Definition is_eviction_tombstone (record : GraphRecord) : bool :=
  match record with
  | Tombstone t => t.(TombRec.id) =s? (eviction_tombstone_id t.(TombRec.deleted_id)).1
  | _ => false
  end.

(* repo_evict.rs 365-385: active_eviction_tombstoned_ids *)
Definition tombstone_step (acc : gmap string nat * gmap string nat) (entry : nat * GraphRecord)
    : gmap string nat * gmap string nat :=
  let '(last_write, last_eviction_tomb) := acc in
  let '(index, record) := entry in
  match record with
  | Node n => (<[n.(NodeRec.id) := index]> last_write, last_eviction_tomb)
  | Edge e => (<[e.(EdgeRec.id) := index]> last_write, last_eviction_tomb)
  | Tombstone t =>
      (last_write, if is_eviction_tombstone record
                   then <[t.(TombRec.deleted_id) := index]> last_eviction_tomb
                   else last_eviction_tomb)
  end.

(* repo_evict.rs 365-395: active_eviction_tombstoned_ids *)
Definition active_eviction_tombstoned_ids (records : list GraphRecord) : gset string :=
  let '(last_write, last_eviction_tomb) :=
    foldl tombstone_step (∅, ∅) (imap pair records) in
  dom (filter (λ kv : string * nat,
    match last_write !! kv.1 with
    | None => true
    | Some write_index => (write_index <? kv.2)%nat
    end = true) last_eviction_tomb).

(* repo_evict.rs 483-499: validate_request *)
Definition validate_request (req : EvictionRequest.t) : result unit EvictError :=
  if trim req.(EvictionRequest.reason) =s? "" then Err MissingReason
  else if trim req.(EvictionRequest.evicted_by) =s? "" then Err MissingActor
  else
    match req.(EvictionRequest.transaction_time) with
    | Some value =>
        match parse_from_rfc3339 value with
        | Ok _ => Ok ()
        | Err message => Err (InvalidTransactionTime value message)
        end
    | None => Ok ()
    end.

(* repo_evict.rs 531-558: already_evicted_plan *)
Definition already_evicted_plan (repository_id : string) (repository_display : option string)
    (event_node : NodeRec.t) : EvictionPlan.t :=
  let '(evicted_by, reason, transaction_time) := event_meta event_node in
  EvictionPlan.mk repository_id repository_display true false [] empty_by_domain [] [] [] []
    (RepoEvictionEvent.mk (eviction_event_id repository_id) repository_id evicted_by reason
       transaction_time []).

(** The owners, and which repositories reach which unowned record. *)
Record Attribution : Type := mkAttribution {
  nodes : gmap string NodeRec.t;
  edges : gmap string EdgeRec.t;
  owner : gmap string string;
  reached_by : gmap string (gset string)
}.

(** Every record enters the queue of a repository at most once, so the number of the records
    of the view is fuel enough. *)
(* repo_evict.rs 689-717: plan_eviction *)
Definition attribute (index : RepositoryIndex.t) (records : list GraphRecord)
    : option Attribution :=
  let nodes := node_records records in
  let edges := edge_records records in
  let owner := owners index nodes in
  let adjacency := evidence_adjacency nodes edges in
  let?o reached_by := walk_reachability (size nodes) (repository_ids index) owner adjacency in
  Some (mkAttribution nodes edges owner reached_by).

(** What becomes of a node of the view. *)
Inductive Fate : Set := Event | Evicted | Untouched | Unattributable | Shared.

(* repo_evict.rs 725-748: plan_eviction *)
Definition fate (a : Attribution) (target id : string) (n : NodeRec.t) : Fate :=
  if is_eviction_event n then Event
  else
    match a.(owner) !! id with
    | Some repo => if repo =s? target then Evicted else Untouched
    | None =>
        match a.(reached_by) !! id with
        | None => Unattributable
        | Some repos =>
            if bool_decide (size repos = 1) && bool_decide (target ∈ repos) then Evicted
            else if bool_decide (target ∈ repos) then Shared
            else Untouched
        end
    end.

#[export] Instance Fate_eq_dec : EqDecision Fate.
Proof. solve_decision. Defined.

(** The nodes of the view with a fate, in id order. *)
Definition with_fate (a : Attribution) (target : string) (f : Fate) : list (string * NodeRec.t) :=
  filter (λ p, fate a target p.1 p.2 = f) (entries a.(nodes)).

(* repo_evict.rs 722-748: plan_eviction *)
Definition evicted_nodes (a : Attribution) (target : string) : gset string :=
  list_to_set (with_fate a target Evicted).*1.

(* repo_evict.rs 760-767: plan_eviction *)
Definition evicted_edges (a : Attribution) (target : string) : list (string * EdgeRec.t) :=
  filter (λ p, p.2.(EdgeRec.source) ∈ evicted_nodes a target) (entries a.(edges)).

(* repo_evict.rs 776-801: plan_eviction *)
Definition citation (a : Attribution) (target : string) (e : EdgeRec.t)
    : option CrossRepoCitation.t :=
  let source := e.(EdgeRec.source) in
  if is_evidence_edge e.(EdgeRec.label)
     && negb (bool_decide (source ∈ evicted_nodes a target))
     && bool_decide (e.(EdgeRec.target) ∈ evicted_nodes a target)
     && is_some (a.(nodes) !! source)
  then
    let citing_repository :=
      match a.(owner) !! source with
      | Some r => Some r
      | None =>
          let?o repos := a.(reached_by) !! source in
          List.find (λ r, negb (r =s? target)) (iter repos)
      end in
    Some (CrossRepoCitation.mk source citing_repository e.(EdgeRec.target))
  else None.

(* repo_evict.rs 833-836: plan_eviction *)
Definition citation_cmp : CrossRepoCitation.t → CrossRepoCitation.t → comparison :=
  cmp_on (λ c, (c.(CrossRepoCitation.citing_id), c.(CrossRepoCitation.evicted_target)))
    (pair_cmp String.compare String.compare).

(* repo_evict.rs 775-836: plan_eviction *)
Definition citations (a : Attribution) (target : string) : list CrossRepoCitation.t :=
  sort_by citation_cmp (omap (λ p, citation a target p.2) (entries a.(edges))).

Definition node_projections (l : list (string * NodeRec.t)) : list EvictedRecord.t :=
  sort_by by_record_id ((λ p, projection (Node p.2)) <$> l).

(* repo_evict.rs 809-822: plan_eviction *)
Definition temporal_retained (a : Attribution) (target : string) : list EvictedRecord.t :=
  node_projections
    (filter (λ p, is_Some p.2.(NodeRec.temporal)) (with_fate a target Evicted)).

(* repo_evict.rs 825-830: plan_eviction *)
Definition evicted_records (a : Attribution) (target : string) : list EvictedRecord.t :=
  sort_by by_record_id
    (((λ p, projection (Node p.2)) <$> with_fate a target Evicted)
     ++ ((λ p, projection (Edge p.2)) <$> evicted_edges a target)).

(* repo_evict.rs 851-857: plan_eviction *)
Definition has_suppressible_live (a : Attribution) (target : string) : bool :=
  let temporal_ids : gset string :=
    list_to_set (EvictedRecord.record_id <$> temporal_retained a target) in
  existsb (λ r, negb (bool_decide (r.(EvictedRecord.record_id) ∈ temporal_ids)))
    (evicted_records a target).

(* repo_evict.rs 680-685: plan_eviction *)
Definition is_event_of (repository_id : string) (record : GraphRecord) : option NodeRec.t :=
  match record with
  | Node n =>
      if bool_decide (n.(NodeRec.kind) = NodeKind.Retraction)
         && opt_str_eqb n.(NodeRec.source_handle) (Some repository_id)
         && (n.(NodeRec.id) =s? eviction_event_id repository_id)
      then Some n else None
  | _ => None
  end.

(* repo_evict.rs 657-667: plan_eviction *)
Definition resolution_view (resolution_records : list GraphRecord) : list GraphRecord :=
  if existsb is_eviction_tombstone resolution_records
  then filter (λ r, is_eviction_tombstone r = false) resolution_records
  else resolution_records.

(** The plan with its event: the one of an earlier run ([repair]) or a new one. *)
(* repo_evict.rs 888-934: plan_eviction *)
Definition assemble (a : Attribution) (repository_id : string) (display : option string)
    (repair : bool) (evicted_by reason transaction_time : string) : EvictionPlan.t :=
  let evicted := evicted_records a repository_id in
  let tombstone_ids :=
    str_sort ((λ r, (eviction_tombstone_id r.(EvictedRecord.record_id)).1) <$> evicted) in
  EvictionPlan.mk repository_id display false repair evicted (count_domains evicted)
    (node_projections (with_fate a repository_id Unattributable))
    (node_projections (with_fate a repository_id Shared))
    (temporal_retained a repository_id)
    (citations a repository_id)
    (RepoEvictionEvent.mk (eviction_event_id repository_id) repository_id evicted_by reason
       transaction_time tombstone_ids).

(* repo_evict.rs 859-935: plan_eviction *)
Definition decide_plan (a : Attribution) (repository_id : string) (display : option string)
    (existing_event : option NodeRec.t) (req : EvictionRequest.t) : EvictionPlan.t :=
  match existing_event with
  | Some event_node =>
      if negb (has_suppressible_live a repository_id)
      then already_evicted_plan repository_id display event_node
      else
        let '(evicted_by, reason, transaction_time) := event_meta event_node in
        assemble a repository_id display true evicted_by reason transaction_time
  | None =>
      assemble a repository_id display false
        (Redaction.redact_string blake3_hex (trim req.(EvictionRequest.evicted_by)))
        (Redaction.redact_string blake3_hex (trim req.(EvictionRequest.reason)))
        (default now req.(EvictionRequest.transaction_time))
  end.

(** [None] is the end of the fuel of one of the two walks. *)
(* repo_evict.rs 644-935: plan_eviction *)
Definition plan_eviction (records resolution_records : list GraphRecord) (req : EvictionRequest.t)
    : option (result EvictionPlan.t EvictError) :=
  match validate_request req with
  | Err e => Some (Err e)
  | Ok _ =>
      let?o index := RepoIndex.build (resolution_view resolution_records) in
      match resolve_selector index (trim req.(EvictionRequest.selector)) with
      | Err e => Some (Err (from_selector_error e))
      | Ok repository_id =>
          let?o a := attribute index records in
          Some (Ok (decide_plan a repository_id (display_of index repository_id)
                      (head (omap (is_event_of repository_id) records)) req))
      end
  end.

(* repo_evict.rs 971-1006: build_event_node *)
Definition build_event_node (event : RepoEvictionEvent.t) : GraphRecord :=
  GraphRecord.on_node (λ n,
    n{{ NodeRec.schema_version := AGENT_MEMORY_SCHEMA_VERSION;
        NodeRec.domain := Some "agent_memory";
        NodeRec.text := Some event.(RepoEvictionEvent.reason);
        NodeRec.agent_id := Some event.(RepoEvictionEvent.evicted_by);
        NodeRec.transaction_time := Some event.(RepoEvictionEvent.transaction_time);
        NodeRec.source_handle := Some event.(RepoEvictionEvent.repository_id);
        NodeRec.valid_time := Some event.(RepoEvictionEvent.transaction_time);
        NodeRec.valid_time_source := Some "inferred_from_transaction_time";
        NodeRec.redaction_policy_version :=
          if Redaction.is_redacted event.(RepoEvictionEvent.reason)
             || Redaction.is_redacted event.(RepoEvictionEvent.evicted_by)
          then Some SecretPatterns.REDACTION_POLICY_VERSION
          else n.(NodeRec.redaction_policy_version) }})
    (GraphRecord.node event.(RepoEvictionEvent.event_id) NodeKind.Retraction None None None
       ("Repository eviction of " +:+ event.(RepoEvictionEvent.repository_id))).

(* repo_evict.rs 954-966: eviction_records *)
Definition tombstone_of (event_id : string) (record : EvictedRecord.t) : GraphRecord :=
  let '(tombstone_id, version) := eviction_tombstone_id record.(EvictedRecord.record_id) in
  Tombstone {|
    TombRec.id := tombstone_id;
    TombRec.schema_version := version;
    TombRec.deleted_id := record.(EvictedRecord.record_id);
    TombRec.summary := "Repository eviction of " +:+ record.(EvictedRecord.record_id)
                       +:+ "; see eviction event " +:+ event_id;
    TombRec.producer := None
  |}.

(* repo_evict.rs 946-968: eviction_records *)
Definition eviction_records (plan : EvictionPlan.t) : list GraphRecord :=
  if plan.(EvictionPlan.already_evicted) then []
  else
    (if plan.(EvictionPlan.repair) then [] else [build_event_node plan.(EvictionPlan.event)])
    ++ (tombstone_of plan.(EvictionPlan.event).(RepoEvictionEvent.event_id)
          <$> plan.(EvictionPlan.evicted)).

End Plan.
End RepoEvict.

(** ** Lemmas on the containers *)
Section Containers.
Import RepoEvict.

Lemma elem_of_entries {A} (m : gmap string A) k v : (k, v) ∈ entries m ↔ m !! k = Some v.
Proof.
  unfold entries. rewrite list_elem_of_omap. setoid_rewrite keys_elem. split.
  - intros (k' & _ & Hk'). destruct (m !! k') as [v'|] eqn:E; [|done]. cbn in Hk'. by simplify_eq.
  - intros Hm. exists k. rewrite Hm. split; [by eexists|done].
Qed.

Lemma entries_NoDup {A} (m : gmap string A) : NoDup (entries m).*1.
Proof.
  assert ((entries m).*1 = keys m) as ->; [|apply keys_NoDup]. unfold entries.
  assert (∀ l, (∀ k, k ∈ l → is_Some (m !! k)) → (omap (λ k, pair k <$> m !! k) l).*1 = l) as H.
  { induction l as [|k l IH]; intros Hl; csimpl; [done|].
    destruct (Hl k) as [v Hv]; [by left|]. rewrite Hv. csimpl. f_equal. apply IH.
    intros j Hj. apply Hl. by right. }
  apply H. intros k. apply keys_elem.
Qed.

(** The last of the records of an id. *)
Section Last.
Context {A : Type} (key : A → string) (pick : GraphRecord → option A).

Definition versions_of (id : string) (records : list GraphRecord) : list A :=
  omap (λ r, let?o a := pick r in if key a =s? id then Some a else None) records.

Lemma foldl_last records (m : gmap string A) id :
  foldl (λ m r, match pick r with Some a => <[key a := a]> m | None => m end) m records !! id
  = match last (versions_of id records) with Some a => Some a | None => m !! id end.
Proof.
  induction records as [|r records IH] using rev_ind; [done|].
  unfold versions_of in *. rewrite foldl_app, omap_app, last_app. cbn [foldl omap list_omap].
  destruct (pick r) as [a|]; cbn [mbind option_bind]; [|by rewrite IH].
  destruct (String.eqb_spec (key a) id) as [<-|Hne]; cbn [last].
  - by rewrite lookup_insert_eq.
  - by rewrite lookup_insert_ne.
Qed.

Lemma elem_of_versions id a records :
  a ∈ versions_of id records ↔ ∃ r, r ∈ records ∧ pick r = Some a ∧ key a = id.
Proof.
  unfold versions_of. rewrite list_elem_of_omap. split.
  - intros (r & Hr & Hp). destruct (pick r) as [b|] eqn:E; [|done]. cbn in Hp.
    destruct (String.eqb_spec (key b) id); simplify_eq. eauto.
  - intros (r & Hr & Hp & <-). exists r. split; [done|]. rewrite Hp. cbn. by rewrite String.eqb_refl.
Qed.
End Last.

Definition as_node (r : GraphRecord) : option NodeRec.t :=
  match r with Node n => Some n | _ => None end.
Definition as_edge (r : GraphRecord) : option EdgeRec.t :=
  match r with Edge e => Some e | _ => None end.

Lemma node_records_last records id :
  node_records records !! id = last (versions_of NodeRec.id as_node id records).
Proof.
  unfold node_records. rewrite (foldl_ext_elem _ (λ m r, match as_node r with
    | Some a => <[NodeRec.id a := a]> m | None => m end)) by (by intros m [] _).
  rewrite foldl_last. by destruct (last _).
Qed.

Lemma edge_records_last records id :
  edge_records records !! id = last (versions_of EdgeRec.id as_edge id records).
Proof.
  unfold edge_records. rewrite (foldl_ext_elem _ (λ m r, match as_edge r with
    | Some a => <[EdgeRec.id a := a]> m | None => m end)) by (by intros m [] _).
  rewrite foldl_last. by destruct (last _).
Qed.

Lemma node_records_Some records id n :
  node_records records !! id = Some n → Node n ∈ records ∧ n.(NodeRec.id) = id.
Proof.
  rewrite node_records_last. intros Hl%last_Some_elem_of.
  apply elem_of_versions in Hl as ([m|e|t] & Hr & [= ->] & Hid); done.
Qed.

Lemma edge_records_Some records id e :
  edge_records records !! id = Some e → Edge e ∈ records ∧ e.(EdgeRec.id) = id.
Proof.
  rewrite edge_records_last. intros Hl%last_Some_elem_of.
  apply elem_of_versions in Hl as ([m|f|t] & Hr & [= ->] & Hid); done.
Qed.

Lemma node_records_is_Some records n :
  Node n ∈ records → is_Some (node_records records !! n.(NodeRec.id)).
Proof.
  intros Hn. rewrite node_records_last. apply last_is_Some. intros Hnil.
  eapply (elem_of_nil n). rewrite <-Hnil. apply elem_of_versions. by exists (Node n).
Qed.
End Containers.

(** ** The walk computes reachability through unowned records *)

(** [y] belongs to no repository and is reached from a record of the repository [r] along [R]
    through such records. *)
Inductive reaches (owner : gmap string string) (R : relation string) (r : string) : string → Prop :=
| reaches_seed s y : owner !! s = Some r → R s y → owner !! y = None → reaches owner R r y
| reaches_step x y : reaches owner R r x → R x y → owner !! y = None → reaches owner R r y.

Lemma reaches_mono (owner owner' : gmap string string) (R R' : relation string) r y :
  (∀ x y, R x y → (owner !! x = Some r ∨ reaches owner R r x) → owner !! y = None →
     R' x y ∧ (owner !! x = Some r → owner' !! x = Some r) ∧ owner' !! y = None) →
  reaches owner R r y → reaches owner' R' r y.
Proof.
  intros HR. induction 1 as [s y Ho Hy Hu|x y Hx IH Hy Hu].
  - destruct (HR s y Hy (or_introl Ho) Hu) as (? & Hs & ?). eapply reaches_seed; [by apply Hs|done..].
  - destruct (HR x y Hy (or_intror Hx) Hu) as (? & _ & ?). by eapply reaches_step.
Qed.

Section Reach.
Import RepoEvict.
Context (owner : gmap string string) (adjacency : gmap string (list string)).

Abbreviation R := (λ x y, y ∈ default [] (adjacency !! x)).

Abbreviation grounded := (reaches owner R).

Section OneRepo.
Context (r : string) (reached0 : gmap string (gset string)) (U : gset string).
Hypothesis U_closed : ∀ x y, R x y → y ∈ U.

(** What every step of the walk keeps. *)
Record walk_inv (w : Walk) : Prop := {
  walk_sound x : x ∈ w.(enqueued) → owner !! x = Some r ∨ grounded r x;
  walk_seeds s : owner !! s = Some r → s ∈ w.(enqueued);
  walk_reached y b : b ∈ default ∅ (w.(reached) !! y) ↔
    b ∈ default ∅ (reached0 !! y) ∨ (b = r ∧ y ∈ w.(enqueued) ∧ owner !! y = None);
  walk_nonempty y : w.(reached) !! y ≠ Some ∅;
  walk_bounded : w.(enqueued) ⊆ U;
  walk_nodup : NoDup w.(queue);
  walk_queued x : x ∈ w.(queue) → x ∈ w.(enqueued)
}.

Definition measure (w : Walk) : nat := length w.(queue) + size (U ∖ w.(enqueued)).

(** What a step can change: records enter the set and the queue together. *)
Record extends (w w' : Walk) : Prop := {
  ext_enqueued : w.(enqueued) ⊆ w'.(enqueued);
  ext_new x : x ∈ w'.(enqueued) → x ∈ w.(enqueued) ∨ x ∈ w'.(queue);
  ext_queue x : x ∈ w.(queue) → x ∈ w'.(queue);
  ext_measure : measure w' = measure w
}.

Lemma extends_refl w : extends w w.
Proof. split; auto. Qed.

Lemma extends_trans w1 w2 w3 : extends w1 w2 → extends w2 w3 → extends w1 w3.
Proof.
  intros [A1 B1 C1 D1] [A2 B2 C2 D2]. split; [set_solver| |auto|congruence].
  intros x Hx. destruct (B2 x Hx) as [Hx2|]; [|by right]. destruct (B1 x Hx2); auto.
Qed.

Lemma visit_inv node y w :
  R node y → owner !! node = Some r ∨ grounded r node → walk_inv w →
  walk_inv (visit owner r w y) ∧ extends w (visit owner r w y)
  ∧ (owner !! y = None → y ∈ (visit owner r w y).(enqueued)).
Proof.
  intros HR Hnode Hw. pose proof Hw as [Hso Hse Hre Hne Hbo Hnd Hq]. unfold visit.
  destruct (owner !! y) as [o|] eqn:Ho; cbn [is_some]; [split_and!; [done|apply extends_refl|done]|].
  assert (grounded r y) as Hy.
  { destruct Hnode; [by eapply reaches_seed|by eapply reaches_step]. }
  assert (∀ E : gset string, y ∈ E → (∀ z, z ≠ y → z ∈ E ↔ z ∈ w.(enqueued)) → ∀ z b,
    b ∈ default ∅ (<[y := {[r]} ∪ default ∅ (w.(reached) !! y)]> w.(reached) !! z) ↔
    b ∈ default ∅ (reached0 !! z) ∨ (b = r ∧ z ∈ E ∧ owner !! z = None)) as Hnew.
  { intros E HE Hother z b. destruct (decide (z = y)) as [->|Hz].
    - rewrite lookup_insert_eq. cbn [from_option id]. rewrite elem_of_union, elem_of_singleton, Hre. naive_solver.
    - rewrite lookup_insert_ne, Hre, Hother by done. done. }
  assert (∀ z, <[y := {[r]} ∪ default ∅ (w.(reached) !! y)]> w.(reached) !! z ≠ Some ∅) as Hnon.
  { intros z. destruct (decide (z = y)) as [->|Hz].
    - rewrite lookup_insert_eq. intros [= He]. set_solver.
    - by rewrite lookup_insert_ne. }
  case_bool_decide as He.
  { split_and!; [|by split; cbn; auto|done]. split; cbn; try done. by apply Hnew. }
  assert (y ∈ U) as HyU by by apply (U_closed node).
  split_and!; [split|split|]; cbn; try done.
  - intros x [Hx%elem_of_singleton|Hx]%elem_of_union; [subst x; by right|by apply Hso].
  - intros s Hs. apply elem_of_union. right. by apply Hse.
  - apply Hnew; [set_solver|]. intros z Hz. set_solver.
  - set_solver.
  - apply NoDup_app. split_and!; [done| |apply NoDup_singleton].
    intros x Hx Hxy%list_elem_of_singleton. subst x. by apply He, Hq.
  - intros x [Hx|Hx%list_elem_of_singleton]%elem_of_app; [|set_solver].
    apply elem_of_union. right. by apply Hq.
  - set_solver.
  - intros x. rewrite elem_of_union, elem_of_singleton, elem_of_app, list_elem_of_singleton. naive_solver.
  - intros x. rewrite elem_of_app. by left.
  - unfold measure. cbn. rewrite length_app. cbn.
    assert (U ∖ w.(enqueued) = {[y]} ∪ (U ∖ ({[y]} ∪ w.(enqueued)))) as ->.
    { apply set_eq. intros z. rewrite elem_of_union, !elem_of_difference, elem_of_singleton, elem_of_union,
        elem_of_singleton. destruct (decide (z = y)) as [->|]; naive_solver. }
    rewrite (size_union {[y]} (U ∖ ({[y]} ∪ w.(enqueued)))) by set_solver.
    rewrite size_singleton. lia.
  - set_solver.
Qed.

Lemma visits_inv node l w :
  (∀ y, y ∈ l → R node y) → owner !! node = Some r ∨ grounded r node → walk_inv w →
  let w' := foldl (visit owner r) w l in
  walk_inv w' ∧ extends w w' ∧ ∀ y, y ∈ l → owner !! y = None → y ∈ w'.(enqueued).
Proof.
  intros Hl Hnode. revert w. induction l as [|y l IH]; intros w Hw; cbn [foldl].
  { split_and!; [done|apply extends_refl|by intros ? ?%elem_of_nil]. }
  destruct (visit_inv node y w) as (Hw1 & He1 & Hy1); [apply Hl; by left|done..|].
  destruct (IH (λ z Hz, Hl z (list_elem_of_further _ _ _ Hz)) _ Hw1) as (Hw2 & He2 & Hy2).
  split_and!; [done|by eapply extends_trans|].
  intros z [->|Hz]%elem_of_cons Ho; [|by apply Hy2]. apply (ext_enqueued _ _ He2). by apply Hy1.
Qed.

(** Everything that has left the queue has its neighbors in the set. *)
Definition closed (w : Walk) : Prop :=
  ∀ x y, x ∈ w.(enqueued) → x ∉ w.(queue) → R x y → owner !! y = None → y ∈ w.(enqueued).

Lemma attribution_walk_spec fuel w :
  walk_inv w → closed w → measure w ≤ fuel →
  ∃ reached, walk owner adjacency r fuel w = Some reached
    ∧ (∀ y b, b ∈ default ∅ (reached !! y) ↔
        b ∈ default ∅ (reached0 !! y) ∨ (b = r ∧ grounded r y))
    ∧ ∀ y, reached !! y ≠ Some ∅.
Proof.
  revert w. induction fuel as [|fuel IH]; intros w Hw Hc Hm; cbn [walk];
    destruct w as [enq [|node queue] rea]; cbn [RepoEvict.queue].
  2: { unfold measure in Hm. cbn in Hm. lia. }
  1, 2: exists rea; split_and!; [done| |apply Hw]; intros y b; rewrite (walk_reached _ Hw); cbn;
    (assert (∀ z, grounded r z → z ∈ enq) as Hg;
     [induction 1 as [s z Hs HR Ho|x z _ Hx HR Ho];
      [apply (Hc s z); [by apply (walk_seeds _ Hw)|by apply not_elem_of_nil|done..]
      |apply (Hc x z); [done|by apply not_elem_of_nil|done..]]|]);
    split; [intros [?|(-> & Hy & Ho)]; [by left|right]; split; [done|];
              destruct (walk_sound _ Hw _ Hy); [congruence|done]
           |intros [?|[-> Hy]]; [by left|right]; split_and!; [done|by apply Hg|by inversion Hy]].
  cbn [enqueued reached]. set (w1 := mkWalk enq queue rea).
  assert (walk_inv w1) as Hw1.
  { destruct Hw as [A B C D E F G]. cbn in *. apply NoDup_cons in F as [_ F].
    split; try done. intros x Hx. apply G. by right. }
  assert (owner !! node = Some r ∨ grounded r node) as Hnode.
  { apply (walk_sound _ Hw), (walk_queued _ Hw). by left. }
  assert (match adjacency !! node with None => w1 | Some ns => foldl (visit owner r) w1 ns end
    = foldl (visit owner r) w1 (default [] (adjacency !! node))) as ->
    by by destruct (adjacency !! node).
  destruct (visits_inv node (default [] (adjacency !! node)) w1) as (Hw2 & He2 & Hy2); [done..|].
  apply IH; [done| |].
  - intros x y Hx Hnq HR Ho. destruct (ext_new _ _ He2 x Hx) as [Hx1|]; [|done].
    destruct (decide (x = node)) as [->|Hne]; [by apply Hy2|].
    apply (ext_enqueued _ _ He2). apply (Hc x y); [done| |done..]. cbn.
    intros [->|Hin]%elem_of_cons; [done|]. apply Hnq. by apply (ext_queue _ _ He2).
  - rewrite (ext_measure _ _ He2). unfold measure in *. cbn in *. lia.
Qed.
End OneRepo.

Lemma elem_of_seeds r s : s ∈ seeds owner r ↔ owner !! s = Some r.
Proof. unfold seeds. rewrite list_elem_of_filter, keys_elem. naive_solver. Qed.

Lemma walk_reachability_spec (U : gset string) repos :
  (∀ x y, R x y → y ∈ U) → (∀ x o, owner !! x = Some o → x ∈ U) →
  ∃ reached, walk_reachability (size U) repos owner adjacency = Some reached
    ∧ (∀ y b, b ∈ default ∅ (reached !! y) ↔ b ∈ repos ∧ grounded b y)
    ∧ ∀ y, reached !! y ≠ Some ∅.
Proof.
  intros HU HoU. unfold walk_reachability. induction repos as [|r repos IH] using rev_ind.
  { exists ∅. split_and!; [done| |intros y; by rewrite lookup_empty].
    intros y b. rewrite lookup_empty. set_solver. }
  destruct IH as (reached0 & Hrun & Hb & Hne). rewrite foldl_app, Hrun. cbn [foldl mbind option_bind].
  assert (NoDup (seeds owner r)) as Hnd by apply NoDup_filter, keys_NoDup.
  destruct (attribution_walk_spec r reached0 U HU (size U)
    (mkWalk (list_to_set (seeds owner r)) (seeds owner r) reached0)) as (reached & -> & Hr & Hne').
  - split; cbn; try done.
    + intros x. rewrite elem_of_list_to_set, elem_of_seeds. by left.
    + intros s. by rewrite elem_of_list_to_set, elem_of_seeds.
    + intros y b. rewrite elem_of_list_to_set, elem_of_seeds. naive_solver.
    + intros x. rewrite elem_of_list_to_set, elem_of_seeds. eauto.
    + intros x. by rewrite elem_of_list_to_set.
  - intros x y. cbn. by rewrite elem_of_list_to_set.
  - unfold measure. cbn. rewrite size_difference, size_list_to_set by (done || intros x;
      rewrite elem_of_list_to_set, elem_of_seeds; eauto).
    assert (length (seeds owner r) ≤ size U); [|lia].
    rewrite <-(size_list_to_set (C := gset string)) by done. apply subseteq_size.
    intros x. rewrite elem_of_list_to_set, elem_of_seeds. eauto.
  - exists reached. split_and!; [done| |done]. intros y b. rewrite Hr, Hb, elem_of_app, list_elem_of_singleton.
    naive_solver.
Qed.
End Reach.

(** ** What the plan means *)
Section Attribution.
Import RepoEvict.
Context (index : RepositoryIndex.t) (records : list GraphRecord).

(** The current version of an evidence edge between two records of the view, undirected. *)
Definition evidence_link (x y : string) : Prop :=
  ∃ eid e, edge_records records !! eid = Some e ∧ is_evidence_edge e.(EdgeRec.label) = true
    ∧ is_Some (node_records records !! e.(EdgeRec.source))
    ∧ is_Some (node_records records !! e.(EdgeRec.target))
    ∧ ((x = e.(EdgeRec.source) ∧ y = e.(EdgeRec.target))
       ∨ (x = e.(EdgeRec.target) ∧ y = e.(EdgeRec.source))).

Abbreviation own := (owners index (node_records records)).
(** The record [id] of the view is reached from the repository [r]. *)
Definition reached_from (r id : string) : Prop := reaches own evidence_link r id.

(** [id] is of the repository [r] alone: owned by it, or owned by nobody and reached from it
    and from no other repository. *)
Definition belongs (r id : string) : Prop :=
  own !! id = Some r
  ∨ (own !! id = None ∧ reached_from r id ∧ r ∈ repository_ids index
     ∧ ∀ other, other ∈ repository_ids index → reached_from other id → other = r).

Lemma owners_spec id r :
  own !! id = Some r ↔ is_Some (node_records records !! id) ∧ owner_of index id = Some r.
Proof.
  unfold owners. rewrite map_lookup_imap. destruct (node_records records !! id); cbn; [naive_solver|].
  split; [done|]. by intros [[? ?] _].
Qed.

Lemma adjacency_spec x y :
  y ∈ default [] (evidence_adjacency (node_records records) (edge_records records) !! x)
  ↔ evidence_link x y.
Proof.
  unfold evidence_adjacency.
  rewrite (foldl_or _ (λ m : gmap string (list string), y ∈ default [] (m !! x))
    (λ ke, is_evidence_edge ke.2.(EdgeRec.label) = true
      ∧ is_Some (node_records records !! ke.2.(EdgeRec.source))
      ∧ is_Some (node_records records !! ke.2.(EdgeRec.target))
      ∧ ((x = ke.2.(EdgeRec.source) ∧ y = ke.2.(EdgeRec.target))
         ∨ (x = ke.2.(EdgeRec.target) ∧ y = ke.2.(EdgeRec.source))))).
  - rewrite lookup_empty. split.
    + intros [?%elem_of_nil|([eid e] & He%elem_of_entries & ?)]; [done|]. by exists eid, e.
    + intros (eid & e & He & ?). right. exists (eid, e). split; [by apply elem_of_entries|done].
  - intros m [eid e] _. cbn [snd].
    assert (∀ (m : gmap string (list string)) k v,
      y ∈ default [] (<[k := default [] (m !! k) ++ [v]]> m !! x)
      ↔ y ∈ default [] (m !! x) ∨ (x = k ∧ y = v)) as Hpush.
    { clear. intros m k v. destruct (decide (x = k)) as [->|Hk].
      - rewrite lookup_insert_eq. cbn [from_option id]. rewrite elem_of_app, list_elem_of_singleton.
        naive_solver.
      - rewrite lookup_insert_ne by done. naive_solver. }
    destruct (is_evidence_edge _); cbn [andb]; [|naive_solver].
    destruct (node_records records !! e.(EdgeRec.source)) eqn:E1; cbn [is_some andb];
      [|split; [by left|]; intros [?|(_ & [? ?] & _)]; done].
    destruct (node_records records !! e.(EdgeRec.target)) eqn:E2; cbn [is_some andb];
      [|split; [by left|]; intros [?|(_ & _ & [? ?] & _)]; done].
    rewrite !Hpush. naive_solver.
Qed.

(** The walks end, and find the repositories that reach a record. *)
Lemma attribute_spec :
  ∃ reached, attribute index records
      = Some (mkAttribution (node_records records) (edge_records records) own reached)
    ∧ (∀ y b, b ∈ default ∅ (reached !! y) ↔ b ∈ repository_ids index ∧ reached_from b y)
    ∧ ∀ y, reached !! y ≠ Some ∅.
Proof.
  unfold attribute.
  destruct (walk_reachability_spec own
    (evidence_adjacency (node_records records) (edge_records records))
    (dom (node_records records)) (repository_ids index)) as (reached & Hrun & Hr & Hne).
  - intros x y (eid & e & _ & _ & Hs & Ht & H)%adjacency_spec. apply elem_of_dom.
    by destruct H as [[_ ->]|[_ ->]].
  - intros x o [Hx _]%owners_spec. by apply elem_of_dom.
  - rewrite size_dom in Hrun. rewrite Hrun. exists reached. split_and!; [done| |done].
    intros y b. rewrite Hr. unfold reached_from. split; (intros [Hb Hy]; split; [done|]);
      (eapply reaches_mono; [|exact Hy]); intros x z Hxz _ Hz; (split; [by apply adjacency_spec|done]).
Qed.
End Attribution.

Section Fates.
Import RepoEvict.
Context (blake3_hex : string → string) (index : RepositoryIndex.t) (records : list GraphRecord).
Context (reached : gmap string (gset string)).
Hypothesis reached_spec : ∀ y b,
  b ∈ default ∅ (reached !! y) ↔ b ∈ repository_ids index ∧ reached_from index records b y.
Hypothesis reached_nonempty : ∀ y, reached !! y ≠ Some ∅.

Abbreviation own := (owners index (node_records records)).
Abbreviation a := (mkAttribution (node_records records) (edge_records records) own reached).
Abbreviation is_event := (is_eviction_event blake3_hex).

(** A set of repositories that is the singleton of [target]. *)
Lemma only_target (repos : gset string) target :
  bool_decide (size repos = 1) && bool_decide (target ∈ repos) = true
  ↔ target ∈ repos ∧ ∀ b, b ∈ repos → b = target.
Proof.
  rewrite andb_true_iff, !bool_decide_eq_true. split.
  - intros [Hs Ht]. split; [done|]. apply size_1_elem_of in Hs as [x Hx]. set_solver.
  - intros [Ht Hall]. split; [|done].
    assert (repos = {[target]}) as -> by set_solver. apply size_singleton.
Qed.

Lemma fate_Evicted target id n :
  fate blake3_hex a target id n = Evicted ↔ is_event n = false ∧ belongs index records target id.
Proof.
  unfold fate, belongs. cbn [owner reached_by]. destruct (is_event n); [naive_solver|].
  destruct (own !! id) as [o|] eqn:Ho.
  { destruct (String.eqb_spec o target) as [->|Hne]; naive_solver. }
  pose proof (reached_spec id) as Hr. destruct (reached !! id) as [repos|]; cbn in Hr.
  - pose proof (only_target repos target) as Hone. destruct (_ && _).
    + destruct Hone as [Hone _]. specialize (Hone eq_refl) as [Ht Hall]. split; [intros _|done].
      split; [done|]. right. apply Hr in Ht as [? ?]. split_and!; [done..|]. intros b Hb Hrb.
      apply Hall, Hr. done.
    + split; [by case_bool_decide|]. intros [_ [?|(_ & H1 & H2 & H3)]]; [done|].
      destruct Hone as [_ Hone]. discriminate Hone. split; [by apply Hr|].
      intros b [Hb Hrb]%Hr. by apply H3.
  - split; [done|]. intros [_ [?|(_ & H1 & H2 & _)]]; [done|].
    exfalso. apply (not_elem_of_empty (C := gset string) target), Hr. done.
Qed.

Lemma fate_Unattributable target id n :
  fate blake3_hex a target id n = Unattributable
  ↔ is_event n = false ∧ own !! id = None
    ∧ ∀ b, b ∈ repository_ids index → ¬ reached_from index records b id.
Proof.
  unfold fate. cbn [owner reached_by]. destruct (is_event n); [naive_solver|].
  destruct (own !! id) as [o|]; [destruct (o =s? target); naive_solver|].
  pose proof (reached_spec id) as Hr. destruct (reached !! id) as [repos|] eqn:E; cbn in Hr.
  - split; [by destruct (_ && _); [|case_bool_decide]|]. intros (_ & _ & Hno). exfalso.
    apply (reached_nonempty id). rewrite E. f_equal. apply set_eq. intros b.
    rewrite Hr. set_solver.
  - split; [intros _|done]. split_and!; [done..|]. intros b Hb Hrb.
    apply (not_elem_of_empty (C := gset string) b), Hr. done.
Qed.

Lemma fate_Shared target id n :
  fate blake3_hex a target id n = Shared
  ↔ is_event n = false ∧ own !! id = None
    ∧ target ∈ repository_ids index ∧ reached_from index records target id
    ∧ ∃ b, b ∈ repository_ids index ∧ b ≠ target ∧ reached_from index records b id.
Proof.
  unfold fate. cbn [owner reached_by]. destruct (is_event n); [naive_solver|].
  destruct (own !! id) as [o|]; [destruct (o =s? target); naive_solver|].
  pose proof (reached_spec id) as Hr. destruct (reached !! id) as [repos|] eqn:E; cbn in Hr.
  2:{ split; [done|]. intros (_ & _ & Ht & Hrt & _). exfalso.
      apply (not_elem_of_empty (C := gset string) target), Hr. done. }
  pose proof (only_target repos target) as Hone. destruct (_ && _).
  - split; [done|]. intros (_ & _ & _ & _ & b & Hb & Hne & Hrb). exfalso.
    apply Hne. apply Hone; [done|]. by apply Hr.
  - case_bool_decide as Ht.
    + split; [intros _|done]. split_and!; [done..|by apply Hr|by apply Hr|].
      destruct (set_choose_or_empty (repos ∖ {[target]})) as [[b Hb]|Hemp].
      * apply elem_of_difference in Hb as [Hb Hne]. apply Hr in Hb as [? ?].
        exists b. split_and!; [done|set_solver|done].
      * exfalso. destruct Hone as [_ Hone]. discriminate Hone. split; [done|].
        intros b Hb. destruct (decide (b = target)); [done|set_solver].
    + split; [done|]. intros (_ & _ & Hti & Htr & _). exfalso. by apply Ht, Hr.
Qed.

Lemma elem_of_fate target f id n :
  (id, n) ∈ with_fate blake3_hex a target f
  ↔ node_records records !! id = Some n ∧ fate blake3_hex a target id n = f.
Proof. unfold with_fate. rewrite list_elem_of_filter, elem_of_entries. naive_solver. Qed.

Lemma elem_of_evicted_nodes target id :
  id ∈ evicted_nodes blake3_hex a target
  ↔ ∃ n, node_records records !! id = Some n ∧ is_event n = false ∧ belongs index records target id.
Proof.
  unfold evicted_nodes. rewrite elem_of_list_to_set, list_elem_of_fmap. split.
  - intros ([id' n] & -> & [Hn Hf]%elem_of_fate). cbn. exists n. by apply fate_Evicted in Hf.
  - intros (n & Hn & Hb). exists (id, n). split; [done|]. apply elem_of_fate. split; [done|].
    by apply fate_Evicted.
Qed.

(** The record is in the part of the view a plan evicts. *)
Definition evicts (target : string) (record : GraphRecord) : Prop :=
  match record with
  | Node n => node_records records !! n.(NodeRec.id) = Some n ∧ is_event n = false
              ∧ belongs index records target n.(NodeRec.id)
  | Edge e => edge_records records !! e.(EdgeRec.id) = Some e
              ∧ ∃ n, node_records records !! e.(EdgeRec.source) = Some n ∧ is_event n = false
                     ∧ belongs index records target e.(EdgeRec.source)
  | Tombstone _ => False
  end.

Lemma elem_of_evicted_records target r :
  r ∈ evicted_records blake3_hex a target ↔ ∃ record, evicts target record ∧ r = projection record.
Proof.
  unfold evicted_records. rewrite sort_by_perm, elem_of_app, !list_elem_of_fmap. split.
  - intros [([id n] & -> & [Hn Hf]%elem_of_fate)|([id e] & -> & He)].
    + exists (Node n). split; [|done]. apply fate_Evicted in Hf.
      pose proof (node_records_Some _ _ _ Hn) as [_ <-]. cbn. done.
    + exists (Edge e). split; [|done]. unfold evicted_edges in He.
      apply list_elem_of_filter in He as [Hs He%elem_of_entries]. cbn in *.
      pose proof (edge_records_Some _ _ _ He) as [_ <-]. split; [done|].
      by apply elem_of_evicted_nodes.
  - intros ([n|e|t] & He & ->); [left|right|done].
    + exists (n.(NodeRec.id), n). split; [done|]. apply elem_of_fate. split; [by apply He|].
      apply fate_Evicted, He.
    + exists (e.(EdgeRec.id), e). split; [done|]. unfold evicted_edges. apply list_elem_of_filter.
      split; [|apply elem_of_entries; by apply He]. apply elem_of_evicted_nodes, He.
Qed.

(** Tombstones cannot hide a record that carries temporal metadata, so a prior eviction has
    something left to do only if another record is in the part of the view it evicts. *)
Definition suppressible_live (target : string) : Prop :=
  ∃ record, evicts target record
    ∧ ¬ ∃ n, evicts target (Node n) ∧ is_Some n.(NodeRec.temporal)
             ∧ n.(NodeRec.id) = GraphRecord.id record.

Lemma elem_of_temporal_retained target r :
  r ∈ temporal_retained blake3_hex a target
  ↔ ∃ n, evicts target (Node n) ∧ is_Some n.(NodeRec.temporal) ∧ r = projection (Node n).
Proof.
  unfold temporal_retained, node_projections. rewrite sort_by_perm, list_elem_of_fmap. split.
  - intros ([id n] & -> & [Ht [Hn Hf]%elem_of_fate]%list_elem_of_filter).
    apply fate_Evicted in Hf. pose proof (node_records_Some _ _ _ Hn) as [_ <-]. by exists n.
  - intros (n & [Hn Hb] & Ht & ->). exists (n.(NodeRec.id), n). split; [done|].
    apply list_elem_of_filter. split; [done|]. apply elem_of_fate. split; [done|]. by apply fate_Evicted.
Qed.

Lemma has_suppressible_live_spec target :
  has_suppressible_live blake3_hex a target = true ↔ suppressible_live target.
Proof.
  unfold has_suppressible_live, suppressible_live.
  assert (∀ record, EvictedRecord.record_id (projection record) = GraphRecord.id record) as Hid.
  { by intros []. }
  rewrite existsb_exists. setoid_rewrite <-list_elem_of_In. setoid_rewrite negb_true_iff.
  setoid_rewrite bool_decide_eq_false. setoid_rewrite elem_of_list_to_set.
  setoid_rewrite list_elem_of_fmap. setoid_rewrite elem_of_temporal_retained.
  split.
  - intros (r & (record & He & ->)%elem_of_evicted_records & Hno). exists record. split; [done|].
    intros (n & Hn & Ht & Heq). apply Hno. exists (projection (Node n)). rewrite !Hid.
    split; [by symmetry|]. by exists n.
  - intros (record & He & Hno). exists (projection record).
    split; [apply elem_of_evicted_records; by exists record|].
    intros (? & Heq & n & Hn & Ht & ->). apply Hno. rewrite !Hid in Heq. exists n. done.
Qed.

Lemma elem_of_projections target f r :
  r ∈ node_projections (with_fate blake3_hex a target f)
  ↔ ∃ n, node_records records !! n.(NodeRec.id) = Some n
         ∧ fate blake3_hex a target n.(NodeRec.id) n = f ∧ r = projection (Node n).
Proof.
  unfold node_projections. rewrite sort_by_perm, list_elem_of_fmap. split.
  - intros ([id n] & -> & [Hn Hf]%elem_of_fate). exists n.
    pose proof (node_records_Some _ _ _ Hn) as [_ <-]. done.
  - intros (n & Hn & Hf & ->). exists (n.(NodeRec.id), n). split; [done|]. by apply elem_of_fate.
Qed.
End Fates.

(** ** Appending an event node leaves the repository index as it is *)
Section Inert.
Context (l : list GraphRecord) (n : NodeRec.t).
Hypothesis inert_kind : n.(NodeRec.kind) = NodeKind.Retraction.
Hypothesis inert_temporal : n.(NodeRec.temporal) = None.
Hypothesis inert_log : n.(NodeRec.log) = None.
(** Whatever the log holds under the id of the node is such an event too. *)
Hypothesis inert_id : ∀ r, r ∈ l →
  match r with
  | Node m => m.(NodeRec.id) = n.(NodeRec.id) → m.(NodeRec.kind) = NodeKind.Retraction
  | Edge e => e.(EdgeRec.id) ≠ n.(NodeRec.id)
  | Tombstone _ => True
  end.

Lemma inert_deleted id :
  id ≠ n.(NodeRec.id) →
  Liveness.deleted (Liveness.new (l ++ [Node n])) id = Liveness.deleted (Liveness.new l) id.
Proof using.
  intros Hne. apply deleted_app_other; [|done]. unfold is_write. cbn.
  apply not_eq_sym, String.eqb_neq in Hne. by rewrite Hne.
Qed.

Lemma inert_latest id i :
  Liveness.is_latest_edge_version (Liveness.new (l ++ [Node n])) id i
  = Liveness.is_latest_edge_version (Liveness.new l) id i.
Proof using. by rewrite new_snoc. Qed.

Lemma inert_entry i r : (i, r) ∈ imap pair l → r ∈ l.
Proof using. intros Hi%elem_of_imap_pair. by eapply list_elem_of_lookup_2. Qed.

Lemma inert_latest_repo : latest_repo (l ++ [Node n]) = latest_repo l.
Proof using inert_kind.
  unfold latest_repo. rewrite imap_app, foldl_app. cbn. by rewrite inert_kind.
Qed.

Lemma inert_repos : build_repos (l ++ [Node n]) = build_repos l.
Proof using inert_kind inert_id.
  unfold build_repos. rewrite inert_latest_repo, imap_app, foldl_app. cbn [imap foldl snd].
  rewrite inert_kind. cbn. apply foldl_ext_elem. intros m [i r] Hr%inert_entry. cbn.
  destruct r as [q|e|t]; [|done..]. case_bool_decide as Hk; cbn; [|done].
  rewrite inert_deleted; [done|]. intros Heq. specialize (inert_id _ Hr Heq). congruence.
Qed.

Lemma inert_kinds t :
  bool_decide (node_kinds (l ++ [Node n]) !! t = Some NodeKind.Import)
  = bool_decide (node_kinds l !! t = Some NodeKind.Import).
Proof using inert_kind.
  apply bool_decide_ext. unfold node_kinds. rewrite foldl_app. cbn. unfold or_insert.
  destruct (foldl _ ∅ l !! n.(NodeRec.id)) eqn:E; [done|]. rewrite inert_kind, lookup_insert_Some.
  split; [by intros [[? ?]|[? ?]]|]. intros Ht. right. split; [|done]. intros <-. congruence.
Qed.

Lemma inert_containment : containment (l ++ [Node n]) = containment l.
Proof using inert_kind inert_id.
  unfold containment. rewrite imap_app, foldl_app. cbn [imap foldl snd].
  apply foldl_ext_elem. intros m [i r] Hr%inert_entry. cbn.
  destruct r as [q|e|t]; [done| |done]. specialize (inert_id _ Hr). cbn in inert_id.
  assert (is_containment (node_kinds (l ++ [Node n])) e = is_containment (node_kinds l) e) as ->.
  { unfold is_containment. by rewrite inert_kinds. }
  by rewrite inert_deleted, inert_latest by done.
Qed.

Lemma inert_paths own : file_owners_by_path (l ++ [Node n]) own = file_owners_by_path l own.
Proof using inert_kind. unfold file_owners_by_path. rewrite foldl_app. cbn. by rewrite inert_kind. Qed.

Lemma inert_build : RepoIndex.build (l ++ [Node n]) = RepoIndex.build l.
Proof using All.
  unfold RepoIndex.build. rewrite inert_repos, inert_containment.
  destruct (own_all _ _) as [owner|]; cbn [mbind option_bind]; [|done].
  assert (own_diagnostics (l ++ [Node n]) owner = own_diagnostics l owner) as ->.
  { unfold own_diagnostics. rewrite omap_app. cbn [omap list_omap].
    unfold diagnostic_owner at 2. rewrite inert_kind, app_nil_r. f_equal.
    apply list_omap_ext, Forall_Forall2_diag, Forall_forall. intros r Hr. unfold diagnostic_owner.
    rewrite inert_paths. destruct r as [q|e|t]; [|done..].
    destruct q.(NodeRec.kind) eqn:Hk; try done. destruct q.(NodeRec.repo_relative_path); [|done].
    rewrite inert_deleted; [done|]. intros Heq. specialize (inert_id _ Hr Heq). congruence. }
  assert (drift_targets (l ++ [Node n]) = drift_targets l) as ->.
  { unfold drift_targets. by rewrite foldl_app. }
  rewrite !foldl_app. cbn [foldl].
  assert (∀ targets own, own_drift targets own (Node n) = own) as ->.
  { intros. unfold own_drift. by rewrite inert_kind. }
  assert (∀ own, own_log own (Node n) = own) as ->; [|done].
  intros. unfold own_log. by rewrite inert_log.
Qed.
End Inert.

(** ** Eviction tombstones *)
Section Tombstones.
Import RepoEvict.
Context (blake3_hex : string → string).
Abbreviation active := (active_eviction_tombstoned_ids blake3_hex).
Definition scan (l : list GraphRecord) : gmap string nat * gmap string nat :=
  foldl (tombstone_step blake3_hex) (∅, ∅) (imap pair l).

Lemma scan_snoc l r : scan (l ++ [r]) = tombstone_step blake3_hex (scan l) (length l, r).
Proof. unfold scan. rewrite imap_app, foldl_app. cbn. by rewrite Nat.add_0_r. Qed.

Lemma scan_bounded l :
  (∀ id i, (scan l).1 !! id = Some i → i < length l) ∧ (∀ id i, (scan l).2 !! id = Some i → i < length l).
Proof.
  induction l as [|r l [IH1 IH2]] using rev_ind.
  { cbn. split; intros id i; by rewrite lookup_empty. }
  rewrite scan_snoc, length_app. cbn [length].
  destruct (scan l) as [lw lt]. cbn [fst snd] in *.
  assert (∀ (m : gmap string nat) k, (∀ id i, m !! id = Some i → i < length l) →
    ∀ id i, <[k := length l]> m !! id = Some i → i < length l + 1) as Hins.
  { intros m k Hm id i. rewrite lookup_insert_Some. intros [[<- <-]|[_ Hi%Hm]]; lia. }
  assert (∀ (m : gmap string nat), (∀ id i, m !! id = Some i → i < length l) →
    ∀ id i, m !! id = Some i → i < length l + 1) as Hkeep.
  { intros m Hm id i Hi%Hm. lia. }
  unfold tombstone_step. destruct r as [n|e|t]; cbn [fst snd]; [by eauto..|].
  destruct (is_eviction_tombstone _ _); cbn [fst snd]; by eauto.
Qed.

(** One appended record: a write revives its id, an eviction tombstone suppresses its target. *)
Lemma active_snoc l r :
  active (l ++ [r]) =
    match r with
    | Node n => active l ∖ {[n.(NodeRec.id)]}
    | Edge e => active l ∖ {[e.(EdgeRec.id)]}
    | Tombstone t => if is_eviction_tombstone blake3_hex r
                     then {[t.(TombRec.deleted_id)]} ∪ active l else active l
    end.
Proof.
  destruct (scan_bounded l) as [Hw Ht]. unfold active_eviction_tombstoned_ids.
  fold (scan (l ++ [r])) (scan l). rewrite scan_snoc.
  destruct (scan l) as [lw lt]. cbn [fst snd] in *.
  assert (∀ (lw lt : gmap string nat) id,
    id ∈ dom (filter (λ kv : string * nat, match lw !! kv.1 with
      | None => true | Some wi => (wi <? kv.2)%nat end = true) lt)
    ↔ ∃ ti, lt !! id = Some ti ∧ match lw !! id with
        | None => True | Some wi => wi < ti end) as Hdom.
  { clear. intros lw lt id. rewrite elem_of_dom. unfold is_Some.
    setoid_rewrite map_lookup_filter_Some. cbn [fst snd].
    destruct (lw !! id); [setoid_rewrite Nat.ltb_lt|]; naive_solver. }
  assert (∀ k, dom (filter (λ kv : string * nat, match <[k := length l]> lw !! kv.1 with
      | None => true | Some wi => (wi <? kv.2)%nat end = true) lt)
    = dom (filter (λ kv : string * nat, match lw !! kv.1 with
      | None => true | Some wi => (wi <? kv.2)%nat end = true) lt) ∖ {[k]}) as Hwrite.
  { intros k. apply set_eq. intros id. rewrite elem_of_difference, !Hdom, elem_of_singleton.
    destruct (decide (id = k)) as [->|Hne].
    - rewrite lookup_insert_eq. split; [|naive_solver]. intros (ti & Hti%Ht & ?). lia.
    - rewrite lookup_insert_ne by done. naive_solver. }
  destruct r as [n|e|t]; [apply Hwrite..|].
  unfold tombstone_step. destruct (is_eviction_tombstone _ _); [|done].
  apply set_eq. intros id. rewrite elem_of_union, !Hdom, elem_of_singleton.
  destruct (decide (id = t.(TombRec.deleted_id))) as [->|Hne].
  - rewrite lookup_insert_eq. split; [by left|]. intros _. exists (length l). split; [done|].
    destruct (lw !! _) eqn:E; [by eapply Hw|done].
  - rewrite lookup_insert_ne by done. naive_solver.
Qed.

Lemma tombstone_of_target event_id record :
  ∃ t, tombstone_of blake3_hex event_id record = Tombstone t
    ∧ t.(TombRec.deleted_id) = record.(EvictedRecord.record_id)
    ∧ is_eviction_tombstone blake3_hex (Tombstone t) = true.
Proof.
  unfold tombstone_of. destruct (eviction_tombstone_id _ _) as [tid v] eqn:E.
  eexists. split_and!; [done|done|]. cbn. rewrite E. apply String.eqb_refl.
Qed.

Lemma active_tombstones event_id l evicted :
  active (l ++ (tombstone_of blake3_hex event_id <$> evicted))
  = list_to_set (EvictedRecord.record_id <$> evicted) ∪ active l.
Proof.
  induction evicted as [|r evicted IH] using rev_ind.
  { rewrite app_nil_r. cbn. set_solver. }
  rewrite !fmap_app, app_assoc. cbn [fmap list_fmap].
  destruct (tombstone_of_target event_id r) as (t & -> & Hd & Ht).
  rewrite active_snoc, Ht, IH, Hd, list_to_set_app_L. cbn. set_solver.
Qed.

Lemma state_tombstones event_id evicted id st :
  foldl (observe id) st (tombstone_of blake3_hex event_id <$> evicted)
  = if bool_decide (id ∈ EvictedRecord.record_id <$> evicted) then Tombstoned else st.
Proof.
  revert st. induction evicted as [|r evicted IH]; intros st; [done|]. csimpl.
  destruct (tombstone_of_target event_id r) as (t & -> & Hd & _). cbn [observe].
  rewrite Hd, IH. destruct (String.eqb_spec r.(EvictedRecord.record_id) id) as [Heq|Hne].
  - rewrite (bool_decide_eq_true_2 (id ∈ EvictedRecord.record_id r :: (EvictedRecord.record_id <$> evicted)))
      by (apply elem_of_cons; by left).
    by case_bool_decide.
  - rewrite (bool_decide_ext (id ∈ EvictedRecord.record_id <$> evicted)
      (id ∈ EvictedRecord.record_id r :: (EvictedRecord.record_id <$> evicted)));
      [done|]. rewrite elem_of_cons. naive_solver.
Qed.
End Tombstones.

(** ** Properties *)
Section Properties.
Import RepoEvict.
Context (blake3_hex : string → string) (parse_from_rfc3339 : string → result Z string) (now : string).
Abbreviation plan_of := (plan_eviction blake3_hex parse_from_rfc3339 now).
Abbreviation writes := (eviction_records blake3_hex).
Abbreviation evicted_ids plan := (EvictedRecord.record_id <$> plan.(EvictionPlan.evicted)).

(** The plan of a request that resolves, in terms of the attribution. *)
Lemma plan_inv records resolution req plan :
  plan_of records resolution req = Some (Ok plan) →
  ∃ index reached,
    RepoIndex.build (resolution_view blake3_hex resolution) = Some index
    ∧ resolve_selector index (trim req.(EvictionRequest.selector)) = Ok plan.(EvictionPlan.repository_id)
    ∧ attribute index records
      = Some (mkAttribution (node_records records) (edge_records records)
                (owners index (node_records records)) reached)
    ∧ (∀ y b, b ∈ default ∅ (reached !! y)
              ↔ b ∈ repository_ids index ∧ reached_from index records b y)
    ∧ (∀ y, reached !! y ≠ Some ∅)
    ∧ plan = decide_plan blake3_hex now
        (mkAttribution (node_records records) (edge_records records)
           (owners index (node_records records)) reached)
        plan.(EvictionPlan.repository_id)
        (display_of index plan.(EvictionPlan.repository_id))
        (head (omap (is_event_of blake3_hex plan.(EvictionPlan.repository_id)) records)) req.
Proof.
  unfold plan_eviction. destruct (validate_request _ _); [|done].
  destruct (RepoIndex.build _) as [index|]; cbn [mbind option_bind]; [|done].
  destruct (resolve_selector _ _) as [rid|] eqn:Hsel; [|done].
  destruct (attribute_spec index records) as (reached & Ha & Hr & Hne). rewrite Ha.
  cbn [mbind option_bind]. intros Hp.
  assert (decide_plan blake3_hex now
        (mkAttribution (node_records records) (edge_records records)
           (owners index (node_records records)) reached)
        rid (display_of index rid) (head (omap (is_event_of blake3_hex rid) records)) req = plan)
    as Hplan by congruence.
  assert (plan.(EvictionPlan.repository_id) = rid) as ->.
  { rewrite <-Hplan. unfold decide_plan, already_evicted_plan, assemble.
    destruct (head _) as [ev|]; [|done]. destruct (event_meta ev) as [[? ?] ?].
    by destruct (has_suppressible_live _ _ _). }
  exists index, reached. split_and!; [done..|by symmetry].
Qed.

(** The view holds the event of an earlier eviction of [target]. *)
Definition event_in_view (records : list GraphRecord) (target : string) : Prop :=
  ∃ n, Node n ∈ records ∧ n.(NodeRec.kind) = NodeKind.Retraction
    ∧ n.(NodeRec.source_handle) = Some target
    ∧ n.(NodeRec.id) = eviction_event_id blake3_hex target.

Lemma existing_event_spec records target :
  is_Some (head (omap (is_event_of blake3_hex target) records)) ↔ event_in_view records target.
Proof.
  rewrite head_is_Some. unfold event_in_view.
  assert (∀ r n, is_event_of blake3_hex target r = Some n ↔
    r = Node n ∧ n.(NodeRec.kind) = NodeKind.Retraction ∧ n.(NodeRec.source_handle) = Some target
    ∧ n.(NodeRec.id) = eviction_event_id blake3_hex target) as Hev.
  { intros [m|e|t] n; cbn; [|naive_solver..]. unfold opt_str_eqb. split.
    - case_bool_decide; [|done]. case_bool_decide; [|done]. cbn.
      destruct (String.eqb_spec m.(NodeRec.id) (eviction_event_id blake3_hex target)); [|done].
      by intros [= <-].
    - intros ([= ->] & Hk & Hs & Hi). rewrite Hi, String.eqb_refl.
      by rewrite !bool_decide_eq_true_2. }
  split.
  - intros Hne. destruct (omap _ records) as [|n l] eqn:E; [done|].
    assert (n ∈ omap (is_event_of blake3_hex target) records) as (r & Hr & Hn)%list_elem_of_omap
      by (rewrite E; by left).
    apply Hev in Hn as (-> & ?). by exists n.
  - intros (n & Hn & ?) Hnil. apply (not_elem_of_nil n). rewrite <-Hnil.
    apply list_elem_of_omap. exists (Node n). split; [done|]. by apply Hev.
Qed.

(** The three kinds of plan: nothing left to do, a repair and a first eviction; in the last two
    the lists are those of the attribution. *)
Lemma decide_plan_cases a rid display records req :
  let existing := head (omap (is_event_of blake3_hex rid) records) in
  let live := has_suppressible_live blake3_hex a rid in
  let plan := decide_plan blake3_hex now a rid display existing req in
  (plan.(EvictionPlan.already_evicted) = true ↔ event_in_view records rid ∧ live = false)
  ∧ (plan.(EvictionPlan.repair) = true ↔ event_in_view records rid ∧ live = true)
  ∧ (plan.(EvictionPlan.already_evicted) = true →
       ∃ event_node, plan = already_evicted_plan blake3_hex rid display event_node)
  ∧ (plan.(EvictionPlan.already_evicted) = false → ∃ repair by_ reason time,
       plan = assemble blake3_hex a rid display repair by_ reason time).
Proof.
  cbn zeta. rewrite <-existing_event_spec. unfold decide_plan.
  destruct (head _) as [ev|]; cbn zeta.
  2: { cbn. split_and!; [split; [done|]; by intros [[? ?] _]..|done|by eauto 10]. }
  destruct (has_suppressible_live _ _ _); cbn [negb].
  - destruct (event_meta ev) as [[? ?] ?]. cbn.
    split_and!; [split; [done|]; by intros [_ ?]|split; [intros _|done]; split; [by eexists|done]|done|].
    intros _. by eauto 10.
  - assert (∀ plan, plan = already_evicted_plan blake3_hex rid display ev →
      plan.(EvictionPlan.already_evicted) = true ∧ plan.(EvictionPlan.repair) = false) as Hflags.
    { intros plan ->. unfold already_evicted_plan. by destruct (event_meta ev) as [[? ?] ?]. }
    destruct (Hflags _ eq_refl) as [-> ->].
    split_and!; [split; [intros _|done]; split; [by eexists|done]|split; [done|]; by intros [_ ?]| |done].
    intros _. by exists ev.
Qed.

Lemma count_domains_lookup (l : list EvictedRecord.t) d :
  default 0 (count_domains l !! d) = length (filter (λ r, r.(EvictedRecord.domain) = d) l).
Proof.
  unfold count_domains. induction l as [|r l IH] using rev_ind.
  { cbn [foldl filter list_filter length]. unfold empty_by_domain.
    assert (∀ ds (m : gmap string nat), default 0 (m !! d) = 0 →
      default 0 (foldl (λ m domain, <[domain := 0]> m) m ds !! d) = 0) as H.
    { induction ds as [|e ds IH]; intros m Hm; [done|]. cbn [foldl]. apply IH.
      destruct (decide (d = e)) as [->|]; [by rewrite lookup_insert_eq|by rewrite lookup_insert_ne]. }
    apply H. by rewrite lookup_empty. }
  rewrite foldl_app, filter_app, length_app. cbn [foldl filter list_filter].
  destruct (decide (r.(EvictedRecord.domain) = d)) as [<-|Hne].
  - rewrite lookup_insert_eq. cbn [from_option id length]. by rewrite IH.
  - rewrite lookup_insert_ne by done. rewrite IH. cbn. lia.
Qed.

(** The three lists of an assembled plan. *)
Lemma assembled_lists index records reached target display rep by_ rea tim :
  (∀ y b, b ∈ default ∅ (reached !! y)
          ↔ b ∈ repository_ids index ∧ reached_from index records b y) →
  (∀ y, reached !! y ≠ Some ∅) →
  let plan := assemble blake3_hex (mkAttribution (node_records records) (edge_records records)
    (owners index (node_records records)) reached) target display rep by_ rea tim in
  (∀ r, r ∈ plan.(EvictionPlan.evicted)
        ↔ ∃ record, evicts blake3_hex index records target record ∧ r = projection record)
  ∧ (∀ r, r ∈ plan.(EvictionPlan.unattributable)
        ↔ ∃ n, node_records records !! n.(NodeRec.id) = Some n
            ∧ is_eviction_event blake3_hex n = false
            ∧ owner_of index n.(NodeRec.id) = None
            ∧ (∀ b, b ∈ repository_ids index → ¬ reached_from index records b n.(NodeRec.id))
            ∧ r = projection (Node n))
  ∧ (∀ r, r ∈ plan.(EvictionPlan.shared_cross_repo)
        ↔ ∃ n, node_records records !! n.(NodeRec.id) = Some n
            ∧ is_eviction_event blake3_hex n = false
            ∧ owner_of index n.(NodeRec.id) = None
            ∧ target ∈ repository_ids index ∧ reached_from index records target n.(NodeRec.id)
            ∧ (∃ b, b ∈ repository_ids index ∧ b ≠ target
                 ∧ reached_from index records b n.(NodeRec.id))
            ∧ r = projection (Node n)).
Proof.
  intros Hr Hne plan.
  assert (∀ n, node_records records !! n.(NodeRec.id) = Some n →
    owners index (node_records records) !! n.(NodeRec.id) = owner_of index n.(NodeRec.id)) as Hown.
  { intros n Hn. unfold owners. by rewrite map_lookup_imap, Hn. }
  subst plan. split_and!; intros r.
  - by apply elem_of_evicted_records.
  - cbn [assemble EvictionPlan.unattributable]. rewrite elem_of_projections by done.
    setoid_rewrite fate_Unattributable; [|done..]. split.
    + intros (n & Hn & (He & Ho & Hno) & ->). exists n. by rewrite <-Hown.
    + intros (n & Hn & He & Ho & Hno & ->). exists n. by rewrite Hown.
  - cbn [assemble EvictionPlan.shared_cross_repo]. rewrite elem_of_projections by done.
    setoid_rewrite fate_Shared; [|done..]. split.
    + intros (n & Hn & (He & Ho & Ht & Hrt & Hb') & ->). exists n. by rewrite <-Hown.
    + intros (n & Hn & He & Ho & Ht & Hrt & Hb' & ->). exists n. by rewrite Hown.
Qed.

(** C7: every eviction request is answered, and what its plan holds is fixed by the view. The
    plan reports the repository as already evicted, and then holds nothing and writes nothing,
    exactly when the view has the event of an earlier eviction and every record of the
    repository still in it is a temporal snapshot, which a tombstone cannot hide; it is a
    repair exactly when the event is there and some other record of the repository is. Every
    plan of the other two kinds takes exactly what is of the repository
    alone: the nodes of the view owned by the repository, or owned by
    nobody and reached over evidence edges from it and from no other repository, and the edges
    that start at one of them, sorted by id and counted by domain; a node that two
    repositories reach is reported as shared and one that none reaches as unattributable, and
    neither is evicted. Eviction events are left alone. *)
Theorem plan_evicts_own_records (records resolution : list GraphRecord) (req : EvictionRequest.t) :
  is_Some (plan_of records resolution req)
  ∧ ∀ plan, plan_of records resolution req = Some (Ok plan) →
      let target := plan.(EvictionPlan.repository_id) in
      ∃ index, RepoIndex.build (resolution_view blake3_hex resolution) = Some index
        ∧ resolve_selector index (trim req.(EvictionRequest.selector)) = Ok target
        ∧ (plan.(EvictionPlan.already_evicted) = true
           ↔ event_in_view records target ∧ ¬ suppressible_live blake3_hex index records target)
        ∧ (plan.(EvictionPlan.repair) = true
           ↔ event_in_view records target ∧ suppressible_live blake3_hex index records target)
        ∧ (plan.(EvictionPlan.already_evicted) = true →
             plan.(EvictionPlan.evicted) = [] ∧ plan.(EvictionPlan.unattributable) = []
             ∧ plan.(EvictionPlan.shared_cross_repo) = []
             ∧ plan.(EvictionPlan.temporal_snapshots_retained) = []
             ∧ plan.(EvictionPlan.cross_repo_citations) = [] ∧ writes plan = [])
        ∧ StronglySorted (cmp_le by_record_id) plan.(EvictionPlan.evicted)
        ∧ (∀ d, default 0 (plan.(EvictionPlan.by_domain) !! d)
                = length (filter (λ r, r.(EvictedRecord.domain) = d) plan.(EvictionPlan.evicted)))
        ∧ (plan.(EvictionPlan.already_evicted) = false →
           (∀ r, r ∈ plan.(EvictionPlan.evicted)
                 ↔ ∃ record, evicts blake3_hex index records target record ∧ r = projection record)
           ∧ (∀ r, r ∈ plan.(EvictionPlan.unattributable)
                 ↔ ∃ n, node_records records !! n.(NodeRec.id) = Some n
                     ∧ is_eviction_event blake3_hex n = false
                     ∧ owner_of index n.(NodeRec.id) = None
                     ∧ (∀ b, b ∈ repository_ids index → ¬ reached_from index records b n.(NodeRec.id))
                     ∧ r = projection (Node n))
           ∧ (∀ r, r ∈ plan.(EvictionPlan.shared_cross_repo)
                 ↔ ∃ n, node_records records !! n.(NodeRec.id) = Some n
                     ∧ is_eviction_event blake3_hex n = false
                     ∧ owner_of index n.(NodeRec.id) = None
                     ∧ target ∈ repository_ids index ∧ reached_from index records target n.(NodeRec.id)
                     ∧ (∃ b, b ∈ repository_ids index ∧ b ≠ target
                          ∧ reached_from index records b n.(NodeRec.id))
                     ∧ r = projection (Node n))).
Proof.
  split.
  { unfold plan_eviction. destruct (validate_request _ _); [|by eexists].
    destruct (build_eq (resolution_view blake3_hex resolution)) as (? & _ & _ & ? & _ & ->).
    cbn [mbind option_bind]. destruct (resolve_selector _ _) as [rid|]; [|by eexists].
    match goal with |- context [attribute ?i records] =>
      destruct (attribute_spec i records) as (reached & -> & _) end. by eexists. }
  intros plan Hplan. cbn zeta.
  destruct (plan_inv _ _ _ _ Hplan) as (index & reached & Hb & Hs & _ & Hr & Hne & Hp).
  destruct (decide_plan_cases (mkAttribution (node_records records) (edge_records records)
    (owners index (node_records records)) reached) plan.(EvictionPlan.repository_id)
    (display_of index plan.(EvictionPlan.repository_id)) records req)
    as (Hdone & Hrep & Hnoop & Hfull). 
  rewrite <-Hp in Hdone, Hrep, Hnoop, Hfull.
  rewrite has_suppressible_live_spec in Hrep by done.
  rewrite <-not_true_iff_false, has_suppressible_live_spec in Hdone by done.
  generalize dependent (plan.(EvictionPlan.repository_id)). intros target Hs Hp Hdone Hrep Hnoop Hfull.
  exists index. split; [done|]. split; [done|]. split; [done|]. split; [done|].
  destruct (EvictionPlan.already_evicted plan) eqn:Hal; [destruct (Hnoop eq_refl) as [ev ->]
    |destruct (Hfull eq_refl) as (rep & by_ & rea & tim & ->)].
  { unfold writes, already_evicted_plan. destruct (event_meta ev) as [[? ?] ?]. cbn [EvictionPlan.evicted
      EvictionPlan.unattributable EvictionPlan.shared_cross_repo EvictionPlan.by_domain
      EvictionPlan.temporal_snapshots_retained EvictionPlan.cross_repo_citations
      EvictionPlan.already_evicted].
    split; [done|]. split; [constructor|]. split; [|done]. intros d. apply (count_domains_lookup [] d). }
  split; [done|]. split; [apply sort_by_sorted; apply _|]. split; [intros d; apply count_domains_lookup|].
  intros _. by apply assembled_lists.
Qed.

Lemma already_evicted_nil records resolution req plan :
  plan_of records resolution req = Some (Ok plan) → plan.(EvictionPlan.already_evicted) = true →
  plan.(EvictionPlan.evicted) = [].
Proof.
  intros Hplan Ha. destruct (plan_inv _ _ _ _ Hplan) as (index & reached & _ & _ & _ & _ & _ & Hp).
  revert Ha. rewrite Hp. unfold decide_plan, already_evicted_plan, assemble.
  destruct (head _) as [ev|]; [|done]. destruct (event_meta ev) as [[? ?] ?].
  by destruct (negb _).
Qed.

Lemma event_is_node event :
  ∃ n, build_event_node event = Node n ∧ n.(NodeRec.id) = event.(RepoEvictionEvent.event_id).
Proof. by eexists. Qed.

Lemma effect_spec store records resolution req plan id :
  plan_of records resolution req = Some (Ok plan) →
  let store' := store ++ writes plan in
  let revived := plan.(EvictionPlan.already_evicted) = false ∧ plan.(EvictionPlan.repair) = false
                 ∧ id = plan.(EvictionPlan.event).(RepoEvictionEvent.event_id) in
  (id ∈ active_eviction_tombstoned_ids blake3_hex store'
   ↔ id ∈ evicted_ids plan
     ∨ (id ∈ active_eviction_tombstoned_ids blake3_hex store ∧ ¬ revived))
  ∧ (id ∈ evicted_ids plan → id_state_of id store' = Tombstoned)
  ∧ (id ∉ evicted_ids plan → ¬ revived → id_state_of id store' = id_state_of id store)
  ∧ (id ∉ evicted_ids plan → revived → id_state_of id store' = Written).
Proof.
  intros Hplan. cbn zeta. unfold eviction_records.
  destruct (EvictionPlan.already_evicted plan) eqn:Ha.
  { rewrite app_nil_r, (already_evicted_nil _ _ _ _ Hplan Ha). cbn. set_unfold. naive_solver. }
  destruct (event_is_node plan.(EvictionPlan.event)) as (n & -> & Hid).
  assert (∀ l st, id_state_of id l = st → id_state_of id
      (l ++ (tombstone_of blake3_hex plan.(EvictionPlan.event).(RepoEvictionEvent.event_id)
               <$> plan.(EvictionPlan.evicted)))
    = if bool_decide (id ∈ evicted_ids plan) then Tombstoned else st) as Hst.
  { intros l st <-. unfold id_state_of. rewrite foldl_app. apply state_tombstones. }
  rewrite app_assoc, active_tombstones, elem_of_union, elem_of_list_to_set, (Hst _ _ eq_refl).
  destruct (EvictionPlan.repair plan).
  - rewrite app_nil_r. split_and!.
    + split; [intros [?|?]; [by left|right; split; [done|by intros (_ & ? & _)]]|].
      intros [?|[? _]]; auto.
    + intros Hin. by rewrite bool_decide_eq_true_2.
    + intros Hin _. by rewrite bool_decide_eq_false_2.
    + by intros _ (_ & ? & _).
  - rewrite active_snoc, elem_of_difference, elem_of_singleton, Hid. split_and!.
    + split; (intros [?|[? Hne]]; [by left|right; split; [done|]]); naive_solver.
    + intros Hin. by rewrite bool_decide_eq_true_2.
    + intros Hin Hrev. rewrite bool_decide_eq_false_2 by done.
      unfold id_state_of. rewrite foldl_app. cbn. rewrite Hid.
      destruct (String.eqb_spec plan.(EvictionPlan.event).(RepoEvictionEvent.event_id) id) as [Heq|];
        [|done]. exfalso. apply Hrev. by split_and!.
    + intros Hin (_ & _ & ->). rewrite bool_decide_eq_false_2 by done.
      unfold id_state_of. rewrite foldl_app. cbn. by rewrite Hid, String.eqb_refl.
Qed.

(** C8: writing a plan suppresses exactly the evicted records. After the records of a plan are
    appended to any store, the active eviction tombstones are those of the evicted ids and the
    ones that were active before, and so are the tombstones current-state reads obey; the
    state of every other id is as it was, the fresh event node apart, whose id is written. *)
Theorem eviction_effect (store records resolution : list GraphRecord) (req : EvictionRequest.t)
    (plan : EvictionPlan.t) (Hplan : plan_of records resolution req = Some (Ok plan)) :
  let store' := store ++ writes plan in
  let revived id := plan.(EvictionPlan.already_evicted) = false ∧ plan.(EvictionPlan.repair) = false
                    ∧ id = plan.(EvictionPlan.event).(RepoEvictionEvent.event_id) in
  ∀ id,
    (id ∈ active_eviction_tombstoned_ids blake3_hex store'
     ↔ id ∈ evicted_ids plan
       ∨ (id ∈ active_eviction_tombstoned_ids blake3_hex store ∧ ¬ revived id))
    ∧ (id ∈ evicted_ids plan → id_state_of id store' = Tombstoned)
    ∧ (id ∉ evicted_ids plan → ¬ revived id → id_state_of id store' = id_state_of id store).
Proof.
  cbn zeta. intros id.
  destruct (effect_spec store _ _ _ _ id Hplan) as (H1 & H2 & H3 & _). by split_and!.
Qed.
End Properties.

(** ** A concrete store *)
Module Demo.
(** The hash is replaced by the text itself. *)
Definition hex (s : string) : string := s.
Definition accept (s : string) : result Z string := Ok 0%Z.
Definition repo (id name : string) : GraphRecord :=
  GraphRecord.node id NodeKind.Repository None None (Some name) "".
Definition file (id : string) : GraphRecord := GraphRecord.node id NodeKind.File None None (Some id) "".
Definition memory (id : string) : GraphRecord :=
  GraphRecord.node id NodeKind.Observation None None (Some id) "".
Definition link (label : EdgeLabel.t) (source target : string) : GraphRecord :=
  GraphRecord.edge hex label source target None "".

(** Two repositories of a file each, a memory of each file, one of both and one of neither. *)
Definition store : list GraphRecord :=
  [repo "codegraph:v2:a" "alpha"; repo "codegraph:v2:b" "beta"; file "fa"; file "fb";
   memory "ma"; memory "mb"; memory "mab"; memory "none";
   link EdgeLabel.Contains "codegraph:v2:a" "fa"; link EdgeLabel.Contains "codegraph:v2:b" "fb";
   link EdgeLabel.Observes "ma" "fa"; link EdgeLabel.Observes "mb" "fb";
   link EdgeLabel.Observes "mab" "fa"; link EdgeLabel.Observes "mab" "fb"].

Definition request : RepoEvict.EvictionRequest.t :=
  RepoEvict.EvictionRequest.mk " alpha " "moved to its own store" "operator" None.

Definition plan_over (records resolution : list GraphRecord)
    : option (result RepoEvict.EvictionPlan.t RepoEvict.EvictError) :=
  RepoEvict.plan_eviction hex accept "now" records resolution request.

Definition ids (l : list RepoEvict.EvictedRecord.t) : list string :=
  RepoEvict.EvictedRecord.record_id <$> l.

Definition the_plan : RepoEvict.EvictionPlan.t :=
  match plan_over store store with
  | Some (Ok p) => p
  | _ => RepoEvict.EvictionPlan.mk "" None true false [] ∅ [] [] [] []
           (RepoEvict.RepoEvictionEvent.mk "" "" "" "" "" [])
  end.

(** The file and its memory go, with the edges that start at them; the memory of both files
    stays and is cited as shared. *)
Example demo_plan :
  plan_over store store = Some (Ok the_plan)
  ∧ filter (λ id, id ∈ ["codegraph:v2:a"; "fa"; "ma"; "mab"; "fb"; "mb"; "none"])
      (ids (RepoEvict.EvictionPlan.evicted the_plan)) = ["codegraph:v2:a"; "fa"; "ma"]
  ∧ length (RepoEvict.EvictionPlan.evicted the_plan) = 5
  ∧ ids (RepoEvict.EvictionPlan.shared_cross_repo the_plan) = ["mab"]
  ∧ ids (RepoEvict.EvictionPlan.unattributable the_plan) = ["none"]
  ∧ (RepoEvict.CrossRepoCitation.citing_repository
       <$> RepoEvict.EvictionPlan.cross_repo_citations the_plan) = [Some "codegraph:v2:b"].
Proof. vm_compute. repeat split. Qed.

(** Planning again once the writes are in the store and the evicted records out of the view
    finds nothing to do. *)
Definition view_after : list GraphRecord :=
  filter (λ r, GraphRecord.id r ∉ ids (RepoEvict.EvictionPlan.evicted the_plan)) store
    ++ RepoEvict.eviction_records hex the_plan.
Definition store_after : list GraphRecord := store ++ RepoEvict.eviction_records hex the_plan.

Definition the_rerun : RepoEvict.EvictionPlan.t :=
  match plan_over view_after store_after with Some (Ok p) => p | _ => the_plan end.

Example demo_rerun :
  plan_over view_after store_after = Some (Ok the_rerun)
  ∧ RepoEvict.EvictionPlan.already_evicted the_rerun = true.
Proof. vm_compute. split; reflexivity. Qed.

(** When a record of the repository is live again the plan repairs the eviction: its tombstone is
    issued again and no second event is written. *)
Example demo_repair :
  (λ r, match r with
        | Ok p => Some (RepoEvict.EvictionPlan.repair p, ids (RepoEvict.EvictionPlan.evicted p),
                        length (RepoEvict.eviction_records hex p))
        | Err _ => None
        end) <$> plan_over (view_after ++ [repo "codegraph:v2:a" "alpha"])
                   (store_after ++ [repo "codegraph:v2:a" "alpha"])
  = Some (Some (true, ["codegraph:v2:a"], 1)).
Proof. vm_compute. reflexivity. Qed.
End Demo.

(** The first plan takes the memory of the repository's file, and planning again once its
    writes are in the store and the evicted records out of the view finds the repository
    evicted, with its event in the view and nothing a tombstone could still hide. *)
Lemma plan_evicts_own_records_witness :
  (∃ index record, RepoIndex.build Demo.store = Some index
     ∧ evicts Demo.hex index Demo.store "codegraph:v2:a" record ∧ GraphRecord.id record = "ma")
  ∧ ∃ index, event_in_view Demo.hex Demo.view_after "codegraph:v2:a"
      ∧ ¬ suppressible_live Demo.hex index Demo.view_after "codegraph:v2:a".
Proof.
  split.
  - destruct (plan_evicts_own_records Demo.hex Demo.accept "now" Demo.store Demo.store Demo.request)
      as [_ H].
    destruct (H Demo.the_plan) as (index & Hb & _ & _ & _ & _ & _ & _ & Hfull); [vm_compute; reflexivity|].
    destruct Hfull as [Hev _]; [vm_compute; reflexivity|].
    destruct (proj1 (Hev (RepoEvict.EvictedRecord.mk "ma" "agent_memory" "Observation")))
      as (record & Hr & Hp).
    { apply (list_elem_of_lookup_2 _ 4). vm_compute. reflexivity. }
    exists index, record. split; [|split].
    + exact Hb.
    + exact Hr.
    + injection Hp as Hid _ _. symmetry. exact Hid.
  - destruct (plan_evicts_own_records Demo.hex Demo.accept "now" Demo.view_after Demo.store_after
      Demo.request) as [_ H].
    destruct (H Demo.the_rerun) as (index & _ & _ & Hdone & _); [vm_compute; reflexivity|].
    exists index. apply Hdone. vm_compute. reflexivity.
Defined.

Lemma eviction_effect_witness :
  id_state_of "fa" (Demo.store ++ RepoEvict.eviction_records Demo.hex Demo.the_plan) = Tombstoned.
Proof.
  apply (eviction_effect Demo.hex Demo.accept "now" Demo.store Demo.store Demo.store Demo.request
    Demo.the_plan ltac:(vm_compute; reflexivity) "fa").
  apply (bool_decide_eq_true_1 _). vm_compute. reflexivity.
Defined.
