(* ===== verification/RecordEq.v ===== *)
(** * Equality of records

    The derived [PartialEq] of the payload structs and of [GraphRecord] ([src/src/ir.rs]), as
    decidable equality. A float is its bit pattern (see [Ir.f64]), so this agrees with the
    derived equality except on NaN and signed zeros, which JSON numbers read from a graph file
    do not produce. *)
From S2P Require Import Prelude RustStr Ir.

#[export] Instance EgregoreGit_eq_dec : EqDecision EgregoreGit.t.
Proof. solve_decision. Defined.
#[export] Instance Producer_eq_dec : EqDecision Producer.t.
Proof. solve_decision. Defined.
#[export] Instance OutputHandle_eq_dec : EqDecision OutputHandle.t.
Proof. solve_decision. Defined.
#[export] Instance PatchHandle_eq_dec : EqDecision PatchHandle.t.
Proof. solve_decision. Defined.
#[export] Instance NodeProvenance_eq_dec : EqDecision NodeProvenance.t.
Proof. solve_decision. Defined.
#[export] Instance CostUsagePayload_eq_dec : EqDecision CostUsagePayload.t.
Proof. solve_decision. Defined.
#[export] Instance RepositoryIdentityPayload_eq_dec : EqDecision RepositoryIdentityPayload.t.
Proof. solve_decision. Defined.
#[export] Instance SnapshotHead_eq_dec : EqDecision SnapshotHead.t.
Proof. solve_decision. Defined.
#[export] Instance SourceSnapshotPayload_eq_dec : EqDecision SourceSnapshotPayload.t.
Proof. solve_decision. Defined.
#[export] Instance DependencyDeclarationPayload_eq_dec : EqDecision DependencyDeclarationPayload.t.
Proof. solve_decision. Defined.
#[export] Instance ScanCoveragePayload_eq_dec : EqDecision ScanCoveragePayload.t.
Proof. solve_decision. Defined.
#[export] Instance HistoryReplayWindowPayload_eq_dec : EqDecision HistoryReplayWindowPayload.t.
Proof. solve_decision. Defined.
#[export] Instance HistoryReplayTipPayload_eq_dec : EqDecision HistoryReplayTipPayload.t.
Proof. solve_decision. Defined.
#[export] Instance LogSourcePayload_eq_dec : EqDecision LogSourcePayload.t.
Proof. solve_decision. Defined.
#[export] Instance StackFrame_eq_dec : EqDecision StackFrame.t.
Proof. solve_decision. Defined.
#[export] Instance ErrorSignaturePayload_eq_dec : EqDecision ErrorSignaturePayload.t.
Proof. solve_decision. Defined.
#[export] Instance LogEventPayload_eq_dec : EqDecision LogEventPayload.t.
Proof. solve_decision. Defined.
#[export] Instance LogOccurrenceBucketPayload_eq_dec : EqDecision LogOccurrenceBucketPayload.t.
Proof. solve_decision. Defined.
#[export] Instance LogPayload_eq_dec : EqDecision LogPayload.t.
Proof. solve_decision. Defined.
#[export] Instance SourceSpan_eq_dec : EqDecision SourceSpan.t.
Proof. solve_decision. Defined.
#[export] Instance EvidenceLink_eq_dec : EqDecision EvidenceLink.t.
Proof. solve_decision. Defined.
#[export] Instance UserContextScope_eq_dec : EqDecision UserContextScope.t.
Proof. solve_decision. Defined.
#[export] Instance UserContextFields_eq_dec : EqDecision UserContextFields.t.
Proof. solve_decision. Defined.
#[export] Instance TemporalMetadata_eq_dec : EqDecision TemporalMetadata.t.
Proof. solve_decision. Defined.
#[export] Instance EmbeddingModel_eq_dec : EqDecision EmbeddingModel.t.
Proof. solve_decision. Defined.
#[export] Instance SemanticDriftMetadata_eq_dec : EqDecision SemanticDriftMetadata.t.
Proof. solve_decision. Defined.
#[export] Instance RouteAnnotation_eq_dec : EqDecision RouteAnnotation.t.
Proof. solve_decision. Defined.
#[export] Instance DeprecationMark_eq_dec : EqDecision DeprecationMark.t.
Proof. solve_decision. Defined.
#[export] Instance LintSuppressionFacts_eq_dec : EqDecision LintSuppressionFacts.t.
Proof. solve_decision. Defined.
#[export] Instance EntryPointMark_eq_dec : EqDecision EntryPointMark.t.
Proof. solve_decision. Defined.
#[export] Instance CrateAttribution_eq_dec : EqDecision CrateAttribution.t.
Proof. solve_decision. Defined.
#[export] Instance NodeRec_eq_dec : EqDecision NodeRec.t.
Proof. solve_decision. Defined.
#[export] Instance EdgeRec_eq_dec : EqDecision EdgeRec.t.
Proof. solve_decision. Defined.
#[export] Instance TombRec_eq_dec : EqDecision TombRec.t.
Proof. solve_decision. Defined.
#[export] Instance GraphRecord_eq_dec : EqDecision GraphRecord.
Proof. solve_decision. Defined.
