(* ===== verification/Ingest.v ===== *)
(** * Ingestion of records into a sink ([src/src/adapters/mod.rs])

    The sink interface with its contract, the two sinks of the file, the citation check that
    keeps dangling evidence out of the store, and the ingest report. A sink is a state [S];
    a method on [&mut self] returns the new state even when it fails. [json_object] is the
    external printer of a JSON object of strings. *)
From S2P Require Import Prelude RustStr Ir IrOps SchemaVersion Liveness RecordEq.

Module AdapterError.
(* adapters/mod.rs 47-173: AdapterError *)
Inductive t : Type :=
| Parse (line : nat) (message : string)
| Rejected (record_id message : string)
| Contended (data_dir message : string)
| StorageModeMismatch (data_dir message : string)
| EncryptedStoreKeyUnavailable (key_source message : string)
| EncryptedStoreKeyError (key_source message : string)
| ReadBack (record_id message : string)
| TimedOut (record_id : string)
| UnknownSchemaVersion (line : option nat) (version : RecordVersion.t)
| CapacityExceeded (resource : string) (limit : option N) (detail : string).

(** The [#[error(..)]] formats. *)
(* adapters/mod.rs 47-173: AdapterError *)
Definition to_string (self : t) : string :=
  match self with
  | Parse line message =>
      "failed to parse graph JSONL line " +:+ dec (N.of_nat line) +:+ ": " +:+ message
  | Rejected record_id message => "sink rejected record " +:+ record_id +:+ ": " +:+ message
  | Contended _ message => "store_contended: " +:+ message
  | StorageModeMismatch _ message => "storage_mode_mismatch: " +:+ message
  | EncryptedStoreKeyUnavailable _ message => "encrypted_store_key_unavailable: " +:+ message
  | EncryptedStoreKeyError _ message => "encrypted_store_key_error: " +:+ message
  | ReadBack record_id message =>
      "read-back verification failed for record " +:+ record_id +:+ ": " +:+ message
  | TimedOut record_id => "read-back timed out for record " +:+ record_id
  | UnknownSchemaVersion _ version => "unknown_schema_version: " +:+ RecordVersion.display version
  | CapacityExceeded resource limit detail =>
      "capacity exceeded for " +:+ resource +:+ " (limit "
      +:+ match limit with Some n => "Some(" +:+ dec n +:+ ")" | None => "None" end
      +:+ "): " +:+ detail
  end.
End AdapterError.

(* adapters/mod.rs 188-191: is_string_interner_capacity_error *)
Definition is_string_interner_capacity_error (message : string) : bool :=
  let contains pat := is_some (split_once pat message) in
  (contains "Capacity exceeded" && contains "string interner") || contains "DoS protection".

(* adapters/mod.rs 201-206: WriteOutcome *)
Inductive WriteOutcome : Set := Inserted | Unchanged.

#[export] Instance WriteOutcome_eq_dec : EqDecision WriteOutcome.
Proof. solve_decision. Defined.

Abbreviation AdapterResult A := (result A AdapterError.t).

(** ** The sink *)

(** The trait: the two required methods, and the batched write with its default. *)
(* adapters/mod.rs 209-270: GraphSink *)
Class GraphSink (S : Type) := {
  write_record : GraphRecord → S → S * AdapterResult WriteOutcome;
  read_back : S → string → AdapterResult (option GraphRecord);
  write_and_verify_records : list GraphRecord → S → S * list (AdapterResult WriteOutcome)
}.

Section Defaults.
Context {S : Type}.
Context (write_record : GraphRecord → S → S * AdapterResult WriteOutcome).
Context (read_back : S → string → AdapterResult (option GraphRecord)).

(* adapters/mod.rs 233-245: GraphSink::verify_record *)
Definition verify_record (record : GraphRecord) (sink : S) : AdapterResult unit :=
  let? found := read_back sink (GraphRecord.id record) in
  match found with
  | Some found =>
      if bool_decide (found = record) then Ok ()
      else Err (AdapterError.ReadBack (GraphRecord.id record) "record mismatch")
  | None => Err (AdapterError.ReadBack (GraphRecord.id record) "record missing after write")
  end.

(* adapters/mod.rs 837-841: validate_adapter_record_version *)
Definition validate_adapter_record_version (record : GraphRecord) : AdapterResult unit :=
  map_err (λ unknown, AdapterError.UnknownSchemaVersion None unknown.(UnknownSchemaVersion.version))
    (validate_record_version record).

(* adapters/mod.rs 827-835: write_and_verify *)
Definition write_and_verify (record : GraphRecord) (sink : S) : S * AdapterResult WriteOutcome :=
  match validate_adapter_record_version record with
  | Err e => (sink, Err e)
  | Ok _ =>
      let '(sink, outcome) := write_record record sink in
      (sink, let? outcome := outcome in let? _u := verify_record record sink in Ok outcome)
  end.

(** The provided method: record by record. *)
(* adapters/mod.rs 258-269: GraphSink::write_and_verify_records *)
Fixpoint compose_writes (records : list GraphRecord) (sink : S)
    : S * list (AdapterResult WriteOutcome) :=
  match records with
  | [] => (sink, [])
  | record :: rest =>
      let '(sink, r) := write_and_verify record sink in
      let '(sink, rs) := compose_writes rest sink in
      (sink, r :: rs)
  end.
End Defaults.

(** The contract every override of the batched write keeps, as the trait documents it. *)
Class GraphSinkContract (S : Type) `{GraphSink S} : Prop :=
  batched_write records (sink : S) :
    write_and_verify_records records sink = compose_writes write_record read_back records sink.

Module IngestReport.
(* adapters/mod.rs 281-294: IngestReport *)
Record t : Type := mk {
  attempted : nat;
  succeeded : nat;
  failed : nat;
  failures : list (string * string);
  inserted : nat;
  unchanged : nat
}.
Definition default : t := mk 0 0 0 [] 0 0.

(* adapters/mod.rs 299-301: IngestReport::is_success *)
Definition is_success (self : t) : bool := (self.(failed) =? 0)%nat.
End IngestReport.
Abbreviation Report := IngestReport.t.

(* adapters/mod.rs 357-365: DanglingCitationPolicy *)
Inductive DanglingCitationPolicy : Set := Quarantine | RejectBatch.

#[export] Instance DanglingCitationPolicy_eq_dec : EqDecision DanglingCitationPolicy.
Proof. solve_decision. Defined.

(* adapters/mod.rs 371-376: DanglingCitationPolicy::as_str *)
Definition policy_as_str (self : DanglingCitationPolicy) : string :=
  match self with Quarantine => "quarantine" | RejectBatch => "reject-batch" end.

(* adapters/mod.rs 348-348: DANGLING_EVIDENCE_CITATION_CODE *)
Definition DANGLING_EVIDENCE_CITATION_CODE : string := "dangling_evidence_citation".

(** ** The checked vocabulary *)

(** The hand-written listing of the audit module. *)
(* evidence_link_audit.rs 45-93: ALL_EDGE_LABELS *)
Definition ALL_EDGE_LABELS : list EdgeLabel.t :=
  [EdgeLabel.Contains; EdgeLabel.Defines; EdgeLabel.Imports; EdgeLabel.References; EdgeLabel.Calls; EdgeLabel.Implements; EdgeLabel.Mentions; EdgeLabel.ChangedIn; EdgeLabel.ParentOf; EdgeLabel.DriftsFrom; EdgeLabel.DriftsPrior; EdgeLabel.MeasuredBy; EdgeLabel.SessionOf; EdgeLabel.AuthoredBy; EdgeLabel.HasEvidence; EdgeLabel.Observes; EdgeLabel.MentionsSymbol; EdgeLabel.TouchedFile; EdgeLabel.ProducedPatch; EdgeLabel.ProducedEvidence; EdgeLabel.ValidatedBy; EdgeLabel.ClosesAcceptanceCriterion; EdgeLabel.OwnedByTask; EdgeLabel.ExternalHandle; EdgeLabel.TouchesFile; EdgeLabel.MergedAs; EdgeLabel.ReviewsCommit; EdgeLabel.ReviewedBy; EdgeLabel.RequestedReviewFrom; EdgeLabel.TransitionsReview; EdgeLabel.FailedOn; EdgeLabel.ExplainsChange; EdgeLabel.ReferencesTask; EdgeLabel.Contradicts; EdgeLabel.Supersedes; EdgeLabel.ProposedBy; EdgeLabel.PromptedFor; EdgeLabel.DecidedOn; EdgeLabel.MaterializedAs; EdgeLabel.RevokedBy; EdgeLabel.ScopedToRepo; EdgeLabel.RelatesTo; EdgeLabel.FingerprintedAs; EdgeLabel.CapturedFrom; EdgeLabel.Aggregates; EdgeLabel.FrameResolvesTo; EdgeLabel.EmittedDuring].

(* evidence_link_audit.rs 104-158: is_integrity_checked_evidence_edge *)
Definition is_integrity_checked_evidence_edge (label : EdgeLabel.t) : bool :=
  match label with
  | EdgeLabel.HasEvidence | EdgeLabel.Observes | EdgeLabel.MentionsSymbol | EdgeLabel.TouchedFile | EdgeLabel.ProducedPatch | EdgeLabel.ProducedEvidence | EdgeLabel.ValidatedBy | EdgeLabel.ClosesAcceptanceCriterion | EdgeLabel.OwnedByTask | EdgeLabel.ExternalHandle | EdgeLabel.DependsOn | EdgeLabel.TouchesFile | EdgeLabel.MergedAs | EdgeLabel.ReviewsCommit | EdgeLabel.ReviewedBy | EdgeLabel.RequestedReviewFrom | EdgeLabel.TransitionsReview | EdgeLabel.FailedOn | EdgeLabel.ExplainsChange | EdgeLabel.ReferencesTask | EdgeLabel.Contradicts | EdgeLabel.Supersedes | EdgeLabel.RelatesTo | EdgeLabel.FrameResolvesTo | EdgeLabel.EmittedDuring | EdgeLabel.MaterializedAs | EdgeLabel.ProposedBy | EdgeLabel.PromptedFor | EdgeLabel.DecidedOn | EdgeLabel.RevokedBy | EdgeLabel.ScopedToRepo | EdgeLabel.FingerprintedAs | EdgeLabel.CapturedFrom | EdgeLabel.Aggregates => true
  | EdgeLabel.Contains | EdgeLabel.Defines | EdgeLabel.Imports | EdgeLabel.References
  | EdgeLabel.Calls | EdgeLabel.Constructs | EdgeLabel.RegistersRoute | EdgeLabel.Implements
  | EdgeLabel.Mentions | EdgeLabel.ChangedIn | EdgeLabel.ParentOf | EdgeLabel.DriftsFrom
  | EdgeLabel.DriftsPrior | EdgeLabel.MeasuredBy | EdgeLabel.SessionOf | EdgeLabel.AuthoredBy => false
  end.

(* evidence_link_audit.rs 184-189: edge_label_from_wire *)
Definition edge_label_from_wire (wire : string) : option EdgeLabel.t :=
  List.find (λ label, EdgeLabel.as_str label =s? wire) ALL_EDGE_LABELS.

(** ** Citations *)
Module EvidenceCitation.
(* adapters/mod.rs 392-402: EvidenceCitation *)
Record t : Type := mk {
  citing_record_id : string;
  target_record_id : string;
  relation : string;
  target_domain : string
}.
End EvidenceCitation.
Abbreviation Citation := EvidenceCitation.t.

(** An inline link of a node that is an ID reference in the checked vocabulary. *)
(* adapters/mod.rs 431-456: collect_evidence_citations *)
Definition link_citation (id : string) (link : EvidenceLink.t) : option Citation :=
  match edge_label_from_wire link.(EvidenceLink.relation) with
  | None => None
  | Some label =>
      if negb (is_integrity_checked_evidence_edge label) then None
      else match link.(EvidenceLink.target_record_id) with
           | Some target =>
               if target =s? "" then None
               else Some (EvidenceCitation.mk id target link.(EvidenceLink.relation)
                            link.(EvidenceLink.target_domain))
           | None => None
           end
  end.

(* adapters/mod.rs 405-462: collect_evidence_citations *)
Definition record_citations (record : GraphRecord) : list Citation :=
  match record with
  | Edge e =>
      if is_integrity_checked_evidence_edge e.(EdgeRec.label)
      then [EvidenceCitation.mk e.(EdgeRec.id) e.(EdgeRec.target) (EdgeLabel.as_str e.(EdgeRec.label))
              (default "unknown" (domain_from_record_id e.(EdgeRec.target)))]
      else []
  | Node n =>
      omap (link_citation n.(NodeRec.id))
        (default [] n.(NodeRec.evidence_links)
         ++ default [] n.(NodeRec.user_context).(UserContextFields.supporting_evidence)
         ++ default [] n.(NodeRec.user_context).(UserContextFields.contradicting_evidence))
  | Tombstone _ => []
  end.
(* adapters/mod.rs 405-462: collect_evidence_citations *)
Definition collect_evidence_citations (records : list GraphRecord) : list Citation :=
  records ≫= record_citations.

Module CitationResolution.
(* adapters/mod.rs 482-493: CitationResolution *)
Record t : Type := mk {
  batch_live_nodes : gset string;
  batch_liveness : Liveness.t;
  quarantined : gset string;
  store_cache : gmap string bool
}.

(* adapters/mod.rs 496-511: CitationResolution::new *)
Definition new (records : list GraphRecord) : t :=
  let batch_liveness := Liveness.new records in
  let nodes : gset string := list_to_set
    (omap (λ r, match r with Node n => Some n.(NodeRec.id) | _ => None end) records) in
  mk (filter (λ id : string, Liveness.deleted batch_liveness id = false) nodes) batch_liveness ∅ ∅.
End CitationResolution.
Abbreviation Resolution := CitationResolution.t.

Section Ingest.
Context (json_object : list (string * string) → string).
Context {S : Type} `{GraphSink S}.

(* adapters/mod.rs 470-479: dangling_citation_diagnostic *)
Definition dangling_citation_diagnostic (citation : Citation) : string :=
  json_object [("code", DANGLING_EVIDENCE_CITATION_CODE);
               ("citing_record_id", citation.(EvidenceCitation.citing_record_id));
               ("target_record_id", citation.(EvidenceCitation.target_record_id));
               ("relation", citation.(EvidenceCitation.relation));
               ("target_domain", citation.(EvidenceCitation.target_domain))].

(** [matches!(sink.read_back(target), Ok(Some(GraphRecord::Node { .. })))]. *)
(* adapters/mod.rs 538-538: CitationResolution::target_is_live *)
Definition store_live (sink : S) (target : string) : bool :=
  match read_back sink target with Ok (Some (Node _)) => true | _ => false end.

(* adapters/mod.rs 528-539: CitationResolution::target_is_live *)
Definition target_is_live (sink : S) (self : Resolution) (target : string) : Resolution * bool :=
  if bool_decide (target ∈ self.(CitationResolution.batch_live_nodes))
     && negb (bool_decide (target ∈ self.(CitationResolution.quarantined))) then (self, true)
  else if Liveness.deleted self.(CitationResolution.batch_liveness) target then (self, false)
  else match self.(CitationResolution.store_cache) !! target with
       | Some live => (self, live)
       | None =>
           let live := store_live sink target in
           (self{{ CitationResolution.store_cache ::= <[target := live]> }}, live)
       end.

(** [cites.iter().find(|c| !resolution.target_is_live(sink, c.target_record_id))]. *)
(* adapters/mod.rs 590-592: ingest_records_with_policy *)
Fixpoint find_dangling (sink : S) (resolution : Resolution) (cites : list Citation)
    : Resolution * option Citation :=
  match cites with
  | [] => (resolution, None)
  | citation :: cites =>
      let '(resolution, live) :=
        target_is_live sink resolution citation.(EvidenceCitation.target_record_id) in
      if live then find_dangling sink resolution cites else (resolution, Some citation)
  end.

(* adapters/mod.rs 570-576: ingest_records_with_policy *)
Definition group_by_citer (citations : list Citation) : gmap string (list Citation) :=
  foldl (λ m (c : Citation),
    let id := c.(EvidenceCitation.citing_record_id) in <[id := default [] (m !! id) ++ [c]]> m)
    ∅ citations.

(** One citer of a round of the fixpoint. *)
(* adapters/mod.rs 586-596: ingest_records_with_policy *)
Definition check_citer (sink : S) (by_citer : gmap string (list Citation))
    (acc : Resolution * list (string * string)) (citer : string)
    : Resolution * list (string * string) :=
  let '(resolution, newly) := acc in
  if bool_decide (citer ∈ resolution.(CitationResolution.quarantined)) then acc
  else
    let '(resolution, found) := find_dangling sink resolution (default [] (by_citer !! citer)) in
    (resolution, match found with
                 | Some citation => newly ++ [(citer, dangling_citation_diagnostic citation)]
                 | None => newly
                 end).

(** [for (citer, diagnostic) in newly { diagnostics.insert(citer, diagnostic); }] *)
Definition insert_all (newly : list (string * string)) (diagnostics : gmap string string)
    : gmap string string :=
  foldl (λ (d : gmap string string) '(citer, diagnostic), <[citer := diagnostic]> d) diagnostics newly.

(** The quarantine loop: a round that quarantines nobody ends it. *)
(* adapters/mod.rs 584-604: ingest_records_with_policy *)
Fixpoint quarantine_loop (fuel : nat) (sink : S) (by_citer : gmap string (list Citation))
    (resolution : Resolution) (diagnostics : gmap string string)
    : option (Resolution * gmap string string) :=
  match fuel with
  | 0%nat => None
  | Datatypes.S fuel' =>
      let '(resolution, newly) :=
        foldl (check_citer sink by_citer) (resolution, []) (keys by_citer) in
      match newly with
      | [] => Some (resolution, diagnostics)
      | _ =>
          quarantine_loop fuel' sink by_citer
            (resolution{{ CitationResolution.quarantined ::= λ q, list_to_set (fst <$> newly) ∪ q }})
            (insert_all newly diagnostics)
      end
  end.

(* adapters/mod.rs 606-611: ingest_records_with_policy *)
Definition diagnostic_for (diagnostics : gmap string string) (citer : string) : string :=
  default (DANGLING_EVIDENCE_CITATION_CODE +:+ ": no dangling citation found") (diagnostics !! citer).

(* adapters/mod.rs 844-852: ordered_records *)
Definition ordered_records (records : list GraphRecord) : list GraphRecord :=
  let rank r := match r with Node _ => 0 | Edge _ => 1 | Tombstone _ => 2 end%nat in
  sort_by (λ a b, then_cmp (Nat.compare (rank a) (rank b))
                    (String.compare (GraphRecord.id a) (GraphRecord.id b))) records.

(** One failed attempt, as [write_and_tally] books it in two places and the rejection of a batch
    in a third. *)
(* adapters/mod.rs 659-664: write_and_tally *)
Definition fail_record (report : Report) (record : GraphRecord) (message : string) : Report :=
  IngestReport.mk (report.(IngestReport.attempted) + 1) report.(IngestReport.succeeded)
    (report.(IngestReport.failed) + 1)
    (report.(IngestReport.failures) ++ [(GraphRecord.id record, message)])
    report.(IngestReport.inserted) report.(IngestReport.unchanged).

(* adapters/mod.rs 678-695: write_and_tally *)
Definition tally (report : Report) (rr : GraphRecord * AdapterResult WriteOutcome) : Report :=
  match rr.2 with
  | Ok outcome =>
      IngestReport.mk (report.(IngestReport.attempted) + 1) (report.(IngestReport.succeeded) + 1)
        report.(IngestReport.failed) report.(IngestReport.failures)
        (report.(IngestReport.inserted) + match outcome with Inserted => 1 | Unchanged => 0 end)
        (report.(IngestReport.unchanged) + match outcome with Inserted => 0 | Unchanged => 1 end)
  | Err error => fail_record report rr.1 (AdapterError.to_string error)
  end.

(** The maximal run of writable records at the head, and the rest. *)
(* adapters/mod.rs 670-673: write_and_tally *)
Fixpoint split_run (quarantined : gset string) (ordered : list GraphRecord)
    : list GraphRecord * list GraphRecord :=
  match ordered with
  | [] => ([], [])
  | r :: rest =>
      if bool_decide (GraphRecord.id r ∈ quarantined) then ([], ordered)
      else let '(run, rest) := split_run quarantined rest in (r :: run, rest)
  end.

(** Every round takes at least one record, so their number is fuel enough. *)
(* adapters/mod.rs 650-698: write_and_tally *)
Fixpoint write_and_tally (fuel : nat) (ordered : list GraphRecord) (sink : S)
    (quarantined : gset string) (diagnostics : gmap string string) (report : Report) : S * Report :=
  match fuel, ordered with
  | _, [] | 0%nat, _ => (sink, report)
  | Datatypes.S fuel', r :: rest =>
      if bool_decide (GraphRecord.id r ∈ quarantined) then
        write_and_tally fuel' rest sink quarantined diagnostics
          (fail_record report r (diagnostic_for diagnostics (GraphRecord.id r)))
      else
        let '(run, rest) := split_run quarantined ordered in
        let '(sink, results) := write_and_verify_records run sink in
        write_and_tally fuel' rest sink quarantined diagnostics
          (foldl tally report (zip run results))
  end.

(** Nothing is written: every record fails. *)
(* adapters/mod.rs 614-637: ingest_records_with_policy *)
Definition reject_batch (quarantined : gset string) (diagnostics : gmap string string)
    (records : list GraphRecord) : Report :=
  let first_citer := default "<unknown>" (head (iter quarantined)) in
  foldl (λ report record,
    fail_record report record
      (if bool_decide (GraphRecord.id record ∈ quarantined)
       then diagnostic_for diagnostics (GraphRecord.id record)
       else "batch rejected under reject-batch policy: record '" +:+ first_citer
            +:+ "' cites dangling cross-domain evidence; no records were written"))
    IngestReport.default (ordered_records records).

(** [None] is the end of the fuel of the quarantine loop. *)
(* adapters/mod.rs 560-642: ingest_records_with_policy *)
Definition ingest_records_with_policy (fuel : nat) (records : list GraphRecord) (sink : S)
    (policy : DanglingCitationPolicy) : option (S * Report) :=
  let citations := collect_evidence_citations records in
  match quarantine_loop fuel sink (group_by_citer citations) (CitationResolution.new records) ∅ with
  | None => None
  | Some (resolution, diagnostics) =>
      let quarantined := resolution.(CitationResolution.quarantined) in
      Some (if bool_decide (policy = RejectBatch) && negb (bool_decide (quarantined = ∅))
            then (sink, reject_batch quarantined diagnostics records)
            else
              let ordered := ordered_records records in
              write_and_tally (length ordered) ordered sink quarantined diagnostics IngestReport.default)
  end.

(* adapters/mod.rs 341-343: ingest_records *)
Definition ingest_records (fuel : nat) (records : list GraphRecord) (sink : S)
    : option (S * Report) := ingest_records_with_policy fuel records sink Quarantine.

End Ingest.

(** ** The sinks of the file *)
Module DryRunSink.
(* adapters/mod.rs 756-758: DryRunSink *)
Record t : Type := mk { records : gmap string GraphRecord }.

(* adapters/mod.rs 761-772: DryRunSink::write_record *)
Definition write_record (record : GraphRecord) (self : t) : t * AdapterResult WriteOutcome :=
  if bool_decide (self.(records) !! GraphRecord.id record = Some record) then (self, Ok Unchanged)
  else (mk (<[GraphRecord.id record := record]> self.(records)), Ok Inserted).

(* adapters/mod.rs 774-776: DryRunSink::read_back *)
Definition read_back (self : t) (record_id : string) : AdapterResult (option GraphRecord) :=
  Ok (self.(records) !! record_id).
End DryRunSink.

#[export] Instance DryRun_sink : GraphSink DryRunSink.t := {
  write_record := DryRunSink.write_record;
  read_back := DryRunSink.read_back;
  write_and_verify_records := compose_writes DryRunSink.write_record DryRunSink.read_back
}.

Module FakeSink.
(* adapters/mod.rs 781-785: FakeSink *)
Record t : Type := mk {
  records : gmap string GraphRecord;
  fail_after : option nat;
  written : nat
}.

(* adapters/mod.rs 790-796: FakeSink::fail_after *)
Definition new_fail_after (limit : nat) : t := mk ∅ (Some limit) 0.

(* adapters/mod.rs 800-820: FakeSink::write_record *)
Definition write_record (record : GraphRecord) (self : t) : t * AdapterResult WriteOutcome :=
  if bool_decide (self.(records) !! GraphRecord.id record = Some record) then (self, Ok Unchanged)
  else if match self.(fail_after) with Some limit => (limit <=? self.(written))%nat | None => false end
  then (self, Err (AdapterError.Rejected (GraphRecord.id record) "fake adapter failure"))
  else (mk (<[GraphRecord.id record := record]> self.(records)) self.(fail_after)
          (Datatypes.S self.(written)), Ok Inserted).

(* adapters/mod.rs 822-824: FakeSink::read_back *)
Definition read_back (self : t) (record_id : string) : AdapterResult (option GraphRecord) :=
  Ok (self.(records) !! record_id).
End FakeSink.

#[export] Instance Fake_sink : GraphSink FakeSink.t := {
  write_record := FakeSink.write_record;
  read_back := FakeSink.read_back;
  write_and_verify_records := compose_writes FakeSink.write_record FakeSink.read_back
}.

#[export] Instance DryRun_contract : GraphSinkContract DryRunSink.t.
Proof. done. Qed.
#[export] Instance Fake_contract : GraphSinkContract FakeSink.t.
Proof. done. Qed.

(** ** The quarantine, specified

    The least set of citers that closes under: one of the citer's citations names a target
    that is no live node of the batch, or a quarantined one, and that the batch deletes or the
    store does not hold live. *)
Section Quarantine.
Context (json_object : list (string * string) → string).
Context {S : Type} `{GraphSink S} (sink : S) (records : list GraphRecord).

Definition batch_live (t : string) : bool :=
  existsb (is_node_write t) records && negb (Liveness.deleted (Liveness.new records) t).
Definition backed_by_store (t : string) : bool :=
  negb (Liveness.deleted (Liveness.new records) t) && store_live sink t.

Inductive must_quarantine : string → Prop :=
| must_quarantine_unknown c :
    c ∈ collect_evidence_citations records →
    batch_live c.(EvidenceCitation.target_record_id) = false →
    backed_by_store c.(EvidenceCitation.target_record_id) = false →
    must_quarantine c.(EvidenceCitation.citing_record_id)
| must_quarantine_chain c :
    c ∈ collect_evidence_citations records →
    must_quarantine c.(EvidenceCitation.target_record_id) →
    backed_by_store c.(EvidenceCitation.target_record_id) = false →
    must_quarantine c.(EvidenceCitation.citing_record_id).

(** A citation resolves while [q] is quarantined. *)
Definition resolves (q : gset string) (t : string) : bool :=
  batch_live t && negb (bool_decide (t ∈ q)) || backed_by_store t.
Definition dangling (q : gset string) (c : Citation) : bool :=
  negb (resolves q c.(EvidenceCitation.target_record_id)).

Abbreviation R := CitationResolution.t.

(** The state of the loop: the batch view is fixed and the cache remembers the store. *)
Record consistent (r : R) : Prop := {
  cons_live t : t ∈ r.(CitationResolution.batch_live_nodes) ↔ batch_live t = true;
  cons_liveness : r.(CitationResolution.batch_liveness) = Liveness.new records;
  cons_cache t b : r.(CitationResolution.store_cache) !! t = Some b → b = store_live sink t
}.

Lemma new_consistent : consistent (CitationResolution.new records).
Proof using.
  split; [|done|intros t b; cbn; by rewrite lookup_empty]. intros t. cbn.
  rewrite elem_of_filter, elem_of_list_to_set. unfold batch_live.
  rewrite andb_true_iff, negb_true_iff. split.
  - intros [Hd (r & Hr & Hi)%list_elem_of_omap]. split; [|done].
    apply existsb_exists. exists r. split; [by apply list_elem_of_In|].
    destruct r; simplify_eq/=. apply String.eqb_refl.
  - intros [(r & Hr%list_elem_of_In & Hw)%existsb_exists Hd]. split; [done|].
    apply list_elem_of_omap. exists r. split; [done|].
    destruct r; cbn in Hw; try done. apply String.eqb_eq in Hw. by subst.
Qed.

Lemma target_is_live_spec r t :
  consistent r →
  ∃ r', target_is_live sink r t = (r', resolves r.(CitationResolution.quarantined) t)
    ∧ consistent r' ∧ r'.(CitationResolution.quarantined) = r.(CitationResolution.quarantined).
Proof using.
  intros [Hl Hlv Hc]. unfold target_is_live, resolves.
  rewrite (bool_decide_ext _ _ (Hl t)).
  destruct (batch_live t) eqn:Hb; cbn [bool_decide]; rewrite ?bool_decide_eq_true_2, ?bool_decide_eq_false_2 by done; cbn [andb].
  1: destruct (bool_decide (t ∈ CitationResolution.quarantined r)) eqn:Hq; cbn [negb orb];
       [|by exists r].
  all: rewrite Hlv; unfold backed_by_store; destruct (Liveness.deleted _ t); cbn [negb andb orb];
    [by exists r|];
    destruct (CitationResolution.store_cache r !! t) as [b|] eqn:Hcache;
    [exists r; by rewrite (Hc _ _ Hcache)|];
    eexists; split; [reflexivity|]; split; [|done]; split; [done|done|]; cbn;
    intros t' b'; destruct (decide (t = t')) as [->|];
      [rewrite lookup_insert_eq; by intros [= <-]|rewrite lookup_insert_ne by done; apply Hc].
Qed.

Lemma find_dangling_spec r cites :
  consistent r →
  ∃ r', find_dangling sink r cites
        = (r', List.find (dangling r.(CitationResolution.quarantined)) cites)
    ∧ consistent r' ∧ r'.(CitationResolution.quarantined) = r.(CitationResolution.quarantined).
Proof using.
  revert r. induction cites as [|c cites IH]; intros r Hr; cbn [find_dangling List.find].
  { by exists r. }
  destruct (target_is_live_spec r (EvidenceCitation.target_record_id c) Hr) as (r' & -> & Hr' & Hq).
  unfold dangling at 1. destruct (resolves _ _); cbn [negb]; [|by exists r'].
  rewrite <-Hq. by apply IH.
Qed.

(** What a round adds for one citer. *)
Definition verdict (by_citer : gmap string (list Citation)) (q : gset string) (citer : string)
    : option (string * string) :=
  if bool_decide (citer ∈ q) then None
  else (λ c, (citer, dangling_citation_diagnostic json_object c))
         <$> List.find (dangling q) (default [] (by_citer !! citer)).

Lemma round_spec by_citer citers r newly :
  consistent r →
  ∃ r', foldl (check_citer json_object sink by_citer) (r, newly) citers
        = (r', newly ++ omap (verdict by_citer r.(CitationResolution.quarantined)) citers)
    ∧ consistent r' ∧ r'.(CitationResolution.quarantined) = r.(CitationResolution.quarantined).
Proof using.
  revert r newly. induction citers as [|c citers IH]; intros r newly Hr; cbn [foldl omap list_omap].
  { exists r. by rewrite app_nil_r. }
  unfold verdict at 1, check_citer at 2.
  destruct (bool_decide _) eqn:Hq; [by apply IH|].
  destruct (find_dangling_spec r (default [] (by_citer !! c)) Hr) as (r' & -> & Hr' & Hqq).
  rewrite <-Hqq. destruct (List.find _ _) as [d|]; cbn [fmap option_fmap option_map].
  - destruct (IH r' (newly ++ [(c, dangling_citation_diagnostic json_object d)]) Hr')
      as (r2 & -> & ? & Hq2). exists r2. rewrite <-app_assoc. split_and!; congruence || done.
  - destruct (IH r' newly Hr') as (r2 & -> & ? & Hq2). exists r2. split_and!; congruence || done.
Qed.

Abbreviation citations := (collect_evidence_citations records).
Abbreviation grouped := (group_by_citer citations).

Lemma grouped_elem x c :
  c ∈ default [] (grouped !! x) ↔ c ∈ citations ∧ c.(EvidenceCitation.citing_record_id) = x.
Proof using.
  pose proof (foldl_push (λ c : Citation, Some (c.(EvidenceCitation.citing_record_id), c))
    citations x c) as Hp.
  unfold group_by_citer. cbn beta iota zeta in *. rewrite Hp. split.
  - intros (a & Ha & [= <- <-]). done.
  - intros [Hc <-]. by exists c.
Qed.

Lemma List_find_Some {A} (f : A → bool) l x : List.find f l = Some x → x ∈ l ∧ f x = true.
Proof using. intros Hf. apply find_some in Hf as [Hx ?]. by apply list_elem_of_In in Hx. Qed.

Lemma verdict_Some q x p :
  verdict grouped q x = Some p →
  p.1 = x ∧ (x ∉ q) ∧ ∃ c, c ∈ citations ∧ c.(EvidenceCitation.citing_record_id) = x
    ∧ dangling q c = true ∧ p.2 = dangling_citation_diagnostic json_object c.
Proof using.
  unfold verdict. case_bool_decide as Hq; [done|].
  destruct (List.find _ _) as [c|] eqn:Hf; [|done]. intros [= <-].
  apply List_find_Some in Hf as [[Hc Hx]%grouped_elem Hd]. split_and!; [done|done|]. eauto.
Qed.

(** Whoever has a dangling citation and is not quarantined gets a verdict. *)
Lemma verdict_complete q c :
  c ∈ citations → dangling q c = true → c.(EvidenceCitation.citing_record_id) ∉ q →
  c.(EvidenceCitation.citing_record_id) ∈ keys grouped
  ∧ is_Some (verdict grouped q c.(EvidenceCitation.citing_record_id)).
Proof using.
  intros Hc Hd Hq. set (x := EvidenceCitation.citing_record_id c).
  assert (c ∈ default [] (grouped !! x)) as Hin by by apply grouped_elem.
  split.
  - apply keys_elem. destruct (grouped !! x); [by eexists|]. by apply elem_of_nil in Hin.
  - unfold verdict. rewrite bool_decide_eq_false_2 by done.
    destruct (List.find (dangling q) (default [] (grouped !! x))) eqn:Hf; [by eexists|].
    pose proof (find_none _ _ Hf c (proj1 (list_elem_of_In _ _) Hin)) as Hn. congruence.
Qed.

(** A dangling citation under quarantined citers that must be quarantined. *)
Lemma dangling_must q c :
  (∀ x, x ∈ q → must_quarantine x) → dangling q c = true →
  (batch_live c.(EvidenceCitation.target_record_id) = false
   ∨ must_quarantine c.(EvidenceCitation.target_record_id))
  ∧ backed_by_store c.(EvidenceCitation.target_record_id) = false.
Proof using.
  unfold dangling, resolves. intros Hq Hd. apply negb_true_iff, orb_false_elim in Hd as [H1 H2].
  split; [|done]. apply andb_false_iff in H1 as [H1|H1]; [by left|right].
  apply negb_false_iff, bool_decide_eq_true in H1. by apply Hq.
Qed.

(** The diagnostics name a citation that condemns their record. *)
Definition justified (q : gset string) (d : gmap string string) : Prop :=
  ∀ x, x ∈ q → ∃ c, c ∈ citations ∧ c.(EvidenceCitation.citing_record_id) = x
    ∧ d !! x = Some (dangling_citation_diagnostic json_object c)
    ∧ backed_by_store c.(EvidenceCitation.target_record_id) = false
    ∧ (batch_live c.(EvidenceCitation.target_record_id) = false
       ∨ must_quarantine c.(EvidenceCitation.target_record_id)).

Lemma insert_all_lookup (newly : list (string * string)) d x :
  insert_all newly d !! x = d !! x
  ∨ ∃ msg, (x, msg) ∈ newly
      ∧ insert_all newly d !! x = Some msg.
Proof using.
  unfold insert_all. revert d. induction newly as [|[y m] newly IH]; intros d; cbn [foldl];
    [by left|].
  destruct (IH (<[y:=m]> d)) as [->|(msg & Hin & ->)].
  - destruct (decide (y = x)) as [->|]; [right|left; by rewrite lookup_insert_ne].
    exists m. rewrite lookup_insert_eq. split; [by left|done].
  - right. exists msg. split; [by right|done].
Qed.

Lemma insert_all_new (newly : list (string * string)) d x :
  x ∈ newly.*1 → ∃ msg, (x, msg) ∈ newly
      ∧ insert_all newly d !! x = Some msg.
Proof using.
  unfold insert_all. revert d. induction newly as [|[y m] newly IH]; intros d;
    cbn [foldl fmap list_fmap];
    [by intros ?%elem_of_nil|].
  destruct (decide (x ∈ newly.*1)) as [Hin|Hout].
  - intros _. destruct (IH (<[y:=m]> d) Hin) as (msg & ? & ->). exists msg. split; [by right|done].
  - intros [->|]%elem_of_cons; [|done]. cbn. exists m. split; [by left|].
    destruct (insert_all_lookup newly (<[y:=m]> d) y) as [Hl|(msg & Hin & _)]; unfold insert_all in *.
    + by rewrite Hl, lookup_insert_eq.
    + destruct Hout. apply list_elem_of_fmap. by exists (y, msg).
Qed.

(** One round keeps the quarantine sound and its diagnostics justified. *)
Lemma round_sound q d :
  (∀ x, x ∈ q → must_quarantine x) → justified q d →
  let newly := omap (verdict grouped q) (keys grouped) in
  let q' := list_to_set newly.*1 ∪ q in
  (∀ x, x ∈ newly.*1 → (x ∉ q) ∧ x ∈ keys grouped)
  ∧ (∀ x, x ∈ q' → must_quarantine x)
  ∧ justified q' (insert_all newly d).
Proof using.
  intros Hq Hj newly q'.
  assert (∀ x msg, (x, msg) ∈ newly → (x ∉ q) ∧ x ∈ keys grouped ∧ ∃ c, c ∈ citations
    ∧ c.(EvidenceCitation.citing_record_id) = x
    ∧ msg = dangling_citation_diagnostic json_object c
    ∧ backed_by_store c.(EvidenceCitation.target_record_id) = false
    ∧ (batch_live c.(EvidenceCitation.target_record_id) = false
       ∨ must_quarantine c.(EvidenceCitation.target_record_id))) as Hnew.
  { intros x msg (k & Hk & Hv)%list_elem_of_omap. apply verdict_Some in Hv.
    cbn in Hv. destruct Hv as (-> & Hnq & c & Hc & Hx & Hd & ->).
    destruct (dangling_must _ _ Hq Hd) as [H1 H2]. split_and!; [done..|]. by exists c. }
  split_and!.
  - intros x ([y msg] & -> & Hin)%list_elem_of_fmap. apply Hnew in Hin as (? & ? & _). done.
  - intros x [Hx%elem_of_list_to_set|]%elem_of_union; [|by apply Hq].
    apply list_elem_of_fmap in Hx as ([y msg] & -> & Hin).
    apply Hnew in Hin as (_ & _ & c & Hc & <- & _ & Hs & Hb). destruct Hb;
      [by apply must_quarantine_unknown|by apply must_quarantine_chain].
  - intros x Hx. destruct (decide (x ∈ newly.*1)) as [Hin|Hout].
    + destruct (insert_all_new newly d x Hin) as (msg & Hm & ->).
      apply Hnew in Hm as (_ & _ & c & Hc & Hci & -> & Hs & Hb). by exists c.
    + assert (x ∈ q) as Hxq by set_solver.
      destruct (Hj x Hxq) as (c & Hc & Hci & Hdx & Hs & Hb). exists c. split_and!; try done.
      destruct (insert_all_lookup newly d x) as [->|(msg & Hin & _)]; [done|].
      destruct Hout. apply list_elem_of_fmap. by exists (x, msg).
Qed.

(** A round without a verdict has reached the least fixpoint. *)
Lemma fixpoint_complete q :
  omap (verdict grouped q) (keys grouped) = [] → ∀ x, must_quarantine x → x ∈ q.
Proof using.
  intros Hnil.
  assert (∀ c, c ∈ citations → resolves q c.(EvidenceCitation.target_record_id) = false →
    c.(EvidenceCitation.citing_record_id) ∈ q) as Hclosed.
  2:{ intros x. induction 1 as [c Hc Hb Hs|c Hc _ IH Hs]; apply Hclosed; try done;
      unfold resolves; rewrite Hs, orb_false_r; [by rewrite Hb|].
      rewrite bool_decide_eq_true_2 by done. by rewrite andb_false_r. }
  intros c Hc Hres.
  destruct (decide (c.(EvidenceCitation.citing_record_id) ∈ q)) as [|Hnq]; [done|]. exfalso.
  assert (dangling q c = true) as Hd.
  { unfold dangling. by rewrite Hres. }
  destruct (verdict_complete q c Hc Hd Hnq) as [Hk [p Hv]].
  assert (p ∈ omap (verdict grouped q) (keys grouped)) as Hp
    by (apply list_elem_of_omap; eauto).
  rewrite Hnil in Hp. by apply elem_of_nil in Hp.
Qed.

Lemma quarantine_loop_spec r d :
  consistent r → (∀ x, x ∈ r.(CitationResolution.quarantined) → must_quarantine x) →
  justified r.(CitationResolution.quarantined) d →
  ∃ r' d', (∀ fuel, (size (dom grouped ∖ r.(CitationResolution.quarantined)) < fuel)%nat →
              quarantine_loop json_object fuel sink grouped r d = Some (r', d'))
    ∧ (∀ x, x ∈ r'.(CitationResolution.quarantined) ↔ must_quarantine x)
    ∧ justified r'.(CitationResolution.quarantined) d'.
Proof using.
  remember (size (dom grouped ∖ r.(CitationResolution.quarantined))) as k eqn:Hk.
  revert r d Hk. induction k as [k IH] using lt_wf_ind. intros r d Hk Hr Hq Hj.
  destruct (round_spec grouped (keys grouped) r [] Hr)
    as (r1 & Hround & Hr1 & Hq1).
  cbn [app] in Hround.
  destruct (round_sound _ d Hq Hj) as (Hfresh & Hq' & Hj').
  set (newly := omap (verdict grouped (CitationResolution.quarantined r)) (keys grouped)) in *.
  destruct newly as [|p newly'] eqn:Hnew.
  - exists r1, d. rewrite Hq1. split_and!; [|intros x; split; [by apply Hq|]|done].
    + intros [|fuel] Hf; [lia|]. cbn [quarantine_loop]. by rewrite Hround.
    + apply fixpoint_complete. exact Hnew.
  - set (r2 := r1{{ CitationResolution.quarantined ::= λ q, list_to_set (p :: newly').*1 ∪ q }}).
    assert (r2.(CitationResolution.quarantined)
            = list_to_set (p :: newly').*1 ∪ r.(CitationResolution.quarantined)) as Hq2
      by (rewrite <-Hq1; reflexivity).
    assert (size (dom grouped ∖ r2.(CitationResolution.quarantined)) < k)%nat as Hlt.
    { rewrite Hk, Hq2. apply subset_size. destruct (Hfresh p.1) as [Hp1 Hp2]; [by left|].
      apply keys_elem, elem_of_dom in Hp2. set_solver. }
    destruct (IH _ Hlt r2 (insert_all (p :: newly') d)) as (r' & d' & Hrun & Hfin & Hjust).
    + done.
    + destruct Hr1 as [H1 H2 H3]. split; [exact H1|exact H2|exact H3].
    + by rewrite Hq2.
    + by rewrite Hq2.
    + exists r', d'. split_and!; [|done|done]. intros [|fuel] Hf; [lia|].
      cbn [quarantine_loop]. rewrite Hround. apply Hrun. lia.
Qed.
End Quarantine.

(** ** The writes, specified: one record at a time *)
Section Writes.
Context {S : Type} `{GraphSinkContract S}.
Context (quarantined : gset string) (diagnostics : gmap string string).

(** What the documentation of the trait promises: every record in its turn, a quarantined
    one failing in place. *)
Definition ingest_one (acc : S * Report) (r : GraphRecord) : S * Report :=
  let '(sink, report) := acc in
  if bool_decide (GraphRecord.id r ∈ quarantined)
  then (sink, fail_record report r (diagnostic_for diagnostics (GraphRecord.id r)))
  else let '(sink, result) := write_and_verify write_record read_back r sink in
       (sink, tally report (r, result)).

Lemma compose_writes_tally run sink report :
  Forall (λ r, GraphRecord.id r ∉ quarantined) run →
  foldl ingest_one (sink, report) run =
    let '(sink, results) := compose_writes write_record read_back run sink in
    (sink, foldl tally report (zip run results)).
Proof using.
  intros Hrun. revert sink report. induction Hrun as [|r run Hr _ IH]; intros sink report; [done|].
  cbn [foldl compose_writes]. unfold ingest_one at 2. rewrite bool_decide_eq_false_2 by done.
  destruct (write_and_verify _ _ r sink) as [sink' result]. rewrite IH.
  by destruct (compose_writes _ _ run sink').
Qed.

Lemma split_run_spec ordered :
  let '(run, rest) := split_run quarantined ordered in
  ordered = run ++ rest ∧ Forall (λ r, GraphRecord.id r ∉ quarantined) run.
Proof using.
  induction ordered as [|r ordered IH]; cbn [split_run]; [by split|].
  case_bool_decide; [by split|]. destruct (split_run quarantined ordered) as [run rest].
  destruct IH as [-> IH]. split; [done|]. by constructor.
Qed.

(** Batching the runs changes nothing. *)
Lemma write_and_tally_spec fuel ordered sink report :
  (length ordered ≤ fuel)%nat →
  write_and_tally fuel ordered sink quarantined diagnostics report
  = foldl ingest_one (sink, report) ordered.
Proof using All.
  revert ordered sink report. induction fuel as [|fuel IH]; intros [|r ordered] sink report Hf;
    cbn [length] in Hf; [done|lia|done|].
  cbn [write_and_tally]. destruct (bool_decide (GraphRecord.id r ∈ quarantined)) eqn:Hq.
  { rewrite IH by lia. cbn [foldl]. unfold ingest_one at 3. by rewrite Hq. }
  pose proof (split_run_spec (r :: ordered)) as Hs.
  assert (∃ run' rest, split_run quarantined (r :: ordered) = (r :: run', rest)) as (run' & rest & Hsp).
  { cbn [split_run]. rewrite Hq. destruct (split_run quarantined ordered); eauto. }
  rewrite Hsp in *. destruct Hs as [Heq Hrun]. rewrite batched_write, Heq, foldl_app.
  rewrite compose_writes_tally by done.
  destruct (compose_writes _ _ (r :: run') sink) as [sink' results].
  apply IH. apply (f_equal length) in Heq. rewrite length_app in Heq. cbn [length] in Heq. lia.
Qed.

(** The counters of a report agree. *)
Definition accounts (n : nat) (report : Report) : Prop :=
  report.(IngestReport.attempted) = n
  ∧ (report.(IngestReport.succeeded) + report.(IngestReport.failed))%nat = n
  ∧ (report.(IngestReport.inserted) + report.(IngestReport.unchanged))%nat
    = report.(IngestReport.succeeded)
  ∧ length report.(IngestReport.failures) = report.(IngestReport.failed).

Lemma fail_accounts n report r msg : accounts n report → accounts (n + 1) (fail_record report r msg).
Proof using.
  unfold accounts, fail_record. cbn. rewrite length_app. cbn. intros (? & ? & ? & ?). lia.
Qed.

Lemma ingest_one_accounts n acc r : accounts n acc.2 → accounts (n + 1) (ingest_one acc r).2.
Proof using.
  destruct acc as [sink report]. unfold ingest_one. cbn [snd]. intros Ha.
  case_bool_decide; [by apply fail_accounts|].
  destruct (write_and_verify _ _ r sink) as [sink' [o|e]]; cbn [snd tally]; [|by apply fail_accounts].
  unfold tally, accounts in *. cbn. destruct Ha as (? & ? & ? & ?). destruct o; cbn; lia.
Qed.

Lemma foldl_accounts l n acc :
  accounts n acc.2 → accounts (n + length l) (foldl ingest_one acc l).2.
Proof using.
  revert n acc. induction l as [|r l IH]; intros n acc Ha; cbn [foldl length].
  - by rewrite Nat.add_0_r.
  - rewrite Nat.add_succ_r, <-Nat.add_1_r, <-Nat.add_assoc, (Nat.add_comm (length l)), Nat.add_assoc.
    apply IH, ingest_one_accounts, Ha.
Qed.

Lemma default_accounts : accounts 0 IngestReport.default.
Proof using. done. Qed.

(** The records whose write and read-back succeed, one after the other from [sink] on. *)
Fixpoint landed (sink : S) (l : list GraphRecord) : list GraphRecord :=
  match l with
  | [] => []
  | r :: l =>
      if bool_decide (GraphRecord.id r ∈ quarantined) then landed sink l
      else
        let '(sink, result) := write_and_verify write_record read_back r sink in
        match result with Ok _ => r :: landed sink l | Err _ => landed sink l end
  end.

Abbreviation failed_ids report := (IngestReport.failures report).*1.

Lemma failures_kept l acc x :
  x ∈ failed_ids acc.2 → x ∈ failed_ids (foldl ingest_one acc l).2.
Proof using.
  revert acc. induction l as [|r l IH]; intros acc Hx; [done|]. cbn [foldl]. apply IH.
  destruct acc as [sink report]. unfold ingest_one. cbn [snd] in Hx.
  assert (∀ msg, x ∈ failed_ids (fail_record report r msg)) as Hfail.
  { intros msg. cbn. rewrite fmap_app, elem_of_app. by left. }
  case_bool_decide; [apply Hfail|].
  destruct (write_and_verify _ _ r sink) as [sink' [o|e]]; [exact Hx|apply Hfail].
Qed.

Lemma landed_or_failed l sink report r :
  r ∈ l → GraphRecord.id r ∉ quarantined →
  r ∈ landed sink l ∨ GraphRecord.id r ∈ failed_ids (foldl ingest_one (sink, report) l).2.
Proof using.
  revert sink report. induction l as [|y l IH]; intros sink report Hr Hq; [by apply elem_of_nil in Hr|].
  cbn [landed foldl]. unfold ingest_one at 2.
  apply elem_of_cons in Hr as [<-|Hr].
  - rewrite bool_decide_eq_false_2 by done.
    destruct (write_and_verify _ _ r sink) as [sink' [o|e]]; [left; by left|right].
    apply failures_kept. cbn. rewrite fmap_app, elem_of_app. right. by left.
  - case_bool_decide; [by apply IH|].
    destruct (write_and_verify _ _ y sink) as [sink' [o|e]]; [|by apply IH].
    destruct (IH sink' (tally report (y, Ok o)) Hr Hq); [left; by right|by right].
Qed.

Lemma landed_sublist l sink :
  landed sink l `sublist_of` filter (λ r, GraphRecord.id r ∉ quarantined) l.
Proof using.
  revert sink. induction l as [|r l IH]; intros sink; [done|]. cbn [landed].
  rewrite filter_cons. destruct (decide (GraphRecord.id r ∈ quarantined)) as [Hr|Hr].
  - rewrite bool_decide_eq_true_2, decide_False by naive_solver. apply IH.
  - rewrite bool_decide_eq_false_2, decide_True by done.
    destruct (write_and_verify _ _ r sink) as [sink' [o|e]]; [by apply sublist_skip|by apply sublist_cons].
Qed.

Lemma landed_succeeded l sink report :
  (foldl ingest_one (sink, report) l).2.(IngestReport.succeeded)
  = (report.(IngestReport.succeeded) + length (landed sink l))%nat.
Proof using.
  revert sink report. induction l as [|r l IH]; intros sink report; cbn [foldl landed length snd]; [lia|].
  unfold ingest_one at 2. case_bool_decide; [by rewrite IH|].
  destruct (write_and_verify _ _ r sink) as [sink' [o|e]]; rewrite IH; cbn; lia.
Qed.
End Writes.

Lemma ordered_perm records : ordered_records records ≡ₚ records.
Proof. apply sort_by_perm. Qed.

Lemma ordered_length records : length (ordered_records records) = length records.
Proof. apply Permutation_length, ordered_perm. Qed.

Lemma reject_accounts q d records :
  accounts (length records) (reject_batch q d records).
Proof.
  unfold reject_batch. rewrite <-(ordered_length records). cbv zeta.
  assert (∀ f l n report, accounts n report →
    accounts (n + length l) (foldl (λ rep r, fail_record rep r (f r)) report l)) as Hf.
  { clear. intros f l. induction l as [|r l IH]; intros n report Ha; cbn [foldl length].
    - by rewrite Nat.add_0_r.
    - replace (n + Datatypes.S (length l))%nat with (n + 1 + length l)%nat by lia.
      apply IH, fail_accounts, Ha. }
  apply (Hf _ _ 0%nat). apply default_accounts.
Qed.

Section Claims.
Context (json_object : list (string * string) → string).
Context {S : Type} `{GraphSinkContract S}.

(** The records that reach the sink, in the order they are written. *)
Definition accepted (records : list GraphRecord) (q : gset string) : list GraphRecord :=
  filter (λ r, GraphRecord.id r ∉ q) (ordered_records records).

(** The whole ingest, in terms of the specification. *)
Lemma ingest_spec (records : list GraphRecord) (sink : S) :
  ∃ n q d, (∀ x, x ∈ q ↔ must_quarantine sink records x) ∧ justified json_object sink records q d
    ∧ ∀ fuel policy, (n ≤ fuel)%nat →
        ingest_records_with_policy json_object fuel records sink policy
        = Some (if bool_decide (policy = RejectBatch) && negb (bool_decide (q = ∅))
                then (sink, reject_batch q d records)
                else foldl (ingest_one q d) (sink, IngestReport.default) (ordered_records records)).
Proof using All.
  destruct (quarantine_loop_spec json_object sink records (CitationResolution.new records) ∅
              (new_consistent sink records)) as (r & d & Hrun & Hq & Hj).
  { intros x Hx. by apply elem_of_empty in Hx. }
  { intros x Hx. by apply elem_of_empty in Hx. }
  eexists (Datatypes.S _), r.(CitationResolution.quarantined), d. split_and!; [done|done|].
  intros fuel policy Hf. unfold ingest_records_with_policy. cbv zeta. rewrite Hrun by exact Hf.
  f_equal. destruct (_ && _); [done|]. by apply write_and_tally_spec.
Qed.


(** The report of an ingest accounts for the batch: it attempts every record once, the
    attempts split into successes and failures, the successes into inserted and unchanged
    records, and there is one failure entry per failure. *)
Theorem ingest_accounts (fuel : nat) (records : list GraphRecord) (sink : S)
    (policy : DanglingCitationPolicy) (sink' : S) (report : Report)
    (Hrun : ingest_records_with_policy json_object fuel records sink policy = Some (sink', report)) :
  accounts (length records) report.
Proof using All.
  revert Hrun. unfold ingest_records_with_policy. cbv zeta.
  destruct (quarantine_loop _ _ _ _ _ _) as [[r d]|]; [|done].
  destruct (_ && _); [intros [= <- <-]; apply reject_accounts|].
  rewrite write_and_tally_spec by done. intros [= Hf].
  pose proof (foldl_accounts r.(CitationResolution.quarantined) d (ordered_records records) 0
    (sink, IngestReport.default) default_accounts) as Ha.
  rewrite Hf in Ha. cbn [snd Nat.add] in Ha. by rewrite (ordered_length records) in Ha.
Qed.


(** *** What enters the store resolves *)

Lemma written_id_state t l a :
  Forall (λ r, is_tombstone_of t r = false) l → existsb (is_write t) l = true →
  id_state_of t (a ++ l) = Written.
Proof using.
  unfold id_state_of. rewrite foldl_app. generalize (foldl (observe t) Unwritten a). intros st Hl.
  assert (∀ l, Forall (λ r, is_tombstone_of t r = false) l →
    foldl (observe t) Written l = Written) as Hw.
  { clear. induction 1 as [|r l Hr _ IH]; [done|]. cbn [foldl].
    assert (observe t Written r = Written) as ->; [|done].
    destruct r; cbn in *; [by case_match..|by rewrite Hr]. }
  revert st. induction Hl as [|r l Hr Hl IH]; intros st; [done|]. cbn [existsb foldl].
  destruct (is_write t r) eqn:Hwr.
  - intros _. assert (observe t st r = Written) as ->; [|by apply Hw].
    unfold is_write in Hwr. destruct r; cbn in *; rewrite ?orb_false_r in Hwr; by rewrite ?Hwr.
  - intros He. by apply IH.
Qed.

Lemma only_tombstones t l :
  existsb (is_write t) l = false → existsb (is_tombstone_of t) l = true →
  id_state_of t l = Tombstoned.
Proof using.
  unfold id_state_of. assert (∀ st, existsb (is_write t) l = false →
    foldl (observe t) st l = if existsb (is_tombstone_of t) l then Tombstoned else st) as Hst.
  { induction l as [|r l IH]; intros st; [done|]. cbn [existsb foldl].
    intros [Hw Hl]%orb_false_elim. rewrite IH by done. unfold is_write in Hw.
    destruct r; cbn in *; rewrite ?orb_false_r in Hw; rewrite ?Hw; [done..|].
    destruct (_ =s? _); cbn [orb]; by case_match. }
  intros Hw Ht. by rewrite Hst, Ht.
Qed.

(** Without a tombstone of [t] in what is appended, [t] is not newly deleted. *)
Lemma not_newly_deleted t a l :
  Forall (λ r, is_tombstone_of t r = false) l →
  Liveness.deleted (Liveness.new a) t = false → Liveness.deleted (Liveness.new (a ++ l)) t = false.
Proof using.
  intros Hl Ha. induction l as [|r l IH] using rev_ind; [by rewrite app_nil_r|].
  apply Forall_app in Hl as [Hl Hr]. apply Forall_cons in Hr as [Hr _].
  rewrite app_assoc. destruct (is_write t r) eqn:Hw.
  - apply not_true_iff_false. rewrite deleted_spec. intros [Hst _].
    rewrite (written_id_state t [r] (a ++ l)) in Hst; [done|by constructor|].
    cbn. by rewrite Hw.
  - rewrite deleted_app_other by done. by apply IH.
Qed.

Lemma node_write_write t l : existsb (is_node_write t) l = true → existsb (is_write t) l = true.
Proof using.
  intros (y & Hy & Hyw)%existsb_exists. apply existsb_exists. exists y.
  unfold is_write. by rewrite Hyw.
Qed.

(** What is read off the store and not deleted by the batch is deleted by no part of it, unless
    the batch writes it too. *)
Lemma backed_stays (store records entered : list GraphRecord) (sink : S) t
    (Hstore : store_live sink t = true →
       existsb (is_node_write t) store = true ∧ Liveness.deleted (Liveness.new store) t = false)
    (Hpart : ∀ x, x ∈ entered → x ∈ records) :
  backed_by_store sink records t = true →
  (existsb (is_node_write t) (store ++ entered) = true
   ∧ Liveness.deleted (Liveness.new (store ++ entered)) t = false)
  ∨ (existsb (is_write t) records = true ∧ existsb (is_tombstone_of t) records = true).
Proof using.
  unfold backed_by_store. intros [Hd Hs]%andb_prop. apply negb_true_iff in Hd.
  destruct (Hstore Hs) as [Hin Hlive]. rewrite existsb_app, Hin.
  destruct (existsb (is_tombstone_of t) records) eqn:Htomb.
  - right. split; [|done]. apply not_false_iff_true. intros Hnw.
    apply not_true_iff_false in Hd. apply Hd. apply deleted_spec.
    split; [by apply only_tombstones|]. apply Forall_not_Exists, Forall_forall. intros y Hy Ht.
    assert (existsb (is_write t) records = true); [|congruence].
    apply existsb_exists. exists y. split; [by apply list_elem_of_In|].
    unfold is_write. destruct y; destruct Ht as [Hi _] || done; cbn; rewrite Hi, String.eqb_refl;
      by rewrite ?orb_true_r.
  - left. split; [done|]. apply not_newly_deleted; [|done]. apply Forall_forall. intros x Hx.
    apply not_true_iff_false. intros Hpx.
    assert (existsb (is_tombstone_of t) records = true); [|congruence].
    apply existsb_exists. exists x. split; [by apply list_elem_of_In, Hpart|done].
Qed.

Lemma citer_of r c : c ∈ record_citations r → c.(EvidenceCitation.citing_record_id) = GraphRecord.id r.
Proof using.
  intros Hc. destruct r as [n|e|tb]; cbn in Hc; [| |by apply elem_of_nil in Hc].
  - apply list_elem_of_omap in Hc as (link & _ & Hl). unfold link_citation in Hl.
    repeat (case_match; try done). by simplify_eq.
  - case_match; [|by apply elem_of_nil in Hc]. apply list_elem_of_singleton in Hc. by subst.
Qed.

(** A citation of an accepted record is backed by the store or by an accepted node. *)
Lemma accepted_target (records : list GraphRecord) (sink : S) (q : gset string)
    (Hq : ∀ x, x ∈ q ↔ must_quarantine sink records x) r c :
  r ∈ accepted records q → c ∈ record_citations r →
  let t := c.(EvidenceCitation.target_record_id) in
  backed_by_store sink records t = true
  ∨ (backed_by_store sink records t = false
     ∧ Liveness.deleted (Liveness.new records) t = false
     ∧ ∃ x, x ∈ accepted records q ∧ is_node_write t x = true ∧ GraphRecord.id x = t).
Proof using.
  intros [Hrq Hr]%list_elem_of_filter Hc t. rewrite ordered_perm in Hr.
  assert (c ∈ collect_evidence_citations records) as Hcc
    by (apply list_elem_of_bind; eauto).
  pose proof (citer_of _ _ Hc) as Hciter.
  destruct (backed_by_store sink records t) eqn:Hb; [by left|right]. split; [done|].
  destruct (batch_live records t) eqn:Hl; cycle 1.
  { destruct Hrq. rewrite <-Hciter. apply Hq. by apply must_quarantine_unknown. }
  assert (t ∉ q) as Htq.
  { intros Ht%Hq. destruct Hrq. rewrite <-Hciter. apply Hq. by apply must_quarantine_chain. }
  unfold batch_live in Hl. apply andb_prop in Hl as [(x & Hx & Hw)%existsb_exists Hd].
  apply negb_true_iff in Hd. split; [done|]. exists x.
  assert (GraphRecord.id x = t) as Hxt.
  { destruct x; cbn in Hw; try done. by apply String.eqb_eq in Hw. }
  split; [|done]. apply list_elem_of_filter. rewrite ordered_perm. apply list_elem_of_In in Hx.
  split; [by rewrite Hxt|done].
Qed.


End Claims.

(** ** Examples *)
Definition sample_node (id : string) (links : list EvidenceLink.t) : GraphRecord :=
  GraphRecord.with_evidence_links links
    (GraphRecord.with_domain "agent_memory" AGENT_MEMORY_SCHEMA_VERSION
       (GraphRecord.node id NodeKind.Observation None None None "")).
Definition sample_link (target relation : string) : EvidenceLink.t :=
  EvidenceLink.mk (Some target) "agent_memory" relation "exact" None None None None.
Definition sample_tombstone (id deleted_id : string) : GraphRecord :=
  Tombstone (TombRec.mk id AGENT_MEMORY_SCHEMA_VERSION deleted_id "" None).
Definition sample_ingest (records : list GraphRecord) (policy : DanglingCitationPolicy)
    : option (list string * Report) :=
  (λ '(sink, report), (keys (DryRunSink.records sink), report))
    <$> ingest_records_with_policy (λ _, "diagnostic") 5 records (DryRunSink.mk ∅) policy.

(** A chain of citations to a missing record is quarantined as a whole. *)
Definition sample_chain : list GraphRecord :=
  [sample_node "agent_memory:v1:a" [sample_link "agent_memory:v1:b" "OBSERVES"];
   sample_node "agent_memory:v1:b" [sample_link "agent_memory:v1:gone" "OBSERVES"];
   sample_node "agent_memory:v1:c" [sample_link "agent_memory:v1:d" "OBSERVES"];
   sample_node "agent_memory:v1:d" []].



Lemma ingest_accounts_witness :
  accounts 4 (IngestReport.mk 4 2 2
    [("agent_memory:v1:a", "diagnostic"); ("agent_memory:v1:b", "diagnostic")] 2 0).
Proof.
  refine (ingest_accounts (λ _, "diagnostic") 5 sample_chain (DryRunSink.mk ∅) Quarantine
    (DryRunSink.mk _) _ _). vm_compute. reflexivity.
Defined.

Example chain_quarantined :
  sample_ingest sample_chain Quarantine
  = Some (["agent_memory:v1:c"; "agent_memory:v1:d"],
      IngestReport.mk 4 2 2 [("agent_memory:v1:a", "diagnostic"); ("agent_memory:v1:b", "diagnostic")] 2 0)
  ∧ (fst <$> sample_ingest sample_chain RejectBatch) = Some [].
Proof. split; vm_compute; reflexivity. Qed.

(** The batch revives [x] after its tombstone, so the citation of [x] is accepted; but the
    tombstone is written after the node, and [x] ends deleted. *)
Definition revival : list GraphRecord :=
  [sample_tombstone "agent_memory:v1:t" "agent_memory:v1:x"; sample_node "agent_memory:v1:x" [];
   sample_node "agent_memory:v1:y" [sample_link "agent_memory:v1:x" "OBSERVES"]].

Example revived_target_ends_deleted :
  (IngestReport.failed ∘ snd <$> sample_ingest revival Quarantine) = Some 0%nat
  ∧ Liveness.deleted (Liveness.new revival) "agent_memory:v1:x" = false
  ∧ Liveness.deleted (Liveness.new (ordered_records revival)) "agent_memory:v1:x" = true.
Proof. split_and!; vm_compute; reflexivity. Qed.

(** The citation of [b] by [a] resolves to the batch, so [a] is written; when the sink then
    refuses [b], the citation is left dangling in the store, and only the failure of [b] is
    reported. *)
Example failed_target_leaves_dangling :
  (λ '(sink, report), (keys (FakeSink.records sink), report.(IngestReport.failures).*1))
    <$> ingest_records_with_policy (λ _, "diagnostic") 5
          [sample_node "agent_memory:v1:a" [sample_link "agent_memory:v1:b" "OBSERVES"];
           sample_node "agent_memory:v1:b" []]
          (FakeSink.new_fail_after 1) Quarantine
  = Some (["agent_memory:v1:a"], ["agent_memory:v1:b"]).
Proof. vm_compute. reflexivity. Qed.

(** [DEPENDS_ON] is in the checked partition but not in the hand-written listing, so an inline
    link with that relation is not a citation. *)
Example depends_on_links_unchecked :
  is_integrity_checked_evidence_edge EdgeLabel.DependsOn = true
  ∧ edge_label_from_wire "DEPENDS_ON" = None
  ∧ collect_evidence_citations
      [sample_node "agent_memory:v1:a" [sample_link "agent_memory:v1:gone" "DEPENDS_ON"]] = [].
Proof. split_and!; vm_compute; reflexivity. Qed.

(** ** Reading JSON Lines *)

(** [str::lines]: the text before each newline, without one carriage return at its end, and
    the text after the last newline when there is any. *)
Definition CR : Ascii.ascii := Ascii.ascii_of_N 13.
Fixpoint strip_line_ends (pieces : list string) : list string :=
  match pieces with
  | [] => []
  | [rest] => if rest =s? "" then [] else [rest]
  | piece :: pieces => default piece (strip_suffix (String CR "") piece) :: strip_line_ends pieces
  end.
Definition lines (s : string) : list string := strip_line_ends (split_char LF s).

(** [.lines().enumerate().filter(|(_, line)| !line.trim().is_empty())]. *)
Definition numbered_lines (jsonl : string) : list (nat * string) :=
  List.filter (λ '(_, line), negb (trim line =s? "")) (imap pair (lines jsonl)).

(** [RecordReadError] as text. *)
(* schema_version.rs 130-152: RecordReadError *)
Definition read_error_to_string (e : RecordReadError) : string :=
  match e with
  | Json message => "failed to parse graph JSON: " +:+ message
  | MissingField field => "missing required field while checking schema_version: " +:+ field
  | InvalidField field message =>
      "invalid field while checking schema_version: " +:+ field +:+ ": " +:+ message
  end.

Module JsonlRecordReport.
(* adapters/mod.rs 317-322: JsonlRecordReport *)
Record t : Type := mk {
  records : list GraphRecord;
  unknown_schema_versions : list UnknownSchemaVersion.t
}.
End JsonlRecordReport.

Section Jsonl.
Context {V : Type} `{!JsonValue V} {JsonError : Type} (error_to_string : JsonError → string).
Context (from_str_record : string → result GraphRecord JsonError).
Context (from_str_value : string → result V JsonError).

Definition read_line (entry : nat * string) : AdapterResult RecordLineRead :=
  map_err (λ e, AdapterError.Parse (entry.1 + 1) (read_error_to_string e))
    (read_record_line error_to_string from_str_record from_str_value entry.2).

(* adapters/mod.rs 705-727: records_from_jsonl *)
Fixpoint collect_records (entries : list (nat * string)) (records : list GraphRecord)
    : AdapterResult (list GraphRecord) :=
  match entries with
  | [] => Ok records
  | entry :: entries =>
      let? read := read_line entry in
      match read with
      | ReadRecord record => collect_records entries (records ++ [record])
      | ReadUnknownSchemaVersion unknown =>
          Err (AdapterError.UnknownSchemaVersion (Some (entry.1 + 1)%nat)
                 unknown.(UnknownSchemaVersion.version))
      end
  end.
(* adapters/mod.rs 705-727: records_from_jsonl *)
Definition records_from_jsonl (jsonl : string) : AdapterResult (list GraphRecord) :=
  collect_records (numbered_lines jsonl) [].

(* adapters/mod.rs 734-752: records_from_jsonl_report *)
Fixpoint collect_report (entries : list (nat * string)) (report : JsonlRecordReport.t)
    : AdapterResult JsonlRecordReport.t :=
  match entries with
  | [] => Ok report
  | entry :: entries =>
      let? read := read_line entry in
      collect_report entries
        (match read with
         | ReadRecord record =>
             JsonlRecordReport.mk (report.(JsonlRecordReport.records) ++ [record])
               report.(JsonlRecordReport.unknown_schema_versions)
         | ReadUnknownSchemaVersion unknown =>
             JsonlRecordReport.mk report.(JsonlRecordReport.records)
               (report.(JsonlRecordReport.unknown_schema_versions) ++ [unknown])
         end)
  end.
(* adapters/mod.rs 734-752: records_from_jsonl_report *)
Definition records_from_jsonl_report (jsonl : string) : AdapterResult JsonlRecordReport.t :=
  collect_report (numbered_lines jsonl) (JsonlRecordReport.mk [] []).

Lemma collect_report_unknown entries report report' :
  collect_report entries report = Ok report' →
  ∃ us, report'.(JsonlRecordReport.unknown_schema_versions)
        = report.(JsonlRecordReport.unknown_schema_versions) ++ us.
Proof using.
  revert report. induction entries as [|e entries IH]; intros report; cbn [collect_report].
  { intros [= <-]. exists []. by rewrite app_nil_r. }
  destruct (read_line e) as [[r|u]|]; cbn [result_bind]; [| |done]; intros (us & ->)%IH; cbn.
  - by exists us.
  - exists (u :: us). by rewrite <-app_assoc.
Qed.

(** The strict reader succeeds exactly when the reporting one does without an unknown version,
    and then with the same records. *)
Lemma strict_reader_agrees jsonl records :
  records_from_jsonl jsonl = Ok records
  ↔ records_from_jsonl_report jsonl = Ok (JsonlRecordReport.mk records []).
Proof using.
  unfold records_from_jsonl, records_from_jsonl_report. generalize (numbered_lines jsonl).
  intros entries. generalize (@nil GraphRecord) at 1 2. intros acc. revert acc.
  induction entries as [|e entries IH]; intros acc; cbn [collect_records collect_report].
  { split; by intros [= ->]. }
  destruct (read_line e) as [[r|u]|]; cbn [result_bind]; [apply IH| |done].
  split; [done|]. intros Hr. apply collect_report_unknown in Hr as (us & Hus). cbn in Hus. done.
Qed.
End Jsonl.

Example lines_ex : lines (String.concat (String LF "") ["a"; "b" +:+ String CR ""; ""; "c"; ""])
  = ["a"; "b"; ""; "c"].
Proof. reflexivity. Qed.
