(* ===== verification/IndexTable.v ===== *)
(** * Lookup tables of the graph index ([src/src/graph_index.rs], the byte format)

    The binary lookup table of the sidecar index: its encoder, the decoder of a whole table and
    the reader that searches a table in place in the index file. A [u8] is an [ascii], a [u32],
    a [u64] or a [usize] (64 bits) an [N]; an addition or multiplication that overflows, which
    panics in a debug build and wraps in a release one, is [None]. A file is the list of its
    bytes, which do not change while it is read. *)
From S2P Require Import Prelude RustStr.
From Stdlib Require Import Ascii NArith.

Module IndexTable.

Abbreviation bytes := (list ascii).
Definition as_bytes (s : string) : bytes := String.list_ascii_of_string s.
Definition of_bytes (l : bytes) : string := String.string_of_list_ascii l.
Definition size (l : bytes) : N := N.of_nat (length l).
Definition slice (l : bytes) (start len : N) : bytes := take (N.to_nat len) (drop (N.to_nat start) l).

(** ** Machine integers *)
Definition u64_max : N := 18446744073709551615.
(** [checked_add], [checked_mul], and the plain operators. *)
Definition add64 (a b : N) : option N := if (a + b <=? u64_max)%N then Some (a + b)%N else None.
Definition mul64 (a b : N) : option N := if (a * b <=? u64_max)%N then Some (a * b)%N else None.

(** [to_le_bytes] of an integer of [width] bytes, and [from_le_bytes]. *)
Fixpoint to_le_bytes (width : nat) (n : N) : bytes :=
  match width with
  | 0%nat => []
  | S width => ascii_of_N (n mod 256) :: to_le_bytes width (n / 256)
  end.
Fixpoint from_le_bytes (l : bytes) : N :=
  match l with
  | [] => 0
  | b :: l => (N_of_ascii b + 256 * from_le_bytes l)%N
  end.

(** [u32::try_from(n).unwrap_or(u32::MAX)]. *)
Definition saturating_u32 (n : N) : N := N.min n u32_max.

(** [Ord] of [[u8]]. *)
Definition bytes_cmp : bytes → bytes → comparison :=
  vec_cmp (λ a b, N.compare (N_of_ascii a) (N_of_ascii b)).

(** The text after its first UTF-8 character: continuation bytes, no overlong form, no
    surrogate, at most [U+10FFFF]. *)
Definition next_char {A} (rec : bytes → A) (none : A) (l : bytes) : A :=
  let rng (lo hi : N) (c : ascii) := ((lo <=? N_of_ascii c) && (N_of_ascii c <=? hi))%N in
  let cont := rng 128%N 191%N in
  match l with
  | [] => none
  | a :: l1 =>
      if rng 0%N 127%N a then rec l1
      else match l1 with
      | [] => none
      | b :: l2 =>
          if rng 194%N 223%N a then if cont b then rec l2 else none
          else match l2 with
          | [] => none
          | c :: l3 =>
              if rng 224%N 239%N a then
                if (if rng 224%N 224%N a then rng 160%N 191%N b
                    else if rng 237%N 237%N a then rng 128%N 159%N b else cont b) && cont c
                then rec l3 else none
              else match l3 with
              | [] => none
              | d :: l4 =>
                  if rng 240%N 244%N a
                     && (if rng 240%N 240%N a then rng 144%N 191%N b
                         else if rng 244%N 244%N a then rng 128%N 143%N b else cont b)
                     && cont c && cont d
                  then rec l4 else none
              end
          end
      end
  end.

(** [String::from_utf8(l).is_ok()]. *)
Fixpoint valid_utf8 (l : bytes) : bool :=
  match l with [] => true | _ => next_char valid_utf8 false l end.

(** [std::io::Error], by the kinds the file makes or tells apart; an error of the system
    carries its text. *)
Inductive IoError : Type :=
| InvalidData (message : string)
| UnexpectedEof
| NotFound (message : string)
| Os (message : string).

(** Its [Display]. *)
Definition io_error_to_string (e : IoError) : string :=
  match e with
  | InvalidData message | NotFound message | Os message => message
  | UnexpectedEof => "failed to fill whole buffer"
  end.

(* graph_index.rs 452-454: corrupt *)
Definition corrupt (message : string) : IoError := InvalidData message.

(** A computation that may fail with an I/O error, or overflow. *)
Abbreviation Io A := (option (result A IoError)).
Definition io_bind {A B} (m : Io A) (k : A → Io B) : Io B :=
  match m with
  | None => None
  | Some (Err e) => Some (Err e)
  | Some (Ok a) => k a
  end.
Notation "'let*' x ':=' m 'in' k" := (io_bind m (λ x, k))
  (at level 10, x name, m at level 100, k at level 200) : rust_scope.
Definition lift {A} (o : option A) (e : IoError) : Io A := Some (ok_or o e).

(* graph_index.rs 353-357: read_exact_at *)
Definition read_exact_at (file : bytes) (offset len : N) : result bytes IoError :=
  if (len =? 0)%N then Ok []
  else if (offset + len <=? size file)%N then Ok (slice file offset len)
  else Err UnexpectedEof.

(** ** Encoding *)

(* graph_index.rs 65-67: ENTRY_LEN *)
Definition ENTRY_LEN : N := 24.

(** The entries of a table, with the lengths of the keys and postings before each. *)
(* graph_index.rs 421-432: encode_table *)
Fixpoint encode_entries (head keys_total : N) (l : list (string * list N)) (keys posts : N) : bytes :=
  match l with
  | [] => []
  | (key, offsets) :: l =>
      let key_len := size (as_bytes key) in
      let post_cnt := N.of_nat (length offsets) in
      to_le_bytes 8 (head + keys)
      ++ to_le_bytes 4 (saturating_u32 key_len)
      ++ to_le_bytes 4 (saturating_u32 post_cnt)
      ++ to_le_bytes 8 (head + keys_total + posts)
      ++ encode_entries head keys_total l (keys + key_len) (posts + 8 * post_cnt)
  end.

Definition key_bytes (l : list (string * list N)) : bytes := l ≫= λ p, as_bytes p.1.
Definition post_bytes (l : list (string * list N)) : bytes := l ≫= λ p, p.2 ≫= to_le_bytes 8.

Definition encode_list (l : list (string * list N)) : bytes :=
  let head := (8 + N.of_nat (length l) * ENTRY_LEN)%N in
  to_le_bytes 8 (N.of_nat (length l))
  ++ encode_entries head (size (key_bytes l)) l 0 0 ++ key_bytes l ++ post_bytes l.

Abbreviation TableMap := (gmap string (list N)).
Definition entries_of (m : TableMap) : list (string * list N) :=
  (λ k, (k, default [] (m !! k))) <$> keys m.

(* graph_index.rs 413-440: encode_table *)
Definition encode_table (m : TableMap) : bytes := encode_list (entries_of m).

(** ** Decoding *)

(* graph_index.rs 442-444: u32_at *)
Definition u32_at (l : bytes) (at_ : N) : N := from_le_bytes (slice l at_ 4).
(* graph_index.rs 446-450: u64_at *)
Definition u64_at (l : bytes) (at_ : N) : N := from_le_bytes (slice l at_ 8).

Module Entry.
(* graph_index.rs 457-462: Entry *)
Record t : Type := mk { key_off : N; key_len : N; post_cnt : N; post_off : N }.
End Entry.

(* graph_index.rs 464-471: decode_entry *)
Definition decode_entry (raw : bytes) : Entry.t :=
  Entry.mk (u64_at raw 0) (u32_at raw 8) (u32_at raw 12) (u64_at raw 16).

(** [raw.chunks_exact(8).map(|c| u64_at(c, 0)).collect()] of [count] chunks. *)
Fixpoint decode_posts (count : nat) (raw : bytes) : list N :=
  match count with
  | 0%nat => []
  | S count => u64_at raw 0 :: decode_posts count (drop 8 raw)
  end.

(** One entry of [decode_table]: [raw.get(start..end)] with checked ends. *)
(* graph_index.rs 886-901: decode_table *)
Definition decode_one (raw : bytes) (i : N) : result (string * list N) IoError :=
  let entry := decode_entry (slice raw (8 + i * ENTRY_LEN) ENTRY_LEN) in
  let get start len :=
    let?o e := add64 start len in if (e <=? size raw)%N then Some (slice raw start len) else None in
  let? key := ok_or (get entry.(Entry.key_off) entry.(Entry.key_len)) (corrupt "key outside the table") in
  if negb (valid_utf8 key) then Err (corrupt "key is not UTF-8")
  else
    let? posts := ok_or
      (let?o len := mul64 entry.(Entry.post_cnt) 8 in get entry.(Entry.post_off) len)
      (corrupt "postings outside the table") in
    Ok (of_bytes key, decode_posts (N.to_nat entry.(Entry.post_cnt)) posts).

(** [for i in 0..count { .. map.insert(key, posts); }] *)
(* graph_index.rs 884-904: decode_table *)
Fixpoint decode_all (raw : bytes) (count : nat) (i : N) (m : TableMap) : result TableMap IoError :=
  match count with
  | 0%nat => Ok m
  | S count =>
      let? kp := decode_one raw i in
      decode_all raw count (i + 1) (<[kp.1 := kp.2]> m)
  end.

(** [count * ENTRY_LEN + 8] when it does not overflow. *)
Definition entries_end (count : N) : option N := let?o n := mul64 count ENTRY_LEN in add64 n 8.

(* graph_index.rs 872-905: decode_table *)
Definition decode_table (raw : bytes) : result TableMap IoError :=
  if (size raw <? 8)%N then Err (corrupt "table shorter than its count")
  else
    let count := u64_at raw 0 in
    match entries_end count with
    | Some head =>
        if (head <=? size raw)%N then decode_all raw (N.to_nat count) 0 ∅
        else Err (corrupt "table entries exceed the table")
    | None => Err (corrupt "table entries exceed the table")
    end.

(** ** Reading a table in place *)
Module FileTable.
(* graph_index.rs 474-478: FileTable *)
Record t : Type := mk { file : bytes; start : N; len : N }.

(* graph_index.rs 481-496: FileTable::count *)
Definition count (self : t) : Io N :=
  if (self.(len) <? 8)%N then Some (Err (corrupt "table shorter than its count"))
  else
    let* raw := Some (read_exact_at self.(file) self.(start) 8) in
    let count := from_le_bytes raw in
    let* entries := lift (entries_end count) (corrupt "table count overflows") in
    if (self.(len) <? entries)%N then Some (Err (corrupt "table entries exceed the table"))
    else Some (Ok count).

(* graph_index.rs 498-514: FileTable::entry *)
Definition entry (self : t) (index : N) : Io Entry.t :=
  match (let?o a := add64 self.(start) 8 in let?o b := mul64 index ENTRY_LEN in add64 a b) with
  | None => None
  | Some at_ =>
      let* raw := Some (read_exact_at self.(file) at_ ENTRY_LEN) in
      let entry := decode_entry raw in
      let inside (e : option N) := match e with Some e => (e <=? self.(len))%N | None => false end in
      let key_end := add64 entry.(Entry.key_off) entry.(Entry.key_len) in
      let post_end := let?o n := mul64 entry.(Entry.post_cnt) 8 in add64 n entry.(Entry.post_off) in
      if negb (inside key_end) || negb (inside post_end)
      then Some (Err (corrupt "table entry points outside the table"))
      else Some (Ok entry)
  end.

(* graph_index.rs 516-520: FileTable::key *)
Definition key (self : t) (entry : Entry.t) : Io bytes :=
  match add64 self.(start) entry.(Entry.key_off) with
  | None => None
  | Some at_ => Some (read_exact_at self.(file) at_ entry.(Entry.key_len))
  end.

(* graph_index.rs 522-526: FileTable::postings *)
Definition postings (self : t) (entry : Entry.t) : Io (list N) :=
  match mul64 entry.(Entry.post_cnt) 8, add64 self.(start) entry.(Entry.post_off) with
  | Some n, Some at_ =>
      let* raw := Some (read_exact_at self.(file) at_ n) in
      Some (Ok (decode_posts (N.to_nat entry.(Entry.post_cnt)) raw))
  | _, _ => None
  end.

(** The binary search; every round halves [hi - lo], so 65 rounds are enough for any two
    [u64]s. *)
(* graph_index.rs 531-539: FileTable::lookup *)
Fixpoint search (fuel : nat) (self : t) (key_ : bytes) (lo hi : N) : Io (list N) :=
  if (lo <? hi)%N then
    match fuel with
    | 0%nat => None
    | S fuel =>
        let mid := (lo + (hi - lo) / 2)%N in
        let* entry := entry self mid in
        let* k := key self entry in
        match bytes_cmp k key_ with
        | Eq => postings self entry
        | Lt => search fuel self key_ (mid + 1) hi
        | Gt => search fuel self key_ lo mid
        end
    end
  else Some (Ok []).

(* graph_index.rs 529-541: FileTable::lookup *)
Definition lookup (self : t) (key_ : string) : Io (list N) :=
  let* hi := count self in search 65 self (as_bytes key_) 0 hi.

(* graph_index.rs 543-550: FileTable::keys *)
Fixpoint keys_from (self : t) (n : nat) (i : N) : Io (list string) :=
  match n with
  | 0%nat => Some (Ok [])
  | S n =>
      let* entry := entry self i in
      let* k := key self entry in
      if negb (valid_utf8 k) then Some (Err (corrupt "table key is not UTF-8"))
      else let* ks := keys_from self n (i + 1) in Some (Ok (of_bytes k :: ks))
  end.
(* graph_index.rs 543-550: FileTable::keys *)
Definition keys (self : t) : Io (list string) :=
  let* n := count self in keys_from self (N.to_nat n) 0.
End FileTable.

Example table_ex :
  let m : TableMap := {[ "b" := [5; 300]; "a" := [7]; "" := [] ]}%N in
  decode_table (encode_table m) = Ok m
  ∧ FileTable.lookup (FileTable.mk (as_bytes "xyz" ++ encode_table m) 3 (size (encode_table m))) "b"
    = Some (Ok [5; 300]%N)
  ∧ FileTable.keys (FileTable.mk (encode_table m) 0 (size (encode_table m))) = Some (Ok [""; "a"; "b"]).
Proof. split_and!; vm_compute; reflexivity. Qed.

(** ** UTF-8 and ASCII *)
Lemma next_char_rec {A} (rec : bytes → A) none l :
  next_char rec none l = match next_char Some None l with Some r => rec r | None => none end.
Proof. unfold next_char. repeat case_match; simplify_eq; done. Qed.

Lemma next_char_shorter l r : next_char Some None l = Some r → (length r < length l)%nat.
Proof. unfold next_char. repeat case_match; intros; simplify_eq/=; lia. Qed.

Lemma next_char_app c x a b :
  (N_of_ascii c <= 127)%N →
  next_char Some None (x :: a ++ c :: b) = (λ r, r ++ c :: b) <$> next_char Some None (x :: a).
Proof.
  intros Hc.
  assert (∀ lo, (127 < lo)%N → (lo <=? N_of_ascii c)%N = false) as Hlo
    by (intros lo Hl; apply N.leb_gt; lia).
  unfold next_char. destruct a as [|y [|z [|w a]]]; cbn [app]; rewrite ?Hlo by lia;
    rewrite ?andb_false_l, ?andb_false_r; repeat case_match; simplify_eq; try done;
    rewrite ?andb_false_r in *; done.
Qed.

(** An ASCII byte is a character of its own wherever it stands. *)
Lemma valid_utf8_ascii c a b :
  (N_of_ascii c <= 127)%N → valid_utf8 (a ++ c :: b) = valid_utf8 a && valid_utf8 b.
Proof.
  intros Hc. remember (length a) as n eqn:Hn. revert a Hn.
  induction n as [n IH] using lt_wf_ind. intros [|x a] ->; cbn [app valid_utf8].
  - rewrite next_char_rec. unfold next_char. rewrite (proj2 (N.leb_le 0 _)), (proj2 (N.leb_le _ 127)) by lia. done.
  - rewrite next_char_rec, (next_char_rec valid_utf8 false (x :: a)), next_char_app by done.
    destruct (next_char Some None (x :: a)) as [r|] eqn:Hr; [|done]. cbn.
    eapply IH; [|done]. by apply next_char_shorter.
Qed.

(** ** Byte positions *)
Lemma size_app l k : size (l ++ k) = (size l + size k)%N.
Proof. unfold size. rewrite length_app. lia. Qed.

Lemma size_cons a l : size (a :: l) = (1 + size l)%N.
Proof. unfold size. simpl. lia. Qed.

Lemma slice_skip p l a n : slice (p ++ l) (size p + a) n = slice l a n.
Proof.
  unfold slice, size. rewrite N2Nat.inj_add, Nat2N.id, drop_app_ge by lia.
  do 2 f_equal. lia.
Qed.

Lemma slice_here x q : slice (x ++ q) 0 (size x) = x.
Proof. unfold slice, size. rewrite Nat2N.id, drop_0. apply take_app_length. Qed.

(** What [x] holds, wherever it sits. *)
Lemma slice_at p x q a n :
  a = size p → n = size x → slice (p ++ x ++ q) a n = x.
Proof. intros -> ->. rewrite <-(N.add_0_r (size p)), slice_skip. apply slice_here. Qed.

Lemma slice_within p x q a n :
  (a + n <= size x)%N → slice (p ++ x ++ q) (size p + a) n = slice x a n.
Proof.
  intros H. rewrite slice_skip. unfold slice, size in *.
  rewrite drop_app_le by lia. rewrite take_app_le; [done|]. rewrite length_drop. lia.
Qed.

Lemma size_slice l a n : (a + n <= size l)%N → size (slice l a n) = n.
Proof. unfold slice, size. rewrite length_take, length_drop. lia. Qed.

(** A read inside the file. *)
Lemma read_exact_ok file a n :
  (a + n <= size file)%N → read_exact_at file a n = Ok (slice file a n).
Proof.
  intros H. unfold read_exact_at. destruct (N.eqb_spec n 0) as [->|].
  - unfold slice. by rewrite take_0.
  - by rewrite (proj2 (N.leb_le _ _)).
Qed.

(** ** Little-endian integers *)
Lemma size_to_le w n : size (to_le_bytes w n) = N.of_nat w.
Proof.
  revert n. induction w as [|w IH]; intros n; [done|]. cbn [to_le_bytes].
  rewrite size_cons, IH. lia.
Qed.

Lemma from_to_le w n : (n < 256 ^ N.of_nat w)%N → from_le_bytes (to_le_bytes w n) = n.
Proof.
  revert n. induction w as [|w IH]; intros n Hn; cbn [to_le_bytes from_le_bytes].
  { simpl in Hn. lia. }
  rewrite N_ascii_embedding by (apply N.mod_lt; done).
  rewrite IH; [pose proof (N.div_mod' n 256); lia|].
  apply N.Div0.div_lt_upper_bound. rewrite Nat2N.inj_succ, N.pow_succ_r' in Hn. lia.
Qed.

Lemma from_le_bound l : (from_le_bytes l < 256 ^ size l)%N.
Proof.
  induction l as [|b l IH]; [done|]. cbn [from_le_bytes]. rewrite size_cons.
  rewrite N.add_1_l, N.pow_succ_r'. pose proof (N_ascii_bounded b). lia.
Qed.

Lemma u64_at_le p n q a :
  a = size p → (n <= u64_max)%N → u64_at (p ++ to_le_bytes 8 n ++ q) a = n.
Proof.
  intros -> Hn. unfold u64_at. rewrite slice_at by (done || by rewrite size_to_le).
  apply from_to_le. unfold u64_max in Hn. change (256 ^ N.of_nat 8)%N with 18446744073709551616%N. lia.
Qed.

Lemma u32_at_le p n q a :
  a = size p → (n <= u32_max)%N → u32_at (p ++ to_le_bytes 4 n ++ q) a = n.
Proof.
  intros -> Hn. unfold u32_at. rewrite slice_at by (done || by rewrite size_to_le).
  apply from_to_le. unfold u32_max in Hn. change (256 ^ N.of_nat 4)%N with 4294967296%N. lia.
Qed.

Lemma u64_at_bound l a : (u64_at l a <= u64_max)%N.
Proof.
  unfold u64_at. pose proof (from_le_bound (slice l a 8)) as H.
  assert (size (slice l a 8) <= 8)%N as Hs.
  { unfold slice, size. rewrite length_take. lia. }
  apply (N.pow_le_mono_r 256) in Hs; [|done].
  unfold u64_max. change (256 ^ 8)%N with 18446744073709551616%N in Hs. lia.
Qed.

Lemma decode_posts_encode (v : list N) q :
  Forall (λ n, n <= u64_max)%N v →
  decode_posts (length v) ((v ≫= to_le_bytes 8) ++ q) = v.
Proof.
  induction 1 as [|n v Hn _ IH]; [done|].
  cbn [length decode_posts]. rewrite bind_cons, <-(assoc_L (++)). f_equal.
  - by apply (u64_at_le [] n).
  - rewrite drop_app_length' by done. apply IH.
Qed.

Lemma of_as_bytes s : of_bytes (as_bytes s) = s.
Proof. apply String.string_of_list_ascii_of_string. Qed.

Lemma as_of_bytes l : as_bytes (of_bytes l) = l.
Proof. apply String.list_ascii_of_string_of_list_ascii. Qed.

(** The order of byte strings is the order of [str]. *)
Lemma ascii_compare_N a b : Ascii.compare a b = N.compare (N_of_ascii a) (N_of_ascii b).
Proof. done. Qed.

Lemma bytes_cmp_str s t : bytes_cmp (as_bytes s) (as_bytes t) = String.compare s t.
Proof.
  revert t. induction s as [|a s IH]; intros [|b t]; try done.
  cbn [bytes_cmp vec_cmp as_bytes String.list_ascii_of_string String.compare].
  rewrite ascii_compare_N. fold bytes_cmp. destruct (N.compare _ _); simpl; [apply IH|done|done].
Qed.

(** ** The layout of an encoded table *)
Lemma size_posts (v : list N) : size (v ≫= to_le_bytes 8) = (8 * N.of_nat (length v))%N.
Proof.
  induction v as [|n v IHv]; [done|]. rewrite bind_cons, size_app, IHv, size_to_le.
  simpl length. lia.
Qed.

Lemma encode_entries_app h t l1 l2 ks ps :
  encode_entries h t (l1 ++ l2) ks ps
  = encode_entries h t l1 ks ps
    ++ encode_entries h t l2 (ks + size (key_bytes l1)) (ps + size (post_bytes l1)).
Proof.
  revert ks ps. induction l1 as [|[k v] l1 IH]; intros ks ps; cbn [app encode_entries].
  { unfold size. simpl. by rewrite !N.add_0_r. }
  rewrite IH, <-!(assoc_L (++)). do 4 f_equal. f_equal.
  unfold key_bytes, post_bytes. rewrite !bind_cons, !size_app. cbn [fst snd].
  rewrite size_posts. f_equal; lia.
Qed.

Lemma size_encode_entries h t l ks ps :
  size (encode_entries h t l ks ps) = (N.of_nat (length l) * ENTRY_LEN)%N.
Proof.
  revert ks ps. induction l as [|[k v] l IH]; intros ks ps; cbn [encode_entries]; [done|].
  rewrite !size_app, IH, !size_to_le. unfold ENTRY_LEN. simpl length. lia.
Qed.

(** A table whose sizes its fields can hold: a [u32] for the length of a key and for the number
    of its postings, a [u64] for a posting and for every position. *)
Definition entry_fits (p : string * list N) : Prop :=
  valid_utf8 (as_bytes p.1) = true ∧ (size (as_bytes p.1) <= u32_max)%N
  ∧ (N.of_nat (length p.2) <= u32_max)%N ∧ Forall (λ n, n <= u64_max)%N p.2.
Definition list_fits (l : list (string * list N)) : Prop :=
  Forall entry_fits l ∧ (size (encode_list l) <= u64_max)%N.

#[export] Instance entry_fits_dec p : Decision (entry_fits p).
Proof. unfold entry_fits. apply _. Defined.
#[export] Instance list_fits_dec l : Decision (list_fits l).
Proof. unfold list_fits. apply _. Defined.

Definition head_len (l : list (string * list N)) : N := (8 + N.of_nat (length l) * ENTRY_LEN)%N.

Lemma encode_list_size l :
  size (encode_list l) = (head_len l + size (key_bytes l) + size (post_bytes l))%N.
Proof.
  unfold encode_list, head_len. rewrite !size_app, size_encode_entries, size_to_le. lia.
Qed.

(** The entry that describes the pair after [l1]. *)
Definition entry_after (l l1 : list (string * list N)) (k : string) (v : list N) : Entry.t :=
  Entry.mk (head_len l + size (key_bytes l1)) (size (as_bytes k))
           (N.of_nat (length v)) (head_len l + size (key_bytes l) + size (post_bytes l1)).

Section Layout.
Context (l1 l2 : list (string * list N)) (k : string) (v : list N).
Let l := l1 ++ (k, v) :: l2.
Context (Hfits : list_fits l).
Let e := entry_after l l1 k v.

Lemma layout_fits : entry_fits (k, v).
Proof using Hfits. destruct Hfits as [H _]. unfold l in H. rewrite Forall_app, Forall_cons in H. apply H. Qed.

Lemma key_bytes_split : key_bytes l = key_bytes l1 ++ as_bytes k ++ key_bytes l2.
Proof. unfold l, key_bytes. by rewrite bind_app, bind_cons. Qed.

Lemma post_bytes_split : post_bytes l = post_bytes l1 ++ (v ≫= to_le_bytes 8) ++ post_bytes l2.
Proof. unfold l, post_bytes. by rewrite bind_app, bind_cons. Qed.

Lemma layout_sizes :
  (e.(Entry.key_off) + e.(Entry.key_len) <= size (encode_list l))%N
  ∧ (e.(Entry.post_cnt) * 8 + e.(Entry.post_off) <= size (encode_list l))%N.
Proof using.
  rewrite encode_list_size. pose proof key_bytes_split as Hk. pose proof post_bytes_split as Hp.
  apply (f_equal size) in Hk, Hp. rewrite !size_app in Hk, Hp. rewrite size_posts in Hp.
  unfold e, entry_after. cbn. lia.
Qed.

Lemma layout_entry :
  decode_entry (slice (encode_list l) (8 + N.of_nat (length l1) * ENTRY_LEN) ENTRY_LEN) = e.
Proof using Hfits.
  pose proof layout_sizes as [Hs1 Hs2]. destruct Hfits as [_ Hmax].
  destruct layout_fits as (_ & Hk & Hv & _). cbn [fst snd] in *.
  set (raw := to_le_bytes 8 e.(Entry.key_off) ++ to_le_bytes 4 e.(Entry.key_len)
              ++ to_le_bytes 4 e.(Entry.post_cnt) ++ to_le_bytes 8 e.(Entry.post_off)).
  assert (slice (encode_list l) (8 + N.of_nat (length l1) * ENTRY_LEN) ENTRY_LEN = raw) as ->.
  { unfold encode_list, l. rewrite encode_entries_app. cbn [encode_entries].
    unfold saturating_u32. rewrite !N.min_l by done.
    rewrite <-!(assoc_L (++)), (assoc_L (++) (to_le_bytes 8 (N.of_nat _))).
    match goal with |- slice (?p ++ ?a ++ ?b ++ ?c ++ ?d ++ ?q) _ _ = _ =>
      change (slice (p ++ raw ++ q) (8 + N.of_nat (length l1) * ENTRY_LEN) ENTRY_LEN = raw)
    end.
    apply slice_at.
    - by rewrite size_app, size_encode_entries, size_to_le.
    - unfold raw. rewrite !size_app, !size_to_le. done. }
  unfold decode_entry, raw. clear raw.
  set (a := e.(Entry.key_off)) in *. set (b := e.(Entry.key_len)) in *.
  set (c := e.(Entry.post_cnt)) in *. set (d := e.(Entry.post_off)) in *.
  assert (a <= u64_max ∧ d <= u64_max)%N as [Ha Hd] by lia.
  transitivity (Entry.mk a b c d); [|done]. f_equal.
  - by apply (u64_at_le [] a).
  - by apply (u32_at_le (to_le_bytes 8 a) b).
  - rewrite (assoc_L (++)). by apply (u32_at_le (_ ++ _) c).
  - rewrite !(assoc_L (++)), <-(app_nil_r (to_le_bytes 8 d)). by apply (u64_at_le (_ ++ _) d).
Qed.

Lemma layout_key :
  slice (encode_list l) e.(Entry.key_off) e.(Entry.key_len) = as_bytes k.
Proof using.
  unfold encode_list. rewrite key_bytes_split, <-!(assoc_L (++)).
  rewrite (assoc_L (++) (encode_entries _ _ _ _ _)), (assoc_L (++) (to_le_bytes 8 _)).
  apply slice_at; [|done].
  rewrite !size_app, size_encode_entries, size_to_le. unfold e, entry_after, head_len. cbn. lia.
Qed.

Lemma layout_posts :
  slice (encode_list l) e.(Entry.post_off) (e.(Entry.post_cnt) * 8) = v ≫= to_le_bytes 8.
Proof using.
  unfold encode_list. rewrite post_bytes_split.
  match goal with |- slice (?a ++ ?b ++ ?c ++ ?d ++ ?x ++ ?q) _ _ = _ =>
    replace (a ++ b ++ c ++ d ++ x ++ q) with ((a ++ b ++ c ++ d) ++ x ++ q)
      by (by rewrite <-!(assoc_L (++)))
  end.
  apply slice_at; [|rewrite size_posts; unfold e, entry_after; cbn; lia].
  rewrite !size_app, size_encode_entries, size_to_le. unfold e, entry_after, head_len. cbn. lia.
Qed.
End Layout.

(** ** Decoding what was encoded *)
Lemma ok_add64 a b : (a + b <= u64_max)%N → add64 a b = Some (a + b)%N.
Proof. intros H. unfold add64. by rewrite (proj2 (N.leb_le _ _)). Qed.
Lemma ok_mul64 a b : (a * b <= u64_max)%N → mul64 a b = Some (a * b)%N.
Proof. intros H. unfold mul64. by rewrite (proj2 (N.leb_le _ _)). Qed.

Lemma count_encode l : list_fits l → u64_at (encode_list l) 0 = N.of_nat (length l).
Proof.
  intros [_ H]. apply (u64_at_le []); [done|].
  rewrite encode_list_size in H. unfold head_len, ENTRY_LEN in H. lia.
Qed.

Lemma head_fits l :
  list_fits l →
  entries_end (N.of_nat (length l)) = Some (head_len l) ∧ (head_len l <= size (encode_list l))%N.
Proof.
  intros [_ H]. rewrite encode_list_size in H. split; [|rewrite encode_list_size; lia].
  unfold entries_end. rewrite ok_mul64 by (unfold head_len in H; lia). simpl.
  rewrite ok_add64; unfold head_len in *; [f_equal; lia|lia].
Qed.

Lemma decode_one_encode l1 l2 k v :
  let l := l1 ++ (k, v) :: l2 in
  list_fits l → decode_one (encode_list l) (N.of_nat (length l1)) = Ok (k, v).
Proof.
  intros l Hf. pose proof (layout_sizes l1 l2 k v) as [H1 H2].
  pose proof (proj2 Hf) as Hmax. destruct (layout_fits l1 l2 k v Hf) as (Hu & _ & _ & Hv).
  pose proof (layout_key l1 l2 k v) as Hkey. pose proof (layout_posts l1 l2 k v) as Hpost.
  pose proof (layout_entry l1 l2 k v Hf) as Hent. unfold decode_one. fold l in Hent.
  rewrite Hent. cbv zeta.
  assert (N.to_nat (entry_after l l1 k v).(Entry.post_cnt) = length v) as Hcnt
    by apply Nat2N.id.
  fold l in H1, H2, Hkey, Hpost |- *. set (e := entry_after l l1 k v) in *. clearbody e.
  rewrite ok_add64 by lia. cbn [mbind option_bind]. rewrite (proj2 (N.leb_le _ _)), Hkey by done.
  cbn [ok_or result_bind fst snd] in *. rewrite Hu. cbn [negb].
  rewrite ok_mul64 by lia. cbn [mbind option_bind].
  rewrite ok_add64 by lia. cbn [mbind option_bind].
  rewrite (proj2 (N.leb_le _ _)), Hpost by lia. cbn [ok_or result_bind].
  rewrite of_as_bytes, Hcnt, <-(app_nil_r (v ≫= _)). by rewrite decode_posts_encode.
Qed.

Lemma decode_all_encode l1 l2 m :
  list_fits (l1 ++ l2) →
  decode_all (encode_list (l1 ++ l2)) (length l2) (N.of_nat (length l1)) m
  = Ok (foldl (λ m kp, <[kp.1 := kp.2]> m) m l2).
Proof.
  revert l1 m. induction l2 as [|[k v] l2 IH]; intros l1 m Hf; [done|].
  cbn [length decode_all]. rewrite decode_one_encode by done. cbn [result_bind].
  replace (N.of_nat (length l1) + 1)%N with (N.of_nat (length (l1 ++ [(k, v)])))
    by (rewrite length_app; simpl; lia).
  specialize (IH (l1 ++ [(k, v)])). rewrite <-(assoc_L (++)) in IH. by apply IH.
Qed.

Lemma foldl_insert_lookup {A} (l : list (string * A)) (m : gmap string A) k :
  NoDup l.*1 →
  foldl (λ m kp, <[kp.1 := kp.2]> m) m l !! k
  = match (list_to_map l : gmap string A) !! k with Some v => Some v | None => m !! k end.
Proof.
  revert m. induction l as [|[i v] l IH]; intros m Hn; cbn [foldl].
  { rewrite list_to_map_nil, lookup_empty. done. }
  cbn [fmap list_fmap fst] in Hn. apply NoDup_cons in Hn as [Hi Hn].
  rewrite IH by done. cbn [fst snd]. rewrite list_to_map_cons.
  destruct (decide (i = k)) as [->|Hik].
  - rewrite !lookup_insert_eq. by rewrite (not_elem_of_list_to_map_1 _ _ Hi).
  - by rewrite !lookup_insert_ne.
Qed.

Lemma entries_of_fst m : (entries_of m).*1 = keys m.
Proof. unfold entries_of. rewrite <-list_fmap_compose. apply list_fmap_id. Qed.

Lemma entries_of_elem m k v : (k, v) ∈ entries_of m ↔ m !! k = Some v.
Proof.
  unfold entries_of. rewrite list_elem_of_fmap. setoid_rewrite keys_elem. split.
  - intros (k' & [= -> ->] & [v' Hv]). by rewrite Hv.
  - intros Hm. exists k. rewrite Hm. eauto.
Qed.

Lemma entries_of_map m : list_to_map (entries_of m) = m.
Proof.
  apply map_eq. intros k. apply option_eq. intros v.
  rewrite <-elem_of_list_to_map, entries_of_elem; [done|].
  rewrite entries_of_fst. apply keys_NoDup.
Qed.

Abbreviation table_fits m := (list_fits (entries_of m)).

Lemma decode_encode m : table_fits m → decode_table (encode_table m) = Ok m.
Proof.
  intros Hf. unfold decode_table, encode_table. destruct (head_fits _ Hf) as [He Hh].
  rewrite count_encode, He by done.
  rewrite (proj2 (N.ltb_ge _ _)) by (unfold head_len in Hh; lia).
  rewrite (proj2 (N.leb_le _ _)), Nat2N.id by done.
  etransitivity; [exact (decode_all_encode [] _ ∅ Hf)|]. f_equal. apply map_eq. intros k.
  rewrite foldl_insert_lookup by (rewrite entries_of_fst; apply keys_NoDup).
  rewrite entries_of_map, lookup_empty. by destruct (m !! k).
Qed.

(** ** Searching a table inside a file *)
Section Embedded.
Context (pre suf : bytes) (l : list (string * list N)).
Context (Hf : list_fits l) (Hmax : (size (pre ++ encode_list l ++ suf) <= u64_max)%N).
Let t := FileTable.mk (pre ++ encode_list l ++ suf) (size pre) (size (encode_list l)).

Lemma read_inside a n :
  (a + n <= size (encode_list l))%N →
  read_exact_at t.(FileTable.file) (size pre + a) n = Ok (slice (encode_list l) a n).
Proof using.
  clear Hmax Hf. intros H. cbn [t FileTable.file].
  rewrite read_exact_ok by (rewrite !size_app; lia). by rewrite slice_within.
Qed.

Lemma max_inside a : (a <= size (encode_list l))%N → (size pre + a <= u64_max)%N.
Proof using Hmax. clear Hf. rewrite !size_app in Hmax. lia. Qed.

Lemma count_embedded : FileTable.count t = Some (Ok (N.of_nat (length l))).
Proof using Hf.
  clear Hmax. destruct (head_fits _ Hf) as [He Hh]. assert (8 <= size (encode_list l))%N as H8.
  { unfold head_len in Hh. lia. }
  unfold FileTable.count. cbn [t FileTable.len FileTable.start].
  rewrite (proj2 (N.ltb_ge _ _)) by done.
  rewrite <-(N.add_0_r (size pre)), read_inside by lia. cbn [io_bind].
  change (from_le_bytes (slice _ 0 8)) with (u64_at (encode_list l) 0).
  rewrite count_encode, He by done. cbn. by rewrite (proj2 (N.ltb_ge _ _)).
Qed.

Lemma split_at i k v :
  l !! i = Some (k, v) → ∃ l1 l2, l = l1 ++ (k, v) :: l2 ∧ length l1 = i.
Proof using.
  clear Hf Hmax. intros H. exists (take i l), (drop (S i) l). split; [by rewrite take_drop_middle|].
  apply length_take_le. apply lookup_lt_Some in H. lia.
Qed.

(** The three reads of a round give the pair at the index. *)
Lemma entry_embedded i k v :
  l !! i = Some (k, v) →
  ∃ e, FileTable.entry t (N.of_nat i) = Some (Ok e)
       ∧ FileTable.key t e = Some (Ok (as_bytes k)) ∧ FileTable.postings t e = Some (Ok v).
Proof using Hf Hmax.
  intros (l1 & l2 & Hl & Hi)%split_at. exists (entry_after l l1 k v).
  pose proof (layout_sizes l1 l2 k v) as [H1 H2].
  pose proof (layout_key l1 l2 k v) as Hkey. pose proof (layout_posts l1 l2 k v) as Hpost.
  pose proof Hf as Hf'. rewrite Hl in Hf'.
  pose proof (layout_entry l1 l2 k v Hf') as Hent.
  destruct (layout_fits l1 l2 k v Hf') as (_ & _ & _ & Hv). cbn [snd] in Hv.
  rewrite <-Hl, Hi in *.
  assert (8 + N.of_nat i * ENTRY_LEN + ENTRY_LEN <= size (encode_list l))%N as Hin.
  { destruct (head_fits _ Hf) as [_ Hh]. etrans; [|exact Hh]. unfold head_len, ENTRY_LEN.
    rewrite Hl, length_app. simpl. lia. }
  assert (N.to_nat (entry_after l l1 k v).(Entry.post_cnt) = length v) as Hcnt
    by apply Nat2N.id.
  set (e := entry_after l l1 k v) in *. clearbody e. split_and!.
  - unfold FileTable.entry. cbn [t FileTable.start].
    rewrite ok_add64 by (apply max_inside; lia). cbn [mbind option_bind].
    rewrite ok_mul64 by (pose proof (max_inside _ Hin); lia). cbn [mbind option_bind].
    rewrite ok_add64 by (rewrite <-N.add_assoc; apply max_inside; lia).
    rewrite <-N.add_assoc, read_inside by done. cbn [io_bind]. rewrite Hent. cbv zeta.
    pose proof (max_inside _ H1). pose proof (max_inside _ H2).
    rewrite ok_add64, ok_mul64 by lia. cbn [mbind option_bind]. rewrite ok_add64 by lia.
    cbn [FileTable.len]. by rewrite !(proj2 (N.leb_le _ _)) by done.
  - unfold FileTable.key. cbn [FileTable.start].
    rewrite ok_add64 by (apply max_inside; lia). by rewrite read_inside, Hkey.
  - unfold FileTable.postings. cbn [FileTable.start].
    rewrite ok_mul64 by (pose proof (max_inside _ H2); lia).
    rewrite ok_add64 by (apply max_inside; lia).
    rewrite read_inside, Hpost by lia. cbn [io_bind].
    rewrite Hcnt, <-(app_nil_r (v ≫= _)). by rewrite decode_posts_encode.
Qed.
End Embedded.

(** ** The binary search *)
Definition str_lt (a b : string) : Prop := String.le a b ∧ a ≠ b.

Lemma str_lt_compare a b : str_lt a b ↔ String.compare a b = Lt.
Proof.
  unfold str_lt. rewrite <-str_compare_le, <-(str_compare_Eq a b).
  destruct (String.compare a b); naive_solver.
Qed.

Lemma str_lt_gt a b : str_lt a b → String.compare b a = Gt.
Proof. rewrite str_lt_compare, String.compare_antisym. by destruct (b ?= a)%string. Qed.

Lemma str_lt_trans a b c : str_lt a b → str_lt b c → str_lt a c.
Proof.
  intros [H1 H2] [H3 H4]. split; [by etrans|]. intros ->.
  apply H4. by apply (anti_symm String.le).
Qed.

Lemma ssorted_lookup {A} (R : A → A → Prop) l i j x y :
  StronglySorted R l → l !! i = Some x → l !! j = Some y → (i < j)%nat → R x y.
Proof.
  intros Hs. revert i j. induction Hs as [|a l _ IH Ha]; intros i j Hi Hj Hij; [done|].
  destruct j as [|j]; [lia|]. destruct i as [|i]; cbn in Hi, Hj.
  - simplify_eq. eapply Forall_lookup_1; eauto.
  - eapply IH; eauto. lia.
Qed.

Lemma half_lt a n : (a < 2 ^ N.succ n → a / 2 < 2 ^ n)%N.
Proof. intros H. apply N.Div0.div_lt_upper_bound. by rewrite N.pow_succ_r' in H. Qed.

Lemma halves lo hi :
  (lo < hi → (hi - lo) / 2 < hi - lo ∧ hi - lo <= 2 * ((hi - lo) / 2) + 1)%N.
Proof.
  intros H. split; [apply N.div_lt; lia|].
  pose proof (N.div_mod' (hi - lo) 2). pose proof (N.mod_lt (hi - lo) 2 ltac:(done)). lia.
Qed.

Section Search.
Context (pre suf : bytes) (l : list (string * list N)).
Context (Hf : list_fits l) (Hmax : (size (pre ++ encode_list l ++ suf) <= u64_max)%N).
Context (Hsort : StronglySorted str_lt l.*1).
Let t := FileTable.mk (pre ++ encode_list l ++ suf) (size pre) (size (encode_list l)).

Lemma keys_increase i j k v k' v' :
  l !! i = Some (k, v) → l !! j = Some (k', v') → (i < j)%nat → str_lt k k'.
Proof using Hsort.
  intros Hi Hj. eapply ssorted_lookup; [exact Hsort|rewrite list_lookup_fmap..];
    by rewrite ?Hi, ?Hj.
Qed.

Lemma search_embedded key fuel lo hi :
  (lo <= hi <= N.of_nat (length l))%N → (hi - lo < 2 ^ N.of_nat fuel)%N →
  (∀ i k v, l !! i = Some (k, v) → (N.of_nat i < lo)%N → str_lt k key) →
  (∀ i k v, l !! i = Some (k, v) → (hi <= N.of_nat i)%N → str_lt key k) →
  FileTable.search fuel t (as_bytes key) lo hi
  = Some (Ok (default [] ((list_to_map l : gmap string (list N)) !! key))).
Proof using Hf Hmax Hsort.
  revert lo hi. induction fuel as [|fuel IH]; intros lo hi Hb Hw Hlo Hhi;
    cbn [FileTable.search]; destruct (N.ltb_spec lo hi) as [Hlt|Hge].
  1: { change (2 ^ N.of_nat 0)%N with 1%N in Hw. lia. }
  1, 3: assert ((list_to_map l : gmap string (list N)) !! key = None) as ->; [|done].
  1, 2: apply not_elem_of_list_to_map_1; intros ([k v] & -> & [i Hi]%list_elem_of_lookup)%list_elem_of_fmap;
    destruct (N.lt_ge_cases (N.of_nat i) lo);
    [by destruct (Hlo _ _ _ Hi)|destruct (Hhi _ _ _ Hi) as [_ ?]; [lia|done]].
  rewrite Nat2N.inj_succ in Hw. apply half_lt in Hw.
  destruct (halves lo hi Hlt) as [Hh Hhalf].
  set (half := ((hi - lo) / 2)%N) in *. clearbody half. set (mid := (lo + half)%N) in *.
  destruct (lookup_lt_is_Some_2 l (N.to_nat mid)) as [[k v] Hk]; [lia|].
  destruct (entry_embedded pre suf l Hf Hmax _ _ _ Hk) as (e & He & Hkey & Hposts).
  rewrite N2Nat.id in He. fold t in He, Hkey, Hposts.
  rewrite He. cbn [io_bind]. rewrite Hkey. cbn [io_bind]. rewrite bytes_cmp_str.
  destruct (String.compare k key) eqn:Hc.
  - apply str_compare_Eq in Hc as ->. rewrite Hposts.
    rewrite (elem_of_list_to_map_1 l key v); [done| |by eapply list_elem_of_lookup_2].
    apply NoDup_alt. intros i j x Hi Hj.
    destruct (Nat.lt_trichotomy i j) as [Hij|[Hij|Hij]]; [exfalso|done|exfalso].
    + by destruct (ssorted_lookup _ _ _ _ _ _ Hsort Hi Hj Hij).
    + by destruct (ssorted_lookup _ _ _ _ _ _ Hsort Hj Hi Hij).
  - apply str_lt_compare in Hc. apply IH; [lia| |..|done].
    + eapply N.le_lt_trans; [|exact Hw]. lia.
    + intros i k' v' Hi Hle. destruct (decide (i = N.to_nat mid)) as [->|Hne]; [rewrite Hk in Hi; by injection Hi as <- <-|].
      assert (i < N.to_nat mid)%nat by lia. eapply str_lt_trans; [exact (keys_increase _ _ _ _ _ _ Hi Hk ltac:(done))|done].
  - assert (str_lt key k) as Hgt.
    { apply str_lt_compare. rewrite String.compare_antisym, Hc. done. }
    apply IH; [lia|by replace (mid - lo)%N with half by lia|done|].
    intros i k' v' Hi Hle. destruct (decide (i = N.to_nat mid)) as [->|Hne]; [rewrite Hk in Hi; by injection Hi as <- <-|].
    assert (N.to_nat mid < i)%nat by lia. eapply str_lt_trans; [done|exact (keys_increase _ _ _ _ _ _ Hk Hi ltac:(done))].
Qed.

Lemma keys_embedded l1 l2 :
  l = l1 ++ l2 →
  Forall (λ p, valid_utf8 (as_bytes p.1) = true) l2 →
  FileTable.keys_from t (length l2) (N.of_nat (length l1)) = Some (Ok l2.*1).
Proof using Hf Hmax.
  revert l1. induction l2 as [|[k v] l2 IH]; intros l1 Hl Hu; [done|].
  apply Forall_cons in Hu as [Hk Hu].
  destruct (entry_embedded pre suf l Hf Hmax (length l1) k v) as (e & He & Hkey & _).
  { rewrite Hl. by apply list_lookup_middle. }
  fold t in He, Hkey. cbn [length FileTable.keys_from fst] in *.
  rewrite He. cbn [io_bind]. rewrite Hkey. cbn [io_bind]. rewrite Hk. cbn [negb].
  specialize (IH (l1 ++ [(k, v)])). rewrite length_app, Nat2N.inj_add in IH.
  change (N.of_nat (length [(k, v)])) with 1%N in IH. rewrite IH; [|by rewrite <-(assoc_L (++))|done]. cbn. by rewrite of_as_bytes.
Qed.
End Search.

(** ** Public statements *)
Lemma entries_sorted m : StronglySorted str_lt (entries_of m).*1.
Proof. rewrite entries_of_fst. apply str_sort_strict, NoDup_elements. Qed.

Lemma count_small l : list_fits l → (N.of_nat (length l) < 2 ^ 64)%N.
Proof.
  intros [_ H]. rewrite encode_list_size in H. unfold head_len, ENTRY_LEN, u64_max in H.
  change (2 ^ 64)%N with 18446744073709551616%N. lia.
Qed.

Lemma lookup_encoded pre suf (m : TableMap) key :
  table_fits m → (size (pre ++ encode_table m ++ suf) <= u64_max)%N →
  FileTable.lookup (FileTable.mk (pre ++ encode_table m ++ suf) (size pre) (size (encode_table m))) key
  = Some (Ok (default [] (m !! key))).
Proof.
  intros Hf Hmax. unfold FileTable.lookup, encode_table.
  rewrite count_embedded by done. cbn [io_bind].
  rewrite <-(entries_of_map m) at 4. pose proof (count_small _ Hf).
  apply search_embedded; [done|done|apply entries_sorted|lia|lia| |].
  - intros. lia.
  - intros i k v Hi%lookup_lt_Some. lia.
Qed.

Lemma keys_encoded pre suf (m : TableMap) :
  table_fits m → (size (pre ++ encode_table m ++ suf) <= u64_max)%N →
  FileTable.keys (FileTable.mk (pre ++ encode_table m ++ suf) (size pre) (size (encode_table m)))
  = Some (Ok (keys m)).
Proof.
  intros Hf Hmax. unfold FileTable.keys, encode_table.
  rewrite count_embedded by done. cbn [io_bind]. rewrite Nat2N.id.
  rewrite <-entries_of_fst. apply (keys_embedded pre suf _ Hf Hmax []); [done|].
  eapply Forall_impl; [exact (proj1 Hf)|]. by intros p (? & _).
Qed.

(** ** Any bytes *)
(** The read ends with a value [P] holds of, or reports the file as corrupt: it neither
    overflows nor reads past the end of the file. *)
Definition sound {A} (P : A → Prop) (r : Io A) : Prop :=
  match r with
  | Some (Ok a) => P a
  | Some (Err (InvalidData _)) => True
  | _ => False
  end.

Lemma sound_bind {A B} (P : A → Prop) (Q : B → Prop) (m : Io A) (k : A → Io B) :
  sound P m → (∀ a, P a → sound Q (k a)) → sound Q (io_bind m k).
Proof. destruct m as [[a|[]]|]; simpl; auto. Qed.

Lemma sound_impl {A} (P Q : A → Prop) (m : Io A) : sound P m → (∀ a, P a → Q a) → sound Q m.
Proof. destruct m as [[a|[]]|]; simpl; auto. Qed.

Section AnyBytes.
Context (t : FileTable.t).
Context (Hin : (t.(FileTable.start) + t.(FileTable.len) <= size t.(FileTable.file))%N).
Context (Hmax : (size t.(FileTable.file) <= u64_max)%N).

Lemma read_sound a n :
  (a + n <= t.(FileTable.start) + t.(FileTable.len))%N →
  read_exact_at t.(FileTable.file) a n = Ok (slice t.(FileTable.file) a n).
Proof using Hin.
  clear Hmax. intros H. apply read_exact_ok. lia.
Qed.

Lemma count_sound :
  sound (λ c, 8 + c * ENTRY_LEN <= t.(FileTable.len))%N (FileTable.count t).
Proof using Hin.
  clear Hmax. unfold FileTable.count. destruct (N.ltb_spec t.(FileTable.len) 8) as [|H8]; [done|].
  rewrite read_sound by lia. cbn [io_bind]. unfold entries_end, lift, mul64.
  case_match; [|done]. cbn [mbind option_bind]. unfold add64. case_match; [|done]. cbn.
  case_match eqn:Hl; [done|]. apply N.ltb_ge in Hl. unfold ENTRY_LEN in *. cbn. lia.
Qed.

(** An entry inside the table can be read with its key and its postings. *)
Definition entry_inside (e : Entry.t) : Prop :=
  (e.(Entry.key_off) + e.(Entry.key_len) <= t.(FileTable.len))%N
  ∧ (e.(Entry.post_cnt) * 8 + e.(Entry.post_off) <= t.(FileTable.len))%N.

Lemma entry_sound i :
  (8 + i * ENTRY_LEN + ENTRY_LEN <= t.(FileTable.len))%N →
  sound entry_inside (FileTable.entry t i).
Proof using Hin Hmax.
  intros Hi. unfold FileTable.entry.
  rewrite ok_add64 by lia. cbn [mbind option_bind].
  rewrite ok_mul64 by lia. cbn [mbind option_bind]. rewrite ok_add64 by lia.
  rewrite read_sound by lia. cbn [io_bind]. set (e := decode_entry _). clearbody e.
  case_match eqn:Hb; [done|]. apply orb_false_elim in Hb as [Hk Hp].
  rewrite negb_false_iff in Hk, Hp. unfold add64, mul64 in Hk, Hp. cbn.
  split.
  - destruct (_ + _ <=? u64_max)%N; [by apply N.leb_le|done].
  - clear Hk. destruct (_ * 8 <=? u64_max)%N; cbn [mbind option_bind] in Hp; [|done].
    destruct (_ + _ <=? u64_max)%N; [by apply N.leb_le|done].
Qed.

Lemma key_sound e : entry_inside e → sound (λ _, True) (FileTable.key t e).
Proof using Hin Hmax.
  intros [Hk _]. unfold FileTable.key. rewrite ok_add64, read_sound by lia. done.
Qed.

Lemma postings_sound e :
  entry_inside e →
  sound (λ v, N.of_nat (length v) * 8 <= t.(FileTable.len))%N (FileTable.postings t e).
Proof using Hin Hmax.
  intros [_ Hp]. unfold FileTable.postings.
  rewrite ok_mul64, ok_add64, read_sound by lia. cbn.
  assert (∀ n raw, length (decode_posts n raw) = n) as ->.
  { intros n. induction n as [|n IH]; intros raw; cbn; by rewrite ?IH. }
  lia.
Qed.

Lemma search_sound key fuel lo hi :
  (lo <= hi)%N → (8 + hi * ENTRY_LEN <= t.(FileTable.len))%N → (hi - lo < 2 ^ N.of_nat fuel)%N →
  sound (λ v, N.of_nat (length v) * 8 <= t.(FileTable.len))%N (FileTable.search fuel t key lo hi).
Proof using Hin Hmax.
  revert lo hi. induction fuel as [|fuel IH]; intros lo hi Hb Hl Hw; cbn [FileTable.search];
    destruct (N.ltb_spec lo hi) as [Hlt|Hge]; try (cbn; lia).
  rewrite Nat2N.inj_succ in Hw. apply half_lt in Hw.
  destruct (halves lo hi Hlt) as [Hh Hhalf].
  set (half := ((hi - lo) / 2)%N) in *. clearbody half.
  eapply sound_bind; [apply entry_sound; unfold ENTRY_LEN in *; lia|]. intros e He.
  eapply sound_bind; [by apply key_sound|]. intros k _.
  destruct (bytes_cmp k key).
  - by apply postings_sound.
  - apply IH; [lia|done|]. eapply N.le_lt_trans; [|exact Hw]. lia.
  - apply IH; [lia|unfold ENTRY_LEN in *; lia|]. by replace (lo + half - lo)%N with half by lia.
Qed.

Lemma keys_from_sound n i :
  (8 + (i + N.of_nat n) * ENTRY_LEN <= t.(FileTable.len))%N →
  sound (λ ks, length ks = n) (FileTable.keys_from t n i).
Proof using Hin Hmax.
  revert i. induction n as [|n IH]; intros i Hl; [done|]. cbn [FileTable.keys_from].
  eapply sound_bind; [apply entry_sound; unfold ENTRY_LEN in *; lia|]. intros e He.
  eapply sound_bind; [by apply key_sound|]. intros k _. case_match; [done|].
  eapply sound_bind; [apply IH; unfold ENTRY_LEN in *; lia|]. intros ks Hks. cbn in Hks |- *. lia.
Qed.

Lemma lookup_sound key :
  sound (λ v, N.of_nat (length v) * 8 <= t.(FileTable.len))%N (FileTable.lookup t key).
Proof using Hin Hmax.
  unfold FileTable.lookup. eapply sound_bind; [apply count_sound|]. intros c Hc. cbv beta in Hc.
  apply search_sound; [lia|done|]. change (2 ^ N.of_nat 65)%N with 36893488147419103232%N.
  unfold ENTRY_LEN, u64_max in *. lia.
Qed.

Lemma keys_sound : sound (λ _, True) (FileTable.keys t).
Proof using Hin Hmax.
  unfold FileTable.keys. eapply sound_bind; [apply count_sound|]. intros c Hc. cbv beta in Hc.
  eapply sound_impl; [apply keys_from_sound; rewrite N2Nat.id; unfold ENTRY_LEN in *; lia|done].
Qed.
End AnyBytes.

(** ** The table codec and its readers *)

(** Decoding an encoded table gives the table back, and a search or a listing of the table
    in place, anywhere in a file, gives what the map holds under the key and the keys of the
    map in order: for every map whose keys are UTF-8 and whose lengths its fields can hold, and
    in a number of rounds that the fuel of the search covers. *)
Theorem table_roundtrip (m : TableMap) (pre suf : bytes) (key : string) :
  table_fits m → (size (pre ++ encode_table m ++ suf) <= u64_max)%N →
  let t := FileTable.mk (pre ++ encode_table m ++ suf) (size pre) (size (encode_table m)) in
  decode_table (encode_table m) = Ok m
  ∧ FileTable.lookup t key = Some (Ok (default [] (m !! key)))
  ∧ FileTable.keys t = Some (Ok (keys m)).
Proof.
  intros Hf Hmax. split_and!.
  - by apply decode_encode.
  - by apply lookup_encoded.
  - by apply keys_encoded.
Qed.

(** C39: whatever bytes a table in a file holds, a search and a listing never overflow an
    offset and never read past the end of the table: they return a value or report the table
    as corrupt, and a returned posting list fits in the table. *)
Theorem table_reads_in_bounds (t : FileTable.t) (key : string) :
  (t.(FileTable.start) + t.(FileTable.len) <= size t.(FileTable.file))%N →
  (size t.(FileTable.file) <= u64_max)%N →
  sound (λ v, N.of_nat (length v) * 8 <= t.(FileTable.len))%N (FileTable.lookup t key)
  ∧ sound (λ _, True) (FileTable.keys t).
Proof. intros Hin Hmax. split; [by apply lookup_sound|by apply keys_sound]. Qed.

Definition sample_table : TableMap := {[ "b" := [5; 300]; "a" := [7]; "" := [] ]}%N.

Lemma sample_table_fits : table_fits sample_table.
Proof. apply (bool_decide_unpack _). vm_compute. exact I. Qed.

Lemma table_roundtrip_witness :
  let enc := encode_table sample_table in
  FileTable.lookup (FileTable.mk ([("x"%char : ascii)] ++ enc ++ []) 1 (size enc)) "b"
  = Some (Ok [5; 300]%N).
Proof.
  apply (table_roundtrip sample_table [("x"%char : ascii)] [] "b").
  - exact sample_table_fits.
  - vm_compute. intros H. discriminate H.
Defined.

Lemma table_reads_in_bounds_witness :
  sound (λ v : list N, N.of_nat (length v) * 8 <= 40)%N
    (FileTable.lookup (FileTable.mk (to_le_bytes 40 1) 0 40) "b").
Proof.
  refine (proj1 (table_reads_in_bounds (FileTable.mk (to_le_bytes 40 1) 0 40) "b" _ _));
    vm_compute; intros H; discriminate H.
Defined.

End IndexTable.
