(* ===== verification/GraphIndex.v ===== *)
(** * The sidecar index of a graph file ([src/src/graph_index.rs])

    The index body, its builder over the bytes of a graph file, the on-disk header, the parser,
    the sample fingerprint and the validation on opening. A byte is an [ascii], a file the list
    of its bytes. BLAKE3, the JSON parser of a record line and the text of a UTF-8 error are
    parameters; creating, renaming and syncing files ([write_atomic]) is not modelled. *)
From S2P Require Import Prelude RustStr Ir IrOps SchemaVersion RecordEq Ingest IndexTable.
From Stdlib Require Import Ascii NArith.
Import IndexTable.

Module GraphIndex.

(* graph_index.rs 39-46: INDEX_FORMAT_VERSION *)
Definition INDEX_FORMAT_VERSION : N := 2.
(* graph_index.rs 48-49: INDEX_MAGIC *)
Definition INDEX_MAGIC : bytes := as_bytes "EGIX".
(* graph_index.rs 51-54: HEADER_LEN *)
Definition HEADER_LEN : N := 4 + 4 + 8 + 32 + 8 + 32 + 1.
(* graph_index.rs 56-57: DIR_ENTRY_LEN *)
Definition DIR_ENTRY_LEN : N := 16.
(* graph_index.rs 59-60: TABLE_COUNT *)
Definition TABLE_COUNT : N := 6.
(* graph_index.rs 62-63: PREAMBLE_LEN *)
Definition PREAMBLE_LEN : N := (HEADER_LEN + 1 + TABLE_COUNT * DIR_ENTRY_LEN)%N.
(* graph_index.rs 70-71: SAMPLE_BLOCK *)
Definition SAMPLE_BLOCK : N := 4096.
(* graph_index.rs 73-74: SAMPLE_BLOCKS *)
Definition SAMPLE_BLOCKS : N := 64.

(* graph_index.rs 76-83: index_path_for *)
Definition index_path_for (graph : string) : string := graph +:+ ".idx".

(** ** The body *)
Module Table.
(* graph_index.rs 146-154: Table *)
Inductive t : Set := ById | DeletedId | Name | Path | Kind | Adjacency.

(* graph_index.rs 157-166: Table::slot *)
Definition slot (self : t) : nat :=
  match self with ById => 0 | DeletedId => 1 | Name => 2 | Path => 3 | Kind => 4 | Adjacency => 5 end.

#[global] Instance t_eq_dec : EqDecision t.
Proof. solve_decision. Defined.
End Table.

Module GraphIndexBody.
(* graph_index.rs 113-143: GraphIndexBody *)
Record t : Type := mk {
  by_id : TableMap; by_deleted_id : TableMap; by_name : TableMap;
  by_path : TableMap; by_kind : TableMap; adjacency : TableMap;
  has_temporal_history : bool
}.
Definition default : t := mk ∅ ∅ ∅ ∅ ∅ ∅ false.

(* graph_index.rs 170-179: GraphIndexBody::map *)
Definition map (self : t) (table : Table.t) : TableMap :=
  match table with
  | Table.ById => self.(by_id)
  | Table.DeletedId => self.(by_deleted_id)
  | Table.Name => self.(by_name)
  | Table.Path => self.(by_path)
  | Table.Kind => self.(by_kind)
  | Table.Adjacency => self.(adjacency)
  end.

(** A write through [map_mut]. *)
(* graph_index.rs 181-190: GraphIndexBody::map_mut *)
Definition map_mut (table : Table.t) (f : TableMap → TableMap) (self : t) : t :=
  match table with
  | Table.ById => self{{ by_id ::= f }}
  | Table.DeletedId => self{{ by_deleted_id ::= f }}
  | Table.Name => self{{ by_name ::= f }}
  | Table.Path => self{{ by_path ::= f }}
  | Table.Kind => self{{ by_kind ::= f }}
  | Table.Adjacency => self{{ adjacency ::= f }}
  end.
End GraphIndexBody.

(* graph_index.rs 193-200: TABLES *)
Definition TABLES : list Table.t :=
  [Table.ById; Table.DeletedId; Table.Name; Table.Path; Table.Kind; Table.Adjacency].

Module Index.
(* graph_index.rs 202-216: GraphIndex *)
Record t : Type := mk {
  graph_len : N;
  graph_blake3 : bytes;
  graph_stat_stamp : N;
  sample_fingerprint : bytes;
  body : GraphIndexBody.t
}.
End Index.

(* graph_index.rs 218-239: BuildError *)
Inductive BuildError : Type :=
| BuildRead (path : string) (source : IoError)
| BuildLine (line : nat) (message : string).

(* graph_index.rs 241-265: LoadError *)
Inductive LoadError : Type :=
| Absent
| LoadRead (error : IoError)
| Corrupt (message : string)
| VersionMismatch (found expected : N)
| Stale.

(** [entry(key).or_default().push(offset)] on a table. *)
Definition push (table : Table.t) (key : string) (offset : N) : GraphIndexBody.t → GraphIndexBody.t :=
  GraphIndexBody.map_mut table (λ m, <[key := default [] (m !! key) ++ [offset]]> m).

(* graph_index.rs 1326-1330: node_kind_key *)
Definition node_kind_key (kind : NodeKind.t) : string := NodeKind.as_str kind.

(* graph_index.rs 1263-1277: record_is_history_signal *)
Definition record_is_history_signal (record : GraphRecord) : bool :=
  match record with
  | Node n => is_some n.(NodeRec.temporal) || bool_decide (n.(NodeRec.kind) = NodeKind.Commit)
  | Edge e => is_some e.(EdgeRec.temporal)
  | Tombstone _ => false
  end.

(* graph_index.rs 1279-1324: index_record *)
Definition index_record (body : GraphIndexBody.t) (record : GraphRecord) (offset : N) : GraphIndexBody.t :=
  let body := push Table.ById (GraphRecord.id record) offset body in
  match record with
  | Node n =>
      let body := push Table.Kind (node_kind_key n.(NodeRec.kind)) offset body in
      let body := match n.(NodeRec.name) with
                  | Some name => push Table.Name name offset body
                  | None => body end in
      match n.(NodeRec.repo_relative_path) with
      | Some path => push Table.Path path offset body
      | None => body
      end
  | Edge e =>
      let body := push Table.Adjacency e.(EdgeRec.source) offset body in
      if negb (e.(EdgeRec.target) =s? e.(EdgeRec.source))
      then push Table.Adjacency e.(EdgeRec.target) offset body else body
  | Tombstone tb => push Table.DeletedId tb.(TombRec.deleted_id) offset body
  end.

(** ** Bytes of a line *)

(** [bytes.split_inclusive(|b| *b == b'\n')]. *)
Fixpoint split_inclusive (l : bytes) : list bytes :=
  match l with
  | [] => []
  | c :: l =>
      if bool_decide (c = LF) then [c] :: split_inclusive l
      else match split_inclusive l with
           | [] => [[c]]
           | chunk :: chunks => (c :: chunk) :: chunks
           end
  end.

(** [if content.last() == Some(&c) { content = &content[..content.len() - 1]; }] *)
Definition strip_last (c : ascii) (l : bytes) : bytes :=
  if bool_decide (last l = Some c) then take (length l - 1) l else l.

(** [bytes.iter().position(|b| *b == b'\n')]. *)
Fixpoint position_lf (l : bytes) : option nat :=
  match l with
  | [] => None
  | c :: l => if bool_decide (c = LF) then Some 0%nat else S <$> position_lf l
  end.

(** [slice::dedup] and [slice::sort_unstable] on integers, where equal elements are
    indistinguishable. *)
Fixpoint dedup (l : list N) : list N :=
  match l with
  | a :: (b :: _) as l => if (a =? b)%N then dedup l else a :: dedup l
  | _ => l
  end.
Definition sort_unstable (l : list N) : list N := merge_sort (≤)%N l.

(** The last loop of the builder. *)
(* graph_index.rs 703-709: GraphIndex::build_from_bytes *)
Definition sort_tables (body : GraphIndexBody.t) : GraphIndexBody.t :=
  foldl (λ body table,
    GraphIndexBody.map_mut table (fmap (λ offsets, dedup (sort_unstable offsets))) body)
    body TABLES.

(** ** The files *)
Module Header.
(* graph_index.rs 820-828: Header *)
Record t : Type := mk {
  graph_len : N;
  graph_blake3 : bytes;
  graph_stat_stamp : N;
  sample_fingerprint : bytes;
  has_temporal_history : bool;
  tables : list (N * N)
}.
End Header.

(** What [fs::Metadata] says of a file on Unix: the modification time in nanoseconds since the
    epoch when there is one, and the integers of [MetadataExt], as [u64]s. *)
Record Metadata : Type := mk_metadata {
  meta_modified : option N; meta_ctime : N; meta_ctime_nsec : N; meta_ino : N; meta_dev : N
}.

(** A graph file as opened: its bytes and its metadata. *)
Record GraphFile : Type := mk_graph_file { file_bytes : bytes; file_meta : Metadata }.

Module LazyGraphIndex.
(** The parts of the file view that do not change: the index file, the graph file and the
    directory. *)
(* graph_index.rs 907-915: LazyGraphIndex *)
Record t : Type := mk {
  idx : bytes;
  graph : bytes;
  tables : list (N * N);
  has_temporal_history : bool
}.
End LazyGraphIndex.

(** ** Reading and building *)
Section Reader.
Context {V : Type} `{!JsonValue V} {JsonError : Type} (error_to_string : JsonError → string).
Context (from_str_record : string → result GraphRecord JsonError).
Context (from_str_value : string → result V JsonError).
Context (blake3 : bytes → bytes) (utf8_error_to_string : bytes → string).
Let read (line : string) := read_record_line error_to_string from_str_record from_str_value line.

(** The record of a line without its end. *)
(* graph_index.rs 1252-1260: read_record_at *)
Definition parse_line (content : bytes) : option GraphRecord :=
  let content := strip_last CR content in
  if negb (valid_utf8 content) then None
  else match read (of_bytes content) with Ok (ReadRecord record) => Some record | _ => None end.

(* graph_index.rs 1242-1261: read_record_at *)
Definition read_record_at (graph_bytes : bytes) (offset : N) : option GraphRecord :=
  if (size graph_bytes <=? offset)%N then None
  else
    let rest := drop (N.to_nat offset) graph_bytes in
    parse_line (take (default (length rest) (position_lf rest)) rest).

(* graph_index.rs 383-383: read_record_in_file *)
Definition CHUNK : N := 8192.

(** Each round reads at least a byte, so one round more than the bytes left is enough. *)
(* graph_index.rs 386-400: read_record_in_file *)
Fixpoint read_chunks (fuel : nat) (file : bytes) (at_ : N) (line : bytes) : Io bytes :=
  match fuel with
  | 0%nat => None
  | S fuel =>
      if (size file <=? at_)%N then Some (Ok line)
      else
        let want := N.min CHUNK (size file - at_) in
        let* chunk := Some (read_exact_at file at_ want) in
        match position_lf chunk with
        | Some e => Some (Ok (line ++ take e chunk))
        | None => read_chunks fuel file (at_ + want) (line ++ chunk)
        end
  end.

(* graph_index.rs 380-411: read_record_in_file *)
Definition read_record_in_file (file : bytes) (offset : N) : Io (option GraphRecord) :=
  let* line := read_chunks (S (length file)) file offset [] in
  Some (Ok (parse_line line)).

(** [text.trim().is_empty()]. *)
Definition is_blank (text : string) : bool := trim text =s? "".

(** What the builder reads of one line: nothing of a blank one. *)
(* graph_index.rs 662-696: GraphIndex::build_from_bytes *)
Definition read_chunk (line_no : nat) (raw_line : bytes) : result (option GraphRecord) BuildError :=
  let content := strip_last CR (strip_last LF raw_line) in
  if negb (valid_utf8 content)
  then Err (BuildLine line_no ("line is not valid UTF-8: " +:+ utf8_error_to_string content))
  else if is_blank (of_bytes content) then Ok None
  else match read (of_bytes content) with
       | Ok (ReadRecord record) => Ok (Some record)
       | Ok (ReadUnknownSchemaVersion unknown) =>
           Err (BuildLine line_no ("unknown schema version: " +:+ UnknownSchemaVersion.display unknown))
       | Err error => Err (BuildLine line_no (read_error_to_string error))
       end.

(* graph_index.rs 657-701: GraphIndex::build_from_bytes *)
Fixpoint build_lines (chunks : list bytes) (index : nat) (cursor : N) (body : GraphIndexBody.t)
    : result GraphIndexBody.t BuildError :=
  match chunks with
  | [] => Ok body
  | raw_line :: chunks =>
      let? record := read_chunk (index + 1) raw_line in
      let body := match record with
                  | None => body
                  | Some record =>
                      let body := if record_is_history_signal record
                                  then body{{ GraphIndexBody.has_temporal_history := true }}
                                  else body in
                      index_record body record cursor
                  end in
      build_lines chunks (index + 1) (cursor + size raw_line) body
  end.

(** ** The sample fingerprint *)

(** [SAMPLE_BLOCK.min(len - offset)]: every offset is below [len], so nothing underflows. *)
(* graph_index.rs 270-273: sample_ranges *)
Definition block (len offset : N) : N * N := (offset, N.min SAMPLE_BLOCK (len - offset)).

(* graph_index.rs 267-286: sample_ranges *)
Definition sample_ranges (len : N) : list (N * N) :=
  if (len =? 0)%N then []
  else
    [block len 0]
    ++ ((λ i, block len (N.min (len * N.of_nat i / SAMPLE_BLOCKS) (len - 1))) <$> seq 1 63)
    ++ [block len (len - SAMPLE_BLOCK)].

(* graph_index.rs 288-299: sample_fingerprint_bytes *)
Definition sample_fingerprint_bytes (graph : bytes) : bytes :=
  let len := size graph in
  blake3 (to_le_bytes 8 len
          ++ (sample_ranges len ≫= λ r, to_le_bytes 8 r.1 ++ slice graph r.1 r.2)).

(* graph_index.rs 306-310: sample_fingerprint_file *)
Fixpoint hash_ranges (file : bytes) (ranges : list (N * N)) (hashed : bytes) : result bytes IoError :=
  match ranges with
  | [] => Ok hashed
  | (offset, size) :: ranges =>
      let? buf := read_exact_at file offset size in
      hash_ranges file ranges (hashed ++ to_le_bytes 8 offset ++ buf)
  end.
(* graph_index.rs 301-312: sample_fingerprint_file *)
Definition sample_fingerprint_file (file : bytes) (len : N) : result bytes IoError :=
  let? hashed := hash_ranges file (sample_ranges len) (to_le_bytes 8 len) in
  Ok (blake3 hashed).

(* graph_index.rs 314-351: stat_stamp *)
Definition stat_stamp (meta : Metadata) : N :=
  let mtime := match meta.(meta_modified) with
               | Some d => if (d <=? u64_max)%N then d else 0%N
               | None => 0%N end in
  if (mtime =? 0)%N then 0%N
  else
    let hashed := [mtime; meta.(meta_ctime); meta.(meta_ctime_nsec); meta.(meta_ino); meta.(meta_dev)]
                  ≫= to_le_bytes 8 in
    N.max (from_le_bytes (take 8 (blake3 hashed))) 1.

(* graph_index.rs 640-718: GraphIndex::build_from_bytes *)
Definition build_from_bytes (graph : bytes) : result Index.t BuildError :=
  let? body := build_lines (split_inclusive graph) 0 0 GraphIndexBody.default in
  Ok (Index.mk (size graph) (blake3 graph) 0 (sample_fingerprint_bytes graph) (sort_tables body)).

(* graph_index.rs 615-638: GraphIndex::build *)
Definition build (path : string) (metadata : result Metadata IoError) (read_file : result bytes IoError)
    : result Index.t BuildError :=
  let? meta := map_err (BuildRead path) metadata in
  let? graph := map_err (BuildRead path) read_file in
  let? index := build_from_bytes graph in
  Ok (index{{ Index.graph_stat_stamp := stat_stamp meta }}).

(** ** The file *)

(** The directory: the offset and the length of each table. *)
(* graph_index.rs 740-745: GraphIndex::to_bytes *)
Fixpoint directory (offset : N) (tables : list bytes) : bytes :=
  match tables with
  | [] => []
  | table :: tables =>
      to_le_bytes 8 offset ++ to_le_bytes 8 (size table) ++ directory (offset + size table) tables
  end.

(* graph_index.rs 720-750: GraphIndex::to_bytes *)
Definition to_bytes (self : Index.t) : result bytes IoError :=
  let tables := (λ table, encode_table (GraphIndexBody.map self.(Index.body) table)) <$> TABLES in
  Ok (INDEX_MAGIC
      ++ to_le_bytes 4 INDEX_FORMAT_VERSION
      ++ to_le_bytes 8 self.(Index.graph_len)
      ++ self.(Index.graph_blake3)
      ++ to_le_bytes 8 self.(Index.graph_stat_stamp)
      ++ self.(Index.sample_fingerprint)
      ++ to_le_bytes 1 (if self.(Index.body).(GraphIndexBody.has_temporal_history) then 1 else 0)
      ++ [LF]
      ++ directory PREAMBLE_LEN tables
      ++ concat tables).

(* graph_index.rs 830-870: parse_header *)
Definition parse_header (raw : bytes) : result Header.t LoadError :=
  if (size raw <? 8)%N || negb (bool_decide (slice raw 0 4 = INDEX_MAGIC))
  then Err (Corrupt (if (size raw <? 8)%N then "file shorter than header" else "bad magic"))
  else
    let version := u32_at raw 4 in
    if negb (version =? INDEX_FORMAT_VERSION)%N then Err (VersionMismatch version INDEX_FORMAT_VERSION)
    else if (size raw <? PREAMBLE_LEN)%N then Err (Corrupt "file shorter than header")
    else if negb (bool_decide (slice raw HEADER_LEN 1 = [LF]))
    then Err (Corrupt "missing header separator")
    else
      Ok (Header.mk (u64_at raw 8) (slice raw 16 32) (u64_at raw 48) (slice raw 56 32)
            (negb (from_le_bytes (slice raw 88 1) =? 0)%N)
            ((λ slot, let at_ := (HEADER_LEN + 1 + N.of_nat slot * DIR_ENTRY_LEN)%N in
                      (u64_at raw at_, u64_at raw (at_ + 8))) <$> seq 0 6)).

(** One round of the loop of [parse]. *)
(* graph_index.rs 786-795: GraphIndex::parse *)
Definition parse_table (raw : bytes) (header : Header.t) (body : GraphIndexBody.t) (table : Table.t)
    : result GraphIndexBody.t LoadError :=
  let '(start, len) := default (0, 0)%N (header.(Header.tables) !! Table.slot table) in
  let? range := ok_or
    (let?o e := add64 start len in if (e <=? size raw)%N then Some (slice raw start len) else None)
    (Corrupt "table outside the file") in
  let? m := map_err (λ error, Corrupt ("table: " +:+ io_error_to_string error)) (decode_table range) in
  Ok (GraphIndexBody.map_mut table (λ _, m) body).

(* graph_index.rs 772-803: GraphIndex::parse *)
Definition parse (raw : bytes) : result Index.t LoadError :=
  let? header := parse_header raw in
  let? body := foldl (λ acc table, let? body := acc in parse_table raw header body table)
    (Ok (GraphIndexBody.default{{ GraphIndexBody.has_temporal_history
                                    := header.(Header.has_temporal_history) }})) TABLES in
  Ok (Index.mk header.(Header.graph_len) header.(Header.graph_blake3)
        header.(Header.graph_stat_stamp) header.(Header.sample_fingerprint) body).

(* graph_index.rs 917-974: LazyGraphIndex::open *)
Definition open (index_file : result bytes IoError) (graph_file : result GraphFile IoError)
    : result LazyGraphIndex.t LoadError :=
  match index_file with
  | Err (NotFound _) => Err Absent
  | Err error => Err (LoadRead error)
  | Ok idx =>
      let idx_len := size idx in
      let? preamble := map_err LoadRead (read_exact_at idx 0 (N.min idx_len PREAMBLE_LEN)) in
      let? header := parse_header preamble in
      if negb (forallb (λ r : N * N, match add64 r.1 r.2 with
                                     | Some e => (e <=? idx_len)%N
                                     | None => false end) header.(Header.tables))
      then Err (Corrupt "table outside the file")
      else
        let? graph := map_err LoadRead graph_file in
        let len := size graph.(file_bytes) in
        if negb (len =? header.(Header.graph_len))%N then Err Stale
        else
          let? quick :=
            if negb (header.(Header.graph_stat_stamp) =? 0)%N
               && (stat_stamp graph.(file_meta) =? header.(Header.graph_stat_stamp))%N
            then let? fingerprint := map_err LoadRead (sample_fingerprint_file graph.(file_bytes) len) in
                 Ok (bool_decide (fingerprint = header.(Header.sample_fingerprint)))
            else Ok false in
          if negb quick && negb (bool_decide (blake3 graph.(file_bytes) = header.(Header.graph_blake3)))
          then Err Stale
          else Ok (LazyGraphIndex.mk idx graph.(file_bytes) header.(Header.tables)
                     header.(Header.has_temporal_history))
  end.
End Reader.

(** ** Lines of bytes *)
Lemma split_inclusive_line c l : LF ∉ c → split_inclusive (c ++ LF :: l) = (c ++ [LF]) :: split_inclusive l.
Proof.
  induction c as [|x c IH]; intros Hc; cbn [app split_inclusive].
  - by rewrite bool_decide_true.
  - apply not_elem_of_cons in Hc as [Hx Hc]. rewrite bool_decide_false, IH by done. done.
Qed.

Lemma split_inclusive_last c : LF ∉ c → c ≠ [] → split_inclusive c = [c].
Proof.
  induction c as [|x c IH]; intros Hc Hne; [done|]. cbn [split_inclusive].
  apply not_elem_of_cons in Hc as [Hx Hc]. rewrite bool_decide_false by done.
  destruct c as [|y c]; [done|]. by rewrite IH.
Qed.

(** Induction on the lines of a file. *)
Lemma lines_ind (P : bytes → Prop) :
  (∀ c, LF ∉ c → P c) → (∀ c l, LF ∉ c → P l → P (c ++ LF :: l)) → ∀ l, P l.
Proof.
  intros Hlast Hline l. remember (length l) as n eqn:Hn. revert l Hn.
  induction n as [n IH] using lt_wf_ind. intros l ->.
  destruct (decide (LF ∈ l)) as [Hin|]; [|by apply Hlast].
  apply list_elem_of_split_l in Hin as (c & l' & -> & Hc). apply Hline; [done|].
  eapply IH; [|done]. rewrite length_app. simpl. lia.
Qed.

Lemma position_lf_line c l : LF ∉ c → position_lf (c ++ LF :: l) = Some (length c).
Proof.
  induction c as [|x c IH]; intros Hc; cbn [app position_lf length].
  - by rewrite bool_decide_true.
  - apply not_elem_of_cons in Hc as [Hx Hc]. by rewrite bool_decide_false, IH.
Qed.

Lemma position_lf_last c : LF ∉ c → position_lf c = None.
Proof.
  induction c as [|x c IH]; intros Hc; cbn [position_lf]; [done|].
  apply not_elem_of_cons in Hc as [Hx Hc]. by rewrite bool_decide_false, IH.
Qed.

Lemma strip_last_snoc c l : strip_last c (l ++ [c]) = l.
Proof.
  unfold strip_last. rewrite last_snoc, bool_decide_true by done.
  rewrite length_app, Nat.add_sub. apply take_app_length.
Qed.

Lemma strip_last_other c l : last l ≠ Some c → strip_last c l = l.
Proof. intros H. unfold strip_last. by rewrite bool_decide_false. Qed.

Lemma last_notin (c : ascii) l : c ∉ l → last l ≠ Some c.
Proof. intros Hc Hl. apply Hc. by apply last_Some_elem_of. Qed.

(** The line the record reader cuts out at the start of a line. *)
Definition line_at (rest : bytes) : bytes := take (default (length rest) (position_lf rest)) rest.

Lemma line_at_line c l : LF ∉ c → line_at (c ++ LF :: l) = c.
Proof. intros Hc. unfold line_at. rewrite position_lf_line by done. apply take_app_length. Qed.

Lemma line_at_last c : LF ∉ c → line_at c = c.
Proof. intros Hc. unfold line_at. rewrite position_lf_last by done. simpl. apply firstn_all. Qed.

Lemma read_chunks_line fuel file at_ line :
  (at_ <= size file)%N → (length file - N.to_nat at_ < fuel)%nat →
  read_chunks fuel file at_ line = Some (Ok (line ++ line_at (drop (N.to_nat at_) file))).
Proof.
  revert at_ line. induction fuel as [|fuel IH]; intros at_ line Ha Hf; [lia|]. cbn [read_chunks].
  destruct (N.leb_spec (size file) at_) as [Hge|Hlt].
  { rewrite drop_ge by (unfold size in *; lia). by rewrite app_nil_r. }
  set (want := N.min CHUNK (size file - at_)).
  assert (0 < want ∧ at_ + want <= size file)%N as [Hw Hin].
  { unfold want, CHUNK. lia. }
  rewrite read_exact_ok by done. cbn [io_bind]. unfold slice. set (rest := drop (N.to_nat at_) file).
  assert (rest = take (N.to_nat want) rest ++ drop (N.to_nat want) rest) as Hr
    by (by rewrite take_drop).
  set (chunk := take (N.to_nat want) rest) in *. 
  destruct (decide (LF ∈ chunk)) as [Hin'|Hno].
  - apply list_elem_of_split_l in Hin' as (c & l' & Hc & Hn). 
    rewrite Hc, position_lf_line, take_app_length by done.
    rewrite Hr, Hc, <-(assoc_L (++)). cbn [app]. by rewrite line_at_line.
  - rewrite position_lf_last by done. rewrite IH by (unfold size in *; lia).
    rewrite <-(assoc_L (++)). do 3 f_equal. rewrite N2Nat.inj_add, <-drop_drop. fold rest.
    rewrite Hr at 2. unfold line_at.
    destruct (decide (LF ∈ drop (N.to_nat want) rest)) as [Hd|Hd].
    + apply list_elem_of_split_l in Hd as (c & l' & -> & Hn).
      rewrite (assoc_L (++)), !position_lf_line by set_solver. cbn.
      by rewrite !take_app_length.
    + rewrite !position_lf_last by set_solver. cbn. by rewrite !firstn_all.
Qed.

(** What the builder does with one record. *)
Definition add_record (body : GraphIndexBody.t) (p : N * GraphRecord) : GraphIndexBody.t :=
  index_record (if record_is_history_signal p.2
                then body{{ GraphIndexBody.has_temporal_history := true }} else body) p.2 p.1.

(** ** The posting lists *)

(** The keys under which a table lists a record. *)
Definition table_keys (table : Table.t) (record : GraphRecord) : list string :=
  match table, record with
  | Table.ById, _ => [GraphRecord.id record]
  | Table.DeletedId, Tombstone tb => [tb.(TombRec.deleted_id)]
  | Table.Name, Node n => option_list n.(NodeRec.name)
  | Table.Path, Node n => option_list n.(NodeRec.repo_relative_path)
  | Table.Kind, Node n => [node_kind_key n.(NodeRec.kind)]
  | Table.Adjacency, Edge e =>
      e.(EdgeRec.source)
      :: (if e.(EdgeRec.target) =s? e.(EdgeRec.source) then [] else [e.(EdgeRec.target)])
  | _, _ => []
  end.

(** The offsets of the records a table lists under a key. *)
Definition listed (table : Table.t) (key : string) (ps : list (N * GraphRecord)) : list N :=
  (filter (λ p, key ∈ table_keys table p.2) ps).*1.

Lemma map_map_mut table table' f body :
  GraphIndexBody.map (GraphIndexBody.map_mut table f body) table'
  = if decide (table = table') then f (GraphIndexBody.map body table')
    else GraphIndexBody.map body table'.
Proof. by destruct table, table'. Qed.

Lemma map_push table key offset body table' :
  GraphIndexBody.map (push table key offset body) table'
  = if decide (table = table')
    then <[key := default [] (GraphIndexBody.map body table' !! key) ++ [offset]]>
           (GraphIndexBody.map body table')
    else GraphIndexBody.map body table'.
Proof. unfold push. by rewrite map_map_mut. Qed.

(** A list under a key, absent when it is empty. *)
Definition some_list (l : list N) : option (list N) := match l with [] => None | _ => Some l end.

Lemma some_list_snoc l o : some_list (l ++ [o]) = Some (l ++ [o]).
Proof. by destruct l. Qed.

Lemma default_some_list l : default [] (some_list l) = l.
Proof. by destruct l. Qed.

Lemma map_add_record body p table key :
  GraphIndexBody.map (add_record body p) table !! key
  = if bool_decide (key ∈ table_keys table p.2)
    then Some (default [] (GraphIndexBody.map body table !! key) ++ [p.1])
    else GraphIndexBody.map body table !! key.
Proof.
  destruct p as [off r]. cbn [fst snd]. unfold add_record. cbn [fst snd].
  set (body' := if record_is_history_signal r then _ else _).
  assert (∀ t, GraphIndexBody.map body' t = GraphIndexBody.map body t) as Hb.
  { intros t. unfold body'. by destruct (record_is_history_signal r), t. }
  rewrite <-Hb. clearbody body'. clear Hb body.
  unfold index_record. set (by_id := push _ _ _ body').
  assert (∀ m : TableMap, ∀ k v, <[k := v]> m !! key
            = if bool_decide (key ∈ [k]) then Some v else m !! key) as Hins.
  { intros m k v. case_bool_decide as Hk; rewrite list_elem_of_singleton in Hk.
    - subst. apply lookup_insert_eq.
    - by apply lookup_insert_ne. }
  assert (∀ k, bool_decide (key ∈ [k]) = true → key = k) as Hsing.
  { intros k Hk%bool_decide_eq_true. by apply list_elem_of_singleton in Hk. }
  destruct table, r as [n|e|tb]; cbn [table_keys];
    repeat match goal with
    | |- context [match NodeRec.name n with _ => _ end] => destruct (NodeRec.name n) as [nm|]; cbn [option_list]
    | |- context [match NodeRec.repo_relative_path n with _ => _ end] =>
        destruct (NodeRec.repo_relative_path n) as [pth|]; cbn [option_list]
    | |- context [EdgeRec.target e =s? EdgeRec.source e] =>
        destruct (String.eqb_spec (EdgeRec.target e) (EdgeRec.source e)); cbn [negb]
    end;
    unfold by_id; rewrite ?map_push; rewrite ?decide_True by done; rewrite ?decide_False by done;
    rewrite ?map_push; rewrite ?decide_True by done; rewrite ?decide_False by done;
    rewrite ?Hins; try done.
  all: try change (option_list (Some ?x)) with [x].
  all: try (destruct (bool_decide (key ∈ [_])) eqn:Hk; [|done]; by rewrite (Hsing _ Hk)).
  case_bool_decide as H1; [|case_bool_decide as H2]; case_bool_decide as H3;
    try rewrite list_elem_of_singleton in H2; rewrite elem_of_cons, list_elem_of_singleton in H3;
    rewrite list_elem_of_singleton in H1; try tauto.
  - subst. by rewrite lookup_insert_ne.
  - by subst.
Qed.

Lemma map_foldl_add ps table key :
  GraphIndexBody.map (foldl add_record GraphIndexBody.default ps) table !! key
  = some_list (listed table key ps).
Proof.
  induction ps as [|p ps IH] using rev_ind; [by destruct table|].
  rewrite foldl_app. cbn [foldl]. rewrite map_add_record. unfold listed in *.
  rewrite filter_app, fmap_app, IH. case_bool_decide as Hk.
  - rewrite filter_cons_True, filter_nil by done. cbn [fmap list_fmap].
    by rewrite default_some_list, some_list_snoc.
  - rewrite filter_cons_False, filter_nil by done. by rewrite app_nil_r.
Qed.

(** The builder meets the offsets in order, so the last loop changes nothing. *)
Lemma sort_strict l : StronglySorted N.lt l → dedup (sort_unstable l) = l.
Proof.
  intros Hs. assert (sort_unstable l = l) as ->.
  { apply (StronglySorted_unique N.le).
    - apply StronglySorted_merge_sort; apply _.
    - clear -Hs. induction Hs as [|x l _ IH Hx]; constructor; [done|].
      eapply Forall_impl; [exact Hx|]. intros. lia.
    - apply merge_sort_Permutation. }
  induction Hs as [|x l Hs IH Hx]; [done|]. destruct l as [|y l]; [done|].
  apply Forall_cons in Hx as [Hxy _]. cbn [dedup]. rewrite (proj2 (N.eqb_neq _ _)) by lia.
  f_equal. exact IH.
Qed.

Lemma listed_sorted table key ps :
  StronglySorted N.lt ps.*1 → StronglySorted N.lt (listed table key ps).
Proof.
  unfold listed. induction ps as [|p ps IH]; intros Hs; [done|].
  cbn in Hs. inversion Hs as [|? ? Hs' Hp]; subst. rewrite filter_cons. case_decide; [|by apply IH].
  cbn. constructor; [by apply IH|].
  apply Forall_forall. intros x (q & -> & [_ Hq]%list_elem_of_filter)%list_elem_of_fmap.
  eapply Forall_forall in Hp; [exact Hp|]. apply list_elem_of_fmap. eauto.
Qed.

Lemma map_sort_tables body table key :
  GraphIndexBody.map (sort_tables body) table !! key
  = (λ offsets, dedup (sort_unstable offsets)) <$> GraphIndexBody.map body table !! key.
Proof.
  unfold sort_tables, TABLES. cbn [foldl]. rewrite !map_map_mut.
  destruct table; cbn; apply lookup_fmap.
Qed.

Lemma map_built ps table key :
  StronglySorted N.lt ps.*1 →
  GraphIndexBody.map (sort_tables (foldl add_record GraphIndexBody.default ps)) table !! key
  = some_list (listed table key ps).
Proof.
  intros Hs. rewrite map_sort_tables, map_foldl_add.
  pose proof (listed_sorted table key ps Hs) as Hl.
  destruct (listed table key ps) as [|o l]; [done|]. cbn [some_list fmap option_fmap option_map]. by rewrite sort_strict.
Qed.

Lemma history_built ps :
  GraphIndexBody.has_temporal_history (sort_tables (foldl add_record GraphIndexBody.default ps))
  = existsb (λ p, record_is_history_signal p.2) ps.
Proof.
  assert (∀ table f body, GraphIndexBody.has_temporal_history (GraphIndexBody.map_mut table f body)
            = GraphIndexBody.has_temporal_history body) as Hm by by intros [].
  unfold sort_tables, TABLES. cbn [foldl]. rewrite !Hm.
  induction ps as [|[off r] ps IH] using rev_ind; [done|].
  rewrite foldl_app, existsb_app. cbn [foldl existsb]. rewrite orb_false_r, <-IH.
  unfold add_record, index_record, push. cbn [fst snd].
  destruct (record_is_history_signal r) eqn:Hr;
    destruct r as [n|e|tb]; repeat case_match; rewrite ?Hm, ?orb_true_r, ?orb_false_r; done.
Qed.

(** ** Agreement with the cold loader *)
Lemma free_of_bytes c : LF ∉ c → free_of LF (of_bytes c) = true.
Proof.
  induction c as [|x c IH]; intros Hc; [done|]. apply not_elem_of_cons in Hc as [Hx Hc].
  unfold free_of in *. cbn [of_bytes String.string_of_list_ascii str_all].
  destruct (Ascii.eqb_spec LF x); [done|]. by apply IH.
Qed.

Lemma of_bytes_app a b : of_bytes (a ++ b) = of_bytes a +:+ of_bytes b.
Proof.
  induction a as [|x a IH]; [done|].
  change (String x (of_bytes (a ++ b)) = String x (of_bytes a +:+ of_bytes b)). by rewrite IH.
Qed.

Lemma str_rev_of_bytes l : str_rev (of_bytes l) = of_bytes (reverse l).
Proof. unfold str_rev. by rewrite as_of_bytes. Qed.

Lemma strip_cr_text c : default (of_bytes c) (strip_suffix (String CR "") (of_bytes c)) = of_bytes (strip_last CR c).
Proof.
  unfold strip_suffix. change (String CR "") with (of_bytes [CR]).
  rewrite !str_rev_of_bytes. destruct c as [|x c _] using rev_ind; [done|].
  rewrite reverse_snoc. change (of_bytes (reverse [CR])) with (String CR "").
  change (of_bytes (x :: reverse c)) with (String x (of_bytes (reverse c))).
  cbn [strip_prefix]. destruct (Ascii.eqb_spec CR x) as [<-|Hx].
  - rewrite strip_last_snoc. cbn [fmap option_fmap option_map default].
    by rewrite str_rev_of_bytes, reverse_involutive.
  - rewrite strip_last_other; [done|]. rewrite last_snoc. congruence.
Qed.

Lemma lines_line c l :
  LF ∉ c → lines (of_bytes (c ++ LF :: l)) = of_bytes (strip_last CR c) :: lines (of_bytes l).
Proof.
  intros Hc. unfold lines. rewrite of_bytes_app.
  change (of_bytes (LF :: l)) with (String LF (of_bytes l)).
  rewrite split_char_app by (by apply free_of_bytes). rewrite <-strip_cr_text.
  cbn [strip_line_ends]. destruct (split_char LF (of_bytes l)) eqn:Hs; [|done].
  by apply split_char_not_nil in Hs.
Qed.

Lemma lines_last c :
  LF ∉ c → lines (of_bytes c) = match c with [] => [] | _ => [of_bytes c] end.
Proof.
  intros Hc. unfold lines. rewrite split_char_single by (by apply free_of_bytes).
  by destruct c.
Qed.

(** ** The sample *)
Lemma sample_ranges_inside len :
  Forall (λ r, r.1 + r.2 <= len ∧ r.1 < len ∧ r.2 <= SAMPLE_BLOCK)%N (sample_ranges len).
Proof.
  assert (∀ offset, (offset < len)%N →
    ((block len offset).1 + (block len offset).2 <= len
     ∧ (block len offset).1 < len ∧ (block len offset).2 <= SAMPLE_BLOCK)%N) as Hb.
  { intros offset Ho. unfold block. cbn [fst snd]. lia. }
  unfold sample_ranges. destruct (N.eqb_spec len 0) as [->|Hl]; [constructor|].
  apply Forall_app; split; [|apply Forall_app; split].
  - apply Forall_singleton, Hb. lia.
  - apply Forall_fmap, Forall_forall. intros i _. apply Hb. lia.
  - apply Forall_singleton, Hb. unfold SAMPLE_BLOCK. lia.
Qed.

Lemma hash_ranges_inside file ranges hashed :
  Forall (λ r, r.1 + r.2 <= size file)%N ranges →
  hash_ranges file ranges hashed
  = Ok (hashed ++ (ranges ≫= λ r, to_le_bytes 8 r.1 ++ slice file r.1 r.2)).
Proof.
  intros Hr. revert hashed. induction Hr as [|[o n] ranges Hr _ IH]; intros hashed; cbn [hash_ranges].
  { by rewrite app_nil_r. }
  rewrite read_exact_ok by done.
  cbn [result_bind]. by rewrite IH, bind_cons, <-!(assoc_L (++)).
Qed.

(** ** The layout of an index file *)
Lemma slice_beyond p l a n : (size p <= a)%N → slice (p ++ l) a n = slice l (a - size p) n.
Proof. intros H. by rewrite <-(slice_skip p l), N.add_comm, N.sub_add. Qed.

Lemma slice_front x q n : n = size x → slice (x ++ q) 0 n = x.
Proof. intros ->. apply slice_here. Qed.

(** The directory, as pairs. *)
Fixpoint ranges_of (offset : N) (tables : list bytes) : list (N * N) :=
  match tables with
  | [] => []
  | table :: tables => (offset, size table) :: ranges_of (offset + size table) tables
  end.

Lemma size_directory offset tables : size (directory offset tables) = (N.of_nat (length tables) * 16)%N.
Proof.
  revert offset. induction tables as [|t tables IH]; intros offset; cbn [directory]; [done|].
  rewrite !size_app, !size_to_le, IH. simpl length. lia.
Qed.

Lemma directory_entries pre offset tables rest a :
  a = size pre → (offset + size (concat tables) <= u64_max)%N →
  (λ slot, (u64_at (pre ++ directory offset tables ++ rest) (a + N.of_nat slot * 16),
            u64_at (pre ++ directory offset tables ++ rest) (a + N.of_nat slot * 16 + 8)))
    <$> seq 0 (length tables) = ranges_of offset tables.
Proof.
  revert pre offset a. induction tables as [|t tables IH]; intros pre offset a -> Hmax; [done|].
  cbn [concat] in Hmax. rewrite size_app in Hmax.
  cbn [length seq fmap list_fmap directory ranges_of]. rewrite <-seq_shift.
  rewrite <-list_fmap_compose. rewrite <-!(assoc_L (++)). f_equal.
  - rewrite N.add_0_r. f_equal.
    + apply u64_at_le; [done|lia].
    + rewrite (assoc_L (++)). apply u64_at_le; [rewrite size_app, size_to_le; lia|lia].
  - rewrite <-(IH (pre ++ to_le_bytes 8 offset ++ to_le_bytes 8 (size t)) _ _ eq_refl) by lia.
    apply list_fmap_ext. intros i slot _. cbn [compose]. rewrite <-!(assoc_L (++)).
    rewrite !size_app, !size_to_le. f_equal; f_equal; lia.
Qed.

Lemma table_ranges pre tables i t :
  tables !! i = Some t →
  ∃ o, ranges_of (size pre) tables !! i = Some (o, size t)
       ∧ slice (pre ++ concat tables) o (size t) = t
       ∧ (o + size t <= size (pre ++ concat tables))%N.
Proof.
  revert pre i. induction tables as [|t0 tables IH]; intros pre i Hi; [done|].
  cbn [concat ranges_of]. destruct i as [|i]; cbn in Hi; simplify_eq.
  - exists (size pre). split_and!; [done|by apply slice_at|]. rewrite !size_app. lia.
  - rewrite <-size_app. destruct (IH (pre ++ t0) i Hi) as (o & ? & Hs & ?).
    rewrite <-(assoc_L (++)) in Hs. exists o. rewrite (assoc_L (++)). by rewrite <-(assoc_L (++)) at 1.
Qed.

Lemma ranges_inside pre tables r :
  r ∈ ranges_of (size pre) tables →
  (r.1 + r.2 <= size (pre ++ concat tables))%N ∧ (size pre <= r.1)%N.
Proof.
  revert pre. induction tables as [|t tables IH]; intros pre; cbn [ranges_of concat];
    [by intros ?%elem_of_nil|].
  intros [->|Hr]%elem_of_cons; cbn [fst snd]; [rewrite !size_app; lia|].
  rewrite <-size_app in Hr. apply IH in Hr. rewrite <-(assoc_L (++)) in Hr.
  rewrite (size_app pre t) in Hr. lia.
Qed.

(** What the fields of an index must fit in. *)
Record index_fits (self : Index.t) : Prop := {
  fits_tables : Forall (λ table, table_fits (GraphIndexBody.map self.(Index.body) table)) TABLES;
  fits_len : (self.(Index.graph_len) <= u64_max)%N;
  fits_stamp : (self.(Index.graph_stat_stamp) <= u64_max)%N;
  fits_blake3 : size self.(Index.graph_blake3) = 32%N;
  fits_sample : size self.(Index.sample_fingerprint) = 32%N
}.

Definition tables_of (self : Index.t) : list bytes :=
  (λ table, encode_table (GraphIndexBody.map self.(Index.body) table)) <$> TABLES.

(** The fixed part of an index file. *)
Definition preamble (self : Index.t) : bytes :=
  INDEX_MAGIC ++ to_le_bytes 4 INDEX_FORMAT_VERSION ++ to_le_bytes 8 self.(Index.graph_len)
  ++ self.(Index.graph_blake3) ++ to_le_bytes 8 self.(Index.graph_stat_stamp)
  ++ self.(Index.sample_fingerprint)
  ++ to_le_bytes 1 (if self.(Index.body).(GraphIndexBody.has_temporal_history) then 1 else 0)
  ++ [LF] ++ directory PREAMBLE_LEN (tables_of self).

Definition header_of (self : Index.t) : Header.t :=
  Header.mk self.(Index.graph_len) self.(Index.graph_blake3) self.(Index.graph_stat_stamp)
    self.(Index.sample_fingerprint) self.(Index.body).(GraphIndexBody.has_temporal_history)
    (ranges_of PREAMBLE_LEN (tables_of self)).

Lemma Ok_eq {A E} (a b : A) : @Ok A E a = Ok b → a = b.
Proof. by intros [=]. Qed.

Lemma to_bytes_preamble self : to_bytes self = Ok (preamble self ++ concat (tables_of self)).
Proof. unfold to_bytes, preamble, tables_of. by rewrite <-!(assoc_L (++)). Qed.

Section Layout.
Context (self : Index.t) (Hfits : index_fits self).

Lemma size_preamble : size (preamble self) = PREAMBLE_LEN.
Proof using Hfits.
  unfold preamble. rewrite !size_app, !size_to_le, size_directory, fits_blake3, fits_sample by done.
  reflexivity.
Qed.

(** The field of the preamble at a position: skip what is before it. *)
Ltac skip_fields :=
  repeat first
    [ rewrite slice_beyond by (rewrite ?size_to_le, ?fits_blake3, ?fits_sample by exact Hfits;
                               vm_compute; discriminate)
    | progress rewrite ?size_to_le, ?fits_blake3, ?fits_sample by exact Hfits ];
  match goal with |- context [slice _ ?a _] => let v := eval vm_compute in a in change a with v end.

Lemma parse_preamble rest :
  (PREAMBLE_LEN + size (concat (tables_of self)) <= u64_max)%N →
  parse_header (preamble self ++ rest) = Ok (header_of self).
Proof using Hfits.
  intros Hmax. pose proof size_preamble as Hsize.
  assert (size (preamble self ++ rest) = PREAMBLE_LEN + size rest)%N as Hs
    by (by rewrite size_app, Hsize).
  assert (PREAMBLE_LEN = 186%N) as HP by reflexivity.
  unfold parse_header. rewrite (proj2 (N.ltb_ge (size _) 8)) by lia.
  rewrite (proj2 (N.ltb_ge (size _) PREAMBLE_LEN)) by lia.
  rewrite bool_decide_true by (unfold preamble; rewrite <-!(assoc_L (++)); by apply slice_front).
  cbn [negb orb].
  assert (u32_at (preamble self ++ rest) 4 = INDEX_FORMAT_VERSION) as ->.
  { unfold preamble. rewrite <-!(assoc_L (++)). by apply u32_at_le. }
  cbn [N.eqb INDEX_FORMAT_VERSION Pos.eqb negb].
  rewrite bool_decide_true.
  2: { unfold preamble. rewrite <-!(assoc_L (++)). skip_fields. by apply slice_front. }
  cbn [negb]. unfold header_of. f_equal.
  assert (∀ a n x q, (n <= u64_max)%N → slice x a 8 = to_le_bytes 8 n → q = x → u64_at q a = n) as Hu64.
  { intros a n x q Hn Hx ->. unfold u64_at. rewrite Hx. apply from_to_le.
    unfold u64_max in Hn. change (256 ^ N.of_nat 8)%N with 18446744073709551616%N. lia. }
  f_equal.
  - eapply Hu64; [by apply fits_len| |done]. unfold preamble. rewrite <-!(assoc_L (++)).
    skip_fields. by apply slice_front; rewrite size_to_le.
  - unfold preamble. rewrite <-!(assoc_L (++)). skip_fields.
    apply slice_front. by rewrite fits_blake3.
  - eapply Hu64; [by apply fits_stamp| |done]. unfold preamble. rewrite <-!(assoc_L (++)).
    skip_fields. by apply slice_front; rewrite size_to_le.
  - unfold preamble. rewrite <-!(assoc_L (++)). skip_fields.
    apply slice_front. by rewrite fits_sample.
  - unfold preamble. rewrite <-!(assoc_L (++)). skip_fields.
    rewrite slice_front by (by rewrite size_to_le).
    by destruct (GraphIndexBody.has_temporal_history _).
  - unfold preamble. rewrite <-!(assoc_L (++)).
    pose proof (directory_entries
      (INDEX_MAGIC ++ to_le_bytes 4 INDEX_FORMAT_VERSION ++ to_le_bytes 8 self.(Index.graph_len)
       ++ self.(Index.graph_blake3) ++ to_le_bytes 8 self.(Index.graph_stat_stamp)
       ++ self.(Index.sample_fingerprint)
       ++ to_le_bytes 1 (if self.(Index.body).(GraphIndexBody.has_temporal_history) then 1 else 0)
       ++ [LF]) PREAMBLE_LEN (tables_of self) rest (HEADER_LEN + 1)) as Hd.
    rewrite <-!(assoc_L (++)) in Hd. apply Hd; [|done].
    by rewrite !size_app, !size_to_le, fits_blake3, fits_sample.
Qed.

Lemma table_in_file table :
  ∃ o, ranges_of PREAMBLE_LEN (tables_of self) !! Table.slot table
         = Some (o, size (encode_table (GraphIndexBody.map self.(Index.body) table)))
       ∧ slice (preamble self ++ concat (tables_of self)) o
           (size (encode_table (GraphIndexBody.map self.(Index.body) table)))
         = encode_table (GraphIndexBody.map self.(Index.body) table)
       ∧ (o + size (encode_table (GraphIndexBody.map self.(Index.body) table))
          <= size (preamble self ++ concat (tables_of self)))%N.
Proof using Hfits.
  rewrite <-size_preamble. apply table_ranges. by destruct table.
Qed.

Lemma parse_table_written table body :
  (size (preamble self ++ concat (tables_of self)) <= u64_max)%N →
  parse_table (preamble self ++ concat (tables_of self)) (header_of self) body table
  = Ok (GraphIndexBody.map_mut table (λ _, GraphIndexBody.map self.(Index.body) table) body).
Proof using Hfits.
  intros Hmax. destruct (table_in_file table) as (o & Hr & Hs & Hin).
  unfold parse_table. cbn [header_of Header.tables]. rewrite Hr. cbn [default id].
  rewrite ok_add64 by lia. cbn [mbind option_bind]. rewrite (proj2 (N.leb_le _ _)), Hs by done.
  cbn [ok_or result_bind]. rewrite decode_encode; [done|].
  pose proof (fits_tables _ Hfits) as Ht. rewrite Forall_forall in Ht. apply Ht.
  unfold TABLES. rewrite !elem_of_cons. destruct table; tauto.
Qed.

Lemma parse_tables_written tables body :
  (size (preamble self ++ concat (tables_of self)) <= u64_max)%N →
  foldl (λ acc table, let? body := acc in
           parse_table (preamble self ++ concat (tables_of self)) (header_of self) body table)
    (Ok body) tables
  = Ok (foldl (λ body table,
          GraphIndexBody.map_mut table (λ _, GraphIndexBody.map self.(Index.body) table) body)
          body tables).
Proof using Hfits.
  intros Hmax. revert body. induction tables as [|table tables IH]; intros body; [done|].
  cbn [foldl result_bind]. rewrite parse_table_written by done. apply IH.
Qed.

Lemma parse_written :
  (size (preamble self ++ concat (tables_of self)) <= u64_max)%N →
  parse (preamble self ++ concat (tables_of self)) = Ok self.
Proof using Hfits.
  intros Hmax. unfold parse.
  rewrite parse_preamble by (by rewrite <-size_preamble, <-size_app).
  cbn [result_bind]. rewrite parse_tables_written by done. cbn [result_bind].
  by destruct self as [? ? ? ? []].
Qed.
End Layout.

Section ReaderFacts.
Context {V : Type} `{!JsonValue V} {JsonError : Type} (error_to_string : JsonError → string).
Context (from_str_record : string → result GraphRecord JsonError).
Context (from_str_value : string → result V JsonError).
Context (utf8_error_to_string : bytes → string).
Abbreviation read := (read_record_line error_to_string from_str_record from_str_value).
Abbreviation read_chunk := (read_chunk error_to_string from_str_record from_str_value utf8_error_to_string).
Abbreviation build_lines := (build_lines error_to_string from_str_record from_str_value utf8_error_to_string).
Abbreviation parse_line := (parse_line error_to_string from_str_record from_str_value).
Abbreviation read_record_at := (read_record_at error_to_string from_str_record from_str_value).
Abbreviation read_record_in_file := (read_record_in_file error_to_string from_str_record from_str_value).

(** ** Reading one record *)
Lemma read_in_file_at file offset :
  (offset < size file)%N →
  read_record_in_file file offset = Some (Ok (read_record_at file offset)).
Proof.
  intros Ho. unfold GraphIndex.read_record_in_file, GraphIndex.read_record_at.
  rewrite read_chunks_line by (unfold size in *; lia). cbn [io_bind app].
  by rewrite (proj2 (N.leb_gt _ _)).
Qed.

(** ** The records of a file with their offsets *)

(** The text of a physical line. *)
Definition line_content (raw_line : bytes) : bytes := strip_last CR (strip_last LF raw_line).

(** What the builder reads, before it indexes anything. *)
Fixpoint located (chunks : list bytes) (index : nat) (cursor : N)
    : result (list (N * GraphRecord)) BuildError :=
  match chunks with
  | [] => Ok []
  | raw_line :: chunks =>
      let? record := read_chunk (index + 1) raw_line in
      let? rest := located chunks (index + 1) (cursor + size raw_line) in
      Ok (match record with Some r => [(cursor, r)] | None => [] end ++ rest)
  end.

Lemma build_lines_located chunks index cursor body :
  build_lines chunks index cursor body
  = let? ps := located chunks index cursor in Ok (foldl add_record body ps).
Proof.
  revert index cursor body. induction chunks as [|raw_line chunks IH]; intros index cursor body;
    cbn [GraphIndex.build_lines located result_bind]; [done|].
  destruct (read_chunk (index + 1) raw_line) as [[r|]|]; cbn [result_bind]; [..|done];
    rewrite IH; by destruct (located chunks _ _).
Qed.

Lemma located_from chunks index cursor ps :
  located chunks index cursor = Ok ps → StronglySorted N.lt ps.*1 ∧ Forall (N.le cursor) ps.*1.
Proof.
  revert index cursor ps. induction chunks as [|raw_line chunks IH]; intros index cursor ps;
    cbn [located]; [intros [= <-]; split; constructor|].
  destruct (read_chunk (index + 1) raw_line) as [o|] eqn:Hread; [|done]. cbn [result_bind].
  destruct (located chunks _ _) as [rest|] eqn:Hrest; [|done]. cbn [result_bind]. intros [= <-].
  destruct (IH _ _ _ Hrest) as [Hs Hc].
  assert (Forall (N.le cursor) rest.*1) as Hle.
  { eapply Forall_impl; [exact Hc|]. intros n Hn. lia. }
  destruct o as [r|]; cbn; [|done]. split; constructor; [done| |lia|done].
  assert (0 < size raw_line)%N as Hpos.
  { destruct raw_line; [|unfold size; simpl; lia]. done. }
  eapply Forall_impl; [exact Hc|]. intros n Hn. cbv beta in Hn. lia.
Qed.

(** Seeking to an offset of the list finds the record there. *)
Lemma located_read pre l index off r ps :
  located (split_inclusive l) index (size pre) = Ok ps → (off, r) ∈ ps →
  read_record_at (pre ++ l) off = Some r ∧ (off < size (pre ++ l))%N.
Proof.
  assert (∀ c n, read_chunk n (c ++ [LF]) = read_chunk n c ∨ last c = Some LF) as Hlf.
  { intros c n. destruct (decide (last c = Some LF)) as [|Hc]; [by right|left].
    unfold GraphIndex.read_chunk. by rewrite strip_last_snoc, (strip_last_other LF c). }
  assert (∀ pre c tail n r, LF ∉ c → c ++ tail ≠ [] →
            line_at (c ++ tail) = c → read_chunk n c = Ok (Some r) →
            read_record_at (pre ++ c ++ tail) (size pre) = Some r
            ∧ (size pre < size (pre ++ c ++ tail))%N) as Hone.
  { clear. intros pre c tail n r Hc Hne Hline Hread.
    unfold GraphIndex.read_chunk in Hread. rewrite (strip_last_other LF) in Hread
      by (by apply last_notin).
    assert (size pre < size (pre ++ c ++ tail))%N as Hlt.
    { rewrite (size_app pre). destruct (c ++ tail); [done|]. rewrite size_cons. lia. }
    split; [|done]. unfold GraphIndex.read_record_at.
    rewrite (proj2 (N.leb_gt _ _)) by done. cbv zeta.
    unfold size. rewrite Nat2N.id, drop_app_length. fold (line_at (c ++ tail)). rewrite Hline.
    unfold GraphIndex.parse_line. destruct (negb (valid_utf8 (strip_last CR c))); [done|].
    destruct (is_blank _); [done|]. destruct (read _) as [[]|]; by simplify_eq. }
  revert pre index off r ps. induction l as [c Hc|c l Hc IH] using lines_ind;
    intros pre index off r ps.
  - destruct (decide (c = [])) as [->|Hne]; [by intros [= <-] ?%elem_of_nil|].
    rewrite split_inclusive_last by done. cbn [located].
    destruct (read_chunk (index + 1) c) as [[r'|]|] eqn:Hread; [..|done]; intros [= <-];
      [|by intros ?%elem_of_nil].
    intros [= -> ->]%list_elem_of_singleton.
    rewrite <-(app_nil_r c). eapply Hone; rewrite ?app_nil_r; try done. by apply line_at_last.
  - rewrite split_inclusive_line by done. cbn [located].
    destruct (Hlf c (index + 1)) as [->|Hl]; [|by destruct (last_notin _ _ Hc)].
    destruct (read_chunk (index + 1) c) as [o|] eqn:Hread; [|done].
    cbn [result_bind]. destruct (located _ _ _) as [rest|] eqn:Hrest; [|done].
    intros [= <-] [Hin|Hin]%elem_of_app.
    + destruct o as [r'|]; [|by apply elem_of_nil in Hin].
      apply list_elem_of_singleton in Hin as [= -> ->].
      eapply (Hone pre c (LF :: l)); try done; [by destruct c|by apply line_at_line].
    + rewrite <-size_app in Hrest. destruct (IH _ _ _ _ _ Hrest Hin) as [H1 H2].
      by rewrite <-!(assoc_L (++)) in H1, H2.
Qed.

Abbreviation collect_records := (collect_records error_to_string from_str_record from_str_value).
Abbreviation records_from_jsonl := (records_from_jsonl error_to_string from_str_record from_str_value).

(** The entries of the cold loader from line [n] on. *)
Definition entries_from (n : nat) (texts : list string) : list (nat * string) :=
  List.filter (λ '(_, line), negb (trim line =s? "")) (imap (λ i x, (n + i, x)) texts).

Lemma entries_from_cons n text texts :
  entries_from n (text :: texts)
  = (if is_blank text then [] else [(n, text)]) ++ entries_from (S n) texts.
Proof.
  unfold entries_from. rewrite imap_cons. cbn [List.filter]. rewrite Nat.add_0_r.
  unfold is_blank. rewrite (imap_ext _ (λ i x, (S n + i, x)) texts)
    by (intros; cbn; f_equal; lia).
  by destruct (trim text =s? "").
Qed.

(** One line, as the builder and as the loader read it. *)
Lemma read_chunk_entry n chunk entries acc :
  valid_utf8 (line_content chunk) = true →
  let text := of_bytes (line_content chunk) in
  let cold := collect_records ((if is_blank text then [] else [(n, text)]) ++ entries) acc in
  match read_chunk (n + 1) chunk with
  | Ok o => cold = collect_records entries (acc ++ option_list o)
  | Err _ => ∃ e, cold = Err e
  end.
Proof.
  intros Hu. cbv zeta. unfold GraphIndex.read_chunk. fold (line_content chunk). rewrite Hu.
  cbn [negb]. destruct (is_blank _); [cbn [option_list app]; by rewrite app_nil_r|].
  cbn [app Ingest.collect_records]. unfold read_line. cbn [fst snd].
  destruct (read _) as [[r|u]|e]; cbn [map_err result_bind]; eauto.
Qed.

Lemma located_cold l n cur acc records :
  last l ≠ Some CR →
  (∃ ps, located (split_inclusive l) n cur = Ok ps ∧ records = acc ++ ps.*2)
  ↔ Forall (λ chunk, valid_utf8 (line_content chunk) = true) (split_inclusive l)
    ∧ collect_records (entries_from n (lines (of_bytes l))) acc = Ok records.
Proof.
  assert (∀ chunk chunks n cur acc records texts,
    (∀ acc,
      (∃ ps, located chunks (S n) (cur + size chunk) = Ok ps ∧ records = acc ++ ps.*2)
      ↔ Forall (λ chunk, valid_utf8 (line_content chunk) = true) chunks
        ∧ collect_records (entries_from (S n) texts) acc = Ok records) →
    (∃ ps, located (chunk :: chunks) n cur = Ok ps ∧ records = acc ++ ps.*2)
    ↔ Forall (λ chunk, valid_utf8 (line_content chunk) = true) (chunk :: chunks)
      ∧ collect_records (entries_from n (of_bytes (line_content chunk) :: texts)) acc = Ok records) as Hstep.
  { clear l n cur acc records. intros chunk chunks n cur acc records texts IH.
    rewrite Forall_cons, entries_from_cons. cbn [located].
    destruct (valid_utf8 (line_content chunk)) eqn:Hu.
    - pose proof (read_chunk_entry n chunk (entries_from (S n) texts) acc Hu) as Hcold.
      cbv zeta in Hcold. destruct (read_chunk (n + 1) chunk) as [o|e]; cbn [result_bind].
      + rewrite Hcold, Nat.add_1_r.
        assert (∀ Q R : Prop, (true = true ∧ Q) ∧ R ↔ Q ∧ R) as -> by tauto.
        rewrite <-IH. split.
        * intros (ps & Hps & ->). destruct (located _ _ _) as [rest|] eqn:Hl; [|done].
          cbn in Hps. simplify_eq. exists rest. split; [done|].
          rewrite fmap_app, (assoc_L (++)). by destruct o.
        * intros (rest & -> & ->). eexists. split; [done|].
          rewrite fmap_app, (assoc_L (++)). by destruct o.
      + destruct Hcold as (e' & ->). split; [by intros (? & ? & _)|by intros []].
    - unfold GraphIndex.read_chunk. fold (line_content chunk). rewrite Hu. cbn.
      split; [by intros (? & ? & _)|by intros [[? _] _]]. }
  revert n cur acc records. induction l as [c Hc|c l Hc IH] using lines_ind; intros n cur acc records Hl.
  - rewrite lines_last by done. destruct (decide (c = [])) as [->|Hne].
    { cbn. split; [intros (ps & [= <-] & ->)|intros [_ [= <-]]; exists []]; by rewrite app_nil_r. }
    rewrite split_inclusive_last by done. destruct c as [|x c]; [done|].
    assert (line_content (x :: c) = x :: c) as Hlc.
    { unfold line_content. rewrite (strip_last_other LF) by (by apply last_notin).
      by rewrite strip_last_other. }
    replace [of_bytes (x :: c)] with [of_bytes (line_content (x :: c))] by (by rewrite Hlc).
    apply Hstep. intros acc'. cbn.
    split; [intros (ps & [= <-] & ->)|intros [_ [= <-]]; exists []]; by rewrite app_nil_r.
  - rewrite split_inclusive_line, lines_line by done.
    assert (line_content (c ++ [LF]) = strip_last CR c) as <-.
    { unfold line_content. by rewrite strip_last_snoc. }
    apply Hstep. intros acc'. apply IH. destruct l as [|y l]; [done|].
    rewrite last_app in Hl. by destruct (last (y :: l)) eqn:E; [|done]; cbn in *; rewrite E in *.
Qed.

(** ** The index of a file *)

(** The list [ps] is what the cold loader reads of the graph with the offset of each record, and
    [index] lists it: every record can be read back at its offset, from memory or from the file,
    and every table holds exactly the offsets of the records it lists, in file order. *)
Definition indexes (graph : bytes) (ps : list (N * GraphRecord)) (body : GraphIndexBody.t) : Prop :=
  StronglySorted N.lt ps.*1
  ∧ (∀ p, p ∈ ps → (p.1 < size graph)%N ∧ read_record_at graph p.1 = Some p.2
                   ∧ read_record_in_file graph p.1 = Some (Ok (Some p.2)))
  ∧ (∀ table key, GraphIndexBody.map body table !! key = some_list (listed table key ps))
  ∧ GraphIndexBody.has_temporal_history body = existsb (λ p, record_is_history_signal p.2) ps.

Context (blake3 : bytes → bytes).
Abbreviation build_from_bytes := (build_from_bytes error_to_string from_str_record from_str_value
  blake3 utf8_error_to_string).

Lemma built_body graph ps :
  located (split_inclusive graph) 0 0 = Ok ps →
  indexes graph ps (sort_tables (foldl add_record GraphIndexBody.default ps)).
Proof.
  intros Hps. destruct (located_from _ _ _ _ Hps) as [Hs _]. split_and!; [done| | |].
  - intros [off r] Hin. destruct (located_read [] graph 0 off r ps Hps Hin) as [Hr Hlt].
    cbn [app fst snd] in *. by rewrite read_in_file_at, Hr.
  - intros table key. by apply map_built.
  - by apply history_built.
Qed.

Lemma build_cold graph index :
  build_from_bytes graph = Ok index →
  ∃ ps, located (split_inclusive graph) 0 0 = Ok ps
        ∧ index.(Index.body) = sort_tables (foldl add_record GraphIndexBody.default ps)
        ∧ index.(Index.graph_len) = size graph ∧ index.(Index.graph_blake3) = blake3 graph
        ∧ index.(Index.graph_stat_stamp) = 0%N
        ∧ index.(Index.sample_fingerprint) = sample_fingerprint_bytes blake3 graph.
Proof.
  unfold GraphIndex.build_from_bytes. rewrite build_lines_located.
  destruct (located _ _ _) as [ps|] eqn:Hps; cbn [result_bind]; [|done].
  intros [= <-]. by exists ps.
Qed.

Lemma cold_entries graph :
  records_from_jsonl (of_bytes graph) = collect_records (entries_from 0 (lines (of_bytes graph))) [].
Proof. done. Qed.

(** The lines of valid UTF-8 are valid UTF-8. *)
Lemma utf8_lines graph :
  valid_utf8 graph = true →
  Forall (λ chunk, valid_utf8 (line_content chunk) = true) (split_inclusive graph).
Proof.
  assert (∀ c, valid_utf8 c = true → valid_utf8 (strip_last CR c) = true) as Hcr.
  { intros c Hc. destruct c as [|x c _] using rev_ind; [done|].
    destruct (decide (x = CR)) as [->|Hx].
    - rewrite strip_last_snoc. by rewrite valid_utf8_ascii, andb_true_iff in Hc by done; destruct Hc.
    - rewrite strip_last_other; [done|]. rewrite last_snoc. congruence. }
  induction graph as [c Hc|c l Hc IH] using lines_ind; intros Hu.
  - destruct (decide (c = [])) as [->|Hne]; [constructor|].
    rewrite split_inclusive_last by done. apply Forall_singleton. unfold line_content.
    rewrite (strip_last_other LF) by (by apply last_notin). by apply Hcr.
  - rewrite valid_utf8_ascii in Hu by done. apply andb_prop in Hu as [Huc Hul].
    rewrite split_inclusive_line by done. constructor; [|by apply IH].
    unfold line_content. rewrite strip_last_snoc. by apply Hcr.
Qed.

(** C32: the index lists exactly what the cold loader reads. On UTF-8 text whose last line does
    not end in a lone carriage return, the builder succeeds exactly when the cold loader does;
    it then knows the same records in the same order, every record can be read back at its
    offset from memory and, in chunks, from the file, every table holds exactly the offsets of
    the records it lists under each key, in file order, and the history flag is set exactly when
    some record signals history. *)
Theorem build_lists_cold_records (graph : bytes) :
  valid_utf8 graph = true → last graph ≠ Some CR →
  (∀ index, build_from_bytes graph = Ok index →
     ∃ ps, records_from_jsonl (of_bytes graph) = Ok ps.*2
           ∧ indexes graph ps index.(Index.body))
  ∧ (∀ records, records_from_jsonl (of_bytes graph) = Ok records →
       ∃ index, build_from_bytes graph = Ok index).
Proof.
  intros Hu Hcr. pose proof (λ records, located_cold graph 0 0 [] records Hcr) as Hcold.
  rewrite cold_entries. split.
  - intros index (ps & Hps & -> & _)%build_cold. exists ps. split; [|by apply built_body].
    apply Hcold. by exists ps.
  - intros records Hr. destruct (proj2 (Hcold records)) as (ps & Hps & _).
    { split; [by apply utf8_lines|done]. }
    unfold GraphIndex.build_from_bytes. rewrite build_lines_located, Hps. cbn. by eexists.
Qed.

Abbreviation open := (open blake3).

(** The index of a graph as its producer writes it, with the stamp of the graph's metadata. *)
Lemma open_written index meta graph :
  index_fits index → (size (preamble index ++ concat (tables_of index)) <= u64_max)%N →
  index.(Index.graph_len) = size graph → index.(Index.graph_blake3) = blake3 graph →
  index.(Index.sample_fingerprint) = sample_fingerprint_bytes blake3 graph →
  open (Ok (preamble index ++ concat (tables_of index))) (Ok (mk_graph_file graph meta))
  = Ok (LazyGraphIndex.mk (preamble index ++ concat (tables_of index)) graph
          (ranges_of PREAMBLE_LEN (tables_of index))
          index.(Index.body).(GraphIndexBody.has_temporal_history)).
Proof.
  intros Hfits Hmax Hlen Hhash Hsample. unfold GraphIndex.open.
  pose proof (size_preamble index Hfits) as Hp.
  rewrite N.min_r by (rewrite size_app, Hp; lia).
  rewrite read_exact_ok by (rewrite size_app, Hp; lia). cbn [map_err result_bind].
  rewrite (slice_front (preamble index)) by done.
  pose proof (parse_preamble index Hfits []) as Hparse. rewrite app_nil_r in Hparse.
  rewrite Hparse by (by rewrite <-Hp, <-size_app). cbn [result_bind].
  cbn [header_of Header.tables Header.graph_len Header.graph_blake3 Header.sample_fingerprint
       Header.has_temporal_history Header.graph_stat_stamp].
  rewrite (proj2 (forallb_forall _ _)).
  2: { intros r Hr%list_elem_of_In.
       rewrite <-Hp in Hr. destruct (ranges_inside (preamble index) (tables_of index) r Hr) as [Hin _].
       rewrite ok_add64 by lia. by apply N.leb_le. }
  cbn [negb map_err result_bind file_bytes file_meta].
  rewrite Hlen, N.eqb_refl. cbn [negb].
  destruct (negb _ && _); cbn [result_bind].
  - unfold sample_fingerprint_file. rewrite hash_ranges_inside.
    2: { eapply Forall_impl; [apply sample_ranges_inside|]. intros r (? & _). done. }
    cbn [result_bind map_err]. rewrite Hsample, bool_decide_true by done. done.
  - by rewrite Hhash, bool_decide_true.
Qed.

(** ** Validation *)

(** Whatever the two files hold, an index that opens is one whose tables all lie inside the
    index file, so that every lookup and listing is in bounds, whose header names the current
    length of the graph, and that matches the graph either by the BLAKE3 of all its bytes or by
    a non-zero stamp together with the fingerprint of the sampled blocks, none of which reaches
    past the end of the graph. *)
Theorem open_validates (index_file : result bytes IoError) (graph_file : result GraphFile IoError)
    (lazy : LazyGraphIndex.t) :
  open index_file graph_file = Ok lazy →
  ∃ meta header,
    index_file = Ok lazy.(LazyGraphIndex.idx)
    ∧ graph_file = Ok (mk_graph_file lazy.(LazyGraphIndex.graph) meta)
    ∧ parse_header (take (N.to_nat PREAMBLE_LEN) lazy.(LazyGraphIndex.idx)) = Ok header
    ∧ lazy.(LazyGraphIndex.tables) = header.(Header.tables)
    ∧ lazy.(LazyGraphIndex.has_temporal_history) = header.(Header.has_temporal_history)
    ∧ size lazy.(LazyGraphIndex.graph) = header.(Header.graph_len)
    ∧ (blake3 lazy.(LazyGraphIndex.graph) = header.(Header.graph_blake3)
       ∨ header.(Header.graph_stat_stamp) ≠ 0%N
         ∧ stat_stamp blake3 meta = header.(Header.graph_stat_stamp)
         ∧ sample_fingerprint_bytes blake3 lazy.(LazyGraphIndex.graph)
           = header.(Header.sample_fingerprint))
    ∧ Forall (λ r, r.1 + r.2 <= size lazy.(LazyGraphIndex.idx))%N lazy.(LazyGraphIndex.tables)
    ∧ ((size lazy.(LazyGraphIndex.idx) <= u64_max)%N →
       ∀ r key, r ∈ lazy.(LazyGraphIndex.tables) →
         let t := FileTable.mk lazy.(LazyGraphIndex.idx) r.1 r.2 in
         sound (λ v, N.of_nat (length v) * 8 <= r.2)%N (FileTable.lookup t key)
         ∧ sound (λ _, True) (FileTable.keys t)).
Proof.
  unfold GraphIndex.open. destruct index_file as [idx|[]]; try done.
  rewrite read_exact_ok by lia. cbn [map_err result_bind].
  assert (slice idx 0 (N.min (size idx) PREAMBLE_LEN) = take (N.to_nat PREAMBLE_LEN) idx) as ->.
  { unfold slice, size. rewrite drop_0. destruct (N.le_ge_cases (N.of_nat (length idx)) PREAMBLE_LEN).
    - rewrite N.min_l, !take_ge by lia. done.
    - by rewrite N.min_r. }
  destruct (parse_header _) as [header|] eqn:Hheader; [|done]. cbn [result_bind].
  destruct (forallb _ _) eqn:Htables; [|done]. cbn [negb].
  destruct graph_file as [[graph meta]|]; [|done]. cbn [map_err result_bind file_bytes file_meta].
  destruct (N.eqb_spec (size graph) header.(Header.graph_len)) as [Hlen|]; [|done]. cbn [negb].
  assert (Forall (λ r, r.1 + r.2 <= size idx)%N header.(Header.tables)) as Hin.
  { apply Forall_forall. intros r Hr%list_elem_of_In.
    eapply forallb_forall in Htables; [|exact Hr]. unfold add64 in Htables.
    destruct (_ <=? u64_max)%N; [by apply N.leb_le|done]. }
  assert (sample_fingerprint_file blake3 graph (size graph) = Ok (sample_fingerprint_bytes blake3 graph)) as ->.
  { unfold sample_fingerprint_file. rewrite hash_ranges_inside; [done|].
    eapply Forall_impl; [apply sample_ranges_inside|]. intros r (? & _). done. }
  cbn [map_err result_bind]. intros Hopen.
  assert (lazy = LazyGraphIndex.mk idx graph header.(Header.tables) header.(Header.has_temporal_history)
          ∧ (blake3 graph = header.(Header.graph_blake3)
             ∨ header.(Header.graph_stat_stamp) ≠ 0%N
               ∧ stat_stamp blake3 meta = header.(Header.graph_stat_stamp)
               ∧ sample_fingerprint_bytes blake3 graph = header.(Header.sample_fingerprint)))
    as [-> Hmatch].
  { destruct (negb (_ =? 0)%N && _) eqn:Hquick; cbn [result_bind] in Hopen.
    - apply andb_prop in Hquick as [Hz Hq]. apply negb_true_iff, N.eqb_neq in Hz.
      apply N.eqb_eq in Hq. case_bool_decide as Hs; cbn [negb andb] in Hopen.
      + split; [congruence|by right].
      + case_bool_decide as Hb; cbn [negb] in Hopen; [|done]. split; [congruence|by left].
    - cbn [negb andb] in Hopen. case_bool_decide as Hb; cbn [negb] in Hopen; [|done].
      split; [congruence|by left]. }
  exists meta, header. split_and!; try done.
  intros Hmax r key Hr. cbv zeta. cbn [LazyGraphIndex.tables LazyGraphIndex.idx] in *.
  rewrite Forall_forall in Hin. specialize (Hin r Hr). cbv beta in Hin.
  split; [by apply lookup_sound|by apply keys_sound].
Qed.

(** C40: a written index reads back. For every index whose fields fit their widths (UTF-8 keys,
    32-byte digests, 64-bit lengths and offsets), parsing the bytes the writer makes gives the
    index back, and opening them beside the graph the index names, whatever its metadata, gives
    the same history flag and the ranges of the six tables. *)
Theorem index_file_roundtrip (self : Index.t) (raw graph : bytes) (meta : Metadata) :
  index_fits self → to_bytes self = Ok raw → (size raw <= u64_max)%N →
  parse raw = Ok self
  ∧ (self.(Index.graph_len) = size graph → self.(Index.graph_blake3) = blake3 graph →
     self.(Index.sample_fingerprint) = sample_fingerprint_bytes blake3 graph →
     open (Ok raw) (Ok (mk_graph_file graph meta))
     = Ok (LazyGraphIndex.mk raw graph (ranges_of PREAMBLE_LEN (tables_of self))
             self.(Index.body).(GraphIndexBody.has_temporal_history))).
Proof.
  rewrite to_bytes_preamble. intros Hfits <-%Ok_eq Hmax. split.
  - by apply parse_written.
  - intros. by apply open_written.
Qed.
End ReaderFacts.

(** ** A small graph file *)
Module Demo.
Definition file_node : GraphRecord :=
  GraphRecord.node "f" NodeKind.File (Some "a.rs") None (Some "a.rs") "file".
Definition calls : GraphRecord := GraphRecord.edge (λ s, s) EdgeLabel.Contains "r" "f" None "".
(** Lines [A] and [B] spell the two records. *)
Definition from_str_record (line : string) : result GraphRecord string :=
  if trim line =s? "A" then Ok file_node else if trim line =s? "B" then Ok calls else Err "bad".
Definition from_str_value (line : string) : result flat_json string := Err "bad".
(** 32 bytes made from the length of the data. *)
Definition blake3 (l : bytes) : bytes := to_le_bytes 32 (size l).
Definition graph : bytes := as_bytes ("A" +:+ String LF (String LF ("B" +:+ String CR (String LF "A")))).
Definition built : result Index.t BuildError :=
  build_from_bytes (λ e : string, e) from_str_record from_str_value blake3 (λ _, "utf-8") graph.
Definition index : Index.t :=
  match built with Ok i => i | Err _ => Index.mk 0 [] 0 [] GraphIndexBody.default end.

Example postings_ex :
  (GraphIndexBody.map index.(Index.body) Table.Path !! "a.rs",
   GraphIndexBody.map index.(Index.body) Table.Adjacency !! "f",
   index.(Index.graph_len)) = (Some [0; 6]%N, Some [3]%N, 7%N).
Proof. vm_compute. reflexivity. Qed.

(** The comment in the builder says that stripping a trailing carriage return matches
    [str::lines]; on a last line without a newline [lines] keeps it. *)
Example lone_carriage_return :
  lines (of_bytes [("A"%char : ascii); CR]) = [of_bytes [("A"%char : ascii); CR]]
  ∧ line_content [("A"%char : ascii); CR] = [("A"%char : ascii)].
Proof. split; reflexivity. Qed.
End Demo.

Lemma build_lists_cold_records_witness :
  ∃ ps, records_from_jsonl (λ e : string, e) Demo.from_str_record Demo.from_str_value
          (of_bytes Demo.graph) = Ok ps.*2
        ∧ indexes (λ e : string, e) Demo.from_str_record Demo.from_str_value
            Demo.graph ps Demo.index.(Index.body).
Proof.
  refine (proj1 (build_lists_cold_records (λ e : string, e) Demo.from_str_record Demo.from_str_value
    (λ _, "utf-8") Demo.blake3 Demo.graph _ _) Demo.index _).
  - vm_compute. reflexivity.
  - vm_compute. discriminate.
  - unfold Demo.index. vm_compute. reflexivity.
Defined.

Lemma demo_fits : index_fits Demo.index.
Proof.
  split; [apply (bool_decide_unpack _); vm_compute; exact I| | | |];
    vm_compute; try reflexivity; discriminate.
Qed.

Definition demo_raw : bytes := match to_bytes Demo.index with Ok raw => raw | Err _ => [] end.

Lemma index_file_roundtrip_witness : parse demo_raw = Ok Demo.index.
Proof.
  refine (proj1 (index_file_roundtrip Demo.blake3 Demo.index demo_raw Demo.graph
    (mk_metadata None 0 0 0 0) demo_fits _ _)).
  - reflexivity.
  - vm_compute. discriminate.
Defined.

Definition demo_lazy : LazyGraphIndex.t :=
  match open Demo.blake3 (Ok demo_raw) (Ok (mk_graph_file Demo.graph (mk_metadata None 0 0 0 0))) with
  | Ok lazy => lazy | Err _ => LazyGraphIndex.mk [] [] [] false end.

Lemma open_validates_witness :
  Forall (λ r : N * N, r.1 + r.2 <= size demo_lazy.(LazyGraphIndex.idx))%N
    demo_lazy.(LazyGraphIndex.tables).
Proof.
  destruct (open_validates Demo.blake3 (Ok demo_raw)
    (Ok (mk_graph_file Demo.graph (mk_metadata None 0 0 0 0))) demo_lazy ltac:(vm_compute; reflexivity))
    as (_ & _ & _ & _ & _ & _ & _ & _ & _ & H & _).
  exact H.
Defined.
End GraphIndex.
