(* ===== verification/IndexClosure.v ===== *)
(** * Closures of the graph index ([src/src/graph_index.rs], from [IndexView] on)

    The two views of an index (in memory, and in place in its file), the walk that collects the
    offsets a query needs, and the hydration of the records. A computation on a view may change
    the view (the [failed] flag of a file view), so the walk is written in a state monad over the
    view and the fields of [Closure]; [None] is a panic or fuel running out. *)
From S2P Require Import Prelude RustStr Ir IrOps SchemaVersion Liveness RepoIndex Ingest IndexTable GraphIndex.
From Stdlib Require Import Ascii NArith.
Import IndexTable GraphIndex.

Module IndexClosure.

(* graph_index.rs 84-107: Selector *)
Inductive Selector : Type :=
| Whole
| ById (id : string)
| ByName (name : string)
| ByPath (path : string)
| ByKind (kind : string)
| Anchored (id : string)
| Lineage (id : string).

(** What the closure walk needs from an index. *)
(* graph_index.rs 553-557: IndexView *)
Class IndexView (V : Type) := {
  view_postings : V → Table.t → string → option (list N * V);
  view_record_at : V → N → option (option GraphRecord * V)
}.

Section Views.
Context {J : Type} `{!JsonValue J} {JsonError : Type} (error_to_string : JsonError → string).
Context (from_str_record : string → result GraphRecord JsonError).
Context (from_str_value : string → result J JsonError).

(** [MemView]: the body and the bytes of the graph. *)
(* graph_index.rs 559-574: MemView *)
Record MemView : Type := mk_mem { mem_body : GraphIndexBody.t; mem_bytes : bytes }.

(* graph_index.rs 565-574: MemView *)
Definition mem_view : IndexView MemView := {|
  view_postings v table key :=
    Some (default [] (GraphIndexBody.map v.(mem_body) table !! key), v);
  view_record_at v offset :=
    Some (read_record_at error_to_string from_str_record from_str_value v.(mem_bytes) offset, v)
|}.

(** [FileView]: what [open] found, and whether a read has failed. *)
(* graph_index.rs 576-583: FileView *)
Record FileView : Type := mk_file { file_index : LazyGraphIndex.t; failed : bool }.

(* graph_index.rs 585-593: FileView::table *)
Definition table (self : FileView) (t : Table.t) : FileTable.t :=
  let '(start, len) := default (0, 0)%N
    (self.(file_index).(LazyGraphIndex.tables) !! Table.slot t) in
  FileTable.mk self.(file_index).(LazyGraphIndex.idx) start len.

(* graph_index.rs 596-601: FileView::postings *)
Definition file_postings (self : FileView) (t : Table.t) (key : string) : option (list N * FileView) :=
  match FileTable.lookup (table self t) key with
  | None => None
  | Some (Ok offsets) => Some (offsets, self)
  | Some (Err _) => Some ([], self{{ failed := true }})
  end.

(* graph_index.rs 603-612: FileView::record_at *)
Definition file_record_at (self : FileView) (offset : N) : option (option GraphRecord * FileView) :=
  match read_record_in_file error_to_string from_str_record from_str_value
          self.(file_index).(LazyGraphIndex.graph) offset with
  | None => None
  | Some read =>
      let record := match read with Ok record => record | Err _ => None end in
      Some (record, if is_none record then self{{ failed := true }} else self)
  end.

(* graph_index.rs 595-613: FileView *)
Definition file_view : IndexView FileView := {|
  view_postings := file_postings;
  view_record_at := file_record_at
|}.
#[global] Existing Instances mem_view file_view.
End Views.

(** ** The walk *)
Section Walk.
Context {V : Type} `{!IndexView V}.

(** The view, and the fields of [Closure]. *)
(* graph_index.rs 1081-1089: Closure *)
Record Closure : Type := mk_closure {
  view : V;
  offsets : gset N;
  expanded : gset string;
  climbed : gset string
}.

Definition W (A : Type) : Type := Closure → option (A * Closure).
#[global] Instance W_ret : MRet W := λ A a w, Some (a, w).
#[global] Instance W_bind : MBind W := λ A B f m w,
  match m w with Some (a, w) => f a w | None => None end.
Definition stuck {A} : W A := λ _, None.
Definition gets {A} (f : Closure → A) : W A := λ w, Some (f w, w).
Definition modify (f : Closure → Closure) : W () := λ w, Some ((), f w).

Definition postings (t : Table.t) (key : string) : W (list N) := λ w,
  match view_postings w.(view) t key with
  | Some (l, v) => Some (l, w{{ view := v }})
  | None => None
  end.
Definition record_at (offset : N) : W (option GraphRecord) := λ w,
  match view_record_at w.(view) offset with
  | Some (r, v) => Some (r, w{{ view := v }})
  | None => None
  end.
Definition insert_offset (o : N) : W () := modify (λ w, w{{ offsets ::= λ s, {[o]} ∪ s }}).
Definition extend (l : list N) : W () := modify (λ w, w{{ offsets ::= λ s, list_to_set l ∪ s }}).

(** [for x in l { f(x) }]. *)
Fixpoint for_each {A} (f : A → W ()) (l : list A) : W () :=
  match l with
  | [] => mret ()
  | x :: l => f x ≫= λ _, for_each f l
  end.

(* graph_index.rs 1094-1102: Closure::ids_at *)
Fixpoint collect_ids (l : list N) (ids : gset string) : W (gset string) :=
  match l with
  | [] => mret ids
  | offset :: l =>
      r ← record_at offset;
      collect_ids l (match r with Some record => {[GraphRecord.id record]} ∪ ids | None => ids end)
  end.
(* graph_index.rs 1092-1102: Closure::ids_at *)
Definition ids_at (t : Table.t) (key : string) : W (list string) :=
  l ← postings t key; ids ← collect_ids l ∅; mret (iter ids).

(* graph_index.rs 1104-1109: Closure::add_edge *)
Definition add_edge (offset : N) (edge_id : string) : W () :=
  insert_offset offset ≫= λ _, l ← postings Table.DeletedId edge_id; extend l.

(* graph_index.rs 1111-1117: Closure::add_id_versions *)
Definition add_id_versions (id : string) : W () :=
  l ← postings Table.ById id; extend l ≫= λ _, l ← postings Table.DeletedId id; extend l.

(** [.any(..)] stops at the first import. *)
(* graph_index.rs 1176-1190: Closure::node_is_import_kind *)
Fixpoint any_import (l : list N) : W bool :=
  match l with
  | [] => mret false
  | o :: l =>
      r ← record_at o;
      match r with
      | Some (Node n) => if bool_decide (n.(NodeRec.kind) = NodeKind.Import) then mret true else any_import l
      | _ => any_import l
      end
  end.
(* graph_index.rs 1170-1190: Closure::node_is_import_kind *)
Definition node_is_import_kind (id : string) : W bool := l ← postings Table.ById id; any_import l.

(** The edges at a node that is climbed; the sources of its parent edges are pushed. The top of
    the stack is its head. *)
(* graph_index.rs 1208-1237: Closure::climb_ancestry *)
Fixpoint climb_edges (node : string) (l : list N) (stack : list string) : W (list string) :=
  match l with
  | [] => mret stack
  | edge_offset :: l =>
      r ← record_at edge_offset;
      match r with
      | Some (Edge e) =>
          is_parent_edge ←
            (if e.(EdgeRec.target) =s? node then
               match e.(EdgeRec.label) with
               | EdgeLabel.Contains | EdgeLabel.Defines => mret true
               | EdgeLabel.Imports => node_is_import_kind node
               | _ => mret false
               end
             else mret false);
          if (is_parent_edge : bool) then
            add_edge edge_offset e.(EdgeRec.id) ≫= λ _,
            add_id_versions e.(EdgeRec.source) ≫= λ _,
            l' ← postings Table.Adjacency e.(EdgeRec.source);
            extend l' ≫= λ _,
            climb_edges node l (e.(EdgeRec.source) :: stack)
          else climb_edges node l stack
      | _ => climb_edges node l stack
      end
  end.

(* graph_index.rs 1203-1239: Closure::climb_ancestry *)
Fixpoint climb_loop (fuel : nat) (stack : list string) : W () :=
  match fuel with
  | 0 => stuck
  | S fuel =>
      match stack with
      | [] => mret ()
      | node :: stack =>
          seen ← gets (λ w, bool_decide (node ∈ w.(climbed)));
          if (seen : bool) then climb_loop fuel stack
          else
            modify (λ w, w{{ climbed ::= λ s, {[node]} ∪ s }}) ≫= λ _,
            l ← postings Table.Adjacency node;
            stack ← climb_edges node l stack;
            climb_loop fuel stack
      end
  end.
(* graph_index.rs 1192-1239: Closure::climb_ancestry *)
Definition climb_ancestry (fuel : nat) (id : string) : W () := climb_loop fuel [id].

(** One incident edge in [expand_by_id]. *)
(* graph_index.rs 1128-1144: Closure::expand_by_id *)
Definition expand_edge (fuel : nat) (id : string) (edge_offset : N) : W () :=
  insert_offset edge_offset ≫= λ _,
  r ← record_at edge_offset;
  match r with
  | Some (Edge e) =>
      add_edge edge_offset e.(EdgeRec.id) ≫= λ _,
      let other := if e.(EdgeRec.source) =s? id then e.(EdgeRec.target) else e.(EdgeRec.source) in
      add_id_versions other ≫= λ _,
      l ← postings Table.Adjacency other;
      extend l ≫= λ _,
      climb_ancestry fuel other
  | _ => mret ()
  end.

(* graph_index.rs 1119-1146: Closure::expand_by_id *)
Definition expand_by_id (fuel : nat) (id : string) : W () :=
  seen ← gets (λ w, bool_decide (id ∈ w.(expanded)));
  if (seen : bool) then mret ()
  else
    modify (λ w, w{{ expanded ::= λ s, {[id]} ∪ s }}) ≫= λ _,
    add_id_versions id ≫= λ _,
    l ← postings Table.Adjacency id;
    for_each (expand_edge fuel id) l ≫= λ _,
    climb_ancestry fuel id.

(* graph_index.rs 1152-1166: Closure::anchor *)
Definition anchor_edge (fuel : nat) (id : string) (edge_offset : N) : W () :=
  insert_offset edge_offset ≫= λ _,
  r ← record_at edge_offset;
  match r with
  | Some (Edge e) =>
      add_edge edge_offset e.(EdgeRec.id) ≫= λ _,
      let other := if e.(EdgeRec.source) =s? id then e.(EdgeRec.target) else e.(EdgeRec.source) in
      add_id_versions other ≫= λ _,
      climb_ancestry fuel other
  | _ => mret ()
  end.
(* graph_index.rs 1148-1168: Closure::anchor *)
Definition anchor (fuel : nat) (id : string) : W () :=
  add_id_versions id ≫= λ _,
  l ← postings Table.Adjacency id;
  for_each (anchor_edge fuel id) l ≫= λ _,
  climb_ancestry fuel id.

(** The walk of a selector; [Whole] has none. *)
(* graph_index.rs 1041-1077: closure_offsets_in *)
Definition walk (fuel : nat) (selector : Selector) : W () :=
  match selector with
  | Whole => mret ()
  | ById id => expand_by_id fuel id
  | ByName name => ids ← ids_at Table.Name name; for_each (expand_by_id fuel) ids
  | ByPath path =>
      ids ← ids_at Table.Path path;
      for_each add_id_versions ids ≫= λ _, for_each (climb_ancestry fuel) ids
  | ByKind kind => ids ← ids_at Table.Kind kind; for_each add_id_versions ids
  | Anchored id => anchor fuel id
  | Lineage id => add_id_versions id ≫= λ _, climb_ancestry fuel id
  end.

(** [BTreeSet<u64>] in ascending order. *)
Definition ascending (s : gset N) : list N := sort_unstable (elements s).

(** [Some (None, v)] is the source's [None]: the caller cold-scans. *)
(* graph_index.rs 1040-1079: closure_offsets_in *)
Definition closure_offsets_in (fuel : nat) (v : V) (selector : Selector)
    : option (option (list N) * V) :=
  match selector with
  | Whole => Some (None, v)
  | _ =>
      match walk fuel selector (mk_closure v ∅ ∅ ∅) with
      | Some (_, w) => Some (Some (ascending w.(offsets)), w.(view))
      | None => None
      end
  end.
End Walk.

(** ** What the walk collects

    [ps] is what the index lists: the records of the graph with their offsets. A view is good
    when it answers from [ps] and stays good. *)
Section Spec.
Context (ps : list (N * GraphRecord)).

(** The offsets of the versions of an id and of the tombstones that retract it. *)
Definition versions (id : string) (off : N) : Prop :=
  off ∈ listed Table.ById id ps ∨ off ∈ listed Table.DeletedId id ps.

Definition import_node (id : string) : Prop :=
  ∃ (p : N * GraphRecord) n, p ∈ ps ∧ p.2 = Node n ∧ n.(NodeRec.id) = id ∧ n.(NodeRec.kind) = NodeKind.Import.

(** An edge that contains its target: an [IMPORTS] edge does so when the target is an import
    declaration. *)
Definition parent_edge (id : string) (e : EdgeRec.t) : Prop :=
  e.(EdgeRec.target) = id
  ∧ (e.(EdgeRec.label) ∈ [EdgeLabel.Contains; EdgeLabel.Defines]
     ∨ e.(EdgeRec.label) = EdgeLabel.Imports ∧ import_node id).

(** [y] is a parent of [x]. *)
Definition parent (x y : string) : Prop :=
  ∃ (p : N * GraphRecord) e, p ∈ ps ∧ p.2 = Edge e ∧ parent_edge x e ∧ e.(EdgeRec.source) = y.

(** What climbing one edge adds, and what climbing one id adds. *)
Definition edge_step (p : N * GraphRecord) (e : EdgeRec.t) (off : N) : Prop :=
  off = p.1 ∨ off ∈ listed Table.DeletedId e.(EdgeRec.id) ps
  ∨ versions e.(EdgeRec.source) off ∨ off ∈ listed Table.Adjacency e.(EdgeRec.source) ps.
Definition climb_step (id : string) (off : N) : Prop :=
  ∃ (p : N * GraphRecord) e, p ∈ ps ∧ p.2 = Edge e ∧ parent_edge id e ∧ edge_step p e off.

(** The containment ancestry of an id. *)
Definition ancestry (id : string) (off : N) : Prop := ∃ x, rtc parent id x ∧ climb_step x off.
Definition lineage (id : string) (off : N) : Prop := versions id off ∨ ancestry id off.

(** The edges at an id, with the other end. *)
Definition other_end (id : string) (e : EdgeRec.t) : string :=
  if e.(EdgeRec.source) =s? id then e.(EdgeRec.target) else e.(EdgeRec.source).
Definition incident (id : string) (p : N * GraphRecord) (e : EdgeRec.t) : Prop :=
  p ∈ ps ∧ p.2 = Edge e ∧ (e.(EdgeRec.source) = id ∨ e.(EdgeRec.target) = id).

Definition anchored (id : string) (off : N) : Prop :=
  lineage id off
  ∨ ∃ (p : N * GraphRecord) e, incident id p e
      ∧ (off = p.1 ∨ off ∈ listed Table.DeletedId e.(EdgeRec.id) ps ∨ lineage (other_end id e) off).
Definition neighbourhood (id : string) (off : N) : Prop :=
  anchored id off
  ∨ ∃ (p : N * GraphRecord) e, incident id p e ∧ off ∈ listed Table.Adjacency (other_end id e) ps.

(** The ids a lookup key leads to. *)
Definition keyed (t : Table.t) (key id : string) : Prop :=
  ∃ p : N * GraphRecord, p ∈ ps ∧ key ∈ table_keys t p.2 ∧ GraphRecord.id p.2 = id.

(** The closure of a selector. *)
Definition in_closure (selector : Selector) (off : N) : Prop :=
  match selector with
  | Whole => False
  | ById id => neighbourhood id off
  | ByName name => ∃ id, keyed Table.Name name id ∧ neighbourhood id off
  | ByPath path => ∃ id, keyed Table.Path path id ∧ lineage id off
  | ByKind kind => ∃ id, keyed Table.Kind kind id ∧ versions id off
  | Anchored id => anchored id off
  | Lineage id => lineage id off
  end.

Lemma elem_of_listed t key off : off ∈ listed t key ps ↔ ∃ p : N * GraphRecord, p ∈ ps ∧ p.1 = off ∧ key ∈ table_keys t p.2.
Proof.
  unfold listed. rewrite list_elem_of_fmap. setoid_rewrite list_elem_of_filter. naive_solver.
Qed.

Lemma adjacency_keys id (p : N * GraphRecord) :
  id ∈ table_keys Table.Adjacency p.2 ↔
  ∃ e, p.2 = Edge e ∧ (e.(EdgeRec.source) = id ∨ e.(EdgeRec.target) = id).
Proof.
  destruct p as [o [n|e|tb]]; cbn [snd table_keys];
    try (rewrite elem_of_nil; naive_solver).
  rewrite elem_of_cons. destruct (String.eqb_spec (EdgeRec.target e) (EdgeRec.source e)) as [He|He].
  - rewrite elem_of_nil. split; [intros [?|[]]; eauto|]. intros (e' & [= <-] & [?|?]); left; congruence.
  - rewrite list_elem_of_singleton. split; [intros [?|?]; eauto|].
    intros (e' & [= <-] & [?|?]); [left|right]; congruence.
Qed.

Section Good.
Context {V : Type} `{!IndexView V}.
Context (good : V → Prop).
Class GoodView : Prop := {
  good_postings v t key :
    good v → ∃ v', view_postings v t key = Some (listed t key ps, v') ∧ good v';
  good_record v p :
    good v → p ∈ ps → ∃ v', view_record_at v p.1 = Some (Some p.2, v') ∧ good v'
}.
Context `{Hgood : !GoodView}.

(** From a good view the computation ends in a good view, and [Q] holds. *)
Definition wp {A} (m : W A) (w : Closure) (Q : A → Closure → Prop) : Prop :=
  good w.(view) →
  match m w with Some (a, w') => good w'.(view) ∧ Q a w' | None => False end.

(** The fields of the walk without the view. *)
Definition same_walk (w w' : Closure (V := V)) : Prop :=
  w'.(offsets) = w.(offsets) ∧ w'.(expanded) = w.(expanded) ∧ w'.(climbed) = w.(climbed).

Lemma wp_ret {A} (a : A) w (Q : A → Closure → Prop) : Q a w → wp (mret a) w Q.
Proof. by intros. Qed.

Lemma wp_bind {A B} (m : W A) (f : A → W B) w Q :
  wp m w (λ a w', wp (f a) w' Q) → wp (m ≫= f) w Q.
Proof.
  intros H Hw. specialize (H Hw). unfold mbind, W_bind.
  destruct (m w) as [[a w']|]; [|done]. destruct H as [Hg H]. by apply H.
Qed.

Lemma wp_mono {A} (m : W A) w (Q Q' : A → Closure → Prop) :
  wp m w Q → (∀ a w', Q a w' → Q' a w') → wp m w Q'.
Proof.
  intros H HQ Hw. specialize (H Hw). destruct (m w) as [[a w']|]; [|done]. naive_solver.
Qed.

Lemma wp_postings t key w Q :
  (∀ w', same_walk w w' → Q (listed t key ps) w') → wp (postings t key) w Q.
Proof using Hgood.
  intros H Hw. unfold postings. destruct (good_postings w.(view) t key Hw) as (v & -> & Hv).
  split; [done|]. by apply H.
Qed.

Lemma wp_record p w Q :
  p ∈ ps → (∀ w', same_walk w w' → Q (Some p.2) w') → wp (record_at p.1) w Q.
Proof using Hgood.
  intros Hp H Hw. unfold record_at. destruct (good_record w.(view) p Hw Hp) as (v & -> & Hv).
  split; [done|]. by apply H.
Qed.

Lemma wp_modify (f : Closure → Closure) w (Q : () → Closure → Prop) :
  view (f w) = view w → Q () (f w) → wp (modify f) w Q.
Proof. intros Hv HQ Hw. unfold modify. by rewrite Hv. Qed.

Lemma wp_gets {A} (f : Closure → A) w (Q : A → Closure → Prop) : Q (f w) w → wp (gets f) w Q.
Proof. by intros HQ Hw. Qed.

(** A step that adds offsets and changes nothing else. *)
Definition adds (P : N → Prop) (w w' : Closure (V := V)) : Prop :=
  w'.(expanded) = w.(expanded) ∧ w'.(climbed) = w.(climbed)
  ∧ ∀ off, off ∈ w'.(offsets) ↔ off ∈ w.(offsets) ∨ P off.

Lemma adds_trans P P' w w' w'' :
  adds P w w' → adds P' w' w'' → adds (λ off, P off ∨ P' off) w w''.
Proof. intros (H1 & H2 & H3) (H4 & H5 & H6). split_and!; [congruence..|]. naive_solver. Qed.

#[local] Instance adds_proper : Proper (pointwise_relation N iff ==> (=) ==> (=) ==> iff) adds.
Proof.
  intros P P' HP w ? <- w' ? <-. unfold adds. by setoid_rewrite HP.
Qed.

Lemma wp_postings_extend t key w (Q : () → Closure → Prop) :
  (∀ w', adds (λ off, off ∈ listed t key ps) w w' → Q () w') →
  wp (l ← postings t key; extend l) w Q.
Proof using Hgood.
  intros H. apply wp_bind, wp_postings. intros [v o e c] (Ho & He & Hc). apply wp_modify; [done|].
  apply H. split_and!; [done..|]. intros off. cbn in *. rewrite Ho, elem_of_union, elem_of_list_to_set.
  tauto.
Qed.

Lemma wp_extend_then {A} t key w (k : W A) (Q : A → Closure → Prop) :
  (∀ w', adds (λ off, off ∈ listed t key ps) w w' → wp k w' Q) →
  wp (l ← postings t key; extend l ≫= λ _, k) w Q.
Proof using Hgood.
  intros H. apply wp_bind, wp_postings. intros [v o e c] (Ho & He & Hc).
  apply wp_bind, wp_modify; [done|].
  apply H. split_and!; [done..|]. intros off. cbn in *. rewrite Ho, elem_of_union, elem_of_list_to_set.
  tauto.
Qed.

Lemma wp_insert o w (Q : () → Closure → Prop) :
  (∀ w', adds (λ off, off = o) w w' → Q () w') → wp (insert_offset o) w Q.
Proof.
  intros H. destruct w as [v os e c]. apply wp_modify; [done|]. apply H.
  split_and!; [done..|]. intros off. cbn. rewrite elem_of_union, elem_of_singleton. tauto.
Qed.

Lemma wp_add_edge o id w (Q : () → Closure → Prop) :
  (∀ w', adds (λ off, off = o ∨ off ∈ listed Table.DeletedId id ps) w w' → Q () w') →
  wp (add_edge o id) w Q.
Proof using Hgood.
  intros H. apply wp_bind, wp_insert. intros w1 H1. apply wp_postings_extend. intros w2 H2.
  apply H. by eapply adds_trans.
Qed.

Lemma wp_add_id_versions id w (Q : () → Closure → Prop) :
  (∀ w', adds (versions id) w w' → Q () w') → wp (add_id_versions id) w Q.
Proof using Hgood.
  intros H. apply wp_extend_then. intros w1 H1. apply wp_postings_extend. intros w2 H2.
  apply H. by eapply adds_trans.
Qed.

(** *** Climbing *)
Lemma wp_any_import qs w (Q : bool → Closure → Prop) :
  qs ⊆ ps →
  (∀ b w', same_walk w w' →
     (b = true ↔ ∃ p n, p ∈ qs ∧ p.2 = Node n ∧ n.(NodeRec.kind) = NodeKind.Import) → Q b w') →
  wp (any_import qs.*1) w Q.
Proof using Hgood.
  revert w. induction qs as [|p qs IH]; intros w Hsub H; cbn [fmap list_fmap any_import].
  - apply wp_ret, H; [done|]. split; [done|]. by intros (? & ? & ?%elem_of_nil & _).
  - apply wp_bind, wp_record; [set_solver|]. intros w1 (Ho & He & Hc).
    assert (∀ b w', same_walk w1 w' →
      (b = true ↔ ∃ p n, p ∈ qs ∧ p.2 = Node n ∧ n.(NodeRec.kind) = NodeKind.Import) →
      (∀ n, p.2 = Node n → n.(NodeRec.kind) ≠ NodeKind.Import) → Q b w') as Hnext.
    { intros b w' (? & ? & ?) Hb Hn. apply H; [split_and!; congruence|]. rewrite Hb.
      setoid_rewrite elem_of_cons. naive_solver. }
    destruct (p.2) as [n|e|tb] eqn:Hp; try (apply IH; [set_solver|]; by eauto).
    case_bool_decide as Hk.
    + apply wp_ret, H; [done|]. split; [|done]. intros _. exists p, n. split; [by left|done].
    + apply IH; [set_solver|]. intros. eapply Hnext; [done..|]. intros n' [= <-]. done.
Qed.

(** The edges of the list that contain the node. *)
Definition climbs (node : string) (qs : list (N * GraphRecord)) (p : N * GraphRecord)
    (e : EdgeRec.t) : Prop :=
  p ∈ qs ∧ p.2 = Edge e ∧ parent_edge node e.

Lemma climbs_skip node p qs (R : N * GraphRecord → EdgeRec.t → Prop) :
  (∀ e, p.2 = Edge e → ¬ parent_edge node e) →
  (∃ p' e, climbs node (p :: qs) p' e ∧ R p' e) ↔ (∃ p' e, climbs node qs p' e ∧ R p' e).
Proof.
  intros Hno. unfold climbs. split; intros (p' & e & (Hp & He & Hpe) & HR).
  - apply elem_of_cons in Hp as [->|Hp]; [by destruct (Hno e He)|]. by exists p', e.
  - exists p', e. split_and!; [by right|done..].
Qed.

Lemma climbs_take node p qs e (R : N * GraphRecord → EdgeRec.t → Prop) :
  p.2 = Edge e → parent_edge node e →
  (∃ p' e, climbs node (p :: qs) p' e ∧ R p' e) ↔ R p e ∨ (∃ p' e, climbs node qs p' e ∧ R p' e).
Proof.
  intros He Hpe. unfold climbs. split.
  - intros (p' & e' & ([->|Hp]%elem_of_cons & He' & Hpe') & HR).
    + left. congruence.
    + right. by exists p', e'.
  - intros [HR|(p' & e' & (? & ? & ?) & HR)].
    + exists p, e. split_and!; [by left|done..].
    + exists p', e'. split_and!; [by right|done..].
Qed.

Lemma wp_is_parent node e w (Q : bool → Closure → Prop) :
  (∀ b w', same_walk w w' → (b = true ↔ parent_edge node e) → Q b w') →
  wp (if e.(EdgeRec.target) =s? node then
        match e.(EdgeRec.label) with
        | EdgeLabel.Contains | EdgeLabel.Defines => mret true
        | EdgeLabel.Imports => node_is_import_kind node
        | _ => mret false
        end
      else mret false) w Q.
Proof using Hgood.
  intros H.
  destruct (String.eqb_spec e.(EdgeRec.target) node) as [Ht|Ht].
  2: { apply wp_ret, H; [done|]. split; [done|]. by intros [? _]. }
  unfold parent_edge in H. setoid_rewrite elem_of_cons in H.
  setoid_rewrite list_elem_of_singleton in H.
  destruct (e.(EdgeRec.label)) eqn:Hl;
    try (apply wp_ret, H; [done|]; split; [done|]; naive_solver);
    try (apply wp_ret, H; [done|]; naive_solver).
  apply wp_bind, wp_postings. intros w1 (H1 & H2 & H3). unfold listed.
  apply wp_any_import; [intros p; rewrite list_elem_of_filter; tauto|].
  intros b w' (? & ? & ?) Hb. apply H; [split_and!; congruence|]. rewrite Hb.
  split.
  - intros (p & n & [Hid Hp]%list_elem_of_filter & Hn & Hk). split; [done|right]. split; [done|].
    exists p, n. split_and!; try done. rewrite Hn in Hid. by apply list_elem_of_singleton in Hid.
  - intros (_ & [[?|?]|(_ & p & n & Hp & Hn & Hid & Hk)]); try done.
    exists p, n. split_and!; try done. apply list_elem_of_filter. split; [|done].
    rewrite Hn. by apply list_elem_of_singleton.
Qed.

Lemma wp_climb_edges node qs stack w (Q : list string → Closure → Prop) :
  qs ⊆ ps →
  (∀ stack' w',
     adds (λ off, ∃ p e, climbs node qs p e ∧ edge_step p e off) w w' →
     (∀ x, x ∈ stack' ↔ x ∈ stack ∨ ∃ p e, climbs node qs p e ∧ e.(EdgeRec.source) = x) →
     (length stack' <= length stack + length qs)%nat → Q stack' w') →
  wp (climb_edges node qs.*1 stack) w Q.
Proof using Hgood.
  revert stack w. induction qs as [|p qs IH]; intros stack w Hsub H;
    cbn [fmap list_fmap climb_edges].
  - assert (∀ p e, ¬ climbs node [] p e) as Hno by (intros p e (?%elem_of_nil & _); done).
    apply wp_ret, H; [|naive_solver|lia]. split_and!; [done..|]. naive_solver.
  - apply wp_bind, wp_record; [set_solver|]. intros w1 (Ho & He & Hc).
    assert (∀ w0, same_walk w w0 → (∀ e, p.2 = Edge e → ¬ parent_edge node e) →
                  wp (climb_edges node qs.*1 stack) w0 Q) as Hskip.
    { intros w0 (Ho' & He' & Hc') Hno. apply IH; [set_solver|]. intros stack' w' (H1 & H2 & H3) H4 H5.
      apply H; [| |simpl; lia].
      - split_and!; [congruence..|]. intros off. by rewrite H3, Ho', climbs_skip.
      - intros x. by rewrite H4, climbs_skip. }
    destruct (p.2) as [n|e|tb] eqn:Hp; try (apply Hskip; [done|by intros]).
    apply wp_bind, wp_is_parent. intros b w2 (Ho2 & He2 & Hc2) Hb. destruct b.
    + assert (parent_edge node e) as Hpe by by apply Hb.
      apply wp_bind, wp_add_edge. intros w3 H3. apply wp_bind, wp_add_id_versions. intros w4 H4.
      apply wp_extend_then. intros w5 H5.
      pose proof (adds_trans _ _ _ _ _ H3 (adds_trans _ _ _ _ _ H4 H5)) as (Hae & Hac & Hao).
      apply IH; [set_solver|]. intros stack' w' (H6 & H7 & H8) Hst Hlen.
      apply H; [| |simpl in *; lia].
      * split_and!; [congruence..|]. intros off. rewrite H8, Hao, Ho2, Ho.
        rewrite (climbs_take _ _ _ e) by done. unfold edge_step. tauto.
      * intros x. rewrite Hst, elem_of_cons, (climbs_take _ _ _ e) by done.
        rewrite (eq_comm x). tauto.
    + apply Hskip; [split_and!; congruence|]. intros e' [= <-] Hpe. by apply Hb in Hpe.
Qed.

(** The edges left to look at. *)
Definition endpoints : gset string := list_to_set (ps ≫= λ p, table_keys Table.Adjacency p.2).
Definition degree (id : string) : nat := length (listed Table.Adjacency id ps).
Definition weight (c : gset string) : nat :=
  sum_list_with (λ n, if bool_decide (n ∈ c) then 0%nat else degree n) (elements endpoints).

Lemma sum_list_with_le {A} (f g : A → nat) l :
  (∀ x, x ∈ l → (f x <= g x)%nat) → (sum_list_with f l <= sum_list_with g l)%nat.
Proof.
  induction l as [|x l IH]; intros H; cbn [sum_list_with]; [done|].
  specialize (IH ltac:(intros; apply H; by right)). specialize (H x ltac:(by left)). lia.
Qed.

Lemma weight_visit c n : n ∉ c → (weight ({[n]} ∪ c) + degree n <= weight c)%nat.
Proof.
  intros Hn. unfold weight. destruct (decide (n ∈ elements endpoints)) as [Hin|Hout].
  - pose proof (NoDup_elements endpoints) as Hnd.
    apply list_elem_of_split in Hin as (l1 & l2 & Hl). rewrite Hl in *.
    rewrite !sum_list_with_app. cbn [sum_list_with].
    rewrite (bool_decide_true (n ∈ {[n]} ∪ c)), (bool_decide_false (n ∈ c)) by set_solver.
    assert (∀ l, (sum_list_with (λ n0, if bool_decide (n0 ∈ {[n]} ∪ c) then 0%nat else degree n0) l
             <= sum_list_with (λ n0, if bool_decide (n0 ∈ c) then 0%nat else degree n0) l)%nat) as Hle.
    { intros l. apply sum_list_with_le. intros x _.
      destruct (decide (x ∈ c)); [rewrite !bool_decide_true by set_solver; lia|].
      repeat case_bool_decide; first [lia|set_solver]. }
    pose proof (Hle l1). pose proof (Hle l2). lia.
  - assert (degree n = 0%nat) as ->.
    { unfold degree. apply length_zero_iff_nil, elem_of_nil_inv. intros off Hoff.
      apply elem_of_listed in Hoff as (p & Hp & _ & Hk). apply Hout. unfold endpoints.
      rewrite elem_of_elements, elem_of_list_to_set, list_elem_of_bind. by exists p. }
    rewrite Nat.add_0_r. apply sum_list_with_le. intros x _.
    destruct (decide (x ∈ c)); [rewrite !bool_decide_true by set_solver; lia|].
    repeat case_bool_decide; first [lia|set_solver].
Qed.

(** The parents of every climbed id are climbed or wait on the stack. *)
Definition closed (c : gset string) (stack : list string) : Prop :=
  ∀ x y, x ∈ c → parent x y → y ∈ c ∨ y ∈ stack.
Definition above (stack : list string) (x : string) : Prop := ∃ s, s ∈ stack ∧ rtc parent s x.

Lemma closed_above c stack x y : closed c stack → x ∈ c → rtc parent x y → y ∈ c ∨ above stack y.
Proof.
  intros Hcl Hx Hr. induction Hr as [|x z y Hxz Hzy IH]; [by left|].
  destruct (Hcl x z Hx Hxz) as [Hz|Hz]; [by apply IH|]. right. by exists z.
Qed.

Lemma above_cons node stack x :
  above (node :: stack) x ↔ rtc parent node x ∨ above stack x.
Proof. unfold above. setoid_rewrite elem_of_cons. naive_solver. Qed.

Lemma climbs_parent node y :
  (∃ p e, climbs node (filter (λ p, node ∈ table_keys Table.Adjacency p.2) ps) p e
          ∧ e.(EdgeRec.source) = y) ↔ parent node y.
Proof.
  unfold climbs, parent. setoid_rewrite list_elem_of_filter. split.
  - intros (p & e & ([_ Hp] & He & Hpe) & Hs). by exists p, e.
  - intros (p & e & Hp & He & Hpe & Hs). exists p, e. split_and!; try done.
    apply adjacency_keys. exists e. split; [done|]. right. apply Hpe.
Qed.

Lemma climbs_step node off :
  (∃ p e, climbs node (filter (λ p, node ∈ table_keys Table.Adjacency p.2) ps) p e
          ∧ edge_step p e off) ↔ climb_step node off.
Proof.
  unfold climbs, climb_step. setoid_rewrite list_elem_of_filter. split.
  - intros (p & e & ([_ Hp] & He & Hpe) & Hs). by exists p, e.
  - intros (p & e & Hp & He & Hpe & Hs). exists p, e. split_and!; try done.
    apply adjacency_keys. exists e. split; [done|]. right. apply Hpe.
Qed.

Lemma wp_climb_loop fuel stack w (Q : () → Closure → Prop) :
  closed w.(climbed) stack → (length stack + weight w.(climbed) < fuel)%nat →
  (∀ w', w'.(expanded) = w.(expanded) →
     (∀ x, x ∈ w'.(climbed) ↔ x ∈ w.(climbed) ∨ above stack x) →
     (∀ off, off ∈ w'.(offsets) ↔
        off ∈ w.(offsets) ∨ (∃ x, above stack x ∧ (x ∉ w.(climbed)) ∧ climb_step x off)) →
     Q () w') →
  wp (climb_loop fuel stack) w Q.
Proof using Hgood.
  revert stack w. induction fuel as [|fuel IH]; intros stack w Hcl Hf H; [lia|].
  cbn [climb_loop]. destruct stack as [|node stack].
  { assert (∀ x, ¬ above [] x) as Hno by (intros x (s & ?%elem_of_nil & _); done).
    apply wp_ret, H; naive_solver. }
  apply wp_bind, wp_gets. case_bool_decide as Hn.
  - apply IH.
    + intros x y Hx Hxy. destruct (Hcl x y Hx Hxy) as [?|[->|?]%elem_of_cons]; [by left|by left|by right].
    + simpl in Hf. lia.
    + assert (closed w.(climbed) stack) as Hcl'.
      { intros x y Hx Hxy. destruct (Hcl x y Hx Hxy) as [?|[->|?]%elem_of_cons]; [by left|by left|by right]. }
      assert (∀ x, above (node :: stack) x → x ∈ w.(climbed) ∨ above stack x) as Hab.
      { intros x [Hx|Hx]%above_cons; [|by right]. by eapply closed_above. }
      intros w' He Hc Ho. apply H; [done| |].
      * intros x. rewrite Hc. split; [intros [?|?]; [by left|right; apply above_cons; by right]|].
        intros [?|Hx]; [by left|by apply Hab].
      * intros off. rewrite Ho. split; (intros [?|(x & Hx & Hxc & Hs)]; [by left|right; exists x]).
        -- split_and!; [apply above_cons; by right|done..].
        -- split_and!; [by destruct (Hab x Hx)|done..].
  - apply wp_bind, wp_modify; [by destruct w|]. apply wp_bind, wp_postings. intros w1 (Ho1 & He1 & Hc1).
    destruct w as [v o e c]. cbn in Hcl, Hf, H, Hn, Ho1, He1, Hc1.
    unfold listed. apply wp_bind, wp_climb_edges; [intros p; rewrite list_elem_of_filter; tauto|].
    intros stack' w2 (He2 & Hc2 & Ho2) Hst Hlen.
    setoid_rewrite climbs_parent in Hst. setoid_rewrite climbs_step in Ho2.
    assert (w2.(climbed) = {[node]} ∪ c) as Hcl2 by congruence.
    assert (length (filter (λ p, node ∈ table_keys Table.Adjacency p.2) ps) = degree node) as Hdeg
      by (unfold degree, listed; by rewrite length_fmap).
    apply IH.
    + rewrite Hcl2. intros x y Hx Hxy. rewrite Hst.
      apply elem_of_union in Hx as [->%elem_of_singleton|Hx]; [right; by right|].
      destruct (Hcl x y Hx Hxy) as [?|[->|?]%elem_of_cons]; set_solver.
    + rewrite Hcl2. pose proof (weight_visit c node Hn). simpl in Hf. lia.
    + assert (∀ x, above stack' x ↔ above stack x ∨ ∃ y, parent node y ∧ rtc parent y x) as Hab.
      { intros x. unfold above. setoid_rewrite Hst. naive_solver. }
      assert (∀ x, above (node :: stack) x ↔ x = node ∨ above stack' x) as Hcons.
      { intros x. rewrite above_cons, Hab. split.
        - intros [Hr|Hr]; [|by right; left]. inversion Hr; subst; [by left|]. right. right. eauto.
        - intros [->|[Hr|(y & Hy & Hr)]]; [by left|by right|left]. by eapply rtc_l. }
      intros w' He Hc Ho. apply H.
      * cbn in *. congruence.
      * intros x. rewrite Hc, Hcl2, elem_of_union, elem_of_singleton, Hcons. cbn. tauto.
      * intros off. rewrite Ho, Hcl2, Ho2, Ho1. setoid_rewrite not_elem_of_union.
        setoid_rewrite not_elem_of_singleton. setoid_rewrite Hcons. cbn. split.
        -- intros [[?|?]|(x & Hx & [Hxn Hxc] & Hs)]; [by left|right; exists node; eauto|right; exists x; eauto].
        -- intros [?|(x & Hx & Hxc & Hs)]; [left; by left|].
           destruct (decide (x = node)) as [->|Hne]; [left; by right|].
           right. exists x. destruct Hx; [done|]. eauto.
Qed.

(** *** The walks of the selectors *)

(** Between two calls the climbed ids are closed under parents, and what climbing them adds has
    been added. *)
Definition settled (w : Closure (V := V)) : Prop :=
  closed w.(climbed) [] ∧ ∀ x off, x ∈ w.(climbed) → climb_step x off → off ∈ w.(offsets).

(** A settled step that adds the offsets [P]. *)
Definition grows (P : N → Prop) (w w' : Closure (V := V)) : Prop :=
  settled w' ∧ w'.(expanded) = w.(expanded) ∧ ∀ off, off ∈ w'.(offsets) ↔ off ∈ w.(offsets) ∨ P off.

Lemma adds_grows P w w' : settled w → adds P w w' → grows P w w'.
Proof.
  intros [Hc Hs] (He & Hc' & Ho). split_and!; [|done|done]. unfold settled. rewrite Hc'.
  split; [done|]. intros x off Hx Hst. apply Ho. left. by eapply Hs.
Qed.

Lemma know_trans P P' w w' w'' :
  grows P w w' → grows P' w' w'' → grows (λ off, P off ∨ P' off) w w''.
Proof. intros (_ & H2 & H3) (H4 & H5 & H6). split_and!; [done|congruence|]. naive_solver. Qed.

#[local] Instance grows_proper : Proper (pointwise_relation N iff ==> (=) ==> (=) ==> iff) grows.
Proof. intros P P' HP w ? <- w' ? <-. unfold grows. by setoid_rewrite HP. Qed.

Lemma grows_iff P P' w w' : (∀ off, P off ↔ P' off) → grows P w w' → grows P' w w'.
Proof. intros HP. by apply grows_proper. Qed.

(** Fuel for one climb: a round per id on the stack and per edge. *)
Definition climb_fuel : nat := 2 + weight ∅.

Lemma weight_le c : (weight c <= weight ∅)%nat.
Proof.
  apply sum_list_with_le. intros x _. rewrite (bool_decide_false (x ∈ ∅)) by set_solver.
  case_bool_decide; lia.
Qed.

Lemma rtc_above id x : above [id] x ↔ rtc parent id x.
Proof. unfold above. setoid_rewrite list_elem_of_singleton. naive_solver. Qed.

Lemma wp_climb_ancestry fuel id w (Q : () → Closure → Prop) :
  (climb_fuel <= fuel)%nat → settled w → (∀ w', grows (ancestry id) w w' → Q () w') →
  wp (climb_ancestry fuel id) w Q.
Proof using Hgood.
  intros Hf [Hcl Hst] H. apply wp_climb_loop.
  - intros x y Hx Hxy. destruct (Hcl x y Hx Hxy) as [?|?%elem_of_nil]; [by left|done].
  - unfold climb_fuel in Hf. pose proof (weight_le w.(climbed)). simpl. lia.
  - intros w' He Hc Ho. apply H.
    assert (∀ off, off ∈ w'.(offsets) ↔ off ∈ w.(offsets) ∨ ancestry id off) as Ho'.
    { intros off. rewrite Ho. unfold ancestry. setoid_rewrite rtc_above. split.
      - intros [?|(x & Hx & _ & Hs)]; [by left|right; eauto].
      - intros [?|(x & Hx & Hs)]; [by left|].
        destruct (decide (x ∈ w.(climbed))); [left; by eapply Hst|right; eauto]. }
    split_and!; [|done|done]. split.
    + intros x y Hx Hxy. left. rewrite Hc in Hx |- *. rewrite rtc_above in Hx |- *.
      destruct Hx as [Hx|Hx].
      * destruct (Hcl x y Hx Hxy) as [?|?%elem_of_nil]; [by left|done].
      * right. by eapply rtc_r.
    + intros x off Hx Hs. rewrite Ho'. apply Hc in Hx as [Hx|Hx%rtc_above].
      * left. by eapply Hst.
      * right. by exists x.
Qed.

(** A step that keeps an invariant and adds the offsets [P]. *)
Definition grew (I : Closure (V := V) → Prop) (P : N → Prop) (w w' : Closure (V := V)) : Prop :=
  I w' ∧ ∀ off, off ∈ w'.(offsets) ↔ off ∈ w.(offsets) ∨ P off.

(** A loop whose rounds each add the offsets of their element. *)
Lemma wp_for_each {A} (I : Closure → Prop) (f : A → W ()) (P : A → N → Prop) l w
    (Q : () → Closure → Prop) :
  I w →
  (∀ x w Q, x ∈ l → I w → (∀ w', grew I (P x) w w' → Q () w') → wp (f x) w Q) →
  (∀ w', grew I (λ off, ∃ x, x ∈ l ∧ P x off) w w' → Q () w') →
  wp (for_each f l) w Q.
Proof.
  revert w. induction l as [|x l IH]; intros w Hw Hf H; cbn [for_each].
  - apply wp_ret, H. split; [done|]. intros off. split; [by left|].
    intros [?|(? & ?%elem_of_nil & _)]; done.
  - apply wp_bind, Hf; [by left|done|]. intros w1 [Hw1 Ho1]. apply IH; [done| |].
    + intros y w0 Q' Hy. apply Hf. by right.
    + intros w2 [Hw2 Ho2]. apply H. split; [done|]. intros off. rewrite Ho2, Ho1.
      setoid_rewrite elem_of_cons. split.
      * intros [[?|?]|(y & ? & ?)]; eauto.
      * intros [?|(y & [->|?] & ?)]; eauto.
Qed.

(** The edges at an id. *)
Definition incident_edges (id : string) : list (N * GraphRecord) :=
  filter (λ p, id ∈ table_keys Table.Adjacency p.2) ps.

Lemma elem_of_incident id p :
  p ∈ incident_edges id ↔ ∃ e, incident id p e.
Proof.
  unfold incident_edges, incident. rewrite list_elem_of_filter, adjacency_keys. naive_solver.
Qed.

Definition anchored_edge (id : string) (p : N * GraphRecord) (off : N) : Prop :=
  ∃ e, p.2 = Edge e
    ∧ (off = p.1 ∨ off ∈ listed Table.DeletedId e.(EdgeRec.id) ps ∨ lineage (other_end id e) off).
Definition expanded_edge (id : string) (p : N * GraphRecord) (off : N) : Prop :=
  anchored_edge id p off
  ∨ ∃ e, p.2 = Edge e ∧ off ∈ listed Table.Adjacency (other_end id e) ps.

Lemma wp_anchor_edge fuel id p w (Q : () → Closure → Prop) :
  (climb_fuel <= fuel)%nat → p ∈ incident_edges id → settled w →
  (∀ w', grows (anchored_edge id p) w w' → Q () w') → wp (anchor_edge fuel id p.1) w Q.
Proof using Hgood.
  intros Hf Hin Hw H. apply elem_of_incident in Hin as (e & Hp & He & _).
  unfold anchor_edge. apply wp_bind, wp_insert. intros w1 H1%adds_grows; [|done].
  apply wp_bind, wp_record; [done|]. intros w2 (Ho & Hx & Hc). rewrite He.
  apply wp_bind, wp_add_edge. intros w3 H3. cbv zeta. fold (other_end id e).
  apply wp_bind, wp_add_id_versions. intros w4 H4.
  pose proof (adds_trans _ _ _ _ _ H3 H4) as H34.
  assert (adds (λ off, off = p.1 ∨ off ∈ listed Table.DeletedId (EdgeRec.id e) ps ∨ versions (other_end id e) off) w1 w4) as H14.
  { destruct H34 as (? & ? & Hoff). split_and!; [congruence..|]. intros off. rewrite Hoff, Ho. tauto. }
  apply adds_grows in H14; [|apply H1].
  apply wp_climb_ancestry; [done|apply H14|]. intros w5 H5. apply H.
  eapply grows_iff; [|exact (know_trans _ _ _ _ _ H1 (know_trans _ _ _ _ _ H14 H5))].
  intros off. unfold anchored_edge, lineage. split.
  - intros Hoff. exists e. tauto.
  - intros (e' & He' & Hoff). replace e' with e in * by congruence. tauto.
Qed.

Lemma wp_expand_edge fuel id p w (Q : () → Closure → Prop) :
  (climb_fuel <= fuel)%nat → p ∈ incident_edges id → settled w →
  (∀ w', grows (expanded_edge id p) w w' → Q () w') → wp (expand_edge fuel id p.1) w Q.
Proof using Hgood.
  intros Hf Hin Hw H. apply elem_of_incident in Hin as (e & Hp & He & _).
  unfold expand_edge. apply wp_bind, wp_insert. intros w1 H1%adds_grows; [|done].
  apply wp_bind, wp_record; [done|]. intros w2 (Ho & Hx & Hc). rewrite He.
  apply wp_bind, wp_add_edge. intros w3 H3. cbv zeta. fold (other_end id e).
  apply wp_bind, wp_add_id_versions. intros w4 H4. apply wp_extend_then. intros w4' H4'.
  pose proof (adds_trans _ _ _ _ _ H3 (adds_trans _ _ _ _ _ H4 H4')) as H34.
  assert (adds (λ off, off = p.1 ∨ off ∈ listed Table.DeletedId (EdgeRec.id e) ps ∨ versions (other_end id e) off
                       ∨ off ∈ listed Table.Adjacency (other_end id e) ps) w1 w4') as H14.
  { destruct H34 as (? & ? & Hoff). split_and!; [congruence..|]. intros off. rewrite Hoff, Ho. tauto. }
  apply adds_grows in H14; [|apply H1].
  apply wp_climb_ancestry; [done|apply H14|]. intros w5 H5. apply H.
  eapply grows_iff; [|exact (know_trans _ _ _ _ _ H1 (know_trans _ _ _ _ _ H14 H5))].
  intros off. unfold expanded_edge, anchored_edge, lineage. split.
  - intros [Hoff|[[Hoff|[Hoff|[Hoff|Hoff]]]|Hoff]];
      first [right; exists e; tauto | left; exists e; tauto].
  - intros [(e' & He' & Hoff)|(e' & He' & Hoff)]; replace e' with e in * by congruence; tauto.
Qed.

Lemma wp_edges fuel id (step : nat → string → N → W ()) (P : N * GraphRecord → N → Prop) w
    (Q : () → Closure → Prop) :
  (∀ p w Q, p ∈ incident_edges id → settled w →
     (∀ w', grows (P p) w w' → Q () w') → wp (step fuel id p.1) w Q) →
  settled w →
  (∀ w', grows (λ off, ∃ p, p ∈ incident_edges id ∧ P p off) w w' → Q () w') →
  wp (for_each (step fuel id) (listed Table.Adjacency id ps)) w Q.
Proof.
  intros Hstep Hw H. unfold listed. fold (incident_edges id).
  assert (for_each (step fuel id) (incident_edges id).*1
          = for_each (λ p, step fuel id p.1) (incident_edges id)) as ->.
  { generalize (incident_edges id). induction l as [|p l IH]; cbn [fmap list_fmap for_each]; [done|].
    by rewrite IH. }
  apply (wp_for_each (λ w', settled w' ∧ w'.(expanded) = w.(expanded)) _ P); [done| |].
  - intros p w1 Q1 Hp [Hw1 He1] HQ. apply Hstep; [done..|]. intros w2 (H1 & H2 & H3).
    apply HQ. split; [split; [done|congruence]|done].
  - intros w' [[Hw' He'] Ho]. by apply H.
Qed.

Lemma anchored_alt id off :
  anchored id off ↔ lineage id off ∨ ∃ p, p ∈ incident_edges id ∧ anchored_edge id p off.
Proof.
  unfold anchored, anchored_edge. setoid_rewrite elem_of_incident. split; (intros [?|H]; [by left|right]).
  - destruct H as (p & e & Hi & Hoff). exists p. split; [by exists e|]. exists e.
    split; [apply Hi|done].
  - destruct H as (p & (e & Hi) & e' & He & Hoff). exists p, e. split; [done|].
    destruct Hi as (_ & He' & _). by replace e with e' by congruence.
Qed.

Lemma neighbourhood_alt id off :
  neighbourhood id off ↔ lineage id off ∨ ∃ p, p ∈ incident_edges id ∧ expanded_edge id p off.
Proof.
  unfold neighbourhood, expanded_edge. rewrite anchored_alt. setoid_rewrite elem_of_incident. split.
  - intros [[?|(p & Hp & ?)]|(p & e & Hi & Hoff)]; [by left|right; exists p; eauto|right].
    exists p. split; [by exists e|]. right. exists e. split; [apply Hi|done].
  - intros [?|(p & (e & Hi) & [?|(e' & He & Hoff)])]; [by left; left|left; right; eauto|right].
    exists p, e. split; [done|]. destruct Hi as (_ & He' & _). by replace e with e' by congruence.
Qed.

Lemma wp_anchor fuel id w (Q : () → Closure → Prop) :
  (climb_fuel <= fuel)%nat → settled w → (∀ w', grows (anchored id) w w' → Q () w') →
  wp (anchor fuel id) w Q.
Proof using Hgood.
  intros Hf Hw H. unfold anchor. apply wp_bind, wp_add_id_versions. intros w1 H1%adds_grows; [|done].
  apply wp_bind, wp_postings. intros w2 (Ho2 & He2 & Hc2).
  assert (settled w2) as Hw2.
  { destruct H1 as [[Hcl Hst] _]. unfold settled. by rewrite Ho2, Hc2. }
  apply wp_bind, (wp_edges _ _ _ (anchored_edge id)); [|done|].
  { intros p w' Q' Hp Hw' HQ. by apply wp_anchor_edge. }
  intros w3 H3. apply wp_climb_ancestry; [done|apply H3|]. intros w4 H4. apply H.
  pose proof (know_trans _ _ _ _ _ H3 H4) as (Hs & He & Ho). split_and!; [done| |].
  - destruct H1 as (_ & ? & _). congruence.
  - intros off. destruct H1 as (_ & _ & Ho1). rewrite Ho, Ho2, Ho1, anchored_alt. unfold lineage. tauto.
Qed.

(** An id that was expanded before has added its neighbourhood already. *)
Definition memoized (w : Closure (V := V)) : Prop :=
  settled w ∧ ∀ x off, x ∈ w.(expanded) → neighbourhood x off → off ∈ w.(offsets).

Lemma wp_expand fuel id w (Q : () → Closure → Prop) :
  (climb_fuel <= fuel)%nat → memoized w → (∀ w', grew memoized (neighbourhood id) w w' → Q () w') →
  wp (expand_by_id fuel id) w Q.
Proof using Hgood.
  intros Hf [Hw Hm] H. unfold expand_by_id. apply wp_bind, wp_gets. case_bool_decide as Hin.
  { apply wp_ret, H. split; [by split|]. intros off. split; [by left|]. intros [?|?]; [done|by eapply Hm]. }
  apply wp_bind, wp_modify; [by destruct w|]. apply wp_bind, wp_add_id_versions.
  intros w1 H1%adds_grows; [|by destruct w].
  apply wp_bind, wp_postings. intros w2 (Ho2 & He2 & Hc2).
  assert (settled w2) as Hw2.
  { destruct H1 as [[Hcl Hst] _]. unfold settled. by rewrite Ho2, Hc2. }
  apply wp_bind, (wp_edges _ _ _ (expanded_edge id)); [|done|].
  { intros p w' Q' Hp Hw' HQ. by apply wp_expand_edge. }
  intros w3 H3. apply wp_climb_ancestry; [done|apply H3|]. intros w4 H4. apply H.
  pose proof (know_trans _ _ _ _ _ H3 H4) as (Hs & He & Ho). destruct H1 as (_ & He1 & Ho1).
  assert (∀ off, off ∈ w4.(offsets) ↔ off ∈ w.(offsets) ∨ neighbourhood id off) as Hoff.
  { intros off. rewrite Ho, Ho2, Ho1, neighbourhood_alt. unfold lineage. destruct w. cbn. tauto. }
  split; [split; [done|]|done]. intros x off. rewrite He, He2, He1, Hoff. destruct w as [v o e c].
  cbn in *. intros [->%elem_of_singleton|Hx]%elem_of_union Hn; [by right|left; by eapply Hm].
Qed.

Lemma wp_collect_ids qs ids w (Q : gset string → Closure → Prop) :
  qs ⊆ ps →
  (∀ ids' w', same_walk w w' →
     (∀ id, id ∈ ids' ↔ id ∈ ids ∨ ∃ p, p ∈ qs ∧ GraphRecord.id p.2 = id) → Q ids' w') →
  wp (collect_ids qs.*1 ids) w Q.
Proof using Hgood.
  revert ids w. induction qs as [|p qs IH]; intros ids w Hsub H; cbn [fmap list_fmap collect_ids].
  - apply wp_ret, H; [done|]. intros id. split; [by left|]. intros [?|(? & ?%elem_of_nil & _)]; done.
  - apply wp_bind, wp_record; [set_solver|]. intros w1 (? & ? & ?). apply IH; [set_solver|].
    intros ids' w' (? & ? & ?) Hids. apply H; [split_and!; congruence|]. intros id.
    rewrite Hids, elem_of_union, elem_of_singleton. setoid_rewrite elem_of_cons. split.
    + intros [[->|?]|(q & ? & ?)]; eauto.
    + intros [?|(q & [->|?] & <-)]; eauto.
Qed.

Lemma wp_ids_at t key w (Q : list string → Closure → Prop) :
  (∀ ids w', same_walk w w' → (∀ id, id ∈ ids ↔ keyed t key id) → Q ids w') →
  wp (ids_at t key) w Q.
Proof using Hgood.
  intros H. apply wp_bind, wp_postings. intros w1 (? & ? & ?). unfold listed.
  apply wp_bind, wp_collect_ids; [intros p; rewrite list_elem_of_filter; tauto|].
  intros ids w2 (? & ? & ?) Hids. apply wp_ret, H; [split_and!; congruence|].
  intros id. rewrite elem_of_iter, Hids, elem_of_empty. unfold keyed.
  setoid_rewrite list_elem_of_filter. naive_solver.
Qed.

(** The walk of a selector from the start. *)
Lemma wp_walk fuel selector (v : V) :
  (climb_fuel <= fuel)%nat → good v →
  ∃ w, walk fuel selector (mk_closure v ∅ ∅ ∅) = Some ((), w) ∧ good w.(view)
       ∧ ∀ off, off ∈ w.(offsets) ↔ in_closure selector off.
Proof using Hgood.
  intros Hf Hv. set (w0 := mk_closure v ∅ ∅ ∅).
  assert (settled w0) as Hs0 by (split; [intros x y ?%elem_of_empty|intros x off ?%elem_of_empty]; done).
  assert (memoized w0) as Hm0 by (split; [done|intros x off ?%elem_of_empty]; done).
  assert (∀ w', same_walk w0 w' → settled w' ∧ memoized w' ∧ w'.(offsets) = ∅) as Hsame.
  { intros [v' o e c] (? & ? & ?). cbn in *. subst. split_and!; [| |done].
    - split; [intros x y ?%elem_of_empty|intros x off ?%elem_of_empty]; done.
    - split; [split; [intros x y ?%elem_of_empty|intros x off ?%elem_of_empty]|intros x off ?%elem_of_empty]; done. }
  assert (wp (walk fuel selector) w0 (λ _ w, ∀ off, off ∈ w.(offsets) ↔ in_closure selector off)) as Hwp.
  2: { specialize (Hwp Hv). destruct (walk fuel selector w0) as [[[] w]|]; [|done]. exists w.
       by destruct Hwp. }
  destruct selector as [|id|name|path|kind|id|id]; cbn [walk in_closure].
  - apply wp_ret. intros off. cbn. set_solver.
  - apply wp_expand; [done..|]. intros w [_ Ho] off. rewrite Ho. cbn. set_solver.
  - apply wp_bind, wp_ids_at. intros ids w1 Hw1 Hids. destruct (Hsame w1 Hw1) as (_ & Hm & Hemp).
    apply (wp_for_each memoized _ neighbourhood); [done| |].
    + intros x w Q _ Hw HQ. by apply wp_expand.
    + intros w [_ Ho] off. rewrite Ho, Hemp. setoid_rewrite Hids. set_solver.
  - apply wp_bind, wp_ids_at. intros ids w1 Hw1 Hids. destruct (Hsame w1 Hw1) as (Hs & _ & Hemp).
    apply wp_bind, (wp_for_each settled _ versions); [done| |].
    { intros x w Q _ Hw HQ. apply wp_add_id_versions. intros w' Ha%adds_grows; [|done].
      apply HQ. split; apply Ha. }
    intros w2 [Hw2 Ho2]. apply (wp_for_each settled _ ancestry); [done| |].
    { intros x w Q _ Hw HQ. apply wp_climb_ancestry; [done..|]. intros w' Hg. apply HQ. split; apply Hg. }
    intros w3 [_ Ho3] off. rewrite Ho3, Ho2, Hemp. setoid_rewrite Hids. unfold lineage. set_solver.
  - apply wp_bind, wp_ids_at. intros ids w1 Hw1 Hids. destruct (Hsame w1 Hw1) as (Hs & _ & Hemp).
    apply (wp_for_each settled _ versions); [done| |].
    { intros x w Q _ Hw HQ. apply wp_add_id_versions. intros w' Ha%adds_grows; [|done].
      apply HQ. split; apply Ha. }
    intros w2 [_ Ho2] off. rewrite Ho2, Hemp. setoid_rewrite Hids. set_solver.
  - apply wp_anchor; [done..|]. intros w (_ & _ & Ho) off. rewrite Ho. cbn. set_solver.
  - apply wp_bind, wp_add_id_versions. intros w1 H1%adds_grows; [|done].
    apply wp_climb_ancestry; [done|apply H1|]. intros w2 H2.
    destruct (know_trans _ _ _ _ _ H1 H2) as (_ & _ & Ho). intros off. rewrite Ho. cbn. set_solver.
Qed.
End Good.
End Spec.

(** ** Hydration *)
Section Hydrate.
Context {J : Type} `{!JsonValue J} {JsonError : Type} (error_to_string : JsonError → string).
Context (from_str_record : string → result GraphRecord JsonError).
Context (from_str_value : string → result J JsonError).
Abbreviation read_record_in_file := (read_record_in_file error_to_string from_str_record from_str_value).
Abbreviation read_record_at := (read_record_at error_to_string from_str_record from_str_value).
Abbreviation indexes := (indexes error_to_string from_str_record from_str_value).
#[local] Existing Instance file_view.
#[local] Instance the_file_view : IndexView FileView :=
  file_view error_to_string from_str_record from_str_value.
#[local] Instance the_mem_view : IndexView MemView :=
  mem_view error_to_string from_str_record from_str_value.

(** Nothing when a selector is [Whole], else the union of the closures. *)
(* graph_index.rs 1015-1021: LazyGraphIndex::hydrate_many *)
Fixpoint union_closures (fuel : nat) (v : FileView) (selectors : list Selector) (offsets : gset N)
    : option (option (gset N) * FileView) :=
  match selectors with
  | [] => Some (Some offsets, v)
  | selector :: selectors =>
      match closure_offsets_in fuel v selector with
      | None => None
      | Some (None, v) => Some (None, v)
      | Some (Some closure, v) =>
          union_closures fuel v selectors (list_to_set closure ∪ offsets)
      end
  end.

(* graph_index.rs 1025-1036: LazyGraphIndex::hydrate_many *)
Fixpoint read_all (graph : bytes) (offsets : list N) : Io (list GraphRecord) :=
  match offsets with
  | [] => Some (Ok [])
  | offset :: offsets =>
      let* read := read_record_in_file graph offset in
      match read with
      | Some record => let* records := read_all graph offsets in Some (Ok (record :: records))
      | None => Some (Err (corrupt ("hydrated line at offset " +:+ dec offset +:+ " did not parse")))
      end
  end.

(* graph_index.rs 1005-1037: LazyGraphIndex::hydrate_many *)
Definition hydrate_many (fuel : nat) (self : FileView) (selectors : list Selector)
    : Io (option (list GraphRecord)) :=
  match union_closures fuel self selectors ∅ with
  | None => None
  | Some (None, _) => Some (Ok None)
  | Some (Some offsets, v) =>
      if v.(failed) then Some (Err (corrupt "index read failed"))
      else let* records := read_all v.(file_index).(LazyGraphIndex.graph) (ascending offsets) in
           Some (Ok (Some records))
  end.

(* graph_index.rs 992-1003: LazyGraphIndex::hydrate *)
Definition hydrate (fuel : nat) (self : FileView) (selector : Selector) : Io (option (list GraphRecord)) :=
  hydrate_many fuel self [selector].

(* graph_index.rs 982-990: LazyGraphIndex::kind_keys *)
Definition kind_keys (self : FileView) : Io (list string) := FileTable.keys (table self Table.Kind).

(* graph_index.rs 805-817: GraphIndex::closure_offsets *)
Definition closure_offsets (fuel : nat) (self : Index.t) (selector : Selector) (graph_bytes : bytes)
    : option (option (list N)) :=
  fst <$> closure_offsets_in fuel (mk_mem self.(Index.body) graph_bytes) selector.

(** *** The offsets and the records of a closure *)
Lemma elem_of_ascending s off : off ∈ ascending s ↔ off ∈ s.
Proof. unfold ascending, sort_unstable. by rewrite merge_sort_Permutation, elem_of_elements. Qed.

Lemma ascending_sorted s : StronglySorted N.lt (ascending s).
Proof.
  assert (StronglySorted N.le (ascending s)) as Hs by (apply StronglySorted_merge_sort; apply _).
  assert (NoDup (ascending s)) as Hnd.
  { unfold ascending, sort_unstable. rewrite merge_sort_Permutation. apply NoDup_elements. }
  induction Hs as [|x l _ IH Hx]; constructor; apply NoDup_cons in Hnd as [Hnx Hnd]; [by apply IH|].
  apply Forall_forall. intros y Hy. rewrite Forall_forall in Hx. specialize (Hx y Hy).
  assert (x ≠ y) by (intros ->; done). lia.
Qed.

(** Two strictly increasing lists with the same elements are equal. *)
Lemma strict_unique l k :
  StronglySorted N.lt l → StronglySorted N.lt k → (∀ x, x ∈ l ↔ x ∈ k) → l = k.
Proof.
  assert (∀ l, StronglySorted N.lt l → NoDup l) as Hnd.
  { induction 1 as [|x l' _ IH Hx]; constructor; [|done]. intros Hin.
    rewrite Forall_forall in Hx. specialize (Hx x Hin). lia. }
  intros Hl Hk Hlk. apply (StronglySorted_unique_strong N.lt); [|done..|].
  - intros x y _ _ Hxy Hyx. lia.
  - apply NoDup_Permutation; [by apply Hnd..|done].
Qed.

(** The pairs whose offset is in a set, and what reading its offsets in order gives. *)
Definition chosen (s : gset N) (ps : list (N * GraphRecord)) : list (N * GraphRecord) :=
  filter (λ p, p.1 ∈ s) ps.

Lemma elem_of_chosen s ps p : p ∈ chosen s ps ↔ p.1 ∈ s ∧ p ∈ ps.
Proof. unfold chosen. by rewrite list_elem_of_filter. Qed.

Lemma ascending_chosen s ps :
  StronglySorted N.lt ps.*1 → (∀ off, off ∈ s → off ∈ ps.*1) → ascending s = (chosen s ps).*1.
Proof.
  intros Hs Hsub. apply strict_unique; [apply ascending_sorted| |].
  - clear Hsub. unfold chosen. induction ps as [|p ps IH]; [constructor|].
    cbn in Hs. inversion Hs as [|? ? Hs' Hp]; subst. rewrite filter_cons. case_decide; [|by apply IH].
    cbn. constructor; [by apply IH|]. apply Forall_forall.
    intros x (q & -> & [_ Hq]%list_elem_of_filter)%list_elem_of_fmap.
    rewrite Forall_forall in Hp. apply Hp, list_elem_of_fmap. eauto.
  - intros off. rewrite elem_of_ascending, list_elem_of_fmap. unfold chosen.
    setoid_rewrite list_elem_of_filter. split.
    + intros Hoff. destruct (proj1 (list_elem_of_fmap _ _ _) (Hsub off Hoff)) as (p & -> & Hp).
      by exists p.
    + intros (p & -> & Hp & _). done.
Qed.

Lemma read_all_chosen graph qs :
  (∀ p, p ∈ qs → read_record_in_file graph p.1 = Some (Ok (Some p.2))) →
  read_all graph qs.*1 = Some (Ok qs.*2).
Proof.
  induction qs as [|p qs IH]; intros H; cbn [fmap list_fmap read_all]; [done|].
  rewrite H by (by left). cbn [io_bind]. by rewrite IH by (intros; apply H; by right).
Qed.

Lemma listed_in t key ps off : off ∈ listed t key ps → off ∈ ps.*1.
Proof. intros (p & Hp & <- & _)%elem_of_listed. apply list_elem_of_fmap. eauto. Qed.

Lemma closure_in ps selector off : in_closure ps selector off → off ∈ ps.*1.
Proof.
  assert (∀ p, p ∈ ps → p.1 ∈ ps.*1) as Hp by (intros p Hp; apply list_elem_of_fmap; eauto).
  assert (∀ id off, versions ps id off → off ∈ ps.*1) as Hv
    by (intros id o [?|?]; by eapply listed_in).
  assert (∀ id off, lineage ps id off → off ∈ ps.*1) as Hl.
  { intros id o [?|(x & _ & p & e & ? & _ & _ & [->|[?|[?|?]]])]; eauto using listed_in. }
  assert (∀ id off, anchored ps id off → off ∈ ps.*1) as Ha.
  { intros id o [?|(p & e & [? _] & [->|[?|?]])]; eauto using listed_in. }
  assert (∀ id off, neighbourhood ps id off → off ∈ ps.*1) as Hn.
  { intros id o [?|(p & e & _ & ?)]; eauto using listed_in. }
  destruct selector; cbn; naive_solver.
Qed.

(** One selector, on either view. *)
Lemma closure_spec {V} `{!IndexView V} (good : V → Prop) ps `{!GoodView ps good} fuel v selector :
  (climb_fuel ps <= fuel)%nat → good v → selector ≠ Whole →
  ∃ s v', closure_offsets_in fuel v selector = Some (Some (ascending s), v') ∧ good v'
          ∧ ∀ off, off ∈ s ↔ in_closure ps selector off.
Proof.
  intros Hf Hv Hs. destruct (wp_walk ps good fuel selector v Hf Hv) as (w & Hw & Hg & Ho).
  exists w.(offsets), w.(view). split_and!; [|done|done]. unfold closure_offsets_in. rewrite Hw.
  by destruct selector.
Qed.

(** *** The two views are good *)
Section Pipeline.
Context (graph : bytes) (ps : list (N * GraphRecord)) (index : Index.t).
Context (Hidx : indexes graph ps index.(Index.body)).

#[local] Instance mem_good : GoodView ps (λ v, v = mk_mem index.(Index.body) graph).
Proof using Hidx.
  destruct Hidx as (_ & Hread & Hmap & _). split.
  - intros v t key ->. eexists. split; [|done]. cbn. rewrite Hmap. by rewrite default_some_list.
  - intros v p -> Hp. eexists. split; [|done]. cbn. by destruct (Hread p Hp) as (_ & -> & _).
Qed.

Context (Hfits : index_fits index).
Context (Hmax : (size (preamble index ++ concat (tables_of index)) <= u64_max)%N).

(** The index as [open] finds it. *)
Definition opened : LazyGraphIndex.t :=
  LazyGraphIndex.mk (preamble index ++ concat (tables_of index)) graph
    (ranges_of PREAMBLE_LEN (tables_of index))
    index.(Index.body).(GraphIndexBody.has_temporal_history).

Lemma opened_table t :
  ∃ pre suf, preamble index ++ concat (tables_of index)
             = pre ++ encode_table (GraphIndexBody.map index.(Index.body) t) ++ suf
    ∧ table (mk_file opened false) t
      = FileTable.mk (pre ++ encode_table (GraphIndexBody.map index.(Index.body) t) ++ suf) (size pre)
          (size (encode_table (GraphIndexBody.map index.(Index.body) t))).
Proof using Hfits.
  clear Hmax Hidx. destruct (table_in_file index Hfits t) as (o & Hr & Hs & Hin).
  set (enc := encode_table _) in *. set (raw := preamble index ++ concat (tables_of index)) in *.
  assert (raw = take (N.to_nat o) raw ++ enc ++ drop (N.to_nat (o + size enc)) raw) as Hraw.
  { rewrite <-Hs at 1. unfold slice. unfold size. rewrite Nat2N.id, N2Nat.inj_add, Nat2N.id.
    rewrite <-drop_drop, take_drop. by rewrite take_drop. }
  exists (take (N.to_nat o) raw), (drop (N.to_nat (o + size enc)) raw). split; [done|].
  unfold table, opened. cbn [file_index LazyGraphIndex.tables LazyGraphIndex.idx]. rewrite Hr.
  cbn [default id]. fold raw. rewrite <-Hraw. f_equal. unfold size in *. rewrite length_take. lia.
Qed.

Lemma opened_lookup t key :
  FileTable.lookup (table (mk_file opened false) t) key = Some (Ok (listed t key ps)).
Proof using Hfits Hidx Hmax.
  destruct (opened_table t) as (pre & suf & Hraw & ->).
  rewrite lookup_encoded.
  - destruct Hidx as (_ & _ & Hmap & _). rewrite Hmap. by rewrite default_some_list.
  - pose proof (fits_tables _ Hfits) as Ht. rewrite Forall_forall in Ht. apply Ht.
    unfold TABLES. rewrite !elem_of_cons. destruct t; tauto.
  - by rewrite <-Hraw.
Qed.

#[local] Instance file_good : GoodView ps (λ v, v = mk_file opened false).
Proof using Hfits Hidx Hmax.
  split.
  - intros v t key ->. eexists. split; [|done]. cbn. unfold file_postings. by rewrite opened_lookup.
  - intros v p -> Hp. eexists. split; [|done]. cbn. unfold file_record_at. cbn.
    destruct Hidx as (_ & Hread & _). by destruct (Hread p Hp) as (_ & _ & ->).
Qed.

(** *** Hydration reads the closures *)
Lemma union_spec fuel selectors acc :
  (climb_fuel ps <= fuel)%nat →
  (Whole ∉ selectors →
     ∃ s, union_closures fuel (mk_file opened false) selectors acc = Some (Some s, mk_file opened false)
          ∧ ∀ off, off ∈ s ↔ off ∈ acc ∨ ∃ selector, selector ∈ selectors ∧ in_closure ps selector off)
  ∧ (Whole ∈ selectors →
     union_closures fuel (mk_file opened false) selectors acc = Some (None, mk_file opened false)).
Proof using Hfits Hidx Hmax.
  intros Hf. revert acc. induction selectors as [|selector selectors IH]; intros acc; cbn [union_closures].
  { split; [|by intros ?%elem_of_nil]. intros _. exists acc. split; [done|]. intros off.
    split; [by left|]. intros [?|(? & ?%elem_of_nil & _)]; done. }
  assert (selector = Whole ∨ selector ≠ Whole) as [->|Hs].
  { destruct selector; (by left) || (by right). }
  { cbn. split; [|done]. intros Hno. destruct Hno. by left. }
  destruct (closure_spec (λ v, v = mk_file opened false) ps fuel _ selector Hf eq_refl Hs)
    as (c & v & -> & -> & Hc).
  destruct (IH (list_to_set (ascending c) ∪ acc)) as [IHs IHw]. split.
  - intros Hno. destruct IHs as (s & -> & Hoff); [by intros ?; destruct Hno; right|].
    exists s. split; [done|]. intros off.
    rewrite Hoff, elem_of_union, elem_of_list_to_set, elem_of_ascending, Hc.
    setoid_rewrite elem_of_cons. split.
    + intros [[?|?]|(x & ? & ?)]; [right; by eauto|by left|right; by eauto].
    + intros [?|(x & [->|?] & ?)]; [left; by right|left; by left|right; by eauto].
  - intros [?|?]%elem_of_cons; [congruence|]. by apply IHw.
Qed.

Lemma hydrate_spec fuel selectors :
  (climb_fuel ps <= fuel)%nat →
  (Whole ∈ selectors → hydrate_many fuel (mk_file opened false) selectors = Some (Ok None))
  ∧ (Whole ∉ selectors →
     ∃ s, hydrate_many fuel (mk_file opened false) selectors = Some (Ok (Some (chosen s ps).*2))
          ∧ ∀ off, off ∈ s ↔ ∃ selector, selector ∈ selectors ∧ in_closure ps selector off).
Proof using Hfits Hidx Hmax.
  intros Hf. destruct (union_spec fuel selectors ∅ Hf) as [Hs Hw]. unfold hydrate_many. split.
  - intros Hin. by rewrite (Hw Hin).
  - intros Hno. destruct (Hs Hno) as (s & -> & Hoff0).
    assert (∀ off, off ∈ s ↔ ∃ selector, selector ∈ selectors ∧ in_closure ps selector off) as Hoff.
    { intros off. rewrite Hoff0, elem_of_empty. tauto. }
    exists s. split; [|done]. cbn [failed file_index].
    destruct Hidx as (Hsorted & Hread & _).
    rewrite (ascending_chosen s ps) by first [done|intros off (? & _ & ?)%Hoff; by eapply closure_in].
    rewrite read_all_chosen; [done|]. intros p [_ Hp]%elem_of_chosen. by apply Hread.
Qed.

Lemma closure_offsets_spec fuel selector :
  (climb_fuel ps <= fuel)%nat → selector ≠ Whole →
  ∃ s, closure_offsets fuel index selector graph = Some (Some (chosen s ps).*1)
       ∧ ∀ off, off ∈ s ↔ in_closure ps selector off.
Proof using Hidx.
  clear Hfits Hmax. intros Hf Hs.
  destruct (closure_spec (λ v, v = mk_mem index.(Index.body) graph) ps fuel _ selector Hf eq_refl Hs)
    as (s & v & Hc & _ & Hoff).
  exists s. split; [|done]. unfold closure_offsets. rewrite Hc. cbn.
  rewrite (ascending_chosen s ps); [done|apply Hidx|].
  intros off Ho%Hoff. by eapply closure_in.
Qed.
End Pipeline.

(** The index answers with the right records. On a written index of a graph, hydrating a
    list of selectors reads, without a failed read, a panic or an unfinished walk, exactly the
    records whose offsets are in the closure of one of the selectors, each once and in file
    order; [Whole] makes it answer nothing. The walk over the index in memory computes the same
    offsets for each selector. A climb per edge of the graph is fuel enough. *)
Theorem hydrate_reads_closures (graph : bytes) (ps : list (N * GraphRecord)) (index : Index.t)
    (fuel : nat) (selectors : list Selector) :
  indexes graph ps index.(Index.body) → index_fits index →
  (size (preamble index ++ concat (tables_of index)) <= u64_max)%N → (climb_fuel ps <= fuel)%nat →
  let self := mk_file (opened graph index) false in
  (Whole ∈ selectors → hydrate_many fuel self selectors = Some (Ok None))
  ∧ (Whole ∉ selectors →
     ∃ s, hydrate_many fuel self selectors = Some (Ok (Some (chosen s ps).*2))
          ∧ ∀ off, off ∈ s ↔ ∃ selector, selector ∈ selectors ∧ in_closure ps selector off)
  ∧ ∀ selector, selector ≠ Whole →
      ∃ s, closure_offsets fuel index selector graph = Some (Some (chosen s ps).*1)
           ∧ ∀ off, off ∈ s ↔ in_closure ps selector off.
Proof.
  intros Hidx Hfits Hmax Hf self. destruct (hydrate_spec graph ps index Hidx Hfits Hmax fuel selectors Hf).
  split_and!; [done..|]. intros selector Hs. by apply (closure_offsets_spec graph ps index Hidx).
Qed.
End Hydrate.

End IndexClosure.
