(* ===== verification/Hydration.v ===== *)
(** * Queries on hydrated records ([src/src/graph_index.rs] with [query/liveness.rs] and
    [query/repo.rs])

    A query that uses the graph index sees the records of a closure instead of the whole log.
    Here the two meet: what [Liveness] and [RepositoryIndex] say of an id is the same on the
    records of a closure that holds the lineage of the id as on all the records. *)
From S2P Require Import Prelude RustStr Ir IrOps SchemaVersion Liveness RepoIndex Ingest IndexTable GraphIndex IndexClosure.
From Stdlib Require Import Ascii NArith.
Import IndexTable GraphIndex IndexClosure.

Module Hydration.

(** [chosen s ps] keeps what a query about [id] needs when [s] holds the offsets of the writes
    of [id] and of the tombstones that retract it. *)
Definition about (id : string) (r : GraphRecord) : Prop :=
  is_write id r = true ∨ is_tombstone_of id r = true.
Definition keeps (s : gset N) (ps : list (N * GraphRecord)) (id : string) : Prop :=
  ∀ p, p ∈ ps → about id p.2 → p.1 ∈ s.

Lemma versions_keep s ps id : (∀ off, versions ps id off → off ∈ s) → keeps s ps id.
Proof.
  intros Hs p Hp Ha. apply Hs. unfold versions. rewrite !elem_of_listed.
  unfold about, is_write, is_node_write, is_edge_write, is_tombstone_of in Ha.
  destruct p as [off [n|e|tb]]; cbn [fst snd] in *;
    (destruct Ha as [Ha|Ha]; rewrite ?orb_false_r in Ha; cbn in Ha; [|try done]);
    try apply String.eqb_eq in Ha; try done.
  - left. eexists. split_and!; [exact Hp|done|]. by apply list_elem_of_singleton.
  - left. eexists. split_and!; [exact Hp|done|]. by apply list_elem_of_singleton.
  - right. eexists. split_and!; [exact Hp|done|]. by apply list_elem_of_singleton.
Qed.

(** Folding over the kept records is folding over all of them when the others do nothing. *)
Lemma foldl_chosen {B} (f : B → GraphRecord → B) s ps b :
  (∀ b p, p ∈ ps → p.1 ∉ s → f b p.2 = b) →
  foldl f b (chosen s ps).*2 = foldl f b ps.*2.
Proof.
  revert b. induction ps as [|p ps IH]; intros b H; [done|]. unfold chosen in *. rewrite filter_cons.
  cbn [fmap list_fmap foldl]. case_decide as Hp; cbn [fmap list_fmap foldl].
  - apply IH. intros b' q Hq. apply H. by right.
  - rewrite (H b p) by (by left || done). apply IH. intros b' q Hq. apply H. by right.
Qed.

Lemma filter_chosen (P : GraphRecord → Prop) `{∀ r, Decision (P r)} s ps :
  (∀ p, p ∈ ps → P p.2 → p.1 ∈ s) → filter P (chosen s ps).*2 = filter P ps.*2.
Proof.
  intros HP. induction ps as [|p ps IH]; [done|]. unfold chosen in *. rewrite filter_cons.
  specialize (IH ltac:(intros; apply HP; [by right|done])).
  case_decide as Hp; cbn [fmap list_fmap]; rewrite !filter_cons, IH; [done|].
  case_decide as HPp; [|done]. destruct Hp. apply HP; [by left|done].
Qed.

Lemma observe_other id st r : ¬ about id r → observe id st r = st.
Proof.
  unfold about, is_write, is_node_write, is_edge_write, is_tombstone_of.
  destruct r as [n|e|tb]; cbn [observe]; rewrite ?orb_false_r; intros Hn; case_match; tauto.
Qed.

Lemma id_state_chosen s ps id :
  keeps s ps id → id_state_of id (chosen s ps).*2 = id_state_of id ps.*2.
Proof.
  intros Hk. apply foldl_chosen. intros st p Hp Hs. apply observe_other.
  intros Ha. apply Hs. by apply Hk.
Qed.

Lemma deleted_chosen s ps id :
  keeps s ps id →
  Liveness.deleted (Liveness.new (chosen s ps).*2) id = Liveness.deleted (Liveness.new ps.*2) id.
Proof.
  intros Hk. apply eq_true_iff_eq. rewrite !deleted_spec, id_state_chosen by done.
  assert (Exists (temporal_write id) (chosen s ps).*2 ↔ Exists (temporal_write id) ps.*2) as ->; [|done].
  rewrite !Exists_exists. setoid_rewrite list_elem_of_fmap. setoid_rewrite elem_of_chosen. split.
  - intros (r & (p & -> & _ & Hp) & Ht). exists p.2. eauto.
  - intros (r & (p & -> & Hp) & Ht). exists p.2. split; [|done]. exists p. split_and!; [done| |done].
    apply Hk; [done|]. left. unfold is_write, is_node_write, is_edge_write.
    destruct (p.2) as [n|e|]; [..|done]; destruct Ht as [<- _]; by rewrite String.eqb_refl.
Qed.

Lemma tombstone_chosen s ps id :
  keeps s ps id →
  Liveness.tombstone_active (Liveness.new (chosen s ps).*2) id
  = Liveness.tombstone_active (Liveness.new ps.*2) id.
Proof. intros Hk. apply eq_true_iff_eq. by rewrite !tombstone_active_spec, id_state_chosen. Qed.

(** ** Last writes *)

(** The record at the last index of a property, without its index. *)
Lemma last_index_filter p (l : list GraphRecord) r :
  (∃ i, l !! i = Some r ∧ last_index p l i) ↔ last (filter (λ r, p r = true) l) = Some r.
Proof.
  induction l as [|x l IH] using rev_ind.
  { split; [intros (i & Hi & _); by rewrite lookup_nil in Hi|done]. }
  rewrite filter_app, filter_cons, filter_nil. setoid_rewrite last_index_snoc.
  destruct (p x) eqn:Hx; case_decide; try congruence.
  - rewrite last_snoc. split.
    + intros (i & Hi & ->). by rewrite list_lookup_middle in Hi.
    + intros [= ->]. exists (length l). split; [by rewrite list_lookup_middle|done].
  - rewrite app_nil_r, <-IH. split; intros (i & Hi & Hl); exists i; (split; [|done]).
    + rewrite lookup_app_l in Hi; [done|]. by eapply last_index_lt.
    + rewrite lookup_app_l; [done|]. by eapply last_index_lt.
Qed.

(** The kind of a node, as the ownership walk sees it. *)
Lemma node_kinds_fold records y :
  node_kinds records !! y
  = foldl (λ o r, match r with
                  | Node n => if n.(NodeRec.id) =s? y
                              then match o with Some k => Some k | None => Some n.(NodeRec.kind) end
                              else o
                  | _ => o end) None records.
Proof.
  unfold node_kinds. induction records as [|r records IH] using rev_ind; [done|].
  rewrite !foldl_app, <-IH. cbn [foldl]. destruct r as [n|e|tb]; [|done..].
  unfold or_insert. set (m := foldl _ _ _). destruct (String.eqb_spec n.(NodeRec.id) y) as [<-|Hne].
  - destruct (m !! NodeRec.id n) eqn:Hm; [done|]. by rewrite lookup_insert_eq.
  - destruct (m !! NodeRec.id n) eqn:Hm; [done|]. by rewrite lookup_insert_ne.
Qed.

Lemma node_kinds_chosen s ps y :
  keeps s ps y → node_kinds (chosen s ps).*2 !! y = node_kinds ps.*2 !! y.
Proof.
  intros Hk. rewrite !node_kinds_fold. apply foldl_chosen. intros o p Hp Hs.
  destruct p as [off [n|e|tb]]; cbn [snd]; [|done..].
  destruct (String.eqb_spec n.(NodeRec.id) y) as [He|]; [|done].
  destruct Hs. apply (Hk _ Hp). left. unfold is_write, is_node_write. cbn. by rewrite He, String.eqb_refl.
Qed.

Lemma node_kinds_elem records y k :
  node_kinds records !! y = Some k → ∃ n, Node n ∈ records ∧ n.(NodeRec.id) = y ∧ n.(NodeRec.kind) = k.
Proof.
  unfold node_kinds. induction records as [|r records IH] using rev_ind; [done|].
  rewrite foldl_app. cbn [foldl]. setoid_rewrite elem_of_app. set (m := foldl _ _ _) in *.
  assert (m !! y = Some k → ∃ n, (Node n ∈ records ∨ Node n ∈ [r]) ∧ n.(NodeRec.id) = y ∧ n.(NodeRec.kind) = k) as Hold.
  { intros (n & ? & ? & ?)%IH. exists n. auto. }
  destruct r as [n|e|tb]; [|exact Hold..]. unfold or_insert.
  destruct (m !! NodeRec.id n) eqn:Hm; [exact Hold|].
  destruct (decide (n.(NodeRec.id) = y)) as [<-|Hne].
  - rewrite lookup_insert_eq. intros [= <-]. exists n. split_and!; [right; by left|done..].
  - by rewrite lookup_insert_ne.
Qed.

(** ** The repositories *)
Definition is_repo (r : string) (rec : GraphRecord) : bool :=
  match rec with
  | Node n => bool_decide (n.(NodeRec.kind) = NodeKind.Repository) && (n.(NodeRec.id) =s? r)
  | _ => false
  end.

Lemma latest_repo_spec records r i :
  latest_repo records !! r = Some i ↔ last_index (is_repo r) records i.
Proof.
  revert i. induction records as [|x records IH] using rev_ind; intros i.
  { split; [done|]. intros [(? & Hi & _) _]. by rewrite lookup_nil in Hi. }
  rewrite last_index_snoc. unfold latest_repo in *. rewrite imap_app, foldl_app.
  set (m := foldl _ _ _) in *. cbn [imap foldl fst snd compose]. rewrite Nat.add_0_r.
  destruct x as [n|e|tb]; cbn [is_repo]; [|apply IH..].
  case_bool_decide as Hk; cbn [andb]; [|apply IH].
  destruct (String.eqb_spec n.(NodeRec.id) r) as [<-|Hne].
  - rewrite lookup_insert_eq. naive_solver.
  - rewrite lookup_insert_ne by done. apply IH.
Qed.

(** What one write contributes to the entries: only the latest of a live repository. *)
Definition repo_entry (records : list GraphRecord) (r : string) (entry : nat * GraphRecord)
    : option RepositoryEntry.t :=
  match entry.2 with
  | Node n =>
      if is_repo r entry.2 && bool_decide (latest_repo records !! r = Some entry.1)
         && negb (Liveness.deleted (Liveness.new records) r)
      then Some (entry_of n) else None
  | _ => None
  end.

Lemma build_repos_head records r :
  build_repos records !! r = head (omap (repo_entry records r) (imap pair records)).
Proof.
  unfold build_repos.
  assert (∀ (es : list (nat * GraphRecord)) (m : gmap string RepositoryEntry.t),
    foldl (λ m entry,
      match entry.2 with
      | Node n =>
          if negb (bool_decide (n.(NodeRec.kind) = NodeKind.Repository)) then m
          else if negb (bool_decide (latest_repo records !! n.(NodeRec.id) = Some entry.1)) then m
          else if Liveness.deleted (Liveness.new records) n.(NodeRec.id) then m
          else match m !! n.(NodeRec.id) with
               | Some _ => m
               | None => <[n.(NodeRec.id) := entry_of n]> m
               end
      | _ => m
      end) m es !! r
    = match m !! r with Some e => Some e | None => head (omap (M := list) (repo_entry records r) es) end) as H.
  2: { rewrite H. by rewrite lookup_empty. }
  induction es as [|[i x] es IH]; intros m; cbn [foldl].
  { cbn. by destruct (m !! r). }
  rewrite IH. cbn [omap list_omap fst snd]. unfold repo_entry at 2. cbn [fst snd].
  destruct x as [n|e|tb]; [|done..]. cbn [is_repo].
  destruct (bool_decide (n.(NodeRec.kind) = NodeKind.Repository)); cbn [negb andb]; [|done].
  destruct (String.eqb_spec n.(NodeRec.id) r) as [<-|Hne]; cbn [andb].
  - destruct (bool_decide _); cbn [negb andb]; [|done].
    destruct (Liveness.deleted _ _); cbn [negb]; [done|].
    destruct (m !! NodeRec.id n) eqn:Hm; [by rewrite Hm|]. by rewrite lookup_insert_eq.
  - destruct (bool_decide _), (Liveness.deleted _ _), (m !! NodeRec.id n); cbn [negb];
      rewrite ?lookup_insert_ne by done; done.
Qed.

Lemma build_repos_lookup records r :
  build_repos records !! r
  = match last (filter (λ rec, is_repo r rec = true) records) with
    | Some (Node n) => if Liveness.deleted (Liveness.new records) r then None else Some (entry_of n)
    | _ => None
    end.
Proof.
  rewrite build_repos_head.
  destruct (last _) as [x|] eqn:Hlast.
  - apply last_index_filter in Hlast as (i & Hi & Hl). pose proof Hl as [(x' & Hx' & Hrepo) _].
    replace x' with x in * by congruence. destruct x as [n|e|tb]; try done.
    pose proof (proj2 (latest_repo_spec records r i) Hl) as HL.
    assert (∀ e, e ∈ omap (repo_entry records r) (imap pair records) →
              Liveness.deleted (Liveness.new records) r = false ∧ e = entry_of n) as Hall.
    { intros e ([j y] & Hin%elem_of_imap_pair & Hy)%list_elem_of_omap. unfold repo_entry in Hy.
      cbn [fst snd] in Hy. destruct y as [m|?|?]; try done.
      destruct (_ && _ && _) eqn:Hc; [|done]. rewrite !andb_true_iff, negb_true_iff in Hc.
      destruct Hc as [[_ Hj%bool_decide_eq_true] Hd]. split; [done|].
      rewrite HL in Hj. simplify_eq. done. }
    destruct (Liveness.deleted (Liveness.new records) r) eqn:Hd.
    + destruct (omap _ _) as [|e es]; [done|]. destruct (Hall e); [by left|done].
    + destruct (omap _ _) as [|e es] eqn:Ho.
      * exfalso. apply (elem_of_nil (A := RepositoryEntry.t) (entry_of n)). rewrite <-Ho.
        apply list_elem_of_omap. exists (i, Node n). split; [by apply elem_of_imap_pair|].
        unfold repo_entry. cbn [fst snd]. rewrite Hrepo, bool_decide_true, Hd by done. done.
      * cbn. f_equal. apply Hall. by left.
  - destruct (omap _ _) as [|e es] eqn:Ho; [done|]. exfalso.
    assert (e ∈ omap (repo_entry records r) (imap pair records)) as Hin by (rewrite Ho; by left).
    apply list_elem_of_omap in Hin as ([j y] & Hj & Hy). unfold repo_entry in Hy. cbn [fst snd] in Hy.
    destruct y as [m|?|?]; try done. destruct (_ && _ && _) eqn:Hc; [|done].
    rewrite !andb_true_iff in Hc. destruct Hc as [[_ Hl%bool_decide_eq_true] _].
    apply latest_repo_spec in Hl. apply elem_of_imap_pair in Hj.
    pose proof (proj1 (last_index_filter _ _ _) (ex_intro _ j (conj Hj Hl))) as Hx. congruence.
Qed.

(** The entry of a repository whose writes are kept is the same. *)
Lemma build_repos_chosen s ps r :
  keeps s ps r → build_repos (chosen s ps).*2 !! r = build_repos ps.*2 !! r.
Proof.
  intros Hk. rewrite !build_repos_lookup, deleted_chosen by done. rewrite filter_chosen; [done|].
  intros p Hp Hr. apply Hk; [done|]. left. unfold is_write, is_node_write.
  destruct (p.2) as [n|e|tb]; try done. cbn in Hr. apply andb_prop in Hr as [_ ->]. done.
Qed.

(** ** The last of the repositories that contain a record *)
Lemma last_containing_max adjacency ids x r :
  StronglySorted str_lt ids →
  last_containing adjacency ids x r ↔
  r ∈ ids ∧ rtc (contains adjacency) r x
  ∧ ∀ r', r' ∈ ids → rtc (contains adjacency) r' x → String.le r' r.
Proof.
  intros Hs. unfold last_containing. split.
  - intros (i & Hi & Hr & Hl). split_and!; [by eapply list_elem_of_lookup_2|done|].
    intros r' [j Hj]%list_elem_of_lookup Hr'. destruct (Nat.lt_trichotomy i j) as [Hij|[->|Hij]].
    + by destruct (Hl j r' Hij Hj).
    + by replace r' with r by congruence.
    + apply (ssorted_lookup _ _ _ _ _ _ Hs Hj Hi Hij).
  - intros ([i Hi]%list_elem_of_lookup & Hr & Hmax). exists i. split_and!; [done..|].
    intros j r' Hij Hj Hr'. destruct (ssorted_lookup _ _ _ _ _ _ Hs Hi Hj Hij) as [Hle Hne].
    apply Hne. apply (anti_symm String.le); [done|].
    apply Hmax; [by eapply list_elem_of_lookup_2|done].
Qed.

(** ** Containment on the hydrated records *)

(** An edge id is minted from the label and the ends of the edge: all that is written under it is
    an edge with the same label, source and target. *)
Definition edge_ids_fixed (ps : list (N * GraphRecord)) : Prop :=
  ∀ p e q, p ∈ ps → p.2 = Edge e → q ∈ ps → is_write e.(EdgeRec.id) q.2 = true →
    ∃ e', q.2 = Edge e' ∧ e'.(EdgeRec.label) = e.(EdgeRec.label)
          ∧ e'.(EdgeRec.source) = e.(EdgeRec.source) ∧ e'.(EdgeRec.target) = e.(EdgeRec.target).

Section Lineage.
Context (s : gset N) (ps : list (N * GraphRecord)) (id : string).
Context (Hs : ∀ off, lineage ps id off → off ∈ s) (Hfixed : edge_ids_fixed ps).
Abbreviation cold := (ps.*2).
Abbreviation hot := ((chosen s ps).*2).

(** The id and its ancestors are kept, and so are the edges that contain them. *)
Lemma ancestor_kept x : rtc (parent ps) id x → keeps s ps x.
Proof using Hs.
  clear Hfixed. intros Hx. apply versions_keep. intros off Hoff. apply Hs.
  apply rtc_inv_r in Hx as [->|(y & Hy & p & e & Hp & He & Hpe & <-)]; [by left|].
  right. exists y. split; [done|]. exists p, e. split_and!; [done..|]. right. right. by left.
Qed.

Lemma parent_edge_kept x p e :
  rtc (parent ps) id x → p ∈ ps → p.2 = Edge e → parent_edge ps x e →
  keeps s ps e.(EdgeRec.id).
Proof using Hs Hfixed.
  intros Hx Hp He Hpe q Hq Hab. apply Hs. right. exists x. split; [done|].
  destruct (is_write e.(EdgeRec.id) q.2) eqn:Hw.
  - destruct (Hfixed p e q Hp He Hq Hw) as (e' & He' & Hl & _ & Ht).
    exists q, e'. split_and!; [done..| |by left]. unfold parent_edge. by rewrite Hl, Ht.
  - exists p, e. split_and!; [done..|]. right. left. apply elem_of_listed. exists q.
    split_and!; [done..|]. destruct Hab as [?|Ht]; [congruence|]. unfold is_tombstone_of in Ht.
    destruct (q.2) as [|?|tb]; try done. apply String.eqb_eq in Ht. by apply list_elem_of_singleton.
Qed.

(** The last version of a kept edge. *)
Lemma latest_edge_kept e :
  keeps s ps e.(EdgeRec.id) →
  (∃ i, cold !! i = Some (Edge e)
        ∧ Liveness.is_latest_edge_version (Liveness.new cold) e.(EdgeRec.id) i = true)
  ↔ (∃ i, hot !! i = Some (Edge e)
        ∧ Liveness.is_latest_edge_version (Liveness.new hot) e.(EdgeRec.id) i = true).
Proof using.
  intros Hk. setoid_rewrite is_latest_edge_version_spec. rewrite !last_index_filter.
  rewrite filter_chosen; [done|]. intros p Hp Hw. apply Hk; [done|]. left. unfold is_write.
  rewrite Hw. apply orb_true_r.
Qed.

Lemma containment_parent x y : containment_edge cold x y → parent ps y x.
Proof using.
  intros (i & e & Hi & <- & <- & Hl & _ & _). apply list_elem_of_lookup_2 in Hi.
  apply list_elem_of_fmap in Hi as (p & Hp & Hin). exists p, e. split_and!; [done..| |done].
  split; [done|]. destruct Hl as [?|[Himp Hk]]; [by left|right]. split; [done|].
  apply node_kinds_elem in Hk as (n & Hn & Hid & Hkind).
  apply list_elem_of_fmap in Hn as (q & Hq & Hqin). by exists q, n.
Qed.

Lemma containment_kept x y :
  rtc (parent ps) id y → containment_edge cold x y ↔ containment_edge hot x y.
Proof using Hs Hfixed.
  intros Hy. pose proof (node_kinds_chosen s ps y (ancestor_kept y Hy)) as Hkinds.
  assert (∀ e, Edge e ∈ cold → e.(EdgeRec.target) = y →
    (e.(EdgeRec.label) ∈ [EdgeLabel.Contains; EdgeLabel.Defines]
     ∨ e.(EdgeRec.label) = EdgeLabel.Imports ∧ node_kinds cold !! y = Some NodeKind.Import) →
    keeps s ps e.(EdgeRec.id)) as Hkeep.
  { intros e (p & Hp & Hin)%list_elem_of_fmap Ht Hl. apply (parent_edge_kept y p); [done..|].
    split; [done|]. destruct Hl as [?|[? Hk]]; [by left|right]. split; [done|].
    apply node_kinds_elem in Hk as (n & Hn & Hid & Hkind).
    apply list_elem_of_fmap in Hn as (q & Hq & Hqin). by exists q, n. }
  split; intros (i & e & Hi & Hx & Ht & Hl & Hd & Hlast).
  - assert (keeps s ps e.(EdgeRec.id)) as Hk by (apply Hkeep; [by eapply list_elem_of_lookup_2|done..]).
    destruct (proj1 (latest_edge_kept e Hk)) as (j & Hj & Hjl); [by exists i|].
    exists j, e. rewrite deleted_chosen, Hkinds by done. done.
  - rewrite Hkinds in Hl.
    assert (Edge e ∈ cold) as Hin.
    { apply list_elem_of_lookup_2, list_elem_of_fmap in Hi as (p & Hp & [_ Hin]%elem_of_chosen).
      apply list_elem_of_fmap. by exists p. }
    assert (keeps s ps e.(EdgeRec.id)) as Hk by by apply Hkeep.
    destruct (proj2 (latest_edge_kept e Hk)) as (j & Hj & Hjl); [by exists i|].
    rewrite deleted_chosen in Hd by done. by exists j, e.
Qed.

Lemma containing_kept r :
  rtc (contains (containment cold)) r id ↔ rtc (contains (containment hot)) r id.
Proof using Hs Hfixed.
  assert (∀ r, rtc (contains (containment cold)) r id →
            rtc (parent ps) id r ∧ rtc (contains (containment hot)) r id) as Hch.
  { apply rtc_ind_l; [done|]. intros x y Hxy _ [Hy Hyh]. apply contains_spec in Hxy. split.
    - eapply rtc_r; [done|]. by apply containment_parent.
    - eapply rtc_l; [|done]. apply contains_spec. by apply containment_kept. }
  split; [by intros [_ ?]%Hch|]. intros Hr.
  enough (rtc (parent ps) id r ∧ rtc (contains (containment cold)) r id) by tauto.
  revert r Hr. apply rtc_ind_l; [done|]. intros x y Hxy _ [Hy Hyc].
  apply contains_spec, containment_kept in Hxy; [|done]. split.
  - eapply rtc_r; [done|]. by apply containment_parent.
  - eapply rtc_l; [|done]. by apply contains_spec.
Qed.

Lemma containing_ancestor r :
  rtc (contains (containment cold)) r id → rtc (parent ps) id r.
Proof using.
  revert r. apply rtc_ind_l; [done|]. intros x y Hxy _ Hy.
  eapply rtc_r; [done|]. by apply containment_parent, contains_spec.
Qed.

Lemma attribution_kept r :
  last_containing (containment cold) (keys (build_repos cold)) id r
  ↔ last_containing (containment hot) (keys (build_repos hot)) id r.
Proof using Hs Hfixed.
  rewrite !last_containing_max by apply str_sort_strict, NoDup_elements.
  setoid_rewrite keys_elem.
  assert (∀ r, rtc (contains (containment cold)) r id →
            is_Some (build_repos cold !! r) ↔ is_Some (build_repos hot !! r)) as Hrepo.
  { intros r' Hr'. by rewrite build_repos_chosen by by apply ancestor_kept, containing_ancestor. }
  split.
  - intros (Hr & Hc & Hmax). split_and!; [by apply Hrepo|by apply containing_kept|].
    intros r' Hr' Hc'%containing_kept. apply Hmax; [by apply Hrepo|done].
  - intros (Hr & Hc%containing_kept & Hmax). split_and!; [by apply Hrepo|done|].
    intros r' Hr' Hc'. apply Hmax; [by apply Hrepo|by apply containing_kept].
Qed.
End Lineage.

(** ** What a query sees *)
Lemma lineage_in_closure ps selector id off :
  selector ∈ [ById id; Anchored id; Lineage id] → lineage ps id off → in_closure ps selector off.
Proof.
  rewrite !elem_of_cons, elem_of_nil. intros [->|[->|[->|[]]]] Hl; cbn; [left|..|done]; by left.
Qed.

Lemma build_total records :
  ∃ idx, RepoIndex.build records = Some idx ∧ idx.(RepositoryIndex.repos) = build_repos records.
Proof. destruct (build_eq records) as (_ & _ & _ & ? & _ & Hb). by eexists. Qed.

(** What the ownership walk attributes to a repository ends up there, in its current version. *)
Lemma owner_of_last records idx id r :
  RepoIndex.build records = Some idx →
  last_containing (containment records) (keys (build_repos records)) id r →
  owner_of idx id = Some (current idx r).
Proof.
  intros Hb Hl. destruct (build_eq records) as (owner & _ & Hspec & owner' & [Hsub _] & Hbuild).
  rewrite Hbuild in Hb. injection Hb as <-.
  unfold owner_of, current. cbn. apply Hspec in Hl. rewrite lookup_fmap.
  by rewrite (lookup_weaken _ _ _ _ Hl Hsub).
Qed.

(** C31: a query about one record may use the index. Whatever selector it hydrates for the record
    (its neighbourhood, its anchor or its lineage), the tombstone of the record is active, and
    the record is deleted, on the hydrated records exactly when it is on the whole log; and when
    edge ids determine their edges, the containment walk of the repository index gives it the
    same repository with the same entry. Both indexes are built, and the owner each reports is
    the version it takes for the current one of that repository. *)
Theorem hydration_preserves_queries {J : Type} `{!JsonValue J} {JsonError : Type}
    (error_to_string : JsonError → string) (from_str_record : string → result GraphRecord JsonError)
    (from_str_value : string → result J JsonError)
    (graph : bytes) (ps : list (N * GraphRecord)) (index : Index.t) (selector : Selector) (id : string) :
  indexes error_to_string from_str_record from_str_value graph ps index.(Index.body) →
  index_fits index →
  (size (preamble index ++ concat (tables_of index)) <= u64_max)%N →
  selector ∈ [ById id; Anchored id; Lineage id] →
  ∃ hot,
    hydrate error_to_string from_str_record from_str_value (climb_fuel ps)
      (mk_file (opened graph index) false) selector = Some (Ok (Some hot))
    ∧ hot `sublist_of` ps.*2
    ∧ Liveness.tombstone_active (Liveness.new hot) id = Liveness.tombstone_active (Liveness.new ps.*2) id
    ∧ Liveness.deleted (Liveness.new hot) id = Liveness.deleted (Liveness.new ps.*2) id
    ∧ (edge_ids_fixed ps →
       ∃ hot_index cold_index,
         RepoIndex.build hot = Some hot_index ∧ RepoIndex.build ps.*2 = Some cold_index
         ∧ ∀ r, (last_containing (containment hot) (repository_ids hot_index) id r
                 ↔ last_containing (containment ps.*2) (repository_ids cold_index) id r)
                ∧ (last_containing (containment hot) (repository_ids hot_index) id r →
                   owner_of hot_index id = Some (current hot_index r)
                   ∧ owner_of cold_index id = Some (current cold_index r)
                   ∧ hot_index.(RepositoryIndex.repos) !! r
                     = cold_index.(RepositoryIndex.repos) !! r)).
Proof.
  intros Hidx Hfits Hmax Hsel.
  destruct (hydrate_spec error_to_string from_str_record from_str_value graph ps index Hidx Hfits Hmax
    (climb_fuel ps) [selector] (Nat.le_refl _)) as [_ Hh].
  destruct Hh as (s & Hh & Hs).
  { intros <-%list_elem_of_singleton. rewrite !elem_of_cons, elem_of_nil in Hsel.
    by destruct Hsel as [?|[?|[?|?]]]. }
  assert (∀ off, lineage ps id off → off ∈ s) as Hl.
  { intros off Hoff. apply Hs. exists selector. split; [by left|]. by eapply lineage_in_closure. }
  assert (keeps s ps id) as Hk by (apply versions_keep; intros off Hoff; apply Hl; by left).
  exists (chosen s ps).*2. split_and!; [done| |by apply tombstone_chosen|by apply deleted_chosen|].
  { unfold chosen. clear. induction ps as [|p ps IH]; [done|]. rewrite filter_cons.
    case_decide; cbn; [by apply sublist_skip|by apply sublist_cons]. }
  intros Hfixed.
  destruct (build_total (chosen s ps).*2) as (hi & Hbh & Hrh).
  destruct (build_total ps.*2) as (ci & Hbc & Hrc).
  exists hi, ci. split_and!; [done|done|]. intros r. unfold repository_ids. rewrite Hrh, Hrc.
  pose proof (attribution_kept s ps id Hl Hfixed r) as Hiff. split; [done|]. intros Hot.
  pose proof (proj2 Hiff Hot) as Hcold. split_and!; [by eapply owner_of_last..|].
  apply build_repos_chosen. eapply ancestor_kept; [exact Hl|]. apply containing_ancestor.
  apply last_containing_max in Hcold; [apply Hcold|]. apply str_sort_strict, NoDup_elements.
Qed.

(** ** Examples *)
Module Demo.
Definition ps : list (N * GraphRecord) :=
  [(0, GraphIndex.Demo.file_node); (3, GraphIndex.Demo.calls); (6, GraphIndex.Demo.file_node)]%N.
Abbreviation demo_indexes :=
  (indexes (λ e : string, e) GraphIndex.Demo.from_str_record GraphIndex.Demo.from_str_value).

Lemma ps_indexed : demo_indexes GraphIndex.Demo.graph ps GraphIndex.Demo.index.(Index.body).
Proof.
  assert (GraphIndex.Demo.index.(Index.body) = sort_tables (foldl add_record GraphIndexBody.default ps))
    as -> by (vm_compute; reflexivity).
  apply (built_body (λ e : string, e) GraphIndex.Demo.from_str_record GraphIndex.Demo.from_str_value
           (λ _, "utf-8")). vm_compute. reflexivity.
Qed.

Lemma raw_fits :
  (size (preamble GraphIndex.Demo.index ++ concat (tables_of GraphIndex.Demo.index)) <= u64_max)%N.
Proof. vm_compute. discriminate. Qed.

(** A repository written under two schema versions, and a file that only the first contains. *)
Definition repo (v : string) : GraphRecord :=
  GraphRecord.node ("codegraph:" +:+ v +:+ ":aa") NodeKind.Repository None None (Some "r") "".
Definition versioned : list GraphRecord :=
  [repo "v1"; repo "v2"; GraphIndex.Demo.file_node;
   GraphRecord.edge (λ s, s) EdgeLabel.Contains "codegraph:v1:aa" "f" None ""].
(** What the lineage of the file leaves out is the second version of the repository. *)
Definition hydrated : list GraphRecord :=
  [repo "v1"; GraphIndex.Demo.file_node;
   GraphRecord.edge (λ s, s) EdgeLabel.Contains "codegraph:v1:aa" "f" None ""].

(** A view straight on the list of records. *)
#[local] Instance list_view : IndexView (list (N * GraphRecord)) := {|
  view_postings ps t key := Some (listed t key ps, ps);
  view_record_at ps off := Some (snd <$> List.find (λ p : N * GraphRecord, (p.1 =? off)%N) ps, ps)
|}.

(** The owner a query over the index reports need not be the one the cold scan reports: the
    closure does not hold the later version of the repository that the ownership index translates
    to. *)
Definition numbered : list (N * GraphRecord) :=
  List.map (λ p : nat * GraphRecord, (N.of_nat p.1, p.2)) (imap pair versioned).
Definition lineage_of_f : list GraphRecord :=
  match closure_offsets_in (climb_fuel numbered) numbered (Lineage "f") with
  | Some (Some offsets, _) => (chosen (list_to_set offsets) numbered).*2
  | _ => []
  end.
Definition owner_in (records : list GraphRecord) : option string :=
  match RepoIndex.build records with Some idx => owner_of idx "f" | None => None end.
Example owner_of_other_version :
  lineage_of_f = hydrated
  ∧ owner_in versioned = Some "codegraph:v2:aa" ∧ owner_in hydrated = Some "codegraph:v1:aa".
Proof. split_and!; vm_compute; reflexivity. Qed.
End Demo.

Lemma hydration_preserves_queries_witness :
  ∃ hot,
    hydrate (λ e : string, e) GraphIndex.Demo.from_str_record GraphIndex.Demo.from_str_value
      (climb_fuel Demo.ps) (mk_file (opened GraphIndex.Demo.graph GraphIndex.Demo.index) false)
      (Lineage "f") = Some (Ok (Some hot))
    ∧ hot `sublist_of` Demo.ps.*2.
Proof.
  destruct (hydration_preserves_queries _ _ _ GraphIndex.Demo.graph Demo.ps GraphIndex.Demo.index
    (Lineage "f") "f" Demo.ps_indexed demo_fits Demo.raw_fits) as (hot & Hh & Hs & _).
  - right. right. by left.
  - exact (ex_intro _ hot (conj Hh Hs)).
Defined.

Lemma hydrate_reads_closures_witness :
  hydrate_many (λ e : string, e) GraphIndex.Demo.from_str_record GraphIndex.Demo.from_str_value
    (climb_fuel Demo.ps) (mk_file (opened GraphIndex.Demo.graph GraphIndex.Demo.index) false)
    [Lineage "f"; Whole] = Some (Ok None).
Proof.
  refine (proj1 (hydrate_reads_closures (λ e : string, e) GraphIndex.Demo.from_str_record
    GraphIndex.Demo.from_str_value GraphIndex.Demo.graph Demo.ps GraphIndex.Demo.index
    (climb_fuel Demo.ps) [Lineage "f"; Whole] Demo.ps_indexed demo_fits Demo.raw_fits (Nat.le_refl _)) _).
  right. by left.
Defined.
End Hydration.
