(* ===== verification/CrateOwner.v ===== *)
(** * Owning Cargo package of a code fact

    [src/src/crate_attribution.rs], the reader gates of [CrateAttribution] in
    [src/src/ir.rs] and [package_name_is_valid] of [src/src/manifest_deps.rs]: the
    nearest enclosing manifest names the package that owns a path, the readers
    accept exactly the values that rule can produce ([presentable_is_producible]),
    and stamping a record changes nothing else of it. *)
From S2P Require Import Prelude RustStr Ir IrOps.

(** ** Manifest facts *)

Module ManifestParseOutcome.
(* crate_attribution.rs 67-89: ManifestParseOutcome *)
Inductive t : Type :=
| Package (name : string)
| UnnamedPackage
| Virtual
| UnusableManifest
| Unparseable
| Unreadable.

#[global] Instance t_eq_dec : EqDecision t.
Proof. solve_decision. Defined.

(** The position of the variant in the declaration. *)
Definition discriminant (self : t) : nat :=
  match self with
  | Package _ => 0
  | UnnamedPackage => 1
  | Virtual => 2
  | UnusableManifest => 3
  | Unparseable => 4
  | Unreadable => 5
  end.

(** The derived [Ord]: by variant, then by field. *)
(* crate_attribution.rs 66-66: ManifestParseOutcome: Ord *)
Definition cmp (a b : t) : comparison :=
  match a, b with
  | Package n, Package m => String.compare n m
  | _, _ => Nat.compare (discriminant a) (discriminant b)
  end.
End ManifestParseOutcome.
Import (notations) ManifestParseOutcome.

(** The file name of a manifest. *)
(* crate_attribution.rs 135-135: MANIFEST_FILE_NAME *)
Definition MANIFEST_FILE_NAME : string := "Cargo.toml".

(** [char::is_ascii_alphabetic]. *)
Definition char_is_ascii_alphabetic (c : N) : bool :=
  ((65 <=? c) && (c <=? 90) || (97 <=? c) && (c <=? 122))%N.

(** A drive prefix: one letter and a colon, nothing else. *)
(* crate_attribution.rs 233-239: is_repo_relative_path *)
Definition is_drive (first : string) : bool :=
  match chars first with
  | [letter; colon] => (colon =? 58)%N && char_is_ascii_alphabetic letter
  | _ => false
  end.

(* crate_attribution.rs 245-245: is_repo_relative_path *)
Definition bad_segment (segment : string) : bool :=
  (segment =s? "") || (segment =s? ".") || (segment =s? "..").

(* crate_attribution.rs 212-250: is_repo_relative_path *)
Definition is_repo_relative_path (path : string) : bool :=
  if (path =s? "") || starts_with path "/" then false
  else if negb (free_of NUL path) then false
  else if match head (split_char SLASH path) with
          | Some first => is_drive first
          | None => false
          end then false
  else if existsb bad_segment (split_char SLASH path) then false
  else true.

(* crate_attribution.rs 189-194: manifest_path_is_repo_relative *)
Definition manifest_path_is_repo_relative (path : string) : bool :=
  is_repo_relative_path path
    && bool_decide (last (split_char SLASH path) = Some MANIFEST_FILE_NAME).

Module ManifestPackageFact.
(* crate_attribution.rs 93-99: ManifestPackageFact *)
Record t : Type := mk {
  manifest_repo_relative_path : string;
  outcome : ManifestParseOutcome.t
}.

(* crate_attribution.rs 103-112: ManifestPackageFact::new *)
Definition new (path : string) (outcome : ManifestParseOutcome.t) : t := mk path outcome.

(** The derived [Ord]. *)
(* crate_attribution.rs 92-92: ManifestPackageFact: Ord *)
Definition cmp (a b : t) : comparison :=
  then_cmp (String.compare a.(manifest_repo_relative_path) b.(manifest_repo_relative_path))
    (ManifestParseOutcome.cmp a.(outcome) b.(outcome)).

(** [str::split] yields at least one segment, so [segments.pop()?] never returns. *)
(* crate_attribution.rs 120-128: ManifestPackageFact::directory_key *)
Definition directory_key (self : t) : option string :=
  let path := self.(manifest_repo_relative_path) in
  if negb (manifest_path_is_repo_relative path) then None
  else
    match split_char SLASH path with
    | [] => None
    | segments => Some (join "/" (removelast segments))
    end.
End ManifestPackageFact.

(** ** The walk *)

(** The [while] loop: every round pops a segment, so their number is fuel enough. *)
(* crate_attribution.rs 381-387: ancestor_dirs *)
Fixpoint ancestor_loop (fuel : nat) (segments dirs : list string) : list string :=
  match fuel with
  | O => dirs
  | S fuel =>
      match segments with
      | [] => dirs
      | _ => ancestor_loop fuel (removelast segments) (dirs ++ [join "/" segments])
      end
  end.

(** [s.split('/').filter(|segment| !segment.is_empty())] without its last element. *)
(* crate_attribution.rs 375-380: ancestor_dirs *)
Definition parent_segments (path : string) : list string :=
  removelast (filter (λ s, s ≠ "") (split_char SLASH path)).

(* crate_attribution.rs 374-388: ancestor_dirs *)
Definition ancestor_dirs (repo_relative_path : string) : list string :=
  let segments := parent_segments repo_relative_path in
  ancestor_loop (length segments) segments [] ++ [""].

(* crate_attribution.rs 416-436: manifest_encloses *)
Definition manifest_encloses (manifest record : string) : bool :=
  if negb (is_repo_relative_path record) then false
  else
    let manifest_dir := join "/" (parent_segments manifest) in
    bool_decide (manifest_dir ∈ ancestor_dirs record).

(** ** The index *)

Module CrateAttributionIndex.
(* crate_attribution.rs 258-261: CrateAttributionIndex *)
Record t : Type := mk {
  by_dir : gmap string ManifestParseOutcome.t;
  manifest_by_dir : gmap string string
}.

(** One round of the loop of [from_facts]. *)
(* crate_attribution.rs 278-287: CrateAttributionIndex::from_facts *)
Definition add_fact (self : t) (fact : ManifestPackageFact.t) : t :=
  match ManifestPackageFact.directory_key fact with
  | None => self
  | Some dir =>
      if is_some (self.(by_dir) !! dir) then self
      else
        self{{ manifest_by_dir ::=
                 <[dir := fact.(ManifestPackageFact.manifest_repo_relative_path)]>;
               by_dir ::= <[dir := fact.(ManifestPackageFact.outcome)]> }}
  end.

(* crate_attribution.rs 274-292: CrateAttributionIndex::from_facts *)
Definition from_facts (facts : list ManifestPackageFact.t) : t :=
  foldl add_fact (mk ∅ ∅) (sort_by ManifestPackageFact.cmp facts).

End CrateAttributionIndex.

(* ir.rs 4975-4985: CrateAttribution::attributed *)
Definition attributed (package_name manifest : string) : CrateAttribution.t :=
  CrateAttribution.mk CrateAttributionStatus.Attributed (Some package_name)
    (Some manifest) None.
(* ir.rs 4989-4996: CrateAttribution::unattributed *)
Definition unattributed (reason : CrateAttributionReason.t) : CrateAttribution.t :=
  CrateAttribution.mk CrateAttributionStatus.Unattributed None None (Some reason).

Module Walk.
Import CrateAttributionIndex.

(** The loop over the ancestor directories, nearest first. *)
(* crate_attribution.rs 301-342: CrateAttributionIndex::attribution_for *)
Fixpoint walk (self : t) (saw_virtual : bool) (dirs : list string) : CrateAttribution.t :=
  match dirs with
  | [] =>
      unattributed (if saw_virtual then CrateAttributionReason.VirtualManifestOnly
                    else CrateAttributionReason.NoEnclosingManifest)
  | dir :: dirs =>
      match self.(by_dir) !! dir with
      | None => walk self saw_virtual dirs
      | Some outcome =>
          let manifest := default "" (self.(manifest_by_dir) !! dir) in
          match outcome with
          | ManifestParseOutcome.Package name => attributed name manifest
          | ManifestParseOutcome.UnnamedPackage =>
              unattributed CrateAttributionReason.UnnamedPackage
          | ManifestParseOutcome.Unparseable =>
              unattributed CrateAttributionReason.UnparseableManifest
          | ManifestParseOutcome.UnusableManifest =>
              unattributed CrateAttributionReason.UnusableManifest
          | ManifestParseOutcome.Unreadable =>
              unattributed CrateAttributionReason.ManifestUnreadable
          | ManifestParseOutcome.Virtual => walk self true dirs
          end
      end
  end.

(* crate_attribution.rs 299-343: CrateAttributionIndex::attribution_for *)
Definition attribution_for (self : t) (repo_relative_path : string) : CrateAttribution.t :=
  walk self false (ancestor_dirs repo_relative_path).

(** [Vec::dedup] of a sorted list of strings. *)
Fixpoint dedup (l : list string) : list string :=
  match l with
  | x :: ((y :: _) as l') => if x =s? y then dedup l' else x :: dedup l'
  | _ => l
  end.

(** The values of a [BTreeMap] come in key order; the sort makes that order immaterial. *)
(* crate_attribution.rs 347-359: CrateAttributionIndex::package_names *)
Definition package_names (self : t) : list string :=
  dedup (str_sort (omap (λ e : string * ManifestParseOutcome.t,
    match e.2 with ManifestParseOutcome.Package name => Some name | _ => None end)
    (map_to_list self.(by_dir)))).

(* crate_attribution.rs 363-365: CrateAttributionIndex::is_empty *)
Definition is_empty (self : t) : bool := bool_decide (self.(by_dir) = ∅).
End Walk.
Import Walk.

(** ** The reader gates *)

(** [unicode_ident] classifies code points by the XID properties. *)
Section Gates.
Context (is_xid_start is_xid_continue : N → bool).

(* manifest_deps.rs 997-1004: package_name_is_valid *)
Definition package_name_is_valid (name : string) : bool :=
  match chars name with
  | [] => false
  | first :: rest =>
      (is_xid_start first || (first =? 95)%N)
        && forallb (λ c, is_xid_continue c || (c =? 45)%N) rest
  end.

(* ir.rs 4864-4876: CrateAttribution::owning_package *)
Definition owning_package (self : CrateAttribution.t) : option (string * string) :=
  if negb (bool_decide (self.(CrateAttribution.status) = CrateAttributionStatus.Attributed))
     || is_some self.(CrateAttribution.unattributed_reason) then None
  else
    match self.(CrateAttribution.package_name),
          self.(CrateAttribution.manifest_repo_relative_path) with
    | Some name, Some manifest =>
        if negb (package_name_is_valid name)
           || negb (manifest_path_is_repo_relative manifest) then None
        else Some (name, manifest)
    | _, _ => None
    end.

(* ir.rs 4893-4899: CrateAttribution::owning_package_for *)
Definition owning_package_for (self : CrateAttribution.t) (record_path : string)
  : option (string * string) :=
  match owning_package self with
  | None => None
  | Some (name, manifest) =>
      if negb (manifest_encloses manifest record_path) then None else Some (name, manifest)
  end.

(* ir.rs 4963-4971: CrateAttribution::proven_unattributed_reason *)
Definition proven_unattributed_reason (self : CrateAttribution.t)
  : option CrateAttributionReason.t :=
  if negb (bool_decide (self.(CrateAttribution.status) = CrateAttributionStatus.Unattributed))
     || is_some self.(CrateAttribution.package_name)
     || is_some self.(CrateAttribution.manifest_repo_relative_path) then None
  else self.(CrateAttribution.unattributed_reason).

(* ir.rs 4910-4918: CrateAttribution::proven_unattributed_reason_for *)
Definition proven_unattributed_reason_for (self : CrateAttribution.t) (record_path : string)
  : option CrateAttributionReason.t :=
  if negb (is_repo_relative_path record_path) then None
  else proven_unattributed_reason self.

(* ir.rs 4935-4940: CrateAttribution::is_presentable_for *)
Definition is_presentable_for (self : CrateAttribution.t) (record_path : string) : bool :=
  is_some (owning_package_for self record_path)
    || is_some (proven_unattributed_reason_for self record_path).

(* crate_attribution.rs 447-526: carries_crate_attribution *)
Definition carries_crate_attribution (kind : NodeKind.t) : bool :=
  match kind with
  | NodeKind.File | NodeKind.Module | NodeKind.Symbol | NodeKind.Import
  | NodeKind.Diagnostic | NodeKind.PanicRiskSite | NodeKind.DebtMarker
  | NodeKind.UnsafeSite | NodeKind.LintSuppression | NodeKind.DependencyDeclaration
  | NodeKind.Change => true
  | NodeKind.Repository | NodeKind.Commit | NodeKind.ScanCoverage
  | NodeKind.HistoryReplayWindow | NodeKind.HistoryReplayTip | NodeKind.SemanticDrift
  | NodeKind.EmbeddingModel | NodeKind.EmbeddingVector | NodeKind.Agent
  | NodeKind.AgentSession | NodeKind.Observation | NodeKind.Task
  | NodeKind.AcceptanceCriterion | NodeKind.ExternalLink | NodeKind.Product
  | NodeKind.Project | NodeKind.Plan | NodeKind.GitHubIssue | NodeKind.PR
  | NodeKind.Review | NodeKind.ExternalIdentity | NodeKind.ReviewStateTransition
  | NodeKind.LocalTask | NodeKind.Artifact | NodeKind.Verification
  | NodeKind.CommandEvidence | NodeKind.AgentRun | NodeKind.AgentTurn
  | NodeKind.ToolCall | NodeKind.CommandRun | NodeKind.FileEdit
  | NodeKind.PatchArtifact | NodeKind.Adr | NodeKind.Prd | NodeKind.PlanDoc
  | NodeKind.Failure | NodeKind.Decision | NodeKind.TestRun | NodeKind.CIStatus
  | NodeKind.BenchmarkRun | NodeKind.CoverageReport | NodeKind.ProofResult
  | NodeKind.PromoteCandidate | NodeKind.PromotionPrompt | NodeKind.PromotionDecision
  | NodeKind.Preference | NodeKind.WorkflowRule | NodeKind.NamingDecision
  | NodeKind.Constraint | NodeKind.CostUsage | NodeKind.Retraction
  | NodeKind.RetirementReceipt | NodeKind.ReinstatementReceipt | NodeKind.LogSource
  | NodeKind.ErrorSignature | NodeKind.LogEvent | NodeKind.LogOccurrenceBucket => false
  end.

(* ir.rs 3232-3248: GraphRecord::presentable_crate_attribution *)
Definition presentable_crate_attribution (self : GraphRecord)
  : option (CrateAttribution.t * string) :=
  match self with
  | Node n =>
      match n.(NodeRec.crate_attribution), n.(NodeRec.repo_relative_path) with
      | Some attribution, Some path =>
          if negb (carries_crate_attribution n.(NodeRec.kind)) then None
          else if is_presentable_for attribution path then Some (attribution, path)
          else None
      | _, _ => None
      end
  | _ => None
  end.

(* ir.rs 3255-3258: GraphRecord::owning_package *)
Definition record_owning_package (self : GraphRecord) : option (string * string) :=
  let?o p := presentable_crate_attribution self in
  owning_package_for p.1 p.2.
End Gates.

(** ** Stamping *)

(** One round of the loop. *)
(* crate_attribution.rs 560-581: apply_crate_attribution_where *)
Definition stamp (index : CrateAttributionIndex.t) (selects : GraphRecord → bool)
    (record : GraphRecord) : GraphRecord :=
  if negb (selects record) then record
  else
    match record with
    | Node n =>
        if negb (carries_crate_attribution n.(NodeRec.kind)) then record
        else
          match n.(NodeRec.repo_relative_path) with
          | None => record
          | Some path =>
              Node (n{{ NodeRec.crate_attribution := Some (attribution_for index path) }})
          end
    | _ => record
    end.

(* crate_attribution.rs 554-583: apply_crate_attribution_where *)
Definition apply_crate_attribution_where (records : list GraphRecord)
    (index : CrateAttributionIndex.t) (selects : GraphRecord → bool) : list GraphRecord :=
  stamp index selects <$> records.

(* crate_attribution.rs 540-542: apply_crate_attribution *)
Definition apply_crate_attribution (records : list GraphRecord)
    (index : CrateAttributionIndex.t) : list GraphRecord :=
  apply_crate_attribution_where records index (λ _, true).

(** * Lemmas *)

(** ** The order of facts *)

(** The derived order of outcomes is the byte order of a key. *)
Definition outcome_key (o : ManifestParseOutcome.t) : string :=
  match o with
  | ManifestParseOutcome.Package name => "0" +:+ name
  | ManifestParseOutcome.UnnamedPackage => "1"
  | ManifestParseOutcome.Virtual => "2"
  | ManifestParseOutcome.UnusableManifest => "3"
  | ManifestParseOutcome.Unparseable => "4"
  | ManifestParseOutcome.Unreadable => "5"
  end.

Definition fact_key (f : ManifestPackageFact.t) : string :=
  outcome_key f.(ManifestPackageFact.outcome).

Lemma outcome_cmp_key a b :
  ManifestParseOutcome.cmp a b = String.compare (outcome_key a) (outcome_key b).
Proof. destruct a, b; reflexivity. Qed.


Lemma fact_cmp_lex a b :
  ManifestPackageFact.cmp a b
  = lex_cmp ManifestPackageFact.manifest_repo_relative_path fact_key a b.
Proof. unfold ManifestPackageFact.cmp, lex_cmp. by rewrite outcome_cmp_key. Qed.

Lemma fact_le_lex a b :
  ManifestPackageFact.cmp a b ≠ Gt
  ↔ lex_le ManifestPackageFact.manifest_repo_relative_path fact_key a b.
Proof. by rewrite fact_cmp_lex, lex_cmp_le. Qed.

Lemma fact_le_antisymm a b :
  ManifestPackageFact.cmp a b ≠ Gt → ManifestPackageFact.cmp b a ≠ Gt → a = b.
Proof.
  rewrite !fact_le_lex. intros H1 H2. destruct (lex_le_antisymm _ _ _ _ H1 H2) as [Hp Hk].
  destruct a as [pa oa], b as [pb ob]. unfold fact_key in Hk. simpl in *. subst. f_equal.
  by destruct oa, ob; simplify_eq/=.
Qed.

#[local] Instance fact_le_trans : Transitive (λ a b, ManifestPackageFact.cmp a b ≠ Gt).
Proof. intros a b c. rewrite !fact_le_lex. apply transitivity. Qed.

#[local] Instance fact_le_total : Total (λ a b, ManifestPackageFact.cmp a b ≠ Gt).
Proof. intros a b. rewrite !fact_le_lex. apply total, _. Qed.

Lemma facts_sorted facts :
  StronglySorted (λ a b, ManifestPackageFact.cmp a b ≠ Gt)
    (sort_by ManifestPackageFact.cmp facts).
Proof. apply StronglySorted_merge_sort; apply _. Qed.

(** ** The index in terms of the facts *)

Lemma StronglySorted_filter {A} (R : A → A → Prop) (P : A → Prop) `{∀ x, Decision (P x)} l :
  StronglySorted R l → StronglySorted R (filter P l).
Proof.
  induction 1 as [|x l _ IH Hx]; [constructor|]. rewrite filter_cons. case_decide; [|done].
  constructor; [done|]. apply Forall_forall. intros y [_ Hy]%list_elem_of_filter.
  by apply (proj1 (Forall_forall _ _) Hx).
Qed.

(** [f] is the fact that speaks for [dir]: the least of those that sit there. *)
Definition winner (facts : list ManifestPackageFact.t) (dir : string)
    (f : ManifestPackageFact.t) : Prop :=
  f ∈ facts ∧ ManifestPackageFact.directory_key f = Some dir ∧
  ∀ g, g ∈ facts → ManifestPackageFact.directory_key g = Some dir →
    ManifestPackageFact.cmp f g ≠ Gt.

Lemma winner_unique facts d f g : winner facts d f → winner facts d g → f = g.
Proof. intros (Hf & Hdf & Hlf) (Hg & Hdg & Hlg). apply fact_le_antisymm; auto. Qed.

Definition first_in (facts : list ManifestPackageFact.t) (dir : string) :=
  head (filter (λ f, ManifestPackageFact.directory_key f = Some dir) facts).

Lemma winner_first facts d f :
  winner facts d f ↔ first_in (sort_by ManifestPackageFact.cmp facts) d = Some f.
Proof.
  assert (∀ f, first_in (sort_by ManifestPackageFact.cmp facts) d = Some f →
    winner facts d f) as Hw.
  { intros g. unfold first_in.
    destruct (filter _ _) as [|x l] eqn:E; [done|]. intros [= ->].
    assert (∀ y, y ∈ g :: l ↔
      ManifestPackageFact.directory_key y = Some d ∧ y ∈ facts) as Hin.
    { intros y. rewrite <-E, list_elem_of_filter. by rewrite sort_by_perm. }
    assert (StronglySorted (λ a b, ManifestPackageFact.cmp a b ≠ Gt) (g :: l)) as Hs.
    { rewrite <-E. apply StronglySorted_filter, facts_sorted. }
    apply StronglySorted_inv in Hs as [_ Hs].
    destruct (proj1 (Hin g) ltac:(by left)) as [Hd Hg].
    split_and!; [done..|]. intros y Hy Hyd.
    pose proof (proj2 (Hin y) (conj Hyd Hy)) as [->|Hl]%elem_of_cons.
    - by destruct (total (λ a b, ManifestPackageFact.cmp a b ≠ Gt) g g).
    - by apply (proj1 (Forall_forall _ _) Hs). }
  split; [|apply Hw]. intros Hf.
  destruct (first_in _ d) as [g|] eqn:E.
  - f_equal. by apply (winner_unique facts d); [apply Hw|].
  - exfalso. unfold first_in in E. apply head_None in E.
    destruct Hf as (Hf & Hd & _). 
    apply (elem_of_nil f). rewrite <-E, list_elem_of_filter, sort_by_perm. done.
Qed.

Section Lookup.
Import CrateAttributionIndex.

Lemma add_facts_lookup l d :
  (foldl add_fact (mk ∅ ∅) l).(by_dir) !! d
    = ManifestPackageFact.outcome <$> first_in l d
  ∧ (foldl add_fact (mk ∅ ∅) l).(manifest_by_dir) !! d
    = ManifestPackageFact.manifest_repo_relative_path <$> first_in l d.
Proof.
  induction l as [|f l IH] using rev_ind; [split; apply lookup_empty|].
  rewrite foldl_app. cbn [foldl]. revert IH.
  generalize (foldl add_fact (mk ∅ ∅) l). intros self [IH1 IH2].
  assert (first_in (l ++ [f]) d = match first_in l d with
    | Some g => Some g
    | None => if decide (ManifestPackageFact.directory_key f = Some d) then Some f else None
    end) as ->.
  { unfold first_in. rewrite filter_app. destruct (filter _ l); [|done].
    rewrite filter_cons, filter_nil. by case_decide. }
  unfold add_fact. destruct (ManifestPackageFact.directory_key f) as [dir|].
  - destruct (decide (dir = d)) as [->|Hne].
    + rewrite IH1. rewrite decide_True by done.
      destruct (first_in l d) as [g|]; simpl; [by rewrite IH1, IH2|].
      destruct self; simpl. by rewrite !lookup_insert_eq.
    + rewrite decide_False by congruence.
      assert (∀ o : option ManifestPackageFact.t,
        match o with Some g => Some g | None => None end = o) as -> by by intros [].
      destruct (is_some (by_dir self !! dir)); [done|].
      destruct self; simpl in *. by rewrite !lookup_insert_ne.
  - rewrite decide_False by done. by destruct (first_in l d).
Qed.

(** What the index holds for a directory is what its winner declares. *)
Lemma from_facts_lookup facts d f :
  winner facts d f →
  (from_facts facts).(by_dir) !! d = Some f.(ManifestPackageFact.outcome)
  ∧ (from_facts facts).(manifest_by_dir) !! d
    = Some f.(ManifestPackageFact.manifest_repo_relative_path).
Proof.
  intros Hw%winner_first. unfold from_facts.
  destruct (add_facts_lookup (sort_by ManifestPackageFact.cmp facts) d) as [-> ->].
  by rewrite Hw.
Qed.

Lemma from_facts_lookup_Some facts d o :
  (from_facts facts).(by_dir) !! d = Some o → ∃ f, winner facts d f.
Proof.
  unfold from_facts.
  destruct (add_facts_lookup (sort_by ManifestPackageFact.cmp facts) d) as [-> _].
  destruct (first_in _ d) as [f|] eqn:E; [|done]. intros _. exists f.
  by apply winner_first.
Qed.
End Lookup.

(** ** Well-formed paths *)

Definition plain (s : string) : Prop := free_of SLASH s = true ∧ s ≠ "".

Lemma join_inj l k :
  Forall plain l → Forall plain k → join "/" l = join "/" k → l = k.
Proof.
  assert (∀ l, Forall plain l → l ≠ [] → split_char SLASH (join "/" l) = l) as Hs.
  { intros m Hm Hne. apply split_char_join; [done|].
    eapply Forall_impl; [done|]. by intros ? []. }
  assert (∀ l, Forall plain l → join "/" l = "" → l = []) as H0.
  { intros m Hm He. destruct m as [|x m]; [done|]. exfalso.
    pose proof (Hs _ Hm ltac:(done)) as H. rewrite He in H. simpl in H.
    apply Forall_cons in Hm as [[_ Hx] _]. congruence. }
  intros Hl Hk He. destruct (decide (l = [])) as [->|Hln].
  { symmetry. by apply H0. }
  destruct (decide (k = [])) as [->|Hkn]; [by apply H0|].
  by rewrite <-(Hs l), <-(Hs k), He.
Qed.

Lemma repo_relative_plain path :
  is_repo_relative_path path = true → Forall plain (split_char SLASH path).
Proof.
  unfold is_repo_relative_path. intros H.
  destruct (_ || _); [done|]. destruct (negb _); [done|].
  destruct (match head _ with Some _ => _ | None => _ end); [done|].
  destruct (existsb _ _) eqn:E; [done|].
  apply Forall_forall. intros s Hs. split.
  - by apply (proj1 (Forall_forall _ _) (split_char_free SLASH path)).
  - intros ->. assert (existsb bad_segment (split_char SLASH path) = true); [|congruence].
    apply existsb_exists. exists "". split; [by apply list_elem_of_In|done].
Qed.

Lemma removelast_take {A} (l : list A) : removelast l = take (pred (length l)) l.
Proof.
  induction l as [|x l IH]; [done|]. destruct l as [|y l]; [done|].
  change (removelast (x :: y :: l)) with (x :: removelast (y :: l)). by rewrite IH.
Qed.

Lemma plain_parent_segments path :
  is_repo_relative_path path = true →
  parent_segments path = removelast (split_char SLASH path).
Proof.
  intros H%repo_relative_plain. unfold parent_segments. f_equal.
  induction H as [|s l [_ Hs] _ IH]; [done|]. rewrite filter_cons, decide_True by done.
  by rewrite IH.
Qed.

(** The directory [n] segments deep on the way to [path]. *)
Definition enclosing (path : string) (n : nat) : string :=
  join "/" (take n (split_char SLASH path)).

Definition depth (path : string) : nat := length (split_char SLASH path).

Lemma ancestor_loop_eq segs k dirs :
  k ≤ length segs →
  ancestor_loop k (take k segs) dirs ++ [""]
  = dirs ++ ((λ n, join "/" (take n segs)) <$> reverse (seq 0 (S k))).
Proof.
  revert dirs. induction k as [|k IH]; intros dirs Hk; [done|]. cbn [ancestor_loop].
  destruct (take (S k) segs) as [|x l] eqn:E.
  { apply (f_equal length) in E. rewrite length_take in E. cbn [length] in E. lia. }
  rewrite <-E. clear E x l. rewrite removelast_take, take_take, length_take.
  replace (pred (S k `min` length segs) `min` S k) with k by lia.
  rewrite IH by lia. rewrite (seq_S (S k)), reverse_app. simpl.
  by rewrite <-app_assoc.
Qed.

(** The walk visits the enclosing directories from the deepest to the root. *)
Lemma ancestor_dirs_enclosing path :
  is_repo_relative_path path = true →
  ancestor_dirs path = enclosing path <$> reverse (seq 0 (depth path)).
Proof.
  intros H. unfold ancestor_dirs. rewrite plain_parent_segments by done.
  rewrite removelast_take, length_take. unfold depth.
  assert (length (split_char SLASH path) ≠ 0) as Hne.
  { intros E%nil_length_inv. by apply split_char_not_nil in E. }
  replace (pred (length (split_char SLASH path)) `min` length (split_char SLASH path))
    with (pred (length (split_char SLASH path))) by lia.
  rewrite ancestor_loop_eq by lia.
  by replace (S (pred (length (split_char SLASH path))))
    with (length (split_char SLASH path)) by lia.
Qed.

Lemma enclosing_inj path n m :
  is_repo_relative_path path = true → n < depth path → m < depth path →
  enclosing path n = enclosing path m → n = m.
Proof.
  intros H%repo_relative_plain Hn Hm He. apply join_inj in He; [|by apply Forall_take..].
  apply (f_equal length) in He. rewrite !length_take in He. unfold depth in *. lia.
Qed.

(** ** The rule of the nearest manifest *)

(** The attribution a fact that stops the walk gives. *)
Definition verdict (f : ManifestPackageFact.t) : CrateAttribution.t :=
  match f.(ManifestPackageFact.outcome) with
  | ManifestParseOutcome.Package name =>
      attributed name f.(ManifestPackageFact.manifest_repo_relative_path)
  | ManifestParseOutcome.UnnamedPackage => unattributed CrateAttributionReason.UnnamedPackage
  | ManifestParseOutcome.Unparseable =>
      unattributed CrateAttributionReason.UnparseableManifest
  | ManifestParseOutcome.UnusableManifest =>
      unattributed CrateAttributionReason.UnusableManifest
  | ManifestParseOutcome.Unreadable => unattributed CrateAttributionReason.ManifestUnreadable
  | ManifestParseOutcome.Virtual => unattributed CrateAttributionReason.VirtualManifestOnly
  end.

(** The fact [f] stops the walk from [path] at depth [n]. *)
Definition stops (facts : list ManifestPackageFact.t) (path : string) (n : nat)
    (f : ManifestPackageFact.t) : Prop :=
  n < depth path ∧ winner facts (enclosing path n) f
  ∧ f.(ManifestPackageFact.outcome) ≠ ManifestParseOutcome.Virtual.

(** Some manifest encloses [path]. *)
Definition enclosed (facts : list ManifestPackageFact.t) (path : string) : Prop :=
  ∃ n f, n < depth path ∧ winner facts (enclosing path n) f.

Lemma winner_in facts d f :
  winner facts d f → f ∈ facts ∧ ManifestPackageFact.directory_key f = Some d.
Proof. by intros (? & ? & _). Qed.

Lemma winner_single f d : ManifestPackageFact.directory_key f = Some d → winner [f] d f.
Proof.
  intros Hd. split; [by left|]. split; [done|]. intros g ->%list_elem_of_singleton _.
  by destruct (total (λ a b, ManifestPackageFact.cmp a b ≠ Gt) f f).
Qed.

#[local] Opaque winner.

Lemma walk_spec facts path k saw :
  let a := walk (CrateAttributionIndex.from_facts facts) saw
             (enclosing path <$> reverse (seq 0 k)) in
  (∃ n f, n < k ∧ winner facts (enclosing path n) f
     ∧ f.(ManifestPackageFact.outcome) ≠ ManifestParseOutcome.Virtual
     ∧ (∀ m g, m < k → winner facts (enclosing path m) g →
          g.(ManifestPackageFact.outcome) ≠ ManifestParseOutcome.Virtual → m ≤ n)
     ∧ a = verdict f)
  ∨ (∃ b : bool,
       (∀ n f, n < k → winner facts (enclosing path n) f →
          f.(ManifestPackageFact.outcome) = ManifestParseOutcome.Virtual)
     ∧ (b = true ↔ saw = true ∨ ∃ n f, n < k ∧ winner facts (enclosing path n) f)
     ∧ a = unattributed (if b then CrateAttributionReason.VirtualManifestOnly
                         else CrateAttributionReason.NoEnclosingManifest)).
Proof.
  revert saw. induction k as [|k IH]; intros saw.
  { right. exists saw. split_and!; [lia| |done]. split; [by left|].
    intros [|(? & ? & ? & _)]; [done|lia]. }
  rewrite seq_S, reverse_app. cbn [fmap list_fmap app reverse rev_append Nat.add walk].
  change (rev_append (seq 0 k) []) with (reverse (seq 0 k)).
  destruct (CrateAttributionIndex.by_dir _ !! enclosing path k) as [o|] eqn:Ho.
  - destruct (from_facts_lookup_Some _ _ _ Ho) as [f Hf].
    destruct (from_facts_lookup _ _ _ Hf) as [Hb Hm]. rewrite Hm.
    assert (o = f.(ManifestPackageFact.outcome)) as -> by congruence.
    destruct (decide (f.(ManifestPackageFact.outcome) = ManifestParseOutcome.Virtual))
      as [Hv|Hv].
    + rewrite Hv. destruct (IH true) as [(n & g & Hn & Hg & Hgv & Hmax & Ha)|(b & Hall & Hbb & Ha)].
      * left. exists n, g. split_and!; [lia|done..| |done]. intros m h Hlt Hh Hhv.
        destruct (decide (m = k)) as [->|]; [|apply (Hmax m h); [lia|done..]].
        by rewrite (winner_unique _ _ _ _ Hh Hf) in Hhv.
      * right. exists true. split_and!.
        -- intros n g Hn Hg. destruct (decide (n = k)) as [->|]; [|apply (Hall n); [lia|done]].
           by rewrite (winner_unique _ _ _ _ Hg Hf).
        -- split; [|done]. intros _. right. exists k, f. split; [lia|done].
        -- assert (b = true) as -> by (apply Hbb; by left). exact Ha.
    + left. exists k, f. split_and!; [lia|done..|intros; lia|]. unfold verdict.
      by destruct (ManifestPackageFact.outcome f).
  - assert (∀ f, ¬ winner facts (enclosing path k) f) as Hno.
    { intros f Hf. destruct (from_facts_lookup _ _ _ Hf) as [Hb _]. congruence. }
    destruct (IH saw) as [(n & g & Hn & Hg & Hgv & Hmax & Ha)|(b & Hall & Hbb & Ha)].
    + left. exists n, g. split_and!; [lia|done..| |done]. intros m h Hlt Hh Hhv.
      destruct (decide (m = k)) as [->|]; [by destruct (Hno h)|].
      apply (Hmax m h); [lia|done..].
    + right. exists b. split_and!; [| |done].
      * intros n g Hn Hg. destruct (decide (n = k)) as [->|]; [by destruct (Hno g)|].
        apply (Hall n); [lia|done].
      * rewrite Hbb. split; (intros [?|(n & g & Hn & Hg)]; [by left|right; exists n, g]).
        -- split; [lia|done].
        -- destruct (decide (n = k)) as [->|]; [by destruct (Hno g)|]. split; [lia|done].
Qed.

Lemma attribution_is_nearest_manifest_aux (facts : list ManifestPackageFact.t) (path : string) :
  is_repo_relative_path path = true →
  let a := attribution_for (CrateAttributionIndex.from_facts facts) path in
  (∃ n f, stops facts path n f ∧ (∀ m g, stops facts path m g → m ≤ n) ∧ a = verdict f)
  ∨ ((∀ n f, ¬ stops facts path n f) ∧
     ((enclosed facts path ∧ a = unattributed CrateAttributionReason.VirtualManifestOnly)
      ∨ (¬ enclosed facts path
         ∧ a = unattributed CrateAttributionReason.NoEnclosingManifest))).
Proof.
  intros Hp. unfold attribution_for. rewrite ancestor_dirs_enclosing by done. cbv zeta.
  destruct (walk_spec facts path (depth path) false)
    as [(n & f & Hn & Hf & Hv & Hmax & ->)|(b & Hall & Hb & ->)].
  - left. exists n, f. split_and!; [done| |done]. intros m g (? & ? & ?). eauto.
  - right. split; [intros n f (Hn & Hf & Hv); eauto|]. destruct b; [left|right]; split; [|done| |done].
    + by destruct (proj1 Hb eq_refl).
    + intros (n & f & Hn & Hf). assert (false = true); [|done]. apply Hb. right. eauto.
Qed.

(** For every set of manifest facts and every repo-relative path, the attribution
    is the verdict of the deepest enclosing directory whose winning manifest is not
    virtual; without one it is "virtual only" when some manifest encloses the path and
    "no enclosing manifest" otherwise. *)
Theorem attribution_is_nearest_manifest (facts : list ManifestPackageFact.t) (path : string) :
  is_repo_relative_path path = true →
  let a := attribution_for (CrateAttributionIndex.from_facts facts) path in
  (∃ n f, stops facts path n f ∧ (∀ m g, stops facts path m g → m ≤ n) ∧ a = verdict f)
  ∨ ((∀ n f, ¬ stops facts path n f) ∧
     ((enclosed facts path ∧ a = unattributed CrateAttributionReason.VirtualManifestOnly)
      ∨ (¬ enclosed facts path
         ∧ a = unattributed CrateAttributionReason.NoEnclosingManifest))).
Proof. apply attribution_is_nearest_manifest_aux. Qed.

(** The verdict of the deepest stop is the answer. *)
Lemma attribution_at facts path n f :
  is_repo_relative_path path = true → stops facts path n f →
  (∀ m g, stops facts path m g → m ≤ n) →
  attribution_for (CrateAttributionIndex.from_facts facts) path = verdict f.
Proof.
  intros Hp Hf Hmax.
  destruct (attribution_is_nearest_manifest_aux facts path Hp)
    as [(m & g & Hg & Hmax' & ->)|[Hno _]]; [|by destruct (Hno n f)].
  assert (m = n) as ->.
  { pose proof (Hmax _ _ Hg). pose proof (Hmax' _ _ Hf). lia. }
  destruct Hf as (_ & Hf & _), Hg as (_ & Hg & _). by rewrite (winner_unique _ _ _ _ Hg Hf).
Qed.

(** The order in which the harvest finds the manifests does not matter: the index
    is a function of the multiset of facts. *)
Theorem from_facts_order_independent (l k : list ManifestPackageFact.t) :
  l ≡ₚ k → CrateAttributionIndex.from_facts l = CrateAttributionIndex.from_facts k.
Proof.
  intros Hp. unfold CrateAttributionIndex.from_facts. f_equal.
  apply (StronglySorted_unique_strong (λ a b, ManifestPackageFact.cmp a b ≠ Gt)).
  - intros x y _ _. apply fact_le_antisymm.
  - apply facts_sorted.
  - apply facts_sorted.
  - by rewrite !sort_by_perm.
Qed.

Lemma from_facts_order_independent_witness :
  CrateAttributionIndex.from_facts
    [ManifestPackageFact.new "a/Cargo.toml" ManifestParseOutcome.Virtual;
     ManifestPackageFact.new "a/Cargo.toml" (ManifestParseOutcome.Package "p")]
  = CrateAttributionIndex.from_facts
    [ManifestPackageFact.new "a/Cargo.toml" (ManifestParseOutcome.Package "p");
     ManifestPackageFact.new "a/Cargo.toml" ManifestParseOutcome.Virtual].
Proof. apply from_facts_order_independent. apply perm_swap. Defined.

(** ** Readers and producers *)

Lemma directory_key_Some f d :
  ManifestPackageFact.directory_key f = Some d ↔
  manifest_path_is_repo_relative f.(ManifestPackageFact.manifest_repo_relative_path) = true
  ∧ d = join "/" (parent_segments f.(ManifestPackageFact.manifest_repo_relative_path)).
Proof.
  unfold ManifestPackageFact.directory_key.
  destruct (manifest_path_is_repo_relative _) eqn:E; simpl; [|naive_solver].
  rewrite plain_parent_segments by (unfold manifest_path_is_repo_relative in E; by breflect).
  pose proof (split_char_not_nil SLASH (ManifestPackageFact.manifest_repo_relative_path f)).
  destruct (split_char SLASH _); naive_solver.
Qed.

(** A citation encloses a record exactly when it sits in an enclosing directory. *)
Lemma manifest_encloses_spec m path :
  manifest_encloses m path = true ↔
  is_repo_relative_path path = true
  ∧ ∃ n, n < depth path ∧ join "/" (parent_segments m) = enclosing path n.
Proof.
  unfold manifest_encloses. destruct (is_repo_relative_path path) eqn:Hp; simpl; [|naive_solver].
  rewrite bool_decide_eq_true, ancestor_dirs_enclosing, list_elem_of_fmap by done.
  setoid_rewrite elem_of_reverse. setoid_rewrite elem_of_seq. split.
  - intros (n & He & Hn). split; [done|]. exists n. split; [lia|done].
  - intros (_ & n & Hn & He). exists n. split; [done|lia].
Qed.

Section Readers.
Context (is_xid_start is_xid_continue : N → bool).
Let name_ok := package_name_is_valid is_xid_start is_xid_continue.

(** What the harvest guarantees of a fact: the names it reports are valid. *)
Definition harvested (f : ManifestPackageFact.t) : Prop :=
  match f.(ManifestPackageFact.outcome) with
  | ManifestParseOutcome.Package name => name_ok name = true
  | _ => True
  end.

Lemma unattributed_presentable r path :
  is_repo_relative_path path = true →
  is_presentable_for is_xid_start is_xid_continue (unattributed r) path = true.
Proof.
  intros Hp. unfold is_presentable_for, proven_unattributed_reason_for. by rewrite Hp.
Qed.

Lemma owning_package_attributed n m path :
  name_ok n = true → manifest_path_is_repo_relative m = true →
  manifest_encloses m path = true →
  owning_package_for is_xid_start is_xid_continue (attributed n m) path = Some (n, m).
Proof.
  intros Hn Hm He. unfold owning_package_for, owning_package. simpl.
  unfold name_ok in Hn. rewrite Hn, Hm. simpl. by rewrite He.
Qed.

Lemma owning_package_for_Some a path n m :
  owning_package_for is_xid_start is_xid_continue a path = Some (n, m) →
  a = attributed n m ∧ name_ok n = true ∧ manifest_path_is_repo_relative m = true
  ∧ manifest_encloses m path = true.
Proof.
  unfold owning_package_for, owning_package.
  destruct a as [[] [x|] [y|] [r|]]; simpl; try done.
  destruct (package_name_is_valid _ _ x) eqn:E1; simpl; [|done].
  destruct (manifest_path_is_repo_relative y) eqn:E2; simpl; [|done].
  destruct (manifest_encloses y path) eqn:E3; simpl; [|done]. by intros [= <- <-].
Qed.

Lemma proven_reason_Some a r : proven_unattributed_reason a = Some r → a = unattributed r.
Proof.
  unfold proven_unattributed_reason. destruct a as [[] [x|] [y|] q]; simpl; try done.
  by intros ->.
Qed.

(** The resolver only gives presentable answers. *)
Lemma produced_presentable facts path :
  Forall harvested facts → is_repo_relative_path path = true →
  is_presentable_for is_xid_start is_xid_continue
    (attribution_for (CrateAttributionIndex.from_facts facts) path) path = true.
Proof.
  intros Hh Hp.
  destruct (attribution_is_nearest_manifest_aux facts path Hp)
    as [(n & f & (Hn & Hf & Hv) & _ & ->)|[_ [[_ ->]|[_ ->]]]].
  2,3: by apply unattributed_presentable.
  unfold verdict. pose proof (winner_in _ _ _ Hf) as [Hin Hd].
  apply directory_key_Some in Hd as [Hm Hd].
  pose proof (proj1 (Forall_forall _ _) Hh f Hin) as Hok. unfold harvested in Hok.
  destruct (ManifestPackageFact.outcome f); try by apply unattributed_presentable.
  unfold is_presentable_for. rewrite owning_package_attributed; [done..|].
  apply manifest_encloses_spec. split; [done|]. exists n. by rewrite Hd.
Qed.

(** A single manifest above [path] speaks for it. *)
Lemma single_manifest m o path :
  is_repo_relative_path path = true → manifest_path_is_repo_relative m = true →
  manifest_encloses m path = true → o ≠ ManifestParseOutcome.Virtual →
  attribution_for (CrateAttributionIndex.from_facts [ManifestPackageFact.new m o]) path
  = verdict (ManifestPackageFact.new m o).
Proof.
  intros Hp Hm [_ (n & Hn & Hd)]%manifest_encloses_spec Ho.
  assert (winner [ManifestPackageFact.new m o] (enclosing path n)
    (ManifestPackageFact.new m o)) as Hw by (apply winner_single, directory_key_Some; done).
  apply (attribution_at _ _ n); [done|done|].
  intros k g (Hk & Hg & _). pose proof (winner_in _ _ _ Hg) as [Hin Hgd].
  apply list_elem_of_singleton in Hin as ->.
  apply directory_key_Some in Hgd as [_ Hgd]. simpl in Hgd.
  rewrite Hd in Hgd. by apply enclosing_inj in Hgd as ->.
Qed.

(** A manifest in the root of the repository. *)
Definition root_fact (o : ManifestParseOutcome.t) : ManifestPackageFact.t :=
  ManifestPackageFact.new MANIFEST_FILE_NAME o.

Lemma root_encloses path :
  is_repo_relative_path path = true → manifest_encloses MANIFEST_FILE_NAME path = true.
Proof.
  intros Hp. apply manifest_encloses_spec. split; [done|]. exists 0. split; [|done].
  unfold depth. pose proof (split_char_not_nil SLASH path).
  destruct (split_char SLASH path); simpl; [done|lia].
Qed.

Lemma root_virtual path :
  is_repo_relative_path path = true →
  attribution_for (CrateAttributionIndex.from_facts [root_fact ManifestParseOutcome.Virtual])
    path = unattributed CrateAttributionReason.VirtualManifestOnly.
Proof.
  intros Hp.
  destruct (attribution_is_nearest_manifest_aux
    [root_fact ManifestParseOutcome.Virtual] path Hp)
    as [(n & f & (_ & Hf & Hv) & _)|[_ [[_ ->]|[Hne _]]]]; [|done|].
  - by apply winner_in in Hf as [->%list_elem_of_singleton _].
  - destruct Hne. pose proof (root_encloses path Hp) as [_ (n & Hn & Hd)]%manifest_encloses_spec.
    exists n, (root_fact ManifestParseOutcome.Virtual). split; [done|].
    apply winner_single, directory_key_Some. split; [by vm_compute|]. by rewrite <-Hd.
Qed.

Lemma no_facts path :
  is_repo_relative_path path = true →
  attribution_for (CrateAttributionIndex.from_facts []) path
  = unattributed CrateAttributionReason.NoEnclosingManifest.
Proof.
  intros Hp.
  destruct (attribution_is_nearest_manifest_aux [] path Hp)
    as [(n & f & (_ & Hf & _) & _)|[_ [[(n & f & _ & Hf) _]|[_ ->]]]]; [..|done];
    by apply winner_in in Hf as [?%elem_of_nil _].
Qed.

(** C38: The reader gate accepts exactly the resolver's range: at a repo-relative path, a
    stored attribution is presentable if and only if some set of manifest facts with
    valid package names makes the nearest-manifest walk answer it. *)
Theorem presentable_is_producible (a : CrateAttribution.t) (path : string) :
  is_repo_relative_path path = true →
  is_presentable_for is_xid_start is_xid_continue a path = true ↔
  ∃ facts, Forall harvested facts
    ∧ attribution_for (CrateAttributionIndex.from_facts facts) path = a.
Proof.
  intros Hp. split.
  - unfold is_presentable_for.
    destruct (owning_package_for _ _ a path) as [[n m]|] eqn:E1; simpl.
    + intros _. apply owning_package_for_Some in E1 as (-> & Hn & Hm & He).
      exists [ManifestPackageFact.new m (ManifestParseOutcome.Package n)].
      split; [by apply Forall_singleton|]. by apply single_manifest.
    + unfold proven_unattributed_reason_for. rewrite Hp. simpl.
      destruct (proven_unattributed_reason a) as [r|] eqn:E2; [|done]. intros _.
      apply proven_reason_Some in E2 as ->.
      assert (∀ o, o ≠ ManifestParseOutcome.Virtual →
        attribution_for (CrateAttributionIndex.from_facts [root_fact o]) path
        = verdict (root_fact o)) as Hroot.
      { intros o Ho. apply single_manifest; [done|by vm_compute|by apply root_encloses|done]. }
      destruct r.
      * exists []. split; [done|]. by apply no_facts.
      * exists [root_fact ManifestParseOutcome.Virtual].
        split; [by apply Forall_singleton|]. by apply root_virtual.
      * exists [root_fact ManifestParseOutcome.UnnamedPackage].
        split; [by apply Forall_singleton|]. by rewrite Hroot.
      * exists [root_fact ManifestParseOutcome.Unparseable].
        split; [by apply Forall_singleton|]. by rewrite Hroot.
      * exists [root_fact ManifestParseOutcome.UnusableManifest].
        split; [by apply Forall_singleton|]. by rewrite Hroot.
      * exists [root_fact ManifestParseOutcome.Unreadable].
        split; [by apply Forall_singleton|]. by rewrite Hroot.
  - intros (facts & Hh & <-). by apply produced_presentable.
Qed.

(** ** Stamping *)

Definition without_attribution (r : GraphRecord) : GraphRecord :=
  GraphRecord.on_node (λ n, n{{ NodeRec.crate_attribution := None }}) r.

(** The records the pass writes: a node of a carrying kind with a path. *)
Definition stampable (r : GraphRecord) : option string :=
  match r with
  | Node n => if carries_crate_attribution n.(NodeRec.kind)
              then n.(NodeRec.repo_relative_path) else None
  | _ => None
  end.

Lemma stamp_conservative index selects r :
  without_attribution (stamp index selects r) = without_attribution r.
Proof.
  unfold stamp. destruct (negb (selects r)); [done|]. destruct r as [n|e|tb]; [|done..].
  destruct (negb _); [done|]. destruct (NodeRec.repo_relative_path n); [|done].
  by destruct n.
Qed.

Lemma presentable_set n b :
  presentable_crate_attribution is_xid_start is_xid_continue
    (Node (n{{ NodeRec.crate_attribution := Some b }}))
  = match stampable (Node n) with
    | Some p => if is_presentable_for is_xid_start is_xid_continue b p then Some (b, p) else None
    | None => None
    end.
Proof.
  destruct n. unfold stampable. simpl. destruct repo_relative_path; simpl.
  - by destruct (carries_crate_attribution kind).
  - by destruct (carries_crate_attribution kind).
Qed.

Lemma not_stampable r :
  stampable r = None →
  presentable_crate_attribution is_xid_start is_xid_continue r = None
  ∧ ∀ index, stamp index (λ _, true) r = r.
Proof.
  destruct r as [n|e|tb]; [|done..]. unfold stampable, stamp. simpl. intros H.
  destruct (carries_crate_attribution (NodeRec.kind n)); simpl.
  - rewrite H. split; [|done]. by destruct (NodeRec.crate_attribution n).
  - split; [|done].
    by destruct (NodeRec.crate_attribution n), (NodeRec.repo_relative_path n).
Qed.

Lemma produced_not_presentable a p :
  is_repo_relative_path p = false →
  is_presentable_for is_xid_start is_xid_continue a p = false.
Proof.
  intros Hp. unfold is_presentable_for, proven_unattributed_reason_for, owning_package_for.
  rewrite Hp. destruct (owning_package _ _ _) as [[x y]|]; [|done].
  unfold manifest_encloses. by rewrite Hp.
Qed.

Lemma stamp_presentable facts r a p :
  Forall harvested facts →
  presentable_crate_attribution is_xid_start is_xid_continue
    (stamp (CrateAttributionIndex.from_facts facts) (λ _, true) r) = Some (a, p)
  ↔ stampable r = Some p ∧ is_repo_relative_path p = true
    ∧ a = attribution_for (CrateAttributionIndex.from_facts facts) p.
Proof.
  intros Hh. destruct (stampable r) as [q|] eqn:Hs.
  - assert (∃ n, r = Node n ∧ stamp (CrateAttributionIndex.from_facts facts) (λ _, true) r
      = Node (n{{ NodeRec.crate_attribution :=
          Some (attribution_for (CrateAttributionIndex.from_facts facts) q) }}))
      as (n & -> & ->).
    { destruct r as [n|e|tb]; [|done..]. exists n. split; [done|].
      unfold stampable in Hs. unfold stamp. simpl.
      destruct (carries_crate_attribution _); [|done]. simpl. by rewrite Hs. }
    rewrite presentable_set, Hs. destruct (is_repo_relative_path q) eqn:Hp.
    + rewrite produced_presentable by done. naive_solver.
    + rewrite produced_not_presentable by done. naive_solver congruence.
  - destruct (not_stampable r Hs) as [H1 H2]. rewrite H2, H1. naive_solver.
Qed.

(** Stamping a graph with the facts of its tree changes no record but for the
    attribution field, and afterwards a record presents an attribution exactly when it
    is a node of a carrying kind at a repo-relative path, the one the walk answers there,
    whatever the field held before. *)
Theorem stamping_sets_presentable_claims (facts : list ManifestPackageFact.t)
    (records : list GraphRecord) :
  Forall harvested facts →
  let index := CrateAttributionIndex.from_facts facts in
  let stamped := apply_crate_attribution records index in
  without_attribution <$> stamped = without_attribution <$> records
  ∧ ∀ i r', stamped !! i = Some r' → ∃ r, records !! i = Some r ∧
      ∀ a p, presentable_crate_attribution is_xid_start is_xid_continue r' = Some (a, p) ↔
        stampable r = Some p ∧ is_repo_relative_path p = true
        ∧ a = attribution_for index p.
Proof.
  intros Hh. cbv zeta. unfold apply_crate_attribution, apply_crate_attribution_where. split.
  - rewrite <-list_fmap_compose. apply list_fmap_ext. intros _ r _. apply stamp_conservative.
  - intros i r' Hr'. rewrite list_lookup_fmap in Hr'.
    destruct (records !! i) as [r|]; simplify_eq/=. exists r. split; [done|].
    intros a p. by apply stamp_presentable.
Qed.
End Readers.

(** ** A workspace *)
Definition demo_facts : list ManifestPackageFact.t :=
  [ManifestPackageFact.new "crates/a/Cargo.toml" (ManifestParseOutcome.Package "a");
   ManifestPackageFact.new "Cargo.toml" ManifestParseOutcome.Virtual;
   ManifestPackageFact.new "crates/a/vendor/Cargo.toml" ManifestParseOutcome.Unparseable].

(** ASCII letters, for code points below 128. *)
Definition demo_xid (c : N) : bool := char_is_ascii_alphabetic c.

Example demo_nearest :
  attribution_for (CrateAttributionIndex.from_facts demo_facts) "crates/a/src/lib.rs"
    = attributed "a" "crates/a/Cargo.toml"
  ∧ attribution_for (CrateAttributionIndex.from_facts demo_facts) "crates/ab/src/lib.rs"
    = unattributed CrateAttributionReason.VirtualManifestOnly
  ∧ attribution_for (CrateAttributionIndex.from_facts demo_facts) "crates/a/vendor/x.rs"
    = unattributed CrateAttributionReason.UnparseableManifest.
Proof. vm_compute. done. Qed.

Lemma attribution_is_nearest_manifest_witness :
  ∃ n f, stops demo_facts "crates/a/src/lib.rs" n f
    ∧ verdict f = attributed "a" "crates/a/Cargo.toml".
Proof.
  destruct (attribution_is_nearest_manifest demo_facts "crates/a/src/lib.rs"
    ltac:(vm_compute; reflexivity)) as [(n & f & Hs & _ & Hv)|[_ [[_ H]|[_ H]]]].
  - exists n, f. split; [exact Hs|]. rewrite <-Hv. vm_compute. reflexivity.
  - vm_compute in H. discriminate.
  - vm_compute in H. discriminate.
Defined.

Lemma presentable_is_producible_witness :
  is_presentable_for demo_xid demo_xid (attributed "a" "crates/b/Cargo.toml")
    "crates/a/src/lib.rs" = false
  ∧ ¬ ∃ facts, Forall (harvested demo_xid demo_xid) facts
      ∧ attribution_for (CrateAttributionIndex.from_facts facts) "crates/a/src/lib.rs"
        = attributed "a" "crates/b/Cargo.toml".
Proof.
  split; [vm_compute; reflexivity|]. intros H.
  apply (presentable_is_producible demo_xid demo_xid _ "crates/a/src/lib.rs"
    ltac:(vm_compute; reflexivity)) in H.
  vm_compute in H. discriminate.
Defined.

(** A symbol that claims another package, and one whose path escapes the repository. *)
Definition demo_forged : GraphRecord :=
  GraphRecord.with_crate_attribution (attributed "b" "crates/b/Cargo.toml")
    (GraphRecord.node "s" NodeKind.Symbol (Some "crates/a/src/lib.rs") None None "").
Definition demo_escaping : GraphRecord :=
  GraphRecord.node "t" NodeKind.Symbol (Some "crates/a/../../x.rs") None None "".

Lemma stamping_sets_presentable_claims_witness :
  Forall (harvested demo_xid demo_xid) demo_facts
  ∧ ∃ r', apply_crate_attribution [demo_escaping; demo_forged]
            (CrateAttributionIndex.from_facts demo_facts) !! 1 = Some r'
      ∧ presentable_crate_attribution demo_xid demo_xid r'
        = Some (attributed "a" "crates/a/Cargo.toml", "crates/a/src/lib.rs").
Proof.
  assert (Forall (harvested demo_xid demo_xid) demo_facts) as H
    by (repeat constructor; vm_compute; reflexivity).
  split; [exact H|].
  pose proof (proj2 (stamping_sets_presentable_claims demo_xid demo_xid demo_facts
    [demo_escaping; demo_forged] H) 1 _ eq_refl) as (r & [= <-] & Hr).
  eexists. split; [reflexivity|]. apply Hr. split_and!; vm_compute; reflexivity.
Defined.
