(* ===== verification/TransitiveCallers.v ===== *)
(** * Transitive callers

    [src/src/query/transitive_callers.rs]: the inbound closure of a symbol over
    [CALLS]/[REFERENCES] edges up to a depth, with a shortest path per row, the count
    of what lies beyond and the diagnostics for edges from records that do not exist.
    The search is the one of [DepthSearch.v]; the discovery of a level is here. *)
From S2P Require Import Prelude RustStr Ir IrOps Liveness LevelSearch DepthSearch.

Module MemoryAuditDiagnostic.
(* query/memory_audit.rs 36-47: MemoryAuditDiagnostic *)
Record t : Type := mk {
  code : string;
  source_record_id : string;
  target_handle : string;
  relation : string;
  target_domain : string
}.
End MemoryAuditDiagnostic.

Module TransitiveCallersContext.
(* query/transitive_callers.rs 77-88: TransitiveCallersContext *)
Record t : Type := mk {
  anchor : GraphRecord;
  rows : list Row.t;
  truncation : option Truncation.t;
  diagnostics : list MemoryAuditDiagnostic.t;
  max_depth : nat
}.
End TransitiveCallersContext.

(* query/transitive_callers.rs 10-10: TRANSITIVE_CALLER_LABELS *)
Definition TRANSITIVE_CALLER_LABELS : list EdgeLabel.t :=
  [EdgeLabel.Calls; EdgeLabel.References].

(** [target.anchor_ids] is a [BTreeSet], iterated in order. *)
(* query/transitive_callers.rs 97-108: transitive_callers_non_symbol_anchor_kind *)
Definition transitive_callers_non_symbol_anchor_kind (records : list GraphRecord)
    (anchor_ids : gset string) : option NodeKind.t :=
  let by_id : gmap string GraphRecord :=
    foldl (λ m r, <[GraphRecord.id r := r]> m) ∅ records in
  head (filter (λ kind, kind ≠ NodeKind.Symbol)
    (omap GraphRecord.node_kind_ref
      (omap (λ id, by_id !! id) (str_sort (elements anchor_ids))))).

(** The inbound edge of a record, as [(target, (source, edge, label, resolution))]. *)
(* query/transitive_callers.rs 160-191: transitive_callers *)
Definition inbound_edge (liveness : Liveness.t) (entry : nat * GraphRecord)
    : option (string * EdgeRef) :=
  match entry.2 with
  | Edge e =>
      if negb (Liveness.is_latest_edge_version liveness e.(EdgeRec.id) entry.1) then None
      else if Liveness.deleted liveness e.(EdgeRec.id)
              || negb (bool_decide (e.(EdgeRec.label) ∈ TRANSITIVE_CALLER_LABELS)) then None
      else Some (e.(EdgeRec.target),
                 (e.(EdgeRec.source), e.(EdgeRec.id), EdgeLabel.as_str e.(EdgeRec.label),
                  e.(EdgeRec.resolution)))
  | _ => None
  end.

(* query/transitive_callers.rs 229-235: transitive_callers *)
Definition unresolved_edge_source (edge_id source_id label : string)
    : MemoryAuditDiagnostic.t :=
  MemoryAuditDiagnostic.mk "unresolved_edge_source" edge_id source_id label "codegraph".

Section Level.
Context (records : list GraphRecord) (inbound : gmap string (list EdgeRef)).

Abbreviation by_id := (live_by_id records).
Abbreviation deleted := (Liveness.deleted (Liveness.new records)).

(** [(candidate.1.1, candidate.1.0) < (prev_parent, prev_edge)]. *)
(* query/transitive_callers.rs 246-247: transitive_callers *)
Definition pointer_lt (a b : EdgeRef) : bool :=
  bool_decide (lex_cmp ptr_parent ptr_edge a b = Lt).

(** One inbound edge of [node]. *)
(* query/transitive_callers.rs 221-252: transitive_callers *)
Definition discover (report : bool) (visited : gset string) (node : string)
    (edge : EdgeRef) (acc : gmap string EdgeRef * list MemoryAuditDiagnostic.t)
    : gmap string EdgeRef * list MemoryAuditDiagnostic.t :=
  let '(discoveries, diagnostics) := acc in
  let '(source_id, edge_id, label, resolution) := edge in
  if bool_decide (source_id ∈ visited) then acc
  else
    match by_id !! source_id with
    | None =>
        (discoveries,
         if report && negb (deleted source_id)
         then diagnostics ++ [unresolved_edge_source edge_id source_id label]
         else diagnostics)
    | Some source_record =>
        let id := GraphRecord.id source_record in
        let candidate := (edge_id, node, label, resolution) in
        (match discoveries !! id with
         | None => <[id := candidate]> discoveries
         | Some prev =>
             if pointer_lt candidate prev then <[id := candidate]> discoveries
             else discoveries
         end, diagnostics)
    end.

(* query/transitive_callers.rs 209-255: transitive_callers *)
Definition discover_level (report : bool) (frontier : list string) (visited : gset string)
    (diagnostics : list MemoryAuditDiagnostic.t)
    : gmap string EdgeRef * list MemoryAuditDiagnostic.t :=
  foldl (λ acc node, foldl (λ acc edge, discover report visited node edge acc) acc
                       (default [] (inbound !! node)))
    (∅, diagnostics) frontier.
End Level.

(* query/transitive_callers.rs 316-322: transitive_callers *)
Definition caller_path (chain : list (string * EdgeRef)) : list PathStep.t :=
  (λ cq : string * EdgeRef,
    PathStep.mk cq.1 (ptr_edge cq.2) cq.2.1.2 cq.2.2 (ptr_parent cq.2)) <$> chain.

(* query/transitive_callers.rs 342-348: transitive_callers *)
Definition diagnostic_cmp (a b : MemoryAuditDiagnostic.t) : comparison :=
  then_cmp (String.compare a.(MemoryAuditDiagnostic.code) b.(MemoryAuditDiagnostic.code))
    (then_cmp (String.compare a.(MemoryAuditDiagnostic.source_record_id)
                 b.(MemoryAuditDiagnostic.source_record_id))
      (then_cmp (String.compare a.(MemoryAuditDiagnostic.target_handle)
                   b.(MemoryAuditDiagnostic.target_handle))
        (String.compare a.(MemoryAuditDiagnostic.relation)
           b.(MemoryAuditDiagnostic.relation)))).

(* query/transitive_callers.rs 349-354: transitive_callers *)
Definition diagnostic_key (d : MemoryAuditDiagnostic.t) : string * string * string * string :=
  (d.(MemoryAuditDiagnostic.code), d.(MemoryAuditDiagnostic.source_record_id),
   d.(MemoryAuditDiagnostic.target_handle), d.(MemoryAuditDiagnostic.relation)).

Section Callers.
(** [edges.sort_unstable_by(|a, b| (a.0, a.1).cmp(&(b.0, b.1)))]. *)
Context (sort_unstable : list EdgeRef → list EdgeRef).

(* query/transitive_callers.rs 158-197: transitive_callers *)
Definition inbound_index (records : list GraphRecord) : gmap string (list EdgeRef) :=
  edge_index ref_key sort_unstable (inbound_edge (Liveness.new records)) records.

(** The outer [option] is the model's: fuel running out or an [expect] panicking. *)
(* query/transitive_callers.rs 135-363: transitive_callers *)
Definition transitive_callers (records : list GraphRecord) (anchor_id : string)
    (max_depth : nat) : option (option TransitiveCallersContext.t) :=
  let by_id := live_by_id records in
  match by_id !! anchor_id with
  | None => Some None
  | Some anchor =>
      let anchor_id := GraphRecord.id anchor in
      let level := discover_level records (inbound_index records) in
      let b := bounded_loop level max_depth (start anchor_id []) in
      let?o td := truncate level (S (size by_id)) max_depth b in
      let?o rows := build_rows caller_path by_id anchor_id b in
      Some (Some (TransitiveCallersContext.mk anchor rows td.1
        (dedup_by_key diagnostic_key (sort_by diagnostic_cmp td.2)) max_depth))
  end.
End Callers.

(** ** The specification *)

(** The pointer an edge gives to its source. *)
Definition caller_ref (e : EdgeRec.t) : EdgeRef :=
  (e.(EdgeRec.id), e.(EdgeRec.target), EdgeLabel.as_str e.(EdgeRec.label),
   e.(EdgeRec.resolution)).

(** The live record [y] calls or references the parent of [q] over the edge of [q]. *)
Definition caller_link (records : list GraphRecord) (q : EdgeRef) (y : string) : Prop :=
  ∃ e, current_edge records TRANSITIVE_CALLER_LABELS e ∧ e.(EdgeRec.source) = y
    ∧ q = caller_ref e ∧ is_Some (live_by_id records !! y).

(** The edge [e] to [p] comes from a record that never existed. *)
Definition dangling_source (records : list GraphRecord) (p : string)
    (d : MemoryAuditDiagnostic.t) : Prop :=
  ∃ e, current_edge records TRANSITIVE_CALLER_LABELS e ∧ e.(EdgeRec.target) = p
    ∧ live_by_id records !! e.(EdgeRec.source) = None
    ∧ Liveness.deleted (Liveness.new records) e.(EdgeRec.source) = false
    ∧ d = unresolved_edge_source e.(EdgeRec.id) e.(EdgeRec.source)
            (EdgeLabel.as_str e.(EdgeRec.label)).

(** ** Lemmas *)
Section Correct.
Context (sort_unstable : list EdgeRef → list EdgeRef).
Hypothesis sort_unstable_perm : ∀ l, sort_unstable l ≡ₚ l.
Context (records : list GraphRecord).

Abbreviation inbound := (inbound_index sort_unstable records).
Abbreviation by_id := (live_by_id records).

Lemma inbound_edge_Some i r t x :
  records !! i = Some r →
  inbound_edge (Liveness.new records) (i, r) = Some (t, x) ↔
  ∃ e, r = Edge e
    ∧ Liveness.is_latest_edge_version (Liveness.new records) e.(EdgeRec.id) i = true
    ∧ Liveness.deleted (Liveness.new records) e.(EdgeRec.id) = false
    ∧ e.(EdgeRec.label) ∈ TRANSITIVE_CALLER_LABELS ∧ t = e.(EdgeRec.target)
    ∧ x = (e.(EdgeRec.source), e.(EdgeRec.id), EdgeLabel.as_str e.(EdgeRec.label),
           e.(EdgeRec.resolution)).
Proof.
  intros Hr. unfold inbound_edge. cbn [fst snd]. destruct r as [n|e|tb]; [naive_solver| |naive_solver].
  destruct (Liveness.is_latest_edge_version _ _ i) eqn:Hl; cbn [negb]; [|naive_solver congruence].
  destruct (Liveness.deleted _ _) eqn:Hd; cbn [orb]; [naive_solver congruence|].
  case_bool_decide as Hlab; cbn [negb]; [|naive_solver].
  split; [intros [= <- <-]; exists e; naive_solver|]. by intros (? & [= <-] & _ & _ & _ & -> & ->).
Qed.

Lemma inbound_spec t x :
  x ∈ default [] (inbound !! t) ↔
  ∃ e, current_edge records TRANSITIVE_CALLER_LABELS e ∧ t = e.(EdgeRec.target)
    ∧ x = (e.(EdgeRec.source), e.(EdgeRec.id), EdgeLabel.as_str e.(EdgeRec.label),
           e.(EdgeRec.resolution)).
Proof.
  unfold inbound_index. rewrite edge_index_spec; [|done|].
  - split.
    + intros (i & r & Hi & (e & -> & ? & ? & ? & -> & ->)%inbound_edge_Some); [|done].
      exists e. split; [|done]. by exists i.
    + intros (e & (i & Hi & ? & ? & ?) & -> & ->). exists i, (Edge e). split; [done|].
      apply inbound_edge_Some; [done|]. by exists e.
  - intros i j r s k y z Hi Hj Hy Hz Hk.
    apply inbound_edge_Some in Hy as (e & -> & Hl & _ & _ & _ & ->); [|done].
    apply inbound_edge_Some in Hz as (e' & -> & Hl' & _ & _ & _ & ->); [|done].
    cbn in Hk. injection Hk as Hs Hid. rewrite <-Hid in Hl'.
    pose proof (latest_edge_unique _ _ _ _ Hl Hl') as ->. congruence.
Qed.

(** What examining the edge [ne.2] of the node [ne.1] offers. *)
Definition caller_offer (ne : string * EdgeRef) : option (string * EdgeRef) :=
  let '(source_id, edge_id, label, resolution) := ne.2 in
  match by_id !! source_id with
  | Some _ => Some (source_id, (edge_id, ne.1, label, resolution))
  | None => None
  end.

Definition examine (report : bool) (visited : gset string)
    (acc : gmap string EdgeRef * list MemoryAuditDiagnostic.t) (ne : string * EdgeRef) :=
  discover records report visited ne.1 ne.2 acc.

Lemma examine_eq report visited D d n s eid lab res :
  examine report visited (D, d) (n, (s, eid, lab, res))
  = if bool_decide (s ∈ visited) then (D, d)
    else match by_id !! s with
         | None => (D, if report && negb (Liveness.deleted (Liveness.new records) s)
                       then d ++ [unresolved_edge_source eid s lab] else d)
         | Some _ => (offer ptr_parent ptr_edge visited D (s, (eid, n, lab, res)), d)
         end.
Proof.
  unfold examine, discover, offer, offer_by. cbn [fst snd]. case_bool_decide; [done|].
  destruct (by_id !! s) as [r|] eqn:Hr; [|done]. by rewrite (live_by_id_id _ _ _ Hr).
Qed.

Lemma offer_visited visited (D : gmap string EdgeRef) t q :
  t ∈ visited → offer ptr_parent ptr_edge visited D (t, q) = D.
Proof. intros Ht. unfold offer, offer_by. by rewrite bool_decide_eq_true_2. Qed.

Lemma examine_offers report visited l D d :
  (foldl (examine report visited) (D, d) l).1
  = foldl (offer ptr_parent ptr_edge visited) D (omap caller_offer l).
Proof.
  revert D d. induction l as [|[n [[[s eid] lab] res]] l IH]; intros D d; [done|].
  cbn [foldl]. rewrite examine_eq. cbn [omap list_omap]. unfold caller_offer at 1. cbn [fst snd].
  case_bool_decide as Hv.
  - destruct (by_id !! s); cbn [foldl]; [|apply IH]. rewrite offer_visited by done. apply IH.
  - destruct (by_id !! s); cbn [foldl]; apply IH.
Qed.

Lemma examine_emits report visited l D d x :
  x ∈ (foldl (examine report visited) (D, d) l).2 ↔
  x ∈ d ∨ report = true ∧ ∃ n s eid lab res, (n, (s, eid, lab, res)) ∈ l ∧ (s ∉ visited)
    ∧ by_id !! s = None ∧ Liveness.deleted (Liveness.new records) s = false
    ∧ x = unresolved_edge_source eid s lab.
Proof.
  revert D d. induction l as [|[n [[[s eid] lab] res]] l IH]; intros D d.
  { cbn. split; [by left|]. intros [?|(_ & ? & ? & ? & ? & ? & ?%elem_of_nil & _)]; done. }
  cbn [foldl]. rewrite examine_eq.
  assert (∀ P : string → string → string → string → option CallResolution.t → Prop,
    (∃ n' s' eid' lab' res', (n', (s', eid', lab', res')) ∈ (n, (s, eid, lab, res)) :: l
       ∧ P n' s' eid' lab' res')
    ↔ P n s eid lab res ∨ ∃ n' s' eid' lab' res', (n', (s', eid', lab', res')) ∈ l
       ∧ P n' s' eid' lab' res') as Hex.
  { intros P. setoid_rewrite elem_of_cons. naive_solver. }
  rewrite Hex. case_bool_decide as Hv; [rewrite IH; naive_solver|].
  destruct (by_id !! s) as [r|] eqn:Hr; [rewrite IH; naive_solver congruence|].
  rewrite IH. destruct report; cbn [andb]; [|naive_solver].
  destruct (Liveness.deleted _ s) eqn:Hd; cbn [negb]; [naive_solver congruence|].
  rewrite elem_of_app, list_elem_of_singleton. naive_solver.
Qed.

(** A level, as offers and reports of the examined edges. *)
Lemma discover_level_eq report frontier visited d :
  discover_level records inbound report frontier visited d
  = foldl (examine report visited) (∅, d)
      (frontier ≫= λ node, pair node <$> default [] (inbound !! node)).
Proof. apply (foldl_concat (λ n e acc, discover records report visited n e acc)). Qed.

Lemma examined_spec (frontier : list string) n x :
  (n, x) ∈ (frontier ≫= λ node, pair node <$> default [] (inbound !! node)) ↔
  n ∈ frontier ∧ x ∈ default [] (inbound !! n).
Proof. rewrite list_elem_of_bind. setoid_rewrite list_elem_of_fmap. naive_solver. Qed.

Lemma caller_offers_spec frontier y q :
  (y, q) ∈ omap caller_offer
    (frontier ≫= λ node, pair node <$> default [] (inbound !! node)) ↔
  ptr_parent q ∈ frontier ∧ caller_link records q y.
Proof.
  rewrite list_elem_of_omap. split.
  - intros ([n [[[s eid] lab] res]] & [Hn Hx]%examined_spec & Ho).
    unfold caller_offer in Ho. cbn [fst snd] in Ho.
    destruct (by_id !! s) eqn:Hs; [|done]. injection Ho as <- <-. split; [done|].
    apply inbound_spec in Hx as (e & He & -> & [= -> -> -> ->]). exists e.
    split; [done|]. split; [done|]. split; [done|]. by rewrite Hs.
  - intros [Hp (e & He & <- & -> & [r Hr])].
    exists (e.(EdgeRec.target), (e.(EdgeRec.source), e.(EdgeRec.id),
      EdgeLabel.as_str e.(EdgeRec.label), e.(EdgeRec.resolution))).
    split; [|by unfold caller_offer; cbn [fst snd]; rewrite Hr].
    apply examined_spec. split; [done|]. apply inbound_spec. by exists e.
Qed.

Lemma caller_level_sound report frontier visited d y q :
  (discover_level records inbound report frontier visited d).1 !! y = Some q →
  (y ∉ visited) ∧ least_link (caller_link records) (.∈ frontier) y q.
Proof.
  rewrite discover_level_eq, examine_offers. intros Hq.
  apply (proj1 (foldl_offer ptr_parent ptr_edge visited _)) in Hq as (Hv & Hin & Hmin).
  apply caller_offers_spec in Hin as [Hp Hl]. split; [done|]. split_and!; [done..|].
  intros q' Hq' Hl'. apply Hmin. by apply caller_offers_spec.
Qed.

Lemma caller_level_complete report frontier visited d y q :
  ptr_parent q ∈ frontier → caller_link records q y → y ∉ visited →
  is_Some ((discover_level records inbound report frontier visited d).1 !! y).
Proof.
  rewrite discover_level_eq, examine_offers. intros Hp Hl.
  apply (proj2 (foldl_offer ptr_parent ptr_edge visited _) y q). by apply caller_offers_spec.
Qed.

Lemma caller_level_emits report frontier (visited : gset string) d x :
  visited ⊆ dom by_id →
  x ∈ (discover_level records inbound report frontier visited d).2 ↔
  x ∈ d ∨ report = true ∧ ∃ p, p ∈ frontier ∧ dangling_source records p x.
Proof.
  intros Hv. rewrite discover_level_eq, examine_emits.
  match goal with |- _ ∨ _ ∧ ?A ↔ _ ∨ _ ∧ ?B => cut (A ↔ B); [by intros ->|] end. split.
  - intros (n & s & eid & lab & res & [Hn Hx]%examined_spec & _ & Hs & Hd & ->).
    apply inbound_spec in Hx as (e & He & -> & [= -> -> -> ->]).
    exists e.(EdgeRec.target). split; [done|]. by exists e.
  - intros (p & Hp & e & He & <- & Hs & Hd & ->).
    exists e.(EdgeRec.target), e.(EdgeRec.source), e.(EdgeRec.id),
      (EdgeLabel.as_str e.(EdgeRec.label)), e.(EdgeRec.resolution).
    split; [apply examined_spec; split; [done|]; apply inbound_spec; by exists e|].
    split; [|done]. intros [r Hr]%Hv%elem_of_dom. congruence.
Qed.

(** The records an edge leads to from [y]. *)
Definition callees_of (y : string) : list string :=
  omap (λ entry, match inbound_edge (Liveness.new records) entry with
                 | Some (t, x) => if bool_decide (x.1.1.1 = y ∧ is_Some (by_id !! y))
                                  then Some t else None
                 | None => None
                 end) (imap pair records).

Lemma callees_of_spec p y : reaches (caller_link records) p y ↔ p ∈ callees_of y.
Proof.
  unfold callees_of. rewrite list_elem_of_omap. split.
  - intros (q & <- & e & (i & Hi & ? & ? & ?) & <- & -> & Hl).
    exists (i, Edge e). split.
    + apply list_elem_of_lookup. exists i. by rewrite list_lookup_imap, Hi.
    + assert (inbound_edge (Liveness.new records) (i, Edge e)
        = Some (e.(EdgeRec.target), (e.(EdgeRec.source), e.(EdgeRec.id),
            EdgeLabel.as_str e.(EdgeRec.label), e.(EdgeRec.resolution)))) as ->.
      { apply inbound_edge_Some; [done|]. by exists e. }
      by rewrite bool_decide_eq_true_2.
  - intros ([i r] & Hi & Ho). apply list_elem_of_lookup in Hi as [j Hj].
    rewrite list_lookup_imap in Hj. destruct (records !! j) eqn:E; simplify_eq/=.
    destruct (inbound_edge _ _) as [[t x]|] eqn:Hx; [|done]. case_bool_decide as Hb; [|done].
    injection Ho as ->. apply inbound_edge_Some in Hx as (e & -> & ? & ? & ? & -> & ->); [|done].
    destruct Hb as [Hs Hl]. cbn in Hs. subst y. exists (caller_ref e). split; [done|].
    exists e. split_and!; [|done..]. by exists i.
Qed.

(** The lane keeps the laws of the search. *)
Lemma caller_laws anchor_id :
  is_Some (by_id !! anchor_id) →
  LevelLaws (discover_level records inbound) (caller_link records) callees_of anchor_id
    (dom by_id) (λ d x, x ∈ d) (dangling_source records).
Proof.
  intros Ha. constructor.
  - apply callees_of_spec.
  - by apply elem_of_dom.
  - intros p y (q & _ & e & _ & _ & _ & Hl). by apply elem_of_dom.
  - apply caller_level_sound.
  - apply caller_level_complete.
  - apply caller_level_emits.
Qed.

(** What the whole function computes. *)
Lemma transitive_callers_spec anchor_id anchor n :
  by_id !! anchor_id = Some anchor →
  ∃ ctx, transitive_callers sort_unstable records anchor_id n = Some (Some ctx)
    ∧ ctx.(TransitiveCallersContext.anchor) = anchor
    ∧ ctx.(TransitiveCallersContext.max_depth) = n
    ∧ rows_exact (caller_link records) anchor_id caller_path by_id n
        ctx.(TransitiveCallersContext.rows)
    ∧ truncation_exact (caller_link records) anchor_id n
        ctx.(TransitiveCallersContext.truncation)
    ∧ ∀ d, d ∈ ctx.(TransitiveCallersContext.diagnostics) ↔
        ∃ j p, j < n ∧ at_distance (reaches (caller_link records)) anchor_id j p
          ∧ dangling_source records p d.
Proof.
  intros Hanchor. unfold transitive_callers. rewrite Hanchor, (live_by_id_id _ _ _ Hanchor).
  assert (is_Some (by_id !! anchor_id)) as Hlaws%caller_laws by by rewrite Hanchor.
  assert (∀ d, d ∉ (@nil MemoryAuditDiagnostic.t)) as Hnil by (intros d; apply not_elem_of_nil).
  set (level := discover_level records inbound).
  destruct (truncate_spec level (caller_link records) callees_of anchor_id (dom by_id)
    (λ d x, x ∈ d) (dangling_source records) n [] _ Hnil eq_refl) as (o & d' & Ht & Hex & Hd').
  rewrite size_dom in Ht. rewrite Ht. cbn [mbind option_bind].
  destruct (build_rows_spec level (caller_link records) callees_of anchor_id (dom by_id)
    (λ d x, x ∈ d) (dangling_source records) caller_path by_id n [] _ Hnil eq_refl
    (λ x, elem_of_dom _ _) (live_by_id_id _)) as (rows & Hr & Hrows).
  rewrite Hr. cbn [mbind option_bind]. eexists. split; [done|].
  cbn [TransitiveCallersContext.anchor TransitiveCallersContext.max_depth
    TransitiveCallersContext.rows TransitiveCallersContext.truncation
    TransitiveCallersContext.diagnostics fst snd].
  split_and!; [done..|]. intros x.
  pose proof (proj2 (bounded_hops level (caller_link records) callees_of anchor_id (dom by_id)
    (λ d x, x ∈ d) (dangling_source records) n [] _ Hnil eq_refl)) as Hb.
  rewrite <-Hb, <-Hd'. split.
  - intros Hx%dedup_by_key_elem. by rewrite sort_by_perm in Hx.
  - intros Hx. assert (∀ y, y ∈ d' → ∃ eid s lab, y = unresolved_edge_source eid s lab) as Hform.
    { intros y Hy. apply Hd', Hb in Hy as (? & ? & _ & _ & e & _ & _ & _ & _ & ->). eauto. }
    destruct (dedup_by_key_key diagnostic_key (sort_by diagnostic_cmp d') x)
      as (y & Hy & Hk); [by rewrite sort_by_perm|].
    assert (y ∈ d') as Hyd by (apply dedup_by_key_elem in Hy; by rewrite sort_by_perm in Hy).
    destruct (Hform _ Hx) as (? & ? & ? & ->), (Hform _ Hyd) as (? & ? & ? & ->).
    unfold diagnostic_key in Hk. cbn in Hk. by simplify_eq.
Qed.
End Correct.

(** ** Properties *)

(** C29: [transitive_callers] terminates without panicking on every record list and bound.
    It answers [None] exactly when the anchor is not among the live records. Otherwise
    the rows are exactly the live records one to [max_depth] current [CALLS] or
    [REFERENCES] edges before the anchor, each once, ordered by distance and id, with
    its shortest distance, a path of that length whose every edge is the least between
    its two levels, and the weakest resolution on it; and the truncation counts exactly
    the records at every distance beyond the bound. *)
Theorem transitive_callers_complete sort_unstable records anchor_id n :
  (∀ l, sort_unstable l ≡ₚ l) →
  match live_by_id records !! anchor_id with
  | None => transitive_callers sort_unstable records anchor_id n = Some None
  | Some anchor =>
      ∃ ctx, transitive_callers sort_unstable records anchor_id n = Some (Some ctx)
        ∧ ctx.(TransitiveCallersContext.anchor) = anchor
        ∧ rows_exact (caller_link records) anchor_id caller_path (live_by_id records) n
            ctx.(TransitiveCallersContext.rows)
        ∧ truncation_exact (caller_link records) anchor_id n
            ctx.(TransitiveCallersContext.truncation)
  end.
Proof.
  intros Hperm. destruct (live_by_id records !! anchor_id) as [anchor|] eqn:Ha.
  - destruct (transitive_callers_spec _ Hperm records anchor_id anchor n Ha)
      as (ctx & Hc & Han & _ & Hr & Ht & _). by exists ctx.
  - unfold transitive_callers. by rewrite Ha.
Qed.

(** The diagnostics of [transitive_callers] are exactly the current [CALLS] and
    [REFERENCES] edges, into a record closer to the anchor than the bound, whose source
    is neither a live nor a deleted record: no dangling edge inside the bound is dropped,
    and none beyond it is reported. *)
Theorem transitive_callers_diagnostics sort_unstable records anchor_id n ctx :
  (∀ l, sort_unstable l ≡ₚ l) →
  transitive_callers sort_unstable records anchor_id n = Some (Some ctx) →
  ∀ d, d ∈ ctx.(TransitiveCallersContext.diagnostics) ↔
    ∃ j e, j < n ∧ current_edge records TRANSITIVE_CALLER_LABELS e
      ∧ at_distance (reaches (caller_link records)) anchor_id j e.(EdgeRec.target)
      ∧ live_by_id records !! e.(EdgeRec.source) = None
      ∧ Liveness.deleted (Liveness.new records) e.(EdgeRec.source) = false
      ∧ d = unresolved_edge_source e.(EdgeRec.id) e.(EdgeRec.source)
              (EdgeLabel.as_str e.(EdgeRec.label)).
Proof.
  intros Hperm Hc d. destruct (live_by_id records !! anchor_id) as [anchor|] eqn:Ha.
  - destruct (transitive_callers_spec _ Hperm records anchor_id anchor n Ha)
      as (ctx' & Hc' & _ & _ & _ & _ & Hd). assert (ctx' = ctx) as -> by congruence.
    rewrite Hd. split.
    + intros (j & p & Hj & Hp & e & He & <- & Hl & Hdel & ->). by exists j, e.
    + intros (j & e & Hj & He & Hp & Hl & Hdel & ->).
      exists j, e.(EdgeRec.target). split_and!; [done..|]. by exists e.
  - unfold transitive_callers in Hc. by rewrite Ha in Hc.
Qed.

(** ** A concrete graph *)
Definition demo_symbol (id : string) : GraphRecord :=
  GraphRecord.node id NodeKind.Symbol None None (Some id) "".
Definition demo_edge (label : EdgeLabel.t) (source target : string) : GraphRecord :=
  GraphRecord.edge (λ s, s) label source target None "".

(** [b] and [c] call [a], [d] references [c], and a record that does not exist calls [a]. *)
Definition demo_records : list GraphRecord :=
  (demo_symbol <$> ["a"; "b"; "c"; "d"]) ++
  [demo_edge EdgeLabel.Calls "c" "a"; demo_edge EdgeLabel.Calls "b" "a";
   demo_edge EdgeLabel.References "d" "c"; demo_edge EdgeLabel.Calls "a" "d";
   demo_edge EdgeLabel.Calls "ghost" "a"; demo_edge EdgeLabel.Contains "d" "a"].
Definition outcome (r : option (option TransitiveCallersContext.t)) :=
  option_map (option_map (λ c : TransitiveCallersContext.t,
    ((λ r : Row.t, (r.(Row.hop), GraphRecord.id r.(Row.record)))
       <$> c.(TransitiveCallersContext.rows),
     c.(TransitiveCallersContext.truncation),
     MemoryAuditDiagnostic.target_handle <$> c.(TransitiveCallersContext.diagnostics)))) r.

Example demo_callers :
  outcome (transitive_callers edge_sort demo_records "a" 1)
  = Some (Some ([(1, "b"); (1, "c")],
      Some (Truncation.mk 1 [Dropped.mk 2 1] 1), ["ghost"])).
Proof. vm_compute. reflexivity. Qed.

Lemma transitive_callers_complete_witness :
  ∃ ctx, transitive_callers edge_sort demo_records "a" 1 = Some (Some ctx)
    ∧ truncation_exact (caller_link demo_records) "a" 1
        ctx.(TransitiveCallersContext.truncation).
Proof.
  pose proof (transitive_callers_complete edge_sort demo_records "a" 1 edge_sort_perm) as H.
  assert (is_Some (live_by_id demo_records !! "a")) as [x Hx] by (by vm_compute; eexists).
  rewrite Hx in H. clear Hx. destruct H as (ctx & Hc & _ & _ & Ht).
  exists ctx. split; [exact Hc|exact Ht].
Defined.

Lemma transitive_callers_diagnostics_witness :
  ∃ ctx, transitive_callers edge_sort demo_records "a" 1 = Some (Some ctx)
    ∧ ∃ e, current_edge demo_records TRANSITIVE_CALLER_LABELS e ∧ e.(EdgeRec.source) = "ghost".
Proof.
  destruct (transitive_callers edge_sort demo_records "a" 1) as [[ctx|]|] eqn:Hc;
    [|vm_compute in Hc; discriminate..].
  exists ctx. split; [reflexivity|].
  pose proof demo_callers as Ho. rewrite Hc in Ho. cbn in Ho. injection Ho as _ _ Hd.
  destruct (ctx.(TransitiveCallersContext.diagnostics)) as [|d l] eqn:Hds; [discriminate Hd|].
  assert (d ∈ ctx.(TransitiveCallersContext.diagnostics)) as Hin by (rewrite Hds; by left).
  apply (transitive_callers_diagnostics edge_sort demo_records "a" 1 ctx edge_sort_perm Hc)
    in Hin as (j & e & _ & He & _ & _ & _ & Heq).
  exists e. split; [exact He|]. subst d. cbn in Hd. injection Hd as Hd _. exact Hd.
Defined.
