(* ===== verification/TransitiveCallees.v ===== *)
(** * Transitive callees

    [src/src/query/transitive_callees.rs]: the outbound mirror of the transitive callers
    over the four dependency labels. An edge to a [Diagnostic] marker, with an
    unresolved resolution or to a missing record goes to the [unresolved] category. *)
From S2P Require Import Prelude RustStr Ir IrOps Liveness LevelSearch DepthSearch.

Module UnresolvedCalleeReason.
(* query/transitive_callees.rs 66-79: UnresolvedCalleeReason *)
Inductive t : Type :=
| UnresolvedCall
| UnresolvedDispatch
| MissingTarget.

(* query/transitive_callees.rs 84-90: UnresolvedCalleeReason::as_str *)
Definition as_str (self : t) : string :=
  match self with
  | UnresolvedCall => "unresolved_call"
  | UnresolvedDispatch => "unresolved_dispatch"
  | MissingTarget => "missing_target"
  end.
End UnresolvedCalleeReason.

Module UnresolvedCalleeRow.
(* query/transitive_callees.rs 99-118: UnresolvedCalleeRow *)
Record t : Type := mk {
  diagnostic : option GraphRecord;
  target_id : string;
  source_id : string;
  source_hop : nat;
  edge_id : string;
  relation : string;
  resolution : option CallResolution.t;
  reason : UnresolvedCalleeReason.t
}.
End UnresolvedCalleeRow.

Module TransitiveCalleesContext.
(* query/transitive_callees.rs 145-157: TransitiveCalleesContext *)
Record t : Type := mk {
  anchor : GraphRecord;
  rows : list Row.t;
  unresolved : list UnresolvedCalleeRow.t;
  truncation : option Truncation.t;
  max_depth : nat
}.
End TransitiveCalleesContext.

(* query/transitive_callees.rs 16-21: TRANSITIVE_CALLEE_LABELS *)
Definition TRANSITIVE_CALLEE_LABELS : list EdgeLabel.t :=
  [EdgeLabel.Calls; EdgeLabel.Implements; EdgeLabel.Imports; EdgeLabel.References].

(** [target.anchor_ids] is a [BTreeSet], iterated in order. *)
(* query/transitive_callees.rs 166-177: transitive_callees_non_symbol_anchor_kind *)
Definition transitive_callees_non_symbol_anchor_kind (records : list GraphRecord)
    (anchor_ids : gset string) : option NodeKind.t :=
  let by_id : gmap string GraphRecord :=
    foldl (λ m r, <[GraphRecord.id r := r]> m) ∅ records in
  head (filter (λ kind, kind ≠ NodeKind.Symbol)
    (omap GraphRecord.node_kind_ref
      (omap (λ id, by_id !! id) (str_sort (elements anchor_ids))))).

(** The outbound edge of a record, as [(source, (target, edge, label, resolution))]. *)
(* query/transitive_callees.rs 239-270: transitive_callees *)
Definition outbound_edge (liveness : Liveness.t) (entry : nat * GraphRecord)
    : option (string * EdgeRef) :=
  match entry.2 with
  | Edge e =>
      if negb (Liveness.is_latest_edge_version liveness e.(EdgeRec.id) entry.1) then None
      else if Liveness.deleted liveness e.(EdgeRec.id)
              || negb (bool_decide (e.(EdgeRec.label) ∈ TRANSITIVE_CALLEE_LABELS)) then None
      else Some (e.(EdgeRec.source),
                 (e.(EdgeRec.target), e.(EdgeRec.id), EdgeLabel.as_str e.(EdgeRec.label),
                  e.(EdgeRec.resolution)))
  | _ => None
  end.

Section Level.
Context (records : list GraphRecord) (anchor_id : string)
        (outbound : gmap string (list EdgeRef)).

Abbreviation by_id := (live_by_id records).

(* query/transitive_callees.rs 312-312: transitive_callees *)
Definition is_diagnostic (rec : GraphRecord) : bool :=
  bool_decide (GraphRecord.node_kind_ref rec = Some NodeKind.Diagnostic).

(** [(candidate.1.1, candidate.1.0) < (prev_parent, prev_edge)]. *)
(* query/transitive_callees.rs 327-328: transitive_callees *)
Definition pointer_lt (a b : EdgeRef) : bool :=
  bool_decide (lex_cmp ptr_parent ptr_edge a b = Lt).

(** One outbound edge of [node]. *)
(* query/transitive_callees.rs 299-333: transitive_callees *)
Definition discover (visited : gset string) (node : string) (edge : EdgeRef)
    (discoveries : gmap string EdgeRef) : gmap string EdgeRef :=
  let '(target_id, edge_id, label, resolution) := edge in
  if target_id =s? anchor_id then discoveries
  else
    match by_id !! target_id with
    | None => discoveries
    | Some rec =>
        if is_diagnostic rec
           || bool_decide (resolution = Some CallResolution.Unresolved) then discoveries
        else if bool_decide (target_id ∈ visited) then discoveries
        else
          let id := GraphRecord.id rec in
          let candidate := (edge_id, node, label, resolution) in
          match discoveries !! id with
          | None => <[id := candidate]> discoveries
          | Some prev =>
              if pointer_lt candidate prev then <[id := candidate]> discoveries
              else discoveries
          end
    end.

(* query/transitive_callees.rs 287-336: transitive_callees *)
Definition discover_level (frontier : list string) (visited : gset string)
    : gmap string EdgeRef :=
  foldl (λ acc node, foldl (λ acc edge, discover visited node edge acc) acc
                       (default [] (outbound !! node))) ∅ frontier.

(** The unresolved entry of one edge of [node], as [((label, target, edge), row)]. *)
(* query/transitive_callees.rs 367-427: transitive_callees *)
Definition unresolved_entry (node : string) (source_hop : nat) (edge : EdgeRef)
    : option (string * string * string * UnresolvedCalleeRow.t) :=
  let '(target_id, edge_id, label, resolution) := edge in
  let entry diagnostic reason :=
    Some (label, target_id, edge_id,
          UnresolvedCalleeRow.mk diagnostic target_id node source_hop edge_id label
            resolution reason) in
  if target_id =s? anchor_id then None
  else
    match by_id !! target_id with
    | Some rec =>
        if is_diagnostic rec
           || bool_decide (resolution = Some CallResolution.Unresolved)
           || bool_decide (resolution = Some CallResolution.UnresolvedDispatch)
        then
          entry (Some rec)
            (if bool_decide (resolution = Some CallResolution.UnresolvedDispatch)
             then UnresolvedCalleeReason.UnresolvedDispatch
             else UnresolvedCalleeReason.UnresolvedCall)
        else None
    | None =>
        entry None
          (if bool_decide (resolution = Some CallResolution.UnresolvedDispatch)
           then UnresolvedCalleeReason.UnresolvedDispatch
           else if bool_decide (resolution = Some CallResolution.Unresolved)
           then UnresolvedCalleeReason.UnresolvedCall
           else UnresolvedCalleeReason.MissingTarget)
    end.

(** The nodes whose edges are inside the bound: the anchor, then the [BTreeMap] of
    hops in key order. *)
(* query/transitive_callees.rs 361-364: transitive_callees *)
Definition bounded_sources (max_depth : nat) (hop_of : gmap string nat)
    : list (string * nat) :=
  filter (λ nh : string * nat, nh.2 < max_depth)
    ((anchor_id, 0)
       :: sort_by (λ a b : string * nat, String.compare a.1 b.1) (map_to_list hop_of)).

(** [unresolved.entry(key).or_insert(row)]. *)
Definition or_insert (m : gmap (string * string * string) UnresolvedCalleeRow.t)
    (kv : string * string * string * UnresolvedCalleeRow.t)
    : gmap (string * string * string) UnresolvedCalleeRow.t :=
  match m !! kv.1 with Some _ => m | None => <[kv.1 := kv.2]> m end.

(* query/transitive_callees.rs 352-429: transitive_callees *)
Definition unresolved_map (max_depth : nat) (hop_of : gmap string nat)
    : gmap (string * string * string) UnresolvedCalleeRow.t :=
  foldl (λ acc (nh : string * nat),
    foldl (λ acc edge, match unresolved_entry nh.1 nh.2 edge with
                       | Some kv => or_insert acc kv
                       | None => acc
                       end) acc (default [] (outbound !! nh.1)))
    ∅ (bounded_sources max_depth hop_of).
End Level.

(** [unresolved.into_values()], in the order of the keys [(relation, target, edge)]. *)
(* query/transitive_callees.rs 508-508: transitive_callees *)
Definition unresolved_cmp (a b : UnresolvedCalleeRow.t) : comparison :=
  then_cmp (String.compare a.(UnresolvedCalleeRow.relation) b.(UnresolvedCalleeRow.relation))
    (then_cmp (String.compare a.(UnresolvedCalleeRow.target_id)
                 b.(UnresolvedCalleeRow.target_id))
      (String.compare a.(UnresolvedCalleeRow.edge_id) b.(UnresolvedCalleeRow.edge_id))).

(** The chain from the row back to the anchor, reversed. *)
(* query/transitive_callees.rs 474-486: transitive_callees *)
Definition callee_path (chain : list (string * EdgeRef)) : list PathStep.t :=
  reverse ((λ cq : string * EdgeRef,
    PathStep.mk (ptr_parent cq.2) (ptr_edge cq.2) cq.2.1.2 cq.2.2 cq.1) <$> chain).

Section Callees.
(** [edges.sort_unstable_by(|a, b| (a.0, a.1).cmp(&(b.0, b.1)))]. *)
Context (sort_unstable : list EdgeRef → list EdgeRef).

(* query/transitive_callees.rs 237-276: transitive_callees *)
Definition outbound_index (records : list GraphRecord) : gmap string (list EdgeRef) :=
  edge_index ref_key sort_unstable (outbound_edge (Liveness.new records)) records.

(** The discovery of a level reports nothing on the way. *)
Definition quiet_level (level : list string → gset string → gmap string EdgeRef)
    (report : bool) (frontier : list string) (visited : gset string) (d : unit)
    : gmap string EdgeRef * unit := (level frontier visited, d).

(** The outer [option] is the model's: fuel running out or an [expect] panicking. *)
(* query/transitive_callees.rs 214-512: transitive_callees *)
Definition transitive_callees (records : list GraphRecord) (anchor_id : string)
    (max_depth : nat) : option (option TransitiveCalleesContext.t) :=
  let by_id := live_by_id records in
  match by_id !! anchor_id with
  | None => Some None
  | Some anchor =>
      let anchor_id := GraphRecord.id anchor in
      let outbound := outbound_index records in
      let level := quiet_level (discover_level records anchor_id outbound) in
      let b := bounded_loop level max_depth (start anchor_id tt) in
      let unresolved := unresolved_map records anchor_id outbound max_depth b.(hop_of) in
      let?o td := truncate level (S (size by_id)) max_depth b in
      let?o rows := build_rows callee_path by_id anchor_id b in
      Some (Some (TransitiveCalleesContext.mk anchor rows
        (sort_by unresolved_cmp (map_to_list unresolved).*2) td.1 max_depth))
  end.
End Callees.

(** ** The specification *)

(** The pointer an edge gives to its target. *)
Definition callee_ref (e : EdgeRec.t) : EdgeRef :=
  (e.(EdgeRec.id), e.(EdgeRec.source), EdgeLabel.as_str e.(EdgeRec.label),
   e.(EdgeRec.resolution)).

(** The parent of [q] depends on [y] over the edge of [q], and [y] is a live record that
    is neither the anchor nor a diagnostic marker. *)
Definition callee_link (records : list GraphRecord) (anchor_id : string) (q : EdgeRef)
    (y : string) : Prop :=
  ∃ e rec, current_edge records TRANSITIVE_CALLEE_LABELS e ∧ e.(EdgeRec.target) = y
    ∧ q = callee_ref e ∧ y ≠ anchor_id ∧ live_by_id records !! y = Some rec
    ∧ GraphRecord.node_kind_ref rec ≠ Some NodeKind.Diagnostic
    ∧ e.(EdgeRec.resolution) ≠ Some CallResolution.Unresolved.

(** The edge [e] from a record [j] links away has no resolved in-graph target. *)
Definition unresolved_target (records : list GraphRecord) (anchor_id : string)
    (e : EdgeRec.t) : Prop :=
  e.(EdgeRec.target) ≠ anchor_id
  ∧ ∀ rec, live_by_id records !! e.(EdgeRec.target) = Some rec →
      GraphRecord.node_kind_ref rec = Some NodeKind.Diagnostic
      ∨ e.(EdgeRec.resolution) = Some CallResolution.Unresolved
      ∨ e.(EdgeRec.resolution) = Some CallResolution.UnresolvedDispatch.

Definition unresolved_reason (records : list GraphRecord) (e : EdgeRec.t)
    : UnresolvedCalleeReason.t :=
  match e.(EdgeRec.resolution), live_by_id records !! e.(EdgeRec.target) with
  | Some CallResolution.UnresolvedDispatch, _ => UnresolvedCalleeReason.UnresolvedDispatch
  | Some CallResolution.Unresolved, _ => UnresolvedCalleeReason.UnresolvedCall
  | _, Some _ => UnresolvedCalleeReason.UnresolvedCall
  | _, None => UnresolvedCalleeReason.MissingTarget
  end.

Definition unresolved_row (records : list GraphRecord) (e : EdgeRec.t) (j : nat)
    : UnresolvedCalleeRow.t :=
  UnresolvedCalleeRow.mk (live_by_id records !! e.(EdgeRec.target)) e.(EdgeRec.target)
    e.(EdgeRec.source) j e.(EdgeRec.id) (EdgeLabel.as_str e.(EdgeRec.label))
    e.(EdgeRec.resolution) (unresolved_reason records e).

(** ** Lemmas *)
Section Correct.
Context (sort_unstable : list EdgeRef → list EdgeRef).
Hypothesis sort_unstable_perm : ∀ l, sort_unstable l ≡ₚ l.
Context (records : list GraphRecord) (anchor_id : string).

Abbreviation outbound := (outbound_index sort_unstable records).
Abbreviation by_id := (live_by_id records).
Abbreviation level := (discover_level records anchor_id outbound).
Abbreviation link := (callee_link records anchor_id).
Abbreviation out_ref e :=
  (e.(EdgeRec.target), e.(EdgeRec.id), EdgeLabel.as_str e.(EdgeRec.label),
   e.(EdgeRec.resolution)).

Lemma dependency_edge_Some i r s x :
  records !! i = Some r →
  outbound_edge (Liveness.new records) (i, r) = Some (s, x) ↔
  ∃ e, r = Edge e
    ∧ Liveness.is_latest_edge_version (Liveness.new records) e.(EdgeRec.id) i = true
    ∧ Liveness.deleted (Liveness.new records) e.(EdgeRec.id) = false
    ∧ e.(EdgeRec.label) ∈ TRANSITIVE_CALLEE_LABELS ∧ s = e.(EdgeRec.source)
    ∧ x = out_ref e.
Proof.
  intros Hr. unfold outbound_edge. cbn [fst snd].
  destruct r as [n|e|tb]; [naive_solver| |naive_solver].
  destruct (Liveness.is_latest_edge_version _ _ i) eqn:Hl; cbn [negb]; [|naive_solver congruence].
  destruct (Liveness.deleted _ _) eqn:Hd; cbn [orb]; [naive_solver congruence|].
  case_bool_decide as Hlab; cbn [negb]; [|naive_solver].
  split; [intros [= <- <-]; exists e; naive_solver|]. by intros (? & [= <-] & _ & _ & _ & -> & ->).
Qed.

Lemma outbound_spec s x :
  x ∈ default [] (outbound !! s) ↔
  ∃ e, current_edge records TRANSITIVE_CALLEE_LABELS e ∧ s = e.(EdgeRec.source)
    ∧ x = out_ref e.
Proof.
  unfold outbound_index. rewrite edge_index_spec; [|done|].
  - split.
    + intros (i & r & Hi & (e & -> & ? & ? & ? & -> & ->)%dependency_edge_Some); [|done].
      exists e. split; [|done]. by exists i.
    + intros (e & (i & Hi & ? & ? & ?) & -> & ->). exists i, (Edge e). split; [done|].
      apply dependency_edge_Some; [done|]. by exists e.
  - intros i j r t k y z Hi Hj Hy Hz Hk.
    apply dependency_edge_Some in Hy as (e & -> & Hl & _ & _ & _ & ->); [|done].
    apply dependency_edge_Some in Hz as (e' & -> & Hl' & _ & _ & _ & ->); [|done].
    cbn in Hk. injection Hk as Hs Hid. rewrite <-Hid in Hl'.
    pose proof (latest_edge_unique _ _ _ _ Hl Hl') as ->. congruence.
Qed.

(** What examining the edge [ne.2] of the node [ne.1] offers. *)
Definition callee_offer (ne : string * EdgeRef) : option (string * EdgeRef) :=
  let '(target_id, edge_id, label, resolution) := ne.2 in
  if target_id =s? anchor_id then None
  else
    match by_id !! target_id with
    | Some rec =>
        if is_diagnostic rec || bool_decide (resolution = Some CallResolution.Unresolved)
        then None else Some (target_id, (edge_id, ne.1, label, resolution))
    | None => None
    end.

Lemma callee_discover_offer visited D ne :
  discover records anchor_id visited ne.1 ne.2 D
  = match callee_offer ne with
    | Some o => offer ptr_parent ptr_edge visited D o
    | None => D
    end.
Proof.
  destruct ne as [n [[[t eid] lab] res]]. unfold discover, callee_offer, offer, offer_by. cbn [fst snd].
  destruct (t =s? anchor_id); [done|]. destruct (by_id !! t) as [rec|] eqn:Hrec; [|done].
  rewrite (live_by_id_id _ _ _ Hrec). destruct (_ || _); [done|]. cbn [fst snd].
  by case_bool_decide.
Qed.

Lemma level_eq frontier visited :
  level frontier visited
  = foldl (offer ptr_parent ptr_edge visited) ∅ (omap callee_offer
      (frontier ≫= λ node, pair node <$> default [] (outbound !! node))).
Proof.
  unfold discover_level.
  rewrite (foldl_concat (λ n e acc, discover records anchor_id visited n e acc)).
  generalize (frontier ≫= λ node, pair node <$> default [] (outbound !! node)). intros l.
  rewrite (foldl_ext_elem _ (λ D ne, match callee_offer ne with
    | Some o => offer ptr_parent ptr_edge visited D o | None => D end) l ∅)
    by (intros; apply callee_discover_offer).
  generalize (∅ : gmap string EdgeRef). induction l as [|ne l IH]; intros D; [done|].
  cbn [foldl omap list_omap]. destruct (callee_offer ne); cbn [foldl]; apply IH.
Qed.

Lemma callee_offers_spec frontier y q :
  (y, q) ∈ omap callee_offer
    (frontier ≫= λ node, pair node <$> default [] (outbound !! node)) ↔
  ptr_parent q ∈ frontier ∧ link q y.
Proof.
  rewrite list_elem_of_omap. setoid_rewrite list_elem_of_bind.
  setoid_rewrite list_elem_of_fmap. split.
  - intros (ne & (n & (x & -> & Hx) & Hn) & Ho).
    apply outbound_spec in Hx as (e & He & -> & ->). unfold callee_offer in Ho.
    cbn [fst snd] in Ho. destruct (String.eqb_spec e.(EdgeRec.target) anchor_id); [done|].
    destruct (by_id !! e.(EdgeRec.target)) as [rec|] eqn:Hrec; [|done].
    destruct (is_diagnostic rec || _) eqn:Hd; [done|]. injection Ho as <- <-.
    split; [done|]. unfold is_diagnostic in Hd. breflect. exists e, rec. done.
  - intros [Hp (e & rec & He & <- & -> & Hne & Hrec & Hk & Hres)].
    exists (e.(EdgeRec.source), out_ref e). split.
    + exists e.(EdgeRec.source). split; [|done]. exists (out_ref e). split; [done|].
      apply outbound_spec. by exists e.
    + unfold callee_offer, is_diagnostic. cbn [fst snd].
      rewrite (proj2 (String.eqb_neq _ _) Hne), Hrec. by rewrite !bool_decide_eq_false_2.
Qed.

Abbreviation quiet := (quiet_level level).

Lemma callee_level_sound report frontier visited d y q :
  (quiet report frontier visited d).1 !! y = Some q →
  (y ∉ visited) ∧ least_link link (.∈ frontier) y q.
Proof.
  cbn [quiet_level fst]. rewrite level_eq. intros Hq.
  apply (proj1 (foldl_offer ptr_parent ptr_edge visited _)) in Hq as (Hv & Hin & Hmin).
  apply callee_offers_spec in Hin as [Hp Hl]. split; [done|]. split_and!; [done..|].
  intros q' Hq' Hl'. apply Hmin. by apply callee_offers_spec.
Qed.

Lemma callee_level_complete report frontier visited d y q :
  ptr_parent q ∈ frontier → link q y → y ∉ visited →
  is_Some ((quiet report frontier visited d).1 !! y).
Proof.
  cbn [quiet_level fst]. rewrite level_eq. intros Hp Hl.
  apply (proj2 (foldl_offer ptr_parent ptr_edge visited _) y q). by apply callee_offers_spec.
Qed.

Lemma callee_level_quiet (report : bool) (frontier : list string) (visited : gset string) (d x : unit) :
  visited ⊆ dom by_id →
  False ↔ False ∨ report = true ∧ ∃ p, p ∈ frontier ∧ False.
Proof. naive_solver. Qed.

(** The records with an edge to [y]. *)
Definition sources_of (y : string) : list string :=
  omap (λ entry, match outbound_edge (Liveness.new records) entry with
                 | Some (s, x) => match callee_offer (s, x) with
                                  | Some o => if bool_decide (o.1 = y) then Some s else None
                                  | None => None
                                  end
                 | None => None
                 end) (imap pair records).

Lemma sources_of_spec p y : reaches link p y ↔ p ∈ sources_of y.
Proof.
  unfold sources_of. rewrite list_elem_of_omap. split.
  - intros (q & <- & e & rec & (i & Hi & ? & ? & ?) & <- & -> & Hne & Hrec & Hk & Hres).
    exists (i, Edge e). split.
    + apply list_elem_of_lookup. exists i. by rewrite list_lookup_imap, Hi.
    + assert (outbound_edge (Liveness.new records) (i, Edge e)
        = Some (e.(EdgeRec.source), out_ref e)) as ->.
      { apply dependency_edge_Some; [done|]. by exists e. }
      unfold callee_offer, is_diagnostic. cbn [fst snd].
      rewrite (proj2 (String.eqb_neq _ _) Hne), Hrec.
      rewrite !bool_decide_eq_false_2 by done. cbn [orb fst].
      by rewrite bool_decide_eq_true_2.
  - intros ([i r] & Hi & Ho). apply list_elem_of_lookup in Hi as [j Hj].
    rewrite list_lookup_imap in Hj. destruct (records !! j) eqn:E; simplify_eq/=.
    destruct (outbound_edge _ _) as [[s x]|] eqn:Hx; [|done].
    apply dependency_edge_Some in Hx as (e & -> & ? & ? & ? & -> & ->); [|done].
    unfold callee_offer in Ho. cbn [fst snd] in Ho.
    destruct (String.eqb_spec e.(EdgeRec.target) anchor_id); [done|].
    destruct (by_id !! e.(EdgeRec.target)) as [rec|] eqn:Hrec; [|done].
    destruct (is_diagnostic rec || _) eqn:Hd; [done|]. cbn [fst] in Ho.
    case_bool_decide as Hy; [|done]. injection Ho as <-. unfold is_diagnostic in Hd. breflect.
    exists (callee_ref e). split; [done|]. exists e, rec. split; [by exists i|].
    subst y. done.
Qed.

(** ** The unresolved category *)

(** [or_insert] keeps the first value of a key; here all values of a key agree. *)
Lemma foldl_or_insert l :
  (∀ k v v', (k, v) ∈ l → (k, v') ∈ l → v = v') →
  ∀ k v, foldl or_insert ∅ l !! k = Some v ↔ (k, v) ∈ l.
Proof.
  induction l as [|[k0 v0] l IH] using rev_ind; intros Hf k v.
  { cbn. rewrite lookup_empty. split; [done|by intros ?%elem_of_nil]. }
  assert (∀ k v, foldl or_insert ∅ l !! k = Some v ↔ (k, v) ∈ l) as IH'.
  { apply IH. intros k' v1 v2 H1 H2. apply (Hf k'); apply elem_of_app; by left. }
  rewrite foldl_app. cbn [foldl]. unfold or_insert at 1. cbn [fst snd].
  rewrite elem_of_app, list_elem_of_singleton, <-IH'.
  destruct (foldl or_insert ∅ l !! k0) as [v1|] eqn:Hk0.
  - split; [by left|]. intros [?|[= -> ->]]; [done|]. rewrite Hk0. f_equal.
    apply (Hf k0); apply elem_of_app; [left; by apply IH'|right; by left].
  - rewrite lookup_insert_Some. split; [naive_solver|].
    intros [Hk|[= -> ->]]; [|by left]. right. split; [|done]. intros ->. congruence.
Qed.

Lemma unresolved_entry_Some e j k u :
  unresolved_entry records anchor_id e.(EdgeRec.source) j (out_ref e) = Some (k, u) ↔
  unresolved_target records anchor_id e ∧ u = unresolved_row records e j
  ∧ k = (EdgeLabel.as_str e.(EdgeRec.label), e.(EdgeRec.target), e.(EdgeRec.id)).
Proof.
  unfold unresolved_entry, unresolved_target, unresolved_row, unresolved_reason, is_diagnostic.
  destruct (String.eqb_spec e.(EdgeRec.target) anchor_id) as [Ha|Ha]; [naive_solver|].
  destruct (by_id !! e.(EdgeRec.target)) as [rec|] eqn:Hrec.
  - destruct (decide (GraphRecord.node_kind_ref rec = Some NodeKind.Diagnostic)) as [Hd|Hd].
    + rewrite bool_decide_eq_true_2 by done. cbn [orb].
      destruct (e.(EdgeRec.resolution)) as [[]|] eqn:Hres;
        repeat case_bool_decide; try done; naive_solver.
    + rewrite bool_decide_eq_false_2 by done. cbn [orb].
      destruct (e.(EdgeRec.resolution)) as [[]|] eqn:Hres;
        repeat (case_bool_decide; try done); cbn [orb]; naive_solver congruence.
  - destruct (e.(EdgeRec.resolution)) as [[]|] eqn:Hres;
      repeat (case_bool_decide; try done); naive_solver.
Qed.

(** The map holds exactly the unresolved edges from the given sources. *)
Lemma unresolved_map_spec n (hop_of : gmap string nat) u :
  (∀ x j j', (x, j) ∈ bounded_sources anchor_id n hop_of →
     (x, j') ∈ bounded_sources anchor_id n hop_of → j = j') →
  (∃ k, unresolved_map records anchor_id outbound n hop_of !! k = Some u) ↔
  ∃ e j, current_edge records TRANSITIVE_CALLEE_LABELS e
    ∧ (e.(EdgeRec.source), j) ∈ bounded_sources anchor_id n hop_of
    ∧ unresolved_target records anchor_id e ∧ u = unresolved_row records e j.
Proof.
  intros Huniq. unfold unresolved_map.
  rewrite (foldl_concat (λ (nh : string * nat) edge acc,
    match unresolved_entry records anchor_id nh.1 nh.2 edge with
    | Some kv => or_insert acc kv | None => acc end)
    (λ nh : string * nat, default [] (outbound !! nh.1))).
  set (l := bounded_sources anchor_id n hop_of ≫= _).
  assert (∀ (l : list ((string * nat) * EdgeRef)) acc,
    foldl (λ acc ab, match unresolved_entry records anchor_id ab.1.1 ab.1.2 ab.2 with
      | Some kv => or_insert acc kv | None => acc end) acc l
    = foldl or_insert acc (omap (λ ab : (string * nat) * EdgeRef,
        unresolved_entry records anchor_id ab.1.1 ab.1.2 ab.2) l)) as ->.
  { clear. induction l as [|ab l IH]; intros acc; [done|]. cbn [foldl omap list_omap].
    destruct (unresolved_entry _ _ _ _ _); cbn [foldl]; apply IH. }
  assert (∀ k u, (k, u) ∈ omap (λ ab : (string * nat) * EdgeRef,
      unresolved_entry records anchor_id ab.1.1 ab.1.2 ab.2) l ↔
    ∃ e j, current_edge records TRANSITIVE_CALLEE_LABELS e
      ∧ (e.(EdgeRec.source), j) ∈ bounded_sources anchor_id n hop_of
      ∧ unresolved_target records anchor_id e ∧ u = unresolved_row records e j
      ∧ k = (EdgeLabel.as_str e.(EdgeRec.label), e.(EdgeRec.target), e.(EdgeRec.id))) as Hl.
  { intros k v. rewrite list_elem_of_omap. unfold l. setoid_rewrite list_elem_of_bind.
    setoid_rewrite list_elem_of_fmap. split.
    - intros (ab & ([x j] & (r & -> & Hr) & Hx) & Ho).
      cbn [fst snd] in Hr, Ho. apply outbound_spec in Hr as (e & He & -> & ->).
      apply unresolved_entry_Some in Ho as (? & ? & ?). by exists e, j.
    - intros (e & j & He & Hs & Hu & -> & ->).
      exists ((e.(EdgeRec.source), j), out_ref e). split.
      + exists (e.(EdgeRec.source), j). split; [|done]. exists (out_ref e). split; [done|].
        apply outbound_spec. by exists e.
      + apply unresolved_entry_Some. done. }
  assert (∀ k v, foldl or_insert ∅ (omap (λ ab : (string * nat) * EdgeRef,
      unresolved_entry records anchor_id ab.1.1 ab.1.2 ab.2) l) !! k = Some v
    ↔ (k, v) ∈ omap (λ ab : (string * nat) * EdgeRef,
      unresolved_entry records anchor_id ab.1.1 ab.1.2 ab.2) l) as Hins.
  { apply foldl_or_insert.
    intros k v v' (e & j & He & Hs & _ & -> & ->)%Hl (e' & j' & He' & Hs' & _ & -> & Hk)%Hl.
    injection Hk as _ _ Hid.
    destruct He as (i & Hi & Hlat & _), He' as (i' & Hi' & Hlat' & _). rewrite <-Hid in Hlat'.
    pose proof (latest_edge_unique _ _ _ _ Hlat Hlat') as ->.
    assert (e = e') as -> by congruence. by rewrite (Huniq _ _ _ Hs Hs'). }
  split.
  - intros (k & (e & j & ? & ? & ? & ? & _)%Hins%Hl). by exists e, j.
  - intros (e & j & He & Hs & Hu & ->). eexists. apply Hins, Hl. by exists e, j.
Qed.

Lemma bounded_sources_spec n (hop_of : gmap string nat) :
  (∀ x j, hop_of !! x = Some j ↔ 1 ≤ j ≤ n ∧ at_distance (reaches link) anchor_id j x) →
  ∀ x j, (x, j) ∈ bounded_sources anchor_id n hop_of ↔
    j < n ∧ at_distance (reaches link) anchor_id j x.
Proof.
  intros Hhop x j. unfold bounded_sources.
  rewrite list_elem_of_filter, elem_of_cons, sort_by_perm, elem_of_map_to_list, Hhop.
  cbn [snd]. split.
  - intros [Hj [[= -> ->]|[_ Hx]]]; [|done]. split; [done|]. by apply at_distance_0.
  - intros [Hj Hx]. split; [done|]. destruct j as [|j].
    + left. by apply at_distance_0 in Hx as ->.
    + right. split; [lia|done].
Qed.

(** The lane keeps the laws of the search. *)
Lemma callee_laws :
  is_Some (by_id !! anchor_id) →
  LevelLaws quiet link sources_of anchor_id (dom by_id) (λ _ _ : unit, False)
    (λ _ _, False).
Proof.
  intros Ha. constructor.
  - apply sources_of_spec.
  - by apply elem_of_dom.
  - intros p y (q & _ & e & rec & _ & _ & _ & _ & Hl & _). apply elem_of_dom. by rewrite Hl.
  - apply callee_level_sound.
  - apply callee_level_complete.
  - apply callee_level_quiet.
Qed.

(** What the whole function computes. *)
Lemma transitive_callees_spec anchor n :
  by_id !! anchor_id = Some anchor →
  ∃ ctx, transitive_callees sort_unstable records anchor_id n = Some (Some ctx)
    ∧ ctx.(TransitiveCalleesContext.anchor) = anchor
    ∧ rows_exact link anchor_id callee_path by_id n ctx.(TransitiveCalleesContext.rows)
    ∧ truncation_exact link anchor_id n ctx.(TransitiveCalleesContext.truncation)
    ∧ ∀ u, u ∈ ctx.(TransitiveCalleesContext.unresolved) ↔
        ∃ j e, j < n ∧ current_edge records TRANSITIVE_CALLEE_LABELS e
          ∧ at_distance (reaches link) anchor_id j e.(EdgeRec.source)
          ∧ unresolved_target records anchor_id e ∧ u = unresolved_row records e j.
Proof.
  intros Hanchor. unfold transitive_callees. rewrite Hanchor, (live_by_id_id _ _ _ Hanchor).
  assert (is_Some (by_id !! anchor_id)) as Hlaws%callee_laws by by rewrite Hanchor.
  assert (unit → ¬ False) as Hnil by (intros _ []; done).
  destruct (truncate_spec quiet link sources_of anchor_id (dom by_id)
    (λ _ _ : unit, False) (λ _ _, False) n tt _ Hnil eq_refl) as (o & d' & Ht & Hex & _).
  rewrite size_dom in Ht. rewrite Ht. cbn [mbind option_bind].
  destruct (build_rows_spec quiet link sources_of anchor_id (dom by_id)
    (λ _ _ : unit, False) (λ _ _, False) callee_path by_id n tt _ Hnil eq_refl
    (λ x, elem_of_dom _ _) (live_by_id_id _)) as (rows & Hr & Hrows).
  rewrite Hr. cbn [mbind option_bind]. eexists. split; [done|].
  cbn [TransitiveCalleesContext.anchor TransitiveCalleesContext.rows
    TransitiveCalleesContext.truncation TransitiveCalleesContext.unresolved fst snd].
  split_and!; [done..|]. intros u.
  pose proof (bounded_sources_spec n _ (proj1 (bounded_hops quiet link sources_of anchor_id
    (dom by_id) (λ _ _ : unit, False) (λ _ _, False) n tt _ Hnil eq_refl))) as Hsrc.
  rewrite sort_by_perm, list_elem_of_fmap.
  set (m := unresolved_map _ _ _ _ _).
  assert ((∃ y, u = y.2 ∧ y ∈ map_to_list m) ↔ ∃ k, m !! k = Some u) as ->.
  { split; [intros ([k v] & -> & Hy%elem_of_map_to_list); by exists k|].
    intros [k Hk]. exists (k, u). by rewrite elem_of_map_to_list. }
  unfold m. rewrite unresolved_map_spec.
  - setoid_rewrite Hsrc. naive_solver.
  - intros x j j' [_ Hj]%Hsrc [_ Hj']%Hsrc. by apply (at_distance_unique _ _ _ _ _ Hj).
Qed.
End Correct.

(** ** Properties *)

(** C30: [transitive_callees] terminates without panicking on every record list and bound.
    It answers [None] exactly when the anchor is not among the live records. Otherwise
    the rows are exactly the live, non-diagnostic records one to [max_depth] current
    dependency edges after the anchor, each once, ordered by distance and id, with its
    shortest distance and a path of that length from the anchor; the truncation counts
    exactly the records at every distance beyond the bound. *)
Theorem transitive_callees_complete sort_unstable records anchor_id n :
  (∀ l, sort_unstable l ≡ₚ l) →
  match live_by_id records !! anchor_id with
  | None => transitive_callees sort_unstable records anchor_id n = Some None
  | Some anchor =>
      ∃ ctx, transitive_callees sort_unstable records anchor_id n = Some (Some ctx)
        ∧ ctx.(TransitiveCalleesContext.anchor) = anchor
        ∧ rows_exact (callee_link records anchor_id) anchor_id callee_path
            (live_by_id records) n ctx.(TransitiveCalleesContext.rows)
        ∧ truncation_exact (callee_link records anchor_id) anchor_id n
            ctx.(TransitiveCalleesContext.truncation)
  end.
Proof.
  intros Hperm. destruct (live_by_id records !! anchor_id) as [anchor|] eqn:Ha.
  - destruct (transitive_callees_spec _ Hperm records anchor_id anchor n Ha)
      as (ctx & Hc & Han & Hr & Ht & _). by exists ctx.
  - unfold transitive_callees. by rewrite Ha.
Qed.

(** The [unresolved] category of [transitive_callees] is exactly the current
    dependency edges out of records closer to the anchor than the bound, to something
    other than the anchor, whose target is missing, a diagnostic marker or the end of an
    unresolved call or dispatch, each with the distance of its source, its marker when
    there is one and the reason that fits: nothing inside the bound is dropped. *)
Theorem callee_unresolved_exact sort_unstable records anchor_id n ctx :
  (∀ l, sort_unstable l ≡ₚ l) →
  transitive_callees sort_unstable records anchor_id n = Some (Some ctx) →
  ∀ u, u ∈ ctx.(TransitiveCalleesContext.unresolved) ↔
    ∃ j e, j < n ∧ current_edge records TRANSITIVE_CALLEE_LABELS e
      ∧ at_distance (reaches (callee_link records anchor_id)) anchor_id j
          e.(EdgeRec.source)
      ∧ unresolved_target records anchor_id e ∧ u = unresolved_row records e j.
Proof.
  intros Hperm Hc u. destruct (live_by_id records !! anchor_id) as [anchor|] eqn:Ha.
  - destruct (transitive_callees_spec _ Hperm records anchor_id anchor n Ha)
      as (ctx' & Hc' & _ & _ & _ & Hu). assert (ctx' = ctx) as -> by congruence. apply Hu.
  - unfold transitive_callees in Hc. by rewrite Ha in Hc.
Qed.

(** ** Concrete graphs *)
Definition demo_node (kind : NodeKind.t) (id : string) : GraphRecord :=
  GraphRecord.node id kind None None (Some id) "".
Definition demo_edge (label : EdgeLabel.t) (source target : string) : GraphRecord :=
  GraphRecord.edge (λ s, s) label source target None "".
(** [a] calls [b], which calls [c], a marker and a missing record. *)
Definition demo_records : list GraphRecord :=
  (demo_node NodeKind.Symbol <$> ["a"; "b"; "c"]) ++
  [demo_node NodeKind.Diagnostic "marker";
   demo_edge EdgeLabel.Calls "a" "b"; demo_edge EdgeLabel.Imports "b" "c";
   demo_edge EdgeLabel.Calls "b" "marker"; demo_edge EdgeLabel.References "b" "ghost";
   demo_edge EdgeLabel.Calls "c" "a"].

Definition outcome (r : option (option TransitiveCalleesContext.t)) :=
  option_map (option_map (λ c : TransitiveCalleesContext.t,
    ((λ r : Row.t, (r.(Row.hop), GraphRecord.id r.(Row.record)))
       <$> c.(TransitiveCalleesContext.rows),
     c.(TransitiveCalleesContext.truncation),
     (λ u : UnresolvedCalleeRow.t,
        (u.(UnresolvedCalleeRow.target_id),
         UnresolvedCalleeReason.as_str u.(UnresolvedCalleeRow.reason)))
       <$> c.(TransitiveCalleesContext.unresolved)))) r.

Example demo_callees :
  outcome (transitive_callees edge_sort demo_records "a" 2)
  = Some (Some ([(1, "b"); (2, "c")], None,
      [("marker", "unresolved_call"); ("ghost", "missing_target")])).
Proof. vm_compute. reflexivity. Qed.

Example demo_callees_truncated :
  outcome (transitive_callees edge_sort demo_records "a" 1)
  = Some (Some ([(1, "b")], Some (Truncation.mk 1 [Dropped.mk 2 1] 1), [])).
Proof. vm_compute. reflexivity. Qed.

Lemma transitive_callees_complete_witness :
  ∃ ctx, transitive_callees edge_sort demo_records "a" 1 = Some (Some ctx)
    ∧ truncation_exact (callee_link demo_records "a") "a" 1
        ctx.(TransitiveCalleesContext.truncation).
Proof.
  pose proof (transitive_callees_complete edge_sort demo_records "a" 1 edge_sort_perm) as H.
  assert (is_Some (live_by_id demo_records !! "a")) as [x Hx] by (by vm_compute; eexists).
  rewrite Hx in H. clear Hx. destruct H as (ctx & Hc & _ & _ & Ht).
  exists ctx. split; [exact Hc|exact Ht].
Defined.

Lemma callee_unresolved_exact_witness :
  ∃ ctx, transitive_callees edge_sort demo_records "a" 2 = Some (Some ctx)
    ∧ ∃ e, current_edge demo_records TRANSITIVE_CALLEE_LABELS e
        ∧ e.(EdgeRec.target) = "marker".
Proof.
  destruct (transitive_callees edge_sort demo_records "a" 2) as [[ctx|]|] eqn:Hc;
    [|vm_compute in Hc; discriminate..].
  exists ctx. split; [reflexivity|].
  pose proof demo_callees as Ho. rewrite Hc in Ho. cbn in Ho. injection Ho as _ _ Hu.
  destruct (ctx.(TransitiveCalleesContext.unresolved)) as [|u l] eqn:Hus; [discriminate Hu|].
  assert (u ∈ ctx.(TransitiveCalleesContext.unresolved)) as Hin by (rewrite Hus; by left).
  apply (callee_unresolved_exact edge_sort demo_records "a" 2 ctx edge_sort_perm Hc)
    in Hin as (j & e & _ & He & _ & _ & Heq).
  exists e. split; [exact He|]. subst u. cbn in Hu. injection Hu as Hu _ _. exact Hu.
Defined.

(** A dispatch site whose edge ends in a symbol. *)
Definition dispatch_records : list GraphRecord :=
  (demo_node NodeKind.Symbol <$> ["a"; "b"]) ++
  [GraphRecord.with_resolution CallResolution.UnresolvedDispatch
     (demo_edge EdgeLabel.Calls "a" "b")].

(** The two categories are not exclusive: the target of a live edge with the
    resolution [unresolved_dispatch] that is not a diagnostic marker is reported both as
    a reachable row and as an unresolved target of the same edge. *)
Theorem dispatch_target_also_reachable :
  outcome (transitive_callees edge_sort dispatch_records "a" 1)
  = Some (Some ([(1, "b")], None, [("b", "unresolved_dispatch")])).
Proof. vm_compute. reflexivity. Qed.
