(* ===== verification/CallNeighborhood.v ===== *)
(** * Bounded call neighborhoods

    [src/src/query/neighborhood.rs]: the nodes around a symbol up to a depth, walked over
    the diagram vocabulary with an expansion rule that depends on the kind of the node,
    cut to a node budget in the order of distance and id, with the stored edges between
    the admitted nodes and the counts of what the two bounds left out. *)
From S2P Require Import Prelude RustStr Ir IrOps Liveness LevelSearch DepthSearch TransitiveCallers.

(** ** Data *)

(* query/neighborhood.rs 31-36: NEIGHBORHOOD_LABELS *)
Definition NEIGHBORHOOD_LABELS : list EdgeLabel.t :=
  [EdgeLabel.Calls; EdgeLabel.Defines; EdgeLabel.Contains; EdgeLabel.Imports].

(* query/neighborhood.rs 39-39: SYMBOL_INBOUND *)
Definition SYMBOL_INBOUND : list EdgeLabel.t :=
  [EdgeLabel.Calls; EdgeLabel.Defines; EdgeLabel.Contains].

(* query/neighborhood.rs 41-41: SYMBOL_OUTBOUND *)
Definition SYMBOL_OUTBOUND : list EdgeLabel.t := [EdgeLabel.Calls].

(* query/neighborhood.rs 43-44: CONTAINER_OUTBOUND *)
Definition CONTAINER_OUTBOUND : list EdgeLabel.t :=
  [EdgeLabel.Defines; EdgeLabel.Contains; EdgeLabel.Imports].

(** [(neighbor_id, edge_id, label)]. *)
Abbreviation NeighborhoodEdgeRef := (string * string * EdgeLabel.t)%type.

(** The inbound and the outbound index. *)
Abbreviation AdjacencyMaps :=
  (gmap string (list NeighborhoodEdgeRef) * gmap string (list NeighborhoodEdgeRef))%type.

Module NeighborhoodNode.
(* query/neighborhood.rs 57-62: NeighborhoodNode *)
Record t : Type := mk { record : GraphRecord; hop : nat }.
End NeighborhoodNode.

Module NeighborhoodEdge.
(* query/neighborhood.rs 66-75: NeighborhoodEdge *)
Record t : Type := mk {
  edge_record_id : string;
  label : string;
  source_id : string;
  target_id : string
}.
End NeighborhoodEdge.

Module NeighborhoodDroppedDepth.
(* query/neighborhood.rs 79-84: NeighborhoodDroppedDepth *)
Record t : Type := mk { depth : nat; count : nat }.
End NeighborhoodDroppedDepth.

Module NeighborhoodDepthTruncation.
(* query/neighborhood.rs 88-95: NeighborhoodDepthTruncation *)
Record t : Type := mk {
  max_depth : nat;
  dropped_frontier : list NeighborhoodDroppedDepth.t;
  dropped_total : nat
}.
End NeighborhoodDepthTruncation.

Module NeighborhoodBudgetTruncation.
(* query/neighborhood.rs 99-106: NeighborhoodBudgetTruncation *)
Record t : Type := mk { max_nodes : nat; dropped_nodes : nat; dropped_edges : nat }.
End NeighborhoodBudgetTruncation.

Module Neighborhood.
(* query/neighborhood.rs 110-128: Neighborhood *)
Record t : Type := mk {
  anchor : GraphRecord;
  nodes : list NeighborhoodNode.t;
  edges : list NeighborhoodEdge.t;
  depth_truncation : option NeighborhoodDepthTruncation.t;
  budget_truncation : option NeighborhoodBudgetTruncation.t;
  diagnostics : list MemoryAuditDiagnostic.t;
  max_depth : nat;
  max_nodes : nat
}.
End Neighborhood.

(** ** The indexes *)

(** The edge of a record that is its current version and in the vocabulary. *)
(* query/neighborhood.rs 142-155: build_indexes *)
Definition vocabulary_edge (liveness : Liveness.t) (entry : nat * GraphRecord)
    : option EdgeRec.t :=
  match entry.2 with
  | Edge e =>
      if negb (Liveness.is_latest_edge_version liveness e.(EdgeRec.id) entry.1) then None
      else if Liveness.deleted liveness e.(EdgeRec.id)
              || negb (bool_decide (e.(EdgeRec.label) ∈ NEIGHBORHOOD_LABELS)) then None
      else Some e
  | _ => None
  end.

(* query/neighborhood.rs 156-160: build_indexes *)
Definition inbound_ref (e : EdgeRec.t) : string * NeighborhoodEdgeRef :=
  (e.(EdgeRec.target), (e.(EdgeRec.source), e.(EdgeRec.id), e.(EdgeRec.label))).

(* query/neighborhood.rs 161-165: build_indexes *)
Definition outbound_ref (e : EdgeRec.t) : string * NeighborhoodEdgeRef :=
  (e.(EdgeRec.source), (e.(EdgeRec.target), e.(EdgeRec.id), e.(EdgeRec.label))).

(** The one pass that fills both maps, then the sort and the deduplication of every list by
    [(e.0, e.1)]. *)
(* query/neighborhood.rs 134-175: build_indexes *)
Definition build_indexes (sort_unstable : list NeighborhoodEdgeRef → list NeighborhoodEdgeRef)
    (records : list GraphRecord) (liveness : Liveness.t) : AdjacencyMaps :=
  let side (ref : EdgeRec.t → string * NeighborhoodEdgeRef) :=
    edge_index fst sort_unstable (λ entry, ref <$> vocabulary_edge liveness entry) records in
  (side inbound_ref, side outbound_ref).

(** ** The expansion of a node *)
Section Candidates.
Context (maps : AdjacencyMaps) (visited : gset string) (by_id : gmap string GraphRecord)
  (deleted : string → bool).

Abbreviation Found := (gmap string string * list MemoryAuditDiagnostic.t)%type.

(* query/neighborhood.rs 191-213: candidates *)
Definition consider (neighbor edge_id code : string) (acc : Found) : Found :=
  let '(out, diagnostics) := acc in
  if bool_decide (neighbor ∈ visited) then acc
  else if bool_decide (is_Some (by_id !! neighbor)) then
    (match out !! neighbor with
     | Some e => if bool_decide (String.compare edge_id e = Lt) then <[neighbor := edge_id]> out else out
     | None => <[neighbor := edge_id]> out
     end, diagnostics)
  else if negb (deleted neighbor) then
    (out, diagnostics
            ++ [MemoryAuditDiagnostic.mk code edge_id neighbor "" "codegraph"])
  else acc.

(* query/neighborhood.rs 216-222: candidates *)
Definition consider_all (edges : list NeighborhoodEdgeRef) (labels : list EdgeLabel.t)
    (code : string) (acc : Found) : Found :=
  foldl (λ acc '(neighbor, edge_id, label),
    if bool_decide (label ∈ labels) then consider neighbor edge_id code acc else acc)
    acc edges.

(* query/neighborhood.rs 180-243: candidates *)
Definition candidates (node : string) (kind : NodeKind.t)
    (diagnostics : list MemoryAuditDiagnostic.t) : Found :=
  let '(inbound, outbound) := maps in
  match kind with
  | NodeKind.Symbol =>
      consider_all (default [] (outbound !! node)) SYMBOL_OUTBOUND "unresolved_edge_target"
        (consider_all (default [] (inbound !! node)) SYMBOL_INBOUND "unresolved_edge_source"
           (∅, diagnostics))
  | NodeKind.File | NodeKind.Module =>
      consider_all (default [] (outbound !! node)) CONTAINER_OUTBOUND "unresolved_edge_target"
        (∅, diagnostics)
  | _ => (∅, diagnostics)
  end.

(* query/neighborhood.rs 313-317: neighborhood *)
Definition kind_of (node : string) : NodeKind.t :=
  default NodeKind.Diagnostic (by_id !! node ≫= GraphRecord.node_kind_ref).

(** One level: the ids found from the nodes of the frontier. *)
(* query/neighborhood.rs 311-332: neighborhood *)
Definition expand (frontier : list string) (diagnostics : list MemoryAuditDiagnostic.t)
    : gset string * list MemoryAuditDiagnostic.t :=
  foldl (λ '(discoveries, diagnostics) node,
    let '(out, diagnostics) := candidates node (kind_of node) diagnostics in
    (discoveries ∪ dom out, diagnostics)) (∅, diagnostics) frontier.

(** The same level of the counting loop, which throws its diagnostics away. *)
(* query/neighborhood.rs 347-365: neighborhood *)
Definition count_level (frontier : list string) : gset string :=
  foldl (λ discoveries node,
    discoveries ∪ dom (candidates node (kind_of node) []).1) ∅ frontier.
End Candidates.

(** ** The walk *)
Record walk : Type := mkWalk {
  hop_of : gmap string nat;
  visited : gset string;
  frontier : list string;
  diagnostics : list MemoryAuditDiagnostic.t;
  depth : nat
}.

Section Walk.
Context (maps : AdjacencyMaps) (by_id : gmap string GraphRecord) (deleted : string → bool).

(* query/neighborhood.rs 298-305: neighborhood *)
Definition begin (anchor_id : string) : walk :=
  mkWalk {[anchor_id := 0]} {[anchor_id]} [anchor_id] [] 0.

(* query/neighborhood.rs 310-337: neighborhood *)
Definition advance (w : walk) : walk :=
  let depth := S w.(depth) in
  let '(discoveries, diagnostics) :=
    expand maps w.(visited) by_id deleted w.(frontier) w.(diagnostics) in
  mkWalk (gset_to_gmap depth discoveries ∪ w.(hop_of)) (w.(visited) ∪ discoveries)
    (iter discoveries) diagnostics depth.

(** [while depth < max_depth], with [n] levels left. *)
(* query/neighborhood.rs 306-338: neighborhood *)
Fixpoint walk_loop (n : nat) (w : walk) : walk :=
  match n with
  | O => w
  | S n => if bool_decide (w.(frontier) = []) then w else walk_loop n (advance w)
  end.

(** [None] is fuel running out. *)
(* query/neighborhood.rs 346-379: neighborhood *)
Fixpoint count_loop (fuel : nat) (frontier : list string) (visited : gset string)
    (count_depth : nat) (dropped_frontier : list NeighborhoodDroppedDepth.t)
    (dropped_total : nat) : option (list NeighborhoodDroppedDepth.t * nat) :=
  match fuel with
  | O => None
  | S fuel =>
      let discoveries := count_level maps visited by_id deleted frontier in
      if bool_decide (discoveries = ∅) then Some (dropped_frontier, dropped_total)
      else
        let count_depth := S count_depth in
        count_loop fuel (iter discoveries) (visited ∪ discoveries) count_depth
          (dropped_frontier ++ [NeighborhoodDroppedDepth.mk count_depth (size discoveries)])
          (dropped_total + size discoveries)
  end.

(* query/neighborhood.rs 341-387: neighborhood *)
Definition count_dropped (fuel max_depth : nat) (w : walk)
    : option (option NeighborhoodDepthTruncation.t) :=
  if bool_decide (w.(frontier) = []) then Some None
  else
    let?o r := count_loop fuel w.(frontier) w.(visited) w.(depth) [] 0 in
    Some (if (0 <? r.2)%nat
          then Some (NeighborhoodDepthTruncation.mk max_depth r.1 r.2) else None).
End Walk.

(** ** The node budget and the induced edges *)

(* query/neighborhood.rs 391-391: neighborhood *)
Definition discovered_cmp (a b : string * nat) : comparison :=
  then_cmp (Nat.compare a.2 b.2) (String.compare a.1 b.1).

(** The sort key tells the entries of the map apart, so the order it is iterated in does not
    show. *)
(* query/neighborhood.rs 390-391: neighborhood *)
Definition discovered (hop_of : gmap string nat) : list (string * nat) :=
  sort_by discovered_cmp (map_to_list hop_of).

(* query/neighborhood.rs 392-396: neighborhood *)
Definition admit_level (max_nodes : nat) (discovered : list (string * nat)) : gset string :=
  list_to_set (take max_nodes discovered).*1.

(* query/neighborhood.rs 401-420: neighborhood *)
Definition discovered_edges (liveness : Liveness.t) (hop_of : gmap string nat)
    (records : list GraphRecord) : list EdgeRec.t :=
  filter (λ e, is_Some (hop_of !! e.(EdgeRec.source)) ∧ is_Some (hop_of !! e.(EdgeRec.target)))
    (omap (vocabulary_edge liveness) (imap pair records)).

(* query/neighborhood.rs 422-427: neighborhood *)
Definition render_edge (e : EdgeRec.t) : NeighborhoodEdge.t :=
  NeighborhoodEdge.mk e.(EdgeRec.id) (EdgeLabel.as_str e.(EdgeRec.label))
    e.(EdgeRec.source) e.(EdgeRec.target).

(* query/neighborhood.rs 421-428: neighborhood *)
Definition admitted_edges (admitted : gset string) (full : list EdgeRec.t)
    : list NeighborhoodEdge.t :=
  render_edge <$> filter (λ e, e.(EdgeRec.source) ∈ admitted ∧ e.(EdgeRec.target) ∈ admitted) full.

(* query/neighborhood.rs 433-440: neighborhood *)
Definition edge_cmp : NeighborhoodEdge.t → NeighborhoodEdge.t → comparison :=
  cmp_then (cmp_on NeighborhoodEdge.source_id String.compare)
    (cmp_then (cmp_on NeighborhoodEdge.target_id String.compare)
      (cmp_then (cmp_on NeighborhoodEdge.label String.compare)
        (cmp_on NeighborhoodEdge.edge_record_id String.compare))).

(* query/neighborhood.rs 441-441: neighborhood *)
Definition edge_key (e : NeighborhoodEdge.t) : string * string * string :=
  (e.(NeighborhoodEdge.source_id), e.(NeighborhoodEdge.target_id),
   e.(NeighborhoodEdge.edge_record_id)).

(* query/neighborhood.rs 443-451: neighborhood *)
Definition budget_cut (max_nodes : nat) (admitted : gset string)
    (discovered : list (string * nat)) (full_edge_count edge_count : nat)
    : option NeighborhoodBudgetTruncation.t :=
  if (size admitted <? length discovered)%nat
  then Some (NeighborhoodBudgetTruncation.mk max_nodes
               (length discovered - size admitted) (full_edge_count - edge_count))
  else None.

(** [None] is one of the two [expect]s. *)
(* query/neighborhood.rs 453-465: neighborhood *)
Definition admitted_node (by_id : gmap string GraphRecord) (hop_of : gmap string nat)
    (id : string) : option NeighborhoodNode.t :=
  let?o record := by_id !! id in
  let?o hop := hop_of !! id in
  Some (NeighborhoodNode.mk record hop).

Definition node_id (n : NeighborhoodNode.t) : string :=
  GraphRecord.id n.(NeighborhoodNode.record).

(* query/neighborhood.rs 470-475: neighborhood *)
Definition dangling_cmp : MemoryAuditDiagnostic.t → MemoryAuditDiagnostic.t → comparison :=
  cmp_then (cmp_on MemoryAuditDiagnostic.code String.compare)
    (cmp_then (cmp_on MemoryAuditDiagnostic.source_record_id String.compare)
      (cmp_on MemoryAuditDiagnostic.target_handle String.compare)).

(* query/neighborhood.rs 476-480: neighborhood *)
Definition dangling_key (d : MemoryAuditDiagnostic.t) : string * string * string :=
  (d.(MemoryAuditDiagnostic.code), d.(MemoryAuditDiagnostic.source_record_id),
   d.(MemoryAuditDiagnostic.target_handle)).

(** The outer [option] is the model's: fuel running out or an [expect] panicking. The
    [debug_assert] on the budget is not in release builds; the early return after it is. *)
(* query/neighborhood.rs 270-492: neighborhood *)
Definition neighborhood
    (sort_unstable : list NeighborhoodEdgeRef → list NeighborhoodEdgeRef)
    (records : list GraphRecord) (anchor_id : string) (max_depth max_nodes : nat)
    : option (option Neighborhood.t) :=
  if (max_nodes =? 0)%nat then Some None
  else
    let liveness := Liveness.new records in
    let deleted := Liveness.deleted liveness in
    let by_id := live_by_id records in
    match by_id !! anchor_id with
    | None => Some None
    | Some anchor =>
        let anchor_id := GraphRecord.id anchor in
        let maps := build_indexes sort_unstable records liveness in
        let w := walk_loop maps by_id deleted max_depth (begin anchor_id) in
        let?o depth_truncation := count_dropped maps by_id deleted (S (size by_id)) max_depth w in
        let discovered := discovered w.(hop_of) in
        let admitted := admit_level max_nodes discovered in
        let full := discovered_edges liveness w.(hop_of) records in
        let edges := dedup_by_key edge_key (sort_by edge_cmp (admitted_edges admitted full)) in
        let?o nodes := mapM (admitted_node by_id w.(hop_of)) (iter admitted) in
        Some (Some (Neighborhood.mk anchor
          (sort_by (cmp_on node_id String.compare) nodes) edges depth_truncation
          (budget_cut max_nodes admitted discovered (length full) (length edges))
          (dedup_by_key dangling_key (sort_by dangling_cmp w.(diagnostics)))
          max_depth max_nodes))
    end.

(** ** The specification *)

(** The expansion rule: what an edge offers to a node of a kind, and the code of the
    diagnostic when the other end is not there. *)
Definition expands (kind : NodeKind.t) (x : string) (e : EdgeRec.t) (y code : string) : Prop :=
  match kind with
  | NodeKind.Symbol =>
      e.(EdgeRec.target) = x ∧ e.(EdgeRec.source) = y ∧ e.(EdgeRec.label) ∈ SYMBOL_INBOUND
        ∧ code = "unresolved_edge_source"
      ∨ e.(EdgeRec.source) = x ∧ e.(EdgeRec.target) = y ∧ e.(EdgeRec.label) ∈ SYMBOL_OUTBOUND
        ∧ code = "unresolved_edge_target"
  | NodeKind.File | NodeKind.Module =>
      e.(EdgeRec.source) = x ∧ e.(EdgeRec.target) = y
        ∧ e.(EdgeRec.label) ∈ CONTAINER_OUTBOUND ∧ code = "unresolved_edge_target"
  | _ => False
  end.

Definition offers (records : list GraphRecord) (x : string) (e : EdgeRec.t) (y code : string)
    : Prop :=
  current_edge records NEIGHBORHOOD_LABELS e
    ∧ expands (kind_of (live_by_id records) x) x e y code.

(** One hop of the walk. *)
Definition neighbor_step (records : list GraphRecord) (x y : string) : Prop :=
  is_Some (live_by_id records !! y) ∧ ∃ e code, offers records x e y code.

(** An edge of [x] ends at a record that never existed. *)
Definition dangling_neighbor (records : list GraphRecord) (x : string)
    (d : MemoryAuditDiagnostic.t) : Prop :=
  ∃ e y code, offers records x e y code ∧ live_by_id records !! y = None
    ∧ Liveness.deleted (Liveness.new records) y = false
    ∧ d = MemoryAuditDiagnostic.mk code e.(EdgeRec.id) y "" "codegraph".

(** ** A level *)
Section Level.
Context (sort_unstable : list NeighborhoodEdgeRef → list NeighborhoodEdgeRef).
Hypothesis sort_unstable_perm : ∀ l, sort_unstable l ≡ₚ l.
Context (records : list GraphRecord).

Abbreviation by_id := (live_by_id records).
Abbreviation deleted := (Liveness.deleted (Liveness.new records)).
Abbreviation maps := (build_indexes sort_unstable records (Liveness.new records)).

Lemma vocabulary_edge_Some i r e :
  records !! i = Some r →
  vocabulary_edge (Liveness.new records) (i, r) = Some e ↔
  r = Edge e ∧ Liveness.is_latest_edge_version (Liveness.new records) e.(EdgeRec.id) i = true
    ∧ deleted e.(EdgeRec.id) = false ∧ e.(EdgeRec.label) ∈ NEIGHBORHOOD_LABELS.
Proof.
  intros Hr. unfold vocabulary_edge. cbn [fst snd]. destruct r as [n|e'|tb]; [naive_solver| |naive_solver].
  destruct (Liveness.is_latest_edge_version _ _ i) eqn:Hl; cbn [negb]; [|naive_solver congruence].
  destruct (deleted _) eqn:Hd; cbn [orb]; [naive_solver congruence|].
  case_bool_decide as Hlab; cbn [negb]; naive_solver.
Qed.

Lemma current_vocabulary e :
  current_edge records NEIGHBORHOOD_LABELS e ↔
  ∃ i r, records !! i = Some r ∧ vocabulary_edge (Liveness.new records) (i, r) = Some e.
Proof.
  split.
  - intros (i & Hi & ?). exists i, (Edge e). split; [done|]. by apply vocabulary_edge_Some.
  - intros (i & r & Hi & Hv). apply vocabulary_edge_Some in Hv as [-> ?]; [|done]. by exists i.
Qed.

(** An index holds the current edges of the vocabulary under their end. *)
Lemma side_spec (ref : EdgeRec.t → string * NeighborhoodEdgeRef) x z :
  (∀ e, (ref e).2.1.2 = e.(EdgeRec.id)) →
  z ∈ default [] (edge_index fst sort_unstable
        (λ entry, ref <$> vocabulary_edge (Liveness.new records) entry) records !! x)
  ↔ ∃ e, current_edge records NEIGHBORHOOD_LABELS e ∧ ref e = (x, z).
Proof.
  intros Hid. rewrite edge_index_spec; [|done|].
  - setoid_rewrite fmap_Some. setoid_rewrite current_vocabulary. naive_solver.
  - intros i j r s k y y' Hi Hj Hy Hy' Hk.
    apply fmap_Some in Hy as (e & He & Hr), Hy' as (e' & He' & Hr').
    apply vocabulary_edge_Some in He as (-> & Hl & _); [|done].
    apply vocabulary_edge_Some in He' as (-> & Hl' & _); [|done].
    assert (e.(EdgeRec.id) = e'.(EdgeRec.id)) as Heq.
    { rewrite <-!Hid, <-Hr, <-Hr'. cbn [snd]. by rewrite Hk. }
    rewrite <-Heq in Hl'. pose proof (latest_edge_unique _ _ _ _ Hl Hl') as ->. congruence.
Qed.

Section Scan.
Context (visited : gset string).
Abbreviation consider_all := (consider_all visited by_id deleted).
Abbreviation candidates := (candidates maps visited by_id deleted).

Lemma consider_all_dom edges labels code acc y :
  y ∈ dom (consider_all edges labels code acc).1 ↔ y ∈ dom acc.1 ∨
  ∃ z, z ∈ edges ∧ z.2 ∈ labels ∧ z.1.1 = y ∧ (y ∉ visited) ∧ is_Some (by_id !! y).
Proof.
  apply (foldl_or _ (λ acc : gmap string string * list MemoryAuditDiagnostic.t, y ∈ dom acc.1)).
  intros [out d] [[n eid] lab]. cbn [fst snd].
  case_bool_decide; [|naive_solver]. unfold consider.
  case_bool_decide; [naive_solver|]. case_bool_decide as Hn.
  - cbn [fst]. destruct (out !! n) as [e|] eqn:Ho; [case_bool_decide|];
      rewrite ?dom_insert, ?elem_of_union, ?elem_of_singleton; [naive_solver| |naive_solver].
    split; [by left|]. intros [?|(_ & <- & _)]; [done|]. apply elem_of_dom. by rewrite Ho.
  - destruct (deleted n); cbn [fst negb]; naive_solver.
Qed.

Lemma consider_all_diag edges labels code acc x :
  x ∈ (consider_all edges labels code acc).2 ↔ x ∈ acc.2 ∨
  ∃ z, z ∈ edges ∧ z.2 ∈ labels ∧ (z.1.1 ∉ visited) ∧ by_id !! z.1.1 = None
    ∧ deleted z.1.1 = false ∧ x = MemoryAuditDiagnostic.mk code z.1.2 z.1.1 "" "codegraph".
Proof.
  apply (foldl_or _ (λ acc : gmap string string * list MemoryAuditDiagnostic.t, x ∈ acc.2)).
  intros [out d] [[n eid] lab]. cbn [fst snd].
  case_bool_decide; [|naive_solver]. unfold consider.
  case_bool_decide; [naive_solver|]. case_bool_decide as Hn.
  { cbn [snd]. rewrite is_Some_alt in Hn. destruct (by_id !! n) eqn:E; naive_solver. }
  apply eq_None_not_Some in Hn. destruct (deleted n) eqn:Hd; cbn [snd negb]; [naive_solver congruence|].
  rewrite elem_of_app, list_elem_of_singleton. naive_solver.
Qed.

Lemma in_inbound x z :
  z ∈ default [] (maps.1 !! x) ↔ ∃ e, current_edge records NEIGHBORHOOD_LABELS e
    ∧ e.(EdgeRec.target) = x ∧ z = (e.(EdgeRec.source), e.(EdgeRec.id), e.(EdgeRec.label)).
Proof. unfold build_indexes. cbn [fst]. rewrite side_spec by done. unfold inbound_ref. naive_solver. Qed.

Lemma in_outbound x z :
  z ∈ default [] (maps.2 !! x) ↔ ∃ e, current_edge records NEIGHBORHOOD_LABELS e
    ∧ e.(EdgeRec.source) = x ∧ z = (e.(EdgeRec.target), e.(EdgeRec.id), e.(EdgeRec.label)).
Proof. unfold build_indexes. cbn [snd]. rewrite side_spec by done. unfold outbound_ref. naive_solver. Qed.

(** What one side of a node finds and reports. *)
Lemma inbound_dom labels code acc x y :
  y ∈ dom (consider_all (default [] (maps.1 !! x)) labels code acc).1 ↔ y ∈ dom acc.1 ∨
  (y ∉ visited) ∧ is_Some (by_id !! y) ∧ ∃ e, current_edge records NEIGHBORHOOD_LABELS e
    ∧ e.(EdgeRec.target) = x ∧ e.(EdgeRec.source) = y ∧ e.(EdgeRec.label) ∈ labels.
Proof.
  rewrite consider_all_dom. setoid_rewrite in_inbound. apply or_iff_compat_l. split.
  - intros (? & (e & ? & ? & ->) & ? & <- & ? & ?). split_and!; [done..|]. by exists e.
  - intros (? & ? & e & ? & ? & <- & ?). eexists. split_and!; [by exists e|done..].
Qed.

Lemma outbound_dom labels code acc x y :
  y ∈ dom (consider_all (default [] (maps.2 !! x)) labels code acc).1 ↔ y ∈ dom acc.1 ∨
  (y ∉ visited) ∧ is_Some (by_id !! y) ∧ ∃ e, current_edge records NEIGHBORHOOD_LABELS e
    ∧ e.(EdgeRec.source) = x ∧ e.(EdgeRec.target) = y ∧ e.(EdgeRec.label) ∈ labels.
Proof.
  rewrite consider_all_dom. setoid_rewrite in_outbound. apply or_iff_compat_l. split.
  - intros (? & (e & ? & ? & ->) & ? & <- & ? & ?). split_and!; [done..|]. by exists e.
  - intros (? & ? & e & ? & ? & <- & ?). eexists. split_and!; [by exists e|done..].
Qed.

(** An end that is not there, seen from the edge. *)
Definition reports (there : EdgeRec.t → string) (e : EdgeRec.t) (code : string)
    (z : MemoryAuditDiagnostic.t) : Prop :=
  by_id !! there e = None ∧ deleted (there e) = false
    ∧ z = MemoryAuditDiagnostic.mk code e.(EdgeRec.id) (there e) "" "codegraph".

Context (visited_live : ∀ y, by_id !! y = None → y ∉ visited).

Lemma inbound_diag labels code acc x z :
  z ∈ (consider_all (default [] (maps.1 !! x)) labels code acc).2 ↔ z ∈ acc.2 ∨
  ∃ e, current_edge records NEIGHBORHOOD_LABELS e ∧ e.(EdgeRec.target) = x
    ∧ e.(EdgeRec.label) ∈ labels ∧ reports EdgeRec.source e code z.
Proof.
  rewrite consider_all_diag. setoid_rewrite in_inbound. apply or_iff_compat_l. split.
  - intros (? & (e & ? & ? & ->) & ? & ? & ? & ? & ->). by exists e.
  - intros (e & ? & ? & ? & ? & ? & ->). eexists.
    split_and!; [by exists e|done|by apply visited_live|done..].
Qed.

Lemma outbound_diag labels code acc x z :
  z ∈ (consider_all (default [] (maps.2 !! x)) labels code acc).2 ↔ z ∈ acc.2 ∨
  ∃ e, current_edge records NEIGHBORHOOD_LABELS e ∧ e.(EdgeRec.source) = x
    ∧ e.(EdgeRec.label) ∈ labels ∧ reports EdgeRec.target e code z.
Proof.
  rewrite consider_all_diag. setoid_rewrite in_outbound. apply or_iff_compat_l. split.
  - intros (? & (e & ? & ? & ->) & ? & ? & ? & ? & ->). by exists e.
  - intros (e & ? & ? & ? & ? & ? & ->). eexists.
    split_and!; [by exists e|done|by apply visited_live|done..].
Qed.
End Scan.

(** A node finds the unvisited live records it steps to. *)
Lemma candidates_dom visited x d y :
  y ∈ dom (candidates maps visited by_id deleted x (kind_of by_id x) d).1
  ↔ (y ∉ visited) ∧ neighbor_step records x y.
Proof.
  unfold neighbor_step, offers, candidates. destruct maps as [inbound outbound] eqn:Hm.
  pose proof (λ labels code acc, inbound_dom visited labels code acc x y) as Hin.
  pose proof (λ labels code acc, outbound_dom visited labels code acc x y) as Hout.
  rewrite Hm in Hin, Hout. cbn [fst snd] in Hin, Hout. clear Hm.
  assert (y ∉ dom (∅ : gmap string string)) as Hempty by by rewrite dom_empty.
  destruct (kind_of by_id x); cbn [expands]; rewrite ?Hout, ?Hin; cbn [fst]; clear Hin Hout;
    first [split; [done|by intros (_ & _ & ? & ? & _ & [])] | naive_solver].
Qed.

(** Its diagnostics are about the ends that never existed. *)
Lemma candidates_diag visited x d z :
  visited ⊆ dom by_id →
  z ∈ (candidates maps visited by_id deleted x (kind_of by_id x) d).2
  ↔ z ∈ d ∨ dangling_neighbor records x z.
Proof.
  intros Hvis. assert (∀ y, by_id !! y = None → y ∉ visited) as Hno.
  { intros y Hy Hv. apply Hvis, elem_of_dom in Hv as [? ?]. congruence. }
  unfold dangling_neighbor, offers, candidates. destruct maps as [inbound outbound] eqn:Hm.
  pose proof (λ labels code acc, inbound_diag visited Hno labels code acc x z) as Hin.
  pose proof (λ labels code acc, outbound_diag visited Hno labels code acc x z) as Hout.
  rewrite Hm in Hin, Hout. cbn [fst snd] in Hin, Hout. clear Hm. unfold reports in *.
  destruct (kind_of by_id x); cbn [expands]; rewrite ?Hout, ?Hin; cbn [snd]; clear Hin Hout Hno;
    first [split; [by left|intros [?|(? & ? & ? & (_ & []) & _)]; done] | naive_solver].
Qed.

Section Levels.
Context (visited : gset string).

Lemma expand_dom frontier d y :
  y ∈ (expand maps visited by_id deleted frontier d).1 ↔
  (y ∉ visited) ∧ ∃ x, x ∈ frontier ∧ neighbor_step records x y.
Proof.
  unfold expand.
  rewrite (foldl_or _ (λ acc : gset string * list MemoryAuditDiagnostic.t, y ∈ acc.1)
    (λ x, (y ∉ visited) ∧ neighbor_step records x y)); [set_solver|].
  intros [D d'] x _. pose proof (candidates_dom visited x d' y) as H.
  destruct (candidates _ _ _ _ x _ d') as [out d'']. cbn [fst] in *. rewrite elem_of_union, H. done.
Qed.

Lemma expand_diag frontier d z :
  visited ⊆ dom by_id →
  z ∈ (expand maps visited by_id deleted frontier d).2 ↔
  z ∈ d ∨ ∃ x, x ∈ frontier ∧ dangling_neighbor records x z.
Proof.
  intros Hvis. unfold expand.
  apply (foldl_or _ (λ acc : gset string * list MemoryAuditDiagnostic.t, z ∈ acc.2)).
  intros [D d'] x _. pose proof (candidates_diag visited x d' z Hvis) as H.
  destruct (candidates _ _ _ _ x _ d') as [out d'']. by cbn [snd] in *.
Qed.

Lemma elem_of_count_level frontier y :
  y ∈ count_level maps visited by_id deleted frontier ↔
  (y ∉ visited) ∧ ∃ x, x ∈ frontier ∧ neighbor_step records x y.
Proof.
  unfold count_level. rewrite (foldl_or _ (λ D : gset string, y ∈ D)
    (λ x, (y ∉ visited) ∧ neighbor_step records x y)); [set_solver|].
  intros D x _. by rewrite elem_of_union, candidates_dom.
Qed.
End Levels.

(** ** The walk *)
Context (anchor : string) (anchor_live : is_Some (by_id !! anchor)).

Abbreviation dist := (at_distance (neighbor_step records) anchor).
Abbreviation within := (λ k x, bsteps (neighbor_step records) k anchor x).
Abbreviation advance := (advance maps by_id deleted).
Abbreviation walk_loop := (walk_loop maps by_id deleted).
Abbreviation count_loop := (count_loop maps by_id deleted).

Lemma within_live k x : within k x → x ∈ dom by_id.
Proof.
  rewrite elem_of_dom. revert x. induction k as [|k IH]; intros x; [by intros <-%bsteps_0|].
  intros [?|(z & _ & ? & _)]%bsteps_S_iff; [by apply IH|done].
Qed.

Record walk_inv (k : nat) (w : walk) : Prop := {
  walk_depth : w.(depth) = k;
  walk_visited x : x ∈ w.(visited) ↔ within k x;
  walk_frontier x : x ∈ w.(frontier) ↔ dist k x;
  walk_hop x j : w.(hop_of) !! x = Some j ↔ j ≤ k ∧ dist j x;
  walk_diag z : z ∈ w.(diagnostics) ↔ ∃ j x, j < k ∧ dist j x ∧ dangling_neighbor records x z
}.

Lemma begin_inv : walk_inv 0 (begin anchor).
Proof.
  constructor; cbn.
  - done.
  - intros x. rewrite elem_of_singleton, bsteps_0. split; congruence.
  - intros x. rewrite list_elem_of_singleton, at_distance_0. done.
  - intros x j. rewrite lookup_singleton_Some. split.
    + intros [<- <-]. split; [lia|]. by apply at_distance_0.
    + intros [Hj Hx]. assert (j = 0) as -> by lia. by apply at_distance_0 in Hx as ->.
  - intros z. split; [by intros ?%elem_of_nil|]. intros (? & ? & ? & _). lia.
Qed.

Lemma level_next k (vis L : gset string) (fr : list string) :
  (∀ x, x ∈ vis ↔ within k x) → (∀ x, x ∈ fr ↔ dist k x) →
  (∀ y, y ∈ L ↔ (y ∉ vis) ∧ ∃ x, x ∈ fr ∧ neighbor_step records x y) →
  ∀ y, y ∈ L ↔ dist (S k) y.
Proof. intros Hv Hf HL y. rewrite HL, at_distance_S_iff, Hv. by setoid_rewrite Hf. Qed.

Lemma advance_inv k w : walk_inv k w → walk_inv (S k) (advance w).
Proof.
  intros [Hdep Hv Hf Hh Hd]. unfold advance.
  assert (w.(visited) ⊆ dom by_id) as Hsub by (intros x ?%Hv; by eapply within_live).
  pose proof (level_next k _ _ _ Hv Hf (expand_dom _ w.(frontier) w.(diagnostics))) as HL.
  pose proof (λ z, expand_diag _ w.(frontier) w.(diagnostics) z Hsub) as HD.
  destruct (expand _ _ _ _ _ _) as [L d]. cbn [fst snd] in *. constructor; cbn.
  - by rewrite Hdep.
  - by apply (visited_next (neighbor_step records)).
  - intros x. by rewrite elem_of_iter.
  - intros x j. rewrite lookup_union_Some_raw, lookup_gset_to_gmap_Some,
      lookup_gset_to_gmap_None, HL, Hh, Hdep. split.
    + intros [[? <-]|[_ [? ?]]]; (split; [lia|done]).
    + intros [Hj Hx]. destruct (decide (j = S k)) as [->|]; [by left|]. right.
      split; [|split; [lia|done]]. intros Hx'. pose proof (at_distance_unique _ _ _ _ _ Hx Hx'). lia.
  - intros z. rewrite HD, Hd. split.
    + intros [(j & x & ? & ?)|(x & Hx%Hf & ?)]; [exists j, x; split; [lia|done]|].
      exists k, x. split; [lia|done].
    + intros (j & x & Hj & Hx & Hz). destruct (decide (j = k)) as [->|]; [right|left].
      * exists x. by rewrite Hf.
      * exists j, x. split; [lia|done].
Qed.

Lemma walk_loop_spec n k w :
  walk_inv k w →
  ∃ k', k ≤ k' ≤ k + n ∧ walk_inv k' (walk_loop n w)
    ∧ (k' = k + n ∨ (walk_loop n w).(frontier) = []).
Proof.
  revert k w. induction n as [|n IH]; intros k w Hinv; cbn [walk_loop].
  { exists k. split; [lia|]. split; [done|]. left. lia. }
  case_bool_decide as Hnil.
  { exists k. split; [lia|]. split; [done|by right]. }
  destruct (IH (S k) (advance w) (advance_inv _ _ Hinv)) as (k' & Hk & Hi & He).
  exists k'. split; [lia|]. split; [done|]. destruct He as [->|]; [left; lia|by right].
Qed.

(** What the walk to the bound [n] knows. *)
Lemma walk_end n w :
  w = walk_loop n (begin anchor) →
  (∀ x j, w.(hop_of) !! x = Some j ↔ j ≤ n ∧ dist j x)
  ∧ (∀ z, z ∈ w.(diagnostics) ↔ ∃ j x, j < n ∧ dist j x ∧ dangling_neighbor records x z)
  ∧ (w.(frontier) = [] ∧ (∀ j x, n < j → ¬ dist j x) ∨ walk_inv n w).
Proof.
  intros ->. destruct (walk_loop_spec n 0 _ begin_inv) as (k & Hk & Hinv & Hend).
  destruct Hend as [Heq|Hnil].
  { cbn in Heq. subst k. split_and!; [apply Hinv..|by right]. }
  assert (∀ j x, k ≤ j → ¬ dist j x) as Hnone.
  { intros j x Hj. apply (empty_level _ anchor k); [|done]. intros y Hy%(walk_frontier _ _ Hinv).
    rewrite Hnil in Hy. by apply elem_of_nil in Hy. }
  split_and!.
  - intros x j. rewrite (walk_hop _ _ Hinv). split; (intros [? Hx]; split; [|done]); [lia|].
    destruct (decide (k ≤ j)) as [Hj|]; [|lia]. by destruct (Hnone _ _ Hj Hx).
  - intros z. rewrite (walk_diag _ _ Hinv).
    split; intros (j & x & ? & Hx & ?); exists j, x; (split; [|done]); [lia|].
    destruct (decide (k ≤ j)) as [Hj|]; [|lia]. by destruct (Hnone _ _ Hj Hx).
  - left. split; [done|]. intros j x Hj. apply Hnone. lia.
Qed.

Abbreviation beyond := (levels_beyond (neighbor_step records) anchor
  NeighborhoodDroppedDepth.depth NeighborhoodDroppedDepth.count).

Lemma count_loop_spec fuel c fr vis dropped total :
  (∀ x, x ∈ vis ↔ within c x) → (∀ x, x ∈ fr ↔ dist c x) →
  size by_id < fuel + size vis →
  ∃ dl, count_loop fuel fr vis c dropped total
      = Some (dropped ++ dl, total + sum_list_with NeighborhoodDroppedDepth.count dl)
    ∧ beyond c dl.
Proof.
  revert c fr vis dropped total. induction fuel as [|fuel IH];
    intros c fr vis dropped total Hv Hf Hfuel; rewrite <-(size_dom (D:=gset string) by_id) in Hfuel.
  { exfalso. assert (size vis ≤ size (dom by_id)); [|lia]. apply subseteq_size.
    intros x Hx%Hv. by eapply within_live. }
  cbn [count_loop]. pose proof (level_next c _ _ _ Hv Hf (elem_of_count_level vis fr)) as HL.
  pose proof (elem_of_count_level vis fr) as Hnew.
  set (L := count_level _ _ _ _ _) in *. case_bool_decide as HLe.
  - exists []. rewrite app_nil_r. split; [do 2 f_equal; simpl; lia|]. split; [done|].
    intros x Hx. replace (c + S (length [])) with (S c) in Hx by (simpl; lia).
    apply HL in Hx. rewrite HLe in Hx. by apply elem_of_empty in Hx.
  - assert (size (vis ∪ L) = size vis + size L) as Hsize.
    { apply size_union. intros x Hx [? _]%Hnew. done. }
    assert (size L ≠ 0) as HsL by by intros ?%size_empty_inv%leibniz_equiv.
    destruct (IH (S c) (iter L) (vis ∪ L) (dropped ++ [NeighborhoodDroppedDepth.mk (S c) (size L)])
      (total + size L)) as (dl & Hr & Hdl).
    + by apply (visited_next (neighbor_step records)).
    + intros x. by rewrite elem_of_iter.
    + rewrite <-(size_dom (D:=gset string) by_id). lia.
    + exists (NeighborhoodDroppedDepth.mk (S c) (size L) :: dl). split.
      * rewrite Hr, <-app_assoc. do 2 f_equal. simpl. lia.
      * by apply levels_beyond_cons with L.
Qed.
End Level.

(** ** Generic facts of the last part *)

(** A sorted list whose elements a key tells apart is strictly sorted. *)
Lemma sorted_strictly {A K} (cmp : A → A → comparison) (key : A → K) (l : list A) :
  (∀ a b, cmp a b = Eq → key a = key b) → NoDup (key <$> l) →
  StronglySorted (cmp_le cmp) l → StronglySorted (λ a b, cmp a b = Lt) l.
Proof.
  intros Hkey Hnd Hs. induction Hs as [|x l Hs IH Hx]; [constructor|].
  apply NoDup_cons in Hnd as [Hn Hnd]. constructor; [by apply IH|].
  apply Forall_forall. intros y Hy. pose proof (proj1 (Forall_forall _ _) Hx y Hy) as Hle.
  unfold cmp_le in Hle. destruct (cmp x y) eqn:E; [|done..].
  destruct Hn. rewrite (Hkey _ _ E). by apply list_elem_of_fmap_2.
Qed.

(** Nothing is repeated, nothing is removed. *)
Lemma dedup_by_key_NoDup {A K} `{EqDecision K} (key : A → K) (l : list A) :
  NoDup (key <$> l) → dedup_by_key key l = l.
Proof.
  induction l as [|x l IH]; [done|]. intros [Hx Hnd]%NoDup_cons. cbn [dedup_by_key].
  rewrite IH by done. destruct l as [|y l]; [done|]. case_bool_decide as Hk; [|done].
  destruct Hx. rewrite Hk. by left.
Qed.

Lemma NoDup_imap_pair {A} (l : list A) : NoDup (imap pair l).
Proof.
  apply NoDup_alt. intros i j [k x] Hi Hj. rewrite list_lookup_imap in Hi, Hj.
  destruct (l !! i), (l !! j); cbn in *; congruence.
Qed.

Lemma NoDup_omap_key {A B K} (f : A → option B) (key : B → K) (l : list A) :
  NoDup l →
  (∀ a b x y, a ∈ l → b ∈ l → f a = Some x → f b = Some y → key x = key y → a = b) →
  NoDup (key <$> omap f l).
Proof.
  intros Hnd. induction Hnd as [|a l Ha Hnd IH]; intros Hinj; [constructor|]. cbn [omap list_omap].
  assert (NoDup (key <$> omap f l)) as Hl.
  { apply IH. intros b c x y Hb Hc. apply Hinj; by right. }
  destruct (f a) as [x|] eqn:Hf; [|done]. csimpl. constructor; [|done].
  intros (y & Hk & (b & Hb & Hy)%list_elem_of_omap)%list_elem_of_fmap.
  apply Ha. by rewrite (Hinj a b x y) by (done || by left || by right).
Qed.

(** ** What the result holds *)
Section Exact.
Context (records : list GraphRecord) (anchor : string).

Abbreviation by_id := (live_by_id records).
Abbreviation dist := (at_distance (neighbor_step records) anchor).

Definition ids_of (nodes : list NeighborhoodNode.t) : list string := node_id <$> nodes.

(** [m] comes before the record [x] at distance [j] in the order of the budget. *)
Definition nearer (m : NeighborhoodNode.t) (j : nat) (x : string) : Prop :=
  m.(NeighborhoodNode.hop) < j
  ∨ m.(NeighborhoodNode.hop) = j ∧ String.le (node_id m) x.

(** The nodes are live records within the bound, with their distances, in the order of their
    ids, at most [max_nodes] of them; one is missing only when the budget is used up by
    nearer ones. *)
Definition nodes_exact (max_depth max_nodes : nat) (nodes : list NeighborhoodNode.t) : Prop :=
  StronglySorted (λ a b, String.compare (node_id a) (node_id b) = Lt) nodes
  ∧ length nodes ≤ max_nodes
  ∧ (∀ m, m ∈ nodes → by_id !! node_id m = Some m.(NeighborhoodNode.record)
       ∧ m.(NeighborhoodNode.hop) ≤ max_depth ∧ dist m.(NeighborhoodNode.hop) (node_id m))
  ∧ ∀ j x, j ≤ max_depth → dist j x → x ∉ ids_of nodes →
      length nodes = max_nodes ∧ ∀ m, m ∈ nodes → nearer m j x.

(** The edges are the current edges of the vocabulary between the nodes, each once, in
    order. *)
Definition edges_exact (nodes : list NeighborhoodNode.t) (edges : list NeighborhoodEdge.t)
    : Prop :=
  StronglySorted (λ a b, edge_cmp a b = Lt) edges
  ∧ ∀ r, r ∈ edges ↔ ∃ e, current_edge records NEIGHBORHOOD_LABELS e ∧ r = render_edge e
      ∧ e.(EdgeRec.source) ∈ ids_of nodes ∧ e.(EdgeRec.target) ∈ ids_of nodes.

Definition within_bound (max_depth : nat) (x : string) : Prop := ∃ j, j ≤ max_depth ∧ dist j x.

(** The budget truncation counts the records within the bound that are not among the nodes,
    and the current edges that lost an end with them. *)
Definition budget_exact (max_depth max_nodes : nat) (nodes : list NeighborhoodNode.t)
    (o : option NeighborhoodBudgetTruncation.t) : Prop :=
  match o with
  | None => ∀ x, within_bound max_depth x → x ∈ ids_of nodes
  | Some b => b.(NeighborhoodBudgetTruncation.max_nodes) = max_nodes
      ∧ (∃ D : gset string, D ≠ ∅ ∧ size D = b.(NeighborhoodBudgetTruncation.dropped_nodes)
           ∧ ∀ x, x ∈ D ↔ within_bound max_depth x ∧ x ∉ ids_of nodes)
      ∧ ∃ D : gset string, size D = b.(NeighborhoodBudgetTruncation.dropped_edges)
          ∧ ∀ id, id ∈ D ↔ ∃ e, current_edge records NEIGHBORHOOD_LABELS e ∧ e.(EdgeRec.id) = id
              ∧ within_bound max_depth e.(EdgeRec.source)
              ∧ within_bound max_depth e.(EdgeRec.target)
              ∧ ¬ (e.(EdgeRec.source) ∈ ids_of nodes ∧ e.(EdgeRec.target) ∈ ids_of nodes)
  end.

(** The depth truncation counts exactly the records at every distance beyond the bound. *)
Definition depth_exact (max_depth : nat) (o : option NeighborhoodDepthTruncation.t) : Prop :=
  match o with
  | None => ∀ j x, max_depth < j → ¬ dist j x
  | Some tr => tr.(NeighborhoodDepthTruncation.max_depth) = max_depth
      ∧ tr.(NeighborhoodDepthTruncation.dropped_frontier) ≠ []
      ∧ levels_beyond (neighbor_step records) anchor NeighborhoodDroppedDepth.depth
          NeighborhoodDroppedDepth.count max_depth
          tr.(NeighborhoodDepthTruncation.dropped_frontier)
      ∧ tr.(NeighborhoodDepthTruncation.dropped_total)
        = sum_list_with NeighborhoodDroppedDepth.count
            tr.(NeighborhoodDepthTruncation.dropped_frontier)
  end.

(** *** The budget *)
Section Budget.
Context (hop_of : gmap string nat) (max_depth max_nodes : nat).
Context (hop_of_spec : ∀ x j, hop_of !! x = Some j ↔ j ≤ max_depth ∧ dist j x).

Abbreviation all := (discovered hop_of).
Abbreviation admitted := (admit_level max_nodes (discovered hop_of)).

Lemma elem_of_discovered x j : (x, j) ∈ all ↔ hop_of !! x = Some j.
Proof. unfold discovered. by rewrite sort_by_perm, elem_of_map_to_list. Qed.

Lemma discovered_NoDup : NoDup all.*1.
Proof.
  unfold discovered. rewrite (fmap_Permutation fst _ _ (sort_by_perm discovered_cmp _)).
  apply NoDup_fst_map_to_list.
Qed.

Lemma in_hop_of x : is_Some (hop_of !! x) ↔ within_bound max_depth x.
Proof.
  unfold within_bound. split.
  - intros [j Hj%hop_of_spec]. by exists j.
  - intros (j & Hj). exists j. by apply hop_of_spec.
Qed.

Lemma elem_of_admitted x : x ∈ admitted ↔ ∃ j, (x, j) ∈ take max_nodes all.
Proof.
  unfold admit_level. rewrite elem_of_list_to_set, list_elem_of_fmap. split.
  - intros ([y j] & -> & Hy). by exists j.
  - intros [j Hj]. by exists (x, j).
Qed.

Lemma admitted_in x : x ∈ admitted → is_Some (hop_of !! x).
Proof.
  intros [j Hj]%elem_of_admitted. exists j. apply elem_of_discovered.
  by eapply elem_of_take in Hj as (i & Hi & _); apply list_elem_of_lookup_2 in Hi.
Qed.

Lemma size_admitted : size admitted = min max_nodes (length all).
Proof.
  unfold admit_level. rewrite size_list_to_set, length_fmap, length_take; [done|].
  eapply sublist_NoDup; [apply discovered_NoDup|].
  apply fmap_sublist, sublist_take.
Qed.

#[local] Instance discovered_cmp_order : CmpOrder discovered_cmp.
Proof. exact (cmp_then_order (cmp_on snd Nat.compare) (cmp_on fst String.compare) _ _). Qed.

(** What is not admitted comes after a full budget. *)
Lemma not_admitted x j :
  hop_of !! x = Some j → x ∉ admitted →
  max_nodes < length all ∧ ∀ y i, (y, i) ∈ take max_nodes all → i < j ∨ i = j ∧ String.le y x.
Proof.
  intros Hx%elem_of_discovered Hn.
  rewrite <-(take_drop max_nodes all), elem_of_app in Hx.
  destruct Hx as [Hx|Hx]; [destruct Hn; apply elem_of_admitted; by exists j|]. split.
  - destruct (decide (max_nodes < length all)) as [|Hge]; [done|].
    rewrite drop_ge in Hx by lia. by apply elem_of_nil in Hx.
  - intros y i Hy. pose proof (sort_by_sorted discovered_cmp (map_to_list hop_of)) as Hs.
    change (sort_by _ _) with all in Hs. rewrite <-(take_drop max_nodes all) in Hs.
    pose proof (StronglySorted_app_1_elem_of _ _ _ _ _ Hs Hy Hx) as Hle.
    unfold cmp_le, discovered_cmp in Hle. cbn [fst snd] in Hle.
    destruct (Nat.compare_spec i j) as [->|?|?]; cbn [then_cmp] in Hle; [|by left|done].
    right. by rewrite <-str_compare_le.
Qed.

(** The record and the distance of every admitted id are there. *)
Context (hop_live : ∀ x j, dist j x → is_Some (by_id !! x)).

Lemma admitted_nodes_spec :
  ∃ nodes, mapM (admitted_node by_id hop_of) (iter admitted) = Some nodes
    ∧ node_id <$> nodes = iter admitted
    ∧ ∀ m, m ∈ nodes → by_id !! node_id m = Some m.(NeighborhoodNode.record)
        ∧ hop_of !! node_id m = Some m.(NeighborhoodNode.hop).
Proof.
  assert (∀ x, x ∈ iter admitted → is_Some (hop_of !! x)) as Hin.
  { intros x. rewrite elem_of_iter. apply admitted_in. }
  induction (iter admitted) as [|x l IH]; [exists []; split_and!; [done..|by intros ? ?%elem_of_nil]|].
  destruct IH as (nodes & Hm & Hid & Hall); [by intros y Hy; apply Hin; right|].
  destruct (Hin x) as [j Hj]; [by left|].
  destruct (hop_live x j) as [r Hr]; [by apply hop_of_spec|].
  pose proof (live_by_id_id _ _ _ Hr) as Hrid.
  exists (NeighborhoodNode.mk r j :: nodes). cbn [mapM].
  assert (admitted_node by_id hop_of x = Some (NeighborhoodNode.mk r j)) as ->.
  { unfold admitted_node. rewrite Hr. cbn [mbind option_bind]. by rewrite Hj. }
  cbn [mbind option_bind]. rewrite Hm. cbn [mbind option_bind].
  split_and!; [done|csimpl; unfold node_id at 1; cbn; by rewrite Hrid, Hid|].
  intros m [->|Hm']%elem_of_cons; [|by apply Hall]. unfold node_id. cbn. by rewrite Hrid.
Qed.

Lemma nodes_spec :
  ∃ nodes, mapM (admitted_node by_id hop_of) (iter admitted) = Some nodes
    ∧ let sorted := sort_by (cmp_on node_id String.compare) nodes in
      (∀ x, x ∈ ids_of sorted ↔ x ∈ admitted) ∧ nodes_exact max_depth max_nodes sorted.
Proof.
  destruct admitted_nodes_spec as (nodes & Hm & Hid & Hall). exists nodes. split; [done|].
  cbv zeta. pose proof (sort_by_perm (cmp_on node_id String.compare) nodes) as Hp.
  assert (ids_of (sort_by (cmp_on node_id String.compare) nodes) ≡ₚ iter admitted) as Hids.
  { unfold ids_of. by rewrite Hp, Hid. }
  assert (∀ x, x ∈ ids_of (sort_by (cmp_on node_id String.compare) nodes) ↔ x ∈ admitted) as Hmem.
  { intros x. by rewrite Hids, elem_of_iter. }
  assert (length (sort_by (cmp_on node_id String.compare) nodes) = size admitted) as Hlen.
  { rewrite <-(length_fmap node_id). change (length (ids_of (sort_by (cmp_on node_id String.compare) nodes)) = size admitted).
    rewrite Hids. unfold iter. by rewrite str_sort_perm. }
  split; [done|]. split_and!.
  - apply (sorted_strictly (cmp_on node_id String.compare) node_id).
    + unfold cmp_on. by intros a b ?%str_compare_Eq.
    + fold (ids_of (sort_by (cmp_on node_id String.compare) nodes)). rewrite Hids. apply iter_NoDup.
    + apply (sort_by_sorted (cmp_on node_id String.compare)).
  - rewrite Hlen, size_admitted. lia.
  - intros m Hm'. rewrite Hp in Hm'. destruct (Hall m Hm') as [? ?%hop_of_spec]. naive_solver.
  - intros j x Hj Hx Hn. rewrite Hmem in Hn.
    destruct (not_admitted x j) as [Hlt Hle]; [by apply hop_of_spec|done|]. split.
    + rewrite Hlen, size_admitted. lia.
    + intros m Hm'. apply Hle.
      assert (node_id m ∈ admitted) as [i Hi]%elem_of_admitted
        by (apply Hmem; by apply list_elem_of_fmap_2).
      rewrite Hp in Hm'. destruct (Hall m Hm') as [_ Hh].
      assert ((node_id m, i) ∈ all) as Ha.
      { apply elem_of_take in Hi as (k & Hk & _). by apply list_elem_of_lookup_2 in Hk. }
      apply elem_of_discovered in Ha. assert (i = NeighborhoodNode.hop m) as -> by congruence. done.
Qed.

(** *** The edges *)
Section Edges.
Context (nodes : list NeighborhoodNode.t)
  (ids_spec : ∀ x, x ∈ ids_of nodes ↔ x ∈ admitted).

Abbreviation full := (discovered_edges (Liveness.new records) hop_of records).
Abbreviation rendered :=
  (dedup_by_key edge_key (sort_by edge_cmp (admitted_edges admitted full))).

Lemma full_NoDup : NoDup (EdgeRec.id <$> full).
Proof.
  unfold discovered_edges.
  eapply sublist_NoDup; [|apply fmap_sublist, sublist_filter].
  apply NoDup_omap_key; [apply NoDup_imap_pair|].
  intros [i r] [j s] x y Hi%elem_of_imap_pair Hj%elem_of_imap_pair Hx Hy Hk.
  apply vocabulary_edge_Some in Hx as (-> & Hl & _); [|done].
  apply vocabulary_edge_Some in Hy as (-> & Hl' & _); [|done].
  rewrite <-Hk in Hl'. pose proof (latest_edge_unique _ _ _ _ Hl Hl') as ->. congruence.
Qed.

Lemma elem_of_full e :
  e ∈ full ↔ current_edge records NEIGHBORHOOD_LABELS e
    ∧ within_bound max_depth e.(EdgeRec.source) ∧ within_bound max_depth e.(EdgeRec.target).
Proof.
  unfold discovered_edges. rewrite list_elem_of_filter, !in_hop_of, list_elem_of_omap.
  rewrite current_vocabulary. split.
  - intros [? ([i r] & Hi%elem_of_imap_pair & ?)]. split; [by exists i, r|done].
  - intros [(i & r & Hi & ?) ?]. split; [done|]. exists (i, r). by rewrite elem_of_imap_pair.
Qed.

#[local] Instance edge_cmp_order : CmpOrder edge_cmp.
Proof. unfold edge_cmp. apply _. Qed.

Lemma admitted_edges_NoDup : NoDup (NeighborhoodEdge.edge_record_id <$> admitted_edges admitted full).
Proof.
  unfold admitted_edges. rewrite <-list_fmap_compose.
  eapply sublist_NoDup; [apply full_NoDup|]. apply fmap_sublist, sublist_filter.
Qed.

(** The ids tell the edges apart, so the deduplication has nothing to do. *)
Lemma rendered_eq : rendered = sort_by edge_cmp (admitted_edges admitted full).
Proof.
  apply dedup_by_key_NoDup.
  apply (NoDup_fmap_1 (λ k : string * string * string, k.2)). rewrite <-list_fmap_compose.
  change (_ ∘ edge_key) with NeighborhoodEdge.edge_record_id. 
  rewrite (fmap_Permutation _ _ _ (sort_by_perm edge_cmp _)). apply admitted_edges_NoDup.
Qed.

Lemma edges_spec : edges_exact nodes rendered.
Proof.
  rewrite rendered_eq. split.
  - apply (sorted_strictly edge_cmp NeighborhoodEdge.edge_record_id).
    + intros a b. unfold edge_cmp, cmp_then, cmp_on, then_cmp.
      intros Heq. repeat case_match; try done. by apply str_compare_Eq.
    + rewrite (fmap_Permutation _ _ _ (sort_by_perm edge_cmp _)). apply admitted_edges_NoDup.
    + apply (sort_by_sorted edge_cmp).
  - intros r. rewrite sort_by_perm. unfold admitted_edges. rewrite list_elem_of_fmap.
    setoid_rewrite list_elem_of_filter. setoid_rewrite elem_of_full.
    setoid_rewrite ids_spec. split; [naive_solver|]. intros (e & He & -> & Hs & Ht).
    exists e. split_and!; [done..| |]; by apply in_hop_of, admitted_in.
Qed.

Lemma rendered_length : length rendered = length (admitted_edges admitted full).
Proof. by rewrite rendered_eq, sort_by_perm. Qed.

(** What the budget cut off. *)
Lemma budget_spec :
  budget_exact max_depth max_nodes nodes
    (budget_cut max_nodes admitted all (length full) (length rendered)).
Proof.
  unfold budget_cut. rewrite rendered_length.
  assert (∀ x, within_bound max_depth x ↔ x ∈ all.*1) as Hall.
  { intros x. rewrite <-in_hop_of, list_elem_of_fmap. split.
    - intros [j Hj]. exists (x, j). by rewrite elem_of_discovered.
    - intros ([y j] & -> & Hy%elem_of_discovered). by exists j. }
  assert (admitted ⊆ list_to_set all.*1) as Hsub.
  { intros x Hx%admitted_in. by rewrite elem_of_list_to_set, <-Hall, <-in_hop_of. }
  assert (size (list_to_set all.*1 : gset string) = length all) as Hsize.
  { rewrite size_list_to_set by apply discovered_NoDup. by rewrite length_fmap. }
  destruct (Nat.ltb_spec (size admitted) (length all)) as [Hlt|Hge].
  - cbn. split; [done|]. split.
    + exists (list_to_set all.*1 ∖ admitted). rewrite size_difference, Hsize by done. split_and!.
      * intros He. assert (size (list_to_set all.*1 ∖ admitted : gset string) = 0) as H0
          by by rewrite He, size_empty.
        rewrite size_difference, Hsize in H0 by done. lia.
      * done.
      * intros x. by rewrite elem_of_difference, elem_of_list_to_set, <-Hall, ids_spec.
    + set (P := λ e : EdgeRec.t, e.(EdgeRec.source) ∈ admitted ∧ e.(EdgeRec.target) ∈ admitted).
      pose proof (filter_app_complement P full) as Hpf.
      exists (list_to_set (EdgeRec.id <$> filter (λ e, ¬ P e) full)). split.
      * rewrite size_list_to_set, length_fmap.
        2: { eapply sublist_NoDup; [apply full_NoDup|]. apply fmap_sublist, sublist_filter. }
        apply Permutation_length in Hpf. rewrite length_app in Hpf.
        unfold admitted_edges. rewrite length_fmap. change (filter _ full) with (filter P full) at 2. lia.
      * intros x. rewrite elem_of_list_to_set, list_elem_of_fmap.
        setoid_rewrite list_elem_of_filter. setoid_rewrite elem_of_full.
        setoid_rewrite ids_spec. unfold P. naive_solver.
  - intros x Hx%Hall. rewrite ids_spec.
    assert (admitted = list_to_set all.*1) as ->.
    { apply set_subseteq_size_eq; [done|]. by rewrite Hsize. }
    by rewrite elem_of_list_to_set.
Qed.
End Edges.
End Budget.
End Exact.

(** ** The whole function *)
Section Whole.
Context (sort_unstable : list NeighborhoodEdgeRef → list NeighborhoodEdgeRef).
Hypothesis sort_unstable_perm : ∀ l, sort_unstable l ≡ₚ l.
Context (records : list GraphRecord) (anchor : string).

Abbreviation by_id := (live_by_id records).
Abbreviation deleted := (Liveness.deleted (Liveness.new records)).
Abbreviation maps := (build_indexes sort_unstable records (Liveness.new records)).
Abbreviation dist := (at_distance (neighbor_step records) anchor).

Context (anchor_live : is_Some (by_id !! anchor)).

Lemma count_dropped_spec n w :
  w = walk_loop maps by_id deleted n (begin anchor) →
  ∃ o, count_dropped maps by_id deleted (S (size by_id)) n w = Some o
    ∧ depth_exact records anchor n o.
Proof.
  intros Hw. destruct (walk_end sort_unstable sort_unstable_perm records anchor anchor_live n w Hw)
    as (_ & _ & Hend). unfold count_dropped. destruct Hend as [[Hnil Hnone]|Hinv].
  { rewrite bool_decide_eq_true_2 by done. by exists None. }
  pose proof (walk_frontier _ _ _ _ Hinv) as Hf. case_bool_decide as Hnil.
  { eexists None. split; [done|]. intros j x Hj. apply (empty_level _ anchor n); [|lia].
    intros y Hy%Hf. rewrite Hnil in Hy. by apply elem_of_nil in Hy. }
  destruct (count_loop_spec sort_unstable sort_unstable_perm records anchor anchor_live (S (size by_id)) n
    w.(frontier) w.(visited) [] 0) as (dl & Hr & Hdl); [apply Hinv|done|lia|].
  rewrite (walk_depth _ _ _ _ Hinv), Hr. cbn [mbind option_bind app Nat.add fst snd].
  eexists. split; [done|]. destruct dl as [|r dl]; cbn [sum_list_with].
  - intros j x Hj. apply (empty_level _ anchor (n + 1)); [|lia]. apply Hdl.
  - destruct (proj1 Hdl 0 r eq_refl) as (_ & Hpos & _).
    destruct (Nat.ltb_spec 0 (r.(NeighborhoodDroppedDepth.count)
      + sum_list_with NeighborhoodDroppedDepth.count dl)); [|lia].
    by split_and!.
Qed.

#[local] Instance dangling_cmp_order : CmpOrder dangling_cmp.
Proof. unfold dangling_cmp. apply _. Qed.

(** The diagnostics are the dangling ends of the expanded records, each once, in order. *)
Definition diagnostics_exact (n : nat) (l : list MemoryAuditDiagnostic.t) : Prop :=
  StronglySorted (λ a b, dangling_cmp a b = Lt) l
  ∧ ∀ z, z ∈ l ↔ ∃ j x, j < n ∧ dist j x ∧ dangling_neighbor records x z.

Lemma nb_diagnostics_spec n d :
  (∀ z, z ∈ d ↔ ∃ j x, j < n ∧ dist j x ∧ dangling_neighbor records x z) →
  diagnostics_exact n (dedup_by_key dangling_key (sort_by dangling_cmp d)).
Proof.
  intros Hd. split.
  - apply (dedup_by_key_strict dangling_key dangling_cmp).
    + intros a b. unfold dangling_cmp, cmp_then, cmp_on, then_cmp, dangling_key.
      intros Heq. repeat case_match; try done. f_equal; [f_equal|]; by apply str_compare_Eq.
    + apply (sort_by_sorted dangling_cmp).
  - intros z. rewrite <-Hd. split.
    + intros Hz%dedup_by_key_elem. by rewrite sort_by_perm in Hz.
    + intros Hz. destruct (dedup_by_key_key dangling_key (sort_by dangling_cmp d) z)
        as (y & Hy & Hk); [by rewrite sort_by_perm|].
      assert (y ∈ d) as Hyd by (apply dedup_by_key_elem in Hy; by rewrite sort_by_perm in Hy).
      assert (y = z) as <-; [|done].
      apply Hd in Hz as (? & ? & _ & _ & ? & ? & ? & _ & _ & _ & ->).
      apply Hd in Hyd as (? & ? & _ & _ & ? & ? & ? & _ & _ & _ & ->).
      unfold dangling_key in Hk. cbn in Hk. by injection Hk as -> -> ->.
Qed.
End Whole.

(** What a result says, part by part. *)
Definition neighborhood_of (records : list GraphRecord) (anchor : GraphRecord)
    (max_depth max_nodes : nat) (nb : Neighborhood.t) : Prop :=
  let id := GraphRecord.id anchor in
  nb.(Neighborhood.anchor) = anchor
  ∧ nodes_exact records id max_depth max_nodes nb.(Neighborhood.nodes)
  ∧ edges_exact records nb.(Neighborhood.nodes) nb.(Neighborhood.edges)
  ∧ depth_exact records id max_depth nb.(Neighborhood.depth_truncation)
  ∧ budget_exact records id max_depth max_nodes nb.(Neighborhood.nodes)
      nb.(Neighborhood.budget_truncation)
  ∧ diagnostics_exact records id max_depth nb.(Neighborhood.diagnostics).

(** ** Property *)

(** C12: [neighborhood] terminates without panicking on every record list, anchor, depth and
    budget. It answers [None] exactly for an empty budget or an anchor that is no live
    record. Otherwise the nodes are live records within [max_depth] hops of the expansion
    rule, each with its shortest distance, ordered by id, and when some are left out the
    budget is full of records that come before them by distance and id; the edges are
    exactly the current vocabulary edges between the nodes, each once; the two truncations
    count exactly what the depth and the budget left out, edges included; and the
    diagnostics are exactly the ends, of edges of the expanded records, that never
    existed. *)
Theorem neighborhood_exact sort_unstable records anchor_id max_depth max_nodes :
  (∀ l, sort_unstable l ≡ₚ l) →
  match max_nodes, live_by_id records !! anchor_id with
  | S _, Some anchor =>
      ∃ nb, neighborhood sort_unstable records anchor_id max_depth max_nodes = Some (Some nb)
        ∧ neighborhood_of records anchor max_depth max_nodes nb
  | _, _ => neighborhood sort_unstable records anchor_id max_depth max_nodes = Some None
  end.
Proof.
  intros Hperm. destruct max_nodes as [|k]; [done|]. set (max_nodes := S k).
  destruct (live_by_id records !! anchor_id) as [anchor|] eqn:Ha; unfold neighborhood;
    cbn [Nat.eqb max_nodes]; rewrite Ha; [|done].
  pose proof (live_by_id_id _ _ _ Ha) as <-. set (id := GraphRecord.id anchor) in *.
  assert (is_Some (live_by_id records !! id)) as Hlive by done.
  set (w := walk_loop _ _ _ _ _).
  destruct (count_dropped_spec sort_unstable Hperm records id Hlive max_depth w eq_refl)
    as (o & Ho & Hdepth).
  destruct (walk_end sort_unstable Hperm records id Hlive max_depth w eq_refl)
    as (Hhop & Hdiag & _).
  rewrite Ho. cbn [mbind option_bind].
  destruct (nodes_spec records id w.(hop_of) max_depth max_nodes Hhop) as (nodes & Hm & Hids & Hnodes).
  { intros x j [Hx _]. apply elem_of_dom. by eapply within_live. }
  fold max_nodes. rewrite Hm. cbn [mbind option_bind]. eexists. split; [done|].
  split; [done|]. fold id. split; [done|]. split; [by apply (edges_spec records id w.(hop_of) max_depth)|].
  split; [done|]. split; [by apply budget_spec|by apply nb_diagnostics_spec].
Qed.

(** ** A concrete neighborhood *)

Definition nb_sort (l : list NeighborhoodEdgeRef) : list NeighborhoodEdgeRef :=
  sort_by (lex_cmp (λ e : NeighborhoodEdgeRef, e.1.1) (λ e, e.1.2)) l.

Lemma nb_sort_perm l : nb_sort l ≡ₚ l.
Proof. apply sort_by_perm. Qed.

(** A file defines [a], which [b] calls and which calls [c] and a missing record; [d] is two
    calls after [c]. *)
Definition nb_node (kind : NodeKind.t) (id : string) : GraphRecord :=
  GraphRecord.node id kind None None (Some id) "".
Definition nb_edge (label : EdgeLabel.t) (source target : string) : GraphRecord :=
  GraphRecord.edge (λ s, s) label source target None "".
Definition nb_records : list GraphRecord :=
  (nb_node NodeKind.Symbol <$> ["a"; "b"; "c"; "d"; "e"]) ++
  [nb_node NodeKind.File "f";
   nb_edge EdgeLabel.Defines "f" "a"; nb_edge EdgeLabel.Calls "b" "a";
   nb_edge EdgeLabel.Calls "a" "c"; nb_edge EdgeLabel.Calls "a" "ghost";
   nb_edge EdgeLabel.Calls "b" "c"; nb_edge EdgeLabel.Calls "c" "e";
   nb_edge EdgeLabel.Calls "e" "d"; nb_edge EdgeLabel.References "d" "a"].

Definition nb_outcome (r : option (option Neighborhood.t)) :=
  option_map (option_map (λ nb : Neighborhood.t,
    ((λ m : NeighborhoodNode.t, (node_id m, m.(NeighborhoodNode.hop))) <$> nb.(Neighborhood.nodes),
     (λ e : NeighborhoodEdge.t, (e.(NeighborhoodEdge.source_id), e.(NeighborhoodEdge.target_id)))
       <$> nb.(Neighborhood.edges),
     nb.(Neighborhood.depth_truncation), nb.(Neighborhood.budget_truncation),
     (λ d : MemoryAuditDiagnostic.t, d.(MemoryAuditDiagnostic.target_handle))
       <$> nb.(Neighborhood.diagnostics)))) r.

Example nb_whole :
  nb_outcome (neighborhood nb_sort nb_records "a" 1 10)
  = Some (Some ([("a", 0); ("b", 1); ("c", 1); ("f", 1)],
      [("a", "c"); ("b", "a"); ("b", "c"); ("f", "a")],
      Some (NeighborhoodDepthTruncation.mk 1 [NeighborhoodDroppedDepth.mk 2 1;
        NeighborhoodDroppedDepth.mk 3 1] 2), None, ["ghost"])).
Proof. vm_compute. reflexivity. Qed.

Example nb_budget :
  nb_outcome (neighborhood nb_sort nb_records "a" 2 3)
  = Some (Some ([("a", 0); ("b", 1); ("c", 1)], [("a", "c"); ("b", "a"); ("b", "c")],
      Some (NeighborhoodDepthTruncation.mk 2 [NeighborhoodDroppedDepth.mk 3 1] 1),
      Some (NeighborhoodBudgetTruncation.mk 3 2 2), ["ghost"])).
Proof. vm_compute. reflexivity. Qed.

Lemma neighborhood_exact_witness :
  ∃ nb anchor, neighborhood nb_sort nb_records "a" 2 3 = Some (Some nb)
    ∧ live_by_id nb_records !! "a" = Some anchor
    ∧ neighborhood_of nb_records anchor 2 3 nb.
Proof.
  pose proof (neighborhood_exact nb_sort nb_records "a" 2 3 nb_sort_perm) as H.
  assert (is_Some (live_by_id nb_records !! "a")) as [x Hx] by (by vm_compute; eexists).
  rewrite Hx in H. destruct H as (nb & Hnb & Hof).
  exists nb, x. split; [exact Hnb|]. split; [exact Hx|exact Hof].
Defined.
