(* ===== verification/F32.v ===== *)
(** * [f32]

    The binary32 numbers of the source, as their 32-bit patterns. Arithmetic is IEEE 754
    round-to-nearest-even, by the specification floats of the Standard Library with 24 bits
    of precision; [total_cmp] is the comparison of the patterns as sign-magnitude integers,
    as the standard library of Rust defines it. A computed NaN is the quiet pattern: its
    payload is not specified and nothing here reads it. *)
From Stdlib Require Import SpecFloat.
From S2P Require Import Prelude.

Definition prec : Z := 24.
Definition emax : Z := 128.

(** A bit pattern below [2 ^ 32]. *)
Definition f32 : Set := Z.

Module F32.
Definition sign (b : f32) : bool := (2 ^ 31 <=? b)%Z.
Definition exponent (b : f32) : Z := (b / 2 ^ 23) mod 256.
Definition mantissa (b : f32) : Z := b mod 2 ^ 23.

Definition value (b : f32) : spec_float :=
  let s := sign b in
  let e := exponent b in
  if (e =? 255)%Z then
    if (mantissa b =? 0)%Z then S754_infinity s else S754_nan
  else
    match (if e =? 0 then mantissa b else 2 ^ 23 + mantissa b)%Z with
    | Zpos m => S754_finite s m (Z.max e 1 - 150)
    | _ => S754_zero s
    end.

Definition signed (s : bool) (magnitude : Z) : f32 := ((if s then 2 ^ 31 else 0) + magnitude)%Z.

Definition of_value (v : spec_float) : f32 :=
  match v with
  | S754_zero s => signed s 0
  | S754_infinity s => signed s (255 * 2 ^ 23)
  | S754_nan => (255 * 2 ^ 23 + 2 ^ 22)%Z
  | S754_finite s m e =>
      if (Zpos m <? 2 ^ 23)%Z then signed s (Zpos m)
      else signed s ((e + 150) * 2 ^ 23 + (Zpos m - 2 ^ 23))
  end.

Definition ZERO : f32 := 0%Z.
Definition ONE : f32 := (127 * 2 ^ 23)%Z.
Definition NEG_INFINITY : f32 := signed true (255 * 2 ^ 23).

Definition add (a b : f32) : f32 := of_value (SFadd prec emax (value a) (value b)).
Definition mul (a b : f32) : f32 := of_value (SFmul prec emax (value a) (value b)).
Definition div (a b : f32) : f32 := of_value (SFdiv prec emax (value a) (value b)).
Definition sqrt (a : f32) : f32 := of_value (SFsqrt prec emax (value a)).

(** [a <= b], false when one of them is NaN. *)
Definition le (a b : f32) : bool := SFleb (value a) (value b).

(** The key [left ^ (((left >> 31) as u32) >> 1)] of [total_cmp], on the pattern as an
    [i32]. *)
Definition total_key (b : f32) : Z :=
  if sign b then (Z.lxor (b - 2 ^ 31) (2 ^ 31 - 1) - 2 ^ 31)%Z else b.

Definition total_cmp : f32 → f32 → comparison := cmp_on total_key Z.compare.
End F32.

#[export] Instance total_cmp_order : CmpOrder F32.total_cmp.
Proof. unfold F32.total_cmp. apply _. Qed.

(** ** Comparison is transitive *)

(** Where a value that is not NaN stands: sign, exponent, mantissa. *)
Definition rank (v : spec_float) : option (Z * Z * Z) :=
  match v with
  | S754_nan => None
  | S754_infinity s => Some (if s then (-2, 0, 0) else (2, 0, 0))%Z
  | S754_zero _ => Some (0, 0, 0)%Z
  | S754_finite s m e => Some (if s then (-1, -e, Zneg m) else (1, e, Zpos m))%Z
  end.

Definition rank_cmp (a b : Z * Z * Z) : comparison :=
  cmp_then (cmp_on (λ r : Z * Z * Z, r.1.1) Z.compare)
    (cmp_then (cmp_on (λ r : Z * Z * Z, r.1.2) Z.compare)
       (cmp_on (λ r : Z * Z * Z, r.2) Z.compare)) a b.

#[local] Instance rank_cmp_order : CmpOrder rank_cmp.
Proof. apply (cmp_then_order (cmp_on (λ r : Z * Z * Z, r.1.1) Z.compare)); apply _. Qed.

Lemma SFcompare_rank v w :
  SFcompare v w = match rank v, rank w with
                  | Some a, Some b => Some (rank_cmp a b)
                  | _, _ => None
                  end.
Proof.
  destruct v as [s|s| |s m e], w as [s'|s'| |s' m' e']; try done; try by destruct s, s'.
  destruct s, s'; try done; unfold rank_cmp, cmp_then, cmp_on; cbn [rank fst snd SFcompare].
  - rewrite Z.compare_refl, Z.compare_opp. cbn [then_cmp]. f_equal.
    rewrite (Z.compare_antisym e' e). destruct (e' ?= e)%Z; done.
  - rewrite Z.compare_refl. cbn [then_cmp]. f_equal. by destruct (e ?= e')%Z.
Qed.

Lemma le_rank a b :
  F32.le a b = true ↔ ∃ x y, rank (F32.value a) = Some x ∧ rank (F32.value b) = Some y
    ∧ cmp_le rank_cmp x y.
Proof.
  unfold F32.le, SFleb. rewrite SFcompare_rank. unfold cmp_le.
  destruct (rank (F32.value a)) as [x|], (rank (F32.value b)) as [y|]; try naive_solver.
  destruct (rank_cmp x y) eqn:E; split; try done; try (intros _; exists x, y; by rewrite E).
  intros (? & ? & [= <-] & [= <-] & H). by rewrite E in H.
Qed.

Lemma le_trans a b c : F32.le a b = true → F32.le b c = true → F32.le a c = true.
Proof.
  rewrite !le_rank. intros (x & y & Hx & Hy & Hxy) (y' & z & Hy' & Hz & Hyz).
  assert (y' = y) as -> by congruence. exists x, z. split_and!; [done..|]. by etrans.
Qed.

(** ** The patterns of the values *)

Lemma fields_signed s x :
  (0 ≤ x < 2 ^ 31)%Z →
  F32.sign (F32.signed s x) = s ∧ F32.exponent (F32.signed s x) = (x / 2 ^ 23)%Z
  ∧ F32.mantissa (F32.signed s x) = (x mod 2 ^ 23)%Z.
Proof.
  intros Hx. unfold F32.sign, F32.exponent, F32.mantissa, F32.signed.
  assert (0 ≤ x / 2 ^ 23 < 256)%Z as Hq.
  { split; [apply Z.div_pos; lia|apply Z.div_lt_upper_bound; lia]. }
  assert ((2 ^ 31 + x) / 2 ^ 23 = 256 + x / 2 ^ 23)%Z as Hd.
  { replace (2 ^ 31 + x)%Z with (x + 256 * 2 ^ 23)%Z by lia. rewrite Z.div_add by lia. lia. }
  assert ((2 ^ 31 + x) mod 2 ^ 23 = x mod 2 ^ 23)%Z as Hm.
  { replace (2 ^ 31 + x)%Z with (x + 256 * 2 ^ 23)%Z by lia. by rewrite Z.mod_add by lia. }
  destruct s; split_and!.
  - apply Z.leb_le. lia.
  - rewrite Hd, Zplus_mod, Z.mod_same, Z.add_0_l, Zmod_mod by lia. by apply Z.mod_small.
  - done.
  - apply Z.leb_gt. lia.
  - rewrite Z.add_0_l. by apply Z.mod_small.
  - by rewrite Z.add_0_l.
Qed.

Lemma digits2_bounds m : (2 ^ (Zpos (digits2_pos m) - 1) ≤ Zpos m < 2 ^ Zpos (digits2_pos m))%Z.
Proof.
  assert (digits2_pos m = Pos.size m) as -> by (induction m; cbn; congruence).
  pose proof (Pos2Z.pos_lt_pos _ _ (Pos.size_gt m)) as Hgt.
  pose proof (Pos2Z.pos_le_pos _ _ (Pos.size_le m)) as Hle.
  rewrite Pos2Z.inj_pow in Hgt, Hle. change (Zpos (xO m)) with (2 * Zpos m)%Z in Hle.
  split; [|done]. set (k := Zpos (Pos.size m)) in *.
  assert (2 ^ k = 2 * 2 ^ (k - 1))%Z as Hk; [|lia].
  rewrite <-Z.pow_succ_r by (unfold k; lia). f_equal. lia.
Qed.

(** Encoding keeps every number of the format. *)
Lemma value_of_value v : valid_binary prec emax v = true → F32.value (F32.of_value v) = v.
Proof.
  destruct v as [s|s| |s m e]; cbn [valid_binary F32.of_value]; intros Hv.
  - by destruct s.
  - by destruct s.
  - done.
  - apply andb_true_iff in Hv as [Hc%Z.eqb_eq Hmax%Z.leb_le].
    unfold fexp, emin, prec, emax in *. pose proof (digits2_bounds m) as Hd.
    set (d := Zpos (digits2_pos m)) in *.
    assert (1 ≤ d)%Z as Hd1 by (unfold d; lia).
    assert (d ≤ 24)%Z as Hd24 by lia.
    pose proof (Z.pow_le_mono_r 2 d 24 ltac:(lia) Hd24) as Hp.
    unfold F32.value. destruct (Z.ltb_spec (Zpos m) (2 ^ 23)) as [Hsub|Hnorm].
    + assert (d < 24)%Z as Hlt.
      { destruct (Z.eq_dec d 24%Z) as [Heq|]; [|lia]. rewrite Heq in Hd. cbn in Hd, Hsub. lia. }
      assert (e = -149)%Z as -> by lia.
      destruct (fields_signed s (Zpos m)) as (-> & -> & ->); [lia|].
      rewrite Z.div_small, Z.mod_small by lia. done.
    + assert (d = 24)%Z as Heq.
      { destruct (Z.eq_dec d 24%Z) as [|Hne]; [done|].
        pose proof (Z.pow_le_mono_r 2 d 23 ltac:(lia) ltac:(lia)). lia. }
      set (x := ((e + 150) * 2 ^ 23 + (Zpos m - 2 ^ 23))%Z).
      assert (x / 2 ^ 23 = e + 150 ∧ x mod 2 ^ 23 = Zpos m - 2 ^ 23)%Z as [Hq Hr].
      { unfold x. rewrite Z.add_comm, Z.div_add, Z.mod_add, Z.div_small, Z.mod_small by lia. lia. }
      destruct (fields_signed s x) as (-> & -> & ->); [unfold x; lia|].
      rewrite Hq, Hr. destruct (Z.eqb_spec (e + 150)%Z 255%Z); [lia|].
      destruct (Z.eqb_spec (e + 150)%Z 0%Z); [lia|].
      replace (2 ^ 23 + (Zpos m - 2 ^ 23))%Z with (Zpos m) by lia.
      f_equal. lia.
Qed.

(** ** Some numbers *)
Definition HALF : f32 := (126 * 2 ^ 23)%Z.
Definition TWO : f32 := (128 * 2 ^ 23)%Z.

Example f32_arithmetic :
  F32.add F32.ONE F32.ONE = TWO ∧ F32.mul HALF TWO = F32.ONE ∧ F32.div F32.ONE TWO = HALF
  ∧ F32.sqrt (F32.mul TWO TWO) = TWO ∧ F32.le HALF F32.ONE = true.
Proof. vm_compute. done. Qed.

(** A quotient that is not exact is rounded: one third is [0x3eaaaaab]. *)
Example f32_third : F32.div F32.ONE (F32.add TWO F32.ONE) = 0x3eaaaaab%Z.
Proof. vm_compute. reflexivity. Qed.

(** Negative zero is below zero in the total order, though equal as a number. *)
Example f32_zeros :
  F32.total_cmp (F32.signed true 0) F32.ZERO = Lt ∧ F32.le F32.ZERO (F32.signed true 0) = true
  ∧ F32.total_cmp F32.NEG_INFINITY (F32.signed true 0) = Lt.
Proof. vm_compute. done. Qed.
