(* ===== verification/UnionFind.v ===== *)
(** * Union-find

    The [UnionFind] of [src/src/query/memory_collapse.rs]: path compression and union by
    the smaller root, and that it keeps the partition generated by the pairs it was given,
    every root being the least element of its part. *)
From S2P Require Import Prelude.

Module UnionFind.
(** [self.parent]. *)
(* query/memory_collapse.rs 318-320: UnionFind *)
Record t : Type := mk { parent : list nat }.

(* query/memory_collapse.rs 323-327: UnionFind::new *)
Definition new (size : nat) : t := mk (seq 0 size).

(** [None] is an index out of bounds, which panics, or fuel running out. *)
(* query/memory_collapse.rs 329-335: UnionFind::find *)
Fixpoint find (fuel : nat) (self : t) (index : nat) : option (nat * t) :=
  match fuel with
  | O => None
  | S fuel =>
      let?o p := self.(parent) !! index in
      let?o self :=
        if (p =? index)%nat then Some self
        else
          let?o r := find fuel self p in
          Some (mk (<[index := r.1]> (parent r.2))) in
      let?o root := self.(parent) !! index in
      Some (root, self)
  end.

(** A root is found in as many steps as the index has smaller ones. *)
(* query/memory_collapse.rs 337-346: UnionFind::union *)
Definition union (self : t) (first second : nat) : option t :=
  let?o a := find (S first) self first in
  let?o b := find (S second) (snd a) second in
  let '(root_first, root_second, self) := (a.1, b.1, b.2) in
  if (root_first =? root_second)%nat then Some self
  else
    let '(root_first, root_second) :=
      if (root_second <? root_first)%nat then (root_second, root_first)
      else (root_first, root_second) in
    Some (mk (<[root_second := root_first]> self.(parent))).
End UnionFind.

(** ** Roots *)

(** [leads parent i r]: the parent links lead from [i] to the root [r]. *)
Inductive leads (parent : list nat) : nat → nat → Prop :=
| leads_root i : parent !! i = Some i → leads parent i i
| leads_up i p r : parent !! i = Some p → p ≠ i → leads parent p r → leads parent i r.

(** Every link goes down. *)
Definition ordered (parent : list nat) : Prop := ∀ i p, parent !! i = Some p → p ≤ i.

Section Roots.
Context (parent : list nat) (Hord : ordered parent).

Lemma leads_fun i r s : leads parent i r → leads parent i s → r = s.
Proof.
  intros Hr. revert s. induction Hr as [i Hi|i p r Hi Hne _ IH]; intros s Hs;
    inversion Hs as [j Hj|j q t Hj Hnq Ht]; subst; try congruence.
  assert (q = p) as -> by congruence. by apply IH.
Qed.

Lemma leads_to_root i r : leads parent i r → parent !! r = Some r.
Proof. by induction 1. Qed.

Lemma leads_le i r : leads parent i r → r ≤ i.
Proof. induction 1 as [|i p r Hi _ _ IH]; [done|]. apply Hord in Hi. lia. Qed.

Lemma leads_total i : i < length parent → ∃ r, leads parent i r.
Proof.
  induction i as [i IH] using lt_wf_ind. intros Hi.
  destruct (lookup_lt_is_Some_2 _ _ Hi) as [p Hp]. pose proof (Hord _ _ Hp) as Hle.
  destruct (decide (p = i)) as [->|Hne]; [exists i; by constructor|].
  destruct (IH p) as [r Hr]; [lia..|]. exists r. by eapply leads_up.
Qed.

Lemma leads_length i r : leads parent i r → i < length parent.
Proof. by inversion 1 as [? H'|? ? ? H']; apply lookup_lt_Some in H'. Qed.

Lemma leads_unfold k s :
  leads parent k s ↔ parent !! k = Some k ∧ s = k
    ∨ ∃ p, parent !! k = Some p ∧ p ≠ k ∧ leads parent p s.
Proof.
  split.
  - inversion 1; naive_solver.
  - intros [[? ->]|(p & ? & ? & ?)]; [by constructor|by eapply leads_up].
Qed.
End Roots.

Lemma ordered_insert parent i r : ordered parent → r ≤ i → ordered (<[i := r]> parent).
Proof.
  intros Hord Hle j p [(-> & <- & _)|[_ Hp]]%list_lookup_insert_Some; [done|by apply Hord].
Qed.

(** Path compression keeps every root. *)
Lemma compress_keeps parent i r k s :
  ordered parent → leads parent i r → leads (<[i := r]> parent) k s ↔ leads parent k s.
Proof.
  intros Hord Hi. pose proof (leads_length _ _ _ Hi) as Hlen.
  pose proof (leads_to_root _ _ _ Hi) as Hr.
  destruct (decide (r = i)) as [->|Hne]; [by rewrite list_insert_id|].
  pose proof (leads_le _ Hord _ _ Hi) as Hle.
  revert s. induction k as [k IH] using lt_wf_ind. intros s.
  rewrite (leads_unfold (<[i := r]> parent)). destruct (decide (k = i)) as [->|Hk].
  - rewrite list_lookup_insert_eq by done. split.
    + intros [[? _]|(p & [= <-] & _ & Hs)]; [congruence|]. apply IH in Hs; [|lia].
      assert (s = r) as ->; [|done]. by eapply leads_fun; [|by apply leads_root].
    + intros Hs. right. exists r. split_and!; [done..|]. apply IH; [lia|].
      assert (s = r) as -> by by eapply leads_fun. by apply leads_root.
  - rewrite list_lookup_insert_ne by done. rewrite (leads_unfold parent).
    split; (intros [?|(p & Hp & Hpk & Hs)]; [by left|right; exists p; split_and!; [done..|]]);
      pose proof (Hord _ _ Hp); (apply IH; [lia|done]).
Qed.

(** Linking the root [b] below the root [a] gives the elements of [b] the root [a]. *)
Lemma link_leads parent a b k s :
  ordered parent → parent !! a = Some a → parent !! b = Some b → a < b →
  leads (<[b := a]> parent) k s ↔ leads parent k s ∧ s ≠ b ∨ leads parent k b ∧ s = a.
Proof.
  intros Hord Ha Hb Hab. pose proof (lookup_lt_Some _ _ _ Hb) as Hlen.
  revert s. induction k as [k IH] using lt_wf_ind. intros s.
  rewrite (leads_unfold (<[b := a]> parent)). destruct (decide (k = b)) as [->|Hk].
  - rewrite list_lookup_insert_eq by done.
    assert (∀ t, leads parent b t ↔ t = b) as Hlb.
    { intros t. split; [intros Ht; by eapply leads_fun; [|by apply leads_root]|intros ->; by apply leads_root]. }
    assert (leads (<[b := a]> parent) a s ↔ s = a) as Hla.
    { rewrite IH by done. assert (∀ t, leads parent a t ↔ t = a) as ->.
      { intros t. split; [intros Ht; by eapply leads_fun; [|by apply leads_root]|intros ->; by apply leads_root]. }
      split; [|intros ->; left; split; [done|lia]].
      intros [[? _]|[Hba ->]]; [done|]. done. }
    rewrite !Hlb. split.
    + intros [[[= ?] _]|(p & [= <-] & _ & Hs%Hla)]; [lia|]. by right.
    + intros [[-> ?]|[_ ->]]; [done|]. right. exists a. split_and!; [done|lia|by apply Hla].
  - rewrite list_lookup_insert_ne by done. rewrite !(leads_unfold parent k).
    split.
    + intros [[Hkk ->]|(p & Hp & Hpk & Hs)]; [left; split; [by left|done]|].
      pose proof (Hord _ _ Hp). apply IH in Hs; [|lia]. naive_solver.
    + assert (∀ p, parent !! k = Some p → p ≠ k → p < k) as Hlt by (intros p Hp ?; apply Hord in Hp; lia).
      intros [[[[Hkk ->]|(p & Hp & Hpk & Hs)] Hsb]|[[[Hkk ?]|(p & Hp & Hpk & Hs)] ->]]; [by left| |done|];
        right; exists p; (split_and!; [done..|]); (apply IH; [by apply Hlt|]); naive_solver.
Qed.

(** ** The operations *)

Record well_formed (n : nat) (self : UnionFind.t) : Prop := {
  wf_length : length self.(UnionFind.parent) = n;
  wf_ordered : ordered self.(UnionFind.parent)
}.

(** The roots are the same. *)
Definition same_roots (self self' : UnionFind.t) : Prop :=
  ∀ k s, leads self'.(UnionFind.parent) k s ↔ leads self.(UnionFind.parent) k s.

Lemma new_spec n :
  well_formed n (UnionFind.new n) ∧ ∀ k s, leads (UnionFind.new n).(UnionFind.parent) k s ↔ k < n ∧ s = k.
Proof.
  assert (∀ i p, seq 0 n !! i = Some p ↔ i < n ∧ p = i) as Hseq.
  { intros i p. rewrite lookup_seq. naive_solver lia. }
  split; [split|].
  - apply length_seq.
  - intros i p Hp. apply Hseq in Hp as [_ ->]. done.
  - intros k s. cbn. rewrite leads_unfold. setoid_rewrite Hseq. naive_solver.
Qed.

(** [find] ends within the fuel, answers the root and keeps every root. *)
Lemma find_spec fuel n self i :
  well_formed n self → i < n → i < fuel →
  ∃ r self', UnionFind.find fuel self i = Some (r, self')
    ∧ leads self.(UnionFind.parent) i r ∧ well_formed n self' ∧ same_roots self self'.
Proof.
  revert self i. induction fuel as [|fuel IH]; intros self i Hwf Hi Hf; [lia|].
  destruct Hwf as [Hlen Hord]. cbn [UnionFind.find].
  destruct (lookup_lt_is_Some_2 self.(UnionFind.parent) i) as [p Hp]; [lia|].
  rewrite Hp. cbn [mbind option_bind]. pose proof (Hord _ _ Hp) as Hle.
  destruct (Nat.eqb_spec p i) as [->|Hne].
  - cbn [mbind option_bind]. rewrite Hp. cbn [mbind option_bind].
    eexists _, self. split; [done|]. split_and!; [by constructor|done|by intros ? ?].
  - destruct (IH self p) as (r & self' & Hf' & Hl & [Hlen' Hord'] & Hsame); [done|lia..|].
    rewrite Hf'. cbn [mbind option_bind fst snd UnionFind.parent].
    assert (leads self.(UnionFind.parent) i r) as Hir by by eapply leads_up.
    assert (leads self'.(UnionFind.parent) i r) as Hir' by by apply Hsame.
    rewrite list_lookup_insert_eq by lia. cbn [mbind option_bind].
    eexists _, _. split; [done|]. split; [done|]. split.
    + split; cbn [UnionFind.parent]; [by rewrite length_insert|].
      apply ordered_insert; [done|]. by eapply leads_le.
    + intros k s. cbn [UnionFind.parent]. rewrite compress_keeps by done. apply Hsame.
Qed.

(** Two elements with one root. *)
Definition same_part (self : UnionFind.t) (x y : nat) : Prop :=
  ∃ r, leads self.(UnionFind.parent) x r ∧ leads self.(UnionFind.parent) y r.

Lemma same_part_sym self x y : same_part self x y → same_part self y x.
Proof. unfold same_part. naive_solver. Qed.

Lemma same_part_trans self x y z : same_part self x y → same_part self y z → same_part self x z.
Proof.
  intros (r & Hx & Hy) (s & Hy' & Hz). assert (r = s) as -> by by eapply leads_fun. by exists s.
Qed.

(** Linking two roots joins their parts and no other. *)
Lemma uf_union_spec n self i j :
  well_formed n self → i < n → j < n →
  ∃ self', UnionFind.union self i j = Some self' ∧ well_formed n self'
    ∧ ∀ x y, same_part self' x y ↔ same_part self x y
        ∨ same_part self x i ∧ same_part self j y ∨ same_part self x j ∧ same_part self i y.
Proof.
  intros Hwf Hi Hj. unfold UnionFind.union.
  destruct (find_spec (S i) n self i Hwf Hi ltac:(lia)) as (a & self1 & Ha & Hla & Hwf1 & Hs1).
  rewrite Ha. cbn [mbind option_bind fst snd].
  destruct (find_spec (S j) n self1 j Hwf1 Hj ltac:(lia)) as (b & self2 & Hb & Hlb & Hwf2 & Hs2).
  rewrite Hb. cbn [mbind option_bind fst snd].
  apply Hs1 in Hlb.
  assert (∀ k s, leads self2.(UnionFind.parent) k s ↔ leads self.(UnionFind.parent) k s) as Hsame.
  { intros k s. by rewrite (Hs2 k s), (Hs1 k s). }
  assert (∀ k, leads self.(UnionFind.parent) k a ↔ same_part self k i) as Hka.
  { intros k. split; [intros ?; by exists a|]. intros (r & Hk & Hr).
    assert (r = a) as -> by by eapply leads_fun. done. }
  assert (∀ k, leads self.(UnionFind.parent) k b ↔ same_part self k j) as Hkb.
  { intros k. split; [intros ?; by exists b|]. intros (r & Hk & Hr).
    assert (r = b) as -> by by eapply leads_fun. done. }
  destruct (Nat.eqb_spec a b) as [->|Hne].
  { exists self2. split; [done|]. split; [done|]. intros x y.
    assert (same_part self2 x y ↔ same_part self x y) as ->.
    { unfold same_part. by setoid_rewrite Hsame. }
    assert (same_part self i j) as Hij by by exists b.
    split; [by left|]. intros [?|[[? ?]|[? ?]]]; [done| |];
      eauto using same_part_trans, same_part_sym. }
  (* The result of linking the larger root [hi] below the smaller [lo]. *)
  assert (∀ lo hi, lo < hi → leads self.(UnionFind.parent) lo lo → leads self.(UnionFind.parent) hi hi →
    let self' := UnionFind.mk (<[hi := lo]> self2.(UnionFind.parent)) in
    well_formed n self' ∧ ∀ x y, same_part self' x y ↔ same_part self x y
      ∨ leads self.(UnionFind.parent) x lo ∧ leads self.(UnionFind.parent) y hi
      ∨ leads self.(UnionFind.parent) x hi ∧ leads self.(UnionFind.parent) y lo) as Hlink.
  { intros lo hi Hlt Hlo Hhi. destruct Hwf2 as [Hlen2 Hord2]. split.
    - split; cbn; [by rewrite length_insert|]. apply ordered_insert; [done|lia].
    - intros x y. unfold same_part. cbn [UnionFind.parent].
      assert (∀ k s, leads (<[hi := lo]> self2.(UnionFind.parent)) k s ↔
        leads self.(UnionFind.parent) k s ∧ s ≠ hi ∨ leads self.(UnionFind.parent) k hi ∧ s = lo) as Hl.
      { intros k s. rewrite link_leads, !Hsame; [done|done|..|done]; by eapply leads_to_root, Hsame. }
      setoid_rewrite Hl. split.
      + intros (r & [[Hx Hr]|[Hx ->]] & [[Hy Hr']|[Hy Heq]]); [left; by exists r| | |left; by exists hi].
        * subst r. right; left; done.
        * right; right; done.
      + intros [(r & Hx & Hy)|[[Hx Hy]|[Hx Hy]]].
        * destruct (decide (r = hi)) as [->|Hr]; [exists lo; split; by right|exists r; split; by left].
        * exists lo. split; [left; split; [done|lia]|by right].
        * exists lo. split; [by right|left; split; [done|lia]]. }
  assert (leads self.(UnionFind.parent) a a ∧ leads self.(UnionFind.parent) b b) as [Haa Hbb].
  { split; apply leads_root; by eapply leads_to_root. }
  assert (∀ y, same_part self y j ↔ same_part self j y) as Hj' by (split; apply same_part_sym).
  assert (∀ y, same_part self y i ↔ same_part self i y) as Hi' by (split; apply same_part_sym).
  destruct (Nat.ltb_spec b a) as [Hlt|Hge]; cbv beta iota.
  - destruct (Hlink b a Hlt Hbb Haa) as [Hw Hp]. eexists. split; [done|]. split; [done|].
    intros x y. rewrite Hp, !Hka, !Hkb, (Hi' y), (Hj' y). naive_solver.
  - destruct (Hlink a b ltac:(lia) Haa Hbb) as [Hw Hp]. eexists. split; [done|]. split; [done|].
    intros x y. rewrite Hp, !Hka, !Hkb, (Hi' y), (Hj' y). naive_solver.
Qed.

(** ** The partition of a list of pairs *)

(** [union] called on every pair. *)
Definition union_pairs (self : UnionFind.t) (pairs : list (nat * nat)) : option UnionFind.t :=
  foldl (λ acc pair, let?o self := acc in UnionFind.union self pair.1 pair.2) (Some self) pairs.

(** The equivalence closure of a relation. *)
Definition connected (R : relation nat) : relation nat := rtsc R.

Lemma connected_mono (R R' : relation nat) x y :
  (∀ c d, R c d → R' c d) → connected R x y → connected R' x y.
Proof.
  intros HR H. unfold connected in *. induction H as [|u v w [Hs|Hs] _ IH]; [constructor| |];
    (eapply rtc_l; [|exact IH]); [left|right]; by apply HR.
Qed.

Lemma connected_ext (R R' : relation nat) x y :
  (∀ c d, R c d ↔ R' c d) → connected R x y ↔ connected R' x y.
Proof. intros HR. split; apply connected_mono; naive_solver. Qed.

Lemma connected_add (R : relation nat) a b x y :
  connected (λ u v, R u v ∨ u = a ∧ v = b) x y ↔
  connected R x y ∨ connected R x a ∧ connected R b y ∨ connected R x b ∧ connected R a y.
Proof.
  assert (∀ x y, connected R x y → connected (λ u v, R u v ∨ u = a ∧ v = b) x y) as Hmono.
  { intros u v. apply connected_mono. by left. }
  unfold connected in *.
  assert (rtsc (λ u v, R u v ∨ u = a ∧ v = b) a b) as Hab by (apply rtc_once; left; by right).
  assert (rtsc (λ u v, R u v ∨ u = a ∧ v = b) b a) as Hba by (apply rtc_once; right; by right).
  split.
  - induction 1 as [u|u v w Hs _ IH]; [left; done|].
    assert (rtsc R u v ∨ u = a ∧ v = b ∨ u = b ∧ v = a) as Huv.
    { destruct Hs as [[Hr|[-> ->]]|[Hr|[-> ->]]]; [left; apply rtc_once; by left|by right; left| |by right; right].
      left. apply rtc_once. by right. }
    assert (∀ z, rtsc R z z) as Hz by (intros z; constructor).
    destruct Huv as [Huv|[[-> ->]|[-> ->]]]; destruct IH as [IH|[[H1 H2]|[H1 H2]]].
    + left. by etrans.
    + right; left. split; [by etrans|done].
    + right; right. split; [by etrans|done].
    + right; left. done.
    + right; left. done.
    + by left.
    + right; right. done.
    + by left.
    + right; right. done.
  - intros [H|[[H1 H2]|[H1 H2]]]; [by apply Hmono| |]; apply Hmono in H1, H2.
    + etrans; [exact H1|]. by etrans.
    + etrans; [exact H1|]. by etrans.
Qed.

(** [union] on every pair of a list ends, and the parts are then those of the equivalence the
    pairs generate. *)
Lemma union_pairs_spec n pairs :
  (∀ i j, (i, j) ∈ pairs → i < n ∧ j < n) →
  ∃ self, union_pairs (UnionFind.new n) pairs = Some self ∧ well_formed n self
    ∧ ∀ x y, x < n → y < n → same_part self x y ↔ connected (λ a b, (a, b) ∈ pairs) x y.
Proof.
  unfold union_pairs. induction pairs as [|[a b] pairs IH] using rev_ind; intros Hin.
  - exists (UnionFind.new n). destruct (new_spec n) as [Hwf Hl]. split; [done|]. split; [done|].
    intros x y Hx Hy. unfold same_part. setoid_rewrite Hl. split.
    + intros (r & [_ ->] & _ & ->). unfold connected. constructor.
    + intros H. assert (x = y) as ->; [|by exists y].
      unfold connected in H. inversion H as [|? z ? [Hs|Hs] _]; [done|by apply elem_of_nil in Hs..].
  - destruct IH as (self & Hs & Hwf & Hp); [by intros i j ?; apply Hin, elem_of_app; left|].
    destruct (Hin a b) as [Ha Hb]; [set_solver|]. rewrite foldl_app, Hs. cbn [foldl mbind option_bind fst snd].
    destruct (uf_union_spec n self a b Hwf Ha Hb) as (self' & Hu & Hwf' & Hp').
    exists self'. split; [done|]. split; [done|]. intros x y Hx Hy. rewrite Hp'.
    assert (∀ u v, connected (λ c d, (c, d) ∈ pairs ++ [(a, b)]) u v ↔
      connected (λ c d, (c, d) ∈ pairs ∨ c = a ∧ d = b) u v) as ->.
    { intros u v. apply connected_ext. intros c d.
      rewrite elem_of_app, list_elem_of_singleton. naive_solver. }
    rewrite connected_add, !Hp by done. done.
Qed.

(** The root of an element is the least element of its part. *)
Lemma root_least n self x r :
  well_formed n self → leads self.(UnionFind.parent) x r →
  same_part self x r ∧ ∀ y, same_part self x y → r ≤ y.
Proof.
  intros [Hlen Hord] Hx. split.
  - exists r. split; [done|]. apply leads_root. by eapply leads_to_root.
  - intros y (s & Hs & Hy). pose proof (leads_fun _ _ _ _ Hs Hx) as ->. exact (leads_le _ Hord _ _ Hy).
Qed.
