(* ===== verification/MemoryCollapse.v ===== *)
(** * Collapse of near-duplicate memories

    [src/src/query/memory_collapse.rs]: recall candidates grouped by the target they cite,
    joined when they are similar enough, and shown as one representative per cluster. The
    lowercasing of Unicode text and the zoned instants of the external time library are
    parameters; the arithmetic of the similarities is that of [F32.v].

    The comparison the members are ranked by is not an order when a stamp does not parse, and
    [slice::sort_by] then guarantees no order and may panic. So the sort of a slice is a
    parameter too, under the contract [StableSort] that its documentation states: a stable sort
    of the slices the comparison orders totally, and otherwise a permutation or a panic. *)
From S2P Require Import Prelude RustStr Ir Selection TransactionTime Trust Retirement F32 UnionFind.

(** ** Data *)

(* query/memory_collapse.rs 52-52: DEFAULT_COLLAPSE_SIMILARITY_THRESHOLD *)
Definition DEFAULT_COLLAPSE_SIMILARITY_THRESHOLD : f32 := 0x3f59999a%Z.

Module CollapseMode.
(* query/memory_collapse.rs 66-76: CollapseMode *)
Inductive t : Type := EmbeddingCosine | NormalizedText.
End CollapseMode.

Module PrimaryCitedTarget.
(* query/memory_collapse.rs 91-98: PrimaryCitedTarget *)
Record t : Type := mk {
  target_record_id : string;
  relation : string;
  as_of_commit : option string
}.
End PrimaryCitedTarget.

Module CollapseCandidate.
(* query/memory_collapse.rs 105-141: CollapseCandidate *)
Record t : Type := mk {
  record_id : string;
  kind : string;
  trust_class : TrustClass.t;
  agent_authored : bool;
  primary_target : option PrimaryCitedTarget.t;
  body_text : string;
  confidence_raw : option string;
  confidence : option f32;
  observed_at : option string;
  vector : option (list f32);
  retrieval_score : option f32;
  source_handle : option string;
  agent_id : option string;
  agent_kind : option string;
  session_id : option string;
  evidence_links : option (list EvidenceLink.t)
}.
End CollapseCandidate.

Module CollapseConfig.
(* query/memory_collapse.rs 145-151: CollapseConfig *)
Record t : Type := mk { mode : CollapseMode.t; similarity_threshold : f32 }.
End CollapseConfig.

Module CollapsedCluster.
(* query/memory_collapse.rs 158-169: CollapsedCluster *)
Record t : Type := mk {
  representative : CollapseCandidate.t;
  members : list CollapseCandidate.t;
  observed_at_min : option string;
  observed_at_max : option string;
  trust_spread : gmap string nat
}.
End CollapsedCluster.

Module CollapseOutcome.
(* query/memory_collapse.rs 173-184: CollapseOutcome *)
Record t : Type := mk {
  mode : CollapseMode.t;
  threshold : f32;
  source_candidate_count : nat;
  clusters : list CollapsedCluster.t
}.
End CollapseOutcome.

Module PrimaryCitedTargetView.
(* query/memory_collapse.rs 188-196: PrimaryCitedTargetView *)
Record t : Type := mk {
  record_id : string;
  relation : string;
  as_of_commit : option string
}.

(* query/memory_collapse.rs 198-206: PrimaryCitedTargetView::from *)
Definition from (target : PrimaryCitedTarget.t) : t :=
  mk target.(PrimaryCitedTarget.target_record_id) target.(PrimaryCitedTarget.relation)
    target.(PrimaryCitedTarget.as_of_commit).
End PrimaryCitedTargetView.

Module CollapsedMemoryRow.
(* query/memory_collapse.rs 214-274: CollapsedMemoryRow *)
Record t : Type := mk {
  record_id : string;
  kind : string;
  trust_class : string;
  representative_trust_class : string;
  retrieval_score : option f32;
  source_handle : option string;
  agent_id : option string;
  agent_kind : option string;
  session_id : option string;
  confidence : option string;
  observed_at : option string;
  memory_text : string;
  cluster_size : nat;
  member_ids : list string;
  cluster_observed_at_min : option string;
  cluster_observed_at_max : option string;
  trust_spread : gmap string nat;
  primary_cited_target : option PrimaryCitedTargetView.t;
  evidence_links : option (list EvidenceLink.t);
  retirement_state : option Retirement.Label.t
}.
End CollapsedMemoryRow.

(* query/memory_collapse.rs 60-60: THRESHOLD_MONOTONICITY_DOC *)
Definition THRESHOLD_MONOTONICITY_DOC : string :=
  "raising the threshold monotonically refines the partition (clusters only split, never merge); lowering it monotonically coarsens it (clusters only merge, never split)".

Module CollapseEnvelopeDetail.
(* query/memory_collapse.rs 293-311: CollapseEnvelopeDetail *)
Record t : Type := mk {
  enabled : bool;
  mode : CollapseMode.t;
  mode_requested : string;
  similarity_threshold : f32;
  threshold_monotonicity : string;
  source_records : nat;
  representatives : nat;
  collapsed_away : nat
}.
End CollapseEnvelopeDetail.

Module CollapseEnvelope.
(* query/memory_collapse.rs 282-289: CollapseEnvelope *)
Record t : Type := mk { ok : bool; query : string; collapse : CollapseEnvelopeDetail.t }.
End CollapseEnvelope.

(** ** Similarity *)

(** The length of the encoded white-space character [s] starts with. *)
Definition white_space_len (s : string) : option nat :=
  (λ rest, (String.length s - String.length rest)%nat) <$> strip_any white_space s.

(** [str::split_whitespace]: [skip] bytes of a white-space character are still to be passed,
    [word] is what has been read of the current word. *)
Fixpoint split_whitespace_from (skip : nat) (word : string) (s : string) : list string :=
  let flush := if word =s? "" then [] else [word] in
  match s with
  | EmptyString => flush
  | String c rest =>
      match skip with
      | S skip => split_whitespace_from skip word rest
      | O =>
          match white_space_len s with
          | Some (S skip) => flush ++ split_whitespace_from skip "" rest
          | _ => split_whitespace_from 0 (word +:+ String c "") rest
          end
      end
  end.
Definition split_whitespace (s : string) : list string := split_whitespace_from 0 "" s.

(** One component added to the three sums. *)
(* query/memory_collapse.rs 375-379: cosine_similarity *)
Definition cosine_step (acc : f32 * f32 * f32) (xy : f32 * f32) : f32 * f32 * f32 :=
  let '(dot, first_norm, second_norm) := acc in
  let '(x, y) := xy in
  (F32.add dot (F32.mul x y), F32.add first_norm (F32.mul x x), F32.add second_norm (F32.mul y y)).

(* query/memory_collapse.rs 368-384: cosine_similarity *)
Definition cosine_similarity (first second : list f32) : option f32 :=
  if negb (length first =? length second)%nat || bool_decide (first = []) then None
  else
    let '(dot, first_norm, second_norm) :=
      foldl cosine_step (F32.ZERO, F32.ZERO, F32.ZERO) (zip first second) in
    if F32.le first_norm F32.ZERO || F32.le second_norm F32.ZERO then None
    else Some (F32.div dot (F32.mul (F32.sqrt first_norm) (F32.sqrt second_norm))).

(** ** The sort of a slice *)

(** [slice::sort_by]; [None] is a panic. *)
Definition SliceSort : Type := ∀ A : Type, (A → A → comparison) → list A → option (list A).

(** The comparison orders the elements of the slice totally. *)
Record total_on {A} (cmp : A → A → comparison) (l : list A) : Prop := {
  total_opp a b : a ∈ l → b ∈ l → cmp b a = CompOpp (cmp a b);
  total_trans a b c : a ∈ l → b ∈ l → c ∈ l →
    cmp a b ≠ Gt → cmp b c ≠ Gt → cmp a c ≠ Gt
}.

(** What the documentation of the sort promises: it may panic, or leave the elements in any
    order, when the comparison is not total on them, and is the stable sort otherwise. *)
Class StableSort (slice_sort_by : SliceSort) : Prop := {
  sort_total {A} (cmp : A → A → comparison) l :
    total_on cmp l → slice_sort_by A cmp l = Some (sort_by cmp l);
  sort_keeps {A} (cmp : A → A → comparison) l k : slice_sort_by A cmp l = Some k → k ≡ₚ l
}.

(** A sort that does its best on every slice, and one that panics unless the comparison is
    total on the slice. *)
Definition lenient_sort : SliceSort := λ A cmp l, Some (sort_by cmp l).

Definition opp_eqb (a b : comparison) : bool := bool_decide (b = CompOpp a).
Definition total_onb {A} (cmp : A → A → comparison) (l : list A) : bool :=
  let le a b := negb (bool_decide (cmp a b = Gt)) in
  forallb (λ a, forallb (λ b, opp_eqb (cmp a b) (cmp b a)
    && forallb (λ c, implb (le a b && le b c) (le a c)) l) l) l.

Definition strict_sort : SliceSort :=
  λ A cmp l, if total_onb cmp l then Some (sort_by cmp l) else None.

Section Collapse.
(** [str::to_lowercase] by the Unicode tables, and the instants of the time library. *)
Context {DateTime : Type} (instant : DateTime → Z).
Context (parse_from_rfc3339 : string → result DateTime string).
Context (to_lowercase : string → string).
Context (slice_sort_by : SliceSort).

(* query/memory_collapse.rs 355-360: normalize_memory_text *)
Definition normalize_memory_text (text : string) : string :=
  join " " (split_whitespace (to_lowercase text)).

(** The earlier instant, or the smaller text when a stamp does not parse. *)
(* query/memory_collapse.rs 405-411: representative_order *)
Definition stamp_cmp (a b : string) : comparison :=
  match parse_from_rfc3339 a, parse_from_rfc3339 b with
  | Ok a, Ok b => Z.compare (instant a) (instant b)
  | _, _ => String.compare a b
  end.

(* query/memory_collapse.rs 392-417: representative_order *)
Definition representative_order (first second : CollapseCandidate.t) : comparison :=
  let first_confidence := default F32.NEG_INFINITY first.(CollapseCandidate.confidence) in
  let second_confidence := default F32.NEG_INFINITY second.(CollapseCandidate.confidence) in
  then_cmp (F32.total_cmp second_confidence first_confidence)
    (then_cmp
       match first.(CollapseCandidate.observed_at), second.(CollapseCandidate.observed_at) with
       | Some a, Some b => stamp_cmp a b
       | Some _, None => Lt
       | None, Some _ => Gt
       | None, None => Eq
       end
       (String.compare first.(CollapseCandidate.record_id)
          second.(CollapseCandidate.record_id))).

(* query/memory_collapse.rs 421-438: above_threshold *)
Definition above_threshold (first second : CollapseCandidate.t) (config : CollapseConfig.t) : bool :=
  match config.(CollapseConfig.mode) with
  | CollapseMode.EmbeddingCosine =>
      match first.(CollapseCandidate.vector), second.(CollapseCandidate.vector) with
      | Some first_vector, Some second_vector =>
          match cosine_similarity first_vector second_vector with
          | Some similarity => F32.le config.(CollapseConfig.similarity_threshold) similarity
          | None => false
          end
      | _, _ => false
      end
  | CollapseMode.NormalizedText =>
      normalize_memory_text first.(CollapseCandidate.body_text)
        =s? normalize_memory_text second.(CollapseCandidate.body_text)
  end.

(** ** Clustering *)

(* query/memory_collapse.rs 465-467: collapse_memory_recall *)
Definition group_key (candidate : CollapseCandidate.t) : option (string * option string) :=
  (λ target, (target.(PrimaryCitedTarget.target_record_id),
              target.(PrimaryCitedTarget.as_of_commit)))
    <$> candidate.(CollapseCandidate.primary_target).

(** The groups of a [BTreeMap], in the order of their keys. *)
Definition group_cmp (a b : (string * option string) * list nat) : comparison :=
  cmp_then (cmp_on (λ g : (string * option string) * list nat, g.1.1) String.compare)
    (cmp_on (λ g : (string * option string) * list nat, g.1.2) opt_cmp) a b.

(* query/memory_collapse.rs 463-471: collapse_memory_recall *)
Definition target_groups (candidates : list CollapseCandidate.t) : list (list nat) :=
  let groups := foldl (λ (m : gmap (string * option string) (list nat)) '(index, candidate),
    match group_key candidate with
    | Some key => <[key := default [] (m !! key) ++ [index]]> m
    | None => m
    end) ∅ (imap pair candidates) in
  snd <$> sort_by group_cmp (map_to_list groups).

(** Every member with every later one. *)
(* query/memory_collapse.rs 473-474: collapse_memory_recall *)
Fixpoint later_pairs (members : list nat) : list (nat * nat) :=
  match members with
  | [] => []
  | first :: rest => (pair first <$> rest) ++ later_pairs rest
  end.

(* query/memory_collapse.rs 475-478: collapse_memory_recall *)
Definition linked_pair (candidates : list CollapseCandidate.t) (config : CollapseConfig.t)
    (p : nat * nat) : bool :=
  match candidates !! p.1, candidates !! p.2 with
  | Some first, Some second =>
      first.(CollapseCandidate.agent_authored) && second.(CollapseCandidate.agent_authored)
      && (first.(CollapseCandidate.kind) =s? second.(CollapseCandidate.kind))
      && above_threshold first second config
  | _, _ => false
  end.

(* query/memory_collapse.rs 472-484: collapse_memory_recall *)
Definition linked_pairs (candidates : list CollapseCandidate.t) (config : CollapseConfig.t)
    : list (nat * nat) :=
  filter (λ p, linked_pair candidates config p = true)
    (target_groups candidates ≫= later_pairs).

(* query/memory_collapse.rs 488-491: collapse_memory_recall *)
Definition component_step (acc : option (UnionFind.t * gmap nat (list nat))) (index : nat)
    : option (UnionFind.t * gmap nat (list nat)) :=
  let?o s := acc in
  let?o r := UnionFind.find (S index) s.1 index in
  Some (snd r, <[fst r := default [] (s.2 !! fst r) ++ [index]]> s.2).

(** The values of the map, in the order of the roots. *)
(* query/memory_collapse.rs 487-493: collapse_memory_recall *)
Definition components (union : UnionFind.t) (size : nat) : option (list (list nat)) :=
  let?o s := foldl component_step (Some (union, ∅)) (seq 0 size) in
  Some (snd <$> sort_by (cmp_on fst Nat.compare) (map_to_list (snd s))).

(* query/memory_collapse.rs 517-522: collapse_memory_recall *)
Definition count_trust (members : list CollapseCandidate.t) : gmap string nat :=
  foldl (λ m member,
    let class := TrustClass.as_str member.(CollapseCandidate.trust_class) in
    <[class := S (default 0 (m !! class))]> m) ∅ members.

(** The order of two positions is that of their candidates; the positions of a component are in
    bounds, so the last case does not arise. *)
(* query/memory_collapse.rs 495-497: collapse_memory_recall *)
Definition position_order (candidates : list CollapseCandidate.t) (first second : nat) : comparison :=
  match candidates !! first, candidates !! second with
  | Some first, Some second => representative_order first second
  | _, _ => Eq
  end.

(** [None] is a panic of one of the sorts, or an index out of bounds: of the candidates, or of
    [members[0]]. *)
(* query/memory_collapse.rs 494-530: collapse_memory_recall *)
Definition cluster_of (candidates : list CollapseCandidate.t) (positions : list nat)
    : option CollapsedCluster.t :=
  let?o positions := slice_sort_by _ (position_order candidates) positions in
  let?o members := mapM (λ index, candidates !! index) positions in
  let?o observed := slice_sort_by _ stamp_cmp (omap CollapseCandidate.observed_at members) in
  let?o representative := head members in
  Some (CollapsedCluster.mk representative members (head observed) (last observed)
          (count_trust members)).

(* query/memory_collapse.rs 532-547: collapse_memory_recall *)
Definition cluster_cmp (first second : CollapsedCluster.t) : comparison :=
  let score (c : CollapsedCluster.t) := default F32.NEG_INFINITY
    c.(CollapsedCluster.representative).(CollapseCandidate.retrieval_score) in
  let id (c : CollapsedCluster.t) :=
    c.(CollapsedCluster.representative).(CollapseCandidate.record_id) in
  then_cmp (F32.total_cmp (score second) (score first)) (String.compare (id first) (id second)).

(** [None] is a panic, one of a sort included, or fuel running out. *)
(* query/memory_collapse.rs 453-554: collapse_memory_recall *)
Definition collapse_memory_recall (candidates : list CollapseCandidate.t)
    (config : CollapseConfig.t) : option CollapseOutcome.t :=
  let?o union :=
    union_pairs (UnionFind.new (length candidates)) (linked_pairs candidates config) in
  let?o parts := components union (length candidates) in
  let?o clusters := mapM (cluster_of candidates) parts in
  let?o clusters := slice_sort_by _ cluster_cmp clusters in
  Some (CollapseOutcome.mk config.(CollapseConfig.mode)
          config.(CollapseConfig.similarity_threshold) (length candidates)
          clusters).
End Collapse.

(* query/memory_collapse.rs 561-591: render_collapsed_rows *)
Definition render_row (cluster : CollapsedCluster.t) : CollapsedMemoryRow.t :=
  let representative := cluster.(CollapsedCluster.representative) in
  {| CollapsedMemoryRow.record_id := representative.(CollapseCandidate.record_id);
     CollapsedMemoryRow.kind := representative.(CollapseCandidate.kind);
     CollapsedMemoryRow.trust_class := "agent_authored";
     CollapsedMemoryRow.representative_trust_class :=
       TrustClass.as_str representative.(CollapseCandidate.trust_class);
     CollapsedMemoryRow.retrieval_score := representative.(CollapseCandidate.retrieval_score);
     CollapsedMemoryRow.source_handle := representative.(CollapseCandidate.source_handle);
     CollapsedMemoryRow.agent_id := representative.(CollapseCandidate.agent_id);
     CollapsedMemoryRow.agent_kind := representative.(CollapseCandidate.agent_kind);
     CollapsedMemoryRow.session_id := representative.(CollapseCandidate.session_id);
     CollapsedMemoryRow.confidence := representative.(CollapseCandidate.confidence_raw);
     CollapsedMemoryRow.observed_at := representative.(CollapseCandidate.observed_at);
     CollapsedMemoryRow.memory_text := representative.(CollapseCandidate.body_text);
     CollapsedMemoryRow.cluster_size := length cluster.(CollapsedCluster.members);
     CollapsedMemoryRow.member_ids :=
       CollapseCandidate.record_id <$> cluster.(CollapsedCluster.members);
     CollapsedMemoryRow.cluster_observed_at_min := cluster.(CollapsedCluster.observed_at_min);
     CollapsedMemoryRow.cluster_observed_at_max := cluster.(CollapsedCluster.observed_at_max);
     CollapsedMemoryRow.trust_spread := cluster.(CollapsedCluster.trust_spread);
     CollapsedMemoryRow.primary_cited_target :=
       PrimaryCitedTargetView.from <$> representative.(CollapseCandidate.primary_target);
     CollapsedMemoryRow.evidence_links := representative.(CollapseCandidate.evidence_links);
     CollapsedMemoryRow.retirement_state := None |}.

(* query/memory_collapse.rs 558-594: render_collapsed_rows *)
Definition render_collapsed_rows (clusters : list CollapsedCluster.t) : list CollapsedMemoryRow.t :=
  render_row <$> clusters.

(* query/memory_collapse.rs 598-620: collapse_envelope *)
Definition collapse_envelope (query : string) (mode : CollapseMode.t) (mode_requested : string)
    (similarity_threshold : f32) (source_records representatives : nat) : CollapseEnvelope.t :=
  CollapseEnvelope.mk true query
    (CollapseEnvelopeDetail.mk true mode mode_requested similarity_threshold
       THRESHOLD_MONOTONICITY_DOC source_records representatives
       (source_records - representatives)).

(** ** The specification *)
Section Spec.
Context {DateTime : Type} (instant : DateTime → Z).
Context (parse_from_rfc3339 : string → result DateTime string).
Context (to_lowercase : string → string).
Context (candidates : list CollapseCandidate.t).

Abbreviation above_threshold := (above_threshold to_lowercase).

(** The edges of the clustering: two agent-authored candidates of one kind that cite one
    target at one commit and are similar enough. *)
Definition linked (config : CollapseConfig.t) (i j : nat) : Prop :=
  ∃ a b key, i < j ∧ candidates !! i = Some a ∧ candidates !! j = Some b
    ∧ group_key a = Some key ∧ group_key b = Some key
    ∧ a.(CollapseCandidate.agent_authored) = true ∧ b.(CollapseCandidate.agent_authored) = true
    ∧ a.(CollapseCandidate.kind) = b.(CollapseCandidate.kind)
    ∧ above_threshold a b config = true.

(** Every stamp of the candidates parses. *)
Definition well_stamped : Prop :=
  ∀ c t, c ∈ candidates → c.(CollapseCandidate.observed_at) = Some t →
    ∃ d, parse_from_rfc3339 t = Ok d.

(** [t] is no later than [u]. *)
Definition stamp_le (t u : string) : Prop :=
  ∃ a b, parse_from_rfc3339 t = Ok a ∧ parse_from_rfc3339 u = Ok b ∧ (instant a ≤ instant b)%Z.

(** The earliest and the latest stamp of the members, when there is one. *)
Definition stamps_exact (members : list CollapseCandidate.t) (lo hi : option string) : Prop :=
  let stamps := omap CollapseCandidate.observed_at members in
  match lo, hi with
  | None, None => stamps = []
  | Some t, Some u => t ∈ stamps ∧ u ∈ stamps
      ∧ ∀ v, v ∈ stamps → stamp_le t v ∧ stamp_le v u
  | _, _ => False
  end.

(** The cluster of a part: its candidates, the representative first, counted by class. *)
Definition cluster_exact (part : list nat) (c : CollapsedCluster.t) : Prop :=
  c.(CollapsedCluster.members) ≡ₚ omap (λ i, candidates !! i) part
  ∧ head c.(CollapsedCluster.members) = Some c.(CollapsedCluster.representative)
  ∧ (∀ class, default 0 (c.(CollapsedCluster.trust_spread) !! class)
       = length (filter (λ m, TrustClass.as_str m.(CollapseCandidate.trust_class) = class)
                   c.(CollapsedCluster.members)))
  ∧ (well_stamped →
       StronglySorted (cmp_le (representative_order instant parse_from_rfc3339))
         c.(CollapsedCluster.members)
       ∧ stamps_exact c.(CollapsedCluster.members) c.(CollapsedCluster.observed_at_min)
           c.(CollapsedCluster.observed_at_max)).

(** [parts] splits the positions into the connected components of a relation. *)
Definition splits (R : relation nat) (parts : list (list nat)) : Prop :=
  concat parts ≡ₚ seq 0 (length candidates)
  ∧ ∀ part i, part ∈ parts → i ∈ part →
      ∀ j, j ∈ part ↔ j < length candidates ∧ connected R i j.
End Spec.

(** ** The pairs that are joined *)

Lemma later_pairs_spec l i j :
  StronglySorted lt l → (i, j) ∈ later_pairs l ↔ i ∈ l ∧ j ∈ l ∧ i < j.
Proof.
  induction 1 as [|x l Hs IH Hx]; cbn [later_pairs].
  { split; [by intros ?%elem_of_nil|by intros [?%elem_of_nil _]]. }
  rewrite elem_of_app, IH, list_elem_of_fmap, !elem_of_cons.
  assert (∀ y, y ∈ l → x < y) as Hlt by by apply Forall_forall.
  split.
  - intros [(y & [= -> ->] & Hy)|?]; [|naive_solver]. split_and!; auto.
  - intros ([->|Hi] & [->|Hj] & Hij); [lia|left; by exists j| |by right].
    apply Hlt in Hi. lia.
Qed.

Lemma seq_sorted n : StronglySorted lt (seq 0 n).
Proof.
  generalize 0. induction n as [|n IH]; intros m; cbn; constructor; [done|].
  apply Forall_forall. intros y Hy. apply elem_of_seq in Hy. lia.
Qed.

Lemma filter_sorted {A} (R : relation A) (P : A → Prop) `{∀ x, Decision (P x)} (l : list A) :
  StronglySorted R l → StronglySorted R (filter P l).
Proof.
  induction 1 as [|x l _ IH Hx]; [constructor|]. rewrite filter_cons. case_decide; [|done].
  constructor; [done|]. apply Forall_forall. intros y [_ Hy]%list_elem_of_filter.
  by apply (proj1 (Forall_forall _ _) Hx).
Qed.

Lemma filter_ext_elem {A} (P Q : A → Prop) `{∀ x, Decision (P x)} `{∀ x, Decision (Q x)}
    (l : list A) :
  (∀ x, x ∈ l → P x ↔ Q x) → filter P l = filter Q l.
Proof.
  induction l as [|x l IH]; intros HPQ; [done|]. rewrite !filter_cons.
  rewrite (decide_ext (P x) (Q x)) by (apply HPQ; by left).
  rewrite IH by (intros y Hy; apply HPQ; by right). done.
Qed.

(** The positions of the candidates with a key. *)
Definition group_at (candidates : list CollapseCandidate.t) (key : string * option string)
    : list nat :=
  filter (λ i, candidates !! i ≫= group_key = Some key) (seq 0 (length candidates)).

Lemma groups_spec candidates key :
  let groups := foldl (λ (m : gmap (string * option string) (list nat)) '(index, candidate),
    match group_key candidate with
    | Some key => <[key := default [] (m !! key) ++ [index]]> m
    | None => m
    end) ∅ (imap pair candidates) in
  default [] (groups !! key) = group_at candidates key.
Proof.
  cbv zeta. unfold group_at. induction candidates as [|c l IH] using rev_ind; [done|].
  rewrite imap_app, foldl_app, length_app, seq_app, filter_app. cbn [length foldl imap seq].
  rewrite Nat.add_0_r, Nat.add_0_l.
  assert (filter (λ i, (l ++ [c]) !! i ≫= group_key = Some key) (seq 0 (length l))
    = filter (λ i, l !! i ≫= group_key = Some key) (seq 0 (length l))) as ->.
  { apply filter_ext_elem. intros i Hi%elem_of_seq. by rewrite lookup_app_l by lia. }
  rewrite filter_cons, filter_nil, lookup_app_r, Nat.sub_diag by done.
  cbn [lookup list_lookup mbind option_bind]. unfold compose.
  destruct (group_key c) as [k|]; [destruct (decide (k = key)) as [->|Hne]|].
  - rewrite lookup_insert_eq, decide_True by done. cbn [default]. by rewrite IH.
  - rewrite lookup_insert_ne, decide_False by congruence. by rewrite app_nil_r.
  - rewrite decide_False by done. by rewrite app_nil_r.
Qed.

Lemma elem_of_target_groups candidates l :
  l ∈ target_groups candidates →
  ∃ key, l = group_at candidates key.
Proof.
  unfold target_groups. rewrite list_elem_of_fmap.
  intros ([key k] & -> & Hk). rewrite sort_by_perm in Hk. apply elem_of_map_to_list in Hk.
  exists key. rewrite <-groups_spec. cbn [snd]. by rewrite Hk.
Qed.

Lemma group_at_listed candidates key i :
  i ∈ group_at candidates key → group_at candidates key ∈ target_groups candidates.
Proof.
  unfold target_groups. intros Hi. pose proof (groups_spec candidates key) as Hg. cbv zeta in Hg.
  apply list_elem_of_fmap. destruct (foldl _ _ _ !! key) as [l|] eqn:Hl; cbn [default] in Hg.
  - exists (key, l). split; [done|]. rewrite sort_by_perm. by apply elem_of_map_to_list.
  - rewrite <-Hg in Hi. by apply elem_of_nil in Hi.
Qed.

Lemma linked_pairs_spec to_lowercase candidates config i j :
  (i, j) ∈ linked_pairs to_lowercase candidates config ↔ linked to_lowercase candidates config i j.
Proof.
  unfold linked_pairs, linked. rewrite list_elem_of_filter, list_elem_of_bind. unfold linked_pair.
  assert (∀ key, StronglySorted lt (group_at candidates key)) as Hs
    by (intros key; apply filter_sorted, seq_sorted).
  assert (∀ key k, k ∈ group_at candidates key ↔ ∃ c, candidates !! k = Some c ∧ group_key c = Some key)
    as Hin.
  { intros key k. unfold group_at. rewrite list_elem_of_filter, elem_of_seq. split.
    - intros [Hk _]. destruct (candidates !! k) as [c|]; [by exists c|done].
    - intros (c & Hc & Hk). rewrite Hc. split; [done|]. apply lookup_lt_Some in Hc. lia. }
  cbn [fst snd]. split.
  - intros (Hl & l & Hp & (key & ->)%elem_of_target_groups).
    apply later_pairs_spec in Hp as ((a & Ha & Hka)%Hin & (b & Hb & Hkb)%Hin & Hij); [|done].
    rewrite Ha, Hb, !andb_true_iff, String.eqb_eq in Hl. destruct Hl as [[[? ?] ?] ?].
    by exists a, b, key.
  - intros (a & b & key & Hij & Ha & Hb & Hka & Hkb & Haa & Hab & Hk & Hab').
    rewrite Ha, Hb, !andb_true_iff, String.eqb_eq. split; [done|]. exists (group_at candidates key).
    assert (i ∈ group_at candidates key) as Hi by (apply Hin; by exists a).
    split; [|by eapply group_at_listed]. apply later_pairs_spec; [done|].
    split_and!; [done|apply Hin; by exists b|done].
Qed.

(** ** The components *)

Lemma concat_Permutation {A} (l k : list (list A)) : l ≡ₚ k → concat l ≡ₚ concat k.
Proof.
  induction 1 as [|x l k _ IH|x y l|l k m _ IH1 _ IH2]; cbn; [done|by rewrite IH| |by etrans].
  rewrite !(assoc app). by rewrite (comm app x y).
Qed.

Lemma push_concat (m : gmap nat (list nat)) r i :
  concat (map_to_list (<[r := default [] (m !! r) ++ [i]]> m)).*2
  ≡ₚ concat (map_to_list m).*2 ++ [i].
Proof.
  destruct (m !! r) as [l|] eqn:Hr; cbn [default].
  - rewrite <-(insert_delete_id m r l Hr) at 2. rewrite <-(insert_delete_eq m r (l ++ [i])).
    rewrite !map_to_list_insert by apply lookup_delete_eq. csimpl. solve_Permutation.
  - rewrite map_to_list_insert by done. csimpl. solve_Permutation.
Qed.

Lemma component_loop n self k :
  well_formed n self → k ≤ n →
  ∃ self' m, foldl component_step (Some (self, ∅)) (seq 0 k) = Some (self', m)
    ∧ well_formed n self' ∧ same_roots self self'
    ∧ concat (map_to_list m).*2 ≡ₚ seq 0 k
    ∧ (∀ r l, m !! r = Some l → l ≠ [])
    ∧ ∀ r l, m !! r = Some l → ∀ i, i ∈ l ↔ i < k ∧ leads self.(UnionFind.parent) i r.
Proof.
  intros Hwf. induction k as [|k IH]; intros Hk.
  { exists self, ∅. split_and!; [done|done|by intros ? ?|by rewrite map_to_list_empty|..];
      intros r l; by rewrite lookup_empty. }
  destruct IH as (self' & m & Hf & Hwf' & Hs & Hc & Hn & Hm); [lia|].
  rewrite seq_S, foldl_app, Hf. cbn [foldl component_step mbind option_bind fst snd Nat.add].
  destruct (find_spec (S k) n self' k Hwf' ltac:(lia) ltac:(lia)) as (r & self'' & Hr & Hl & Hwf'' & Hs').
  cbn [Nat.add]. rewrite Hr. cbn [mbind option_bind fst snd].
  eexists _, _. split; [done|]. split; [done|]. split.
  { intros x s. by rewrite (Hs' x s), (Hs x s). }
  split; [by rewrite push_concat, Hc|]. split.
  { intros t l [[_ <-]|[_ Ht]]%lookup_insert_Some; [|by eapply Hn].
    intros [_ [=]]%app_eq_nil. }
  apply Hs in Hl. intros s l. rewrite lookup_insert_Some.
  assert (∀ i s, i < S k ∧ leads self.(UnionFind.parent) i s ↔
    (i < k ∧ leads self.(UnionFind.parent) i s) ∨ i = k ∧ s = r) as Hsplit.
  { intros i t. split.
    - intros [Hi Ht]. destruct (decide (i = k)) as [->|]; [right|left; split; [lia|done]].
      split; [done|]. by eapply leads_fun.
    - intros [[? ?]|[-> ->]]; (split; [lia|done]). }
  intros [[<- <-]|[Hne Hls]] i; rewrite Hsplit.
  - rewrite elem_of_app, list_elem_of_singleton.
    assert (i ∈ default [] (m !! r) ↔ i < k ∧ leads self.(UnionFind.parent) i r) as ->.
    { destruct (m !! r) as [l|] eqn:Hmr; cbn [default]; [by apply Hm|].
      split; [by intros ?%elem_of_nil|]. intros [Hi Hir]. exfalso.
      assert (i ∈ concat (map_to_list m).*2) as (l & Hil & Hlm)%elem_of_concat
        by (rewrite Hc; apply elem_of_seq; lia).
      apply list_elem_of_fmap in Hlm as ([t l'] & -> & Ht%elem_of_map_to_list).
      cbn in Hil. apply (Hm _ _ Ht) in Hil as [_ Hit].
      assert (t = r) as -> by by eapply leads_fun. congruence. }
    naive_solver.
  - rewrite (Hm _ _ Hls). naive_solver.
Qed.

(** The parts are the components of the relation whose equivalence the union-find holds. *)
Lemma components_spec n self (R : relation nat) :
  well_formed n self →
  (∀ x y, x < n → y < n → same_part self x y ↔ connected R x y) →
  ∃ parts, components self n = Some parts ∧ concat parts ≡ₚ seq 0 n
    ∧ (∀ part, part ∈ parts → part ≠ [])
    ∧ ∀ part i, part ∈ parts → i ∈ part → ∀ j, j ∈ part ↔ j < n ∧ connected R i j.
Proof.
  intros Hwf Hp. unfold components.
  destruct (component_loop n self n Hwf ltac:(done)) as (self' & m & Hf & _ & _ & Hc & Hn & Hm).
  rewrite Hf. cbn [mbind option_bind snd]. eexists. split; [done|]. split.
  { rewrite <-Hc. apply concat_Permutation, fmap_Permutation, sort_by_perm. }
  split.
  - intros part Hpart. apply list_elem_of_fmap in Hpart as ([r l] & -> & Hl).
    rewrite sort_by_perm in Hl. apply elem_of_map_to_list in Hl. by eapply Hn.
  - intros part i Hpart Hi j.
    apply list_elem_of_fmap in Hpart as ([r l] & -> & Hl). rewrite sort_by_perm in Hl.
    apply elem_of_map_to_list in Hl. cbn [snd] in *. rewrite (Hm _ _ Hl) in Hi |- *.
    destruct Hi as [Hi Hir]. split.
    + intros [Hj Hjr]. split; [done|]. apply Hp; [done..|]. by exists r.
    + intros [Hj Hc']. split; [done|]. apply Hp in Hc' as (s & Hs & Hjs); [|done..].
      pose proof (leads_fun _ _ _ _ Hs Hir) as ->. done.
Qed.

(** ** What the contract of the sort gives *)

Lemma total_onb_spec {A} (cmp : A → A → comparison) l : total_onb cmp l = true ↔ total_on cmp l.
Proof.
  unfold total_onb, opp_eqb. rewrite forallb_forall. setoid_rewrite <-list_elem_of_In.
  setoid_rewrite forallb_forall. setoid_rewrite <-list_elem_of_In.
  setoid_rewrite andb_true_iff. setoid_rewrite bool_decide_eq_true.
  setoid_rewrite forallb_forall. setoid_rewrite <-list_elem_of_In.
  assert (∀ x y z : comparison,
    implb (negb (bool_decide (x = Gt)) && negb (bool_decide (y = Gt))) (negb (bool_decide (z = Gt))) = true
    ↔ (x ≠ Gt → y ≠ Gt → z ≠ Gt)) as Himp by (intros [] [] []; cbn; naive_solver).
  setoid_rewrite Himp. split.
  - intros H. split; [intros a b Ha Hb; by apply H|]. intros a b c Ha Hb Hc. by apply (H a Ha b Hb).
  - intros [Hopp Htr] a Ha b Hb. split; [by apply Hopp|]. intros c Hc. by apply Htr.
Qed.

#[export] Instance lenient_sort_stable : StableSort lenient_sort.
Proof.
  split; [done|]. unfold lenient_sort. intros A cmp l k [= <-]. apply sort_by_perm.
Qed.

#[export] Instance strict_sort_stable : StableSort strict_sort.
Proof.
  split; unfold strict_sort; intros A cmp l.
  - by intros ->%total_onb_spec.
  - intros k Hk. destruct (total_onb cmp l); [|done]. injection Hk as <-. apply sort_by_perm.
Qed.

(** A comparison that agrees with an order on the elements of a list is total on it. *)
Lemma agree_total_on {A} (P : A → Prop) (cmp cmp' : A → A → comparison) `{!CmpOrder cmp'} l :
  (∀ a b, P a → P b → cmp a b = cmp' a b) → Forall P l → total_on cmp l.
Proof.
  intros Hag Hl. pose proof (proj1 (Forall_forall _ _) Hl) as HP. split.
  - intros a b Ha Hb. rewrite !Hag by auto. apply cmp_opp.
  - intros a b c Ha Hb Hc. rewrite !Hag by auto. apply cmp_trans.
Qed.

Section Sorts.
Context (slice_sort_by : SliceSort) `{!StableSort slice_sort_by}.

Lemma sort_order {A} (cmp : A → A → comparison) `{!CmpOrder cmp} l :
  slice_sort_by A cmp l = Some (sort_by cmp l).
Proof.
  apply sort_total. apply (agree_total_on (λ _, True) cmp cmp); [done|]. by apply Forall_true.
Qed.

Lemma sort_agree {A} (P : A → Prop) (cmp cmp' : A → A → comparison) `{!CmpOrder cmp'} l :
  (∀ a b, P a → P b → cmp a b = cmp' a b) → Forall P l →
  slice_sort_by A cmp l = Some (sort_by cmp' l).
Proof.
  intros Hag Hl. rewrite <-(sort_by_agree P cmp cmp' Hag l Hl). apply sort_total.
  by eapply agree_total_on.
Qed.
End Sorts.

(** ** The clusters *)
Section Clusters.
Context {DateTime : Type} (instant : DateTime → Z).
Context (parse_from_rfc3339 : string → result DateTime string).
Context (slice_sort_by : SliceSort) `{!StableSort slice_sort_by}.
Context (candidates : list CollapseCandidate.t).

Abbreviation representative_order := (representative_order instant parse_from_rfc3339).
Abbreviation stamp_cmp := (stamp_cmp instant parse_from_rfc3339).
Abbreviation parses := (λ t : string, ∃ d, parse_from_rfc3339 t = Ok d).
Abbreviation stamped := (λ c : CollapseCandidate.t,
  ∀ t, c.(CollapseCandidate.observed_at) = Some t → parses t).

(** The instant of a stamp that parses. *)
Definition instant_of_stamp (t : string) : Z :=
  match parse_from_rfc3339 t with Ok d => instant d | Err _ => 0%Z end.

Lemma stamp_cmp_instant a b :
  parses a → parses b → stamp_cmp a b = cmp_on instant_of_stamp Z.compare a b.
Proof. intros [x Hx] [y Hy]. unfold stamp_cmp, cmp_on, instant_of_stamp. by rewrite Hx, Hy. Qed.

(** The documented order: confidence down, stamp up with none last, id up. *)
Definition ranking : CollapseCandidate.t → CollapseCandidate.t → comparison :=
  cmp_then (flip (cmp_on (λ c, default F32.NEG_INFINITY c.(CollapseCandidate.confidence)) F32.total_cmp))
    (cmp_then (flip (cmp_on (λ c, instant_of_stamp <$> c.(CollapseCandidate.observed_at))
                      (option_cmp (flip Z.compare))))
       (cmp_on CollapseCandidate.record_id String.compare)).

#[local] Instance ranking_order : CmpOrder ranking.
Proof.
  unfold ranking. apply cmp_then_order; [apply flip_cmp_order, _|].
  apply cmp_then_order; [|apply _].
  apply flip_cmp_order, cmp_on_order, option_cmp_order, flip_cmp_order, _.
Qed.

Lemma representative_order_ranking a b :
  stamped a → stamped b → representative_order a b = ranking a b.
Proof.
  intros Ha Hb. unfold representative_order, ranking, cmp_then, flip, cmp_on at 1. f_equal. f_equal.
  unfold cmp_on. destruct a.(CollapseCandidate.observed_at) as [t|] eqn:Et,
    b.(CollapseCandidate.observed_at) as [u|] eqn:Eu; cbn; try done.
  rewrite stamp_cmp_instant; [done|by apply Ha|by apply Hb].
Qed.

(** The candidates at positions in bounds. *)
Lemma mapM_lookup part :
  (∀ j, j ∈ part → j < length candidates) →
  mapM (λ j, candidates !! j) part = Some (omap (λ j, candidates !! j) part).
Proof.
  induction part as [|j part IH]; intros Hlt; [done|].
  destruct (lookup_lt_is_Some_2 candidates j) as [c Hc]; [by apply Hlt; left|].
  cbn [mapM omap list_omap]. rewrite Hc. cbn [mbind option_bind].
  rewrite IH by (intros k Hk; apply Hlt; by right). done.
Qed.

(** The ranking of the positions of well-stamped candidates. *)
Definition position_ranking : nat → nat → comparison :=
  cmp_on (λ j, candidates !! j) (option_cmp ranking).

#[local] Instance position_ranking_order : CmpOrder position_ranking.
Proof. apply cmp_on_order, option_cmp_order, _. Qed.

Abbreviation stamped_at := (λ j, ∃ c, candidates !! j = Some c ∧ stamped c).

Lemma position_order_ranking i j :
  stamped_at i → stamped_at j →
  position_order instant parse_from_rfc3339 candidates i j = position_ranking i j.
Proof.
  intros (c & Hc & Hcs) (d & Hd & Hds). unfold position_order, position_ranking, cmp_on.
  rewrite Hc, Hd. by apply representative_order_ranking.
Qed.

Lemma members_sorted part :
  Forall stamped_at part →
  StronglySorted (cmp_le representative_order)
    (omap (λ j, candidates !! j) (sort_by position_ranking part)).
Proof.
  intros Hpart. pose proof (sort_by_sorted position_ranking part) as Hs.
  assert (Forall stamped_at (sort_by position_ranking part)) as Hf by by rewrite sort_by_perm.
  induction Hs as [|i k _ IH Hi]; [constructor|].
  apply Forall_cons in Hf as [(c & Hc & Hcs) Hk]. cbn [omap list_omap]. rewrite Hc.
  constructor; [by apply IH|]. apply Forall_forall. intros d (j & Hj & Hd)%list_elem_of_omap.
  destruct (proj1 (Forall_forall _ _) Hk j Hj) as (d' & Hd' & Hds). simplify_eq.
  pose proof (proj1 (Forall_forall _ _) Hi j Hj) as Hij. revert Hij.
  unfold cmp_le, position_ranking, cmp_on. rewrite Hc, Hd. cbn [option_cmp].
  by rewrite <-representative_order_ranking.
Qed.

(** The stamps are sorted by their instants. *)
Definition stamp_ranking : string → string → comparison := cmp_on instant_of_stamp Z.compare.

Lemma stamps_sorted (l : list string) :
  Forall parses l →
  match head (sort_by stamp_ranking l), last (sort_by stamp_ranking l) with
  | None, None => l = []
  | Some t, Some u => t ∈ l ∧ u ∈ l ∧ ∀ v, v ∈ l →
      stamp_le instant parse_from_rfc3339 t v ∧ stamp_le instant parse_from_rfc3339 v u
  | _, _ => False
  end.
Proof.
  intros Hl. set (cmp' := stamp_ranking).
  pose proof (sort_by_perm cmp' l) as Hp. pose proof (sort_by_sorted cmp' l) as Hs.
  assert (∀ t u, t ∈ l → u ∈ l → cmp_le cmp' t u → stamp_le instant parse_from_rfc3339 t u) as Hle.
  { intros t u Ht Hu. apply (proj1 (Forall_forall _ _) Hl) in Ht as [a Ha], Hu as [b Hb].
    unfold cmp_le, cmp', stamp_ranking, cmp_on, instant_of_stamp. rewrite Ha, Hb. intros Hc.
    exists a, b. split_and!; [done..|]. by apply Z.compare_le_iff. }
  destruct (sort_by cmp' l) as [|t k] eqn:E; cbn [head].
  - apply Permutation_nil_l in Hp. by subst.
  - destruct (last (t :: k)) as [u|] eqn:Hu; [|by apply last_None in Hu].
    pose proof (last_Some_elem_of _ _ Hu) as Hin. rewrite Hp in Hin.
    assert (t ∈ l) as Ht by (rewrite <-Hp; by left). split_and!; [done..|]. intros v Hv.
    assert (v ∈ t :: k) as Hv' by by rewrite Hp. split.
    + apply Hle; [done..|]. apply elem_of_cons in Hv' as [->|Hvk]; [reflexivity|].
      apply StronglySorted_inv in Hs as [_ Hf]. by apply (proj1 (Forall_forall _ _) Hf).
    + apply Hle; [done..|]. apply last_Some in Hu as [k' Hk']. rewrite Hk' in Hs, Hv'.
      apply elem_of_app in Hv' as [Hv'|Hv'].
      * eapply StronglySorted_app_1_elem_of; [exact Hs|done|by left].
      * apply list_elem_of_singleton in Hv' as ->. reflexivity.
Qed.

Lemma count_trust_spec l class :
  default 0 (count_trust l !! class)
  = length (filter (λ m, TrustClass.as_str m.(CollapseCandidate.trust_class) = class) l).
Proof.
  unfold count_trust. induction l as [|x l IH] using rev_ind; [done|].
  rewrite foldl_app, filter_app, length_app, <-IH. cbn [foldl]. rewrite filter_cons, filter_nil.
  destruct (decide (TrustClass.as_str x.(CollapseCandidate.trust_class) = class)) as [->|Hne].
  - rewrite lookup_insert_eq. cbn. lia.
  - rewrite lookup_insert_ne by done. cbn. lia.
Qed.

(** A cluster that is produced is that of its part. *)
Lemma cluster_of_sound part c :
  (∀ j, j ∈ part → j < length candidates) →
  cluster_of instant parse_from_rfc3339 slice_sort_by candidates part = Some c →
  cluster_exact instant parse_from_rfc3339 candidates part c.
Proof.
  intros Hlt. unfold cluster_of.
  destruct (slice_sort_by _ _ part) as [sorted|] eqn:Hsort; cbn [mbind option_bind]; [|done].
  pose proof (sort_keeps _ _ _ Hsort) as Hp.
  rewrite mapM_lookup by (intros j; rewrite Hp; apply Hlt). cbn [mbind option_bind].
  set (members := omap _ sorted).
  destruct (slice_sort_by _ _ (omap _ members)) as [observed|] eqn:Hobs; cbn [mbind option_bind]; [|done].
  destruct (head members) as [r|] eqn:Hr; cbn [mbind option_bind]; [|done]. intros [= <-].
  unfold cluster_exact. cbn [CollapsedCluster.members CollapsedCluster.representative
    CollapsedCluster.trust_spread CollapsedCluster.observed_at_min CollapsedCluster.observed_at_max].
  split; [by apply omap_Permutation|]. split; [done|]. split; [apply count_trust_spec|].
  intros Hw. assert (∀ d, d ∈ members → stamped d) as Hst.
  { intros d (j & _ & Hj)%list_elem_of_omap t Ht.
    apply (Hw d t); [by apply list_elem_of_lookup_2 in Hj|done]. }
  assert (Forall parses (omap CollapseCandidate.observed_at members)) as Hparse.
  { apply Forall_forall. intros t (d & Hd & Ht)%list_elem_of_omap. by apply (Hst d). }
  rewrite (sort_agree slice_sort_by parses _ stamp_ranking _ stamp_cmp_instant Hparse) in Hobs.
  injection Hobs as <-. split; [|by apply stamps_sorted]. subst members.
  assert (Forall stamped_at part) as Hpart.
  { apply Forall_forall. intros j Hj. destruct (lookup_lt_is_Some_2 candidates j) as [d Hd]; [by apply Hlt|].
    exists d. split; [done|]. apply Hst, list_elem_of_omap. exists j. by rewrite Hp. }
  rewrite (sort_agree slice_sort_by stamped_at _ position_ranking _ position_order_ranking Hpart) in Hsort.
  injection Hsort as <-. by apply members_sorted.
Qed.

(** No sort panics when the stamps parse. *)
Lemma cluster_of_total part i :
  i ∈ part → (∀ j, j ∈ part → j < length candidates) →
  well_stamped parse_from_rfc3339 candidates →
  is_Some (cluster_of instant parse_from_rfc3339 slice_sort_by candidates part).
Proof.
  intros Hi Hlt Hw. unfold cluster_of.
  assert (Forall stamped_at part) as Hpart.
  { apply Forall_forall. intros j Hj. destruct (lookup_lt_is_Some_2 candidates j) as [d Hd]; [by apply Hlt|].
    exists d. split; [done|]. intros t Ht. apply (Hw d t); [by apply list_elem_of_lookup_2 in Hd|done]. }
  rewrite (sort_agree slice_sort_by stamped_at _ position_ranking _ position_order_ranking Hpart).
  cbn [mbind option_bind]. rewrite mapM_lookup by (intros j; rewrite sort_by_perm; apply Hlt).
  cbn [mbind option_bind]. set (members := omap _ (sort_by _ _)).
  rewrite (sort_agree slice_sort_by parses _ stamp_ranking _ stamp_cmp_instant).
  2:{ apply Forall_forall. intros t (d & (j & _ & Hj)%list_elem_of_omap & Ht)%list_elem_of_omap.
      apply (Hw d t); [by apply list_elem_of_lookup_2 in Hj|done]. }
  cbn [mbind option_bind]. destruct (head members) as [r|] eqn:Hr; cbn [mbind option_bind]; [by eexists|].
  exfalso. destruct (lookup_lt_is_Some_2 candidates i) as [d Hd]; [by apply Hlt|].
  assert (d ∈ members) as Hin by (apply list_elem_of_omap; exists i; by rewrite sort_by_perm).
  destruct members; [by apply elem_of_nil in Hin|done].
Qed.
End Clusters.

#[export] Instance cluster_cmp_order : CmpOrder cluster_cmp.
Proof.
  exact (cmp_then_order
    (flip (cmp_on (λ c, default F32.NEG_INFINITY
       c.(CollapsedCluster.representative).(CollapseCandidate.retrieval_score)) F32.total_cmp))
    (cmp_on (λ c, c.(CollapsedCluster.representative).(CollapseCandidate.record_id)) String.compare)
    (flip_cmp_order _ _) _).
Qed.

(** ** Properties *)
Section Properties.
Context {DateTime : Type} (instant : DateTime → Z).
Context (parse_from_rfc3339 : string → result DateTime string).
Context (to_lowercase : string → string).
Context (slice_sort_by : SliceSort) `{!StableSort slice_sort_by}.

Abbreviation collapse :=
  (collapse_memory_recall instant parse_from_rfc3339 to_lowercase slice_sort_by).
Abbreviation cluster_exact := (cluster_exact instant parse_from_rfc3339).
Abbreviation linked := (linked to_lowercase).

(** The parts of the candidates, and what is left of the collapse once they are found. *)
Lemma collapse_parts candidates config :
  ∃ parts, splits candidates (linked candidates config) parts
    ∧ (∀ part, part ∈ parts → part ≠ [])
    ∧ (∀ part j, part ∈ parts → j ∈ part → j < length candidates)
    ∧ collapse candidates config =
        let?o clusters :=
          mapM (cluster_of instant parse_from_rfc3339 slice_sort_by candidates) parts in
        Some (CollapseOutcome.mk config.(CollapseConfig.mode)
                config.(CollapseConfig.similarity_threshold) (length candidates)
                (sort_by cluster_cmp clusters)).
Proof.
  set (n := length candidates). unfold collapse_memory_recall. fold n.
  destruct (union_pairs_spec n (linked_pairs to_lowercase candidates config))
    as (self & Hu & Hwf & Hp).
  { intros i j (a & b & _ & _ & Ha & Hb & _)%linked_pairs_spec.
    split; by eapply lookup_lt_Some. }
  rewrite Hu. cbn [mbind option_bind].
  assert (∀ x y, x < n → y < n → same_part self x y ↔ connected (linked candidates config) x y) as Hp'.
  { intros x y Hx Hy. rewrite Hp by done. apply connected_ext. intros c d. apply linked_pairs_spec. }
  destruct (components_spec n self _ Hwf Hp') as (parts & Hc & Hcat & Hne & Hconn).
  rewrite Hc. cbn [mbind option_bind]. exists parts. split; [by split|]. split; [done|]. split.
  { intros part j Hpart Hj. assert (j ∈ concat parts) as Hj' by (apply elem_of_concat; by exists part).
    rewrite Hcat in Hj'. apply elem_of_seq in Hj'. lia. }
  destruct (mapM (cluster_of _ _ _ _) parts) as [cs|]; cbn [mbind option_bind]; [|done].
  by rewrite (sort_order slice_sort_by cluster_cmp).
Qed.

(** A collapse that produces an outcome. *)
Lemma collapse_sound candidates config outcome :
  collapse candidates config = Some outcome →
  ∃ parts cs, outcome.(CollapseOutcome.mode) = config.(CollapseConfig.mode)
    ∧ outcome.(CollapseOutcome.threshold) = config.(CollapseConfig.similarity_threshold)
    ∧ outcome.(CollapseOutcome.source_candidate_count) = length candidates
    ∧ splits candidates (linked candidates config) parts
    ∧ Forall2 (cluster_exact candidates) parts cs
    ∧ outcome.(CollapseOutcome.clusters) ≡ₚ cs
    ∧ StronglySorted (cmp_le cluster_cmp) outcome.(CollapseOutcome.clusters).
Proof.
  destruct (collapse_parts candidates config) as (parts & Hsplit & Hne & Hlt & ->).
  destruct (mapM (cluster_of _ _ _ _) parts) as [cs|] eqn:Hcs; cbn [mbind option_bind]; [|done]. intros [= <-].
  exists parts, cs. cbn [CollapseOutcome.mode CollapseOutcome.threshold
    CollapseOutcome.source_candidate_count CollapseOutcome.clusters].
  split; [done|]. split; [done|]. split; [done|]. split; [exact Hsplit|].
  split; [|split; [apply sort_by_perm|apply (sort_by_sorted cluster_cmp)]].
  apply mapM_Some in Hcs. clear Hsplit Hne. induction Hcs as [|part c parts cs Hc _ IH]; constructor.
  - apply (cluster_of_sound instant parse_from_rfc3339 slice_sort_by); [|exact Hc].
    intros j. apply Hlt. by left.
  - apply IH. intros p j ?; apply Hlt; by right.
Qed.

Lemma collapse_total candidates config :
  well_stamped parse_from_rfc3339 candidates → is_Some (collapse candidates config).
Proof.
  intros Hw. destruct (collapse_parts candidates config) as (parts & _ & Hne & Hlt & ->).
  assert (is_Some (mapM (cluster_of instant parse_from_rfc3339 slice_sort_by candidates) parts))
    as [cs ->]; [|by eexists].
  apply mapM_is_Some, Forall_forall. intros [|i part] Hpart; [by destruct (Hne [] Hpart)|].
  apply (cluster_of_total _ _ _ _ _ i); [by left|intros j; by apply Hlt|done].
Qed.

(** C15: When every stamp of the candidates parses, the collapse of a recall ends without
    panicking for every configuration. Without that condition the comparison of the members is
    not an order and a sort may panic or leave them in any order; whenever the collapse ends
    nevertheless, its clusters are exactly the connected components of the candidates under
    the documented edges (agent-authored, of one kind, citing one target at one commit, at
    least as similar as the threshold), so they partition the candidates; every cluster
    starts with its representative and counts the trust classes of its members; and the
    clusters are ordered by score and id. If moreover every stamp parses, the members of a
    cluster are ranked by confidence, instant and id and its bounds are the earliest and the
    latest stamp. *)
Theorem collapse_exact candidates config :
  (well_stamped parse_from_rfc3339 candidates → is_Some (collapse candidates config))
  ∧ ∀ outcome, collapse candidates config = Some outcome →
      ∃ parts cs, outcome.(CollapseOutcome.source_candidate_count) = length candidates
        ∧ splits candidates (linked candidates config) parts
        ∧ Forall2 (cluster_exact candidates) parts cs
        ∧ outcome.(CollapseOutcome.clusters) ≡ₚ cs
        ∧ StronglySorted (cmp_le cluster_cmp) outcome.(CollapseOutcome.clusters).
Proof.
  split; [apply collapse_total|]. intros outcome Ho.
  destruct (collapse_sound candidates config outcome Ho) as (parts & cs & _ & _ & ?). by exists parts, cs.
Qed.

(** A higher threshold only removes edges. *)
Lemma linked_threshold candidates mode t1 t2 i j :
  F32.le t1 t2 = true →
  linked candidates (CollapseConfig.mk mode t2) i j → linked candidates (CollapseConfig.mk mode t1) i j.
Proof.
  intros Hle (a & b & key & ? & ? & ? & ? & ? & ? & ? & ? & Hab). exists a, b, key.
  split_and!; [done..|]. revert Hab. unfold above_threshold. cbn. destruct mode; [|done].
  destruct (CollapseCandidate.vector a), (CollapseCandidate.vector b); try done.
  destruct (cosine_similarity _ _); [|done]. by apply le_trans.
Qed.

(** The contract of the threshold: raising it only splits clusters. Every cluster at the
    higher threshold is made of members of one cluster at the lower threshold. *)
Theorem collapse_monotone candidates mode t1 t2 o1 o2 :
  F32.le t1 t2 = true →
  collapse candidates (CollapseConfig.mk mode t1) = Some o1 →
  collapse candidates (CollapseConfig.mk mode t2) = Some o2 →
  ∀ c2, c2 ∈ o2.(CollapseOutcome.clusters) →
  ∃ c1, c1 ∈ o1.(CollapseOutcome.clusters)
    ∧ c2.(CollapsedCluster.members) ⊆+ c1.(CollapsedCluster.members).
Proof.
  intros Hle H1 H2 c2 Hc2.
  destruct (collapse_sound _ _ _ H1)
    as (parts1 & cs1 & _ & _ & _ & [Hcat1 Hconn1] & Hex1 & Hperm1 & _).
  destruct (collapse_sound _ _ _ H2)
    as (parts2 & cs2 & _ & _ & _ & [Hcat2 Hconn2] & Hex2 & Hperm2 & _).
  rewrite Hperm2 in Hc2. apply list_elem_of_lookup in Hc2 as [k Hk].
  destruct (Forall2_lookup_r _ _ _ _ _ Hex2 Hk) as (p2 & Hp2 & Hm2 & Hhead & _).
  apply list_elem_of_lookup_2 in Hp2.
  assert (∃ i, i ∈ p2) as [i Hi].
  { destruct p2 as [|i p2]; [|exists i; by left]. cbn in Hm2.
    apply Permutation_nil_r in Hm2. by rewrite Hm2 in Hhead. }
  assert (i < length candidates) as Hilt.
  { assert (i ∈ concat parts2) as Hic by (apply elem_of_concat; by exists p2).
    rewrite Hcat2 in Hic. apply elem_of_seq in Hic. lia. }
  assert (i ∈ concat parts1) as (p1 & Hi1 & Hp1)%elem_of_concat
    by (rewrite Hcat1; apply elem_of_seq; lia).
  pose proof Hp1 as [k1 Hk1]%list_elem_of_lookup.
  destruct (Forall2_lookup_l _ _ _ _ _ Hex1 Hk1) as (c1 & Hc1 & Hm1 & _).
  exists c1. split; [rewrite Hperm1; by apply list_elem_of_lookup_2 in Hc1|].
  assert (NoDup p2) as Hnd.
  { assert (NoDup (concat parts2)) as Hn by (rewrite Hcat2; apply NoDup_seq).
    apply list_elem_of_lookup in Hp2 as [k2 Hk2].
    rewrite <-(take_drop_middle _ _ _ Hk2), concat_app in Hn. cbn in Hn.
    by apply NoDup_app in Hn as (_ & _ & [? _]%NoDup_app). }
  assert (p2 ⊆+ p1) as [q Hq]%submseteq_Permutation.
  { apply NoDup_submseteq; [done|]. intros j Hj.
    apply (Hconn2 p2 i Hp2 Hi) in Hj as [Hjlt Hij]. apply (Hconn1 p1 i Hp1 Hi1).
    split; [done|]. eapply connected_mono; [|exact Hij]. intros c d. by apply linked_threshold. }
  rewrite Hm1, Hm2, Hq, omap_app. by apply submseteq_inserts_r.
Qed.

(** Nothing is lost in the rows: their sizes add up to the candidates, and the envelope's
    count of what was collapsed away does not saturate. *)
Theorem collapse_accounts candidates config outcome :
  collapse candidates config = Some outcome →
  sum_list_with CollapsedMemoryRow.cluster_size
    (render_collapsed_rows outcome.(CollapseOutcome.clusters)) = length candidates
  ∧ length outcome.(CollapseOutcome.clusters) ≤ length candidates.
Proof.
  intros Ho. destruct (collapse_sound _ _ _ Ho)
    as (parts & cs & _ & _ & _ & [Hcat Hconn] & Hex & Hperm & _).
  assert (sum_list_with (λ c, length c.(CollapsedCluster.members)) outcome.(CollapseOutcome.clusters)
    = length candidates) as Hsum.
  { rewrite Hperm. transitivity (length (concat parts)); [|by rewrite Hcat, length_seq].
    assert (∀ part j, part ∈ parts → j ∈ part → is_Some (candidates !! j)) as Hlt.
    { intros part j Hpart Hj. apply lookup_lt_is_Some_2.
      assert (j ∈ concat parts) as Hj' by (apply elem_of_concat; by exists part).
      rewrite Hcat in Hj'. apply elem_of_seq in Hj'. lia. }
    clear Hcat Hconn Hperm. induction Hex as [|part c parts cs (Hm & _) _ IH]; [done|].
    cbn [sum_list_with concat foldr]. change (foldr app [] parts) with (concat parts).
    rewrite length_app, IH by (intros p j ?; apply Hlt; by right). rewrite Hm. f_equal.
    assert (∀ j, j ∈ part → is_Some (candidates !! j)) as Hlt' by (intros j; apply Hlt; by left).
    clear -Hlt'. induction part as [|j part IH]; [done|]. cbn [omap list_omap].
    destruct (Hlt' j) as [c Hc]; [by left|]. rewrite Hc. cbn [length].
    rewrite IH; [done|]. intros k Hk. apply Hlt'. by right. }
  split.
  - rewrite <-Hsum. unfold render_collapsed_rows.
    clear. induction (CollapseOutcome.clusters outcome) as [|c l IH]; [done|]. csimpl. f_equal. exact IH.
  - rewrite <-Hsum. assert (∀ c, c ∈ outcome.(CollapseOutcome.clusters) →
      0 < length c.(CollapsedCluster.members)) as Hpos.
    { intros c Hc. rewrite Hperm in Hc. apply list_elem_of_lookup in Hc as [k Hk].
      destruct (Forall2_lookup_r _ _ _ _ _ Hex Hk) as (p & _ & _ & Hh & _).
      destruct (CollapsedCluster.members c); [done|cbn; lia]. }
    clear -Hpos. induction (CollapseOutcome.clusters outcome) as [|c l IH]; [done|].
    cbn [length sum_list_with]. pose proof (Hpos c ltac:(by left)).
    assert (∀ c, c ∈ l → 0 < length (CollapsedCluster.members c)) as Hl by (intros d ?; apply Hpos; by right).
    specialize (IH Hl). lia.
Qed.
End Properties.

(** ** Concrete recalls *)
Module CollapseDemo.
Definition candidate (id text : string) (at_ : option string) (vector : list f32)
    : CollapseCandidate.t :=
  {| CollapseCandidate.record_id := id; CollapseCandidate.kind := "Observation";
     CollapseCandidate.trust_class := TrustClass.AgentUnverified;
     CollapseCandidate.agent_authored := true;
     CollapseCandidate.primary_target := Some (PrimaryCitedTarget.mk "sym" "OBSERVES" None);
     CollapseCandidate.body_text := text; CollapseCandidate.confidence_raw := None;
     CollapseCandidate.confidence := None; CollapseCandidate.observed_at := at_;
     CollapseCandidate.vector := Some vector; CollapseCandidate.retrieval_score := None;
     CollapseCandidate.source_handle := None; CollapseCandidate.agent_id := None;
     CollapseCandidate.agent_kind := None; CollapseCandidate.session_id := None;
     CollapseCandidate.evidence_links := None |}.
(** The hour of a stamp of one digit; the offset [+] counts back twelve. *)
Definition parse (t : string) : result Z string :=
  match t with
  | "5Z" => Ok 5%Z
  | "8Z" => Ok 8%Z
  | "9+" => Ok (-3)%Z
  | _ => Err "invalid"
  end.
(** Three vectors: the first two at a cosine of 0.8, the second and the third too, the
    first and the third at 0.28. *)
Definition three : f32 := F32.add TWO F32.ONE.
Definition four : f32 := F32.add TWO TWO.
Definition seven : f32 := F32.add four three.
Definition twenty_four : f32 := F32.mul four (F32.add four TWO).
Definition candidates : list CollapseCandidate.t :=
  [candidate "c" "B " (Some "5Z") [seven; twenty_four];
   candidate "a" "A  b" (Some "8Z") [F32.ONE; F32.ZERO];
   candidate "b" " a" (Some "9+") [four; three]].
Definition run (mode : CollapseMode.t) (threshold : f32) : option (list (list string)) :=
  (λ o, (λ c, CollapseCandidate.record_id <$> c.(CollapsedCluster.members))
     <$> o.(CollapseOutcome.clusters))
  <$> collapse_memory_recall id parse to_ascii_lowercase strict_sort candidates
        (CollapseConfig.mk mode threshold).
End CollapseDemo.

(** The first and the third vector are joined through the second. *)
Example collapse_runs :
  CollapseDemo.run CollapseMode.EmbeddingCosine HALF = Some [["b"; "c"; "a"]]
  ∧ CollapseDemo.run CollapseMode.EmbeddingCosine DEFAULT_COLLAPSE_SIMILARITY_THRESHOLD
    = Some [["a"]; ["b"]; ["c"]]
  ∧ CollapseDemo.run CollapseMode.NormalizedText HALF = Some [["a"]; ["b"]; ["c"]].
Proof. vm_compute. done. Qed.

Example collapse_texts :
  normalize_memory_text to_ascii_lowercase (" A" +:+ bytes [9; 226; 128; 137]%N +:+ "b ") = "a b".
Proof. vm_compute. reflexivity. Qed.

Lemma collapse_monotone_witness :
  ∃ o1 o2,
    collapse_memory_recall id CollapseDemo.parse to_ascii_lowercase strict_sort CollapseDemo.candidates
      (CollapseConfig.mk CollapseMode.EmbeddingCosine HALF) = Some o1
    ∧ collapse_memory_recall id CollapseDemo.parse to_ascii_lowercase strict_sort CollapseDemo.candidates
      (CollapseConfig.mk CollapseMode.EmbeddingCosine DEFAULT_COLLAPSE_SIMILARITY_THRESHOLD) = Some o2
    ∧ ∀ c2, c2 ∈ o2.(CollapseOutcome.clusters) →
      ∃ c1, c1 ∈ o1.(CollapseOutcome.clusters)
        ∧ c2.(CollapsedCluster.members) ⊆+ c1.(CollapsedCluster.members).
Proof.
  destruct (collapse_memory_recall id CollapseDemo.parse to_ascii_lowercase strict_sort CollapseDemo.candidates
    (CollapseConfig.mk CollapseMode.EmbeddingCosine HALF)) as [o1|] eqn:H1;
    [|vm_compute in H1; discriminate].
  destruct (collapse_memory_recall id CollapseDemo.parse to_ascii_lowercase strict_sort CollapseDemo.candidates
    (CollapseConfig.mk CollapseMode.EmbeddingCosine DEFAULT_COLLAPSE_SIMILARITY_THRESHOLD))
    as [o2|] eqn:H2; [|vm_compute in H2; discriminate].
  exists o1, o2. split; [reflexivity|]. split; [reflexivity|].
  apply (collapse_monotone id CollapseDemo.parse to_ascii_lowercase strict_sort CollapseDemo.candidates
    CollapseMode.EmbeddingCosine HALF DEFAULT_COLLAPSE_SIMILARITY_THRESHOLD o1 o2);
    [vm_compute; reflexivity|exact H1|exact H2].
Defined.

(** Under the sort that panics unless the comparison is total, the collapse of the three
    candidates, whose stamps all parse, ends. *)
Lemma collapse_exact_witness :
  well_stamped CollapseDemo.parse CollapseDemo.candidates
  ∧ ∃ outcome parts, collapse_memory_recall id CollapseDemo.parse to_ascii_lowercase strict_sort
        CollapseDemo.candidates (CollapseConfig.mk CollapseMode.EmbeddingCosine HALF) = Some outcome
      ∧ splits CollapseDemo.candidates (linked to_ascii_lowercase CollapseDemo.candidates
          (CollapseConfig.mk CollapseMode.EmbeddingCosine HALF)) parts
      ∧ length outcome.(CollapseOutcome.clusters) = length parts.
Proof.
  assert (well_stamped CollapseDemo.parse CollapseDemo.candidates) as Hw.
  { intros c t Hc Ht. unfold CollapseDemo.candidates in Hc.
    repeat (apply elem_of_cons in Hc as [->|Hc]; [injection Ht as <-; eexists; reflexivity|]).
    by apply elem_of_nil in Hc. }
  split; [exact Hw|].
  destruct (collapse_exact id CollapseDemo.parse to_ascii_lowercase strict_sort
    CollapseDemo.candidates (CollapseConfig.mk CollapseMode.EmbeddingCosine HALF)) as [Hend Hex].
  destruct (Hend Hw) as [outcome Ho].
  destruct (Hex outcome Ho) as (parts & cs & _ & Hsplit & Hcs & Hperm & _).
  exists outcome, parts. split; [exact Ho|]. split; [exact Hsplit|].
  rewrite Hperm. symmetry. eapply Forall2_length, Hcs.
Defined.

(** ** The ranking is not an order when a stamp does not parse *)

(** A stamp that parses is compared with one that does not as text, and with one that parses
    as an instant, so three candidates can be ranked in a circle. *)
Theorem representative_order_circle :
  let order := representative_order id CollapseDemo.parse in
  let candidate t := CollapseDemo.candidate "" "" (Some t) [] in
  order (candidate "9+") (candidate "5Z") = Lt
  ∧ order (candidate "5Z") (candidate "7?") = Lt
  ∧ order (candidate "7?") (candidate "9+") = Lt.
Proof. vm_compute. done. Qed.

(** So the collapse of those three candidates panics under a sort that keeps to the documented
    contract and takes the panic it is allowed. *)
Theorem collapse_may_panic :
  let candidate t := CollapseDemo.candidate "" "" (Some t) [] in
  StableSort strict_sort
  ∧ collapse_memory_recall id CollapseDemo.parse to_ascii_lowercase strict_sort
      [candidate "9+"; candidate "5Z"; candidate "7?"]
      (CollapseConfig.mk CollapseMode.NormalizedText HALF) = None.
Proof. split; [apply _|vm_compute; reflexivity]. Qed.
