(* ===== verification/CitationAudit.v ===== *)
(** * Citation status of a record

    The row classifier of [src/src/citation_audit.rs], which the audit, the evidence pack and
    the bundle share: the trust class of a record decides which handle it must carry, a
    reference to a protected payload excludes it, and a row of the runtime log is only cited
    through the log source the surrounding records trace it to. [to_string] is
    [serde_json::to_string] of a record ([None] is its error). *)
From S2P Require Import Prelude RustStr Ir IrOps Liveness.
From Stdlib Require Import Ascii NArith.

(** ** Classifications *)

Module CitationStatus.
(* citation_audit.rs 182-193: CitationStatus *)
Inductive t : Type :=
| Cited
| AbsentHandleDocumented
| MissingRequiredHandle
| ExcludedUnverified
| ExcludedProtected.
End CitationStatus.
#[export] Instance CitationStatus_eq_dec : EqDecision CitationStatus.t.
Proof. solve_decision. Defined.

Module AbsentHandleRule.
(* citation_audit.rs 199-204: AbsentHandleRule *)
Inductive t : Type := NoSpanModuleLevel | NoSpanDriftTargetUnresolved.
End AbsentHandleRule.

Module RowClassification.
(* citation_audit.rs 208-221: RowClassification *)
Record t : Type := mk {
  record_id : string;
  trust_class : string;
  status : CitationStatus.t;
  primary_handle : option string;
  absent_handle_reason : option AbsentHandleRule.t
}.
End RowClassification.

Module Classified.
(* citation_audit.rs 386-389: Classified *)
Record t : Type := mk {
  row : RowClassification.t;
  diagnostic : option (string * option string)
}.
End Classified.

(* citation_audit.rs 915-926: cited *)
Definition cited (id trust handle : string) : Classified.t :=
  Classified.mk
    (RowClassification.mk id trust CitationStatus.Cited (Some handle) None) None.

(* citation_audit.rs 928-939: missing *)
Definition missing (id trust : string) : Classified.t :=
  Classified.mk
    (RowClassification.mk id trust CitationStatus.MissingRequiredHandle None None)
    (Some ("missing_required_handle", None)).

(* citation_audit.rs 911-913: cited_or_missing *)
Definition cited_or_missing (id trust : string) (handle : option string) : Classified.t :=
  match handle with
  | None => missing id trust
  | Some handle => cited id trust handle
  end.

(** ** Trust classes *)

(* cli/mod.rs 12401-12441: trust_class_for *)
Definition trust_class_for (record : GraphRecord) : string :=
  match GraphRecord.node_kind_name record with
  | None => "other"
  | Some kind =>
      if str_in kind ["Observation"; "Decision"; "Failure"; "Lesson"] then "agent_authored"
      else if str_in kind ["Verification"; "CommandEvidence"; "CommandRun"; "TestRun"; "CIStatus";
                           "BenchmarkRun"; "CoverageReport"; "ProofResult"]
      then "verification_evidence"
      else if str_in kind ["File"; "Symbol"; "Module"; "Import"; "Commit"; "Change"; "Repository";
                           "PanicRiskSite"; "DebtMarker"; "UnsafeSite"; "DependencyDeclaration"]
      then "source_fact"
      else if str_in kind ["Task"; "AcceptanceCriterion"; "LocalTask"; "GitHubIssue"; "PR";
                           "Review"; "ExternalIdentity"; "ReviewStateTransition"; "ExternalLink";
                           "Product"; "Project"; "Plan"]
      then "project_state"
      else if str_in kind ["Artifact"; "PatchArtifact"; "FileEdit"] then "artifact"
      else if str_in kind ["LogSource"; "ErrorSignature"; "LogEvent"; "LogOccurrenceBucket"]
      then "runtime_observation"
      else "other"
  end.

(* citation_audit.rs 320-332: citation_trust_class *)
Definition citation_trust_class (record : GraphRecord) : string :=
  let base := trust_class_for record in
  if negb (base =s? "other") then base
  else
    match GraphRecord.node_kind_name record with
    | Some kind =>
        if str_in kind ["PromoteCandidate"; "PromotionPrompt"; "PromotionDecision"; "Preference";
                        "WorkflowRule"; "NamingDecision"; "Constraint"]
        then "user_context" else "other"
    | None => "other"
    end.

(** ** Handles *)

(** [handles.into_iter().flatten().find(p).cloned()]. *)
Definition first_handle (p : string → bool) (handles : list (option string)) : option string :=
  List.find p (omap id handles).
Definition filled (h : string) : bool := negb (h =s? "").
(** A handle that names something other than the record [id]. *)
Definition foreign (id h : string) : bool := filled h && negb (h =s? id).
(** [links.iter().find_map(|link| link.target_record_id.filter(p))]. *)
Definition first_target (p : string → bool) (links : list EvidenceLink.t) : option string :=
  first_handle p (EvidenceLink.target_record_id <$> links).

(* citation_audit.rs 755-760: agent_external_handle *)
Definition session_handle (agent_id session_id : option string) : option string :=
  match agent_id, session_id with
  | Some agent, Some session =>
      if filled agent && filled session then Some (agent +:+ ":" +:+ session) else None
  | _, _ => None
  end.

(* citation_audit.rs 722-762: agent_external_handle *)
Definition agent_external_handle (record : GraphRecord) : option string :=
  match record with
  | Node n =>
      let id := n.(NodeRec.id) in
      match first_handle (foreign id)
              [n.(NodeRec.source_handle); n.(NodeRec.source_artifact_path);
               n.(NodeRec.source_artifact_hash)] with
      | Some handle => Some handle
      | None =>
          match n.(NodeRec.evidence_links) ≫= first_target (foreign id) with
          | Some target => Some target
          | None =>
              session_handle n.(NodeRec.agent_id) n.(NodeRec.session_id)
          end
      end
  | _ => None
  end.

(* citation_audit.rs 765-788: project_handle *)
Definition project_handle (record : GraphRecord) : option string :=
  match record with
  | Node n =>
      first_handle filled
        [n.(NodeRec.entity_id); n.(NodeRec.parent_task_id); n.(NodeRec.source_external_link_id);
         n.(NodeRec.system_native_id); n.(NodeRec.url)]
  | _ => None
  end.

(* citation_audit.rs 795-820: artifact_handle *)
Definition artifact_handle (record : GraphRecord) : option string :=
  match record with
  | Node n =>
      first_handle filled
        [n.(NodeRec.source_handle); n.(NodeRec.source_artifact_path);
         n.(NodeRec.source_artifact_hash); n.(NodeRec.patch_bytes_hash);
         n.(NodeRec.before_hash); n.(NodeRec.after_hash)]
  | _ => None
  end.

(* citation_audit.rs 823-843: user_context_handle *)
Definition user_context_handle (record : GraphRecord) : option string :=
  match record with
  | Node n =>
      let uc := n.(NodeRec.user_context) in
      or_else
        (first_handle filled
           [uc.(UserContextFields.approval_decision_id);
            uc.(UserContextFields.materialized_record_id); uc.(UserContextFields.candidate_id)])
        (uc.(UserContextFields.supporting_evidence) ≫= first_target filled)
  | _ => None
  end.

(* citation_audit.rs 470-475: is_spanless_code_kind *)
Definition is_spanless_code_kind (kind : string) : bool :=
  str_in kind ["Module"; "Repository"; "Commit"; "Change"; "Import"].

(* citation_audit.rs 478-551: classify_code_handle *)
Definition classify_code_handle (record_id kind : string) (path : option string)
    (span : option SourceSpan.t) (drift_target : bool) : Classified.t :=
  let row id status handle reason :=
    RowClassification.mk id "source_fact" status handle reason in
  let documented reason :=
    Classified.mk (row record_id CitationStatus.AbsentHandleDocumented path (Some reason)) None in
  if record_id =s? "" then
    Classified.mk (row "" CitationStatus.MissingRequiredHandle path None)
      (Some ("missing_record_id", path))
  else
    let missing_span :=
      Classified.mk (row record_id CitationStatus.MissingRequiredHandle path None)
        (Some ("missing_span", path)) in
    let absent :=
      if drift_target then documented AbsentHandleRule.NoSpanDriftTargetUnresolved
      else if is_spanless_code_kind kind then documented AbsentHandleRule.NoSpanModuleLevel
      else missing_span in
    match path, span with
    | Some p, Some s =>
        Classified.mk
          (row record_id CitationStatus.Cited
             (Some (p +:+ ":" +:+ dec s.(SourceSpan.start_line) +:+ "-"
                      +:+ dec s.(SourceSpan.end_line))) None) None
    | Some p, None =>
        if (kind =s? "File") || (kind =s? "DependencyDeclaration") then
          Classified.mk (row record_id CitationStatus.Cited (Some p) None) None
        else absent
    | None, None => absent
    | None, Some _ => missing_span
    end.

(** ** Runtime-log provenance *)

Definition is_ascii_hexdigit (c : ascii) : bool :=
  let n := N_of_ascii c in
  is_ascii_digit c || ((65 <=? n)%N && (n <=? 70)%N) || ((97 <=? n)%N && (n <=? 102)%N).

(* citation_audit.rs 561-564: is_well_formed_log_id *)
Definition is_well_formed_log_id (id : string) : bool :=
  match strip_log_id_prefix id with
  | Some hex => (16 <=? String.length hex)%nat && str_all is_ascii_hexdigit hex
  | None => false
  end.

(* citation_audit.rs 1183-1192: tombstoned_ids *)
Definition tombstoned_ids (records : list GraphRecord) : gset string :=
  list_to_set (filter (λ id : string, Liveness.deleted (Liveness.new records) id = true)
    (omap (λ r, match r with Tombstone tb => Some tb.(TombRec.deleted_id) | _ => None end)
       records)).

(* citation_audit.rs 1205-1207: node_visible *)
Definition node_visible (id : string) (temporal_present : bool) (liveness : Liveness.t) : bool :=
  temporal_present || negb (Liveness.deleted liveness id).

(** The payload of a log source. *)
Definition log_source (n : NodeRec.t) : option LogSourcePayload.t :=
  match n.(NodeRec.log) with Some (LogPayload.LogSource src) => Some src | _ => None end.

Module LogProvenanceIndex.
(* citation_audit.rs 577-584: LogProvenanceIndex *)
Record t : Type := mk {
  sources : gmap string LogSourcePayload.t;
  captured_from : gmap string (list string);
  aggregates : gmap string (list string)
}.

(** [map.entry(k).or_default().push(v)]. *)
Definition push_target (k v : string) (m : gmap string (list string)) : gmap string (list string) :=
  <[k := default [] (m !! k) ++ [v]]> m.

(* citation_audit.rs 597-633: LogProvenanceIndex::build *)
Definition step (tombstoned : gset string) (liveness : Liveness.t) (self : t)
    (record : GraphRecord) : t :=
  match record with
  | Node n =>
      match log_source n with
      | Some src =>
          if node_visible n.(NodeRec.id) (is_some n.(NodeRec.temporal)) liveness
          then mk (<[n.(NodeRec.id) := src]> self.(sources)) self.(captured_from) self.(aggregates)
          else self
      | None => self
      end
  | Edge e =>
      if bool_decide (e.(EdgeRec.id) ∈ tombstoned) then self
      else
        match e.(EdgeRec.label) with
        | EdgeLabel.CapturedFrom =>
            mk self.(sources) (push_target e.(EdgeRec.source) e.(EdgeRec.target) self.(captured_from))
              self.(aggregates)
        | EdgeLabel.Aggregates =>
            mk self.(sources) self.(captured_from)
              (push_target e.(EdgeRec.source) e.(EdgeRec.target) self.(aggregates))
        | _ => self
        end
  | Tombstone _ => self
  end.

(* citation_audit.rs 587-639: LogProvenanceIndex::build *)
Definition build (records : list GraphRecord) : t :=
  foldl (step (tombstoned_ids records) (Liveness.new records)) (mk ∅ ∅ ∅) records.

Definition has_hash (src : LogSourcePayload.t) : bool :=
  filled src.(LogSourcePayload.source_artifact_hash).

(* citation_audit.rs 658-666: LogProvenanceIndex::captured_via *)
Definition captured_via (self : t) (id : string) : option LogSourcePayload.t :=
  let?o targets := self.(captured_from) !! id in
  head (omap (λ target, let?o src := self.(sources) !! target in
                        if has_hash src then Some src else None) targets).

(* citation_audit.rs 643-654: LogProvenanceIndex::resolve_source *)
Definition resolve_source (self : t) (id : string) : option LogSourcePayload.t :=
  match captured_via self id with
  | Some src => Some src
  | None => head (omap (captured_via self) (default [] (self.(aggregates) !! id)))
  end.
End LogProvenanceIndex.

(* citation_audit.rs 677-714: classify_log_handle *)
Definition classify_log_handle (index : LogProvenanceIndex.t) (record : GraphRecord) : Classified.t :=
  let id := GraphRecord.id record in
  let trust := "runtime_observation" in
  if negb (is_well_formed_log_id id) then
    Classified.mk (RowClassification.mk id trust CitationStatus.MissingRequiredHandle None None)
      (Some ("missing_record_id", None))
  else
    let own_source := match record with Node n => log_source n | _ => None end in
    match or_else own_source (LogProvenanceIndex.resolve_source index id) with
    | Some src =>
        if filled src.(LogSourcePayload.source_artifact_hash)
           && filled src.(LogSourcePayload.source_relative_path)
        then cited id trust (src.(LogSourcePayload.source_relative_path) +:+ "@"
                             +:+ src.(LogSourcePayload.source_artifact_hash))
        else missing id trust
    | None => missing id trust
    end.

(** ** The classifier *)

(** [s.chars().take_while(f)]; the characters [f] holds of are ASCII. *)
Fixpoint take_while (f : ascii → bool) (s : string) : string :=
  match s with
  | EmptyString => EmptyString
  | String c s => if f c then String c (take_while f s) else EmptyString
  end.

(* protected.rs 42-42: PROTECTED_HANDLE_PREFIX *)
Definition PROTECTED_HANDLE_PREFIX : string := "protected:v1:".

Section Classifier.
Context (to_string : GraphRecord → option string).

(* citation_audit.rs 445-456: scan_protected_prefix *)
Definition scan_protected_prefix (record : GraphRecord) : option string :=
  let?o json := to_string record in
  let?o parts := split_once PROTECTED_HANDLE_PREFIX json in
  let hex := take_while is_ascii_hexdigit parts.2 in
  if (16 <=? String.length hex)%nat then Some (PROTECTED_HANDLE_PREFIX +:+ hex) else None.

(* citation_audit.rs 399-442: referenced_protected_handle *)
Definition referenced_protected_handle (record : GraphRecord) : option string :=
  match scan_protected_prefix record with
  | Some handle => Some handle
  | None =>
      match record with
      | Node n =>
          let streams := omap id [n.(NodeRec.stdout_handle); n.(NodeRec.stderr_handle)] in
          let payloads := omap id [n.(NodeRec.body_handle); n.(NodeRec.diff_hunk_handle);
                                   n.(NodeRec.arguments_handle); n.(NodeRec.result_handle)] in
          match or_else (List.find (λ h, (0 <? h.(OutputHandle.bytes))%N) streams) (head payloads) with
          | Some output => Some output.(OutputHandle.hash)
          | None => (λ patch, "patch:" +:+ patch.(PatchHandle.path)) <$> n.(NodeRec.patch_handle)
          end
      | _ => None
      end
  end.

(* citation_audit.rs 847-888: classify_record *)
Definition classify_record (record : GraphRecord) : Classified.t :=
  let trust := citation_trust_class record in
  let id := GraphRecord.id record in
  match referenced_protected_handle record with
  | Some handle =>
      Classified.mk (RowClassification.mk id trust CitationStatus.ExcludedProtected (Some handle) None)
        (Some ("protected_payload", Some handle))
  | None =>
      if trust =s? "source_fact" then
        match record with
        | Node n => classify_code_handle id (NodeKind.as_str n.(NodeRec.kind))
                      n.(NodeRec.repo_relative_path) n.(NodeRec.span) false
        | _ => classify_code_handle id "" None None false
        end
      else if trust =s? "agent_authored" then cited_or_missing id trust (agent_external_handle record)
      else if trust =s? "project_state" then cited_or_missing id trust (project_handle record)
      else if trust =s? "user_context" then cited_or_missing id trust (user_context_handle record)
      else if trust =s? "artifact" then cited_or_missing id trust (artifact_handle record)
      else if id =s? "" then missing id trust
      else cited id trust id
  end.

(* citation_audit.rs 897-908: classify_record_provenanced *)
Definition classify_record_provenanced (record : GraphRecord) (index : LogProvenanceIndex.t)
    : Classified.t :=
  let classified := classify_record record in
  let row := classified.(Classified.row) in
  if (row.(RowClassification.trust_class) =s? "runtime_observation")
     && match row.(RowClassification.status) with
        | CitationStatus.ExcludedProtected | CitationStatus.ExcludedUnverified => false
        | _ => true
        end
  then classify_log_handle index record
  else classified.

(* citation_audit.rs 342-344: classify_record_external *)
Definition classify_record_external (record : GraphRecord) : RowClassification.t :=
  (classify_record record).(Classified.row).

(** [CitationProvenance] wraps the index. *)
(* citation_audit.rs 373-378: classify_record_external_with_provenance *)
Definition classify_record_external_with_provenance (record : GraphRecord)
    (provenance : LogProvenanceIndex.t) : RowClassification.t :=
  (classify_record_provenanced record provenance).(Classified.row).
End Classifier.

(** ** What the provenance index holds *)
Section Provenance.
Context (records : list GraphRecord).
Let gone (id : string) : bool := Liveness.deleted (Liveness.new records) id.
Let idx : LogProvenanceIndex.t := LogProvenanceIndex.build records.

Lemma tombstoned_ids_spec id : id ∈ tombstoned_ids records ↔ gone id = true.
Proof.
  unfold tombstoned_ids, gone. rewrite elem_of_list_to_set, list_elem_of_filter.
  split; [by intros [? _]|]. intros Hd. split; [done|].
  pose proof Hd as Hd'. unfold Liveness.deleted in Hd'. apply andb_prop in Hd' as [_ Ht].
  unfold Liveness.tombstone_active in Ht.
  destruct (Liveness.last_tomb (Liveness.new records) !! id) as [ti|] eqn:Eti; [|done].
  apply (inv_tomb _ _ (new_inv_holds records)) in Eti as [(r & Hr & Hid) _].
  destruct r as [| |tb]; [done..|]. apply String.eqb_eq in Hid.
  apply list_elem_of_omap. exists (Tombstone tb). split; [by eapply list_elem_of_lookup_2|].
  by rewrite <-Hid.
Qed.

(** The log source a record writes under [id], if it is one the readers may see. *)
Definition source_write (id : string) (r : GraphRecord) : option LogSourcePayload.t :=
  match r with
  | Node n =>
      if (n.(NodeRec.id) =s? id) && node_visible id (is_some n.(NodeRec.temporal)) (Liveness.new records)
      then log_source n else None
  | _ => None
  end.
(** The source known under [id]: the last one written. *)
Definition known_source (id : string) (src : LogSourcePayload.t) : Prop :=
  last (omap (source_write id) records) = Some src.
(** A link of the log that is not deleted. *)
Definition link_target (label : EdgeLabel.t) (id : string) (r : GraphRecord) : option string :=
  match r with
  | Edge e =>
      if bool_decide (e.(EdgeRec.label) = label) && (e.(EdgeRec.source) =s? id)
         && negb (gone e.(EdgeRec.id))
      then Some e.(EdgeRec.target) else None
  | _ => None
  end.
Definition links (label : EdgeLabel.t) (x y : string) : Prop :=
  ∃ e, Edge e ∈ records ∧ e.(EdgeRec.label) = label ∧ e.(EdgeRec.source) = x
    ∧ e.(EdgeRec.target) = y ∧ gone e.(EdgeRec.id) = false.
(** A source with an artifact hash that [id] was captured from, or a signature [id]
    aggregates. *)
Definition reaches_source (id : string) (src : LogSourcePayload.t) : Prop :=
  ∃ x y, (x = id ∨ links EdgeLabel.Aggregates id x) ∧ links EdgeLabel.CapturedFrom x y
    ∧ known_source y src ∧ src.(LogSourcePayload.source_artifact_hash) ≠ "".

Let index_of (l : list GraphRecord) : LogProvenanceIndex.t :=
  foldl (LogProvenanceIndex.step (tombstoned_ids records) (Liveness.new records))
    (LogProvenanceIndex.mk ∅ ∅ ∅) l.

Lemma index_sources l id :
  LogProvenanceIndex.sources (index_of l) !! id = last (omap (source_write id) l).
Proof.
  induction l as [|r l IH] using rev_ind; [done|]. unfold index_of. rewrite foldl_app, omap_app.
  cbn [foldl]. fold (index_of l). destruct r as [n|e|tb]; cbn [LogProvenanceIndex.step omap list_omap source_write].
  - destruct (log_source n) as [src|]; cbn.
    + destruct (decide (NodeRec.id n = id)) as [->|Hne].
      * rewrite String.eqb_refl. cbn [andb]. destruct (node_visible id _ _); cbn.
        -- by rewrite lookup_insert_eq, last_snoc.
        -- by rewrite app_nil_r.
      * rewrite (proj2 (String.eqb_neq _ _) Hne). cbn [andb]. rewrite app_nil_r.
        destruct (node_visible _ _ _); cbn; [by rewrite lookup_insert_ne|done].
    + destruct (_ && _); by rewrite app_nil_r.
  - rewrite app_nil_r, <-IH. destruct (bool_decide _); [done|]. by destruct (EdgeRec.label e).
  - by rewrite app_nil_r.
Qed.

Lemma push_target_lookup k v m id :
  default [] (LogProvenanceIndex.push_target k v m !! id)
  = default [] (m !! id) ++ (if k =s? id then [v] else []).
Proof.
  unfold LogProvenanceIndex.push_target. destruct (decide (k = id)) as [->|Hne].
  - by rewrite lookup_insert_eq, String.eqb_refl.
  - by rewrite lookup_insert_ne, (proj2 (String.eqb_neq _ _) Hne), app_nil_r.
Qed.

Lemma index_targets l id :
  default [] (LogProvenanceIndex.captured_from (index_of l) !! id)
    = omap (link_target EdgeLabel.CapturedFrom id) l
  ∧ default [] (LogProvenanceIndex.aggregates (index_of l) !! id)
    = omap (link_target EdgeLabel.Aggregates id) l.
Proof.
  induction l as [|r l [IHc IHa]] using rev_ind; [done|]. unfold index_of.
  rewrite foldl_app, !omap_app. cbn [foldl]. fold (index_of l).
  destruct r as [n|e|tb]; cbn [LogProvenanceIndex.step omap list_omap link_target].
  - rewrite !app_nil_r. destruct (log_source n); [|done]. by destruct (node_visible _ _ _).
  - pose proof (tombstoned_ids_spec (EdgeRec.id e)) as Ht.
    destruct (gone (EdgeRec.id e)), (bool_decide_reflect (EdgeRec.id e ∈ tombstoned_ids records));
      [|naive_solver..|]; cbn [negb].
    + rewrite !andb_false_r, !app_nil_r. done.
    + rewrite !andb_true_r. destruct (EdgeRec.label e); cbn [LogProvenanceIndex.captured_from
        LogProvenanceIndex.aggregates]; rewrite ?push_target_lookup, ?IHc, ?IHa; cbn;
        rewrite ?app_nil_r; try done; destruct (_ =s? _); by rewrite ?app_nil_r.
  - by rewrite !app_nil_r.
Qed.

Lemma link_target_spec label id y :
  y ∈ omap (link_target label id) records ↔ links label id y.
Proof.
  rewrite list_elem_of_omap. unfold links. split.
  - intros ([|e|] & Hr & Hy); try done. cbn in Hy.
    destruct (bool_decide_reflect (EdgeRec.label e = label)) as [<-|]; [|done].
    destruct (EdgeRec.source e =s? id) eqn:Es; [|done]. apply String.eqb_eq in Es.
    destruct (gone (EdgeRec.id e)) eqn:Eg; [done|]. simplify_eq/=. exists e. by split_and!.
  - intros (e & Hr & <- & <- & <- & Hg). exists (Edge e). split; [done|]. cbn.
    by rewrite bool_decide_true, String.eqb_refl, Hg.
Qed.

Lemma head_omap {A B} (f : A → option B) l :
  (∀ y, head (omap f l) = Some y → ∃ x, x ∈ l ∧ f x = Some y)
  ∧ (∀ x, x ∈ l → is_Some (f x) → is_Some (head (omap f l))).
Proof.
  split.
  - intros y Hy. apply list_elem_of_omap. destruct (omap f l); simplify_eq/=. by left.
  - intros x Hx [y Hy]. assert (y ∈ omap f l) as Hin by (apply list_elem_of_omap; eauto).
    destruct (omap f l); [by apply elem_of_nil in Hin|done].
Qed.

Definition captured (x : string) (src : LogSourcePayload.t) : Prop :=
  ∃ y, links EdgeLabel.CapturedFrom x y ∧ known_source y src
    ∧ src.(LogSourcePayload.source_artifact_hash) ≠ "".

Lemma captured_via_spec x :
  (∀ src, LogProvenanceIndex.captured_via idx x = Some src → captured x src)
  ∧ (∀ src, captured x src → is_Some (LogProvenanceIndex.captured_via idx x)).
Proof.
  pose proof (proj1 (index_targets records x)) as Ht. change (index_of records) with idx in Ht.
  set (look := λ target : string, let?o src := LogProvenanceIndex.sources idx !! target in
                 if LogProvenanceIndex.has_hash src then Some src else None).
  assert (LogProvenanceIndex.captured_via idx x
    = head (omap look (omap (link_target EdgeLabel.CapturedFrom x) records))) as ->.
  { rewrite <-Ht. unfold LogProvenanceIndex.captured_via.
    by destruct (LogProvenanceIndex.captured_from idx !! x). }
  assert (∀ y src, look y = Some src ↔ known_source y src ∧ LogSourcePayload.source_artifact_hash src ≠ "")
    as Hlook.
  { intros y src. unfold look, known_source. rewrite <-index_sources.
    change (LogProvenanceIndex.sources (index_of records)) with (LogProvenanceIndex.sources idx).
    destruct (LogProvenanceIndex.sources idx !! y) as [s|]; cbn [mbind option_bind]; [|naive_solver].
    unfold LogProvenanceIndex.has_hash, filled.
    destruct (String.eqb_spec (LogSourcePayload.source_artifact_hash s) ""); cbn [negb]; naive_solver. }
  destruct (head_omap look (omap (link_target EdgeLabel.CapturedFrom x) records)) as [H1 H2]. split.
  - intros src (y & Hy & Hs)%H1. exists y. by rewrite <-link_target_spec, <-Hlook.
  - intros src (y & Hy & Hs). apply (H2 y); [by apply link_target_spec|].
    exists src. by apply Hlook.
Qed.

Lemma resolve_source_spec id :
  (∀ src, LogProvenanceIndex.resolve_source idx id = Some src → reaches_source id src)
  ∧ (∀ src, reaches_source id src → is_Some (LogProvenanceIndex.resolve_source idx id)).
Proof.
  assert (∀ src, reaches_source id src ↔ ∃ x, (x = id ∨ links EdgeLabel.Aggregates id x) ∧ captured x src)
    as Hr by (unfold reaches_source, captured; naive_solver).
  pose proof (proj2 (index_targets records id)) as Ht.
  change (index_of records) with idx in Ht. unfold LogProvenanceIndex.resolve_source. rewrite Ht.
  destruct (captured_via_spec id) as [Hc1 Hc2].
  destruct (head_omap (LogProvenanceIndex.captured_via idx) (omap (link_target EdgeLabel.Aggregates id) records))
    as [H1 H2].
  destruct (LogProvenanceIndex.captured_via idx id) as [s|] eqn:E; split; intros src.
  - intros [= ->]. apply Hr. eauto.
  - done.
  - intros (x & Hx%link_target_spec & Hs)%H1. apply Hr. exists x. split; [by right|].
    by apply captured_via_spec.
  - intros (x & [->|Hx] & Hs)%Hr.
    + apply Hc2 in Hs. by destruct Hs.
    + apply (H2 x); [by apply link_target_spec|]. by eapply captured_via_spec.
Qed.
End Provenance.

(** ** Properties *)
Section Properties.
Context (to_string : GraphRecord → option string).
Abbreviation classify := (classify_record_external_with_provenance to_string).
Abbreviation protected := (referenced_protected_handle to_string).

(** A payload with the hash and the path a citation names. *)
Definition complete_source (src : LogSourcePayload.t) : Prop :=
  src.(LogSourcePayload.source_artifact_hash) ≠ ""
  ∧ src.(LogSourcePayload.source_relative_path) ≠ "".
Definition source_citation (src : LogSourcePayload.t) : string :=
  src.(LogSourcePayload.source_relative_path) +:+ "@" +:+ src.(LogSourcePayload.source_artifact_hash).
Definition own_source (record : GraphRecord) : option LogSourcePayload.t :=
  match record with Node n => log_source n | _ => None end.
(** The sources a runtime row may be cited through. *)
Definition row_source (records : list GraphRecord) (record : GraphRecord)
    (src : LogSourcePayload.t) : Prop :=
  match own_source record with
  | Some own => src = own
  | None => reaches_source records (GraphRecord.id record) src
  end.

Lemma filled_spec s : filled s = true ↔ s ≠ "".
Proof. unfold filled. rewrite negb_true_iff. apply String.eqb_neq. Qed.

Lemma complete_source_spec src :
  filled src.(LogSourcePayload.source_artifact_hash)
  && filled src.(LogSourcePayload.source_relative_path) = true ↔ complete_source src.
Proof. unfold complete_source. by rewrite andb_true_iff, !filled_spec. Qed.

(** A reference to a protected payload decides the row, whatever the class. *)
Lemma classify_protected index record h :
  protected record = Some h →
  classify record index
  = RowClassification.mk (GraphRecord.id record) (citation_trust_class record)
      CitationStatus.ExcludedProtected (Some h) None.
Proof.
  intros Hp. unfold classify_record_external_with_provenance, classify_record_provenanced,
    classify_record. rewrite Hp. cbn [Classified.row RowClassification.status].
  by rewrite andb_false_r.
Qed.

Lemma classify_runtime index record :
  citation_trust_class record = "runtime_observation" → protected record = None →
  classify record index = Classified.row (classify_log_handle index record).
Proof.
  intros Ht Hp. unfold classify_record_external_with_provenance, classify_record_provenanced,
    classify_record. rewrite Hp, Ht. cbn. by destruct (_ =s? "").
Qed.

(** A runtime-log row whose record refers to no protected payload is cited or missing its
    handle. It is cited only with a well-formed log id and a log source that carries path and
    hash: its own payload, or a visible source that links that are not deleted lead to from the
    row or from a signature it aggregates. It is cited whenever it has such an own
    payload, or when every source of the log it reaches has a path. It is never cited by its
    own id alone. *)
Theorem runtime_row_cited records record :
  citation_trust_class record = "runtime_observation" → protected record = None →
  let row := classify record (LogProvenanceIndex.build records) in
  let id := GraphRecord.id record in
  (row.(RowClassification.status) = CitationStatus.Cited
   ∨ row.(RowClassification.status) = CitationStatus.MissingRequiredHandle)
  ∧ (row.(RowClassification.status) = CitationStatus.Cited →
     is_well_formed_log_id id = true
     ∧ ∃ src, row_source records record src ∧ complete_source src
         ∧ row.(RowClassification.primary_handle) = Some (source_citation src))
  ∧ (is_well_formed_log_id id = true → (∃ src, row_source records record src) →
     (∀ src, row_source records record src → complete_source src) →
     row.(RowClassification.status) = CitationStatus.Cited).
Proof.
  intros Ht Hp. rewrite (classify_runtime _ _ Ht Hp). cbn zeta. unfold classify_log_handle.
  destruct (is_well_formed_log_id (GraphRecord.id record)); cbn [negb].
  2: { cbn. split; [by right|]. split; [done|]. done. }
  fold (own_source record). unfold row_source.
  pose proof (resolve_source_spec records (GraphRecord.id record)) as [Hr1 Hr2].
  destruct (own_source record) as [own|]; cbn [or_else].
  - pose proof (complete_source_spec own) as Hc. destruct (_ && _); cbn.
    + split; [by left|]. split; [|done]. intros _. split; [done|]. exists own. naive_solver.
    + split; [by right|]. split; [done|]. intros _ _ Hall. by apply Hc in Hall.
  - destruct (LogProvenanceIndex.resolve_source _ _) as [src|] eqn:E.
    + pose proof (complete_source_spec src) as Hc. destruct (_ && _); cbn.
      * split; [by left|]. split; [|done]. intros _. split; [done|]. exists src. naive_solver.
      * split; [by right|]. split; [done|]. intros _ _ Hall.
        by specialize (proj2 Hc (Hall src (Hr1 src eq_refl))).
    + cbn. split; [by right|]. split; [done|]. intros _ [src Hs] _. by destruct (Hr2 _ Hs).
Qed.

(** What may stand behind an agent-authored claim: a source or artifact handle or an evidence
    target other than the claim itself, or the session that made it. *)
Definition claim_source (n : NodeRec.t) (h : string) : Prop :=
  (h ≠ "" ∧ h ≠ n.(NodeRec.id)
   ∧ (Some h ∈ [n.(NodeRec.source_handle); n.(NodeRec.source_artifact_path);
                n.(NodeRec.source_artifact_hash)]
      ∨ ∃ links link, n.(NodeRec.evidence_links) = Some links ∧ link ∈ links
          ∧ link.(EvidenceLink.target_record_id) = Some h))
  ∨ ∃ agent session, n.(NodeRec.agent_id) = Some agent ∧ n.(NodeRec.session_id) = Some session
      ∧ agent ≠ "" ∧ session ≠ "" ∧ h = agent +:+ ":" +:+ session.

Lemma first_handle_spec p handles :
  (∀ h, first_handle p handles = Some h → Some h ∈ handles ∧ p h = true)
  ∧ (∀ h, Some h ∈ handles → p h = true → is_Some (first_handle p handles)).
Proof.
  unfold first_handle.
  assert (∀ h, h ∈ omap id handles ↔ Some h ∈ handles) as Hin.
  { intros h. rewrite list_elem_of_omap. split; [by intros (o & Ho & ?); simplify_eq/=|]. intros Ho. by exists (Some h). }
  split.
  - intros h [Hh Hp]%find_some. split; [|done]. by apply Hin, list_elem_of_In.
  - intros h Hh Hp. destruct (List.find p (omap id handles)) as [x|] eqn:E; [done|].
    eapply find_none in E; [|apply list_elem_of_In, Hin, Hh]. congruence.
Qed.

Lemma foreign_spec id h : foreign id h = true ↔ h ≠ "" ∧ h ≠ id.
Proof. unfold foreign. by rewrite andb_true_iff, filled_spec, negb_true_iff, String.eqb_neq. Qed.

Lemma first_target_spec p links :
  (∀ h, first_target p links = Some h →
     p h = true ∧ ∃ link, link ∈ links ∧ link.(EvidenceLink.target_record_id) = Some h)
  ∧ (∀ h link, link ∈ links → link.(EvidenceLink.target_record_id) = Some h → p h = true →
     is_Some (first_target p links)).
Proof.
  unfold first_target. destruct (first_handle_spec p (EvidenceLink.target_record_id <$> links)) as [H1 H2].
  split.
  - intros h [(link & Hl & Hin)%list_elem_of_fmap Hp]%H1. eauto.
  - intros h link Hin Hl. apply H2, list_elem_of_fmap. eauto.
Qed.

Lemma session_handle_spec agent_id session_id h :
  session_handle agent_id session_id = Some h ↔
  ∃ agent session, agent_id = Some agent ∧ session_id = Some session
    ∧ agent ≠ "" ∧ session ≠ "" ∧ h = agent +:+ ":" +:+ session.
Proof.
  unfold session_handle. destruct agent_id as [a|], session_id as [s|]; [|naive_solver..].
  pose proof (filled_spec a). pose proof (filled_spec s).
  destruct (filled a), (filled s); cbn [andb]; naive_solver.
Qed.

Lemma agent_external_handle_spec n :
  (∀ h, agent_external_handle (Node n) = Some h → claim_source n h)
  ∧ (∀ h, claim_source n h → is_Some (agent_external_handle (Node n))).
Proof.
  unfold agent_external_handle, claim_source. setoid_rewrite <-session_handle_spec.
  destruct (first_handle_spec (foreign n.(NodeRec.id))
    [n.(NodeRec.source_handle); n.(NodeRec.source_artifact_path); n.(NodeRec.source_artifact_hash)])
    as [H1 H2].
  destruct (first_handle _ _) as [h0|].
  { split; [|done]. intros h [= <-]. destruct (H1 h0 eq_refl) as [Hin [? ?]%foreign_spec]. left. auto. }
  assert ((∀ h, n.(NodeRec.evidence_links) ≫= first_target (foreign n.(NodeRec.id)) = Some h →
      h ≠ "" ∧ h ≠ n.(NodeRec.id) ∧ ∃ links link, n.(NodeRec.evidence_links) = Some links ∧ link ∈ links
        ∧ link.(EvidenceLink.target_record_id) = Some h)
    ∧ ∀ h links link, h ≠ "" → h ≠ n.(NodeRec.id) → n.(NodeRec.evidence_links) = Some links →
        link ∈ links → link.(EvidenceLink.target_record_id) = Some h →
        is_Some (n.(NodeRec.evidence_links) ≫= first_target (foreign n.(NodeRec.id)))) as [H3 H4].
  { destruct (n.(NodeRec.evidence_links)) as [links|]; cbn [mbind option_bind]; [|naive_solver].
    destruct (first_target_spec (foreign n.(NodeRec.id)) links) as [H3 H4]. split.
    - intros h Hh. destruct (H3 h Hh) as [[? ?]%foreign_spec (l & ? & ?)]. eauto 10.
    - intros h ? link ? ? [= <-] Hin Hl. apply (H4 h link Hin Hl). by apply foreign_spec. }
  destruct (_ ≫= _) as [h0|].
  { split; [|done]. intros h [= <-]. destruct (H3 h0 eq_refl) as (? & ? & ?). left. auto. }
  split; [intros h Hs; by right|]. intros h [(Hne & Hid & [Hin|(links & link & Hl & Hin & Ht)])|Hs]; [..|by rewrite Hs].
  - destruct (H2 h Hin); [by apply foreign_spec|done].
  - by destruct (H4 h links link).
Qed.

(** An agent-authored row whose record refers to no protected payload is cited exactly when
    something other than the claim stands behind it, with such a handle as its citation, and is
    missing its handle otherwise: a claim is never its own evidence. *)
Theorem agent_claim_never_own_evidence index n :
  citation_trust_class (Node n) = "agent_authored" → protected (Node n) = None →
  let row := classify (Node n) index in
  (row.(RowClassification.status) = CitationStatus.Cited ↔ ∃ h, claim_source n h)
  ∧ (row.(RowClassification.status) ≠ CitationStatus.Cited →
     row.(RowClassification.status) = CitationStatus.MissingRequiredHandle)
  ∧ (row.(RowClassification.status) = CitationStatus.Cited →
     ∃ h, row.(RowClassification.primary_handle) = Some h ∧ claim_source n h).
Proof.
  intros Ht Hp. unfold classify_record_external_with_provenance, classify_record_provenanced,
    classify_record. rewrite Hp, Ht. destruct (agent_external_handle_spec n) as [H1 H2].
  revert H1 H2. generalize (agent_external_handle (Node n)). intros [h|] H1 H2; cbn.
  - split; [|split; [done|]]; [split; [|done]|]; eauto.
  - split; [|by split]. split; [done|]. intros [h Hh]. by destruct (H2 h Hh).
Qed.
End Properties.

(** ** A concrete log *)
Module CitationDemo.
Definition source (id path hash : string) : GraphRecord :=
  GraphRecord.on_node (λ n, n{{ NodeRec.log :=
      Some (LogPayload.LogSource (LogSourcePayload.mk path "1" hash 3 "r")) }})
    (GraphRecord.node id NodeKind.LogSource None None None "").
Definition row (id : string) (kind : NodeKind.t) : GraphRecord :=
  GraphRecord.node id kind None None None "".
Definition link (label : EdgeLabel.t) (x y : string) : GraphRecord :=
  GraphRecord.edge (λ s, s) label x y None "".
Definition S1 : string := "log:v3:00000000000000aa".
Definition S2 : string := "log:v3:00000000000000ab".
Definition SIG : string := "log:v3:00000000000000ac".
Definition BUCKET : string := "log:v3:00000000000000ad".
(** [first] is the path of the source the signature was captured from first. *)
Definition log (first : string) : list GraphRecord :=
  [source S1 first "h1"; source S2 "b.log" "h2"; row SIG NodeKind.ErrorSignature;
   row BUCKET NodeKind.LogOccurrenceBucket; link EdgeLabel.Aggregates BUCKET SIG;
   link EdgeLabel.CapturedFrom SIG S1; link EdgeLabel.CapturedFrom SIG S2].
(** A printer that shows the id. *)
Definition print (r : GraphRecord) : option string := Some (GraphRecord.id r).
Definition status_of (first : string) (r : GraphRecord) : CitationStatus.t :=
  RowClassification.status (classify_record_external_with_provenance print r
    (LogProvenanceIndex.build (log first))).
(** A claim whose only handle is its own id, made in a session. *)
Definition claim : GraphRecord :=
  GraphRecord.on_node (λ n, n{{ NodeRec.source_handle := Some "o1";
      NodeRec.agent_id := Some "a"; NodeRec.session_id := Some "s" }})
    (GraphRecord.node "o1" NodeKind.Observation None None None "").
End CitationDemo.

Example citation_statuses :
  map (CitationDemo.status_of "a.log")
    [CitationDemo.row CitationDemo.SIG NodeKind.ErrorSignature;
     CitationDemo.row CitationDemo.BUCKET NodeKind.LogOccurrenceBucket;
     CitationDemo.row "log:v3:00000000000000ae" NodeKind.LogEvent;
     CitationDemo.source "log:v3:bad" "a.log" "h"; CitationDemo.claim;
     CitationDemo.row "o2" NodeKind.Failure; CitationDemo.row "m" NodeKind.Module]
  = [CitationStatus.Cited; CitationStatus.Cited; CitationStatus.MissingRequiredHandle;
     CitationStatus.MissingRequiredHandle; CitationStatus.Cited;
     CitationStatus.MissingRequiredHandle; CitationStatus.AbsentHandleDocumented].
Proof. vm_compute. reflexivity. Qed.

(** The walk stops at the first source with a hash and only then looks at its path: a
    signature captured from a source without a path and from a complete one is not cited. *)
Theorem pathless_source_hides_complete_one :
  (∃ src, reaches_source (CitationDemo.log "") CitationDemo.SIG src ∧ complete_source src)
  ∧ CitationDemo.status_of "" (CitationDemo.row CitationDemo.SIG NodeKind.ErrorSignature)
    = CitationStatus.MissingRequiredHandle.
Proof.
  split; [|vm_compute; reflexivity].
  exists (LogSourcePayload.mk "b.log" "1" "h2" 3 "r"). split; [|by split].
  exists CitationDemo.SIG, CitationDemo.S2. split; [by left|].
  split; [|by split; [vm_compute; reflexivity|]].
  eexists. split; [do 6 right; by left|]. split_and!; vm_compute; reflexivity.
Qed.

Lemma runtime_row_cited_witness :
  CitationDemo.status_of "a.log" (CitationDemo.row CitationDemo.SIG NodeKind.ErrorSignature)
    = CitationStatus.Cited ∨
  CitationDemo.status_of "a.log" (CitationDemo.row CitationDemo.SIG NodeKind.ErrorSignature)
    = CitationStatus.MissingRequiredHandle.
Proof.
  apply (runtime_row_cited CitationDemo.print (CitationDemo.log "a.log")
           (CitationDemo.row CitationDemo.SIG NodeKind.ErrorSignature));
    vm_compute; reflexivity.
Defined.

Lemma agent_claim_never_own_evidence_witness :
  ∃ n, Node n = CitationDemo.claim
    ∧ (CitationDemo.status_of "" (Node n) = CitationStatus.Cited ↔ ∃ h, claim_source n h).
Proof.
  eexists. split; [reflexivity|].
  refine (proj1 (agent_claim_never_own_evidence CitationDemo.print
    (LogProvenanceIndex.build (CitationDemo.log "")) _ _ _)); vm_compute; reflexivity.
Defined.
