(* ===== verification/Bundle.v ===== *)
(** * Evidence bundles

    [src/src/bundle.rs]: the records connected to the roots a selector names, scrubbed, hashed
    and put in a canonical order behind a citation gate, and the offline verification of such a
    bundle. [to_string] is [serde_json::to_string] of a record ([None] is its error) and
    [blake3_hex] the external hasher. The messages of errors and verdicts are kept as the
    arguments of their format strings. *)
From S2P Require Import Prelude RustStr Ir IrOps SecretPatterns Redaction WorkList CitationAudit.
From Stdlib Require Import SpecFloat.

Module BundleManifest.
(* bundle.rs 8-25: BundleManifest *)
Record t : Type := mk {
  root_selector : string;
  source_query : string;
  snapshot : option SnapshotHead.t;
  repository_identity : string;
  egregore_version : string;
  included_record_counts : gmap string nat;
  omitted_record_counts : nat;
  root_record_ids : list string
}.
End BundleManifest.

Module BundleRecord.
(* bundle.rs 29-34: BundleRecord *)
Record t : Type := mk { record : GraphRecord; hash : string }.
End BundleRecord.

Module UnresolvedLink.
(* bundle.rs 38-45: UnresolvedLink *)
Record t : Type := mk { source_id : string; target_handle : string; relation : string }.
(** The derived order. *)
Definition cmp : t → t → comparison :=
  cmp_then (cmp_on source_id String.compare)
    (cmp_then (cmp_on target_handle String.compare) (cmp_on relation String.compare)).
End UnresolvedLink.

Module EvidenceBundle.
(* bundle.rs 49-56: EvidenceBundle *)
Record t : Type := mk {
  manifest : BundleManifest.t;
  records : list BundleRecord.t;
  unresolved_links : list UnresolvedLink.t
}.
End EvidenceBundle.

(** The messages of the errors and the verdicts. *)
Inductive Detail : Type :=
| InvalidSelector (selector : string)
| NoRecordsMatched (selector : string)
| IntegrityStable
| CountMismatch (manifest_sum records_len : nat)
| SerializationFailed (index : nat)
| HashMismatch (index : nat) (record_id expected computed : string)
| OrderingUnstable (index : nat) (a_id b_id : string)
| CoverageMet
| RootMissing (root_id : string)
| OverallCoverage (coverage_pct : spec_float)
| NonCodeCoverage
| SafetyClean
| SecretFound (record_id class : string)
| FieldRetained (record_id field : string).

Module VerificationVerdict.
(* bundle.rs 60-65: VerificationVerdict *)
Record t : Type := mk { passed : bool; detail : Detail }.
End VerificationVerdict.

Module VerificationReport.
(* bundle.rs 69-78: VerificationReport *)
Record t : Type := mk {
  ok : bool;
  integrity : VerificationVerdict.t;
  coverage : VerificationVerdict.t;
  safety : VerificationVerdict.t
}.
End VerificationReport.

(** ** References *)

(** [if let Some(id) = field { refs.push(id) }], field by field. *)
(* bundle.rs 82-145: collect_references *)
Definition collect_references (record : GraphRecord) : list string :=
  match record with
  | Edge e => [e.(EdgeRec.source); e.(EdgeRec.target)]
  | Node n =>
      omap id
        [n.(NodeRec.superseded_by); n.(NodeRec.parent_task_id); n.(NodeRec.verification_link_id);
         n.(NodeRec.source_external_link_id); n.(NodeRec.linked_patch_id);
         n.(NodeRec.linked_turn_id); n.(NodeRec.produced_evidence_id);
         n.(NodeRec.user_context).(UserContextFields.approval_decision_id);
         n.(NodeRec.user_context).(UserContextFields.materialized_record_id)]
      ++ omap EvidenceLink.target_record_id (default [] n.(NodeRec.evidence_links))
      ++ match n.(NodeRec.source_snapshot) with
         | Some snapshot => [snapshot.(SourceSnapshotPayload.repository_id)]
         | None => []
         end
  | Tombstone tb => [tb.(TombRec.deleted_id)]
  end.

(** The calls of [add_ref], in order, and what the edges and tombstones link to: the other
    end of a link with the name of the relation. *)
(* bundle.rs 454-523: export_bundle *)
Definition record_links (record : GraphRecord) : list (string * string) :=
  match record with
  | Edge e =>
      let label_str := EdgeLabel.as_str e.(EdgeRec.label) in
      [(e.(EdgeRec.source), label_str); (e.(EdgeRec.target), label_str)]
  | Node n =>
      let add_ref relation target := (λ target, (target, relation)) <$> target in
      omap id
        [add_ref "superseded_by" n.(NodeRec.superseded_by);
         add_ref "parent_task_id" n.(NodeRec.parent_task_id);
         add_ref "verification_link_id" n.(NodeRec.verification_link_id);
         add_ref "source_external_link_id" n.(NodeRec.source_external_link_id);
         add_ref "linked_patch_id" n.(NodeRec.linked_patch_id);
         add_ref "linked_turn_id" n.(NodeRec.linked_turn_id);
         add_ref "produced_evidence_id" n.(NodeRec.produced_evidence_id);
         add_ref "approval_decision_id"
           n.(NodeRec.user_context).(UserContextFields.approval_decision_id);
         add_ref "materialized_record_id"
           n.(NodeRec.user_context).(UserContextFields.materialized_record_id)]
      ++ omap (λ link, add_ref link.(EvidenceLink.relation) link.(EvidenceLink.target_record_id))
           (default [] n.(NodeRec.evidence_links))
      ++ match n.(NodeRec.source_snapshot) with
         | Some snapshot => [(snapshot.(SourceSnapshotPayload.repository_id), "repository_snapshot")]
         | None => []
         end
  | Tombstone tb => [(tb.(TombRec.deleted_id), "deleted_id")]
  end.

(** ** Roots *)

(** The closure of the filter of [find_root_records]. *)
(* bundle.rs 154-205: find_root_records *)
Definition matches_selector (prefix value : string) (rec : GraphRecord) : bool :=
  if prefix =s? "id" then GraphRecord.id rec =s? value
  else
    match rec with
    | Node n =>
        let kind := NodeKind.as_str n.(NodeRec.kind) in
        if prefix =s? "symbol" then
          bool_decide (n.(NodeRec.kind) = NodeKind.Symbol) && opt_str_eqb n.(NodeRec.name) (Some value)
        else if prefix =s? "file" then
          bool_decide (n.(NodeRec.kind) = NodeKind.File)
          && opt_str_eqb n.(NodeRec.repo_relative_path) (Some value)
        else if prefix =s? "task" then
          (kind =s? "Task")
          && (opt_str_eqb n.(NodeRec.entity_id) (Some value) || (n.(NodeRec.id) =s? value))
        else if prefix =s? "memory" then
          str_in kind ["Observation"; "Decision"; "Failure"; "Lesson"] && (n.(NodeRec.id) =s? value)
        else false
    | _ => false
    end.

(* bundle.rs 147-217: find_root_records *)
Definition find_root_records (records : list GraphRecord) (selector : string)
    : result (list GraphRecord) Detail :=
  match split_once ":" selector with
  | None => Err (InvalidSelector selector)
  | Some (prefix, value) =>
      match filter (λ rec, matches_selector prefix value rec = true) records with
      | [] => Err (NoRecordsMatched selector)
      | roots => Ok roots
      end
  end.

(** ** The closure *)

(** [records_by_id]: a later version of an id replaces an earlier one. *)
(* bundle.rs 426-429: export_bundle *)
Definition index_by_id (records : list GraphRecord) : gmap string GraphRecord :=
  foldl (λ m rec, <[GraphRecord.id rec := rec]> m) ∅ records.

(** The entries [adj] gets for one record: every link, from both of its ends. *)
(* bundle.rs 435-524: export_bundle *)
Definition adjacency_entries (record : GraphRecord) : list (string * (string * string)) :=
  let id := GraphRecord.id record in
  match record with
  | Edge e =>
      let label_str := EdgeLabel.as_str e.(EdgeRec.label) in
      [(id, (e.(EdgeRec.source), label_str)); (id, (e.(EdgeRec.target), label_str));
       (e.(EdgeRec.source), (id, label_str)); (e.(EdgeRec.target), (id, label_str))]
  | _ =>
      record_links record ≫= λ link, [(id, link); (link.1, (id, link.2))]
  end.

(* bundle.rs 432-525: export_bundle *)
Definition build_adj (records : list GraphRecord) : gmap string (list (string * string)) :=
  foldl (λ adj entry, <[entry.1 := default [] (adj !! entry.1) ++ [entry.2]]> adj) ∅
    (records ≫= adjacency_entries).

(* bundle.rs 552-556: export_bundle *)
Definition is_outgoing (rec : GraphRecord) (v : string) : bool :=
  match rec with
  | Edge e => (e.(EdgeRec.source) =s? v) || (e.(EdgeRec.target) =s? v)
  | Node _ => bool_decide (v ∈ collect_references rec)
  | Tombstone tb => tb.(TombRec.deleted_id) =s? v
  end.

Section Walk.
Context (records_by_id : gmap string GraphRecord) (adj : gmap string (list (string * string))).

(* bundle.rs 545-565: export_bundle *)
Definition visit_neighbor (u : string) (rec : GraphRecord)
    (st : (gset string * list string) * list UnresolvedLink.t) (neighbor : string * string)
    : (gset string * list string) * list UnresolvedLink.t :=
  let '(v, relation) := neighbor in
  if is_some (records_by_id !! v) then (enqueue st.1 v, st.2)
  else if is_outgoing rec v then (st.1, st.2 ++ [UnresolvedLink.mk u v relation])
  else st.

(** [None] is the end of the fuel. *)
(* bundle.rs 540-568: export_bundle *)
Fixpoint bfs (fuel : nat) (visited : gset string) (queue : list string)
    (included : list GraphRecord) (unresolved : list UnresolvedLink.t)
    : option (list GraphRecord * list UnresolvedLink.t) :=
  match queue with
  | [] => Some (included, unresolved)
  | u :: queue =>
      match fuel with
      | 0 => None
      | S fuel =>
          match records_by_id !! u with
          | Some rec =>
              let st := foldl (visit_neighbor u rec) ((visited, queue), unresolved)
                          (default [] (adj !! u)) in
              bfs fuel st.1.1 st.1.2 (included ++ [rec]) st.2
          | None => bfs fuel visited queue included unresolved
          end
      end
  end.
End Walk.

(** ** Scrubbing *)

(** [h.inline = None] on a handle that is there. *)
Definition without_inline (h : option OutputHandle.t) : option OutputHandle.t :=
  (λ h, OutputHandle.mk None h.(OutputHandle.hash) h.(OutputHandle.bytes)) <$> h.

Definition patch_without_inline (h : option PatchHandle.t) : option PatchHandle.t :=
  (λ h, PatchHandle.mk h.(PatchHandle.path) None) <$> h.

(* bundle.rs 270-276: scrub_record *)
Definition scrub_user_context (uc : UserContextFields.t) : UserContextFields.t := {|
  UserContextFields.proposed_rule_text := None;
  UserContextFields.proposed_rule_kind := uc.(UserContextFields.proposed_rule_kind);
  UserContextFields.scope := uc.(UserContextFields.scope);
  UserContextFields.supporting_evidence := uc.(UserContextFields.supporting_evidence);
  UserContextFields.contradicting_evidence := uc.(UserContextFields.contradicting_evidence);
  UserContextFields.candidate_id := uc.(UserContextFields.candidate_id);
  UserContextFields.prompt_surface := uc.(UserContextFields.prompt_surface);
  UserContextFields.prompt_text := None;
  UserContextFields.prompted_at := uc.(UserContextFields.prompted_at);
  UserContextFields.prompted_to := uc.(UserContextFields.prompted_to);
  UserContextFields.expires_at := uc.(UserContextFields.expires_at);
  UserContextFields.prompt_id := uc.(UserContextFields.prompt_id);
  UserContextFields.outcome := uc.(UserContextFields.outcome);
  UserContextFields.decided_at := uc.(UserContextFields.decided_at);
  UserContextFields.decided_by := uc.(UserContextFields.decided_by);
  UserContextFields.decision_rationale := None;
  UserContextFields.materialized_record_id := uc.(UserContextFields.materialized_record_id);
  UserContextFields.edited_rule_text := None;
  UserContextFields.rule_text := None;
  UserContextFields.approval_decision_id := uc.(UserContextFields.approval_decision_id);
  UserContextFields.active_from := uc.(UserContextFields.active_from);
  UserContextFields.active_to := uc.(UserContextFields.active_to);
  UserContextFields.triggers := uc.(UserContextFields.triggers);
  UserContextFields.action_summary := None;
  UserContextFields.entity_kind := uc.(UserContextFields.entity_kind);
  UserContextFields.canonical_name := uc.(UserContextFields.canonical_name);
  UserContextFields.alternatives_rejected := uc.(UserContextFields.alternatives_rejected);
  UserContextFields.constraint_text := None;
  UserContextFields.enforcement_level := uc.(UserContextFields.enforcement_level)
|}.

Section Scrub.
Context (blake3_hex : string → string).
Abbreviation redact_value := (Redaction.redact_string blake3_hex).

(* bundle.rs 279-284: scrub_record *)
Definition redact_email (email : string) : string :=
  "<REDACTED:email:" +:+ String.substring 0 12 (blake3_hex email) +:+ ">".

(* bundle.rs 221-302: scrub_record *)
Definition scrub_record (record : GraphRecord) : GraphRecord :=
  match record with
  | Node n =>
      Node (n{{
        NodeRec.text := None; NodeRec.validation_summary := None; NodeRec.arguments_summary := None;
        NodeRec.arguments_handle ::= without_inline; NodeRec.result_handle ::= without_inline;
        NodeRec.stdout_handle ::= without_inline; NodeRec.stderr_handle ::= without_inline;
        NodeRec.patch_handle ::= patch_without_inline;
        NodeRec.body_handle ::= without_inline; NodeRec.diff_hunk_handle ::= without_inline;
        NodeRec.user_context ::= scrub_user_context; NodeRec.author_email ::= fmap redact_email;
        NodeRec.title ::= fmap redact_value; NodeRec.author_name ::= fmap redact_value;
        NodeRec.summary ::= redact_value }})
  | Edge e =>
      Edge (EdgeRec.mk e.(EdgeRec.id) e.(EdgeRec.schema_version) e.(EdgeRec.label)
        e.(EdgeRec.source) e.(EdgeRec.target) e.(EdgeRec.confidence) e.(EdgeRec.resolution)
        e.(EdgeRec.frame_resolution) e.(EdgeRec.frame_index) e.(EdgeRec.basis)
        e.(EdgeRec.call_site_spans) e.(EdgeRec.is_exhaustive) e.(EdgeRec.temporal)
        (redact_value e.(EdgeRec.summary)) e.(EdgeRec.producer))
  | Tombstone _ => record
  end.
End Scrub.

Definition inline_of (h : option OutputHandle.t) : option string := h ≫= OutputHandle.inline.

(** The fields [first_unscrubbed_field] looks into, in its order. *)
(* bundle.rs 339-400: first_unscrubbed_field *)
Definition cleared_fields (n : NodeRec.t) : list (string * option string) :=
  let uc := n.(NodeRec.user_context) in
  [("text", n.(NodeRec.text)); ("validation_summary", n.(NodeRec.validation_summary));
   ("arguments_summary", n.(NodeRec.arguments_summary));
   ("arguments_handle.inline", inline_of n.(NodeRec.arguments_handle));
   ("result_handle.inline", inline_of n.(NodeRec.result_handle));
   ("stdout_handle.inline", inline_of n.(NodeRec.stdout_handle));
   ("stderr_handle.inline", inline_of n.(NodeRec.stderr_handle));
   ("patch_handle.inline", n.(NodeRec.patch_handle) ≫= PatchHandle.inline);
   ("body_handle.inline", inline_of n.(NodeRec.body_handle));
   ("diff_hunk_handle.inline", inline_of n.(NodeRec.diff_hunk_handle));
   ("user_context.proposed_rule_text", uc.(UserContextFields.proposed_rule_text));
   ("user_context.prompt_text", uc.(UserContextFields.prompt_text));
   ("user_context.decision_rationale", uc.(UserContextFields.decision_rationale));
   ("user_context.edited_rule_text", uc.(UserContextFields.edited_rule_text));
   ("user_context.rule_text", uc.(UserContextFields.rule_text));
   ("user_context.action_summary", uc.(UserContextFields.action_summary));
   ("user_context.constraint_text", uc.(UserContextFields.constraint_text))].

(* bundle.rs 320-403: first_unscrubbed_field *)
Definition first_unscrubbed_field (record : GraphRecord) : option string :=
  match record with
  | Node n => fst <$> List.find (λ f : string * option string, is_some f.2) (cleared_fields n)
  | _ => None
  end.

(** ** Coverage *)

(** [n as f64], [a / b], [a * b] and [a < b] on binary64. *)
Definition as_f64 (n : nat) : spec_float := binary_normalize 53 1024 (Z.of_nat n) 0 false.
Definition f64_div : spec_float → spec_float → spec_float := SFdiv 53 1024.
Definition f64_mul : spec_float → spec_float → spec_float := SFmul 53 1024.
(** The literal [0.95]: the double next to 95 / 100. *)
Definition F64_0_95 : spec_float := f64_div (as_f64 95) (as_f64 100).

Section Bundling.
Context (to_string : GraphRecord → option string) (blake3_hex : string → string).

(** [serde_json::to_string(r).unwrap_or_default()]. *)
Definition json (r : GraphRecord) : string := default "" (to_string r).

(* bundle.rs 623-632: export_bundle *)
Definition row_of (records : list BundleRecord.t) (br : BundleRecord.t) : RowClassification.t :=
  classify_record_external_with_provenance to_string br.(BundleRecord.record)
    (LogProvenanceIndex.build (BundleRecord.record <$> records)).
(* bundle.rs 634-635: export_bundle *)
Definition is_valid (row : RowClassification.t) : bool :=
  negb (bool_decide (row.(RowClassification.status) = CitationStatus.MissingRequiredHandle)).

(* bundle.rs 646-650: export_bundle *)
Definition overall_coverage (valid total : nat) : spec_float :=
  if (0 <? total)%nat then f64_div (as_f64 valid) (as_f64 total) else as_f64 1.

(** What keeps the records from being citable, if anything does: both functions compute it
    over the records of the bundle. *)
(* bundle.rs 623-667: export_bundle *)
Definition coverage_failure (records : list BundleRecord.t) : option Detail :=
  let rows := row_of records <$> records in
  let total_valid := length (List.filter is_valid rows) in
  let non_code_valid :=
    forallb (λ row, (row.(RowClassification.trust_class) =s? "source_fact") || is_valid row) rows in
  let overall := overall_coverage total_valid (length records) in
  if SFltb overall F64_0_95 then Some (OverallCoverage (f64_mul overall (as_f64 100)))
  else if negb non_code_valid then Some NonCodeCoverage
  else None.

(** ** Export *)

(* bundle.rs 576-584: export_bundle *)
Definition wrap (r : GraphRecord) : BundleRecord.t :=
  let scrubbed := scrub_record blake3_hex r in
  BundleRecord.mk scrubbed (blake3_hex (json scrubbed)).

Definition record_id (br : BundleRecord.t) : string := GraphRecord.id br.(BundleRecord.record).

(* bundle.rs 588-597: export_bundle *)
Definition bundle_cmp : BundleRecord.t → BundleRecord.t → comparison :=
  cmp_then (cmp_on record_id String.compare)
    (cmp_on (λ br, json br.(BundleRecord.record)) String.compare).

(* bundle.rs 600-616: export_bundle *)
Definition repository_of (records : list GraphRecord) : string * option SnapshotHead.t :=
  match head (omap (λ rec, match rec with
                           | Node n => if bool_decide (n.(NodeRec.kind) = NodeKind.Repository)
                                       then Some n else None
                           | _ => None end) records) with
  | Some n => (n.(NodeRec.id), SourceSnapshotPayload.head <$> n.(NodeRec.source_snapshot))
  | None => ("unknown", None)
  end.

(* bundle.rs 670-674: export_bundle *)
Definition count_classes (records : list BundleRecord.t) : gmap string nat :=
  foldl (λ counts br,
    let tc := citation_trust_class br.(BundleRecord.record) in
    <[tc := default 0 (counts !! tc) + 1]> counts) ∅ records.

(** [fuel] bounds the rounds of the walk; [None] is its end. *)
(* bundle.rs 412-692: export_bundle *)
Definition export_bundle (fuel : nat) (records : list GraphRecord)
    (root_selector egregore_version : string) : option (result EvidenceBundle.t Detail) :=
  match find_root_records records root_selector with
  | Err e => Some (Err e)
  | Ok roots =>
      let root_ids := GraphRecord.id <$> roots in
      let source_query := match split_once ":" root_selector with
                          | Some (prefix, _) => prefix
                          | None => "custom"
                          end in
      let records_by_id := index_by_id records in
      let adj := build_adj records in
      let start := List.filter (λ id, is_some (records_by_id !! id)) root_ids in
      let?o walked := bfs records_by_id adj fuel (list_to_set start) start [] [] in
      let '(included_records, unresolved_links) := walked in
      let bundle_records := sort_by bundle_cmp (wrap <$> included_records) in
      match coverage_failure bundle_records with
      | Some message => Some (Err message)
      | None =>
          let '(repo_id, snapshot) := repository_of records in
          Some (Ok {|
            EvidenceBundle.manifest := {|
              BundleManifest.root_selector := root_selector;
              BundleManifest.source_query := source_query;
              BundleManifest.snapshot := snapshot;
              BundleManifest.repository_identity := repo_id;
              BundleManifest.egregore_version := egregore_version;
              BundleManifest.included_record_counts := count_classes bundle_records;
              BundleManifest.omitted_record_counts := 0;
              BundleManifest.root_record_ids := root_ids
            |};
            EvidenceBundle.records := bundle_records;
            EvidenceBundle.unresolved_links := sort_by UnresolvedLink.cmp unresolved_links
          |})
      end
  end.

(** ** Verification *)

(** The sum of the counts is taken without the bound of [usize]. *)
Definition counts_sum (counts : gmap string nat) : nat := sum_list (map_to_list counts).*2.

(** The first hash that does not match. *)
(* bundle.rs 712-732: verify_bundle *)
Definition hash_failure (records : list BundleRecord.t) : option Detail :=
  head (omap (λ entry : nat * BundleRecord.t,
    let '(i, br) := entry in
    match to_string br.(BundleRecord.record) with
    | None => Some (SerializationFailed i)
    | Some serialized =>
        let computed_hash := blake3_hex serialized in
        if negb (computed_hash =s? br.(BundleRecord.hash))
        then Some (HashMismatch i (record_id br) br.(BundleRecord.hash) computed_hash)
        else None
    end) (imap pair records)).

(* bundle.rs 739-746: verify_bundle *)
Definition is_ordered (a b : GraphRecord) : bool :=
  let id_cmp := String.compare (GraphRecord.id a) (GraphRecord.id b) in
  match id_cmp with
  | Eq => match String.compare (json a) (json b) with Gt => false | _ => true end
  | Lt => true
  | Gt => false
  end.

(* bundle.rs 736-757: verify_bundle *)
Fixpoint ordering_failure (i : nat) (records : list BundleRecord.t) : option Detail :=
  match records with
  | a :: (b :: _) as rest =>
      if is_ordered a.(BundleRecord.record) b.(BundleRecord.record) then ordering_failure (S i) rest
      else Some (OrderingUnstable i (record_id a) (record_id b))
  | _ => None
  end.

(* bundle.rs 698-759: verify_bundle *)
Definition integrity_failure (bundle : EvidenceBundle.t) : option Detail :=
  let records := bundle.(EvidenceBundle.records) in
  let manifest_included_sum :=
    counts_sum bundle.(EvidenceBundle.manifest).(BundleManifest.included_record_counts) in
  if negb (manifest_included_sum =? length records)%nat
  then Some (CountMismatch manifest_included_sum (length records))
  else or_else (hash_failure records) (ordering_failure 0 records).

(** The first root the bundle does not hold. *)
(* bundle.rs 777-785: verify_bundle *)
Definition missing_root (bundle : EvidenceBundle.t) : option string :=
  let included_ids := record_id <$> bundle.(EvidenceBundle.records) in
  List.find (λ root_id, negb (bool_decide (root_id ∈ included_ids)))
    bundle.(EvidenceBundle.manifest).(BundleManifest.root_record_ids).

(* bundle.rs 835-862: verify_bundle *)
Definition safety_failure (records : list BundleRecord.t) : option Detail :=
  head (omap (λ br,
    let record := br.(BundleRecord.record) in
    match SecretPatterns.detect_secret (SecretPatterns.lit (json record)) with
    | Some (class, _) => Some (SecretFound (record_id br) (SecretPatterns.SecretClass.as_str class))
    | None => FieldRetained (record_id br) <$> first_unscrubbed_field record
    end) records).

Definition verdict (failure : option Detail) (passed : Detail) : VerificationVerdict.t :=
  match failure with
  | None => VerificationVerdict.mk true passed
  | Some detail => VerificationVerdict.mk false detail
  end.

(* bundle.rs 697-877: verify_bundle *)
Definition verify_bundle (bundle : EvidenceBundle.t) : VerificationReport.t :=
  let integrity := verdict (integrity_failure bundle) IntegrityStable in
  let coverage :=
    verdict
      (match missing_root bundle with
       | Some root_id => Some (RootMissing root_id)
       | None => coverage_failure bundle.(EvidenceBundle.records)
       end) CoverageMet in
  let safety := verdict (safety_failure bundle.(EvidenceBundle.records)) SafetyClean in
  VerificationReport.mk
    (integrity.(VerificationVerdict.passed) && coverage.(VerificationVerdict.passed)
     && safety.(VerificationVerdict.passed))
    integrity coverage safety.
End Bundling.

(** ** Facts on references *)

Lemma omap_links (l' : list (option (string * string))) (l : list (option string)) :
  Forall2 (λ link target, fst <$> link = target) l' l → (omap id l').*1 = omap id l.
Proof. induction 1 as [|[[t r]|] o l' l <- _ IH]; cbn; [done| |done]. by f_equal. Qed.

(** What a record links to is what [collect_references] lists, in the same order. *)
Lemma record_links_targets r : (record_links r).*1 = collect_references r.
Proof.
  destruct r as [n|e|tb]; [|done..]. unfold record_links, collect_references.
  rewrite !fmap_app. f_equal; [|f_equal].
  - assert (∀ (o : option string) (relation : string),
        fst <$> ((λ t : string, (t, relation)) <$> o) = o) as Ho
      by (by intros [|]).
    apply omap_links. repeat (apply Forall2_cons_2; [apply Ho|]). apply Forall2_nil_2.
  - induction (default [] n.(NodeRec.evidence_links)) as [|link l IH]; [done|]. cbn.
    destruct (EvidenceLink.target_record_id link); cbn; by rewrite IH.
  - by destruct (NodeRec.source_snapshot n).
Qed.

Lemma is_outgoing_spec rec v : is_outgoing rec v = true ↔ v ∈ collect_references rec.
Proof.
  destruct rec as [n|e|tb]; cbn [is_outgoing].
  - by rewrite bool_decide_eq_true.
  - rewrite orb_true_iff, !String.eqb_eq. cbn. rewrite !elem_of_cons, elem_of_nil. naive_solver.
  - rewrite String.eqb_eq. cbn. rewrite list_elem_of_singleton. naive_solver.
Qed.

(** [r] is the last version of [id]. *)
Definition latest_version (records : list GraphRecord) (id : string) (r : GraphRecord) : Prop :=
  ∃ l1 l2, records = l1 ++ r :: l2 ∧ GraphRecord.id r = id
    ∧ ∀ r', r' ∈ l2 → GraphRecord.id r' ≠ id.

Lemma index_by_id_spec records id r :
  index_by_id records !! id = Some r ↔ latest_version records id r.
Proof.
  induction records as [|x l IH] using rev_ind.
  { split; [done|]. by intros ([|] & l2 & ? & _). }
  unfold index_by_id. rewrite foldl_app. cbn [foldl]. fold (index_by_id l).
  destruct (decide (GraphRecord.id x = id)) as [<-|Hne].
  - rewrite lookup_insert_eq. split.
    + intros [= ->]. exists l, []. split; [done|]. split; [done|]. intros ? ?%elem_of_nil; done.
    + intros (l1 & l2 & Heq & _ & Hl2). destruct l2 as [|y l2 _] using rev_ind.
      * apply app_inj_tail in Heq as [_ ->]. done.
      * rewrite app_comm_cons, app_assoc in Heq. apply app_inj_tail in Heq as [_ ->].
        destruct (Hl2 y); [set_solver|done].
  - rewrite lookup_insert_ne by done. rewrite IH. split.
    + intros (l1 & l2 & -> & Hid & Hl2). exists l1, (l2 ++ [x]). rewrite <-app_assoc.
      split; [done|]. split; [done|]. intros r' [Hr'|Hr']%elem_of_app; [by apply Hl2|].
      by apply list_elem_of_singleton in Hr' as ->.
    + intros (l1 & l2 & Heq & Hid & Hl2). destruct l2 as [|y l2 _] using rev_ind.
      * apply app_inj_tail in Heq as [_ ->]. done.
      * rewrite app_comm_cons, app_assoc in Heq. apply app_inj_tail in Heq as [-> _].
        exists l1, l2. split; [done|]. split; [done|]. intros r' Hr'. apply Hl2. set_solver.
Qed.

Lemma index_by_id_is_Some records id :
  is_Some (index_by_id records !! id) ↔ id ∈ GraphRecord.id <$> records.
Proof.
  induction records as [|x l IH] using rev_ind.
  { cbn. rewrite elem_of_nil. split; [by intros [? ?]|done]. }
  unfold index_by_id. rewrite foldl_app, fmap_app, elem_of_app. cbn [foldl fmap list_fmap].
  fold (index_by_id l). rewrite lookup_insert_is_Some', list_elem_of_singleton, <-IH.
  naive_solver.
Qed.

Lemma adj_spec records u v relation :
  (v, relation) ∈ default [] (build_adj records !! u) ↔
  ∃ r, r ∈ records ∧ ((GraphRecord.id r = u ∧ (v, relation) ∈ record_links r)
                      ∨ (GraphRecord.id r = v ∧ (u, relation) ∈ record_links r)).
Proof.
  pose proof (foldl_push (λ entry : string * (string * string), Some entry)
    (records ≫= adjacency_entries) u (v, relation)) as Hp.
  unfold build_adj. erewrite foldl_ext_elem; [rewrite Hp|by intros m [k b] _].
  assert (∀ r, (u, (v, relation)) ∈ adjacency_entries r ↔
    (GraphRecord.id r = u ∧ (v, relation) ∈ record_links r)
    ∨ (GraphRecord.id r = v ∧ (u, relation) ∈ record_links r)) as He.
  { intros r.
    assert ((u, (v, relation)) ∈ adjacency_entries r ↔
      (u, (v, relation)) ∈ (record_links r ≫= λ link,
         [(GraphRecord.id r, link); (link.1, (GraphRecord.id r, link.2))])) as ->.
    { destruct r as [n|e|tb]; [done| |done]. cbn. set_solver. }
    rewrite list_elem_of_bind. split.
    - intros ([x y] & Hin & Hl). cbn in Hin. set_solver.
    - intros [[<- Hl]|[<- Hl]]; eexists; (split; [|exact Hl]); cbn; set_solver. }
  setoid_rewrite <-He. split.
  - intros (a & Ha & [= ->]). apply list_elem_of_bind in Ha as (r & ? & ?). eauto.
  - intros (r & Hr & Hin). eexists. split; [|done]. apply list_elem_of_bind. eauto.
Qed.

(** ** The walk, as a walk over ids *)
Section WalkFacts.
Context (records : list GraphRecord).
Let by_id : gmap string GraphRecord := index_by_id records.
Let adj : gmap string (list (string * string)) := build_adj records.

(** The links of [u] that lead to a record, and those of its latest version that do not. *)
Definition kids (u : string) : list string :=
  filter (λ v : string, is_some (by_id !! v) = true) (default [] (adj !! u)).*1.
Definition dangling (u : string) : list UnresolvedLink.t :=
  match by_id !! u with
  | Some rec =>
      omap (λ neighbor : string * string,
        if negb (is_some (by_id !! neighbor.1)) && is_outgoing rec neighbor.1
        then Some (UnresolvedLink.mk u neighbor.1 neighbor.2) else None) (default [] (adj !! u))
  | None => []
  end.

Lemma visit_fold u rec neighbors visited queue unresolved :
  foldl (visit_neighbor by_id u rec) ((visited, queue), unresolved) neighbors
  = (foldl enqueue (visited, queue) (filter (λ v : string, is_some (by_id !! v) = true) neighbors.*1),
     unresolved ++ omap (λ neighbor : string * string,
       if negb (is_some (by_id !! neighbor.1)) && is_outgoing rec neighbor.1
       then Some (UnresolvedLink.mk u neighbor.1 neighbor.2) else None) neighbors).
Proof.
  revert visited queue unresolved.
  induction neighbors as [|[v relation] l IH]; intros visited queue unresolved.
  { cbn. by rewrite app_nil_r. }
  cbn [foldl visit_neighbor fst snd fmap list_fmap omap list_omap]. rewrite filter_cons.
  destruct (is_some (by_id !! v)) eqn:Hv; cbn [negb andb].
  - rewrite decide_True by done. cbn [foldl]. destruct (enqueue (visited, queue) v) as [vis q]. apply IH.
  - rewrite decide_False by done. destruct (is_outgoing rec v); rewrite IH; [|done].
    by rewrite <-app_assoc.
Qed.

Lemma bfs_walk fuel visited queue included unresolved :
  (∀ x, x ∈ queue → is_Some (by_id !! x)) →
  bfs by_id adj fuel visited queue included unresolved
  = (λ out, (included ++ omap (λ x, by_id !! x) out, unresolved ++ (out ≫= dangling)))
      <$> queue_walk kids fuel visited queue.
Proof.
  revert visited queue included unresolved.
  induction fuel as [|fuel IH]; intros visited [|u queue] included unresolved Hq;
    cbn [bfs queue_walk]; try (by cbn; rewrite ?app_nil_r).
  destruct (Hq u) as [rec Hrec]; [by left|]. rewrite Hrec, visit_fold. cbn [fst snd].
  fold (kids u).
  destruct (foldl_enqueue (kids u) visited queue) as (added & -> & _ & Hnew & _). cbn [fst snd].
  rewrite IH.
  - rewrite <-option_fmap_compose. destruct (queue_walk _ _ _ _) as [out|]; [|done].
    cbn [fmap option_fmap option_map compose omap list_omap mbind list_bind]. f_equal. f_equal.
    + rewrite Hrec. by rewrite <-app_assoc.
    + unfold dangling at 2. rewrite Hrec. by rewrite <-app_assoc.
  - intros x [Hx|Hx]%elem_of_app; [apply Hq; by right|].
    apply Hnew in Hx as [_ [Hx _]%list_elem_of_filter].
    by destruct (by_id !! x).
Qed.

(** A step from a record to one it refers to, or that refers to it, in some version. *)
Definition connected (x y : string) : Prop :=
  y ∈ GraphRecord.id <$> records
  ∧ ∃ r, r ∈ records
      ∧ ((GraphRecord.id r = x ∧ y ∈ collect_references r)
         ∨ (GraphRecord.id r = y ∧ x ∈ collect_references r)).

Lemma record_links_elem r y : y ∈ collect_references r ↔ ∃ relation, (y, relation) ∈ record_links r.
Proof.
  rewrite <-record_links_targets, list_elem_of_fmap. split.
  - intros ([y' relation] & -> & ?). by exists relation.
  - intros [relation ?]. by exists (y, relation).
Qed.

Lemma kids_spec x y : y ∈ kids x ↔ connected x y.
Proof.
  unfold kids, connected. rewrite list_elem_of_filter, list_elem_of_fmap.
  rewrite <-index_by_id_is_Some. fold by_id.
  assert (is_some (by_id !! y) = true ↔ is_Some (by_id !! y)) as ->
    by (destruct (by_id !! y); [by split|split; [done|by intros [? ?]]]).
  setoid_rewrite record_links_elem. split.
  - intros [Hy ([v relation] & -> & (r & Hr & Hl)%adj_spec)]. split; [done|]. exists r. naive_solver.
  - intros (Hy & r & Hr & [(Hid & relation & Hl)|(Hid & relation & Hl)]); (split; [done|]);
      exists (y, relation); (split; [done|]); apply adj_spec; eauto.
Qed.

(** What a link of the bundle's diagnostics says. *)
Definition dangling_link (l : UnresolvedLink.t) : Prop :=
  let '(UnresolvedLink.mk u v relation) := l in
  (v ∉ GraphRecord.id <$> records)
  ∧ (∃ r, r ∈ records ∧ GraphRecord.id r = u ∧ (v, relation) ∈ record_links r)
  ∧ ∃ r, latest_version records u r ∧ v ∈ collect_references r.

Lemma dangling_spec u l :
  l ∈ dangling u ↔ l.(UnresolvedLink.source_id) = u ∧ dangling_link l.
Proof.
  destruct l as [u' v relation]. unfold dangling, dangling_link. cbn [UnresolvedLink.source_id].
  setoid_rewrite <-index_by_id_spec. rewrite <-index_by_id_is_Some. fold by_id.
  destruct (by_id !! u) as [rec|] eqn:Hu.
  - rewrite list_elem_of_omap. split.
    + intros ([x rel] & (r & Hr & Hl)%adj_spec & Hsome). cbn [fst snd] in Hsome.
      destruct (by_id !! x) as [rx|] eqn:Hx; [done|].
      destruct (is_outgoing rec x) eqn:Ho; [|done]. simplify_eq/=. split; [done|].
      rewrite Hx. split; [by intros [? ?]|]. apply is_outgoing_spec in Ho.
      destruct Hl as [[Hid Hl]|[Hid Hl]]; [eauto 10|].
      assert (is_Some (by_id !! v)) as [? ?]
        by (apply index_by_id_is_Some, list_elem_of_fmap; eauto). congruence.
    + intros [-> (Hv & (r & Hr & Hid & Hl) & rec' & Hrec & Ho)]. rewrite Hu in Hrec. simplify_eq.
      exists (v, relation). split; [apply adj_spec; eauto|]. cbn [fst snd].
      apply is_outgoing_spec in Ho. rewrite Ho. destruct (by_id !! v); [|done]. by destruct Hv.
  - rewrite elem_of_nil. split; [done|]. intros [-> (_ & _ & rec & Hrec & _)]. congruence.
Qed.
End WalkFacts.

(** ** Properties *)
Section Properties.
Context (to_string : GraphRecord → option string) (blake3_hex : string → string).
Abbreviation scrub := (scrub_record blake3_hex).
Abbreviation wrapped := (wrap to_string blake3_hex).
Abbreviation export := (export_bundle to_string blake3_hex).

Lemma scrub_id r : GraphRecord.id (scrub r) = GraphRecord.id r.
Proof. by destruct r. Qed.

Lemma wrap_id r : record_id (wrapped r) = GraphRecord.id r.
Proof. apply scrub_id. Qed.

#[local] Instance bundle_cmp_order : CmpOrder (bundle_cmp to_string).
Proof. unfold bundle_cmp. apply _. Qed.
#[local] Instance unresolved_cmp_order : CmpOrder UnresolvedLink.cmp.
Proof. unfold UnresolvedLink.cmp. apply _. Qed.

Lemma found_roots records selector roots :
  find_root_records records selector = Ok roots →
  ∃ prefix value, split_once ":" selector = Some (prefix, value) ∧ roots ≠ []
    ∧ ∀ r, r ∈ roots ↔ r ∈ records ∧ matches_selector prefix value r = true.
Proof.
  unfold find_root_records. destruct (split_once ":" selector) as [[prefix value]|]; [|done].
  destruct (filter _ records) as [|r0 roots'] eqn:Hf; [done|]. intros [= <-].
  exists prefix, value. split; [done|]. split; [done|]. intros r. rewrite <-Hf, list_elem_of_filter.
  naive_solver.
Qed.

(** The records of a bundle: the latest version of every record connected to the roots,
    scrubbed and hashed, in the canonical order. A root is there once for each of its versions
    the selector matched, everything else once. *)
Definition exported (records : list GraphRecord) (root_ids : list string)
    (recs : list BundleRecord.t) : Prop :=
  StronglySorted (cmp_le (bundle_cmp to_string)) recs
  ∧ (∀ br, br ∈ recs → ∃ r, latest_version records (record_id br) r ∧ br = wrapped r)
  ∧ ∃ rest, record_id <$> recs ≡ₚ root_ids ++ rest ∧ NoDup rest ∧ (∀ y, y ∈ rest → y ∉ root_ids)
      ∧ ∀ y, y ∈ root_ids ++ rest ↔ ∃ x, x ∈ root_ids ∧ rtc (connected records) x y.

Lemma omap_latest records (out : list string) :
  (∀ x, x ∈ out → is_Some (index_by_id records !! x)) →
  let recs := wrapped <$> omap (λ x, index_by_id records !! x) out in
  record_id <$> recs = out
  ∧ ∀ br, br ∈ recs → ∃ r, latest_version records (record_id br) r ∧ br = wrapped r.
Proof.
  cbn zeta. induction out as [|x out IH]; intros Hout.
  { split; [done|]. intros br Hbr. by apply elem_of_nil in Hbr. }
  destruct (Hout x) as [r Hr]; [by left|]. destruct IH as [IH1 IH2]; [intros y ?; apply Hout; by right|].
  cbn [omap list_omap]. rewrite Hr. cbn [fmap list_fmap].
  apply index_by_id_spec in Hr as Hv. assert (GraphRecord.id r = x) as Hid by (by destruct Hv as (? & ? & _ & ? & _)).
  split; [rewrite wrap_id, Hid; by f_equal|].
  intros br [->|Hbr]%elem_of_cons; [|by apply IH2]. exists r. by rewrite wrap_id, Hid.
Qed.

(** What the walk of an export returns. *)
Lemma export_walk records roots :
  (∀ r, r ∈ roots → r ∈ records) →
  let root_ids := GraphRecord.id <$> roots in
  let by_id := index_by_id records in
  let start := List.filter (λ id, is_some (by_id !! id)) root_ids in
  ∃ n included unresolved,
    (∀ k, bfs by_id (build_adj records) (n + k) (list_to_set start) start [] []
          = Some (included, unresolved))
    ∧ exported records root_ids (sort_by (bundle_cmp to_string) (wrapped <$> included))
    ∧ ∀ l, l ∈ sort_by UnresolvedLink.cmp unresolved ↔
        (∃ x, x ∈ root_ids ∧ rtc (connected records) x l.(UnresolvedLink.source_id))
        ∧ dangling_link records l.
Proof.
  intros Hroots. cbv zeta. set (root_ids := GraphRecord.id <$> roots).
  assert (∀ x, x ∈ root_ids → is_Some (index_by_id records !! x)) as Hsome.
  { intros x (r & -> & Hr)%list_elem_of_fmap. apply index_by_id_is_Some, list_elem_of_fmap. eauto. }
  assert (List.filter (λ id, is_some (index_by_id records !! id)) root_ids = root_ids) as ->.
  { clear -Hsome. induction root_ids as [|x l IH]; [done|]. cbn [List.filter].
    destruct (Hsome x) as [r ->]; [by left|]. cbn [is_some]. f_equal. apply IH. intros y ?. apply Hsome. by right. }
  set (n := length root_ids + size (list_to_set (C := gset string) (GraphRecord.id <$> records))).
  destruct (queue_walk_spec (kids records) (list_to_set (GraphRecord.id <$> records))
    ltac:(intros x y [Hy _]%kids_spec; by apply elem_of_list_to_set) root_ids n)
    as (rest & Hw & Hnd & Hdisj & Hreach); [done|].
  assert (∀ y, y ∈ root_ids ++ rest ↔ ∃ x, x ∈ root_ids ∧ rtc (connected records) x y) as Hreach'.
  { intros y. rewrite Hreach. f_equiv. intros x. f_equiv.
    split; apply rtc_subrel; intros u v; by rewrite kids_spec. }
  assert (∀ x, x ∈ root_ids ++ rest → is_Some (index_by_id records !! x)) as Hall.
  { intros y (x & Hx & Hxy)%Hreach'. apply rtc_inv_r in Hxy as [<-|(z & _ & Hy & _)]; [by apply Hsome|].
    by apply index_by_id_is_Some. }
  destruct (omap_latest records (root_ids ++ rest) Hall) as [Hids Hlat].
  eexists n, _, _. split; [|split].
  - intros k. rewrite bfs_walk by done. rewrite (queue_walk_more _ _ _ _ _ _ Hw). reflexivity.
  - cbn [app]. split; [apply sort_by_sorted, _|]. split.
    + intros br Hbr. apply Hlat. by rewrite <-(sort_by_perm (bundle_cmp to_string)).
    + exists rest. split; [|done]. by rewrite sort_by_perm, Hids.
  - intros l. rewrite sort_by_perm. cbn [app]. rewrite list_elem_of_bind, <-Hreach'.
    setoid_rewrite dangling_spec. naive_solver.
Qed.

(** What an export may return: the selector's error, the coverage failure of the records it
    would export, or a bundle of them with its diagnostics and counts. *)
Definition export_result (records : list GraphRecord) (selector : string)
    (res : result EvidenceBundle.t Detail) : Prop :=
  match res with
  | Err e =>
      find_root_records records selector = Err e
      ∨ ∃ roots recs, find_root_records records selector = Ok roots
          ∧ exported records (GraphRecord.id <$> roots) recs
          ∧ coverage_failure to_string recs = Some e
  | Ok b =>
      ∃ roots, find_root_records records selector = Ok roots
        ∧ b.(EvidenceBundle.manifest).(BundleManifest.root_record_ids) = GraphRecord.id <$> roots
        ∧ b.(EvidenceBundle.manifest).(BundleManifest.included_record_counts)
          = count_classes b.(EvidenceBundle.records)
        ∧ exported records (GraphRecord.id <$> roots) b.(EvidenceBundle.records)
        ∧ coverage_failure to_string b.(EvidenceBundle.records) = None
        ∧ StronglySorted (cmp_le UnresolvedLink.cmp) b.(EvidenceBundle.unresolved_links)
        ∧ ∀ l, l ∈ b.(EvidenceBundle.unresolved_links) ↔
            (∃ x, x ∈ GraphRecord.id <$> roots
                  ∧ rtc (connected records) x l.(UnresolvedLink.source_id))
            ∧ dangling_link records l
  end.

Lemma export_bundle_spec records selector version :
  ∃ n res, (∀ k, export (n + k) records selector version = Some res)
    ∧ export_result records selector res.
Proof.
  destruct (find_root_records records selector) as [roots|e] eqn:Hf.
  2: { exists 0, (Err e). split; [|by left]. intros k. unfold export_bundle. by rewrite Hf. }
  pose proof (found_roots _ _ _ Hf) as (prefix & value & _ & _ & Hroots).
  destruct (export_walk records roots ltac:(intros r Hr; by apply Hroots))
    as (n & included & unresolved & Hw & Hex & Hun).
  set (recs := sort_by (bundle_cmp to_string) (wrapped <$> included)) in Hex.
  destruct (coverage_failure to_string recs) as [e|] eqn:Hc.
  - exists n, (Err e). split; [|right; eauto]. intros k. unfold export_bundle. rewrite Hf, Hw.
    cbn [mbind option_bind]. fold recs. by rewrite Hc.
  - eexists n, (Ok _). split.
    + intros k. unfold export_bundle. rewrite Hf, Hw. cbn [mbind option_bind]. fold recs. rewrite Hc.
      destruct (repository_of records) as [repo_id snapshot] eqn:Hr.
      rewrite (surjective_pairing (repository_of records)) in Hr. injection Hr as <- <-. reflexivity.
    + cbn. exists roots. cbn. split_and!; try done. apply sort_by_sorted, _.
Qed.

(** C16: Exporting ends on every log. It fails with the selector's error, or with the coverage
    failure of the records it would export; otherwise the bundle holds exactly the scrubbed
    latest versions of the records connected to the matched roots over references in either
    direction, in the canonical order, and lists exactly the references of those records to
    records the log does not have. *)
Theorem export_bundle_exact records selector version :
  ∃ n res, (∀ k, export (n + k) records selector version = Some res)
    ∧ export_result records selector res.
Proof. apply export_bundle_spec. Qed.

Lemma bfs_more by_id adj fuel k visited queue included unresolved out :
  bfs by_id adj fuel visited queue included unresolved = Some out →
  bfs by_id adj (fuel + k) visited queue included unresolved = Some out.
Proof.
  revert visited queue included unresolved.
  induction fuel as [|fuel IH]; intros visited [|u queue] included unresolved; cbn; [by destruct k|done|done|].
  destruct (by_id !! u); [cbn|]; apply IH.
Qed.

Lemma export_more fuel k records selector version res :
  export fuel records selector version = Some res →
  export (fuel + k) records selector version = Some res.
Proof.
  unfold export_bundle. destruct (find_root_records records selector); [|done].
  destruct (bfs _ _ fuel _ _ _ _) as [out|] eqn:Hb; [|done].
  by rewrite (bfs_more _ _ _ k _ _ _ _ _ Hb).
Qed.

(** *** Scrubbing *)

Lemma inline_without h : inline_of (without_inline h) = None.
Proof. by destruct h. Qed.

Lemma inline_patch_without h : patch_without_inline h ≫= PatchHandle.inline = None.
Proof. by destruct h. Qed.

Lemma without_inline_same h : inline_of h = None → without_inline h = h.
Proof. destruct h as [[[] hash bytes]|]; done. Qed.

Lemma patch_without_same h : h ≫= PatchHandle.inline = None → patch_without_inline h = h.
Proof. destruct h as [[path []]|]; done. Qed.

Lemma scrub_user_context_same uc :
  uc.(UserContextFields.proposed_rule_text) = None → uc.(UserContextFields.prompt_text) = None →
  uc.(UserContextFields.decision_rationale) = None → uc.(UserContextFields.edited_rule_text) = None →
  uc.(UserContextFields.rule_text) = None → uc.(UserContextFields.action_summary) = None →
  uc.(UserContextFields.constraint_text) = None → scrub_user_context uc = uc.
Proof. destruct uc; cbn. by intros -> -> -> -> -> -> ->. Qed.

Lemma scrub_cleared_fields n :
  match scrub (Node n) with
  | Node n' => Forall (λ f : string * option string, f.2 = None) (cleared_fields n')
  | _ => False
  end.
Proof.
  unfold cleared_fields. cbn -[inline_of without_inline patch_without_inline mbind].
  rewrite !inline_without, inline_patch_without. repeat constructor.
Qed.

Lemma first_unscrubbed_None n :
  first_unscrubbed_field (Node n) = None ↔
  Forall (λ f : string * option string, f.2 = None) (cleared_fields n).
Proof.
  unfold first_unscrubbed_field. rewrite fmap_None. rewrite Forall_forall.
  setoid_rewrite list_elem_of_In. split.
  - intros Hn f Hf. apply find_none with (x := f) in Hn; [|done]. by destruct f as [? []].
  - intros Hall. destruct (List.find _ _) as [f|] eqn:E; [|done].
    apply find_some in E as [Hin Hs]. by rewrite (Hall f Hin) in Hs.
Qed.

Lemma scrub_clears r : first_unscrubbed_field (scrub r) = None.
Proof.
  destruct r as [n|e|tb]; [|done..]. pose proof (scrub_cleared_fields n).
  by apply first_unscrubbed_None.
Qed.

Lemma scrub_cleared_same n :
  Forall (λ f : string * option string, f.2 = None) (cleared_fields n) →
  n.(NodeRec.author_email) = None → Redaction.redact_string blake3_hex <$> n.(NodeRec.title) = n.(NodeRec.title) →
  Redaction.redact_string blake3_hex <$> n.(NodeRec.author_name) = n.(NodeRec.author_name) →
  Redaction.redact_string blake3_hex n.(NodeRec.summary) = n.(NodeRec.summary) →
  scrub (Node n) = Node n.
Proof.
  unfold cleared_fields. rewrite !Forall_cons. cbn [snd]. intros Hf He Ht Hn Hs.
  destruct Hf as (H1 & H2 & H3 & H4 & H5 & H6 & H7 & H8 & H9 & H10 & Hu).
  assert (scrub_user_context n.(NodeRec.user_context) = n.(NodeRec.user_context)) as Huc
    by (apply scrub_user_context_same; apply Hu).
  destruct n; cbn -[inline_of without_inline patch_without_inline scrub_user_context fmap mbind] in *.
  rewrite Huc, Ht, Hn, Hs, H1, H2, H3, He, patch_without_same by done.
  by rewrite !without_inline_same by done.
Qed.

(** The prose that scrubbing masks instead of clearing. *)
Definition redacted_fields (r : GraphRecord) : list string :=
  match r with
  | Node n => omap id [n.(NodeRec.title); n.(NodeRec.author_name); Some n.(NodeRec.summary)]
  | Edge e => [e.(EdgeRec.summary)]
  | Tombstone _ => []
  end.
Definition author_email_of (r : GraphRecord) : option string :=
  match r with Node n => n.(NodeRec.author_email) | _ => None end.
Definition clean (s : string) : Prop := SecretPatterns.detect_secret (SecretPatterns.lit s) = None.
(** A record on which the masking has nothing to do. *)
Definition settled (r : GraphRecord) : Prop :=
  author_email_of r = None ∧ ∀ s, s ∈ redacted_fields r → clean s.

Lemma redact_clean s : clean s → Redaction.redact_string blake3_hex s = s.
Proof.
  unfold clean, Redaction.redact_string, Redaction.redact_value. intros ->. apply Redaction.of_text_lit.
Qed.

Lemma redact_clean_opt (o : option string) :
  (∀ s, o = Some s → clean s) → Redaction.redact_string blake3_hex <$> o = o.
Proof. destruct o as [s|]; [|done]. intros H. cbn. by rewrite redact_clean by (by apply H). Qed.

Lemma masked_fields (f : string → string) (a b : option string) (c s : string) :
  s ∈ omap id [f <$> a; f <$> b; Some (f c)] → ∃ x, s = f x.
Proof. destruct a, b; cbn; rewrite !elem_of_cons, elem_of_nil; naive_solver. Qed.

(** *** Verification *)

Lemma counts_sum_bump (m : gmap string nat) k :
  counts_sum (<[k := default 0 (m !! k) + 1]> m) = counts_sum m + 1.
Proof.
  unfold counts_sum.
  assert (∀ (m : gmap string nat) k v, m !! k = None →
    sum_list (map_to_list (<[k := v]> m)).*2 = v + sum_list (map_to_list m).*2) as Hins.
  { intros m' k' v' Hk. by rewrite map_to_list_insert. }
  destruct (m !! k) as [c|] eqn:Hk; cbn [from_option id].
  - assert (sum_list (map_to_list m).*2 = c + sum_list (map_to_list (delete k m)).*2) as ->
      by (rewrite <-(Hins _ k c) by apply lookup_delete_eq; by rewrite insert_delete_id).
    rewrite <-insert_delete_eq, Hins by apply lookup_delete_eq. lia.
  - rewrite Hins by done. cbn. lia.
Qed.

Lemma counts_sum_classes recs : counts_sum (count_classes recs) = length recs.
Proof.
  induction recs as [|br recs IH] using rev_ind; [done|].
  unfold count_classes. rewrite foldl_app, length_app. cbn [foldl length].
  fold (count_classes recs). by rewrite counts_sum_bump, IH.
Qed.

Lemma ordering_failure_sorted i recs :
  StronglySorted (cmp_le (bundle_cmp to_string)) recs → ordering_failure to_string i recs = None.
Proof.
  intros Hs. revert i. induction Hs as [|a recs Hs IH Ha]; intros i; [done|].
  destruct recs as [|b recs]; [done|].
  change (ordering_failure to_string i (a :: b :: recs)) with
    (if is_ordered to_string a.(BundleRecord.record) b.(BundleRecord.record)
     then ordering_failure to_string (S i) (b :: recs)
     else Some (OrderingUnstable i (record_id a) (record_id b))).
  apply Forall_cons in Ha as [Hab _]. rewrite IH.
  unfold cmp_le, bundle_cmp, cmp_then, cmp_on, record_id in Hab. unfold is_ordered.
  destruct (String.compare (GraphRecord.id _) _); try done. by destruct (String.compare (json _ _) _).
Qed.

Lemma head_omap_None {A B} (f : A → option B) l :
  head (omap f l) = None ↔ ∀ x, x ∈ l → f x = None.
Proof.
  induction l as [|x l IH]; cbn [omap list_omap].
  { split; [|done]. intros _ x Hx. by apply elem_of_nil in Hx. }
  setoid_rewrite elem_of_cons. destruct (f x) eqn:Hx; cbn [head]; [|rewrite IH]; naive_solver.
Qed.

Lemma hash_failure_wrapped recs :
  (∀ r, is_Some (to_string r)) → (∀ br, br ∈ recs → ∃ r, br = wrapped r) →
  hash_failure to_string blake3_hex recs = None.
Proof.
  intros Hser Hw. unfold hash_failure. apply head_omap_None.
  intros [i br] Hin. apply elem_of_imap_pair, list_elem_of_lookup_2, Hw in Hin as [r ->].
  unfold wrap, json. cbn [BundleRecord.record BundleRecord.hash].
  destruct (Hser (scrub r)) as [s ->]. cbn [default]. by rewrite String.eqb_refl.
Qed.

Lemma safety_failure_wrapped recs :
  (∀ br, br ∈ recs → ∃ r, br = wrapped r) →
  safety_failure to_string recs = None ↔
  ∀ br, br ∈ recs → clean (json to_string br.(BundleRecord.record)).
Proof.
  intros Hw. unfold safety_failure, clean. rewrite head_omap_None.
  split; intros H br Hbr; specialize (H br Hbr).
  - by destruct (SecretPatterns.detect_secret _) as [[c ?]|].
  - rewrite H. destruct (Hw br Hbr) as [r ->]. unfold wrap. cbn [BundleRecord.record].
    by rewrite scrub_clears.
Qed.

(** C17: A bundle that was exported verifies: its integrity and its coverage always, when records
    can be printed, and its safety exactly when no printed record shows a secret; no scrubbed
    field is ever left. *)
Theorem export_verifies fuel records selector version b :
  (∀ r, is_Some (to_string r)) →
  export fuel records selector version = Some (Ok b) →
  let report := verify_bundle to_string blake3_hex b in
  report.(VerificationReport.integrity) = VerificationVerdict.mk true IntegrityStable
  ∧ report.(VerificationReport.coverage) = VerificationVerdict.mk true CoverageMet
  ∧ (report.(VerificationReport.ok) = true ↔
     ∀ br, br ∈ b.(EvidenceBundle.records) → clean (json to_string br.(BundleRecord.record))).
Proof.
  intros Hser Hb.
  destruct (export_bundle_spec records selector version) as (n & res & Hn & Hres).
  specialize (Hn fuel). apply (export_more _ n) in Hb. rewrite Nat.add_comm, Hb in Hn.
  injection Hn as <-. destruct Hres as (roots & Hf & Hids & Hcounts & (Hsort & Hlat & rest & Hperm & _) & Hcov & _).
  assert (∀ br, br ∈ b.(EvidenceBundle.records) → ∃ r, br = wrapped r) as Hw
    by (intros br Hbr; destruct (Hlat br Hbr) as (r & _ & ?); eauto).
  unfold verify_bundle. cbn [VerificationReport.integrity VerificationReport.coverage VerificationReport.ok].
  assert (integrity_failure to_string blake3_hex b = None) as ->.
  { unfold integrity_failure. rewrite Hcounts, counts_sum_classes, Nat.eqb_refl. cbn [negb].
    rewrite hash_failure_wrapped by done. by apply ordering_failure_sorted. }
  assert (missing_root b = None) as ->.
  { unfold missing_root. rewrite Hids. destruct (List.find _ _) as [x|] eqn:E; [|done].
    apply find_some in E as [Hx%list_elem_of_In Hno]. apply negb_true_iff, bool_decide_eq_false in Hno.
    destruct Hno. rewrite Hperm. apply elem_of_app. by left. }
  rewrite Hcov. cbn [verdict VerificationVerdict.passed andb]. split; [done|]. split; [done|].
  rewrite <-(safety_failure_wrapped _ Hw). by destruct (safety_failure _ _).
Qed.

Context (hex_digest : ∀ s, (SecretPatterns.HASH_PREFIX_LEN ≤ length (SecretPatterns.lit (blake3_hex s)))%nat
                           ∧ forallb Redaction.is_lower_hex (SecretPatterns.lit (blake3_hex s)) = true).

(** C18: Scrubbing and the check of [verify_bundle] are in lockstep: a scrubbed record keeps no field
    the check looks into, keeps its id and its references, and shows no secret in the prose
    that is masked; and a record on which the masking has nothing to do passes the check
    exactly when scrubbing leaves it as it is. *)
Theorem scrub_lockstep r :
  first_unscrubbed_field (scrub r) = None
  ∧ GraphRecord.id (scrub r) = GraphRecord.id r
  ∧ collect_references (scrub r) = collect_references r
  ∧ (∀ s, s ∈ redacted_fields (scrub r) → clean s)
  ∧ (settled r → first_unscrubbed_field r = None ↔ scrub r = r).
Proof using hex_digest.
  split; [apply scrub_clears|]. split; [apply scrub_id|]. split; [by destruct r|]. split.
  - pose proof (Redaction.redact_string_not_detected blake3_hex hex_digest) as Hred.
    destruct r as [n|e|tb].
    + intros s Hs. apply masked_fields in Hs as [x ->]. apply Hred.
    + intros s Hs. cbn in Hs. apply list_elem_of_singleton in Hs as ->. apply Hred.
    + intros s Hs. by apply elem_of_nil in Hs.
  - intros [He Hc]. split; [|by intros <-; apply scrub_clears].
    destruct r as [n|e|tb]; [|intros _|done].
    + intros Hn%first_unscrubbed_None. unfold redacted_fields in Hc.
      assert (∀ o, o ∈ [n.(NodeRec.title); n.(NodeRec.author_name); Some n.(NodeRec.summary)] →
        ∀ s, o = Some s → clean s) as Hcl.
      { intros o Ho s ->. apply Hc, list_elem_of_omap. by exists (Some s). }
      apply scrub_cleared_same; [done|done|apply redact_clean_opt, Hcl; set_solver..|].
      apply redact_clean, (Hcl (Some n.(NodeRec.summary))); [set_solver|done].
    + destruct e. cbn. by rewrite redact_clean by (apply Hc; by left).
Qed.
End Properties.

(** ** A concrete bundle *)
Module BundleDemo.
Definition task (title : string) : GraphRecord :=
  GraphRecord.on_node (λ n, n{{ NodeRec.entity_id := Some "T-1"; NodeRec.title := Some title }})
    (GraphRecord.node "t" NodeKind.Task None None None "").
Definition claim (target : string) : GraphRecord :=
  GraphRecord.on_node (λ n, n{{ NodeRec.text := Some "raw"; NodeRec.superseded_by := Some "gone" }})
    (GraphRecord.with_evidence_links
       [EvidenceLink.mk (Some target) "project" "OWNED_BY_TASK" "high" None None None None]
       (GraphRecord.node "o" NodeKind.Observation None None None "")).
(** The task has two versions; [o] refers to it and to a record that is not there; [s] is
    connected to nothing. *)
Definition log : list GraphRecord :=
  [task "old"; claim "t"; task "new"; GraphRecord.node "s" NodeKind.Module None None None ""].
(** A printer and a hasher that return fixed texts. *)
Definition print (r : GraphRecord) : option string := Some (GraphRecord.id r).
Definition hash (s : string) : string := "0123456789abcdef".
Definition run (selector : string) : option (result EvidenceBundle.t Detail) :=
  export_bundle print hash 10 log selector "1.0".
Definition ids (res : option (result EvidenceBundle.t Detail)) : list string :=
  match res with Some (Ok b) => record_id <$> b.(EvidenceBundle.records) | _ => [] end.
Definition links (res : option (result EvidenceBundle.t Detail)) : list UnresolvedLink.t :=
  match res with Some (Ok b) => b.(EvidenceBundle.unresolved_links) | _ => [] end.
Definition verified (res : option (result EvidenceBundle.t Detail)) : bool :=
  match res with
  | Some (Ok b) => VerificationReport.ok (verify_bundle print hash b)
  | _ => false
  end.
End BundleDemo.

Example bundle_ids :
  BundleDemo.ids (BundleDemo.run "memory:o") = ["o"; "t"]
  ∧ BundleDemo.links (BundleDemo.run "memory:o") = [UnresolvedLink.mk "o" "gone" "superseded_by"]
  ∧ BundleDemo.verified (BundleDemo.run "memory:o") = true
  ∧ BundleDemo.run "memory" = Some (Err (InvalidSelector "memory"))
  ∧ BundleDemo.run "id:x" = Some (Err (NoRecordsMatched "id:x")).
Proof. split_and!; vm_compute; reflexivity. Qed.

(** A root id enters the queue once for every version of it that matches, without a look at
    what is marked: a task that was written twice is in its bundle twice, the latest version
    both times, and the manifest counts it twice. *)
Theorem root_versions_exported_twice :
  BundleDemo.ids (BundleDemo.run "task:T-1") = ["o"; "t"; "t"]
  ∧ (match BundleDemo.run "task:T-1" with
     | Some (Ok b) => b.(EvidenceBundle.manifest).(BundleManifest.included_record_counts)
                        !! "project_state"
     | _ => None
     end) = Some 2.
Proof. split_and!; vm_compute; reflexivity. Qed.

Lemma export_verifies_witness :
  match export_bundle BundleDemo.print BundleDemo.hash 10 BundleDemo.log "memory:o" "1.0" with
  | Some (Ok b) =>
      VerificationReport.integrity (verify_bundle BundleDemo.print BundleDemo.hash b)
      = VerificationVerdict.mk true IntegrityStable
  | _ => False
  end.
Proof.
  destruct (export_bundle _ _ _ _ _ _) as [[b|e]|] eqn:Hrun; [|vm_compute in Hrun; discriminate..].
  exact (proj1 (export_verifies BundleDemo.print BundleDemo.hash 10 BundleDemo.log "memory:o" "1.0" b
           (λ r, mk_is_Some _ _ eq_refl) Hrun)).
Defined.

Lemma scrub_lockstep_witness :
  first_unscrubbed_field (scrub_record BundleDemo.hash (BundleDemo.claim "t")) = None
  ∧ first_unscrubbed_field (BundleDemo.claim "t") = Some "text"
  ∧ (first_unscrubbed_field (BundleDemo.claim "t") = None ↔
     scrub_record BundleDemo.hash (BundleDemo.claim "t") = BundleDemo.claim "t").
Proof.
  pose proof (scrub_lockstep BundleDemo.hash
    ltac:(intros s; split; [apply (bool_decide_unpack _); vm_compute; exact I|reflexivity])
    (BundleDemo.claim "t")) as (H1 & _ & _ & _ & H2).
  split; [exact H1|]. split; [vm_compute; reflexivity|]. apply H2. split; [reflexivity|].
  intros s Hs. vm_compute in Hs. apply list_elem_of_singleton in Hs as ->. vm_compute. reflexivity.
Defined.
