(* ===== verification/DaemonWrites.v ===== *)
(** * The write path of the daemon

    The receipts of [src/src/daemon.rs]: a write is recorded as pending under its idempotency
    key before it reaches the store and as committed once the store has it; a retry is answered
    from the receipt or recovered against the store; and the offline repair of the receipts a
    crashed daemon left behind. The write worker takes one command at a time, so a step of the
    model is a whole command. The store is a [GraphSink] with two more operations; the domain
    validators, the outcome of a durable write of the receipt file, BLAKE3 and [serde_json] are
    arguments. The poisoning of locks is not modelled. *)
From S2P Require Import Prelude RustStr Ir IrOps SchemaVersion RecordEq Ingest.

(** ** Errors *)

Module ErrorCode.
(* daemon.rs 1091-1181: ErrorCode *)
Inductive t : Set :=
| Unauthorized
| BadRequest
| MissingField
| InvalidDomain
| IdempotencyConflict
| NotFound
| PayloadTooLarge
| QueueFull
| QueryTimeout
| InternalError
| NotImplemented
| ShutdownInProgress
| RedactionRequired
| UnresolvedEvidenceTarget
| LocalPathIdentityUnsupported
| AmbiguousCommitPrefix
| MissingEvidenceHandle
| PatchStatusPinned
| InlinePayloadExceedsCeiling
| RuntimePermissionsUnsafe
| TokenRotated
| AcceptanceCriterionMissingVerification
| DriftPriorTargetMismatch
| DriftRecordImmutable
| UnknownSchemaVersion
| InsufficientPromotionEvidence
| UnapprovedDurableUserContext
| MissingSemanticIndex
| UnreadableSemanticIndex
| IncompatibleEmbeddingDimension
| UnknownRepositorySelector
| AmbiguousRepositorySelector
| InvalidLimit
| DanglingHandle
| MalformedHandle
| UnsupportedHandleDomain.

#[global] Instance t_eq_dec : EqDecision t.
Proof. solve_decision. Defined.

(* daemon.rs 1184-1225: ErrorCode::as_str *)
Definition as_str (self : t) : string :=
  match self with
  | Unauthorized => "unauthorized"
  | BadRequest => "bad_request"
  | MissingField => "missing_field"
  | InvalidDomain => "invalid_domain"
  | IdempotencyConflict => "idempotency_conflict"
  | NotFound => "not_found"
  | PayloadTooLarge => "payload_too_large"
  | QueueFull => "queue_full"
  | QueryTimeout => "query_timeout"
  | InternalError => "internal_error"
  | NotImplemented => "not_implemented"
  | ShutdownInProgress => "shutdown_in_progress"
  | RedactionRequired => "redaction_required"
  | UnresolvedEvidenceTarget => "unresolved_evidence_target"
  | LocalPathIdentityUnsupported => "local_path_identity_unsupported"
  | AmbiguousCommitPrefix => "ambiguous_commit_prefix"
  | MissingEvidenceHandle => "missing_evidence_handle"
  | PatchStatusPinned => "patch_status_pinned"
  | InlinePayloadExceedsCeiling => "inline_payload_exceeds_ceiling"
  | RuntimePermissionsUnsafe => "runtime_permissions_unsafe"
  | TokenRotated => "token_rotated"
  | AcceptanceCriterionMissingVerification => "acceptance_criterion_missing_verification"
  | DriftPriorTargetMismatch => "drift_prior_target_mismatch"
  | DriftRecordImmutable => "drift_record_immutable"
  | UnknownSchemaVersion => UNKNOWN_SCHEMA_VERSION_CODE
  | InsufficientPromotionEvidence => "insufficient_promotion_evidence"
  | UnapprovedDurableUserContext => "unapproved_durable_user_context"
  | MissingSemanticIndex => "missing_semantic_index"
  | UnreadableSemanticIndex => "semantic_index_unreadable"
  | IncompatibleEmbeddingDimension => "incompatible_embedding_dimension"
  | UnknownRepositorySelector => "unknown_repository_selector"
  | AmbiguousRepositorySelector => "ambiguous_repository_selector"
  | InvalidLimit => "invalid_limit"
  | DanglingHandle => "dangling_handle"
  | MalformedHandle => "malformed_handle"
  | UnsupportedHandleDomain => "unsupported_handle_domain"
  end.

(* daemon.rs 1227-1264: ErrorCode::http_status *)
Definition http_status (self : t) : N :=
  match self with
    | Unauthorized | TokenRotated => 401
    | BadRequest | MissingField | InvalidDomain | InlinePayloadExceedsCeiling |
    AmbiguousCommitPrefix | UnknownRepositorySelector | AmbiguousRepositorySelector |
    MalformedHandle | UnsupportedHandleDomain | InvalidLimit => 400
    | IdempotencyConflict => 409
    | NotFound | DanglingHandle => 404
    | PayloadTooLarge => 413
    | QueueFull => 429
    | QueryTimeout => 408
    | InternalError | RuntimePermissionsUnsafe => 500
    | NotImplemented => 501
    | ShutdownInProgress => 503
    | RedactionRequired | UnresolvedEvidenceTarget | LocalPathIdentityUnsupported |
    MissingEvidenceHandle | PatchStatusPinned | AcceptanceCriterionMissingVerification |
    DriftPriorTargetMismatch | DriftRecordImmutable | UnknownSchemaVersion |
    InsufficientPromotionEvidence | UnapprovedDurableUserContext | MissingSemanticIndex |
    UnreadableSemanticIndex | IncompatibleEmbeddingDimension => 422
  end%N.
End ErrorCode.

Module ApiError.
(* daemon.rs 1267-1277: ApiError *)
Record t : Type := mk {
  status : N;
  code : ErrorCode.t;
  message : string;
  field : option string;
  retry_after_ms : option N;
  partial_result : option bool;
  candidates : option (list string)
}.

(* daemon.rs 1280-1290: ApiError::new *)
Definition new (code : ErrorCode.t) (message : string) : t :=
  mk (ErrorCode.http_status code) code message None None None None.

(* daemon.rs 1342-1356: ApiError::unknown_schema_version *)
Definition unknown_schema_version (unknown : UnknownSchemaVersion.t) : t :=
  mk (ErrorCode.http_status ErrorCode.UnknownSchemaVersion) ErrorCode.UnknownSchemaVersion
    ("unsupported record schema version: "
       +:+ RecordVersion.display unknown.(UnknownSchemaVersion.version))
    (Some "schema_version") None None None.

(* daemon.rs 1362-1364: ApiError::conflict *)
Definition conflict (message : string) : t := new ErrorCode.IdempotencyConflict message.

(* daemon.rs 1409-1411: ApiError::internal *)
Definition internal (message : string) : t := new ErrorCode.InternalError message.
End ApiError.

(* daemon.rs 1037-1037: WriteResult *)
Definition WriteResult (A : Type) : Type := result A ApiError.t.

(** ** Receipts *)

Module DaemonIngestResponse.
(* daemon.rs 191-214: DaemonIngestResponse *)
Record t : Type := mk {
  attempted : nat;
  succeeded : nat;
  failed : nat;
  failures : list (string * string);
  record_ids : list string;
  idempotent : bool;
  inserted : nat;
  unchanged : nat
}.

(* daemon.rs 226-245: DaemonIngestResponse::from_report *)
Definition from_report (report : IngestReport.t) (record_ids : list string) (idempotent : bool) : t :=
  mk report.(IngestReport.attempted) report.(IngestReport.succeeded) report.(IngestReport.failed)
    report.(IngestReport.failures) record_ids idempotent
    report.(IngestReport.inserted) report.(IngestReport.unchanged).

(** [response.idempotent = true]. *)
(* daemon.rs 2701-2701: apply_write *)
Definition as_replay (self : t) : t :=
  mk self.(attempted) self.(succeeded) self.(failed) self.(failures) self.(record_ids) true
    self.(inserted) self.(unchanged).

(** The response of a write that was found complete in the store. *)
(* daemon.rs 2867-2882: recover_pending_write *)
Definition already_durable (record_ids : list string) (idempotent : bool) : t :=
  mk (length record_ids) (length record_ids) 0 [] record_ids idempotent 0 (length record_ids).
End DaemonIngestResponse.
Abbreviation Response := DaemonIngestResponse.t.

Module IdempotencyEntry.
(* daemon.rs 249-259: IdempotencyEntry *)
Inductive t : Type :=
| Pending (payload_hash : string) (record_ids : list string) (records : list GraphRecord)
| Committed (payload_hash : string) (response : Response).

(* daemon.rs 262-268: IdempotencyEntry::payload_hash *)
Definition payload_hash (self : t) : string :=
  match self with Pending payload_hash _ _ | Committed payload_hash _ => payload_hash end.

Definition is_pending (self : t) : bool := match self with Pending _ _ _ => true | _ => false end.
End IdempotencyEntry.
(** The entries of the receipt file; [BTreeMap<String, IdempotencyEntry>]. *)
Abbreviation Receipts := (gmap string IdempotencyEntry.t).

Module WriteCommand.
(* daemon.rs 681-688: WriteCommand *)
Record t : Type := mk {
  idempotency_key : string;
  payload_hash : string;
  records : list GraphRecord;
  dangling_citation_policy : DanglingCitationPolicy
}.
End WriteCommand.

(** ** The store *)

(** What the store says of a record it is asked to hold. *)
(* adapters/mod.rs 39-43: ExpectedRecordState *)
Inductive ExpectedRecordState : Set := Matched | Mismatched | Missing.
#[export] Instance ExpectedRecordState_eq_dec : EqDecision ExpectedRecordState.
Proof. solve_decision. Defined.

(** The two operations of the embedded store the write path uses beyond [GraphSink]. *)
Class EmbeddedSink (S : Type) := {
  expected_record_state : S → GraphRecord → AdapterResult ExpectedRecordState;
  persist_indexes : S → AdapterResult unit
}.

(** The domain validators: each accepts the batch or rejects it; three of them also return the
    edges they synthesize, the last one the nodes it completed. *)
Class DomainValidators (S : Type) := {
  validate_no_local_path_identity_in_shared_store : list GraphRecord → S → WriteResult unit;
  validate_verification_domain_records : list GraphRecord → WriteResult unit;
  validate_artifact_domain_records : list GraphRecord → S → WriteResult unit;
  validate_project_domain_records : list GraphRecord → S → WriteResult (list GraphRecord);
  validate_user_context_domain_records : list GraphRecord → S → WriteResult (list GraphRecord);
  validate_semantic_domain_records : list GraphRecord → S → WriteResult unit;
  validate_and_synthesize_evidence_edges :
    list GraphRecord → S → WriteResult (list GraphRecord * list GraphRecord)
}.

(* daemon.rs 3553-3559: validate_record_schema_versions *)
Fixpoint validate_record_schema_versions (records : list GraphRecord) : WriteResult unit :=
  match records with
  | [] => Ok ()
  | record :: records =>
      let? _u := map_err ApiError.unknown_schema_version (validate_record_version record) in
      validate_record_schema_versions records
  end.

(** ** Recovery keys *)
Section RecoveryKeys.
Context (to_vec : GraphRecord → option string) (blake3_hex : string → string).
Abbreviation NUL_ := (String NUL EmptyString).

(* daemon.rs 8191-8212: recovery_key *)
Definition recovery_key (record : GraphRecord) : string :=
  match record with
  | Node n =>
      match n.(NodeRec.temporal) with
      | Some temporal =>
          "node" +:+ NUL_ +:+ n.(NodeRec.id) +:+ NUL_ +:+ temporal.(TemporalMetadata.git_commit)
      | None => n.(NodeRec.id)
      end
  | Tombstone tb => tb.(TombRec.id)
  | Edge e =>
      let commit := default "" (TemporalMetadata.git_commit <$> e.(EdgeRec.temporal)) in
      let payload := default "" (to_vec record) in
      "edge" +:+ NUL_ +:+ e.(EdgeRec.id) +:+ NUL_ +:+ commit +:+ NUL_ +:+ blake3_hex payload
  end.

(* daemon.rs 8170-8174: has_duplicate_recovery_keys *)
Fixpoint duplicate_loop (seen : gset string) (records : list GraphRecord) : bool :=
  match records with
  | [] => false
  | record :: records =>
      if bool_decide (recovery_key record ∈ seen) then true
      else duplicate_loop ({[recovery_key record]} ∪ seen) records
  end.
(* daemon.rs 8168-8176: has_duplicate_recovery_keys *)
Definition has_duplicate_recovery_keys (records : list GraphRecord) : bool :=
  duplicate_loop ∅ records.

(* daemon.rs 8180-8187: has_ambiguous_recovery_keys *)
Fixpoint ambiguous_loop (seen : gmap string GraphRecord) (records : list GraphRecord) : bool :=
  match records with
  | [] => false
  | record :: records =>
      let key := recovery_key record in
      match seen !! key with
      | Some previous =>
          if bool_decide (previous = record) then ambiguous_loop (<[key := record]> seen) records
          else true
      | None => ambiguous_loop (<[key := record]> seen) records
      end
  end.
(* daemon.rs 8178-8189: has_ambiguous_recovery_keys *)
Definition has_ambiguous_recovery_keys (records : list GraphRecord) : bool :=
  ambiguous_loop ∅ records.

(* daemon.rs 6756-6763: validate_unique_recovery_keys *)
Definition validate_unique_recovery_keys (records : list GraphRecord) : WriteResult unit :=
  if has_duplicate_recovery_keys records || has_ambiguous_recovery_keys records
  then Err (ApiError.conflict
              "ingest payload has duplicate record IDs that are not idempotently recoverable")
  else Ok ().
End RecoveryKeys.

(** ** Applying a write *)

Module Daemon.
(** The receipts and the store of a daemon. *)
(* daemon.rs 276-279: IdempotencyStore *)
Record t (S : Type) : Type := mk { receipts : Receipts; sink : S }.
Arguments mk {S} _ _.
Arguments receipts {S} _.
Arguments sink {S} _.
End Daemon.

Section Writes.
Context (json_object : list (string * string) → string) (to_vec : GraphRecord → option string)
  (blake3_hex : string → string).
Context {S : Type} `{GraphSink S} `{!EmbeddedSink S} `{!DomainValidators S}.
Abbreviation State := (Daemon.t S).

Section Durable.
(** The outcome of writing the receipt file with a new entry under a key. *)
Context (durable : string → IdempotencyEntry.t → result unit string).

(* daemon.rs 313-319: IdempotencyStore::set_entry_durably *)
Definition set_entry_durably (key : string) (entry : IdempotencyEntry.t) (receipts : Receipts)
    : result Receipts string :=
  let? _u := durable key entry in Ok (<[key := entry]> receipts).

(** [.map_err(|error| ApiError::internal(error.to_string()))?], with the new receipts. *)
Definition record_entry (key : string) (entry : IdempotencyEntry.t) (st : State)
    : WriteResult State :=
  let? receipts := map_err ApiError.internal
                     (set_entry_durably key entry st.(Daemon.receipts)) in
  Ok (Daemon.mk receipts st.(Daemon.sink)).

(* daemon.rs 8214-8235: complete_idempotency_entry *)
Definition complete_idempotency_entry (idempotency_key payload_hash : string) (response : Response)
    (st : State) : WriteResult State :=
  record_entry idempotency_key (IdempotencyEntry.Committed payload_hash response) st.

(** [read_back(id).is_ok_and(|r| r.is_some())]. *)
(* daemon.rs 2649-2649: recover_pending_write_pre_validation *)
Definition is_present (sink : S) (id : string) : bool :=
  match read_back sink id with Ok (Some _) => true | _ => false end.
(* daemon.rs 2640-2642: recover_pending_write_pre_validation *)
Definition is_matched (sink : S) (record : GraphRecord) : bool :=
  match expected_record_state sink record with Ok Matched => true | _ => false end.

(** The ids of a receipt that are not those of its records: the synthesized edges. *)
(* daemon.rs 2632-2652: recover_pending_write_pre_validation *)
Definition synthesized_ids (record_ids : list string) (records : list GraphRecord) : list string :=
  let original_ids := GraphRecord.id <$> records in
  filter (λ id, id ∉ original_ids) record_ids.

(** The receipt is only completed when everything is in the store: [Ok None] otherwise. *)
(* daemon.rs 2618-2674: recover_pending_write_pre_validation *)
Definition recover_pending_write_pre_validation (command : WriteCommand.t) (st : State)
    : State * WriteResult (option Response) :=
  match st.(Daemon.receipts) !! command.(WriteCommand.idempotency_key) with
  | Some (IdempotencyEntry.Pending _ pending_record_ids _) =>
      let records := command.(WriteCommand.records) in
      let originals_ok := forallb (is_matched st.(Daemon.sink)) records in
      let synthesized_ok :=
        forallb (is_present st.(Daemon.sink)) (synthesized_ids pending_record_ids records) in
      if negb (originals_ok && synthesized_ok) then (st, Ok None)
      else
        let response := DaemonIngestResponse.already_durable pending_record_ids true in
        match complete_idempotency_entry command.(WriteCommand.idempotency_key)
                command.(WriteCommand.payload_hash) response st with
        | Ok st => (st, Ok (Some response))
        | Err error => (st, Err error)
        end
  | _ => (st, Ok None)
  end.

(** The numbers of matched and of mismatched records. *)
(* daemon.rs 2841-2851: recover_pending_write *)
Fixpoint tally_states (sink : S) (records : list GraphRecord) (matched mismatched : nat)
    : AdapterResult (nat * nat) :=
  match records with
  | [] => Ok (matched, mismatched)
  | record :: records =>
      let? state := expected_record_state sink record in
      match state with
      | Matched => tally_states sink records (matched + 1) mismatched
      | Mismatched => tally_states sink records matched (mismatched + 1)
      | Missing => tally_states sink records matched mismatched
      end
  end.

(* daemon.rs 2824-2887: recover_pending_write *)
Definition recover_pending_write (idempotency_key payload_hash : string)
    (records : list GraphRecord) (st : State) : State * WriteResult (option Response) :=
  if has_duplicate_recovery_keys to_vec blake3_hex records
     || has_ambiguous_recovery_keys to_vec blake3_hex records
  then (st, Err (ApiError.conflict
    "idempotency key has duplicate record IDs in pending recovery; manual repair is required"))
  else
    match tally_states st.(Daemon.sink) records 0 0 with
    | Err error => (st, Err (ApiError.internal (AdapterError.to_string error)))
    | Ok (matched, mismatched) =>
        if (0 <? mismatched)%nat then
          (st, Err (ApiError.conflict
            "idempotency key has conflicting committed records; manual repair is required"))
        else if (matched =? 0)%nat then (st, Ok None)
        else if negb (matched =? length records)%nat then
          (st, Err (ApiError.conflict
            "idempotency key has a partial committed write; manual repair is required"))
        else
          let response :=
            DaemonIngestResponse.already_durable (GraphRecord.id <$> records) false in
          match complete_idempotency_entry idempotency_key payload_hash response st with
          | Err error => (st, Err error)
          | Ok st => (st, Ok (Some (DaemonIngestResponse.as_replay response)))
          end
    end.

(** The validation of a batch and the edges and completed nodes it brings. *)
(* daemon.rs 2721-2735: apply_write *)
Definition validate_batch (records : list GraphRecord) (sink : S)
    : WriteResult (list GraphRecord * list GraphRecord) :=
  let? _u := validate_record_schema_versions records in
  let? _u := validate_no_local_path_identity_in_shared_store records sink in
  let? _u := validate_verification_domain_records records in
  let? _u := validate_artifact_domain_records records sink in
  let? project_edges := validate_project_domain_records records sink in
  let? user_context_edges := validate_user_context_domain_records records sink in
  let? _u := validate_semantic_domain_records records sink in
  let? synthesized := validate_and_synthesize_evidence_edges records sink in
  Ok (project_edges ++ user_context_edges ++ synthesized.1, synthesized.2).

(* daemon.rs 2740-2748: apply_write *)
Definition conflicting_edge (records edges : list GraphRecord) : option GraphRecord :=
  let submitted_ids := GraphRecord.id <$> records in
  List.find (λ edge, bool_decide (GraphRecord.id edge ∈ submitted_ids)) edges.

(** The submitted records in their canonical versions, then the synthesized edges. *)
(* daemon.rs 2752-2765: apply_write *)
Definition all_records (records edges canonical_nodes : list GraphRecord) : list GraphRecord :=
  let canonical_node_map : gmap string GraphRecord :=
    foldl (λ m r, <[GraphRecord.id r := r]> m) ∅ canonical_nodes in
  ((λ r, default r (canonical_node_map !! GraphRecord.id r)) <$> records) ++ edges.

(** The part of a write that reaches the store. *)
(* daemon.rs 2802-2821: apply_write *)
Definition write_through (fuel : nat) (command : WriteCommand.t) (records : list GraphRecord)
    (st : State) : option (State * WriteResult Response) :=
  let?o ingested := ingest_records_with_policy json_object fuel records st.(Daemon.sink)
                      command.(WriteCommand.dangling_citation_policy) in
  let '(sink, report) := ingested in
  let st := Daemon.mk st.(Daemon.receipts) sink in
  let persisted := if (0 <? report.(IngestReport.succeeded))%nat then persist_indexes sink
                   else Ok () in
  Some (match persisted with
        | Err error => (st, Err (ApiError.internal (AdapterError.to_string error)))
        | Ok _ =>
            let response :=
              DaemonIngestResponse.from_report report (GraphRecord.id <$> records) false in
            match complete_idempotency_entry command.(WriteCommand.idempotency_key)
                    command.(WriteCommand.payload_hash) response st with
            | Err error => (st, Err error)
            | Ok st => (st, Ok response)
            end
        end).

(** The rest of a write after the receipt was consulted; [None] is the end of the fuel of the
    ingest. *)
(* daemon.rs 2721-2821: apply_write *)
Definition validated_write (fuel : nat) (is_pending : bool) (command : WriteCommand.t) (st : State)
    : option (State * WriteResult Response) :=
  let key := command.(WriteCommand.idempotency_key) in
  match validate_batch command.(WriteCommand.records) st.(Daemon.sink) with
  | Err error => Some (st, Err error)
  | Ok (edges, canonical_nodes) =>
      match conflicting_edge command.(WriteCommand.records) edges with
      | Some edge =>
          Some (st, Err (ApiError.conflict
            ("synthesized evidence-edge ID '" +:+ GraphRecord.id edge
               +:+ "' conflicts with a submitted record")))
      | None =>
          let records := all_records command.(WriteCommand.records) edges canonical_nodes in
          if is_pending then
            match recover_pending_write key command.(WriteCommand.payload_hash) records st with
            | (st, Err error) => Some (st, Err error)
            | (st, Ok (Some response)) => Some (st, Ok response)
            | (st, Ok None) => write_through fuel command records st
            end
          else
            match record_entry key
                    (IdempotencyEntry.Pending command.(WriteCommand.payload_hash)
                       (GraphRecord.id <$> records) command.(WriteCommand.records)) st with
            | Err error => Some (st, Err error)
            | Ok st => write_through fuel command records st
            end
      end
  end.

(* daemon.rs 2677-2822: apply_write *)
Definition apply_write (fuel : nat) (command : WriteCommand.t) (st : State)
    : option (State * WriteResult Response) :=
  match validate_unique_recovery_keys to_vec blake3_hex command.(WriteCommand.records) with
  | Err error => Some (st, Err error)
  | Ok _ =>
      match st.(Daemon.receipts) !! command.(WriteCommand.idempotency_key) with
      | Some entry =>
          if negb (IdempotencyEntry.payload_hash entry =s? command.(WriteCommand.payload_hash))
          then Some (st, Err (ApiError.conflict "idempotency key reused with different payload"))
          else
            match entry with
            | IdempotencyEntry.Committed _ response =>
                Some (st, Ok (DaemonIngestResponse.as_replay response))
            | IdempotencyEntry.Pending _ _ _ =>
                match recover_pending_write_pre_validation command st with
                | (st, Err error) => Some (st, Err error)
                | (st, Ok (Some response)) => Some (st, Ok response)
                | (st, Ok None) => validated_write fuel true command st
                end
            end
      | None => validated_write fuel false command st
      end
  end.
End Durable.

End Writes.

(** ** The keys of a batch *)
Section KeyFacts.
Context (to_vec : GraphRecord → option string) (blake3_hex : string → string).
Abbreviation key := (recovery_key to_vec blake3_hex).

Lemma duplicate_loop_spec seen records :
  duplicate_loop to_vec blake3_hex seen records = false ↔
  NoDup (key <$> records) ∧ ∀ r, r ∈ records → key r ∉ seen.
Proof.
  revert seen. induction records as [|r l IH]; intros seen; cbn [duplicate_loop fmap list_fmap].
  { split; [|done]. intros _. split; [constructor|]. intros r Hr. by apply elem_of_nil in Hr. }
  rewrite NoDup_cons. case_bool_decide as Hin.
  - split; [done|]. intros [_ H]. by destruct (H r); [left|].
  - rewrite IH, list_elem_of_fmap. setoid_rewrite elem_of_cons. split.
    + intros [Hnd Hs]. split; [split; [|done]|].
      * intros (y & Hk & Hy). apply (Hs y Hy). set_solver.
      * intros y [->|Hy]; [done|]. specialize (Hs y Hy). set_solver.
    + intros [[Hr Hnd] Hs]. split; [done|]. intros y Hy Hk. apply elem_of_union in Hk as [Hk|Hk].
      * apply elem_of_singleton in Hk. apply Hr. eauto.
      * by apply (Hs y); [right|].
Qed.

Lemma unique_keys_spec records :
  has_duplicate_recovery_keys to_vec blake3_hex records = false ↔ NoDup (key <$> records).
Proof. unfold has_duplicate_recovery_keys. rewrite duplicate_loop_spec. set_solver. Qed.

Lemma ambiguous_loop_spec seen records :
  ambiguous_loop to_vec blake3_hex seen records = false ↔
  (∀ r r', r ∈ records → r' ∈ records → key r = key r' → r = r')
  ∧ ∀ r r', r ∈ records → seen !! key r = Some r' → r' = r.
Proof.
  revert seen. induction records as [|r l IH]; intros seen; cbn [ambiguous_loop].
  { split; [|done]. intros _. split; intros ? ? Hr; by apply elem_of_nil in Hr. }
  assert (match seen !! key r with
          | Some previous => if bool_decide (previous = r) then ambiguous_loop to_vec blake3_hex (<[key r := r]> seen) l else true
          | None => ambiguous_loop to_vec blake3_hex (<[key r := r]> seen) l
          end = false ↔
    (∀ r', seen !! key r = Some r' → r' = r)
    ∧ ambiguous_loop to_vec blake3_hex (<[key r := r]> seen) l = false) as ->.
  { destruct (seen !! key r) as [p|]; [|naive_solver]. case_bool_decide; naive_solver. }
  rewrite IH. setoid_rewrite elem_of_cons. split.
  - intros (Hs & Heq & Hl). split.
    + intros x y [->|Hx] [->|Hy] Hk; [done| | |by apply Heq].
      * apply (Hl y r Hy). by rewrite <-Hk, lookup_insert_eq.
      * symmetry. apply (Hl x r Hx). by rewrite Hk, lookup_insert_eq.
    + intros x y [->|Hx] Hy; [by apply Hs|]. destruct (decide (key r = key x)) as [Hk|Hk].
      * assert (r = x) as -> by (apply (Hl x r Hx); by rewrite Hk, lookup_insert_eq). by apply Hs.
      * apply (Hl x y Hx). by rewrite lookup_insert_ne.
  - intros [Heq Hs]. split; [intros r' Hr'; apply (Hs r r'); [by left|done]|].
    split; [intros x y Hx Hy; apply Heq; by right|].
    intros x y Hx. destruct (decide (key r = key x)) as [Hk|Hk].
    + rewrite Hk, lookup_insert_eq. intros [= <-]. apply Heq; [by left|by right|done].
    + rewrite lookup_insert_ne by done. apply Hs. by right.
Qed.

Lemma unambiguous_spec records :
  has_ambiguous_recovery_keys to_vec blake3_hex records = false ↔
  ∀ r r', r ∈ records → r' ∈ records → key r = key r' → r = r'.
Proof.
  unfold has_ambiguous_recovery_keys. rewrite ambiguous_loop_spec. split; [naive_solver|].
  intros Heq. split; [done|]. intros r r' _. by rewrite lookup_empty.
Qed.

(** Unique keys leave no room for ambiguity. *)
Lemma unique_unambiguous records :
  has_duplicate_recovery_keys to_vec blake3_hex records = false →
  has_ambiguous_recovery_keys to_vec blake3_hex records = false.
Proof.
  rewrite unique_keys_spec, unambiguous_spec. intros Hnd r r' Hr Hr' Hk.
  apply list_elem_of_lookup in Hr as [i Hi], Hr' as [j Hj].
  assert (i = j) as ->.
  { apply (NoDup_lookup (key <$> records) i j (key r) Hnd); rewrite list_lookup_fmap; [by rewrite Hi|].
    rewrite Hj. cbn. by rewrite Hk. }
  congruence.
Qed.

Lemma validate_unique_spec records :
  validate_unique_recovery_keys to_vec blake3_hex records = Ok () ↔ NoDup (key <$> records).
Proof.
  unfold validate_unique_recovery_keys. rewrite <-unique_keys_spec.
  destruct (has_duplicate_recovery_keys _ _ records) eqn:Hd; [done|].
  by rewrite (unique_unambiguous _ Hd).
Qed.
End KeyFacts.

(** ** The contract of the write path *)
Section Contract.
Context (json_object : list (string * string) → string) (to_vec : GraphRecord → option string)
  (blake3_hex : string → string).
Context {S : Type} `{GraphSink S} `{!EmbeddedSink S} `{!DomainValidators S}.
Abbreviation State := (Daemon.t S).
Abbreviation apply_write := (apply_write json_object to_vec blake3_hex).

Section Command.
Context (command : WriteCommand.t).
Abbreviation key := command.(WriteCommand.idempotency_key).
Abbreviation hash := command.(WriteCommand.payload_hash).

(** What a validated batch writes. *)
Definition batch_of (sink : S) (recs : list GraphRecord) : Prop :=
  ∃ edges nodes, validate_batch command.(WriteCommand.records) sink = Ok (edges, nodes)
    ∧ recs = all_records command.(WriteCommand.records) edges nodes.

Definition holds (sink : S) (r : GraphRecord) : Prop := expected_record_state sink r = Ok Matched.
Definition lacks (sink : S) (r : GraphRecord) : Prop := expected_record_state sink r = Ok Missing.

(** The write behind a pending receipt is in the store: its records and the ids of the edges
    synthesized for them, or everything the batch would write now. *)
Definition durable_write (sink : S) (ids : list string) : Prop :=
  (Forall (holds sink) command.(WriteCommand.records)
   ∧ Forall (λ id, is_present sink id = true) (synthesized_ids ids command.(WriteCommand.records)))
  ∨ ∃ recs, batch_of sink recs ∧ recs ≠ [] ∧ Forall (holds sink) recs.

(** A batch may go to the store when there is no receipt, or a pending one of the same payload
    and nothing of the batch is in the store. *)
Definition may_write (st : State) (recs : list GraphRecord) : Prop :=
  batch_of st.(Daemon.sink) recs
  ∧ (st.(Daemon.receipts) !! key = None
     ∨ ∃ ids recs0, st.(Daemon.receipts) !! key = Some (IdempotencyEntry.Pending hash ids recs0)
         ∧ Forall (lacks st.(Daemon.sink)) recs).

Definition ingested (sink : S) (recs : list GraphRecord) (sink' : S) (report : Report) : Prop :=
  ∃ fuel, ingest_records_with_policy json_object fuel recs sink
            command.(WriteCommand.dangling_citation_policy) = Some (sink', report).

(** Why a write is refused. *)
Inductive refusal (st : State) (error : ApiError.t) : Prop :=
| refuse_duplicate :
    ¬ NoDup (recovery_key to_vec blake3_hex <$> command.(WriteCommand.records)) →
    error.(ApiError.code) = ErrorCode.IdempotencyConflict → refusal st error
| refuse_reused entry :
    st.(Daemon.receipts) !! key = Some entry → IdempotencyEntry.payload_hash entry ≠ hash →
    error.(ApiError.code) = ErrorCode.IdempotencyConflict → refusal st error
| refuse_invalid :
    validate_batch command.(WriteCommand.records) st.(Daemon.sink) = Err error → refusal st error
| refuse_edge edges nodes edge :
    validate_batch command.(WriteCommand.records) st.(Daemon.sink) = Ok (edges, nodes) →
    edge ∈ edges → GraphRecord.id edge ∈ GraphRecord.id <$> command.(WriteCommand.records) →
    error.(ApiError.code) = ErrorCode.IdempotencyConflict → refusal st error
| refuse_unsettled ids recs0 recs :
    st.(Daemon.receipts) !! key = Some (IdempotencyEntry.Pending hash ids recs0) →
    batch_of st.(Daemon.sink) recs →
    ¬ NoDup (recovery_key to_vec blake3_hex <$> recs)
    ∨ ¬ Forall (lacks st.(Daemon.sink)) recs ∧ ¬ Forall (holds st.(Daemon.sink)) recs →
    error.(ApiError.code) = ErrorCode.IdempotencyConflict → refusal st error
| refuse_internal : error.(ApiError.code) = ErrorCode.InternalError → refusal st error.

(** The steps of a write. *)
Inductive write_step (st : State) : State → WriteResult Response → Prop :=
| step_rejected error : refusal st error → write_step st st (Err error)
| step_replayed response :
    st.(Daemon.receipts) !! key = Some (IdempotencyEntry.Committed hash response) →
    write_step st st (Ok (DaemonIngestResponse.as_replay response))
| step_recovered ids recs response :
    st.(Daemon.receipts) !! key = Some (IdempotencyEntry.Pending hash ids recs) →
    durable_write st.(Daemon.sink) ids →
    response.(DaemonIngestResponse.inserted) = 0 →
    write_step st
      (Daemon.mk (<[key := IdempotencyEntry.Committed hash response]> st.(Daemon.receipts))
         st.(Daemon.sink))
      (Ok (DaemonIngestResponse.as_replay response))
| step_written recs sink report :
    may_write st recs → ingested st.(Daemon.sink) recs sink report →
    let response := DaemonIngestResponse.from_report report (GraphRecord.id <$> recs) false in
    write_step st
      (Daemon.mk (<[key := IdempotencyEntry.Committed hash response]> st.(Daemon.receipts)) sink)
      (Ok response)
| step_unfinished recs sink report receipts ids recs0 error :
    may_write st recs → ingested st.(Daemon.sink) recs sink report →
    error.(ApiError.code) = ErrorCode.InternalError →
    receipts !! key = Some (IdempotencyEntry.Pending hash ids recs0) →
    (∀ k, k ≠ key → receipts !! k = st.(Daemon.receipts) !! k) →
    (recs0 = command.(WriteCommand.records)
     ∨ st.(Daemon.receipts) !! key = Some (IdempotencyEntry.Pending hash ids recs0)) →
    write_step st (Daemon.mk receipts sink) (Err error).
End Command.

Context (durable : string → IdempotencyEntry.t → result unit string).

Lemma record_entry_Ok key entry (st st' : State) :
  record_entry durable key entry st = Ok st' →
  st' = Daemon.mk (<[key := entry]> st.(Daemon.receipts)) st.(Daemon.sink).
Proof.
  unfold record_entry, set_entry_durably. destruct (durable key entry); [|done]. cbn. by intros [= <-].
Qed.

Lemma is_matched_holds sink r : is_matched sink r = true ↔ holds sink r.
Proof. unfold is_matched, holds. destruct (expected_record_state sink r) as [[| |]|]; split; congruence. Qed.

Lemma forallb_Forall {A} (f : A → bool) (P : A → Prop) l :
  (∀ x, f x = true ↔ P x) → forallb f l = true ↔ Forall P l.
Proof.
  intros Hf. induction l as [|x l IH]; cbn; [split; [constructor|done]|].
  by rewrite andb_true_iff, Forall_cons, IH, Hf.
Qed.

(** The numbers the tally ends with tell a batch that is not in the store and one that is. *)
Lemma tally_states_spec sink records m mm m' mm' :
  tally_states sink records m mm = Ok (m', mm') →
  m ≤ m' ≤ m + length records ∧ mm ≤ mm'
  ∧ (m' = m ∧ mm' = mm ↔ Forall (lacks sink) records)
  ∧ (m' = m + length records ∧ mm' = mm ↔ Forall (holds sink) records).
Proof.
  revert m mm. induction records as [|r l IH]; intros m mm; cbn [tally_states length].
  { intros [= <- <-]. rewrite !Forall_nil. lia. }
  rewrite !Forall_cons. unfold lacks, holds in *.
  destruct (expected_record_state sink r) as [[| |]|e] eqn:Hr; cbn; [..|done];
    intros Ht; apply IH in Ht as (? & ? & Hl & Hh); rewrite <-Hl, <-Hh;
    (split; [lia|]); (split; [lia|]); split; (split; [intros []|intros [? []]]); split; try congruence; try lia;
    split; lia.
Qed.

Lemma record_entry_Err key entry (st : State) error :
  record_entry durable key entry st = Err error → error.(ApiError.code) = ErrorCode.InternalError.
Proof.
  unfold record_entry, set_entry_durably. destruct (durable key entry); [done|]. cbn. by intros [= <-].
Qed.

Section Refinement.
Context (command : WriteCommand.t).
Abbreviation key := command.(WriteCommand.idempotency_key).
Abbreviation hash := command.(WriteCommand.payload_hash).
Abbreviation step := (write_step command).

(** A receipt that is complete is answered, or stays as it was when it cannot be written. *)
Lemma complete_refines st ids recs0 response :
  st.(Daemon.receipts) !! key = Some (IdempotencyEntry.Pending hash ids recs0) →
  durable_write command st.(Daemon.sink) ids →
  response.(DaemonIngestResponse.inserted) = 0 →
  match complete_idempotency_entry durable key hash response st with
  | Ok st' => step st st' (Ok (DaemonIngestResponse.as_replay response))
  | Err error => step st st (Err error)
  end.
Proof.
  intros Hp Hd Hi. unfold complete_idempotency_entry.
  destruct (record_entry _ _ _ _) as [st'|error] eqn:Hr.
  - apply record_entry_Ok in Hr as ->. by eapply step_recovered.
  - apply step_rejected, refuse_internal. by eapply record_entry_Err.
Qed.

Lemma pre_validation_refines st st' ids recs0 r :
  st.(Daemon.receipts) !! key = Some (IdempotencyEntry.Pending hash ids recs0) →
  recover_pending_write_pre_validation durable command st = (st', r) →
  match r with
  | Ok None => st' = st
  | Ok (Some response) => step st st' (Ok response)
  | Err error => step st st' (Err error)
  end.
Proof.
  intros Hp. unfold recover_pending_write_pre_validation. rewrite Hp.
  destruct (forallb (is_matched _) _) eqn:Ho; [|by intros [= <- <-]].
  destruct (forallb (is_present _) _) eqn:Hs; [|by intros [= <- <-]]. cbn [andb negb].
  pose proof (complete_refines st ids recs0 (DaemonIngestResponse.already_durable ids true) Hp) as Hc.
  assert (durable_write command st.(Daemon.sink) ids) as Hd.
  { left. split; [by apply (forallb_Forall _ _ _ (is_matched_holds _)) in Ho|].
    by eapply forallb_Forall, Hs. }
  destruct (complete_idempotency_entry _ _ _ _ _); intros [= <- <-]; by apply Hc.
Qed.

Lemma recover_refines st st' ids recs0 recs r :
  st.(Daemon.receipts) !! key = Some (IdempotencyEntry.Pending hash ids recs0) →
  batch_of command st.(Daemon.sink) recs →
  recover_pending_write to_vec blake3_hex durable key hash recs st = (st', r) →
  match r with
  | Ok None => st' = st ∧ Forall (lacks st.(Daemon.sink)) recs
  | Ok (Some response) => step st st' (Ok response)
  | Err error => step st st' (Err error)
  end.
Proof.
  intros Hp Hb. unfold recover_pending_write.
  destruct (_ || _) eqn:Hdup.
  { intros [= <- <-]. eapply step_rejected, refuse_unsettled; [done|done|left|done].
    rewrite <-unique_keys_spec. intros Hu. by rewrite Hu, (unique_unambiguous _ _ _ Hu) in Hdup. }
  destruct (tally_states _ _ _ _) as [[m mm]|e] eqn:Ht.
  2: { intros [= <- <-]. by apply step_rejected, refuse_internal. }
  apply tally_states_spec in Ht as (Hm & Hmm & Hl & Hh).
  destruct (0 <? mm)%nat eqn:H1.
  { apply Nat.ltb_lt in H1. intros [= <- <-]. eapply step_rejected, refuse_unsettled; [done|done| |done].
    right. rewrite <-Hl, <-Hh. lia. }
  apply Nat.ltb_ge in H1. destruct (m =? 0)%nat eqn:H2.
  { apply Nat.eqb_eq in H2. intros [= <- <-]. split; [done|]. apply Hl. lia. }
  apply Nat.eqb_neq in H2. destruct (m =? length recs)%nat eqn:H3; cbn [negb].
  2: { apply Nat.eqb_neq in H3. intros [= <- <-]. eapply step_rejected, refuse_unsettled; [done|done| |done].
       right. rewrite <-Hl, <-Hh. lia. }
  apply Nat.eqb_eq in H3.
  pose proof (complete_refines st ids recs0
    (DaemonIngestResponse.already_durable (GraphRecord.id <$> recs) false) Hp) as Hc.
  assert (durable_write command st.(Daemon.sink) ids).
  { right. exists recs. split; [done|]. split; [intros ->; cbn in H3; lia|]. apply Hh. lia. }
  destruct (complete_idempotency_entry _ _ _ _ _); intros [= <- <-]; by apply Hc.
Qed.

(** A batch goes to the store once its receipt is on file; the receipts were [receipts] before. *)
Lemma write_through_refines fuel st st' receipts ids recs0 recs r :
  may_write command (Daemon.mk receipts st'.(Daemon.sink)) recs →
  st'.(Daemon.receipts) !! key = Some (IdempotencyEntry.Pending hash ids recs0) →
  (∀ k, k ≠ key → st'.(Daemon.receipts) !! k = receipts !! k) →
  (recs0 = command.(WriteCommand.records)
   ∨ receipts !! key = Some (IdempotencyEntry.Pending hash ids recs0)) →
  write_through json_object durable fuel command recs st' = Some (st, r) →
  step (Daemon.mk receipts st'.(Daemon.sink)) st r.
Proof.
  intros Hm Hp Hk Hr. unfold write_through.
  destruct (ingest_records_with_policy _ _ _ _ _) as [[sink' report]|] eqn:Hi; [|done].
  cbn [mbind option_bind]. cbv zeta.
  assert (ingested command st'.(Daemon.sink) recs sink' report) as Hi' by (by exists fuel).
  match goal with |- context [if ?b then persist_indexes ?s else ?o] =>
    destruct (if b then persist_indexes s else o) as [[]|e] end.
  2: { intros [= <- <-]. by eapply step_unfinished. }
  unfold complete_idempotency_entry. destruct (record_entry _ _ _ _) as [st''|e] eqn:Hrec; intros [= <- <-].
  - apply record_entry_Ok in Hrec as ->. cbn [Daemon.receipts Daemon.sink].
    set (entry := IdempotencyEntry.Committed _ _).
    assert (<[key := entry]> st'.(Daemon.receipts) = <[key := entry]> receipts) as ->.
    { apply map_eq. intros k. destruct (decide (k = key)) as [->|]; [by rewrite !lookup_insert_eq|].
      rewrite !lookup_insert_ne by done. by apply Hk. }
    by eapply (step_written command (Daemon.mk receipts st'.(Daemon.sink))).
  - eapply step_unfinished; try done. by eapply record_entry_Err.
Qed.

Lemma conflicting_edge_spec records edges edge :
  conflicting_edge records edges = Some edge →
  edge ∈ edges ∧ GraphRecord.id edge ∈ GraphRecord.id <$> records.
Proof.
  unfold conflicting_edge. intros [Hin Hc]%List.find_some. split; [by apply list_elem_of_In|].
  by apply bool_decide_eq_true_1 in Hc.
Qed.

Lemma validated_write_refines fuel pending st st' r :
  (if (pending : bool)
   then ∃ ids recs0, st.(Daemon.receipts) !! key = Some (IdempotencyEntry.Pending hash ids recs0)
   else st.(Daemon.receipts) !! key = None) →
  validated_write json_object to_vec blake3_hex durable fuel pending command st = Some (st', r) →
  step st st' r.
Proof.
  intros Hp. unfold validated_write.
  destruct (validate_batch _ _) as [[edges nodes]|e] eqn:Hv.
  2: { intros [= <- <-]. by apply step_rejected, refuse_invalid. }
  destruct (conflicting_edge _ _) as [edge|] eqn:Hc.
  { intros [= <- <-]. apply conflicting_edge_spec in Hc as [He Hid].
    by eapply step_rejected, refuse_edge. }
  assert (batch_of command st.(Daemon.sink) (all_records command.(WriteCommand.records) edges nodes))
    as Hb by (by exists edges, nodes).
  destruct st as [receipts sink]. cbv zeta. cbn [Daemon.receipts Daemon.sink] in *. destruct pending.
  - destruct Hp as (ids & recs0 & Hp).
    destruct (recover_pending_write _ _ _ _ _ _ _) as [st'' [[response|]|e]] eqn:Hr;
      apply (recover_refines (Daemon.mk receipts sink) _ _ _ _ _ Hp Hb) in Hr; [by intros [= <- <-]| |by intros [= <- <-]].
    destruct Hr as [-> Hl]. eapply (write_through_refines _ _ (Daemon.mk receipts sink)); [|done|done|by right].
    split; [done|]. right. eauto.
  - destruct (record_entry _ _ _ _) as [st''|e] eqn:Hr.
    2: { intros [= <- <-]. apply step_rejected, refuse_internal. by eapply record_entry_Err. }
    apply record_entry_Ok in Hr as ->. cbn [Daemon.receipts Daemon.sink].
    eapply (write_through_refines _ _ (Daemon.mk _ sink)); cbn [Daemon.receipts Daemon.sink].
    + split; [done|]. by left.
    + by rewrite lookup_insert_eq.
    + intros k Hk. by rewrite lookup_insert_ne.
    + by left.
Qed.

Lemma apply_write_step fuel st st' r :
  apply_write durable fuel command st = Some (st', r) → step st st' r.
Proof.
  unfold DaemonWrites.apply_write. destruct (validate_unique_recovery_keys _ _ _) as [[]|e] eqn:Hu.
  2: { intros [= <- <-]. apply step_rejected, refuse_duplicate.
       - rewrite <-validate_unique_spec. congruence.
       - revert Hu. unfold validate_unique_recovery_keys. destruct (_ || _); [|done]. by intros [= <-]. }
  destruct (st.(Daemon.receipts) !! key) as [entry|] eqn:He.
  2: { by apply validated_write_refines. }
  destruct (_ =s? _) eqn:Hh; cbn [negb].
  2: { apply String.eqb_neq in Hh. intros [= <- <-]. by eapply step_rejected, refuse_reused. }
  apply String.eqb_eq in Hh. destruct entry as [h ids recs0|h response]; cbn in Hh; subst h.
  - destruct (recover_pending_write_pre_validation _ _ _) as [st'' [[response|]|e]] eqn:Hr;
      apply (pre_validation_refines _ _ _ _ _ He) in Hr; [by intros [= <- <-]| |by intros [= <- <-]].
    change (st'' = st) in Hr. subst st''. apply validated_write_refines. eauto.
  - intros [= <- <-]. by apply step_replayed.
Qed.

(** The fuel of the ingest is the only one a write needs. *)
Lemma apply_write_total `{!GraphSinkContract S} st :
  ∃ n, ∀ fuel, (n ≤ fuel)%nat → is_Some (apply_write durable fuel command st).
Proof.
  assert (∃ n, ∀ fuel edges nodes receipts, (n ≤ fuel)%nat →
    validate_batch command.(WriteCommand.records) st.(Daemon.sink) = Ok (edges, nodes) →
    is_Some (write_through json_object durable fuel command
               (all_records command.(WriteCommand.records) edges nodes)
               (Daemon.mk receipts st.(Daemon.sink)))) as [n Hn].
  { destruct (validate_batch command.(WriteCommand.records) st.(Daemon.sink)) as [[edges nodes]|e].
    2: { by exists 0%nat. }
    destruct (ingest_spec json_object (all_records command.(WriteCommand.records) edges nodes)
                st.(Daemon.sink)) as (n & q & d & _ & _ & Hn).
    exists n. intros fuel edges' nodes' receipts Hf [= <- <-]. unfold write_through.
    cbn [Daemon.sink Daemon.receipts]. rewrite Hn by done. cbn [mbind option_bind].
    destruct (if _ && _ then _ else _) as [sink report]. eauto. }
  exists n. intros fuel Hf.
  assert (∀ pending, is_Some (validated_write json_object to_vec blake3_hex durable fuel pending command st))
    as Hw.
  { intros pending. unfold validated_write. destruct (validate_batch _ _) as [[edges nodes]|e]; [|eauto].
    destruct (conflicting_edge _ _); [eauto|]. destruct st as [receipts sink]. cbv zeta.
    cbn [Daemon.receipts Daemon.sink] in *. destruct pending.
    - unfold recover_pending_write. destruct (_ || _); [eauto|].
      destruct (tally_states _ _ _ _) as [[m mm]|]; [|eauto]. destruct (0 <? mm)%nat; [eauto|].
      destruct (m =? 0)%nat; [by apply Hn|]. destruct (negb _); [eauto|].
      destruct (complete_idempotency_entry _ _ _ _ _); eauto.
    - destruct (record_entry _ _ _ _) as [st'|] eqn:Hr; [|eauto].
      apply record_entry_Ok in Hr as ->. by apply Hn. }
  unfold DaemonWrites.apply_write. destruct (validate_unique_recovery_keys _ _ _); [|eauto].
  destruct (_ !! _) as [entry|]; [|done]. destruct (negb _); [eauto|]. destruct entry; [|eauto].
  unfold recover_pending_write_pre_validation. destruct (_ !! _) as [[]|]; [|done..].
  destruct (negb _); [done|]. destruct (complete_idempotency_entry _ _ _ _ _); eauto.
Qed.
End Refinement.
End Contract.

(** ** The life of a receipt *)

(** A committed receipt stays as it is, a pending one keeps its key and its payload. *)
Definition entry_evolves (before after : option IdempotencyEntry.t) : Prop :=
  match before with
  | None => True
  | Some (IdempotencyEntry.Committed _ _) => after = before
  | Some (IdempotencyEntry.Pending hash _ _) => IdempotencyEntry.payload_hash <$> after = Some hash
  end.
Definition receipts_evolve (before after : Receipts) : Prop :=
  ∀ k, entry_evolves (before !! k) (after !! k).

#[export] Instance receipts_evolve_preorder : PreOrder receipts_evolve.
Proof.
  split.
  - intros receipts k. by destruct (receipts !! k) as [[]|].
  - intros a b c Hab Hbc k. specialize (Hab k). specialize (Hbc k).
    destruct (a !! k) as [[h ids recs|h response]|]; cbn in *; [|by rewrite Hab in Hbc; rewrite Hbc|done].
    destruct (b !! k) as [[]|]; cbn in *; simplify_eq; [done|by rewrite Hbc].
Qed.

Lemma receipts_evolve_insert receipts k entry :
  entry_evolves (receipts !! k) (Some entry) → receipts_evolve receipts (<[k := entry]> receipts).
Proof.
  intros He k'. destruct (decide (k' = k)) as [->|]; [by rewrite lookup_insert_eq|].
  rewrite lookup_insert_ne by done. apply (reflexivity (R := receipts_evolve)).
Qed.

Section Life.
Context (json_object : list (string * string) → string) (to_vec : GraphRecord → option string)
  (blake3_hex : string → string).
Context {S : Type} `{GraphSink S} `{!EmbeddedSink S} `{!DomainValidators S}.
Implicit Types st : Daemon.t S.
Abbreviation step := (write_step json_object to_vec blake3_hex).

Lemma write_step_evolves command st st' r :
  step command st st' r → receipts_evolve st.(Daemon.receipts) st'.(Daemon.receipts).
Proof.
  destruct 1 as [| |ids recs response Hp|recs sink report [_ Hm]|recs sink report receipts ids recs0 error [_ Hm] ? ? Hp Hk];
    cbn [Daemon.receipts]; [done|done| | |].
  - apply receipts_evolve_insert. by rewrite Hp.
  - apply receipts_evolve_insert. by destruct Hm as [->|(ids & recs0 & -> & _)].
  - intros k. destruct (decide (k = command.(WriteCommand.idempotency_key))) as [->|].
    + rewrite Hp. by destruct Hm as [->|(ids' & recs0' & -> & _)].
    + rewrite Hk by done. apply (reflexivity (R := receipts_evolve)).
Qed.

(** A write that succeeds leaves its receipt committed. *)
Lemma write_step_committed command st st' response :
  step command st st' (Ok response) →
  ∃ response', st'.(Daemon.receipts) !! command.(WriteCommand.idempotency_key)
      = Some (IdempotencyEntry.Committed command.(WriteCommand.payload_hash) response')
    ∧ DaemonIngestResponse.as_replay response = DaemonIngestResponse.as_replay response'.
Proof.
  inversion 1; subst; cbn [Daemon.receipts]; eexists; (split; [first [done|by apply lookup_insert_eq]|done]).
Qed.

Lemma committed_replayed durable fuel command st response :
  NoDup (recovery_key to_vec blake3_hex <$> command.(WriteCommand.records)) →
  st.(Daemon.receipts) !! command.(WriteCommand.idempotency_key)
  = Some (IdempotencyEntry.Committed command.(WriteCommand.payload_hash) response) →
  apply_write json_object to_vec blake3_hex durable fuel command st
  = Some (st, Ok (DaemonIngestResponse.as_replay response)).
Proof.
  intros Hu Hc. unfold apply_write. apply validate_unique_spec in Hu. rewrite Hu, Hc. cbn.
  by rewrite String.eqb_refl.
Qed.
End Life.

(** ** The refinement *)
Section Refines.
Context (json_object : list (string * string) → string) (to_vec : GraphRecord → option string)
  (blake3_hex : string → string).
Context {S : Type} `{GraphSinkContract S} `{!EmbeddedSink S} `{!DomainValidators S}.

End Refines.

(** ** Examples *)
Module WriteDemo.
(** A store that answers, validators that accept everything, and a receipt file that is written. *)
#[global] Instance demo_embedded : EmbeddedSink DryRunSink.t := {
  expected_record_state sink record :=
    Ok (match DryRunSink.records sink !! GraphRecord.id record with
        | None => Missing
        | Some found => if bool_decide (found = record) then Matched else Mismatched
        end);
  persist_indexes _ := Ok ()
}.
#[global] Instance demo_validators : DomainValidators DryRunSink.t := {
  validate_no_local_path_identity_in_shared_store _ _ := Ok ();
  validate_verification_domain_records _ := Ok ();
  validate_artifact_domain_records _ _ := Ok ();
  validate_project_domain_records _ _ := Ok [];
  validate_user_context_domain_records _ _ := Ok [];
  validate_semantic_domain_records _ _ := Ok ();
  validate_and_synthesize_evidence_edges _ _ := Ok ([], [])
}.
Definition written (_ : string) (_ : IdempotencyEntry.t) : result unit string := Ok ().
(** The receipt file that can be written once: the second write fails. *)
Definition first_only (_ : string) (entry : IdempotencyEntry.t) : result unit string :=
  if IdempotencyEntry.is_pending entry then Ok () else Err "disk full".

Definition write := apply_write (S := DryRunSink.t) (λ _, "diagnostic") (λ r, Some (GraphRecord.id r)) id.
Definition records : list GraphRecord :=
  [sample_node "agent_memory:v1:d" []; sample_node "agent_memory:v1:e" []].
Definition command : WriteCommand.t := WriteCommand.mk "k" "hash" records Quarantine.
Definition empty : Daemon.t DryRunSink.t := Daemon.mk ∅ (DryRunSink.mk ∅).

(** The result of a write and of its retry after it. *)
Definition twice (durable1 durable2 : string → IdempotencyEntry.t → result unit string) :=
  let?o first := write durable1 5 command empty in
  let?o second := write durable2 5 command first.1 in
  Some (first.2, second.2).
End WriteDemo.

(** A retry after a lost commit finds the write in the store. *)
Example retry_recovers :
  (λ r, (map_err ApiError.message r.1, map_err ApiError.message r.2))
    <$> WriteDemo.twice WriteDemo.first_only WriteDemo.written
  = Some (Err "disk full",
          Ok (DaemonIngestResponse.mk 2 2 0 [] ["agent_memory:v1:d"; "agent_memory:v1:e"] true 0 2)).
Proof. vm_compute. reflexivity. Qed.

