(* ===== verification/ReceiptRepair.v ===== *)
(** * Offline repair of write receipts

    The repair of [src/src/daemon.rs] for the receipts a crashed daemon left pending: the scan
    that classifies them against the store, and the repair that drops redundant duplicates and
    finalizes receipts whose write is durable, under the lease of the store. The gates of the
    lease, the outcome of reading and of writing the receipt file, and the opening of the store
    are arguments. *)
From S2P Require Import Prelude RustStr Ir IrOps RecordEq Ingest DaemonWrites.

Module WriteReceiptAnomalyClass.
(* daemon.rs 8252-8260: WriteReceiptAnomalyClass *)
Inductive t : Set := DuplicateRecordIds | ConflictingCommitted | PartialCommitted.

(* daemon.rs 8263-8269: WriteReceiptAnomalyClass::sort_rank *)
Definition sort_rank (self : t) : nat :=
  match self with DuplicateRecordIds => 0 | ConflictingCommitted => 1 | PartialCommitted => 2 end.
End WriteReceiptAnomalyClass.
Abbreviation Class_ := WriteReceiptAnomalyClass.t.

Module WriteReceiptAnomaly.
(* daemon.rs 8274-8290: WriteReceiptAnomaly *)
Record t : Type := mk {
  class : Class_;
  idempotency_key : string;
  receipt_state : string;
  record_ids : list string;
  payload_hash : string;
  structurally_repairable : bool;
  recommended_action : string
}.
End WriteReceiptAnomaly.
Abbreviation Anomaly := WriteReceiptAnomaly.t.

Module WriteReceiptScan.
(* daemon.rs 8294-8303: WriteReceiptScan *)
Record t : Type := mk {
  data_dir_present : bool;
  idempotency_file_present : bool;
  total_receipts : nat;
  anomalies : list Anomaly
}.
End WriteReceiptScan.

Module WriteReceiptRepairOutcome.
(* daemon.rs 8314-8331: WriteReceiptRepairOutcome *)
Record t : Type := mk {
  idempotency_key : string;
  class : Class_;
  action : string;
  applied : bool;
  before_hash : string;
  after_hash : option string;
  skipped_reason : option string
}.
End WriteReceiptRepairOutcome.
Abbreviation Outcome := WriteReceiptRepairOutcome.t.

Module WriteReceiptRepairReport.
(* daemon.rs 8335-8344: WriteReceiptRepairReport *)
Record t : Type := mk {
  scan : WriteReceiptScan.t;
  outcomes : list Outcome;
  mutated : bool;
  post_scan : option WriteReceiptScan.t
}.
End WriteReceiptRepairReport.

(* daemon.rs 8348-8363: WriteReceiptRepairError *)
Inductive WriteReceiptRepairError : Type :=
| DataDirMissing
| IdempotencyFileUnreadable (message : string)
| StoreContended (holder : string)
| StoreUnreadable (message : string)
| Persist (message : string).

(* daemon.rs 8383-8383: ACTION_DROP_DUPLICATE *)
Definition ACTION_DROP_DUPLICATE : string := "dropped_redundant_duplicate".
(* daemon.rs 8384-8384: ACTION_FINALIZE_PARTIAL *)
Definition ACTION_FINALIZE_PARTIAL : string := "finalized_partial".
(* daemon.rs 8385-8385: ACTION_REPORTED_MANUAL *)
Definition ACTION_REPORTED_MANUAL : string := "reported_manual".

(** What the gates of the repair find. *)
Module Gates.
Record t : Type := mk {
  data_dir_exists : bool;
  owned : option string;
  lease : result bool string;
  holder_hint : option string
}.
End Gates.

Section Repair.
Context (to_vec : GraphRecord → option string) (blake3_hex : string → string).
Context {S : Type} `{GraphSink S} `{!EmbeddedSink S}.

(* daemon.rs 8482-8496: classify_pending_receipt *)
Fixpoint all_present (sink : S) (ids : list string) : result bool AdapterError.t :=
  match ids with
  | [] => Ok true
  | id :: ids =>
      let? found := read_back sink id in
      if is_some found then all_present sink ids else Ok false
  end.

Definition store_unreadable {A} (r : AdapterResult A) : result A WriteReceiptRepairError :=
  map_err (λ error, StoreUnreadable (AdapterError.to_string error)) r.

(* daemon.rs 8421-8512: classify_pending_receipt *)
Definition classify_pending_receipt (key payload_hash : string) (record_ids : list string)
    (records : list GraphRecord) (sink : S) : result (option Anomaly) WriteReceiptRepairError :=
  let sorted_ids := str_sort record_ids in
  let anomaly class repairable action :=
    WriteReceiptAnomaly.mk class key "pending" sorted_ids payload_hash repairable
      (if repairable then action else ACTION_REPORTED_MANUAL) in
  if has_duplicate_recovery_keys to_vec blake3_hex records then
    let repairable := negb (has_ambiguous_recovery_keys to_vec blake3_hex records) in
    Ok (Some (anomaly WriteReceiptAnomalyClass.DuplicateRecordIds repairable ACTION_DROP_DUPLICATE))
  else
    let? tally := store_unreadable (tally_states sink records 0 0) in
    let '(matched, mismatched) := tally in
    if (0 <? mismatched)%nat then
      Ok (Some (anomaly WriteReceiptAnomalyClass.ConflictingCommitted false ACTION_REPORTED_MANUAL))
    else if (matched =? 0)%nat then Ok None
    else
      let? synthesized_present :=
        store_unreadable (all_present sink (synthesized_ids record_ids records)) in
      let fully_durable := (matched =? length records)%nat && synthesized_present in
      Ok (Some (anomaly WriteReceiptAnomalyClass.PartialCommitted fully_durable
                  ACTION_FINALIZE_PARTIAL)).

(** The entries of a [BTreeMap] are visited in the order of their keys. *)
(* daemon.rs 8520-8531: classify_all_receipts *)
Fixpoint classify_entries (file : Receipts) (sink : S) (keys : list string)
    : result (list Anomaly) WriteReceiptRepairError :=
  match keys with
  | [] => Ok []
  | key :: keys =>
      match file !! key with
      | Some (IdempotencyEntry.Pending payload_hash record_ids records) =>
          let? anomaly := classify_pending_receipt key payload_hash record_ids records sink in
          let? anomalies := classify_entries file sink keys in
          Ok (option_list anomaly ++ anomalies)
      | _ => classify_entries file sink keys
      end
  end.

(* daemon.rs 8533-8536: classify_all_receipts *)
Definition anomaly_cmp : Anomaly → Anomaly → comparison :=
  cmp_then
    (cmp_on (λ a, WriteReceiptAnomalyClass.sort_rank a.(WriteReceiptAnomaly.class)) Nat.compare)
    (cmp_on WriteReceiptAnomaly.idempotency_key String.compare).

(* daemon.rs 8515-8539: classify_all_receipts *)
Definition classify_all_receipts (file : Receipts) (sink : S)
    : result (list Anomaly) WriteReceiptRepairError :=
  let? anomalies := classify_entries file sink (keys file) in
  Ok (sort_by anomaly_cmp anomalies).

(* daemon.rs 8542-8546: file_has_pending *)
Definition file_has_pending (file : Receipts) : bool :=
  existsb (λ e : string * IdempotencyEntry.t, IdempotencyEntry.is_pending e.2) (map_to_list file).

(** The outcome of reading the receipt file. *)
Inductive ReceiptFile : Type :=
| Absent
| Unreadable (message : string)
| Parsed (entries : Receipts).
(* daemon.rs 8398-8410: read_idempotency_file_direct *)
Definition read_idempotency_file_direct (file : ReceiptFile)
    : result (option Receipts) WriteReceiptRepairError :=
  match file with
  | Absent => Ok None
  | Unreadable message => Err (IdempotencyFileUnreadable message)
  | Parsed entries => Ok (Some entries)
  end.

(* daemon.rs 8568-8593: build_receipt_scan *)
Definition build_receipt_scan (data_dir_present idempotency_file_present : bool)
    (file : option Receipts) (open_sink : result S WriteReceiptRepairError)
    : result WriteReceiptScan.t WriteReceiptRepairError :=
  match file with
  | Some file =>
      let? anomalies :=
        if file_has_pending file
        then let? sink := open_sink in classify_all_receipts file sink
        else Ok [] in
      Ok (WriteReceiptScan.mk data_dir_present idempotency_file_present (size file) anomalies)
  | None => Ok (WriteReceiptScan.mk data_dir_present idempotency_file_present 0 [])
  end.

(* daemon.rs 8865-8875: scan_under_held_lease *)
Definition scan_under_held_lease (file : ReceiptFile) (open_sink : result S WriteReceiptRepairError)
    : result WriteReceiptScan.t WriteReceiptRepairError :=
  let? entries := read_idempotency_file_direct file in
  build_receipt_scan true (is_some entries) entries open_sink.

(* daemon.rs 8656-8672: finalized_entry *)
Definition finalized_entry (payload_hash : string) (record_ids : list string) : IdempotencyEntry.t :=
  IdempotencyEntry.Committed payload_hash (DaemonIngestResponse.already_durable record_ids false).

(** The records with a recovery key not seen before, and the ids of the others. *)
(* daemon.rs 8680-8689: deduplicated_entry *)
Fixpoint dedup_loop (seen : gset string) (records : list GraphRecord)
    : list GraphRecord * list string :=
  match records with
  | [] => ([], [])
  | record :: records =>
      let key := recovery_key to_vec blake3_hex record in
      let '(new_records, dropped_ids) := dedup_loop ({[key]} ∪ seen) records in
      if bool_decide (key ∈ seen) then (new_records, GraphRecord.id record :: dropped_ids)
      else (record :: new_records, dropped_ids)
  end.

(** [Vec::remove] of the first occurrence. *)
(* daemon.rs 8692-8694: deduplicated_entry *)
Fixpoint remove_first (id : string) (ids : list string) : list string :=
  match ids with
  | [] => []
  | x :: ids => if x =s? id then ids else x :: remove_first id ids
  end.

(* daemon.rs 8675-8701: deduplicated_entry *)
Definition deduplicated_entry (payload_hash : string) (record_ids : list string)
    (records : list GraphRecord) : IdempotencyEntry.t :=
  let '(new_records, dropped_ids) := dedup_loop ∅ records in
  IdempotencyEntry.Pending payload_hash
    (foldl (λ ids id, remove_first id ids) record_ids dropped_ids) new_records.

(* daemon.rs 8712-8718: manual_skip_reason *)
Definition manual_skip_reason (class : Class_) : string :=
  match class with
  | WriteReceiptAnomalyClass.ConflictingCommitted => "conflicting_committed_manual_repair"
  | WriteReceiptAnomalyClass.DuplicateRecordIds => "ambiguous_duplicate_content"
  | WriteReceiptAnomalyClass.PartialCommitted => "partial_records_not_all_committed"
  end.

(** The action of a repairable anomaly and the entry it writes. *)
(* daemon.rs 8766-8777: apply_receipt_repairs *)
Definition repaired_entry (class : Class_) (payload_hash : string) (record_ids : list string)
    (records : list GraphRecord) : option (string * IdempotencyEntry.t) :=
  match class with
  | WriteReceiptAnomalyClass.DuplicateRecordIds =>
      Some (ACTION_DROP_DUPLICATE, deduplicated_entry payload_hash record_ids records)
  | WriteReceiptAnomalyClass.PartialCommitted =>
      Some (ACTION_FINALIZE_PARTIAL, finalized_entry payload_hash record_ids)
  | WriteReceiptAnomalyClass.ConflictingCommitted => None
  end.

(** [serde_json::to_vec] of an entry; [None] is its error. *)
Context (entry_to_vec : IdempotencyEntry.t → option string).

(* daemon.rs 8413-8416: receipt_entry_hash *)
Definition receipt_entry_hash (entry : IdempotencyEntry.t) : string :=
  blake3_hex (default "" (entry_to_vec entry)).

Section Apply.
Context (durable : string → IdempotencyEntry.t → result unit string).

(** The loop over the anomalies: [file] is what was read, [store] what is written. A failed
    write ends it, with what was written before. *)
(* daemon.rs 8740-8817: apply_receipt_repairs *)
Fixpoint repair_loop (file : Receipts) (confirm : bool) (anomalies : list Anomaly)
    (store : Receipts) (outcomes : list Outcome) (mutated : bool)
    : Receipts * result (list Outcome * bool) WriteReceiptRepairError :=
  match anomalies with
  | [] => (store, Ok (outcomes, mutated))
  | anomaly :: anomalies =>
      let key := anomaly.(WriteReceiptAnomaly.idempotency_key) in
      let class := anomaly.(WriteReceiptAnomaly.class) in
      match file !! key with
      | Some (IdempotencyEntry.Pending payload_hash record_ids records as entry) =>
          let before_hash := receipt_entry_hash entry in
          if negb anomaly.(WriteReceiptAnomaly.structurally_repairable) then
            repair_loop file confirm anomalies store
              (outcomes ++ [WriteReceiptRepairOutcome.mk key class ACTION_REPORTED_MANUAL false
                              before_hash None (Some (manual_skip_reason class))]) mutated
          else
            match repaired_entry class payload_hash record_ids records with
            | None => repair_loop file confirm anomalies store outcomes mutated
            | Some (action, new_entry) =>
                let after_hash := receipt_entry_hash new_entry in
                if confirm then
                  match set_entry_durably durable key new_entry store with
                  | Err error => (store, Err (Persist error))
                  | Ok store =>
                      repair_loop file confirm anomalies store
                        (outcomes ++ [WriteReceiptRepairOutcome.mk key class action true
                                        before_hash (Some after_hash) None]) true
                  end
                else
                  repair_loop file confirm anomalies store
                    (outcomes ++ [WriteReceiptRepairOutcome.mk key class action false
                                    before_hash (Some after_hash) (Some "dry_run")]) mutated
            end
      | _ => repair_loop file confirm anomalies store outcomes mutated
      end
  end.

(* daemon.rs 8723-8820: apply_receipt_repairs *)
Definition apply_receipt_repairs (file : ReceiptFile) (anomalies : list Anomaly) (confirm : bool)
    : ReceiptFile * result (list Outcome * bool) WriteReceiptRepairError :=
  match anomalies, file with
  | [], _ => (file, Ok ([], false))
  | _, Parsed entries =>
      let '(store, r) := repair_loop entries confirm anomalies entries [] false in (Parsed store, r)
  | _, Unreadable message => (file, Err (IdempotencyFileUnreadable message))
  | _, Absent =>
      let '(store, r) := repair_loop ∅ confirm anomalies ∅ [] false in (Parsed store, r)
  end.
End Apply.

(* daemon.rs 8823-8859: repair_write_receipts *)
Definition repair_write_receipts (gates : Gates.t)
    (durable : string → IdempotencyEntry.t → result unit string)
    (open_sink : result S WriteReceiptRepairError) (confirm : bool) (file : ReceiptFile)
    : ReceiptFile * result WriteReceiptRepairReport.t WriteReceiptRepairError :=
  if negb gates.(Gates.data_dir_exists) then (file, Err DataDirMissing)
  else
    match gates.(Gates.owned), gates.(Gates.lease) with
    | Some holder, _ => (file, Err (StoreContended holder))
    | None, Err error => (file, Err (StoreUnreadable error))
    | None, Ok false =>
        (file, Err (StoreContended
                      (default "an active embedded store lease holder" gates.(Gates.holder_hint))))
    | None, Ok true =>
        match scan_under_held_lease file open_sink with
        | Err error => (file, Err error)
        | Ok before =>
            let '(file, applied) :=
              apply_receipt_repairs durable file before.(WriteReceiptScan.anomalies) confirm in
            (file,
             let? result := applied in
             let '(outcomes, mutated) := result in
             let? post_scan :=
               if (mutated : bool)
               then let? scan := scan_under_held_lease file open_sink in Ok (Some scan)
               else Ok None in
             Ok (WriteReceiptRepairReport.mk before outcomes mutated post_scan))
        end
    end.

(** ** Deduplication *)
Abbreviation rkey := (recovery_key to_vec blake3_hex).

(** One record is kept for each key that was not seen. *)
Lemma dedup_loop_spec seen records :
  let kept := (dedup_loop seen records).1 in
  NoDup (rkey <$> kept) ∧ kept `sublist_of` records
  ∧ (∀ r, r ∈ kept → rkey r ∉ seen)
  ∧ (∀ r, r ∈ records → rkey r ∉ seen → ∃ r', r' ∈ kept ∧ rkey r' = rkey r).
Proof.
  revert seen. induction records as [|r l IH]; intros seen; cbn [dedup_loop].
  { split_and!; [constructor|constructor|..]; intros ? Hr; by apply elem_of_nil in Hr. }
  specialize (IH ({[rkey r]} ∪ seen)). cbv zeta in IH |- *.
  destruct (dedup_loop ({[rkey r]} ∪ seen) l) as [kept dropped]. cbn [fst] in IH.
  destruct IH as (Hnd & Hsub & Hnew & Hall). case_bool_decide as Hr; cbn [fst].
  - split; [done|]. split; [by constructor|]. split; [set_solver|].
    intros x [->|Hx]%elem_of_cons Hxs; [done|]. apply (Hall x Hx).
    rewrite not_elem_of_union, not_elem_of_singleton. split; [by intros Hk; rewrite Hk in Hxs|done].
  - split; [|split; [by constructor|split]].
    + rewrite fmap_cons, NoDup_cons. split; [|done].
      intros (y & Hk & Hy)%list_elem_of_fmap. apply (Hnew y Hy). set_solver.
    + intros x [->|Hx]%elem_of_cons; [done|]. specialize (Hnew x Hx). set_solver.
    + intros x Hx Hxs. destruct (decide (rkey x = rkey r)) as [Hk|Hk].
      * exists r. by split; [left|].
      * apply elem_of_cons in Hx as [->|Hx]; [done|]. destruct (Hall x Hx) as (y & Hy & Hyk);
          [by rewrite not_elem_of_union, not_elem_of_singleton|].
        exists y. by split; [right|].
Qed.

Lemma dedup_unique records :
  has_duplicate_recovery_keys to_vec blake3_hex (dedup_loop ∅ records).1 = false.
Proof. apply unique_keys_spec, dedup_loop_spec. Qed.

(** The records of an unambiguous receipt are all kept, once. *)
Lemma dedup_elem records r :
  has_ambiguous_recovery_keys to_vec blake3_hex records = false →
  r ∈ (dedup_loop ∅ records).1 ↔ r ∈ records.
Proof.
  intros Hu. rewrite unambiguous_spec in Hu. destruct (dedup_loop_spec ∅ records) as (_ & Hsub & _ & Hall).
  assert (∀ x, x ∈ (dedup_loop ∅ records).1 → x ∈ records) as Hin
    by (intros x Hx; by eapply elem_of_submseteq, sublist_submseteq).
  split; [apply Hin|]. intros Hr. destruct (Hall r Hr (not_elem_of_empty _)) as (r' & Hr' & Hk).
  by rewrite (Hu r r' Hr (Hin r' Hr') (eq_sym Hk)).
Qed.

(** What is left and what is dropped are the records of the receipt, by their ids. *)
Lemma dedup_ids seen records :
  GraphRecord.id <$> records
  ≡ₚ (dedup_loop seen records).2 ++ (GraphRecord.id <$> (dedup_loop seen records).1).
Proof.
  revert seen. induction records as [|r l IH]; intros seen; cbn [dedup_loop]; [done|].
  specialize (IH ({[rkey r]} ∪ seen)). destruct (dedup_loop ({[rkey r]} ∪ seen) l) as [kept dropped].
  cbn [fst snd] in IH. rewrite fmap_cons, IH. case_bool_decide; cbn [fst snd]; [done|].
  rewrite fmap_cons. by rewrite Permutation_middle.
Qed.

Lemma remove_first_perm id ids rest : ids ≡ₚ id :: rest → remove_first id ids ≡ₚ rest.
Proof.
  revert rest. induction ids as [|x ids IH]; intros rest Hp; [by apply Permutation_nil in Hp|].
  cbn [remove_first]. destruct (String.eqb_spec x id) as [->|Hx]; [by eapply Permutation_cons_inv|].
  assert (x ∈ rest) as (l1 & l2 & ->)%list_elem_of_split.
  { assert (x ∈ id :: rest) as Hin by (rewrite <-Hp; left). by apply elem_of_cons in Hin as [?|?]. }
  rewrite <-Permutation_middle. constructor. apply IH.
  apply (Permutation_cons_inv (a := x)). by rewrite Hp, <-Permutation_middle, Permutation_swap.
Qed.

Lemma remove_all_perm dropped ids rest :
  ids ≡ₚ dropped ++ rest → foldl (λ ids id, remove_first id ids) ids dropped ≡ₚ rest.
Proof.
  revert ids. induction dropped as [|id dropped IH]; intros ids Hp; [done|].
  cbn [foldl]. apply IH. by apply remove_first_perm.
Qed.

(** A deduplicated receipt lists the ids of its records and of the synthesized edges, once each
    time the original did beyond the duplicates. *)
Lemma dedup_record_ids records edge_ids :
  foldl (λ ids id, remove_first id ids) ((GraphRecord.id <$> records) ++ edge_ids)
    (dedup_loop ∅ records).2
  ≡ₚ (GraphRecord.id <$> (dedup_loop ∅ records).1) ++ edge_ids.
Proof. apply remove_all_perm. rewrite (dedup_ids ∅ records) at 1. by rewrite (assoc_L (++)). Qed.

Lemma deduplicated_entry_eq payload_hash record_ids records :
  ∃ ids, deduplicated_entry payload_hash record_ids records
    = IdempotencyEntry.Pending payload_hash ids (dedup_loop ∅ records).1.
Proof. unfold deduplicated_entry. destruct (dedup_loop ∅ records). eauto. Qed.

Lemma deduplicated_entry_ne payload_hash record_ids records :
  has_duplicate_recovery_keys to_vec blake3_hex records = true →
  deduplicated_entry payload_hash record_ids records
  ≠ IdempotencyEntry.Pending payload_hash record_ids records.
Proof.
  destruct (deduplicated_entry_eq payload_hash record_ids records) as [ids ->].
  intros Hd [= _ Heq]. pose proof (dedup_unique records) as Hu. rewrite Heq in Hu. congruence.
Qed.

(** ** What a repair writes *)

(** The one action of a receipt against a store. *)
Definition repair_of (sink : S) (entry : IdempotencyEntry.t) : IdempotencyEntry.t :=
  match entry with
  | IdempotencyEntry.Committed _ _ => entry
  | IdempotencyEntry.Pending payload_hash record_ids records =>
      if has_duplicate_recovery_keys to_vec blake3_hex records then
        if has_ambiguous_recovery_keys to_vec blake3_hex records then entry
        else deduplicated_entry payload_hash record_ids records
      else if negb (bool_decide (records = [])) && forallb (is_matched sink) records
              && forallb (is_present sink) (synthesized_ids record_ids records)
           then finalized_entry payload_hash record_ids
           else entry
  end.

(** The entry the loop writes for an anomaly. *)
Definition planned (file : Receipts) (anomaly : Anomaly) : option IdempotencyEntry.t :=
  match file !! anomaly.(WriteReceiptAnomaly.idempotency_key) with
  | Some (IdempotencyEntry.Pending payload_hash record_ids records) =>
      if anomaly.(WriteReceiptAnomaly.structurally_repairable)
      then snd <$> repaired_entry anomaly.(WriteReceiptAnomaly.class) payload_hash record_ids records
      else None
  | _ => None
  end.

Lemma all_present_spec sink ids b :
  all_present sink ids = Ok b → b = forallb (is_present sink) ids.
Proof.
  induction ids as [|id ids IH]; cbn [all_present forallb]; [by intros [= <-]|].
  unfold is_present at 1. destruct (read_back sink id) as [[r|]|]; cbn; [by apply IH|by intros [= <-]|done].
Qed.

Lemma store_unreadable_Ok {A} (r : AdapterResult A) x : store_unreadable r = Ok x → r = Ok x.
Proof. unfold store_unreadable. destruct r; cbn; [by intros [= ->]|done]. Qed.

(** The classification of a receipt finds its action. *)
Lemma classify_pending_spec key payload_hash record_ids records sink file o :
  classify_pending_receipt key payload_hash record_ids records sink = Ok o →
  file !! key = Some (IdempotencyEntry.Pending payload_hash record_ids records) →
  repair_of sink (IdempotencyEntry.Pending payload_hash record_ids records)
    = default (IdempotencyEntry.Pending payload_hash record_ids records) (o ≫= planned file)
  ∧ ∀ anomaly, o = Some anomaly → anomaly.(WriteReceiptAnomaly.idempotency_key) = key
      ∧ planned file anomaly ≠ Some (IdempotencyEntry.Pending payload_hash record_ids records).
Proof.
  intros Hc Hf. revert Hc. unfold classify_pending_receipt, repair_of. cbv zeta.
  destruct (has_duplicate_recovery_keys _ _ records) eqn:Hdup.
  { intros [= <-]. cbn [option_bind mbind]. unfold planned. cbn. rewrite Hf.
    destruct (has_ambiguous_recovery_keys _ _ records); cbn.
    - split; [done|]. intros ? [= <-]. cbn. by rewrite Hf.
    - split; [done|]. intros ? [= <-]. cbn. rewrite Hf. split; [done|].
      intros [= Heq]. by eapply deduplicated_entry_ne. }
  destruct (store_unreadable (tally_states _ _ _ _)) as [[m mm]|] eqn:Ht; [|done].
  apply store_unreadable_Ok, tally_states_spec in Ht as (Hm & Hmm & Hl & Hh). cbn [result_bind].
  assert (forallb (is_matched sink) records = true ↔ Forall (holds sink) records) as Hmatch
    by (apply forallb_Forall, is_matched_holds).
  assert (mm ≠ 0 ∨ m = 0 →
    negb (bool_decide (records = [])) && forallb (is_matched sink) records = false) as Hno.
  { intros Hz. destruct (forallb (is_matched sink) records) eqn:E; [|by rewrite andb_false_r].
    apply proj1 in Hmatch. specialize (Hmatch eq_refl). apply Hh in Hmatch.
    destruct records; [done|]. cbn in *. lia. }
  destruct (0 <? mm)%nat eqn:H1.
  { apply Nat.ltb_lt in H1. intros [= <-]. cbn [option_bind mbind].
    unfold planned. cbn. rewrite Hf, Hno by lia. split; [done|]. intros ? [= <-]. cbn. by rewrite Hf. }
  apply Nat.ltb_ge in H1. destruct (m =? 0)%nat eqn:H2.
  { apply Nat.eqb_eq in H2. intros [= <-]. split; [|done]. by rewrite Hno by lia. }
  apply Nat.eqb_neq in H2.
  destruct (store_unreadable (all_present _ _)) as [present|] eqn:Hpr; [|done].
  apply store_unreadable_Ok, all_present_spec in Hpr as ->. cbn [result_bind].
  intros [= <-]. split; [|intros ? [= <-]; split; [done|]; unfold planned; cbn; rewrite Hf; by case_match].
  cbn [option_bind mbind]. unfold planned. cbn. rewrite Hf.
  rewrite bool_decide_eq_false_2 by (intros ->; cbn in Hm; lia). cbn [negb andb].
  assert ((m =? length records)%nat = forallb (is_matched sink) records) as ->.
  { apply eq_true_iff_eq. rewrite Hmatch, <-Hh, Nat.eqb_eq. lia. }
  destruct (forallb (is_matched sink) records), (forallb (is_present sink) _); reflexivity.
Qed.

(** Every receipt with something to repair has its anomaly, and anomalies plan their repair. *)
Definition covers (file : Receipts) (sink : S) (anomalies : list Anomaly) (keys : list string) : Prop :=
  (∀ a new_entry, a ∈ anomalies → planned file a = Some new_entry →
     ∃ entry, file !! a.(WriteReceiptAnomaly.idempotency_key) = Some entry
       ∧ new_entry = repair_of sink entry ∧ new_entry ≠ entry)
  ∧ ∀ k entry, k ∈ keys → file !! k = Some entry →
      repair_of sink entry = entry
      ∨ ∃ a, a ∈ anomalies ∧ a.(WriteReceiptAnomaly.idempotency_key) = k
          ∧ planned file a = Some (repair_of sink entry).

Lemma covers_cons file sink anomalies ks k h ids recs o :
  file !! k = Some (IdempotencyEntry.Pending h ids recs) →
  classify_pending_receipt k h ids recs sink = Ok o →
  covers file sink anomalies ks → covers file sink (option_list o ++ anomalies) (k :: ks).
Proof.
  intros Hk Ho [H1 H2]. apply (classify_pending_spec _ _ _ _ _ file) in Ho as [Hr Ha]; [|done]. split.
  - intros a e [Hin|Hin]%elem_of_app Hp; [|by eapply H1]. destruct o as [b|]; [|by apply elem_of_nil in Hin].
    apply list_elem_of_singleton in Hin as ->. destruct (Ha b eq_refl) as [-> Hne].
    cbn [option_bind mbind] in Hr. rewrite Hp in Hr, Hne. exists (IdempotencyEntry.Pending h ids recs).
    split; [done|]. split; [done|]. by intros ->.
  - intros k' e [->|Hin]%elem_of_cons Hk'.
    + rewrite Hk in Hk'. injection Hk' as <-. destruct o as [b|]; [|by left].
      cbn [option_bind mbind] in Hr. destruct (planned file b) as [new|] eqn:Hp; [|by left].
      right. exists b. split; [apply elem_of_app; left; by apply list_elem_of_singleton|].
      split; [by apply Ha|]. by rewrite Hp, Hr.
    + destruct (H2 k' e Hin Hk') as [?|(a & ? & ?)]; [by left|]. right. exists a.
      split; [apply elem_of_app; by right|done].
Qed.

Lemma classify_entries_spec file sink ks anomalies :
  classify_entries file sink ks = Ok anomalies → covers file sink anomalies ks.
Proof.
  revert anomalies. induction ks as [|k ks IH]; intros anomalies; cbn [classify_entries].
  { intros [= <-]. split; [intros a e Ha; by apply elem_of_nil in Ha|].
    intros k e Hk; by apply elem_of_nil in Hk. }
  destruct (file !! k) as [[h ids recs|h response]|] eqn:Hk.
  - destruct (classify_pending_receipt _ _ _ _ _) as [o|] eqn:Ho; [|done].
    destruct (classify_entries file sink ks) as [l|]; [|done]. cbn. intros [= <-].
    eapply covers_cons; [done..|]. by apply IH.
  - intros Hl. apply IH in Hl as [H1 H2]. split; [done|].
    intros k' e [->|Hin]%elem_of_cons Hk'; [|by apply H2]. rewrite Hk in Hk'. injection Hk' as <-. by left.
  - intros Hl. apply IH in Hl as [H1 H2]. split; [done|].
    intros k' e [->|Hin]%elem_of_cons Hk'; [congruence|by apply H2].
Qed.

Lemma classify_all_spec file sink anomalies :
  classify_all_receipts file sink = Ok anomalies → covers file sink anomalies (keys file).
Proof.
  unfold classify_all_receipts. destruct (classify_entries _ _ _) as [l|] eqn:Hl; [|done]. cbn.
  intros [= <-]. apply classify_entries_spec in Hl as [H1 H2].
  assert (∀ a, a ∈ sort_by anomaly_cmp l ↔ a ∈ l) as Hin.
  { intros a. by rewrite (sort_by_perm anomaly_cmp l). }
  split; [setoid_rewrite Hin; done|]. setoid_rewrite Hin. done.
Qed.

(** A receipt file without pending receipts has nothing to repair. *)
Lemma not_pending_repaired file sink :
  file_has_pending file = false → covers file sink [] (keys file).
Proof.
  intros Hn. split; [intros a e Ha; by apply elem_of_nil in Ha|]. intros k e _ Hk. left.
  destruct e as [h ids recs|]; [|done]. exfalso. revert Hn. apply eq_true_false_abs.
  apply existsb_exists. exists (k, IdempotencyEntry.Pending h ids recs). split; [|done].
  by apply list_elem_of_In, elem_of_map_to_list.
Qed.

Lemma scan_spec file sink scan :
  scan_under_held_lease (Parsed file) (Ok sink) = Ok scan →
  covers file sink scan.(WriteReceiptScan.anomalies) (keys file).
Proof.
  unfold scan_under_held_lease, build_receipt_scan. cbn [read_idempotency_file_direct result_bind].
  destruct (file_has_pending file) eqn:Hp; cbn [result_bind].
  - destruct (classify_all_receipts file sink) as [l|] eqn:Hl; [|done]. intros [= <-].
    by apply classify_all_spec.
  - intros [= <-]. by apply not_pending_repaired.
Qed.

Section Loop.
Context (file : Receipts).

Definition apply_planned (store : Receipts) (a : Anomaly) : Receipts :=
  match planned file a with
  | Some entry => <[a.(WriteReceiptAnomaly.idempotency_key) := entry]> store
  | None => store
  end.

Lemma repair_loop_spec durable confirm anomalies store outcomes mutated store' r :
  repair_loop durable file confirm anomalies store outcomes mutated = (store', r) →
  ∃ done rest, anomalies = done ++ rest
    ∧ store' = (if (confirm : bool) then foldl apply_planned store done else store)
    ∧ match r with
      | Ok (_, m) => rest = []
          ∧ m = mutated || confirm && existsb (λ a, is_some (planned file a)) anomalies
      | Err _ => True
      end.
Proof.
  revert store outcomes mutated. induction anomalies as [|a l IH]; intros store outcomes mutated;
    cbn [repair_loop existsb].
  { intros [= <- <-]. exists [], []. split_and!; [done|by destruct confirm|done|].
    by rewrite andb_false_r, orb_false_r. }
  assert (∀ m outcomes', planned file a = None →
    repair_loop durable file confirm l store outcomes' m = (store', r) →
    ∃ done rest, a :: l = done ++ rest
      ∧ store' = (if confirm then foldl apply_planned store done else store)
      ∧ match r with
        | Ok (_, m') => rest = []
            ∧ m' = m || confirm && (is_some (planned file a) || existsb (λ a, is_some (planned file a)) l)
        | Err _ => True
        end) as Hskip.
  { intros m outcomes' Hp Hl. apply IH in Hl as (dn & rest & -> & -> & Hr). exists (a :: dn), rest.
    split; [done|]. cbn [foldl].
    assert (apply_planned store a = store) as -> by (unfold apply_planned; by rewrite Hp).
    by rewrite Hp. }
  unfold planned in Hskip at 1.
  destruct (file !! _) as [[h ids recs|h response]|] eqn:Hk; [|by apply Hskip..].
  destruct (a.(WriteReceiptAnomaly.structurally_repairable)) eqn:Hs; cbn [negb]; [|by apply Hskip].
  destruct (repaired_entry _ _ _ _) as [[action new]|] eqn:Hn; [|by apply Hskip]. clear Hskip.
  assert (planned file a = Some new) as Hp by (unfold planned; by rewrite Hk, Hs, Hn).
  destruct confirm.
  - unfold set_entry_durably. destruct (durable _ _) as [[]|]; cbn [result_bind].
    + intros Hl. apply IH in Hl as (dn & rest & -> & -> & Hr). exists (a :: dn), rest.
      split; [done|]. cbn [foldl].
      assert (apply_planned store a = <[a.(WriteReceiptAnomaly.idempotency_key) := new]> store) as ->
        by (unfold apply_planned; by rewrite Hp).
      rewrite Hp. split; [done|]. destruct r as [[? m]|]; [|done]. destruct Hr as [-> ->]. split; [done|]. cbn. by rewrite orb_true_r.
    + intros [= <- <-]. by exists [], (a :: l).
  - intros Hl. apply IH in Hl as (dn & rest & -> & -> & Hr). by exists (a :: dn), rest.
Qed.

Context (sink : S) (anomalies : list Anomaly) (Hcovers : covers file sink anomalies (keys file)).

Lemma applied_lookup l store k :
  (∀ a, a ∈ l → a ∈ anomalies) →
  foldl apply_planned store l !! k = store !! k
  ∨ ∃ entry, file !! k = Some entry ∧ foldl apply_planned store l !! k = Some (repair_of sink entry).
Proof.
  induction l as [|a l IH] using rev_ind; intros Hl; [by left|]. rewrite foldl_app. cbn [foldl].
  unfold apply_planned at 1 3. destruct (planned file a) as [new|] eqn:Hp.
  2: { apply IH. intros b Hb. apply Hl, elem_of_app. by left. }
  destruct (proj1 Hcovers a new) as (e & He & -> & _); [apply Hl, elem_of_app; right; by left|done|].
  destruct (decide (k = a.(WriteReceiptAnomaly.idempotency_key))) as [->|Hk].
  - right. exists e. by rewrite lookup_insert_eq.
  - rewrite lookup_insert_ne by done. apply IH. intros b Hb. apply Hl, elem_of_app. by left.
Qed.

Lemma applied_planned a store entry :
  a ∈ anomalies → file !! a.(WriteReceiptAnomaly.idempotency_key) = Some entry →
  planned file a = Some (repair_of sink entry) →
  foldl apply_planned store anomalies !! a.(WriteReceiptAnomaly.idempotency_key)
  = Some (repair_of sink entry).
Proof.
  intros (l1 & l2 & Hal)%list_elem_of_split He Hp. rewrite Hal, foldl_app. cbn [foldl].
  unfold apply_planned at 2. rewrite Hp.
  destruct (applied_lookup l2 (<[a.(WriteReceiptAnomaly.idempotency_key):=repair_of sink entry]>
      (foldl apply_planned store l1)) a.(WriteReceiptAnomaly.idempotency_key)) as [->|(e & He' & ->)].
  - intros b Hb. rewrite Hal. apply elem_of_app. right. by right.
  - by rewrite lookup_insert_eq.
  - by simplify_eq.
Qed.

(** All anomalies done: every receipt got its repair. *)
Lemma applied_all : foldl apply_planned file anomalies = repair_of sink <$> file.
Proof.
  apply map_eq. intros k. rewrite lookup_fmap. destruct (file !! k) as [e|] eqn:He; cbn.
  - destruct (proj2 Hcovers k e) as [Hr|(a & Ha & <- & Hp)]; [by apply keys_elem|done| |].
    + destruct (applied_lookup anomalies file k) as [->|(e' & He' & ->)]; [done|by rewrite Hr|congruence].
    + by apply applied_planned.
  - destruct (applied_lookup anomalies file k) as [->|(e' & He' & _)]; [done|done|congruence].
Qed.
End Loop.

(** ** Repairs *)

Lemma apply_repairs_spec durable confirm file sink anomalies file' r :
  covers file sink anomalies (keys file) →
  apply_receipt_repairs durable (Parsed file) anomalies confirm = (file', r) →
  ∃ receipts, file' = Parsed receipts
    ∧ (∀ k, receipts !! k = file !! k ∨ receipts !! k = repair_of sink <$> file !! k)
    ∧ (confirm = false → receipts = file)
    ∧ (∀ outcomes mutated, r = Ok (outcomes, mutated) → confirm = true →
        receipts = repair_of sink <$> file
        ∧ mutated = existsb (λ a, is_some (planned file a)) anomalies).
Proof.
  intros Hc. unfold apply_receipt_repairs. destruct anomalies as [|a l].
  { intros [= <- <-]. exists file. split_and!; [done|by left|done|]. intros _ ? [= <- <-] _.
    split; [|done]. by rewrite <-(applied_all file sink [] Hc). }
  destruct (repair_loop _ _ _ _ _ _ _) as [store r'] eqn:Hl. intros [= <- <-].
  apply repair_loop_spec in Hl as (dn & rest & Hal & -> & Hr). eexists. split; [done|].
  split; [|split].
  - intros k. destruct confirm; [|by left].
    destruct (applied_lookup file sink (a :: l) Hc dn file k) as [->|(e & -> & ->)]; [|by left|by right].
    intros b Hb. rewrite Hal. apply elem_of_app. by left.
  - by intros ->.
  - intros outcomes mutated -> ->. destruct Hr as [-> ->]. rewrite app_nil_r in Hal. subst dn.
    split; [by apply applied_all|done].
Qed.

(** The gates are open: the store is there and this process holds its lease. *)
Definition gates_open (gates : Gates.t) : Prop :=
  gates.(Gates.data_dir_exists) = true ∧ gates.(Gates.owned) = None ∧ gates.(Gates.lease) = Ok true.

Lemma closed_gates gates durable open_sink confirm file :
  ¬ gates_open gates →
  ∃ error, repair_write_receipts gates durable open_sink confirm file = (file, Err error).
Proof.
  unfold gates_open, repair_write_receipts. intros Hg.
  destruct (gates.(Gates.data_dir_exists)); cbn [negb]; [|eauto].
  destruct (gates.(Gates.owned)); [eauto|]. destruct (gates.(Gates.lease)) as [[]|]; [|eauto..].
  by destruct Hg.
Qed.

Lemma open_gates gates durable sink confirm file file' r :
  gates_open gates →
  repair_write_receipts gates durable (Ok sink) confirm (Parsed file) = (file', r) →
  (∃ error, r = Err error ∧ file' = Parsed file
     ∧ scan_under_held_lease (Parsed file) (Ok sink) = Err error)
  ∨ ∃ before, scan_under_held_lease (Parsed file) (Ok sink) = Ok before
      ∧ file' = (apply_receipt_repairs durable (Parsed file) before.(WriteReceiptScan.anomalies) confirm).1
      ∧ ∀ report, r = Ok report → ∃ outcomes,
          (apply_receipt_repairs durable (Parsed file) before.(WriteReceiptScan.anomalies) confirm).2
          = Ok (outcomes, report.(WriteReceiptRepairReport.mutated)).
Proof.
  intros (Hd & Ho & Hl). unfold repair_write_receipts. rewrite Hd, Ho, Hl. cbn [negb].
  destruct (scan_under_held_lease _ _) as [before|e] eqn:Hs.
  2: { intros [= <- <-]. left. eauto. }
  destruct (apply_receipt_repairs _ _ _ _) as [f applied] eqn:Ha. intros [= <- <-]. right.
  exists before. rewrite Ha. split; [done|]. split; [done|]. intros report.
  destruct applied as [[outcomes mutated]|]; [|done]. cbn.
  destruct (if mutated then _ else _) as [post|]; [|done]. cbn. intros [= <-]. cbn. eauto.
Qed.

Lemma repair_spec gates durable sink confirm file file' r :
  repair_write_receipts gates durable (Ok sink) confirm (Parsed file) = (file', r) →
  ∃ receipts, file' = Parsed receipts
    ∧ (∀ k, receipts !! k = file !! k ∨ receipts !! k = repair_of sink <$> file !! k)
    ∧ (confirm = false ∨ ¬ gates_open gates → receipts = file)
    ∧ (∀ report, r = Ok report → confirm = true →
        receipts = repair_of sink <$> file
        ∧ (report.(WriteReceiptRepairReport.mutated) = true ↔ receipts ≠ file)).
Proof.
  intros Hr. assert (gates_open gates ∨ ¬ gates_open gates) as [Hg|Hg].
  { unfold gates_open. destruct (gates.(Gates.data_dir_exists)), (gates.(Gates.owned)),
      (gates.(Gates.lease)) as [[]|]; intuition congruence. }
  2: { destruct (closed_gates gates durable (Ok sink) confirm (Parsed file) Hg) as [e He].
       rewrite He in Hr. injection Hr as <- <-. exists file. split_and!; [done|by left|done|done]. }
  apply open_gates in Hr as [(e & -> & -> & _)|(before & Hs & -> & Hr)]; [|..|done].
  { exists file. split_and!; [done|by left|done|done]. }
  apply scan_spec in Hs.
  destruct (apply_receipt_repairs _ _ _ _) as [f applied] eqn:Ha.
  destruct (apply_repairs_spec _ _ _ _ _ _ _ Hs Ha) as (receipts & -> & Hk & Hdry & Hok). cbn [fst snd] in *.
  exists receipts. split; [done|]. split; [done|]. split; [by intros [?|?]; [apply Hdry|]|].
  intros report -> ->. destruct (Hr report eq_refl) as [outcomes ->].
  destruct (Hok _ _ eq_refl eq_refl) as [-> Hm]. split; [done|]. rewrite Hm, existsb_exists. split.
  - intros (a & Ha' & Hp) Heq. apply list_elem_of_In in Ha'.
    destruct (planned file a) as [new|] eqn:Hpl; [|done].
    destruct (proj1 Hs a new Ha' Hpl) as (e & He & -> & Hne). apply Hne.
    apply (f_equal (lookup a.(WriteReceiptAnomaly.idempotency_key))) in Heq.
    rewrite lookup_fmap, He in Heq. by injection Heq.
  - intros Hne. destruct (existsb (λ a, is_some (planned file a)) before.(WriteReceiptScan.anomalies)) eqn:He.
    { by apply existsb_exists in He. }
    destruct Hne. rewrite <-(applied_all file sink _ Hs). clear -He.
    induction before.(WriteReceiptScan.anomalies) as [|a l IH]; [done|]. cbn in He |- *.
    apply orb_false_iff in He as [Ha He]. unfold apply_planned at 2.
    destruct (planned file a); [done|]. by apply IH.
Qed.

(** Two repairs of a receipt leave nothing to repair: a duplicate may become finalizable. *)
Lemma repair_of_thrice sink entry :
  repair_of sink (repair_of sink (repair_of sink entry)) = repair_of sink (repair_of sink entry).
Proof.
  assert (∀ h ids recs, has_duplicate_recovery_keys to_vec blake3_hex recs = false →
    repair_of sink (repair_of sink (IdempotencyEntry.Pending h ids recs))
    = repair_of sink (IdempotencyEntry.Pending h ids recs)) as Hu.
  { intros h ids recs Hd. cbn [repair_of]. rewrite Hd. destruct (_ && _ && _) eqn:Hb; [done|].
    cbn [repair_of]. by rewrite Hd, Hb. }
  destruct entry as [h ids recs|]; [|done].
  destruct (has_duplicate_recovery_keys to_vec blake3_hex recs) eqn:Hd; [|by rewrite !Hu].
  assert (repair_of sink (IdempotencyEntry.Pending h ids recs)
    = if has_ambiguous_recovery_keys to_vec blake3_hex recs then IdempotencyEntry.Pending h ids recs
      else deduplicated_entry h ids recs) as Hr by (cbn [repair_of]; by rewrite Hd).
  rewrite Hr. destruct (has_ambiguous_recovery_keys to_vec blake3_hex recs); [by rewrite Hr, Hr|].
  destruct (deduplicated_entry_eq h ids recs) as [ids' ->]. apply Hu, dedup_unique.
Qed.

Definition is_Ok {A E} (r : result A E) : Prop := match r with Ok _ => True | Err _ => False end.

(** The store answers every question of the scan. *)
Definition readable (sink : S) : Prop :=
  (∀ r, is_Ok (expected_record_state sink r)) ∧ ∀ id, is_Ok (read_back sink id).

Lemma tally_states_total sink records m mm :
  readable sink → is_Ok (tally_states sink records m mm).
Proof.
  intros [Hr _]. revert m mm. induction records as [|r l IH]; intros m mm; cbn [tally_states]; [done|].
  specialize (Hr r). destruct (expected_record_state sink r) as [[| |]|]; [apply IH..|done].
Qed.

Lemma all_present_total sink ids : readable sink → is_Ok (all_present sink ids).
Proof.
  intros [_ Hr]. induction ids as [|id l IH]; cbn [all_present]; [done|].
  specialize (Hr id). destruct (read_back sink id) as [[]|]; done.
Qed.

Lemma classify_pending_total key h ids recs sink :
  readable sink → is_Ok (classify_pending_receipt key h ids recs sink).
Proof.
  intros Hr. unfold classify_pending_receipt, store_unreadable. cbv zeta.
  destruct (has_duplicate_recovery_keys _ _ _); [done|].
  pose proof (tally_states_total sink recs 0 0 Hr) as Ht.
  destruct (tally_states _ _ _ _) as [[m mm]|]; [|done]. cbn [map_err result_bind].
  destruct (0 <? mm)%nat; [done|]. destruct (m =? 0)%nat; [done|].
  pose proof (all_present_total sink (synthesized_ids ids recs) Hr) as Ha.
  destruct (all_present _ _); done.
Qed.

Lemma scan_total file sink :
  readable sink → is_Ok (scan_under_held_lease (Parsed file) (Ok sink)).
Proof.
  intros Hr. unfold scan_under_held_lease, build_receipt_scan. cbn [read_idempotency_file_direct result_bind].
  destruct (file_has_pending file); [|done]. cbn [result_bind]. unfold classify_all_receipts.
  assert (is_Ok (classify_entries file sink (keys file))) as Hc.
  { induction (keys file) as [|k ks IH]; cbn [classify_entries]; [done|].
    destruct (file !! k) as [[h ids recs|]|]; [|done..].
    pose proof (classify_pending_total k h ids recs sink Hr).
    destruct (classify_pending_receipt _ _ _ _ _); [|done]. cbn [result_bind].
    destruct (classify_entries file sink ks); done. }
  destruct (classify_entries _ _ _); done.
Qed.

Lemma repair_loop_total durable file confirm anomalies store outcomes mutated :
  (∀ k e, durable k e = Ok ()) →
  is_Ok (repair_loop durable file confirm anomalies store outcomes mutated).2.
Proof.
  intros Hd. revert store outcomes mutated.
  induction anomalies as [|a l IH]; intros store outcomes mutated; cbn [repair_loop]; [done|].
  destruct (file !! _) as [[h ids recs|]|]; [|apply IH..]. destruct (negb _); [apply IH|].
  destruct (repaired_entry _ _ _ _) as [[action new]|]; [|apply IH]. unfold set_entry_durably.
  rewrite Hd. destruct confirm; apply IH.
Qed.

Lemma repair_total gates durable sink confirm file :
  gates_open gates → (∀ k e, durable k e = Ok ()) → readable sink →
  ∃ receipts report,
    repair_write_receipts gates durable (Ok sink) confirm (Parsed file) = (Parsed receipts, Ok report).
Proof.
  intros (Hd & Ho & Hl) Hdur Hr. unfold repair_write_receipts. rewrite Hd, Ho, Hl. cbn [negb].
  pose proof (scan_total file sink Hr) as Hs.
  destruct (scan_under_held_lease _ _) as [before|]; [|done].
  assert (∃ receipts outcomes mutated, apply_receipt_repairs durable (Parsed file)
      before.(WriteReceiptScan.anomalies) confirm = (Parsed receipts, Ok (outcomes, mutated)))
    as (receipts & outcomes & mutated & Ha).
  { unfold apply_receipt_repairs. destruct before.(WriteReceiptScan.anomalies) as [|a l]; [eauto|].
    pose proof (repair_loop_total durable file confirm (a :: l) file [] false Hdur) as Ht.
    destruct (repair_loop _ _ _ _ _ _ _) as [store [[outcomes mutated]|]]; [eauto|done]. }
  rewrite Ha. cbn [result_bind]. pose proof (scan_total receipts sink Hr) as Hs'.
  destruct mutated; [|cbn; eauto]. destruct (scan_under_held_lease _ _); [|done]. cbn. eauto.
Qed.

Lemma repair_of_evolves sink entry : entry_evolves (Some entry) (Some (repair_of sink entry)).
Proof.
  destruct entry as [h ids recs|]; [|done]. cbn [entry_evolves repair_of].
  destruct (has_duplicate_recovery_keys _ _ _).
  - destruct (has_ambiguous_recovery_keys _ _ _); [done|].
    by destruct (deduplicated_entry_eq h ids recs) as [ids' ->].
  - by destruct (_ && _ && _).
Qed.

Lemma repair_evolves gates durable sink confirm file receipts r :
  repair_write_receipts gates durable (Ok sink) confirm (Parsed file) = (Parsed receipts, r) →
  receipts_evolve file receipts.
Proof.
  intros (receipts' & [= <-] & Hk & _)%repair_spec k. destruct (Hk k) as [->| ->].
  - apply (reflexivity (R := receipts_evolve)).
  - destruct (file !! k) as [e|]; [apply repair_of_evolves|done].
Qed.

(** C21: a confirmed repair that succeeds rewrites every receipt to its one safe action: a
    pending receipt with redundant duplicates loses them, one whose records and synthesized
    edges are all in the store is committed, and every other receipt stays as it was; its report
    says it mutated the file exactly when it did. A repair that fails part of the way has done
    some of these rewrites and nothing else; a dry run, or a repair without the lease, none. *)
Theorem repair_exact gates durable sink confirm file file' r :
  repair_write_receipts gates durable (Ok sink) confirm (Parsed file) = (file', r) →
  ∃ receipts, file' = Parsed receipts
    ∧ (∀ k, receipts !! k = file !! k ∨ receipts !! k = repair_of sink <$> file !! k)
    ∧ (confirm = false ∨ ¬ gates_open gates → receipts = file)
    ∧ (∀ report, r = Ok report → confirm = true →
        receipts = repair_of sink <$> file
        ∧ (report.(WriteReceiptRepairReport.mutated) = true ↔ receipts ≠ file)).
Proof. apply repair_spec. Qed.

(** C22: when the store can be read and the receipt file written, two confirmed repairs converge:
    a third one changes nothing. No pass touches a committed receipt or the payload hash of a
    pending one, and the deduplication keeps every record of the receipt exactly once. *)
Theorem repair_converges gates durable sink file :
  gates_open gates → (∀ k e, durable k e = Ok ()) → readable sink →
  let pass receipts := repair_write_receipts gates durable (Ok sink) true (Parsed receipts) in
  ∃ file1 file2 report1 report2 report3,
    pass file = (Parsed file1, Ok report1) ∧ pass file1 = (Parsed file2, Ok report2)
    ∧ pass file2 = (Parsed file2, Ok report3)
    ∧ report3.(WriteReceiptRepairReport.mutated) = false
    ∧ receipts_evolve file file2
    ∧ ∀ k h ids recs, file !! k = Some (IdempotencyEntry.Pending h ids recs) →
        has_duplicate_recovery_keys to_vec blake3_hex recs = true →
        has_ambiguous_recovery_keys to_vec blake3_hex recs = false →
        ∃ ids' recs', file1 !! k = Some (IdempotencyEntry.Pending h ids' recs')
          ∧ NoDup (rkey <$> recs') ∧ ∀ r, r ∈ recs' ↔ r ∈ recs.
Proof.
  intros Hg Hd Hr pass.
  destruct (repair_total gates durable sink true file Hg Hd Hr) as (f1 & r1 & H1).
  destruct (repair_total gates durable sink true f1 Hg Hd Hr) as (f2 & r2 & H2).
  destruct (repair_total gates durable sink true f2 Hg Hd Hr) as (f3 & r3 & H3).
  pose proof H1 as E1%repair_evolves. pose proof H2 as E2%repair_evolves.
  destruct (repair_spec _ _ _ _ _ _ _ H1) as (? & [= <-] & _ & _ & F1).
  destruct (repair_spec _ _ _ _ _ _ _ H2) as (? & [= <-] & _ & _ & F2).
  destruct (repair_spec _ _ _ _ _ _ _ H3) as (? & [= <-] & _ & _ & F3).
  destruct (F1 _ eq_refl eq_refl) as [G1 _], (F2 _ eq_refl eq_refl) as [G2 _],
    (F3 _ eq_refl eq_refl) as [G3 M3].
  assert (f3 = f2) as ->.
  { rewrite G3, G2, G1, <-!map_fmap_compose. apply map_fmap_ext. intros k e _. apply repair_of_thrice. }
  exists f1, f2, r1, r2, r3. split_and!; [done..| | |].
  - destruct (r3.(WriteReceiptRepairReport.mutated)); [|done]. by destruct (proj1 M3 eq_refl).
  - by etrans.
  - intros k h ids recs Hk Hdup Hamb. rewrite G1, lookup_fmap, Hk. cbn. rewrite Hdup, Hamb.
    destruct (deduplicated_entry_eq h ids recs) as [ids' ->].
    eexists _, _. split; [done|]. split; [apply dedup_loop_spec|]. intros r. by apply dedup_elem.
Qed.
End Repair.

(** ** The life of the daemon's receipts *)
Section DaemonLife.
Context (json_object : list (string * string) → string) (to_vec : GraphRecord → option string)
  (blake3_hex : string → string) (entry_to_vec : IdempotencyEntry.t → option string).
Context {S : Type} `{GraphSink S} `{!EmbeddedSink S} `{!DomainValidators S}.
Implicit Types st : Daemon.t S.
Abbreviation write := (apply_write json_object to_vec blake3_hex).
Abbreviation repair := (repair_write_receipts to_vec blake3_hex entry_to_vec).

(** What happens to a daemon: a command of its worker, with any failure of the receipt file; a
    change of the store by anything else, a crash that loses writes included; an offline repair. *)
Inductive daemon_step : relation (Daemon.t S) :=
| daemon_write durable fuel command st st' r :
    write durable fuel command st = Some (st', r) → daemon_step st st'
| daemon_store receipts sink sink' :
    daemon_step (Daemon.mk receipts sink) (Daemon.mk receipts sink')
| daemon_repair gates durable confirm receipts receipts' sink r :
    repair gates durable (Ok sink) confirm (Parsed receipts) = (Parsed receipts', r) →
    daemon_step (Daemon.mk receipts sink) (Daemon.mk receipts' sink).

Lemma daemon_steps_evolve st st' :
  rtc daemon_step st st' → receipts_evolve st.(Daemon.receipts) st'.(Daemon.receipts).
Proof.
  induction 1 as [|st1 st2 st3 Hs _ IH]; [done|]. etrans; [|exact IH]. clear IH.
  destruct Hs as [durable fuel command st st' r Hw| |gates durable confirm f f' sink r Hr]; cbn [Daemon.receipts].
  - by eapply write_step_evolves, apply_write_step.
  - done.
  - by eapply repair_evolves.
Qed.

(** C20: a write is done once: when a command has succeeded, then whatever commands the worker
    takes after it, however the receipt file fails, whatever happens to the store and however
    often the receipts are repaired, every retry with its key, its payload hash and a payload
    without repeated recovery keys is answered with the response of the first write, marked as
    a replay, and changes neither the store nor the receipts. *)
Theorem write_succeeds_once durable fuel command st st1 response st2 retry durable' fuel' :
  write durable fuel command st = Some (st1, Ok response) →
  rtc daemon_step st1 st2 →
  retry.(WriteCommand.idempotency_key) = command.(WriteCommand.idempotency_key) →
  retry.(WriteCommand.payload_hash) = command.(WriteCommand.payload_hash) →
  NoDup (recovery_key to_vec blake3_hex <$> retry.(WriteCommand.records)) →
  write durable' fuel' retry st2 = Some (st2, Ok (DaemonIngestResponse.as_replay response)).
Proof.
  intros Hw Hs Hk Hh Hu. apply apply_write_step, write_step_committed in Hw as (r & Hc & ->).
  apply daemon_steps_evolve in Hs. specialize (Hs command.(WriteCommand.idempotency_key)).
  rewrite Hc in Hs. apply committed_replayed; [done|]. by rewrite Hk, Hh.
Qed.

(** ** Retries of a deduplicated receipt *)
Section Stuck.
Context (records_to_vec : list GraphRecord → option string).

(* daemon.rs 14445-14448: records_hash *)
Definition records_hash (records : list GraphRecord) : option string :=
  blake3_hex <$> records_to_vec records.

(** The command of a request to write; [None] is the failure of the hash. *)
(* daemon.rs 13432-13442: enqueue_write *)
Definition write_command (idempotency_key : string) (records : list GraphRecord)
    (policy : DanglingCitationPolicy) : option WriteCommand.t :=
  (λ hash, WriteCommand.mk idempotency_key hash records policy) <$> records_hash records.

(** The code keeps, in a receipt it drops duplicates from, the hash of the payload with the
    duplicates. When the hash of a payload determines it, no request under the key of a
    deduplicated receipt is ever accepted again: the original payload is refused for its
    duplicates and every other one, the deduplicated one included, for its hash. *)
Theorem deduplicated_receipt_stuck file st key hash ids original records policy command durable fuel :
  file !! key = Some (IdempotencyEntry.Pending hash ids original) →
  has_duplicate_recovery_keys to_vec blake3_hex original = true →
  has_ambiguous_recovery_keys to_vec blake3_hex original = false →
  st.(Daemon.receipts) = repair_of to_vec blake3_hex st.(Daemon.sink) <$> file →
  (∀ l, records_hash l = Some hash → l = original) →
  write_command key records policy = Some command →
  ∃ error, write durable fuel command st = Some (st, Err error)
    ∧ error.(ApiError.code) = ErrorCode.IdempotencyConflict.
Proof.
  intros Hf Hdup Hamb Hst Hinj Hcmd. unfold write_command in Hcmd.
  destruct (records_hash records) as [hash'|] eqn:Hh; [|done]. injection Hcmd as <-.
  unfold apply_write. cbn [WriteCommand.records WriteCommand.idempotency_key WriteCommand.payload_hash].
  unfold validate_unique_recovery_keys. destruct (_ || _) eqn:Hd; [eauto|].
  rewrite Hst, lookup_fmap, Hf. cbn [fmap option_fmap option_map repair_of]. rewrite Hdup, Hamb.
  destruct (deduplicated_entry_eq to_vec blake3_hex hash ids original) as [ids' ->].
  cbn [IdempotencyEntry.payload_hash]. destruct (String.eqb_spec hash hash') as [<-|]; [|by eauto].
  apply Hinj in Hh as ->. by rewrite Hdup in Hd.
Qed.
End Stuck.
End DaemonLife.

(** ** Examples *)
Module RepairDemo.
Definition d : GraphRecord := sample_node "agent_memory:v1:d" [].
Definition e : GraphRecord := sample_node "agent_memory:v1:e" [].
(** A receipt with a duplicate, and one whose write the store holds. *)
Definition file : Receipts :=
  {[ "dup" := IdempotencyEntry.Pending "original" [GraphRecord.id d; GraphRecord.id d] [d; d];
     "part" := IdempotencyEntry.Pending "h" [GraphRecord.id e] [e] ]}.
Definition store : DryRunSink.t := DryRunSink.mk {[ GraphRecord.id d := d; GraphRecord.id e := e ]}.
Definition gates : Gates.t := Gates.mk true None (Ok true) None.
Definition to_vec (r : GraphRecord) : option string := Some (GraphRecord.id r).
Definition repair (confirm : bool) (file : Receipts) :=
  repair_write_receipts to_vec id (λ _, None) gates WriteDemo.written (Ok store) confirm (Parsed file).
Definition records_to_vec (l : list GraphRecord) : option string :=
  if bool_decide (l = [d; d]) then Some "original" else Some "another".
End RepairDemo.

(** The first pass drops the duplicate and finalizes the write the store holds, the second
    finalizes the rest. *)
Example two_passes :
  match RepairDemo.repair true RepairDemo.file with
  | (Parsed file, Ok report) =>
      (WriteReceiptRepairOutcome.action <$> report.(WriteReceiptRepairReport.outcomes))
        = [ACTION_DROP_DUPLICATE; ACTION_FINALIZE_PARTIAL]
      ∧ match RepairDemo.repair true file with
        | (Parsed file, Ok report) =>
            (WriteReceiptRepairOutcome.action <$> report.(WriteReceiptRepairReport.outcomes))
              = [ACTION_FINALIZE_PARTIAL]
            ∧ file_has_pending file = false
        | _ => False
        end
  | _ => False
  end.
Proof. vm_compute. by split; [|split]. Qed.

Lemma repair_exact_witness :
  match RepairDemo.repair false RepairDemo.file with
  | (Parsed file, _) => file = RepairDemo.file
  | _ => False
  end.
Proof.
  destruct (RepairDemo.repair false RepairDemo.file) as [file r] eqn:Hr.
  destruct (repair_exact RepairDemo.to_vec id (λ _, None) RepairDemo.gates WriteDemo.written
              RepairDemo.store false RepairDemo.file file r Hr) as (receipts & -> & _ & Hdry & _).
  apply Hdry. left. reflexivity.
Defined.

Lemma repair_converges_witness :
  ∃ file1 file2 report, (RepairDemo.repair true RepairDemo.file).1 = Parsed file1
    ∧ (RepairDemo.repair true file1).1 = Parsed file2
    ∧ RepairDemo.repair true file2 = (Parsed file2, Ok report)
    ∧ report.(WriteReceiptRepairReport.mutated) = false.
Proof.
  destruct (repair_converges RepairDemo.to_vec id (λ _, None) RepairDemo.gates WriteDemo.written
              RepairDemo.store RepairDemo.file)
    as (f1 & f2 & r1 & r2 & r3 & H1 & H2 & H3 & Hm & _).
  - split_and!; reflexivity.
  - intros k entry. reflexivity.
  - split; intros; exact I.
  - exists f1, f2, r3. split; [exact (f_equal fst H1)|]. split; [exact (f_equal fst H2)|].
    split; [exact H3|exact Hm].
Defined.

(** The retry of a write whose store was lost is still answered from its receipt. *)
Lemma write_succeeds_once_witness :
  match WriteDemo.write WriteDemo.written 5 WriteDemo.command WriteDemo.empty with
  | Some (st1, Ok response) =>
      let st2 := Daemon.mk st1.(Daemon.receipts) (DryRunSink.mk ∅) in
      WriteDemo.write WriteDemo.first_only 5 WriteDemo.command st2
      = Some (st2, Ok (DaemonIngestResponse.as_replay response))
  | _ => False
  end.
Proof.
  destruct (WriteDemo.write WriteDemo.written 5 WriteDemo.command WriteDemo.empty)
    as [[st1 [response|error]]|] eqn:Hw; [|vm_compute in Hw; discriminate Hw..].
  refine (write_succeeds_once (λ _, "diagnostic") (λ r, Some (GraphRecord.id r)) id (λ _, None)
            WriteDemo.written 5 WriteDemo.command WriteDemo.empty st1 response _ WriteDemo.command
            WriteDemo.first_only 5 Hw _ eq_refl eq_refl _).
  - destruct st1 as [receipts sink]. apply rtc_once, daemon_store.
  - apply validate_unique_spec. vm_compute. reflexivity.
Defined.

Lemma deduplicated_receipt_stuck_witness :
  ∃ error st,
    st.(Daemon.receipts)
      = repair_of RepairDemo.to_vec id RepairDemo.store <$> RepairDemo.file
    ∧ apply_write (λ _, "diagnostic") RepairDemo.to_vec id WriteDemo.written 5
      (WriteCommand.mk "dup" "another" [RepairDemo.d] Quarantine) st = Some (st, Err error)
    ∧ error.(ApiError.code) = ErrorCode.IdempotencyConflict.
Proof.
  set (st := Daemon.mk (repair_of RepairDemo.to_vec id RepairDemo.store <$> RepairDemo.file) RepairDemo.store).
  destruct (deduplicated_receipt_stuck (λ _, "diagnostic") RepairDemo.to_vec id
              RepairDemo.records_to_vec RepairDemo.file st "dup" "original"
              [GraphRecord.id RepairDemo.d; GraphRecord.id RepairDemo.d] [RepairDemo.d; RepairDemo.d]
              [RepairDemo.d] Quarantine (WriteCommand.mk "dup" "another" [RepairDemo.d] Quarantine)
              WriteDemo.written 5) as (error & Hw & Hc).
  - vm_compute. reflexivity.
  - vm_compute. reflexivity.
  - vm_compute. reflexivity.
  - reflexivity.
  - intros l. unfold records_hash, RepairDemo.records_to_vec. case_bool_decide as Hl; [intros _; exact Hl|].
    intros Heq. discriminate Heq.
  - vm_compute. reflexivity.
  - exists error, st. split; [reflexivity|]. split; [exact Hw|exact Hc].
Defined.
