(* ===== verification/TokenRotation.v ===== *)
(** * Rotation of the daemon's access token

    The tokens of [src/src/daemon.rs]: the generations a daemon keeps of its bearer token, the
    verdict on a presented token, and the pass of the accept loop that rotates the token and
    publishes the new one. Instants are Unix milliseconds ([u128], which the sums of an instant
    and [u64] lifetimes do not overflow). The clock, the random tokens and the outcome of
    publishing the metadata are arguments; the poisoning of the lock is not modelled. *)
From S2P Require Import Prelude RustStr.

(** ** Metadata *)

(* daemon.rs 104-112: DaemonState *)
Inductive DaemonState : Set := Running | Stopped | Crashed.

(* daemon.rs 117-124: DaemonTransportKind *)
Inductive DaemonTransportKind : Set := Http | Unix | Pipe.

Module DaemonTransport.
(* daemon.rs 128-133: DaemonTransport *)
Record t : Set := mk { kind : DaemonTransportKind; address : string }.
End DaemonTransport.

Module DaemonMetadata.
(* daemon.rs 137-178: DaemonMetadata *)
Record t : Set := mk {
  schema_version : N;
  pid : N;
  address : string;
  token : string;
  data_dir : string;
  version : string;
  started_at_unix_ms : N;
  state : DaemonState;
  api_version : option string;
  transports : option (list DaemonTransport.t);
  token_expires_at_unix_ms : option N;
  daemons_index_url : option string;
  storage_mode : string;
  key_source : option string
}.

(** [metadata.token = …; metadata.token_expires_at_unix_ms = …]. *)
(* daemon.rs 1811-1812: maybe_rotate_token *)
Definition with_token (token : string) (expires : option N) (self : t) : t :=
  mk self.(schema_version) self.(pid) self.(address) token self.(data_dir) self.(version)
    self.(started_at_unix_ms) self.(state) self.(api_version) self.(transports) expires
    self.(daemons_index_url) self.(storage_mode) self.(key_source).
End DaemonMetadata.

(** ** Verdicts *)

(* daemon.rs 494-506: AuthVerdict *)
Inductive AuthVerdict : Set := Authorized | Superseded | Denied.

#[export] Instance AuthVerdict_eq_dec : EqDecision AuthVerdict.
Proof. solve_decision. Defined.

(* daemon.rs 517-520: constant_time_eq *)
Fixpoint byte_diff (diff : N) (left_ right_ : string) : N :=
  match left_, right_ with
  | String a left_, String b right_ =>
      byte_diff (N.lor diff (N.lxor (Ascii.N_of_ascii a) (Ascii.N_of_ascii b))) left_ right_
  | _, _ => diff
  end.
(* daemon.rs 513-522: constant_time_eq *)
Definition constant_time_eq (left_ right_ : string) : bool :=
  if negb (String.length left_ =? String.length right_)%nat then false
  else (byte_diff 0 left_ right_ =? 0)%N.

Module TokenGeneration.
(* daemon.rs 527-532: TokenGeneration *)
Record t : Set := mk {
  token : string;
  issued_at_unix_ms : N;
  superseded_at_unix_ms : option N
}.
End TokenGeneration.
Abbreviation Generation := TokenGeneration.t.

Module TokenRotationState.
(* daemon.rs 541-547: TokenRotationState *)
Record t : Set := mk {
  generations : list Generation;
  ttl_ms : option N;
  rotations : N
}.

(* daemon.rs 550-561: TokenRotationState::new *)
Definition new (token : string) (ttl_ms : option N) (now : N) : t :=
  mk [TokenGeneration.mk token now None] ttl_ms 0.

(* daemon.rs 563-565: TokenRotationState::rotation_enabled *)
Definition rotation_enabled (self : t) : bool := is_some self.(ttl_ms).

(* daemon.rs 568-570: TokenRotationState::cutover_grace_ms *)
Definition cutover_grace_ms (self : t) : N :=
  match self.(ttl_ms) with Some ttl => ttl / 2 | None => 0 end.

(* daemon.rs 574-576: TokenRotationState::history_retention_ms *)
Definition history_retention_ms (self : t) : N :=
  match self.(ttl_ms) with Some ttl => ttl | None => 0 end.

(* daemon.rs 593-594: TokenRotationState::authorize_at *)
Fixpoint newest_match (presented : string) (newest_first : list Generation) : option Generation :=
  match newest_first with
  | [] => None
  | generation :: older =>
      if constant_time_eq generation.(TokenGeneration.token) presented then Some generation
      else newest_match presented older
  end.

(* daemon.rs 585-610: TokenRotationState::authorize_at *)
Definition authorize_at (self : t) (presented : string) (now_unix_ms : N) : AuthVerdict :=
  let grace_ms := cutover_grace_ms self in
  let retention_ms := history_retention_ms self in
  match newest_match presented (reverse self.(generations)) with
  | Some generation =>
      match generation.(TokenGeneration.superseded_at_unix_ms) with
      | None => Authorized
      | Some superseded_at =>
          if (now_unix_ms <? superseded_at + grace_ms)%N then Authorized
          else if (now_unix_ms <? superseded_at + grace_ms + retention_ms)%N then Superseded
          else Denied
      end
  | None => Denied
  end.

(* daemon.rs 613-619: TokenRotationState::authorize_presented *)
Definition authorize_presented (self : t) (headers : gmap string string) (now : N) : AuthVerdict :=
  authorize_at self (default "" (headers !! "authorization" ≫= strip_prefix "Bearer ")) now.

(* daemon.rs 640-642: TokenRotationState::commit_rotation_at *)
Fixpoint supersede_last (now : N) (generations : list Generation) : list Generation :=
  match generations with
  | [] => []
  | [current] =>
      [TokenGeneration.mk current.(TokenGeneration.token) current.(TokenGeneration.issued_at_unix_ms)
         (Some now)]
  | generation :: rest => generation :: supersede_last now rest
  end.

(** [generations.retain]. *)
(* daemon.rs 633-639: TokenRotationState::commit_rotation_at *)
Definition retained (window now : N) (generation : Generation) : bool :=
  match generation.(TokenGeneration.superseded_at_unix_ms) with
  | None => true
  | Some superseded_at => (now <? superseded_at + window)%N
  end.

(* daemon.rs 625-650: TokenRotationState::commit_rotation_at *)
Definition commit_rotation_at (self : t) (token : string) (now_unix_ms : N) : t :=
  let window := (cutover_grace_ms self + history_retention_ms self)%N in
  let generations := List.filter (retained window now_unix_ms) self.(generations) in
  let generations := supersede_last now_unix_ms generations in
  mk (generations ++ [TokenGeneration.mk token now_unix_ms None]) self.(ttl_ms)
    ((self.(rotations) + 1) mod 2 ^ 64).

(* daemon.rs 654-663: TokenRotationState::current_expiry_unix_ms *)
Definition current_expiry_unix_ms (self : t) : option N :=
  ttl_ms ← self.(ttl_ms);
  (λ current, (current.(TokenGeneration.issued_at_unix_ms) + ttl_ms)%N) <$> last self.(generations).

(* daemon.rs 665-667: TokenRotationState::rotation_count *)
Definition rotation_count (self : t) : N := self.(rotations).
End TokenRotationState.
Abbreviation Tokens := TokenRotationState.t.

(** ** The rotation pass of the accept loop *)

(** How publishing the metadata ends: [egregored.json] and the lease are written, the lease alone
    fails, or [egregored.json] is left as it was. *)
Inductive PublishOutcome : Set := Published | LeaseFailed | FileFailed.

Module Rotator.
(** What the accept loop holds, and the contents of [egregored.json]. *)
(* daemon.rs 1918-1930: run_foreground *)
Record t : Set := mk {
  tokens : Tokens;
  metadata : DaemonMetadata.t;
  next_rotation_at_unix_ms : option N;
  unpublished_rotation : bool;
  file : DaemonMetadata.t
}.
End Rotator.

Module Pass.
(** The clock, the random token and the outcome of the writes of one pass. *)
Record t : Set := mk { now : N; new_token : string; outcome : PublishOutcome }.
End Pass.

(* daemon.rs 1809-1814: maybe_rotate_token *)
Definition mint_rotation (pass : Pass.t) (self : Rotator.t) : Rotator.t :=
  if self.(Rotator.unpublished_rotation) then self
  else
    let tokens := TokenRotationState.commit_rotation_at self.(Rotator.tokens) pass.(Pass.new_token)
                    pass.(Pass.now) in
    Rotator.mk tokens
      (DaemonMetadata.with_token pass.(Pass.new_token)
         (TokenRotationState.current_expiry_unix_ms tokens) self.(Rotator.metadata))
      self.(Rotator.next_rotation_at_unix_ms) true self.(Rotator.file).

(* daemon.rs 1789-1824: maybe_rotate_token *)
Definition maybe_rotate_token (token_ttl_ms : option N) (self : Rotator.t) (pass : Pass.t)
    : Rotator.t :=
  match self.(Rotator.next_rotation_at_unix_ms) with
  | None => self
  | Some rotation_at =>
      if (pass.(Pass.now) <? rotation_at)%N then self
      else
        let self := mint_rotation pass self in
        match pass.(Pass.outcome) with
        | Published =>
            Rotator.mk self.(Rotator.tokens) self.(Rotator.metadata)
              ((λ ttl_ms, (pass.(Pass.now) + ttl_ms)%N) <$> token_ttl_ms) false
              self.(Rotator.metadata)
        | LeaseFailed =>
            Rotator.mk self.(Rotator.tokens) self.(Rotator.metadata)
              self.(Rotator.next_rotation_at_unix_ms) true self.(Rotator.metadata)
        | FileFailed => self
        end
  end.

(** A daemon that has published its first token. *)
(* daemon.rs 1885-1930: run_foreground *)
Definition started (token_ttl_ms : option N) (metadata : DaemonMetadata.t) (now : N) : Rotator.t :=
  let tokens := TokenRotationState.new metadata.(DaemonMetadata.token) token_ttl_ms now in
  let metadata := DaemonMetadata.with_token metadata.(DaemonMetadata.token)
                    (TokenRotationState.current_expiry_unix_ms tokens) metadata in
  Rotator.mk tokens metadata
    ((λ ttl_ms, (metadata.(DaemonMetadata.started_at_unix_ms) + ttl_ms)%N) <$> token_ttl_ms) false
    metadata.

(** ** The tokens of a history of rotations *)
Section History.
Context (ttl : option N).
Abbreviation grace := (match ttl with Some t => t / 2 | None => 0 end)%N.
Abbreviation retention := (match ttl with Some t => t | None => 0 end)%N.

(** A history is the tokens with the instants they were issued at, the newest first. *)
Abbreviation History := (list (string * N)).

(** The verdict a daemon would give that remembered every token it ever issued: a token is
    superseded when the next one is issued. *)
Fixpoint verdict (superseded : option N) (history : History) (presented : string) (now : N)
    : AuthVerdict :=
  match history with
  | [] => Denied
  | (token, issued) :: history =>
      if decide (token = presented) then
        match superseded with
        | None => Authorized
        | Some at_ =>
            if (now <? at_ + grace)%N then Authorized
            else if (now <? at_ + grace + retention)%N then Superseded else Denied
        end
      else verdict (Some issued) history presented now
  end.

(** The state after the rotations of a history. *)
Definition rotated (first : string * N) (rotations : History) : Tokens :=
  foldr (λ p s, TokenRotationState.commit_rotation_at s p.1 p.2)
    (TokenRotationState.new first.1 ttl first.2) rotations.

(** Instants do not go backwards. *)
Fixpoint chronological (bound : N) (history : History) : Prop :=
  match history with
  | [] => True
  | (_, at_) :: history => (at_ ≤ bound)%N ∧ chronological at_ history
  end.

(** Every generation of a history, the newest first. *)
Fixpoint all_generations (superseded : option N) (history : History) : list Generation :=
  match history with
  | [] => []
  | (token, issued) :: history =>
      TokenGeneration.mk token issued superseded :: all_generations (Some issued) history
  end.

Definition window : N := grace + retention.

(** No longer remembered at an instant. *)
Definition expired (now : N) (g : Generation) : Prop :=
  TokenRotationState.retained window now g = false.

Lemma expired_mono now now' g : (now ≤ now')%N → expired now g → expired now' g.
Proof.
  unfold expired, TokenRotationState.retained. destruct (TokenGeneration.superseded_at_unix_ms g); [|done].
  rewrite !N.ltb_ge. lia.
Qed.

Lemma byte_diff_0 l r diff :
  String.length l = String.length r → byte_diff diff l r = 0%N ↔ diff = 0%N ∧ l = r.
Proof.
  revert r diff. induction l as [|a l IH]; intros [|b r] diff Hl; cbn in Hl; try lia; cbn [byte_diff].
  { naive_solver. }
  rewrite IH by lia. rewrite N.lor_eq_0_iff, N.lxor_eq_0_iff. split.
  - intros [[-> Hab] ->]. split; [done|]. f_equal.
    by rewrite <-(Ascii.ascii_N_embedding a), Hab, Ascii.ascii_N_embedding.
  - by intros [-> [= -> ->]].
Qed.

(** The comparison without data-dependent branches is equality. *)
Lemma constant_time_eq_spec l r : constant_time_eq l r = true ↔ l = r.
Proof.
  unfold constant_time_eq. destruct (Nat.eqb_spec (String.length l) (String.length r)) as [Hl|Hl]; cbn [negb].
  - rewrite N.eqb_eq, byte_diff_0 by done. naive_solver.
  - split; [done|]. by intros ->.
Qed.

(** The verdict on a list of generations, the newest first. *)
Definition verdict_in (gs : list Generation) (presented : string) (now : N) : AuthVerdict :=
  match TokenRotationState.newest_match presented gs with
  | Some g =>
      match g.(TokenGeneration.superseded_at_unix_ms) with
      | None => Authorized
      | Some at_ =>
          if (now <? at_ + grace)%N then Authorized
          else if (now <? at_ + grace + retention)%N then Superseded else Denied
      end
  | None => Denied
  end.

Lemma verdict_all superseded history presented now :
  verdict_in (all_generations superseded history) presented now
  = verdict superseded history presented now.
Proof.
  revert superseded. induction history as [|[token issued] history IH]; intros superseded; [done|].
  cbn [all_generations verdict]. unfold verdict_in. cbn [TokenRotationState.newest_match TokenGeneration.token].
  case_decide as Ht.
  - apply constant_time_eq_spec in Ht. by rewrite Ht.
  - destruct (constant_time_eq token presented) eqn:Hc; [by apply constant_time_eq_spec in Hc|].
    apply IH.
Qed.

Lemma newest_match_app presented l1 l2 :
  TokenRotationState.newest_match presented (l1 ++ l2)
  = match TokenRotationState.newest_match presented l1 with
    | Some g => Some g
    | None => TokenRotationState.newest_match presented l2
    end.
Proof. induction l1 as [|g l1 IH]; cbn; [done|]. by destruct (constant_time_eq _ _). Qed.

Lemma newest_match_elem presented l g : TokenRotationState.newest_match presented l = Some g → g ∈ l.
Proof.
  induction l as [|x l IH]; cbn; [done|]. destruct (constant_time_eq _ _); [intros [= ->]; left|].
  intros Hl. right. by apply IH.
Qed.

(** Forgetting what has expired changes no verdict. *)
Lemma verdict_in_dropped l dropped presented now :
  Forall (expired now) dropped → verdict_in (l ++ dropped) presented now = verdict_in l presented now.
Proof.
  intros Hd. unfold verdict_in. rewrite newest_match_app.
  destruct (TokenRotationState.newest_match presented l); [done|].
  destruct (TokenRotationState.newest_match presented dropped) as [g|] eqn:Hg; [|done].
  apply newest_match_elem in Hg. rewrite Forall_forall in Hd. specialize (Hd g Hg). revert Hd.
  unfold expired, TokenRotationState.retained, window.
  destruct (TokenGeneration.superseded_at_unix_ms g) as [at_|]; [|done]. rewrite N.ltb_ge. intros Hn.
  destruct (N.ltb_spec now (at_ + grace)); [lia|].
  by destruct (N.ltb_spec now (at_ + grace + retention)); [lia|].
Qed.

(** Older generations were superseded earlier, so what a rotation forgets are the oldest ones. *)
Lemma all_expired history bound now :
  chronological bound history → (bound + window ≤ now)%N →
  Forall (expired now) (all_generations (Some bound) history).
Proof.
  revert bound. induction history as [|[token issued] history IH]; intros bound; cbn; [constructor|].
  intros [Hi Hc] Hn. constructor; [|apply IH; [done|lia]].
  unfold expired, TokenRotationState.retained. cbn. apply N.ltb_ge. lia.
Qed.

Lemma filter_expired now l :
  Forall (expired now) l → List.filter (TokenRotationState.retained window now) l = [].
Proof. induction 1 as [|g l Hg _ IH]; [done|]. cbn. unfold expired in Hg. by rewrite Hg. Qed.

Lemma retain_prefix history bound now :
  chronological bound history →
  ∃ dropped, all_generations (Some bound) history
      = List.filter (TokenRotationState.retained window now) (all_generations (Some bound) history) ++ dropped
    ∧ Forall (expired now) dropped.
Proof.
  revert bound. induction history as [|[token issued] history IH]; intros bound; cbn [chronological].
  { by exists []. }
  intros [Hi Hc]. destruct (N.lt_ge_cases now (bound + window)) as [Hn|Hn].
  - destruct (IH issued Hc) as (dropped & Heq & Hd). exists dropped. split; [|done].
    cbn [all_generations List.filter]. unfold TokenRotationState.retained at 1. cbn.
    apply N.ltb_lt in Hn. rewrite Hn. cbn. by rewrite <-Heq.
  - pose proof (all_expired ((token, issued) :: history) bound now (conj Hi Hc) Hn) as He.
    exists (all_generations (Some bound) ((token, issued) :: history)). split; [|done].
    by rewrite filter_expired.
Qed.

Lemma retain_remembered history bound now older dropped :
  chronological bound history → all_generations (Some bound) history = older ++ dropped →
  Forall (expired now) dropped →
  ∃ dropped', all_generations (Some bound) history
      = List.filter (TokenRotationState.retained window now) older ++ dropped'
    ∧ Forall (expired now) dropped'.
Proof.
  intros Hc Heq Hd. destruct (retain_prefix history bound now Hc) as (d & Hf & He). exists d.
  split; [|done]. rewrite Hf at 1. by rewrite Heq, List.filter_app, (filter_expired now dropped Hd), app_nil_r.
Qed.

Lemma supersede_last_snoc now gs g :
  TokenRotationState.supersede_last now (gs ++ [g])
  = gs ++ [TokenGeneration.mk g.(TokenGeneration.token) g.(TokenGeneration.issued_at_unix_ms) (Some now)].
Proof. induction gs as [|x [|y gs] IH]; [done..|]. cbn in *. by rewrite IH. Qed.

Lemma filter_reverse {A} (f : A → bool) l : List.filter f (reverse l) = reverse (List.filter f l).
Proof.
  induction l as [|x l IH]; [done|]. rewrite reverse_cons, List.filter_app, IH. cbn [List.filter].
  destruct (f x); [by rewrite reverse_cons|by rewrite app_nil_r].
Qed.

(** What a daemon remembers of a history: its newest part. All that is forgotten has expired, and
    of what is remembered only the current token and the one before it may have. *)
Definition remembers (s : Tokens) (token : string) (issued : N) (history : History) : Prop :=
  s.(TokenRotationState.ttl_ms) = ttl
  ∧ ∃ older dropped,
      s.(TokenRotationState.generations) = reverse older ++ [TokenGeneration.mk token issued None]
    ∧ all_generations (Some issued) history = older ++ dropped
    ∧ Forall (expired issued) dropped
    ∧ Forall (λ g, ¬ expired issued g) (drop 1 older).

Lemma commit_remembers s token issued history new_token now :
  remembers s token issued history → chronological issued history → (issued ≤ now)%N →
  remembers (TokenRotationState.commit_rotation_at s new_token now) new_token now
    ((token, issued) :: history).
Proof.
  intros (Httl & older & dropped & Hg & Hall & Hd & _) Hc Hn.
  assert (TokenRotationState.cutover_grace_ms s + TokenRotationState.history_retention_ms s = window)%N as Hw
    by (unfold TokenRotationState.cutover_grace_ms, TokenRotationState.history_retention_ms, window;
        by rewrite Httl).
  destruct (retain_remembered history issued now older dropped Hc Hall) as (dropped' & Hall' & Hd').
  { eapply Forall_impl; [exact Hd|]. intros g. by apply expired_mono. }
  split; [done|].
  exists (TokenGeneration.mk token issued (Some now)
            :: List.filter (TokenRotationState.retained window now) older), dropped'.
  split_and!.
  - unfold TokenRotationState.commit_rotation_at. cbn [TokenRotationState.generations].
    rewrite Hw, Hg, List.filter_app, filter_reverse.
    change (List.filter _ [TokenGeneration.mk token issued None]) with [TokenGeneration.mk token issued None].
    by rewrite supersede_last_snoc, reverse_cons.
  - cbn [all_generations]. by rewrite Hall'.
  - done.
  - cbn [drop]. rewrite drop_0. apply Forall_forall. intros g [_ Hr]%list_elem_of_In%List.filter_In He.
    unfold expired in He. congruence.
Qed.

Lemma rotated_remembers first rotations token issued history :
  rotations ++ [first] = (token, issued) :: history → chronological issued history →
  remembers (rotated first rotations) token issued history.
Proof.
  revert token issued history. induction rotations as [|[tok now] rotations IH]; intros token issued history.
  { destruct first as [tok at_]. intros [= <- <- <-] _. split; [done|]. by exists [], []. }
  rewrite <-app_comm_cons. intros [= -> -> <-] Hc. cbn [rotated foldr fst snd].
  destruct (rotations ++ [first]) as [|[token' issued'] history] eqn:Heq; [by destruct rotations|].
  destruct Hc as [Hn Hc]. apply commit_remembers; [by apply IH|done..].
Qed.

Lemma authorize_remembers s token issued history presented now :
  remembers s token issued history → (issued ≤ now)%N →
  TokenRotationState.authorize_at s presented now = verdict None ((token, issued) :: history) presented now.
Proof.
  intros (Httl & older & dropped & Hg & Hall & Hd & _) Hn. rewrite <-verdict_all. cbn [all_generations].
  rewrite Hall, app_comm_cons, verdict_in_dropped.
  2: { eapply Forall_impl; [exact Hd|]. intros g. by apply expired_mono. }
  unfold TokenRotationState.authorize_at, verdict_in, TokenRotationState.cutover_grace_ms,
    TokenRotationState.history_retention_ms. cbv zeta.
  by rewrite Httl, Hg, reverse_snoc, reverse_involutive.
Qed.

(** Rotations a lifetime apart. *)
Fixpoint spaced (bound : N) (history : History) : Prop :=
  match history with
  | [] => True
  | (_, at_) :: history => (at_ + retention ≤ bound)%N ∧ spaced at_ history
  end.

Lemma spaced_chronological bound history : spaced bound history → chronological bound history.
Proof.
  revert bound. induction history as [|[token at_] history IH]; intros bound; [done|].
  cbn. intros [Ha Hs]. split; [lia|by apply IH].
Qed.

(** Then at most three tokens are remembered. *)
Lemma remembers_bounded s token issued history :
  remembers s token issued history → spaced issued history → (0 < retention)%N →
  length s.(TokenRotationState.generations) ≤ 3.
Proof.
  intros (_ & older & dropped & -> & Hall & _ & Hkept) Hs Hpos. rewrite length_app, length_reverse. cbn [length].
  destruct older as [|g0 [|g1 [|g2 older]]]; cbn [length]; [lia..|]. exfalso.
  cbn [drop] in Hkept. apply Forall_cons in Hkept as [_ [Hg2 _]%Forall_cons].
  destruct history as [|[t0 i0] [|[t1 i1] [|[t2 i2] history]]]; try discriminate Hall.
  injection Hall as <- <- <- _. destruct Hs as (H0 & H1 & H2 & _). apply Hg2.
  unfold expired, TokenRotationState.retained, window. cbn. apply N.ltb_ge.
  destruct ttl as [t|]; [|lia]. pose proof (N.div_lt t 2). lia.
Qed.

(** The newest token is accepted, and the one before it until the cutover window ends; until the
    retention ends too it is told apart from a token that was never issued. *)
Lemma verdict_newest token issued history now :
  verdict None ((token, issued) :: history) token now = Authorized.
Proof. cbn. by rewrite decide_True. Qed.

Lemma verdict_previous token issued token0 issued0 history now :
  let v := verdict None ((token, issued) :: (token0, issued0) :: history) token0 now in
  ((now < issued + grace)%N → v = Authorized) ∧ ((now < issued + grace + retention)%N → v ≠ Denied).
Proof.
  cbn. case_decide; [done|]. rewrite decide_True by done. split; intros Hn.
  - by apply N.ltb_lt in Hn as ->.
  - destruct (_ <? _)%N; [done|]. by apply N.ltb_lt in Hn as ->.
Qed.

(** ** The life of a daemon's token *)
Section Run.
Context (metadata : DaemonMetadata.t) (now0 : N)
  (Hstart : (now0 ≤ metadata.(DaemonMetadata.started_at_unix_ms))%N).
Abbreviation first := (metadata.(DaemonMetadata.token), now0).

Definition minted (passes : list Pass.t) : History :=
  (λ pass, (pass.(Pass.new_token), pass.(Pass.now))) <$> passes.

(** The instant of the last pass, when no pass is before the one before it. *)
Fixpoint clock (passes : list Pass.t) (now : N) : option N :=
  match passes with
  | [] => Some now
  | pass :: passes => if (now <=? pass.(Pass.now))%N then clock passes pass.(Pass.now) else None
  end.

Record good (r : Rotator.t) (passes : list Pass.t) (n : N) (token : string) (issued : N) (history : History) : Prop := {
  good_minted : ∃ rotations, rotations `sublist_of` reverse (minted passes)
    ∧ rotations ++ [first] = (token, issued) :: history
    ∧ r.(Rotator.tokens) = rotated first rotations;
  good_spaced : spaced issued history;
  good_issued : (issued ≤ n)%N;
  good_metadata : r.(Rotator.metadata).(DaemonMetadata.token) = token;
  good_file :
    if r.(Rotator.unpublished_rotation)
    then r.(Rotator.file).(DaemonMetadata.token) = token
         ∨ ∃ issued0 rest, history = (r.(Rotator.file).(DaemonMetadata.token), issued0) :: rest
    else r.(Rotator.file).(DaemonMetadata.token) = token
         ∧ ∀ next, r.(Rotator.next_rotation_at_unix_ms) = Some next → (issued + retention ≤ next)%N
}.

Lemma started_good : good (started ttl metadata now0) [] now0 metadata.(DaemonMetadata.token) now0 [].
Proof.
  split; cbn; [|done|lia|done|].
  - exists []. by split_and!.
  - split; [done|]. intros next. destruct ttl; [|done]. cbn. intros [= <-]. lia.
Qed.

Lemma mint_good r passes n token issued history pass next :
  good r passes n token issued history → (n ≤ pass.(Pass.now))%N →
  r.(Rotator.next_rotation_at_unix_ms) = Some next → (next ≤ pass.(Pass.now))%N →
  ∃ token' issued' history',
    good (mint_rotation pass r) (passes ++ [pass]) pass.(Pass.now) token' issued' history'
    ∧ (mint_rotation pass r).(Rotator.unpublished_rotation) = true
    ∧ (mint_rotation pass r).(Rotator.next_rotation_at_unix_ms) = Some next.
Proof.
  intros [(rotations & Hsub & Hh & Ht) Hsp Hi Hm Hf] Hn Hnext Hle. unfold mint_rotation.
  assert (∀ l : History, l `sublist_of` reverse (minted passes) →
    l `sublist_of` reverse (minted (passes ++ [pass]))) as Hmore.
  { intros l Hl. unfold minted in *. rewrite fmap_app. cbn. rewrite reverse_snoc. by apply sublist_cons. }
  destruct r.(Rotator.unpublished_rotation) eqn:Hu.
  - exists token, issued, history. split; [|done]. split; [|done|lia|done|by rewrite Hu].
    exists rotations. split; [by apply Hmore|done].
  - exists pass.(Pass.new_token), pass.(Pass.now), ((token, issued) :: history). split; [|done].
    destruct Hf as [Hf Hnx]. specialize (Hnx next Hnext).
    split; cbn [Rotator.tokens Rotator.metadata Rotator.file Rotator.unpublished_rotation].
    + exists ((pass.(Pass.new_token), pass.(Pass.now)) :: rotations). split; [|split].
      * unfold minted. rewrite fmap_app. cbn. rewrite reverse_snoc. by apply sublist_skip.
      * by rewrite <-app_comm_cons, Hh.
      * by rewrite Ht.
    + cbn. split; [lia|done].
    + lia.
    + done.
    + right. rewrite Hf. eauto.
Qed.

Lemma pass_good r passes n token issued history pass :
  good r passes n token issued history → (n ≤ pass.(Pass.now))%N →
  ∃ token' issued' history',
    good (maybe_rotate_token ttl r pass) (passes ++ [pass]) pass.(Pass.now) token' issued' history'.
Proof.
  intros Hg Hn. unfold maybe_rotate_token.
  assert (good r (passes ++ [pass]) pass.(Pass.now) token issued history) as Hg'.
  { destruct Hg as [(rotations & Hsub & Hh) ? ? ? ?]. split; [|done|lia|done|done]. exists rotations. split; [|done].
    unfold minted in *. rewrite fmap_app. cbn. rewrite reverse_snoc. by apply sublist_cons. }
  destruct r.(Rotator.next_rotation_at_unix_ms) as [next|] eqn:Hnext; [|eauto].
  destruct (N.ltb_spec pass.(Pass.now) next) as [Hlt|Hge]; [eauto|].
  destruct (mint_good _ _ _ _ _ _ _ _ Hg Hn Hnext Hge) as (token' & issued' & history' & Hm & Hu & Hx).
  exists token', issued', history'. cbv zeta. destruct pass.(Pass.outcome); [..|done];
    destruct Hm as [? ? Hi ? Hf]; split; cbn; try done.
  - split; [done|]. intros next'. destruct ttl as [t|]; [|done]. cbn. intros [= <-]. lia.
  - by left.
Qed.

Lemma run_good passes n :
  clock passes now0 = Some n →
  ∃ token issued history,
    good (foldl (maybe_rotate_token ttl) (started ttl metadata now0) passes) passes n token issued history.
Proof.
  assert (∀ done r m token issued history, good r done m token issued history → clock passes m = Some n →
    ∃ token issued history, good (foldl (maybe_rotate_token ttl) r passes) (done ++ passes) n token issued history)
    as Hgen.
  { induction passes as [|pass l IH]; intros dn r m token issued history Hg Hc; cbn [clock] in Hc.
    { injection Hc as <-. rewrite app_nil_r. eauto. }
    destruct (N.leb_spec m pass.(Pass.now)) as [Hle|]; [|done].
    destruct (pass_good _ _ _ _ _ _ pass Hg Hle) as (t & i & h & Hg'). cbn [foldl].
    destruct (IH _ _ _ _ _ _ Hg' Hc) as (t' & i' & h' & Hr). exists t', i', h'. by rewrite <-(assoc_L (++)) in Hr. }
  intros Hc. exact (Hgen [] _ _ _ _ _ started_good Hc).
Qed.
End Run.
End History.

(** ** Properties *)

(** C25: forgetting tokens changes no verdict: while the clock does not go backwards, a daemon that
    has pruned its generations at every rotation gives on every presented token, at any later
    instant, the verdict of one that remembers all tokens it ever issued. *)
Theorem authorize_exact ttl first rotations presented now :
  chronological now (rotations ++ [first]) →
  TokenRotationState.authorize_at (rotated ttl first rotations) presented now
  = verdict ttl None (rotations ++ [first]) presented now.
Proof.
  destruct (rotations ++ [first]) as [|[token issued] history] eqn:Hh; [by destruct rotations|].
  intros [Hn Hc]. apply authorize_remembers; [|done]. by apply rotated_remembers.
Qed.

(** C24: whatever the accept loop's passes are and however their publishing fails, as long as the
    clock does not go backwards: the tokens are those of a history of some of the minted
    tokens, issued at least a lifetime apart; at most three are remembered; the token in
    [egregored.json] is accepted when it is published, and when publishing has failed it is
    accepted for the cutover window of half a lifetime and reported as rotated, never as unknown,
    for a lifetime more. *)
Theorem rotation_safe ttl metadata now0 passes n now :
  (now0 ≤ metadata.(DaemonMetadata.started_at_unix_ms))%N →
  clock passes now0 = Some n → (n ≤ now)%N →
  let r := foldl (maybe_rotate_token ttl) (started ttl metadata now0) passes in
  let authorize token := TokenRotationState.authorize_at r.(Rotator.tokens) token now in
  let lifetime := default 0%N ttl in
  let published := r.(Rotator.file).(DaemonMetadata.token) in
  ∃ rotations token issued history,
    rotations `sublist_of` reverse (minted passes)
    ∧ rotations ++ [(metadata.(DaemonMetadata.token), now0)] = (token, issued) :: history
    ∧ spaced ttl issued history
    ∧ (∀ presented, authorize presented = verdict ttl None ((token, issued) :: history) presented now)
    ∧ ((0 < lifetime)%N → length r.(Rotator.tokens).(TokenRotationState.generations) ≤ 3)
    ∧ (r.(Rotator.unpublished_rotation) = false → authorize published = Authorized)
    ∧ ((now < issued + lifetime / 2)%N → authorize published = Authorized)
    ∧ ((now < issued + lifetime / 2 + lifetime)%N → authorize published ≠ Denied).
Proof.
  intros Hstart Hc Hn r authorize lifetime published.
  destruct (run_good ttl metadata now0 Hstart passes n Hc) as (token & issued & history & Hg).
  destruct Hg as [(rotations & Hsub & Hh & Ht) Hsp Hi _ Hf]. fold r in Ht, Hf.
  exists rotations, token, issued, history.
  assert (remembers ttl r.(Rotator.tokens) token issued history) as Hr.
  { rewrite Ht. apply rotated_remembers; [done|]. by apply (spaced_chronological ttl). }
  assert (∀ presented, authorize presented = verdict ttl None ((token, issued) :: history) presented now) as Ha.
  { intros presented. apply authorize_remembers; [done|lia]. }
  assert (∀ m, (now < issued + lifetime / 2 + m)%N ↔ (now < issued + match ttl with Some t => t / 2 | None => 0 end + m)%N) as Hw
    by (intros m; by destruct ttl).
  assert (r.(Rotator.unpublished_rotation) = false → published = token) as Hpub.
  { intros Hu. rewrite Hu in Hf. by destruct Hf. }
  assert (published = token ∨ ∃ issued0 rest, history = (published, issued0) :: rest) as Hfile.
  { destruct r.(Rotator.unpublished_rotation); [done|]. left. by destruct Hf. }
  split; [done|]. split; [done|]. split; [done|]. split; [done|]. split; [|split; [|split]].
  - intros Hpos. apply (remembers_bounded ttl _ token issued history); [done..|]. by destruct ttl.
  - intros Hu. rewrite Ha, (Hpub Hu). apply verdict_newest.
  - intros Hl. rewrite Ha. destruct Hfile as [->|(issued0 & rest & ->)]; [apply verdict_newest|].
    apply verdict_previous. specialize (Hw 0%N). rewrite !N.add_0_r in Hw. by apply Hw.
  - intros Hl. rewrite Ha. destruct Hfile as [->|(issued0 & rest & ->)]; [by rewrite verdict_newest|].
    apply verdict_previous. apply Hw in Hl. by destruct ttl.
Qed.

(** ** Examples *)
Module RotationDemo.
Definition metadata : DaemonMetadata.t :=
  DaemonMetadata.mk 1 1 "127.0.0.1:1" "t0" "store" "1" 0 Running None None None None "plaintext" None.
(** A lifetime of 100: publishing the first rotation fails once. *)
Definition passes : list Pass.t :=
  [Pass.mk 50 "t1" Published; Pass.mk 100 "t1" FileFailed; Pass.mk 120 "t2" Published;
   Pass.mk 230 "t3" LeaseFailed].
Definition run (k : nat) : Rotator.t := foldl (maybe_rotate_token (Some 100%N)) (started (Some 100%N) metadata 0) (take k passes).
End RotationDemo.

(** The unpublished token is kept and published by the next pass that can. *)
Example publishing_is_retried :
  (λ k, let r := RotationDemo.run k in
        (r.(Rotator.file).(DaemonMetadata.token), r.(Rotator.unpublished_rotation),
         r.(Rotator.next_rotation_at_unix_ms), r.(Rotator.tokens).(TokenRotationState.rotations)))
    <$> [1; 2; 3; 4]
  = [("t0", false, Some 100%N, 0%N); ("t0", true, Some 100%N, 1%N);
     ("t1", false, Some 220%N, 1%N); ("t3", true, Some 220%N, 2%N)].
Proof. vm_compute. reflexivity. Qed.

(** The instant [egregored.json] gives for the rotation of its token is early when the token was
    published late. *)
Example late_publish_expiry :
  let r := RotationDemo.run 3 in
  (r.(Rotator.file).(DaemonMetadata.token), r.(Rotator.file).(DaemonMetadata.token_expires_at_unix_ms),
   r.(Rotator.next_rotation_at_unix_ms))
  = ("t1", Some 200%N, Some 220%N).
Proof. vm_compute. reflexivity. Qed.

Lemma authorize_exact_witness :
  TokenRotationState.authorize_at (rotated (Some 100%N) ("a", 0%N) [("c", 200%N); ("b", 100%N)]) "a" 260
  = verdict (Some 100%N) None [("c", 200%N); ("b", 100%N); ("a", 0%N)] "a" 260.
Proof.
  apply (authorize_exact (Some 100%N) ("a", 0%N) [("c", 200%N); ("b", 100%N)] "a" 260).
  repeat split; vm_compute; discriminate.
Defined.

Lemma rotation_safe_witness :
  TokenRotationState.authorize_at (RotationDemo.run 3).(Rotator.tokens)
    (RotationDemo.run 3).(Rotator.file).(DaemonMetadata.token) 500 = Authorized.
Proof.
  destruct (rotation_safe (Some 100%N) RotationDemo.metadata 0 (take 3 RotationDemo.passes) 120 500)
    as (rotations & token & issued & history & _ & _ & _ & _ & _ & Hpublished & _).
  - vm_compute. discriminate.
  - vm_compute. reflexivity.
  - vm_compute. discriminate.
  - apply Hpublished. vm_compute. reflexivity.
Defined.
