(* ===== verification/Pressure.v ===== *)
(** * Admission of writes to the daemon's queue

    The pressure tracker of [src/src/daemon.rs] and the requests and the worker that share it,
    interleaved at the granularity of its atomic operations. An operation is a [program]: a
    sequence of atomic actions on the shared state, each seeing the state it acts on and an
    instant of the clock; the atomics of the code are sequentially consistent ([SeqCst]). The
    bounded channel is the number of its commands (a bound of zero, a rendezvous, is not
    modelled), the counters have their machine width, and the poisoning of the event buffer's
    lock and the log line of an event are left out. *)
From S2P Require Import Prelude RustStr.

(* daemon.rs 695-695: QUEUE_FULL_RETRY_AFTER_MS *)
Definition QUEUE_FULL_RETRY_AFTER_MS : N := 500.
(* daemon.rs 699-699: PRESSURE_EVENT_CAPACITY *)
Definition PRESSURE_EVENT_CAPACITY : nat := 32.
(* daemon.rs 705-705: PRESSURE_REQUEST_HANDLE_MAX_BYTES *)
Definition PRESSURE_REQUEST_HANDLE_MAX_BYTES : nat := 64.

(** [str::is_char_boundary]. *)
Definition is_char_boundary (s : string) (index : nat) : bool :=
  match String.get index s with
  | Some c => let b := Ascii.N_of_ascii c in ((b <? 128) || (192 <=? b))%N
  | None => (index =? String.length s)%nat
  end.

(* daemon.rs 713-716: truncate_request_handle *)
Fixpoint boundary_below (s : string) (index : nat) : nat :=
  match index with
  | O => O
  | S below => if is_char_boundary s index then index else boundary_below s below
  end.

(* daemon.rs 709-718: truncate_request_handle *)
Definition truncate_request_handle (request_id : string) : string :=
  if (String.length request_id <=? PRESSURE_REQUEST_HANDLE_MAX_BYTES)%nat then request_id
  else String.substring 0 (boundary_below request_id PRESSURE_REQUEST_HANDLE_MAX_BYTES) request_id
         +:+ "…".

Module PressureState.
(* daemon.rs 728-735: PressureState *)
Inductive t : Set := Idle | Busy | Saturated.

(* daemon.rs 738-744: PressureState::as_str *)
Definition as_str (self : t) : string :=
  match self with Idle => "idle" | Busy => "busy" | Saturated => "saturated" end.
End PressureState.

Module PressureEvent.
(* daemon.rs 751-762: PressureEvent *)
Record t : Set := mk {
  at_unix_ms : N;
  transition : string;
  operation : string;
  code : string;
  request_id : string
}.
End PressureEvent.

Module PressureTracker.
(* daemon.rs 772-781: PressureTracker *)
Record t : Set := mk {
  capacity : N;
  inflight : N;
  saturated : bool;
  total_rejections : N;
  saturation_transitions : N;
  last_saturated_at_unix_ms : N;
  last_recovered_at_unix_ms : N;
  events : list PressureEvent.t
}.

(* daemon.rs 784-795: PressureTracker::new *)
Definition new (capacity : N) : t := mk (N.max capacity 1) 0 false 0 0 0 0 [].

(* daemon.rs 848-850: PressureTracker::recovery_watermark *)
Definition recovery_watermark (self : t) : N := self.(capacity) / 2.

(** Read at one instant. *)
(* daemon.rs 852-860: PressureTracker::state *)
Definition state (self : t) : PressureState.t :=
  if self.(saturated) then PressureState.Saturated
  else if (0 <? self.(inflight))%N then PressureState.Busy else PressureState.Idle.
End PressureTracker.
Abbreviation Tracker := PressureTracker.t.

(** ** The shared state and the programs over it *)

Module Shared.
(** The tracker, the count of overloads, and the channel: how many commands it holds, how many
    it can hold, and whether its receiver is still there. *)
Record t : Set := mk {
  pressure : Tracker;
  retryable_overload : N;
  queued : N;
  bound : N;
  connected : bool
}.
End Shared.
Abbreviation SharedState := Shared.t.

(** An atomic action changes the shared state, and the rest depends on the state it found. *)
Inductive program : Type :=
| Done
| Atomic (action : N → SharedState → SharedState) (rest : SharedState → program).

(** [fetch_add] and [fetch_sub] of one, on integers of 64 bits. *)
Definition fetch_add (x : N) : N := (x + 1) mod 2 ^ 64.
Definition fetch_sub (x : N) : N := (x + (2 ^ 64 - 1)) mod 2 ^ 64.

(* daemon.rs 948-950: unix_ms_u64 *)
Definition unix_ms_u64 (now : N) : N := N.min now (2 ^ 64 - 1).

(** An action on the tracker alone. *)
Definition on_tracker (f : N → Tracker → Tracker) (rest : SharedState → program) : program :=
  Atomic (λ now s, s{{ Shared.pressure ::= f now }}) rest.

(* daemon.rs 862-895: PressureTracker::record_transition *)
Definition record_transition (transition operation code request_id : string) (rest : program)
    : program :=
  on_tracker (λ now self,
    let event := PressureEvent.mk now transition operation code (truncate_request_handle request_id) in
    self{{ PressureTracker.events ::= λ events,
             (if (PRESSURE_EVENT_CAPACITY <=? length events)%nat then tail events else events)
               ++ [event] }}) (λ _, rest).

(* daemon.rs 798-800: PressureTracker::on_enqueue *)
Definition on_enqueue (rest : program) : program :=
  on_tracker (λ _ self, self{{ PressureTracker.inflight ::= fetch_add }}) (λ _, rest).

(* daemon.rs 803-805: PressureTracker::rollback_enqueue *)
Definition rollback_enqueue (rest : program) : program :=
  on_tracker (λ _ self, self{{ PressureTracker.inflight ::= fetch_sub }}) (λ _, rest).

(** The second half of the condition, and its branch. *)
(* daemon.rs 840-845: PressureTracker::maybe_recover *)
Definition recover_swap (rest : program) : program :=
  on_tracker (λ _ self, self{{ PressureTracker.saturated := false }})
    (λ found,
       if found.(Shared.pressure).(PressureTracker.saturated) then
         on_tracker (λ now self, self{{ PressureTracker.last_recovered_at_unix_ms := unix_ms_u64 now }})
           (λ _, record_transition "exited_saturation" "write_worker" "queue_full" "drain" rest)
       else rest).

(* daemon.rs 838-846: PressureTracker::maybe_recover *)
Definition maybe_recover (rest : program) : program :=
  on_tracker (λ _ self, self)
    (λ found,
       if (found.(Shared.pressure).(PressureTracker.inflight)
             <=? PressureTracker.recovery_watermark found.(Shared.pressure))%N
       then recover_swap rest else rest).

(* daemon.rs 824-832: PressureTracker::on_reject *)
Definition reject_swap (operation request_id : string) (rest : program) : program :=
  on_tracker (λ _ self, self{{ PressureTracker.saturated := true }})
    (λ found,
       if found.(Shared.pressure).(PressureTracker.saturated) then maybe_recover rest
       else
         on_tracker (λ _ self, self{{ PressureTracker.saturation_transitions ::= fetch_add }})
           (λ _, record_transition "entered_saturation" operation "queue_full" request_id
                   (maybe_recover rest))).

(* daemon.rs 820-833: PressureTracker::on_reject *)
Definition on_reject (operation request_id : string) (rest : program) : program :=
  on_tracker (λ _ self, self{{ PressureTracker.total_rejections ::= fetch_add }}) (λ _,
  on_tracker (λ now self, self{{ PressureTracker.last_saturated_at_unix_ms := unix_ms_u64 now }}) (λ _,
  reject_swap operation request_id rest)).

(* daemon.rs 808-811: PressureTracker::on_reject_after_rollback *)
Definition on_reject_after_rollback (operation request_id : string) (rest : program) : program :=
  rollback_enqueue (on_reject operation request_id rest).

(* daemon.rs 814-817: PressureTracker::on_complete *)
Definition on_complete (rest : program) : program :=
  on_tracker (λ _ self, self{{ PressureTracker.inflight ::= fetch_sub }}) (λ _, maybe_recover rest).

(* daemon.rs 1002-1004: ErrorCounters::record_overload *)
Definition record_overload (rest : program) : program :=
  Atomic (λ _ s, s{{ Shared.retryable_overload ::= fetch_add }}) (λ _, rest).

(** [try_send] takes a place of the channel when there is one and its receiver is there. *)
(* daemon.rs 13458-13478: enqueue_write *)
Definition try_send (request_id : string) : program :=
  Atomic
    (λ _ s, if s.(Shared.connected) && (s.(Shared.queued) <? s.(Shared.bound))%N
            then s{{ Shared.queued ::= λ q, (q + 1)%N }} else s)
    (λ found,
       if negb found.(Shared.connected) then rollback_enqueue Done
       else if (found.(Shared.queued) <? found.(Shared.bound))%N then Done
       else on_reject_after_rollback "records/ingest" request_id (record_overload Done)).

(** The part of [enqueue_write] between making the command and waiting for the response. *)
(* daemon.rs 13457-13478: enqueue_write *)
Definition enqueue_write (request_id : string) : program := on_enqueue (try_send request_id).

(** ** The daemon *)

(** The worker waits for a command, writes the one it took, or counts it as done. *)
Inductive WorkerState : Type :=
| Waiting
| Writing
| Completing (rest : program).

Module System.
(** The shared state, the programs of requests that have not ended, and the worker. *)
Record t : Type := mk {
  shared : SharedState;
  requests : list program;
  worker : WorkerState
}.
End System.

(** What is left of a program: nothing when it is done. *)
Definition unfinished (p : program) : list program := match p with Done => [] | _ => [p] end.
Definition completing (p : program) : WorkerState :=
  match p with Done => Waiting | _ => Completing p end.

(** A request starts, or a program takes its next action; the number of requests is one a
    process can have. The worker takes a command, finishes writing it, or dies. *)
(* daemon.rs 2596-2612: spawn_write_worker *)
Inductive system_step : relation System.t :=
| step_request s requests worker request_id :
    (s.(Shared.queued) + N.of_nat (length requests) + 2 < 2 ^ 64)%N →
    system_step (System.mk s requests worker)
      (System.mk s (requests ++ [enqueue_write request_id]) worker)
| step_action s l1 action rest l2 worker now :
    system_step (System.mk s (l1 ++ Atomic action rest :: l2) worker)
      (System.mk (action now s) (l1 ++ unfinished (rest s) ++ l2) worker)
| step_receive s requests :
    s.(Shared.connected) = true → (0 < s.(Shared.queued))%N →
    system_step (System.mk s requests Waiting)
      (System.mk (s{{ Shared.queued ::= N.pred }}) requests Writing)
| step_write s requests :
    system_step (System.mk s requests Writing) (System.mk s requests (Completing (on_complete Done)))
| step_worker s requests action rest now :
    system_step (System.mk s requests (Completing (Atomic action rest)))
      (System.mk (action now s) requests (completing (rest s)))
| step_worker_dies s requests worker :
    system_step (System.mk s requests worker)
      (System.mk (s{{ Shared.connected := false }}) requests worker).

(* daemon.rs 1760-1760: build_server_state *)
Definition initial (write_queue_capacity : N) : System.t :=
  System.mk (Shared.mk (PressureTracker.new write_queue_capacity) 0 0 write_queue_capacity true) [] Waiting.

(** ** What every program keeps *)

(** A tag says what a program owes the shared state: the places it still counts in [inflight],
    whether it will look at the recovery watermark, whether it knows the worker is gone, and the
    overloads it still has to count. *)
Module Tag.
Record t : Set := mk { places : N; looks : bool; gone : bool; owed : N }.
End Tag.
Abbreviation tag := Tag.mk.

Section Invariant.
Context (write_queue_capacity : N).

(** The invariant of the shared state, given what all programs owe. *)
Record coherent (s : SharedState) (places : N) (looks : bool) (owed : N) : Prop := {
  inflight_counts : s.(Shared.pressure).(PressureTracker.inflight) = (s.(Shared.queued) + places)%N;
  saturated_backed : s.(Shared.connected) = true →
    s.(Shared.pressure).(PressureTracker.saturated) = true →
    looks = true
    ∨ (PressureTracker.recovery_watermark s.(Shared.pressure)
         < s.(Shared.pressure).(PressureTracker.inflight))%N;
  overloads_counted :
    s.(Shared.pressure).(PressureTracker.total_rejections)
    = ((s.(Shared.retryable_overload) + owed) mod 2 ^ 64)%N;
  overload_word : (s.(Shared.retryable_overload) < 2 ^ 64)%N;
  queue_bounded : (s.(Shared.queued) <= s.(Shared.bound))%N;
  events_bounded : length s.(Shared.pressure).(PressureTracker.events) ≤ PRESSURE_EVENT_CAPACITY;
  handles_bounded : Forall
    (λ e, String.length e.(PressureEvent.request_id) ≤ PRESSURE_REQUEST_HANDLE_MAX_BYTES + 3)
    s.(Shared.pressure).(PressureTracker.events);
  capacities_fixed : s.(Shared.bound) = write_queue_capacity
    ∧ s.(Shared.pressure).(PressureTracker.capacity) = N.max write_queue_capacity 1
}.

Definition live (p : program) : N := match p with Done => 0 | _ => 1 end.

(** A program behaves when each of its actions keeps the invariant, whatever the others owe. *)
Fixpoint behaves (p : program) (t : Tag.t) : Prop :=
  (t.(Tag.places) <= 1)%N
  ∧ match p with
    | Done => t.(Tag.places) = 0%N ∧ t.(Tag.looks) = false ∧ t.(Tag.owed) = 0%N
    | Atomic action rest =>
        ∀ now s places looks owed others,
          coherent s (t.(Tag.places) + places) (t.(Tag.looks) || looks) (t.(Tag.owed) + owed) →
          (t.(Tag.gone) = true → s.(Shared.connected) = false) →
          (places <= others)%N → (s.(Shared.queued) + others + 1 < 2 ^ 64)%N →
          ∃ t', behaves (rest s) t'
            ∧ coherent (action now s) (t'.(Tag.places) + places) (t'.(Tag.looks) || looks)
                (t'.(Tag.owed) + owed)
            ∧ (t'.(Tag.gone) = true → s.(Shared.connected) = false)
            ∧ ((action now s).(Shared.queued) + live (rest s) <= s.(Shared.queued) + 1)%N
            ∧ (action now s).(Shared.connected) = s.(Shared.connected)
    end.

(** Computes the fields of a state, and opens one into its fields. *)
Ltac fields :=
  cbn [Shared.pressure Shared.retryable_overload Shared.queued Shared.bound Shared.connected
       PressureTracker.capacity PressureTracker.inflight PressureTracker.saturated
       PressureTracker.total_rejections PressureTracker.events
       Tag.places Tag.looks Tag.gone Tag.owed orb apply_update constant] in *.
Ltac open_shared s :=
  destruct s as [[cap inf sat tot tr ls lr evs] ov qd bd con];
  unfold PressureTracker.recovery_watermark in *; fields.

Lemma behaves_on_tracker f rest t :
  (t.(Tag.places) <= 1)%N →
  (∀ now s places looks owed others,
     coherent s (t.(Tag.places) + places) (t.(Tag.looks) || looks) (t.(Tag.owed) + owed) →
     (t.(Tag.gone) = true → s.(Shared.connected) = false) →
     (places <= others)%N → (s.(Shared.queued) + others + 1 < 2 ^ 64)%N →
     ∃ t', behaves (rest s) t'
       ∧ coherent (s{{ Shared.pressure ::= f now }}) (t'.(Tag.places) + places)
           (t'.(Tag.looks) || looks) (t'.(Tag.owed) + owed)
       ∧ (t'.(Tag.gone) = true → s.(Shared.connected) = false)) →
  behaves (on_tracker f rest) t.
Proof.
  intros Ht Hf. split; [done|]. intros now s places looks owed others Hc Hg Hp Hq.
  destruct (Hf now s places looks owed others Hc Hg Hp Hq) as (t' & Hb & Hc' & Hg').
  exists t'. split; [done|]. split; [done|]. split; [done|]. split; [|done].
  change ((s.(Shared.queued) + live (rest s) <= s.(Shared.queued) + 1)%N).
  destruct (rest s); cbn [live]; lia.
Qed.

Lemma behaves_Done gone : behaves Done (tag 0 false gone 0).
Proof. cbn. split_and!; [lia|done..]. Qed.

Lemma string_substring_length m s : String.length (String.substring 0 m s) ≤ m.
Proof. revert m. induction s as [|c s IH]; intros [|m]; cbn; [lia..|]. specialize (IH m). lia. Qed.

Lemma boundary_below_le s n : boundary_below s n ≤ n.
Proof. induction n as [|n IH]; cbn [boundary_below]; [lia|]. destruct (is_char_boundary s _); lia. Qed.

Lemma string_length_append a b : String.length (a +:+ b) = String.length a + String.length b.
Proof. induction a as [|c a IH]; [done|].
  change (S (String.length (a +:+ b)) = S (String.length a) + String.length b). by rewrite IH.
Qed.

(** A retained request handle is at most 64 bytes and an ellipsis. *)
Lemma truncate_request_handle_length s :
  String.length (truncate_request_handle s) ≤ PRESSURE_REQUEST_HANDLE_MAX_BYTES + 3.
Proof.
  unfold truncate_request_handle. destruct (Nat.leb_spec (String.length s) PRESSURE_REQUEST_HANDLE_MAX_BYTES) as [Hl|_].
  { lia. }
  rewrite string_length_append. cbn [String.length].
  pose proof (string_substring_length (boundary_below s PRESSURE_REQUEST_HANDLE_MAX_BYTES) s).
  pose proof (boundary_below_le s PRESSURE_REQUEST_HANDLE_MAX_BYTES). lia.
Qed.

Lemma behaves_record_transition transition operation code id rest t :
  (t.(Tag.places) <= 1)%N → behaves rest t →
  behaves (record_transition transition operation code id rest) t.
Proof.
  intros Ht Hb. apply behaves_on_tracker; [done|]. intros now s places looks owed others [H1 H2 H3 H4 H5 H6 H7 H8] Hg _ _.
  exists t. split; [done|]. split; [|done]. open_shared s. split; fields; try done.
  - rewrite length_app. cbn [length].
    destruct (Nat.leb_spec PRESSURE_EVENT_CAPACITY (length evs)) as [Hle|Hlt]; [|lia].
    unfold PRESSURE_EVENT_CAPACITY in *. destruct evs; cbn [tail length] in *; lia.
  - apply Forall_app. split; [|constructor; [apply truncate_request_handle_length|constructor]].
    destruct (_ <=? _)%nat; [|done]. destruct evs; [done|]. by apply Forall_cons in H7 as [_ H7].
Qed.

(** An action that leaves the counts, the flag and the events alone. *)
Lemma behaves_quiet f rest t :
  (t.(Tag.places) <= 1)%N →
  (∀ now self, let self' := f now self in
     self'.(PressureTracker.capacity) = self.(PressureTracker.capacity)
     ∧ self'.(PressureTracker.inflight) = self.(PressureTracker.inflight)
     ∧ self'.(PressureTracker.saturated) = self.(PressureTracker.saturated)
     ∧ self'.(PressureTracker.total_rejections) = self.(PressureTracker.total_rejections)
     ∧ self'.(PressureTracker.events) = self.(PressureTracker.events)) →
  behaves rest t → behaves (on_tracker f (λ _, rest)) t.
Proof.
  intros Ht Hf Hb. apply behaves_on_tracker; [done|]. intros now s places looks owed others [H1 H2 H3 H4 H5 H6 H7 H8] Hg _ _.
  exists t. split; [done|]. split; [|done]. destruct s as [self ov qd bd con]. fields.
  destruct (Hf now self) as (Ec & Ei & Es & Et & Ee).
  split; unfold PressureTracker.recovery_watermark in *; fields; by rewrite ?Ec, ?Ei, ?Es, ?Et, ?Ee.
Qed.

Lemma behaves_recover_swap rest gone owed :
  behaves rest (tag 0 false gone owed) → behaves (recover_swap rest) (tag 0 true gone owed).
Proof.
  intros Hb. apply behaves_on_tracker; [cbn; lia|].
  intros now s places looks owed' others [H1 H2 H3 H4 H5 H6 H7 H8] Hg _ _.
  exists (tag 0 false gone owed). split; [|split; [|done]].
  - destruct (PressureTracker.saturated _); [|done]. apply behaves_quiet; [cbn; lia|done|].
    apply behaves_record_transition; [cbn; lia|done].
  - split; try done.
Qed.

Lemma behaves_maybe_recover rest gone owed :
  behaves rest (tag 0 false gone owed) → behaves (maybe_recover rest) (tag 0 true gone owed).
Proof.
  intros Hb. apply behaves_on_tracker; [cbn; lia|].
  intros now s places looks owed' others [H1 H2 H3 H4 H5 H6 H7 H8] Hg _ _.
  destruct (N.leb_spec s.(Shared.pressure).(PressureTracker.inflight)
              (PressureTracker.recovery_watermark s.(Shared.pressure))) as [Hle|Hlt].
  - exists (tag 0 true gone owed). split; [by apply behaves_recover_swap|]. split; [|done]. by split.
  - exists (tag 0 false gone owed). split; [done|]. split; [|done]. split; try done. intros _ _. by right.
Qed.

Lemma behaves_reject_swap operation id rest gone owed :
  behaves rest (tag 0 false gone owed) → behaves (reject_swap operation id rest) (tag 0 true gone owed).
Proof.
  intros Hb. apply behaves_maybe_recover in Hb. apply behaves_on_tracker; [cbn; lia|].
  intros now s places looks owed' others [H1 H2 H3 H4 H5 H6 H7 H8] Hg _ _.
  exists (tag 0 true gone owed). split; [|split; [|done]].
  - destruct (PressureTracker.saturated _); [done|]. apply behaves_quiet; [cbn; lia|done|].
    apply behaves_record_transition; [cbn; lia|done].
  - split; try done. intros _ _. by left.
Qed.

Lemma behaves_on_reject operation id rest gone :
  behaves rest (tag 0 false gone 1) → behaves (on_reject operation id rest) (tag 0 true gone 0).
Proof.
  intros Hb. apply (behaves_reject_swap operation id) in Hb. apply behaves_on_tracker; [cbn; lia|].
  intros now s places looks owed others [H1 H2 H3 H4 H5 H6 H7 H8] Hg _ _.
  exists (tag 0 true gone 1). split; [apply behaves_quiet; [cbn; lia|done|done]|]. split; [|done].
  open_shared s. split; fields; try done. unfold fetch_add. rewrite H3, N.Div0.add_mod_idemp_l.
  f_equal. lia.
Qed.

Lemma fetch_sub_pos x : (0 < x < 2 ^ 64)%N → fetch_sub x = (x - 1)%N.
Proof.
  intros Hx. unfold fetch_sub. replace (x + (2 ^ 64 - 1))%N with (x - 1 + 1 * 2 ^ 64)%N by lia.
  rewrite N.Div0.mod_add. apply N.mod_small. lia.
Qed.

(** Giving a place back, by a program that looks at the watermark afterwards or knows that the
    worker is gone. *)
Lemma behaves_give_back rest looks gone :
  looks || gone = true → behaves rest (tag 0 looks gone 0) →
  behaves (on_tracker (λ _ self, self{{ PressureTracker.inflight ::= fetch_sub }}) (λ _, rest))
    (tag 1 false gone 0).
Proof.
  intros Hlg Hb. apply behaves_on_tracker; [cbn; lia|].
  intros now s places looks' owed others [H1 H2 H3 H4 H5 H6 H7 H8] Hg Hp Hq.
  exists (tag 0 looks gone 0). split; [done|]. split; [|done]. open_shared s. split; fields; try done.
  - rewrite fetch_sub_pos by lia. lia.
  - intros Hcon _. left. destruct looks; [done|]. cbn in Hlg. subst gone. by rewrite Hg in Hcon.
Qed.

Lemma behaves_record_overload rest gone :
  behaves rest (tag 0 false gone 0) → behaves (record_overload rest) (tag 0 false gone 1).
Proof.
  intros Hb. split; [cbn; lia|]. intros now s places looks owed others [H1 H2 H3 H4 H5 H6 H7 H8] Hg Hp Hq.
  exists (tag 0 false gone 0). split; [done|]. open_shared s. split; [|split_and!; [done| |done]].
  - split; fields; try done.
    + unfold fetch_add. rewrite H3, N.Div0.add_mod_idemp_l. f_equal. lia.
    + unfold fetch_add. by apply N.mod_lt.
  - destruct rest; cbn [live]; lia.
Qed.

Lemma behaves_try_send id : behaves (try_send id) (tag 1 false false 0).
Proof.
  split; [cbn; lia|]. intros now s places looks owed others [H1 H2 H3 H4 H5 H6 H7 H8] Hg Hp Hq.
  destruct s.(Shared.connected) eqn:Hcon; cbn [negb andb].
  2: { exists (tag 1 false true 0). split; [apply (behaves_give_back Done false true); [done|apply behaves_Done]|].
       split; [split; try done; by rewrite Hcon|]. split; [done|].
       change (live _) with 1%N. split; [lia|done]. }
  destruct (N.ltb_spec s.(Shared.queued) s.(Shared.bound)) as [Hlt|Hge].
  - exists (tag 0 false false 0). split; [apply behaves_Done|]. open_shared s.
    split; [split; fields; try done; first [lia|intros _; by apply H2]|]. split; [done|]. cbn [live]. split; [lia|done].
  - exists (tag 1 false false 0). split.
    + apply (behaves_give_back _ true false); [done|]. apply behaves_on_reject, behaves_record_overload, behaves_Done.
    + split; [split; try done; by rewrite Hcon|]. split; [done|].
      change (live _) with 1%N. split; [lia|done].
Qed.

Lemma behaves_enqueue_write id : behaves (enqueue_write id) (tag 0 false false 0).
Proof.
  apply behaves_on_tracker; [cbn; lia|].
  intros now s places looks owed others [H1 H2 H3 H4 H5 H6 H7 H8] Hg Hp Hq.
  exists (tag 1 false false 0). split; [apply behaves_try_send|]. split; [|done].
  open_shared s. assert (fetch_add inf = inf + 1)%N as Hadd by (unfold fetch_add; apply N.mod_small; lia).
  split; fields; rewrite ?Hadd; try done; [lia|].
  intros Hcon Hsat. destruct (H2 Hcon Hsat); [by left|right].
  unfold PressureTracker.recovery_watermark in *. fields. lia.
Qed.

Lemma behaves_on_complete : behaves (on_complete Done) (tag 1 false false 0).
Proof. apply (behaves_give_back _ true false); [done|]. apply behaves_maybe_recover, behaves_Done. Qed.

(** ** What the daemon keeps *)

Definition places (tags : list Tag.t) : N := foldr (λ t n, (t.(Tag.places) + n)%N) 0%N tags.
Definition owed (tags : list Tag.t) : N := foldr (λ t n, (t.(Tag.owed) + n)%N) 0%N tags.
Definition looks (tags : list Tag.t) : bool := existsb Tag.looks tags.
Definition size (programs : list program) : N := N.of_nat (length programs).

Lemma places_app l1 l2 : places (l1 ++ l2) = (places l1 + places l2)%N.
Proof. unfold places. induction l1 as [|t l1 IH]; cbn; [lia|]. rewrite IH. lia. Qed.
Lemma owed_app l1 l2 : owed (l1 ++ l2) = (owed l1 + owed l2)%N.
Proof. unfold owed. induction l1 as [|t l1 IH]; cbn; [lia|]. rewrite IH. lia. Qed.
Lemma looks_app l1 l2 : looks (l1 ++ l2) = looks l1 || looks l2.
Proof. apply existsb_app. Qed.
Lemma size_programs_app l1 l2 : size (l1 ++ l2) = (size l1 + size l2)%N.
Proof. unfold size. rewrite length_app. lia. Qed.

Lemma behaves_places p t : behaves p t → (t.(Tag.places) <= 1)%N.
Proof. by destruct p; intros [? _]. Qed.

Lemma places_le programs tags : Forall2 behaves programs tags → (places tags <= size programs)%N.
Proof.
  induction 1 as [|p t programs tags Hb _ IH]; [done|]. apply behaves_places in Hb.
  change (places (t :: tags)) with (t.(Tag.places) + places tags)%N. unfold size in *. cbn [length]. lia.
Qed.

(** The programs of a daemon with tags for what they owe. *)
Record owing (s : SharedState) (writing : N) (programs : list program) (tags : list Tag.t) : Prop := {
  owing_behaves : Forall2 behaves programs tags;
  owing_coherent : coherent s (writing + places tags) (looks tags) (owed tags);
  owing_gone : Forall (λ t, t.(Tag.gone) = true → s.(Shared.connected) = false) tags;
  owing_bound : (s.(Shared.queued) + size programs + writing < 2 ^ 64)%N
}.

Lemma unfinished_behaves p t :
  behaves p t → ∃ tags, Forall2 behaves (unfinished p) tags ∧ places tags = t.(Tag.places)
    ∧ looks tags = t.(Tag.looks) ∧ owed tags = t.(Tag.owed)
    ∧ (Forall (λ t', t' = t) tags) ∧ size (unfinished p) = live p.
Proof.
  intros Hb. destruct p as [|action rest].
  - destruct Hb as (_ & -> & -> & ->). by exists [].
  - exists [t]. cbn [unfinished]. split; [by constructor|]. unfold places, looks, owed. cbn [foldr existsb].
    rewrite orb_false_r. split_and!; [lia|done|lia|by constructor|done].
Qed.

Lemma owing_action s writing l1 action rest l2 tags now :
  owing s writing (l1 ++ Atomic action rest :: l2) tags →
  ∃ tags', owing (action now s) writing (l1 ++ unfinished (rest s) ++ l2) tags'.
Proof.
  intros [Hb Hc Hg Hn].
  apply Forall2_app_inv_l in Hb as (t1 & t2' & Hb1 & Hb2 & ->).
  apply Forall2_cons_inv_l in Hb2 as (t & t2 & Hbt & Hb2 & ->).
  apply Forall_app in Hg as [Hg1 [Hgt Hg2]%Forall_cons].
  pose proof (places_le _ _ Hb1) as Hp1. pose proof (places_le _ _ Hb2) as Hp2.
  rewrite size_programs_app in Hn. change (size (Atomic action rest :: l2)) with (N.of_nat (S (length l2))) in Hn.
  rewrite places_app, owed_app, looks_app in Hc. cbn [places owed looks foldr existsb] in Hc.
  fold (places t2) (owed t2) (looks t2) in Hc.
  destruct Hbt as [_ Hstep].
  destruct (Hstep now s (writing + places t1 + places t2)%N (looks t1 || looks t2)
              (owed t1 + owed t2)%N (writing + size l1 + size l2)%N) as (t' & Hb' & Hc' & Hg' & Hq' & Hcon).
  { replace (t.(Tag.places) + (writing + places t1 + places t2))%N
      with (writing + (places t1 + (t.(Tag.places) + places t2)))%N by lia.
    replace (t.(Tag.owed) + (owed t1 + owed t2))%N with (owed t1 + (t.(Tag.owed) + owed t2))%N by lia.
    replace (t.(Tag.looks) || (looks t1 || looks t2)) with (looks t1 || (t.(Tag.looks) || looks t2)); [done|].
    by destruct (looks t1), (t.(Tag.looks)). }
  { done. }
  { lia. }
  { unfold size in *. lia. }
  destruct (unfinished_behaves _ _ Hb') as (tu & Hbu & Hpu & Hlu & Hou & Hall & Hsz).
  exists (t1 ++ tu ++ t2). split.
  - by apply Forall2_app, Forall2_app.
  - rewrite !places_app, !owed_app, !looks_app, Hpu, Hlu, Hou.
    replace (writing + (places t1 + (t'.(Tag.places) + places t2)))%N
      with (t'.(Tag.places) + (writing + places t1 + places t2))%N by lia.
    replace (owed t1 + (t'.(Tag.owed) + owed t2))%N with (t'.(Tag.owed) + (owed t1 + owed t2))%N by lia.
    replace (looks t1 || (t'.(Tag.looks) || looks t2)) with (t'.(Tag.looks) || (looks t1 || looks t2)); [done|].
    by destruct (looks t1), (t'.(Tag.looks)).
  - rewrite Hcon. apply Forall_app. split; [done|]. apply Forall_app. split; [|done].
    eapply Forall_impl; [exact Hall|]. by intros ? ->.
  - rewrite !size_programs_app, Hsz. unfold size in *. lia.
Qed.

Definition worker_programs (w : WorkerState) : list program :=
  match w with Completing p => [p] | _ => [] end.
Definition writing (w : WorkerState) : N := match w with Writing => 1 | _ => 0 end.

Definition sound (sys : System.t) : Prop :=
  ∃ tags, owing sys.(System.shared) (writing sys.(System.worker))
            (sys.(System.requests) ++ worker_programs sys.(System.worker)) tags.

(** A program that owes nothing but the place the worker gives it may join. *)
Lemma owing_add s w w' l1 l2 p t tags :
  owing s w (l1 ++ l2) tags → behaves p t → t.(Tag.looks) = false → t.(Tag.gone) = false →
  t.(Tag.owed) = 0%N → (w = w' + t.(Tag.places))%N →
  (s.(Shared.queued) + size l1 + size l2 + 1 + w' < 2 ^ 64)%N →
  ∃ tags', owing s w' (l1 ++ p :: l2) tags'.
Proof.
  intros [Hb Hc Hg Hn] Hp Hl Hgo Ho -> Hsz.
  apply Forall2_app_inv_l in Hb as (t1 & t2 & Hb1 & Hb2 & ->). apply Forall_app in Hg as [Hg1 Hg2].
  exists (t1 ++ t :: t2). split.
  - apply Forall2_app; [done|]. by constructor.
  - rewrite places_app, owed_app, looks_app in *.
    change (places (t :: t2)) with (t.(Tag.places) + places t2)%N.
    change (owed (t :: t2)) with (t.(Tag.owed) + owed t2)%N.
    change (looks (t :: t2)) with (t.(Tag.looks) || looks t2). rewrite Hl, Ho, N.add_0_l. cbn [orb].
    by replace (w' + (places t1 + (t.(Tag.places) + places t2)))%N
      with (w' + t.(Tag.places) + (places t1 + places t2))%N by lia.
  - apply Forall_app. split; [done|]. constructor; [by rewrite Hgo|done].
  - rewrite size_programs_app. unfold size in *. cbn [length]. lia.
Qed.

Lemma size_worker w : (size (worker_programs w) + writing w <= 1)%N.
Proof. by destruct w. Qed.

Lemma step_sound sys sys' : system_step sys sys' → sound sys → sound sys'.
Proof.
  unfold sound. destruct 1 as [s requests worker id Hsz|s l1 action rest l2 worker now|s requests Hcon Hq|s requests
    |s requests action rest now|s requests worker]; cbn [System.shared System.worker System.requests];
    intros [tags Ho].
  - rewrite <-(assoc_L (++)). cbn [app]. pose proof (size_worker worker).
    eapply owing_add; [exact Ho|apply behaves_enqueue_write|done..|cbn; lia|]. unfold size in *. lia.
  - rewrite <-!(assoc_L (++)). rewrite <-(assoc_L (++)), <-app_comm_cons in Ho. by eapply owing_action.
  - exists tags. destruct Ho as [Hb [H1 H2 H3 H4 H5 H6 H7 H8] Hg Hn]. open_shared s.
    cbn [worker_programs writing] in *. split; [done| |done|fields; lia]. split; fields; try done; lia.
  - cbn [worker_programs writing] in Ho |- *. pose proof Ho as [_ _ _ Hn]. rewrite size_programs_app in Hn.
    eapply owing_add; [exact Ho|apply behaves_on_complete|done..|]. unfold size in *. cbn [length] in *. lia.
  - cbn [worker_programs writing] in Ho. destruct (owing_action _ _ _ _ _ _ _ now Ho) as [tags' Ho'].
    exists tags'. rewrite app_nil_r in Ho'. by destruct (rest s).
  - exists tags. destruct Ho as [Hb [H1 H2 H3 H4 H5 H6 H7 H8] Hg Hn]. open_shared s.
    split; [done| | |done]; [by split|]. fields. eapply Forall_impl; [exact Hg|]. done.
Qed.

Lemma initial_sound : sound (initial write_queue_capacity).
Proof.
  exists []. split; [constructor| |constructor|by cbn].
  split; cbn; try done; lia.
Qed.

Lemma reachable_sound sys :
  rtc system_step (initial write_queue_capacity) sys → sound sys.
Proof.
  assert (∀ a b, rtc system_step a b → sound a → sound b) as Hr.
  { induction 1 as [|a b c Hab _ IH]; [done|]. intros Ha. by eapply IH, step_sound. }
  intros Hs. eapply Hr, initial_sound. done.
Qed.

End Invariant.

(** ** Properties *)

(** C23: the admission tracker under every interleaving of the atomic actions of any requests and
    the worker. The in-flight count never underflows: it is at least the commands in the channel
    and exceeds them by no more than the requests and the worker that are under way. The buffer
    of events keeps at most 32, each with a handle of at most 67 bytes. And whenever no request
    and no completion is under way, the count is exact, the queue-full responses are counted
    once each, and, while the worker lives, the daemon is reported saturated only above the
    recovery watermark: saturation is never left behind by a race, and a drained daemon is idle. *)
Theorem pressure_sound write_queue_capacity s requests worker :
  rtc system_step (initial write_queue_capacity) (System.mk s requests worker) →
  let self := s.(Shared.pressure) in
  (s.(Shared.queued) <= self.(PressureTracker.inflight))%N
  ∧ (self.(PressureTracker.inflight) <= s.(Shared.queued) + size requests + 1)%N
  ∧ (s.(Shared.queued) <= write_queue_capacity)%N
  ∧ length self.(PressureTracker.events) ≤ PRESSURE_EVENT_CAPACITY
  ∧ Forall (λ e, String.length e.(PressureEvent.request_id) ≤ PRESSURE_REQUEST_HANDLE_MAX_BYTES + 3)
      self.(PressureTracker.events)
  ∧ (requests = [] → worker_programs worker = [] →
      self.(PressureTracker.inflight) = (s.(Shared.queued) + writing worker)%N
      ∧ self.(PressureTracker.total_rejections) = s.(Shared.retryable_overload)
      ∧ (s.(Shared.connected) = true →
          (PressureTracker.state self = PressureState.Saturated →
             (N.max write_queue_capacity 1 / 2 < s.(Shared.queued) + writing worker)%N)
          ∧ ((s.(Shared.queued) + writing worker)%N = 0%N →
             PressureTracker.state self = PressureState.Idle))).
Proof.
  intros Hr self. apply reachable_sound in Hr as (tags & [Hb [H1 H2 H3 H4 H5 H6 H7 [H8 H9]] _ Hn]).
  cbn [System.shared System.worker System.requests] in *. fold self in H1, H2, H3, H6, H7, H9. rewrite H8 in H5.
  pose proof (places_le _ _ _ Hb) as Hp. rewrite size_programs_app in Hp. pose proof (size_worker worker) as Hw.
  split; [lia|]. split; [lia|]. split; [done|]. split; [done|]. split; [done|].
  intros -> Hidle. rewrite Hidle in Hb. cbn in Hb. apply Forall2_nil_inv_l in Hb as ->.
  cbn [places owed looks foldr existsb] in *. rewrite N.add_0_r in H1, H3. rewrite N.mod_small in H3 by done.
  split; [done|]. split; [done|]. intros Hcon. specialize (H2 Hcon).
  unfold PressureTracker.recovery_watermark in H2. rewrite H9, H1 in H2. unfold PressureTracker.state. rewrite H1.
  destruct (PressureTracker.saturated self) eqn:Hsat.
  - destruct (H2 eq_refl) as [|Hlt]; [done|]. split; [done|]. intros Hz. rewrite Hz in Hlt.
    by apply N.nlt_0_r in Hlt.
  - split; [by destruct (_ <? _)%N|]. by intros ->.
Qed.

(** ** Examples *)
Module PressureDemo.
(** A program on its own. *)
Fixpoint run (now : N) (p : program) (s : SharedState) : SharedState :=
  match p with Done => s | Atomic action rest => run now (rest s) (action now s) end.
Definition all (ps : list program) : SharedState :=
  foldl (λ s p, run 7 p s) (System.shared (initial 2)) ps.
Definition reject (id : string) : program := on_reject "records/ingest" id Done.
Definition report (s : SharedState) :=
  (PressureTracker.state s.(Shared.pressure), s.(Shared.pressure).(PressureTracker.total_rejections),
   PressureEvent.transition <$> s.(Shared.pressure).(PressureTracker.events)).
End PressureDemo.

(** A full queue saturates once, and recovers at the watermark. *)
Example saturates_and_recovers :
  PressureDemo.report (PressureDemo.all [on_enqueue Done; on_enqueue Done; PressureDemo.reject "req-1";
                                         PressureDemo.reject "req-2"])
  = (PressureState.Saturated, 2%N, ["entered_saturation"])
  ∧ PressureDemo.report (PressureDemo.all [on_enqueue Done; on_enqueue Done; PressureDemo.reject "req-1";
                                           PressureDemo.reject "req-2"; on_complete Done])
  = (PressureState.Busy, 2%N, ["entered_saturation"; "exited_saturation"]).
Proof. split; vm_compute; reflexivity. Qed.

(** A rejection recorded after the queue drained does not stick. *)
Example late_rejection_recovers :
  PressureDemo.report (PressureDemo.all
    [on_enqueue Done; on_enqueue Done; on_enqueue Done; on_complete Done; on_complete Done;
     on_reject_after_rollback "records/ingest" "req-late" Done])
  = (PressureState.Idle, 1%N, ["entered_saturation"; "exited_saturation"]).
Proof. vm_compute. reflexivity. Qed.

(** A request is counted, sent and taken by the worker: the daemon is not saturated. *)
Lemma pressure_sound_witness :
  ∃ s, rtc system_step (initial 2) (System.mk s [] Writing)
    ∧ s.(Shared.pressure).(PressureTracker.inflight) = 1%N
    ∧ PressureTracker.state s.(Shared.pressure) ≠ PressureState.Saturated.
Proof.
  assert (∃ s, rtc system_step (initial 2) (System.mk s [] Writing)
            ∧ s.(Shared.queued) = 0%N ∧ s.(Shared.connected) = true) as (s & Hr & Hq & Hc).
  { eexists. split; [|split; [|]].
    - refine (rtc_l _ _ _ _ (step_request _ [] _ "r" _) _); [vm_compute; reflexivity|].
      refine (rtc_l _ _ _ _ (step_action _ [] _ _ [] _ 0) _).
      refine (rtc_l _ _ _ _ (step_action _ [] _ _ [] _ 0) _).
      refine (rtc_l _ _ _ _ (step_receive _ [] _ _) _); [reflexivity|vm_compute; reflexivity|].
      apply rtc_refl.
    - reflexivity.
    - reflexivity. }
  exists s. split; [exact Hr|].
  destruct (pressure_sound 2 s [] Writing Hr) as (_ & _ & _ & _ & _ & Hidle).
  destruct (Hidle eq_refl eq_refl) as (Hi & _ & Hstate). rewrite Hq in Hi, Hstate. split; [exact Hi|].
  intros Hsat. apply (proj1 (Hstate Hc)) in Hsat. vm_compute in Hsat. discriminate Hsat.
Defined.
